(* ===== verification/_CoqProject ===== *)
-Q . S2P
Prelude.v
RustStr.v
PatchParser.v
SeekSequence.v
Replacements.v
ApplyPatch.v
StreamText.v
InlineHiddenTag.v
Citation.v
TaggedLine.v
ProposedPlan.v
AssistantText.v
Utf8Stream.v
HeadTailBuffer.v
Models.v
Truncate.v
Normalize.v
History.v
ExecPolicy.v
Paths.v
Permissions.v
PermissionsLegacy.v
PermissionsTyped.v
Safety.v
BashParse.v
CommandSafety.v
Guards.v
Readiness.v
Compact.v
Rollout.v
IpAddr.v
NetworkPolicy.v
NetworkProxy.v
ExecApproval.v
Sandboxing.v
Orchestrator.v
ApprovalCache.v
TurnState.v
ShellRuntime.v
ShellTool.v
PatchTool.v
NetworkApproval.v
ConfigLayers.v
ConfigRequirements.v
ConfigLoader.v
PolicyFiles.v
Invocation.v
ExecEnv.v
TurnDiff.v
ThreadHistory.v
Bwrap.v
BwrapView.v
BwrapOps.v
BwrapSound.v
BwrapStarts.v
LinuxSandbox.v
ExecOutput.v
