(* ===== verification/Prelude.v ===== *)
(** * A verification of the deterministic core of the Codex engine

    The repository is a desktop front end around the Rust engine under
    [src/codex-rs].  A turn of the agent goes through the parts verified here:
    the model's reply arrives as bytes, is decoded and split into visible text,
    citations and plans; the reply and the tool outputs are recorded in a
    transcript, truncated to a budget, and sent back with every call paired
    with its output; a transcript that grows too long is compacted, and a
    session is rebuilt from the items of its rollout; a command the model asks
    for is taken apart, judged by the list of safe commands and the exec policy,
    and confined to the paths its sandbox policy lets it read and write and the
    hosts the network proxy lets it reach; its output is collected in a bounded
    buffer; a patch the model writes is parsed, checked against the writable
    roots, matched against the lines of the files and applied; further agents
    are spawned under a limit.  Before a command or a patch runs, the
    orchestrator asks for what the exec policy, the permissions and the sandbox
    leave to the user, whose answers the session routes back to the request
    that waits for them; a host the proxy does not know is asked for in the
    same way.  On Linux the policy becomes the arguments of bubblewrap and a
    filter of system calls.  What is in force comes from the layers of the configuration,
    held to what an administrator requires, and from the policy files beside
    them.

    ** Files and the code they model

    - [Prelude] (this file): [outcome], the type of a Rust computation that
      returns a value or an error, panics, or runs out of fuel; saturating
      machine integers; tactics, the hint database [codex], generic lemmas.
    - [RustStr]: [char] and [str] operations of the Rust standard library.

    Patches ([apply-patch/src]):
    - [PatchParser] ([parser.rs]): [Hunk] and [UpdateFileChunk]; the boundary
      checks of both modes, [parse_one_hunk], [parse_update_file_chunk],
      [parse_patch_text], [parse_patch].
    - [SeekSequence] ([seek_sequence.rs]): the search for a block of lines in
      four passes, from exact to normalised punctuation.
    - [Replacements] ([lib.rs]): [compute_replacements], [apply_replacements]
      and [derive_new_contents_from_chunks] (without its reading of the file).
    - [ApplyPatch] ([lib.rs]): [apply_hunks_to_files], [apply_hunks],
      [apply_patch], [print_summary].  The file system is the class
      [FileSystem] with the laws [FileSystemLaws]; [mem_FileSystem] is an
      in-memory instance of both.
    - [Invocation] ([invocation.rs]): which commands are patches, and the
      changes of a patch that are checked and shown before it runs.

    Streams ([utils/stream-parser/src]):
    - [StreamText] ([stream_text.rs]): the trait [StreamTextParser] as a class,
      and the class [ChunkInvariant], what a client relies on.
    - [InlineHiddenTag], [Citation], [TaggedLine], [ProposedPlan] (the files of
      those names): the two generic parsers, each with its buffer as the state,
      and the two parsers built on them, instances of the interface.
    - [AssistantText] ([assistant_text.rs]): the composition of the two,
      verified against [ChunkInvariant].
    - [Utf8Stream] ([utf8_stream.rs]): the byte decoder around any parser,
      with [std::str::from_utf8] and its errors.

    Transcript and output ([core/src], [protocol/src]):
    - [HeadTailBuffer] ([unified_exec/head_tail_buffer.rs]): the buffer of
      process output.
    - [Models] ([protocol/src/models.rs]): the items of a conversation.
    - [Truncate] ([truncate.rs]): byte and token budgets.
    - [Normalize] ([context_manager/normalize.rs]) and [History]
      ([context_manager/history.rs], [contextual_user_message.rs], the token
      counters of [protocol.rs]): the record [ContextManager], one definition
      per method.

    Command policy ([execpolicy/src]):
    - [ExecPolicy] ([policy.rs], [rule.rs], [decision.rs],
      [executable_name.rs], the text format of [amend.rs]): rules, overlays,
      evaluation, network domains, host names.
    - [BashParse] ([shell-command/src/bash.rs], [shell_detect.rs]): the plain
      commands of a script, over the syntax trees of tree-sitter.
    - [CommandSafety] ([shell-command/src/command_safety]): the lists of safe
      and of dangerous commands, and the PowerShell list.

    Permissions ([protocol/src/permissions.rs], [protocol/src/protocol.rs],
    [utils/absolute-path], [core/src/safety.rs]):
    - [Paths]: paths as lists of components, [AbsolutePathBuf]; the process,
      the file system and the crate [path_absolutize] are the class [PathEnv]
      with the laws [PathLaws], and [lexical_PathEnv] is an instance of both.
    - [Permissions]: policies as entries, [resolve_access_with_cwd], readable,
      writable and unreadable roots with their carve-outs, the legacy
      [SandboxPolicy] and the translations; [PermissionsLegacy] the theorems
      about the translations, [PermissionsTyped] those about the results' types.
    - [Safety]: [assess_patch_safety], the approval of a patch.

    Tools and approvals ([core/src], [core/src/tools]):
    - [ExecApproval] ([exec_policy.rs], [execpolicy/src/amend.rs]): what a
      command needs before it runs, and the rules an approval adds.
    - [Sandboxing] ([sandboxing/mod.rs], [sandboxing/macos_permissions.rs]):
      permission profiles, the policy widened by them, the choice of the
      sandbox and the command line behind it.
    - [Orchestrator] ([tools/orchestrator.rs], [tools/sandboxing.rs], the
      registrations of [tools/network_approval.rs]): the traits of a tool as
      the class [ToolRuntime] with [ToolRuntimeLaws]; a run is a program whose
      events are the user, the tool and the network service.
    - [ApprovalCache] ([tools/sandboxing.rs]): answers kept for the session.
    - [TurnState] ([state/turn.rs], [tasks/mod.rs], the requests of
      [codex.rs]): pending requests and their channels, input, grants.
    - [ShellRuntime] ([shell.rs], [shell-command/src/powershell.rs],
      [command_canonicalization.rs], [tools/runtimes/mod.rs]): command lines.
    - [ShellTool] ([tools/handlers/mod.rs], [tools/handlers/shell.rs],
      [tools/runtimes/shell.rs], [tools/runtimes/unified_exec.rs]) and
      [PatchTool] ([apply_patch.rs], [tools/handlers/apply_patch.rs],
      [tools/runtimes/apply_patch.rs]): the handlers, from the call to the run
      of the orchestrator, and their runtimes, instances of [ToolRuntime].
    - [NetworkApproval] ([tools/network_approval.rs],
      [network_policy_decision.rs]): the service that answers the proxy.
    - [ExecEnv] ([exec_env.rs], [config/types.rs],
      [unified_exec/process_manager.rs]): the environment of a command.
    - [ExecOutput] ([exec.rs], [text_encoding.rs],
      [unified_exec/async_watcher.rs]): what a command printed, how it ended,
      and the pieces in which a process's output is streamed.
    - [TurnDiff] ([turn_diff_tracker.rs], [tools/events.rs]): the snapshots
      and moves of a turn's patches, its diff, and the events of a patch.

    Linux sandbox ([linux-sandbox/src], [vendor/bubblewrap]):
    - [Bwrap] ([bwrap.rs]): the arguments of bubblewrap for a policy.
    - [BwrapView] ([bubblewrap.c], [utils.c]): how bubblewrap reads them, and
      the mounts its operations leave.
    - [BwrapOps], [BwrapSound], [BwrapStarts]: the two together, with the laws
      [RealHost] and [HostTree] of a host without symbolic links.
    - [LinuxSandbox] ([linux_run_main.rs], [landlock.rs]): the helper, from
      its command line to the program it executes.

    Configuration ([config/src], [core/src]):
    - [ConfigLayers] ([merge.rs], [overrides.rs], [fingerprint.rs],
      [state.rs]): values of TOML, their merging, layers and their stack.
    - [ConfigRequirements] ([constraint.rs], [config_requirements.rs],
      [requirements_exec_policy.rs], and of [config/mod.rs] what applies them):
      constrained values, the sources of requirements and their merging.
    - [ConfigLoader] ([config_loader/mod.rs], [config_loader/layer_io.rs],
      [git_info.rs]): the layers from their files, and the trust in a project.
    - [PolicyFiles] ([execpolicy/src/parser.rs], [exec_policy.rs]): what a
      policy file may call, and the policy loaded from all of them.

    Sessions ([core/src], [utils/readiness]):
    - [Guards] ([agent/guards.rs]): the counters and nicknames of spawned
      agents, as steps of concurrent threads with reservations.
    - [Readiness] ([utils/readiness/src/lib.rs]): the readiness flag as a
      transition system of concurrent operations.
    - [Compact] ([compact.rs]): the history that replaces a compacted one.
    - [Rollout] ([rollout/policy.rs], [rollout/truncation.rs],
      [codex/rollout_reconstruction.rs]): which items are persisted, and the
      reverse scan and replay that rebuild a session.

    - [ThreadHistory] ([app-server-protocol/src/protocol/thread_history.rs],
      [agent/status.rs]): the turns a client is shown, built from the events.

    Network proxy ([network-proxy/src]):
    - [IpAddr] ([policy.rs]): addresses of [std::net] and the non-public ranges.
    - [NetworkPolicy] ([policy.rs]): host normalisation, domain patterns and
      the globs they compile to; the crate [globset] is the class [GlobLib]
      with the laws [GlobLaws].
    - [NetworkProxy] ([config.rs], [state.rs], [runtime.rs],
      [network_policy.rs]): the configuration and its clamps, the constraints
      of managed policies, the shared state with its reloads, allow and deny
      list updates, the buffer of blocked requests, the decision for a host.

    ** What the theorems show

    - Patches. The parser returns on every text, takes only texts between the
      patch markers and inverts the printer of the grammar; a heredoc around a
      patch changes nothing. The line search finds the first match of the
      strictest pass that has one. No index is out of range; the new contents
      are a left-to-right splice of the old lines; they end in a newline. A run
      over the file system refines an abstract step on file contents, a failed
      run has applied exactly a prefix of the hunks, and [apply_patch] never
      panics. The changes announced for a patch are those its run makes, and
      one approved unasked writes only where the policy allows. Further
      theorems record surprising behaviour: an added block that is lost, a move
      onto the same path that deletes, a move hidden from the check by a later
      hunk, a quoted directory of which a fragment is taken.
    - Streams. However a text is cut into chunks, and a text's bytes are cut
      into chunks, the parsers emit what they emit on the whole text; the line
      parser agrees with a line-by-line reference; documents built from visible
      text, citations and plans are taken apart again; a decoding error leaves
      the parser as it was.
    - Transcript and output. The buffer shows the head and the tail of the
      bytes it was given and counts the rest. Truncated text is a prefix and
      a suffix of the input that are within the budget together, with a
      marker between them that comes on top of it. After normalisation every
      call with an id has an output and every output its call, but for those
      of searches the server ran; normalisation of its own result changes
      nothing, removal of an item removes its counterpart, and a rollback
      cuts at the right user turn, which a message the engine wrapped never
      is. Recording keeps what it should and truncates only tool outputs;
      token counters add up, and the total saturates; a payload is found in
      exactly the base64 image URLs.
    - Policy. The matches of a command are exactly the rules that accept it;
      the decision for several commands is the most restrictive one of all; an
      overlay cannot loosen what an exact rule decides; an added prefix rule
      matches exactly the commands with that prefix; the last network rule for
      a host wins; host names are normalised; a line appended to a policy file
      is a line of its own. A script counts as plain commands exactly when its
      tree has only allowed nodes and literal words; a command on the safe list
      is never on the dangerous one; the git commands on the list are read-only
      subcommands without configuration overrides.
    - Permissions. Access to a path is decided by the most specific entry
      that covers it; the writable roots describe exactly the writable paths,
      up to the [.git], [.agents] and [.codex] they protect; roots are
      absolute and normalised; the legacy policies keep their meaning through
      the translation and come back from it; a patch is applied unasked only
      inside the writable paths.
    - Sessions. In every interleaving the number of agents stays within the
      limit and nicknames are not shared; the readiness flag becomes ready
      only when every subscriber is done and every waiter is then woken.
      Compaction keeps the newest user messages within its budget and is
      stable under repetition. Reconstruction in reverse equals the forward
      replay of the rollout, on persisted items too, and a rolled-back turn
      leaves no trace in the metadata; the one case in which it does in the
      history is a theorem of its own. The turns shown for a log are its
      turns with their messages and outcomes, the late end of a call is in
      the turn it names, and ids are not used twice, rollbacks included.
    - Network proxy. In every reachable state the compiled policy is that of
      the configuration and satisfies the constraints; a managed policy
      admits exactly the configurations within its bounds; a pattern admits
      exactly the hosts it includes; the decision for a host is given by a
      table over the configuration, the address and what the host resolves
      to, a denied or non-public host is blocked before any decider is asked;
      the buffer of blocked requests is the newest part of the log.

    - Tools and approvals. The requirement of a command is the most
      restrictive verdict over its parts, and one that runs unasked and
      uncovered by rules is safe, confined, or the user waived being asked; a
      rule added for a prefix takes effect. Union and intersection of
      permission profiles grant what either and what both grant, and with
      additional permissions the most specific of the policy and the
      requested paths decides. In every run of the orchestrator an attempt
      has its consent and a network registration its release; composed with
      the handlers, a shell command or a patch leaves the sandbox only with
      consent, and runs with no permission that was not granted or asked for.
      An approval comes from the cache only for keys that were all approved.
      A request that is answered or given up returns just that, and once its
      turn is over it is one of them; grants and input are accounted for. The
      snapshot wrapper runs the command it wraps. A blocked host is let
      through only after an approving answer for it or when its approval was
      copied from another session, there is one question per host, and no
      request waits for nobody. The environment of a command is that of a
      definition per variable, which lets no excluded secret through. The
      stream of a process's output has in order all that its receiver did not
      lose or leave behind when the time for the last output was over, cut
      between characters where the chunks are text; a command's result has
      its exit code and the first bytes of its output. The diff of a turn
      compares every file its patches named with what it was when it was
      first named. Further theorems record surprising behaviour: a rule for
      one command of a script takes all of it out of the sandbox, a read
      permission removes a write, a request outside a turn never returns,
      PowerShell arguments missing from an approval, a patch unconfined under
      on-failure, a granted write asked for again, an abandoned question that
      blocks its host, a declined move shown as a deletion, an overwritten
      file and an emptied diff not shown, two counts of the turns of a
      rollback, characters broken in a stream, output lost to a child in the
      background or decoded as another encoding.

    - Linux sandbox. Whatever a command finds of the host in the view set up
      for a policy, device nodes aside, the policy lets it read, and write
      where it can be written; without denials the view has everything the
      policy grants; the helper runs the command with the filter in place
      whenever the network is restricted, inside bubblewrap, where it reads
      the command line it wrote for itself, or where bubblewrap is not
      needed. Further theorems record surprising behaviour: nested denials
      and some protected paths with which nothing starts, a readable path
      that is hidden, a protected path that is created, a denied file of a
      worktree that is readable.

    - Configuration. A setting is that of the highest enabled layer that says
      anything about it; the layers are loaded in the order of precedence, and
      the settings of a project that is not trusted decide nothing. Of the
      requirements the first source wins; they are refused exactly when an
      entry is malformed, and then with its error; no configured value is in
      force against them, and a required rule only ever restricts. A policy
      file is accepted exactly when its calls are valid and its examples hold,
      and gives exactly the rules of its calls. Further theorems record
      surprising behaviour: origins of settings that are no longer there or
      confused by dots in names, a forged worktree that is trusted, rules of an
      untrusted project that are loaded, a project that cannot override.

    ** Conventions

    A [usize], [u64] or [i64] is a [Z] with the wrap or saturation of the code
    written out, or a [nat] where it only counts elements of a list in memory.
    An [f64] is a [SpecFloat] number.  [usize] has 64 bits.  A string is a list
    of scalar values; slices at a byte offset inside a character panic.

    Loops that are not structural take fuel.  [parse_hunks],
    [parse_update_chunks] and [push_loop] get one more unit than the lines or
    characters left, and every round consumes at least one of them; theorems
    (not side conditions) say that [NoFuel] is never the result.

    Code that is not in the repository is an argument: the file system, the
    JSON length of an item and the type of JSON values ([serde_json]), the
    size of an image ([base64], [image]), the home directory,
    [path_absolutize] and the platform, [debug_assertions], the tree-sitter
    and PowerShell parsers, the random choice of a nickname, [globset], the
    URL parser, the DNS lookup, the reloader of the proxy, its decider and
    whether a MITM state exists, [shlex], the seatbelt profile, the reading
    of TOML ([toml], [serde]) and the hash of a layer ([sha2]), the
    evaluation of Starlark up to the calls it makes, [chardetng],
    [encoding_rs] and [str::to_lowercase], the line diff of [similar],
    [wildmatch], [git hash-object], fresh identifiers, which snapshot files
    exist and how their directories compare, and for the Linux helper the
    executable's path, the JSON of its policies, the argument parser [clap],
    the proxy bridges, the terminal and what the kernel answers ([BwrapEnv],
    [HelperEnv]). What users, guardians, tools and networks answer are events
    of the runs. Theorems hold for all of them, under the laws of
    [FileSystemLaws], [PathLaws], [GlobLaws], [WildMatchLaws], [RealHost],
    [HostTree] and [HelperLaws] for the classes, and for [TurnDiff] the ones
    its section names.  Concurrent code is a step relation whose steps are
    the sections that hold a lock or an atomic operation; [tokio]'s [watch]
    channel is its current value.

    ** Not modelled, and the plan

    Asynchronous orchestration, network clients, the system calls of sandboxes,
    databases, the Starlark and tree-sitter front ends and the user interface
    are I/O around third-party code. Left out of modelled files: the diff
    rendering of [apply-patch] (crate [similar]), [estimate_token_count] (model
    catalogue), [get_allowed_prefixes], file locking in [amend.rs], the HTTP
    and SOCKS servers and the audit events of [network-proxy], the zsh-fork
    backend and the process manager behind the shell tools, the derivation of
    the settings of [Config] from the effective configuration, the spawning of
    processes and the store of unified exec, the branches of [tools/events.rs]
    for shell commands, the options of bubblewrap the code does not use, the
    bridges of the proxy mode ([proxy_routing.rs]). What could come next: the
    command summaries of [shell-command/src/parse_command.rs] and the dangerous
    PowerShell commands. *)

From stdpp Require Import base tactics option list sets numbers sorting.
From stdpp Require Import options.

(** ** Rust computations

    A Rust function that can fail, panic or loop is a value of [outcome].
    [Ok] and [Err] are the two constructors of [Result]; [Panic] is an
    unwinding panic (index out of bounds, a failed [expect]); [NoFuel] is what
    a fuelled loop returns when its fuel runs out, and the development proves
    for each such loop that it never does. *)
Inductive outcome (E A : Type) : Type :=
  | Ok (a : A)
  | Err (e : E)
  | Panic
  | NoFuel.
Arguments Ok {E A} _.
Arguments Err {E A} _.
Arguments Panic {E A}.
Arguments NoFuel {E A}.

#[export] Instance outcome_ret E : MRet (outcome E) := fun A a => Ok a.
#[export] Instance outcome_bind E : MBind (outcome E) := fun A B f m =>
  match m with
  | Ok a => f a
  | Err e => Err e
  | Panic => Panic
  | NoFuel => NoFuel
  end.
#[export] Instance outcome_fmap E : FMap (outcome E) := fun A B f m =>
  match m with
  | Ok a => Ok (f a)
  | Err e => Err e
  | Panic => Panic
  | NoFuel => NoFuel
  end.

(** [e.map_err(f)]. *)
Definition map_err {E F A} (f : E → F) (m : outcome E A) : outcome F A :=
  match m with
  | Ok a => Ok a
  | Err e => Err (f e)
  | Panic => Panic
  | NoFuel => NoFuel
  end.

(** The computation returned normally: with a value or with an error value. *)
Definition returns {E A} (m : outcome E A) : Prop :=
  match m with Ok _ | Err _ => True | Panic | NoFuel => False end.

(** A total-correctness triple without state: [m] returns, and a value it
    returns satisfies [P]. *)
Definition safe {E A} (m : outcome E A) (P : A → Prop) : Prop :=
  match m with Ok a => P a | Err _ => True | Panic | NoFuel => False end.

#[export] Instance outcome_eq_dec {E A} `{EqDecision E} `{EqDecision A} :
  EqDecision (outcome E A).
Proof. solve_decision. Defined.

(** ** Machine integers: [usize] and [u64] on the 64-bit targets the code
    ships for, [i64], with their saturating operations. *)
Definition usize_max : Z := (2 ^ 64 - 1)%Z.
Definition i64_max : Z := (2 ^ 63 - 1)%Z.
Definition i64_min : Z := (- 2 ^ 63)%Z.
Definition sat_add (x y : Z) : Z := Z.min usize_max (x + y).
Definition sat_sub (x y : Z) : Z := Z.max 0 (x - y).
Definition sat_mul (x y : Z) : Z := Z.min usize_max (x * y).
Definition sat_add_i64 (x y : Z) : Z := Z.max i64_min (Z.min i64_max (x + y)).
Definition sat_sub_i64 (x y : Z) : Z := Z.max i64_min (Z.min i64_max (x - y)).

Definition is_usize (x : Z) : Prop := (0 ≤ x ≤ usize_max)%Z.

(** ** Automation *)
Create HintDb codex.

(** Case analysis on the [match] of a hypothesis, keeping the equation. *)
Ltac inv_match H :=
  match type of H with
  | context [match ?x with _ => _ end] => destruct x eqn:?; simplify_eq/=
  end.

(** Splits every [match] of the goal, keeping the equations. *)
Ltac split_match :=
  repeat match goal with
  | |- context [match ?x with _ => _ end] => destruct x eqn:?; simplify_eq/=
  end.

(** Decides a boolean test by cases. *)
Ltac bool_cases :=
  repeat match goal with
  | H : _ && _ = true |- _ => apply andb_true_iff in H as [? ?]
  | H : _ || _ = false |- _ => apply orb_false_iff in H as [? ?]
  | H : negb _ = true |- _ => apply negb_true_iff in H
  | H : negb _ = false |- _ => apply negb_false_iff in H
  | H : bool_decide _ = true |- _ => apply bool_decide_eq_true_1 in H
  | H : bool_decide _ = false |- _ => apply bool_decide_eq_false_1 in H
  end.

Ltac usize_lia := unfold sat_add, sat_sub, sat_mul, is_usize, usize_max in *; lia.

(** ** Generic lemmas on outcomes *)
Section outcome_lemmas.
Context {E A B : Type}.

Lemma bind_Ok_inv (f : A → outcome E B) (m : outcome E A) (b : B) :
  (m ≫= f) = Ok b ↔ ∃ a, m = Ok a ∧ f a = Ok b.
Proof. destruct m; cbn; naive_solver. Qed.

Lemma bind_Err_inv (f : A → outcome E B) (m : outcome E A) (e : E) :
  (m ≫= f) = Err e ↔ m = Err e ∨ ∃ a, m = Ok a ∧ f a = Err e.
Proof. destruct m; cbn; naive_solver. Qed.

Lemma safe_bind (f : A → outcome E B) (m : outcome E A) (P : A → Prop) (Q : B → Prop) :
  safe m P → (∀ a, P a → safe (f a) Q) → safe (m ≫= f) Q.
Proof. destruct m; cbn; naive_solver. Qed.

Lemma safe_mono (m : outcome E A) (P Q : A → Prop) :
  safe m P → (∀ a, P a → Q a) → safe m Q.
Proof. destruct m; cbn; naive_solver. Qed.

Lemma safe_Ok (m : outcome E A) (P : A → Prop) (a : A) : safe m P → m = Ok a → P a.
Proof. by intros ? ->. Qed.

Lemma safe_returns (m : outcome E A) (P : A → Prop) : safe m P → returns m.
Proof. by destruct m. Qed.

Lemma returns_safe (m : outcome E A) : returns m ↔ safe m (λ _, True).
Proof. by destruct m. Qed.
End outcome_lemmas.
#[export] Hint Resolve safe_bind safe_returns : codex.

(** ** Generic lemmas on lists and boolean tests *)
Lemma elem_of_filterb {A} (f : A → bool) l x : x ∈ List.filter f l ↔ f x = true ∧ x ∈ l.
Proof. rewrite !list_elem_of_In, filter_In. tauto. Qed.

Lemma existsb_elem {A} (f : A → bool) l : existsb f l = true ↔ ∃ x, x ∈ l ∧ f x = true.
Proof. rewrite existsb_exists. by setoid_rewrite list_elem_of_In. Qed.

Lemma forallb_elem {A} (f : A → bool) l : forallb f l = true ↔ ∀ x, x ∈ l → f x = true.
Proof. rewrite forallb_forall. by setoid_rewrite list_elem_of_In. Qed.

Lemma forallb_false_elem {A} (f : A → bool) l : forallb f l = false → ∃ x, x ∈ l ∧ f x = false.
Proof.
  induction l as [|x l IH]; [done|]. cbn [forallb]. destruct (f x) eqn:E; [|by exists x; split; [left|]].
  intros (y & ? & ?)%IH. exists y. split; [by right|done].
Qed.

Lemma elem_option_list {A} (o : option A) x : x ∈ option_list o ↔ o = Some x.
Proof. destruct o; simpl; rewrite ?list_elem_of_singleton, ?elem_of_nil; naive_solver. Qed.

Lemma filterb_id {A} (f : A → bool) l : (∀ x, x ∈ l → f x = true) → List.filter f l = l.
Proof.
  induction l as [|x l IH]; intros Hf; [done|]. simpl. rewrite Hf by set_solver.
  f_equal. apply IH. set_solver.
Qed.

Lemma prefix_of_same_length {A} (l1 l2 k : list A) :
  l1 `prefix_of` k → l2 `prefix_of` k → length l1 ≤ length l2 → l1 `prefix_of` l2.
Proof.
  intros H1 H2 Hl. destruct (prefix_weak_total l1 l2 k H1 H2) as [?|H3]; [done|].
  assert (l2 = l1) as ->; [|done]. by apply prefix_length_eq.
Qed.

Lemma Ok_inj_iff {E A} (a b : A) : @Ok E A a = Ok b ↔ a = b.
Proof. naive_solver. Qed.

(** ** The stable sort of [slice::sort_by_key] *)
Section SortByKey.
Context {A : Type} (key : A → nat).

Fixpoint insert_by_key (x : A) (l : list A) : list A :=
  match l with
  | [] => [x]
  | y :: l' => if key x <=? key y then x :: l else y :: insert_by_key x l'
  end.

Fixpoint sort_by_key (l : list A) : list A :=
  match l with
  | [] => []
  | x :: l' => insert_by_key x (sort_by_key l')
  end.

Abbreviation key_sorted := (StronglySorted (λ x y, key x ≤ key y)).

Lemma insert_by_key_perm x l : insert_by_key x l ≡ₚ x :: l.
Proof.
  induction l as [|y l IH]; simpl; [done|]. case_match; [done|].
  rewrite IH. apply Permutation_swap.
Qed.

Lemma sort_by_key_perm l : sort_by_key l ≡ₚ l.
Proof. induction l as [|x l IH]; simpl; [done|]. by rewrite insert_by_key_perm, IH. Qed.

Lemma insert_by_key_sorted x l : key_sorted l → key_sorted (insert_by_key x l).
Proof.
  induction 1 as [|y l Hs IH HF]; simpl; [by repeat constructor|].
  destruct (Nat.leb_spec (key x) (key y)).
  - constructor; [by constructor|]. constructor; [done|].
    eapply Forall_impl; [done|]. simpl. lia.
  - constructor; [done|]. rewrite insert_by_key_perm. constructor; [simpl; lia|done].
Qed.

Lemma sort_by_key_sorted l : key_sorted (sort_by_key l).
Proof. induction l; simpl; [constructor|]. by apply insert_by_key_sorted. Qed.

Lemma sort_by_key_id l : key_sorted l → sort_by_key l = l.
Proof.
  induction 1 as [|x l Hs IH HF]; simpl; [done|]. rewrite IH.
  destruct l as [|y l]; simpl; [done|].
  apply Forall_cons in HF as [? _]. by rewrite (proj2 (Nat.leb_le _ _)).
Qed.
End SortByKey.
