(* ===== verification/RustStr.v ===== *)
(** * Rust strings

    A Rust [String]/[&str] is a sequence of Unicode scalar values; a [char] is
    its scalar value as an [N].  The functions below are the ones of [str] and
    [char] the modelled code calls.  A position of the code (a byte offset on
    a character boundary) is a number of characters here; [str_len] is the
    byte length [str::len], used where the code compares or sums lengths. *)
From stdpp Require Import base tactics option list numbers strings.
From Stdlib Require Import Ascii DecimalString.
From S2P Require Import Prelude.
From stdpp Require Import options.

Abbreviation char := N.
Abbreviation str := (list N).

(** An ASCII string literal of the source. *)
Definition lit (s : string) : str :=
  N_of_ascii <$> String.list_ascii_of_string s.

Definition NL : char := 10%N.
Definition CR : char := 13%N.

(** [char::is_whitespace]: the Unicode [White_Space] property. *)
Definition is_whitespace (c : char) : bool :=
  ((9 <=? c) && (c <=? 13) || (c =? 32) || (c =? 133) || (c =? 160)
   || (c =? 5760) || (8192 <=? c) && (c <=? 8202) || (c =? 8232) || (c =? 8233)
   || (c =? 8239) || (c =? 8287) || (c =? 12288))%N.

(** [char::len_utf8] and [str::len]. *)
Definition len_utf8 (c : char) : nat :=
  if (c <? 128)%N then 1 else if (c <? 2048)%N then 2
  else if (c <? 65536)%N then 3 else 4.

Definition str_len (s : str) : nat := sum_list (len_utf8 <$> s).

(** [str::trim_start], [trim_end] and [trim]. *)
Fixpoint trim_start (s : str) : str :=
  match s with
  | [] => []
  | c :: s' => if is_whitespace c then trim_start s' else s
  end.

Fixpoint trim_end (s : str) : str :=
  match s with
  | [] => []
  | c :: s' =>
      match trim_end s' with
      | [] => if is_whitespace c then [] else [c]
      | t => c :: t
      end
  end.

Definition trim (s : str) : str := trim_end (trim_start s).

(** [str::strip_prefix], [starts_with], [ends_with]. *)
Fixpoint strip_prefix (p s : str) : option str :=
  match p, s with
  | [], _ => Some s
  | c :: p', d :: s' => if (c =? d)%N then strip_prefix p' s' else None
  | _ :: _, [] => None
  end.

Definition starts_with (p s : str) : bool :=
  match strip_prefix p s with Some _ => true | None => false end.

Definition ends_with (p s : str) : bool :=
  starts_with (reverse p) (reverse s).

Definition strip_suffix (p s : str) : option str :=
  reverse <$> strip_prefix (reverse p) (reverse s).

(** [str::find] with a string pattern: the first position where it occurs. *)
Fixpoint find (p s : str) : option nat :=
  if starts_with p s then Some 0
  else match s with
       | [] => None
       | _ :: s' => S <$> find p s'
       end.

(** [str::split(c)]: the pieces between occurrences of [c]. *)
Fixpoint split (c : char) (s : str) : list str :=
  match s with
  | [] => [[]]
  | d :: s' =>
      if (d =? c)%N then [] :: split c s'
      else match split c s' with
           | [] => [[d]]
           | l :: ls => (d :: l) :: ls
           end
  end.

(** [[T]::join(sep)]. *)
Fixpoint join (sep : str) (ls : list str) : str :=
  match ls with
  | [] => []
  | [l] => l
  | l :: ls' => l ++ sep ++ join sep ls'
  end.

(** [str::lines]: every line ends at a newline, a carriage return before it is
    dropped, and a last empty line is not a line. *)
Definition chop_cr (l : str) : str :=
  match strip_suffix [CR] l with Some l' => l' | None => l end.

Fixpoint lines_of (ls : list str) : list str :=
  match ls with
  | [] => []
  | [l] => match l with [] => [] | _ => [l] end
  | l :: ls' => chop_cr l :: lines_of ls'
  end.

Definition lines (s : str) : list str := lines_of (split NL s).

(** [to_ascii_lowercase], [is_ascii_digit], [eq_ignore_ascii_case]. *)
Definition ascii_lower (c : char) : char :=
  if ((65 <=? c) && (c <=? 90))%N then (c + 32)%N else c.
Definition to_ascii_lowercase (s : str) : str := ascii_lower <$> s.
Definition is_ascii_digit (c : char) : bool := ((48 <=? c) && (c <=? 57))%N.
Definition eq_ignore_ascii_case (a b : str) : bool :=
  bool_decide (to_ascii_lowercase a = to_ascii_lowercase b).

(** Decimal rendering of an unsigned integer by [format!]. *)
Definition show_N (n : N) : str := lit (NilZero.string_of_uint (N.to_uint n)).
Definition show_nat (n : nat) : str := show_N (N.of_nat n).

(** A line the splitter of [str::lines] keeps as it is: no newline in it and
    no carriage return at its end. *)
Definition plain_line (l : str) : bool :=
  bool_decide (NL ∉ l) && negb (ends_with [CR] l).

(** ** Prefixes, suffixes, occurrences *)
Lemma strip_prefix_Some p s r : strip_prefix p s = Some r ↔ s = p ++ r.
Proof.
  revert s; induction p as [|c p IH]; intros s; simpl; [naive_solver|].
  destruct s as [|d s]; [naive_solver|].
  destruct (N.eqb_spec c d); [rewrite IH|]; naive_solver.
Qed.

Lemma strip_prefix_app p r : strip_prefix p (p ++ r) = Some r.
Proof. by apply strip_prefix_Some. Qed.

Lemma strip_prefix_None p s : strip_prefix p s = None ↔ ¬ p `prefix_of` s.
Proof.
  rewrite eq_None_not_Some; unfold is_Some, prefix.
  split; intros H [r Hr]; apply H; exists r; by apply strip_prefix_Some.
Qed.

Lemma starts_with_prefix p s : starts_with p s = true ↔ p `prefix_of` s.
Proof.
  unfold starts_with. destruct (strip_prefix p s) as [r|] eqn:E.
  - apply strip_prefix_Some in E as ->. split; [|done]. intros _. by exists r.
  - apply strip_prefix_None in E. naive_solver.
Qed.

Lemma starts_with_false p s : starts_with p s = false ↔ ¬ p `prefix_of` s.
Proof. rewrite <-not_true_iff_false, starts_with_prefix. done. Qed.

Lemma starts_with_app p s : starts_with p (p ++ s) = true.
Proof. apply starts_with_prefix. by exists s. Qed.

Lemma prefix_reverse (p s : str) :
  reverse p `prefix_of` reverse s ↔ p `suffix_of` s.
Proof. by rewrite <-suffix_prefix_reverse. Qed.

Lemma ends_with_suffix p s : ends_with p s = true ↔ p `suffix_of` s.
Proof. unfold ends_with. by rewrite starts_with_prefix, prefix_reverse. Qed.

Lemma ends_with_false p s : ends_with p s = false ↔ ¬ p `suffix_of` s.
Proof. rewrite <-not_true_iff_false, ends_with_suffix. done. Qed.

Lemma strip_suffix_Some p s r : strip_suffix p s = Some r ↔ s = r ++ p.
Proof.
  unfold strip_suffix. rewrite fmap_Some. setoid_rewrite strip_prefix_Some. split.
  - intros (t & Hs & ->). rewrite <-(reverse_involutive s), Hs, reverse_app.
    by rewrite reverse_involutive.
  - intros ->. exists (reverse r). by rewrite reverse_app, reverse_involutive.
Qed.

Lemma prefix_app_inv_len (p s t : str) :
  length p ≤ length s → p `prefix_of` s ++ t → p `prefix_of` s.
Proof.
  intros Hlen [r Hr]. exists (drop (length p) s).
  rewrite <-(take_drop (length p) s) at 1. f_equal.
  apply (f_equal (take (length p))) in Hr.
  by rewrite take_app_le, take_app_length in Hr.
Qed.

(** [find] returns the first occurrence. *)
Lemma find_Some p s i :
  find p s = Some i ↔ p `prefix_of` drop i s ∧ i ≤ length s ∧ ∀ j, j < i → ¬ p `prefix_of` drop j s.
Proof.
  revert i; induction s as [|c s IH]; intros i; simpl.
  - destruct (starts_with p []) eqn:E.
    + apply starts_with_prefix in E. split; [intros [= <-]; split_and!; [done|lia|lia]|].
      intros (_ & ? & _). f_equal. lia.
    + apply starts_with_false in E. split; [done|]. intros (Hp & ? & _). by destruct i.
  - destruct (starts_with p (c :: s)) eqn:E.
    + apply starts_with_prefix in E. split; [intros [= <-]; split_and!; [done|lia|lia]|].
      intros (_ & _ & Hmin). destruct i as [|i]; [done|]. destruct (Hmin 0); [lia|done].
    + apply starts_with_false in E. rewrite fmap_Some. split.
      * intros (k & (Hp & Hk & Hmin)%IH & ->). split_and!; [done|lia|].
        intros [|j] ?; [done|]. apply Hmin. lia.
      * intros (Hp & Hi & Hmin). destruct i as [|i]; [done|]. exists i. split; [|done].
        apply IH. split_and!; [done|lia|]. intros j ?. apply (Hmin (S j)). lia.
Qed.

Lemma find_length p s i : find p s = Some i → i + length p ≤ length s.
Proof.
  intros (Hp & Hi & _)%find_Some. apply prefix_length in Hp. rewrite length_drop in Hp. lia.
Qed.

Lemma find_None p s : find p s = None ↔ ∀ j, ¬ p `prefix_of` drop j s.
Proof.
  induction s as [|c s IH]; simpl.
  - destruct (starts_with p []) eqn:E.
    + apply starts_with_prefix in E. split; [done|]. intros H. by destruct (H 0).
    + apply starts_with_false in E. split; [|done]. intros _ [|j]; done.
  - destruct (starts_with p (c :: s)) eqn:E.
    + apply starts_with_prefix in E. split; [done|]. intros H. by destruct (H 0).
    + apply starts_with_false in E. rewrite fmap_None, IH. split; [intros H [|j]; [done|apply H]|].
      intros H j. apply (H (S j)).
Qed.

(** Text before which no occurrence starts can be skipped. *)
Lemma find_skip p x y :
  (∀ j, j < length x → ¬ p `prefix_of` drop j (x ++ y)) →
  find p (x ++ y) = (λ i, length x + i) <$> find p y.
Proof.
  intros Hx. destruct (find p y) as [i|] eqn:E; simpl.
  - apply find_Some in E as (Hp & Hi & Hmin). apply find_Some.
    rewrite drop_app_ge, length_app by lia. replace (length x + i - length x) with i by lia.
    split_and!; [done|lia|]. intros j Hj. destruct (decide (j < length x)); [by apply Hx|].
    rewrite drop_app_ge by lia. apply Hmin. lia.
  - apply find_None. intros j. destruct (decide (j < length x)); [by apply Hx|].
    rewrite drop_app_ge by lia. by apply find_None.
Qed.

(** An occurrence inside a text stays the first one when text is appended. *)
Lemma find_app_l p s t i : find p s = Some i → i + length p ≤ length s → find p (s ++ t) = Some i.
Proof.
  intros (Hp & Hi & Hmin)%find_Some Hlen. apply find_Some. rewrite length_app.
  split_and!; [by rewrite drop_app_le by lia; apply prefix_app_r|lia|].
  intros j Hj Hpre. apply (Hmin j Hj). rewrite drop_app_le in Hpre by lia.
  eapply prefix_app_inv_len; [|exact Hpre]. rewrite length_drop. lia.
Qed.

(** The first occurrence of a character. *)
Lemma find_char_Some c s i :
  find [c] s = Some i → ∃ x y, s = x ++ c :: y ∧ (c ∉ x) ∧ length x = i.
Proof.
  intros ([t Ht] & Hi & Hmin)%find_Some. exists (take i s), t. split_and!.
  - change (c :: t) with ([c] ++ t). by rewrite <-Ht, take_drop.
  - intros (j & Hj)%list_elem_of_lookup_1.
    assert (j < i) by (apply lookup_lt_Some in Hj; rewrite length_take in Hj; lia).
    rewrite lookup_take_lt in Hj by done. destruct (Hmin j); [done|].
    exists (drop (S j) s). by rewrite (drop_S s c j).
  - rewrite length_take. lia.
Qed.

Lemma find_char_app c x y : c ∉ x → find [c] (x ++ c :: y) = Some (length x).
Proof.
  intros Hx. rewrite find_skip.
  - change (find [c] (c :: y)) with (if starts_with [c] (c :: y) then Some 0 else S <$> find [c] y).
    rewrite (starts_with_app [c] y : starts_with [c] (c :: y) = true). cbn. f_equal. lia.
  - intros j Hj [t Ht]. destruct Hx. apply (list_elem_of_lookup_2 _ j).
    rewrite <-(lookup_app_l _ (c :: y)) by done.
    rewrite <-(Nat.add_0_r j), <-lookup_drop, Ht. done.
Qed.

(** ** Trimming *)
Definition starts_plain (s : str) : bool :=
  match s with c :: _ => negb (is_whitespace c) | [] => true end.
Definition ends_plain (s : str) : bool :=
  match last s with Some c => negb (is_whitespace c) | None => true end.

Lemma trim_start_id s : starts_plain s = true → trim_start s = s.
Proof. destruct s as [|c s]; simpl; [done|]. by destruct (is_whitespace c). Qed.

Lemma trim_end_id s : ends_plain s = true → trim_end s = s.
Proof.
  unfold ends_plain. induction s as [|c s IH]; simpl; [done|].
  destruct s as [|d s]; [simpl; by destruct (is_whitespace c)|].
  intros H. rewrite IH by done. done.
Qed.

Lemma trim_id s : starts_plain s = true → ends_plain s = true → trim s = s.
Proof. intros. unfold trim. rewrite trim_start_id by done. by apply trim_end_id. Qed.

Lemma ends_plain_app s t : t ≠ [] → ends_plain t = true → ends_plain (s ++ t) = true.
Proof.
  unfold ends_plain. intros Ht. rewrite last_app.
  destruct (last t) eqn:E; [done|]. by apply last_None in E.
Qed.

Lemma trim_app_r s t :
  s ≠ [] → starts_plain s = true → t ≠ [] → ends_plain t = true → trim (s ++ t) = s ++ t.
Proof.
  intros. apply trim_id; [by destruct s|by apply ends_plain_app].
Qed.

(** ** Lines *)
Lemma split_ne_nil c s : split c s ≠ [].
Proof. destruct s; simpl; [done|]. case_match; [done|]. by case_match. Qed.

Lemma split_app_sep c l s : c ∉ l → split c (l ++ c :: s) = l :: split c s.
Proof.
  induction l as [|d l IH]; intros Hl; simpl.
  - by rewrite N.eqb_refl.
  - apply not_elem_of_cons in Hl as [? ?].
    destruct (N.eqb_spec d c); [congruence|]. by rewrite IH.
Qed.

Lemma split_none c l : c ∉ l → split c l = [l].
Proof.
  induction l as [|d l IH]; intros Hl; simpl; [done|].
  apply not_elem_of_cons in Hl as [? ?].
  destruct (N.eqb_spec d c); [congruence|]. by rewrite IH.
Qed.

Lemma split_join c ls : ls ≠ [] → Forall (λ l, c ∉ l) ls → split c (join [c] ls) = ls.
Proof.
  induction ls as [|l ls IH]; intros Hne HF; [done|].
  apply Forall_cons in HF as [Hl HF]. destruct ls as [|l' ls].
  - by apply split_none.
  - change (join [c] (l :: l' :: ls)) with (l ++ c :: join [c] (l' :: ls)).
    rewrite split_app_sep by done. by rewrite IH.
Qed.

Lemma split_elems c s : Forall (λ l, c ∉ l) (split c s).
Proof.
  induction s as [|d s IH]; cbn [split].
  { constructor; [apply not_elem_of_nil|constructor]. }
  destruct (N.eqb_spec d c) as [->|Hd]; [constructor; [apply not_elem_of_nil|done]|].
  destruct (split c s) as [|l ls] eqn:E; [by apply split_ne_nil in E|].
  apply Forall_cons in IH as [? ?]. constructor; [|done]. apply not_elem_of_cons. naive_solver.
Qed.

Lemma join_split c s : join [c] (split c s) = s.
Proof.
  induction s as [|d s IH]; cbn [split]; [done|]. pose proof (split_ne_nil c s) as Hne.
  destruct (N.eqb_spec d c) as [->|Hd]; destruct (split c s) as [|l ls]; try done; cbn [join app] in *.
  - by rewrite IH.
  - destruct ls; cbn [app] in *; by rewrite IH.
Qed.

Lemma plain_line_spec l : plain_line l = true ↔ (NL ∉ l) ∧ chop_cr l = l.
Proof.
  unfold plain_line, chop_cr. rewrite andb_true_iff, bool_decide_eq_true, negb_true_iff.
  rewrite ends_with_false. split; intros [HN HC]; split; try done.
  - destruct (strip_suffix [CR] l) eqn:E; [|done].
    apply strip_suffix_Some in E. destruct HC. eexists; eauto.
  - intros [r ->]. rewrite (proj2 (strip_suffix_Some _ _ r) eq_refl) in HC.
    apply (f_equal length) in HC. rewrite length_app in HC. simpl in HC. lia.
Qed.

(** [str::lines] inverts joining with newlines. *)
Lemma lines_join ls l :
  Forall (λ l, plain_line l = true) ls → last ls = Some l → l ≠ [] →
  lines (join [NL] ls) = ls.
Proof.
  intros HF Hl Hne. unfold lines. rewrite split_join.
  - clear -HF Hl Hne. induction ls as [|l0 ls IH]; [done|].
    apply Forall_cons in HF as [Hl0 HF]. destruct ls as [|l1 ls].
    + simpl in *. simplify_eq. by destruct l.
    + change (lines_of (l0 :: l1 :: ls)) with (chop_cr l0 :: lines_of (l1 :: ls)).
      rewrite IH by done. apply plain_line_spec in Hl0 as [_ ->]. done.
  - by destruct ls.
  - eapply Forall_impl; [done|]. intros ? ?%plain_line_spec. naive_solver.
Qed.

#[global] Arguments lit : simpl never.
#[global] Arguments strip_prefix : simpl never.
#[global] Arguments strip_suffix : simpl never.
#[global] Arguments trim : simpl never.
