(* ===== verification/PatchParser.v ===== *)
(** * The patch parser: [apply-patch/src/parser.rs]

    Data types of a parsed patch, the boundary checks, the hunk and chunk
    parsers and the entry points [parse_patch_text] and [parse_patch].  The
    theorems: the parser returns on every input (no panic, the loops stop),
    what it consumes, and that it inverts the printer of the grammar. *)
From stdpp Require Import base tactics option list numbers strings.
From S2P Require Import Prelude.
From S2P Require Import RustStr.
From stdpp Require Import options.

(** ** Data *)
Inductive ParseError : Type :=
  | InvalidPatchError (message : str)
  | InvalidHunkError (message : str) (line_number : nat).

Record UpdateFileChunk : Type := {
  change_context : option str;
  old_lines : list str;
  new_lines : list str;
  is_end_of_file : bool;
}.

Inductive Hunk : Type :=
  | AddFile (path : str) (contents : str)
  | DeleteFile (path : str)
  | UpdateFile (path : str) (move_path : option str) (chunks : list UpdateFileChunk).

Record ApplyPatchArgs : Type := {
  patch : str;
  hunks : list Hunk;
  workdir : option str;
}.

Inductive ParseMode : Type := Strict | Lenient.

#[export] Instance ParseError_eq_dec : EqDecision ParseError.
Proof. solve_decision. Defined.
#[export] Instance UpdateFileChunk_eq_dec : EqDecision UpdateFileChunk.
Proof. solve_decision. Defined.
#[export] Instance Hunk_eq_dec : EqDecision Hunk.
Proof. solve_decision. Defined.
#[export] Instance ApplyPatchArgs_eq_dec : EqDecision ApplyPatchArgs.
Proof. solve_decision. Defined.

(** ** Markers *)
Definition BEGIN_PATCH_MARKER : str := lit "*** Begin Patch".
Definition END_PATCH_MARKER : str := lit "*** End Patch".
Definition ADD_FILE_MARKER : str := lit "*** Add File: ".
Definition DELETE_FILE_MARKER : str := lit "*** Delete File: ".
Definition UPDATE_FILE_MARKER : str := lit "*** Update File: ".
Definition MOVE_TO_MARKER : str := lit "*** Move to: ".
Definition EOF_MARKER : str := lit "*** End of File".
Definition CHANGE_CONTEXT_MARKER : str := lit "@@ ".
Definition EMPTY_CHANGE_CONTEXT_MARKER : str := lit "@@".
Definition PARSE_IN_STRICT_MODE : bool := false.

Definition SPACE : char := 32%N.
Definition PLUS : char := 43%N.
Definition MINUS : char := 45%N.
Definition DQUOTE : char := 34%N.

(** The slice [&l[a..b]], which panics when it is out of range. *)
Definition slice {E A} (l : list A) (a b : nat) : outcome E (list A) :=
  if decide (a ≤ b ∧ b ≤ length l) then Ok (take (b - a) (drop a l)) else Panic.

(** ** Boundary checks *)
Definition check_start_and_end_lines_strict (first_line last_line : option str)
    : outcome ParseError unit :=
  let first_line := trim <$> first_line in
  let last_line := trim <$> last_line in
  let bad_last := Err (InvalidPatchError
    (lit "The last line of the patch must be '*** End Patch'")) in
  let bad_first := Err (InvalidPatchError
    (lit "The first line of the patch must be '*** Begin Patch'")) in
  match first_line, last_line with
  | Some first, Some last =>
      if decide (first = BEGIN_PATCH_MARKER ∧ last = END_PATCH_MARKER) then Ok ()
      else if decide (first ≠ BEGIN_PATCH_MARKER) then bad_first else bad_last
  | Some first, None =>
      if decide (first ≠ BEGIN_PATCH_MARKER) then bad_first else bad_last
  | None, _ => bad_last
  end.

Definition check_patch_boundaries_strict (lines : list str) : outcome ParseError unit :=
  match lines with
  | [] => check_start_and_end_lines_strict None None
  | [first] => check_start_and_end_lines_strict (Some first) (Some first)
  | first :: _ => check_start_and_end_lines_strict (Some first) (last lines)
  end.

Definition HEREDOC_OPENERS : list str :=
  [lit "<<EOF"; lit "<<'EOF'"; lit "<<" ++ [DQUOTE] ++ lit "EOF" ++ [DQUOTE]].

Definition check_patch_boundaries_lenient (original_lines : list str)
    (original_parse_error : ParseError) : outcome ParseError (list str) :=
  match original_lines with
  | first :: _ :: _ =>
      match last original_lines with
      | Some last =>
          if bool_decide (first ∈ HEREDOC_OPENERS) && ends_with (lit "EOF") last
             && (4 <=? length original_lines)
          then inner_lines ← slice original_lines 1 (length original_lines - 1);
               _ ← check_patch_boundaries_strict inner_lines;
               Ok inner_lines
          else Err original_parse_error
      | None => Err original_parse_error
      end
  | _ => Err original_parse_error
  end.

(** ** Chunks of an update hunk *)
Definition no_lines_message : str := lit "Update hunk does not contain any lines".

Definition unexpected_line_message (line_contents : str) : str :=
  lit "Unexpected line found in update hunk: '" ++ line_contents ++
  lit "'. Every line should start with ' ' (context line), '+' (added line), or '-' (removed line)".

Definition push_lines (chunk : UpdateFileChunk) (old new : list str) : UpdateFileChunk :=
  {| change_context := change_context chunk;
     old_lines := old_lines chunk ++ old;
     new_lines := new_lines chunk ++ new;
     is_end_of_file := is_end_of_file chunk |}.

Definition set_end_of_file (chunk : UpdateFileChunk) : UpdateFileChunk :=
  {| change_context := change_context chunk; old_lines := old_lines chunk;
     new_lines := new_lines chunk; is_end_of_file := true |}.

(** The [for line in &lines[start_index..]] loop of [parse_update_file_chunk]. *)
Fixpoint parse_chunk_lines (ls : list str) (line_number : nat)
    (chunk : UpdateFileChunk) (parsed_lines : nat)
    : outcome ParseError (UpdateFileChunk * nat) :=
  match ls with
  | [] => Ok (chunk, parsed_lines)
  | line :: ls' =>
      if decide (line = EOF_MARKER) then
        if (parsed_lines =? 0) then Err (InvalidHunkError no_lines_message (line_number + 1))
        else Ok (set_end_of_file chunk, S parsed_lines)
      else
        match line with
        | [] => parse_chunk_lines ls' line_number (push_lines chunk [[]] [[]]) (S parsed_lines)
        | c :: rest =>
            if (c =? SPACE)%N then
              parse_chunk_lines ls' line_number (push_lines chunk [rest] [rest]) (S parsed_lines)
            else if (c =? PLUS)%N then
              parse_chunk_lines ls' line_number (push_lines chunk [] [rest]) (S parsed_lines)
            else if (c =? MINUS)%N then
              parse_chunk_lines ls' line_number (push_lines chunk [rest] []) (S parsed_lines)
            else if (parsed_lines =? 0) then
              Err (InvalidHunkError (unexpected_line_message line) (line_number + 1))
            else Ok (chunk, parsed_lines)
        end
  end.

Definition expected_context_message (line : str) : str :=
  lit "Expected update hunk to start with a @@ context marker, got: '" ++ line ++ lit "'".

Definition parse_update_file_chunk (lines : list str) (line_number : nat)
    (allow_missing_context : bool) : outcome ParseError (UpdateFileChunk * nat) :=
  match lines with
  | [] => Err (InvalidHunkError no_lines_message line_number)
  | l0 :: _ =>
      '(change_context, start_index) ←
        (if decide (l0 = EMPTY_CHANGE_CONTEXT_MARKER) then Ok (None, 1)
         else match strip_prefix CHANGE_CONTEXT_MARKER l0 with
              | Some context => Ok (Some context, 1)
              | None =>
                  if negb allow_missing_context
                  then Err (InvalidHunkError (expected_context_message l0) line_number)
                  else Ok (None, 0)
              end);
      if (length lines <=? start_index)
      then Err (InvalidHunkError no_lines_message (line_number + 1))
      else
        '(chunk, parsed_lines) ←
          parse_chunk_lines (drop start_index lines) line_number
            {| change_context := change_context; old_lines := []; new_lines := [];
               is_end_of_file := false |} 0;
        Ok (chunk, parsed_lines + start_index)
  end.

(** ** Hunks *)

(** The loop over the lines of an [Add File] hunk. *)
Fixpoint parse_add_lines (ls : list str) (contents : str) (parsed_lines : nat)
    : str * nat :=
  match ls with
  | [] => (contents, parsed_lines)
  | add_line :: ls' =>
      match strip_prefix [PLUS] add_line with
      | Some line_to_add =>
          parse_add_lines ls' (contents ++ line_to_add ++ [NL]) (S parsed_lines)
      | None => (contents, parsed_lines)
      end
  end.

(** The [while !remaining_lines.is_empty()] loop of an [Update File] hunk. *)
Fixpoint parse_update_chunks (fuel : nat) (remaining_lines : list str)
    (line_number parsed_lines : nat) (chunks : list UpdateFileChunk)
    : outcome ParseError (list UpdateFileChunk * nat) :=
  match fuel with
  | 0 => NoFuel
  | S fuel' =>
      match remaining_lines with
      | [] => Ok (chunks, parsed_lines)
      | l0 :: rest =>
          if decide (trim l0 = []) then
            parse_update_chunks fuel' rest line_number (S parsed_lines) chunks
          else if starts_with (lit "***") l0 then Ok (chunks, parsed_lines)
          else
            '(chunk, chunk_lines) ←
              parse_update_file_chunk remaining_lines (line_number + parsed_lines)
                (bool_decide (chunks = []));
            remaining_lines ← slice remaining_lines chunk_lines (length remaining_lines);
            parse_update_chunks fuel' remaining_lines line_number
              (parsed_lines + chunk_lines) (chunks ++ [chunk])
      end
  end.

Definition empty_update_message (path : str) : str :=
  lit "Update file hunk for path '" ++ path ++ lit "' is empty".

Definition invalid_header_message (first_line : str) : str :=
  lit "'" ++ first_line ++
  lit "' is not a valid hunk header. Valid hunk headers: '*** Add File: {path}', '*** Delete File: {path}', '*** Update File: {path}'".

Definition parse_one_hunk (lines : list str) (line_number : nat)
    : outcome ParseError (Hunk * nat) :=
  match lines with
  | [] => Panic
  | l0 :: rest =>
      let first_line := trim l0 in
      match strip_prefix ADD_FILE_MARKER first_line with
      | Some path =>
          let '(contents, parsed_lines) := parse_add_lines rest [] 1 in
          Ok (AddFile path contents, parsed_lines)
      | None =>
      match strip_prefix DELETE_FILE_MARKER first_line with
      | Some path => Ok (DeleteFile path, 1)
      | None =>
      match strip_prefix UPDATE_FILE_MARKER first_line with
      | Some path =>
          let move_path : option str := head rest ≫= strip_prefix MOVE_TO_MARKER in
          let '(remaining_lines, parsed_lines) :=
            match move_path with Some _ => (drop 1 rest, 2) | None => (rest, 1) end in
          '(chunks, parsed_lines) ←
            parse_update_chunks (S (length remaining_lines)) remaining_lines
              line_number parsed_lines [];
          if decide (chunks = [])
          then Err (InvalidHunkError (empty_update_message path) line_number)
          else Ok (UpdateFile path move_path chunks, parsed_lines)
      | None => Err (InvalidHunkError (invalid_header_message first_line) line_number)
      end end end
  end.

(** ** Whole patches *)

(** The [while !remaining_lines.is_empty()] loop of [parse_patch_text]. *)
Fixpoint parse_hunks (fuel : nat) (remaining_lines : list str) (line_number : nat)
    (hunks : list Hunk) : outcome ParseError (list Hunk) :=
  match fuel with
  | 0 => NoFuel
  | S fuel' =>
      match remaining_lines with
      | [] => Ok hunks
      | _ :: _ =>
          '(hunk, hunk_lines) ← parse_one_hunk remaining_lines line_number;
          remaining_lines ← slice remaining_lines hunk_lines (length remaining_lines);
          parse_hunks fuel' remaining_lines (line_number + hunk_lines) (hunks ++ [hunk])
      end
  end.

(** The boundary check of [parse_patch_text], by mode. *)
Definition select_patch_lines (lines : list str) (mode : ParseMode)
    : outcome ParseError (list str) :=
  match check_patch_boundaries_strict lines with
  | Ok _ => Ok lines
  | Err e =>
      match mode with
      | Strict => Err e
      | Lenient => check_patch_boundaries_lenient lines e
      end
  | Panic => Panic
  | NoFuel => NoFuel
  end.

Definition parse_patch_text (patch : str) (mode : ParseMode)
    : outcome ParseError ApplyPatchArgs :=
  lines ← select_patch_lines (RustStr.lines (trim patch)) mode;
  let last_line_index := length lines - 1 in
  remaining_lines ← slice lines 1 last_line_index;
  hunks ← parse_hunks (S (length remaining_lines)) remaining_lines 2 [];
  Ok {| patch := join [NL] lines; hunks := hunks; workdir := None |}.

Definition parse_patch (patch : str) : outcome ParseError ApplyPatchArgs :=
  let mode := if PARSE_IN_STRICT_MODE then Strict else Lenient in
  parse_patch_text patch mode.

(** ** The printer of the grammar

    The patch texts the grammar at the top of the source file gives a list of
    hunks: one marker line per hunk, an [@@] line per chunk (the first chunk may
    do without), and the lines of the chunk in any order.  A line is kept,
    removed or added; an empty line stands for a kept empty line. *)
Definition unlines (ls : list str) : str := concat ((fun l => l ++ [NL]) <$> ls).

Inductive edit : Type :=
  | Keep (l : str)
  | KeepBlank
  | Remove (l : str)
  | Insert (l : str).

Definition print_edit (e : edit) : str :=
  match e with
  | Keep l => SPACE :: l
  | KeepBlank => []
  | Remove l => MINUS :: l
  | Insert l => PLUS :: l
  end.

(** The lines before and after an edit. *)
Definition edit_old (e : edit) : list str :=
  match e with Keep l | Remove l => [l] | KeepBlank => [[]] | Insert _ => [] end.

Definition edit_new (e : edit) : list str :=
  match e with Keep l | Insert l => [l] | KeepBlank => [[]] | Remove _ => [] end.

Definition chunk_of (context : option str) (edits : list edit) (eof : bool) : UpdateFileChunk :=
  {| change_context := context; old_lines := edits ≫= edit_old; new_lines := edits ≫= edit_new;
     is_end_of_file := eof |}.

Definition print_body (edits : list edit) (eof : bool) : list str :=
  (print_edit <$> edits) ++ (if eof then [EOF_MARKER] else []).

Definition print_context (context : option str) : str :=
  match context with
  | None => EMPTY_CHANGE_CONTEXT_MARKER
  | Some ctx => CHANGE_CONTEXT_MARKER ++ ctx
  end.

(** [printed_chunk first c ls]: a printed chunk, [first] of its hunk or not.
    Blank lines before a chunk are skipped, so a chunk without an [@@] line
    does not start with one. *)
Inductive printed_chunk : bool → UpdateFileChunk → list str → Prop :=
  | printed_marked first context edits eof :
      edits ≠ [] →
      printed_chunk first (chunk_of context edits eof) (print_context context :: print_body edits eof)
  | printed_bare e edits eof :
      trim (print_edit e) ≠ [] →
      printed_chunk true (chunk_of None (e :: edits) eof) (print_body (e :: edits) eof).

Inductive printed_chunks : bool → list UpdateFileChunk → list str → Prop :=
  | printed_no_chunks first : printed_chunks first [] []
  | printed_chunks_cons first c cs ls lss :
      printed_chunk first c ls → printed_chunks false cs lss →
      printed_chunks first (c :: cs) (ls ++ lss).

(** An added file is printed from the lines its contents are made of. *)
Inductive printed_hunk : Hunk → list str → Prop :=
  | printed_add path ls :
      printed_hunk (AddFile path (unlines ls))
        ((ADD_FILE_MARKER ++ path) :: (cons PLUS <$> ls))
  | printed_delete path :
      printed_hunk (DeleteFile path) [DELETE_FILE_MARKER ++ path]
  | printed_update path move_path chunks ls :
      printed_chunks true chunks ls →
      printed_hunk (UpdateFile path move_path chunks)
        ([UPDATE_FILE_MARKER ++ path] ++
         (match move_path with Some p => [MOVE_TO_MARKER ++ p] | None => [] end) ++ ls).

Inductive printed_hunks : list Hunk → list str → Prop :=
  | printed_nil : printed_hunks [] []
  | printed_cons h hs ls lss :
      printed_hunk h ls → printed_hunks hs lss → printed_hunks (h :: hs) (ls ++ lss).

Definition print_patch_lines (body : list str) : list str :=
  [BEGIN_PATCH_MARKER] ++ body ++ [END_PATCH_MARKER].

(** A path the printer can put on a marker line: the parser trims that line. *)
Definition printable_path (path : str) : bool :=
  match last path with Some c => negb (is_whitespace c) | None => false end.

Definition printable_hunk (h : Hunk) : bool :=
  match h with
  | AddFile path _ | DeleteFile path => printable_path path
  | UpdateFile path _ chunks => printable_path path && negb (bool_decide (chunks = []))
  end.

#[global] Arguments parse_one_hunk : simpl never.
#[global] Arguments parse_update_file_chunk : simpl never.
#[global] Arguments slice : simpl never.

(** ** What the parsers consume *)
Lemma slice_safe {E A} (l : list A) a b (P : list A → Prop) :
  a ≤ b → b ≤ length l → P (take (b - a) (drop a l)) → safe (E:=E) (slice l a b) P.
Proof. intros. unfold slice. by rewrite decide_True. Qed.

Lemma slice_from {E A} (l : list A) a :
  a ≤ length l → slice (E:=E) l a (length l) = Ok (drop a l).
Proof.
  intros. unfold slice. rewrite decide_True by lia.
  rewrite take_ge; [done|]. rewrite length_drop. lia.
Qed.

Lemma parse_chunk_lines_safe ls line_number chunk n :
  safe (parse_chunk_lines ls line_number chunk n)
    (λ r, n ≤ r.2 ≤ n + length ls ∧ (ls ≠ [] → 1 ≤ r.2)).
Proof.
  revert chunk n; induction ls as [|l ls IH]; intros chunk n; simpl; [split; [lia|done]|].
  assert (Hrec : ∀ chunk', safe (parse_chunk_lines ls line_number chunk' (S n))
    (λ r, n ≤ r.2 ≤ n + S (length ls) ∧ (l :: ls ≠ [] → 1 ≤ r.2))).
  { intros chunk'. eapply safe_mono; [apply IH|]. intros r. simpl. lia. }
  repeat (case_match; simpl; eauto; try (destruct n; simpl in *; [done|lia])).
Qed.

Lemma parse_update_file_chunk_safe ls line_number allow :
  safe (parse_update_file_chunk ls line_number allow) (λ r, 1 ≤ r.2 ≤ length ls).
Proof.
  destruct ls as [|l0 ls]; [done|]. unfold parse_update_file_chunk.
  apply (safe_bind _ _ (λ r, r.2 ≤ 1)); [by repeat case_match; simpl; try lia|].
  intros [ctx start] Hstart; simpl in Hstart.
  destruct (Nat.leb_spec (length (l0 :: ls)) start); [done|].
  eapply safe_bind; [apply parse_chunk_lines_safe|].
  intros [chunk n]; simpl. rewrite length_drop. intros [Hn H1].
  assert (1 ≤ n); [|simpl in *; lia].
  apply H1. intros E%(f_equal length). rewrite length_drop in E. simpl in *. lia.
Qed.

Lemma parse_update_chunks_safe fuel ls line_number n chunks :
  length ls < fuel →
  safe (parse_update_chunks fuel ls line_number n chunks) (λ r, n ≤ r.2 ≤ n + length ls).
Proof.
  revert ls n chunks; induction fuel as [|fuel IH]; intros ls n chunks Hf; [lia|].
  destruct ls as [|l0 ls]; simpl; [lia|]. simpl in Hf.
  case_decide; [eapply safe_mono; [apply IH; lia|simpl; lia]|].
  case_match; [simpl; lia|].
  eapply safe_bind; [apply (parse_update_file_chunk_safe (l0 :: ls))|].
  intros [chunk k] Hk; cbn [snd] in Hk. cbn [length] in Hk.
  rewrite (slice_from (l0 :: ls)) by (simpl; lia).
  cbn [mbind outcome_bind]. eapply safe_mono; [apply IH; rewrite length_drop; simpl; lia|].
  intros r. rewrite length_drop. simpl. lia.
Qed.

Lemma parse_add_lines_bounds ls contents n :
  n ≤ (parse_add_lines ls contents n).2 ≤ n + length ls.
Proof.
  revert contents n; induction ls as [|l ls IH]; intros; simpl; [lia|].
  case_match; simpl; [|lia].
  match goal with |- context [parse_add_lines ls ?c ?k] => specialize (IH c k) end. lia.
Qed.

Lemma parse_one_hunk_safe ls line_number :
  ls ≠ [] → safe (parse_one_hunk ls line_number) (λ r, 1 ≤ r.2 ≤ length ls).
Proof.
  destruct ls as [|l0 ls]; [done|intros _]. unfold parse_one_hunk.
  destruct (strip_prefix ADD_FILE_MARKER _) as [path|].
  { pose proof (parse_add_lines_bounds ls [] 1). destruct (parse_add_lines _ _ _). simpl in *. lia. }
  destruct (strip_prefix DELETE_FILE_MARKER _) as [path|]; [simpl; lia|].
  destruct (strip_prefix UPDATE_FILE_MARKER _) as [path|]; [|done].
  set (move_path := head ls ≫= _).
  assert (∃ rem k, (match move_path with Some _ => (drop 1 ls, 2) | None => (ls, 1) end)
    = (rem, k) ∧ 1 ≤ k ∧ k + length rem = S (length ls)) as (rem & k & -> & ? & ?).
  { destruct move_path as [mp|] eqn:E; [|eauto with lia].
    destruct ls as [|l1 ls]; [done|]. do 2 eexists; split; [done|]. rewrite length_drop; simpl. lia. }
  eapply safe_bind; [apply parse_update_chunks_safe; lia|].
  intros [chunks n] Hn. simpl in *. case_decide; [done|]. simpl. lia.
Qed.

Lemma parse_hunks_returns fuel ls line_number hs :
  length ls < fuel → returns (parse_hunks fuel ls line_number hs).
Proof.
  revert ls line_number hs; induction fuel as [|fuel IH]; intros ls ln hs Hf; [lia|].
  destruct ls as [|l0 ls]; simpl; [done|]. simpl in Hf. apply returns_safe.
  eapply safe_bind; [by apply parse_one_hunk_safe|].
  intros [h k] Hk; cbn [snd length] in Hk.
  rewrite (slice_from (l0 :: ls)) by (simpl; lia). cbn [mbind outcome_bind].
  apply returns_safe, IH. rewrite length_drop. simpl. lia.
Qed.

Lemma check_strict_two_lines ls :
  check_patch_boundaries_strict ls = Ok () → 2 ≤ length ls.
Proof.
  destruct ls as [|l1 [|l2 ls]]; simpl; [done| |lia].
  unfold check_start_and_end_lines_strict; simpl. intros H. exfalso.
  case_decide as HE; [destruct HE as [H1 H2]; rewrite H1 in H2; done|].
  by case_decide.
Qed.

Lemma check_strict_returns ls : returns (check_patch_boundaries_strict ls).
Proof.
  assert (∀ a b, returns (check_start_and_end_lines_strict a b)).
  { intros [a|] [b|]; unfold check_start_and_end_lines_strict; simpl; by repeat case_decide. }
  destruct ls as [|? [|? ?]]; simpl; auto.
Qed.

Lemma select_patch_lines_safe ls mode :
  safe (select_patch_lines ls mode) (λ ls', 2 ≤ length ls').
Proof.
  unfold select_patch_lines. pose proof (check_strict_returns ls) as Hr.
  destruct (check_patch_boundaries_strict ls) as [[]|e| |] eqn:E; try done.
  { by apply check_strict_two_lines. }
  destruct mode; [done|]. unfold check_patch_boundaries_lenient.
  destruct ls as [|l1 [|l2 ls]]; [done..|]. destruct (last _); [|done].
  case_match; [|done]. bool_cases.
  apply (safe_bind _ _ (λ _, True)).
  { apply slice_safe; cbn [length]; [lia|lia|done]. }
  intros inner _. pose proof (check_strict_returns inner) as Hi.
  destruct (check_patch_boundaries_strict inner) as [[]|?| |] eqn:E2; try done.
  simpl. by apply check_strict_two_lines.
Qed.

(** ** The parser inverts the printer *)
Definition stop_line (l : str) : Prop :=
  l ≠ EOF_MARKER ∧ ∃ c r, l = c :: r ∧ c ≠ SPACE ∧ c ≠ PLUS ∧ c ≠ MINUS.

Definition stops (rest : list str) : Prop :=
  match rest with [] => True | l :: _ => stop_line l end.

(** The lines that follow a printed hunk: none, or the header of the next. *)
Definition at_header (rest : list str) : Prop :=
  match rest with
  | [] => True
  | l :: _ => ∃ m p, m ∈ [ADD_FILE_MARKER; DELETE_FILE_MARKER; UPDATE_FILE_MARKER] ∧ l = m ++ p
  end.

Lemma at_header_stops rest : at_header rest → stops rest.
Proof.
  destruct rest as [|l rest]; [done|]. intros (m & p & Hm & ->). unfold stop_line; simpl.
  repeat (apply elem_of_cons in Hm as [->|Hm]); [..|by apply not_elem_of_nil in Hm];
    (split; [done|]; do 2 eexists; split; [reflexivity|done]).
Qed.

Lemma trim_cons_plain c s : is_whitespace c = false → trim (c :: s) ≠ [].
Proof. intros Hc. unfold trim; simpl. rewrite Hc. simpl. case_match; [by rewrite Hc|done]. Qed.

Lemma parse_add_lines_printed ls rest contents n :
  (match rest with [] => True | l :: _ => strip_prefix [PLUS] l = None end) →
  parse_add_lines ((cons PLUS <$> ls) ++ rest) contents n =
  (contents ++ unlines ls, n + length ls).
Proof.
  intros Hrest. revert contents n; induction ls as [|l ls IH]; intros; cbn [fmap list_fmap app].
  - unfold unlines. simpl. rewrite app_nil_r, Nat.add_0_r.
    destruct rest as [|l rest]; simpl; [done|]. by rewrite Hrest.
  - cbn [parse_add_lines]. rewrite (strip_prefix_app [PLUS] l : strip_prefix [PLUS] (PLUS :: l) = Some l).
    rewrite IH. unfold unlines. cbn [fmap list_fmap concat length].
    f_equal; [by rewrite <-!app_assoc|lia].
Qed.

Lemma parse_chunk_lines_edits edits rest line_number c n :
  parse_chunk_lines ((print_edit <$> edits) ++ rest) line_number c n =
  parse_chunk_lines rest line_number
    (push_lines c (edits ≫= edit_old) (edits ≫= edit_new)) (n + length edits).
Proof.
  revert c n; induction edits as [|e edits IH]; intros c n.
  - destruct c. unfold push_lines; simpl. by rewrite !app_nil_r, Nat.add_0_r.
  - cbn [fmap list_fmap app parse_chunk_lines]. rewrite decide_False by (by destruct e).
    destruct e; cbn; rewrite IH; destruct c; unfold push_lines; cbn;
      rewrite <-!app_assoc, ?app_nil_r; f_equal; lia.
Qed.

Lemma parse_chunk_lines_stop rest line_number c n :
  stops rest → 1 ≤ n → parse_chunk_lines rest line_number c n = Ok (c, n).
Proof.
  destruct rest as [|l rest]; [done|]. intros (HE & k & r & -> & H1 & H2 & H3) Hn.
  cbn [parse_chunk_lines]. rewrite decide_False by done.
  apply N.eqb_neq in H1 as ->, H2 as ->, H3 as ->. by destruct n; [lia|].
Qed.

Lemma parse_printed_body context edits eof rest line_number :
  edits ≠ [] → stops rest →
  parse_chunk_lines (print_body edits eof ++ rest) line_number
    {| change_context := context; old_lines := []; new_lines := []; is_end_of_file := false |} 0 =
  Ok (chunk_of context edits eof, length (print_body edits eof)).
Proof.
  intros Hne Hrest. assert (1 ≤ length edits) by (destruct edits; simpl; [done|lia]).
  unfold print_body. rewrite <-app_assoc, parse_chunk_lines_edits, length_app, length_fmap.
  unfold push_lines; cbn [change_context old_lines new_lines is_end_of_file app Nat.add].
  destruct eof; cbn [app parse_chunk_lines length].
  - rewrite decide_True by done. destruct (length edits) eqn:E; [lia|]. cbn. by rewrite Nat.add_1_r.
  - rewrite Nat.add_0_r. by apply parse_chunk_lines_stop.
Qed.

Lemma parse_printed_chunk first c ls rest line_number allow :
  printed_chunk first c ls → (first = true → allow = true) → stops rest →
  parse_update_file_chunk (ls ++ rest) line_number allow = Ok (c, length ls).
Proof.
  intros Hc Hallow Hrest. destruct Hc as [first context edits eof Hne|e edits eof He];
    unfold parse_update_file_chunk.
  - assert (Hl : 1 ≤ length (print_body edits eof ++ rest)).
    { unfold print_body. rewrite !length_app, length_fmap. destruct edits; simpl; [done|lia]. }
    cbn [app length]. destruct context as [ctx|]; cbn [print_context].
    + rewrite decide_False by done. rewrite strip_prefix_app. cbn [mbind outcome_bind].
      rewrite (proj2 (Nat.leb_gt _ 1)) by lia. rewrite skipn_cons, drop_0.
      rewrite parse_printed_body by done. cbn. by rewrite Nat.add_1_r.
    + rewrite decide_True by done. cbn [mbind outcome_bind].
      rewrite (proj2 (Nat.leb_gt _ 1)) by lia. rewrite skipn_cons, drop_0.
      rewrite parse_printed_body by done. cbn. by rewrite Nat.add_1_r.
  - pose proof (parse_printed_body None (e :: edits) eof rest line_number) as Hb.
    rewrite (Hallow eq_refl). unfold print_body in *. cbn [fmap list_fmap app] in *.
    rewrite decide_False by (by destruct e).
    assert (strip_prefix CHANGE_CONTEXT_MARKER (print_edit e) = None) as -> by (by destruct e).
    cbn [negb mbind outcome_bind length Nat.leb]. rewrite drop_0, Hb by done.
    cbn [mbind outcome_bind]. by rewrite Nat.add_0_r.
Qed.

Lemma trim_app_plain_head m s : starts_plain m = true → m ≠ [] → trim (m ++ s) ≠ [].
Proof.
  destruct m as [|c m]; [done|]. intros Hc _. apply trim_cons_plain.
  unfold starts_plain in Hc. by apply negb_true_iff.
Qed.

(** The first line of a printed chunk does not end the loop over chunks. *)
Lemma printed_chunk_cons first c ls :
  printed_chunk first c ls →
  ∃ l ls', ls = l :: ls' ∧ trim l ≠ [] ∧ starts_with (lit "***") l = false ∧
    strip_prefix MOVE_TO_MARKER l = None ∧ (first = false → stop_line l).
Proof.
  intros [f [ctx|] edits eof _|e edits eof He]; cbn [print_context].
  - do 2 eexists. split_and!; [reflexivity|by apply trim_app_plain_head|done|done|].
    intros _. split; [done|]. do 2 eexists; split; [reflexivity|done].
  - do 2 eexists. split_and!; [reflexivity|done|done|done|].
    intros _. split; [done|]. do 2 eexists; split; [reflexivity|done].
  - do 2 eexists. split_and!; [reflexivity|done|by destruct e|by destruct e|done].
Qed.

Lemma chunks_stop cs ls rest : printed_chunks false cs ls → at_header rest → stops (ls ++ rest).
Proof.
  inversion 1 as [|? c cs' l1 l2 Hc]; subst; [apply at_header_stops|intros _].
  destruct (printed_chunk_cons _ _ _ Hc) as (l & ls' & -> & _ & _ & _ & Hs). by apply Hs.
Qed.

Lemma parse_printed_chunks first fuel cs ls rest line_number n acc :
  printed_chunks first cs ls → (first = true → acc = []) →
  length (ls ++ rest) < fuel → at_header rest →
  parse_update_chunks fuel (ls ++ rest) line_number n acc = Ok (acc ++ cs, n + length ls).
Proof.
  intros Hpr Hfirst Hf Hrest. revert fuel n acc Hfirst Hf;
    induction Hpr as [first|first c cs ls lss Hc Hcs IH]; intros [|fuel] n acc Hfirst Hf; try lia.
  - rewrite app_nil_r, Nat.add_0_r. destruct rest as [|l rest]; [done|].
    destruct Hrest as (m & p & Hm & ->). cbn [app parse_update_chunks].
    assert (starts_with (lit "***") (m ++ p) = true ∧ trim (m ++ p) ≠ []) as [Hs Ht].
    { repeat (apply elem_of_cons in Hm as [->|Hm]); [..|by apply not_elem_of_nil in Hm];
        (split; [done|by apply trim_cons_plain]). }
    by rewrite decide_False, Hs.
  - rewrite <-app_assoc. rewrite <-app_assoc, length_app in Hf.
    pose proof (parse_printed_chunk first c ls (lss ++ rest) (line_number + n)
      (bool_decide (acc = [])) Hc) as Hp.
    specialize (Hp (λ H, bool_decide_eq_true_2 _ (Hfirst H)) (chunks_stop _ _ _ Hcs Hrest)).
    destruct (printed_chunk_cons _ _ _ Hc) as (l & ls' & -> & Ht & Hs & _ & _).
    cbn [app parse_update_chunks]. rewrite decide_False, Hs by done.
    cbn [app] in Hp. rewrite Hp. cbn [mbind outcome_bind].
    change (l :: ls' ++ lss ++ rest) with ((l :: ls') ++ lss ++ rest).
    rewrite slice_from by (rewrite length_app; lia). cbn [mbind outcome_bind].
    rewrite drop_app_length, IH; [|done|cbn [length] in *; lia].
    rewrite <-app_assoc. cbn [app length]. rewrite length_app. f_equal. f_equal. lia.
Qed.

Lemma parse_printed_hunk h ls rest line_number :
  printed_hunk h ls → printable_hunk h = true → at_header rest →
  parse_one_hunk (ls ++ rest) line_number = Ok (h, length ls).
Proof.
  assert (Hpath : ∀ m path, m ≠ [] → starts_plain m = true →
    printable_path path = true → trim (m ++ path) = m ++ path).
  { intros m path ? ? Hp. unfold printable_path in Hp.
    destruct (last path) eqn:E; [|done].
    apply trim_app_r; [done|done|by intros ->|unfold ends_plain; by rewrite E]. }
  intros Hpr Hok Hrest. destruct Hpr as [path ls|path|path mp cs ls Hcs]; simpl in Hok;
    unfold parse_one_hunk; cbn [app].
  - rewrite Hpath, strip_prefix_app by done.
    rewrite parse_add_lines_printed.
    { simpl. by rewrite length_fmap. }
    destruct rest as [|l rest]; [done|]. destruct Hrest as (m & p & Hm & ->).
    repeat (apply elem_of_cons in Hm as [->|Hm]); [done..|by apply not_elem_of_nil in Hm].
  - rewrite Hpath by done. change (strip_prefix ADD_FILE_MARKER (DELETE_FILE_MARKER ++ path))
      with (@None str). by rewrite strip_prefix_app.
  - apply andb_true_iff in Hok as [Hp Hne]. bool_cases. rewrite Hpath by done.
    change (strip_prefix ADD_FILE_MARKER (UPDATE_FILE_MARKER ++ path)) with (@None str).
    change (strip_prefix DELETE_FILE_MARKER (UPDATE_FILE_MARKER ++ path)) with (@None str).
    rewrite strip_prefix_app. rewrite <-app_assoc.
    destruct mp as [mp|]; cbn [app head mbind option_bind].
    + rewrite strip_prefix_app. rewrite skipn_cons, drop_0.
      rewrite (parse_printed_chunks true _ cs) by (done || lia). cbn. by rewrite decide_False.
    + assert (head (ls ++ rest) ≫= strip_prefix MOVE_TO_MARKER = None) as ->.
      { destruct Hcs as [|? c cs l1 l2 Hc _]; [done|].
        by destruct (printed_chunk_cons _ _ _ Hc) as (l & ls' & -> & _ & _ & Hm & _). }
      rewrite (parse_printed_chunks true _ cs) by (done || lia). cbn. by rewrite decide_False.
Qed.

Lemma printed_hunks_header hs ls : printed_hunks hs ls → at_header ls.
Proof.
  intros [|h hs' l1 l2 [path ?|path|path ? ? ? ?] _]; cbn [app at_header]; [done|..].
  - exists ADD_FILE_MARKER, path. rewrite !elem_of_cons. auto.
  - exists DELETE_FILE_MARKER, path. rewrite !elem_of_cons. auto.
  - exists UPDATE_FILE_MARKER, path. rewrite !elem_of_cons. auto.
Qed.

Lemma printed_hunk_ne h ls : printed_hunk h ls → 1 ≤ length ls.
Proof. by intros []; simpl; lia. Qed.

Lemma parse_printed_hunks fuel hs ls line_number acc :
  printed_hunks hs ls → forallb printable_hunk hs = true → length ls < fuel →
  parse_hunks fuel ls line_number acc = Ok (acc ++ hs).
Proof.
  intros Hpr. revert fuel line_number acc.
  induction Hpr as [|h hs ls lss Hh Hhs IH]; intros [|fuel] ln acc Hok Hf; try lia.
  - by rewrite app_nil_r.
  - simpl in Hok. apply andb_true_iff in Hok as [Hok1 Hok2]. rewrite length_app in Hf.
    pose proof (parse_printed_hunk h ls lss ln Hh Hok1 (printed_hunks_header _ _ Hhs)) as Hp.
    pose proof (printed_hunk_ne _ _ Hh) as Hne.
    destruct ls as [|l0 ls]; [simpl in Hne; lia|]. cbn [app parse_hunks].
    cbn [app] in Hp. rewrite Hp. cbn [mbind outcome_bind].
    change (?x :: ?a ++ ?b) with ((x :: a) ++ b).
    rewrite slice_from by (rewrite length_app; lia). cbn [mbind outcome_bind].
    rewrite drop_app_length, IH by (done || (cbn [length] in *; lia)).
    by rewrite <-app_assoc.
Qed.

Lemma join_snoc sep ls l : ∃ t, join sep (ls ++ [l]) = t ++ l.
Proof.
  induction ls as [|l0 ls [t IH]]; [by exists []|].
  exists (l0 ++ sep ++ t). rewrite <-!app_assoc, <-IH. simpl.
  by destruct (ls ++ [l]) eqn:E; [destruct ls|].
Qed.

Lemma check_printed_lines body :
  check_patch_boundaries_strict (print_patch_lines body) = Ok ().
Proof.
  unfold check_patch_boundaries_strict, print_patch_lines. cbn [app].
  destruct body as [|b body]; cbn [app]; [done|].
  rewrite !app_comm_cons, last_snoc. done.
Qed.

Lemma select_printed_lines body mode :
  select_patch_lines (print_patch_lines body) mode = Ok (print_patch_lines body).
Proof. unfold select_patch_lines. by rewrite check_printed_lines. Qed.

Lemma lines_trim_printed body :
  Forall (λ l, plain_line l = true) body →
  lines (trim (join [NL] (print_patch_lines body))) = print_patch_lines body.
Proof.
  intros HF. unfold print_patch_lines. rewrite app_assoc.
  destruct (join_snoc [NL] ([BEGIN_PATCH_MARKER] ++ body) END_PATCH_MARKER) as [t Ht].
  rewrite trim_id.
  - apply (lines_join _ END_PATCH_MARKER); [|by rewrite last_snoc|done].
    rewrite !Forall_app. by repeat constructor.
  - by destruct body.
  - rewrite Ht. by apply ends_plain_app.
Qed.

(** The lines of a patch wrapped in a shell here-document. *)
Definition heredoc_lines (opener : str) (inner : list str) : list str :=
  [opener] ++ inner ++ [lit "EOF"].

Lemma heredoc_opener_facts o :
  o ∈ HEREDOC_OPENERS →
  o ≠ [] ∧ starts_plain o = true ∧ plain_line o = true ∧ trim o ≠ BEGIN_PATCH_MARKER.
Proof. revert o. by apply Forall_forall; repeat constructor. Qed.

Lemma lines_trim_heredoc o body :
  o ∈ HEREDOC_OPENERS → Forall (λ l, plain_line l = true) body →
  lines (trim (join [NL] (heredoc_lines o body))) = heredoc_lines o body.
Proof.
  intros (Hne & Hs & Hpl & _)%heredoc_opener_facts HF. unfold heredoc_lines. rewrite app_assoc.
  destruct (join_snoc [NL] ([o] ++ body) (lit "EOF")) as [t Ht].
  rewrite trim_id.
  - apply (lines_join _ (lit "EOF")); [|by rewrite last_snoc|done].
    rewrite !Forall_app. by repeat constructor.
  - by destruct o, body.
  - rewrite Ht. by apply ends_plain_app.
Qed.

Lemma select_heredoc_lines o body :
  o ∈ HEREDOC_OPENERS →
  select_patch_lines (heredoc_lines o (print_patch_lines body)) Lenient =
  Ok (print_patch_lines body).
Proof.
  intros Ho. pose proof (heredoc_opener_facts o Ho) as (_ & _ & _ & Hb).
  assert (Hlast : last (heredoc_lines o (print_patch_lines body)) = Some (lit "EOF")).
  { unfold heredoc_lines. by rewrite app_assoc, last_snoc. }
  assert (Hlen : length (heredoc_lines o (print_patch_lines body)) = 4 + length body).
  { unfold heredoc_lines, print_patch_lines. rewrite !length_app. simpl. lia. }
  assert (Hsl : slice (E:=ParseError) (heredoc_lines o (print_patch_lines body)) 1
      (length (heredoc_lines o (print_patch_lines body)) - 1) = Ok (print_patch_lines body)).
  { unfold slice. rewrite decide_True by lia. f_equal. unfold heredoc_lines at 2. cbn [app].
    rewrite skipn_cons, drop_0. apply take_app_length'. rewrite Hlen.
    unfold print_patch_lines. rewrite !length_app. simpl. lia. }
  pose proof (check_printed_lines body) as Hstrict. unfold select_patch_lines.
  remember (heredoc_lines o (print_patch_lines body)) as L eqn:HL.
  destruct L as [|o' [|l ls]]; [simpl in Hlen; lia..|].
  assert (o' = o) as -> by (unfold heredoc_lines in HL; by simplify_eq/=).
  assert (∃ e, check_patch_boundaries_strict (o :: l :: ls) = Err e) as [e ->].
  { unfold check_patch_boundaries_strict. rewrite Hlast.
    unfold check_start_and_end_lines_strict; cbn [fmap option_fmap option_map].
    rewrite decide_False by naive_solver. rewrite decide_True by done. eauto. }
  unfold check_patch_boundaries_lenient. rewrite Hlast, bool_decide_true by done.
  rewrite (proj2 (Nat.leb_le 4 _)) by lia. cbn [andb].
  change (ends_with (lit "EOF") (lit "EOF")) with true. cbn [andb].
  rewrite Hsl. cbn [mbind outcome_bind]. by rewrite Hstrict.
Qed.

Lemma parse_patch_text_safe text mode : returns (parse_patch_text text mode).
Proof.
  unfold parse_patch_text. apply returns_safe.
  eapply safe_bind; [apply select_patch_lines_safe|]. intros ls Hls; simpl in Hls.
  apply (safe_bind _ _ (λ _, True)); [apply slice_safe; [lia..|done]|]. intros rem _.
  apply (safe_bind _ _ (λ _, True)); [|done].
  apply returns_safe, parse_hunks_returns. lia.
Qed.

Lemma parse_patch_safe text : returns (parse_patch text).
Proof. apply parse_patch_text_safe. Qed.

(** ** Which texts are taken for a patch *)
Definition bounded (ls : list str) : Prop :=
  ∃ b body e, ls = b :: body ++ [e] ∧ trim b = BEGIN_PATCH_MARKER ∧ trim e = END_PATCH_MARKER.

Definition in_heredoc (ls inner : list str) : Prop :=
  ∃ opener close, ls = opener :: inner ++ [close] ∧ opener ∈ HEREDOC_OPENERS ∧
    lit "EOF" `suffix_of` close.

Lemma check_strict_bounded ls : check_patch_boundaries_strict ls = Ok () → bounded ls.
Proof.
  intros H. pose proof (check_strict_two_lines ls H) as Hlen.
  destruct ls as [|b [|x ls]]; cbn [length] in Hlen; [lia..|].
  destruct (exists_last (l:=x :: ls)) as (body & e & Hl); [done|]. rewrite Hl in *.
  unfold check_patch_boundaries_strict in H.
  assert (check_start_and_end_lines_strict (Some b) (Some e) = Ok ()) as H'.
  { destruct body; cbn [app] in *; [done|]. by rewrite !app_comm_cons, last_snoc in H. }
  exists b, body, e. split; [done|]. unfold check_start_and_end_lines_strict in H'.
  cbn in H'. by repeat case_decide.
Qed.

Lemma select_patch_lines_Ok ls mode ls' :
  select_patch_lines ls mode = Ok ls' →
  bounded ls' ∧ (ls' = ls ∨ mode = Lenient ∧ in_heredoc ls ls').
Proof.
  unfold select_patch_lines. destruct (check_patch_boundaries_strict ls) as [[]|e| |] eqn:E; try done.
  { intros [= <-]. split; [by apply check_strict_bounded|by left]. }
  destruct mode; [done|]. unfold check_patch_boundaries_lenient.
  destruct ls as [|o [|x ls]]; [done..|].
  destruct (exists_last (l:=x :: ls)) as (inner & c & Hl); [done|]. rewrite Hl.
  rewrite app_comm_cons, last_snoc.
  destruct (bool_decide (o ∈ HEREDOC_OPENERS) && ends_with (lit "EOF") c && _) eqn:Ec; [|done].
  bool_cases. rewrite <-app_comm_cons.
  assert (slice (E:=ParseError) (o :: inner ++ [c]) 1 (length (o :: inner ++ [c]) - 1) = Ok inner) as ->.
  { unfold slice. cbn [length]. rewrite length_app. rewrite decide_True by (simpl; lia).
    rewrite skipn_cons, drop_0. f_equal. apply take_app_length'. simpl. lia. }
  cbn [mbind outcome_bind].
  destruct (check_patch_boundaries_strict inner) as [[]|?| |] eqn:Ei; try done.
  intros [= <-]. split; [by apply check_strict_bounded|]. right. split; [done|].
  exists o, c. split_and!; [done|done|by apply ends_with_suffix].
Qed.

(** ** Properties *)

(** C39: [parse_patch_text] returns on every input text, and so does
    [parse_patch]: no slice or index of the parser is out of range and none of
    its three loops runs forever.  A text is accepted only when its lines, or in
    lenient mode the lines of the here-document it is, start and end with the
    patch markers. *)
Theorem parse_patch_returns (text : str) (mode : ParseMode) :
  returns (parse_patch text) ∧ returns (parse_patch_text text mode) ∧
  ∀ r, parse_patch_text text mode = Ok r →
    ∃ ls, bounded ls ∧ patch r = join [NL] ls ∧
      (ls = lines (trim text) ∨ mode = Lenient ∧ in_heredoc (lines (trim text)) ls).
Proof.
  split_and!; [apply parse_patch_safe|apply parse_patch_text_safe|].
  unfold parse_patch_text. intros r (ls & [Hb Hls]%select_patch_lines_Ok & Hr)%bind_Ok_inv.
  apply bind_Ok_inv in Hr as (rem & _ & (hs & _ & [= <-])%bind_Ok_inv). eauto.
Qed.

(** C2: printing a patch by the grammar and parsing it back yields the hunks
    that were printed, in order, in either mode: every path that can stand on
    a marker line, every list of added lines, every non-empty list of chunks
    with their kept, removed and added lines in any order, with or without the
    first [@@] line, moves, contexts and end-of-file marks included. *)
Theorem parse_printed_patch (hs : list Hunk) (body : list str) (mode : ParseMode) :
  printed_hunks hs body → forallb printable_hunk hs = true →
  Forall (λ l, plain_line l = true) body →
  parse_patch_text (join [NL] (print_patch_lines body)) mode =
  Ok {| patch := join [NL] (print_patch_lines body); hunks := hs; workdir := None |}.
Proof.
  intros Hpr Hok HF. unfold parse_patch_text.
  rewrite lines_trim_printed, select_printed_lines by done. cbn [mbind outcome_bind].
  assert (slice (E:=ParseError) (print_patch_lines body) 1 (length (print_patch_lines body) - 1)
    = Ok body) as ->.
  { unfold slice, print_patch_lines. rewrite !length_app, decide_True by (simpl; lia).
    cbn [app]. rewrite skipn_cons, drop_0. f_equal. apply take_app_length'. simpl. lia. }
  cbn [mbind outcome_bind]. by rewrite (parse_printed_hunks _ hs) by (done || lia).
Qed.

Definition sample_edits : list edit :=
  [Keep (lit "fn f() {"); Remove (lit "old"); KeepBlank; Insert (lit "new"); Keep (lit "}")].

Definition sample_hunks : list Hunk :=
  [AddFile (lit "a.txt") (unlines [lit "x"; []; lit "- y"]);
   DeleteFile (lit "b.txt");
   UpdateFile (lit "c.rs") (Some (lit "d.rs"))
     [chunk_of None sample_edits false; chunk_of (Some (lit "fn main()")) [Insert (lit "tail")] true]].

Definition sample_body : list str :=
  [lit "*** Add File: a.txt"; lit "+x"; lit "+"; lit "+- y"] ++
  [lit "*** Delete File: b.txt"] ++
  [lit "*** Update File: c.rs"; lit "*** Move to: d.rs";
   lit " fn f() {"; lit "-old"; []; lit "+new"; lit " }";
   lit "@@ fn main()"; lit "+tail"; lit "*** End of File"].

Lemma sample_printed : printed_hunks sample_hunks sample_body.
Proof.
  unfold sample_body. rewrite <-(app_nil_r [lit "*** Update File: c.rs"; _; _; _; _; _; _; _; _; _]).
  apply printed_cons; [apply (printed_add (lit "a.txt") [lit "x"; []; lit "- y"])|].
  apply printed_cons; [apply (printed_delete (lit "b.txt"))|].
  apply printed_cons; [|apply printed_nil].
  apply (printed_update (lit "c.rs") (Some (lit "d.rs")) _
    (print_body sample_edits false ++ [lit "@@ fn main()"; lit "+tail"; lit "*** End of File"])).
  apply printed_chunks_cons; [by apply printed_bare|].
  rewrite <-(app_nil_r [_; _; _]). apply printed_chunks_cons; [|apply printed_no_chunks].
  by apply (printed_marked _ (Some (lit "fn main()")) [Insert (lit "tail")] true).
Qed.

Lemma parse_printed_patch_witness :
  parse_patch_text (join [NL] (print_patch_lines sample_body)) Strict =
  Ok {| patch := join [NL] (print_patch_lines sample_body); hunks := sample_hunks; workdir := None |}.
Proof.
  apply (parse_printed_patch sample_hunks sample_body Strict).
  - apply sample_printed.
  - reflexivity.
  - by repeat constructor.
Defined.

(** In lenient mode a here-document around the patch changes nothing: the
    wrapped text parses to exactly what the inner text parses to in strict
    mode, errors and their line numbers included. *)
Theorem heredoc_transparent (opener : str) (body : list str) :
  opener ∈ HEREDOC_OPENERS → Forall (λ l, plain_line l = true) body →
  parse_patch (join [NL] (heredoc_lines opener (print_patch_lines body))) =
  parse_patch_text (join [NL] (print_patch_lines body)) Strict.
Proof.
  intros Ho HF. unfold parse_patch, parse_patch_text; cbn [PARSE_IN_STRICT_MODE].
  rewrite lines_trim_heredoc, lines_trim_printed, select_heredoc_lines, select_printed_lines;
    try done.
  unfold print_patch_lines. rewrite !Forall_app. by repeat constructor.
Qed.

Lemma heredoc_transparent_witness :
  parse_patch (join [NL] (heredoc_lines (lit "<<'EOF'") (print_patch_lines sample_body))) =
  parse_patch_text (join [NL] (print_patch_lines sample_body)) Strict.
Proof.
  apply (heredoc_transparent (lit "<<'EOF'") sample_body).
  - unfold HEREDOC_OPENERS; rewrite !elem_of_cons. auto.
  - by repeat constructor.
Defined.
