(* ===== verification/SeekSequence.v ===== *)
(** * Locating lines: [apply-patch/src/seek_sequence.rs]

    [seek_sequence] looks for a block of lines, from strict to lenient.  The
    theorems: it always returns, what it finds is the first match of the
    strictest pass that has one, and it finds nothing exactly when the most
    lenient pass has no match. *)
From stdpp Require Import base tactics option list numbers strings.
From S2P Require Import Prelude.
From S2P Require Import RustStr.
From stdpp Require Import options.

(** The character map of the local function [normalise]. *)
Definition normalise_char (c : char) : char :=
  if bool_decide (c ∈ [8208; 8209; 8210; 8211; 8212; 8213; 8722]%N) then 45%N
  else if bool_decide (c ∈ [8216; 8217; 8218; 8219]%N) then 39%N
  else if bool_decide (c ∈ [8220; 8221; 8222; 8223]%N) then 34%N
  else if bool_decide (c ∈ [160; 8194; 8195; 8196; 8197; 8198; 8199; 8200; 8201; 8202;
                            8239; 8287; 12288]%N) then 32%N
  else c.

Definition normalise (s : str) : str := normalise_char <$> trim s.

(** The inner loop over the pattern: [lines[i + p_idx]] is compared with each
    pattern line under [f]; an index out of range panics. *)
Fixpoint matches_at {E} (f : str → str) (lines : list str) (i : nat) (pattern : list str)
    : outcome E bool :=
  match pattern with
  | [] => Ok true
  | pat :: pattern' =>
      match lines !! i with
      | None => Panic
      | Some l => if decide (f l = f pat) then matches_at f lines (S i) pattern' else Ok false
      end
  end.

(** One pass: [for i in search_start..=last], [n] iterations left. *)
Fixpoint seek_pass {E} (f : str → str) (lines pattern : list str) (i n : nat)
    : outcome E (option nat) :=
  match n with
  | 0 => Ok None
  | S n' =>
      ok ← matches_at f lines i pattern;
      if ok : bool then Ok (Some i) else seek_pass f lines pattern (S i) n'
  end.

(** The passes in order: exact, trailing whitespace, both sides, normalised. *)
Definition seek_passes : list (str → str) := [id; trim_end; trim; normalise].

Fixpoint try_passes {E} (fs : list (str → str)) (lines pattern : list str) (i n : nat)
    : outcome E (option nat) :=
  match fs with
  | [] => Ok None
  | f :: fs' =>
      r ← seek_pass f lines pattern i n;
      match r with
      | Some i => Ok (Some i)
      | None => try_passes fs' lines pattern i n
      end
  end.

Definition seek_sequence {E} (lines pattern : list str) (start : nat) (eof : bool)
    : outcome E (option nat) :=
  if decide (pattern = []) then Ok (Some start)
  else if (length lines <? length pattern) then Ok None
  else
    let search_start :=
      if eof && (length pattern <=? length lines)
      then length lines - length pattern else start in
    (* search_start ..= lines.len() - pattern.len() *)
    let n := S (length lines - length pattern) - search_start in
    try_passes seek_passes lines pattern search_start n.

(** ** Reference definition *)

(** The block of lines at [i] equals the pattern under [f]. *)
Definition block_matches (f : str → str) (lines pattern : list str) (i : nat) : Prop :=
  i + length pattern ≤ length lines ∧
  f <$> take (length pattern) (drop i lines) = f <$> pattern.

(** Where the search starts. *)
Definition search_from (lines pattern : list str) (start : nat) (eof : bool) : nat :=
  if eof then length lines - length pattern else start.

(** [i] is the first match of pass [k], and no stricter pass has one. *)
Definition best_match (lines pattern : list str) (lo i : nat) : Prop :=
  ∃ k f, seek_passes !! k = Some f ∧ lo ≤ i ∧ block_matches f lines pattern i ∧
    (∀ j, lo ≤ j < i → ¬ block_matches f lines pattern j) ∧
    (∀ k' g j, k' < k → seek_passes !! k' = Some g → lo ≤ j →
       ¬ block_matches g lines pattern j).

(** ** Lemmas *)
Lemma matches_at_spec {E} f lines i pattern :
  i + length pattern ≤ length lines →
  ∃ b, matches_at (E:=E) f lines i pattern = Ok b ∧
    (b = true ↔ f <$> take (length pattern) (drop i lines) = f <$> pattern).
Proof.
  revert i; induction pattern as [|pat pattern IH]; intros i Hi; simpl in *.
  { by exists true. }
  destruct (lookup_lt_is_Some_2 lines i) as [l Hl]; [lia|]. rewrite Hl.
  rewrite (drop_S lines l i) by done. cbn [firstn fmap list_fmap].
  case_decide as Hf.
  - destruct (IH (S i)) as (b & -> & Hb); [lia|]. exists b. split; [done|].
    rewrite Hb, Hf. split; [by intros ->|by intros [=]].
  - exists false. split; [done|]. split; [done|by intros [=]].
Qed.

Lemma seek_pass_spec {E} f lines pattern i n :
  i + n + length pattern ≤ S (length lines) →
  ∃ r, seek_pass (E:=E) f lines pattern i n = Ok r ∧
    match r with
    | Some j => i ≤ j < i + n ∧ block_matches f lines pattern j ∧
        ∀ j', i ≤ j' < j → ¬ block_matches f lines pattern j'
    | None => ∀ j', i ≤ j' < i + n → ¬ block_matches f lines pattern j'
    end.
Proof.
  revert i; induction n as [|n IH]; intros i Hi; simpl.
  { eexists; split; [done|]. simpl. lia. }
  destruct (matches_at_spec (E:=E) f lines i pattern) as (b & -> & Hb); [lia|].
  cbn [mbind outcome_bind]. destruct b.
  - eexists; split; [done|]. split; [lia|]. split; [split; [lia|by apply Hb]|lia].
  - assert (Hno : ¬ block_matches f lines pattern i) by (intros [_ ?%Hb]; done).
    destruct (IH (S i)) as (r & -> & Hr); [lia|]. eexists; split; [done|].
    destruct r as [j|].
    + destruct Hr as (? & ? & Hmin). split; [lia|]. split; [done|].
      intros j' ?. destruct (decide (j' = i)) as [->|]; [done|]. apply Hmin. lia.
    + intros j' ?. destruct (decide (j' = i)) as [->|]; [done|]. apply Hr. lia.
Qed.

Lemma try_passes_spec {E} fs lines pattern i n :
  i + n + length pattern ≤ S (length lines) →
  ∃ r, try_passes (E:=E) fs lines pattern i n = Ok r ∧
    match r with
    | Some j => ∃ k f, fs !! k = Some f ∧ i ≤ j < i + n ∧ block_matches f lines pattern j ∧
        (∀ j', i ≤ j' < j → ¬ block_matches f lines pattern j') ∧
        (∀ k' g j', k' < k → fs !! k' = Some g → i ≤ j' < i + n →
           ¬ block_matches g lines pattern j')
    | None => ∀ f j', f ∈ fs → i ≤ j' < i + n → ¬ block_matches f lines pattern j'
    end.
Proof.
  intros Hi. induction fs as [|f fs IH]; simpl.
  { eexists; split; [done|]. intros f j' Hf. by apply not_elem_of_nil in Hf. }
  destruct (seek_pass_spec (E:=E) f lines pattern i n Hi) as ([j|] & -> & Hr);
    cbn [mbind outcome_bind].
  - eexists; split; [done|]. exists 0, f. destruct Hr as (? & ? & ?).
    split_and!; try done; lia.
  - destruct IH as (r & -> & Hr'). eexists; split; [done|]. destruct r as [j|].
    + destruct Hr' as (k & g & ? & ? & ? & ? & Hk). exists (S k), g. split_and!; try (done || lia).
      intros [|k'] g' j' ? Hg ?; simplify_eq/=; [by apply Hr|]. eapply Hk; eauto. lia.
    + intros g j' [->|Hg]%elem_of_cons ?; eauto.
Qed.

(** Each pass accepts what the stricter ones accept. *)
Lemma trim_start_cons_ws c s : is_whitespace c = true → trim_start (c :: s) = trim_start s.
Proof. simpl. by intros ->. Qed.

Lemma trim_end_app_ws s t :
  Forall (λ c, is_whitespace c = true) t → trim_end (s ++ t) = trim_end s.
Proof.
  intros HF. induction s as [|c s IH]; simpl; [|by rewrite IH].
  induction HF as [|d t Hd HF IH]; simpl; [done|]. by rewrite IH, Hd.
Qed.

Lemma trim_end_split s : ∃ w, s = trim_end s ++ w ∧ Forall (λ c, is_whitespace c = true) w.
Proof.
  induction s as [|c s (w & Hw & HF)]; [by exists []|]. simpl.
  destruct (trim_end s) as [|d t] eqn:E.
  - simpl in Hw. subst. destruct (is_whitespace c) eqn:Hc.
    + exists (c :: w). auto.
    + exists w. auto.
  - exists w. rewrite Hw at 1. done.
Qed.

Lemma trim_start_all_ws w : Forall (λ c, is_whitespace c = true) w → trim_start w = [].
Proof. induction 1 as [|c w Hc HF IH]; simpl; [done|]. by rewrite Hc. Qed.

Lemma trim_start_app_ws s w :
  Forall (λ c, is_whitespace c = true) w → trim_end (trim_start (s ++ w)) = trim_end (trim_start s).
Proof.
  intros HF. induction s as [|c s IH]; simpl.
  - rewrite trim_start_all_ws; [done|done].
  - destruct (is_whitespace c) eqn:Hc; [done|]. apply (trim_end_app_ws (c :: s)). done.
Qed.

Lemma trim_trim_end s : trim (trim_end s) = trim s.
Proof.
  destruct (trim_end_split s) as (w & Hw & HF). unfold trim.
  rewrite Hw at 2. by rewrite trim_start_app_ws.
Qed.

Lemma block_matches_weaken f g lines pattern i :
  (∀ a b, f a = f b → g a = g b) →
  block_matches f lines pattern i → block_matches g lines pattern i.
Proof.
  intros Hfg [? Heq]. split; [done|].
  revert Heq. generalize (take (length pattern) (drop i lines)) as l.
  induction pattern as [|p ps IH] in i |- *; intros [|x l]; simpl; intros Heq; simplify_eq; [done|].
  f_equal; [by apply Hfg|]. by apply (IH i).
Qed.

Lemma pass_weaker_normalise f :
  f ∈ seek_passes → ∀ a b, f a = f b → normalise a = normalise b.
Proof.
  unfold normalise, seek_passes.
  intros [->|[->|[->|[->|Hf%not_elem_of_nil]%elem_of_cons]%elem_of_cons]%elem_of_cons]%elem_of_cons a b;
    [by intros [= ->]| |by intros ->|done|done].
  intros Hab. f_equal. by rewrite <-(trim_trim_end a), Hab, trim_trim_end.
Qed.

(** The search never returns an error and its result is one of the two cases
    of [try_passes_spec]. *)
Lemma seek_sequence_cases {E} lines pattern start eof :
  pattern ≠ [] →
  ∃ r, seek_sequence (E:=E) lines pattern start eof = Ok r ∧
    match r with
    | Some i => best_match lines pattern (search_from lines pattern start eof) i
    | None => ∀ i, search_from lines pattern start eof ≤ i →
        ¬ block_matches normalise lines pattern i
    end.
Proof.
  intros Hp. unfold seek_sequence. rewrite decide_False by done.
  destruct (Nat.ltb_spec (length lines) (length pattern)) as [Hlt|Hge].
  { eexists; split; [done|]. intros i _ [? _]. lia. }
  assert ((if eof && (length pattern <=? length lines)
    then length lines - length pattern else start) = search_from lines pattern start eof) as ->.
  { unfold search_from. destruct eof; simpl; [|done]. by rewrite (proj2 (Nat.leb_le _ _)). }
  set (lo := search_from lines pattern start eof).
  set (n := S (length lines - length pattern) - lo).
  assert (Hall : ∀ f j, lo ≤ j → block_matches f lines pattern j → lo ≤ j < lo + n).
  { intros f j ? [? _]. lia. }
  destruct (decide (lo ≤ S (length lines - length pattern))) as [Hlo|Hlo].
  - destruct (try_passes_spec (E:=E) seek_passes lines pattern lo n) as (r & -> & Hr); [lia|].
    eexists; split; [done|]. destruct r as [j|].
    + destruct Hr as (k & f & ? & ? & ? & ? & Hk). exists k, f. split_and!; try (done || lia).
      intros k' g j' ? Hg ? Hm. eapply (Hk k' g j'); eauto.
    + intros i ? Hm. apply (Hr normalise i); eauto.
      unfold seek_passes. rewrite !elem_of_cons. auto.
  - assert (n = 0) as -> by lia. exists None. split; [done|].
    intros i Hi [? _]. lia.
Qed.

Lemma seek_sequence_bounds {E} lines pattern start eof i :
  seek_sequence (E:=E) lines pattern start eof = Ok (Some i) → pattern ≠ [] →
  search_from lines pattern start eof ≤ i ∧ i + length pattern ≤ length lines.
Proof.
  intros H Hp. destruct (seek_sequence_cases (E:=E) lines pattern start eof Hp) as (r & Hr & Hc).
  rewrite H in Hr. simplify_eq/=. by destruct Hc as (k & f & _ & ? & [? _] & _).
Qed.

Lemma seek_sequence_Ok {E} lines pattern start eof :
  ∃ r, seek_sequence (E:=E) lines pattern start eof = Ok r.
Proof.
  destruct (decide (pattern = [])) as [->|Hp]; [by eexists|].
  destruct (seek_sequence_cases (E:=E) lines pattern start eof Hp) as (r & ? & _). eauto.
Qed.

(** C4: [seek_sequence] on a non-empty pattern, when [eof] is not set, or is
    set and the end of the file matches at least after normalisation: it
    returns; a position it returns is the first match, at or after the start of
    the search (the end of the file when [eof] is set), of the strictest of the
    four passes (exact, right-trimmed, trimmed, normalised punctuation) that
    matches anywhere in the range; without [eof] it returns [None] exactly when
    no block at or after [start] matches even after normalisation, and with
    [eof] it returns the end of the file. *)
Theorem seek_sequence_spec (E : Type) (lines pattern : list str) (start : nat) (eof : bool) :
  pattern ≠ [] →
  (eof = true → block_matches normalise lines pattern (length lines - length pattern)) →
  ∃ r, seek_sequence (E:=E) lines pattern start eof = Ok r ∧
  (∀ i, r = Some i → best_match lines pattern (search_from lines pattern start eof) i) ∧
  (if eof then r = Some (length lines - length pattern)
   else r = None ↔ ∀ i, start ≤ i → ¬ block_matches normalise lines pattern i).
Proof.
  intros Hp Heof. destruct (seek_sequence_cases (E:=E) lines pattern start eof Hp) as (r & Hr & Hcase).
  exists r. split; [done|]. split; [by intros i ->|].
  assert (∀ i, r = Some i → search_from lines pattern start eof ≤ i ∧ block_matches normalise lines pattern i)
    as Hsome.
  { intros i ->. destruct Hcase as (k & f & Hf & ? & Hm & _). split; [done|].
    apply (block_matches_weaken f); [|done]. apply pass_weaker_normalise. by eapply list_elem_of_lookup_2. }
  destruct eof; cbn [search_from] in *.
  - destruct r as [i|]; [|by destruct (Hcase _ (Nat.le_refl _) (Heof eq_refl))].
    destruct (Hsome i eq_refl) as [Hlo [Hhi _]]. f_equal. lia.
  - split; [by intros ->|]. intros Hno. destruct r as [i|]; [|done].
    by destruct (Hno i (proj1 (Hsome i eq_refl)) (proj2 (Hsome i eq_refl))).
Qed.

(** A file whose second line holds an en dash (U+2013). *)
Definition dash_file : list str :=
  [lit "fn a() {"; lit "  x " ++ [8211%N] ++ lit " y  "; lit "}"].

Lemma seek_sequence_spec_witness :
  best_match dash_file [lit "x - y"] (search_from dash_file [lit "x - y"] 0 false) 1 ∧
  seek_sequence (E:=unit) dash_file [lit "x - y"; lit "}"] 0 true = Ok (Some 1).
Proof.
  split.
  - destruct (seek_sequence_spec unit dash_file [lit "x - y"] 0 false) as (r & Hr & Hb & _); [done|done|].
    apply Hb. assert (seek_sequence (E:=unit) dash_file [lit "x - y"] 0 false = Ok (Some 1)) as He
      by (vm_compute; reflexivity). rewrite He in Hr. by injection Hr as <-.
  - destruct (seek_sequence_spec unit dash_file [lit "x - y"; lit "}"] 0 true) as (r & -> & _ & ->); [done| |done].
    intros _. split; vm_compute; [lia|reflexivity].
Defined.

(** With [eof] set the search looks at one place only, the end of the
    file: any position returned is [lines.len() - pattern.len()], whatever
    [start] is, and [start] does not influence the result.  (The comment of
    the source announces a fall back to searching from [start]; there is
    none.) *)
Theorem seek_sequence_eof_end_only (E : Type) (lines pattern : list str) (start : nat) :
  pattern ≠ [] →
  (∀ i, seek_sequence (E:=E) lines pattern start true = Ok (Some i) →
     i = length lines - length pattern) ∧
  (∀ start', seek_sequence (E:=E) lines pattern start' true =
     seek_sequence (E:=E) lines pattern start true).
Proof.
  intros Hp. split.
  - intros i H. destruct (seek_sequence_bounds _ _ _ _ _ H Hp) as [Hlo Hhi].
    simpl in Hlo. lia.
  - intros start'. unfold seek_sequence. rewrite !decide_False by done.
    destruct (Nat.ltb_spec (length lines) (length pattern)); [done|].
    by rewrite (proj2 (Nat.leb_le _ _)).
Qed.

Lemma seek_sequence_eof_end_only_witness :
  seek_sequence (E:=unit) [lit "a"; lit "b"] [lit "a"] 0 true = Ok None ∧
  seek_sequence (E:=unit) [lit "a"; lit "b"] [lit "a"] 0 false = Ok (Some 0) ∧
  1 = length [lit "a"; lit "b"] - length [lit "b"].
Proof.
  split; [reflexivity|]. split; [reflexivity|].
  apply (seek_sequence_eof_end_only unit [lit "a"; lit "b"] [lit "b"] 0).
  - done.
  - reflexivity.
Defined.
