(* ===== verification/Replacements.v ===== *)
(** * Editing a file by chunks: [compute_replacements], [apply_replacements]
      and [derive_new_contents_from_chunks] of [apply-patch/src/lib.rs]

    A chunk is located by [seek_sequence] and becomes a replacement
    [(start, old_len, new_lines)]; the replacements are sorted and applied from
    the last to the first.  The theorems: no index is ever out of range, the
    edit is the left-to-right splice of disjoint replacements, chunks that
    name old lines are replaced in order, and the result ends in a newline. *)
From stdpp Require Import base tactics option list numbers strings.
From stdpp Require Import sorting.
From S2P Require Import Prelude.
From S2P Require Import RustStr.
From S2P Require Import PatchParser.
From S2P Require Import SeekSequence.
From stdpp Require Import options.

(** ** Data *)

(** The [source] of an I/O error is kept as the text it displays, which is
    what its [PartialEq] compares. *)
Record IoError : Type := { context : str; source : str }.

Inductive ApplyPatchError : Type :=
  | ApplyParseError (e : ParseError)
  | ApplyIoError (e : IoError)
  | ComputeReplacements (message : str)
  | ImplicitInvocation.

Definition replacement : Type := nat * nat * list str.

#[export] Instance IoError_eq_dec : EqDecision IoError.
Proof. solve_decision. Defined.
#[export] Instance ApplyPatchError_eq_dec : EqDecision ApplyPatchError.
Proof. solve_decision. Defined.

(** [l.last().is_some_and(String::is_empty)]. *)
Definition last_is_empty (l : list str) : bool :=
  match last l with Some [] => true | _ => false end.

(** ** Computing the replacements *)
Definition context_not_found_message (ctx_line path : str) : str :=
  lit "Failed to find context '" ++ ctx_line ++ lit "' in " ++ path.

Definition lines_not_found_message (path : str) (old : list str) : str :=
  lit "Failed to find expected lines in " ++ path ++ lit ":" ++ [NL] ++ join [NL] old.

(** The [change_context] step of the loop body: the new [line_index]. *)
Definition seek_context (original_lines : list str) (path : str)
    (chunk : UpdateFileChunk) (line_index : nat) : outcome ApplyPatchError nat :=
  match change_context chunk with
  | None => Ok line_index
  | Some ctx_line =>
      found ← seek_sequence original_lines [ctx_line] line_index false;
      match found with
      | Some idx => Ok (idx + 1)
      | None => Err (ComputeReplacements (context_not_found_message ctx_line path))
      end
  end.

(** The retry without the trailing empty line: pattern, new slice, position. *)
Definition seek_old_lines (original_lines : list str) (chunk : UpdateFileChunk)
    (line_index : nat) : outcome ApplyPatchError (list str * list str * option nat) :=
  let pattern := old_lines chunk in
  let new_slice := new_lines chunk in
  found ← seek_sequence original_lines pattern line_index (is_end_of_file chunk);
  match found with
  | None =>
      if last_is_empty pattern then
        let pattern := take (length pattern - 1) pattern in
        let new_slice :=
          if last_is_empty new_slice then take (length new_slice - 1) new_slice else new_slice in
        found ← seek_sequence original_lines pattern line_index (is_end_of_file chunk);
        Ok (pattern, new_slice, found)
      else Ok (pattern, new_slice, found)
  | Some _ => Ok (pattern, new_slice, found)
  end.

(** The body of [for chunk in chunks]: the replacement and the new [line_index]. *)
Definition chunk_replacement (original_lines : list str) (path : str)
    (chunk : UpdateFileChunk) (line_index : nat)
    : outcome ApplyPatchError (replacement * nat) :=
  line_index ← seek_context original_lines path chunk line_index;
  if decide (old_lines chunk = []) then
    let insertion_idx :=
      if last_is_empty original_lines then length original_lines - 1
      else length original_lines in
    Ok ((insertion_idx, 0, new_lines chunk), line_index)
  else
    '(pattern, new_slice, found) ← seek_old_lines original_lines chunk line_index;
    match found with
    | Some start_idx =>
        Ok ((start_idx, length pattern, new_slice), start_idx + length pattern)
    | None => Err (ComputeReplacements (lines_not_found_message path (old_lines chunk)))
    end.

Fixpoint chunk_replacements (original_lines : list str) (path : str)
    (chunks : list UpdateFileChunk) (line_index : nat)
    : outcome ApplyPatchError (list replacement) :=
  match chunks with
  | [] => Ok []
  | chunk :: chunks' =>
      '(r, line_index) ← chunk_replacement original_lines path chunk line_index;
      rs ← chunk_replacements original_lines path chunks' line_index;
      Ok (r :: rs)
  end.

(** [sort_by] on the start index: the stable sort. *)
Definition sort_by_start (rs : list replacement) : list replacement :=
  sort_by_key (λ r : replacement, r.1.1) rs.

Definition compute_replacements (original_lines : list str) (path : str)
    (chunks : list UpdateFileChunk) : outcome ApplyPatchError (list replacement) :=
  replacements ← chunk_replacements original_lines path chunks 0;
  Ok (sort_by_start replacements).

(** ** Applying them *)

(** [Vec::remove], guarded by the index test of the code. *)
Fixpoint remove_lines (old_len start_idx : nat) (lines : list str) : list str :=
  match old_len with
  | 0 => lines
  | S n =>
      remove_lines n start_idx
        (if (start_idx <? length lines) then delete start_idx lines else lines)
  end.

(** [Vec::insert], which panics past the end. *)
Definition vec_insert {E A} (i : nat) (x : A) (l : list A) : outcome E (list A) :=
  if (i <=? length l) then Ok (take i l ++ x :: drop i l) else Panic.

Fixpoint insert_lines {E} (i : nat) (new_segment lines : list str) : outcome E (list str) :=
  match new_segment with
  | [] => Ok lines
  | new_line :: new_segment' =>
      lines ← vec_insert i new_line lines;
      insert_lines (S i) new_segment' lines
  end.

(** One iteration of the loop over [replacements.iter().rev()]. *)
Definition apply_replacement {E} (r : replacement) (lines : list str) : outcome E (list str) :=
  let '(start_idx, old_len, new_segment) := r in
  insert_lines start_idx new_segment (remove_lines old_len start_idx lines).

Fixpoint apply_replacements_loop {E} (lines : list str) (rev_replacements : list replacement)
    : outcome E (list str) :=
  match rev_replacements with
  | [] => Ok lines
  | r :: rs => lines ← apply_replacement r lines; apply_replacements_loop lines rs
  end.

Definition apply_replacements {E} (lines : list str) (replacements : list replacement)
    : outcome E (list str) :=
  apply_replacements_loop lines (reverse replacements).

(** ** New contents of a file *)
Record AppliedPatch : Type := { original_contents : str; new_contents : str }.

(** [split('\n')] without the trailing empty element. *)
Definition split_file_lines (contents : str) : list str :=
  let original_lines := split NL contents in
  if last_is_empty original_lines then take (length original_lines - 1) original_lines
  else original_lines.

(** [new_lines.join("\n")] with a final newline. *)
Definition join_file_lines (new_lines : list str) : str :=
  join [NL] (if last_is_empty new_lines then new_lines else new_lines ++ [[]]).

(** [derive_new_contents_from_chunks] after the file has been read. *)
Definition derive_new_contents (original_contents path : str) (chunks : list UpdateFileChunk)
    : outcome ApplyPatchError AppliedPatch :=
  let original_lines := split_file_lines original_contents in
  replacements ← compute_replacements original_lines path chunks;
  new_lines ← apply_replacements original_lines replacements;
  Ok {| original_contents := original_contents; new_contents := join_file_lines new_lines |}.

(** ** Reference definitions *)

(** The left-to-right splice from position [pos] of the original lines. *)
Fixpoint splice (pos : nat) (lines : list str) (rs : list replacement) : list str :=
  match rs with
  | [] => drop pos lines
  | (start, old_len, new_segment) :: rs' =>
      take (start - pos) (drop pos lines) ++ new_segment ++ splice (start + old_len) lines rs'
  end.

(** Replacements in order, disjoint and inside the file, from [pos] on. *)
Fixpoint disjoint_from (pos len : nat) (rs : list replacement) : Prop :=
  match rs with
  | [] => pos ≤ len
  | (start, old_len, _) :: rs' => pos ≤ start ∧ disjoint_from (start + old_len) len rs'
  end.

(** The old and new lines a chunk stands for: its own, or both without the
    trailing empty line that represents the final newline. *)
Inductive chunk_sides (c : UpdateFileChunk) : list str → list str → Prop :=
  | sides_whole : chunk_sides c (old_lines c) (new_lines c)
  | sides_trimmed old new :
      old_lines c = old ++ [[]] →
      new = (if last_is_empty (new_lines c)
             then take (length (new_lines c) - 1) (new_lines c) else new_lines c) →
      chunk_sides c old new.

(** The replacement of a chunk: a region of the file whose lines match the old
    lines (up to whitespace at the ends and Unicode punctuation) becomes the
    new lines. *)
Definition replaces (lines : list str) (c : UpdateFileChunk) (r : replacement) : Prop :=
  ∃ start old new, chunk_sides c old new ∧ r = (start, length old, new) ∧
    block_matches normalise lines old start.

Definition in_file (len : nat) (r : replacement) : Prop := r.1.1 + r.1.2 ≤ len.

Definition starts_sorted (rs : list replacement) : Prop :=
  StronglySorted (λ r r' : replacement, r.1.1 ≤ r'.1.1) rs.

#[global] Arguments seek_sequence : simpl never.

(** ** One replacement *)
Lemma remove_lines_spec n s l : remove_lines n s l = take s l ++ drop (s + n) l.
Proof.
  revert l; induction n as [|n IH]; intros l; simpl.
  { by rewrite Nat.add_0_r, take_drop. }
  rewrite IH. destruct (Nat.ltb_spec s (length l)).
  - rewrite delete_take_drop, take_app_length', drop_app_ge; rewrite length_take_le; try lia.
    rewrite drop_drop. do 2 f_equal. lia.
  - rewrite !take_ge, !drop_ge by lia. done.
Qed.

Lemma insert_lines_spec {E} i new l :
  i ≤ length l → insert_lines (E:=E) i new l = Ok (take i l ++ new ++ drop i l).
Proof.
  revert i l; induction new as [|x new IH]; intros i l Hi; simpl.
  { by rewrite take_drop. }
  unfold vec_insert. rewrite (proj2 (Nat.leb_le _ _)) by done. cbn [mbind outcome_bind].
  assert (take i l ++ x :: drop i l = (take i l ++ [x]) ++ drop i l) as ->
    by (by rewrite <-app_assoc).
  assert (length (take i l ++ [x]) = S i) as Hlen
    by (rewrite length_app, length_take_le by done; simpl; lia).
  rewrite IH by (rewrite length_app; lia).
  rewrite take_app_length', drop_app_length' by done.
  by rewrite <-app_assoc.
Qed.

Lemma apply_replacement_spec {E} s n new l :
  s ≤ length l →
  apply_replacement (E:=E) (s, n, new) l = Ok (take s l ++ new ++ drop (s + n) l).
Proof.
  intros Hs. unfold apply_replacement. rewrite remove_lines_spec, insert_lines_spec.
  - rewrite take_app_length', drop_app_length' by (rewrite length_take_le; lia). done.
  - rewrite length_app, length_take_le by done. lia.
Qed.

(** ** All replacements *)
Lemma apply_replacements_loop_snoc {E} lines rs r :
  apply_replacements_loop (E:=E) lines (rs ++ [r]) =
  apply_replacements_loop lines rs ≫= apply_replacement r.
Proof.
  revert lines; induction rs as [|r' rs IH]; intros lines; simpl.
  - by destruct (apply_replacement r lines).
  - destruct (apply_replacement r' lines); simpl; [apply IH|done..].
Qed.

(** The first replacement is applied last. *)
Lemma apply_replacements_cons {E} lines r rs :
  apply_replacements (E:=E) lines (r :: rs) =
  apply_replacements lines rs ≫= apply_replacement r.
Proof. unfold apply_replacements. by rewrite reverse_cons, apply_replacements_loop_snoc. Qed.

Lemma apply_replacements_bounded {E} lines rs b :
  starts_sorted rs → Forall (λ r : replacement, b ≤ r.1.1 ≤ length lines) rs →
  b ≤ length lines →
  ∃ lines', apply_replacements (E:=E) lines rs = Ok lines' ∧ b ≤ length lines'.
Proof.
  intros Hs. revert b; induction Hs as [|[[s n] new] rs Hs IH Hr]; intros b HF Hb.
  { by exists lines. }
  apply Forall_cons in HF as [[Hbs Hsl] HF]; simpl in *.
  destruct (IH s) as (l' & Hl' & Hs'); [|done|].
  { apply Forall_forall. intros r Hin.
    rewrite Forall_forall in Hr, HF. specialize (Hr r Hin). specialize (HF r Hin).
    simpl in *. lia. }
  exists (take s l' ++ new ++ drop (s + n) l').
  rewrite apply_replacements_cons, Hl'. cbn [mbind outcome_bind].
  rewrite apply_replacement_spec by done. split; [done|].
  rewrite length_app, length_take_le by done. lia.
Qed.

Lemma disjoint_from_le pos len rs : disjoint_from pos len rs → pos ≤ len.
Proof.
  revert pos; induction rs as [|[[s n] new] rs IH]; intros pos; simpl; [done|].
  intros [? ?%IH]. lia.
Qed.

Lemma apply_replacements_splice {E} pos lines rs :
  disjoint_from pos (length lines) rs →
  apply_replacements (E:=E) lines rs = Ok (take pos lines ++ splice pos lines rs).
Proof.
  revert pos; induction rs as [|[[s n] new] rs IH]; intros pos; cbn [disjoint_from splice].
  { intros ?. by rewrite take_drop. }
  intros [Hpos Hd]. pose proof (disjoint_from_le _ _ _ Hd) as Hle.
  rewrite apply_replacements_cons, (IH (s + n)) by done. cbn [mbind outcome_bind].
  rewrite apply_replacement_spec by (rewrite length_app, length_take_le by lia; lia).
  rewrite take_app_le, drop_app_length' by (rewrite length_take_le by lia; lia).
  rewrite take_take, Nat.min_l by lia.
  rewrite (app_assoc (take pos lines)). do 2 f_equal.
  rewrite take_drop_commute. replace (pos + (s - pos)) with s by lia.
  rewrite <-(take_drop pos (take s lines)) at 1. f_equal.
  rewrite take_take. f_equal. lia.
Qed.

(** ** The sort *)
Lemma disjoint_starts_ge pos len rs :
  disjoint_from pos len rs → Forall (λ r : replacement, pos ≤ r.1.1) rs.
Proof.
  revert pos; induction rs as [|[[s n] new] rs IH]; intros pos; simpl; [constructor|].
  intros [? H%IH]. constructor; [done|]. eapply Forall_impl; [done|]. simpl. lia.
Qed.

Lemma disjoint_sorted pos len rs : disjoint_from pos len rs → starts_sorted rs.
Proof.
  revert pos; induction rs as [|[[s n] new] rs IH]; intros pos; simpl; [constructor|].
  intros [? H]. constructor; [by eapply IH|]. eapply Forall_impl; [by eapply disjoint_starts_ge|].
  simpl. lia.
Qed.

(** ** Locating chunks *)
Lemma seek_context_safe lines path chunk li :
  li ≤ length lines →
  safe (seek_context lines path chunk li) (λ li', li ≤ li' ≤ length lines).
Proof.
  intros Hli. unfold seek_context. destruct (change_context chunk) as [ctx|]; [|simpl; lia].
  destruct (seek_sequence_Ok (E:=ApplyPatchError) lines [ctx] li false) as [[i|] Hr]; rewrite Hr;
    cbn [mbind outcome_bind]; [|done].
  destruct (seek_sequence_bounds _ _ _ _ _ Hr) as [Hlo Hhi]; [done|]. simpl in *. lia.
Qed.

(** Where [seek_old_lines] puts a chunk: inside the file, and from
    [line_index] on when the chunk is not marked end-of-file. *)
Lemma seek_old_lines_safe lines chunk li :
  li ≤ length lines →
  safe (seek_old_lines lines chunk li) (λ '(pattern, _, found),
    ∀ i, found = Some i → i + length pattern ≤ length lines ∧
      (is_end_of_file chunk = false → li ≤ i)).
Proof.
  intros Hli.
  assert (Hany : ∀ pattern i,
    seek_sequence (E:=ApplyPatchError) lines pattern li (is_end_of_file chunk) = Ok (Some i) →
    i + length pattern ≤ length lines ∧ (is_end_of_file chunk = false → li ≤ i)).
  { intros pattern i H. destruct (decide (pattern = [])) as [->|Hp].
    - unfold seek_sequence in H. simplify_eq/=. lia.
    - destruct (seek_sequence_bounds _ _ _ _ _ H Hp) as [Hlo Hhi]. split; [done|].
      intros Heof. unfold search_from in Hlo. by rewrite Heof in Hlo. }
  unfold seek_old_lines.
  destruct (seek_sequence_Ok (E:=ApplyPatchError) lines (old_lines chunk) li (is_end_of_file chunk))
    as [r Hr]. rewrite Hr. cbn [mbind outcome_bind].
  destruct r as [i|]; [simpl; intros ? [= <-]; by apply Hany|].
  case_match; [|done].
  destruct (seek_sequence_Ok (E:=ApplyPatchError) lines
    (take (length (old_lines chunk) - 1) (old_lines chunk)) li (is_end_of_file chunk)) as [r Hr'].
  rewrite Hr'. cbn [mbind outcome_bind]. simpl. intros i ->. by apply Hany.
Qed.

Lemma chunk_replacement_safe lines path chunk li :
  li ≤ length lines →
  safe (chunk_replacement lines path chunk li) (λ '(r, li'),
    in_file (length lines) r ∧ li' ≤ length lines ∧
    (old_lines chunk ≠ [] → is_end_of_file chunk = false →
       li ≤ r.1.1 ∧ li' = r.1.1 + r.1.2)).
Proof.
  intros Hli. unfold chunk_replacement.
  eapply safe_bind; [by apply seek_context_safe|]. intros li1 Hli1; simpl in Hli1.
  case_decide as Hold.
  { unfold in_file. simpl. split; [case_match; lia|]. split; [lia|done]. }
  eapply safe_bind; [by apply seek_old_lines_safe; lia|].
  intros [[pattern new] [i|]] Hf; [|done].
  destruct (Hf i eq_refl) as [? Hge]. unfold in_file; simpl. split; [done|]. split; [done|].
  intros _ Heof. specialize (Hge Heof). lia.
Qed.

Lemma chunk_replacements_safe lines path chunks li :
  li ≤ length lines →
  safe (chunk_replacements lines path chunks li) (λ rs,
    Forall (in_file (length lines)) rs ∧
    (Forall (λ c, old_lines c ≠ [] ∧ is_end_of_file c = false) chunks →
       disjoint_from li (length lines) rs)).
Proof.
  revert li; induction chunks as [|c chunks IH]; intros li Hli; cbn [chunk_replacements].
  { simpl. split; [constructor|done]. }
  eapply safe_bind; [by apply chunk_replacement_safe|]. intros [r li'] (Hr & Hli' & Hc).
  eapply safe_bind; [by apply IH|]. intros rs [HF Hd]; simpl. split; [by constructor|].
  intros [[Hold Heof] HFc]%Forall_cons. destruct (Hc Hold Heof) as [? ->].
  destruct r as [[s n] new]. split; [done|]. by apply Hd.
Qed.

Lemma compute_replacements_safe lines path chunks :
  safe (compute_replacements lines path chunks) (λ rs,
    Forall (in_file (length lines)) rs ∧ starts_sorted rs ∧
    (Forall (λ c, old_lines c ≠ [] ∧ is_end_of_file c = false) chunks →
       chunk_replacements lines path chunks 0 = Ok rs ∧ disjoint_from 0 (length lines) rs)).
Proof.
  unfold compute_replacements.
  pose proof (chunk_replacements_safe lines path chunks 0 ltac:(lia)) as Hs.
  destruct (chunk_replacements lines path chunks 0) as [rs|?| |]; try done.
  destruct Hs as [HF Hd]. simpl. split; [by unfold sort_by_start; rewrite sort_by_key_perm|].
  split; [apply sort_by_key_sorted|]. intros HFc. specialize (Hd HFc).
  unfold sort_by_start; rewrite sort_by_key_id by (by eapply disjoint_sorted). done.
Qed.

Lemma last_is_empty_snoc l : last_is_empty l = true ↔ ∃ l', l = l' ++ [[]].
Proof.
  unfold last_is_empty. destruct (last l) as [[|c x]|] eqn:E.
  - split; [|done]. intros _. apply last_Some in E as [l' ->]. eauto.
  - split; [done|]. intros [l' ->]. by rewrite last_snoc in E.
  - split; [done|]. intros [l' ->]. by rewrite last_snoc in E.
Qed.

Lemma seek_sequence_matches lines pattern start eof i :
  start ≤ length lines →
  seek_sequence (E:=ApplyPatchError) lines pattern start eof = Ok (Some i) →
  block_matches normalise lines pattern i.
Proof.
  intros Hs H. destruct (decide (pattern = [])) as [->|Hp].
  { unfold seek_sequence in H. simplify_eq/=. split; simpl; [lia|done]. }
  destruct (seek_sequence_cases (E:=ApplyPatchError) lines pattern start eof Hp) as (r & Hr & Hc).
  rewrite H in Hr. simplify_eq/=. destruct Hc as (k & f & Hf & _ & Hm & _).
  apply (block_matches_weaken f); [|done].
  apply pass_weaker_normalise. by eapply list_elem_of_lookup_2.
Qed.

Lemma seek_old_lines_sides lines c li pattern new i :
  li ≤ length lines → seek_old_lines lines c li = Ok (pattern, new, Some i) →
  chunk_sides c pattern new ∧ block_matches normalise lines pattern i.
Proof.
  intros Hli. unfold seek_old_lines.
  destruct (seek_sequence_Ok (E:=ApplyPatchError) lines (old_lines c) li (is_end_of_file c))
    as [[j|] Hr]; rewrite Hr; cbn [mbind outcome_bind].
  { intros [= <- <- <-]. split; [constructor|]. by eapply seek_sequence_matches. }
  destruct (last_is_empty (old_lines c)) eqn:Hlast; [|done].
  apply last_is_empty_snoc in Hlast as [old Hold].
  assert (take (length (old_lines c) - 1) (old_lines c) = old) as ->.
  { rewrite Hold, length_app, take_app_length'; simpl; [done|lia]. }
  destruct (seek_sequence_Ok (E:=ApplyPatchError) lines old li (is_end_of_file c)) as [r Hr'].
  rewrite Hr'. cbn [mbind outcome_bind]. intros [= <- <- ->].
  split; [by eapply sides_trimmed|]. by eapply seek_sequence_matches.
Qed.

Lemma chunk_replacements_replaces lines path chunks li rs :
  li ≤ length lines → Forall (λ c, old_lines c ≠ []) chunks →
  chunk_replacements lines path chunks li = Ok rs → Forall2 (replaces lines) chunks rs.
Proof.
  revert li rs; induction chunks as [|c chunks IH]; intros li rs Hli HF; cbn [chunk_replacements].
  { intros [= <-]. constructor. }
  apply Forall_cons in HF as [Hold HF].
  intros ([r li'] & Hr & (rs' & Hrs & [= <-])%bind_Ok_inv)%bind_Ok_inv.
  pose proof (safe_Ok _ _ _ (chunk_replacement_safe lines path c li Hli) Hr) as (_ & Hli' & _).
  constructor; [|by eapply IH].
  unfold chunk_replacement in Hr. apply bind_Ok_inv in Hr as (li1 & Hctx & Hr).
  pose proof (safe_Ok _ _ _ (seek_context_safe lines path c li Hli) Hctx) as Hli1; simpl in Hli1.
  rewrite decide_False in Hr by done.
  apply bind_Ok_inv in Hr as ([[pattern new] [i|]] & Hseek & [= <- <-]).
  apply seek_old_lines_sides in Hseek as [? ?]; [|lia]. by exists i, pattern, new.
Qed.

Lemma join_file_lines_newline ls :
  join_file_lines ls = [] ∨ ∃ t, join_file_lines ls = t ++ [NL].
Proof.
  unfold join_file_lines.
  assert (∃ l', (if last_is_empty ls then ls else ls ++ [[]]) = l' ++ [[]]) as [l' ->].
  { destruct (last_is_empty ls) eqn:E; [by apply last_is_empty_snoc|eauto]. }
  destruct l' as [|x l']; [by left|right].
  revert x; induction l' as [|y l' IH]; intros x.
  - exists x. done.
  - destruct (IH y) as [t Ht]. exists (x ++ [NL] ++ t).
    change (join [NL] ((x :: y :: l') ++ [[]])) with (x ++ [NL] ++ join [NL] ((y :: l') ++ [[]])).
    by rewrite Ht, <-!app_assoc.
Qed.

Lemma chunk_replacement_Err lines path c li e :
  chunk_replacement lines path c li = Err e → ∃ msg, e = ComputeReplacements msg.
Proof.
  unfold chunk_replacement. rewrite bind_Err_inv. intros [Hctx|(li1 & _ & H)].
  - unfold seek_context in Hctx. destruct (change_context c) as [ctx|]; [|done].
    destruct (seek_sequence_Ok (E:=ApplyPatchError) lines [ctx] li false) as [[?|] Hr];
      rewrite Hr in Hctx; simplify_eq/=; eauto.
  - case_decide; [done|]. apply bind_Err_inv in H as [H|([[? ?] [?|]] & _ & H)]; simplify_eq/=; [|eauto].
    unfold seek_old_lines in H.
    destruct (seek_sequence_Ok (E:=ApplyPatchError) lines (old_lines c) li1 (is_end_of_file c))
      as [[?|] Hr]; rewrite Hr in H; simplify_eq/=. case_match; [|done].
    destruct (seek_sequence_Ok (E:=ApplyPatchError) lines
      (take (length (old_lines c) - 1) (old_lines c)) li1 (is_end_of_file c)) as [? Hr'].
    rewrite Hr' in H. done.
Qed.

Lemma chunk_replacements_Err lines path chunks li e :
  chunk_replacements lines path chunks li = Err e → ∃ msg, e = ComputeReplacements msg.
Proof.
  revert li; induction chunks as [|c chunks IH]; intros li; cbn [chunk_replacements]; [done|].
  rewrite bind_Err_inv. intros [?%chunk_replacement_Err|([r li'] & _ & H)]; [done|].
  apply bind_Err_inv in H as [?%IH|(? & _ & ?)]; done.
Qed.

Lemma derive_new_contents_safe contents path chunks :
  returns (derive_new_contents contents path chunks).
Proof.
  unfold derive_new_contents. apply returns_safe.
  eapply safe_bind; [apply compute_replacements_safe|]. intros rs (HF & Hsort & _).
  destruct (apply_replacements_bounded (E:=ApplyPatchError) (split_file_lines contents) rs 0)
    as (l' & -> & _); [done| |lia|done].
  eapply Forall_impl; [done|]. unfold in_file. intros r ?. lia.
Qed.

(** The path is only named by the errors. *)
Lemma chunk_replacement_path lines path path' c li r :
  chunk_replacement lines path c li = Ok r → chunk_replacement lines path' c li = Ok r.
Proof.
  unfold chunk_replacement. intros (li' & Hli & Hr)%bind_Ok_inv. apply bind_Ok_inv. exists li'. split.
  - revert Hli. unfold seek_context. destruct (change_context c); [|done].
    intros (found & Hf & Hs)%bind_Ok_inv. apply bind_Ok_inv. exists found. by destruct found.
  - revert Hr. case_decide; [done|]. intros ([[pat slice] found] & Hf & Hs)%bind_Ok_inv.
    apply bind_Ok_inv. eexists. split; [exact Hf|]. by destruct found.
Qed.

Lemma chunk_replacements_path lines path path' chunks li rs :
  chunk_replacements lines path chunks li = Ok rs → chunk_replacements lines path' chunks li = Ok rs.
Proof.
  revert li rs; induction chunks as [|c chunks IH]; intros li rs; cbn [chunk_replacements]; [done|].
  intros ([r li'] & Hr & (rs' & Hrs & [= <-])%bind_Ok_inv)%bind_Ok_inv. apply bind_Ok_inv.
  exists (r, li'). split; [by eapply chunk_replacement_path|]. apply bind_Ok_inv. eauto.
Qed.

Lemma derive_new_contents_path contents path path' chunks r :
  derive_new_contents contents path chunks = Ok r → derive_new_contents contents path' chunks = Ok r.
Proof.
  unfold derive_new_contents, compute_replacements.
  intros (rs & (rs' & Hrs & [= <-])%bind_Ok_inv & Hr)%bind_Ok_inv.
  apply bind_Ok_inv. exists (sort_by_start rs'). split; [|done]. apply bind_Ok_inv. exists rs'.
  split; [by eapply chunk_replacements_path|done].
Qed.

(** ** Properties *)

(** Editing a file by any list of chunks returns: either the new contents
    or a [ComputeReplacements] error naming the context or lines not found.
    Overlapping or end-of-file chunks included, no [Vec::insert], slice or
    index is out of range. *)
Theorem derive_new_contents_returns (contents path : str) (chunks : list UpdateFileChunk) :
  (∃ r, derive_new_contents contents path chunks = Ok r) ∨
  (∃ msg, derive_new_contents contents path chunks = Err (ComputeReplacements msg)).
Proof.
  pose proof (derive_new_contents_safe contents path chunks) as Hr.
  destruct (derive_new_contents contents path chunks) as [r|e| |] eqn:Hd; try done; [by left; eexists|].
  right. unfold derive_new_contents, compute_replacements in Hd.
  apply bind_Err_inv in Hd as [E|(rs & Hrs & E)].
  - apply bind_Err_inv in E as [E|(? & _ & ?)]; [|done].
    apply chunk_replacements_Err in E as [msg ->]. by exists msg.
  - pose proof (compute_replacements_safe (split_file_lines contents) path chunks) as Hs.
    apply (safe_Ok _ _ _ Hs) in Hrs as (HF & Hsort & _).
    destruct (apply_replacements_bounded (E:=ApplyPatchError) (split_file_lines contents) rs 0)
      as (l' & Hl & _); [done| |lia|by rewrite Hl in E].
    eapply Forall_impl; [done|]. unfold in_file. intros r ?. lia.
Qed.

(** C3: when every chunk names old lines and none is marked end-of-file, a
    successful edit replaces, in the order of the chunks, disjoint regions of
    the file that match the old lines, by the new lines, and copies everything
    between them unchanged (the in-place backward editing loop equals the
    left-to-right splice). *)
Theorem derive_new_contents_splices (contents path : str) (chunks : list UpdateFileChunk)
    (r : AppliedPatch) :
  Forall (λ c, old_lines c ≠ [] ∧ is_end_of_file c = false) chunks →
  derive_new_contents contents path chunks = Ok r →
  ∃ rs, Forall2 (replaces (split_file_lines contents)) chunks rs ∧
    disjoint_from 0 (length (split_file_lines contents)) rs ∧
    new_contents r = join_file_lines (splice 0 (split_file_lines contents) rs).
Proof.
  intros HF. unfold derive_new_contents. set (lines := split_file_lines contents).
  intros (rs & Hrs & (ls & Hls & [= <-])%bind_Ok_inv)%bind_Ok_inv.
  pose proof (safe_Ok _ _ _ (compute_replacements_safe lines path chunks) Hrs) as (_ & _ & Hc).
  destruct (Hc HF) as [Hch Hd]. exists rs. split_and!; [|done|].
  - eapply (chunk_replacements_replaces lines path _ 0); [lia| |done].
    eapply Forall_impl; [done|]. naive_solver.
  - rewrite (apply_replacements_splice 0) in Hls by done. by simplify_eq/=.
Qed.

Definition two_chunks : list UpdateFileChunk :=
  [{| change_context := Some (lit "b"); old_lines := [lit "c"; lit "d"]; new_lines := [lit "C"];
      is_end_of_file := false |};
   {| change_context := None; old_lines := [lit "f"; []]; new_lines := [lit "F"; lit "g"; []];
      is_end_of_file := false |}].

Definition six_lines : str := unlines [lit "a"; lit "b"; lit "c"; lit "d"; lit "e"; lit "f"].

Lemma derive_new_contents_splices_witness :
  ∃ rs, Forall2 (replaces (split_file_lines six_lines)) two_chunks rs ∧
    disjoint_from 0 (length (split_file_lines six_lines)) rs ∧
    unlines [lit "a"; lit "b"; lit "C"; lit "e"; lit "F"; lit "g"] =
      join_file_lines (splice 0 (split_file_lines six_lines) rs).
Proof.
  apply (derive_new_contents_splices six_lines (lit "p") two_chunks
    {| original_contents := six_lines;
       new_contents := unlines [lit "a"; lit "b"; lit "C"; lit "e"; lit "F"; lit "g"] |}).
  - by repeat constructor.
  - vm_compute. reflexivity.
Defined.

(** A file written by an edit is empty or ends in a newline. *)
Theorem derive_new_contents_newline (contents path : str) (chunks : list UpdateFileChunk)
    (r : AppliedPatch) :
  derive_new_contents contents path chunks = Ok r →
  original_contents r = contents ∧ (new_contents r = [] ∨ ∃ t, new_contents r = t ++ [NL]).
Proof.
  unfold derive_new_contents.
  intros (rs & _ & (ls & _ & [= <-])%bind_Ok_inv)%bind_Ok_inv.
  split; [done|apply join_file_lines_newline].
Qed.

Lemma derive_new_contents_newline_witness :
  lit "no newline" = lit "no newline" ∧
  (lit "no newline" ++ [NL] = [] ∨ ∃ t, lit "no newline" ++ [NL] = t ++ [NL]).
Proof.
  apply (derive_new_contents_newline (lit "no newline") (lit "p") []
    {| original_contents := lit "no newline"; new_contents := lit "no newline" ++ [NL] |}).
  vm_compute. reflexivity.
Defined.

(** A pure addition is inserted before the empty last line of the
    original file even when another chunk removes that line; it then falls
    inside the removed region and the added line is lost.  Here the patch
    removes the two lines of a file and adds the line x; the file ends up
    empty. *)
Theorem pure_addition_lost :
  derive_new_contents (unlines [lit "a"; []]) (lit "p")
    [{| change_context := None; old_lines := [lit "a"; []]; new_lines := [];
        is_end_of_file := false |};
     {| change_context := None; old_lines := []; new_lines := [lit "x"];
        is_end_of_file := false |}] =
  Ok {| original_contents := unlines [lit "a"; []]; new_contents := [] |}.
Proof. vm_compute. reflexivity. Qed.
