(* ===== verification/ApplyPatch.v ===== *)
(** * Applying a patch to the file system: [apply_hunks_to_files],
      [apply_hunks], [apply_patch] and [print_summary] of
      [apply-patch/src/lib.rs]

    The file system is an interface: a class of the operations of [std::fs]
    the code calls, a second class with the laws of file contents they obey,
    and an in-memory instance of both.  The theorems state what a run does to
    the contents of files as a refinement of an abstract step on contents. *)
From stdpp Require Import base tactics option list numbers strings gmap.
From S2P Require Import Prelude.
From S2P Require Import RustStr.
From S2P Require Import PatchParser.
From S2P Require Import SeekSequence.
From S2P Require Import Replacements.

(** ** The file system interface *)

(** A result of [std::io]: an error is the text it displays. *)
Definition io_result (A : Type) : Type := str + A.

Class FileSystem (FS : Type) : Type := {
  fs_read_to_string : FS → str → io_result str;
  fs_write : FS → str → str → io_result unit * FS;
  fs_remove_file : FS → str → io_result unit * FS;
  fs_create_dir_all : FS → str → io_result unit * FS;
}.

(** The text file at a path, if there is one that can be read. *)
Definition file_at {FS} `{FileSystem FS} (fs : FS) (p : str) : option str :=
  match fs_read_to_string fs p with inr c => Some c | inl _ => None end.

(** What [std::fs] promises about file contents.  [same_file p q] says that
    two path names denote the same file. *)
Class FileSystemLaws (FS : Type) `{FileSystem FS} : Type := {
  same_file : relation str;
  same_file_dec :: RelDecision same_file;
  same_file_equiv :: Equivalence same_file;
  file_at_same (fs : FS) p q : same_file p q → file_at fs p = file_at fs q;
  write_Ok (fs fs' : FS) p c q : fs_write fs p c = (inr (), fs') →
    file_at fs' q = if decide (same_file p q) then Some c else file_at fs q;
  write_Err (fs fs' : FS) p c e q : fs_write fs p c = (inl e, fs') → ¬ same_file p q →
    file_at fs' q = file_at fs q;
  remove_Ok (fs fs' : FS) p q : fs_remove_file fs p = (inr (), fs') →
    file_at fs' q = if decide (same_file p q) then None else file_at fs q;
  remove_Err (fs fs' : FS) p e q : fs_remove_file fs p = (inl e, fs') →
    file_at fs' q = file_at fs q;
  create_dir_all_any (fs fs' : FS) p r q : fs_create_dir_all fs p = (r, fs') →
    file_at fs' q = file_at fs q;
}.

(** ** Errors and results *)

(** [anyhow::Error] as the code builds it: an I/O error with a context, an
    [ApplyPatchError] passed on by [?], or a bare message. *)
Inductive AnyhowError : Type :=
  | AnyIo (context source : str)
  | AnyApply (e : ApplyPatchError)
  | AnyMessage (message : str).

Definition display_parse_error (e : ParseError) : str :=
  match e with
  | InvalidPatchError m => lit "invalid patch: " ++ m
  | InvalidHunkError m n => lit "invalid hunk at line " ++ show_nat n ++ lit ", " ++ m
  end.

Definition display_apply_patch_error (e : ApplyPatchError) : str :=
  match e with
  | ApplyParseError e => display_parse_error e
  | ApplyIoError e => context e ++ lit ": " ++ source e
  | ComputeReplacements m => m
  | ImplicitInvocation =>
      lit "patch detected without explicit call to apply_patch. Rerun as [" ++ [DQUOTE] ++
      lit "apply_patch" ++ [DQUOTE] ++ lit ", " ++ [DQUOTE] ++ lit "<patch>" ++ [DQUOTE] ++ lit "]"
  end.

Definition display_anyhow (e : AnyhowError) : str :=
  match e with
  | AnyIo context _ => context
  | AnyApply e => display_apply_patch_error e
  | AnyMessage m => m
  end.

Record AffectedPaths : Type := {
  added : list str;
  modified : list str;
  deleted : list str;
}.

Definition no_paths : AffectedPaths := {| added := []; modified := []; deleted := [] |}.
Definition push_added (p : str) (a : AffectedPaths) : AffectedPaths :=
  {| added := added a ++ [p]; modified := modified a; deleted := deleted a |}.
Definition push_modified (p : str) (a : AffectedPaths) : AffectedPaths :=
  {| added := added a; modified := modified a ++ [p]; deleted := deleted a |}.
Definition push_deleted (p : str) (a : AffectedPaths) : AffectedPaths :=
  {| added := added a; modified := modified a; deleted := deleted a ++ [p] |}.

(** ** [Path::parent] (Unix), rendered in normal form *)
Definition SLASH : char := 47%N.
Definition DOT : char := 46%N.

Definition path_components (p : str) : list str :=
  let pieces := split SLASH p in
  let keep := filter (λ s : str, s ≠ [] ∧ s ≠ [DOT]) in
  match pieces with
  | first :: rest => if decide (first = [DOT]) then [DOT] :: keep rest else keep pieces
  | [] => []
  end.

Definition path_parent (p : str) : option str :=
  match path_components p with
  | [] => None
  | cs => Some ((if starts_with [SLASH] p then [SLASH] else []) ++
                join [SLASH] (take (length cs - 1) cs))
  end.

(** ** Running hunks *)
Section run.
Context {FS : Type} `{FileSystem FS}.

(** Computations that change the file system and may fail. *)
Definition fs_m (A : Type) : Type := FS → outcome AnyhowError A * FS.

#[global] Instance fs_m_ret : MRet fs_m := λ A a fs, (Ok a, fs).
#[global] Instance fs_m_bind : MBind fs_m := λ A B f m fs,
  match m fs with
  | (Ok a, fs') => f a fs'
  | (Err e, fs') => (Err e, fs')
  | (Panic, fs') => (Panic, fs')
  | (NoFuel, fs') => (NoFuel, fs')
  end.

(** [op.with_context(|| ctx)?]. *)
Definition with_context {A} (ctx : str) (op : FS → io_result A * FS) : fs_m A := λ fs,
  match op fs with
  | (inr a, fs') => (Ok a, fs')
  | (inl e, fs') => (Err (AnyIo ctx e), fs')
  end.

(** [if let Some(parent) = path.parent() && !parent.as_os_str().is_empty()
    { create_dir_all(parent)... }]. *)
Definition create_parent_dirs (path : str) : fs_m unit :=
  match path_parent path with
  | Some (c :: parent) =>
      with_context (lit "Failed to create parent directories for " ++ path)
        (λ fs, fs_create_dir_all fs (c :: parent))
  | _ => mret ()
  end.

(** [derive_new_contents_from_chunks(path, chunks)?]. *)
Definition derive_new_contents_from_chunks (path : str) (chunks : list UpdateFileChunk)
    (fs : FS) : outcome ApplyPatchError AppliedPatch :=
  match fs_read_to_string fs path with
  | inl err => Err (ApplyIoError
      {| context := lit "Failed to read file to update " ++ path; source := err |})
  | inr contents => derive_new_contents contents path chunks
  end.

Definition lift_apply {A} (m : FS → outcome ApplyPatchError A) : fs_m A := λ fs,
  (map_err AnyApply (m fs), fs).

Definition write_file (path contents : str) : fs_m unit :=
  with_context (lit "Failed to write file " ++ path) (λ fs, fs_write fs path contents).

(** The body of [for hunk in hunks]. *)
Definition apply_hunk_to_files (h : Hunk) (affected : AffectedPaths) : fs_m AffectedPaths :=
  match h with
  | AddFile path contents =>
      create_parent_dirs path ≫= λ _,
      write_file path contents ≫= λ _,
      mret (push_added path affected)
  | DeleteFile path =>
      with_context (lit "Failed to delete file " ++ path) (λ fs, fs_remove_file fs path) ≫= λ _,
      mret (push_deleted path affected)
  | UpdateFile path move_path chunks =>
      lift_apply (derive_new_contents_from_chunks path chunks) ≫= λ applied,
      match move_path with
      | Some dest =>
          create_parent_dirs dest ≫= λ _,
          write_file dest (new_contents applied) ≫= λ _,
          with_context (lit "Failed to remove original " ++ path)
            (λ fs, fs_remove_file fs path) ≫= λ _,
          mret (push_modified dest affected)
      | None =>
          write_file path (new_contents applied) ≫= λ _,
          mret (push_modified path affected)
      end
  end.

Fixpoint apply_hunks_loop (hunks : list Hunk) (affected : AffectedPaths) : fs_m AffectedPaths :=
  match hunks with
  | [] => mret affected
  | h :: hunks' => apply_hunk_to_files h affected ≫= apply_hunks_loop hunks'
  end.

Definition apply_hunks_to_files (hunks : list Hunk) : fs_m AffectedPaths :=
  match hunks with
  | [] => λ fs, (Err (AnyMessage (lit "No files were modified.")), fs)
  | _ => apply_hunks_loop hunks no_paths
  end.

(** ** Output *)
Definition writeln (s : str) (out : str) : str := out ++ s ++ [NL].

Definition print_summary (affected : AffectedPaths) (out : str) : str :=
  let out := writeln (lit "Success. Updated the following files:") out in
  let out := foldl (λ out p, writeln (lit "A " ++ p) out) out (added affected) in
  let out := foldl (λ out p, writeln (lit "M " ++ p) out) out (modified affected) in
  foldl (λ out p, writeln (lit "D " ++ p) out) out (deleted affected).

Record World : Type := { files : FS; stdout : str; stderr : str }.

Definition apply_hunks (hunks : list Hunk) (w : World) : outcome ApplyPatchError unit * World :=
  match apply_hunks_to_files hunks (files w) with
  | (Ok affected, fs') =>
      (Ok (), {| files := fs'; stdout := print_summary affected (stdout w); stderr := stderr w |})
  | (Err err, fs') =>
      let msg := display_anyhow err in
      let w' := {| files := fs'; stdout := stdout w; stderr := writeln msg (stderr w) |} in
      match err with
      | AnyIo _ source => (Err (ApplyIoError {| context := lit "I/O error"; source := source |}), w')
      | _ => (Err (ApplyIoError {| context := msg; source := msg |}), w')
      end
  | (Panic, fs') => (Panic, {| files := fs'; stdout := stdout w; stderr := stderr w |})
  | (NoFuel, fs') => (NoFuel, {| files := fs'; stdout := stdout w; stderr := stderr w |})
  end.

Definition parse_failure_line (e : ParseError) : str :=
  match e with
  | InvalidPatchError message => lit "Invalid patch: " ++ message
  | InvalidHunkError message line_number =>
      lit "Invalid patch hunk on line " ++ show_nat line_number ++ lit ": " ++ message
  end.

Definition apply_patch (text : str) (w : World) : outcome ApplyPatchError unit * World :=
  match parse_patch text with
  | Ok source => apply_hunks (hunks source) w
  | Err e =>
      (Err (ApplyParseError e),
       {| files := files w; stdout := stdout w;
          stderr := writeln (parse_failure_line e) (stderr w) |})
  | Panic => (Panic, w)
  | NoFuel => (NoFuel, w)
  end.
End run.

#[global] Arguments fs_m : clear implicits.
#[global] Arguments World : clear implicits.

(** ** Abstract specification: what a patch does to file contents *)
Section spec.
Context {FS : Type} `{FileSystemLaws FS}.

(** The contents of every text file, by path name. *)
Definition view : Type := str → option str.

Definition set_file (p c : str) (v : view) : view := λ q,
  if decide (same_file p q) then Some c else v q.
Definition unset_file (p : str) (v : view) : view := λ q,
  if decide (same_file p q) then None else v q.

(** One hunk: a file is written, removed, edited in place, or edited and
    moved.  Views are compared pointwise. *)
Inductive hunk_step (v : view) : Hunk → view → Prop :=
  | step_add v' p c :
      (∀ q, v' q = set_file p c v q) → hunk_step v (AddFile p c) v'
  | step_delete v' p :
      (∀ q, v' q = unset_file p v q) → hunk_step v (DeleteFile p) v'
  | step_update v' p chunks c r :
      v p = Some c → derive_new_contents c p chunks = Ok r →
      (∀ q, v' q = set_file p (new_contents r) v q) →
      hunk_step v (UpdateFile p None chunks) v'
  | step_move v' p d chunks c r :
      v p = Some c → derive_new_contents c p chunks = Ok r →
      (∀ q, v' q = unset_file p (set_file d (new_contents r) v) q) →
      hunk_step v (UpdateFile p (Some d) chunks) v'.

Inductive hunks_run : view → list Hunk → view → Prop :=
  | run_nil v : hunks_run v [] v
  | run_cons v v' v'' h hs :
      hunk_step v h v' → hunks_run v' hs v'' → hunks_run v (h :: hs) v''.

(** The path names a hunk may write or remove. *)
Definition touches (h : Hunk) (q : str) : Prop :=
  match h with
  | AddFile p _ | DeleteFile p | UpdateFile p None _ => same_file p q
  | UpdateFile p (Some d) _ => same_file p q ∨ same_file d q
  end.

(** The paths reported for a list of hunks. *)
Definition added_by (h : Hunk) : option str :=
  match h with AddFile p _ => Some p | _ => None end.
Definition modified_by (h : Hunk) : option str :=
  match h with UpdateFile p None _ => Some p | UpdateFile _ (Some d) _ => Some d | _ => None end.
Definition deleted_by (h : Hunk) : option str :=
  match h with DeleteFile p => Some p | _ => None end.
Definition affected_by (a : AffectedPaths) (hs : list Hunk) : AffectedPaths :=
  {| added := added a ++ omap added_by hs;
     modified := modified a ++ omap modified_by hs;
     deleted := deleted a ++ omap deleted_by hs |}.

(** ** Lemmas *)
Lemma fs_bind_Ok {A B} (m : fs_m FS A) (f : A → fs_m FS B) fs b fs' :
  (m ≫= f) fs = (Ok b, fs') ↔ ∃ a fs1, m fs = (Ok a, fs1) ∧ f a fs1 = (Ok b, fs').
Proof. unfold mbind, fs_m_bind. destruct (m fs) as [[]]; naive_solver. Qed.

Lemma fs_bind_Err {A B} (m : fs_m FS A) (f : A → fs_m FS B) fs e fs' :
  (m ≫= f) fs = (Err e, fs') ↔
  m fs = (Err e, fs') ∨ ∃ a fs1, m fs = (Ok a, fs1) ∧ f a fs1 = (Err e, fs').
Proof. unfold mbind, fs_m_bind. destruct (m fs) as [[]]; naive_solver. Qed.

Lemma fs_bind_returns {A B} (m : fs_m FS A) (f : A → fs_m FS B) fs :
  returns (m fs).1 → (∀ a fs1, returns (f a fs1).1) → returns ((m ≫= f) fs).1.
Proof. unfold mbind, fs_m_bind. destruct (m fs) as [[]]; naive_solver. Qed.

Lemma with_context_Ok {A} ctx (op : FS → io_result A * FS) fs a fs' :
  with_context ctx op fs = (Ok a, fs') ↔ op fs = (inr a, fs').
Proof. unfold with_context. destruct (op fs) as [[]]; naive_solver. Qed.

Lemma with_context_Err {A} ctx (op : FS → io_result A * FS) fs e fs' :
  with_context ctx op fs = (Err e, fs') ↔ ∃ e', op fs = (inl e', fs') ∧ e = AnyIo ctx e'.
Proof. unfold with_context. destruct (op fs) as [[]]; naive_solver. Qed.

Lemma with_context_returns {A} ctx (op : FS → io_result A * FS) fs :
  returns (with_context ctx op fs).1.
Proof. unfold with_context. by destruct (op fs) as [[]]. Qed.

Lemma write_file_Ok p c fs a fs' :
  write_file p c fs = (Ok a, fs') ↔ fs_write fs p c = (inr a, fs').
Proof. apply (with_context_Ok _ (λ fs, fs_write fs p c)). Qed.

Lemma write_file_Err p c fs e fs' :
  write_file p c fs = (Err e, fs') ↔
  ∃ e', fs_write fs p c = (inl e', fs') ∧ e = AnyIo (lit "Failed to write file " ++ p) e'.
Proof. apply (with_context_Err _ (λ fs, fs_write fs p c)). Qed.

Lemma create_parent_dirs_view p fs r fs' q :
  create_parent_dirs p fs = (r, fs') → file_at fs' q = file_at fs q.
Proof.
  unfold create_parent_dirs, with_context. repeat case_match; simplify_eq/=;
    intros [= <- <-]; try done; by eapply create_dir_all_any.
Qed.

Lemma create_parent_dirs_returns p fs : returns (create_parent_dirs p fs).1.
Proof. unfold create_parent_dirs. repeat case_match; try done; apply with_context_returns. Qed.

Lemma create_parent_dirs_Err p fs e fs' :
  create_parent_dirs p fs = (Err e, fs') → ∃ c s, e = AnyIo c s.
Proof.
  unfold create_parent_dirs. repeat case_match; try done.
  rewrite with_context_Err. naive_solver.
Qed.

Lemma derive_read_Ok p chunks fs r :
  derive_new_contents_from_chunks p chunks fs = Ok r →
  ∃ c, file_at fs p = Some c ∧ derive_new_contents c p chunks = Ok r.
Proof.
  unfold derive_new_contents_from_chunks, file_at.
  destruct (fs_read_to_string fs p); naive_solver.
Qed.

Lemma lift_apply_Ok {A} (m : FS → outcome ApplyPatchError A) fs a fs' :
  lift_apply m fs = (Ok a, fs') ↔ m fs = Ok a ∧ fs' = fs.
Proof. unfold lift_apply. destruct (m fs); simpl; naive_solver. Qed.

Lemma lift_apply_Err {A} (m : FS → outcome ApplyPatchError A) fs e fs' :
  lift_apply m fs = (Err e, fs') → (∃ e', e = AnyApply e') ∧ fs' = fs.
Proof. unfold lift_apply. destruct (m fs); simpl; naive_solver. Qed.

Lemma derive_from_chunks_returns p chunks (fs : FS) :
  returns (derive_new_contents_from_chunks p chunks fs).
Proof.
  unfold derive_new_contents_from_chunks. destruct (fs_read_to_string fs p) as [|c]; [done|].
  apply derive_new_contents_safe.
Qed.

(** One hunk that succeeds makes the abstract step and reports its path. *)
Lemma apply_hunk_Ok h a fs a' fs' :
  apply_hunk_to_files h a fs = (Ok a', fs') →
  hunk_step (file_at fs) h (file_at fs') ∧ a' = affected_by a [h].
Proof.
  assert (Hnil : ∀ l : list str, l = l ++ []) by (intros; by rewrite app_nil_r).
  destruct h as [p c|p|p [d|] chunks]; cbn [apply_hunk_to_files].
  - rewrite fs_bind_Ok. intros ([] & fs1 & Hd & Hr).
    apply fs_bind_Ok in Hr as ([] & fs2 & Hw & [= <- <-]). apply write_file_Ok in Hw.
    split; [|unfold affected_by, push_added; simpl; f_equal; auto].
    constructor. intros q. unfold set_file. rewrite (write_Ok _ _ _ _ q Hw).
    by rewrite (create_parent_dirs_view _ _ _ _ q Hd).
  - rewrite fs_bind_Ok. intros ([] & fs1 & Hr & [= <- <-]). apply with_context_Ok in Hr.
    split; [|unfold affected_by, push_deleted; simpl; f_equal; auto].
    constructor. intros q. by apply remove_Ok.
  - rewrite fs_bind_Ok. intros (r & fs1 & [Hr ->]%lift_apply_Ok & H1).
    apply derive_read_Ok in Hr as (c & Hc & Hr).
    apply fs_bind_Ok in H1 as ([] & fs2 & Hd & H1).
    apply fs_bind_Ok in H1 as ([] & fs3 & Hw & H1). apply write_file_Ok in Hw.
    apply fs_bind_Ok in H1 as ([] & fs4 & Hm & [= <- <-]). apply with_context_Ok in Hm.
    split; [|unfold affected_by, push_modified; simpl; f_equal; auto].
    econstructor; [done|done|]. intros q. unfold unset_file, set_file.
    rewrite (remove_Ok _ _ _ q Hm), (write_Ok _ _ _ _ q Hw).
    by rewrite (create_parent_dirs_view _ _ _ _ q Hd).
  - rewrite fs_bind_Ok. intros (r & fs1 & [Hr ->]%lift_apply_Ok & H1).
    apply derive_read_Ok in Hr as (c & Hc & Hr).
    apply fs_bind_Ok in H1 as ([] & fs2 & Hw & [= <- <-]). apply write_file_Ok in Hw.
    split; [|unfold affected_by, push_modified; simpl; f_equal; auto].
    econstructor; [done|done|]. intros q. by apply write_Ok.
Qed.

(** One hunk that fails changes no file it does not name. *)
Lemma apply_hunk_Err h a fs e fs' :
  apply_hunk_to_files h a fs = (Err e, fs') →
  (∀ q, ¬ touches h q → file_at fs' q = file_at fs q) ∧
  ((∃ e', e = AnyApply e') → ∀ q, file_at fs' q = file_at fs q).
Proof.
  destruct h as [p c|p|p [d|] chunks]; cbn [apply_hunk_to_files touches].
  - rewrite fs_bind_Err. intros [Hd|([] & fs1 & Hd & Hr)].
    { split; intros; by eapply create_parent_dirs_view. }
    apply fs_bind_Err in Hr as [(e' & Hw & ->)%write_file_Err|([] & fs2 & _ & [=])].
    split; [|naive_solver]. intros q Hq. rewrite (write_Err _ _ _ _ _ _ Hw Hq).
    by eapply create_parent_dirs_view.
  - rewrite fs_bind_Err. intros [(e' & Hr & ->)%with_context_Err|([] & fs1 & _ & [=])].
    split; [|naive_solver]. intros q _. by eapply remove_Err.
  - rewrite fs_bind_Err. intros [[_ ->]%lift_apply_Err|(r & fs1 & [Hr ->]%lift_apply_Ok & H1)]; [done|].
    apply fs_bind_Err in H1 as [Hd|([] & fs2 & Hd & H1)].
    { split; intros; by eapply create_parent_dirs_view. }
    apply fs_bind_Err in H1 as [(e' & Hw & ->)%write_file_Err|([] & fs3 & Hw & H1)].
    { split; [|naive_solver]. intros q Hq. rewrite (write_Err _ _ _ _ _ q Hw) by naive_solver.
      by eapply create_parent_dirs_view. }
    apply write_file_Ok in Hw.
    apply fs_bind_Err in H1 as [(e' & Hm & ->)%with_context_Err|([] & fs4 & _ & [=])].
    split; [|naive_solver]. intros q Hq. rewrite (remove_Err _ _ _ _ q Hm).
    rewrite (write_Ok _ _ _ _ q Hw), decide_False by naive_solver.
    by eapply create_parent_dirs_view.
  - rewrite fs_bind_Err. intros [[_ ->]%lift_apply_Err|(r & fs1 & [Hr ->]%lift_apply_Ok & H1)]; [done|].
    apply fs_bind_Err in H1 as [(e' & Hw & ->)%write_file_Err|([] & fs2 & _ & [=])].
    split; [|naive_solver]. intros q Hq. by apply (write_Err _ _ _ _ _ q Hw).
Qed.

Lemma apply_hunk_returns h a fs : returns (apply_hunk_to_files h a fs).1.
Proof.
  destruct h as [p c|p|p [d|] chunks]; cbn [apply_hunk_to_files];
    repeat (apply fs_bind_returns; [|intros ? ?]);
    try apply with_context_returns; try apply create_parent_dirs_returns; try done.
  all: unfold lift_apply; simpl; pose proof (derive_from_chunks_returns p chunks fs) as Hr;
    by destruct (derive_new_contents_from_chunks p chunks fs).
Qed.

Lemma affected_by_cons a h hs : affected_by (affected_by a [h]) hs = affected_by a (h :: hs).
Proof.
  unfold affected_by; simpl. f_equal; rewrite <-app_assoc; f_equal; by case_match.
Qed.

Lemma apply_hunks_loop_Ok hs a fs a' fs' :
  apply_hunks_loop hs a fs = (Ok a', fs') →
  hunks_run (file_at fs) hs (file_at fs') ∧ a' = affected_by a hs.
Proof.
  revert a fs; induction hs as [|h hs IH]; intros a fs; cbn [apply_hunks_loop].
  { intros [= <- <-]. split; [constructor|]. destruct a. unfold affected_by; simpl.
    by rewrite !app_nil_r. }
  rewrite fs_bind_Ok. intros (a1 & fs1 & [Hh ->]%apply_hunk_Ok & [Hr ->]%IH).
  split; [by econstructor|]. by rewrite affected_by_cons.
Qed.

Lemma apply_hunks_loop_Err hs a fs e fs' :
  apply_hunks_loop hs a fs = (Err e, fs') →
  ∃ hs1 h hs2 fs1, hs = hs1 ++ h :: hs2 ∧ hunks_run (file_at fs) hs1 (file_at fs1) ∧
    (∀ q, ¬ touches h q → file_at fs' q = file_at fs1 q) ∧
    ((∃ e', e = AnyApply e') → ∀ q, file_at fs' q = file_at fs1 q).
Proof.
  revert a fs; induction hs as [|h hs IH]; intros a fs; cbn [apply_hunks_loop]; [done|].
  rewrite fs_bind_Err. intros [[H1 H2]%apply_hunk_Err|(a1 & fs1 & [Hh _]%apply_hunk_Ok & H1)].
  { exists [], h, hs, fs. split_and!; [done|constructor|done..]. }
  apply IH in H1 as (hs1 & h' & hs2 & fs2 & -> & Hrun & Hq).
  exists (h :: hs1), h', hs2, fs2. split_and!; [done|by econstructor|naive_solver..].
Qed.

Lemma apply_hunks_loop_returns hs a fs : returns (apply_hunks_loop hs a fs).1.
Proof.
  revert a fs; induction hs as [|h hs IH]; intros a fs; cbn [apply_hunks_loop]; [done|].
  apply fs_bind_returns; [apply apply_hunk_returns|done].
Qed.

(** ** Properties *)

(** C1: a successful run of [apply_hunks_to_files] refines the abstract
    specification: the contents of all files change exactly by the steps of
    the hunks in order (directory creation invisible), and the reported added,
    modified and deleted paths are those of the hunks, in order. *)
Theorem apply_hunks_to_files_refines (hs : list Hunk) (fs fs' : FS) (a : AffectedPaths) :
  apply_hunks_to_files hs fs = (Ok a, fs') →
  hs ≠ [] ∧ hunks_run (file_at fs) hs (file_at fs') ∧ a = affected_by no_paths hs.
Proof.
  destruct hs as [|h hs]; [done|]. intros [? ?]%apply_hunks_loop_Ok. done.
Qed.

(** A failed run is not rolled back: the files are those after the hunks
    before the failing one, except possibly the files the failing hunk names;
    when the failing hunk could not be read or located, not even those. *)
Theorem apply_hunks_to_files_partial (hs : list Hunk) (fs fs' : FS) (e : AnyhowError) :
  apply_hunks_to_files hs fs = (Err e, fs') →
  (hs = [] ∧ fs' = fs) ∨
  ∃ hs1 h hs2 fs1, hs = hs1 ++ h :: hs2 ∧ hunks_run (file_at fs) hs1 (file_at fs1) ∧
    (∀ q, ¬ touches h q → file_at fs' q = file_at fs1 q) ∧
    ((∃ e', e = AnyApply e') → ∀ q, file_at fs' q = file_at fs1 q).
Proof.
  destruct hs as [|h hs]; [intros [= <- <-]; by left|].
  intros ?%apply_hunks_loop_Err. by right.
Qed.

(** [apply_patch] returns for every patch text and every file system; it
    reports a parse error exactly when the text does not parse, and then no
    file is touched and nothing is printed to stdout. *)
Theorem apply_patch_total (text : str) (w : World FS) :
  returns (apply_patch text w).1 ∧
  ∀ e, (apply_patch text w).1 = Err (ApplyParseError e) ↔ parse_patch text = Err e ∧
    files (apply_patch text w).2 = files w ∧ stdout (apply_patch text w).2 = stdout w.
Proof.
  unfold apply_patch. pose proof (parse_patch_safe text) as Hp.
  destruct (parse_patch text) as [args|e| |]; try done; [|naive_solver].
  unfold apply_hunks.
  assert (returns (apply_hunks_to_files (hunks args) (files w)).1) as Hr.
  { unfold apply_hunks_to_files. destruct (hunks args); [done|]. apply apply_hunks_loop_returns. }
  destruct (apply_hunks_to_files (hunks args) (files w)) as [[a|err| |] fs']; try done; [naive_solver|].
  destruct err; naive_solver.
Qed.

(** An update that moves a file onto itself (destination and source are
    the same file) reports success and leaves no file there: the new contents
    are written and then removed. *)
Theorem move_onto_itself_deletes (p d : str) (chunks : list UpdateFileChunk) (fs fs' : FS)
    (a : AffectedPaths) :
  same_file p d → apply_hunks_to_files [UpdateFile p (Some d) chunks] fs = (Ok a, fs') →
  file_at fs' p = None ∧ file_at fs' d = None ∧ modified a = [d].
Proof.
  intros Hs [Hrun ->]%apply_hunks_loop_Ok. inversion_clear Hrun as [|? v' ? ? ? Hstep Hnil].
  inversion_clear Hnil in Hstep. inversion_clear Hstep as [| | |? ? ? ? c r Hc Hr Hv].
  split; [|split; [|done]]; rewrite Hv; unfold unset_file; by rewrite decide_True.
Qed.
End spec.

(** ** An in-memory file system *)
Inductive node : Type := File (c : str) | Directory.

(** Absolute path names without [.] and [..], relative names from the root. *)
Definition resolve_step (acc : list str) (c : str) : list str :=
  if decide (c = [DOT; DOT]) then take (length acc - 1) acc
  else if decide (c = [DOT]) then acc else acc ++ [c].

Definition resolve (p : str) : list str := foldl resolve_step [] (path_components p).

Abbreviation mem_fs := (gmap (list str) node).

Definition is_dir (m : mem_fs) (k : list str) : bool :=
  match k, m !! k with [], _ | _, Some Directory => true | _, _ => false end.

Definition mem_read (m : mem_fs) (p : str) : io_result str :=
  match m !! resolve p with
  | Some (File c) => inr c
  | Some Directory => inl (lit "Is a directory (os error 21)")
  | None => inl (lit "No such file or directory (os error 2)")
  end.

Definition mem_write (m : mem_fs) (p c : str) : io_result unit * mem_fs :=
  let k := resolve p in
  if is_dir m k then (inl (lit "Is a directory (os error 21)"), m)
  else if is_dir m (take (length k - 1) k) then (inr (), <[k := File c]> m)
  else (inl (lit "No such file or directory (os error 2)"), m).

Definition mem_remove (m : mem_fs) (p : str) : io_result unit * mem_fs :=
  match m !! resolve p with
  | Some (File _) => (inr (), delete (resolve p) m)
  | Some Directory => (inl (lit "Is a directory (os error 21)"), m)
  | None => (inl (lit "No such file or directory (os error 2)"), m)
  end.

Fixpoint mem_mkdirs (above below : list str) (m : mem_fs) : io_result unit * mem_fs :=
  match below with
  | [] => (inr (), m)
  | c :: below' =>
      let d := above ++ [c] in
      match m !! d with
      | Some Directory => mem_mkdirs d below' m
      | Some (File _) => (inl (lit "Not a directory (os error 20)"), m)
      | None => mem_mkdirs d below' (<[d := Directory]> m)
      end
  end.

#[export] Instance mem_FileSystem : FileSystem mem_fs := {|
  fs_read_to_string := mem_read;
  fs_write := mem_write;
  fs_remove_file := mem_remove;
  fs_create_dir_all m p := mem_mkdirs [] (resolve p) m;
|}.

Lemma mem_file_at (m : mem_fs) q :
  file_at m q = match m !! resolve q with Some (File c) => Some c | _ => None end.
Proof. unfold file_at; simpl. unfold mem_read. by repeat case_match; simplify_eq/=. Qed.

Lemma mem_mkdirs_view (above below : list str) (m m' : mem_fs) (r : io_result unit) (q : str) :
  mem_mkdirs above below m = (r, m') → file_at m' q = file_at m q.
Proof.
  revert above m; induction below as [|c below IH]; intros above m; simpl; [by intros [= _ <-]|].
  destruct (m !! (above ++ [c])) as [[]|] eqn:E; [by intros [= _ <-]|apply IH|].
  intros ->%IH. rewrite !mem_file_at. destruct (decide (above ++ [c] = resolve q)) as [Heq|].
  - by rewrite Heq, lookup_insert_eq, <-Heq, E.
  - by rewrite lookup_insert_ne.
Qed.

#[export] Program Instance mem_FileSystemLaws : FileSystemLaws mem_fs := {|
  same_file p q := resolve p = resolve q;
  same_file_dec p q := decide (resolve p = resolve q)
|}.
Next Obligation. split; congruence. Qed.
Next Obligation. intros m p q Heq. simpl in Heq. by rewrite !mem_file_at, Heq. Qed.
Next Obligation.
  intros m m' p c q Hw. simpl in Hw. unfold mem_write in Hw.
  destruct (is_dir m (resolve p)); [done|]. destruct (is_dir m _); [|done].
  injection Hw as <-. rewrite !mem_file_at. simpl. case_decide as Heq; [by rewrite Heq, lookup_insert_eq|].
  by rewrite lookup_insert_ne.
Qed.
Next Obligation.
  intros m m' p c e q Hw _. simpl in Hw. unfold mem_write in Hw. by repeat case_match; simplify_eq.
Qed.
Next Obligation.
  intros m m' p q Hw. simpl in Hw. unfold mem_remove in Hw.
  destruct (m !! resolve p) as [[]|]; [|done..].
  injection Hw as <-. rewrite !mem_file_at. simpl. case_decide as Heq; [by rewrite Heq, lookup_delete_eq|].
  by rewrite lookup_delete_ne.
Qed.
Next Obligation.
  intros m m' p e q Hw. simpl in Hw. unfold mem_remove in Hw. by repeat case_match; simplify_eq.
Qed.
Next Obligation. intros m m' p r q Hw. exact (mem_mkdirs_view [] (resolve p) m m' r q Hw). Qed.

(** ** Witnesses *)
Definition sample_fs : mem_fs := {[ [lit "old.txt"] := File (unlines [lit "a"; lit "b"]) ]}.

Definition sample_edit : list UpdateFileChunk :=
  [{| change_context := None; old_lines := [lit "b"]; new_lines := [lit "B"];
      is_end_of_file := false |}].

Definition sample_run : list Hunk :=
  [AddFile (lit "dir/new.txt") (lit "x"); UpdateFile (lit "old.txt") (Some (lit "moved.txt")) sample_edit].

Lemma apply_hunks_to_files_refines_witness :
  sample_run ≠ [] ∧
  hunks_run (file_at sample_fs) sample_run
    (file_at (apply_hunks_to_files sample_run sample_fs).2) ∧
  {| added := [lit "dir/new.txt"]; modified := [lit "moved.txt"]; deleted := [] |} =
    affected_by no_paths sample_run.
Proof.
  apply (apply_hunks_to_files_refines sample_run sample_fs
    (apply_hunks_to_files sample_run sample_fs).2
    {| added := [lit "dir/new.txt"]; modified := [lit "moved.txt"]; deleted := [] |}).
  apply injective_projections; [vm_compute; reflexivity|reflexivity].
Defined.

Definition failing_run : list Hunk :=
  [AddFile (lit "created.txt") (lit "hello"); UpdateFile (lit "missing.txt") None sample_edit].

Lemma apply_hunks_to_files_partial_witness :
  (failing_run = [] ∧ (apply_hunks_to_files failing_run sample_fs).2 = sample_fs) ∨
  ∃ hs1 h hs2 (fs1 : mem_fs), failing_run = hs1 ++ h :: hs2 ∧
    hunks_run (file_at sample_fs) hs1 (file_at fs1) ∧
    (∀ q, ¬ touches h q →
       file_at (apply_hunks_to_files failing_run sample_fs).2 q = file_at fs1 q) ∧
    ((∃ e', AnyApply (ApplyIoError {| context := lit "Failed to read file to update missing.txt";
        source := lit "No such file or directory (os error 2)" |}) = AnyApply e') →
     ∀ q, file_at (apply_hunks_to_files failing_run sample_fs).2 q = file_at fs1 q).
Proof.
  apply (apply_hunks_to_files_partial failing_run sample_fs
    (apply_hunks_to_files failing_run sample_fs).2).
  apply injective_projections; [vm_compute; reflexivity|reflexivity].
Defined.

Lemma move_onto_itself_deletes_witness :
  file_at (apply_hunks_to_files [UpdateFile (lit "old.txt") (Some (lit "./old.txt")) sample_edit]
    sample_fs).2 (lit "old.txt") = None ∧
  file_at (apply_hunks_to_files [UpdateFile (lit "old.txt") (Some (lit "./old.txt")) sample_edit]
    sample_fs).2 (lit "./old.txt") = None ∧
  [lit "./old.txt"] = [lit "./old.txt"].
Proof.
  apply (move_onto_itself_deletes (lit "old.txt") (lit "./old.txt") sample_edit sample_fs
    (apply_hunks_to_files [UpdateFile (lit "old.txt") (Some (lit "./old.txt")) sample_edit]
       sample_fs).2
    {| added := []; modified := [lit "./old.txt"]; deleted := [] |}).
  - vm_compute. reflexivity.
  - vm_compute. reflexivity.
Defined.
