(* ===== verification/StreamText.v ===== *)
(** * Streaming text parsers: the interface
      ([utils/stream-parser/src/stream_text.rs])

    A parser consumes text in chunks and emits visible text and extracted
    payloads.  [StreamTextParser] is the trait; [ChunkInvariant] states what
    its clients rely on: how the text is cut into chunks does not matter, up
    to an equivalence of payload lists. *)
From stdpp Require Import base tactics option list numbers strings.
From S2P Require Import Prelude.
From S2P Require Import RustStr.

(** ** Data *)
Record StreamTextChunk (T : Type) : Type := {
  visible_text : str;
  extracted : list T;
}.
Arguments visible_text {T} _.
Arguments extracted {T} _.
Arguments Build_StreamTextChunk {T} _ _.

Definition default_chunk {T} : StreamTextChunk T := {| visible_text := []; extracted := [] |}.

Definition is_empty {T} (c : StreamTextChunk T) : bool :=
  match visible_text c, extracted c with [], [] => true | _, _ => false end.

#[export] Instance StreamTextChunk_eq_dec {T} `{EqDecision T} : EqDecision (StreamTextChunk T).
Proof. solve_decision. Defined.

(** Output of two calls in a row: [visible_text.push_str], [extracted.extend]. *)
Definition app_chunk {T} (c d : StreamTextChunk T) : StreamTextChunk T :=
  {| visible_text := visible_text c ++ visible_text d; extracted := extracted c ++ extracted d |}.

Definition map_chunk {T U} (f : T → U) (c : StreamTextChunk T) : StreamTextChunk U :=
  {| visible_text := visible_text c; extracted := f <$> extracted c |}.

Declare Scope chunk_scope.
Infix "⊕" := app_chunk (at level 50, left associativity) : chunk_scope.
Open Scope chunk_scope.

(** The trait: [push_str] and [finish] take the parser by mutable reference. *)
Class StreamTextParser (P : Type) (T : Type) : Type := {
  push_str : P → str → StreamTextChunk T * P;
  finish : P → StreamTextChunk T * P;
}.

(** Feeding chunks one by one, then flushing. *)
Fixpoint push_chunks {P T} `{StreamTextParser P T} (p : P) (chunks : list str)
    : StreamTextChunk T * P :=
  match chunks with
  | [] => (default_chunk, p)
  | c :: chunks' =>
      let '(o, p) := push_str p c in
      let '(o', p) := push_chunks p chunks' in
      (o ⊕ o', p)
  end.

Definition collect_chunks {P T} `{StreamTextParser P T} (p : P) (chunks : list str)
    : StreamTextChunk T :=
  let '(o, p) := push_chunks p chunks in o ⊕ (finish p).1.

(** What clients rely on.  [valid] is the invariant of the parser state,
    [payload_equiv] when two payload lists mean the same. *)
Class ChunkInvariant (P T : Type) `{StreamTextParser P T} : Type := {
  valid : P → Prop;
  payload_equiv : relation (list T);
  payload_equivalence :: Equivalence payload_equiv;
  payload_app_proper :: Proper (payload_equiv ==> payload_equiv ==> payload_equiv) app;
  push_valid p s : valid p → valid (push_str p s).2;
  push_nil p : valid p → push_str p [] = (default_chunk, p);
  push_app_state p a b : valid p →
    (push_str p (a ++ b)).2 = (push_str (push_str p a).2 b).2;
  push_app_visible p a b : valid p →
    visible_text (push_str p (a ++ b)).1 =
    visible_text (push_str p a).1 ++ visible_text (push_str (push_str p a).2 b).1;
  push_app_extracted p a b : valid p →
    payload_equiv (extracted (push_str p (a ++ b)).1)
      (extracted (push_str p a).1 ++ extracted (push_str (push_str p a).2 b).1);
}.

(** Equal visible text and equivalent payloads. *)
Definition chunk_equiv {P T} `{ChunkInvariant P T} (c d : StreamTextChunk T) : Prop :=
  visible_text c = visible_text d ∧ payload_equiv (extracted c) (extracted d).

(** ** Lemmas *)
Lemma app_chunk_nil_l {T} (c : StreamTextChunk T) : default_chunk ⊕ c = c.
Proof. by destruct c. Qed.

Lemma app_chunk_nil_r {T} (c : StreamTextChunk T) : c ⊕ default_chunk = c.
Proof. destruct c. unfold app_chunk; simpl. by rewrite !app_nil_r. Qed.

Lemma app_chunk_assoc {T} (c d e : StreamTextChunk T) : c ⊕ d ⊕ e = c ⊕ (d ⊕ e).
Proof. unfold app_chunk; simpl. by rewrite <-!app_assoc. Qed.

Lemma map_chunk_app {T U} (f : T → U) c d : map_chunk f (c ⊕ d) = map_chunk f c ⊕ map_chunk f d.
Proof. unfold map_chunk, app_chunk; simpl. by rewrite fmap_app. Qed.

Section chunk_invariance.
Context {P T : Type} `{ChunkInvariant P T}.

#[global] Instance chunk_equivalence : Equivalence (chunk_equiv (P:=P) (T:=T)).
Proof.
  split.
  - intros c. by split.
  - intros c d [Hv He]. by split.
  - intros c d e [Hv He] [Hv' He']. split; [by rewrite Hv|]. by etrans.
Qed.

#[global] Instance app_chunk_proper :
  Proper (chunk_equiv (P:=P) ==> chunk_equiv (P:=P) ==> chunk_equiv (P:=P)) (app_chunk (T:=T)).
Proof.
  intros c c' [Hv He] d d' [Hv' He']. split; simpl; [by rewrite Hv, Hv'|]. by rewrite He, He'.
Qed.

Lemma push_chunks_valid (p : P) chunks : valid p → valid (push_chunks p chunks).2.
Proof.
  revert p; induction chunks as [|c chunks IH]; intros p Hp; simpl; [done|].
  pose proof (push_valid p c Hp) as Hp1. destruct (push_str p c) as [o p1]; simpl in Hp1.
  specialize (IH p1 Hp1). by destruct (push_chunks p1 chunks).
Qed.

(** Any way of cutting the text into chunks gives the state and the output of
    pushing the whole text at once. *)
Lemma push_chunks_concat (p : P) chunks :
  valid p →
  (push_chunks p chunks).2 = (push_str p (concat chunks)).2 ∧
  chunk_equiv (P:=P) (push_chunks p chunks).1 (push_str p (concat chunks)).1.
Proof.
  revert p; induction chunks as [|c chunks IH]; intros p Hp; simpl.
  { by rewrite push_nil. }
  pose proof (push_valid p c Hp) as Hp1.
  pose proof (push_app_state p c (concat chunks) Hp) as Hst.
  pose proof (push_app_visible p c (concat chunks) Hp) as Hvis.
  pose proof (push_app_extracted p c (concat chunks) Hp) as Hext.
  destruct (push_str p c) as [o p1]; simpl in *.
  destruct (IH p1 Hp1) as [Hs [Hv He]]. destruct (push_chunks p1 chunks) as [o' p2]; simpl in *.
  split; [by rewrite Hst|]. split; simpl; [by rewrite Hvis, Hv|]. by rewrite Hext, He.
Qed.

Lemma collect_chunks_concat (p : P) chunks :
  valid p →
  chunk_equiv (P:=P) (collect_chunks p chunks) (collect_chunks p [concat chunks]).
Proof.
  intros Hp. unfold collect_chunks. destruct (push_chunks_concat p chunks Hp) as [Hs Ho].
  simpl. destruct (push_chunks p chunks) as [o p1], (push_str p (concat chunks)) as [o' p1'].
  simpl in *. subst p1'. rewrite Ho, app_chunk_nil_r. done.
Qed.
End chunk_invariance.
