(* ===== verification/InlineHiddenTag.v ===== *)
(** * Hidden inline tags: [utils/stream-parser/src/inline_hidden_tag.rs]

    The generic parser that hides tags and extracts their contents.  The
    theorems: the loop of [push_str] terminates and stays in range for every
    parser [new] accepts, and when no opening delimiter contains another one
    the way the text is cut into chunks does not matter. *)
From stdpp Require Import base tactics option list numbers strings.
From S2P Require Import Prelude.
From S2P Require Import RustStr.
From S2P Require Import StreamText.

(** ** Data *)
Record ExtractedInlineTag (T : Type) : Type := { ex_tag : T; ex_content : str }.
Record InlineTagSpec (T : Type) : Type := { tag : T; open : str; close : str }.
Record ActiveTag (T : Type) : Type := { act_tag : T; act_close : str; act_content : str }.
Record InlineHiddenTagParser (T : Type) : Type := {
  specs : list (InlineTagSpec T);
  pending : str;
  active : option (ActiveTag T);
}.
Arguments ex_tag {T} _.
Arguments ex_content {T} _.
Arguments Build_ExtractedInlineTag {T} _ _.
Arguments tag {T} _.
Arguments open {T} _.
Arguments close {T} _.
Arguments act_tag {T} _.
Arguments act_close {T} _.
Arguments act_content {T} _.
Arguments Build_ActiveTag {T} _ _ _.
Arguments specs {T} _.
Arguments pending {T} _.
Arguments active {T} _.
Arguments Build_InlineHiddenTagParser {T} _ _ _.

(** [longest_suffix_prefix_len]: the loop [for k in (1..=max).rev()]. *)
Fixpoint suffix_prefix_loop (s needle : str) (k : nat) : nat :=
  match k with
  | 0 => 0
  | S k' => if ends_with (take k needle) s then k else suffix_prefix_loop s needle k'
  end.

Definition longest_suffix_prefix_len (s needle : str) : nat :=
  let max := length s `min` (length needle - 1) in
  suffix_prefix_loop s needle max.

Section parser.
Context {T : Type}.
Implicit Types (specs : list (InlineTagSpec T)).

(** [InlineHiddenTagParser::new], which asserts its arguments. *)
Definition spec_ok (spec : InlineTagSpec T) : bool :=
  negb (bool_decide (open spec = [])) && negb (bool_decide (close spec = [])).

Definition new (specs : list (InlineTagSpec T)) : outcome Empty_set (InlineHiddenTagParser T) :=
  if bool_decide (specs = []) then Panic
  else if forallb spec_ok specs
  then Ok {| specs := specs; pending := []; active := None |}
  else Panic.

(** A candidate of [find_next_open]: position, length of the opener in bytes,
    index of the tag. *)
Definition candidate : Type := nat * nat * nat.

Definition cand_lt (c d : candidate) : bool :=
  let '(pos_a, len_a, idx_a) := c in
  let '(pos_b, len_b, idx_b) := d in
  (pos_a <? pos_b) || ((pos_a =? pos_b) &&
    ((len_b <? len_a) || ((len_b =? len_a) && (idx_a <? idx_b)))).

(** [Iterator::min_by]. *)
Fixpoint min_cand (cs : list candidate) : option candidate :=
  match cs with
  | [] => None
  | c :: cs' =>
      match min_cand cs' with
      | None => Some c
      | Some d => if cand_lt d c then Some d else Some c
      end
  end.

Definition open_candidates (specs : list (InlineTagSpec T)) (pending : str) : list candidate :=
  omap id (imap (λ idx spec,
    (λ pos, (pos, str_len (open spec), idx)) <$> find (open spec) pending) specs).

Definition find_next_open (specs : list (InlineTagSpec T)) (pending : str) : option (nat * nat) :=
  (λ c : candidate, (c.1.1, c.2)) <$> min_cand (open_candidates specs pending).

Definition max_open_prefix_suffix_len (specs : list (InlineTagSpec T)) (pending : str) : nat :=
  max_list ((λ spec, longest_suffix_prefix_len pending (open spec)) <$> specs).

(** One iteration of the loop of [push_str]: [inl] continues, [inr] breaks. *)
Definition push_iter (p : InlineHiddenTagParser T) (out : StreamTextChunk (ExtractedInlineTag T))
    : outcome Empty_set
        ((InlineHiddenTagParser T * StreamTextChunk (ExtractedInlineTag T)) +
         (InlineHiddenTagParser T * StreamTextChunk (ExtractedInlineTag T))) :=
  match active p with
  | Some a =>
      let close := act_close a in
      match find close (pending p) with
      | Some close_idx =>
          Ok (inl
            ({| specs := specs p;
                pending := drop (close_idx + length close) (pending p);
                active := None |},
             {| visible_text := visible_text out;
                extracted := extracted out ++
                  [{| ex_tag := act_tag a;
                      ex_content := act_content a ++ take close_idx (pending p) |}] |}))
      | None =>
          let keep := longest_suffix_prefix_len (pending p) close in
          let n := length (pending p) - keep in
          Ok (inr
            ({| specs := specs p;
                pending := drop n (pending p);
                active := Some {| act_tag := act_tag a; act_close := close;
                                  act_content := act_content a ++ take n (pending p) |} |},
             out))
      end
  | None =>
      match find_next_open (specs p) (pending p) with
      | Some (open_idx, spec_idx) =>
          match specs p !! spec_idx with
          | None => Panic
          | Some spec =>
              Ok (inl
                ({| specs := specs p;
                    pending := drop (open_idx + length (open spec)) (pending p);
                    active := Some {| act_tag := tag spec; act_close := close spec;
                                      act_content := [] |} |},
                 {| visible_text := visible_text out ++ take open_idx (pending p);
                    extracted := extracted out |}))
          end
      | None =>
          let keep := max_open_prefix_suffix_len (specs p) (pending p) in
          let n := length (pending p) - keep in
          Ok (inr
            ({| specs := specs p; pending := drop n (pending p); active := None |},
             {| visible_text := visible_text out ++ take n (pending p);
                extracted := extracted out |}))
      end
  end.

Fixpoint push_loop (fuel : nat) (p : InlineHiddenTagParser T)
    (out : StreamTextChunk (ExtractedInlineTag T))
    : outcome Empty_set (StreamTextChunk (ExtractedInlineTag T) * InlineHiddenTagParser T) :=
  match fuel with
  | 0 => NoFuel
  | S fuel' =>
      r ← push_iter p out;
      match r with
      | inl (p, out) => push_loop fuel' p out
      | inr (p, out) => Ok (out, p)
      end
  end.

(** [push_str]; the fuel is one more than the number of buffered characters. *)
Definition try_push_str (p : InlineHiddenTagParser T) (chunk : str)
    : outcome Empty_set (StreamTextChunk (ExtractedInlineTag T) * InlineHiddenTagParser T) :=
  let p := {| specs := specs p; pending := pending p ++ chunk; active := active p |} in
  push_loop (S (length (pending p))) p default_chunk.

(** [finish]. *)
Definition inline_finish (p : InlineHiddenTagParser T)
    : StreamTextChunk (ExtractedInlineTag T) * InlineHiddenTagParser T :=
  match active p with
  | Some a =>
      ({| visible_text := [];
          extracted := [{| ex_tag := act_tag a; ex_content := act_content a ++ pending p |}] |},
       {| specs := specs p; pending := []; active := None |})
  | None =>
      ({| visible_text := pending p; extracted := [] |},
       {| specs := specs p; pending := []; active := None |})
  end.
End parser.

(** ** [longest_suffix_prefix_len] *)
Lemma suffix_prefix_loop_spec s n k :
  suffix_prefix_loop s n k ≤ k ∧ take (suffix_prefix_loop s n k) n `suffix_of` s ∧
  ∀ k', suffix_prefix_loop s n k < k' ≤ k → ¬ take k' n `suffix_of` s.
Proof.
  induction k as [|k (Hle & Hs & Hmax)]; cbn [suffix_prefix_loop].
  { split_and!; [done|apply suffix_nil|lia]. }
  destruct (ends_with (take (S k) n) s) eqn:E.
  - apply ends_with_suffix in E. split_and!; [done|done|lia].
  - apply ends_with_false in E. split_and!; [lia|done|]. intros k' ?.
    destruct (decide (k' = S k)) as [->|]; [done|]. apply Hmax. lia.
Qed.

(** The value is the length of the longest proper prefix of [n] that is a
    suffix of [s]. *)
Lemma lsp_spec s n :
  longest_suffix_prefix_len s n ≤ length s `min` (length n - 1) ∧
  take (longest_suffix_prefix_len s n) n `suffix_of` s ∧
  ∀ k, longest_suffix_prefix_len s n < k ≤ length s `min` (length n - 1) →
    ¬ take k n `suffix_of` s.
Proof. apply suffix_prefix_loop_spec. Qed.

Lemma lsp_unique s n k :
  k ≤ length s `min` (length n - 1) → take k n `suffix_of` s →
  (∀ k', k < k' ≤ length s `min` (length n - 1) → ¬ take k' n `suffix_of` s) →
  longest_suffix_prefix_len s n = k.
Proof.
  intros Hk Hs Hmax. destruct (lsp_spec s n) as (Hk' & Hs' & Hmax').
  destruct (Nat.lt_trichotomy (longest_suffix_prefix_len s n) k) as [?|[?|?]]; [|done|].
  - destruct (Hmax' k); [lia|done].
  - destruct (Hmax (longest_suffix_prefix_len s n)); [lia|done].
Qed.

(** [take k n] ends [s] when [s] from some position on starts [n]. *)
Lemma suffix_drop_prefix (s n b : str) j :
  j ≤ length s → n `prefix_of` drop j (s ++ b) → length s - j ≤ length n →
  take (length s - j) n `suffix_of` s.
Proof.
  intros Hj [r Hr] Hlen. exists (take j s).
  rewrite drop_app_le in Hr by done.
  assert (Hld : length (drop j s) = length s - j) by apply length_drop.
  apply (f_equal (take (length s - j))) in Hr.
  rewrite <-Hld in Hr at 1. rewrite take_app_length, take_app_le in Hr by done.
  rewrite <-Hr. by rewrite take_drop.
Qed.

(** No occurrence of [n] starts in the part of [t] that is not kept, even
    when more text follows. *)
Lemma no_occurrence_before_kept (n t b : str) keep j :
  find n t = None → longest_suffix_prefix_len t n ≤ keep → j < length t - keep →
  ¬ n `prefix_of` drop j (t ++ b).
Proof.
  intros Hf Hkeep Hj Hp. destruct (decide (j + length n ≤ length t)) as [Hin|Hout].
  - rewrite find_None in Hf. apply (Hf j). rewrite drop_app_le in Hp by lia.
    eapply prefix_app_inv_len; [|exact Hp]. rewrite length_drop. lia.
  - destruct (lsp_spec t n) as (_ & _ & Hmax). apply (Hmax (length t - j)); [lia|].
    eapply suffix_drop_prefix; [lia|exact Hp|lia].
Qed.

Lemma suffix_app_short (p x y : str) :
  length p ≤ length y → p `suffix_of` x ++ y ↔ p `suffix_of` y.
Proof.
  intros Hlen. rewrite !suffix_prefix_reverse, reverse_app. split.
  - apply prefix_app_inv_len. by rewrite !length_reverse.
  - apply prefix_app_r.
Qed.

(** Dropping the part of the buffer that is not kept does not change which
    suffix is kept after more text. *)
Lemma lsp_skip (n t b : str) keep :
  longest_suffix_prefix_len t n ≤ keep → keep ≤ length t →
  longest_suffix_prefix_len (t ++ b) n =
  longest_suffix_prefix_len (drop (length t - keep) t ++ b) n.
Proof.
  intros Hkeep Hle. set (x := take (length t - keep) t). set (y := drop (length t - keep) t).
  assert (Hxy : t ++ b = x ++ (y ++ b)) by (by rewrite app_assoc; unfold x, y; rewrite take_drop).
  assert (Hly : length y = keep) by (unfold y; rewrite length_drop; lia).
  destruct (lsp_spec (t ++ b) n) as (Hk & Hs & Hmax). revert Hk Hs Hmax.
  generalize (longest_suffix_prefix_len (t ++ b) n) as k. intros k Hk Hs Hmax.
  assert (Hkn : k ≤ length (y ++ b)).
  { destruct (decide (k ≤ length (y ++ b))) as [|Hgt]; [done|exfalso].
    rewrite length_app in *.
    destruct (lsp_spec t n) as (_ & _ & Hmaxt).
    apply (Hmaxt (k - length b)); [lia|]. destruct Hs as [z Hz].
    assert (Hlz : length z + k = length t + length b).
    { apply (f_equal length) in Hz. rewrite !length_app, length_take_le in Hz by lia. lia. }
    exists z. apply (f_equal (take (length t))) in Hz.
    rewrite take_app_length, take_app_ge in Hz by lia. rewrite Hz. f_equal.
    rewrite take_take. f_equal. lia. }
  symmetry. apply lsp_unique.
  - lia.
  - rewrite Hxy in Hs. apply suffix_app_short in Hs; [done|]. rewrite length_take. lia.
  - intros k' Hk' Hs'. apply (Hmax k'); [rewrite Hxy, length_app; lia|].
    rewrite Hxy. apply suffix_app_short; [rewrite length_take; lia|done].
Qed.

(** ** Runs of the loop *)
Section runs.
Context {T : Type}.
Implicit Types (ss : list (InlineTagSpec T)) (a : ActiveTag T).
Abbreviation out := (StreamTextChunk (ExtractedInlineTag T)).

(** What the loop does on a buffered text, as a relation: output, then the
    final buffer and active tag. *)
Inductive runs ss : str → option (ActiveTag T) → out → str → option (ActiveTag T) → Prop :=
  | runs_close t a i o t' act' :
      find (act_close a) t = Some i →
      runs ss (drop (i + length (act_close a)) t) None o t' act' →
      runs ss t (Some a)
        ({| visible_text := [];
            extracted := [{| ex_tag := act_tag a; ex_content := act_content a ++ take i t |}] |} ⊕ o)
        t' act'
  | runs_hold_close t a n :
      find (act_close a) t = None →
      n = length t - longest_suffix_prefix_len t (act_close a) →
      runs ss t (Some a) default_chunk (drop n t)
        (Some {| act_tag := act_tag a; act_close := act_close a;
                 act_content := act_content a ++ take n t |})
  | runs_open t i k spec o t' act' :
      find_next_open ss t = Some (i, k) → ss !! k = Some spec →
      runs ss (drop (i + length (open spec)) t)
        (Some {| act_tag := tag spec; act_close := close spec; act_content := [] |}) o t' act' →
      runs ss t None ({| visible_text := take i t; extracted := [] |} ⊕ o) t' act'
  | runs_hold_open t n :
      find_next_open ss t = None → n = length t - max_open_prefix_suffix_len ss t →
      runs ss t None {| visible_text := take n t; extracted := [] |} (drop n t) None.

Lemma min_cand_elem cs c : min_cand cs = Some c → c ∈ cs.
Proof.
  revert c; induction cs as [|d cs IH]; intros c; simpl; [done|].
  destruct (min_cand cs) as [e|] eqn:E; [|intros [= ->]; left].
  case_match; intros [= <-]; [right; by apply IH|left].
Qed.

Lemma min_cand_None cs : min_cand cs = None ↔ cs = [].
Proof. destruct cs as [|c cs]; simpl; [done|]. repeat case_match; naive_solver. Qed.

Lemma open_candidates_elem ss t pos len idx :
  (pos, len, idx) ∈ open_candidates ss t ↔
  ∃ spec, ss !! idx = Some spec ∧ find (open spec) t = Some pos ∧ len = str_len (open spec).
Proof.
  unfold open_candidates. rewrite list_elem_of_omap. split.
  - intros ([[[pos' len'] idx']|] & Hin & [= <- <- <-]).
    apply elem_of_lookup_imap in Hin as (i & spec & Heq & Hl).
    symmetry in Heq. apply fmap_Some in Heq as (? & ? & [= -> -> ->]). eauto.
  - intros (spec & Hl & Hf & ->). exists (Some (pos, str_len (open spec), idx)). split; [|done].
    apply elem_of_lookup_imap. exists idx, spec. by rewrite Hf.
Qed.

Lemma find_next_open_None ss t :
  find_next_open ss t = None ↔ ∀ spec, spec ∈ ss → find (open spec) t = None.
Proof.
  unfold find_next_open. rewrite fmap_None, min_cand_None. split.
  - intros Hnil spec [idx Hl]%list_elem_of_lookup.
    destruct (find (open spec) t) as [pos|] eqn:E; [|done]. exfalso.
    assert ((pos, str_len (open spec), idx) ∈ open_candidates ss t) as Hin
      by (apply open_candidates_elem; eauto).
    rewrite Hnil in Hin. by apply not_elem_of_nil in Hin.
  - intros Hall. destruct (open_candidates ss t) as [|[[pos len] idx] cs] eqn:E; [done|exfalso].
    assert ((pos, len, idx) ∈ open_candidates ss t) as Hin by (rewrite E; left).
    apply open_candidates_elem in Hin as (spec & Hl & Hf & _).
    rewrite Hall in Hf; [done|]. by eapply list_elem_of_lookup_2.
Qed.

Lemma find_next_open_Some ss t i k :
  find_next_open ss t = Some (i, k) →
  ∃ spec, ss !! k = Some spec ∧ find (open spec) t = Some i.
Proof.
  unfold find_next_open. intros ([[pos len] idx] & Hm & [= -> ->])%fmap_Some.
  apply min_cand_elem, open_candidates_elem in Hm as (spec & ? & ? & _). eauto.
Qed.

(** The parsers [new] builds, and the delimiters of an active tag. *)
Definition specs_ok ss : Prop := forallb spec_ok ss = true.
Definition active_ok (act : option (ActiveTag T)) : Prop :=
  match act with Some a => act_close a ≠ [] | None => True end.

Lemma specs_ok_elem ss spec : specs_ok ss → spec ∈ ss → open spec ≠ [] ∧ close spec ≠ [].
Proof.
  unfold specs_ok. rewrite forallb_forall. intros Hok Hin%list_elem_of_In.
  specialize (Hok _ Hin). unfold spec_ok in Hok. by bool_cases.
Qed.

(** The loop terminates without panic within the fuel and computes the run. *)
Lemma push_loop_runs fuel ss t act o0 :
  specs_ok ss → active_ok act → length t < fuel →
  ∃ o t' act', runs ss t act o t' act' ∧ active_ok act' ∧
    push_loop fuel {| specs := ss; pending := t; active := act |} o0 =
    Ok (o0 ⊕ o, {| specs := ss; pending := t'; active := act' |}).
Proof.
  intros Hss. revert t act o0; induction fuel as [|fuel IH]; intros t act o0 Ha Hf; [lia|].
  cbn [push_loop]. unfold push_iter; cbn [active pending specs].
  destruct act as [a|]; simpl in Ha.
  - destruct (find (act_close a) t) as [i|] eqn:E; cbn [mbind outcome_bind].
    + pose proof (find_length _ _ _ E) as Hlen.
      assert (1 ≤ length (act_close a)) by (by destruct (act_close a); simpl; [|lia]).
      destruct (IH (drop (i + length (act_close a)) t) None
        {| visible_text := visible_text o0;
           extracted := extracted o0 ++
             [{| ex_tag := act_tag a; ex_content := act_content a ++ take i t |}] |})
        as (o & t' & act' & Hr & Ha' & ->); [done|rewrite length_drop; lia|].
      eexists _, t', act'. split; [by eapply runs_close|]. split; [done|].
      rewrite <-app_chunk_assoc. do 3 f_equal. unfold app_chunk; simpl. by rewrite app_nil_r.
    + eexists _, _, _. split; [by eapply runs_hold_close|]. split; [done|].
      by rewrite app_chunk_nil_r.
  - destruct (find_next_open ss t) as [[i k]|] eqn:E; cbn [mbind outcome_bind].
    + destruct (find_next_open_Some _ _ _ _ E) as (spec & Hl & Hfind). rewrite Hl.
      cbn [mbind outcome_bind].
      destruct (specs_ok_elem ss spec Hss) as [Ho Hc]; [by eapply list_elem_of_lookup_2|].
      pose proof (find_length _ _ _ Hfind) as Hlen.
      assert (1 ≤ length (open spec)) by (by destruct (open spec); simpl; [|lia]).
      destruct (IH (drop (i + length (open spec)) t)
        (Some {| act_tag := tag spec; act_close := close spec; act_content := [] |})
        {| visible_text := visible_text o0 ++ take i t; extracted := extracted o0 |})
        as (o & t' & act' & Hr & Ha' & ->); [done|rewrite length_drop; lia|].
      eexists _, t', act'. split; [by eapply runs_open|]. split; [done|].
      rewrite <-app_chunk_assoc. do 3 f_equal. unfold app_chunk; simpl. by rewrite app_nil_r.
    + eexists _, _, _. split; [by eapply runs_hold_open|]. split; [done|].
      unfold app_chunk; simpl. by rewrite app_nil_r.
Qed.

Lemma runs_det ss t act o1 t1 act1 o2 t2 act2 :
  runs ss t act o1 t1 act1 → runs ss t act o2 t2 act2 → o1 = o2 ∧ t1 = t2 ∧ act1 = act2.
Proof.
  intros H1. revert o2 t2 act2.
  induction H1 as [t a i o t' act' Hf Hr IH|t a n Hf Hn|t i k spec o t' act' Hf Hl Hr IH|t n Hf Hn];
    intros o2 t2 act2 H2; inversion H2; subst; try congruence; try done.
  - simplify_eq. by edestruct IH as (-> & -> & ->).
  - rewrite Hf in *. simplify_eq. by edestruct IH as (-> & -> & ->).
Qed.

(** ** Cutting the text *)
Lemma cand_lt_true p1 l1 i1 p2 l2 i2 :
  cand_lt (p1, l1, i1) (p2, l2, i2) = true ↔
  p1 < p2 ∨ p1 = p2 ∧ (l2 < l1 ∨ l2 = l1 ∧ i1 < i2).
Proof.
  unfold cand_lt. rewrite !orb_true_iff, !andb_true_iff, !orb_true_iff, !andb_true_iff.
  rewrite !Nat.ltb_lt, !Nat.eqb_eq. done.
Qed.

Lemma cand_lt_total c d : cand_lt c d = false → cand_lt d c = false → c = d.
Proof.
  destruct c as [[p1 l1] i1], d as [[p2 l2] i2].
  rewrite <-!not_true_iff_false, !cand_lt_true. intros. repeat f_equal; lia.
Qed.

Lemma cand_lt_trans c d e : cand_lt d c = false → cand_lt e d = false → cand_lt e c = false.
Proof.
  destruct c as [[p1 l1] i1], d as [[p2 l2] i2], e as [[p3 l3] i3].
  rewrite <-!not_true_iff_false, !cand_lt_true. lia.
Qed.

Lemma cand_lt_asym c d : cand_lt c d = true → cand_lt d c = false.
Proof.
  destruct c as [[p1 l1] i1], d as [[p2 l2] i2].
  rewrite <-!not_true_iff_false, !cand_lt_true. lia.
Qed.

Lemma min_cand_least cs c d : min_cand cs = Some c → d ∈ cs → cand_lt d c = false.
Proof.
  revert c; induction cs as [|e cs IH]; intros c; simpl; [by intros|].
  destruct (min_cand cs) as [m|] eqn:E; last first.
  { apply min_cand_None in E as ->. intros [= ->] ->%list_elem_of_singleton.
    destruct (cand_lt c c) eqn:E; [|done]. by rewrite (cand_lt_asym _ _ E) in E. }
  destruct (cand_lt m e) eqn:Em; intros [= <-] [->|Hd]%elem_of_cons; auto.
  - by apply cand_lt_asym.
  - destruct (cand_lt e e) eqn:E2; [|done]. by rewrite (cand_lt_asym _ _ E2) in E2.
  - by eapply cand_lt_trans; [|apply IH].
Qed.

Lemma min_cand_Some cs c :
  c ∈ cs → (∀ d, d ∈ cs → cand_lt d c = false) → min_cand cs = Some c.
Proof.
  intros Hc Hmin. destruct (min_cand cs) as [m|] eqn:E.
  - f_equal. apply cand_lt_total; [by apply Hmin, min_cand_elem|by eapply min_cand_least].
  - apply min_cand_None in E as ->. by apply not_elem_of_nil in Hc.
Qed.

(** No opening delimiter occurs inside a different one. *)
Definition openers_separate ss : Prop :=
  Forall (λ s1, Forall (λ s2, open s1 = open s2 ∨ find (open s1) (open s2) = None) ss) ss.

#[export] Instance openers_separate_dec ss : Decision (openers_separate ss).
Proof. apply _. Defined.

Lemma openers_separate_infix ss s1 s2 x y :
  openers_separate ss → s1 ∈ ss → s2 ∈ ss → open s2 = x ++ open s1 ++ y → open s1 = open s2.
Proof.
  intros Hsep Hin1 Hin2 Heq. unfold openers_separate in Hsep. rewrite Forall_forall in Hsep.
  specialize (Hsep s1 Hin1). rewrite Forall_forall in Hsep.
  destruct (Hsep s2 Hin2) as [|Hnone]; [done|]. rewrite find_None in Hnone.
  destruct (Hnone (length x)). rewrite Heq, drop_app_length. by exists y.
Qed.

(** An opener found in the buffer is still the next one when text follows. *)
Lemma find_next_open_app ss t b i k :
  openers_separate ss → find_next_open ss t = Some (i, k) →
  find_next_open ss (t ++ b) = Some (i, k).
Proof.
  intros Hsep Hf. unfold find_next_open in *.
  apply fmap_Some in Hf as ([[pos len] idx] & Hm & [= -> ->]).
  pose proof (min_cand_elem _ _ Hm) as (spec & Hl & Hfind & ->)%open_candidates_elem.
  pose proof (find_length _ _ _ Hfind) as Hlen.
  rewrite (min_cand_Some _ (pos, str_len (open spec), idx)); [done| |].
  { apply open_candidates_elem. eexists; split_and!; [done| |done]. by apply find_app_l. }
  intros [[pos' len'] idx'] (spec' & Hl' & Hfind' & ->)%open_candidates_elem.
  destruct (find (open spec') t) as [q|] eqn:Eq.
  - pose proof (find_length _ _ _ Eq).
    rewrite (find_app_l _ _ b _ Eq) in Hfind' by done. simplify_eq.
    eapply min_cand_least; [done|]. apply open_candidates_elem. eauto.
  - apply not_true_iff_false. rewrite cand_lt_true. intros Hlt.
    assert (pos' ≤ pos) as Hpos by lia. clear Hlt.
    assert (open spec = open spec'); [|congruence].
    apply find_Some in Hfind as ([r Hr] & Hi & _).
    apply find_Some in Hfind' as ([r' Hr'] & Hi' & _).
    assert (length t < pos' + length (open spec')) as Hover.
    { apply Nat.lt_nge. intros Hin. rewrite find_None in Eq. apply (Eq pos').
      eapply (prefix_app_inv_len _ _ b); [rewrite length_drop; lia|].
      rewrite <-drop_app_le by lia. by exists r'. }
    apply (openers_separate_infix ss spec spec' (take (pos - pos') (open spec'))
      (drop (length (open spec)) (drop (pos - pos') (open spec'))));
      [done|by eapply list_elem_of_lookup_2..|].
    rewrite <-(take_drop (pos - pos') (open spec')) at 1. f_equal.
    rewrite <-(take_drop (length (open spec)) (drop (pos - pos') (open spec'))) at 1. f_equal.
    assert (drop pos (t ++ b) = drop (pos - pos') (open spec') ++ r') as Hd.
    { replace pos with (pos' + (pos - pos')) at 1 by lia. rewrite <-drop_drop, Hr'.
      apply drop_app_le. lia. }
    rewrite drop_app_le, Hr, <-app_assoc in Hd by lia.
    apply (f_equal (take (length (open spec)))) in Hd.
    rewrite take_app_length, take_app_le in Hd by (rewrite length_drop; lia). done.
Qed.

Lemma max_list_elem_le (l : list nat) x : x ∈ l → x ≤ max_list l.
Proof. induction 1; simpl; lia. Qed.

Lemma lsp_le_max ss t spec :
  spec ∈ ss → longest_suffix_prefix_len t (open spec) ≤ max_open_prefix_suffix_len ss t.
Proof.
  intros Hin. unfold max_open_prefix_suffix_len. apply max_list_elem_le.
  apply list_elem_of_fmap. by exists spec.
Qed.

Lemma max_lsp_length ss t : max_open_prefix_suffix_len ss t ≤ length t.
Proof.
  unfold max_open_prefix_suffix_len.
  induction ss as [|spec ss IH]; [simpl; lia|]. rewrite fmap_cons.
  destruct (lsp_spec t (open spec)) as (? & _). apply Nat.max_lub; [cbv [id]; lia|exact IH].
Qed.

(** Shifting a buffer with no opener in its first [n] characters. *)
Lemma find_next_open_shift ss x y :
  (∀ spec j, spec ∈ ss → j < length x → ¬ open spec `prefix_of` drop j (x ++ y)) →
  find_next_open ss (x ++ y) = prod_map (λ i, length x + i) id <$> find_next_open ss y.
Proof.
  intros Hno.
  assert (Hel : ∀ pos len idx, (pos, len, idx) ∈ open_candidates ss (x ++ y) ↔
    ∃ q, pos = length x + q ∧ (q, len, idx) ∈ open_candidates ss y).
  { intros pos len idx. setoid_rewrite open_candidates_elem. split.
    - intros (spec & Hl & Hf & ->). rewrite find_skip in Hf
        by (intros; apply Hno; [by eapply list_elem_of_lookup_2|done]).
      apply fmap_Some in Hf as (q & Hf & ->). eauto 10.
    - intros (q & -> & spec & Hl & Hf & ->). exists spec. split_and!; [done| |done].
      rewrite find_skip by (intros; apply Hno; [by eapply list_elem_of_lookup_2|done]).
      by rewrite Hf. }
  unfold find_next_open. destruct (min_cand (open_candidates ss y)) as [[[pos len] idx]|] eqn:E.
  - erewrite (min_cand_Some _ (length x + pos, len, idx)); [done| |].
    + apply Hel. exists pos. split; [done|]. by apply min_cand_elem.
    + intros [[pos' len'] idx'] (q & -> & Hin)%Hel.
      pose proof (min_cand_least _ _ _ E Hin) as Hlt. revert Hlt.
      rewrite <-!not_true_iff_false, !cand_lt_true. lia.
  - apply min_cand_None in E. replace (open_candidates ss (x ++ y)) with (@nil candidate); [done|].
    destruct (open_candidates ss (x ++ y)) as [|[[pos' len'] idx'] cs] eqn:E'; [done|].
    assert ((pos', len', idx') ∈ (pos', len', idx') :: cs) as Hin by left.
    apply Hel in Hin as (q & _ & Hin). rewrite E in Hin. by apply not_elem_of_nil in Hin.
Qed.

(** The hold cases: what is emitted, and where the scan resumes. *)
Lemma find_next_open_hold ss t b n :
  find_next_open ss t = None → n = length t - max_open_prefix_suffix_len ss t →
  find_next_open ss (t ++ b) =
    prod_map (λ i, n + i) id <$> find_next_open ss (drop n t ++ b).
Proof.
  intros Hf Hn. pose proof (max_lsp_length ss t).
  assert (length (take n t) = n) as Hl by (rewrite length_take; lia).
  rewrite <-(take_drop n t) at 1. rewrite <-app_assoc, find_next_open_shift, Hl; [done|].
  intros spec j Hin Hj. rewrite app_assoc, take_drop.
  eapply no_occurrence_before_kept; [|by apply lsp_le_max|lia].
  by eapply find_next_open_None.
Qed.

Lemma max_lsp_hold ss t b :
  max_open_prefix_suffix_len ss (t ++ b) =
  max_open_prefix_suffix_len ss (drop (length t - max_open_prefix_suffix_len ss t) t ++ b).
Proof.
  unfold max_open_prefix_suffix_len at 1 2. f_equal. apply list_fmap_ext.
  intros i spec Hin%list_elem_of_lookup_2. apply lsp_skip; [by apply lsp_le_max|].
  apply max_lsp_length.
Qed.

Lemma drop_hold (t b : str) n m :
  n ≤ length t → drop (n + m) (t ++ b) = drop m (drop n t ++ b).
Proof. intros Hn. by rewrite <-drop_drop, drop_app_le. Qed.

Lemma take_hold (t b : str) n m :
  n ≤ length t → take (n + m) (t ++ b) = take n t ++ take m (drop n t ++ b).
Proof.
  intros Hn. rewrite <-(take_drop n t) at 1. rewrite <-app_assoc.
  assert (length (take n t) = n) as Hln by (rewrite length_take; lia).
  rewrite take_app, Hln, (take_ge _ (n + m)) by (rewrite Hln; lia). do 2 f_equal. lia.
Qed.

(** Running on a text, then on what it left together with more text, is
    running on the whole text. *)
Lemma runs_app ss t act o1 t1 act1 b o2 t2 act2 :
  openers_separate ss →
  runs ss t act o1 t1 act1 → runs ss (t1 ++ b) act1 o2 t2 act2 →
  runs ss (t ++ b) act (o1 ⊕ o2) t2 act2.
Proof.
  intros Hsep H1. revert o2 t2 act2.
  induction H1 as [t a i o t' act' Hf Hr IH|t a n Hf Hn|t i k spec o t' act' Hf Hl Hr IH|t n Hf Hn];
    intros o2 t2 act2 H2.
  - pose proof (find_length _ _ _ Hf) as Hlen. rewrite app_chunk_assoc.
    replace (take i t) with (take i (t ++ b)) by (apply take_app_le; lia).
    apply runs_close; [by apply find_app_l|].
    rewrite drop_app_le by lia. by apply IH.
  - rewrite app_chunk_nil_l.
    pose proof (lsp_spec t (act_close a)) as (Hk & _).
    assert (length (take n t) = n) as Hln by (rewrite length_take; lia).
    assert (n ≤ length t) as Hnt by lia.
    assert (Hskip : find (act_close a) (t ++ b) =
      (λ i, n + i) <$> find (act_close a) (drop n t ++ b)).
    { rewrite <-(take_drop n t) at 1. rewrite <-app_assoc, find_skip, Hln; [done|].
      intros j Hj. rewrite app_assoc, take_drop.
      eapply no_occurrence_before_kept; [done|reflexivity|lia]. }
    inversion H2 as [? ? i ? ? ? Hf' Hr'|? ? m Hf' Hm| |]; subst; simpl in *.
    + rewrite Hf' in Hskip. simpl in Hskip. rewrite <-app_assoc, <-take_hold by done.
      apply runs_close; [done|]. by rewrite <-Nat.add_assoc, drop_hold by done.
    + rewrite Hf' in Hskip. simpl in Hskip.
      rewrite <-app_assoc, <-take_hold, <-drop_hold by done. apply runs_hold_close; [done|].
      rewrite (lsp_skip (act_close a) t b (longest_suffix_prefix_len t (act_close a))) by lia.
      pose proof (lsp_spec (drop (length t - longest_suffix_prefix_len t (act_close a)) t ++ b)
        (act_close a)) as (Hk2 & _).
      rewrite !length_app, length_drop in *. lia.
  - destruct (find_next_open_Some _ _ _ _ Hf) as (spec' & Hl' & Hfind). simplify_eq.
    pose proof (find_length _ _ _ Hfind) as Hlen. rewrite app_chunk_assoc.
    replace (take i t) with (take i (t ++ b)) by (apply take_app_le; lia).
    eapply runs_open; [by apply find_next_open_app|done|].
    rewrite drop_app_le by lia. by apply IH.
  - pose proof (find_next_open_hold ss t b n Hf Hn) as Hskip.
    pose proof (max_lsp_length ss t) as Hk. assert (n ≤ length t) as Hnt by lia.
    inversion H2 as [| |? i k spec ? ? ? Hf' Hl' Hr'|? m Hf' Hm]; subst; simpl in *.
    + rewrite Hf' in Hskip. simpl in Hskip. rewrite <-app_chunk_assoc.
      unfold app_chunk at 2; simpl. rewrite <-take_hold by done.
      eapply runs_open; [done|done|]. by rewrite <-Nat.add_assoc, drop_hold by done.
    + rewrite Hf' in Hskip. simpl in Hskip. unfold app_chunk; simpl.
      rewrite <-take_hold, <-drop_hold by done. apply runs_hold_open; [done|].
      rewrite (max_lsp_hold ss t b).
      pose proof (max_lsp_length ss (drop (length t - max_open_prefix_suffix_len ss t) t ++ b)).
      rewrite !length_app, length_drop in *. lia.
Qed.

(** ** What [push_str] promises *)
Definition parser_ok (p : InlineHiddenTagParser T) : Prop :=
  specs_ok (specs p) ∧ active_ok (active p).

Lemma try_push_str_runs (p : InlineHiddenTagParser T) c :
  parser_ok p →
  ∃ o t' act', runs (specs p) (pending p ++ c) (active p) o t' act' ∧ active_ok act' ∧
    try_push_str p c = Ok (o, {| specs := specs p; pending := t'; active := act' |}).
Proof.
  intros [Hs Ha]. unfold try_push_str. cbv zeta.
  edestruct (push_loop_runs (S (length (pending p ++ c))) (specs p) (pending p ++ c) (active p)
    default_chunk) as (o & t' & act' & Hr & Ha' & Heq); [done|done|lia|].
  exists o, t', act'. split_and!; [done..|]. cbn [pending]. by rewrite Heq, app_chunk_nil_l.
Qed.

Lemma try_push_str_app (p : InlineHiddenTagParser T) (a b : str) :
  parser_ok p → openers_separate (specs p) →
  ∃ o1 p1 o2 p2, try_push_str p a = Ok (o1, p1) ∧ try_push_str p1 b = Ok (o2, p2) ∧
    try_push_str p (a ++ b) = Ok (o1 ⊕ o2, p2) ∧ parser_ok p1 ∧ specs p1 = specs p.
Proof.
  intros Hok Hsep. destruct (try_push_str_runs p a Hok) as (o1 & t1 & act1 & Hr1 & Ha1 & E1).
  set (p1 := {| specs := specs p; pending := t1; active := act1 |}) in *.
  assert (Hok1 : parser_ok p1) by (destruct Hok; by split).
  destruct (try_push_str_runs p1 b Hok1) as (o2 & t2 & act2 & Hr2 & Ha2 & E2).
  destruct (try_push_str_runs p (a ++ b) Hok) as (o & t & act & Hr & Ha & E).
  rewrite app_assoc in Hr.
  pose proof (runs_app _ _ _ _ _ _ _ _ _ _ Hsep Hr1 Hr2) as Hr'.
  destruct (runs_det _ _ _ _ _ _ _ _ _ Hr Hr') as (-> & -> & ->).
  by eexists o1, p1, o2, _.
Qed.

(** A buffer the loop leaves behind is stable: nothing more comes out of it
    until more text arrives. *)
Definition settled (p : InlineHiddenTagParser T) : Prop :=
  runs (specs p) (pending p) (active p) default_chunk (pending p) (active p).

Lemma lsp_kept t n k :
  k = longest_suffix_prefix_len t n → longest_suffix_prefix_len (drop (length t - k) t) n = k.
Proof.
  intros ->. pose proof (lsp_skip n t [] (longest_suffix_prefix_len t n)) as Hs.
  rewrite !app_nil_r in Hs. symmetry. apply Hs; [done|]. destruct (lsp_spec t n). lia.
Qed.

Lemma runs_settled ss t act o t' act' :
  runs ss t act o t' act' → runs ss t' act' default_chunk t' act'.
Proof.
  induction 1 as [t a i o t' act' Hf Hr IH|t a n Hf Hn|t i k spec o t' act' Hf Hl Hr IH|t n Hf Hn];
    [done| |done|].
  - pose proof (lsp_spec t (act_close a)) as (Hk & _).
    epose proof (runs_hold_close ss (drop n t) {| act_tag := act_tag a; act_close := act_close a;
      act_content := act_content a ++ take n t |} 0) as Hh. simpl in Hh.
    rewrite take_0, app_nil_r, drop_0 in Hh. apply Hh.
    + destruct (find (act_close a) (drop n t)) as [i|] eqn:E; [|done].
      apply find_Some in E as (Hp & _ & _). rewrite drop_drop in Hp.
      rewrite find_None in Hf. by destruct (Hf (n + i)).
    + rewrite Hn, lsp_kept, length_drop by done. lia.
  - pose proof (max_lsp_length ss t) as Hk.
    pose proof (find_next_open_hold ss t [] n Hf Hn) as Hskip.
    rewrite !app_nil_r, Hf in Hskip. symmetry in Hskip. apply fmap_None in Hskip.
    pose proof (max_lsp_hold ss t []) as Hmax. rewrite !app_nil_r, <-Hn in Hmax.
    epose proof (runs_hold_open ss (drop n t) 0 Hskip) as Hh.
    rewrite take_0, drop_0 in Hh. apply Hh. rewrite <-Hmax, length_drop. lia.
Qed.

Lemma try_push_str_settled (p : InlineHiddenTagParser T) c o p' :
  parser_ok p → try_push_str p c = Ok (o, p') → parser_ok p' ∧ settled p' ∧ specs p' = specs p.
Proof.
  intros Hok E. destruct (try_push_str_runs p c Hok) as (o1 & t1 & act1 & Hr1 & Ha1 & E1).
  rewrite E1 in E. injection E as <- <-. split_and!; [split; [apply Hok|done]| |done].
  by eapply runs_settled.
Qed.

Lemma try_push_str_nil (p : InlineHiddenTagParser T) :
  parser_ok p → settled p → try_push_str p [] = Ok (default_chunk, p).
Proof.
  intros Hok Hset. destruct (try_push_str_runs p [] Hok) as (o & t & act & Hr & _ & ->).
  rewrite app_nil_r in Hr. destruct (runs_det _ _ _ _ _ _ _ _ _ Hr Hset) as (-> & -> & ->).
  by destruct p.
Qed.

Lemma new_ok ss p : new ss = Ok p → parser_ok p ∧ settled p ∧ specs p = ss.
Proof.
  unfold new. repeat case_match; try done. intros [= <-]. split_and!; [by split| |done].
  unfold settled; simpl. apply (runs_hold_open ss [] 0); [|done].
  apply find_next_open_None. intros spec Hin.
  destruct (specs_ok_elem ss spec) as [Ho _]; [done..|].
  by destruct (open spec).
Qed.
End runs.

(** ** Theorems *)
Fixpoint try_push_chunks {T} (p : InlineHiddenTagParser T) (cs : list str)
    : outcome Empty_set (StreamTextChunk (ExtractedInlineTag T) * InlineHiddenTagParser T) :=
  match cs with
  | [] => Ok (default_chunk, p)
  | c :: cs =>
      '(o, p) ← try_push_str p c;
      '(o', p) ← try_push_chunks p cs;
      Ok (o ⊕ o', p)
  end.

Lemma try_push_chunks_ok {T} (p : InlineHiddenTagParser T) cs :
  parser_ok p → settled p → openers_separate (specs p) →
  ∃ r, try_push_chunks p cs = Ok r ∧ try_push_str p (concat cs) = Ok r.
Proof.
  revert p; induction cs as [|c cs IH]; intros p Hok Hset Hsep; simpl.
  { eexists; split; [done|]. by apply try_push_str_nil. }
  destruct (try_push_str_app p c (concat cs) Hok Hsep)
    as (o1 & p1 & o2 & p2 & E1 & E2 & E & Hok1 & Hsp).
  rewrite E1; cbn [mbind outcome_bind].
  destruct (try_push_str_settled _ _ _ _ Hok E1) as (_ & Hset1 & _).
  destruct (IH p1 Hok1 Hset1) as (r & E3 & E4); [by rewrite Hsp|].
  rewrite E2 in E4. injection E4 as <-. rewrite E3. eauto.
Qed.

(** For a parser [InlineHiddenTagParser::new] built, whatever chunks are
    pushed, every call of [push_str] returns (its loop ends and no index is out
    of range). *)
Theorem push_str_returns {T} (ss : list (InlineTagSpec T)) p cs :
  new ss = Ok p → ∃ o p', foldl (λ r c, '(_, p) ← r; try_push_str p c) (Ok (default_chunk, p)) cs
    = Ok (o, p').
Proof.
  intros (Hok & _ & _)%new_ok. generalize (@default_chunk (ExtractedInlineTag T)) as o.
  revert p Hok; induction cs as [|c cs IH]; intros p Hok o; simpl; [eauto|].
  destruct (try_push_str_runs p c Hok) as (o1 & t1 & act1 & _ & Ha & ->).
  apply IH. split; [apply Hok|done].
Qed.

Definition sample_specs : list (InlineTagSpec bool) :=
  [ {| tag := true; open := lit "<a>"; close := lit "</a>" |};
    {| tag := false; open := lit "<b>"; close := lit "</b>" |} ].

Lemma push_str_returns_witness :
  ∃ p, new sample_specs = Ok p ∧
    ∃ o p', foldl (λ r c, '(_, p) ← r; try_push_str p c) (Ok (default_chunk, p))
      [lit "x<"; lit "a>y<b></a"; lit ">z"] = Ok (o, p').
Proof.
  eexists; split; [reflexivity|]. apply (push_str_returns sample_specs). reflexivity.
Defined.

(** When no opening delimiter occurs inside a different one, the output
    and the final state do not depend on how the text is cut into chunks. *)
Theorem push_str_chunks {T} (ss : list (InlineTagSpec T)) p cs1 cs2 :
  new ss = Ok p → openers_separate ss → concat cs1 = concat cs2 →
  try_push_chunks p cs1 = try_push_chunks p cs2 ∧ returns (try_push_chunks p cs1).
Proof.
  intros (Hok & Hset & Hss)%new_ok Hsep Hc. rewrite <-Hss in Hsep.
  destruct (try_push_chunks_ok p cs1 Hok Hset Hsep) as (r1 & E1 & E1').
  destruct (try_push_chunks_ok p cs2 Hok Hset Hsep) as (r2 & E2 & E2').
  rewrite Hc, E2' in E1'. injection E1' as ->. by rewrite E1, E2.
Qed.

Lemma push_str_chunks_witness :
  ∃ p, new sample_specs = Ok p ∧
    try_push_chunks p [lit "x<a>y</"; lit "a>z"] = try_push_chunks p [lit "x<"; lit "a>y</a>z"] ∧
    returns (try_push_chunks p [lit "x<a>y</"; lit "a>z"]).
Proof.
  eexists; split; [reflexivity|]. apply (push_str_chunks sample_specs); [reflexivity| |reflexivity].
  apply (bool_decide_unpack _). by vm_compute.
Defined.

(** Without the condition the cut matters: an opener that is a prefix of another
    is taken as soon as it is complete. *)
Lemma overlapping_openers_depend_on_chunks :
  let ss := [ {| tag := true; open := lit "<a"; close := lit ">" |};
              {| tag := false; open := lit "<ab"; close := lit ">" |} ] in
  ∃ p, new ss = Ok p ∧
    try_push_chunks p [lit "<ab>"] ≠ try_push_chunks p [lit "<a"; lit "b>"].
Proof. eexists; split; [reflexivity|]. by vm_compute. Qed.
