(* ===== verification/Citation.v ===== *)
(** * Citations: [utils/stream-parser/src/citation.rs]

    [CitationStreamParser] is [InlineHiddenTagParser] with one tag.  It is an
    instance of [ChunkInvariant], and [strip_citations] recovers the visible
    text and the citations of a text built from them. *)
From stdpp Require Import base tactics option list numbers strings.
From S2P Require Import Prelude.
From S2P Require Import RustStr.
From S2P Require Import StreamText.
From S2P Require Import InlineHiddenTag.

(** ** Data *)
Inductive CitationTag : Type := Citation.

Definition CITATION_OPEN : str := lit "<oai-mem-citation>".
Definition CITATION_CLOSE : str := lit "</oai-mem-citation>".

Record CitationStreamParser : Type := { inner : InlineHiddenTagParser CitationTag }.

Definition citation_specs : list (InlineTagSpec CitationTag) :=
  [ {| tag := Citation; open := CITATION_OPEN; close := CITATION_CLOSE |} ].

(** [CitationStreamParser::new]. *)
Definition citation_new : outcome Empty_set CitationStreamParser :=
  inner ← InlineHiddenTag.new citation_specs; Ok {| inner := inner |}.

(** [push_str]: the citation bodies of the inner parser's chunk.  The other
    outcomes of the inner call do not occur ([citation_push_str_eq]). *)
Definition citation_push_str (p : CitationStreamParser) (chunk : str)
    : StreamTextChunk str * CitationStreamParser :=
  match try_push_str (inner p) chunk with
  | Ok (o, i) => (map_chunk ex_content o, {| inner := i |})
  | _ => (default_chunk, p)
  end.

Definition citation_finish (p : CitationStreamParser) : StreamTextChunk str * CitationStreamParser :=
  let '(o, i) := inline_finish (inner p) in (map_chunk ex_content o, {| inner := i |}).

#[export] Instance CitationStreamParser_parser : StreamTextParser CitationStreamParser str := {|
  push_str := citation_push_str;
  finish := citation_finish;
|}.

(** [strip_citations]. *)
Definition strip_citations (text : str) : outcome Empty_set (str * list str) :=
  parser ← citation_new;
  let '(out, parser) := push_str parser text in
  let '(tail, _) := finish parser in
  Ok (visible_text out ++ visible_text tail, extracted out ++ extracted tail).

(** ** The interface *)
Definition citation_valid (p : CitationStreamParser) : Prop :=
  specs (inner p) = citation_specs ∧ parser_ok (inner p) ∧ settled (inner p).

Lemma citation_separate : openers_separate citation_specs.
Proof. apply (bool_decide_unpack _). by vm_compute. Qed.

Lemma citation_push_str_eq p c :
  citation_valid p →
  ∃ o i, try_push_str (inner p) c = Ok (o, i) ∧
    citation_push_str p c = (map_chunk ex_content o, {| inner := i |}) ∧
    citation_valid {| inner := i |}.
Proof.
  intros (Hs & Hok & _). destruct (try_push_str_runs (inner p) c Hok) as (o & t & act & _ & _ & E).
  eexists o, _. split_and!; [done|unfold citation_push_str; by rewrite E|].
  destruct (try_push_str_settled _ _ _ _ Hok E) as (? & ? & ?). by split_and!.
Qed.

Lemma citation_push_app p a b :
  citation_valid p →
  ∃ o1 o2 p1 p2, citation_push_str p a = (o1, p1) ∧ citation_push_str p1 b = (o2, p2) ∧
    citation_push_str p (a ++ b) = (o1 ⊕ o2, p2).
Proof.
  intros Hv. pose proof Hv as (Hs & Hok & _).
  destruct (try_push_str_app (inner p) a b Hok) as (o1 & p1 & o2 & p2 & E1 & E2 & E & _ & _).
  { rewrite Hs. apply citation_separate. }
  eexists _, _, {| inner := p1 |}, _. unfold citation_push_str; cbn [inner].
  rewrite E1, E2, E. split_and!; [done..|]. by rewrite map_chunk_app.
Qed.

#[export] Program Instance citation_chunk_invariant : ChunkInvariant CitationStreamParser str := {|
  valid := citation_valid;
  payload_equiv := eq;
|}.
Next Obligation.
  intros p s Hv. destruct (citation_push_str_eq p s Hv) as (o & i & _ & E & Hv').
  cbn [push_str CitationStreamParser_parser]. by rewrite E.
Qed.
Next Obligation.
  intros p (Hs & Hok & Hset). cbn [push_str CitationStreamParser_parser].
  unfold citation_push_str. rewrite try_push_str_nil by done. by destruct p.
Qed.
Next Obligation.
  intros p a b Hv. destruct (citation_push_app p a b Hv) as (o1 & o2 & p1 & p2 & E1 & E2 & E).
  cbn [push_str CitationStreamParser_parser]. by rewrite E, E1; simpl; rewrite E2.
Qed.
Next Obligation.
  intros p a b Hv. destruct (citation_push_app p a b Hv) as (o1 & o2 & p1 & p2 & E1 & E2 & E).
  cbn [push_str CitationStreamParser_parser]. by rewrite E, E1; simpl; rewrite E2.
Qed.
Next Obligation.
  intros p a b Hv. destruct (citation_push_app p a b Hv) as (o1 & o2 & p1 & p2 & E1 & E2 & E).
  cbn [push_str CitationStreamParser_parser]. by rewrite E, E1; simpl; rewrite E2.
Qed.

Lemma citation_new_valid p : citation_new = Ok p → citation_valid p.
Proof.
  unfold citation_new. intros (i & E & [= <-])%bind_Ok_inv.
  destruct (new_ok _ _ E) as (? & ? & ?). by split_and!.
Qed.

(** ** Round trip *)
(** A text with citations: visible text before each citation, then the rest. *)
Fixpoint cite (pieces : list (str * str)) (rest : str) : str :=
  match pieces with
  | [] => rest
  | (v, c) :: pieces => v ++ CITATION_OPEN ++ c ++ CITATION_CLOSE ++ cite pieces rest
  end.

(** The delimiters occur nowhere but where [cite] puts them. *)
Definition piece_ok (vc : str * str) : Prop :=
  find CITATION_OPEN (vc.1 ++ CITATION_OPEN) = Some (length vc.1) ∧
  find CITATION_CLOSE (vc.2 ++ CITATION_CLOSE) = Some (length vc.2).

Lemma find_next_open_single t :
  find_next_open citation_specs t = (λ i, (i, 0)) <$> find CITATION_OPEN t.
Proof.
  unfold find_next_open, open_candidates. cbn [citation_specs imap omap list_omap id open].
  by destruct (find CITATION_OPEN t).
Qed.

Lemma runs_piece v c rest o t' act' :
  piece_ok (v, c) → runs citation_specs rest None o t' act' →
  runs citation_specs (v ++ CITATION_OPEN ++ c ++ CITATION_CLOSE ++ rest) None
    ({| visible_text := v; extracted := [{| ex_tag := Citation; ex_content := c |}] |} ⊕ o) t' act'.
Proof.
  intros [Hv Hc] Hr. cbn [fst snd] in Hv, Hc.
  pose proof (find_length _ _ _ Hv) as Hlv. pose proof (find_length _ _ _ Hc) as Hlc.
  assert (Hclose : runs citation_specs (c ++ CITATION_CLOSE ++ rest)
    (Some {| act_tag := Citation; act_close := CITATION_CLOSE; act_content := [] |})
    ({| visible_text := []; extracted := [{| ex_tag := Citation; ex_content := c |}] |} ⊕ o) t' act').
  { pose proof (runs_close citation_specs (c ++ CITATION_CLOSE ++ rest)
      {| act_tag := Citation; act_close := CITATION_CLOSE; act_content := [] |} (length c)
      o t' act') as Hr'. cbn [act_tag act_close act_content] in Hr'.
    rewrite take_app_length in Hr'. apply Hr'.
    - rewrite app_assoc. by apply find_app_l.
    - by rewrite app_assoc, <-length_app, drop_app_length. }
  pose proof (runs_open citation_specs (v ++ CITATION_OPEN ++ c ++ CITATION_CLOSE ++ rest)
    (length v) 0 {| tag := Citation; open := CITATION_OPEN; close := CITATION_CLOSE |}
    ({| visible_text := []; extracted := [{| ex_tag := Citation; ex_content := c |}] |} ⊕ o)
    t' act') as Hr'. rewrite take_app_length in Hr'.
  apply Hr'.
  - rewrite find_next_open_single, app_assoc. erewrite find_app_l by done. done.
  - done.
  - cbn [open close tag]. by rewrite app_assoc, <-length_app, drop_app_length.
Qed.

Lemma runs_cite pieces rest o t' act' :
  Forall piece_ok pieces → runs citation_specs rest None o t' act' →
  runs citation_specs (cite pieces rest) None
    ({| visible_text := concat (pieces.*1);
        extracted := (λ vc, {| ex_tag := Citation; ex_content := vc.2 |}) <$> pieces |} ⊕ o) t' act'.
Proof.
  induction 1 as [|[v c] pieces Hp _ IH]; intros Hr; cbn [cite].
  { by destruct o. }
  apply (runs_piece v c) in IH; [|done|done]. rewrite <-app_chunk_assoc in IH. exact IH.
Qed.

Lemma strip_citations_runs text o t act :
  runs citation_specs text None o t act →
  strip_citations text =
    let tail := (citation_finish {| inner := {| specs := citation_specs; pending := t; active := act |} |}).1 in
    Ok (visible_text o ++ visible_text tail, (ex_content <$> extracted o) ++ extracted tail).
Proof.
  intros Hr. unfold strip_citations. destruct citation_new as [p| | |] eqn:E; try discriminate.
  cbn [mbind outcome_bind]. pose proof (citation_new_valid _ E) as Hv.
  assert (Hin : inner p = {| specs := citation_specs; pending := []; active := None |}).
  { unfold citation_new in E. apply bind_Ok_inv in E as (i & E & [= <-]).
    vm_compute in E. by injection E as <-. }
  pose proof Hv as (Hs & Hok & _).
  destruct (try_push_str_runs (inner p) text Hok) as (o' & t' & act' & Hr' & _ & E').
  rewrite Hin in Hr'. cbn [specs pending active app] in Hr'.
  destruct (runs_det _ _ _ _ _ _ _ _ _ Hr Hr') as (<- & <- & <-).
  cbn [push_str finish CitationStreamParser_parser]. unfold citation_push_str. rewrite E', Hin.
  cbn [specs]. by destruct (citation_finish _).
Qed.

(** ** Theorems *)
(** Round trip of [strip_citations]: on a text made of visible pieces,
    each followed by a citation between its tags, then a last visible piece,
    the result is the visible pieces joined and the list of citations, in
    order; the tags themselves never show. *)
Theorem strip_citations_roundtrip pieces rest :
  Forall piece_ok pieces → find CITATION_OPEN rest = None →
  strip_citations (cite pieces rest) = Ok (concat (pieces.*1) ++ rest, pieces.*2).
Proof.
  intros Hp Hrest.
  assert (Hnone : find_next_open citation_specs rest = None)
    by (by rewrite find_next_open_single, Hrest).
  erewrite strip_citations_runs; [|apply runs_cite; [done|]; eapply runs_hold_open; [done|reflexivity]].
  cbv zeta. cbn [citation_finish inner inline_finish active pending fst map_chunk visible_text
    extracted app_chunk fmap list_fmap]. rewrite !app_nil_r, <-app_assoc, take_drop.
  rewrite <-list_fmap_compose. done.
Qed.

Lemma strip_citations_roundtrip_witness :
  strip_citations (cite [(lit "Hello <oai", lit "doc 1"); (lit " and ", lit "doc</oai 2")] (lit " world"))
  = Ok (lit "Hello <oai and  world", [lit "doc 1"; lit "doc</oai 2"]).
Proof.
  apply (strip_citations_roundtrip [(lit "Hello <oai", lit "doc 1"); (lit " and ", lit "doc</oai 2")]).
  - repeat constructor.
  - reflexivity.
Defined.

(** An unterminated citation is closed at the end of the text: its body
    is everything after the opening tag, and no visible text follows. *)
Theorem strip_citations_unterminated v c :
  find CITATION_OPEN (v ++ CITATION_OPEN) = Some (length v) → find CITATION_CLOSE c = None →
  strip_citations (v ++ CITATION_OPEN ++ c) = Ok (v, [c]).
Proof.
  intros Hv Hc. pose proof (find_length _ _ _ Hv) as Hl.
  assert (Hr : runs citation_specs (v ++ CITATION_OPEN ++ c) None
    ({| visible_text := v; extracted := [] |} ⊕ default_chunk)
    (drop (length c - longest_suffix_prefix_len c CITATION_CLOSE) c)
    (Some {| act_tag := Citation; act_close := CITATION_CLOSE;
             act_content := [] ++ take (length c - longest_suffix_prefix_len c CITATION_CLOSE) c |})).
  { rewrite <-(take_app_length v (CITATION_OPEN ++ c)) at 2.
    apply (runs_open citation_specs (v ++ CITATION_OPEN ++ c) (length v) 0
      {| tag := Citation; open := CITATION_OPEN; close := CITATION_CLOSE |}).
    - rewrite find_next_open_single, app_assoc. erewrite find_app_l by done. done.
    - done.
    - cbn [open close tag]. rewrite app_assoc, <-length_app, drop_app_length.
      by apply (runs_hold_close citation_specs c
        {| act_tag := Citation; act_close := CITATION_CLOSE; act_content := [] |}). }
  erewrite strip_citations_runs by exact Hr. cbv zeta.
  cbn [citation_finish inner inline_finish active pending fst map_chunk visible_text default_chunk
    extracted app_chunk fmap list_fmap app act_content act_tag ex_content].
  by rewrite !app_nil_r, take_drop.
Qed.

Lemma strip_citations_unterminated_witness :
  strip_citations (lit "see <oai-mem-citation>doc</oai") = Ok (lit "see ", [lit "doc</oai"]).
Proof.
  apply (strip_citations_unterminated (lit "see ") (lit "doc</oai")); reflexivity.
Defined.
