(* ===== verification/TaggedLine.v ===== *)
(** * Tagged lines: [utils/stream-parser/src/tagged_line_parser.rs]

    The parser buffers a line only as long as it may still be a tag alone on
    its line, and emits text eagerly otherwise.  The theorems compare it with
    the line-by-line reference [tagged_lines]: the same segments, up to how
    adjacent text is joined, however the text is cut into chunks. *)
From stdpp Require Import base tactics option list numbers strings.
From S2P Require Import Prelude.
From S2P Require Import RustStr.

(** ** Data *)
Record TagSpec (T : Type) : Type := { open : str; close : str; tag : T }.
Arguments open {T} _.
Arguments close {T} _.
Arguments tag {T} _.

Inductive TaggedLineSegment (T : Type) : Type :=
  | Normal (text : str)
  | TagStart (tag : T)
  | TagDelta (tag : T) (text : str)
  | TagEnd (tag : T).
Arguments Normal {T} _.
Arguments TagStart {T} _.
Arguments TagDelta {T} _ _.
Arguments TagEnd {T} _.

Record TaggedLineParser (T : Type) : Type := {
  specs : list (TagSpec T);
  active_tag : option T;
  detect_tag : bool;
  line_buffer : str;
}.
Arguments specs {T} _.
Arguments active_tag {T} _.
Arguments detect_tag {T} _.
Arguments line_buffer {T} _.
Arguments Build_TaggedLineParser {T} _ _ _ _.

#[export] Instance TaggedLineSegment_eq_dec {T} `{EqDecision T} : EqDecision (TaggedLineSegment T).
Proof. solve_decision. Defined.

Section parser.
Context {T : Type} `{EqDecision T}.
Implicit Types (p : TaggedLineParser T) (segments : list (TaggedLineSegment T)).

Definition new (specs : list (TagSpec T)) : TaggedLineParser T :=
  {| specs := specs; active_tag := None; detect_tag := true; line_buffer := [] |}.

(** Assignments to one field. *)
Definition set_active p t : TaggedLineParser T :=
  {| specs := specs p; active_tag := t; detect_tag := detect_tag p; line_buffer := line_buffer p |}.
Definition set_detect p d : TaggedLineParser T :=
  {| specs := specs p; active_tag := active_tag p; detect_tag := d; line_buffer := line_buffer p |}.
Definition set_buffer p b : TaggedLineParser T :=
  {| specs := specs p; active_tag := active_tag p; detect_tag := detect_tag p; line_buffer := b |}.

Definition is_tag_prefix p (slug : str) : bool :=
  let slug := trim_end slug in
  existsb (λ spec, starts_with slug (open spec) || starts_with slug (close spec)) (specs p).

Definition match_open p (slug : str) : option T :=
  (λ r, tag r.2) <$> list_find (λ spec, open spec = slug) (specs p).

Definition match_close p (slug : str) : option T :=
  (λ r, tag r.2) <$> list_find (λ spec, close spec = slug) (specs p).

(** [push_segment]: text is appended to a last segment of the same kind. *)
Definition push_segment segments (segment : TaggedLineSegment T) : list (TaggedLineSegment T) :=
  match segment with
  | Normal delta =>
      if bool_decide (delta = []) then segments
      else match last segments with
           | Some (Normal existing) =>
               take (length segments - 1) segments ++ [Normal (existing ++ delta)]
           | _ => segments ++ [Normal delta]
           end
  | TagDelta tag delta =>
      if bool_decide (delta = []) then segments
      else match last segments with
           | Some (TagDelta existing_tag existing) =>
               if bool_decide (existing_tag = tag)
               then take (length segments - 1) segments ++ [TagDelta existing_tag (existing ++ delta)]
               else segments ++ [TagDelta tag delta]
           | _ => segments ++ [TagDelta tag delta]
           end
  | TagStart tag => segments ++ [TagStart tag]
  | TagEnd tag => segments ++ [TagEnd tag]
  end.

Definition push_text p (text : str) segments : list (TaggedLineSegment T) :=
  match active_tag p with
  | Some tag => push_segment segments (TagDelta tag text)
  | None => push_segment segments (Normal text)
  end.

Definition finish_line p segments : TaggedLineParser T * list (TaggedLineSegment T) :=
  let line := line_buffer p in
  let p := set_buffer p [] in
  let without_newline := default line (strip_suffix [NL] line) in
  let slug := trim_end (trim_start without_newline) in
  match match_open p slug, active_tag p with
  | Some tag, None =>
      (set_detect (set_active p (Some tag)) true, push_segment segments (TagStart tag))
  | _, _ =>
      match match_close p slug with
      | Some tag =>
          if bool_decide (active_tag p = Some tag)
          then (set_detect (set_active p None) true, push_segment segments (TagEnd tag))
          else (set_detect p true, push_text p line segments)
      | None => (set_detect p true, push_text p line segments)
      end
  end.

(** One character of the loop of [parse]. *)
Definition parse_char (st : TaggedLineParser T * str * list (TaggedLineSegment T)) (ch : char)
    : TaggedLineParser T * str * list (TaggedLineSegment T) :=
  let '(p, run, segments) := st in
  if detect_tag p then
    let '(run, segments) :=
      if bool_decide (run = []) then (run, segments) else ([], push_text p run segments) in
    let p := set_buffer p (line_buffer p ++ [ch]) in
    if bool_decide (ch = NL) then
      let '(p, segments) := finish_line p segments in (p, run, segments)
    else
      let slug := trim_start (line_buffer p) in
      if bool_decide (slug = []) || is_tag_prefix p slug then (p, run, segments)
      else
        let buffered := line_buffer p in
        let p := set_detect (set_buffer p []) false in
        (p, run, push_text p buffered segments)
  else
    let run := run ++ [ch] in
    if bool_decide (ch = NL)
    then (set_detect p true, [], push_text p run segments)
    else (p, run, segments).

Definition parse p (delta : str) : list (TaggedLineSegment T) * TaggedLineParser T :=
  let '(p, run, segments) := foldl parse_char (p, [], []) delta in
  (if bool_decide (run = []) then segments else push_text p run segments, p).

Definition tagged_finish p : list (TaggedLineSegment T) * TaggedLineParser T :=
  let '(p, segments) :=
    if bool_decide (line_buffer p = []) then (p, [])
    else
      let buffered := line_buffer p in
      let p := set_buffer p [] in
      let without_newline := default buffered (strip_suffix [NL] buffered) in
      let slug := trim_end (trim_start without_newline) in
      match match_open p slug, active_tag p with
      | Some tag, None => (set_active p (Some tag), push_segment [] (TagStart tag))
      | _, _ =>
          match match_close p slug with
          | Some tag =>
              if bool_decide (active_tag p = Some tag)
              then (set_active p None, push_segment [] (TagEnd tag))
              else (p, push_text p buffered [])
          | None => (p, push_text p buffered [])
          end
      end in
  let '(p, segments) :=
    match active_tag p with
    | Some tag => (set_active p None, push_segment segments (TagEnd tag))
    | None => (p, segments)
    end in
  (segments, set_detect p true).

(** ** The reference: one segment per line *)
(** Lines with their terminators. *)
Fixpoint split_inclusive (s : str) : list str :=
  match s with
  | [] => []
  | c :: s' =>
      if bool_decide (c = NL) then [c] :: split_inclusive s'
      else match split_inclusive s' with
           | [] => [[c]]
           | l :: ls => (c :: l) :: ls
           end
  end.

Definition text_segment (act : option T) (text : str) : TaggedLineSegment T :=
  match act with Some tag => TagDelta tag text | None => Normal text end.

(** A line is a tag when it is the delimiter up to surrounding whitespace. *)
Definition classify (specs : list (TagSpec T)) (act : option T) (line : str)
    : option T * TaggedLineSegment T :=
  let p := new specs in
  match match_open p (trim line), act, match_close p (trim line) with
  | Some tag, None, _ => (Some tag, TagStart tag)
  | _, Some tag, Some tag' =>
      if bool_decide (tag = tag') then (None, TagEnd tag) else (act, text_segment act line)
  | _, _, _ => (act, text_segment act line)
  end.

Fixpoint tagged_lines (specs : list (TagSpec T)) (act : option T) (ls : list str)
    : list (TaggedLineSegment T) :=
  match ls with
  | [] => match act with Some tag => [TagEnd tag] | None => [] end
  | l :: ls =>
      let '(act, seg) := classify specs act l in seg :: tagged_lines specs act ls
  end.

(** Joining adjacent text of the same kind. *)
Definition coalesce segments : list (TaggedLineSegment T) := foldl push_segment [] segments.
End parser.

(** ** Joining segments *)
Section coalesce.
Context {T : Type} `{EqDecision T}.
Implicit Types (A B : list (TaggedLineSegment T)) (act : option T) (e d : str).

Lemma take_init {X} (l : list X) x : take (length (l ++ [x]) - 1) (l ++ [x]) = l.
Proof. rewrite length_app; simpl. rewrite Nat.add_sub. apply take_app_length. Qed.

(** The text of a segment of the kind [act]. *)
Definition same_text (act : option T) (x : TaggedLineSegment T) : option str :=
  match act, x with
  | None, Normal e => Some e
  | Some t, TagDelta t' e => if bool_decide (t' = t) then Some e else None
  | _, _ => None
  end.

Lemma push_text_nil A act : push_segment A (text_segment act []) = A.
Proof. by destruct act. Qed.

Lemma push_text_empty act d :
  d ≠ [] → push_segment [] (text_segment act d) = [text_segment act d].
Proof. intros. by destruct act; cbn; rewrite bool_decide_false. Qed.

Lemma push_text_snoc A x act d :
  d ≠ [] →
  push_segment (A ++ [x]) (text_segment act d) =
  match same_text act x with
  | Some e => A ++ [text_segment act (e ++ d)]
  | None => (A ++ [x]) ++ [text_segment act d]
  end.
Proof.
  intros Hd. destruct act as [t|], x; cbn [text_segment push_segment same_text];
    rewrite bool_decide_false, last_snoc by done; try done; rewrite take_init; [|done].
  by case_bool_decide; subst.
Qed.

Lemma same_text_text act e : same_text act (text_segment act e) = Some e.
Proof. destruct act; simpl; [by rewrite bool_decide_true|done]. Qed.

Lemma same_text_Some act x e : same_text act x = Some e → x = text_segment act e.
Proof. destruct act, x; simpl; try case_bool_decide; naive_solver. Qed.

Lemma text_segment_join A act e d :
  push_segment (push_segment A (text_segment act e)) (text_segment act d) =
  push_segment A (text_segment act (e ++ d)).
Proof.
  destruct (decide (e = [])) as [->|He]; [by rewrite push_text_nil|].
  destruct (decide (d = [])) as [->|Hd]; [by rewrite push_text_nil, app_nil_r|].
  assert (e ++ d ≠ []) by (by destruct e).
  destruct A as [|x A _] using rev_ind.
  - rewrite !push_text_empty by done. change [text_segment act e] with ([] ++ [text_segment act e]).
    by rewrite push_text_snoc, same_text_text.
  - rewrite !push_text_snoc by done. destruct (same_text act x) as [e'|];
      rewrite push_text_snoc, same_text_text by done; [|done]. by rewrite app_assoc.
Qed.

(** A fold that treats text the same whether it comes joined or not. *)
Lemma foldl_push_segment {S} (f : S → TaggedLineSegment T → S) (st : S) B x :
  (∀ st act, f st (text_segment act []) = st) →
  (∀ st act e d, f (f st (text_segment act e)) (text_segment act d) =
                 f st (text_segment act (e ++ d))) →
  foldl f st (push_segment B x) = f (foldl f st B) x.
Proof.
  intros Hnil Hjoin.
  assert (Htext : ∀ act d, foldl f st (push_segment B (text_segment act d)) =
    f (foldl f st B) (text_segment act d)).
  { intros act d. destruct (decide (d = [])) as [->|Hd]; [by rewrite push_text_nil, Hnil|].
    destruct B as [|y B _] using rev_ind; [by rewrite push_text_empty|].
    rewrite push_text_snoc by done. destruct (same_text act y) as [e|] eqn:Ey.
    - apply same_text_Some in Ey as ->. rewrite !foldl_app; cbn [foldl]. by rewrite Hjoin.
    - by rewrite (foldl_app _ (B ++ [y])). }
  destruct x as [d|t|t d|t].
  - apply (Htext None).
  - cbn [push_segment]. by rewrite foldl_app.
  - apply (Htext (Some t)).
  - cbn [push_segment]. by rewrite foldl_app.
Qed.

Lemma foldl_coalesce_gen {S} (f : S → TaggedLineSegment T → S) (st : S) B :
  (∀ st act, f st (text_segment act []) = st) →
  (∀ st act e d, f (f st (text_segment act e)) (text_segment act d) =
                 f st (text_segment act (e ++ d))) →
  foldl f st (coalesce B) = foldl f st B.
Proof.
  intros Hnil Hjoin. induction B as [|x B IH] using rev_ind; [done|]. unfold coalesce in *.
  rewrite !foldl_app; cbn [foldl]. by rewrite foldl_push_segment, IH.
Qed.

Lemma foldl_coalesce A B : foldl push_segment A (coalesce B) = foldl push_segment A B.
Proof.
  apply foldl_coalesce_gen; [intros; apply push_text_nil|intros; apply text_segment_join].
Qed.

(** Two segment lists that are equal once adjacent text is joined. *)
Definition seg_equiv : relation (list (TaggedLineSegment T)) := λ A B, coalesce A = coalesce B.

#[global] Instance seg_equivalence : Equivalence seg_equiv.
Proof. unfold seg_equiv. split; [by intros A|by intros A B ->|by intros A B C -> ->]. Qed.

#[global] Instance seg_app_proper : Proper (seg_equiv ==> seg_equiv ==> seg_equiv) app.
Proof.
  intros A A' HA B B' HB. unfold seg_equiv, coalesce in *. rewrite !foldl_app, HA.
  rewrite <-(foldl_coalesce _ B), <-(foldl_coalesce _ B'). unfold coalesce. by rewrite HB.
Qed.

Lemma coalesce_equiv A : seg_equiv (coalesce A) A.
Proof. apply foldl_coalesce. Qed.

Lemma text_segment_equiv act e d :
  seg_equiv [text_segment act e; text_segment act d] [text_segment act (e ++ d)].
Proof. unfold seg_equiv, coalesce; cbn [foldl]. apply text_segment_join. Qed.

Lemma text_segment_nil act : seg_equiv [text_segment act []] [].
Proof. unfold seg_equiv, coalesce; cbn [foldl]. apply push_text_nil. Qed.

Lemma seg_equiv_coalesce A B : seg_equiv A B ↔ coalesce A = coalesce B.
Proof. done. Qed.
End coalesce.
#[global] Opaque seg_equiv.

(** ** Trimming *)
Lemma trim_start_app s t : trim_start s ≠ [] → trim_start (s ++ t) = trim_start s ++ t.
Proof. induction s as [|c s IH]; simpl; [done|]. by destruct (is_whitespace c). Qed.

Lemma trim_start_nil_app s t : trim_start s = [] → trim_start (s ++ t) = trim_start t.
Proof. induction s as [|c s IH]; simpl; [done|]. by destruct (is_whitespace c). Qed.

Lemma trim_end_prefix s t : trim_end s `prefix_of` trim_end (s ++ t).
Proof.
  induction s as [|c s IH]; simpl; [apply prefix_nil|].
  destruct (trim_end s) as [|d u] eqn:E.
  - destruct (is_whitespace c); [apply prefix_nil|]. destruct (trim_end (s ++ t)); simpl.
    + done.
    + by apply prefix_cons, prefix_nil.
  - destruct IH as [r ->]. by exists r.
Qed.

Lemma trim_end_ws s w : is_whitespace w = true → trim_end (s ++ [w]) = trim_end s.
Proof.
  intros Hw. induction s as [|c s IH]; simpl; [by rewrite Hw|]. by rewrite IH.
Qed.

Lemma trim_ws s w : is_whitespace w = true → trim (s ++ [w]) = trim s.
Proof.
  intros Hw. unfold trim. destruct (decide (trim_start s = [])) as [Hn|Hn].
  - rewrite trim_start_nil_app, Hn by done. simpl. by rewrite Hw.
  - rewrite trim_start_app by done. by apply trim_end_ws.
Qed.

Lemma trim_without_newline l :
  trim_end (trim_start (default l (strip_suffix [NL] l))) = trim l.
Proof.
  destruct (strip_suffix [NL] l) as [k|] eqn:E; [|done].
  apply strip_suffix_Some in E as ->. symmetry. by apply trim_ws.
Qed.

(** ** Character by character *)
Section emission.
Context {T : Type} `{EqDecision T}.
Implicit Types (p : TaggedLineParser T) (act : option T) (A : list (TaggedLineSegment T)).

(** What one character emits, without joining. *)
Definition finish_emit p : TaggedLineParser T * list (TaggedLineSegment T) :=
  let '(act, seg) := classify (specs p) (active_tag p) (line_buffer p) in
  ({| specs := specs p; active_tag := act; detect_tag := true; line_buffer := [] |}, [seg]).

Definition step p (ch : char) : TaggedLineParser T * list (TaggedLineSegment T) :=
  if detect_tag p then
    let p := set_buffer p (line_buffer p ++ [ch]) in
    if bool_decide (ch = NL) then finish_emit p
    else
      let slug := trim_start (line_buffer p) in
      if bool_decide (slug = []) || is_tag_prefix p slug then (p, [])
      else (set_detect (set_buffer p []) false, [text_segment (active_tag p) (line_buffer p)])
  else
    (if bool_decide (ch = NL) then set_detect p true else p, [text_segment (active_tag p) [ch]]).

Fixpoint steps p (l : str) : TaggedLineParser T * list (TaggedLineSegment T) :=
  match l with
  | [] => (p, [])
  | ch :: l =>
      let '(p, e) := step p ch in let '(p, e') := steps p l in (p, e ++ e')
  end.

Lemma steps_app p a b :
  steps p (a ++ b) = ((steps (steps p a).1 b).1, (steps p a).2 ++ (steps (steps p a).1 b).2).
Proof.
  revert p; induction a as [|c a IH]; intros p; simpl; [by destruct (steps p b)|].
  destruct (step p c) as [p1 e1]. rewrite IH. destruct (steps p1 a) as [p2 e2]; simpl.
  destruct (steps p2 b) as [p3 e3]; simpl. by rewrite app_assoc.
Qed.

Lemma push_text_eq p d A : push_text p d A = push_segment A (text_segment (active_tag p) d).
Proof. unfold push_text. by destruct (active_tag p). Qed.

Lemma finish_line_eq p A :
  finish_line p A = ((finish_emit p).1, foldl push_segment A (finish_emit p).2).
Proof.
  unfold finish_line, finish_emit, classify. cbv zeta. rewrite trim_without_newline, !push_text_eq.
  change (match_open (set_buffer p [])) with (match_open (new (specs p))).
  change (match_close (set_buffer p [])) with (match_close (new (specs p))).
  destruct p as [ss act dt lb]. unfold set_detect, set_active, set_buffer.
  cbn [active_tag specs line_buffer].
  destruct (match_open (new ss) (trim lb)) as [t|], act as [t1|],
    (match_close (new ss) (trim lb)) as [t2|];
    try done; repeat case_bool_decide; simplify_eq; done.
Qed.

(** The loop of [parse] joins what the steps emit. *)
Lemma parse_char_steps l p run A p' run' A' :
  foldl parse_char (p, run, A) l = (p', run', A') →
  p' = (steps p l).1 ∧
  push_text p' run' A' = foldl push_segment (push_text p run A) (steps p l).2.
Proof.
  revert p run A; induction l as [|c l IH]; intros p run A; cbn [foldl steps].
  { by intros [= <- <- <-]. }
  assert (Hc : ∀ p1 run1 A1, parse_char (p, run, A) c = (p1, run1, A1) →
    p1 = (step p c).1 ∧
    push_text p1 run1 A1 = foldl push_segment (push_text p run A) (step p c).2).
  { intros p1 run1 A1. unfold parse_char, step. destruct (detect_tag p).
    - assert (Hflush : (if bool_decide (run = []) then (run, A) else ([], push_text p run A)) =
        ([], push_text p run A)).
      { case_bool_decide; [|done]. subst. by rewrite push_text_eq, push_text_nil. }
      rewrite Hflush. clear Hflush. case_bool_decide.
      + rewrite finish_line_eq. cbv beta iota zeta. intros [= <- <- <-]. split; [done|].
        by rewrite push_text_eq, push_text_nil.
      + case_match; intros [= <- <- <-]; (split; [done|]);
          rewrite !push_text_eq, ?push_text_nil; done.
    - case_bool_decide; intros [= <- <- <-]; (split; [done|]);
        rewrite !push_text_eq, ?push_text_nil; cbn [snd foldl set_detect active_tag];
        by rewrite text_segment_join. }
  destruct (parse_char (p, run, A) c) as [[p1 run1] A1] eqn:E. intros Hl.
  destruct (Hc _ _ _ eq_refl) as [-> Hp]. destruct (step p c) as [p1 e]; cbn [fst snd] in *.
  destruct (IH _ _ _ Hl) as [-> Hp']. destruct (steps p1 l) as [p2 e2]; cbn [fst snd] in *.
  split; [done|]. by rewrite Hp', Hp, foldl_app.
Qed.

Lemma parse_steps p l : parse p l = (coalesce (steps p l).2, (steps p l).1).
Proof.
  unfold parse. destruct (foldl parse_char (p, [], []) l) as [[p' run'] A'] eqn:E.
  destruct (parse_char_steps _ _ _ _ _ _ _ E) as [-> Hp]. f_equal.
  rewrite !push_text_eq, (push_text_nil []) in Hp. unfold coalesce. rewrite <-Hp, push_text_eq.
  case_bool_decide; [|done]. subst. by rewrite push_text_nil.
Qed.
End emission.

(** ** Against the reference *)
Section reference.
Context {T : Type} `{EqDecision T}.
Implicit Types (ss : list (TagSpec T)) (act : option T).
Abbreviation mk := (@Build_TaggedLineParser T).

Lemma classify_not_tag ss act b r :
  trim_start b ≠ [] → is_tag_prefix (new ss) (trim_start b) = false →
  classify ss act (b ++ r) = (act, text_segment act (b ++ r)).
Proof.
  intros Hb Hp.
  assert (Hpre : trim_end (trim_start b) `prefix_of` trim (b ++ r)).
  { unfold trim. rewrite trim_start_app by done. apply trim_end_prefix. }
  assert (Hno : ∀ spec, spec ∈ ss → open spec ≠ trim (b ++ r) ∧ close spec ≠ trim (b ++ r)).
  { intros spec Hin. unfold is_tag_prefix in Hp. rewrite <-not_true_iff_false, existsb_exists in Hp.
    split; intros Heq; apply Hp; exists spec; (split; [by apply list_elem_of_In|]);
      rewrite <-Heq in Hpre; apply starts_with_prefix in Hpre; rewrite Hpre; auto with bool. }
  unfold classify, match_open, match_close. cbn [specs new].
  rewrite (proj2 (list_find_None _ _)) by (apply Forall_forall; naive_solver).
  rewrite (proj2 (list_find_None (λ spec, close spec = _) _)) by (apply Forall_forall; naive_solver).
  by destruct act.
Qed.

Lemma steps_text ss act body :
  NL ∉ body →
  ∃ e, steps (mk ss act false []) body = (mk ss act false [], e) ∧
       seg_equiv e [text_segment act body].
Proof.
  induction body as [|c body IH]; intros Hnl.
  { exists []. split; [done|]. by rewrite text_segment_nil. }
  apply not_elem_of_cons in Hnl as [Hc Hnl]. destruct (IH Hnl) as (e & E & He).
  cbn [steps]. unfold step. cbn [detect_tag active_tag]. rewrite bool_decide_false by done.
  rewrite E. eexists; split; [done|]. rewrite He. apply text_segment_equiv.
Qed.

(** Inside a line: either everything is still buffered, or it was emitted and
    the line cannot be a tag whatever follows. *)
Lemma steps_detect ss act b body :
  NL ∉ body →
  steps (mk ss act true b) body = (mk ss act true (b ++ body), []) ∨
  ∃ e, steps (mk ss act true b) body = (mk ss act false [], e) ∧
       seg_equiv e [text_segment act (b ++ body)] ∧
       ∀ r, classify ss act ((b ++ body) ++ r) = (act, text_segment act ((b ++ body) ++ r)).
Proof.
  revert b; induction body as [|c body IH]; intros b Hnl; [left; by rewrite app_nil_r|].
  apply not_elem_of_cons in Hnl as [Hc Hnl]. cbn [steps]. unfold step. cbn [detect_tag].
  rewrite bool_decide_false by done. unfold set_buffer, set_detect.
  cbn [specs active_tag detect_tag line_buffer].
  replace (b ++ c :: body) with ((b ++ [c]) ++ body) by (by rewrite <-app_assoc).
  destruct (bool_decide _ || _) eqn:E.
  - destruct (IH (b ++ [c]) Hnl) as [->|(e & -> & He & Hcl)]; [by left|right]. eauto.
  - right. apply orb_false_iff in E as [E1 E2]. apply bool_decide_eq_false in E1.
    destruct (steps_text ss act body Hnl) as (e & -> & He). eexists; split_and!; [done| |].
    + rewrite He. apply text_segment_equiv.
    + intros r. rewrite <-app_assoc. by apply classify_not_tag.
Qed.

Lemma steps_line ss act body :
  NL ∉ body →
  ∃ e, steps (mk ss act true []) (body ++ [NL]) =
         (mk ss (classify ss act (body ++ [NL])).1 true [], e) ∧
       seg_equiv e [(classify ss act (body ++ [NL])).2].
Proof.
  intros Hnl. rewrite steps_app.
  destruct (steps_detect ss act [] body Hnl) as [->|(e & -> & He & Hcl)]; cbn [fst snd app].
  - cbn [steps step detect_tag]. unfold finish_emit, set_buffer.
    cbn [step detect_tag specs active_tag line_buffer]. rewrite bool_decide_true by done.
    destruct (classify ss act (body ++ [NL])) as [act' seg]. by eexists.
  - cbn [app] in He, Hcl. rewrite Hcl. cbn [steps step detect_tag fst snd].
    rewrite bool_decide_true by done. unfold set_detect. cbn [specs active_tag line_buffer].
    eexists; split; [done|]. rewrite He. apply text_segment_equiv.
Qed.

Definition unfinished (b : str) : list str := if bool_decide (b = []) then [] else [b].

Lemma tagged_finish_eq (p : TaggedLineParser T) :
  tagged_finish p =
    (coalesce (tagged_lines (specs p) (active_tag p) (unfinished (line_buffer p))), new (specs p)).
Proof.
  destruct p as [ss act dt b]. unfold tagged_finish, unfinished.
  cbn [line_buffer specs active_tag]. case_bool_decide; [by subst; destruct act|].
  rewrite trim_without_newline, !push_text_eq. cbn [tagged_lines]. unfold classify.
  change (match_open (set_buffer _ [])) with (match_open (new ss)).
  change (match_close (set_buffer _ [])) with (match_close (new ss)).
  unfold set_detect, set_active, set_buffer, coalesce. cbn [active_tag specs line_buffer].
  destruct (match_open (new ss) (trim b)) as [t|], act as [t1|],
    (match_close (new ss) (trim b)) as [t2|];
    try done; repeat case_bool_decide; simplify_eq; done.
Qed.

Lemma split_inclusive_line body rest :
  NL ∉ body → split_inclusive (body ++ NL :: rest) = (body ++ [NL]) :: split_inclusive rest.
Proof.
  induction body as [|c body IH]; intros Hnl; [done|].
  apply not_elem_of_cons in Hnl as [Hc Hnl]. cbn [app split_inclusive].
  rewrite bool_decide_false, IH by done. done.
Qed.

Lemma split_inclusive_last body : NL ∉ body → split_inclusive body = unfinished body.
Proof.
  unfold unfinished. induction body as [|c body IH]; intros Hnl; [done|].
  apply not_elem_of_cons in Hnl as [Hc Hnl]. cbn [split_inclusive].
  rewrite bool_decide_false, IH by done. case_bool_decide; by subst.
Qed.

Lemma first_line (s : str) :
  (NL ∉ s) ∨ ∃ body rest, s = body ++ NL :: rest ∧ NL ∉ body.
Proof.
  destruct (decide (NL ∈ s)) as [Hin|]; [right|by left].
  apply list_elem_of_split_l in Hin as (body & rest & -> & ?). eauto.
Qed.

(** The whole text, from the start of a line. *)
Lemma steps_reference ss act text :
  seg_equiv ((steps (mk ss act true []) text).2 ++
             (tagged_finish (steps (mk ss act true []) text).1).1)
    (tagged_lines ss act (split_inclusive text)).
Proof.
  remember (length text) as n eqn:Hn. revert act text Hn.
  induction (lt_wf n) as [n _ IH]; intros act text ->.
  destruct (first_line text) as [Hnl|(body & rest & -> & Hnl)].
  - rewrite split_inclusive_last by done.
    destruct (steps_detect ss act [] text Hnl) as [->|(e & -> & He & Hcl)];
      rewrite tagged_finish_eq; cbn [fst snd specs active_tag line_buffer app] in *;
      rewrite coalesce_equiv; [done|].
    rewrite He. unfold unfinished. rewrite bool_decide_true by done.
    destruct (decide (text = [])) as [->|Ht]; [by rewrite text_segment_nil|].
    rewrite bool_decide_false by done. cbn [tagged_lines]. specialize (Hcl []). rewrite app_nil_r in Hcl. by rewrite Hcl.
  - rewrite split_inclusive_line by done. cbn [tagged_lines].
    replace (body ++ NL :: rest) with ((body ++ [NL]) ++ rest) by (by rewrite <-app_assoc).
    rewrite steps_app. destruct (steps_line ss act body Hnl) as (e & -> & He). cbn [fst snd].
    destruct (classify ss act (body ++ [NL])) as [act' seg]. cbn [fst snd] in *.
    rewrite <-app_assoc, He. change (seg :: tagged_lines ss act' (split_inclusive rest))
      with ([seg] ++ tagged_lines ss act' (split_inclusive rest)).
    f_equiv. eapply IH; [|done]. rewrite length_app; simpl. lia.
Qed.
End reference.

(** Feeding chunks one by one. *)
Fixpoint parse_chunks {T} `{EqDecision T} (p : TaggedLineParser T) (cs : list str)
    : list (TaggedLineSegment T) * TaggedLineParser T :=
  match cs with
  | [] => ([], p)
  | c :: cs =>
      let '(s, p) := parse p c in
      let '(s', p) := parse_chunks p cs in (s ++ s', p)
  end.

Lemma parse_chunks_steps {T} `{EqDecision T} (p : TaggedLineParser T) cs :
  (parse_chunks p cs).2 = (steps p (concat cs)).1 ∧
  seg_equiv (parse_chunks p cs).1 (steps p (concat cs)).2.
Proof.
  revert p; induction cs as [|c cs IH]; intros p; [done|]. cbn [parse_chunks concat].
  rewrite parse_steps, steps_app. specialize (IH (steps p c).1) as [IH1 IH2].
  destruct (parse_chunks (steps p c).1 cs) as [s' p']. cbn [fst snd] in *.
  split; [done|]. by rewrite coalesce_equiv, IH2.
Qed.

(** ** Theorem *)
(** However the text is cut into chunks, the segments that [parse] and
    [finish] emit are, with adjacent text joined, those of the line-by-line
    reference, where a line is a tag exactly when it is a delimiter up to
    surrounding whitespace; and [finish] leaves the parser as new. *)
Theorem parse_reference {T} `{EqDecision T} (ss : list (TagSpec T)) (cs : list str) :
  let '(segments, p) := parse_chunks (new ss) cs in
  coalesce (segments ++ (tagged_finish p).1) =
    coalesce (tagged_lines ss None (split_inclusive (concat cs))) ∧
  (tagged_finish p).2 = new ss.
Proof.
  pose proof (parse_chunks_steps (new ss) cs) as [Hp Hs].
  pose proof (steps_reference ss None (concat cs)) as Href.
  destruct (parse_chunks (new ss) cs) as [segments p]. cbn [fst snd] in *. split.
  - apply seg_equiv_coalesce. by rewrite <-Href, Hs, Hp.
  - rewrite tagged_finish_eq; simpl. f_equal. rewrite Hp. clear.
    enough (∀ l p, specs (steps p l).1 = specs p) as Hsp by apply (Hsp _ (new ss)).
    intros l; induction l as [|c l IH]; intros p; simpl; [done|].
    destruct (step p c) as [p1 e] eqn:E. specialize (IH p1). destruct (steps p1 l); simpl in *.
    rewrite IH. revert E. unfold step, finish_emit. repeat case_match; naive_solver.
Qed.
