(* ===== verification/ProposedPlan.v ===== *)
(** * Proposed plans: [utils/stream-parser/src/proposed_plan.rs]

    [ProposedPlanParser] is [TaggedLineParser] with one tag; it is an instance
    of [ChunkInvariant] up to joining adjacent text.  The batch functions are
    compared with the line-by-line reference of [TaggedLine]. *)
From stdpp Require Import base tactics option list numbers strings.
From S2P Require Import Prelude.
From S2P Require Import RustStr.
From S2P Require Import StreamText.
From S2P Require Import TaggedLine.

(** ** Data *)
Definition OPEN_TAG : str := lit "<proposed_plan>".
Definition CLOSE_TAG : str := lit "</proposed_plan>".

Inductive PlanTag : Type := ProposedPlan.

#[export] Instance PlanTag_eq_dec : EqDecision PlanTag.
Proof. solve_decision. Defined.

Inductive ProposedPlanSegment : Type :=
  | PlanNormal (text : str)
  | ProposedPlanStart
  | ProposedPlanDelta (text : str)
  | ProposedPlanEnd.

#[export] Instance ProposedPlanSegment_eq_dec : EqDecision ProposedPlanSegment.
Proof. solve_decision. Defined.

Record ProposedPlanParser : Type := { parser : TaggedLineParser PlanTag }.

Definition plan_specs : list (TagSpec PlanTag) :=
  [ {| open := OPEN_TAG; close := CLOSE_TAG; tag := ProposedPlan |} ].

Definition plan_new : ProposedPlanParser := {| parser := TaggedLine.new plan_specs |}.

(** [map_segments]. *)
Definition map_segment (segment : TaggedLineSegment PlanTag) : ProposedPlanSegment :=
  match segment with
  | Normal text => PlanNormal text
  | TagStart ProposedPlan => ProposedPlanStart
  | TagDelta ProposedPlan text => ProposedPlanDelta text
  | TagEnd ProposedPlan => ProposedPlanEnd
  end.

Definition map_segments (segments : list (TaggedLineSegment PlanTag))
    : StreamTextChunk ProposedPlanSegment :=
  foldl (λ out segment,
    let mapped := map_segment segment in
    {| visible_text :=
         match mapped with PlanNormal text => visible_text out ++ text | _ => visible_text out end;
       extracted := extracted out ++ [mapped] |}) default_chunk segments.

Definition plan_push_str (p : ProposedPlanParser) (chunk : str)
    : StreamTextChunk ProposedPlanSegment * ProposedPlanParser :=
  let '(segments, q) := parse (parser p) chunk in (map_segments segments, {| parser := q |}).

Definition plan_finish (p : ProposedPlanParser)
    : StreamTextChunk ProposedPlanSegment * ProposedPlanParser :=
  let '(segments, q) := tagged_finish (parser p) in (map_segments segments, {| parser := q |}).

#[export] Instance ProposedPlanParser_parser : StreamTextParser ProposedPlanParser ProposedPlanSegment := {|
  push_str := plan_push_str;
  finish := plan_finish;
|}.

Definition strip_proposed_plan_blocks (text : str) : str :=
  let '(out, p) := push_str plan_new text in
  visible_text out ++ visible_text (finish p).1.

(** The body of the loop of [extract_proposed_plan_text]. *)
Definition extract_segment (st : bool * str) (segment : ProposedPlanSegment) : bool * str :=
  let '(saw_plan_block, plan_text) := st in
  match segment with
  | ProposedPlanStart => (true, [])
  | ProposedPlanDelta delta => (saw_plan_block, plan_text ++ delta)
  | ProposedPlanEnd | PlanNormal _ => (saw_plan_block, plan_text)
  end.

Definition extract_proposed_plan_text (text : str) : option str :=
  let '(out, p) := push_str plan_new text in
  let '(saw_plan_block, plan_text) :=
    foldl extract_segment (false, []) (extracted out ++ extracted (finish p).1) in
  if saw_plan_block then Some plan_text else None.

(** ** The interface *)
Definition normal_text (segments : list (TaggedLineSegment PlanTag)) : str :=
  foldl (λ out segment, match segment with Normal text => out ++ text | _ => out end) [] segments.

Definition unmap (segment : ProposedPlanSegment) : TaggedLineSegment PlanTag :=
  match segment with
  | PlanNormal text => Normal text
  | ProposedPlanStart => TagStart ProposedPlan
  | ProposedPlanDelta text => TagDelta ProposedPlan text
  | ProposedPlanEnd => TagEnd ProposedPlan
  end.

Lemma unmap_map s : unmap (map_segment s) = s.
Proof. by destruct s as [|[]|[]|[]]. Qed.

Lemma map_segments_eq segments :
  map_segments segments =
  {| visible_text := normal_text segments; extracted := map_segment <$> segments |}.
Proof.
  unfold map_segments, normal_text. induction segments as [|s segs IH] using rev_ind; [done|].
  rewrite !foldl_app, IH, fmap_app. cbn [foldl visible_text extracted]. f_equal.
  by destruct s as [|[]|[]|[]].
Qed.

Lemma normal_text_app A B : normal_text (A ++ B) = normal_text A ++ normal_text B.
Proof.
  induction B as [|s B IH] using rev_ind; [by rewrite !app_nil_r|].
  rewrite app_assoc. unfold normal_text in *. rewrite (foldl_app _ (A ++ B)), (foldl_app _ B), IH.
  cbn [foldl]. destruct s; [by rewrite app_assoc|done..].
Qed.

Lemma normal_text_cons x A : normal_text (x :: A) = normal_text [x] ++ normal_text A.
Proof. apply (normal_text_app [x]). Qed.

Lemma normal_text_coalesce A : normal_text (coalesce A) = normal_text A.
Proof.
  apply foldl_coalesce_gen.
  - intros st [t|]; simpl; [done|by rewrite app_nil_r].
  - intros st [t|] e d; simpl; [done|by rewrite app_assoc].
Qed.

Definition plan_equiv : relation (list ProposedPlanSegment) :=
  λ A B, seg_equiv (unmap <$> A) (unmap <$> B).

#[export] Instance plan_equivalence : Equivalence plan_equiv.
Proof. unfold plan_equiv. split; [by intros A|by intros A B ->|by intros A B C -> ->]. Qed.

#[export] Instance plan_app_proper : Proper (plan_equiv ==> plan_equiv ==> plan_equiv) app.
Proof. intros A A' HA B B' HB. unfold plan_equiv in *. by rewrite !fmap_app, HA, HB. Qed.

Lemma unmap_fmap (A : list (TaggedLineSegment PlanTag)) : unmap <$> (map_segment <$> A) = A.
Proof.
  rewrite <-list_fmap_compose. rewrite <-(list_fmap_id A) at 2.
  apply list_fmap_ext. intros i x _. apply unmap_map.
Qed.

Lemma plan_push_str_eq p c :
  plan_push_str p c =
  ({| visible_text := normal_text (steps (parser p) c).2;
      extracted := map_segment <$> coalesce (steps (parser p) c).2 |},
   {| parser := (steps (parser p) c).1 |}).
Proof.
  unfold plan_push_str. rewrite parse_steps, map_segments_eq. by rewrite normal_text_coalesce.
Qed.

#[export] Program Instance plan_chunk_invariant :
  ChunkInvariant ProposedPlanParser ProposedPlanSegment := {|
  valid := λ _, True;
  payload_equiv := plan_equiv;
|}.
Next Obligation. done. Qed.
Next Obligation. intros [q] _. done. Qed.
Next Obligation.
  intros p a b _. cbn [push_str ProposedPlanParser_parser].
  by rewrite !plan_push_str_eq; cbn [snd parser]; rewrite steps_app.
Qed.
Next Obligation.
  intros p a b _. cbn [push_str ProposedPlanParser_parser].
  rewrite !plan_push_str_eq; cbn [fst snd parser visible_text]. rewrite steps_app. cbn [snd]. by rewrite normal_text_app.
Qed.
Next Obligation.
  intros p a b _. cbn [push_str ProposedPlanParser_parser].
  rewrite !plan_push_str_eq; cbn [fst snd parser extracted]. unfold plan_equiv.
  by rewrite fmap_app, !unmap_fmap, !coalesce_equiv, steps_app.
Qed.

(** ** Batch functions *)
Abbreviation plan_lines text := (tagged_lines plan_specs None (split_inclusive text)).

Definition extract_tagged (st : bool * str) (segment : TaggedLineSegment PlanTag) : bool * str :=
  extract_segment st (map_segment segment).

Lemma plan_collect text :
  seg_equiv ((steps (TaggedLine.new plan_specs) text).2 ++
    (tagged_finish (steps (TaggedLine.new plan_specs) text).1).1) (plan_lines text).
Proof. apply steps_reference. Qed.

Lemma foldl_extract_fmap st A :
  foldl extract_segment st (map_segment <$> A) = foldl extract_tagged st A.
Proof. revert st; induction A as [|x A IH]; intros st; [done|]. apply IH. Qed.

Lemma extract_equiv st A B :
  seg_equiv A B → foldl extract_tagged st A = foldl extract_tagged st B.
Proof.
  intros Heq%seg_equiv_coalesce.
  assert (Hc : ∀ C, foldl extract_tagged st (coalesce C) = foldl extract_tagged st C).
  { intros C. apply foldl_coalesce_gen.
    - intros [b s] [[]|]; cbn; by rewrite ?app_nil_r.
    - intros [b s] [[]|] e d; cbn; by rewrite ?app_assoc. }
  by rewrite <-Hc, Heq, Hc.
Qed.

Lemma normal_text_equiv A B : seg_equiv A B → normal_text A = normal_text B.
Proof.
  intros Heq%seg_equiv_coalesce. by rewrite <-normal_text_coalesce, Heq, normal_text_coalesce.
Qed.

Lemma strip_reference text : strip_proposed_plan_blocks text = normal_text (plan_lines text).
Proof.
  unfold strip_proposed_plan_blocks. cbn [push_str finish ProposedPlanParser_parser].
  rewrite plan_push_str_eq. unfold plan_finish. cbn [parser plan_new visible_text].
  destruct (tagged_finish _) as [segs q] eqn:E. rewrite map_segments_eq. cbn [fst visible_text].
  rewrite <-normal_text_app. apply normal_text_equiv. rewrite <-plan_collect. by rewrite E.
Qed.

Lemma extract_reference text :
  extract_proposed_plan_text text =
    let '(saw, plan) := foldl extract_tagged (false, []) (plan_lines text) in
    if saw then Some plan else None.
Proof.
  unfold extract_proposed_plan_text. cbn [push_str finish ProposedPlanParser_parser].
  rewrite plan_push_str_eq. unfold plan_finish. cbn [parser plan_new extracted].
  destruct (tagged_finish _) as [segs q] eqn:E. rewrite map_segments_eq. cbn [fst extracted].
  rewrite <-fmap_app, foldl_extract_fmap.
  erewrite extract_equiv; [done|]. rewrite coalesce_equiv, <-plan_collect. by rewrite E.
Qed.

(** ** Round trip *)
Definition terminated (ls : list str) : str := concat ((λ l, l ++ [NL]) <$> ls).

(** A line that is not one of the tags. *)
Definition plan_line (l : str) : Prop := (NL ∉ l) ∧ trim l ≠ OPEN_TAG ∧ trim l ≠ CLOSE_TAG.

Lemma classify_plan_line act l :
  plan_line l → classify plan_specs act (l ++ [NL]) = (act, text_segment act (l ++ [NL])).
Proof.
  intros (_ & Ho & Hc). unfold classify, match_open, match_close.
  rewrite trim_ws by done. cbn [specs TaggedLine.new plan_specs list_find open close].
  rewrite !decide_False by congruence. by destruct act.
Qed.

Lemma tagged_lines_text act ls rest :
  Forall plan_line ls →
  tagged_lines plan_specs act (split_inclusive (terminated ls ++ rest)) =
  ((λ l, text_segment act (l ++ [NL])) <$> ls) ++ tagged_lines plan_specs act (split_inclusive rest).
Proof.
  induction 1 as [|l ls Hl _ IH]; [done|]. unfold terminated in *.
  rewrite fmap_cons; cbn [concat]. rewrite <-!app_assoc.
  change ([NL] ++ concat ((λ l, l ++ [NL]) <$> ls) ++ rest)
    with (NL :: (concat ((λ l, l ++ [NL]) <$> ls) ++ rest)).
  rewrite split_inclusive_line by apply Hl. cbn [tagged_lines].
  rewrite classify_plan_line by done. by rewrite IH.
Qed.

Definition plan_document (pre plan post : list str) : str :=
  terminated pre ++ OPEN_TAG ++ NL :: (terminated plan ++ CLOSE_TAG ++ NL :: terminated post).

Lemma plan_lines_document pre plan post :
  Forall plan_line pre → Forall plan_line plan → Forall plan_line post →
  plan_lines (plan_document pre plan post) =
    ((λ l, Normal (l ++ [NL])) <$> pre) ++ TagStart ProposedPlan ::
    (((λ l, TagDelta ProposedPlan (l ++ [NL])) <$> plan) ++ TagEnd ProposedPlan ::
    ((λ l, Normal (l ++ [NL])) <$> post)).
Proof.
  intros Hpre Hplan Hpost. unfold plan_document. rewrite tagged_lines_text by done.
  f_equal. rewrite split_inclusive_line by (by apply (bool_decide_unpack _); vm_compute).
  cbn [tagged_lines].
  replace (classify plan_specs None (OPEN_TAG ++ [NL]))
    with (Some ProposedPlan, TagStart ProposedPlan) by (by vm_compute).
  f_equal. rewrite tagged_lines_text by done. f_equal.
  rewrite split_inclusive_line by (by apply (bool_decide_unpack _); vm_compute).
  cbn [tagged_lines].
  replace (classify plan_specs (Some ProposedPlan) (CLOSE_TAG ++ [NL]))
    with (@None PlanTag, TagEnd ProposedPlan) by (by vm_compute).
  f_equal. rewrite <-(app_nil_r (terminated post)), tagged_lines_text by done.
  by rewrite app_nil_r.
Qed.

Lemma normal_text_lines act ls :
  normal_text ((λ l, text_segment act (l ++ [NL])) <$> ls) =
  match act with None => terminated ls | Some _ => [] end.
Proof.
  unfold terminated. induction ls as [|l ls IH]; [by destruct act|]. rewrite !fmap_cons.
  rewrite normal_text_cons, IH. by destruct act.
Qed.

Lemma foldl_extract_normal st ls :
  foldl extract_tagged st ((λ l, Normal (l ++ [NL])) <$> ls) = st.
Proof. destruct st as [saw plan]. induction ls as [|l ls IH]; [done|]. apply IH. Qed.

Lemma foldl_extract_delta saw plan ls :
  foldl extract_tagged (saw, plan) ((λ l, TagDelta ProposedPlan (l ++ [NL])) <$> ls) =
  (saw, plan ++ terminated ls).
Proof.
  revert plan; induction ls as [|l ls IH]; intros plan; simpl; [by rewrite app_nil_r|].
  rewrite IH. by rewrite <-app_assoc.
Qed.

(** ** Theorems *)
(** The batch functions agree with the line-by-line reference on every
    text: the stripped text is the lines outside plan blocks, and the extracted
    plan is the text of the last plan block. *)
Theorem plan_batch_reference text :
  strip_proposed_plan_blocks text = normal_text (plan_lines text) ∧
  extract_proposed_plan_text text =
    let '(saw, plan) := foldl extract_tagged (false, []) (plan_lines text) in
    if saw then Some plan else None.
Proof. split; [apply strip_reference|apply extract_reference]. Qed.

(** Round trip: on a document with one plan block between its tag lines,
    stripping keeps exactly the lines around the block and extracting returns
    exactly the lines inside. *)
Theorem plan_document_roundtrip pre plan post :
  Forall plan_line pre → Forall plan_line plan → Forall plan_line post →
  strip_proposed_plan_blocks (plan_document pre plan post) = terminated pre ++ terminated post ∧
  extract_proposed_plan_text (plan_document pre plan post) = Some (terminated plan).
Proof.
  intros Hpre Hplan Hpost. rewrite strip_reference, extract_reference, plan_lines_document by done.
  split.
  - rewrite normal_text_app, normal_text_cons, normal_text_app, (normal_text_cons (TagEnd _)).
    pose proof (normal_text_lines None pre) as Hn1. pose proof (normal_text_lines None post) as Hn2.
    pose proof (normal_text_lines (Some ProposedPlan) plan) as Hn3.
    cbn [text_segment] in Hn1, Hn2, Hn3. by rewrite Hn1, Hn2, Hn3.
  - rewrite foldl_app, foldl_extract_normal. cbn [foldl].
    change (extract_tagged (false, []) (TagStart ProposedPlan)) with (true, @nil char).
    rewrite foldl_app, foldl_extract_delta. cbn [foldl].
    change (extract_tagged (true, [] ++ terminated plan) (TagEnd ProposedPlan))
      with (true, terminated plan).
    by rewrite foldl_extract_normal.
Qed.

Lemma plan_document_roundtrip_witness :
  let pre := [lit "Intro"] in let plan := [lit "- step 1"; lit "<proposed_plan> extra"] in
  let post := [lit "Outro"] in
  strip_proposed_plan_blocks (plan_document pre plan post) = terminated pre ++ terminated post ∧
  extract_proposed_plan_text (plan_document pre plan post) = Some (terminated plan).
Proof.
  cbv zeta. apply (plan_document_roundtrip [lit "Intro"] [lit "- step 1"; lit "<proposed_plan> extra"]
    [lit "Outro"]); apply (bool_decide_unpack _); by vm_compute.
Defined.
