(* ===== verification/AssistantText.v ===== *)
(** * Assistant text: [utils/stream-parser/src/assistant_text.rs]

    Citations are stripped first; in plan mode the visible text that is left
    goes through the plan parser.  The theorem: the stream gives what the two
    batch functions give on the whole text.  It is proved against
    [ChunkInvariant], the interface of the two parsers. *)
From stdpp Require Import base tactics option list numbers strings.
From S2P Require Import Prelude.
From S2P Require Import RustStr.
From S2P Require Import StreamText.
From S2P Require Import TaggedLine.
From S2P Require Import Citation.
From S2P Require Import ProposedPlan.

(** ** Data and operations *)
Record AssistantTextChunk : Type := {
  asst_visible_text : str;
  asst_citations : list str;
  plan_segments : list ProposedPlanSegment;
}.

Definition default_asst_chunk : AssistantTextChunk :=
  {| asst_visible_text := []; asst_citations := []; plan_segments := [] |}.

Definition asst_is_empty (c : AssistantTextChunk) : bool :=
  match asst_visible_text c, asst_citations c, plan_segments c with
  | [], [], [] => true
  | _, _, _ => false
  end.

Record AssistantTextStreamParser : Type := {
  plan_mode : bool;
  citations : CitationStreamParser;
  plan : ProposedPlanParser;
}.

Definition assistant_new (plan_mode : bool) : outcome Empty_set AssistantTextStreamParser :=
  citations ← citation_new;
  Ok {| plan_mode := plan_mode; citations := citations; plan := plan_new |}.

Definition parse_visible_text (p : AssistantTextStreamParser) (visible : str)
    : AssistantTextChunk * AssistantTextStreamParser :=
  if plan_mode p then
    let '(plan_chunk, q) := push_str (plan p) visible in
    ({| asst_visible_text := visible_text plan_chunk; asst_citations := [];
        plan_segments := extracted plan_chunk |},
     {| plan_mode := plan_mode p; citations := citations p; plan := q |})
  else
    ({| asst_visible_text := visible; asst_citations := []; plan_segments := [] |}, p).

Definition set_citations (p : AssistantTextStreamParser) (c : CitationStreamParser) :=
  {| plan_mode := plan_mode p; citations := c; plan := plan p |}.

Definition assistant_push_str (p : AssistantTextStreamParser) (chunk : str)
    : AssistantTextChunk * AssistantTextStreamParser :=
  let '(citation_chunk, c) := push_str (citations p) chunk in
  let '(out, p) := parse_visible_text (set_citations p c) (visible_text citation_chunk) in
  ({| asst_visible_text := asst_visible_text out; asst_citations := extracted citation_chunk;
      plan_segments := plan_segments out |}, p).

Definition assistant_finish (p : AssistantTextStreamParser)
    : AssistantTextChunk * AssistantTextStreamParser :=
  let '(citation_chunk, c) := finish (citations p) in
  let '(out, p) := parse_visible_text (set_citations p c) (visible_text citation_chunk) in
  let '(out, p) :=
    if plan_mode p then
      let '(tail, q) := finish (plan p) in
      (if is_empty tail then out
       else {| asst_visible_text := asst_visible_text out ++ visible_text tail;
               asst_citations := asst_citations out;
               plan_segments := plan_segments out ++ extracted tail |},
       {| plan_mode := plan_mode p; citations := citations p; plan := q |})
    else (out, p) in
  ({| asst_visible_text := asst_visible_text out; asst_citations := extracted citation_chunk;
      plan_segments := plan_segments out |}, p).

(** ** Streams *)
Definition app_asst (c d : AssistantTextChunk) : AssistantTextChunk :=
  {| asst_visible_text := asst_visible_text c ++ asst_visible_text d;
     asst_citations := asst_citations c ++ asst_citations d;
     plan_segments := plan_segments c ++ plan_segments d |}.

Fixpoint assistant_push_chunks (p : AssistantTextStreamParser) (cs : list str)
    : AssistantTextChunk * AssistantTextStreamParser :=
  match cs with
  | [] => (default_asst_chunk, p)
  | c :: cs =>
      let '(o, p) := assistant_push_str p c in
      let '(o', p) := assistant_push_chunks p cs in
      (app_asst o o', p)
  end.

(** The output of a whole stream. *)
Definition assistant_stream (p : AssistantTextStreamParser) (cs : list str) : AssistantTextChunk :=
  let '(o, p) := assistant_push_chunks p cs in app_asst o (assistant_finish p).1.

(** Equal up to joining adjacent text of the plan segments. *)
Definition asst_equiv (c d : AssistantTextChunk) : Prop :=
  asst_visible_text c = asst_visible_text d ∧ asst_citations c = asst_citations d ∧
  plan_equiv (plan_segments c) (plan_segments d).

#[export] Instance asst_equivalence : Equivalence asst_equiv.
Proof.
  split.
  - intros c. by split_and!.
  - intros c d (Hv & Hc & Hp). by split_and!.
  - intros c d e (Hv & Hc & Hp) (Hv' & Hc' & Hp'). split_and!; [congruence..|]. by etrans.
Qed.

#[export] Instance app_asst_proper : Proper (asst_equiv ==> asst_equiv ==> asst_equiv) app_asst.
Proof.
  intros c c' (Hv & Hc & Hp) d d' (Hv' & Hc' & Hp').
  split_and!; simpl; [by rewrite Hv, Hv'|by rewrite Hc, Hc'|]. by apply plan_app_proper.
Qed.

Lemma app_asst_assoc c d e : app_asst (app_asst c d) e = app_asst c (app_asst d e).
Proof. unfold app_asst; simpl. by rewrite <-!app_assoc. Qed.

(** [parse_visible_text] on a text in two parts. *)
Lemma parse_visible_app p a b :
  let '(o1, p1) := parse_visible_text p a in
  let '(o2, p2) := parse_visible_text p1 b in
  let '(o, p') := parse_visible_text p (a ++ b) in
  asst_equiv o (app_asst o1 o2) ∧ p' = p2.
Proof.
  unfold parse_visible_text. destruct p as [[] c q]; cbn [plan_mode citations plan]; [|done].
  pose proof (push_app_state q a b I) as Hst. pose proof (push_app_visible q a b I) as Hvis.
  pose proof (push_app_extracted q a b I) as Hext.
  destruct (push_str q a) as [o1 q1]; cbn [fst snd plan_mode plan citations] in *.
  destruct (push_str q1 b) as [o2 q2]; cbn [fst snd] in *.
  destruct (push_str q (a ++ b)) as [o q']; cbn [fst snd] in *. subst q'.
  split; [|done]. by split_and!.
Qed.

Lemma parse_visible_citations p v :
  citations (parse_visible_text p v).2 = citations p ∧
  plan_mode (parse_visible_text p v).2 = plan_mode p ∧
  asst_citations (parse_visible_text p v).1 = [] ∧
  ∀ c, parse_visible_text (set_citations p c) v =
    ((parse_visible_text p v).1, set_citations (parse_visible_text p v).2 c).
Proof.
  unfold parse_visible_text. destruct p as [[] c q]; cbn [plan_mode citations plan set_citations].
  - by destruct (push_str q v).
  - done.
Qed.

Definition assistant_valid (p : AssistantTextStreamParser) : Prop := citation_valid (citations p).

Lemma assistant_push_app p a b :
  assistant_valid p →
  let '(o1, p1) := assistant_push_str p a in
  let '(o2, p2) := assistant_push_str p1 b in
  let '(o, p') := assistant_push_str p (a ++ b) in
  asst_equiv o (app_asst o1 o2) ∧ p' = p2 ∧ assistant_valid p1.
Proof.
  intros Hv. unfold assistant_push_str. cbn [push_str CitationStreamParser_parser].
  destruct (citation_push_app (citations p) a b Hv) as (c1 & c2 & q1 & q2 & E1 & E2 & E).
  pose proof (push_valid (citations p) a Hv) as Hv1.
  cbn [push_str CitationStreamParser_parser valid citation_chunk_invariant] in Hv1.
  rewrite E1 in Hv1 |- *. rewrite E. cbn [snd] in Hv1.
  pose proof (parse_visible_app p (visible_text c1) (visible_text c2)) as Happ.
  destruct (parse_visible_citations p (visible_text c1)) as (_ & _ & _ & H1).
  destruct (parse_visible_citations p (visible_text c1 ++ visible_text c2)) as (_ & _ & _ & H12).
  rewrite H1. destruct (parse_visible_text p (visible_text c1)) as [o1 p1]. cbn [fst snd] in *.
  cbn [citations set_citations]. rewrite E2.
  destruct (parse_visible_citations p1 (visible_text c2)) as (_ & _ & _ & H2).
  change (set_citations (set_citations p1 q1) q2) with (set_citations p1 q2). rewrite H2.
  destruct (parse_visible_text p1 (visible_text c2)) as [o2 p2]. cbn [fst snd] in *.
  cbn [visible_text app_chunk extracted]. rewrite H12.
  destruct (parse_visible_text p (visible_text c1 ++ visible_text c2)) as [o p'].
  destruct Happ as [(Hv2 & Hc & Hp) ->]. cbn [fst snd]. split_and!; [|done|exact Hv1].
  by split_and!.
Qed.

Lemma assistant_push_nil p :
  assistant_valid p → assistant_push_str p [] = (default_asst_chunk, p).
Proof.
  intros Hv. unfold assistant_push_str.
  pose proof (push_nil (citations p) Hv) as ->. unfold parse_visible_text.
  destruct p as [[] c q]; cbn [plan_mode citations plan set_citations visible_text default_chunk].
  - by pose proof (push_nil q I) as ->.
  - done.
Qed.

Lemma assistant_chunks_concat p cs :
  assistant_valid p →
  (assistant_push_chunks p cs).2 = (assistant_push_str p (concat cs)).2 ∧
  asst_equiv (assistant_push_chunks p cs).1 (assistant_push_str p (concat cs)).1.
Proof.
  revert p; induction cs as [|c cs IH]; intros p Hv; cbn [assistant_push_chunks concat].
  { by rewrite assistant_push_nil. }
  pose proof (assistant_push_app p c (concat cs) Hv) as Happ.
  destruct (assistant_push_str p c) as [o1 p1].
  destruct (assistant_push_str p1 (concat cs)) as [o2 p2] eqn:E2.
  destruct (assistant_push_str p (c ++ concat cs)) as [o p'].
  destruct Happ as (Ho & -> & Hv1). destruct (IH p1 Hv1) as [Hs He]. rewrite E2 in Hs, He.
  destruct (assistant_push_chunks p1 cs) as [o' p'']. cbn [fst snd] in *.
  split; [done|]. by rewrite Ho, He.
Qed.

(** ** The whole stream *)
(** Visible text in plan mode, then the end of the stream. *)
Lemma plan_stream v :
  let '(o, q) := push_str plan_new v in
  let '(tail, _) := finish q in
  visible_text o ++ visible_text tail = strip_proposed_plan_blocks v ∧
  plan_equiv (extracted o ++ extracted tail)
    (map_segment <$> tagged_lines plan_specs None (split_inclusive v)).
Proof.
  unfold strip_proposed_plan_blocks. cbn [push_str finish ProposedPlanParser_parser].
  rewrite plan_push_str_eq. unfold plan_finish. cbn [parser plan_new].
  pose proof (plan_collect v) as Hc. destruct (tagged_finish _) as [segs q].
  rewrite map_segments_eq. cbn [fst snd visible_text extracted] in *. split; [done|].
  unfold plan_equiv. by rewrite <-fmap_app, !unmap_fmap, coalesce_equiv.
Qed.

#[local] Opaque plan_equiv.

Lemma is_empty_default {T} (c : StreamTextChunk T) : is_empty c = true → c = default_chunk.
Proof. by destruct c as [[] []]. Qed.

(** [finish] after [parse_visible_text] has seen [v]. *)
Lemma assistant_finish_after p0 v o p :
  plan p0 = plan_new → parse_visible_text p0 v = (o, p) →
  ∃ tail, (finish (citations p)).1 = tail ∧
  asst_equiv (app_asst o (assistant_finish p).1)
    {| asst_visible_text :=
         if plan_mode p0 then strip_proposed_plan_blocks (v ++ visible_text tail)
         else v ++ visible_text tail;
       asst_citations := extracted tail;
       plan_segments :=
         if plan_mode p0
         then map_segment <$> tagged_lines plan_specs None (split_inclusive (v ++ visible_text tail))
         else [] |}.
Proof.
  intros Hplan Hv. eexists; split; [done|]. unfold assistant_finish.
  destruct (finish (citations p)) as [tail c] eqn:Ef. cbn [fst].
  pose proof (parse_visible_app p0 v (visible_text tail)) as Happ. rewrite Hv in Happ.
  destruct (parse_visible_citations p0 v) as (_ & Hm & Hnoc & _).
  rewrite Hv in Hm, Hnoc. cbn [fst snd] in Hm, Hnoc.
  destruct (parse_visible_citations p (visible_text tail)) as (_ & Hm' & Hnoc' & ->).
  destruct (parse_visible_text p (visible_text tail)) as [o2 p2]. cbn [fst snd] in *.
  pose proof (plan_stream (v ++ visible_text tail)) as Hst.
  unfold parse_visible_text in Happ. cbn [plan_mode set_citations plan] in *.
  rewrite Hm', Hm. destruct (plan_mode p0).
  - rewrite Hplan in Happ.
    destruct (push_str plan_new (v ++ visible_text tail)) as [o3 q3].
    destruct Happ as [(Hv1 & Hc1 & Hp1) <-]. cbn [plan].
    destruct (finish q3) as [t4 q4]. destruct Hst as [<- Hst].
    cbn [asst_visible_text plan_segments asst_citations app_asst] in *.
    destruct (is_empty t4) eqn:Ee.
    + apply is_empty_default in Ee as ->.
      split_and!; cbn [app_asst asst_visible_text asst_citations plan_segments visible_text
        extracted default_chunk]; rewrite ?app_nil_r, ?Hv1, ?Hnoc; [done|done|].
      rewrite <-Hst, Hp1. by rewrite app_nil_r.
    + split_and!; cbn [app_asst asst_visible_text asst_citations plan_segments].
      * by rewrite Hv1, <-app_assoc.
      * by rewrite Hnoc.
      * by rewrite <-Hst, Hp1, <-app_assoc.
  - destruct Happ as [(Hv1 & Hc1 & Hp1) <-].
    cbn [asst_visible_text plan_segments asst_citations app_asst] in *.
    split_and!; cbn [app_asst asst_visible_text asst_citations plan_segments];
      [done|by rewrite Hnoc|done].
Qed.

(** ** Theorem *)
(** C7: whatever the chunks, the stream of assistant text gives what the batch
    functions give on the whole text: its citations are those of
    [strip_citations], its visible text is what [strip_citations] leaves, in
    plan mode with the plan blocks stripped, and the plan segments are, with
    adjacent text joined, those of the lines of that text. *)
Theorem assistant_stream_batch (plan_mode : bool) (cs : list str) :
  ∃ p v cites, assistant_new plan_mode = Ok p ∧ strip_citations (concat cs) = Ok (v, cites) ∧
    asst_equiv (assistant_stream p cs)
      {| asst_visible_text := if plan_mode then strip_proposed_plan_blocks v else v;
         asst_citations := cites;
         plan_segments :=
           if plan_mode
           then map_segment <$> tagged_lines plan_specs None (split_inclusive v) else [] |}.
Proof.
  destruct citation_new as [c| | |] eqn:Ec; try discriminate.
  pose proof (citation_new_valid _ Ec) as Hvc.
  unfold assistant_new, strip_citations. rewrite Ec. cbn [mbind outcome_bind].
  destruct (push_str c (concat cs)) as [out c1] eqn:E1.
  destruct (finish c1) as [tail c2] eqn:E2.
  set (p := {| plan_mode := plan_mode; citations := c; plan := plan_new |}).
  eexists p, _, _. split_and!; [done|done|].
  destruct (assistant_chunks_concat p cs Hvc) as [Hs He]. unfold assistant_stream.
  destruct (assistant_push_chunks p cs) as [o p1]. cbn [fst snd] in *. rewrite He, Hs.
  unfold assistant_push_str. cbn [citations p]. rewrite E1.
  destruct (parse_visible_text (set_citations p c1) (visible_text out)) as [o3 p3] eqn:E3.
  cbn [fst snd]. destruct (parse_visible_citations (set_citations p c1) (visible_text out))
    as (Hcit & _ & Hno & _). rewrite E3 in Hcit, Hno. cbn [fst snd citations set_citations] in *.
  destruct (assistant_finish_after (set_citations p c1) _ _ _ eq_refl E3) as (t & Ht & Hv & Hc & Hp).
  rewrite Hcit, E2 in Ht. cbn [fst] in Ht. subst t.
  cbn [app_asst asst_visible_text asst_citations plan_segments] in *.
  split_and!; cbn [app_asst asst_visible_text asst_citations plan_segments]; [done| |done].
  rewrite Hno in Hc. by rewrite <-Hc.
Qed.
