(* ===== verification/Utf8Stream.v ===== *)
(** * Bytes to text: [utils/stream-parser/src/utf8_stream.rs]

    [Utf8StreamParser] decodes a byte stream for any [StreamTextParser] and
    keeps the bytes of a code point that is cut by a chunk boundary.
    [std::str::from_utf8] is modelled with the error it reports
    ([valid_up_to], [error_len]), on bytes [< 256] and code points as [N]. *)
From stdpp Require Import base tactics option list numbers strings.
From S2P Require Import Prelude.
From S2P Require Import RustStr.
From S2P Require Import StreamText.
From S2P Require Import InlineHiddenTag.
From S2P Require Import Citation.

Local Open Scope N_scope.
Abbreviation byte := N.

(** ** UTF-8 in the standard library *)
(** The values of [char]. *)
Definition is_scalar (c : char) : bool := (c <? 0xD800) || ((0xE000 <=? c) && (c <? 0x110000)).

Definition encode_char (c : char) : list byte :=
  if c <? 0x80 then [c]
  else if c <? 0x800 then [0xC0 + c / 64; 0x80 + c mod 64]
  else if c <? 0x10000 then [0xE0 + c / 4096; 0x80 + (c / 64) mod 64; 0x80 + c mod 64]
  else [0xF0 + c / 262144; 0x80 + (c / 4096) mod 64; 0x80 + (c / 64) mod 64; 0x80 + c mod 64].

Definition encode (s : str) : list byte := s ≫= encode_char.

Definition is_cont (b : byte) : bool := (0x80 <=? b) && (b <=? 0xBF).

(** Which second bytes a three-byte and a four-byte sequence allow. *)
Definition second3 (b0 b1 : byte) : bool :=
  if b0 =? 0xE0 then (0xA0 <=? b1) && (b1 <=? 0xBF)
  else if b0 =? 0xED then (0x80 <=? b1) && (b1 <=? 0x9F)
  else is_cont b1.

Definition second4 (b0 b1 : byte) : bool :=
  if b0 =? 0xF0 then (0x90 <=? b1) && (b1 <=? 0xBF)
  else if b0 =? 0xF4 then (0x80 <=? b1) && (b1 <=? 0x8F)
  else is_cont b1.

(** One code point: decoded, cut off by the end of the input, or invalid with
    the length of the invalid sequence. *)
Inductive decoded : Type :=
  | Done (c : char) (rest : list byte)
  | Incomplete
  | Invalid (error_len : nat).

Definition decode_char (bs : list byte) : decoded :=
  match bs with
  | [] => Incomplete
  | b0 :: r0 =>
      if b0 <? 0x80 then Done b0 r0
      else if (0xC2 <=? b0) && (b0 <=? 0xDF) then
        match r0 with
        | [] => Incomplete
        | b1 :: r1 =>
            if is_cont b1 then Done ((b0 - 0xC0) * 64 + (b1 - 0x80)) r1 else Invalid 1
        end
      else if (0xE0 <=? b0) && (b0 <=? 0xEF) then
        match r0 with
        | [] => Incomplete
        | b1 :: r1 =>
            if second3 b0 b1 then
              match r1 with
              | [] => Incomplete
              | b2 :: r2 =>
                  if is_cont b2
                  then Done ((b0 - 0xE0) * 4096 + (b1 - 0x80) * 64 + (b2 - 0x80)) r2
                  else Invalid 2
              end
            else Invalid 1
        end
      else if (0xF0 <=? b0) && (b0 <=? 0xF4) then
        match r0 with
        | [] => Incomplete
        | b1 :: r1 =>
            if second4 b0 b1 then
              match r1 with
              | [] => Incomplete
              | b2 :: r2 =>
                  if is_cont b2 then
                    match r2 with
                    | [] => Incomplete
                    | b3 :: r3 =>
                        if is_cont b3
                        then Done ((b0 - 0xF0) * 262144 + (b1 - 0x80) * 4096 +
                                   (b2 - 0x80) * 64 + (b3 - 0x80)) r3
                        else Invalid 3
                    end
                  else Invalid 2
              end
            else Invalid 1
        end
      else Invalid 1
  end.

(** [Utf8Error]. *)
Record Utf8Error : Type := { valid_up_to : nat; error_len : option nat }.

(** Each code point takes a byte at least, so the length is enough fuel. *)
Fixpoint decode_loop (fuel : nat) (bs : list byte) (pos : nat) (acc : str)
    : outcome Utf8Error str :=
  match bs with
  | [] => Ok acc
  | _ =>
      match fuel with
      | O => NoFuel
      | S fuel' =>
          match decode_char bs with
          | Done c rest => decode_loop fuel' rest (pos + (length bs - length rest))%nat (acc ++ [c])
          | Incomplete => Err {| valid_up_to := pos; error_len := None |}
          | Invalid n => Err {| valid_up_to := pos; error_len := Some n |}
          end
      end
  end.

Definition from_utf8 (bs : list byte) : outcome Utf8Error str := decode_loop (length bs) bs 0 [].

(** ** The stream parser *)
Inductive Utf8StreamParserError : Type :=
  | InvalidUtf8 (valid_up_to error_len : nat)
  | IncompleteUtf8AtEof.

Record Utf8StreamParser (P : Type) : Type := { inner : P; pending_utf8 : list byte }.
Arguments inner {P} _.
Arguments pending_utf8 {P} _.
Arguments Build_Utf8StreamParser {P} _ _.

Section stream.
Context {P T : Type} `{StreamTextParser P T}.
Implicit Types (p : Utf8StreamParser P).

Definition utf8_new (inner : P) : Utf8StreamParser P := {| inner := inner; pending_utf8 := [] |}.

(** [push_bytes]: the result and the parser afterwards, on every path. *)
Definition push_bytes p (chunk : list byte)
    : outcome Utf8StreamParserError (StreamTextChunk T) * Utf8StreamParser P :=
  let old_len := length (pending_utf8 p) in
  let pending := pending_utf8 p ++ chunk in
  let rollback := {| inner := inner p; pending_utf8 := take old_len pending |} in
  match from_utf8 pending with
  | Ok text =>
      let '(out, i) := push_str (inner p) text in
      (Ok out, {| inner := i; pending_utf8 := [] |})
  | Err err =>
      match error_len err with
      | Some error_len => (Err (InvalidUtf8 (valid_up_to err) error_len), rollback)
      | None =>
          if (valid_up_to err =? 0)%nat
          then (Ok default_chunk, {| inner := inner p; pending_utf8 := pending |})
          else
            match from_utf8 (take (valid_up_to err) pending) with
            | Ok text =>
                let '(out, i) := push_str (inner p) text in
                (Ok out, {| inner := i; pending_utf8 := drop (valid_up_to err) pending |})
            | Err prefix_err =>
                (Err (InvalidUtf8 (valid_up_to prefix_err)
                  (default 0%nat (error_len prefix_err))), rollback)
            | Panic => (Panic, p)
            | NoFuel => (NoFuel, p)
            end
      end
  | Panic => (Panic, p)
  | NoFuel => (NoFuel, p)
  end.

(** The check [finish] and [into_inner] make of the buffered bytes. *)
Definition check_pending p : outcome Utf8StreamParserError unit :=
  match from_utf8 (pending_utf8 p) with
  | Ok _ => Ok tt
  | Err err =>
      match error_len err with
      | Some error_len => Err (InvalidUtf8 (valid_up_to err) error_len)
      | None => Err IncompleteUtf8AtEof
      end
  | Panic => Panic
  | NoFuel => NoFuel
  end.

Definition utf8_finish p
    : outcome Utf8StreamParserError (StreamTextChunk T) * Utf8StreamParser P :=
  match pending_utf8 p with
  | [] =>
      let '(tail, i) := finish (inner p) in
      (Ok (default_chunk ⊕ tail), {| inner := i; pending_utf8 := [] |})
  | _ =>
      match check_pending p with
      | Err err => (Err err, p)
      | Panic => (Panic, p)
      | NoFuel => (NoFuel, p)
      | Ok _ =>
          match from_utf8 (pending_utf8 p) with
          | Ok text =>
              let '(out, i) := push_str (inner p) text in
              let '(tail, i) := finish i in
              (Ok (out ⊕ tail), {| inner := i; pending_utf8 := [] |})
          | Err err =>
              (Err (InvalidUtf8 (valid_up_to err) (default 0%nat (error_len err))), p)
          | Panic => (Panic, p)
          | NoFuel => (NoFuel, p)
          end
      end
  end.

Definition into_inner p : outcome Utf8StreamParserError P :=
  match pending_utf8 p with
  | [] => Ok (inner p)
  | _ => _ ← check_pending p; Ok (inner p)
  end.

Definition into_inner_lossy p : P := inner p.

(** A whole byte stream: each chunk, stopping at the first error, then [finish]. *)
Fixpoint collect_bytes p (chunks : list (list byte))
    : outcome Utf8StreamParserError (StreamTextChunk T) :=
  match chunks with
  | [] => (utf8_finish p).1
  | c :: chunks =>
      let '(r, p) := push_bytes p c in
      out ← r; rest ← collect_bytes p chunks; Ok (out ⊕ rest)
  end.
End stream.

(** ** Decoding and encoding *)
Ltac Zify.zify_post_hook ::= Z.to_euclidean_division_equations.

(** Decide every boolean test of the goal from the ranges in the context. *)
Ltac range_test :=
  match goal with
  | |- context [if ?b then _ else _] =>
      lazymatch b with context [if _ then _ else _] => fail | _ => idtac end;
      let E := fresh in destruct b eqn:E;
      unfold is_cont, is_scalar in E;
      rewrite ?orb_true_iff, ?orb_false_iff, ?andb_true_iff, ?andb_false_iff,
        ?N.ltb_lt, ?N.ltb_ge, ?N.leb_le, ?N.leb_gt, ?N.eqb_eq, ?N.eqb_neq in E;
      try (exfalso; lia)
  end.
Ltac range_tests := repeat range_test.

Lemma is_scalar_spec c : is_scalar c = true ↔ c < 0xD800 ∨ 0xE000 ≤ c < 0x110000.
Proof.
  unfold is_scalar. rewrite orb_true_iff, andb_true_iff, !N.ltb_lt, N.leb_le. done.
Qed.

Lemma decode_encode_char c r : is_scalar c = true → decode_char (encode_char c ++ r) = Done c r.
Proof.
  intros Hc%is_scalar_spec. unfold encode_char. range_tests; cbn [app decode_char];
    unfold second3, second4; range_tests; f_equal; lia.
Qed.

Lemma encode_char_length c : (1 ≤ length (encode_char c) ≤ 4)%nat.
Proof. unfold encode_char. repeat case_match; simpl; lia. Qed.

(** A strict prefix of an encoded code point. *)
Definition cut_char (bs : list byte) : Prop :=
  bs ≠ [] ∧ ∃ c tl, is_scalar c = true ∧ tl ≠ [] ∧ encode_char c = bs ++ tl.

Lemma decode_cut bs : cut_char bs → decode_char bs = Incomplete.
Proof.
  intros (Hne & c & tl & Hc%is_scalar_spec & Htl & He). revert He. unfold encode_char.
  destruct bs as [|b0 [|b1 [|b2 [|b3 bs]]]]; [done| | | |]; range_tests; intros [=]; subst;
    cbn [decode_char]; unfold second3, second4; try (by destruct tl); try (by destruct bs, tl); range_tests; try done.
Qed.

Lemma decode_char_sound bs c r :
  Forall (λ b, b < 256) bs → decode_char bs = Done c r → bs = encode_char c ++ r ∧ is_scalar c = true.
Proof.
  intros Hb. unfold decode_char, second3, second4.
  destruct bs as [|b0 [|b1 [|b2 [|b3 bs]]]]; [done| | | |]; range_tests; intros [= <- <-];
    rewrite is_scalar_spec; unfold encode_char; range_tests; try lia;
    (split; [cbn [app]; repeat f_equal; lia|lia]).
Qed.

Definition scalars (s : str) : Prop := Forall (λ c, is_scalar c = true) s.

Lemma encode_cons c s : encode (c :: s) = encode_char c ++ encode s.
Proof. done. Qed.

Lemma encode_app a b : encode (a ++ b) = encode a ++ encode b.
Proof. apply bind_app. Qed.

(** Text, then nothing or the start of a code point. *)
Lemma decode_loop_encode fuel s rem pos acc :
  scalars s → rem = [] ∨ cut_char rem → (length (encode s ++ rem) ≤ fuel)%nat →
  decode_loop fuel (encode s ++ rem) pos acc =
    if bool_decide (rem = []) then Ok (acc ++ s)
    else Err {| valid_up_to := pos + length (encode s); error_len := None |}.
Proof.
  intros Hs Hrem. revert fuel pos acc; induction Hs as [|c s Hc Hs IH]; intros fuel pos acc Hf.
  - cbn [encode mbind list_bind app] in *. rewrite app_nil_r, Nat.add_0_r.
    destruct rem as [|b rem]; [by destruct fuel|]. destruct Hrem as [|Hcut]; [done|].
    destruct fuel as [|fuel]; [simpl in Hf; lia|]. cbn [decode_loop].
    by rewrite (decode_cut _ Hcut).
  - rewrite encode_cons, <-app_assoc in *. pose proof (encode_char_length c) as Hl.
    rewrite length_app in Hf.
    destruct (encode_char c ++ encode s ++ rem) as [|b bs] eqn:E.
    { apply (f_equal length) in E. rewrite length_app in E. simpl in E. lia. }
    destruct fuel as [|fuel]; [lia|]. cbn [decode_loop]. rewrite <-E, decode_encode_char by done.
    rewrite IH by lia. rewrite !length_app, <-app_assoc.
    case_bool_decide; [done|]. do 2 f_equal. lia.
Qed.

Lemma from_utf8_encode s : scalars s → from_utf8 (encode s) = Ok s.
Proof.
  intros Hs. unfold from_utf8. rewrite <-(app_nil_r (encode s)).
  rewrite decode_loop_encode; [done|done|by left|done].
Qed.

Lemma from_utf8_cut s rem :
  scalars s → cut_char rem →
  from_utf8 (encode s ++ rem) = Err {| valid_up_to := length (encode s); error_len := None |}.
Proof.
  intros Hs Hc. unfold from_utf8. rewrite decode_loop_encode; [|done|by right|done].
  rewrite bool_decide_false; [done|]. by destruct Hc.
Qed.

Lemma decode_char_smaller bs c r : decode_char bs = Done c r → (length r < length bs)%nat.
Proof.
  unfold decode_char. repeat case_match; try done; intros [= <- <-]; simpl; lia.
Qed.

Lemma decode_loop_sound fuel bs pos acc s :
  Forall (λ b, b < 256) bs → decode_loop fuel bs pos acc = Ok s →
  ∃ s', s = acc ++ s' ∧ bs = encode s' ∧ scalars s'.
Proof.
  revert bs pos acc; induction fuel as [|fuel IH]; intros [|b bs] pos acc Hb; cbn [decode_loop].
  - intros [= ->]. exists []. rewrite app_nil_r. by split_and!; [..|constructor].
  - done.
  - intros [= ->]. exists []. rewrite app_nil_r. by split_and!; [..|constructor].
  - destruct (decode_char (b :: bs)) as [c r| |] eqn:E; try done. intros Hr.
    destruct (decode_char_sound _ _ _ Hb E) as [Heq Hc].
    apply IH in Hr as (s' & -> & -> & Hs'); [|rewrite Heq in Hb; by apply Forall_app in Hb as [_ Hb]].
    exists (c :: s'). rewrite <-app_assoc. split_and!; [done|done|by constructor].
Qed.

(** [from_utf8] never runs out of fuel. *)
Lemma decode_loop_returns fuel bs pos acc :
  (length bs ≤ fuel)%nat → returns (decode_loop fuel bs pos acc).
Proof.
  revert bs pos acc; induction fuel as [|fuel IH]; intros [|b bs] pos acc Hf; cbn [decode_loop];
    [done|simpl in Hf; lia|done|].
  destruct (decode_char (b :: bs)) as [c r| |] eqn:E; [|done|done].
  apply decode_char_smaller in E. apply IH. simpl in *. lia.
Qed.

(** A prefix of an encoded text is an encoded text and maybe a cut code point. *)
Lemma encode_prefix s b1 b2 :
  scalars s → b1 ++ b2 = encode s →
  ∃ s1 s2 rem, s = s1 ++ s2 ∧ b1 = encode s1 ++ rem ∧ rem ++ b2 = encode s2 ∧
    (rem = [] ∨ cut_char rem).
Proof.
  intros Hs. revert b1; induction Hs as [|c s Hc Hs IH]; intros b1 He.
  { apply app_nil in He as [-> ->]. exists [], [], []. by split_and!; [..|left]. }
  rewrite encode_cons in He. destruct (decide (length (encode_char c) ≤ length b1)%nat) as [Hle|Hgt].
  - apply app_eq_inv in He as [(k & -> & Hk)|(k & Hk & ->)].
    + symmetry in Hk. destruct (IH k Hk) as (s1 & s2 & rem & -> & -> & Hr & Hcut).
      exists (c :: s1), s2, rem. rewrite encode_cons, <-app_assoc. by split_and!.
    + rewrite Hk, length_app in Hle. assert (k = []) as -> by (apply length_zero_iff_nil; lia).
      rewrite app_nil_r in Hk. exists [c], s, []. split_and!; [done| |done|by left].
      rewrite app_nil_r, encode_cons, Hk. by rewrite app_nil_r.
  - apply app_eq_inv in He as [(k & -> & Hk)|(k & Hk & ->)].
    { rewrite length_app in Hgt. lia. }
    destruct (decide (b1 = [])) as [->|Hne].
    + exists [], (c :: s), []. split_and!; [done|done| |by left]. simpl in Hk. by rewrite <-Hk.
    + exists [], (c :: s), b1. split_and!; [done|done| |].
      * by rewrite encode_cons, Hk, <-app_assoc.
      * right. split; [done|]. exists c, k. split_and!; [done| |done]. intros ->.
        rewrite Hk, app_nil_r in Hgt. lia.
Qed.

(** ** Streams of bytes *)
Section streams.
Context {P T : Type} `{ChunkInvariant P T}.

(** [push_bytes] when the buffered bytes are text and maybe a cut code point. *)
Lemma push_bytes_encode (p : P) rem0 chunk s rem :
  valid p → scalars s → rem0 ++ chunk = encode s ++ rem → rem = [] ∨ cut_char rem →
  push_bytes {| inner := p; pending_utf8 := rem0 |} chunk =
    (Ok (push_str p s).1, {| inner := (push_str p s).2; pending_utf8 := rem |}).
Proof.
  intros Hv Hs Heq [->|Hcut]; unfold push_bytes; cbn [inner pending_utf8]; rewrite Heq.
  - rewrite app_nil_r, from_utf8_encode by done. by destruct (push_str p s).
  - rewrite from_utf8_cut by done. cbn [error_len valid_up_to].
    destruct (Nat.eqb_spec (length (encode s)) 0) as [Hz|Hz].
    + destruct s as [|c s]; [by rewrite push_nil|].
      rewrite encode_cons, length_app in Hz. pose proof (encode_char_length c). lia.
    + rewrite take_app_length, drop_app_length, from_utf8_encode by done.
      by destruct (push_str p s).
Qed.

Lemma collect_bytes_encode (p : P) rem0 chunks s :
  valid p → scalars s → rem0 = [] ∨ cut_char rem0 → rem0 ++ concat chunks = encode s →
  ∃ o, collect_bytes {| inner := p; pending_utf8 := rem0 |} chunks = Ok o ∧
    chunk_equiv (P:=P) o ((push_str p s).1 ⊕ (finish (push_str p s).2).1).
Proof.
  revert p rem0 s; induction chunks as [|c chunks IH]; intros p rem0 s Hv Hs Hrem Heq.
  - cbn [concat] in Heq. rewrite app_nil_r in Heq.
    assert (rem0 = []) as ->.
    { destruct Hrem as [|Hcut]; [done|exfalso]. pose proof (from_utf8_encode s Hs) as He.
      rewrite <-Heq in He. pose proof (from_utf8_cut [] rem0 (Forall_nil_2 _) Hcut) as Hc.
      cbn [encode mbind list_bind app] in Hc. by rewrite Hc in He. }
    assert (s = []) as ->.
    { destruct s as [|c s]; [done|]. apply (f_equal length) in Heq.
      rewrite encode_cons, length_app in Heq. pose proof (encode_char_length c). simpl in Heq. lia. }
    cbn [collect_bytes utf8_finish pending_utf8 inner]. rewrite push_nil by done. cbn [fst snd].
    destruct (finish p) as [tail i]. eexists; split; [done|]. done.
  - cbn [concat] in Heq. rewrite app_assoc in Heq.
    destruct (encode_prefix s _ _ Hs Heq) as (s1 & s2 & rem & -> & He & Hr & Hcut).
    apply Forall_app in Hs as [Hs1 Hs2]. cbn [collect_bytes].
    rewrite (push_bytes_encode p rem0 c s1 rem) by done. cbn [mbind outcome_bind].
    pose proof (push_valid p s1 Hv) as Hv1.
    destruct (IH (push_str p s1).2 rem s2 Hv1 Hs2 Hcut Hr) as (o & -> & Ho).
    cbn [mbind outcome_bind]. eexists; split; [done|]. rewrite Ho.
    rewrite (push_app_state p s1 s2 Hv), <-app_chunk_assoc. f_equiv.
    split; cbn [app_chunk visible_text extracted].
    + by rewrite push_app_visible.
    + by rewrite push_app_extracted.
Qed.

(** ** Theorems *)
(** C8: for every parser that satisfies the interface, a valid UTF-8 byte
    stream cut at arbitrary byte positions gives the output of pushing its text
    at once: no chunk boundary inside a code point is an error or changes the
    output. *)
Theorem collect_bytes_decodes (p : P) (s : str) (chunks : list (list byte)) :
  valid p → scalars s → concat chunks = encode s →
  ∃ o, collect_bytes (utf8_new p) chunks = Ok o ∧ chunk_equiv (P:=P) o (collect_chunks p [s]).
Proof.
  intros Hv Hs Heq. destruct (collect_bytes_encode p [] chunks s) as (o & Ho & He);
    [done|done|by left|done|]. exists o. split; [done|]. rewrite He.
  unfold collect_chunks. cbn [push_chunks]. destruct (push_str p s) as [o' p'].
  cbn [fst snd]. by rewrite app_chunk_nil_r.
Qed.

(** When [push_bytes] reports an error, the parser is as before the call:
    the whole chunk is rolled back and the wrapped parser has seen nothing. *)
Theorem push_bytes_rollback (p p' : Utf8StreamParser P) chunk err :
  push_bytes p chunk = (Err err, p') → p' = p.
Proof.
  unfold push_bytes. rewrite take_app_length. intros Hp.
  repeat (case_match; try done); simplify_eq; by destruct p.
Qed.

(** A byte stream that ends inside a code point is reported as such at the
    end, after every complete code point was accepted. *)
Theorem incomplete_at_eof (p : P) (s : str) (rem : list byte) :
  valid p → scalars s → cut_char rem →
  collect_bytes (utf8_new p) [encode s ++ rem] = Err IncompleteUtf8AtEof.
Proof.
  intros Hv Hs Hcut. cbn [collect_bytes]. unfold utf8_new.
  rewrite (push_bytes_encode p [] (encode s ++ rem) s rem) by (done || by right).
  cbn [mbind outcome_bind]. unfold utf8_finish, check_pending. cbn [pending_utf8 inner].
  pose proof (from_utf8_cut [] rem (Forall_nil_2 _) Hcut) as Hc.
  cbn [encode mbind list_bind app] in Hc. rewrite Hc.
  destruct rem as [|b rem]; [by destruct Hcut|done].
Qed.
End streams.

(** [from_utf8] decodes exactly the encodings: it inverts the encoding of
    every text of scalar values, and only accepts bytes that are such an
    encoding. *)
Theorem from_utf8_iff (bs : list byte) (s : str) :
  Forall (λ b, b < 256) bs → from_utf8 bs = Ok s ↔ scalars s ∧ bs = encode s.
Proof.
  intros Hb. split.
  - intros (s' & -> & -> & Hs)%decode_loop_sound; done.
  - intros [Hs ->]. by apply from_utf8_encode.
Qed.

(** ** Instances of the theorems *)
Lemma collect_bytes_decodes_witness :
  ∃ p, citation_new = Ok p ∧
    ∃ o, collect_bytes (utf8_new p) [[65; 0xC3]; [0xA9; 0xE4]; [0xB8; 0xAD]] = Ok o ∧
      chunk_equiv (P:=CitationStreamParser) o (collect_chunks p [[65; 0xE9; 0x4E2D]]).
Proof.
  eexists; split; [reflexivity|]. eapply (collect_bytes_decodes _ [65; 0xE9; 0x4E2D]).
  - apply citation_new_valid. reflexivity.
  - repeat constructor.
  - reflexivity.
Defined.

Lemma push_bytes_rollback_witness :
  ∃ p p' err, citation_new = Ok p ∧ push_bytes (utf8_new p) [111; 0xFF] = (Err err, p') ∧
    p' = utf8_new p.
Proof.
  eexists _, _, _; split; [reflexivity|]. split; [reflexivity|].
  eapply (push_bytes_rollback _ _ [111; 0xFF]). reflexivity.
Defined.

Lemma incomplete_at_eof_witness :
  ∃ p, citation_new = Ok p ∧
    collect_bytes (utf8_new p) [encode [65] ++ [0xE2; 0x82]] = Err IncompleteUtf8AtEof.
Proof.
  eexists; split; [reflexivity|]. apply (incomplete_at_eof (T:=str)).
  - apply citation_new_valid. reflexivity.
  - repeat constructor.
  - split; [done|]. exists 0x20AC, [0xAC]. done.
Defined.

Lemma from_utf8_iff_witness :
  from_utf8 [0xE2; 0x82; 0xAC] = Ok [0x20AC] ↔
  scalars [0x20AC] ∧ [0xE2; 0x82; 0xAC] = encode [0x20AC].
Proof. apply (from_utf8_iff [0xE2; 0x82; 0xAC]). repeat constructor. Defined.
