(* ===== verification/HeadTailBuffer.v ===== *)
(** * The output buffer of unified exec: [core/src/unified_exec/head_tail_buffer.rs]

    The buffer keeps the first and the last bytes of a process's output.  Sizes
    are [usize] with their saturating operations.  The abstract buffer is the
    list of all bytes pushed since the last drain; the refinement theorem says
    that every sequence of operations observes on the buffer what it observes
    on that list. *)
From stdpp Require Import base tactics option list numbers.
From S2P Require Import Prelude.

Local Open Scope Z_scope.
Abbreviation byte := N.
Abbreviation len l := (Z.of_nat (length l)).

(** ** Data and operations *)
Record HeadTailBuffer : Type := {
  max_bytes : Z;
  head_budget : Z;
  tail_budget : Z;
  head : list (list byte);
  tail : list (list byte);
  head_bytes : Z;
  tail_bytes : Z;
  omitted_bytes : Z;
}.

Definition new (max_bytes : Z) : HeadTailBuffer :=
  let head_budget := max_bytes / 2 in
  let tail_budget := sat_sub max_bytes head_budget in
  {| max_bytes := max_bytes; head_budget := head_budget; tail_budget := tail_budget;
     head := []; tail := []; head_bytes := 0; tail_bytes := 0; omitted_bytes := 0 |}.

Definition set_head (b : HeadTailBuffer) (h : list (list byte)) (n : Z) : HeadTailBuffer :=
  {| max_bytes := max_bytes b; head_budget := head_budget b; tail_budget := tail_budget b;
     head := h; tail := tail b; head_bytes := n; tail_bytes := tail_bytes b;
     omitted_bytes := omitted_bytes b |}.

Definition set_tail (b : HeadTailBuffer) (t : list (list byte)) (n omitted : Z) : HeadTailBuffer :=
  {| max_bytes := max_bytes b; head_budget := head_budget b; tail_budget := tail_budget b;
     head := head b; tail := t; head_bytes := head_bytes b; tail_bytes := n;
     omitted_bytes := omitted |}.

Definition retained_bytes (b : HeadTailBuffer) : Z := sat_add (head_bytes b) (tail_bytes b).

(** The loop of [trim_tail_to_budget] on the tail, [tail_bytes] and
    [omitted_bytes]: each iteration pops a chunk or leaves the loop. *)
Fixpoint trim_loop (tail : list (list byte)) (excess tail_bytes omitted : Z)
    : list (list byte) * Z * Z :=
  if excess >? 0 then
    match tail with
    | front :: tail' =>
        if len front <=? excess
        then trim_loop tail' (excess - len front) (sat_sub tail_bytes (len front))
               (sat_add omitted (len front))
        else (drop (Z.to_nat excess) front :: tail', sat_sub tail_bytes excess,
              sat_add omitted excess)
    | [] => ([], tail_bytes, omitted)
    end
  else (tail, tail_bytes, omitted).

Definition trim_tail_to_budget (b : HeadTailBuffer) : HeadTailBuffer :=
  let excess := sat_sub (tail_bytes b) (tail_budget b) in
  let '(t, n, omitted) := trim_loop (tail b) excess (tail_bytes b) (omitted_bytes b) in
  set_tail b t n omitted.

Definition push_to_tail (b : HeadTailBuffer) (chunk : list byte) : HeadTailBuffer :=
  if tail_budget b =? 0 then
    set_tail b (tail b) (tail_bytes b) (sat_add (omitted_bytes b) (len chunk))
  else if tail_budget b <=? len chunk then
    let start := sat_sub (len chunk) (tail_budget b) in
    let kept := drop (Z.to_nat start) chunk in
    let dropped := sat_sub (len chunk) (len kept) in
    set_tail b [kept] (len kept)
      (sat_add (sat_add (omitted_bytes b) (tail_bytes b)) dropped)
  else
    trim_tail_to_budget
      (set_tail b (tail b ++ [chunk]) (sat_add (tail_bytes b) (len chunk)) (omitted_bytes b)).

Definition push_chunk (b : HeadTailBuffer) (chunk : list byte) : HeadTailBuffer :=
  if max_bytes b =? 0 then
    set_tail b (tail b) (tail_bytes b) (sat_add (omitted_bytes b) (len chunk))
  else if head_bytes b <? head_budget b then
    let remaining_head := sat_sub (head_budget b) (head_bytes b) in
    if len chunk <=? remaining_head then
      set_head b (head b ++ [chunk]) (sat_add (head_bytes b) (len chunk))
    else
      let head_part := take (Z.to_nat remaining_head) chunk in
      let tail_part := drop (Z.to_nat remaining_head) chunk in
      let b :=
        if bool_decide (head_part = []) then b
        else set_head b (head b ++ [head_part]) (sat_add (head_bytes b) (len head_part)) in
      push_to_tail b tail_part
  else push_to_tail b chunk.

Definition snapshot_chunks (b : HeadTailBuffer) : list (list byte) := head b ++ tail b.

Definition to_bytes (b : HeadTailBuffer) : list byte := concat (head b) ++ concat (tail b).

Definition drain_chunks (b : HeadTailBuffer) : list (list byte) * HeadTailBuffer :=
  (head b ++ tail b, set_head (set_tail b [] 0 0) [] 0).

(** ** The abstract buffer: the bytes pushed since the last drain *)
Definition lastn {A} (n : nat) (l : list A) : list A := drop (length l - n) l.

(** What is kept of [s] within [max] bytes. *)
Definition kept_head (max : Z) (s : list byte) : list byte := take (Z.to_nat (max / 2)) s.
Definition kept_tail (max : Z) (s : list byte) : list byte :=
  lastn (Z.to_nat (max - max / 2)) (drop (Z.to_nat (max / 2)) s).
Definition kept (max : Z) (s : list byte) : list byte := kept_head max s ++ kept_tail max s.

Record represents (max : Z) (b : HeadTailBuffer) (s : list byte) : Prop := {
  rep_usize : is_usize max;
  rep_max : max_bytes b = max;
  rep_head_budget : head_budget b = max / 2;
  rep_tail_budget : tail_budget b = max - max / 2;
  rep_head : concat (head b) = kept_head max s;
  rep_tail : concat (tail b) = kept_tail max s;
  rep_head_bytes : head_bytes b = len (concat (head b));
  rep_tail_bytes : tail_bytes b = len (concat (tail b));
  rep_omitted : omitted_bytes b = Z.min usize_max (len s - len (kept max s));
}.

(** ** Lists *)
Lemma length_lastn {A} n (l : list A) : length (lastn n l) = (length l `min` n)%nat.
Proof. unfold lastn. rewrite length_drop. lia. Qed.

Lemma lastn_app_ge {A} n (l k : list A) : (n ≤ length k)%nat → lastn n (l ++ k) = lastn n k.
Proof.
  intros Hn. unfold lastn. rewrite length_app, drop_app_ge by lia. f_equal. lia.
Qed.

Lemma lastn_lastn_app {A} n (l k : list A) : lastn n (lastn n l ++ k) = lastn n (l ++ k).
Proof.
  unfold lastn. rewrite !length_app, length_drop.
  destruct (decide (length l ≤ n)%nat).
  - replace (length l - n)%nat with 0%nat by lia. rewrite drop_0. f_equal. lia.
  - replace (length l + length k - n)%nat with (length l - n + length k)%nat by lia.
    rewrite <-drop_drop, (drop_app_le l k) by lia. f_equal. lia.
Qed.

Lemma lastn_all {A} n (l : list A) : (length l ≤ n)%nat → lastn n l = l.
Proof. intros. unfold lastn. by replace (length l - n)%nat with 0%nat by lia. Qed.

Lemma kept_length max s :
  0 ≤ max → len (kept max s) = Z.min (len s) max.
Proof.
  intros Hm. unfold kept, kept_head, kept_tail.
  rewrite length_app, length_lastn, length_drop, length_take.
  pose proof (Z.div_mod max 2 ltac:(lia)). pose proof (Z.mod_pos_bound max 2 ltac:(lia)). lia.
Qed.

(** ** The operations refine the abstract buffer *)
Lemma trim_loop_spec t excess n om :
  0 ≤ excess ≤ len (concat t) → n = len (concat t) → 0 ≤ om ≤ usize_max →
  ∃ t', trim_loop t excess n om = (t', n - excess, Z.min usize_max (om + excess)) ∧
    concat t' = drop (Z.to_nat excess) (concat t).
Proof.
  revert excess n om; induction t as [|f t IH]; intros excess n om He -> Hom; cbn [trim_loop].
  - simpl in He. replace excess with 0 by lia. simpl. exists [].
    split; [|done]. repeat f_equal; lia.
  - cbn [concat] in *. rewrite length_app in He. destruct (Z.gtb_spec excess 0).
    + destruct (Z.leb_spec (len f) excess).
      * destruct (IH (excess - len f) (sat_sub (len (f ++ concat t)) (len f)) (sat_add om (len f)))
          as (t' & -> & Ht').
        { lia. }
        { rewrite length_app. usize_lia. }
        { usize_lia. }
        exists t'. split.
        -- rewrite length_app. f_equal; [f_equal; usize_lia|usize_lia].
        -- rewrite Ht', drop_app_ge by lia. f_equal. lia.
      * eexists. split.
        { rewrite length_app.
          replace (sat_sub (Z.of_nat (length f + length (concat t))) excess)
            with (Z.of_nat (length f + length (concat t)) - excess) by usize_lia. done. }
        cbn [concat]. rewrite drop_app_le by lia. done.
    + replace excess with 0 by lia. exists (f :: t). split; [|done].
      rewrite Z.sub_0_r. repeat f_equal; lia.
Qed.

Lemma kept_tail_app max s chunk :
  0 ≤ max → (Z.to_nat (max / 2) ≤ length s)%nat →
  kept_tail max (s ++ chunk) =
  lastn (Z.to_nat (max - max / 2)) (kept_tail max s ++ chunk).
Proof.
  intros Hm Hs. unfold kept_tail. by rewrite lastn_lastn_app, drop_app_le.
Qed.

Lemma kept_head_full max s chunk :
  (Z.to_nat (max / 2) ≤ length s)%nat → kept_head max (s ++ chunk) = kept_head max s.
Proof. intros Hs. unfold kept_head. by rewrite take_app_le. Qed.

(** Pushing to the tail once the head is full. *)
Lemma push_to_tail_represents max b s chunk :
  represents max b s → (Z.to_nat (max / 2) ≤ length s)%nat →
  represents max (push_to_tail b chunk) (s ++ chunk).
Proof.
  intros [Hu Hm Hhb Htb Hh Ht Hhn Htn Ho] Hs.
  pose proof (Z.div_mod max 2 ltac:(lia)) as Hd. pose proof (Z.mod_pos_bound max 2 ltac:(lia)) as Hr.
  unfold is_usize in Hu.
  assert (Hlt : len (concat (tail b)) ≤ max - max / 2).
  { rewrite Ht. unfold kept_tail. rewrite length_lastn. lia. }
  pose proof (kept_length max s ltac:(lia)) as Hk.
  pose proof (kept_length max (s ++ chunk) ltac:(lia)) as Hk'.
  assert (Hlk : len (kept max s) = len (kept_head max s) + len (concat (tail b))).
  { rewrite Ht. unfold kept. rewrite length_app. lia. }
  assert (Hlh : len (kept_head max s) = max / 2).
  { unfold kept_head. rewrite length_take. lia. }
  pose proof (kept_tail_app max s chunk ltac:(lia) Hs) as Htail. rewrite <-Ht in Htail.
  pose proof (kept_head_full max s chunk Hs) as Hhead.
  rewrite length_app in Hk'. unfold push_to_tail.
  destruct (Z.eqb_spec (tail_budget b) 0) as [Hz|Hz]; [|destruct (Z.leb_spec (tail_budget b) (len chunk))].
  - split; cbn [set_tail max_bytes head_budget tail_budget head tail head_bytes tail_bytes
      omitted_bytes]; try done; try congruence.
    + rewrite Htail. replace (Z.to_nat (max - max / 2)) with 0%nat by lia.
      unfold lastn. rewrite Nat.sub_0_r, drop_all. apply length_zero_iff_nil. lia.
    + rewrite Ho, Hk', length_app. usize_lia.
  - split; cbn [set_tail max_bytes head_budget tail_budget head tail head_bytes tail_bytes
      omitted_bytes concat]; rewrite ?app_nil_r; try done; try congruence.
    + rewrite Htail, lastn_app_ge by lia. unfold lastn. f_equal. usize_lia.
    + rewrite Ho, Hk', length_app, Htn, length_drop. usize_lia.
  - unfold trim_tail_to_budget. cbn [set_tail tail_bytes tail_budget tail omitted_bytes].
    assert (Hb : sat_add (tail_bytes b) (len chunk) = len (concat (tail b ++ [chunk]))).
    { rewrite concat_app, length_app. cbn [concat]. rewrite app_nil_r, Htn. usize_lia. }
    rewrite Hb. set (excess := sat_sub _ _).
    assert (Hex : excess = Z.max 0 (len (concat (tail b)) + len chunk - (max - max / 2))).
    { subst excess. rewrite concat_app, length_app. cbn [concat]. rewrite app_nil_r. usize_lia. }
    assert (Hlen : len (concat (tail b ++ [chunk])) = len (concat (tail b)) + len chunk).
    { rewrite concat_app, length_app. cbn [concat]. rewrite app_nil_r. lia. }
    destruct (trim_loop_spec (tail b ++ [chunk]) excess (len (concat (tail b ++ [chunk])))
      (omitted_bytes b)) as (t' & -> & Ht'); [lia|done|usize_lia|].
    rewrite concat_app in Ht'. cbn [concat] in Ht'. rewrite app_nil_r in Ht'.
    split; cbn [set_tail max_bytes head_budget tail_budget head tail head_bytes tail_bytes
      omitted_bytes]; try done; try congruence.
    + rewrite Ht', Htail. unfold lastn. rewrite length_app. f_equal. lia.
    + rewrite Ht', length_drop, length_app, Hlen. lia.
    + rewrite Ho, Hk', length_app. usize_lia.
Qed.

(** Appending to the head while it has room. *)
Lemma push_head_represents max b s part :
  represents max b s → len s + len part ≤ max / 2 →
  represents max (set_head b (head b ++ [part]) (sat_add (head_bytes b) (len part))) (s ++ part).
Proof.
  intros [Hu Hm Hhb Htb Hh Ht Hhn Htn Ho] Hs. unfold is_usize in Hu.
  pose proof (Z.div_mod max 2 ltac:(lia)) as Hd. pose proof (Z.mod_pos_bound max 2 ltac:(lia)) as Hr.
  pose proof (kept_length max s ltac:(lia)) as Hk.
  pose proof (kept_length max (s ++ part) ltac:(lia)) as Hk'. rewrite length_app in Hk'.
  assert (Hall : kept_head max s = s) by (unfold kept_head; apply take_ge; lia).
  assert (Hall' : kept_head max (s ++ part) = s ++ part)
    by (unfold kept_head; apply take_ge; rewrite length_app; lia).
  assert (Hnil : ∀ x, len x ≤ max / 2 → kept_tail max x = []).
  { intros x Hx. unfold kept_tail. by rewrite drop_ge by lia. }
  split; cbn [set_head max_bytes head_budget tail_budget head tail head_bytes tail_bytes
    omitted_bytes]; try done; try congruence.
  - rewrite concat_app, Hh, Hall, Hall'. cbn [concat]. by rewrite app_nil_r.
  - rewrite Ht, !Hnil; [done|rewrite length_app; lia|lia].
  - rewrite concat_app, length_app, Hhn. cbn [concat]. rewrite app_nil_r, Hh, Hall. usize_lia.
  - rewrite Ho, Hk, Hk', length_app. lia.
Qed.

Lemma push_chunk_represents max b s chunk :
  represents max b s → represents max (push_chunk b chunk) (s ++ chunk).
Proof.
  intros Hrep. pose proof Hrep as [Hu Hm Hhb Htb Hh Ht Hhn Htn Ho]. unfold is_usize in Hu.
  pose proof (Z.div_mod max 2 ltac:(lia)) as Hd. pose proof (Z.mod_pos_bound max 2 ltac:(lia)) as Hr.
  assert (Hlh : len (concat (head b)) = Z.min (max / 2) (len s)).
  { rewrite Hh. unfold kept_head. rewrite length_take. lia. }
  unfold push_chunk. destruct (Z.eqb_spec (max_bytes b) 0) as [Hz|Hz].
  { assert (Hp : represents max (push_to_tail b chunk) (s ++ chunk))
      by (apply push_to_tail_represents; [done|lia]).
    unfold push_to_tail in Hp. destruct (Z.eqb_spec (tail_budget b) 0); [done|lia]. }
  destruct (Z.ltb_spec (head_bytes b) (head_budget b)) as [Hroom|Hfull].
  - destruct (Z.leb_spec (len chunk) (sat_sub (head_budget b) (head_bytes b))) as [Hfit|Hsplit].
    + apply push_head_represents; [done|]. usize_lia.
    + set (n := Z.to_nat (sat_sub (head_budget b) (head_bytes b))).
      assert (Hn : Z.of_nat n = max / 2 - len s) by (unfold n; usize_lia).
      assert (Hlt : length (take n chunk) = n) by (rewrite length_take; usize_lia).
      rewrite bool_decide_false by (intros Hnil; rewrite Hnil in Hlt; simpl in Hlt; lia).
      rewrite <-(take_drop n chunk) at 4. rewrite app_assoc.
      apply push_to_tail_represents; [|rewrite length_app; lia].
      apply push_head_represents; [done|]. lia.
  - apply push_to_tail_represents; [done|]. lia.
Qed.

Lemma new_represents max : is_usize max → represents max (new max) [].
Proof.
  intros Hu. pose proof Hu as Hu'. unfold is_usize in Hu'.
  pose proof (Z.div_mod max 2 ltac:(lia)) as Hd. pose proof (Z.mod_pos_bound max 2 ltac:(lia)) as Hr.
  pose proof (kept_length max [] ltac:(lia)) as Hk.
  split; cbn [new max_bytes head_budget tail_budget head tail head_bytes tail_bytes omitted_bytes
    concat length]; try done.
  - usize_lia.
  - unfold kept_head. by rewrite take_nil.
  - unfold kept_tail. by rewrite drop_nil.
  - simpl in *. usize_lia.
Qed.

Lemma drain_represents max b s :
  represents max b s → (drain_chunks b).2 = new max ∧ concat (drain_chunks b).1 = kept max s.
Proof.
  intros [Hu Hm Hhb Htb Hh Ht Hhn Htn Ho]. unfold drain_chunks; cbn [fst snd]. split.
  - unfold set_head, set_tail, new. cbn. rewrite Hm, Hhb, Htb. unfold is_usize in Hu.
    pose proof (Z.div_mod max 2 ltac:(lia)). pose proof (Z.mod_pos_bound max 2 ltac:(lia)).
    f_equal. usize_lia.
  - by rewrite concat_app, Hh, Ht.
Qed.

(** ** Sequences of operations *)
Inductive op : Type := Push (chunk : list byte) | Drain.

(** What is observed after an operation: the bytes it returns, the retained
    bytes, their number and the number of omitted bytes. *)
Definition observation : Type := list byte * list byte * Z * Z.

Fixpoint run (b : HeadTailBuffer) (ops : list op) : list observation :=
  match ops with
  | [] => []
  | o :: ops =>
      let '(out, b) :=
        match o with
        | Push chunk => ([], push_chunk b chunk)
        | Drain => let '(chunks, b) := drain_chunks b in (concat chunks, b)
        end in
      (out, to_bytes b, retained_bytes b, omitted_bytes b) :: run b ops
  end.

Fixpoint run_spec (max : Z) (s : list byte) (ops : list op) : list observation :=
  match ops with
  | [] => []
  | o :: ops =>
      let '(out, s) :=
        match o with Push chunk => ([], s ++ chunk) | Drain => (kept max s, []) end in
      (out, kept max s, Z.min (len s) max, Z.min usize_max (Z.max 0 (len s - max)))
        :: run_spec max s ops
  end.

Lemma represents_observe max b s :
  represents max b s →
  to_bytes b = kept max s ∧ retained_bytes b = Z.min (len s) max ∧
  omitted_bytes b = Z.min usize_max (Z.max 0 (len s - max)).
Proof.
  intros [Hu Hm Hhb Htb Hh Ht Hhn Htn Ho]. unfold is_usize in Hu.
  pose proof (kept_length max s ltac:(lia)) as Hk. split_and!.
  - unfold to_bytes. by rewrite Hh, Ht.
  - unfold retained_bytes. rewrite Hhn, Htn, Hh, Ht. unfold kept in Hk.
    rewrite length_app in Hk. usize_lia.
  - rewrite Ho, Hk. lia.
Qed.

Lemma run_refines_spec max b s ops :
  represents max b s → run b ops = run_spec max s ops.
Proof.
  revert b s; induction ops as [|[chunk|] ops IH]; intros b s Hrep; [done| |]; cbn [run run_spec].
  - pose proof (push_chunk_represents max b s chunk Hrep) as Hrep'.
    destruct (represents_observe _ _ _ Hrep') as (-> & -> & ->). by rewrite (IH _ _ Hrep').
  - destruct (drain_represents max b s Hrep) as [Hb Hc].
    destruct (drain_chunks b) as [chunks b']. cbn [fst snd] in *. subst b'.
    pose proof (new_represents max ltac:(apply Hrep)) as Hrep'.
    destruct (represents_observe _ _ _ Hrep') as (-> & -> & ->). by rewrite Hc, (IH _ _ Hrep').
Qed.

(** ** Theorem *)
(** C9: refinement: for every capacity and every sequence of pushes and
    drains, the retained bytes are the first half-capacity bytes pushed since
    the last drain and the last ones of the rest, a drain returns exactly them,
    their count is never over the capacity and the omitted count is the number
    of bytes dropped (saturating); no chunking of the pushes matters. *)
Theorem head_tail_refines (max : Z) (ops : list op) :
  is_usize max → run (new max) ops = run_spec max [] ops.
Proof. intros Hu. apply run_refines_spec. by apply new_represents. Qed.

Lemma head_tail_refines_witness :
  run (new 5) [Push [1; 2; 3]%N; Push [4; 5; 6]%N; Drain; Push [7]%N] =
  run_spec 5 [] [Push [1; 2; 3]%N; Push [4; 5; 6]%N; Drain; Push [7]%N].
Proof. apply (head_tail_refines 5). by split. Defined.
