(* ===== verification/Models.v ===== *)
(** * Items of a conversation: [protocol/src/models.rs]

    The data the history is made of, and the helpers on tool-output payloads.
    [Value] stands for [serde_json::Value], which the modelled code carries but
    never inspects. *)
From stdpp Require Import base tactics option list numbers strings gmap.
From S2P Require Import Prelude.
From S2P Require Import RustStr.

(** ** Content *)
Inductive ContentItem : Type :=
  | InputText (text : str)
  | InputImage (image_url : str)
  | OutputText (text : str).

Inductive ImageDetail : Type := Auto | Low | High | Original.

Inductive MessagePhase : Type := Commentary | FinalAnswer.

Inductive FunctionCallOutputContentItem : Type :=
  | OutInputText (text : str)
  | OutInputImage (image_url : str) (detail : option ImageDetail).

Inductive FunctionCallOutputBody : Type :=
  | Text (content : str)
  | ContentItems (items : list FunctionCallOutputContentItem).

Record FunctionCallOutputPayload : Type := {
  body : FunctionCallOutputBody;
  success : option bool;
}.

#[export] Instance ContentItem_eq_dec : EqDecision ContentItem.
Proof. solve_decision. Defined.
#[export] Instance ImageDetail_eq_dec : EqDecision ImageDetail.
Proof. solve_decision. Defined.
#[export] Instance OutputContentItem_eq_dec : EqDecision FunctionCallOutputContentItem.
Proof. solve_decision. Defined.
#[export] Instance OutputBody_eq_dec : EqDecision FunctionCallOutputBody.
Proof. solve_decision. Defined.
#[export] Instance OutputPayload_eq_dec : EqDecision FunctionCallOutputPayload.
Proof. solve_decision. Defined.

(** [FunctionCallOutputPayload::from_text], [content_items]. *)
Definition from_text (content : str) : FunctionCallOutputPayload :=
  {| body := Text content; success := None |}.

Definition content_items (p : FunctionCallOutputPayload)
    : option (list FunctionCallOutputContentItem) :=
  match body p with Text _ => None | ContentItems items => Some items end.

(** Writing through [content_items_mut]. *)
Definition set_content_items (p : FunctionCallOutputPayload)
    (items : list FunctionCallOutputContentItem) : FunctionCallOutputPayload :=
  match body p with
  | Text _ => p
  | ContentItems _ => {| body := ContentItems items; success := success p |}
  end.

(** [function_call_output_content_items_to_text]. *)
Definition function_call_output_content_items_to_text
    (content_items : list FunctionCallOutputContentItem) : option str :=
  let text_segments := omap (λ item,
    match item with
    | OutInputText text => if bool_decide (trim text = []) then None else Some text
    | OutInputImage _ _ => None
    end) content_items in
  match text_segments with [] => None | _ => Some (join [NL] text_segments) end.

Definition to_text (b : FunctionCallOutputBody) : option str :=
  match b with
  | Text content => Some content
  | ContentItems items => function_call_output_content_items_to_text items
  end.

(** ** Items *)
Inductive ReasoningItemReasoningSummary : Type := SummaryText (text : str).

Inductive ReasoningItemContent : Type :=
  | ReasoningText (text : str)
  | ReasoningPlainText (text : str).

Inductive LocalShellStatus : Type := Completed | InProgress | Incomplete.

Record LocalShellExecAction : Type := {
  command : list str;
  timeout_ms : option N;
  working_directory : option str;
  env : option (gmap (list N) str);
  user : option str;
}.

Inductive LocalShellAction : Type := Exec (action : LocalShellExecAction).

Inductive WebSearchAction : Type :=
  | WebSearch (query : option str) (queries : option (list str))
  | OpenPage (url : option str)
  | FindInPage (url : option str) (pattern : option str)
  | WebSearchOther.

(** [GhostCommit] of [utils/git]. *)
Record GhostCommit : Type := {
  ghost_id : str;
  ghost_parent : option str;
  preexisting_untracked_files : list str;
  preexisting_untracked_dirs : list str;
}.

Inductive ResponseItem (Value : Type) : Type :=
  | Message (id : option str) (role : str) (content : list ContentItem) (end_turn : option bool)
      (phase : option MessagePhase)
  | Reasoning (id : str) (summary : list ReasoningItemReasoningSummary)
      (content : option (list ReasoningItemContent)) (encrypted_content : option str)
  | LocalShellCall (id : option str) (call_id : option str) (status : LocalShellStatus)
      (action : LocalShellAction)
  | FunctionCall (id : option str) (name : str) (namespace : option str) (arguments : str)
      (call_id : str)
  | ToolSearchCall (id : option str) (call_id : option str) (status : option str)
      (execution : str) (arguments : Value)
  | FunctionCallOutput (call_id : str) (output : FunctionCallOutputPayload)
  | CustomToolCall (id : option str) (status : option str) (call_id : str) (name : str) (input : str)
  | CustomToolCallOutput (call_id : str) (output : FunctionCallOutputPayload)
  | ToolSearchOutput (call_id : option str) (status : str) (execution : str) (tools : list Value)
  | WebSearchCall (id : option str) (status : option str) (action : option WebSearchAction)
  | ImageGenerationCall (id : str) (status : str) (revised_prompt : option str) (result : str)
  | GhostSnapshot (ghost_commit : GhostCommit)
  | Compaction (encrypted_content : str)
  | Other.
Arguments Message {Value} _ _ _ _ _.
Arguments Reasoning {Value} _ _ _ _.
Arguments LocalShellCall {Value} _ _ _ _.
Arguments FunctionCall {Value} _ _ _ _ _.
Arguments ToolSearchCall {Value} _ _ _ _ _.
Arguments FunctionCallOutput {Value} _ _.
Arguments CustomToolCall {Value} _ _ _ _ _.
Arguments CustomToolCallOutput {Value} _ _.
Arguments ToolSearchOutput {Value} _ _ _ _.
Arguments WebSearchCall {Value} _ _ _.
Arguments ImageGenerationCall {Value} _ _ _ _.
Arguments GhostSnapshot {Value} _.
Arguments Compaction {Value} _.
Arguments Other {Value}.

(** [InputModality] of [openai_models.rs]. *)
Inductive InputModality : Type := TextModality | ImageModality.

#[export] Instance InputModality_eq_dec : EqDecision InputModality.
Proof. solve_decision. Defined.

#[export] Instance ResponseItem_eq_dec {V} `{EqDecision V} : EqDecision (ResponseItem V).
Proof.
  assert (EqDecision MessagePhase) by solve_decision.
  assert (EqDecision ReasoningItemReasoningSummary) by solve_decision.
  assert (EqDecision ReasoningItemContent) by solve_decision.
  assert (EqDecision LocalShellStatus) by solve_decision.
  assert (EqDecision LocalShellExecAction) by solve_decision.
  assert (EqDecision LocalShellAction) by solve_decision.
  assert (EqDecision WebSearchAction) by solve_decision.
  assert (EqDecision GhostCommit) by solve_decision.
  solve_decision.
Defined.
