(* ===== verification/Truncate.v ===== *)
(** * Truncation of tool output: [core/src/truncate.rs]

    Byte and token budgets, and the text and item truncation the history and
    the tools use.  Lengths and budgets are [usize] (as [Z]); a string slice at
    a byte offset that is not a character boundary is [Panic]. *)
From stdpp Require Import base tactics option list numbers strings.
From S2P Require Import Prelude.
From S2P Require Import RustStr.
From S2P Require Import Models.

Local Open Scope Z_scope.

(** ** Budgets *)
Definition APPROX_BYTES_PER_TOKEN : Z := 4.

Inductive TruncationPolicy : Type := Bytes (n : Z) | Tokens (n : Z).

(** [str::len]. *)
Definition byte_len (s : str) : Z := Z.of_nat (str_len s).

Definition approx_token_count (text : str) : Z :=
  sat_add (byte_len text) (sat_sub APPROX_BYTES_PER_TOKEN 1) / APPROX_BYTES_PER_TOKEN.

Definition approx_bytes_for_tokens (tokens : Z) : Z := sat_mul tokens APPROX_BYTES_PER_TOKEN.

Definition approx_tokens_from_byte_count (bytes : Z) : Z :=
  sat_add bytes (sat_sub APPROX_BYTES_PER_TOKEN 1) / APPROX_BYTES_PER_TOKEN.

(** The result of [usize] arithmetic is below [i64::MAX] after the division. *)
Definition approx_tokens_from_byte_count_i64 (bytes : Z) : Z :=
  if bytes <=? 0 then 0
  else
    let n := approx_tokens_from_byte_count bytes in
    if n <=? i64_max then n else i64_max.

Definition token_budget (p : TruncationPolicy) : Z :=
  match p with
  | Bytes bytes => approx_tokens_from_byte_count bytes
  | Tokens tokens => tokens
  end.

Definition byte_budget (p : TruncationPolicy) : Z :=
  match p with
  | Bytes bytes => bytes
  | Tokens tokens => approx_bytes_for_tokens tokens
  end.

Definition split_budget (budget : Z) : Z * Z :=
  let left := budget / 2 in (left, budget - left).

(** ** Splitting a string *)
(** [&s[..n]] and [&s[n..]] together; [None] when [n] is not a boundary. *)
Fixpoint split_at_byte (s : str) (n : Z) : option (str * str) :=
  if n =? 0 then Some ([], s)
  else match s with
       | [] => None
       | c :: s' =>
           let k := Z.of_nat (len_utf8 c) in
           if n <? k then None
           else '(a, b) ← split_at_byte s' (n - k); Some (c :: a, b)
       end.

(** The variables of the loop of [split_string]. *)
Record SplitState : Type := {
  prefix_end : Z;
  suffix_start : Z;
  removed_chars : Z;
  suffix_started : bool;
}.

Definition split_step (beginning_bytes tail_start_target idx : Z) (ch : char) (st : SplitState)
    : SplitState :=
  let char_end := idx + Z.of_nat (len_utf8 ch) in
  if char_end <=? beginning_bytes then
    {| prefix_end := char_end; suffix_start := suffix_start st;
       removed_chars := removed_chars st; suffix_started := suffix_started st |}
  else if tail_start_target <=? idx then
    if suffix_started st then st
    else {| prefix_end := prefix_end st; suffix_start := idx;
            removed_chars := removed_chars st; suffix_started := true |}
  else
    {| prefix_end := prefix_end st; suffix_start := suffix_start st;
       removed_chars := sat_add (removed_chars st) 1; suffix_started := suffix_started st |}.

Fixpoint split_loop (beginning_bytes tail_start_target idx : Z) (s : str) (st : SplitState)
    : SplitState :=
  match s with
  | [] => st
  | ch :: s' =>
      split_loop beginning_bytes tail_start_target (idx + Z.of_nat (len_utf8 ch)) s'
        (split_step beginning_bytes tail_start_target idx ch st)
  end.

Definition split_string (s : str) (beginning_bytes end_bytes : Z)
    : outcome Empty_set (Z * str * str) :=
  match s with
  | [] => Ok (0, [], [])
  | _ =>
      let len := byte_len s in
      let tail_start_target := sat_sub len end_bytes in
      let st := split_loop beginning_bytes tail_start_target 0 s
        {| prefix_end := 0; suffix_start := len; removed_chars := 0; suffix_started := false |} in
      let suffix_start :=
        if suffix_start st <? prefix_end st then prefix_end st else suffix_start st in
      match split_at_byte s (prefix_end st), split_at_byte s suffix_start with
      | Some (before, _), Some (_, after) => Ok (removed_chars st, before, after)
      | _, _ => Panic
      end
  end.

(** ** Truncating text *)
Definition ELLIPSIS : char := 0x2026%N.

(** [{removed_count}] with [removed_count] a [u64]. *)
Definition show_u64 (n : Z) : str := show_N (Z.to_N n).

Definition format_truncation_marker (policy : TruncationPolicy) (removed_count : Z) : str :=
  match policy with
  | Tokens _ => ELLIPSIS :: show_u64 removed_count ++ lit " tokens truncated" ++ [ELLIPSIS]
  | Bytes _ => ELLIPSIS :: show_u64 removed_count ++ lit " chars truncated" ++ [ELLIPSIS]
  end.

Definition removed_units_for_source (policy : TruncationPolicy) (removed_bytes removed_chars : Z) : Z :=
  match policy with
  | Tokens _ => approx_tokens_from_byte_count removed_bytes
  | Bytes _ => removed_chars
  end.

Definition assemble_truncated_output (prefix suffix marker : str) : str :=
  prefix ++ marker ++ suffix.

Definition truncate_with_byte_estimate (s : str) (policy : TruncationPolicy)
    : outcome Empty_set str :=
  match s with
  | [] => Ok []
  | _ =>
      let total_chars := Z.of_nat (length s) in
      let max_bytes := byte_budget policy in
      if max_bytes =? 0 then
        Ok (format_truncation_marker policy
              (removed_units_for_source policy (byte_len s) total_chars))
      else if byte_len s <=? max_bytes then Ok s
      else
        let total_bytes := byte_len s in
        let '(left_budget, right_budget) := split_budget max_bytes in
        '(removed_chars, before, after) ← split_string s left_budget right_budget;
        let marker := format_truncation_marker policy
          (removed_units_for_source policy (sat_sub total_bytes max_bytes) removed_chars) in
        Ok (assemble_truncated_output before after marker)
  end.

Definition truncate_with_token_budget (s : str) (policy : TruncationPolicy)
    : outcome Empty_set (str * option Z) :=
  match s with
  | [] => Ok ([], None)
  | _ =>
      let max_tokens := token_budget policy in
      let byte_len := byte_len s in
      if (0 <? max_tokens) && (byte_len <=? approx_bytes_for_tokens max_tokens) then Ok (s, None)
      else
        truncated ← truncate_with_byte_estimate s policy;
        let approx_total := approx_token_count s in
        if bool_decide (truncated = s) then Ok (truncated, None)
        else Ok (truncated, Some approx_total)
  end.

Definition truncate_text (content : str) (policy : TruncationPolicy) : outcome Empty_set str :=
  match policy with
  | Bytes _ => truncate_with_byte_estimate content policy
  | Tokens _ => '(truncated, _) ← truncate_with_token_budget content policy; Ok truncated
  end.

Definition formatted_truncate_text (content : str) (policy : TruncationPolicy)
    : outcome Empty_set str :=
  if byte_len content <=? byte_budget policy then Ok content
  else
    let total_lines := length (lines content) in
    result ← truncate_text content policy;
    Ok (lit "Total output lines: " ++ show_nat total_lines ++ [NL; NL] ++ result).

(** ** Truncating content items *)
Definition text_of (item : FunctionCallOutputContentItem) : option str :=
  match item with OutInputText text => Some text | OutInputImage _ _ => None end.

Definition image_of (item : FunctionCallOutputContentItem) : option FunctionCallOutputContentItem :=
  match item with
  | OutInputImage image_url detail => Some (OutInputImage image_url detail)
  | OutInputText _ => None
  end.

Definition formatted_truncate_text_content_items_with_policy
    (items : list FunctionCallOutputContentItem) (policy : TruncationPolicy)
    : outcome Empty_set (list FunctionCallOutputContentItem * option Z) :=
  let text_segments := omap text_of items in
  match text_segments with
  | [] => Ok (items, None)
  | _ =>
      let combined := foldl (λ combined text,
        (if bool_decide (combined = []) then combined else combined ++ [NL]) ++ text)
        [] text_segments in
      if byte_len combined <=? byte_budget policy then Ok (items, None)
      else
        text ← formatted_truncate_text combined policy;
        Ok (OutInputText text :: omap image_of items, Some (approx_token_count combined))
  end.

Definition item_cost (policy : TruncationPolicy) (text : str) : Z :=
  match policy with Bytes _ => byte_len text | Tokens _ => approx_token_count text end.

Definition with_limit (policy : TruncationPolicy) (n : Z) : TruncationPolicy :=
  match policy with Bytes _ => Bytes n | Tokens _ => Tokens n end.

(** The loop over the items: the output, the remaining budget and the number of
    omitted text items. *)
Fixpoint truncate_items_loop (policy : TruncationPolicy)
    (items : list FunctionCallOutputContentItem) (out : list FunctionCallOutputContentItem)
    (remaining_budget : Z) (omitted_text_items : nat)
    : outcome Empty_set (list FunctionCallOutputContentItem * nat) :=
  match items with
  | [] => Ok (out, omitted_text_items)
  | OutInputText text :: items =>
      if remaining_budget =? 0 then
        truncate_items_loop policy items out remaining_budget (S omitted_text_items)
      else
        let cost := item_cost policy text in
        if cost <=? remaining_budget then
          truncate_items_loop policy items (out ++ [OutInputText text])
            (sat_sub remaining_budget cost) omitted_text_items
        else
          snippet ← truncate_text text (with_limit policy remaining_budget);
          if bool_decide (snippet = [])
          then truncate_items_loop policy items out 0 (S omitted_text_items)
          else truncate_items_loop policy items (out ++ [OutInputText snippet]) 0 omitted_text_items
  | OutInputImage image_url detail :: items =>
      truncate_items_loop policy items (out ++ [OutInputImage image_url detail])
        remaining_budget omitted_text_items
  end.

Definition omitted_summary (omitted_text_items : nat) : FunctionCallOutputContentItem :=
  OutInputText (lit "[omitted " ++ show_nat omitted_text_items ++ lit " text items ...]").

Definition truncate_function_output_items_with_policy
    (items : list FunctionCallOutputContentItem) (policy : TruncationPolicy)
    : outcome Empty_set (list FunctionCallOutputContentItem) :=
  let remaining_budget :=
    match policy with Bytes _ => byte_budget policy | Tokens _ => token_budget policy end in
  '(out, omitted_text_items) ← truncate_items_loop policy items [] remaining_budget 0;
  Ok (if (0 <? omitted_text_items)%nat then out ++ [omitted_summary omitted_text_items] else out).

(** ** The reference for [split_string] *)
(** The longest prefix of at most [n] bytes, and the rest. *)
Fixpoint fit_prefix (n : Z) (s : str) : str * str :=
  match s with
  | [] => ([], [])
  | c :: s' =>
      if Z.of_nat (len_utf8 c) <=? n then
        let '(a, b) := fit_prefix (n - Z.of_nat (len_utf8 c)) s' in (c :: a, b)
      else ([], s)
  end.

(** What comes before the longest suffix of at most [n] bytes, and that suffix. *)
Fixpoint fit_suffix (n : Z) (s : str) : str * str :=
  match s with
  | [] => ([], [])
  | c :: s' =>
      if byte_len s <=? n then ([], s)
      else let '(a, b) := fit_suffix n s' in (c :: a, b)
  end.

Lemma len_utf8_pos c : 1 ≤ Z.of_nat (len_utf8 c).
Proof. unfold len_utf8. repeat case_match; lia. Qed.

Lemma byte_len_cons c s : byte_len (c :: s) = Z.of_nat (len_utf8 c) + byte_len s.
Proof. unfold byte_len, str_len. rewrite fmap_cons. apply Nat2Z.inj_add. Qed.

Lemma byte_len_app a b : byte_len (a ++ b) = byte_len a + byte_len b.
Proof.
  induction a as [|c a IH]; [done|]. cbn [app]. rewrite !byte_len_cons, IH. lia.
Qed.

Lemma byte_len_nonneg s : 0 ≤ byte_len s.
Proof. unfold byte_len. lia. Qed.

Lemma byte_len_length s : Z.of_nat (length s) ≤ byte_len s.
Proof.
  induction s as [|c s IH]; [done|]. rewrite byte_len_cons. pose proof (len_utf8_pos c).
  simpl. lia.
Qed.

Lemma byte_len_nil : byte_len [] = 0.
Proof. done. Qed.

Lemma split_at_byte_app a b : split_at_byte (a ++ b) (byte_len a) = Some (a, b).
Proof.
  induction a as [|c a IH]; [by destruct b|]. cbn [app split_at_byte]. rewrite byte_len_cons.
  pose proof (len_utf8_pos c). pose proof (byte_len_nonneg a).
  rewrite (proj2 (Z.eqb_neq _ _)) by lia. rewrite (proj2 (Z.ltb_ge _ _)) by lia.
  replace (Z.of_nat (len_utf8 c) + byte_len a - Z.of_nat (len_utf8 c)) with (byte_len a) by lia.
  by rewrite IH.
Qed.

Lemma fit_prefix_spec n s a b :
  fit_prefix n s = (a, b) → 0 ≤ n →
  s = a ++ b ∧ byte_len a ≤ n ∧
  match b with [] => True | c :: _ => n < byte_len a + Z.of_nat (len_utf8 c) end.
Proof.
  revert n a b; induction s as [|c s IH]; intros n a b; cbn [fit_prefix].
  { intros [= <- <-]. by rewrite byte_len_nil. }
  destruct (Z.leb_spec (Z.of_nat (len_utf8 c)) n).
  - destruct (fit_prefix _ s) as [a' b'] eqn:E. intros [= <- <-] Hn.
    destruct (IH _ _ _ E) as (-> & Hl & Hb); [lia|]. rewrite byte_len_cons.
    split_and!; [done|lia|]. destruct b'; [done|lia].
  - intros [= <- <-] Hn. rewrite byte_len_nil. split_and!; [done|lia|lia].
Qed.

Lemma fit_suffix_spec n s a b :
  fit_suffix n s = (a, b) → 0 ≤ n →
  s = a ++ b ∧ byte_len b ≤ n ∧ ∀ a' c, a = a' ++ [c] → n < byte_len (c :: b).
Proof.
  revert a b; induction s as [|c s IH]; intros a b; cbn [fit_suffix].
  { intros [= <- <-] ?. split_and!; [done|by rewrite byte_len_nil|]. by intros [] ?. }
  destruct (Z.leb_spec (byte_len (c :: s)) n).
  - intros [= <- <-] Hn. split_and!; [done|done|]. by intros [] ?.
  - destruct (fit_suffix n s) as [a' b'] eqn:E. intros [= <- <-] Hn.
    destruct (IH _ _ eq_refl Hn) as (-> & Hl & Hmax). split_and!; [done|done|].
    intros [|x a''] c' [= -> ->]; [|by eapply Hmax]. done.
Qed.

(** ** The loop of [split_string] *)
Definition first_over (b idx : Z) (s : str) : Prop :=
  match s with [] => True | c :: _ => b < idx + Z.of_nat (len_utf8 c) end.

Lemma first_over_next b idx c s :
  first_over b idx (c :: s) → first_over b (idx + Z.of_nat (len_utf8 c)) s.
Proof.
  destruct s as [|d s]; [done|]. simpl. pose proof (len_utf8_pos d). lia.
Qed.

Lemma split_loop_prefix b t idx a rest st :
  idx + byte_len a ≤ b → prefix_end st = idx →
  split_loop b t idx (a ++ rest) st =
  split_loop b t (idx + byte_len a) rest
    {| prefix_end := idx + byte_len a; suffix_start := suffix_start st;
       removed_chars := removed_chars st; suffix_started := suffix_started st |}.
Proof.
  revert idx st; induction a as [|c a IH]; intros idx st Hb Hp.
  { rewrite byte_len_nil, Z.add_0_r. cbn [app]. f_equal. destruct st; simpl in *; by subst. }
  rewrite byte_len_cons in *. pose proof (byte_len_nonneg a). cbn [app split_loop].
  unfold split_step. rewrite (proj2 (Z.leb_le _ _)) by lia.
  rewrite IH; cbn [prefix_end suffix_start removed_chars suffix_started]; [|lia|done].
  by rewrite Z.add_assoc.
Qed.

Lemma split_loop_suffix b t idx s st :
  first_over b idx s → t ≤ idx → suffix_started st = true → split_loop b t idx s st = st.
Proof.
  revert idx; induction s as [|c s IH]; intros idx Hf Ht Hs; [done|]. cbn [split_loop].
  pose proof (len_utf8_pos c). unfold split_step.
  rewrite (proj2 (Z.leb_gt _ _)) by exact Hf. rewrite (proj2 (Z.leb_le _ _)), Hs by lia.
  apply IH; [by apply first_over_next|lia|done].
Qed.

Lemma split_loop_rest b t e idx s st :
  first_over b idx s → 0 ≤ idx → 0 ≤ e → t = sat_sub (idx + byte_len s) e →
  suffix_started st = false → suffix_start st = idx + byte_len s →
  0 ≤ removed_chars st → removed_chars st + byte_len s ≤ usize_max →
  let st' := split_loop b t idx s st in
  prefix_end st' = prefix_end st ∧
  suffix_start st' = idx + byte_len (fit_suffix e s).1 ∧
  removed_chars st' = removed_chars st + Z.of_nat (length (fit_suffix e s).1).
Proof.
  revert idx st; induction s as [|c s IH]; intros idx st Hf Hi He Ht Hs Hss Hr Hm; cbv zeta in *.
  { cbn [split_loop fit_suffix fst length]. rewrite byte_len_nil in *. lia. }
  cbn [split_loop fit_suffix]. pose proof (len_utf8_pos c) as Hc.
  pose proof (byte_len_nonneg s) as Hs0. unfold split_step.
  rewrite (proj2 (Z.leb_gt _ _)) by exact Hf.
  assert (Hti : t ≤ idx ↔ byte_len (c :: s) ≤ e) by (subst t; usize_lia).
  rewrite byte_len_cons in *. destruct (Z.leb_spec t idx) as [Hle|Hgt].
  - rewrite (proj2 (Z.leb_le _ e)) by (by apply Hti). rewrite Hs.
    rewrite split_loop_suffix; [|by apply first_over_next|lia|done].
    cbn [fst length prefix_end suffix_start removed_chars]. rewrite byte_len_nil. lia.
  - destruct (Z.leb_spec (Z.of_nat (len_utf8 c) + byte_len s) e) as [|_]; [lia|].
    destruct (IH (idx + Z.of_nat (len_utf8 c))
      {| prefix_end := prefix_end st; suffix_start := suffix_start st;
         removed_chars := sat_add (removed_chars st) 1; suffix_started := suffix_started st |})
      as (H1 & H2 & H3); cbn [prefix_end suffix_start removed_chars suffix_started] in *.
    + by apply first_over_next.
    + lia.
    + done.
    + rewrite Ht. f_equal. lia.
    + done.
    + lia.
    + usize_lia.
    + usize_lia.
    + rewrite H1, H2, H3. destruct (fit_suffix e s) as [a b']. cbn [fst length].
      rewrite byte_len_cons. split_and!; [done|lia|]. usize_lia.
Qed.

Lemma match_nonempty {A} (s : str) (x y : A) :
  s ≠ [] → match s with [] => x | _ => y end = y.
Proof. by destruct s. Qed.

(** [split_string] computes the reference split. *)
Lemma split_string_eq s b e :
  0 ≤ b → 0 ≤ e → byte_len s ≤ usize_max →
  split_string s b e =
    let '(before, rest) := fit_prefix b s in
    let '(mid, after) := fit_suffix e rest in
    Ok (Z.of_nat (length mid), before, after).
Proof.
  intros Hb He Hu. destruct (fit_prefix b s) as [before rest] eqn:Ep.
  destruct (fit_prefix_spec _ _ _ _ Ep Hb) as (Hs & Hl & Hover).
  destruct (fit_suffix e rest) as [mid after] eqn:Es.
  destruct (fit_suffix_spec _ _ _ _ Es He) as (Hrest & Hla & _).
  destruct (decide (s = [])) as [->|Hne].
  { injection Ep as <- <-. injection Es as <- <-. done. }
  unfold split_string. rewrite (match_nonempty s) by done. cbv zeta.
  pose proof (byte_len_nonneg before) as H0. pose proof (byte_len_nonneg mid) as H1.
  pose proof (byte_len_nonneg after) as H2.
  assert (Hlen : byte_len s = byte_len before + byte_len rest) by (rewrite Hs; apply byte_len_app).
  assert (Hlr : byte_len rest = byte_len mid + byte_len after) by (rewrite Hrest; apply byte_len_app).
  set (st := split_loop _ _ _ _ _).
  assert (Hst : prefix_end st = byte_len before ∧
    suffix_start st = byte_len before + byte_len mid ∧ removed_chars st = Z.of_nat (length mid)).
  { assert (st = split_loop b (sat_sub (byte_len s) e) 0 (before ++ rest)
      {| prefix_end := 0; suffix_start := byte_len s; removed_chars := 0; suffix_started := false |})
      as -> by (unfold st; by rewrite <-Hs).
    rewrite split_loop_prefix by (simpl; lia).
    cbn [prefix_end suffix_start removed_chars suffix_started]. rewrite Z.add_0_l.
    pose proof (split_loop_rest b (sat_sub (byte_len s) e) e (byte_len before) rest
      {| prefix_end := byte_len before; suffix_start := byte_len s; removed_chars := 0;
         suffix_started := false |}) as Hr. cbv zeta in Hr.
    rewrite Es in Hr. cbn [prefix_end suffix_start removed_chars suffix_started fst] in Hr.
    destruct Hr as (-> & -> & ->); try done; try lia.
    f_equal. lia. }
  destruct Hst as (-> & -> & ->). rewrite (proj2 (Z.ltb_ge _ _)) by lia.
  assert (Hsp : split_at_byte s (byte_len before) = Some (before, rest))
    by (rewrite Hs; apply split_at_byte_app).
  assert (Hsp' : split_at_byte s (byte_len before + byte_len mid) = Some (before ++ mid, after))
    by (rewrite Hs, Hrest, app_assoc, <-byte_len_app; apply split_at_byte_app).
  by rewrite Hsp, Hsp'.
Qed.

(** ** Truncated text *)
Definition policy_ok (policy : TruncationPolicy) : Prop :=
  match policy with Bytes n | Tokens n => is_usize n end.

Lemma byte_budget_usize policy : policy_ok policy → is_usize (byte_budget policy).
Proof. destruct policy; simpl; unfold approx_bytes_for_tokens, APPROX_BYTES_PER_TOKEN; usize_lia. Qed.

(** How many units a truncation reports: the characters that were removed, or
    an estimate of the tokens over the budget. *)
Definition reported_units (policy : TruncationPolicy) (s mid : str) : Z :=
  match policy with
  | Bytes _ => Z.of_nat (length mid)
  | Tokens _ => approx_tokens_from_byte_count (byte_len s - byte_budget policy)
  end.

(** A text with its middle replaced by the marker. *)
Definition truncated_as (policy : TruncationPolicy) (s out : str) : Prop :=
  ∃ before mid after, s = before ++ mid ++ after ∧ mid ≠ [] ∧
    byte_len before + byte_len after ≤ byte_budget policy ∧
    out = before ++ format_truncation_marker policy (reported_units policy s mid) ++ after.

Lemma truncate_byte_estimate_spec s policy :
  policy_ok policy → byte_len s ≤ usize_max →
  ∃ out, truncate_with_byte_estimate s policy = Ok out ∧
    (byte_len s ≤ byte_budget policy ∧ out = s ∨
     byte_budget policy < byte_len s ∧ truncated_as policy s out).
Proof.
  intros Hp Hu. pose proof (byte_budget_usize _ Hp) as Hb. unfold is_usize in Hb.
  destruct (decide (s = [])) as [->|Hne].
  { exists []. split; [done|]. left. rewrite byte_len_nil. split; [lia|done]. }
  unfold truncate_with_byte_estimate. rewrite (match_nonempty s) by done. cbv zeta.
  assert (Hpos : 1 ≤ byte_len s).
  { destruct s as [|c s]; [done|]. rewrite byte_len_cons. pose proof (len_utf8_pos c).
    pose proof (byte_len_nonneg s). lia. }
  destruct (Z.eqb_spec (byte_budget policy) 0) as [Hz|Hz].
  { eexists; split; [done|]. right. split; [lia|]. exists [], s, []. rewrite app_nil_r.
    rewrite byte_len_nil. split_and!; [done|done|lia|]. cbn [app]. rewrite app_nil_r. f_equal.
    unfold removed_units_for_source, reported_units. destruct policy; [done|].
    by rewrite Hz, Z.sub_0_r. }
  destruct (Z.leb_spec (byte_len s) (byte_budget policy)) as [Hfit|Hover].
  { exists s. split; [done|]. by left. }
  unfold split_budget. pose proof (Z.div_mod (byte_budget policy) 2 ltac:(lia)).
  pose proof (Z.mod_pos_bound (byte_budget policy) 2 ltac:(lia)).
  rewrite split_string_eq by lia.
  destruct (fit_prefix _ s) as [before rest] eqn:Ep.
  destruct (fit_prefix_spec _ _ _ _ Ep) as (Hs & Hl & _); [lia|].
  destruct (fit_suffix _ rest) as [mid after] eqn:Es.
  destruct (fit_suffix_spec _ _ _ _ Es) as (Hr & Hla & _); [lia|].
  cbn [mbind outcome_bind]. eexists; split; [done|]. right. split; [done|].
  exists before, mid, after. split_and!; [by rewrite Hs, Hr| |lia|].
  - intros ->. rewrite Hs, Hr, byte_len_app in Hover. cbn [app] in Hover. lia.
  - unfold assemble_truncated_output. do 2 f_equal.
    unfold removed_units_for_source, reported_units. destruct policy; [done|].
    do 2 f_equal. usize_lia.
Qed.

Lemma truncate_text_truncates s policy :
  policy_ok policy → byte_len s ≤ usize_max →
  ∃ out, truncate_text s policy = Ok out ∧
    (byte_len s ≤ byte_budget policy ∧ out = s ∨
     byte_budget policy < byte_len s ∧ truncated_as policy s out).
Proof.
  intros Hp Hu. destruct policy as [n|n]; [by apply truncate_byte_estimate_spec|].
  unfold truncate_text, truncate_with_token_budget.
  destruct (decide (s = [])) as [->|Hne].
  { eexists; split; [done|]. left. split; [|done]. rewrite byte_len_nil.
    apply (byte_budget_usize _ Hp). }
  rewrite (match_nonempty s) by done. cbv zeta. cbn [token_budget].
  destruct ((0 <? n) && (byte_len s <=? approx_bytes_for_tokens n)) eqn:E.
  - eexists; split; [done|]. left. apply andb_true_iff in E as [_ E].
    apply Z.leb_le in E. by split.
  - destruct (truncate_byte_estimate_spec s (Tokens n) Hp Hu) as (out & -> & Hout).
    cbn [mbind outcome_bind]. case_bool_decide; eauto.
Qed.

(** ** Truncated items *)
(** The texts and the images of the items, in order. *)
Abbreviation texts := (omap text_of).
Abbreviation images := (omap image_of).

Lemma texts_images (items : list FunctionCallOutputContentItem) : texts (images items) = [].
Proof. induction items as [|[] items IH]; [done|exact IH|exact IH]. Qed.

Lemma images_images (items : list FunctionCallOutputContentItem) : images (images items) = images items.
Proof.
  induction items as [|[] items IH]; [done|exact IH|].
  cbn [omap list_omap image_of]. by f_equal.
Qed.

Definition items_ok (items : list FunctionCallOutputContentItem) : Prop :=
  Forall (λ t, byte_len t ≤ usize_max) (texts items).

Lemma item_cost_nonneg policy t : byte_len t ≤ usize_max → 0 ≤ item_cost policy t ≤ usize_max.
Proof.
  intros Ht. pose proof (byte_len_nonneg t). destruct policy; simpl; [lia|].
  unfold approx_token_count, APPROX_BYTES_PER_TOKEN. split; [apply Z.div_pos; usize_lia|].
  apply Z.div_le_upper_bound; usize_lia.
Qed.

(** Once the budget is used up the loop keeps the images and counts the texts. *)
Lemma truncate_items_empty policy items out k :
  truncate_items_loop policy items out 0 k = Ok (out ++ images items, k + length (texts items))%nat.
Proof.
  revert out k; induction items as [|[t|u d] items IH]; intros out k; cbn [truncate_items_loop].
  - by rewrite app_nil_r, Nat.add_0_r.
  - rewrite IH. cbn [omap list_omap text_of image_of length]. do 2 f_equal. lia.
  - rewrite IH. cbn [omap list_omap text_of image_of]. by rewrite <-app_assoc.
Qed.

Definition total_cost (policy : TruncationPolicy) (ts : list str) : Z :=
  foldr (λ t n, item_cost policy t + n) 0 ts.

(** The texts [outs] that are left of [ts] within a budget, and how many texts
    are omitted: a prefix of the texts unchanged, then at most one truncated
    text. *)
Definition texts_truncated (policy : TruncationPolicy) (budget : Z) (ts outs : list str)
    (omitted : nat) : Prop :=
  ∃ kept rest, ts = kept ++ rest ∧ total_cost policy kept ≤ budget ∧
    (rest = [] ∧ outs = kept ∧ omitted = 0%nat ∨
     rest ≠ [] ∧ total_cost policy kept = budget ∧ outs = kept ∧ omitted = length rest ∨
     ∃ t rest' snippet, rest = t :: rest' ∧ budget < total_cost policy kept + item_cost policy t ∧
       truncated_as (with_limit policy (budget - total_cost policy kept)) t snippet ∧
       outs = kept ++ [snippet] ∧ omitted = length rest').

Lemma texts_truncated_cons policy budget t ts outs omitted :
  item_cost policy t ≤ budget →
  texts_truncated policy (budget - item_cost policy t) ts outs omitted →
  texts_truncated policy budget (t :: ts) (t :: outs) omitted.
Proof.
  intros Hc (kept & rest & -> & Hk & Hcases). exists (t :: kept), rest.
  cbn [total_cost foldr]. split_and!; [done|unfold total_cost in *; lia|].
  destruct Hcases as [(-> & -> & ->)|[(Hr & Ht & -> & ->)|(t' & rest' & sn & -> & Ho & Htr & -> & ->)]].
  - by left.
  - right; left. split_and!; [done|unfold total_cost in *; lia|done|done].
  - right; right. exists t', rest', sn. split_and!; [done|unfold total_cost in *; lia| |done|done].
    fold (total_cost policy kept).
    replace (budget - (item_cost policy t + total_cost policy kept))
      with (budget - item_cost policy t - total_cost policy kept) by lia. done.
Qed.

Lemma truncated_as_nonempty policy s out : truncated_as policy s out → out ≠ [].
Proof.
  intros (before & mid & after & _ & _ & _ & ->) Hn. apply app_eq_nil in Hn as [_ Hn].
  destruct policy; discriminate.
Qed.

Lemma cost_over_budget policy t n :
  0 ≤ n → byte_len t ≤ usize_max → n < item_cost policy t →
  byte_budget (with_limit policy n) < byte_len t.
Proof.
  intros Hn Hu Hc. destruct policy; cbn [item_cost with_limit byte_budget] in *; [done|].
  unfold approx_token_count, approx_bytes_for_tokens, APPROX_BYTES_PER_TOKEN in *.
  assert (4 * (n + 1) ≤ sat_add (byte_len t) (sat_sub 4 1)).
  { pose proof (Z.mul_div_le (sat_add (byte_len t) (sat_sub 4 1)) 4 ltac:(lia)). lia. }
  usize_lia.
Qed.

Lemma truncate_items_loop_spec policy items out r k :
  is_usize r → items_ok items →
  ∃ outs omitted new, truncate_items_loop policy items out r k = Ok (out ++ new, (k + omitted)%nat) ∧
    images new = images items ∧ texts new = outs ∧ texts_truncated policy r (texts items) outs omitted.
Proof.
  revert out r k; induction items as [|[t|u d] items IH]; intros out r k Hr Hok;
    cbn [truncate_items_loop].
  - exists [], 0%nat, []. rewrite app_nil_r, Nat.add_0_r. split_and!; [done..|].
    exists [], []. unfold is_usize in Hr. split_and!; [done|simpl; lia|]. by left.
  - unfold items_ok in Hok. cbn [omap list_omap text_of] in Hok. apply Forall_cons in Hok as [Ht Hok].
    destruct (Z.eqb_spec r 0) as [->|Hz].
    { rewrite truncate_items_empty. exists [], (S (length (texts items))), (images items).
      pose proof (texts_images items) as Hti. pose proof (images_images items) as Hii.
      split_and!; [do 2 f_equal; lia|done|done|]. exists [], (t :: texts items).
      split_and!; [done|done|]. right; left. split_and!; done. }
    pose proof (item_cost_nonneg policy t Ht) as Hcost. unfold is_usize in Hr.
    destruct (Z.leb_spec (item_cost policy t) r) as [Hfit|Hover].
    + destruct (IH (out ++ [OutInputText t]) (sat_sub r (item_cost policy t)) k)
        as (outs & om & new & -> & Him & Htx & Htr); [usize_lia|done|].
      exists (t :: outs), om, (OutInputText t :: new). rewrite <-app_assoc.
      cbn [omap list_omap text_of image_of]. split_and!; [done|done|by rewrite <-Htx|].
      apply texts_truncated_cons; [done|].
      by replace (r - item_cost policy t) with (sat_sub r (item_cost policy t)) by usize_lia.
    + assert (Hpok : policy_ok (with_limit policy r)) by (destruct policy; done).
      destruct (truncate_text_truncates t _ Hpok Ht) as (sn & -> & [[Hf _]|[_ Htr]]).
      { pose proof (cost_over_budget policy t r ltac:(lia) Ht Hover). lia. }
      cbn [mbind outcome_bind]. rewrite bool_decide_false by (by eapply truncated_as_nonempty).
      rewrite truncate_items_empty. exists [sn], (length (texts items)), (OutInputText sn :: images items).
      rewrite <-app_assoc. cbn [omap list_omap text_of image_of app].
      pose proof (texts_images items) as Hti. pose proof (images_images items) as Hii.
      split_and!; [done|done|by rewrite Hti|]. exists [], (t :: texts items).
      cbn [total_cost foldr]. split_and!; [done|lia|]. right; right.
      exists t, (texts items), sn. rewrite Z.sub_0_r. split_and!; [done|lia|done|done|done].
  - destruct (IH (out ++ [OutInputImage u d]) r k) as (outs & om & new & -> & Him & Htx & Htr);
      [done|done|].
    exists outs, om, (OutInputImage u d :: new). rewrite <-app_assoc.
    cbn [omap list_omap text_of image_of]. split_and!; [done|by rewrite Him|done|done].
Qed.

(** The limit a policy starts from, in its own unit. *)
Definition policy_limit (policy : TruncationPolicy) : Z := match policy with Bytes n | Tokens n => n end.

(** [out] is a truncation of [items]. *)
Definition items_truncated (policy : TruncationPolicy)
    (items out : list FunctionCallOutputContentItem) : Prop :=
  images out = images items ∧
  ∃ outs omitted, texts_truncated policy (policy_limit policy) (texts items) outs omitted ∧
    OutInputText <$> texts out =
      (OutInputText <$> outs) ++ (if (0 <? omitted)%nat then [omitted_summary omitted] else []).

Lemma truncate_items_truncates items policy :
  policy_ok policy → items_ok items →
  ∃ out, truncate_function_output_items_with_policy items policy = Ok out ∧
    items_truncated policy items out.
Proof.
  intros Hp Hok. unfold truncate_function_output_items_with_policy.
  replace (match policy with Bytes _ => byte_budget policy | Tokens _ => token_budget policy end)
    with (policy_limit policy) by (by destruct policy).
  destruct (truncate_items_loop_spec policy items [] (policy_limit policy) 0)
    as (outs & om & new & -> & Him & Htx & Htr); [by destruct policy|done|].
  cbn [mbind outcome_bind Nat.add app]. eexists; split; [done|]. split.
  - destruct (0 <? om)%nat; [|done]. rewrite omap_app, Him. cbn. by rewrite app_nil_r.
  - exists outs, om. split; [done|].
    destruct (0 <? om)%nat; [|by rewrite app_nil_r, Htx]. rewrite omap_app, fmap_app, Htx. done.
Qed.

(** The text of the items, a line break between two texts unless nothing came
    before it. *)
Fixpoint skip_empty (ls : list str) : list str :=
  match ls with [] :: ls => skip_empty ls | _ => ls end.
Definition joined_text (items : list FunctionCallOutputContentItem) : str :=
  join [NL] (skip_empty (texts items)).

Lemma combined_joined ls :
  foldl (λ combined text,
    (if bool_decide (combined = []) then combined else combined ++ [NL]) ++ text) [] ls =
  join [NL] (skip_empty ls).
Proof.
  assert (Hacc : ∀ ls acc, acc ≠ [] →
    foldl (λ combined text,
      (if bool_decide (combined = []) then combined else combined ++ [NL]) ++ text) acc ls =
    join [NL] (acc :: ls)).
  { clear ls. induction ls as [|l ls IH]; intros acc Hne; [done|]. cbn [foldl].
    rewrite bool_decide_false by done. rewrite IH by (by destruct acc). cbn [join].
    destruct ls; rewrite <-!app_assoc; done. }
  induction ls as [|[|c l] ls IH]; [done|exact IH|]. cbn [foldl skip_empty app].
  rewrite bool_decide_true by done. by apply Hacc.
Qed.

(** ** Theorems *)
(** [split_string] never slices inside a character, and it keeps the
    longest prefix within [beginning_bytes], the longest suffix of the rest
    within [end_bytes], and counts exactly the characters between them. *)
Theorem split_string_spec (s : str) (beginning_bytes end_bytes : Z) :
  0 ≤ beginning_bytes → 0 ≤ end_bytes → byte_len s ≤ usize_max →
  ∃ before mid after,
    split_string s beginning_bytes end_bytes = Ok (Z.of_nat (length mid), before, after) ∧
    s = before ++ mid ++ after ∧
    byte_len before ≤ beginning_bytes ∧ byte_len after ≤ end_bytes ∧
    (∀ c, head (mid ++ after) = Some c → beginning_bytes < byte_len (before ++ [c])) ∧
    (∀ c, last mid = Some c → end_bytes < byte_len (c :: after)).
Proof.
  intros Hb He Hu. rewrite split_string_eq by done.
  destruct (fit_prefix _ s) as [before rest] eqn:Ep.
  destruct (fit_prefix_spec _ _ _ _ Ep) as (Hs & Hl & Hmax); [lia|].
  destruct (fit_suffix _ rest) as [mid after] eqn:Es.
  destruct (fit_suffix_spec _ _ _ _ Es) as (Hr & Hla & Hmax'); [lia|].
  exists before, mid, after. split_and!; [done|by rewrite Hs, Hr|done|done| |].
  - intros c Hc. rewrite <-Hr in Hc. destruct rest as [|c' rest]; [done|].
    injection Hc as ->. rewrite byte_len_app, byte_len_cons, byte_len_nil. lia.
  - intros c Hc. apply last_Some in Hc as [l ->]. by eapply Hmax'.
Qed.

Lemma split_string_spec_witness :
  ∃ before mid after,
    split_string (lit "hello world") 3 4 = Ok (Z.of_nat (length mid), before, after) ∧
    lit "hello world" = before ++ mid ++ after ∧
    byte_len before ≤ 3 ∧ byte_len after ≤ 4 ∧
    (∀ c, head (mid ++ after) = Some c → 3 < byte_len (before ++ [c])) ∧
    (∀ c, last mid = Some c → 4 < byte_len (c :: after)).
Proof. apply (split_string_spec (lit "hello world") 3 4); by vm_compute. Defined.

(** [out] keeps of [s] the longest prefix within half of [n] bytes and the
    longest suffix of the rest within the other half; the characters between
    them, of which there are some, have become a marker with their number. *)
Definition middle_cut (n : Z) (s out : str) : Prop :=
  ∃ before mid after, s = before ++ mid ++ after ∧ mid ≠ [] ∧
    byte_len before ≤ n / 2 ∧ byte_len after ≤ n - n / 2 ∧
    (∀ c, head mid = Some c → n / 2 < byte_len (before ++ [c])) ∧
    (∀ c, last mid = Some c → n - n / 2 < byte_len (c :: after)) ∧
    out = before ++ [ELLIPSIS] ++ show_N (N.of_nat (length mid)) ++
            lit " chars truncated" ++ [ELLIPSIS] ++ after.

Lemma middle_cut_all s :
  s ≠ [] → middle_cut 0 s (format_truncation_marker (Bytes 0) (Z.of_nat (length s))).
Proof.
  intros Hne. exists [], s, []. rewrite app_nil_r. change (0 / 2) with 0.
  split_and!; [done|done|done|done| | |].
  - intros c _. cbn [app]. rewrite byte_len_cons, byte_len_nil. pose proof (len_utf8_pos c). lia.
  - intros c _. rewrite byte_len_cons, byte_len_nil. pose proof (len_utf8_pos c). lia.
  - cbn [format_truncation_marker app]. unfold show_u64. by rewrite <-nat_N_Z, N2Z.id.
Qed.

Lemma byte_estimate_cuts s n :
  is_usize n → byte_len s ≤ usize_max → n < byte_len s →
  ∃ out, truncate_with_byte_estimate s (Bytes n) = Ok out ∧ middle_cut n s out.
Proof.
  unfold is_usize. intros Hn Hu Hover.
  assert (Hne : s ≠ []) by (intros ->; rewrite byte_len_nil in Hover; lia).
  unfold truncate_with_byte_estimate. rewrite (match_nonempty s) by done. cbv zeta.
  cbn [byte_budget removed_units_for_source].
  destruct (Z.eqb_spec n 0) as [->|Hz]; [eexists; split; [done|by apply middle_cut_all]|].
  rewrite (proj2 (Z.leb_gt _ _)) by done. unfold split_budget.
  pose proof (Z.div_mod n 2 ltac:(lia)). pose proof (Z.mod_pos_bound n 2 ltac:(lia)).
  destruct (split_string_spec s (n / 2) (n - n / 2)) as (before & mid & after & -> & Hs & Hb & Ha & Hpre & Hsuf);
    [lia..|].
  cbn [mbind outcome_bind]. eexists; split; [done|].
  assert (Hmid : mid ≠ []).
  { intros ->. rewrite Hs, byte_len_app in Hover. cbn [app] in Hover. lia. }
  exists before, mid, after. split_and!; try done.
  - intros c Hc. apply Hpre. by destruct mid.
  - unfold assemble_truncated_output, format_truncation_marker, show_u64.
    rewrite <-nat_N_Z, N2Z.id. cbn [app]. by rewrite <-!app_assoc.
Qed.

(** C10: with a budget of [n] bytes [truncate_text] always returns; a text of at
    most [n] bytes is returned unchanged, and of a longer one the longest prefix
    within half of [n], rounded down, and the longest suffix of the rest within
    the other half are kept; the characters removed between them, at least one,
    are replaced by a marker that tells their number. *)
Theorem truncate_text_spec (s : str) (n : Z) :
  is_usize n → byte_len s ≤ usize_max →
  ∃ out, truncate_text s (Bytes n) = Ok out ∧
    (byte_len s ≤ n ∧ out = s ∨ n < byte_len s ∧ middle_cut n s out).
Proof.
  intros Hn Hu. destruct (Z.le_gt_cases (byte_len s) n) as [Hfit|Hover].
  - destruct (truncate_text_truncates s (Bytes n)) as (out & E & [?|[? _]]); [done..|eauto|].
    cbn [byte_budget] in *. lia.
  - destruct (byte_estimate_cuts s n) as (out & E & ?); eauto.
Qed.

Lemma truncate_text_spec_witness :
  ∃ out, truncate_text (lit "hello world") (Bytes 7) = Ok out ∧
    (byte_len (lit "hello world") ≤ 7 ∧ out = lit "hello world" ∨
     7 < byte_len (lit "hello world") ∧ middle_cut 7 (lit "hello world") out).
Proof. apply (truncate_text_spec (lit "hello world") 7); by vm_compute. Defined.

(** Truncating the items of a tool output always returns; every image is
    kept in order; a prefix of the texts whose cost is within the budget is kept
    unchanged, at most one further text is truncated to the budget that is left,
    and the number of texts omitted after that is reported in a last text. *)
Theorem truncate_items_spec (items : list FunctionCallOutputContentItem) (policy : TruncationPolicy) :
  policy_ok policy → items_ok items →
  ∃ out, truncate_function_output_items_with_policy items policy = Ok out ∧
    items_truncated policy items out.
Proof. apply truncate_items_truncates. Qed.

Lemma truncate_items_spec_witness :
  let items := [OutInputText (lit "abc"); OutInputImage (lit "u") None; OutInputText (lit "defgh");
                OutInputText (lit "x")] in
  ∃ out, truncate_function_output_items_with_policy items (Bytes 5) = Ok out ∧
    items_truncated (Bytes 5) items out.
Proof.
  apply (truncate_items_spec [OutInputText (lit "abc"); OutInputImage (lit "u") None;
    OutInputText (lit "defgh"); OutInputText (lit "x")] (Bytes 5)).
  - by vm_compute.
  - repeat constructor; by vm_compute.
Defined.

(** [formatted_truncate_text_content_items_with_policy] returns the items
    as they are when their joined text is within the byte budget; otherwise it
    returns one text, with the number of lines and the truncated joined text,
    then every image, and the number of tokens of the joined text, a quarter of
    its bytes rounded up. *)
Theorem formatted_truncate_items_spec (items : list FunctionCallOutputContentItem)
    (policy : TruncationPolicy) :
  policy_ok policy → byte_len (joined_text items) ≤ i64_max →
  ∃ r, formatted_truncate_text_content_items_with_policy items policy = Ok r ∧
    (byte_len (joined_text items) ≤ byte_budget policy ∧ r = (items, None) ∨
     byte_budget policy < byte_len (joined_text items) ∧
     ∃ kept, truncated_as policy (joined_text items) kept ∧
       r = (OutInputText (lit "Total output lines: " ++ show_nat (length (lines (joined_text items)))
              ++ [NL; NL] ++ kept) :: images items,
            Some ((byte_len (joined_text items) + 3) / 4))).
Proof.
  intros Hp Hlen. pose proof (byte_budget_usize _ Hp) as Hb. unfold is_usize in Hb.
  unfold formatted_truncate_text_content_items_with_policy. fold (texts items). rewrite combined_joined.
  destruct (texts items) as [|t ts] eqn:E.
  { eexists; split; [done|]. left. split; [|done]. unfold joined_text. rewrite E.
    change (byte_len (join [NL] (skip_empty []))) with 0. lia. }
  cbv zeta. rewrite <-E. fold (joined_text items). unfold formatted_truncate_text.
  destruct (Z.leb_spec (byte_len (joined_text items)) (byte_budget policy)) as [Hle|Hgt]; [eauto|].
  destruct (truncate_text_truncates (joined_text items) policy) as (out & -> & [[? _]|[_ Hout]]);
    [done|unfold i64_max, usize_max in *; lia|lia|].
  cbn [mbind outcome_bind]. eexists; split; [done|]. right. split; [done|]. exists out. split; [done|].
  do 2 f_equal. unfold approx_token_count, APPROX_BYTES_PER_TOKEN, sat_add, sat_sub.
  f_equal. unfold usize_max, i64_max in *. lia.
Qed.

Lemma formatted_truncate_items_spec_witness :
  let items := [OutInputText []; OutInputText (lit "abcdef"); OutInputImage (lit "u") None;
                OutInputText (lit "ghi")] in
  let joined := lit "abcdef" ++ [NL] ++ lit "ghi" in
  ∃ r, formatted_truncate_text_content_items_with_policy items (Bytes 5) = Ok r ∧
    (byte_len joined ≤ 5 ∧ r = (items, None) ∨
     5 < byte_len joined ∧
     ∃ kept, truncated_as (Bytes 5) joined kept ∧
       r = (OutInputText (lit "Total output lines: " ++ show_nat (length (lines joined))
              ++ [NL; NL] ++ kept) :: images items, Some ((byte_len joined + 3) / 4))).
Proof.
  apply (formatted_truncate_items_spec [OutInputText []; OutInputText (lit "abcdef");
    OutInputImage (lit "u") None; OutInputText (lit "ghi")] (Bytes 5)); by vm_compute.
Defined.

(** The marker comes on top of the budget: the result can be longer than the
    budget, and than the text. *)
Lemma marker_over_budget :
  ∃ out, truncate_text (lit "hello") (Tokens 1) = Ok out ∧
    byte_budget (Tokens 1) < byte_len (lit "hello") < byte_len out.
Proof. eexists; split; [reflexivity|]. by vm_compute. Qed.
