(* ===== verification/Normalize.v ===== *)
(** * Normalisation of the history: [core/src/context_manager/normalize.rs]

    The history sent to the model must pair tool calls with their outputs.
    The definitions follow the code, with [debug_assertions] as an argument:
    [error_or_panic] panics in debug builds and logs in release builds. *)
From stdpp Require Import base tactics option list numbers strings gmap sets.
From S2P Require Import Prelude.
From S2P Require Import RustStr.
From S2P Require Import Models.

Definition IMAGE_CONTENT_OMITTED_PLACEHOLDER : str :=
  lit "image content omitted because you do not support image input".

(** [error_or_panic] of [util.rs]. *)
Definition error_or_panic (debug_assertions : bool) : outcome Empty_set unit :=
  if debug_assertions then Panic else Ok tt.

(** [Vec::insert]. *)
Definition vec_insert {A} (l : list A) (i : nat) (x : A) : outcome Empty_set (list A) :=
  if i <=? length l then Ok (take i l ++ x :: drop i l) else Panic.

(** [Vec::retain] with a predicate that may panic. *)
Fixpoint retain {A} (f : A → outcome Empty_set bool) (l : list A) : outcome Empty_set (list A) :=
  match l with
  | [] => Ok []
  | x :: l =>
      keep ← f x;
      l ← retain f l;
      Ok (if (keep : bool) then x :: l else l)
  end.

(** [remove_first_matching]. *)
Fixpoint remove_first_matching {A} (predicate : A → bool) (items : list A) : list A :=
  match items with
  | [] => []
  | x :: items => if predicate x then items else x :: remove_first_matching predicate items
  end.

Section normalize.
Context {Value : Type} (debug_assertions : bool).
Abbreviation item := (ResponseItem Value).

Definition is_function_output (id : str) (i : item) : bool :=
  match i with FunctionCallOutput existing _ => bool_decide (existing = id) | _ => false end.
Definition is_custom_output (id : str) (i : item) : bool :=
  match i with CustomToolCallOutput existing _ => bool_decide (existing = id) | _ => false end.
Definition is_search_output (id : str) (i : item) : bool :=
  match i with
  | ToolSearchOutput (Some existing) _ _ _ => bool_decide (existing = id)
  | _ => false
  end.
Definition is_function_call (id : str) (i : item) : bool :=
  match i with FunctionCall _ _ _ _ existing => bool_decide (existing = id) | _ => false end.
Definition is_local_shell_call (id : str) (i : item) : bool :=
  match i with
  | LocalShellCall _ (Some existing) _ _ => bool_decide (existing = id)
  | _ => false
  end.
Definition is_custom_call (id : str) (i : item) : bool :=
  match i with CustomToolCall _ _ existing _ _ => bool_decide (existing = id) | _ => false end.
Definition is_search_call (id : str) (i : item) : bool :=
  match i with
  | ToolSearchCall _ (Some existing) _ _ _ => bool_decide (existing = id)
  | _ => false
  end.

Definition aborted : FunctionCallOutputPayload := from_text (lit "aborted").

(** The body of the first loop of [ensure_call_outputs_present]: the synthetic
    output to insert after [i], if any. *)
Definition missing_output (items : list item) (i : item) : outcome Empty_set (option item) :=
  match i with
  | FunctionCall _ _ _ _ call_id =>
      if existsb (is_function_output call_id) items then Ok None
      else Ok (Some (FunctionCallOutput call_id aborted))
  | ToolSearchCall _ (Some call_id) _ _ _ =>
      if existsb (is_search_output call_id) items then Ok None
      else Ok (Some (ToolSearchOutput (Some call_id) (lit "completed") (lit "client") []))
  | CustomToolCall _ _ call_id _ _ =>
      if existsb (is_custom_output call_id) items then Ok None
      else _ ← error_or_panic debug_assertions; Ok (Some (CustomToolCallOutput call_id aborted))
  | LocalShellCall _ (Some call_id) _ _ =>
      if existsb (is_function_output call_id) items then Ok None
      else _ ← error_or_panic debug_assertions; Ok (Some (FunctionCallOutput call_id aborted))
  | _ => Ok None
  end.

Fixpoint collect_missing (items : list item) (idx : nat) (rest : list item)
    : outcome Empty_set (list (nat * item)) :=
  match rest with
  | [] => Ok []
  | i :: rest =>
      m ← missing_output items i;
      ms ← collect_missing items (S idx) rest;
      Ok (match m with Some o => (idx, o) :: ms | None => ms end)
  end.

(** The second loop, from the end of the list of missing outputs. *)
Definition insert_missing (items : list item) (missing : list (nat * item))
    : outcome Empty_set (list item) :=
  foldr (λ '(idx, output_item) r, items ← r; vec_insert items (idx + 1) output_item)
    (Ok items) missing.

Definition ensure_call_outputs_present (items : list item) : outcome Empty_set (list item) :=
  missing ← collect_missing items 0 items;
  insert_missing items missing.

(** The sets of call ids of [remove_orphan_outputs]. *)
Definition function_call_ids (items : list item) : gset str :=
  list_to_set (omap (λ i, match i with FunctionCall _ _ _ _ id => Some id | _ => None end) items).
Definition tool_search_call_ids (items : list item) : gset str :=
  list_to_set (omap (λ i, match i with ToolSearchCall _ id _ _ _ => id | _ => None end) items).
Definition local_shell_call_ids (items : list item) : gset str :=
  list_to_set (omap (λ i, match i with LocalShellCall _ id _ _ => id | _ => None end) items).
Definition custom_tool_call_ids (items : list item) : gset str :=
  list_to_set (omap (λ i, match i with CustomToolCall _ _ id _ _ => Some id | _ => None end) items).

(** Keep [has_match] items, report the others. *)
Definition keep_matched (has_match : bool) : outcome Empty_set bool :=
  if has_match then Ok true else _ ← error_or_panic debug_assertions; Ok false.

Definition remove_orphan_outputs (items : list item) : outcome Empty_set (list item) :=
  let function_call_ids := function_call_ids items in
  let tool_search_call_ids := tool_search_call_ids items in
  let local_shell_call_ids := local_shell_call_ids items in
  let custom_tool_call_ids := custom_tool_call_ids items in
  retain (λ i,
    match i with
    | FunctionCallOutput call_id _ =>
        keep_matched (bool_decide (call_id ∈ function_call_ids) ||
                      bool_decide (call_id ∈ local_shell_call_ids))
    | CustomToolCallOutput call_id _ => keep_matched (bool_decide (call_id ∈ custom_tool_call_ids))
    | ToolSearchOutput call_id _ execution _ =>
        if bool_decide (execution = lit "server") then Ok true
        else match call_id with
             | Some call_id => keep_matched (bool_decide (call_id ∈ tool_search_call_ids))
             | None => Ok true
             end
    | _ => Ok true
    end) items.

Definition remove_corresponding_for (items : list item) (i : item) : list item :=
  match i with
  | FunctionCall _ _ _ _ call_id => remove_first_matching (is_function_output call_id) items
  | FunctionCallOutput call_id _ =>
      if existsb (is_function_call call_id) items
      then remove_first_matching (is_function_call call_id) items
      else remove_first_matching (is_local_shell_call call_id) items
  | ToolSearchCall _ (Some call_id) _ _ _ => remove_first_matching (is_search_output call_id) items
  | ToolSearchOutput (Some call_id) _ _ _ => remove_first_matching (is_search_call call_id) items
  | CustomToolCall _ _ call_id _ _ => remove_first_matching (is_custom_output call_id) items
  | CustomToolCallOutput call_id _ => remove_first_matching (is_custom_call call_id) items
  | LocalShellCall _ (Some call_id) _ _ => remove_first_matching (is_function_output call_id) items
  | _ => items
  end.

(** [strip_images_when_unsupported]. *)
Definition strip_content (c : ContentItem) : ContentItem :=
  match c with InputImage _ => InputText IMAGE_CONTENT_OMITTED_PLACEHOLDER | _ => c end.

Definition strip_output_content (c : FunctionCallOutputContentItem) : FunctionCallOutputContentItem :=
  match c with OutInputImage _ _ => OutInputText IMAGE_CONTENT_OMITTED_PLACEHOLDER | _ => c end.

Definition strip_payload (p : FunctionCallOutputPayload) : FunctionCallOutputPayload :=
  match content_items p with
  | Some items => set_content_items p (strip_output_content <$> items)
  | None => p
  end.

Definition strip_item (i : item) : item :=
  match i with
  | Message id role content end_turn phase =>
      Message id role (strip_content <$> content) end_turn phase
  | FunctionCallOutput call_id output => FunctionCallOutput call_id (strip_payload output)
  | CustomToolCallOutput call_id output => CustomToolCallOutput call_id (strip_payload output)
  | ImageGenerationCall id status revised_prompt _ =>
      ImageGenerationCall id status revised_prompt []
  | _ => i
  end.

Definition strip_images_when_unsupported (input_modalities : list InputModality)
    (items : list item) : list item :=
  if bool_decide (ImageModality ∈ input_modalities) then items else strip_item <$> items.

(** [ContextManager::normalize_history] of [history.rs]. *)
Definition normalize_history (items : list item) (input_modalities : list InputModality)
    : outcome Empty_set (list item) :=
  items ← ensure_call_outputs_present items;
  items ← remove_orphan_outputs items;
  Ok (strip_images_when_unsupported input_modalities items).

(** ** The pairing invariant *)
(** What a call waits for and what an output answers.  A local shell call is
    answered by a function call output. *)
Inductive pair_key : Type := FunctionKey (id : str) | CustomKey (id : str) | SearchKey (id : str).

#[global] Instance pair_key_eq_dec : EqDecision pair_key.
Proof. solve_decision. Defined.

Definition call_key (i : item) : option pair_key :=
  match i with
  | FunctionCall _ _ _ _ id => Some (FunctionKey id)
  | LocalShellCall _ (Some id) _ _ => Some (FunctionKey id)
  | CustomToolCall _ _ id _ _ => Some (CustomKey id)
  | ToolSearchCall _ (Some id) _ _ _ => Some (SearchKey id)
  | _ => None
  end.

Definition output_key (i : item) : option pair_key :=
  match i with
  | FunctionCallOutput id _ => Some (FunctionKey id)
  | CustomToolCallOutput id _ => Some (CustomKey id)
  | ToolSearchOutput (Some id) _ _ _ => Some (SearchKey id)
  | _ => None
  end.

(** A search the server ran needs no call in the history. *)
Definition server_output (i : item) : bool :=
  match i with ToolSearchOutput _ _ execution _ => bool_decide (execution = lit "server") | _ => false end.

Definition calls_answered (items : list item) : Prop :=
  ∀ i k, i ∈ items → call_key i = Some k → ∃ o, o ∈ items ∧ output_key o = Some k.

Definition outputs_called (items : list item) : Prop :=
  ∀ o k, o ∈ items → output_key o = Some k → server_output o = false →
    ∃ i, i ∈ items ∧ call_key i = Some k.

Definition paired (items : list item) : Prop := calls_answered items ∧ outputs_called items.
End normalize.

(** ** Lemmas *)
Section pairing.
Context {Value : Type}.
Abbreviation item := (ResponseItem Value).
Implicit Types (items rest pre : list item) (i o : item) (dbg : bool).

Definition has_output (items : list item) (k : pair_key) : Prop :=
  ∃ o, o ∈ items ∧ output_key o = Some k.
Definition has_call (items : list item) (k : pair_key) : Prop :=
  ∃ i, i ∈ items ∧ call_key i = Some k.

Lemma existsb_key {A K} (f : A → bool) (key : A → option K) (k : K) (l : list A) :
  (∀ x, f x = true ↔ key x = Some k) → existsb f l = true ↔ ∃ x, x ∈ l ∧ key x = Some k.
Proof.
  intros Hf. rewrite existsb_exists. split; intros (x & Hin & Hx); exists x;
    (split; [by apply list_elem_of_In|by apply Hf]).
Qed.

Lemma function_output_key id i : is_function_output id i = true ↔ output_key i = Some (FunctionKey id).
Proof.
  destruct i as [| | | | | | | |[] ? ? ?| | | | |]; simpl; try done.
  rewrite bool_decide_eq_true. naive_solver.
Qed.
Lemma custom_output_key id i : is_custom_output id i = true ↔ output_key i = Some (CustomKey id).
Proof.
  destruct i as [| | | | | | | |[] ? ? ?| | | | |]; simpl; try done.
  rewrite bool_decide_eq_true. naive_solver.
Qed.
Lemma search_output_key id i : is_search_output id i = true ↔ output_key i = Some (SearchKey id).
Proof.
  destruct i as [| | | | | | | |[] ? ? ?| | | | |]; simpl; try done.
  rewrite bool_decide_eq_true. naive_solver.
Qed.
Lemma custom_call_key id i : is_custom_call id i = true ↔ call_key i = Some (CustomKey id).
Proof.
  destruct i as [| |? [] ? ?| |? [] ? ? ?| | | | | | | | |]; simpl; try done.
  rewrite bool_decide_eq_true. naive_solver.
Qed.
Lemma search_call_key id i : is_search_call id i = true ↔ call_key i = Some (SearchKey id).
Proof.
  destruct i as [| |? [] ? ?| |? [] ? ? ?| | | | | | | | |]; simpl; try done.
  rewrite bool_decide_eq_true. naive_solver.
Qed.
Lemma function_call_key id i :
  is_function_call id i = true ∨ is_local_shell_call id i = true ↔ call_key i = Some (FunctionKey id).
Proof.
  destruct i as [| |? [] ? ?| |? [] ? ? ?| | | | | | | | |]; simpl;
    rewrite ?bool_decide_eq_true; naive_solver.
Qed.

(** What [missing_output] finds. *)
Lemma missing_output_Ok dbg items i m :
  missing_output dbg items i = Ok m →
  match m with
  | None => ∀ k, call_key i = Some k → has_output items k
  | Some o => ∃ k, call_key i = Some k ∧ output_key o = Some k ∧ call_key o = None ∧
                   ¬ has_output items k
  end.
Proof.
  assert (Hcase : ∀ f k (mk : outcome Empty_set (option item)) o,
    (∀ x, f x = true ↔ output_key x = Some k) → (∀ r, mk = Ok r → r = Some o) →
    call_key i = Some k → output_key o = Some k → call_key o = None →
    (if existsb f items then Ok None else mk) = Ok m →
    match m with
    | None => ∀ k, call_key i = Some k → has_output items k
    | Some o => ∃ k, call_key i = Some k ∧ output_key o = Some k ∧ call_key o = None ∧
                     ¬ has_output items k
    end).
  { intros f k mk o Hf Hmk Hi Ho Hno. destruct (existsb f items) eqn:E.
    - intros [= <-] k' Hk'. rewrite Hi in Hk'. injection Hk' as <-.
      by apply (existsb_key f output_key k) in E.
    - intros Hr. rewrite (Hmk _ Hr). exists k. split_and!; [done..|].
      intros Hh. apply (existsb_key f output_key k) in Hh; [|done]. congruence. }
  assert (Herr : ∀ (o : item) r,
    (_ ← error_or_panic dbg; Ok (Some o)) = Ok r → r = Some o) by (destruct dbg; naive_solver).
  destruct i as [| |? [id|] ? ?|? ? ? ? id|? [id|] ? ? ?| |? ? id ? ?| | | | | | |];
    cbn [missing_output]; try (by intros [= <-] ? ?); intros Hm.
  - apply (Hcase (is_function_output id) (FunctionKey id) _ (FunctionCallOutput id aborted))
      in Hm; [done|apply function_output_key|apply Herr|done..].
  - apply (Hcase (is_function_output id) (FunctionKey id) _ (FunctionCallOutput id aborted))
      in Hm; [done|apply function_output_key|by intros ? [= <-]|done..].
  - apply (Hcase (is_search_output id) (SearchKey id) _
      (ToolSearchOutput (Some id) (lit "completed") (lit "client") []))
      in Hm; [done|apply search_output_key|by intros ? [= <-]|done..].
  - apply (Hcase (is_custom_output id) (CustomKey id) _ (CustomToolCallOutput id aborted))
      in Hm; [done|apply custom_output_key|apply Herr|done..].
Qed.

Lemma missing_output_release items i : ∃ m, missing_output false items i = Ok m.
Proof.
  destruct i as [| |? [id|] ? ?|? ? ? ? id|? [id|] ? ? ?| |? ? id ? ?| | | | | | |];
    cbn [missing_output]; eauto; case_match; eauto.
Qed.

Lemma missing_output_debug dbg items i m :
  missing_output dbg items i = Ok m → missing_output false items i = Ok m.
Proof.
  destruct dbg; [|done].
  destruct i as [| |? [id|] ? ?|? ? ? ? id|? [id|] ? ? ?| |? ? id ? ?| | | | | | |];
    cbn [missing_output error_or_panic]; try done; case_match; done.
Qed.

(** An item, followed by its synthetic output if it has none. *)
Definition expand (items : list item) (i : item) : list item :=
  i :: match missing_output false items i with Ok (Some o) => [o] | _ => [] end.

Lemma collect_insert dbg items pre rest ms :
  collect_missing dbg items (length pre) rest = Ok ms →
  insert_missing (pre ++ rest) ms = Ok (pre ++ (rest ≫= expand items)).
Proof.
  revert pre ms; induction rest as [|i rest IH]; intros pre ms; cbn [collect_missing].
  { by intros [= <-]. }
  intros (m & Hm & (ms' & Hms & [= <-])%bind_Ok_inv)%bind_Ok_inv.
  apply missing_output_debug in Hm.
  replace (S (length pre)) with (length (pre ++ [i])) in Hms by (rewrite length_app; simpl; lia).
  apply IH in Hms. rewrite <-!app_assoc in Hms. cbn [app] in Hms.
  rewrite bind_cons. unfold expand at 1. rewrite Hm. destruct m as [o|]; [|done].
  unfold insert_missing in *. cbn [foldr]. rewrite Hms. cbn [mbind outcome_bind].
  unfold vec_insert. rewrite length_app, (proj2 (Nat.leb_le _ _)) by (simpl; lia). f_equal.
  replace (pre ++ i :: (rest ≫= expand items)) with ((pre ++ [i]) ++ (rest ≫= expand items))
    by (by rewrite <-app_assoc).
  replace (length pre + 1) with (length (pre ++ [i])) by (rewrite length_app; done).
  rewrite take_app_length, drop_app_length. by rewrite <-!app_assoc.
Qed.

Lemma ensure_Ok dbg items out :
  ensure_call_outputs_present dbg items = Ok out → out = items ≫= expand items.
Proof.
  unfold ensure_call_outputs_present. intros (ms & Hc & Hi)%bind_Ok_inv.
  apply (collect_insert dbg items []) in Hc. cbn [app] in Hc. congruence.
Qed.

Lemma ensure_release items : ensure_call_outputs_present false items = Ok (items ≫= expand items).
Proof.
  unfold ensure_call_outputs_present.
  assert (Hc : ∀ idx rest, ∃ ms, collect_missing false items idx rest = Ok ms).
  { intros idx rest. revert idx; induction rest as [|i rest IH]; intros idx; simpl; [eauto|].
    destruct (missing_output_release items i) as [m ->]. destruct (IH (S idx)) as [ms ->].
    cbn [mbind outcome_bind]. eauto. }
  destruct (Hc 0 items) as [ms Hms]. rewrite Hms. cbn [mbind outcome_bind].
  apply (collect_insert false items []) in Hms. done.
Qed.

Lemma expand_answered items : calls_answered (items ≫= expand items).
Proof.
  intros i k Hi Hk. apply list_elem_of_bind in Hi as (j & Hi & Hj). unfold expand in Hi.
  destruct (missing_output_release items j) as [m Hm].
  pose proof (missing_output_Ok _ _ _ _ Hm) as Hspec. rewrite Hm in Hi.
  assert (Hj' : i = j).
  { destruct m as [o|]; [|by apply list_elem_of_singleton in Hi].
    apply elem_of_cons in Hi as [->|Hi]; [done|]. apply list_elem_of_singleton in Hi as ->.
    destruct Hspec as (? & _ & _ & Hno & _). congruence. }
  subst j. destruct m as [o|].
  - destruct Hspec as (k' & Hk' & Ho & _ & _). rewrite Hk in Hk'. injection Hk' as <-.
    exists o. split; [|done]. apply list_elem_of_bind. exists i. split; [|done].
    unfold expand. rewrite Hm. right. left.
  - destruct (Hspec k Hk) as (o & Ho & Hko). exists o. split; [|done].
    apply list_elem_of_bind. exists o. split; [left|done].
Qed.

(** ** Orphans *)
Definition keep_item (items : list item) (i : item) : Prop :=
  match output_key i with
  | Some k => server_output i = true ∨ has_call items k
  | None => True
  end.

#[global] Instance has_call_dec items k : Decision (has_call items k).
Proof.
  destruct (decide (Exists (λ i, call_key i = Some k) items)) as [Hex|Hno].
  - left. by apply Exists_exists in Hex.
  - right. intros Hc. apply Hno. by apply Exists_exists.
Defined.
#[global] Instance keep_item_dec items i : Decision (keep_item items i).
Proof. unfold keep_item. destruct (output_key i); apply _. Defined.

Lemma retain_Ok {A} (f : A → outcome Empty_set bool) (P : A → Prop) `{∀ x, Decision (P x)} l :
  (∀ x b, f x = Ok b → b = true ↔ P x) →
  ∀ l', retain f l = Ok l' → l' = filter P l.
Proof.
  intros Hf. induction l as [|x l IH]; intros l'; cbn [retain]; [by intros [= <-]|].
  intros (b & Hb & (r & Hr & [= <-])%bind_Ok_inv)%bind_Ok_inv.
  specialize (Hf _ _ Hb). rewrite (IH _ Hr), filter_cons.
  destruct b; case_decide; naive_solver.
Qed.

Lemma retain_all {A} (f : A → outcome Empty_set bool) l :
  (∀ x, x ∈ l → f x = Ok true) → retain f l = Ok l.
Proof.
  induction l as [|x l IH]; intros Hf; cbn [retain]; [done|].
  rewrite Hf by left. cbn [mbind outcome_bind]. rewrite IH by (intros; apply Hf; by right). done.
Qed.

Lemma retain_returns {A} (f : A → outcome Empty_set bool) l :
  (∀ x, x ∈ l → ∃ b, f x = Ok b) → ∃ l', retain f l = Ok l'.
Proof.
  induction l as [|x l IH]; intros Hf; cbn [retain]; [eauto|].
  destruct (Hf x) as [b ->]; [left|]. destruct IH as [l' ->]; [intros; apply Hf; by right|].
  cbn [mbind outcome_bind]. eauto.
Qed.

Lemma elem_of_ids (f : item → option str) items id :
  id ∈ (list_to_set (omap f items) : gset str) ↔ ∃ i, i ∈ items ∧ f i = Some id.
Proof. rewrite elem_of_list_to_set. apply list_elem_of_omap. Qed.

Lemma function_ids items id :
  id ∈ function_call_ids items ∨ id ∈ local_shell_call_ids items ↔ has_call items (FunctionKey id).
Proof.
  unfold function_call_ids, local_shell_call_ids, has_call. rewrite !elem_of_ids. split.
  - intros [(i & Hi & Hf)|(i & Hi & Hf)]; exists i; (split; [done|]);
      destruct i as [| |? [] ? ?| |? [] ? ? ?| | | | | | | | |]; simpl in *; by simplify_eq.
  - intros (i & Hi & Hk). destruct i as [| |? [] ? ?| |? [] ? ? ?| | | | | | | | |]; simpl in *;
      simplify_eq; [right|left]; by eexists.
Qed.

Lemma custom_ids items id :
  id ∈ custom_tool_call_ids items ↔ has_call items (CustomKey id).
Proof.
  unfold custom_tool_call_ids, has_call. rewrite elem_of_ids. split; intros (i & Hi & Hk);
    exists i; (split; [done|]); destruct i as [| |? [] ? ?| |? [] ? ? ?| | | | | | | | |];
    simpl in *; by simplify_eq.
Qed.

Lemma search_ids items id :
  id ∈ tool_search_call_ids items ↔ has_call items (SearchKey id).
Proof.
  unfold tool_search_call_ids, has_call. rewrite elem_of_ids. split; intros (i & Hi & Hk);
    exists i; (split; [done|]); destruct i as [| |? [] ? ?| |? [] ? ? ?| | | | | | | | |];
    simpl in *; by simplify_eq.
Qed.

Lemma keep_matched_spec dbg b r : keep_matched dbg b = Ok r → r = b.
Proof. unfold keep_matched. destruct b, dbg; naive_solver. Qed.

Lemma remove_orphans_Ok dbg items out :
  remove_orphan_outputs dbg items = Ok out → out = filter (keep_item items) items.
Proof.
  apply retain_Ok. intros i b. unfold keep_item.
  destruct i as [| | | | |id ?| |id ?|[id|] ? ex ?| | | | |]; cbn [output_key server_output];
    try (by intros [= <-]).
  - intros ->%keep_matched_spec. rewrite <-function_ids, orb_true_iff, !bool_decide_eq_true.
    naive_solver.
  - intros ->%keep_matched_spec. rewrite <-custom_ids, !bool_decide_eq_true. naive_solver.
  - case_bool_decide.
    + intros [= <-]. naive_solver.
    + intros ->%keep_matched_spec. rewrite <-search_ids, !bool_decide_eq_true. naive_solver.
  - case_bool_decide; by intros [= <-].
Qed.

Lemma remove_orphans_release items :
  remove_orphan_outputs false items = Ok (filter (keep_item items) items).
Proof.
  assert (∃ out, remove_orphan_outputs false items = Ok out) as [out E].
  { apply retain_returns. intros i _.
    assert (Hm : ∀ b, ∃ r, keep_matched false b = Ok r) by (intros []; eauto).
    destruct i as [| | | | | | | |[] ? ? ?| | | | |]; eauto; case_bool_decide; eauto. }
  rewrite E. f_equal. by eapply remove_orphans_Ok.
Qed.

Lemma filter_keep_paired items :
  calls_answered items → paired (filter (keep_item items) items).
Proof.
  intros Hans.
  assert (Hcalls : ∀ i k, i ∈ items → call_key i = Some k → i ∈ filter (keep_item items) items).
  { intros i k Hi Hk. apply list_elem_of_filter. split; [|done]. unfold keep_item.
    by destruct i as [| |? [] ? ?| |? [] ? ? ?| | | | | | | | |]. }
  split.
  - intros i k [_ Hi]%list_elem_of_filter Hk. destruct (Hans i k Hi Hk) as (o & Ho & Hko).
    exists o. split; [|done]. apply list_elem_of_filter. split; [|done].
    unfold keep_item. rewrite Hko. right. by exists i.
  - intros o k [Hkeep Ho]%list_elem_of_filter Hk Hs. unfold keep_item in Hkeep.
    rewrite Hk in Hkeep. destruct Hkeep as [?|(i & Hi & Hki)]; [congruence|].
    exists i. split; [by eapply Hcalls|done].
Qed.

(** Stripping images changes no key. *)
Lemma strip_item_keys i :
  call_key (strip_item i) = call_key i ∧ output_key (strip_item i) = output_key i ∧
  server_output (strip_item i) = server_output i.
Proof. by destruct i. Qed.

Lemma strip_paired ms items :
  paired items → paired (strip_images_when_unsupported ms items).
Proof.
  unfold strip_images_when_unsupported. case_bool_decide; [done|]. intros [Hans Hout]. split.
  - intros i k (j & -> & Hj)%list_elem_of_fmap Hk. rewrite (proj1 (strip_item_keys j)) in Hk.
    destruct (Hans j k Hj Hk) as (o & Ho & Hko). exists (strip_item o).
    split; [by apply list_elem_of_fmap_2|]. by rewrite (proj1 (proj2 (strip_item_keys o))).
  - intros i k (j & -> & Hj)%list_elem_of_fmap Hk Hs. destruct (strip_item_keys j) as (_ & E2 & E3).
    rewrite E2 in Hk. rewrite E3 in Hs. destruct (Hout j k Hj Hk Hs) as (c & Hc & Hkc).
    exists (strip_item c). split; [by apply list_elem_of_fmap_2|].
    by rewrite (proj1 (strip_item_keys c)).
Qed.

Lemma ensure_paired dbg items :
  calls_answered items → ensure_call_outputs_present dbg items = Ok items.
Proof.
  intros Hans.
  assert (Hnone : ∀ i, i ∈ items → missing_output dbg items i = Ok None).
  { intros i Hi.
    destruct i as [| |? [id|] ? ?|? ? ? ? id|? [id|] ? ? ?| |? ? id ? ?| | | | | | |];
      cbn [missing_output]; try done.
    - destruct (Hans _ _ Hi eq_refl) as (o & Ho & Hk).
      by rewrite (proj2 (existsb_key _ _ _ _ (function_output_key id))) by eauto.
    - destruct (Hans _ _ Hi eq_refl) as (o & Ho & Hk).
      by rewrite (proj2 (existsb_key _ _ _ _ (function_output_key id))) by eauto.
    - destruct (Hans _ _ Hi eq_refl) as (o & Ho & Hk).
      by rewrite (proj2 (existsb_key _ _ _ _ (search_output_key id))) by eauto.
    - destruct (Hans _ _ Hi eq_refl) as (o & Ho & Hk).
      by rewrite (proj2 (existsb_key _ _ _ _ (custom_output_key id))) by eauto. }
  unfold ensure_call_outputs_present.
  assert (Hc : ∀ idx rest, rest ⊆ items → collect_missing dbg items idx rest = Ok []).
  { intros idx rest. revert idx; induction rest as [|i rest IH]; intros idx Hsub; [done|].
    cbn [collect_missing]. rewrite Hnone by set_solver. cbn [mbind outcome_bind].
    rewrite IH by set_solver. done. }
  by rewrite Hc.
Qed.

Lemma remove_orphans_paired dbg items :
  outputs_called items → remove_orphan_outputs dbg items = Ok items.
Proof.
  intros Hout.
  assert (Hk : Forall (keep_item items) items).
  { apply Forall_forall. intros i Hi. unfold keep_item. destruct (output_key i) as [k|] eqn:E; [|done].
    destruct (server_output i) eqn:Es; [by left|right]. by apply (Hout i). }
  apply retain_all. intros i Hi. rewrite Forall_forall in Hk. specialize (Hk i Hi).
  unfold keep_item in Hk. assert (Htrue : ∀ b, b = true → keep_matched dbg b = Ok true) by (by intros ? ->).
  destruct i as [| | | | |id ?| |id ?|[id|] ? ex ?| | | | |];
    cbn [output_key server_output] in Hk; try done.
  - apply Htrue. rewrite orb_true_iff, !bool_decide_eq_true, function_ids. naive_solver.
  - apply Htrue. rewrite bool_decide_eq_true, custom_ids. naive_solver.
  - case_bool_decide; [done|]. apply Htrue. rewrite bool_decide_eq_true, search_ids. naive_solver.
  - by case_bool_decide.
Qed.

(** ** Removing an item with its counterpart *)
(** Every call has exactly one output and no id is used twice. *)
Definition balanced (items : list item) : Prop :=
  NoDup (omap call_key items) ∧ omap call_key items ≡ₚ omap output_key items.

Lemma rfm_perm {A K} (f : A → bool) (key : A → option K) (k : K) (l : list A) :
  (∀ x, f x = true → key x = Some k) → existsb f l = true →
  omap key l ≡ₚ k :: omap key (remove_first_matching f l).
Proof.
  intros Hf. induction l as [|x l IH]; cbn [existsb remove_first_matching]; [done|].
  destruct (f x) eqn:E; intros Hex.
  - cbn [omap list_omap]. by rewrite (Hf _ E).
  - specialize (IH Hex). cbn [omap list_omap]. destruct (key x); [|done].
    rewrite IH. apply Permutation_swap.
Qed.

Lemma rfm_other {A K} (f : A → bool) (key : A → option K) (l : list A) :
  (∀ x, f x = true → key x = None) → omap key (remove_first_matching f l) = omap key l.
Proof.
  intros Hf. induction l as [|x l IH]; cbn [remove_first_matching]; [done|].
  destruct (f x) eqn:E; cbn [omap list_omap]; [by rewrite (Hf _ E)|]. by rewrite IH.
Qed.

Lemma call_not_output i k : call_key i = Some k → output_key i = None.
Proof. by destruct i as [| |? [] ? ?| |? [] ? ? ?| | | |[] ? ? ?| | | | |]. Qed.
Lemma output_not_call i k : output_key i = Some k → call_key i = None.
Proof. by destruct i as [| |? [] ? ?| |? [] ? ? ?| | | |[] ? ? ?| | | | |]. Qed.

(** The counterpart of a call is an output with its key, and conversely. *)
Lemma remove_for_call items i k :
  call_key i = Some k →
  ∃ f, remove_corresponding_for items i = remove_first_matching f items ∧
    ∀ x, f x = true ↔ output_key x = Some k.
Proof.
  destruct i as [| |? [id|] ? ?|? ? ? ? id|? [id|] ? ? ?| |? ? id ? ?| | | | | | |];
    try done; cbn; intros [= <-]; eexists; (split; [reflexivity|]);
    auto using function_output_key, search_output_key, custom_output_key.
Qed.

Lemma remove_for_output items i k :
  output_key i = Some k →
  ∃ f, remove_corresponding_for items i = remove_first_matching f items ∧
    (∀ x, f x = true → call_key x = Some k) ∧ (has_call items k → existsb f items = true).
Proof.
  destruct i as [| | | | |id ?| |id ?|[id|] ? ex ?| | | | |]; try done; cbn; intros [= <-].
  - destruct (existsb (is_function_call id) items) eqn:E.
    + exists (is_function_call id). split_and!; [done| |done].
      intros x Hx. apply function_call_key. by left.
    + exists (is_local_shell_call id). split_and!; [done| |].
      * intros x Hx. apply function_call_key. by right.
      * intros (x & Hin & Hx). apply function_call_key in Hx as [Hx|Hx].
        -- assert (existsb (is_function_call id) items = true); [|congruence].
           apply existsb_exists. exists x. split; [by apply list_elem_of_In|done].
        -- apply existsb_exists. exists x. split; [by apply list_elem_of_In|done].
  - exists (is_custom_call id). split_and!; [done|apply custom_call_key|].
    apply (existsb_key _ _ _ _ (custom_call_key id)).
  - exists (is_search_call id). split_and!; [done|apply search_call_key|].
    apply (existsb_key _ _ _ _ (search_call_key id)).
Qed.

Lemma remove_corresponding_balanced items i :
  balanced (i :: items) → balanced (remove_corresponding_for items i).
Proof.
  intros [Hnd Hperm]. cbn [omap list_omap] in *.
  destruct (call_key i) as [k|] eqn:Ec.
  - rewrite (call_not_output _ _ Ec) in Hperm.
    destruct (remove_for_call items i k Ec) as (f & -> & Hf).
    assert (existsb f items = true) as Hex.
    { apply (existsb_key f output_key k); [done|]. apply list_elem_of_omap. rewrite <-Hperm. left. }
    pose proof (rfm_perm f output_key k items (λ x, proj1 (Hf x)) Hex) as Hp.
    assert (Hc : omap call_key (remove_first_matching f items) = omap call_key items).
    { apply rfm_other. intros x Hx%Hf. by eapply output_not_call. }
    split; rewrite Hc; [by apply NoDup_cons in Hnd as [_ ?]|].
    apply (Permutation_cons_inv (a:=k)). by rewrite Hperm.
  - destruct (output_key i) as [k|] eqn:Eo; last first.
    { replace (remove_corresponding_for items i) with items; [by split|].
      by destruct i as [| |? [] ? ?| |? [] ? ? ?| | | |[] ? ? ?| | | | |]. }
    destruct (remove_for_output items i k Eo) as (f & -> & Hf & Hex).
    assert (existsb f items = true) as Hex'.
    { apply Hex, list_elem_of_omap. rewrite Hperm. left. }
    pose proof (rfm_perm f call_key k items Hf Hex') as Hp.
    assert (Hc : omap output_key (remove_first_matching f items) = omap output_key items).
    { apply rfm_other. intros x Hx%Hf. by eapply call_not_output. }
    split; [|rewrite Hc].
    + rewrite Hp in Hnd. by apply NoDup_cons in Hnd as [_ ?].
    + apply (Permutation_cons_inv (a:=k)). by rewrite <-Hp.
Qed.

Lemma balanced_snoc items i : balanced (items ++ [i]) ↔ balanced (i :: items).
Proof.
  unfold balanced. rewrite !omap_app.
  assert (Hc : ∀ key : item → option pair_key,
    omap key items ++ omap key [i] ≡ₚ omap key (i :: items)).
  { intros key. cbn [omap list_omap]. destruct (key i); [|by rewrite app_nil_r].
    by rewrite Permutation_app_comm. }
  by rewrite !Hc.
Qed.

Lemma balanced_paired items : balanced items → paired items.
Proof.
  intros [_ Hp]. split.
  - intros i k Hi Hk. apply list_elem_of_omap. rewrite <-Hp. apply list_elem_of_omap. eauto.
  - intros o k Ho Hk _. apply list_elem_of_omap. rewrite Hp. apply list_elem_of_omap. eauto.
Qed.

(** ** What normalising changes *)
(** The calls, messages and outputs without a key. *)
Definition unkeyed (i : item) : Prop := output_key i = None.

#[global] Instance unkeyed_dec i : Decision (unkeyed i).
Proof. unfold unkeyed. apply _. Defined.

(** [out] differs from [items] only by outputs: everything else stays, in
    order; an output stays exactly when it is a server's or its call is there;
    and an output is added only for a call that had none. *)
Definition only_outputs_changed (items out : list item) : Prop :=
  filter unkeyed out = filter unkeyed items ∧
  (∀ o k, o ∈ items → output_key o = Some k →
    o ∈ out ↔ server_output o = true ∨ has_call items k) ∧
  (∀ o, o ∈ out → o ∉ items →
    ∃ k, output_key o = Some k ∧ has_call items k ∧ ¬ has_output items k).

Lemma expand_added items i o :
  o ∈ expand items i → o = i ∨ ∃ k, call_key i = Some k ∧ output_key o = Some k ∧ ¬ has_output items k.
Proof.
  unfold expand. intros [->|Ho]%elem_of_cons; [by left|right].
  destruct (missing_output_release items i) as [m Hm]. rewrite Hm in Ho.
  pose proof (missing_output_Ok _ _ _ _ Hm) as Hs. destruct m as [o'|]; [|by apply not_elem_of_nil in Ho].
  apply list_elem_of_singleton in Ho as ->. destruct Hs as (k & ? & ? & _ & ?). eauto.
Qed.

Lemma expand_has_call items k : has_call (items ≫= expand items) k ↔ has_call items k.
Proof.
  split; intros (i & Hi & Hk).
  - apply list_elem_of_bind in Hi as (j & [->|(k' & _ & Ho & _)]%expand_added & Hj); [by exists j|].
    apply output_not_call in Ho. congruence.
  - exists i. split; [|done]. apply list_elem_of_bind. exists i. split; [left|done].
Qed.

Lemma expand_unkeyed items l : filter unkeyed (l ≫= expand items) = filter unkeyed l.
Proof.
  induction l as [|i l IH]; [done|]. rewrite bind_cons, filter_app, IH, filter_cons.
  assert (E : filter unkeyed (expand items i) = if decide (unkeyed i) then [i] else []).
  { unfold expand. rewrite filter_cons.
    enough (filter unkeyed match missing_output false items i with Ok (Some o) => [o] | _ => [] end = [])
      as -> by done.
    destruct (missing_output_release items i) as [m Hm]. rewrite Hm.
    pose proof (missing_output_Ok _ _ _ _ Hm) as Hs. destruct m as [o|]; [|done].
    rewrite filter_cons_False; [done|]. destruct Hs as (k & _ & Ho & _). unfold unkeyed. congruence. }
  rewrite E. by case_decide.
Qed.

Lemma normalized_frame items :
  only_outputs_changed items (filter (keep_item (items ≫= expand items)) (items ≫= expand items)).
Proof.
  split_and!.
  - rewrite <-(expand_unkeyed items items). generalize (items ≫= expand items). intros l.
    rewrite list_filter_filter. apply list_filter_iff. intros i. unfold keep_item, unkeyed.
    split; [by intros [? _]|]. intros E. split; [done|]. by rewrite E.
  - intros o k Ho Hk. rewrite list_elem_of_filter. unfold keep_item. rewrite Hk, expand_has_call.
    split; [by intros [? _]|]. intros H. split; [done|]. apply list_elem_of_bind.
    exists o. split; [left|done].
  - intros o [_ Ho]%list_elem_of_filter Hno.
    apply list_elem_of_bind in Ho as (i & [->|(k & Hc & Hk & Hn)]%expand_added & Hi); [done|].
    exists k. split_and!; [done| |done]. by exists i.
Qed.


(** A history that is already paired is not changed, also in a debug build,
    apart from its images; so normalising twice is normalising once. *)
Theorem normalize_history_stable dbg items modalities :
  paired items →
  normalize_history dbg items modalities = Ok (strip_images_when_unsupported modalities items) ∧
  normalize_history dbg (strip_images_when_unsupported modalities items) modalities =
    Ok (strip_images_when_unsupported modalities items).
Proof.
  intros Hp.
  assert (Hn : ∀ l : list item, paired l →
    normalize_history dbg l modalities = Ok (strip_images_when_unsupported modalities l)).
  { intros l [Ha Ho]. unfold normalize_history. rewrite (ensure_paired dbg l Ha).
    cbn [mbind outcome_bind]. by rewrite (remove_orphans_paired dbg l Ho). }
  split; [by apply Hn|]. rewrite Hn by (by apply strip_paired). f_equal.
  unfold strip_images_when_unsupported. case_bool_decide; [done|].
  rewrite <-list_fmap_compose. apply list_fmap_ext. intros _ i _. unfold compose.
  assert (Hpay : ∀ p, strip_payload (strip_payload p) = strip_payload p).
  { intros [[t|cs] su]; [done|]. unfold strip_payload; cbn. f_equal. f_equal.
    rewrite <-list_fmap_compose. apply list_fmap_ext. by intros _ [] _. }
  destruct i; cbn [strip_item]; try done; try by rewrite Hpay. f_equal.
  rewrite <-list_fmap_compose. apply list_fmap_ext. by intros _ [] _.
Qed.
End pairing.

Definition sample_history : list (ResponseItem unit) :=
  [ Message None (lit "user") [InputText (lit "hi"); InputImage (lit "data:image/png;base64,AA")] None None;
    FunctionCall None (lit "shell") None (lit "{}") (lit "c1");
    FunctionCallOutput (lit "c1") (from_text (lit "ok")) ].

Lemma normalize_history_stable_witness :
  normalize_history true sample_history [TextModality] =
    Ok (strip_images_when_unsupported [TextModality] sample_history) ∧
  normalize_history true (strip_images_when_unsupported [TextModality] sample_history) [TextModality] =
    Ok (strip_images_when_unsupported [TextModality] sample_history).
Proof.
  apply (normalize_history_stable true sample_history [TextModality]).
  apply balanced_paired. split; [|reflexivity]. apply (bool_decide_unpack _). by vm_compute.
Defined.
