(* ===== verification/History.v ===== *)
(** * The transcript: [core/src/context_manager/history.rs]

    [ContextManager] keeps the items of a thread, from oldest to newest, and
    the token usage.  The functions of other crates it calls are arguments:
    the length of an item's JSON ([serde_json]) and the size of an encoded
    image ([base64] and [image]).  The contextual user messages come from
    [core/src/contextual_user_message.rs] and the token counts from
    [protocol/src/protocol.rs]. *)
From Stdlib Require Import SpecFloat.
From stdpp Require Import base tactics option list numbers strings gmap sets.
From S2P Require Import Prelude.
From S2P Require Import RustStr.
From S2P Require Import Models.
From S2P Require Import Truncate.
From S2P Require Import Normalize.

Local Open Scope Z_scope.

(** ** [policy * 1.2] *)
(** [f64] values by their IEEE definition; [1.2] is the nearest one. *)
Definition f64_of_usize (n : Z) : spec_float := binary_normalize 53 1024 n 0 false.
Definition f64_1_2 : spec_float := S754_finite false 5404319552844595 (-52).

(** [f.ceil() as usize]: the cast saturates and maps NaN to 0. *)
Definition ceil_as_usize (f : spec_float) : Z :=
  match f with
  | S754_finite false m e =>
      let v := if 0 <=? e then Z.pos m * 2 ^ e else - ((- Z.pos m) / 2 ^ (- e)) in
      Z.max 0 (Z.min usize_max v)
  | S754_infinity false => usize_max
  | _ => 0
  end.

Definition mul_f64 (policy : TruncationPolicy) (multiplier : spec_float) : TruncationPolicy :=
  match policy with
  | Bytes bytes => Bytes (ceil_as_usize (SFmul 53 1024 (f64_of_usize bytes) multiplier))
  | Tokens tokens => Tokens (ceil_as_usize (SFmul 53 1024 (f64_of_usize tokens) multiplier))
  end.

(** ** Contextual user messages *)
Record ContextualUserFragmentDefinition : Type := { start_marker : str; end_marker : str }.

(** [text.get(..n)] and [text.get(n..)]. *)
Definition get_to (s : str) (n : Z) : option str := fst <$> split_at_byte s n.
Definition get_from (s : str) (n : Z) : option str := snd <$> split_at_byte s n.

Definition matches_text (d : ContextualUserFragmentDefinition) (text : str) : bool :=
  let trimmed := trim_start text in
  let starts_with_marker :=
    match get_to trimmed (byte_len (start_marker d)) with
    | Some candidate => eq_ignore_ascii_case candidate (start_marker d)
    | None => false
    end in
  let trimmed := trim_end trimmed in
  let ends_with_marker :=
    match get_from trimmed (sat_sub (byte_len trimmed) (byte_len (end_marker d))) with
    | Some candidate => eq_ignore_ascii_case candidate (end_marker d)
    | None => false
    end in
  starts_with_marker && ends_with_marker.

Definition wrap (d : ContextualUserFragmentDefinition) (body : str) : str :=
  start_marker d ++ [NL] ++ body ++ [NL] ++ end_marker d.

Definition CONTEXTUAL_USER_FRAGMENTS : list ContextualUserFragmentDefinition :=
  [ {| start_marker := lit "# AGENTS.md instructions for "; end_marker := lit "</INSTRUCTIONS>" |};
    {| start_marker := lit "<environment_context>"; end_marker := lit "</environment_context>" |};
    {| start_marker := lit "<skill>"; end_marker := lit "</skill>" |};
    {| start_marker := lit "<user_shell_command>"; end_marker := lit "</user_shell_command>" |};
    {| start_marker := lit "<turn_aborted>"; end_marker := lit "</turn_aborted>" |};
    {| start_marker := lit "<subagent_notification>"; end_marker := lit "</subagent_notification>" |} ].

Definition is_contextual_user_fragment (content_item : ContentItem) : bool :=
  match content_item with
  | InputText text => existsb (λ d, matches_text d text) CONTEXTUAL_USER_FRAGMENTS
  | _ => false
  end.

Definition is_contextual_user_message_content (message : list ContentItem) : bool :=
  existsb is_contextual_user_fragment message.

(** [ContextualUserFragmentDefinition::into_message]. *)
Definition into_message {V} (text : str) : ResponseItem V :=
  Message None (lit "user") [InputText text] None None.

(** ** Token usage *)
Record TokenUsage : Type := {
  input_tokens : Z;
  cached_input_tokens : Z;
  output_tokens : Z;
  reasoning_output_tokens : Z;
  total_tokens : Z;
}.

Definition default_usage : TokenUsage :=
  {| input_tokens := 0; cached_input_tokens := 0; output_tokens := 0;
     reasoning_output_tokens := 0; total_tokens := 0 |}.

Record TokenUsageInfo : Type := {
  total_token_usage : TokenUsage;
  last_token_usage : TokenUsage;
  model_context_window : option Z;
}.

(** [i64] arithmetic that is not saturating: overflow panics in a debug build
    and wraps around in a release build. *)
Definition wrap_i64 (z : Z) : Z := (z + 2 ^ 63) mod 2 ^ 64 - 2 ^ 63.
Definition arith_i64 (debug_assertions : bool) (z : Z) : outcome Empty_set Z :=
  if (i64_min <=? z) && (z <=? i64_max) then Ok z
  else if debug_assertions then Panic else Ok (wrap_i64 z).

Definition add_assign (dbg : bool) (u other : TokenUsage) : outcome Empty_set TokenUsage :=
  input ← arith_i64 dbg (input_tokens u + input_tokens other);
  cached ← arith_i64 dbg (cached_input_tokens u + cached_input_tokens other);
  out ← arith_i64 dbg (output_tokens u + output_tokens other);
  reasoning ← arith_i64 dbg (reasoning_output_tokens u + reasoning_output_tokens other);
  total ← arith_i64 dbg (total_tokens u + total_tokens other);
  Ok {| input_tokens := input; cached_input_tokens := cached; output_tokens := out;
        reasoning_output_tokens := reasoning; total_tokens := total |}.

Definition append_last_usage (dbg : bool) (info : TokenUsageInfo) (last : TokenUsage)
    : outcome Empty_set TokenUsageInfo :=
  total ← add_assign dbg (total_token_usage info) last;
  Ok {| total_token_usage := total; last_token_usage := last;
        model_context_window := model_context_window info |}.

Definition new_or_append (dbg : bool) (info : option TokenUsageInfo) (last : option TokenUsage)
    (model_context_window : option Z) : outcome Empty_set (option TokenUsageInfo) :=
  match info, last with
  | None, None => Ok None
  | _, _ =>
      let info := default {| total_token_usage := default_usage; last_token_usage := default_usage;
                             model_context_window := model_context_window |} info in
      info ← match last with Some last => append_last_usage dbg info last | None => Ok info end;
      Ok (Some
        match model_context_window with
        | Some w => {| total_token_usage := total_token_usage info;
                       last_token_usage := last_token_usage info;
                       model_context_window := Some w |}
        | None => info
        end)
  end.

Definition only_total (total : Z) : TokenUsage :=
  {| input_tokens := 0; cached_input_tokens := 0; output_tokens := 0;
     reasoning_output_tokens := 0; total_tokens := total |}.

Definition fill_to_context_window (dbg : bool) (info : TokenUsageInfo) (context_window : Z)
    : outcome Empty_set TokenUsageInfo :=
  let previous_total := total_tokens (total_token_usage info) in
  d ← arith_i64 dbg (context_window - previous_total);
  Ok {| total_token_usage := only_total context_window;
        last_token_usage := only_total (Z.max d 0);
        model_context_window := Some context_window |}.

Definition full_context_window (dbg : bool) (context_window : Z) : outcome Empty_set TokenUsageInfo :=
  fill_to_context_window dbg
    {| total_token_usage := default_usage; last_token_usage := default_usage;
       model_context_window := Some context_window |} context_window.

(** ** Images in data URLs *)
(** [parse_base64_image_data_url]; slicing a string outside its bounds or
    inside a character panics. *)
Definition parse_base64_image_data_url (url : str) : outcome Empty_set (option str) :=
  match get_to url 5 with
  | Some prefix =>
      if eq_ignore_ascii_case prefix (lit "data:") then
        match find (lit ",") url with
        | None => Ok None
        | Some comma_index =>
            let metadata := take comma_index url in
            let payload := drop (comma_index + 1) url in
            match get_from metadata 5 with
            | None => Panic
            | Some metadata_without_scheme =>
                let metadata_parts := split 59%N metadata_without_scheme in
                let mime_type := default [] (head metadata_parts) in
                let has_base64_marker :=
                  existsb (λ part, eq_ignore_ascii_case part (lit "base64")) (tail metadata_parts) in
                if match get_to mime_type 6 with
                   | Some prefix => eq_ignore_ascii_case prefix (lit "image/")
                   | None => false
                   end
                then Ok (if has_base64_marker then Some payload else None)
                else Ok None
            end
        end
      else Ok None
  | None => Ok None
  end.

(** ** Helpers on items *)
Section items.
Context {Value : Type}.
Abbreviation item := (ResponseItem Value).

Definition is_ghost_snapshot (i : item) : bool :=
  match i with GhostSnapshot _ => true | _ => false end.

Definition is_api_message (message : item) : bool :=
  match message with
  | Message _ role _ _ _ => negb (bool_decide (role = lit "system"))
  | FunctionCallOutput _ _ | FunctionCall _ _ _ _ _ | ToolSearchCall _ _ _ _ _
  | ToolSearchOutput _ _ _ _ | CustomToolCall _ _ _ _ _ | CustomToolCallOutput _ _
  | LocalShellCall _ _ _ _ | Reasoning _ _ _ _ | WebSearchCall _ _ _
  | ImageGenerationCall _ _ _ _ | Compaction _ => true
  | GhostSnapshot _ => false
  | Other => false
  end.

Definition is_model_generated_item (i : item) : bool :=
  match i with
  | Message _ role _ _ _ => bool_decide (role = lit "assistant")
  | Reasoning _ _ _ _ | FunctionCall _ _ _ _ _ | ToolSearchCall _ _ _ _ _ | WebSearchCall _ _ _
  | ImageGenerationCall _ _ _ _ | CustomToolCall _ _ _ _ _ | LocalShellCall _ _ _ _
  | Compaction _ => true
  | FunctionCallOutput _ _ | ToolSearchOutput _ _ _ _ | CustomToolCallOutput _ _
  | GhostSnapshot _ | Other => false
  end.

Definition is_codex_generated_item (i : item) : bool :=
  match i with
  | FunctionCallOutput _ _ | ToolSearchOutput _ _ _ _ | CustomToolCallOutput _ _ => true
  | Message _ role _ _ _ => bool_decide (role = lit "developer")
  | _ => false
  end.

Definition is_user_message (i : item) : bool :=
  match i with Message _ role _ _ _ => bool_decide (role = lit "user") | _ => false end.

Definition is_user_turn_boundary (i : item) : bool :=
  match i with
  | Message _ role content _ _ =>
      bool_decide (role = lit "user") && negb (is_contextual_user_message_content content)
  | _ => false
  end.

(** [user_message_positions]. *)
Fixpoint positions_from (idx : nat) (items : list item) : list nat :=
  match items with
  | [] => []
  | i :: items =>
      if is_user_turn_boundary i then idx :: positions_from (S idx) items
      else positions_from (S idx) items
  end.
Definition user_message_positions (items : list item) : list nat := positions_from 0 items.

(** [Iterator::rposition]. *)
Fixpoint rposition (f : item → bool) (items : list item) : option nat :=
  match items with
  | [] => None
  | i :: items =>
      match rposition f items with
      | Some n => Some (S n)
      | None => if f i then Some 0%nat else None
      end
  end.

Definition truncate_function_output_payload (output : FunctionCallOutputPayload)
    (policy : TruncationPolicy) : outcome Empty_set FunctionCallOutputPayload :=
  b ← match body output with
      | Text content => t ← truncate_text content policy; Ok (Text t)
      | ContentItems items =>
          l ← truncate_function_output_items_with_policy items policy; Ok (ContentItems l)
      end;
  Ok {| body := b; success := success output |}.

Definition process_item (i : item) (policy : TruncationPolicy) : outcome Empty_set item :=
  let policy_with_serialization_budget := mul_f64 policy f64_1_2 in
  match i with
  | FunctionCallOutput call_id output =>
      o ← truncate_function_output_payload output policy_with_serialization_budget;
      Ok (FunctionCallOutput call_id o)
  | CustomToolCallOutput call_id output =>
      o ← truncate_function_output_payload output policy_with_serialization_budget;
      Ok (CustomToolCallOutput call_id o)
  | _ => Ok i
  end.
End items.

(** ** Estimates *)
Definition RESIZED_IMAGE_BYTES_ESTIMATE : Z := 7373.
Definition ORIGINAL_IMAGE_PATCH_SIZE : Z := 32.

Definition to_i64 (n : Z) : Z := if n <=? i64_max then n else i64_max.

Definition estimate_reasoning_length (encoded_len : Z) : Z := sat_sub (sat_mul encoded_len 3 / 4) 650.

Section estimates.
Context {Value : Type}.
Abbreviation item := (ResponseItem Value).
(** [serde_json::to_string(item)]: the length of the text, or an error. *)
Variable serialized_len : item → option Z.
(** The width and height of the image encoded in a base64 payload, if it can be
    decoded. *)
Variable image_size : str → option (Z * Z).

(** The closure of [estimate_original_image_bytes]; the cache in front of it is
    keyed by a digest of the URL and returns what the closure computed. *)
Definition estimate_original_image_bytes (image_url : str) : outcome Empty_set (option Z) :=
  payload ← parse_base64_image_data_url image_url;
  Ok (payload ← payload;
      '(width, height) ← image_size payload;
      let patch_size := ORIGINAL_IMAGE_PATCH_SIZE in
      let patches_wide := Z.quot (sat_add_i64 width (sat_sub_i64 patch_size 1)) patch_size in
      let patches_high := Z.quot (sat_add_i64 height (sat_sub_i64 patch_size 1)) patch_size in
      let patch_count := Z.max i64_min (Z.min i64_max (patches_wide * patches_high)) in
      let patch_count := if patch_count <? 0 then usize_max else patch_count in
      Some (to_i64 (approx_bytes_for_tokens patch_count))).

Definition accumulate (st : Z * Z) (image_url : str) (detail : option ImageDetail)
    : outcome Empty_set (Z * Z) :=
  let '(payload_bytes, replacement_bytes) := st in
  payload ← parse_base64_image_data_url image_url;
  match payload with
  | None => Ok st
  | Some payload =>
      let payload_bytes := sat_add_i64 payload_bytes (to_i64 (byte_len payload)) in
      replacement ←
        match detail with
        | Some Original =>
            e ← estimate_original_image_bytes image_url;
            Ok (default RESIZED_IMAGE_BYTES_ESTIMATE e)
        | _ => Ok RESIZED_IMAGE_BYTES_ESTIMATE
        end;
      Ok (payload_bytes, sat_add_i64 replacement_bytes replacement)
  end.

Definition accumulate_content (r : outcome Empty_set (Z * Z)) (c : ContentItem)
    : outcome Empty_set (Z * Z) :=
  st ← r; match c with InputImage image_url => accumulate st image_url None | _ => Ok st end.

Definition accumulate_output (r : outcome Empty_set (Z * Z)) (c : FunctionCallOutputContentItem)
    : outcome Empty_set (Z * Z) :=
  st ← r;
  match c with OutInputImage image_url detail => accumulate st image_url detail | _ => Ok st end.

Definition image_data_url_estimate_adjustment (i : item) : outcome Empty_set (Z * Z) :=
  match i with
  | Message _ _ content _ _ => foldl accumulate_content (Ok (0, 0)) content
  | FunctionCallOutput _ output | CustomToolCallOutput _ output =>
      match body output with
      | ContentItems items => foldl accumulate_output (Ok (0, 0)) items
      | Text _ => Ok (0, 0)
      end
  | _ => Ok (0, 0)
  end.

Definition estimate_response_item_model_visible_bytes (i : item) : outcome Empty_set Z :=
  match i with
  | GhostSnapshot _ => Ok 0
  | Reasoning _ _ _ (Some content) | Compaction content =>
      Ok (to_i64 (estimate_reasoning_length (byte_len content)))
  | i =>
      let raw := match serialized_len i with Some len => to_i64 len | None => 0 end in
      '(payload_bytes, replacement_bytes) ← image_data_url_estimate_adjustment i;
      Ok (if (payload_bytes =? 0) || (replacement_bytes =? 0) then raw
          else sat_add_i64 (sat_sub_i64 raw payload_bytes) replacement_bytes)
  end.

Definition estimate_item_token_count (i : item) : outcome Empty_set Z :=
  model_visible_bytes ← estimate_response_item_model_visible_bytes i;
  Ok (approx_tokens_from_byte_count_i64 model_visible_bytes).

(** [items.map(f).fold(0i64, i64::saturating_add)]. *)
Definition sum_i64 (f : item → outcome Empty_set Z) (items : list item) : outcome Empty_set Z :=
  foldl (λ r i, n ← r; m ← f i; Ok (sat_add_i64 n m)) (Ok 0) items.

(** ** The context manager *)
Context {TurnContextItem : Type} (debug_assertions : bool).

Record ContextManager : Type := {
  items : list item;
  token_info : option TokenUsageInfo;
  reference_context_item : option TurnContextItem;
}.

Definition history_new : outcome Empty_set ContextManager :=
  info ← new_or_append debug_assertions None None None;
  Ok {| items := []; token_info := info; reference_context_item := None |}.

Definition set_items (h : ContextManager) (l : list item) : ContextManager :=
  {| items := l; token_info := token_info h; reference_context_item := reference_context_item h |}.

Definition set_token_info (h : ContextManager) (info : option TokenUsageInfo) : ContextManager :=
  {| items := items h; token_info := info; reference_context_item := reference_context_item h |}.

Definition set_reference_context_item (h : ContextManager) (c : option TurnContextItem)
    : ContextManager :=
  {| items := items h; token_info := token_info h; reference_context_item := c |}.

Definition set_token_usage_full (h : ContextManager) (context_window : Z)
    : outcome Empty_set ContextManager :=
  info ← match token_info h with
         | Some info => fill_to_context_window debug_assertions info context_window
         | None => full_context_window debug_assertions context_window
         end;
  Ok (set_token_info h (Some info)).

Definition update_token_info (h : ContextManager) (usage : TokenUsage) (window : option Z)
    : outcome Empty_set ContextManager :=
  info ← new_or_append debug_assertions (token_info h) (Some usage) window;
  Ok (set_token_info h info).

Fixpoint record_items (h : ContextManager) (new_items : list item) (policy : TruncationPolicy)
    : outcome Empty_set ContextManager :=
  match new_items with
  | [] => Ok h
  | i :: new_items =>
      if negb (is_api_message i) && negb (is_ghost_snapshot i)
      then record_items h new_items policy
      else
        processed ← process_item i policy;
        record_items (set_items h (items h ++ [processed])) new_items policy
  end.

Definition for_prompt (h : ContextManager) (input_modalities : list InputModality)
    : outcome Empty_set (list item) :=
  l ← normalize_history debug_assertions (items h) input_modalities;
  Ok (filter (λ i, is_ghost_snapshot i = false) l).

Definition estimate_token_count_with_base_instructions (h : ContextManager) (text : str)
    : outcome Empty_set Z :=
  let base_tokens := to_i64 (approx_token_count text) in
  items_tokens ← sum_i64 estimate_item_token_count (items h);
  Ok (sat_add_i64 base_tokens items_tokens).

Definition remove_first_item (h : ContextManager) : ContextManager :=
  match items h with
  | [] => h
  | removed :: l => set_items h (remove_corresponding_for l removed)
  end.

Definition remove_last_item (h : ContextManager) : bool * ContextManager :=
  match last (items h) with
  | Some removed =>
      (true, set_items h
        (remove_corresponding_for (take (length (items h) - 1) (items h)) removed))
  | None => (false, h)
  end.

Definition replace (h : ContextManager) (l : list item) : ContextManager := set_items h l.

(** The loop over the content items of [replace_last_turn_images]. *)
Definition replace_images (placeholder : str) (l : list FunctionCallOutputContentItem)
    : bool * list FunctionCallOutputContentItem :=
  (existsb (λ c, match c with OutInputImage _ _ => true | _ => false end) l,
   (λ c, match c with OutInputImage _ _ => OutInputText placeholder | _ => c end) <$> l).

Definition replace_last_turn_images (h : ContextManager) (placeholder : str)
    : bool * ContextManager :=
  match rposition (λ i, match i with FunctionCallOutput _ _ => true | _ => is_user_message i end)
          (items h) with
  | None => (false, h)
  | Some index =>
      match items h !! index with
      | Some (FunctionCallOutput call_id output) =>
          match content_items output with
          | None => (false, h)
          | Some l =>
              let '(replaced, l) := replace_images placeholder l in
              (replaced, set_items h
                (<[index := FunctionCallOutput call_id (set_content_items output l)]> (items h)))
          end
      | _ => (false, h)
      end
  end.

Definition drop_last_n_user_turns (h : ContextManager) (num_turns : nat)
    : outcome Empty_set ContextManager :=
  if (num_turns =? 0)%nat then Ok h
  else
    let snapshot := items h in
    let user_positions := user_message_positions snapshot in
    match user_positions with
    | [] => Ok (replace h snapshot)
    | first_user_idx :: _ =>
        if (length user_positions <=? num_turns)%nat
        then Ok (replace h (take first_user_idx snapshot))
        else match user_positions !! (length user_positions - num_turns)%nat with
             | Some cut_idx => Ok (replace h (take cut_idx snapshot))
             | None => Panic
             end
    end.

Definition get_non_last_reasoning_items_tokens (h : ContextManager) : outcome Empty_set Z :=
  match rposition is_user_message (items h) with
  | None => Ok 0
  | Some last_user_index =>
      sum_i64 estimate_item_token_count
        (filter (λ i, match i with Reasoning _ _ _ (Some _) => true | _ => false end = true)
          (take last_user_index (items h)))
  end.

Definition items_after_last_model_generated_item (h : ContextManager) : list item :=
  match rposition is_model_generated_item (items h) with
  | None => drop (length (items h)) (items h)
  | Some index => drop (S index) (items h)
  end.

Definition last_tokens (h : ContextManager) : Z :=
  match token_info h with Some info => total_tokens (last_token_usage info) | None => 0 end.

Definition get_total_token_usage (h : ContextManager) (server_reasoning_included : bool)
    : outcome Empty_set Z :=
  after ← sum_i64 estimate_item_token_count (items_after_last_model_generated_item h);
  if server_reasoning_included then Ok (sat_add_i64 (last_tokens h) after)
  else
    reasoning ← get_non_last_reasoning_items_tokens h;
    Ok (sat_add_i64 (sat_add_i64 (last_tokens h) reasoning) after).

Record TotalTokenUsageBreakdown : Type := {
  last_api_response_total_tokens : Z;
  all_history_items_model_visible_bytes : Z;
  estimated_tokens_of_items_added : Z;
  estimated_bytes_of_items_added : Z;
}.

Definition get_total_token_usage_breakdown (h : ContextManager)
    : outcome Empty_set TotalTokenUsageBreakdown :=
  let after := items_after_last_model_generated_item h in
  all ← sum_i64 estimate_response_item_model_visible_bytes (items h);
  tokens ← sum_i64 estimate_item_token_count after;
  bytes ← sum_i64 estimate_response_item_model_visible_bytes after;
  Ok {| last_api_response_total_tokens := last_tokens h;
        all_history_items_model_visible_bytes := all;
        estimated_tokens_of_items_added := tokens;
        estimated_bytes_of_items_added := bytes |}.
End estimates.
Arguments items {Value TurnContextItem} _.
Arguments token_info {Value TurnContextItem} _.
Arguments reference_context_item {Value TurnContextItem} _.

Definition COMMA : char := 44%N.
Definition SEMICOLON : char := 59%N.

(** ** Data URLs *)
Lemma split_at_byte_Some s n a b : split_at_byte s n = Some (a, b) → s = a ++ b ∧ byte_len a = n.
Proof.
  revert n a b; induction s as [|c s IH]; intros n a b; cbn [split_at_byte].
  - destruct (Z.eqb_spec n 0); [|done]. by intros [= <- <-].
  - destruct (Z.eqb_spec n 0); [by intros [= <- <-]|]. destruct (Z.ltb_spec n (Z.of_nat (len_utf8 c))); [done|].
    destruct (split_at_byte s _) as [[a' b']|] eqn:E; cbn; [|done]. intros [= <- <-].
    destruct (IH _ _ _ E) as [-> Hl]. rewrite byte_len_cons. split; [done|lia].
Qed.

Lemma byte_len_lower a : byte_len (to_ascii_lowercase a) = byte_len a.
Proof.
  induction a as [|c a IH]; [done|]. unfold to_ascii_lowercase in *. rewrite fmap_cons, !byte_len_cons, IH.
  f_equal. f_equal. unfold ascii_lower. destruct ((65 <=? c)%N && (c <=? 90)%N) eqn:E; [|done].
  apply andb_true_iff in E as [E1%N.leb_le E2%N.leb_le]. unfold len_utf8.
  by rewrite !(proj2 (N.ltb_lt _ 128)) by lia.
Qed.

(** [a] is [b] up to the case of ASCII letters. *)
Definition same_text (a b : str) : Prop := to_ascii_lowercase a = to_ascii_lowercase b.

Lemma same_text_len a b : same_text a b → byte_len a = byte_len b.
Proof. intros H. rewrite <-(byte_len_lower a), <-(byte_len_lower b). by f_equal. Qed.

(** A test of the first bytes of a text, ignoring case. *)
Lemma get_to_same s m :
  match get_to s (byte_len m) with Some candidate => eq_ignore_ascii_case candidate m | None => false end
    = true ↔ ∃ a b, s = a ++ b ∧ same_text a m.
Proof.
  unfold get_to. split.
  - destruct (split_at_byte s _) as [[a b]|] eqn:E; [|done]. cbn.
    apply split_at_byte_Some in E as [-> _]. intros H%bool_decide_eq_true. eauto.
  - intros (a & b & -> & Hs). rewrite <-(same_text_len _ _ Hs), split_at_byte_app. cbn.
    by apply bool_decide_eq_true.
Qed.

(** A test of the last bytes of a text, ignoring case. *)
Lemma get_from_same s m :
  match get_from s (sat_sub (byte_len s) (byte_len m)) with
  | Some candidate => eq_ignore_ascii_case candidate m | None => false end = true ↔
  ∃ a b, s = a ++ b ∧ same_text b m.
Proof.
  unfold get_from. split.
  - destruct (split_at_byte s _) as [[a b]|] eqn:E; [|done]. cbn.
    apply split_at_byte_Some in E as [-> _]. intros H%bool_decide_eq_true. eauto.
  - intros (a & b & -> & Hs). rewrite byte_len_app, <-(same_text_len _ _ Hs).
    replace (sat_sub (byte_len a + byte_len b) (byte_len b)) with (byte_len a).
    + rewrite split_at_byte_app. cbn. by apply bool_decide_eq_true.
    + unfold sat_sub. pose proof (byte_len_nonneg a). lia.
Qed.

(** What [matches_text] decides: up to case, the text starts with one marker
    and ends with the other, whitespace around it apart. *)
Definition fragment_text (d : ContextualUserFragmentDefinition) (text : str) : Prop :=
  (∃ a b, trim_start text = a ++ b ∧ same_text a (start_marker d)) ∧
  (∃ a b, trim text = a ++ b ∧ same_text b (end_marker d)).

Lemma matches_text_iff d text : matches_text d text = true ↔ fragment_text d text.
Proof. unfold matches_text. cbv zeta. by rewrite andb_true_iff, get_to_same, get_from_same. Qed.

Lemma wrap_fragment d body : d ∈ CONTEXTUAL_USER_FRAGMENTS → fragment_text d (wrap d body).
Proof.
  intros Hd. assert (starts_plain (start_marker d) = true ∧ start_marker d ≠ [] ∧
    ends_plain (end_marker d) = true ∧ end_marker d ≠ []) as (Hs & Hsn & He & Hen).
  { revert d Hd. apply Forall_forall. by repeat constructor. }
  assert (starts_plain (wrap d body) = true) by (unfold wrap; by destruct (start_marker d)).
  assert (ends_plain (wrap d body) = true).
  { unfold wrap. rewrite !app_assoc. by apply ends_plain_app. }
  unfold fragment_text. rewrite trim_start_id, trim_id by done. unfold wrap. split.
  - by exists (start_marker d), ([NL] ++ body ++ [NL] ++ end_marker d).
  - exists (start_marker d ++ [NL] ++ body ++ [NL]), (end_marker d). by rewrite <-!app_assoc.
Qed.

(** The metadata of a data URL says it is a base64 image. *)
Definition base64_image (metadata : str) : bool :=
  match get_to (default [] (head (split SEMICOLON metadata))) 6 with
  | Some prefix => eq_ignore_ascii_case prefix (lit "image/")
  | None => false
  end && existsb (λ part, eq_ignore_ascii_case part (lit "base64")) (tail (split SEMICOLON metadata)).

Lemma same_text_data_no_comma a : same_text a (lit "data:") → COMMA ∉ a.
Proof.
  intros Ha Hc. assert (COMMA ∈ to_ascii_lowercase a) as Hl.
  { apply list_elem_of_fmap. by exists COMMA. }
  rewrite Ha in Hl. revert Hl. by apply (bool_decide_unpack _).
Qed.

Lemma parse_data_url_eq scheme metadata payload :
  same_text scheme (lit "data:") → COMMA ∉ metadata →
  parse_base64_image_data_url (scheme ++ metadata ++ COMMA :: payload) =
  Ok (if base64_image metadata then Some payload else None).
Proof.
  intros Hs Hm. pose proof (same_text_data_no_comma _ Hs) as Hc.
  assert (Hlen : byte_len scheme = 5) by (by rewrite (same_text_len _ _ Hs)).
  unfold parse_base64_image_data_url.
  assert (get_to (scheme ++ metadata ++ COMMA :: payload) 5 = Some scheme) as ->.
  { unfold get_to. by rewrite <-Hlen, split_at_byte_app. }
  replace (eq_ignore_ascii_case scheme (lit "data:")) with true
    by (symmetry; by apply bool_decide_eq_true).
  change (lit ",") with [COMMA].
  rewrite app_assoc, find_char_app by (by apply not_elem_of_app). cbv zeta.
  rewrite take_app_length. replace (length (scheme ++ metadata) + 1)%nat
    with (length ((scheme ++ metadata) ++ [COMMA])) by (rewrite length_app; done).
  change (COMMA :: payload) with ([COMMA] ++ payload). rewrite app_assoc, drop_app_length.
  assert (get_from (scheme ++ metadata) 5 = Some metadata) as ->.
  { unfold get_from. by rewrite <-Hlen, split_at_byte_app. }
  unfold base64_image. change 59%N with SEMICOLON.
  destruct (match get_to _ 6 with Some _ => _ | None => _ end); [|done].
  cbn [andb]. by destruct (existsb _ _).
Qed.

(** Every URL is a data URL with a comma, or is left alone. *)
Lemma parse_data_url_cases url :
  (∃ scheme metadata payload, url = scheme ++ metadata ++ COMMA :: payload ∧
    same_text scheme (lit "data:") ∧ COMMA ∉ metadata) ∨
  parse_base64_image_data_url url = Ok None.
Proof.
  unfold parse_base64_image_data_url. pose proof (get_to_same url (lit "data:")) as Hd.
  change (byte_len (lit "data:")) with 5 in Hd.
  destruct (get_to url 5) as [p|]; [|by right].
  destruct (eq_ignore_ascii_case p (lit "data:")); [|by right].
  destruct (proj1 Hd eq_refl) as (scheme & rest & -> & Hs).
  destruct (find (lit ",") (scheme ++ rest)) as [ci|] eqn:Ef; [left|by right].
  apply find_char_Some in Ef as (x & y & Hxy & Hx & _).
  pose proof (same_text_data_no_comma _ Hs) as Hc.
  apply app_eq_inv in Hxy as [(k & -> & Hr)|(k & -> & Hr)].
  - destruct k as [|c k]; cbn in Hr.
    + exists x, [], y. rewrite app_nil_r in *. rewrite <-Hr. split_and!; [done..|apply not_elem_of_nil].
    + injection Hr as <- _. destruct Hc. apply elem_of_app. right. left.
  - exists scheme, k, y. split_and!; [by rewrite Hr|done|]. by apply not_elem_of_app in Hx as [_ ?].
Qed.

Lemma parse_data_url_returns url : ∃ r, parse_base64_image_data_url url = Ok r.
Proof.
  destruct (parse_data_url_cases url) as [(a & m & p & -> & Hs & Hm)|H]; [|eauto].
  rewrite parse_data_url_eq by done. eauto.
Qed.

Lemma not_elem_of_join (c : char) sep ls :
  c ∉ sep → Forall (λ l, c ∉ l) ls → c ∉ join sep ls.
Proof.
  intros Hs. induction 1 as [|l ls Hl Hls IH]; [apply not_elem_of_nil|]. cbn [join].
  destruct ls; [done|]. rewrite !not_elem_of_app. done.
Qed.

Lemma base64_image_join mime params :
  (∃ a b, mime = a ++ b ∧ same_text a (lit "image/")) →
  (∃ p, p ∈ params ∧ same_text p (lit "base64")) →
  Forall (λ part, (COMMA ∉ part) ∧ SEMICOLON ∉ part) (mime :: params) →
  base64_image (join [SEMICOLON] (mime :: params)) = true.
Proof.
  intros Hi (p & Hp & Hb) Hall. unfold base64_image.
  rewrite split_join; [|done|eapply Forall_impl; [done|naive_solver]]. cbn [head tail default from_option id].
  apply andb_true_iff. split; [by apply (get_to_same _ (lit "image/"))|].
  apply existsb_exists. exists p. split; [by apply list_elem_of_In|]. by apply bool_decide_eq_true.
Qed.

Lemma base64_image_parts scheme metadata payload :
  same_text scheme (lit "data:") → COMMA ∉ metadata → base64_image metadata = true →
  ∃ scheme' mime params,
    scheme ++ metadata ++ COMMA :: payload =
      scheme' ++ join [SEMICOLON] (mime :: params) ++ [COMMA] ++ payload ∧
    same_text scheme' (lit "data:") ∧
    (∃ a b, mime = a ++ b ∧ same_text a (lit "image/")) ∧
    (∃ p, p ∈ params ∧ same_text p (lit "base64")) ∧
    Forall (λ part, (COMMA ∉ part) ∧ SEMICOLON ∉ part) (mime :: params).
Proof.
  intros Hs Hm. unfold base64_image. pose proof (split_elems SEMICOLON metadata) as Hsemi.
  pose proof (join_split SEMICOLON metadata) as Hj. pose proof (split_ne_nil SEMICOLON metadata).
  destruct (split SEMICOLON metadata) as [|mime params]; [done|].
  cbn [head tail default from_option id]. intros [Hi Hb]%andb_true_iff.
  exists scheme, mime, params. rewrite Hj. split_and!; [done..| | |].
  - by apply (get_to_same _ (lit "image/")).
  - apply existsb_exists in Hb as (p & Hp%list_elem_of_In & Hb%bool_decide_eq_true). eauto.
  - apply Forall_forall. intros part Hp. split; [|by eapply Forall_forall in Hsemi].
    rewrite <-Hj in Hm. intros Hc. apply Hm. clear -Hp Hc.
    revert Hp. generalize (mime :: params). induction l as [|x l IH]; [by intros ?%not_elem_of_nil|].
    intros [->|Hp]%elem_of_cons; cbn [join]; destruct l as [|y l]; [done|..].
    + apply elem_of_app. by left.
    + by apply not_elem_of_nil in Hp.
    + rewrite !elem_of_app. right. right. by apply IH.
Qed.

(** ** Estimates stay in range *)
Section estimate_lemmas.
Context {Value : Type} (serialized_len : ResponseItem Value → option Z)
  (image_size : str → option (Z * Z)).

Lemma accumulate_returns st url detail : ∃ r, accumulate image_size st url detail = Ok r.
Proof.
  unfold accumulate. destruct st as [pb rb]. destruct (parse_data_url_returns url) as [[p|] Hp];
    rewrite Hp; cbn [mbind outcome_bind]; [|eauto].
  destruct detail as [[]|]; cbn [mbind outcome_bind]; eauto.
  unfold estimate_original_image_bytes. rewrite Hp. cbn [mbind outcome_bind]. eauto.
Qed.

Lemma foldl_outcome_returns {A S} (f : outcome Empty_set S → A → outcome Empty_set S) (st : S) l :
  (∀ s x, ∃ r, f (Ok s) x = Ok r) → ∃ r, foldl f (Ok st) l = Ok r.
Proof.
  intros Hf. revert st; induction l as [|x l IH]; intros st; cbn [foldl]; [eauto|].
  destruct (Hf st x) as [r ->]. apply IH.
Qed.

Lemma adjustment_returns (i : ResponseItem Value) :
  ∃ r, image_data_url_estimate_adjustment image_size i = Ok r.
Proof.
  assert (Hc : ∀ s x, ∃ r, accumulate_content image_size (Ok s) x = Ok r).
  { intros s [|url|]; cbn; eauto. apply accumulate_returns. }
  assert (Ho : ∀ s x, ∃ r, accumulate_output image_size (Ok s) x = Ok r).
  { intros s [|url]; cbn; eauto. apply accumulate_returns. }
  destruct i as [| | | | |? [[] ?]| |? [[] ?]| | | | | |];
    cbn [image_data_url_estimate_adjustment body]; eauto using foldl_outcome_returns.
Qed.

Lemma estimate_bytes_returns i :
  ∃ n, estimate_response_item_model_visible_bytes serialized_len image_size i = Ok n.
Proof.
  destruct (adjustment_returns i) as [[pb rb] Hadj].
  destruct i as [|? ? ? []| | | | | | | | | | | |]; cbn [estimate_response_item_model_visible_bytes];
    eauto; rewrite Hadj; cbn [mbind outcome_bind]; eauto.
Qed.

Lemma estimate_tokens_returns i :
  ∃ n, estimate_item_token_count serialized_len image_size i = Ok n.
Proof.
  unfold estimate_item_token_count. destruct (estimate_bytes_returns i) as [n ->].
  cbn [mbind outcome_bind]. eauto.
Qed.

(** The estimate for an item, and for a list of items. *)
Definition item_tokens (i : ResponseItem Value) : Z :=
  match estimate_item_token_count serialized_len image_size i with Ok n => n | _ => 0 end.
Definition items_tokens (l : list (ResponseItem Value)) : Z := foldr Z.add 0 (item_tokens <$> l).

Lemma item_tokens_estimate i :
  estimate_item_token_count serialized_len image_size i = Ok (item_tokens i) ∧
  0 ≤ item_tokens i ≤ i64_max.
Proof.
  unfold item_tokens. destruct (estimate_tokens_returns i) as [n Hn]. rewrite Hn. split; [done|].
  unfold estimate_item_token_count in Hn. apply bind_Ok_inv in Hn as (bytes & _ & [= <-]).
  unfold approx_tokens_from_byte_count_i64. assert (0 ≤ i64_max) by done.
  destruct (Z.leb_spec bytes 0); [done|]. cbv zeta.
  destruct (Z.leb_spec (approx_tokens_from_byte_count bytes) i64_max); [|done].
  split; [|done]. unfold approx_tokens_from_byte_count. apply Z.div_pos; [|done].
  unfold sat_add, sat_sub, usize_max, APPROX_BYTES_PER_TOKEN. lia.
Qed.

Lemma items_tokens_nonneg l : 0 ≤ items_tokens l.
Proof.
  induction l as [|i l IH]; [done|]. unfold items_tokens in *. cbn.
  destruct (item_tokens_estimate i) as [_ ?]. lia.
Qed.

Lemma sum_i64_tokens l :
  sum_i64 (estimate_item_token_count serialized_len image_size) l = Ok (Z.min i64_max (items_tokens l)).
Proof.
  unfold sum_i64.
  assert (Hgen : ∀ z, 0 ≤ z ≤ i64_max →
    foldl (λ r i, n ← r; m ← estimate_item_token_count serialized_len image_size i;
      Ok (sat_add_i64 n m)) (Ok z) l = Ok (Z.min i64_max (z + items_tokens l))).
  { induction l as [|i l IH]; intros z Hz; cbn [foldl].
    - unfold items_tokens. cbn. do 2 f_equal. lia.
    - destruct (item_tokens_estimate i) as [-> Hi]. cbn [mbind outcome_bind].
      pose proof (items_tokens_nonneg l) as Hl. unfold items_tokens in *. cbn [fmap list_fmap foldr].
      rewrite IH; unfold sat_add_i64, i64_min, i64_max in *; [|lia]. f_equal. lia. }
  rewrite Hgen; [by f_equal|]. done.
Qed.
End estimate_lemmas.

(** ** Turns *)
Section turns.
Context {Value : Type}.
Implicit Types (l : list (ResponseItem Value)).

Definition user_turns (l : list (ResponseItem Value)) : nat :=
  length (filter (λ i, is_user_turn_boundary i = true) l).

Lemma positions_length idx l : length (positions_from idx l) = user_turns l.
Proof.
  unfold user_turns. revert idx; induction l as [|i l IH]; intros idx; [done|]. cbn [positions_from].
  rewrite filter_cons. destruct (is_user_turn_boundary i) eqn:E; case_decide; try congruence; simpl;
    by rewrite IH.
Qed.

(** The [j]-th position is where the suffix with all but [j] turns starts. *)
Lemma positions_lookup idx l j p :
  positions_from idx l !! j = Some p →
  ∃ n i rest, p = (idx + n)%nat ∧ drop n l = i :: rest ∧ is_user_turn_boundary i = true ∧
    user_turns (drop n l) = (user_turns l - j)%nat.
Proof.
  revert idx j; induction l as [|i l IH]; intros idx j; cbn [positions_from]; [done|].
  unfold user_turns in *. rewrite filter_cons. destruct (is_user_turn_boundary i) eqn:E.
  - case_decide; [|done]. destruct j as [|j].
    + intros [= <-]. exists 0%nat, i, l. rewrite drop_0, filter_cons, decide_True by done.
      split_and!; [lia|done|done|]. simpl. lia.
    + cbn. intros Hl. destruct (IH _ _ Hl) as (n & i' & rest & -> & Hd & Hb & Hc).
      exists (S n), i', rest. cbn [drop]. split_and!; [lia|done|done|]. by rewrite Hc.
  - case_decide; [congruence|]. intros Hl.
    destruct (IH _ _ Hl) as (n & i' & rest & -> & Hd & Hb & Hc).
    exists (S n), i', rest. cbn [drop]. split_and!; [lia|done|done|done].
Qed.
End turns.

(** ** The last item of a kind *)
Lemma rposition_Some {Value} f (l : list (ResponseItem Value)) n :
  rposition f l = Some n →
  ∃ pre i post, l = pre ++ i :: post ∧ length pre = n ∧ f i = true ∧ Forall (λ j, f j = false) post.
Proof.
  revert n; induction l as [|i l IH]; intros n; cbn [rposition]; [done|].
  destruct (rposition f l) as [m|] eqn:E.
  - intros [= <-]. destruct (IH m eq_refl) as (pre & j & post & -> & <- & Hj & Hp).
    by exists (i :: pre), j, post.
  - destruct (f i) eqn:Ef; [|done]. intros [= <-]. exists [], i, l. split_and!; try done.
    clear -E. induction l as [|j l IH]; [constructor|]. cbn [rposition] in E.
    destruct (rposition f l); [done|]. destruct (f j) eqn:Ej; [done|]. by constructor; [|apply IH].
Qed.

Lemma rposition_None {Value} f (l : list (ResponseItem Value)) :
  rposition f l = None → existsb f l = false.
Proof.
  induction l as [|i l IH]; cbn [rposition existsb]; [done|].
  destruct (rposition f l); [done|]. destruct (f i); [done|]. intros _. by apply IH.
Qed.

Lemma rposition_last {Value} f (pre : list (ResponseItem Value)) i post :
  f i = true → Forall (λ j, f j = false) post → rposition f (pre ++ i :: post) = Some (length pre).
Proof.
  intros Hi Hp. assert (Hn : rposition f post = None).
  { induction Hp as [|j l Hj _ IH]; [done|]. cbn [rposition]. by rewrite IH, Hj. }
  induction pre as [|j pre IH]; cbn [app rposition length]; [by rewrite Hn, Hi|by rewrite IH].
Qed.

(** The items after, and before, the last item of a kind. *)
Definition after_last {Value} (f : ResponseItem Value → bool) (l after : list (ResponseItem Value)) : Prop :=
  if existsb f l
  then ∃ pre i, l = pre ++ i :: after ∧ f i = true ∧ Forall (λ j, f j = false) after
  else after = [].
Definition before_last {Value} (f : ResponseItem Value → bool) (l before : list (ResponseItem Value)) : Prop :=
  if existsb f l
  then ∃ i post, l = before ++ i :: post ∧ f i = true ∧ Forall (λ j, f j = false) post
  else before = [].

Lemma rposition_existsb {Value} f (l : list (ResponseItem Value)) n :
  rposition f l = Some n → existsb f l = true.
Proof.
  intros (pre & i & post & -> & _ & Hi & _)%rposition_Some. rewrite existsb_app. cbn.
  by rewrite Hi, orb_true_r.
Qed.

Lemma rposition_after {Value Ctx} (h : @ContextManager Value Ctx) :
  after_last is_model_generated_item (items h) (items_after_last_model_generated_item h).
Proof.
  unfold after_last, items_after_last_model_generated_item.
  destruct (rposition _ _) as [n|] eqn:E.
  - rewrite (rposition_existsb _ _ _ E).
    destruct (rposition_Some _ _ _ E) as (pre & i & post & Hi & <- & Hg & Hp). exists pre, i.
    assert (drop (S (length pre)) (items h) = post) as ->; [|done].
    rewrite Hi, (cons_middle i pre post), app_assoc. apply drop_app_length'.
    rewrite length_app. simpl. lia.
  - rewrite (rposition_None _ _ E). apply drop_all.
Qed.

Definition before_last_user {Value Ctx} (h : @ContextManager Value Ctx) : list (ResponseItem Value) :=
  match rposition is_user_message (items h) with Some n => take n (items h) | None => [] end.

Lemma rposition_before {Value Ctx} (h : @ContextManager Value Ctx) :
  before_last is_user_message (items h) (before_last_user h).
Proof.
  unfold before_last, before_last_user. destruct (rposition _ _) as [n|] eqn:E.
  - rewrite (rposition_existsb _ _ _ E).
    destruct (rposition_Some _ _ _ E) as (pre & i & post & Hi & <- & Hg & Hp).
    exists i, post. by rewrite Hi, take_app_length.
  - by rewrite (rposition_None _ _ E).
Qed.

Definition encrypted_reasoning {Value} (i : ResponseItem Value) : Prop :=
  match i with Reasoning _ _ _ (Some _) => true | _ => false end = true.
#[export] Instance encrypted_reasoning_dec {Value} (i : ResponseItem Value) :
  Decision (encrypted_reasoning i).
Proof. unfold encrypted_reasoning. apply _. Defined.

Lemma non_last_reasoning_tokens {Value Ctx} serialized_len image_size (h : @ContextManager Value Ctx) :
  get_non_last_reasoning_items_tokens serialized_len image_size h =
  Ok (Z.min i64_max (items_tokens serialized_len image_size
    (filter encrypted_reasoning (before_last_user h)))).
Proof.
  unfold get_non_last_reasoning_items_tokens, before_last_user.
  destruct (rposition _ _); [apply sum_i64_tokens|done].
Qed.

(** ** Images of the last turn *)
Definition is_image (c : FunctionCallOutputContentItem) : bool :=
  match c with OutInputImage _ _ => true | OutInputText _ => false end.

Definition image_as_text (placeholder : str) (c : FunctionCallOutputContentItem)
    : FunctionCallOutputContentItem :=
  if is_image c then OutInputText placeholder else c.

(** [i] ends the search for the output of the last turn. *)
Definition ends_search {Value} (i : ResponseItem Value) : bool :=
  match i with FunctionCallOutput _ _ => true | _ => is_user_message i end.

Lemma replace_images_eq placeholder l :
  replace_images placeholder l = (existsb is_image l, image_as_text placeholder <$> l).
Proof.
  unfold replace_images. f_equal. apply list_fmap_ext. by intros _ [] _.
Qed.

Lemma no_images_unchanged placeholder l :
  existsb is_image l = false → image_as_text placeholder <$> l = l.
Proof.
  induction l as [|c l IH]; [done|]. cbn. intros [Hc Hl]%orb_false_iff.
  unfold image_as_text at 1. by rewrite Hc, IH.
Qed.

(** ** Token usage adds up *)
Definition usage_add (u v : TokenUsage) : TokenUsage :=
  {| input_tokens := input_tokens u + input_tokens v;
     cached_input_tokens := cached_input_tokens u + cached_input_tokens v;
     output_tokens := output_tokens u + output_tokens v;
     reasoning_output_tokens := reasoning_output_tokens u + reasoning_output_tokens v;
     total_tokens := total_tokens u + total_tokens v |}.

Definition usage_all (P : Z → Prop) (u : TokenUsage) : Prop :=
  P (input_tokens u) ∧ P (cached_input_tokens u) ∧ P (output_tokens u) ∧
  P (reasoning_output_tokens u) ∧ P (total_tokens u).
Abbreviation usage_nonneg := (usage_all (Z.le 0)).
Abbreviation usage_fits := (usage_all (λ z, z ≤ i64_max)).

Lemma arith_i64_ok dbg z : i64_min ≤ z ≤ i64_max → arith_i64 dbg z = Ok z.
Proof.
  intros [H1 H2]. unfold arith_i64. by rewrite (proj2 (Z.leb_le _ _) H1), (proj2 (Z.leb_le _ _) H2).
Qed.

Lemma add_assign_ok dbg u v :
  usage_nonneg u → usage_nonneg v → usage_fits (usage_add u v) →
  add_assign dbg u v = Ok (usage_add u v).
Proof.
  unfold usage_all; cbn. intros. unfold add_assign.
  assert (i64_min ≤ 0) by done. by rewrite !arith_i64_ok by lia.
Qed.

Lemma usage_add_nonneg u v : usage_nonneg u → usage_nonneg v → usage_nonneg (usage_add u v).
Proof. unfold usage_all; cbn. lia. Qed.

Lemma usage_add_fits u v : usage_nonneg v → usage_fits (usage_add u v) → usage_fits u.
Proof. unfold usage_all; cbn. lia. Qed.

(** The counters a history starts from. *)
Definition total_so_far {V C} (h : @ContextManager V C) : TokenUsage :=
  match token_info h with Some info => total_token_usage info | None => default_usage end.
Definition window_so_far {V C} (h : @ContextManager V C) : option Z :=
  token_info h ≫= model_context_window.

Definition newer (old new : option Z) : option Z := match new with Some _ => new | None => old end.

Lemma update_token_info_ok {V C} dbg (h : @ContextManager V C) u w :
  usage_nonneg (total_so_far h) → usage_nonneg u → usage_fits (usage_add (total_so_far h) u) →
  update_token_info dbg h u w =
    Ok (set_token_info h (Some {| total_token_usage := usage_add (total_so_far h) u;
      last_token_usage := u; model_context_window := newer (window_so_far h) w |})).
Proof.
  intros Hb Hu Hf. unfold update_token_info, new_or_append, append_last_usage, total_so_far, window_so_far in *.
  destruct (token_info h) as [info|]; cbn [default from_option id total_token_usage mbind outcome_bind option_bind] in *;
    rewrite add_assign_ok by done; by destruct w.
Qed.

(** ** Recording *)
Lemma mul_f64_ok policy f : policy_ok (mul_f64 policy f).
Proof.
  assert (Hc : ∀ g, is_usize (ceil_as_usize g)).
  { intros [?|[]| |[] m e]; cbn [ceil_as_usize]; unfold is_usize, usize_max; cbv zeta; lia. }
  destruct policy; apply Hc.
Qed.

Definition payload_ok (p : FunctionCallOutputPayload) : Prop :=
  match body p with Text t => byte_len t ≤ usize_max | ContentItems l => items_ok l end.

(** Lengths of texts are [usize]. *)
Definition item_ok {Value} (i : ResponseItem Value) : Prop :=
  match i with FunctionCallOutput _ p | CustomToolCallOutput _ p => payload_ok p | _ => True end.

(** What [record_items] stores for an output: the text or the items truncated
    to the policy with its allowance for serialization. *)
Definition payload_recorded (budget : TruncationPolicy) (p q : FunctionCallOutputPayload) : Prop :=
  success q = success p ∧
  match body p, body q with
  | Text t, Text u =>
      byte_len t ≤ byte_budget budget ∧ u = t ∨
      byte_budget budget < byte_len t ∧ truncated_as budget t u
  | ContentItems l, ContentItems m => items_truncated budget l m
  | _, _ => False
  end.

(** What it stores for an item. *)
Definition recorded {Value} (policy : TruncationPolicy) (i j : ResponseItem Value) : Prop :=
  match i with
  | FunctionCallOutput call_id p =>
      ∃ q, j = FunctionCallOutput call_id q ∧ payload_recorded (mul_f64 policy f64_1_2) p q
  | CustomToolCallOutput call_id p =>
      ∃ q, j = CustomToolCallOutput call_id q ∧ payload_recorded (mul_f64 policy f64_1_2) p q
  | _ => j = i
  end.

Lemma truncate_payload_recorded p policy :
  policy_ok policy → payload_ok p →
  ∃ q, truncate_function_output_payload p policy = Ok q ∧ payload_recorded policy p q.
Proof.
  unfold truncate_function_output_payload, payload_ok, payload_recorded. intros Hp.
  destruct (body p) as [t|l]; intros Hok.
  - destruct (truncate_text_truncates t policy Hp Hok) as (out & -> & Ht). cbn [mbind outcome_bind]. eauto.
  - destruct (truncate_items_truncates l policy Hp Hok) as (out & -> & Ht). cbn [mbind outcome_bind]. eauto.
Qed.

Lemma process_item_recorded {Value} (i : ResponseItem Value) policy :
  item_ok i → ∃ j, process_item i policy = Ok j ∧ recorded policy i j.
Proof.
  intros Hok. destruct i; try (by eexists); cbn [process_item item_ok recorded] in *;
    (destruct (truncate_payload_recorded output (mul_f64 policy f64_1_2)) as (q & -> & Hq);
      [apply mul_f64_ok|done|]; cbn [mbind outcome_bind]; eauto).
Qed.

(** Everything is kept but system messages and items of an unknown type. *)
Definition kept_in_history {Value} (i : ResponseItem Value) : Prop :=
  match i with Message _ role _ _ _ => role ≠ lit "system" | Other => False | _ => True end.

#[export] Instance kept_in_history_dec {Value} (i : ResponseItem Value) :
  Decision (kept_in_history i).
Proof. destruct i; apply _. Defined.

Lemma kept_in_history_iff {Value} (i : ResponseItem Value) :
  is_api_message i || is_ghost_snapshot i = true ↔ kept_in_history i.
Proof.
  destruct i; cbn; try done. rewrite orb_false_r, negb_true_iff. apply bool_decide_eq_false.
Qed.

(** ** Prompts *)
Definition has_image {Value} (i : ResponseItem Value) : bool :=
  match i with
  | Message _ _ content _ _ => existsb (λ c, match c with InputImage _ => true | _ => false end) content
  | FunctionCallOutput _ p | CustomToolCallOutput _ p =>
      match body p with
      | ContentItems l => existsb (λ c, match c with OutInputImage _ _ => true | _ => false end) l
      | Text _ => false
      end
  | ImageGenerationCall _ _ _ result => negb (bool_decide (result = []))
  | _ => false
  end.

Lemma existsb_fmap_false {A B} (f : A → B) (g : B → bool) (l : list A) :
  (∀ x, g (f x) = false) → existsb g (f <$> l) = false.
Proof. intros Hg. induction l as [|x l IH]; cbn; [done|]. by rewrite Hg, IH. Qed.

Lemma strip_no_image {Value} (i : ResponseItem Value) : has_image (strip_item i) = false.
Proof.
  assert (Hp : ∀ p, match body (strip_payload p) with
    | ContentItems l => existsb (λ c, match c with OutInputImage _ _ => true | _ => false end) l
    | Text _ => false end = false).
  { intros [[t|l] su]; [done|]. cbn. apply existsb_fmap_false. by intros []. }
  destruct i; cbn [strip_item has_image]; try done; try apply Hp.
  apply existsb_fmap_false. by intros [].
Qed.

Lemma filter_no_ghost_paired {Value} (l : list (ResponseItem Value)) :
  paired l → paired (filter (λ i, is_ghost_snapshot i = false) l).
Proof.
  intros [Ha Ho]. split.
  - intros i k [_ Hi]%list_elem_of_filter Hk. destruct (Ha i k Hi Hk) as (o & Hin & Hok).
    exists o. split; [|done]. apply list_elem_of_filter. split; [by destruct o|done].
  - intros o k [_ Hin]%list_elem_of_filter Hk Hs. destruct (Ho o k Hin Hk Hs) as (i & Hi & Hki).
    exists i. split; [|done]. apply list_elem_of_filter. split; [by destruct i|done].
Qed.

(** ** Theorems *)
Section theorems.
Context {Value Ctx : Type}.
Implicit Types (h : @ContextManager Value Ctx).

(** [remove_first_item] and [remove_last_item] keep the call/output
    invariant without a normalisation pass: when every call has exactly one
    output and no id is used twice, this is so after removing an end of the
    history, and such a history is paired. *)
Theorem remove_item_balanced h :
  balanced (items h) →
  balanced (items (remove_first_item h)) ∧ balanced (items (remove_last_item h).2) ∧
  paired (items (remove_first_item h)) ∧ paired (items (remove_last_item h).2).
Proof.
  intros Hb.
  assert (H1 : balanced (items (remove_first_item h))).
  { unfold remove_first_item. destruct (items h) as [|i l] eqn:E; [by rewrite E|].
    cbn [items set_items]. by apply remove_corresponding_balanced. }
  assert (H2 : balanced (items (remove_last_item h).2)).
  { unfold remove_last_item. destruct (last (items h)) as [i|] eqn:E; [|done].
    cbn [snd items set_items]. apply last_Some in E as [l Hl]. rewrite Hl.
    rewrite length_app. cbn [length]. rewrite Nat.add_sub, take_app_length.
    apply remove_corresponding_balanced. apply balanced_snoc. by rewrite <-Hl. }
  split_and!; auto using balanced_paired.
Qed.

(** In a release build [for_prompt] always returns, and what it returns is
    paired, has no ghost snapshot, and has no image when the model does not
    support images. *)
Theorem for_prompt_spec dbg h modalities :
  (∃ out, for_prompt false h modalities = Ok out) ∧
  ∀ out, for_prompt dbg h modalities = Ok out →
    paired out ∧ Forall (λ i, is_ghost_snapshot i = false) out ∧
    (ImageModality ∉ modalities → Forall (λ i, has_image i = false) out).
Proof.
  unfold for_prompt, normalize_history. split.
  { rewrite ensure_release. cbn [mbind outcome_bind]. rewrite remove_orphans_release.
    cbn [mbind outcome_bind]. eauto. }
  intros out (l & Hl & [= <-])%bind_Ok_inv.
  apply bind_Ok_inv in Hl as (l1 & ->%ensure_Ok & Hl).
  apply bind_Ok_inv in Hl as (l2 & ->%remove_orphans_Ok & [= <-]). split_and!.
  - apply filter_no_ghost_paired, strip_paired, filter_keep_paired, expand_answered.
  - apply Forall_forall. by intros i [? _]%list_elem_of_filter.
  - intros Hm. unfold strip_images_when_unsupported. rewrite bool_decide_false by done.
    apply Forall_forall. intros i [_ (j & -> & _)%list_elem_of_fmap]%list_elem_of_filter.
    apply strip_no_image.
Qed.

(** A user turn starts at a message of the user none of whose texts is a
    contextual fragment: a text that starts and ends with the markers of one,
    up to case and surrounding whitespace.  A message the engine wraps in such
    markers never starts one. *)
Theorem user_turn_boundary_spec :
  (∀ i : ResponseItem Value, is_user_turn_boundary i = true ↔
    ∃ id content end_turn phase, i = Message id (lit "user") content end_turn phase ∧
      ∀ text d, InputText text ∈ content → d ∈ CONTEXTUAL_USER_FRAGMENTS → ¬ fragment_text d text) ∧
  (∀ d body, d ∈ CONTEXTUAL_USER_FRAGMENTS →
    is_user_turn_boundary (Value:=Value) (into_message (wrap d body)) = false).
Proof.
  assert (Hiff : ∀ content, is_contextual_user_message_content content = true ↔
    ∃ text d, InputText text ∈ content ∧ d ∈ CONTEXTUAL_USER_FRAGMENTS ∧ fragment_text d text).
  { intros content. unfold is_contextual_user_message_content. rewrite existsb_exists.
    setoid_rewrite <-list_elem_of_In. split.
    - intros ([text| |] & Hc & Hf); try done. cbn [is_contextual_user_fragment] in Hf.
      apply existsb_exists in Hf as (d & Hd%list_elem_of_In & Hm%matches_text_iff). eauto.
    - intros (text & d & Hc & Hd & Hm). exists (InputText text). split; [done|].
      apply existsb_exists. exists d. split; [by apply list_elem_of_In|by apply matches_text_iff]. }
  split.
  - intros i. split.
    + destruct i as [id role content e ph| | | | | | | | | | | | |]; try done. cbn.
      intros [->%bool_decide_eq_true Hn%negb_true_iff]%andb_true_iff.
      exists id, content, e, ph. split; [done|]. intros text d Hc Hd Hf.
      rewrite (proj2 (Hiff content)) in Hn; [done|eauto].
    + intros (id & content & e & ph & -> & Hn). cbn [is_user_turn_boundary].
      rewrite bool_decide_true by done. apply negb_true_iff, not_true_iff_false.
      intros (text & d & ? & ? & ?)%Hiff. by eapply Hn.
  - intros d body Hd. cbn [into_message is_user_turn_boundary].
    rewrite (proj2 (Hiff _)); [apply andb_false_r|]. exists (wrap d body), d.
    split_and!; [left|done|by apply wrap_fragment].
Qed.

(** [drop_last_n_user_turns] always returns and drops a suffix of the
    history that starts at a user turn and holds exactly the last [num_turns]
    user turns, or all of them when there are fewer; what precedes the first
    user turn is always kept. *)
Theorem drop_last_turns_spec h (num_turns : nat) :
  ∃ h' dropped, drop_last_n_user_turns h num_turns = Ok h' ∧
    items h = items h' ++ dropped ∧ user_turns dropped = Nat.min num_turns (user_turns (items h)) ∧
    (dropped = [] ∨ ∃ i rest, dropped = i :: rest ∧ is_user_turn_boundary i = true) ∧
    token_info h' = token_info h.
Proof.
  unfold drop_last_n_user_turns. destruct (Nat.eqb_spec num_turns 0) as [->|Hn].
  { exists h, []. rewrite app_nil_r. split_and!; auto. }
  pose proof (positions_length 0 (items h)) as Hlen.
  assert (Hcut : ∀ j p, user_message_positions (items h) !! j = Some p →
    (user_turns (items h) - j)%nat = Nat.min num_turns (user_turns (items h)) →
    ∃ h' dropped, Ok (replace h (take p (items h))) = Ok (E:=Empty_set) h' ∧
      items h = items h' ++ dropped ∧ user_turns dropped = Nat.min num_turns (user_turns (items h)) ∧
      (dropped = [] ∨ ∃ i rest, dropped = i :: rest ∧ is_user_turn_boundary i = true) ∧
      token_info h' = token_info h).
  { intros j p Hp Hj. destruct (positions_lookup _ _ _ _ Hp) as (n & i & rest & -> & Hd & Hb & Hc).
    eexists _, (drop n (items h)). split; [done|]. cbn [items replace set_items token_info Nat.add].
    rewrite take_drop. split_and!; [done|by rewrite Hc|right; eauto|done]. }
  unfold user_message_positions in *. destruct (positions_from 0 (items h)) as [|p0 ps] eqn:E.
  { exists h, []. rewrite app_nil_r. simpl in Hlen. rewrite <-Hlen.
    split_and!; [by destruct h|done|by rewrite Nat.min_0_r|by left|done]. }
  cbn zeta. destruct (Nat.leb_spec (length (p0 :: ps)) num_turns) as [Hle|Hgt].
  - apply (Hcut 0%nat); [done|]. lia.
  - destruct ((p0 :: ps) !! (length (p0 :: ps) - num_turns)%nat) as [p|] eqn:Ep.
    + apply (Hcut _ _ Ep). lia.
    + apply lookup_ge_None in Ep. lia.
Qed.

(** [replace_last_turn_images] replaces the images of the output that no
    later output or user message follows, and nothing else, and reports whether
    there was such an image; otherwise it changes nothing. *)
Theorem replace_last_turn_images_spec h placeholder :
  let '(replaced, h') := replace_last_turn_images h placeholder in
  token_info h' = token_info h ∧ reference_context_item h' = reference_context_item h ∧
  if replaced then
    ∃ pre call_id l success post,
      items h = pre ++ FunctionCallOutput call_id {| body := ContentItems l; success := success |} :: post ∧
      Forall (λ i, ends_search i = false) post ∧ existsb is_image l = true ∧
      items h' = pre ++ FunctionCallOutput call_id
        {| body := ContentItems (image_as_text placeholder <$> l); success := success |} :: post
  else
    h' = h ∧
    ∀ pre call_id l success post,
      items h = pre ++ FunctionCallOutput call_id {| body := ContentItems l; success := success |} :: post →
      Forall (λ i, ends_search i = false) post → existsb is_image l = false.
Proof.
  unfold replace_last_turn_images. fold (ends_search (Value:=Value)).
  assert (Hlast : ∀ pre i post, items h = pre ++ i :: post → ends_search i = true →
    Forall (λ j, ends_search j = false) post →
    rposition ends_search (items h) = Some (length pre) ∧ items h !! length pre = Some i).
  { intros pre i post Hi Hs Hp. rewrite Hi. split; [by apply rposition_last|].
    by apply list_lookup_middle. }
  destruct (rposition ends_search (items h)) as [n|] eqn:E.
  2: { split_and!; [done..|]. intros pre id l su post Hi Hp.
       by destruct (Hlast _ _ _ Hi eq_refl Hp) as [? _]. }
  destruct (rposition_Some _ _ _ E) as (pre & i & post & Hi & <- & Hs & Hp).
  destruct (Hlast _ _ _ Hi Hs Hp) as [_ Hlk]. rewrite Hlk.
  assert (Hsame : ∀ pre' i' post', items h = pre' ++ i' :: post' → ends_search i' = true →
    Forall (λ j, ends_search j = false) post' → i' = i).
  { intros pre' i' post' Hi' Hs' Hp'. destruct (Hlast _ _ _ Hi' Hs' Hp') as [[= Hl] Hlk'].
    rewrite <-Hl, Hlk in Hlk'. by injection Hlk'. }
  destruct i as [| | | | |call_id [[t|l] su]| | | | | | | |];
    try (split_and!; [done..|]; intros pre' id' l' su' post' Hi' Hp';
         by specialize (Hsame _ _ _ Hi' eq_refl Hp')).
  cbn [content_items body]. rewrite replace_images_eq. destruct (existsb is_image l) eqn:El.
  - cbn [set_items items token_info reference_context_item]. split_and!; [done..|].
    exists pre, call_id, l, su, post. split_and!; [done..|]. rewrite Hi.
    by rewrite insert_app_r_alt, Nat.sub_diag by lia.
  - split_and!; [done..| |].
    + rewrite no_images_unchanged by done. destruct h as [its ti rc]. unfold set_items. cbn in *.
      f_equal. by apply list_insert_id.
    + intros pre' id' l' su' post' Hi' Hp'. specialize (Hsame _ _ _ Hi' eq_refl Hp'). congruence.
Qed.

(** [record_items] always returns; it appends, in order, everything
    but system messages and items of unknown type, changes only the
    payload of tool outputs, which it truncates to the policy times 1.2, and
    leaves the token information alone. *)
Theorem record_items_spec h new_items policy :
  Forall item_ok new_items →
  ∃ h' added, record_items h new_items policy = Ok h' ∧ items h' = items h ++ added ∧
    Forall2 (recorded policy) (filter kept_in_history new_items) added ∧
    token_info h' = token_info h.
Proof.
  intros Hok. revert h; induction Hok as [|i l Hi _ IH]; intros h; cbn [record_items].
  { exists h, []. rewrite app_nil_r. by split_and!. }
  rewrite <-negb_orb, filter_cons. pose proof (kept_in_history_iff i) as Hiff.
  destruct (is_api_message i || is_ghost_snapshot i) eqn:E; case_decide as Hk;
    [|by destruct Hk; apply Hiff|by apply Hiff in Hk|apply IH]; cbn [negb].
  destruct (process_item_recorded i policy Hi) as (j & -> & Hj).
  cbn [mbind outcome_bind]. destruct (IH (set_items h (items h ++ [j]))) as (h' & added & Hr & Hit & Hall & Htk).
  exists h', (j :: added). cbn [items set_items token_info] in *. split_and!; [done| |by constructor|done].
  by rewrite Hit, <-app_assoc.
Qed.

(** While no counter overflows, recording the usage of responses keeps the
    sum of all of them, the usage of the last one and the last context window
    that was reported; marking the context as full then makes the window the
    total and what was missing the usage of the last response. *)
Theorem token_usage_accumulates dbg h (updates : list (TokenUsage * option Z)) u w :
  let total := foldl usage_add (total_so_far h) (updates.*1 ++ [u]) in
  usage_nonneg (total_so_far h) → Forall usage_nonneg (updates.*1 ++ [u]) → usage_fits total →
  ∃ h', foldl (λ r update, h ← r; update_token_info dbg h update.1 update.2) (Ok h)
          (updates ++ [(u, w)]) = Ok h' ∧
    items h' = items h ∧
    token_info h' = Some {| total_token_usage := total; last_token_usage := u;
      model_context_window := foldl newer (window_so_far h) (updates.*2 ++ [w]) |} ∧
    ∀ window, 0 ≤ window ≤ i64_max → ∃ h'', set_token_usage_full dbg h' window = Ok h'' ∧
      items h'' = items h ∧
      token_info h'' = Some {| total_token_usage := only_total window;
        last_token_usage := only_total (Z.max 0 (window - total_tokens total));
        model_context_window := Some window |}.
Proof.
  intros total Hb Hall Hf. subst total. rewrite (foldl_app usage_add) in Hf. rewrite (foldl_app usage_add). cbn [foldl] in Hf |- *. apply Forall_app in Hall as [Hall Hu]. rewrite Forall_singleton in Hu.
  assert (Hpre : usage_nonneg (foldl usage_add (total_so_far h) updates.*1) ∧
    ∃ h1, foldl (λ r update, h ← r; update_token_info dbg h update.1 update.2) (Ok h) updates = Ok h1 ∧
      items h1 = items h ∧ total_so_far h1 = foldl usage_add (total_so_far h) updates.*1 ∧
      window_so_far h1 = foldl newer (window_so_far h) updates.*2).
  { apply (usage_add_fits _ _ Hu) in Hf. clear Hu.
    induction updates as [|[v z] updates IH] using rev_ind; [split; [done|by exists h]|].
    rewrite !fmap_app in *. cbn [fmap list_fmap fst snd] in *. rewrite (foldl_app usage_add) in Hf. rewrite (foldl_app usage_add). cbn [foldl] in Hf |- *.
    apply Forall_app in Hall as [Hall Hv]. rewrite Forall_singleton in Hv.
    destruct IH as (Hn & h1 & Hr & Hi & Ht & Hw); [done|by eapply usage_add_fits|].
    split; [by apply usage_add_nonneg|]. rewrite !foldl_app, Hr. cbn [foldl mbind outcome_bind fst snd].
    rewrite update_token_info_ok by (by rewrite ?Ht). eexists; split; [done|].
    cbn. by rewrite Ht, Hw. }
  destruct Hpre as (Hn & h1 & Hr & Hi & Ht & Hw). rewrite !foldl_app, Hr. cbn [foldl mbind outcome_bind fst snd].
  rewrite update_token_info_ok by (by rewrite ?Ht). eexists; split; [done|]. cbn [items set_token_info token_info].
  split_and!; [done|by rewrite Ht, Hw|]. intros window Hwin.
  unfold set_token_usage_full, fill_to_context_window. cbn [token_info set_token_info total_token_usage].
  rewrite arith_i64_ok.
  2: { rewrite Ht. destruct Hf as (_ & _ & _ & _ & Hf), (usage_add_nonneg _ _ Hn Hu) as (_ & _ & _ & _ & H0).
       unfold i64_min, i64_max in *. lia. }
  cbn [mbind outcome_bind]. eexists; split; [done|]. cbn [items set_token_info token_info].
  split; [done|]. by rewrite Ht, Z.max_comm.
Qed.

(** For any serializer and image decoder, the token usage of a history is
    the usage the server reported last, plus the estimates of the items after
    the last one the model generated, plus, unless the server counts them, the
    estimates of the encrypted reasoning before the last user message; it is
    [i64::MAX] when the sum is larger. *)
Theorem total_token_usage_spec (serialized_len : ResponseItem Value → option Z)
    (image_size : str → option (Z * Z)) h (server_reasoning_included : bool) :
  let tokens := items_tokens serialized_len image_size in
  0 ≤ last_tokens h ≤ i64_max →
  ∃ after before,
    after_last is_model_generated_item (items h) after ∧
    before_last is_user_message (items h) before ∧
    get_total_token_usage serialized_len image_size h server_reasoning_included =
      Ok (Z.min i64_max (last_tokens h + tokens after +
            if server_reasoning_included then 0 else tokens (filter encrypted_reasoning before))).
Proof.
  intros tokens Hlast. exists (items_after_last_model_generated_item h), (before_last_user h).
  split_and!; [apply rposition_after|apply rposition_before|].
  unfold get_total_token_usage. rewrite sum_i64_tokens. cbn [mbind outcome_bind]. fold tokens.
  pose proof (items_tokens_nonneg serialized_len image_size (items_after_last_model_generated_item h)
    : 0 ≤ tokens _).
  destruct server_reasoning_included.
  - unfold sat_add_i64, i64_min, i64_max in *. f_equal. lia.
  - rewrite non_last_reasoning_tokens. cbn [mbind outcome_bind]. fold tokens.
    pose proof (items_tokens_nonneg serialized_len image_size
      (filter encrypted_reasoning (before_last_user h)) : 0 ≤ tokens _).
    unfold sat_add_i64, i64_min, i64_max in *. f_equal. lia.
Qed.

(** The image payload found in a URL is what follows the first comma of a
    data URL whose media type is an image and one of whose parameters is
    [base64], all up to case; no other URL has one, and no slice panics. *)
Theorem data_url_payload_spec url :
  ∃ r, parse_base64_image_data_url url = Ok r ∧
    ∀ payload, r = Some payload ↔
      ∃ scheme mime params, url = scheme ++ join [SEMICOLON] (mime :: params) ++ [COMMA] ++ payload ∧
        same_text scheme (lit "data:") ∧
        (∃ a b, mime = a ++ b ∧ same_text a (lit "image/")) ∧
        (∃ p, p ∈ params ∧ same_text p (lit "base64")) ∧
        Forall (λ part, (COMMA ∉ part) ∧ SEMICOLON ∉ part) (mime :: params).
Proof.
  destruct (parse_data_url_returns url) as [r Hr]. exists r. split; [done|].
  intros payload. split.
  - intros ->. destruct (parse_data_url_cases url) as [(scheme & metadata & p & -> & Hs & Hm)|H]; [|congruence].
    rewrite parse_data_url_eq in Hr by done. destruct (base64_image metadata) eqn:E; [|done].
    injection Hr as ->. by apply base64_image_parts.
  - intros (scheme & mime & params & -> & Hs & Hi & Hb & Hall).
    change ([COMMA] ++ payload) with (COMMA :: payload) in Hr. rewrite parse_data_url_eq in Hr.
    + rewrite base64_image_join in Hr by done. congruence.
    + done.
    + apply not_elem_of_join; [by apply (bool_decide_unpack _)|]. eapply Forall_impl; [done|]. naive_solver.
Qed.

End theorems.

Definition sample_manager : @ContextManager unit unit :=
  {| items := sample_history; token_info := None; reference_context_item := None |}.

Lemma remove_item_balanced_witness :
  balanced (items (remove_first_item sample_manager)) ∧
  balanced (items (remove_last_item sample_manager).2) ∧
  paired (items (remove_first_item sample_manager)) ∧
  paired (items (remove_last_item sample_manager).2).
Proof.
  apply (remove_item_balanced sample_manager). split; [|reflexivity].
  apply (bool_decide_unpack _). by vm_compute.
Defined.

Lemma record_items_spec_witness :
  ∃ h' added, record_items sample_manager sample_history (Bytes 100) = Ok h' ∧
    items h' = items sample_manager ++ added ∧
    Forall2 (recorded (Bytes 100)) (filter kept_in_history sample_history) added ∧
    token_info h' = token_info sample_manager.
Proof.
  apply (record_items_spec sample_manager sample_history (Bytes 100)).
  repeat constructor. by vm_compute.
Defined.

Lemma token_usage_accumulates_witness :
  let u := {| input_tokens := 5; cached_input_tokens := 1; output_tokens := 2;
              reasoning_output_tokens := 0; total_tokens := 7 |} in
  ∃ h', foldl (λ r update, h ← r; update_token_info true h update.1 update.2) (Ok sample_manager)
          ([(u, Some 100)] ++ [(u, None)]) = Ok h' ∧
    items h' = items sample_manager ∧
    token_info h' = Some {| total_token_usage := foldl usage_add default_usage [u; u];
      last_token_usage := u; model_context_window := Some 100 |} ∧
    ∀ window, 0 ≤ window ≤ i64_max → ∃ h'', set_token_usage_full true h' window = Ok h'' ∧
      items h'' = items sample_manager ∧
      token_info h'' = Some {| total_token_usage := only_total window;
        last_token_usage := only_total (Z.max 0 (window - 14)); model_context_window := Some window |}.
Proof.
  intros u. apply (token_usage_accumulates true sample_manager [(u, Some 100)] u None).
  - by vm_compute.
  - repeat constructor; by vm_compute.
  - by vm_compute.
Defined.

Lemma total_token_usage_spec_witness :
  ∃ after before,
    after_last is_model_generated_item (items sample_manager) after ∧
    before_last is_user_message (items sample_manager) before ∧
    get_total_token_usage (λ _, Some 10) (λ _, None) sample_manager false =
      Ok (Z.min i64_max (last_tokens sample_manager + items_tokens (λ _, Some 10) (λ _, None) after +
            items_tokens (λ _, Some 10) (λ _, None) (filter encrypted_reasoning before))).
Proof.
  apply (total_token_usage_spec (λ _, Some 10) (λ _, None) sample_manager false). by vm_compute.
Defined.
