(* ===== verification/ExecPolicy.v ===== *)
(** * The exec policy: [execpolicy/src/policy.rs], [rule.rs], [decision.rs],
      [executable_name.rs] and the line format of [amend.rs]

    Which commands may run: prefix rules keyed by program, network rules and
    host executables.  [MultiMap] maps a program to its rules in the order they
    were inserted.  The home directory and [path_absolutize] are arguments. *)
From stdpp Require Import base tactics option list numbers strings gmap sets.
From S2P Require Import Prelude.
From S2P Require Import RustStr.

(** ** Decisions *)
Inductive Decision : Type := Allow | Prompt | Forbidden.

#[export] Instance Decision_eq_dec : EqDecision Decision.
Proof. solve_decision. Defined.

(** The errors of the operations modelled here. *)
Inductive Error : Type :=
  | InvalidDecision (msg : str)
  | InvalidPattern (msg : str)
  | InvalidRule (msg : str).

Definition decision_parse (raw : str) : outcome Error Decision :=
  if bool_decide (raw = lit "allow") then Ok Allow
  else if bool_decide (raw = lit "prompt") then Ok Prompt
  else if bool_decide (raw = lit "forbidden") then Ok Forbidden
  else Err (InvalidDecision raw).

(** The derived [Ord]. *)
Definition decision_rank (d : Decision) : nat :=
  match d with Allow => 0 | Prompt => 1 | Forbidden => 2 end.
Definition decision_max (d e : Decision) : Decision :=
  if decision_rank d <=? decision_rank e then e else d.

(** ** Rules *)
Inductive PatternToken : Type := Single (expected : str) | Alts (alternatives : list str).

Definition token_matches (p : PatternToken) (token : str) : bool :=
  match p with
  | Single expected => bool_decide (expected = token)
  | Alts alternatives => existsb (λ alt, bool_decide (alt = token)) alternatives
  end.

Definition alternatives (p : PatternToken) : list str :=
  match p with Single expected => [expected] | Alts alternatives => alternatives end.

Record PrefixPattern : Type := { first : str; rest : list PatternToken }.

(** The loop over the zipped tokens. *)
Fixpoint tokens_match (ps : list PatternToken) (ts : list str) : bool :=
  match ps, ts with
  | p :: ps, t :: ts => token_matches p t && tokens_match ps ts
  | _, _ => true
  end.

Definition matches_prefix (p : PrefixPattern) (cmd : list str) : option (list str) :=
  let pattern_length := length (rest p) + 1 in
  match cmd with
  | [] => None
  | c0 :: _ =>
      if (length cmd <? pattern_length) || negb (bool_decide (c0 = first p)) then None
      else if tokens_match (rest p) (drop 1 (take pattern_length cmd))
      then Some (take pattern_length cmd)
      else None
  end.

Inductive RuleMatch : Type :=
  | PrefixRuleMatch (matched_prefix : list str) (decision : Decision)
      (resolved_program : option str) (justification : option str)
  | HeuristicsRuleMatch (command : list str) (decision : Decision).

Definition match_decision (r : RuleMatch) : Decision :=
  match r with
  | PrefixRuleMatch _ decision _ _ => decision
  | HeuristicsRuleMatch _ decision => decision
  end.

Definition with_resolved_program (r : RuleMatch) (resolved_program : str) : RuleMatch :=
  match r with
  | PrefixRuleMatch matched_prefix decision _ justification =>
      PrefixRuleMatch matched_prefix decision (Some resolved_program) justification
  | other => other
  end.

Record PrefixRule : Type := {
  pattern : PrefixPattern;
  rule_decision : Decision;
  rule_justification : option str;
}.

(** [Rule::matches] of [PrefixRule], the only rule type. *)
Definition rule_matches (r : PrefixRule) (cmd : list str) : option RuleMatch :=
  (λ matched_prefix,
    PrefixRuleMatch matched_prefix (rule_decision r) None (rule_justification r))
  <$> matches_prefix (pattern r) cmd.

(** ** Network rules *)
Inductive NetworkRuleProtocol : Type := Http | Https | Socks5Tcp | Socks5Udp.

Definition protocol_parse (raw : str) : outcome Error NetworkRuleProtocol :=
  if bool_decide (raw = lit "http") then Ok Http
  else if bool_decide (raw ∈ [lit "https"; lit "https_connect"; lit "http-connect"]) then Ok Https
  else if bool_decide (raw = lit "socks5_tcp") then Ok Socks5Tcp
  else if bool_decide (raw = lit "socks5_udp") then Ok Socks5Udp
  else Err (InvalidRule (lit "network_rule protocol must be one of http, https, socks5_tcp, socks5_udp (got "
              ++ raw ++ lit ")")).

Definition as_policy_string (p : NetworkRuleProtocol) : str :=
  match p with
  | Http => lit "http"
  | Https => lit "https"
  | Socks5Tcp => lit "socks5_tcp"
  | Socks5Udp => lit "socks5_udp"
  end.

Record NetworkRule : Type := {
  host : str;
  protocol : NetworkRuleProtocol;
  net_decision : Decision;
  net_justification : option str;
}.

Definition contains (pat s : str) : bool := match find pat s with Some _ => true | None => false end.

(** [str::trim_end_matches('.')]. *)
Fixpoint trim_end_dots (s : str) : str :=
  match s with
  | [] => []
  | c :: s =>
      match trim_end_dots s with
      | [] => if (c =? 46)%N then [] else [c]
      | t => c :: t
      end
  end.

Definition is_port (port : str) : bool := negb (bool_decide (port = [])) && forallb is_ascii_digit port.

(** The checks after the port is removed. *)
Definition check_host (host : str) : outcome Error str :=
  let normalized := to_ascii_lowercase (trim (trim_end_dots host)) in
  if bool_decide (normalized = []) then
    Err (InvalidRule (lit "network_rule host cannot be empty"))
  else if contains (lit "*") normalized then
    Err (InvalidRule (lit "network_rule host must be a specific host; wildcards are not allowed"))
  else if existsb is_whitespace normalized then
    Err (InvalidRule (lit "network_rule host cannot contain whitespace"))
  else Ok normalized.

Definition normalize_network_rule_host (raw : str) : outcome Error str :=
  let host := trim raw in
  if bool_decide (host = []) then
    Err (InvalidRule (lit "network_rule host cannot be empty"))
  else if contains (lit "://") host || contains (lit "/") host || contains (lit "?") host
          || contains (lit "#") host then
    Err (InvalidRule
      (lit "network_rule host must be a hostname or IP literal (without scheme or path)"))
  else
    match strip_prefix (lit "[") host with
    | Some stripped =>
        match find (lit "]") stripped with
        | None => Err (InvalidRule (lit "network_rule host has an invalid bracketed IPv6 literal"))
        | Some i =>
            let inside := take i stripped in
            let rest := drop (i + 1) stripped in
            let port_ok :=
              match strip_prefix (lit ":") rest with Some port => is_port port | None => false end in
            if negb (bool_decide (rest = [])) && negb port_ok then
              Err (InvalidRule (lit "network_rule host contains an unsupported suffix: " ++ raw))
            else check_host inside
        end
    | None =>
        (* one colon: [split] gives the candidate and the port *)
        match split 58%N host with
        | [candidate; port] =>
            if negb (bool_decide (candidate = [])) && is_port port
            then check_host candidate else check_host host
        | _ => check_host host
        end
    end.

(** ** Policies *)
Record Policy : Type := {
  rules_by_program : gmap str (list PrefixRule);
  network_rules : list NetworkRule;
  host_executables_by_name : gmap str (list str);
}.

Definition policy_empty : Policy :=
  {| rules_by_program := ∅; network_rules := []; host_executables_by_name := ∅ |}.

(** [MultiMap::insert]. *)
Definition insert_rule (m : gmap str (list PrefixRule)) (program : str) (r : PrefixRule)
    : gmap str (list PrefixRule) :=
  <[program := default [] (m !! program) ++ [r]]> m.

Definition set_rules (p : Policy) (m : gmap str (list PrefixRule)) : Policy :=
  {| rules_by_program := m; network_rules := network_rules p;
     host_executables_by_name := host_executables_by_name p |}.

Definition add_prefix_rule (p : Policy) (prefix : list str) (decision : Decision)
    : outcome Error Policy :=
  match prefix with
  | [] => Err (InvalidPattern (lit "prefix cannot be empty"))
  | first_token :: rest =>
      let rule := {| pattern := {| first := first_token; rest := Single <$> rest |};
                     rule_decision := decision; rule_justification := None |} in
      Ok (set_rules p (insert_rule (rules_by_program p) first_token rule))
  end.

Definition add_network_rule (p : Policy) (raw_host : str) (protocol : NetworkRuleProtocol)
    (decision : Decision) (justification : option str) : outcome Error Policy :=
  host ← normalize_network_rule_host raw_host;
  if match justification with Some raw => bool_decide (trim raw = []) | None => false end
  then Err (InvalidRule (lit "justification cannot be empty"))
  else Ok {| rules_by_program := rules_by_program p;
             network_rules := network_rules p ++
               [{| host := host; protocol := protocol; net_decision := decision;
                   net_justification := justification |}];
             host_executables_by_name := host_executables_by_name p |}.

Definition set_host_executable_paths (p : Policy) (name : str) (paths : list str) : Policy :=
  {| rules_by_program := rules_by_program p; network_rules := network_rules p;
     host_executables_by_name := <[name := paths]> (host_executables_by_name p) |}.

(** The overlay's rules are inserted after the base's, program by program. *)
Definition merge_overlay (p overlay : Policy) : Policy :=
  {| rules_by_program := union_with (λ rs rs', Some (rs ++ rs'))
       (rules_by_program p) (rules_by_program overlay);
     network_rules := network_rules p ++ network_rules overlay;
     host_executables_by_name := host_executables_by_name overlay ∪ host_executables_by_name p |}.

Definition upsert_domain (entries : list str) (host : str) : list str :=
  filter (λ entry, entry ≠ host) entries ++ [host].

Definition compile_rule (st : list str * list str) (rule : NetworkRule) : list str * list str :=
  let '(allowed, denied) := st in
  match net_decision rule with
  | Allow => (upsert_domain allowed (host rule), filter (λ entry, entry ≠ host rule) denied)
  | Forbidden => (filter (λ entry, entry ≠ host rule) allowed, upsert_domain denied (host rule))
  | Prompt => (allowed, denied)
  end.

Definition compiled_network_domains (p : Policy) : list str * list str :=
  foldl compile_rule ([], []) (network_rules p).

(** ** Matching commands *)
Section matching.
(** [dirs::home_dir] and [path_absolutize::Absolutize::absolutize]. *)
Context (home_dir : option str) (absolutize : str → option str) (windows : bool).

(** [Path::join] with a relative path, [Path::file_name]. *)
Definition path_join (base p : str) : str :=
  if ends_with (lit "/") base then base ++ p else base ++ lit "/" ++ p.
Definition file_name (path : str) : option str :=
  match last (filter (λ c, c ≠ [] ∧ c ≠ lit ".") (split 47%N path)) with
  | Some c => if bool_decide (c = lit "..") then None else Some c
  | None => None
  end.

(** [AbsolutePathBuf::maybe_expand_home_directory] and [from_absolute_path]
    ([utils/absolute-path/src/lib.rs]). *)
Fixpoint trim_start_slashes (s : str) : str :=
  match s with c :: s' => if (c =? 47)%N then trim_start_slashes s' else s | [] => [] end.

Definition maybe_expand_home_directory (path : str) : str :=
  if windows then path
  else match home_dir with
       | None => path
       | Some home =>
           if bool_decide (path = lit "~") then home
           else match strip_prefix (lit "~/") path with
                | Some rest =>
                    let rest := trim_start_slashes rest in
                    if bool_decide (rest = []) then home else path_join home rest
                | None => path
                end
       end.

Definition from_absolute_path (path : str) : option str :=
  absolutize (maybe_expand_home_directory path).

Definition WINDOWS_EXECUTABLE_SUFFIXES : list str :=
  [lit ".exe"; lit ".cmd"; lit ".bat"; lit ".com"].

Fixpoint strip_executable_suffix (suffixes : list str) (raw : str) : str :=
  match suffixes with
  | [] => raw
  | suffix :: suffixes =>
      match strip_suffix suffix raw with
      | Some stripped => stripped
      | None => strip_executable_suffix suffixes raw
      end
  end.

Definition executable_lookup_key (raw : str) : str :=
  if windows
  then strip_executable_suffix WINDOWS_EXECUTABLE_SUFFIXES (to_ascii_lowercase raw)
  else raw.

Definition executable_path_lookup_key (path : str) : option str :=
  executable_lookup_key <$> file_name path.

Definition match_exact_rules (p : Policy) (cmd : list str) : option (list RuleMatch) :=
  match cmd with
  | [] => None
  | first :: _ =>
      Some (match rules_by_program p !! first with
            | Some rules => omap (λ rule, rule_matches rule cmd) rules
            | None => []
            end)
  end.

Definition match_host_executable_rules (p : Policy) (cmd : list str) : list RuleMatch :=
  match cmd with
  | [] => []
  | first :: args =>
      match from_absolute_path first with
      | None => []
      | Some program =>
          match executable_path_lookup_key program with
          | None => []
          | Some basename =>
              match rules_by_program p !! basename with
              | None => []
              | Some rules =>
                  if match host_executables_by_name p !! basename with
                     | Some paths => negb (existsb (λ path, bool_decide (path = program)) paths)
                     | None => false
                     end
                  then []
                  else
                    let basename_command := basename :: args in
                    (λ rule_match, with_resolved_program rule_match program) <$>
                      omap (λ rule, rule_matches rule basename_command) rules
              end
          end
      end
  end.

Definition matches_for_command_with_options (p : Policy) (cmd : list str)
    (heuristics_fallback : option (list str → Decision)) (resolve_host_executables : bool)
    : list RuleMatch :=
  let matched_rules :=
    match match_exact_rules p cmd with
    | Some (m :: ms) => m :: ms
    | _ => if resolve_host_executables then match_host_executable_rules p cmd else []
    end in
  match matched_rules, heuristics_fallback with
  | [], Some fallback => [HeuristicsRuleMatch cmd (fallback cmd)]
  | _, _ => matched_rules
  end.

Record Evaluation : Type := { decision : Decision; matched_rules : list RuleMatch }.

Definition is_match (e : Evaluation) : bool :=
  existsb (λ r, match r with HeuristicsRuleMatch _ _ => false | _ => true end) (matched_rules e).

(** [Evaluation::from_matches]: the maximum, [expect]ed to exist. *)
Definition from_matches (matched_rules : list RuleMatch) : outcome Empty_set Evaluation :=
  match match_decision <$> matched_rules with
  | [] => Panic
  | d :: ds => Ok {| decision := foldl decision_max d ds; matched_rules := matched_rules |}
  end.

Definition check_with_options (p : Policy) (cmd : list str) (heuristics_fallback : list str → Decision)
    (resolve_host_executables : bool) : outcome Empty_set Evaluation :=
  from_matches (matches_for_command_with_options p cmd (Some heuristics_fallback)
    resolve_host_executables).

Definition check (p : Policy) (cmd : list str) (heuristics_fallback : list str → Decision)
    : outcome Empty_set Evaluation :=
  check_with_options p cmd heuristics_fallback false.

Definition check_multiple_with_options (p : Policy) (commands : list (list str))
    (heuristics_fallback : list str → Decision) (resolve_host_executables : bool)
    : outcome Empty_set Evaluation :=
  from_matches (commands ≫= λ command,
    matches_for_command_with_options p command (Some heuristics_fallback) resolve_host_executables).

Definition check_multiple (p : Policy) (commands : list (list str))
    (heuristics_fallback : list str → Decision) : outcome Empty_set Evaluation :=
  check_multiple_with_options p commands heuristics_fallback false.
End matching.

(** ** Amending a policy file *)
(** The rule texts; [to_json] is [serde_json::to_string] of a string. *)
Definition allow_prefix_line (to_json : str → str) (prefix : list str) : option str :=
  match prefix with
  | [] => None
  | _ =>
      let pattern := lit "[" ++ join (lit ", ") (to_json <$> prefix) ++ lit "]" in
      Some (lit "prefix_rule(pattern=" ++ pattern ++ lit ", decision=" ++
            [34%N] ++ lit "allow" ++ [34%N] ++ lit ")")
  end.

(** [append_locked_line]: the contents of the file before and after, under the
    lock and when no I/O call fails. *)
Definition append_line (contents line : str) : str :=
  if existsb (λ existing, bool_decide (existing = line)) (lines contents) then contents
  else
    let contents :=
      if negb (bool_decide (contents = [])) && negb (ends_with [NL] contents)
      then contents ++ [NL] else contents in
    contents ++ line ++ [NL].

(** ** Decisions are ordered *)
Lemma decision_rank_inj d e : decision_rank d = decision_rank e → d = e.
Proof. by destruct d, e. Qed.

Lemma decision_rank_max d e :
  decision_rank (decision_max d e) = decision_rank d `max` decision_rank e.
Proof. by destruct d, e. Qed.

(** The folded maximum is an upper bound and is attained. *)
Lemma foldl_decision_max d ds :
  (∀ e, e ∈ d :: ds → decision_rank e ≤ decision_rank (foldl decision_max d ds)) ∧
  foldl decision_max d ds ∈ d :: ds.
Proof.
  revert d; induction ds as [|e ds IH]; intros d; cbn [foldl].
  { split; [|left]. intros e ->%list_elem_of_singleton. done. }
  destruct (IH (decision_max d e)) as [Hub Hin]. split.
  - intros x Hx. assert (decision_rank (decision_max d e) ≤
      decision_rank (foldl decision_max (decision_max d e) ds)) as Hm by (apply Hub; left).
    rewrite decision_rank_max in Hm.
    apply elem_of_cons in Hx as [->|Hx]; [lia|].
    apply elem_of_cons in Hx as [->|Hx]; [lia|]. apply Hub. by right.
  - apply elem_of_cons in Hin as [Hin|Hin]; [|by right; right]. rewrite Hin.
    unfold decision_max. case_match; [right; left|left].
Qed.

Lemma from_matches_spec ms :
  ms ≠ [] → ∃ ev, from_matches ms = Ok ev ∧ matched_rules ev = ms ∧
    (∀ r, r ∈ ms → decision_rank (match_decision r) ≤ decision_rank (decision ev)) ∧
    ∃ r, r ∈ ms ∧ match_decision r = decision ev.
Proof.
  intros Hne. unfold from_matches. destruct ms as [|m ms]; [done|]. rewrite fmap_cons.
  destruct (foldl_decision_max (match_decision m) (match_decision <$> ms)) as [Hub Hin].
  eexists; split; [done|]. cbn [matched_rules decision]. split_and!; [done| |].
  - intros r Hr. apply Hub. rewrite <-fmap_cons. by apply list_elem_of_fmap_2.
  - rewrite <-fmap_cons in Hin. apply list_elem_of_fmap in Hin as (r & Hr & Hin). eauto.
Qed.

Lemma is_match_iff e :
  is_match e = true ↔
  ∃ r, r ∈ matched_rules e ∧ match r with PrefixRuleMatch _ _ _ _ => True | _ => False end.
Proof.
  unfold is_match. rewrite existsb_exists. setoid_rewrite <-list_elem_of_In.
  split; intros (r & Hr & H); exists r; by destruct r.
Qed.

(** ** Matching *)
Lemma tokens_match_single (rest ts : list str) :
  length ts = length rest → tokens_match (Single <$> rest) ts = true ↔ rest = ts.
Proof.
  revert ts; induction rest as [|r rest IH]; intros [|t ts] Hl; try done; cbn.
  rewrite andb_true_iff, bool_decide_eq_true. rewrite IH by (simpl in Hl; lia). naive_solver.
Qed.

Lemma matches_prefix_single p0 (rest cmd : list str) :
  matches_prefix {| first := p0; rest := Single <$> rest |} cmd =
  if bool_decide ((p0 :: rest) `prefix_of` cmd) then Some (p0 :: rest) else None.
Proof.
  unfold matches_prefix. cbn [first ExecPolicy.rest]. rewrite length_fmap.
  destruct cmd as [|c0 cmd].
  { rewrite bool_decide_false; [done|]. by intros ?%prefix_nil_inv. }
  replace (length rest + 1) with (S (length rest)) by lia. cbn [take drop length].
  rewrite drop_0.
  destruct (decide ((p0 :: rest) `prefix_of` c0 :: cmd)) as [Hp|Hp].
  - rewrite (bool_decide_true (_ `prefix_of` _)) by done. destruct Hp as [k [= -> ->]].
    rewrite length_app, (proj2 (Nat.ltb_ge _ _)), bool_decide_true by (done || lia).
    cbn [orb negb]. rewrite take_app_length.
    by rewrite (proj2 (tokens_match_single _ _ eq_refl)).
  - rewrite (bool_decide_false (_ `prefix_of` _)) by done.
    destruct (Nat.ltb_spec (S (length cmd)) (S (length rest))); [done|].
    case_bool_decide as Hc; [|done]. subst c0. cbn [orb negb].
    destruct (tokens_match _ _) eqn:E; [|done]. exfalso. apply Hp.
    apply tokens_match_single in E; [|rewrite length_take; lia].
    apply prefix_cons. rewrite E. by exists (drop (length rest) cmd); rewrite take_drop.
Qed.

(** What a pattern means: the first token, then one of the alternatives of
    each further token, at the start of the command. *)
Definition accepts (p : PrefixPattern) (cmd matched : list str) : Prop :=
  ∃ args tail, cmd = matched ++ tail ∧ matched = first p :: args ∧
    Forall2 (λ token arg, arg ∈ alternatives token) (rest p) args.

Lemma token_matches_iff token arg : token_matches token arg = true ↔ arg ∈ alternatives token.
Proof.
  destruct token as [e|alts]; cbn [token_matches alternatives].
  - rewrite bool_decide_eq_true, list_elem_of_singleton. naive_solver.
  - rewrite existsb_exists. setoid_rewrite <-list_elem_of_In. setoid_rewrite bool_decide_eq_true.
    naive_solver.
Qed.

Lemma tokens_match_iff ps ts :
  length ts = length ps →
  tokens_match ps ts = true ↔ Forall2 (λ token arg, arg ∈ alternatives token) ps ts.
Proof.
  revert ts; induction ps as [|p ps IH]; intros [|t ts] Hl; try discriminate; cbn [tokens_match].
  - split; intros; [constructor|reflexivity].
  - rewrite andb_true_iff, token_matches_iff, IH by (simpl in Hl; lia).
    split; [intros [? ?]; by constructor|by inversion 1].
Qed.

Lemma matches_prefix_iff p cmd matched :
  matches_prefix p cmd = Some matched ↔ accepts p cmd matched.
Proof.
  unfold matches_prefix, accepts. destruct cmd as [|c0 cmd].
  { split; [done|]. intros (args & tail & H & -> & _). done. }
  rewrite Nat.add_1_r. cbn [take drop length]. rewrite drop_0. split.
  - destruct (Nat.ltb_spec (S (length cmd)) (S (length (rest p)))); [done|].
    case_bool_decide as Hc; [subst c0|done]. cbn [orb negb].
    destruct (tokens_match _ _) eqn:E; [|done]. intros [= <-].
    apply tokens_match_iff in E; [|rewrite length_take; lia].
    exists (take (length (rest p)) cmd), (drop (length (rest p)) cmd).
    cbn [app]. by rewrite take_drop.
  - intros (args & tail & Hcmd & -> & HF). injection Hcmd as -> ->.
    pose proof (Forall2_length _ _ _ HF) as Hl.
    rewrite length_app, (proj2 (Nat.ltb_ge _ _)), bool_decide_true by (done || lia).
    cbn [orb negb]. rewrite Hl, take_app_length. by rewrite (proj2 (tokens_match_iff _ _ (eq_sym Hl))).
Qed.

(** A rule of the program a command names accepts it. *)
Definition rule_match (p : Policy) (program : str) (cmd : list str) (resolved : option str)
    (r : RuleMatch) : Prop :=
  ∃ rules rule matched, rules_by_program p !! program = Some rules ∧ rule ∈ rules ∧
    accepts (pattern rule) cmd matched ∧
    r = PrefixRuleMatch matched (rule_decision rule) resolved (rule_justification rule).

Definition exact_match (p : Policy) (cmd : list str) (r : RuleMatch) : Prop :=
  ∃ program, head cmd = Some program ∧ rule_match p program cmd None r.

Lemma elem_of_omap_rules (rules : list PrefixRule) cmd r :
  r ∈ omap (λ rule, rule_matches rule cmd) rules ↔
  ∃ rule matched, rule ∈ rules ∧ accepts (pattern rule) cmd matched ∧
    r = PrefixRuleMatch matched (rule_decision rule) None (rule_justification rule).
Proof.
  rewrite list_elem_of_omap. unfold rule_matches. setoid_rewrite fmap_Some.
  setoid_rewrite matches_prefix_iff. naive_solver.
Qed.

Lemma match_exact_rules_iff p cmd r :
  (∃ ms, match_exact_rules p cmd = Some ms ∧ r ∈ ms) ↔ exact_match p cmd r.
Proof.
  unfold exact_match, rule_match. destruct cmd as [|c cmd]; cbn [match_exact_rules head].
  { split; [intros (? & ? & ?)|intros (? & ? & ?)]; done. }
  destruct (rules_by_program p !! c) as [rules|] eqn:E; split.
  - intros (ms & [= <-] & (rule & m & ? & ? & ->)%elem_of_omap_rules).
    exists c. split; [done|]. by exists rules, rule, m.
  - intros (program & [= <-] & rules' & rule & m & Hr & ? & ? & ->). eexists; split; [done|].
    apply elem_of_omap_rules. rewrite E in Hr. injection Hr as <-. by exists rule, m.
  - by intros (ms & [= <-] & ?%not_elem_of_nil).
  - intros (program & [= <-] & rules' & rule & m & Hr & _). congruence.
Qed.

Lemma match_exact_merge p overlay cmd :
  match_exact_rules (merge_overlay p overlay) cmd =
  (ms ← match_exact_rules p cmd; ms' ← match_exact_rules overlay cmd; Some (ms ++ ms')).
Proof.
  destruct cmd as [|c cmd]; [done|]. cbn [match_exact_rules merge_overlay rules_by_program].
  rewrite lookup_union_with.
  destruct (rules_by_program p !! c) as [rs|], (rules_by_program overlay !! c) as [rs'|]; cbn;
    rewrite ?app_nil_r; try done. by rewrite omap_app.
Qed.

(** ** Network domains *)
Definition last_decision (h : str) (rules : list NetworkRule) : option Decision :=
  foldl (λ acc r, if bool_decide (host r = h)
                  then match net_decision r with Prompt => acc | d => Some d end else acc)
    None rules.

Lemma last_decision_snoc h rules r :
  last_decision h (rules ++ [r]) =
  if bool_decide (host r = h)
  then match net_decision r with Prompt => last_decision h rules | d => Some d end
  else last_decision h rules.
Proof. unfold last_decision. by rewrite foldl_app. Qed.

Lemma elem_of_upsert entries h x : x ∈ upsert_domain entries h ↔ x ∈ entries ∨ x = h.
Proof.
  unfold upsert_domain. rewrite elem_of_app, list_elem_of_filter, list_elem_of_singleton.
  destruct (decide (x = h)); naive_solver.
Qed.

Lemma NoDup_upsert entries h : NoDup entries → NoDup (upsert_domain entries h).
Proof.
  intros Hnd. unfold upsert_domain. apply NoDup_app. split_and!.
  - by apply NoDup_filter.
  - intros x [Hx _]%list_elem_of_filter ->%list_elem_of_singleton. done.
  - apply NoDup_singleton.
Qed.

(** ** Lines of a policy file *)
Lemma split_app c a x : split c (a ++ c :: x) = split c a ++ split c x.
Proof.
  induction a as [|d a IH]; cbn [app split]; [by rewrite N.eqb_refl|].
  destruct (N.eqb_spec d c); [by rewrite IH|]. rewrite IH.
  pose proof (split_ne_nil c a). by destruct (split c a).
Qed.

Lemma lines_of_app ls ls' : ls' ≠ [] → lines_of (ls ++ ls') = (chop_cr <$> ls) ++ lines_of ls'.
Proof.
  intros Hne. induction ls as [|l ls IH]; [done|]. cbn [app fmap list_fmap].
  rewrite <-IH. destruct (ls ++ ls') eqn:E; [|done].
  by apply app_nil in E as [_ ?].
Qed.

Lemma lines_app_nl a x : lines (a ++ NL :: x) = lines (a ++ [NL]) ++ lines x.
Proof.
  unfold lines. rewrite !split_app, !lines_of_app by apply split_ne_nil.
  cbn [split lines_of]. by rewrite app_nil_r.
Qed.

Lemma lines_plain l : plain_line l = true → lines (l ++ [NL]) = [l].
Proof.
  intros [Hnl%bool_decide_eq_true Hcr%negb_true_iff]%andb_true_iff.
  unfold lines. rewrite split_app_sep by done. cbn [split lines_of]. f_equal.
  unfold chop_cr. destruct (strip_suffix [CR] l) as [l'|] eqn:E; [|done].
  apply strip_suffix_Some in E. apply ends_with_false in Hcr. destruct Hcr. by exists l'.
Qed.

(** The contents as [append_line] completes them before it appends. *)
Definition terminate (contents : str) : str :=
  if negb (bool_decide (contents = [])) && negb (ends_with [NL] contents)
  then contents ++ [NL] else contents.

Lemma lines_append_line contents line :
  plain_line line = true → line ∉ lines contents →
  lines (append_line contents line) = lines (terminate contents) ++ [line].
Proof.
  intros Hp Hin. unfold append_line.
  replace (existsb (λ existing, bool_decide (existing = line)) (lines contents)) with false.
  2: { symmetry. apply not_true_iff_false. rewrite existsb_exists.
       intros (x & Hx%list_elem_of_In & ->%bool_decide_eq_true). done. }
  cbv zeta. fold (terminate contents).
  assert (Hterm : terminate contents = [] ∨ ∃ a, terminate contents = a ++ [NL]).
  { unfold terminate. destruct (decide (contents = [])) as [->|Hne]; [by left|right].
    rewrite (bool_decide_false (contents = [])) by done. cbn [negb andb].
    destruct (ends_with [NL] contents) eqn:E; cbn [negb]; [|by eexists].
    apply ends_with_suffix in E as [k ->]. by eexists. }
  destruct Hterm as [->|[a ->]]; [by apply lines_plain|].
  rewrite <-app_assoc. cbn [app].
  rewrite (lines_app_nl a (line ++ [NL])). by rewrite (lines_plain line).
Qed.

Lemma append_line_present contents line : line ∈ lines contents → append_line contents line = contents.
Proof.
  intros Hin. unfold append_line. rewrite (proj2 (existsb_exists _ _)); [done|].
  exists line. split; [by apply list_elem_of_In|]. by apply bool_decide_eq_true.
Qed.

(** ** Host names *)
Ltac in_lit := apply (bool_decide_unpack _); by vm_compute.

Definition DOT : char := 46%N.
Definition COLON : char := 58%N.

(** The characters of host names, IP literals and ports. *)
Definition host_char (c : char) : bool :=
  negb (is_whitespace c) && negb (bool_decide (c ∈ lit "*/?#[]")).

(** A host name or IP literal: not empty, no trailing dot. *)
Definition host_literal (h : str) : bool :=
  match last h with Some c => negb (c =? DOT)%N | None => false end && forallb host_char h.

Lemma ascii_lower_whitespace c : is_whitespace (ascii_lower c) = is_whitespace c.
Proof.
  unfold ascii_lower. destruct ((65 <=? c)%N && (c <=? 90)%N) eqn:E; [|done].
  apply andb_true_iff in E as [E1%N.leb_le E2%N.leb_le].
  assert (∀ d, (65 ≤ d ≤ 122)%N → is_whitespace d = false) as Hp; [|by rewrite !Hp by lia].
  intros d Hd. unfold is_whitespace.
  rewrite !orb_false_iff, !andb_false_iff, !N.leb_gt, !N.eqb_neq. lia.
Qed.

Lemma ascii_lower_lower c : ascii_lower (ascii_lower c) = ascii_lower c.
Proof.
  unfold ascii_lower. destruct ((65 <=? c)%N && (c <=? 90)%N) eqn:E; [|by rewrite E].
  apply andb_true_iff in E as [E1%N.leb_le E2%N.leb_le].
  rewrite (proj2 (N.leb_gt (c + 32) 90)) by lia. by rewrite andb_false_r.
Qed.

Lemma contains_absent c p s : c ∉ s → contains (c :: p) s = false.
Proof.
  intros Hc. unfold contains. destruct (find (c :: p) s) as [i|] eqn:E; [|done].
  apply find_Some in E as ([t Ht] & _ & _). destruct Hc.
  apply (list_elem_of_lookup_2 _ i). rewrite <-(Nat.add_0_r i), <-lookup_drop, Ht. done.
Qed.

Lemma trim_no_whitespace s : forallb (λ c, negb (is_whitespace c)) s = true → trim s = s.
Proof.
  intros Hs. rewrite forallb_forall in Hs. apply trim_id.
  - destruct s as [|c s]; [done|]. apply Hs. by left.
  - unfold ends_plain. destruct (last s) as [c|] eqn:E; [|done].
    apply last_Some in E as [t ->]. apply Hs, in_or_app. right. by left.
Qed.

Lemma host_chars_plain s :
  forallb host_char s = true →
  forallb (λ c, negb (is_whitespace c)) s = true ∧ ∀ c, c ∈ lit "*/?#[]" → c ∉ s.
Proof.
  rewrite forallb_forall. intros Hs. split.
  - apply forallb_forall. intros c Hc. by apply Hs, andb_true_iff in Hc as [? _].
  - intros c Hc Hin%list_elem_of_In. apply Hs, andb_true_iff in Hin as [_ Hn].
    by rewrite bool_decide_true in Hn.
Qed.

Lemma check_host_clean s h :
  check_host s = Ok h →
  h ≠ [] ∧ forallb (λ c, negb (is_whitespace c)) h = true ∧ contains (lit "*") h = false ∧
  to_ascii_lowercase h = h.
Proof.
  unfold check_host. cbv zeta. case_bool_decide; [done|].
  destruct (contains _ _) eqn:Ec; [done|]. destruct (existsb _ _) eqn:Ew; [done|].
  intros [= <-]. split_and!; [done| |done|].
  - apply forallb_forall. intros c Hc. apply negb_true_iff, not_true_iff_false. intros Hw.
    rewrite <-not_true_iff_false, existsb_exists in Ew. eauto.
  - unfold to_ascii_lowercase. rewrite <-list_fmap_compose. apply list_fmap_ext.
    intros _ c _. apply ascii_lower_lower.
Qed.

Lemma trim_end_dots_app h n :
  (∀ c, last h = Some c → c ≠ DOT) → trim_end_dots (h ++ replicate n DOT) = h.
Proof.
  assert (Hd : trim_end_dots (replicate n DOT) = []).
  { induction n as [|n IH]; [done|]. cbn. by rewrite IH. }
  induction h as [|c h IH]; intros Hl; [done|]. cbn [app trim_end_dots].
  destruct h as [|c' h].
  - cbn [app]. rewrite Hd. destruct (N.eqb_spec c 46); [|done]. by destruct (Hl c).
  - rewrite IH; [done|]. intros d Hdl. by apply Hl.
Qed.

Lemma check_host_dots h n :
  host_literal h = true → check_host (h ++ replicate n DOT) = Ok (to_ascii_lowercase h).
Proof.
  intros [Hl Hc]%andb_true_iff. apply host_chars_plain in Hc as [Hw Hb].
  destruct (last h) as [cl|] eqn:El; [|done]. unfold check_host. cbv zeta.
  rewrite trim_end_dots_app, trim_no_whitespace.
  2: done.
  2: { intros c [= <-]%(eq_trans (eq_sym El)). by apply negb_true_iff, N.eqb_neq in Hl. }
  rewrite bool_decide_false; [|by destruct h]. change (lit "*") with [42%N].
  rewrite contains_absent.
  2: { intros (c & Heq & Hc)%list_elem_of_fmap. apply (Hb 42%N); [in_lit|].
       unfold ascii_lower in Heq. destruct ((65 <=? c)%N && (c <=? 90)%N) eqn:E; [|by subst].
       apply andb_true_iff in E as [E1%N.leb_le _]. lia. }
  destruct (existsb is_whitespace _) eqn:Ew; [|done]. exfalso.
  apply existsb_exists in Ew as (d & (c & -> & Hc)%list_elem_of_In%list_elem_of_fmap & Hd).
  rewrite ascii_lower_whitespace in Hd. rewrite forallb_forall in Hw.
  apply list_elem_of_In, Hw in Hc. by rewrite Hd in Hc.
Qed.

Lemma host_literal_chars h n :
  host_literal h = true →
  forallb host_char (h ++ replicate n DOT) = true ∧ h ++ replicate n DOT ≠ [].
Proof.
  intros [Hl Hc]%andb_true_iff. rewrite forallb_app, Hc. split; [|by destruct h].
  cbn [andb]. induction n as [|n IH]; [done|]. cbn [replicate forallb]. by rewrite IH.
Qed.

Lemma host_no_colon h n : COLON ∉ h → COLON ∉ h ++ replicate n DOT.
Proof.
  by intros Hh [?|?%elem_of_replicate_inv]%elem_of_app.
Qed.

Lemma port_chars port : is_port port = true → forallb host_char port = true ∧ COLON ∉ port.
Proof.
  intros [_ Hp]%andb_true_iff. rewrite forallb_forall in Hp. split.
  - apply forallb_forall. intros c Hc%Hp. unfold is_ascii_digit in Hc.
    apply andb_true_iff in Hc as [H1%N.leb_le H2%N.leb_le].
    assert (c ∈ lit "0123456789") as Hin.
    { change (lit "0123456789") with [48;49;50;51;52;53;54;55;56;57]%N. rewrite !elem_of_cons. lia. }
    clear H1 H2. revert c Hin. by apply Forall_forall; repeat constructor.
  - intros Hc%list_elem_of_In%Hp. done.
Qed.

Lemma host_text_passes s :
  (∀ c, c ∈ lit "/?#" → c ∉ s) → forallb (λ c, negb (is_whitespace c)) s = true → s ≠ [] →
  trim s = s ∧ contains (lit "://") s || contains (lit "/") s || contains (lit "?") s
    || contains (lit "#") s = false.
Proof.
  intros Hb Hw Hne. split; [by apply trim_no_whitespace|].
  assert (contains (lit "://") s = false) as ->.
  { unfold contains. destruct (find (lit "://") s) as [i|] eqn:E; [|done].
    apply find_Some in E as ([t Ht] & _ & _). destruct (Hb 47%N); [in_lit|].
    apply (list_elem_of_lookup_2 _ (i + 1)). rewrite <-lookup_drop, Ht. done. }
  change (lit "/") with [47%N]. change (lit "?") with [63%N]. change (lit "#") with [35%N].
  rewrite !contains_absent; [done|apply Hb; in_lit..].
Qed.

Lemma normalize_unbracketed s :
  forallb host_char s = true → s ≠ [] →
  normalize_network_rule_host s =
  match split COLON s with
  | [candidate; port] =>
      if negb (bool_decide (candidate = [])) && is_port port
      then check_host candidate else check_host s
  | _ => check_host s
  end.
Proof.
  intros [Hw Hb]%host_chars_plain Hne.
  destruct (host_text_passes s) as [Ht Hc]; [|done..|].
  { intros c Hc. apply Hb. revert c Hc. apply Forall_forall. in_lit. }
  unfold normalize_network_rule_host. rewrite Ht. cbv zeta. rewrite bool_decide_false, Hc by done.
  destruct (strip_prefix (lit "[") s) as [t|] eqn:E; [|done].
  apply strip_prefix_Some in E as ->. exfalso. apply (Hb 91%N); [in_lit|left].
Qed.

Lemma normalize_bracketed s rest :
  forallb host_char s = true → s ≠ [] → forallb host_char rest = true →
  (rest = [] ∨ ∃ port, rest = lit ":" ++ port ∧ is_port port = true) →
  normalize_network_rule_host (lit "[" ++ s ++ lit "]" ++ rest) = check_host s.
Proof.
  intros Hs Hne Hr Hrest. apply host_chars_plain in Hs as [Hsw Hsb], Hr as [Hrw Hrb].
  destruct (host_text_passes (lit "[" ++ s ++ lit "]" ++ rest)) as [Ht Hc]; [|by rewrite !forallb_app, Hsw, Hrw|done|].
  { intros c Hc. assert ((c ∈ lit "*/?#[]") ∧ (c ∉ lit "[") ∧ (c ∉ lit "]")) as (Hin & H1 & H2).
    { revert c Hc. apply Forall_forall. in_lit. }
    rewrite !not_elem_of_app. auto. }
  unfold normalize_network_rule_host. rewrite Ht. cbv zeta. rewrite bool_decide_false, Hc by done.
  rewrite strip_prefix_app.
  assert (find (lit "]") (s ++ lit "]" ++ rest) = Some (length s)) as ->.
  { rewrite find_skip.
    { change (find (lit "]") (lit "]" ++ rest)) with (Some 0).
      cbn [fmap option_fmap option_map]. by rewrite Nat.add_0_r. } intros j Hj [t Ht'].
    apply (Hsb 93%N); [in_lit|]. apply (list_elem_of_lookup_2 _ j).
    rewrite <-(lookup_app_l _ (lit "]" ++ rest)) by done.
    rewrite <-(Nat.add_0_r j), <-lookup_drop, Ht'. done. }
  rewrite take_app_length, app_assoc. replace (length s + 1) with (length (s ++ lit "]"))
    by (by rewrite length_app). rewrite drop_app_length.
  destruct Hrest as [->|(port & -> & Hp)]; [done|]. rewrite strip_prefix_app, Hp. by rewrite andb_false_r.
Qed.

(** ** Theorems *)
Section theorems.
Context (home_dir : option str) (absolutize : str → option str) (windows : bool).
Abbreviation matches_of := (matches_for_command_with_options home_dir absolutize windows).
Abbreviation check_one := (check_with_options home_dir absolutize windows).

Lemma matches_nonempty p cmd fallback resolve :
  matches_of p cmd (Some fallback) resolve ≠ [].
Proof. unfold matches_for_command_with_options. cbv zeta. by case_match. Qed.

(** A rule of the program's base name accepts the command, and the host
    executables of that name, where they are listed, have the program. *)
Definition host_match (p : Policy) (cmd : list str) (r : RuleMatch) : Prop :=
  ∃ c args program basename, cmd = c :: args ∧
    from_absolute_path home_dir absolutize windows c = Some program ∧
    executable_path_lookup_key windows program = Some basename ∧
    (∀ paths, host_executables_by_name p !! basename = Some paths → program ∈ paths) ∧
    rule_match p basename (basename :: args) (Some program) r.

Lemma elem_of_host_matches p cmd r :
  r ∈ match_host_executable_rules home_dir absolutize windows p cmd ↔ host_match p cmd r.
Proof.
  unfold host_match, rule_match, match_host_executable_rules.
  destruct cmd as [|c args]; [split; [by intros ?%not_elem_of_nil|by intros (? & ? & ? & ? & ? & _)]|].
  destruct (from_absolute_path _ _ _ c) as [program|] eqn:Ep;
    [|split; [by intros ?%not_elem_of_nil|naive_solver]].
  destruct (executable_path_lookup_key windows program) as [base|] eqn:Eb;
    [|split; [by intros ?%not_elem_of_nil|naive_solver]].
  destruct (rules_by_program p !! base) as [rules|] eqn:Er;
    [|split; [by intros ?%not_elem_of_nil|naive_solver]].
  assert (Hlisted : match host_executables_by_name p !! base with
      | Some paths => negb (existsb (λ path, bool_decide (path = program)) paths)
      | None => false end = false ↔
      ∀ paths, host_executables_by_name p !! base = Some paths → program ∈ paths).
  { destruct (host_executables_by_name p !! base) as [paths|]; [|naive_solver].
    rewrite negb_false_iff, existsb_exists. setoid_rewrite <-list_elem_of_In.
    setoid_rewrite bool_decide_eq_true. naive_solver. }
  destruct (match host_executables_by_name p !! base with Some _ => _ | None => _ end) eqn:El.
  - split; [by intros ?%not_elem_of_nil|].
    intros (? & ? & ? & ? & [= <- <-] & Hp & Hb & Hall & _). simplify_eq.
    by apply Hlisted in Hall.
  - rewrite list_elem_of_fmap. setoid_rewrite elem_of_omap_rules. split.
    + intros (r' & -> & rule & m & ? & ? & ->). exists c, args, program, base.
      split_and!; [done..|by apply Hlisted|]. by exists rules, rule, m.
    + intros (? & ? & ? & ? & [= <- <-] & Hp & Hb & _ & rules' & rule & m & Hr & ? & ? & ->).
      simplify_eq. eexists; split; [|by exists rule, m]. done.
Qed.

Lemma exact_or_none p cmd : (∃ r, exact_match p cmd r) ∨ ∀ r, ¬ exact_match p cmd r.
Proof.
  setoid_rewrite <-match_exact_rules_iff.
  destruct (match_exact_rules p cmd) as [[|m ms]|]; [right|left|right].
  - by intros r (ms & [= <-] & ?%not_elem_of_nil).
  - exists m, (m :: ms). split; [done|left].
  - by intros r (ms & ? & _).
Qed.

Lemma elem_of_matches p cmd fallback resolve r :
  r ∈ matches_of p cmd (Some fallback) resolve ↔
    exact_match p cmd r ∨ (∀ r', ¬ exact_match p cmd r') ∧
      (resolve = true ∧ host_match p cmd r ∨
       (resolve = true → ∀ r', ¬ host_match p cmd r') ∧
         r = HeuristicsRuleMatch cmd (fallback cmd)).
Proof.
  setoid_rewrite <-elem_of_host_matches. setoid_rewrite <-match_exact_rules_iff.
  unfold matches_for_command_with_options. cbv zeta.
  assert (Hnone : match_exact_rules p cmd = Some [] ∨ match_exact_rules p cmd = None →
    ∀ r', ¬ ∃ ms, match_exact_rules p cmd = Some ms ∧ r' ∈ ms).
  { intros [->| ->] r' (ms & Hms & Hr); simplify_eq. by apply not_elem_of_nil in Hr. }
  assert (Hrest : (∀ r', ¬ ∃ ms, match_exact_rules p cmd = Some ms ∧ r' ∈ ms) →
    r ∈ (match (if resolve then match_host_executable_rules home_dir absolutize windows p cmd else [])
         with [] => [HeuristicsRuleMatch cmd (fallback cmd)] | l => l end) ↔
    (∃ ms, match_exact_rules p cmd = Some ms ∧ r ∈ ms) ∨
    (∀ r', ¬ ∃ ms, match_exact_rules p cmd = Some ms ∧ r' ∈ ms) ∧
      (resolve = true ∧ r ∈ match_host_executable_rules home_dir absolutize windows p cmd ∨
       (resolve = true → ∀ r', r' ∉ match_host_executable_rules home_dir absolutize windows p cmd) ∧
         r = HeuristicsRuleMatch cmd (fallback cmd))).
  { intros Hn. destruct resolve; [|rewrite list_elem_of_singleton; naive_solver].
    destruct (match_host_executable_rules _ _ _ p cmd) as [|m ms].
    - rewrite list_elem_of_singleton. setoid_rewrite elem_of_nil. naive_solver.
    - split; [naive_solver|]. intros [H|[_ [[_ H]|[H _]]]]; [by destruct (Hn r)|done|].
      destruct (H eq_refl m). left. }
  destruct (match_exact_rules p cmd) as [[|m ms]|] eqn:E;
    [rewrite <-Hrest by auto; by repeat case_match| |rewrite <-Hrest by auto; by repeat case_match].
  split; [intros Hr; left; eauto|]. intros [(? & [= <-] & Hr)|[Hn _]]; [done|].
  destruct (Hn m). exists (m :: ms). split; [done|left].
Qed.

(** A check of one command always returns, and its matches are exactly the
    rules of the program the command names that accept it; without any, and
    when host executables are resolved, the rules of the program's base name
    that accept it; without any of those, the fallback's decision.  It counts
    as a match exactly in the first two cases. *)
Theorem check_with_options_matches p cmd fallback resolve :
  ∃ ev, check_one p cmd fallback resolve = Ok ev ∧
    (∀ r, r ∈ matched_rules ev ↔
      exact_match p cmd r ∨
      (∀ r', ¬ exact_match p cmd r') ∧
        (resolve = true ∧ host_match p cmd r ∨
         (resolve = true → ∀ r', ¬ host_match p cmd r') ∧
           r = HeuristicsRuleMatch cmd (fallback cmd))) ∧
    (is_match ev = true ↔ ∃ r, exact_match p cmd r ∨ resolve = true ∧ host_match p cmd r).
Proof.
  destruct (from_matches_spec _ (matches_nonempty p cmd fallback resolve)) as (ev & He & Hms & _).
  exists ev. split; [exact He|]. rewrite (is_match_iff ev), Hms. clear He Hms.
  assert (Hall : ∀ r, r ∈ matches_of p cmd (Some fallback) resolve ↔
    exact_match p cmd r ∨ (∀ r', ¬ exact_match p cmd r') ∧
      (resolve = true ∧ host_match p cmd r ∨
       (resolve = true → ∀ r', ¬ host_match p cmd r') ∧
         r = HeuristicsRuleMatch cmd (fallback cmd))); [|split; [done|]].
  { apply elem_of_matches. }
  setoid_rewrite Hall. split.
  - intros (r & [H|[_ [H|[_ ->]]]] & Hr); [eauto..|done].
  - intros (r & [H|[-> H]]).
    + exists r. split; [by left|]. by destruct H as (? & _ & ? & ? & ? & _ & _ & _ & ->).
    + destruct (exact_or_none p cmd) as [[r' H']|Hn].
      * exists r'. split; [by left|]. by destruct H' as (? & _ & ? & ? & ? & _ & _ & _ & ->).
      * exists r. split; [right; split; [done|by left]|].
        by destruct H as (? & ? & ? & ? & _ & _ & _ & _ & ? & ? & ? & _ & _ & _ & ->).
Qed.

(** C6: a check of one or more commands always returns, and its decision is
    the most restrictive one among the commands: no command's own decision is
    above it, and it is the decision of one of them. *)
Theorem check_multiple_most_restrictive p cmds fallback resolve :
  cmds ≠ [] →
  ∃ ev, check_multiple_with_options home_dir absolutize windows p cmds fallback resolve = Ok ev ∧
    (∀ cmd, cmd ∈ cmds → ∃ e, check_one p cmd fallback resolve = Ok e ∧
      decision_rank (decision e) ≤ decision_rank (decision ev)) ∧
    (∃ cmd e, cmd ∈ cmds ∧ check_one p cmd fallback resolve = Ok e ∧ decision e = decision ev).
Proof.
  intros Hne. unfold check_multiple_with_options, check_with_options.
  set (f := λ command, matches_of p command (Some fallback) resolve).
  assert (Hms : cmds ≫= f ≠ []).
  { destruct cmds as [|c cmds]; [done|]. cbn. intros [Hc _]%app_nil.
    by apply matches_nonempty in Hc. }
  destruct (from_matches_spec _ Hms) as (ev & -> & _ & Hub & (r & Hr & Hd)).
  exists ev. split_and!; [done| |].
  - intros cmd Hcmd. destruct (from_matches_spec (f cmd) (matches_nonempty _ _ _ _))
      as (e & He & _ & _ & (r' & Hr' & Hd')). exists e. split; [done|]. rewrite <-Hd'.
    apply Hub. apply list_elem_of_bind. eauto.
  - apply list_elem_of_bind in Hr as (cmd & Hr & Hcmd).
    destruct (from_matches_spec (f cmd) (matches_nonempty _ _ _ _))
      as (e & He & _ & Hub' & (r' & Hr' & Hd')). exists cmd, e. split_and!; [done|done|].
    apply decision_rank_inj, Nat.le_antisymm.
    + rewrite <-Hd'. apply Hub. apply list_elem_of_bind. eauto.
    + rewrite <-Hd. by apply Hub'.
Qed.

(** Overlaying a policy never loosens a decision an exact rule of the base
    policy takes: on such a command the merged policy is at least as
    restrictive. *)
Theorem merge_overlay_restricts p overlay cmd ms fallback resolve :
  match_exact_rules p cmd = Some ms → ms ≠ [] →
  ∃ e e', check_one p cmd fallback resolve = Ok e ∧
    check_one (merge_overlay p overlay) cmd fallback resolve = Ok e' ∧
    decision_rank (decision e) ≤ decision_rank (decision e') ∧
    (∀ r, r ∈ ms → r ∈ matched_rules e').
Proof.
  intros Hm Hne. unfold check_with_options, matches_for_command_with_options.
  rewrite match_exact_merge, Hm. cbn [mbind option_bind].
  assert (∃ ms', match_exact_rules overlay cmd = Some ms') as [ms' ->].
  { destruct cmd; [done|]. cbn. eauto. }
  cbn [mbind option_bind]. destruct ms as [|m ms]; [done|]. cbn [app].
  destruct (from_matches_spec (m :: ms)) as (e & -> & _ & _ & (r & Hr & Hd)); [done|].
  destruct (from_matches_spec (m :: ms ++ ms')) as (e' & -> & Hms & Hub & _); [done|].
  exists e, e'. split_and!; [done|done| |].
  - rewrite <-Hd. apply Hub. change (m :: ms ++ ms') with ((m :: ms) ++ ms').
    apply elem_of_app. by left.
  - intros r' Hr'. rewrite Hms. change (m :: ms ++ ms') with ((m :: ms) ++ ms').
    apply elem_of_app. by left.
Qed.

(** [add_prefix_rule] rejects only the empty prefix, and the policy it
    returns matches a command with the added rule exactly when the tokens of
    the prefix start the command, in addition to what matched before. *)
Theorem add_prefix_rule_spec p prefix d :
  match add_prefix_rule p prefix d with
  | Ok p' =>
      prefix ≠ [] ∧ network_rules p' = network_rules p ∧
      ∀ cmd, match_exact_rules p' cmd =
        (λ ms, ms ++ if bool_decide (prefix `prefix_of` cmd)
                     then [PrefixRuleMatch prefix d None None] else []) <$> match_exact_rules p cmd
  | _ => prefix = []
  end.
Proof.
  destruct prefix as [|p0 rest]; [done|]. cbn [add_prefix_rule]. split_and!; [done..|].
  intros [|c cmd]; [done|]. cbn [match_exact_rules set_rules rules_by_program fmap option_fmap option_map].
  unfold insert_rule. f_equal. destruct (decide (c = p0)) as [->|Hc].
  - rewrite lookup_insert, decide_True by done. rewrite omap_app. cbn [omap list_omap].
    unfold rule_matches at 2. cbn [pattern rule_decision rule_justification].
    rewrite matches_prefix_single. destruct (rules_by_program p !! p0); cbn [default from_option id];
      case_bool_decide; done.
  - rewrite lookup_insert_ne by done. rewrite bool_decide_false; [by rewrite app_nil_r|].
    intros [k [= -> _]]. done.
Qed.
End theorems.

(** The last rule for a host that allows or forbids it decides. *)
Definition domains_agree (p : Policy) : Prop :=
  NoDup (compiled_network_domains p).1 ∧ NoDup (compiled_network_domains p).2 ∧
  ∀ h, (h ∈ (compiled_network_domains p).1 ↔ last_decision h (network_rules p) = Some Allow) ∧
       (h ∈ (compiled_network_domains p).2 ↔ last_decision h (network_rules p) = Some Forbidden).

Lemma compiled_domains_agree p : domains_agree p.
Proof.
  unfold domains_agree, compiled_network_domains. induction (network_rules p) as [|r rs IH] using rev_ind.
  { cbn. split_and!; [constructor..|]. intros h. split; (split; [by intros ?%not_elem_of_nil|done]). }
  rewrite foldl_app. cbn [foldl]. destruct (foldl compile_rule ([], []) rs) as [allowed denied].
  destruct IH as (Hna & Hnd & IH). unfold compile_rule.
  destruct (net_decision r) eqn:Er; cbn [fst snd] in *;
    split_and!; auto using NoDup_upsert, NoDup_filter; intros h;
    destruct (IH h) as [IHa IHd]; rewrite last_decision_snoc, Er, ?elem_of_upsert, ?list_elem_of_filter;
    case_bool_decide; subst; naive_solver.
Qed.

(** In the domains compiled from the network rules the last rule for a
    host that allows or forbids it decides, no host is in both lists and none
    is listed twice.  So a rule just added decides for its normalised host
    unless it only prompts, and changes nothing for the other hosts. *)
Theorem compiled_domains_last_wins p :
  domains_agree p ∧
  ∀ raw protocol d justification p',
    add_network_rule p raw protocol d justification = Ok p' →
    ∃ h, normalize_network_rule_host raw = Ok h ∧
      (d = Allow → h ∈ (compiled_network_domains p').1 ∧ (h ∉ (compiled_network_domains p').2)) ∧
      (d = Forbidden → (h ∉ (compiled_network_domains p').1) ∧ h ∈ (compiled_network_domains p').2) ∧
      ∀ h', h' ≠ h ∨ d = Prompt →
        (h' ∈ (compiled_network_domains p').1 ↔ h' ∈ (compiled_network_domains p).1) ∧
        (h' ∈ (compiled_network_domains p').2 ↔ h' ∈ (compiled_network_domains p).2).
Proof.
  split; [apply compiled_domains_agree|]. intros raw protocol d justification p' Hadd.
  apply bind_Ok_inv in Hadd as (h & Hh & Hadd). exists h. split; [done|].
  match type of Hadd with (if ?b then _ else _) = _ => destruct b; [done|] end.
  injection Hadd as <-. destruct (compiled_domains_agree p) as (_ & _ & Hp).
  match goal with |- context [compiled_network_domains ?q] =>
    destruct (compiled_domains_agree q) as (_ & _ & Hq) end.
  cbn [network_rules] in Hq. setoid_rewrite last_decision_snoc in Hq.
  cbn [host net_decision] in Hq. split_and!.
  - intros ->. destruct (Hq h) as [-> ->]. by rewrite bool_decide_true.
  - intros ->. destruct (Hq h) as [-> ->]. by rewrite bool_decide_true.
  - intros h' Hne. destruct (Hq h') as [-> ->], (Hp h') as [-> ->]. case_bool_decide; [|done].
    by destruct Hne as [?| ->].
Qed.

(** Appending a rule line to a policy file is idempotent and keeps the
    other lines: a line that is there already changes nothing, otherwise it is
    added after the lines of the file. *)
Theorem append_line_spec contents line :
  plain_line line = true →
  (line ∈ lines contents → append_line contents line = contents) ∧
  (line ∉ lines contents →
    lines (append_line contents line) = lines (terminate contents) ++ [line]) ∧
  append_line (append_line contents line) line = append_line contents line.
Proof.
  intros Hp. split_and!; [apply append_line_present|by apply lines_append_line|].
  destruct (decide (line ∈ lines contents)) as [Hin|Hin].
  - by rewrite !(append_line_present contents).
  - apply append_line_present. rewrite lines_append_line by done. apply elem_of_app. right. left.
Qed.

(** A host that passes normalisation is not empty and has no whitespace,
    no wildcard and no uppercase ASCII letter; and a host name with a port and
    trailing dots, or an IP literal in brackets with a port, is normalised to
    the name or literal itself, in lower case. *)
Theorem normalize_host_spec :
  (∀ raw h, normalize_network_rule_host raw = Ok h →
    h ≠ [] ∧ forallb (λ c, negb (is_whitespace c)) h = true ∧ contains (lit "*") h = false ∧
    to_ascii_lowercase h = h) ∧
  (∀ h n port, host_literal h = true → is_port port = true →
    let host := h ++ replicate n DOT in
    normalize_network_rule_host (lit "[" ++ host ++ lit "]") = Ok (to_ascii_lowercase h) ∧
    normalize_network_rule_host (lit "[" ++ host ++ lit "]:" ++ port) = Ok (to_ascii_lowercase h) ∧
    (COLON ∉ h →
      normalize_network_rule_host host = Ok (to_ascii_lowercase h) ∧
      normalize_network_rule_host (host ++ lit ":" ++ port) = Ok (to_ascii_lowercase h))).
Proof.
  split.
  - intros raw h. unfold normalize_network_rule_host. cbv zeta.
    repeat (case_match; try done); apply check_host_clean.
  - intros h n port Hh Hport host.
    assert (Hc : check_host host = Ok (to_ascii_lowercase h)) by (by apply check_host_dots).
    destruct (port_chars port Hport) as [Hpp Hpc]. destruct (host_literal_chars h n Hh) as (Hhc & Hne).
    fold host in Hhc, Hne. rewrite <-Hc. split_and!; [| |intros Hcol; split].
    + rewrite <-(app_nil_r (lit "]")). by apply normalize_bracketed; [..|left].
    + change (lit "]:") with (lit "]" ++ lit ":"). rewrite <-app_assoc.
      apply normalize_bracketed; [done..| |right; eauto].
      rewrite forallb_app. by rewrite Hpp.
    + rewrite normalize_unbracketed by done. by rewrite split_none by (by apply host_no_colon).
    + rewrite normalize_unbracketed.
      2: { rewrite !forallb_app, Hhc, Hpp. done. }
      2: { by destruct host. }
      change (lit ":" ++ port) with (COLON :: port).
      rewrite split_app_sep by (by apply host_no_colon). rewrite split_none by done.
      by rewrite bool_decide_false, Hport.
Qed.

(** The port is removed before trailing dots, so normalising twice can differ
    from normalising once. *)
Lemma normalize_host_twice :
  normalize_network_rule_host (lit "a:80.") = Ok (lit "a:80") ∧
  normalize_network_rule_host (lit "a:80") = Ok (lit "a").
Proof. by vm_compute. Qed.

(** ** Instances of the theorems *)
Definition sample_policy : Policy :=
  {| rules_by_program := {[ lit "git" := [ {| pattern := {| first := lit "git"; rest := [Single (lit "push")] |};
       rule_decision := Prompt; rule_justification := None |} ] ]};
     network_rules := []; host_executables_by_name := ∅ |}.

Definition sample_overlay : Policy :=
  {| rules_by_program := {[ lit "git" := [ {| pattern := {| first := lit "git"; rest := [] |};
       rule_decision := Forbidden; rule_justification := None |} ] ]};
     network_rules := []; host_executables_by_name := ∅ |}.

Lemma check_multiple_most_restrictive_witness :
  ∃ ev, check_multiple_with_options None Some false sample_policy
          [[lit "git"; lit "push"]; [lit "ls"]] (λ _, Allow) false = Ok ev ∧
    (∀ cmd, cmd ∈ [[lit "git"; lit "push"]; [lit "ls"]] →
      ∃ e, check_with_options None Some false sample_policy cmd (λ _, Allow) false = Ok e ∧
        decision_rank (decision e) ≤ decision_rank (decision ev)) ∧
    (∃ cmd e, cmd ∈ [[lit "git"; lit "push"]; [lit "ls"]] ∧
      check_with_options None Some false sample_policy cmd (λ _, Allow) false = Ok e ∧
      decision e = decision ev).
Proof.
  apply (check_multiple_most_restrictive None Some false sample_policy
    [[lit "git"; lit "push"]; [lit "ls"]] (λ _, Allow) false). discriminate.
Defined.

Lemma merge_overlay_restricts_witness :
  ∃ e e', check_with_options None Some false sample_policy [lit "git"; lit "push"] (λ _, Allow) true = Ok e ∧
    check_with_options None Some false (merge_overlay sample_policy sample_overlay)
      [lit "git"; lit "push"] (λ _, Allow) true = Ok e' ∧
    decision_rank (decision e) ≤ decision_rank (decision e') ∧
    (∀ r, r ∈ [PrefixRuleMatch [lit "git"; lit "push"] Prompt None None] → r ∈ matched_rules e').
Proof.
  apply (merge_overlay_restricts None Some false sample_policy sample_overlay
    [lit "git"; lit "push"] [PrefixRuleMatch [lit "git"; lit "push"] Prompt None None]
    (λ _, Allow) true); [by vm_compute|discriminate].
Defined.

Lemma append_line_spec_witness :
  (lit "b" ∈ lines (lit "a") → append_line (lit "a") (lit "b") = lit "a") ∧
  (lit "b" ∉ lines (lit "a") →
    lines (append_line (lit "a") (lit "b")) = lines (terminate (lit "a")) ++ [lit "b"]) ∧
  append_line (append_line (lit "a") (lit "b")) (lit "b") = append_line (lit "a") (lit "b").
Proof. apply (append_line_spec (lit "a") (lit "b")). by vm_compute. Defined.
