(* ===== verification/Paths.v ===== *)
(** * Paths: [std::path] on Unix and [utils/absolute-path/src/lib.rs]

    A [Path] is the list of its components.  The comparison, hashing, prefix
    test and traversal of Rust paths are all defined on [Path::components], so
    nothing the code observes distinguishes two strings with the same
    components.  [AbsolutePathBuf] is the repository's type of absolute,
    normalised paths; what it takes from the crate [path_absolutize] and from
    the operating system is the class [PathEnv], and the documented behaviour
    the theorems rely on the class [PathLaws]. *)
From stdpp Require Import base tactics option list sets numbers strings.
From S2P Require Import Prelude RustStr.

(** ** [std::path::Component] without the prefixes of Windows *)
Inductive Component : Type :=
  | RootDir
  | CurDir
  | ParentDir
  | Normal (name : str).

#[export] Instance Component_eq_dec : EqDecision Component.
Proof. solve_decision. Defined.

Abbreviation Path := (list Component).

(** [Path::new] of a string: a leading [/] is the root, empty and [.] segments
    vanish except for a [.] the path starts with. *)
Definition SLASH : char := 47%N.

Definition segment (s : str) : option Component :=
  if bool_decide (s = []) then None
  else if bool_decide (s = lit ".") then None
  else if bool_decide (s = lit "..") then Some ParentDir
  else Some (Normal s).

Definition path_of_str (s : str) : Path :=
  let segments := split SLASH s in
  let rest := omap segment segments in
  match s, segments with
  | c :: _, first :: _ =>
      if bool_decide (c = SLASH) then RootDir :: rest
      else if bool_decide (first = lit ".") then CurDir :: rest
      else rest
  | _, _ => rest
  end.

Definition is_absolute (p : Path) : bool :=
  match p with RootDir :: _ => true | _ => false end.

(** [Path::starts_with] and [Path::strip_prefix]. *)
Definition path_starts_with (p base : Path) : bool := bool_decide (base `prefix_of` p).

Fixpoint path_strip_prefix (p base : Path) : option Path :=
  match base, p with
  | [], _ => Some p
  | c :: base', d :: p' => if decide (c = d) then path_strip_prefix p' base' else None
  | _ :: _, [] => None
  end.

(** [Path::join]: an absolute right-hand side replaces the left one. *)
Definition path_join (p q : Path) : Path :=
  if is_absolute q then q
  else match p, q with
       | [], _ => q
       | _, CurDir :: q' => p ++ q'
       | _, _ => p ++ q
       end.

(** [Path::parent], [Path::ancestors], [Path::file_name]. *)
Definition parent (p : Path) : option Path :=
  match reverse p with
  | [] | RootDir :: _ => None
  | _ :: r => Some (reverse r)
  end.

Fixpoint ancestors_rev (r : Path) : list Path :=
  match r with
  | [] => [[]]
  | RootDir :: _ => [reverse r]
  | _ :: r' => reverse r :: ancestors_rev r'
  end.

Definition ancestors (p : Path) : list Path := ancestors_rev (reverse p).

Definition path_file_name (p : Path) : option str :=
  match reverse p with Normal s :: _ => Some s | _ => None end.

(** ** The environment: the process, the file system and [path_absolutize] *)
Class PathEnv : Type := {
  absolutize : Path → option Path;
  absolutize_from : Path → Path → option Path;
  home_dir : option Path;
  tmpdir_var : option str;
  is_dir : Path → bool;
  is_file : Path → bool;
  canonicalize : Path → option Path;
  path_exists : Path → bool;
  read_to_string : Path → option str;
}.

(** ** [AbsolutePathBuf] *)
Abbreviation AbsolutePathBuf := (list Component).

(** The type's guarantee: absolute and normalised. *)
Definition normal_abs (p : Path) : bool :=
  match p with
  | RootDir :: names => forallb (λ c, match c with Normal _ => true | _ => false end) names
  | _ => false
  end.

Section AbsolutePathBuf.
Context `{PathEnv}.

Definition maybe_expand_home_directory (path : Path) : Path :=
  match home_dir, path with
  | Some home, Normal s :: rest =>
      if bool_decide (s = lit "~") then path_join home rest else path
  | _, _ => path
  end.

Definition resolve_path_against_base (path base_path : Path) : option AbsolutePathBuf :=
  absolutize_from (maybe_expand_home_directory path) base_path.

Definition from_absolute_path (path : Path) : option AbsolutePathBuf :=
  absolutize (maybe_expand_home_directory path).

Definition join (self : AbsolutePathBuf) (path : Path) : option AbsolutePathBuf :=
  resolve_path_against_base path self.

(** The value [deserialize] builds, with the base path the guard has set on
    this thread, if any; [None] is a deserialisation error. *)
Definition deserialize_absolute (base : option Path) (path : Path) : option AbsolutePathBuf :=
  match base with
  | Some base => resolve_path_against_base path base
  | None => if is_absolute path then from_absolute_path path else None
  end.
End AbsolutePathBuf.

(** What [path_absolutize] documents: it returns absolute normalised paths,
    keeps the ones that are, and appends plain relative paths to the base. *)
Class PathLaws `{PathEnv} : Prop := {
  absolutize_normal p q : absolutize p = Some q → normal_abs q = true;
  absolutize_from_normal p b q : normal_abs b = true →
    absolutize_from p b = Some q → normal_abs q = true;
  absolutize_id p : normal_abs p = true → absolutize p = Some p;
  absolutize_from_id p b : normal_abs p = true → absolutize_from p b = Some p;
  absolutize_from_rel names b : normal_abs b = true →
    absolutize_from (Normal <$> names) b = Some (b ++ (Normal <$> names));
}.

(** ** Lemmas *)
Lemma normal_abs_spec p : normal_abs p = true ↔ ∃ names, p = RootDir :: (Normal <$> names).
Proof.
  split.
  - destruct p as [|[] p]; try done; simpl.
    intros Hp. assert (∃ names, p = Normal <$> names) as [names ->]; [|by eauto].
    induction p as [|[] p IH]; try done; [by exists []|].
    destruct (IH Hp) as [names' ->]. by exists (name :: names').
  - intros [names ->]. simpl. induction names; done.
Qed.

Lemma normal_abs_root p : normal_abs p = true → [RootDir] `prefix_of` p.
Proof. intros [names ->]%normal_abs_spec. by exists (Normal <$> names). Qed.

Lemma normal_abs_app b names :
  normal_abs b = true → normal_abs (b ++ (Normal <$> names)) = true.
Proof.
  intros [ns ->]%normal_abs_spec. apply normal_abs_spec.
  exists (ns ++ names). by rewrite fmap_app.
Qed.

Lemma normal_abs_is_absolute p : normal_abs p = true → is_absolute p = true.
Proof. by intros [names ->]%normal_abs_spec. Qed.

Lemma path_starts_with_spec p base : path_starts_with p base = true ↔ base `prefix_of` p.
Proof. unfold path_starts_with. by rewrite bool_decide_eq_true. Qed.

Lemma path_strip_prefix_Some p base s : path_strip_prefix p base = Some s ↔ p = base ++ s.
Proof.
  revert p; induction base as [|c base IH]; intros [|d p]; simpl; try naive_solver.
  case_decide; naive_solver.
Qed.

Lemma ancestors_prefix p a : a ∈ ancestors p → a `prefix_of` p.
Proof.
  unfold ancestors. rewrite <- (reverse_involutive p) at 2. generalize (reverse p). clear p.
  induction l as [|c l IH]; simpl.
  - by intros ->%list_elem_of_singleton.
  - assert (a ∈ ancestors_rev l → a `prefix_of` reverse (c :: l)).
    { rewrite reverse_cons. intros Ha%IH. by apply prefix_app_r. }
    destruct c; set_solver.
Qed.

Lemma last_ancestor_root p : normal_abs p = true → last (ancestors p) = Some [RootDir].
Proof.
  intros [names ->]%normal_abs_spec. unfold ancestors. rewrite reverse_cons, <- fmap_reverse.
  generalize (reverse names). clear names.
  induction l as [|n l IH]; [done|]. cbn -[reverse ancestors_rev]. simpl.
  destruct (ancestors_rev ((Normal <$> l) ++ [RootDir])) eqn:E; [done|].
  by rewrite <- IH.
Qed.

Section laws.
Context `{PathLaws}.

Lemma expand_normal p : normal_abs p = true → maybe_expand_home_directory p = p.
Proof.
  intros [names ->]%normal_abs_spec. unfold maybe_expand_home_directory. by destruct home_dir.
Qed.

Lemma from_absolute_path_id p : normal_abs p = true → from_absolute_path p = Some p.
Proof. intros Hp. unfold from_absolute_path. rewrite expand_normal by done. by apply absolutize_id. Qed.

Lemma from_absolute_path_normal p q : from_absolute_path p = Some q → normal_abs q = true.
Proof. apply absolutize_normal. Qed.

Lemma resolve_path_id p b : normal_abs p = true → resolve_path_against_base p b = Some p.
Proof.
  intros Hp. unfold resolve_path_against_base. rewrite expand_normal by done.
  by apply absolutize_from_id.
Qed.

Lemma resolve_path_normal p b q :
  normal_abs b = true → resolve_path_against_base p b = Some q → normal_abs q = true.
Proof. apply absolutize_from_normal. Qed.

Lemma join_name p name :
  normal_abs p = true → name ≠ lit "~" → join p [Normal name] = Some (p ++ [Normal name]).
Proof.
  intros Hp Hn. unfold join, resolve_path_against_base, maybe_expand_home_directory.
  rewrite bool_decide_eq_false_2 by done.
  destruct home_dir; by apply (absolutize_from_rel [name]).
Qed.
End laws.

(** ** A concrete environment

    The lexical normalisation [path_absolutize] documents, for a process with
    the working directory [cwd], over a file system given by its directories,
    files and file contents, without symbolic links. *)
Definition lexical_step (out : Path) (c : Component) : Path :=
  match c with
  | RootDir => [RootDir]
  | CurDir => out
  | ParentDir => match parent out with Some p => p | None => out end
  | Normal s => out ++ [Normal s]
  end.

Definition lexical (p : Path) : Path := foldl lexical_step [RootDir] p.

Definition lexical_PathEnv (cwd : Path) (home : option Path) (tmp : option str)
    (dirs : list Path) (files : list (Path * str)) : PathEnv := {|
  absolutize p := Some (lexical (path_join cwd p));
  absolutize_from p b := Some (lexical (path_join b p));
  home_dir := home;
  tmpdir_var := tmp;
  is_dir p := bool_decide (p ∈ dirs);
  is_file p := bool_decide (p ∈ files.*1);
  canonicalize p := if bool_decide (p ∈ dirs ∨ p ∈ files.*1) then Some p else None;
  path_exists p := bool_decide (p ∈ dirs ∨ p ∈ files.*1);
  read_to_string p := (λ f, f.2.2) <$> list_find (λ f, f.1 = p) files;
|}.

Lemma lexical_app p q : lexical (p ++ q) = foldl lexical_step (lexical p) q.
Proof. apply foldl_app. Qed.

Lemma lexical_names p names :
  foldl lexical_step p (Normal <$> names) = p ++ (Normal <$> names).
Proof.
  revert p; induction names as [|n names IH]; intros p; simpl; [by rewrite app_nil_r|].
  by rewrite IH, <- app_assoc.
Qed.

Lemma lexical_step_normal p c : normal_abs p = true → normal_abs (lexical_step p c) = true.
Proof.
  intros Hp. destruct c; simpl; [done|done| |by apply (normal_abs_app p [name])].
  apply normal_abs_spec in Hp as [names ->]. unfold parent.
  destruct names as [|n ns _] using rev_ind; [done|].
  rewrite fmap_app, app_comm_cons; cbn [fmap list_fmap]; rewrite reverse_snoc; simpl. rewrite reverse_involutive.
  apply normal_abs_spec. by exists ns.
Qed.

Lemma lexical_normal p : normal_abs (lexical p) = true.
Proof.
  unfold lexical. assert (normal_abs [RootDir] = true) as Hr by done.
  revert Hr. generalize [RootDir]. induction p as [|c p IH]; intros q Hq; [done|].
  apply IH, lexical_step_normal, Hq.
Qed.

Lemma lexical_id p : normal_abs p = true → lexical p = p.
Proof. intros [names ->]%normal_abs_spec. apply (lexical_names [RootDir]). Qed.

Lemma path_join_absolute b p : normal_abs p = true → path_join b p = p.
Proof. intros Hp. unfold path_join. by rewrite normal_abs_is_absolute. Qed.

#[export] Instance lexical_PathLaws cwd home tmp dirs files :
  @PathLaws (lexical_PathEnv cwd home tmp dirs files).
Proof.
  split; cbn.
  - intros p q [= <-]. apply lexical_normal.
  - intros p b q _ [= <-]. apply lexical_normal.
  - intros p Hp. by rewrite path_join_absolute, lexical_id.
  - intros p b Hp. by rewrite path_join_absolute, lexical_id.
  - intros names b Hb. f_equal. apply normal_abs_spec in Hb as [bs ->].
    assert (path_join (RootDir :: (Normal <$> bs)) (Normal <$> names)
            = RootDir :: (Normal <$> bs ++ names)) as ->.
    { rewrite fmap_app. by destruct names. }
    rewrite <- app_comm_cons, <- fmap_app. apply (lexical_names [RootDir] (bs ++ names)).
Qed.

(** A workspace with a repository, on a machine with a [/tmp]. *)
Definition sample_cwd : Path := path_of_str (lit "/home/me/ws").

#[export] Instance sample_env : PathEnv :=
  lexical_PathEnv sample_cwd (Some (path_of_str (lit "/home/me"))) (Some (lit "/var/tmp"))
    [path_of_str (lit "/tmp"); path_of_str (lit "/home/me/ws/.git")] [].

#[export] Instance sample_laws : PathLaws := lexical_PathLaws _ _ _ _ _.
