(* ===== verification/Permissions.v ===== *)
(** * Sandbox permissions: [protocol/src/permissions.rs] and the sandbox
    policies of [protocol/src/protocol.rs]

    A file system policy is a list of entries; [resolve_access_with_cwd]
    decides what a path may be used for.  [SandboxPolicy] is the older form of
    the same policy, with translations both ways.  Computations that can panic
    are [outcome]s: the code unwraps paths it takes to be absolute. *)
From stdpp Require Import base tactics option list sets numbers strings.
From S2P Require Import Prelude RustStr Paths.

(** ** Data *)
Inductive NetworkSandboxPolicy : Type := NetworkRestricted | NetworkEnabled.

(** The order of the constructors is the derived [Ord]. *)
Inductive FileSystemAccessMode : Type := AccessRead | AccessWrite | AccessNone.

Inductive FileSystemSpecialPath : Type :=
  | SpecialRoot
  | SpecialMinimal
  | CurrentWorkingDirectory
  | ProjectRoots (subpath : option Path)
  | Tmpdir
  | SlashTmp
  | SpecialUnknown (path : str) (subpath : option Path).

Inductive FileSystemPath : Type :=
  | EntryPath (path : AbsolutePathBuf)
  | EntrySpecial (value : FileSystemSpecialPath).

Record FileSystemSandboxEntry : Type := {
  entry_path : FileSystemPath;
  entry_access : FileSystemAccessMode;
}.

Inductive FileSystemSandboxKind : Type :=
  | KindRestricted
  | KindUnrestricted
  | KindExternalSandbox.

Record FileSystemSandboxPolicy : Type := {
  kind : FileSystemSandboxKind;
  entries : list FileSystemSandboxEntry;
}.

Record ResolvedFileSystemEntry : Type := {
  resolved_path : AbsolutePathBuf;
  resolved_access : FileSystemAccessMode;
}.

Inductive NetworkAccess : Type := NetworkAccessRestricted | NetworkAccessEnabled.

Inductive ReadOnlyAccess : Type :=
  | ReadRestricted (include_platform_defaults : bool) (readable_roots : list AbsolutePathBuf)
  | ReadFullAccess.

Inductive SandboxPolicy : Type :=
  | DangerFullAccess
  | ReadOnly (access : ReadOnlyAccess) (network_access : bool)
  | ExternalSandbox (network_access : NetworkAccess)
  | WorkspaceWrite (writable_roots : list AbsolutePathBuf) (read_only_access : ReadOnlyAccess)
      (network_access exclude_tmpdir_env_var exclude_slash_tmp : bool).

Record WritableRoot : Type := {
  root : AbsolutePathBuf;
  read_only_subpaths : list AbsolutePathBuf;
}.

Record FileSystemSemanticSignature : Type := {
  sig_has_full_disk_read_access : bool;
  sig_has_full_disk_write_access : bool;
  sig_include_platform_defaults : bool;
  sig_readable_roots : list AbsolutePathBuf;
  sig_writable_roots : list WritableRoot;
  sig_unreadable_roots : list AbsolutePathBuf;
}.

(** The one I/O error the code builds itself. *)
Inductive io_Error : Type := InvalidInput (message : str).

#[export] Instance FileSystemAccessMode_eq_dec : EqDecision FileSystemAccessMode.
Proof. solve_decision. Defined.
#[export] Instance FileSystemSpecialPath_eq_dec : EqDecision FileSystemSpecialPath.
Proof. solve_decision. Defined.
#[export] Instance WritableRoot_eq_dec : EqDecision WritableRoot.
Proof. solve_decision. Defined.
#[export] Instance FileSystemSemanticSignature_eq_dec : EqDecision FileSystemSemanticSignature.
Proof. solve_decision. Defined.

(** [Option::expect], and the panics of [unwrap_or_else(|err| panic!(..))]. *)
Definition expect {E A} (o : option A) : outcome E A :=
  match o with Some a => Ok a | None => Panic end.

Section ListOutcome.
Context {E A B : Type}.

(** [Iterator::filter] with a predicate that may panic. *)
Fixpoint filterM (f : A → outcome E bool) (l : list A) : outcome E (list A) :=
  match l with
  | [] => Ok []
  | a :: l' =>
      keep ← f a;
      rest ← filterM f l';
      Ok (if keep : bool then a :: rest else rest)
  end.

(** [Iterator::filter_map] with a function that may panic. *)
Fixpoint filter_mapM (f : A → outcome E (option B)) (l : list A) : outcome E (list B) :=
  match l with
  | [] => Ok []
  | a :: l' =>
      b ← f a;
      rest ← filter_mapM f l';
      Ok (match b with Some b => b :: rest | None => rest end)
  end.
End ListOutcome.

(** [Iterator::max_by_key]: the last of the elements with the greatest key. *)
Fixpoint max_by_key_from {A} (le : A → A → bool) (best : A) (l : list A) : A :=
  match l with
  | [] => best
  | a :: l' => max_by_key_from le (if le best a then a else best) l'
  end.

Definition max_by_key {A} (le : A → A → bool) (l : list A) : option A :=
  match l with [] => None | a :: l' => Some (max_by_key_from le a l') end.

(** ** Access modes and networks *)
Definition access_rank (a : FileSystemAccessMode) : nat :=
  match a with AccessRead => 0 | AccessWrite => 1 | AccessNone => 2 end.

Definition access_can_read (a : FileSystemAccessMode) : bool :=
  negb (bool_decide (a = AccessNone)).

Definition access_can_write (a : FileSystemAccessMode) : bool :=
  bool_decide (a = AccessWrite).

Definition network_is_enabled (n : NetworkSandboxPolicy) : bool :=
  match n with NetworkEnabled => true | NetworkRestricted => false end.

Definition network_access_is_enabled (n : NetworkAccess) : bool :=
  match n with NetworkAccessEnabled => true | NetworkAccessRestricted => false end.

(** ** Entries as written *)
Definition is_restricted (self : FileSystemSandboxPolicy) : bool :=
  match kind self with KindRestricted => true | _ => false end.

Definition has_root_access (self : FileSystemSandboxPolicy)
    (predicate : FileSystemAccessMode → bool) : bool :=
  is_restricted self &&
  existsb (λ entry, match entry_path entry with
                    | EntrySpecial SpecialRoot => predicate (entry_access entry)
                    | _ => false
                    end) (entries self).

Definition has_explicit_deny_entries (self : FileSystemSandboxPolicy) : bool :=
  is_restricted self &&
  existsb (λ entry, bool_decide (entry_access entry = AccessNone)) (entries self).

Definition special_paths_share_target (l r : FileSystemSpecialPath) : bool :=
  match l, r with
  | SpecialRoot, SpecialRoot | SpecialMinimal, SpecialMinimal
  | CurrentWorkingDirectory, CurrentWorkingDirectory
  | Tmpdir, Tmpdir | SlashTmp, SlashTmp => true
  | CurrentWorkingDirectory, ProjectRoots None
  | ProjectRoots None, CurrentWorkingDirectory => true
  | ProjectRoots l, ProjectRoots r => bool_decide (l = r)
  | SpecialUnknown l l_subpath, SpecialUnknown r r_subpath =>
      bool_decide (l = r) && bool_decide (l_subpath = r_subpath)
  | _, _ => false
  end.

Definition slash_tmp : Path := path_of_str (lit "/tmp").

Definition special_path_matches_absolute_path (value : FileSystemSpecialPath)
    (path : AbsolutePathBuf) : bool :=
  match value with
  | SpecialRoot => match parent path with None => true | Some _ => false end
  | SlashTmp => bool_decide (path = slash_tmp)
  | _ => false
  end.

Definition file_system_paths_share_target (l r : FileSystemPath) : bool :=
  match l, r with
  | EntryPath l, EntryPath r => bool_decide (l = r)
  | EntrySpecial l, EntrySpecial r => special_paths_share_target l r
  | EntryPath path, EntrySpecial value
  | EntrySpecial value, EntryPath path => special_path_matches_absolute_path value path
  end.

Definition has_same_target_write_override (self : FileSystemSandboxPolicy)
    (entry : FileSystemSandboxEntry) : bool :=
  existsb (λ candidate,
    access_can_write (entry_access candidate)
    && (access_rank (entry_access entry) <? access_rank (entry_access candidate))
    && file_system_paths_share_target (entry_path candidate) (entry_path entry))
    (entries self).

Definition has_write_narrowing_entries (self : FileSystemSandboxPolicy) : bool :=
  is_restricted self &&
  existsb (λ entry,
    if access_can_write (entry_access entry) then false
    else match entry_path entry with
         | EntryPath _ => negb (has_same_target_write_override self entry)
         | EntrySpecial value =>
             match value with
             | SpecialRoot => bool_decide (entry_access entry = AccessNone)
             | SpecialMinimal | SpecialUnknown _ _ => false
             | _ => negb (has_same_target_write_override self entry)
             end
         end) (entries self).

Definition unrestricted : FileSystemSandboxPolicy :=
  {| kind := KindUnrestricted; entries := [] |}.

Definition external_sandbox : FileSystemSandboxPolicy :=
  {| kind := KindExternalSandbox; entries := [] |}.

Definition restricted (entries : list FileSystemSandboxEntry) : FileSystemSandboxPolicy :=
  {| kind := KindRestricted; entries := entries |}.

Definition special_entry (value : FileSystemSpecialPath) (access : FileSystemAccessMode) :
    FileSystemSandboxEntry :=
  {| entry_path := EntrySpecial value; entry_access := access |}.

Definition path_entry (access : FileSystemAccessMode) (path : AbsolutePathBuf) :
    FileSystemSandboxEntry :=
  {| entry_path := EntryPath path; entry_access := access |}.

Definition default_file_system_policy : FileSystemSandboxPolicy :=
  restricted [special_entry SpecialRoot AccessRead].

Definition has_full_disk_read_access (self : FileSystemSandboxPolicy) : bool :=
  match kind self with
  | KindUnrestricted | KindExternalSandbox => true
  | KindRestricted =>
      has_root_access self access_can_read && negb (has_explicit_deny_entries self)
  end.

Definition has_full_disk_write_access (self : FileSystemSandboxPolicy) : bool :=
  match kind self with
  | KindUnrestricted | KindExternalSandbox => true
  | KindRestricted =>
      has_root_access self access_can_write && negb (has_write_narrowing_entries self)
  end.

Definition include_platform_defaults (self : FileSystemSandboxPolicy) : bool :=
  negb (has_full_disk_read_access self) && is_restricted self
  && existsb (λ entry, match entry_path entry with
                       | EntrySpecial SpecialMinimal => access_can_read (entry_access entry)
                       | _ => false
                       end) (entries self).

(** ** Resolution against a working directory *)
Section Resolution.
Context `{PathEnv}.
Abbreviation result A := (outcome io_Error A).

(** The filesystem root of the working directory. *)
Definition absolute_root_path_for_cwd (cwd : AbsolutePathBuf) : result AbsolutePathBuf :=
  root ← expect (last (ancestors cwd));
  expect (from_absolute_path root).

Definition resolve_file_system_special_path (value : FileSystemSpecialPath)
    (cwd : option AbsolutePathBuf) : result (option AbsolutePathBuf) :=
  match value with
  | SpecialRoot | SpecialMinimal | SpecialUnknown _ _ => Ok None
  | CurrentWorkingDirectory => Ok cwd
  | ProjectRoots subpath =>
      Ok (match cwd with
          | None => None
          | Some cwd =>
              match subpath with
              | Some subpath => resolve_path_against_base subpath cwd
              | None => Some cwd
              end
          end)
  | Tmpdir =>
      Ok (match tmpdir_var with
          | None => None
          | Some tmpdir =>
              if bool_decide (tmpdir = []) then None
              else from_absolute_path (path_of_str tmpdir)
          end)
  | SlashTmp =>
      slash_tmp ← expect (from_absolute_path slash_tmp);
      Ok (if is_dir slash_tmp then Some slash_tmp else None)
  end.

Definition resolve_file_system_path (path : FileSystemPath) (cwd : option AbsolutePathBuf) :
    result (option AbsolutePathBuf) :=
  match path with
  | EntryPath path => Ok (Some path)
  | EntrySpecial value => resolve_file_system_special_path value cwd
  end.

Definition resolve_entry_path (path : FileSystemPath) (cwd : option AbsolutePathBuf) :
    result (option AbsolutePathBuf) :=
  match path with
  | EntrySpecial SpecialRoot =>
      match cwd with
      | None => Ok None
      | Some cwd => Some <$> absolute_root_path_for_cwd cwd
      end
  | _ => resolve_file_system_path path cwd
  end.

Definition resolve_candidate_path (path cwd : Path) : option AbsolutePathBuf :=
  if is_absolute path then from_absolute_path path
  else resolve_path_against_base path cwd.

(** The lexicographic order on [(specificity, access)]. *)
Definition resolved_entry_precedence (entry : ResolvedFileSystemEntry) :
    nat * FileSystemAccessMode :=
  (length (resolved_path entry), resolved_access entry).

Definition precedence_le (x y : nat * FileSystemAccessMode) : bool :=
  (x.1 <? y.1) || ((x.1 =? y.1) && (access_rank x.2 <=? access_rank y.2)).

Definition entry_le (x y : ResolvedFileSystemEntry) : bool :=
  precedence_le (resolved_entry_precedence x) (resolved_entry_precedence y).

Definition resolved_entries_with_cwd (self : FileSystemSandboxPolicy) (cwd : Path) :
    result (list ResolvedFileSystemEntry) :=
  let cwd_absolute := from_absolute_path cwd in
  filter_mapM (λ entry,
    path ← resolve_entry_path (entry_path entry) cwd_absolute;
    Ok (option_map (λ path, {| resolved_path := path; resolved_access := entry_access entry |})
          path))
    (entries self).

Definition resolve_access_with_cwd (self : FileSystemSandboxPolicy) (path cwd : Path) :
    result FileSystemAccessMode :=
  match kind self with
  | KindUnrestricted | KindExternalSandbox => Ok AccessWrite
  | KindRestricted =>
      match resolve_candidate_path path cwd with
      | None => Ok AccessNone
      | Some path =>
          resolved ← resolved_entries_with_cwd self cwd;
          let matching := List.filter (λ entry, path_starts_with path (resolved_path entry)) resolved in
          Ok (match max_by_key entry_le matching with
              | Some entry => resolved_access entry
              | None => AccessNone
              end)
      end
  end.

Definition can_read_path_with_cwd (self : FileSystemSandboxPolicy) (path cwd : Path) :
    result bool := access_can_read <$> resolve_access_with_cwd self path cwd.

Definition can_write_path_with_cwd (self : FileSystemSandboxPolicy) (path cwd : Path) :
    result bool := access_can_write <$> resolve_access_with_cwd self path cwd.

(** ** Roots *)

(** The loop of [normalize_effective_absolute_path] over the ancestors. *)
Fixpoint normalize_over (raw_path : Path) (ancestors : list Path) : option AbsolutePathBuf :=
  match ancestors with
  | [] => None
  | ancestor :: rest =>
      match canonicalize ancestor, path_strip_prefix raw_path ancestor with
      | Some canonical_ancestor, Some suffix =>
          match from_absolute_path (path_join canonical_ancestor suffix) with
          | Some normalized_path => Some normalized_path
          | None => normalize_over raw_path rest
          end
      | _, _ => normalize_over raw_path rest
      end
  end.

Definition normalize_effective_absolute_path (path : AbsolutePathBuf) : AbsolutePathBuf :=
  match normalize_over path (ancestors path) with
  | Some normalized_path => normalized_path
  | None => path
  end.

Fixpoint dedup_from (seen paths : list AbsolutePathBuf) : list AbsolutePathBuf :=
  match paths with
  | [] => []
  | path :: paths' =>
      if bool_decide (path ∈ seen) then dedup_from seen paths'
      else path :: dedup_from (path :: seen) paths'
  end.

Definition dedup_absolute_paths (paths : list AbsolutePathBuf)
    (normalize_effective_paths : bool) : list AbsolutePathBuf :=
  dedup_from [] ((if normalize_effective_paths
                  then normalize_effective_absolute_path else id) <$> paths).

Definition is_git_pointer_file (path : AbsolutePathBuf) : bool :=
  is_file path && bool_decide (path_file_name path = Some (lit ".git")).

Definition COLON_CHAR : N := 58%N.

(** [str::split_once] with a character. *)
Definition split_once (c : char) (s : str) : option (str * str) :=
  (λ i, (take i s, drop (S i) s)) <$> find [c] s.

Definition resolve_gitdir_from_file (dot_git : AbsolutePathBuf) : option AbsolutePathBuf :=
  match read_to_string dot_git with
  | None => None
  | Some contents =>
      match split_once 58%N (trim contents) with
      | None => None
      | Some (_, gitdir_raw) =>
          let gitdir_raw := trim gitdir_raw in
          if bool_decide (gitdir_raw = []) then None
          else match parent dot_git with
               | None => None
               | Some base =>
                   match resolve_path_against_base (path_of_str gitdir_raw) base with
                   | None => None
                   | Some gitdir_path =>
                       if path_exists gitdir_path then Some gitdir_path else None
                   end
               end
      end
  end.

(** The paths the two copies of this function collect before they drop
    duplicates. *)
Definition protected_subpaths (writable_root : AbsolutePathBuf) :
    result (list AbsolutePathBuf) :=
  top_level_git ← expect (join writable_root [Normal (lit ".git")]);
  let is_file := is_file top_level_git in
  let is_dir_ := is_dir top_level_git in
  let git :=
    if is_dir_ || is_file then
      (if is_file && is_git_pointer_file top_level_git
       then option_list (resolve_gitdir_from_file top_level_git) else [])
      ++ [top_level_git]
    else [] in
  subdirs ← filter_mapM (λ subdir,
    top_level_codex ← expect (join writable_root [Normal subdir]);
    Ok (if is_dir top_level_codex then Some top_level_codex else None))
    [lit ".agents"; lit ".codex"];
  Ok (git ++ subdirs).

Definition default_read_only_subpaths_for_writable_root (writable_root : AbsolutePathBuf) :
    result (list AbsolutePathBuf) :=
  subpaths ← protected_subpaths writable_root;
  Ok (dedup_absolute_paths subpaths false).

Definition get_readable_roots_with_cwd (self : FileSystemSandboxPolicy) (cwd : Path) :
    result (list AbsolutePathBuf) :=
  if has_full_disk_read_access self then Ok []
  else
    resolved ← resolved_entries_with_cwd self cwd;
    readable ← filterM (λ entry, can_read_path_with_cwd self (resolved_path entry) cwd)
                 (List.filter (λ entry, access_can_read (resolved_access entry)) resolved);
    Ok (dedup_absolute_paths (resolved_path <$> readable) true).

(** The path at which a non-writable entry is carved out of a writable root,
    if it lies under it. *)
Definition carveout (root : AbsolutePathBuf) (raw_writable_roots : list AbsolutePathBuf)
    (path : AbsolutePathBuf) : option AbsolutePathBuf :=
  let effective_path := normalize_effective_absolute_path path in
  let preserve_raw_carveout_paths := match parent root with Some _ => true | None => false end in
  let raw_carveout_path :=
    if preserve_raw_carveout_paths then
      if bool_decide (path = root) then None
      else if path_starts_with path root then Some path
      else head (omap (λ raw_root,
                   match path_strip_prefix path raw_root with
                   | None => None
                   | Some suffix => if bool_decide (suffix = []) then None else join root suffix
                   end) raw_writable_roots)
    else None in
  match raw_carveout_path with
  | Some raw_carveout_path => Some raw_carveout_path
  | None =>
      if bool_decide (effective_path = root) || negb (path_starts_with effective_path root)
      then None else Some effective_path
  end.

Definition get_writable_roots_with_cwd (self : FileSystemSandboxPolicy) (cwd : Path) :
    result (list WritableRoot) :=
  if has_full_disk_write_access self then Ok []
  else
    resolved_entries ← resolved_entries_with_cwd self cwd;
    writable ← filterM (λ entry, can_write_path_with_cwd self (resolved_path entry) cwd)
                 (List.filter (λ entry, access_can_write (resolved_access entry)) resolved_entries);
    let writable_entries := resolved_path <$> writable in
    mapM (λ root,
      let raw_writable_roots :=
        List.filter (λ path, bool_decide (normalize_effective_absolute_path path = root))
          writable_entries in
      defaults ← default_read_only_subpaths_for_writable_root root;
      non_writable ← filterM (λ entry,
                         negb <$> can_write_path_with_cwd self (resolved_path entry) cwd)
                       (List.filter (λ entry, negb (access_can_write (resolved_access entry)))
                          resolved_entries);
      let carveouts :=
        omap (λ entry, carveout root raw_writable_roots (resolved_path entry)) non_writable in
      Ok {| root := root;
            read_only_subpaths := dedup_absolute_paths (defaults ++ carveouts) false |})
      (dedup_absolute_paths writable_entries true).

Definition get_unreadable_roots_with_cwd (self : FileSystemSandboxPolicy) (cwd : Path) :
    result (list AbsolutePathBuf) :=
  if negb (is_restricted self) then Ok []
  else
    root ← match from_absolute_path cwd with
           | None => Ok None
           | Some cwd => Some <$> absolute_root_path_for_cwd cwd
           end;
    resolved ← resolved_entries_with_cwd self cwd;
    unreadable ← filterM (λ entry, negb <$> can_read_path_with_cwd self (resolved_path entry) cwd)
                   (List.filter (λ entry, bool_decide (resolved_access entry = AccessNone)) resolved);
    let below := List.filter (λ entry, negb (bool_decide (root = Some (resolved_path entry))))
                   unreadable in
    Ok (dedup_absolute_paths (resolved_path <$> below) true).

Definition semantic_signature (self : FileSystemSandboxPolicy) (cwd : Path) :
    result FileSystemSemanticSignature :=
  readable_roots ← get_readable_roots_with_cwd self cwd;
  writable_roots ← get_writable_roots_with_cwd self cwd;
  unreadable_roots ← get_unreadable_roots_with_cwd self cwd;
  Ok {| sig_has_full_disk_read_access := has_full_disk_read_access self;
        sig_has_full_disk_write_access := has_full_disk_write_access self;
        sig_include_platform_defaults := include_platform_defaults self;
        sig_readable_roots := readable_roots;
        sig_writable_roots := writable_roots;
        sig_unreadable_roots := unreadable_roots |}.

(** ** The legacy policies *)
Definition read_only_has_full_disk_read_access (self : ReadOnlyAccess) : bool :=
  match self with ReadFullAccess => true | ReadRestricted _ _ => false end.

Definition read_only_include_platform_defaults (self : ReadOnlyAccess) : bool :=
  match self with ReadRestricted true _ => true | _ => false end.

Definition read_only_get_readable_roots_with_cwd (self : ReadOnlyAccess) (cwd : Path) :
    list AbsolutePathBuf :=
  match self with
  | ReadFullAccess => []
  | ReadRestricted _ readable_roots =>
      dedup_from [] (readable_roots ++ option_list (from_absolute_path cwd))
  end.

Definition is_path_writable (self : WritableRoot) (path : Path) : bool :=
  if negb (path_starts_with path (root self)) then false
  else forallb (λ subpath, negb (path_starts_with path subpath)) (read_only_subpaths self).

Definition new_read_only_policy : SandboxPolicy := ReadOnly ReadFullAccess false.

Definition new_workspace_write_policy : SandboxPolicy :=
  WorkspaceWrite [] ReadFullAccess false false false.

Definition legacy_has_full_disk_read_access (self : SandboxPolicy) : bool :=
  match self with
  | DangerFullAccess | ExternalSandbox _ => true
  | ReadOnly access _ => read_only_has_full_disk_read_access access
  | WorkspaceWrite _ read_only_access _ _ _ =>
      read_only_has_full_disk_read_access read_only_access
  end.

Definition legacy_has_full_disk_write_access (self : SandboxPolicy) : bool :=
  match self with
  | DangerFullAccess | ExternalSandbox _ => true
  | ReadOnly _ _ | WorkspaceWrite _ _ _ _ _ => false
  end.

Definition legacy_has_full_network_access (self : SandboxPolicy) : bool :=
  match self with
  | DangerFullAccess => true
  | ExternalSandbox network_access => network_access_is_enabled network_access
  | ReadOnly _ network_access | WorkspaceWrite _ _ network_access _ _ => network_access
  end.

Definition legacy_include_platform_defaults (self : SandboxPolicy) : bool :=
  if legacy_has_full_disk_read_access self then false
  else match self with
       | ReadOnly access _ => read_only_include_platform_defaults access
       | WorkspaceWrite _ read_only_access _ _ _ =>
           read_only_include_platform_defaults read_only_access
       | DangerFullAccess | ExternalSandbox _ => false
       end.

(** The copy in [protocol.rs], which drops duplicates itself. *)
Definition legacy_default_read_only_subpaths_for_writable_root
    (writable_root : AbsolutePathBuf) : result (list AbsolutePathBuf) :=
  subpaths ← protected_subpaths writable_root;
  Ok (dedup_from [] subpaths).

(** The roots of [get_writable_roots_with_cwd] before their read-only
    subpaths are added, on Unix. *)
Definition legacy_roots (writable_roots : list AbsolutePathBuf)
    (exclude_tmpdir_env_var exclude_slash_tmp : bool) (cwd : Path) :
    result (list AbsolutePathBuf) :=
  slash_tmp_root ←
    (if exclude_slash_tmp then Ok []
     else slash_tmp ← expect (from_absolute_path slash_tmp);
          Ok (if is_dir slash_tmp then [slash_tmp] else []));
  let tmpdir_root :=
    if exclude_tmpdir_env_var then []
    else match tmpdir_var with
         | None => []
         | Some tmpdir =>
             if bool_decide (tmpdir = []) then []
             else option_list (from_absolute_path (path_of_str tmpdir))
         end in
  Ok (writable_roots ++ option_list (from_absolute_path cwd) ++ slash_tmp_root ++ tmpdir_root).

Definition legacy_get_writable_roots_with_cwd (self : SandboxPolicy) (cwd : Path) :
    result (list WritableRoot) :=
  match self with
  | DangerFullAccess | ExternalSandbox _ | ReadOnly _ _ => Ok []
  | WorkspaceWrite writable_roots _ _ exclude_tmpdir_env_var exclude_slash_tmp =>
      roots ← legacy_roots writable_roots exclude_tmpdir_env_var exclude_slash_tmp cwd;
      mapM (λ writable_root,
        subpaths ← legacy_default_read_only_subpaths_for_writable_root writable_root;
        Ok {| root := writable_root; read_only_subpaths := subpaths |}) roots
  end.

Definition legacy_get_readable_roots_with_cwd (self : SandboxPolicy) (cwd : Path) :
    result (list AbsolutePathBuf) :=
  roots ← match self with
          | DangerFullAccess | ExternalSandbox _ => Ok []
          | ReadOnly access _ => Ok (read_only_get_readable_roots_with_cwd access cwd)
          | WorkspaceWrite _ read_only_access _ _ _ =>
              writable ← legacy_get_writable_roots_with_cwd self cwd;
              Ok (read_only_get_readable_roots_with_cwd read_only_access cwd
                  ++ (root <$> writable))
          end;
  Ok (dedup_from [] roots).

(** [impl From<&SandboxPolicy> for NetworkSandboxPolicy]. *)
Definition network_from_sandbox_policy (value : SandboxPolicy) : NetworkSandboxPolicy :=
  if legacy_has_full_network_access value then NetworkEnabled else NetworkRestricted.

(** [impl From<&SandboxPolicy> for FileSystemSandboxPolicy]. *)
Definition readable_entries (include_platform_defaults : bool)
    (readable_roots : list AbsolutePathBuf) : list FileSystemSandboxEntry :=
  (if include_platform_defaults then [special_entry SpecialMinimal AccessRead] else [])
  ++ (path_entry AccessRead <$> readable_roots).

Definition file_system_from_sandbox_policy (value : SandboxPolicy) : FileSystemSandboxPolicy :=
  match value with
  | DangerFullAccess => unrestricted
  | ExternalSandbox _ => external_sandbox
  | ReadOnly access _ =>
      restricted
        match access with
        | ReadFullAccess => [special_entry SpecialRoot AccessRead]
        | ReadRestricted include_platform_defaults readable_roots =>
            special_entry CurrentWorkingDirectory AccessRead
            :: readable_entries include_platform_defaults readable_roots
        end
  | WorkspaceWrite writable_roots read_only_access _ exclude_tmpdir_env_var exclude_slash_tmp =>
      restricted
        (match read_only_access with
         | ReadFullAccess => [special_entry SpecialRoot AccessRead]
         | ReadRestricted include_platform_defaults readable_roots =>
             readable_entries include_platform_defaults readable_roots
         end
         ++ [special_entry CurrentWorkingDirectory AccessWrite]
         ++ (if exclude_slash_tmp then [] else [special_entry SlashTmp AccessWrite])
         ++ (if exclude_tmpdir_env_var then [] else [special_entry Tmpdir AccessWrite])
         ++ (path_entry AccessWrite <$> writable_roots))
  end.

Definition from_legacy_sandbox_policy (sandbox_policy : SandboxPolicy) (cwd : Path) :
    result FileSystemSandboxPolicy :=
  let file_system_policy := file_system_from_sandbox_policy sandbox_policy in
  match sandbox_policy with
  | WorkspaceWrite _ _ _ _ _ =>
      legacy_writable_roots ← legacy_get_writable_roots_with_cwd sandbox_policy cwd;
      let keep entry :=
        if negb (bool_decide (entry_access entry = AccessRead)) then true
        else match entry_path entry with
             | EntryPath path =>
                 negb (existsb (λ root, is_path_writable root path) legacy_writable_roots)
             | EntrySpecial _ => true
             end in
      Ok {| kind := kind file_system_policy;
            entries := List.filter keep (entries file_system_policy) |}
  | _ => Ok file_system_policy
  end.

(** The variables the loop of [to_legacy_sandbox_policy] updates. *)
Record LegacyScan : Type := {
  scan_include_platform_defaults : bool;
  scan_full_read : bool;
  scan_full_write : bool;
  scan_workspace_root_writable : bool;
  scan_writable_roots : list AbsolutePathBuf;
  scan_readable_roots : list AbsolutePathBuf;
  scan_tmpdir_writable : bool;
  scan_slash_tmp_writable : bool;
}.

Definition scan_init : LegacyScan := {|
  scan_include_platform_defaults := false; scan_full_read := false; scan_full_write := false;
  scan_workspace_root_writable := false; scan_writable_roots := []; scan_readable_roots := [];
  scan_tmpdir_writable := false; scan_slash_tmp_writable := false |}.

(** The updates of the loop body, one per variable. *)
Definition set_platform_defaults (s : LegacyScan) : LegacyScan := {|
  scan_include_platform_defaults := true; scan_full_read := scan_full_read s;
  scan_full_write := scan_full_write s;
  scan_workspace_root_writable := scan_workspace_root_writable s;
  scan_writable_roots := scan_writable_roots s; scan_readable_roots := scan_readable_roots s;
  scan_tmpdir_writable := scan_tmpdir_writable s;
  scan_slash_tmp_writable := scan_slash_tmp_writable s |}.
Definition set_full (write : bool) (s : LegacyScan) : LegacyScan := {|
  scan_include_platform_defaults := scan_include_platform_defaults s; scan_full_read := true;
  scan_full_write := write || scan_full_write s;
  scan_workspace_root_writable := scan_workspace_root_writable s;
  scan_writable_roots := scan_writable_roots s; scan_readable_roots := scan_readable_roots s;
  scan_tmpdir_writable := scan_tmpdir_writable s;
  scan_slash_tmp_writable := scan_slash_tmp_writable s |}.
Definition set_workspace (s : LegacyScan) : LegacyScan := {|
  scan_include_platform_defaults := scan_include_platform_defaults s;
  scan_full_read := scan_full_read s; scan_full_write := scan_full_write s;
  scan_workspace_root_writable := true;
  scan_writable_roots := scan_writable_roots s; scan_readable_roots := scan_readable_roots s;
  scan_tmpdir_writable := scan_tmpdir_writable s;
  scan_slash_tmp_writable := scan_slash_tmp_writable s |}.
Definition push_writable (path : AbsolutePathBuf) (s : LegacyScan) : LegacyScan := {|
  scan_include_platform_defaults := scan_include_platform_defaults s;
  scan_full_read := scan_full_read s; scan_full_write := scan_full_write s;
  scan_workspace_root_writable := scan_workspace_root_writable s;
  scan_writable_roots := scan_writable_roots s ++ [path];
  scan_readable_roots := scan_readable_roots s;
  scan_tmpdir_writable := scan_tmpdir_writable s;
  scan_slash_tmp_writable := scan_slash_tmp_writable s |}.
Definition push_readable (path : AbsolutePathBuf) (s : LegacyScan) : LegacyScan := {|
  scan_include_platform_defaults := scan_include_platform_defaults s;
  scan_full_read := scan_full_read s; scan_full_write := scan_full_write s;
  scan_workspace_root_writable := scan_workspace_root_writable s;
  scan_writable_roots := scan_writable_roots s;
  scan_readable_roots := scan_readable_roots s ++ [path];
  scan_tmpdir_writable := scan_tmpdir_writable s;
  scan_slash_tmp_writable := scan_slash_tmp_writable s |}.
Definition set_tmpdir (s : LegacyScan) : LegacyScan := {|
  scan_include_platform_defaults := scan_include_platform_defaults s;
  scan_full_read := scan_full_read s; scan_full_write := scan_full_write s;
  scan_workspace_root_writable := scan_workspace_root_writable s;
  scan_writable_roots := scan_writable_roots s; scan_readable_roots := scan_readable_roots s;
  scan_tmpdir_writable := true; scan_slash_tmp_writable := scan_slash_tmp_writable s |}.
Definition set_slash_tmp (s : LegacyScan) : LegacyScan := {|
  scan_include_platform_defaults := scan_include_platform_defaults s;
  scan_full_read := scan_full_read s; scan_full_write := scan_full_write s;
  scan_workspace_root_writable := scan_workspace_root_writable s;
  scan_writable_roots := scan_writable_roots s; scan_readable_roots := scan_readable_roots s;
  scan_tmpdir_writable := scan_tmpdir_writable s; scan_slash_tmp_writable := true |}.

Definition push_readable_opt (path : option AbsolutePathBuf) (s : LegacyScan) : LegacyScan :=
  match path with Some path => push_readable path s | None => s end.

(** One round of the loop. *)
Definition scan_entry (cwd_absolute : option AbsolutePathBuf) (s : LegacyScan)
    (entry : FileSystemSandboxEntry) : result LegacyScan :=
  let access := entry_access entry in
  let read_special value :=
    if access_can_read access then
      path ← resolve_file_system_special_path value cwd_absolute; Ok (push_readable_opt path s)
    else Ok s in
  match entry_path entry with
  | EntryPath path =>
      Ok (if access_can_write access then
            if bool_decide (cwd_absolute = Some path) then set_workspace s
            else push_writable path s
          else if access_can_read access then push_readable path s else s)
  | EntrySpecial value =>
      match value with
      | SpecialRoot =>
          Ok match access with
             | AccessNone => s
             | AccessRead => set_full false s
             | AccessWrite => set_full true s
             end
      | SpecialMinimal => Ok (if access_can_read access then set_platform_defaults s else s)
      | CurrentWorkingDirectory =>
          if access_can_write access then Ok (set_workspace s) else read_special value
      | ProjectRoots subpath =>
          if bool_decide (subpath = None) && access_can_write access then Ok (set_workspace s)
          else
            path ← resolve_file_system_special_path value cwd_absolute;
            Ok match path with
               | None => s
               | Some path =>
                   if access_can_write access then push_writable path s
                   else if access_can_read access then push_readable path s else s
               end
      | Tmpdir => if access_can_write access then Ok (set_tmpdir s) else read_special value
      | SlashTmp => if access_can_write access then Ok (set_slash_tmp s) else read_special value
      | SpecialUnknown _ _ => Ok s
      end
  end.

Fixpoint scan_entries (cwd_absolute : option AbsolutePathBuf) (s : LegacyScan)
    (entries : list FileSystemSandboxEntry) : result LegacyScan :=
  match entries with
  | [] => Ok s
  | entry :: entries' =>
      s' ← scan_entry cwd_absolute s entry; scan_entries cwd_absolute s' entries'
  end.

Definition outside_workspace_message : str :=
  lit "permissions profile requests filesystem writes outside the workspace root, which is not supported until the runtime enforces FileSystemSandboxPolicy directly".

(** The policy the loop's results stand for. *)
Definition scan_policy (network : bool) (s : LegacyScan) : result SandboxPolicy :=
  if scan_full_write s then
    Ok (if network then DangerFullAccess else ExternalSandbox NetworkAccessRestricted)
  else
    let read_only_access :=
      if scan_full_read s then ReadFullAccess
      else ReadRestricted (scan_include_platform_defaults s)
             (dedup_absolute_paths (scan_readable_roots s) false) in
    if scan_workspace_root_writable s then
      Ok (WorkspaceWrite (dedup_absolute_paths (scan_writable_roots s) false) read_only_access
            network (negb (scan_tmpdir_writable s)) (negb (scan_slash_tmp_writable s)))
    else if negb (bool_decide (scan_writable_roots s = [])) || scan_tmpdir_writable s
            || scan_slash_tmp_writable s
    then Err (InvalidInput outside_workspace_message)
    else Ok (ReadOnly read_only_access network).

Definition to_legacy_sandbox_policy (self : FileSystemSandboxPolicy)
    (network_policy : NetworkSandboxPolicy) (cwd : Path) : result SandboxPolicy :=
  let network := network_is_enabled network_policy in
  match kind self with
  | KindExternalSandbox =>
      Ok (ExternalSandbox (if network then NetworkAccessEnabled else NetworkAccessRestricted))
  | KindUnrestricted =>
      Ok (if network then DangerFullAccess else ExternalSandbox NetworkAccessRestricted)
  | KindRestricted =>
      s ← scan_entries (from_absolute_path cwd) scan_init (entries self);
      scan_policy network s
  end.

Definition needs_direct_runtime_enforcement (self : FileSystemSandboxPolicy)
    (network_policy : NetworkSandboxPolicy) (cwd : Path) : result bool :=
  if negb (is_restricted self) then Ok false
  else match to_legacy_sandbox_policy self network_policy cwd with
       | Err _ => Ok true
       | Panic => Panic
       | NoFuel => NoFuel
       | Ok legacy_policy =>
           signature ← semantic_signature self cwd;
           legacy ← from_legacy_sandbox_policy legacy_policy cwd;
           legacy_signature ← semantic_signature legacy cwd;
           Ok (negb (bool_decide (signature = legacy_signature)))
       end.
End Resolution.

(** ** What the entries of a policy mean *)

(** A policy is well formed when its explicit paths are absolute and
    normalised, which [AbsolutePathBuf] guarantees. *)
Definition entry_wf (e : FileSystemSandboxEntry) : bool :=
  match entry_path e with EntryPath p => normal_abs p | EntrySpecial _ => true end.

Section Meaning.
Context `{PathEnv}.
Variable cwd : Path.

(** The path an entry is about. *)
Definition target (p : FileSystemPath) : option Path :=
  match p with
  | EntryPath p => Some p
  | EntrySpecial SpecialRoot => Some [RootDir]
  | EntrySpecial (SpecialMinimal | SpecialUnknown _ _) => None
  | EntrySpecial (CurrentWorkingDirectory | ProjectRoots None) => Some cwd
  | EntrySpecial (ProjectRoots (Some s)) => resolve_path_against_base s cwd
  | EntrySpecial Tmpdir =>
      match tmpdir_var with
      | None => None
      | Some s => if bool_decide (s = []) then None else from_absolute_path (path_of_str s)
      end
  | EntrySpecial SlashTmp => if is_dir slash_tmp then Some slash_tmp else None
  end.

(** Entry [e] of the policy is about [t] and covers the path [q]. *)
Definition covers (self : FileSystemSandboxPolicy) (e : FileSystemSandboxEntry) (t q : Path) : Prop :=
  e ∈ entries self ∧ target (entry_path e) = Some t ∧ t `prefix_of` q.

(** [a] is the access the entries give to [q]: the one of a covering entry with
    the longest path, [none] before [write] before [read] among the entries
    for that same path; [none] without a covering entry. *)
Definition governs (self : FileSystemSandboxPolicy) (q : Path) (a : FileSystemAccessMode) : Prop :=
  (∃ e t, covers self e t q ∧ entry_access e = a ∧
     ∀ e' t', covers self e' t' q →
       t' `prefix_of` t ∧
       (t' = t → access_rank (entry_access e') ≤ access_rank a)) ∨
  ((¬ ∃ e t, covers self e t q) ∧ a = AccessNone).

(** The resolved entries, without the panics. *)
Definition resolve_entry (e : FileSystemSandboxEntry) : option ResolvedFileSystemEntry :=
  option_map (λ p, {| resolved_path := p; resolved_access := entry_access e |})
    (target (entry_path e)).
Definition resolved (self : FileSystemSandboxPolicy) : list ResolvedFileSystemEntry :=
  omap resolve_entry (entries self).

Definition access_of (self : FileSystemSandboxPolicy) (q : Path) : FileSystemAccessMode :=
  match max_by_key entry_le
          (List.filter (λ e, path_starts_with q (resolved_path e)) (resolved self)) with
  | Some e => resolved_access e
  | None => AccessNone
  end.
End Meaning.

(** ** Generic lemmas *)
Lemma access_rank_inj a b : access_rank a = access_rank b → a = b.
Proof. by destruct a, b. Qed.

Lemma filter_mapM_Ok {E A B} (f : A → outcome E (option B)) g l :
  (∀ a, a ∈ l → f a = Ok (g a)) → filter_mapM f l = Ok (omap g l).
Proof.
  induction l as [|a l IH]; intros Hf; [done|]. simpl. rewrite Hf by set_solver.
  cbn. rewrite IH by set_solver. cbn. by destruct (g a).
Qed.

Lemma filterM_Ok {E A} (f : A → outcome E bool) g l :
  (∀ a, a ∈ l → f a = Ok (g a)) → filterM f l = Ok (List.filter g l).
Proof.
  induction l as [|a l IH]; intros Hf; [done|]. simpl. rewrite Hf by set_solver.
  cbn. rewrite IH by set_solver. by cbn.
Qed.

Lemma mapM_outcome_Ok {E A B} (f : A → outcome E B) g l :
  (∀ a, a ∈ l → f a = Ok (g a)) → mapM f l = Ok (g <$> l).
Proof.
  induction l as [|a l IH]; intros Hf; [done|]. cbn. rewrite Hf by set_solver.
  cbn. rewrite IH by set_solver. by cbn.
Qed.

Lemma precedence_le_spec x y :
  precedence_le x y = true ↔ x.1 < y.1 ∨ (x.1 = y.1 ∧ access_rank x.2 ≤ access_rank y.2).
Proof.
  unfold precedence_le.
  rewrite orb_true_iff, andb_true_iff, Nat.ltb_lt, Nat.eqb_eq, Nat.leb_le. done.
Qed.

Lemma entry_le_spec x y :
  entry_le x y = true ↔
  length (resolved_path x) < length (resolved_path y) ∨
  (length (resolved_path x) = length (resolved_path y) ∧
   access_rank (resolved_access x) ≤ access_rank (resolved_access y)).
Proof. apply precedence_le_spec. Qed.

(** The greatest element is one of the elements and bounds all of them. *)
Lemma max_by_key_from_spec best l :
  let m := max_by_key_from entry_le best l in
  (m = best ∨ m ∈ l) ∧ entry_le best m = true ∧ ∀ x, x ∈ l → entry_le x m = true.
Proof.
  cbv zeta. revert best; induction l as [|a l IH]; intros best; simpl.
  - split_and!; [by left| |set_solver]. apply entry_le_spec. lia.
  - destruct (entry_le best a) eqn:E.
    + destruct (IH a) as (Hin & Ha & Hall). split_and!.
      * right. set_solver.
      * rewrite entry_le_spec in *. lia.
      * intros x [->|?]%elem_of_cons; auto.
    + destruct (IH best) as (Hin & Ha & Hall). split_and!; [set_solver|done|].
      intros x [->|?]%elem_of_cons; auto.
      apply not_true_iff_false in E. rewrite entry_le_spec in *. lia.
Qed.

Lemma max_by_key_Some l m :
  max_by_key entry_le l = Some m → m ∈ l ∧ ∀ x, x ∈ l → entry_le x m = true.
Proof.
  destruct l as [|a l]; [done|]. intros [= <-].
  destruct (max_by_key_from_spec a l) as (Hin & Ha & Hall).
  split; [set_solver|]. intros x [->|?]%elem_of_cons; auto.
Qed.

Lemma max_by_key_None l : max_by_key entry_le l = None ↔ l = [].
Proof. by destruct l. Qed.

(** ** Resolution *)
Section Theory.
Context `{PathLaws}.
Variable cwd : Path.
Hypothesis Hcwd : normal_abs cwd = true.

Lemma cwd_absolute : from_absolute_path cwd = Some cwd.
Proof. by apply from_absolute_path_id. Qed.

Lemma slash_tmp_absolute : from_absolute_path slash_tmp = Some slash_tmp.
Proof. by apply from_absolute_path_id. Qed.

Lemma absolute_root_Ok : absolute_root_path_for_cwd cwd = Ok [RootDir].
Proof.
  unfold absolute_root_path_for_cwd. rewrite last_ancestor_root by done. cbn.
  by rewrite from_absolute_path_id.
Qed.

Lemma resolve_special_Ok v :
  v ≠ SpecialRoot →
  resolve_file_system_special_path v (Some cwd) = Ok (target cwd (EntrySpecial v)).
Proof.
  intros Hv. destruct v as [| | |[]| | |]; try done; simpl. by rewrite slash_tmp_absolute.
Qed.

Lemma resolve_entry_path_Ok p : resolve_entry_path p (Some cwd) = Ok (target cwd p).
Proof.
  destruct p as [p|v]; [done|]. destruct v; try by apply resolve_special_Ok.
  simpl. by rewrite absolute_root_Ok.
Qed.

Lemma resolved_entries_Ok self : resolved_entries_with_cwd self cwd = Ok (resolved cwd self).
Proof.
  unfold resolved_entries_with_cwd. rewrite cwd_absolute. apply filter_mapM_Ok.
  intros e _. by rewrite resolve_entry_path_Ok.
Qed.

Lemma elem_of_resolved self r :
  r ∈ resolved cwd self ↔
  ∃ e, e ∈ entries self ∧ target cwd (entry_path e) = Some (resolved_path r)
       ∧ entry_access e = resolved_access r.
Proof.
  unfold resolved. rewrite list_elem_of_omap. unfold resolve_entry. split.
  - intros (e & He & Hr). destruct (target _ _) eqn:E; [|done]. simplify_eq/=. eauto.
  - intros (e & He & Ht & Ha). exists e. rewrite Ht. destruct r; naive_solver.
Qed.

Lemma covers_resolved self q e t :
  covers cwd self e t q →
  {| resolved_path := t; resolved_access := entry_access e |}
    ∈ List.filter (λ r, path_starts_with q (resolved_path r)) (resolved cwd self).
Proof.
  intros (He & Ht & Hp). apply elem_of_filterb. split; [by apply path_starts_with_spec|].
  apply elem_of_resolved. eauto.
Qed.

Lemma resolved_covers self q r :
  r ∈ List.filter (λ r, path_starts_with q (resolved_path r)) (resolved cwd self) →
  ∃ e, covers cwd self e (resolved_path r) q ∧ entry_access e = resolved_access r.
Proof.
  intros [Hp%path_starts_with_spec (e & ? & ? & ?)%elem_of_resolved]%elem_of_filterb.
  exists e. by repeat split.
Qed.

Lemma access_of_governs self q : governs cwd self q (access_of cwd self q).
Proof.
  unfold access_of. destruct (max_by_key _ _) as [m|] eqn:Em.
  - apply max_by_key_Some in Em as [Hm Hall]. left.
    apply resolved_covers in Hm as (e & Hc & Ha). exists e, (resolved_path m).
    split_and!; [done|done|]. intros e' t' Hc'.
    pose proof (Hall _ (covers_resolved _ _ _ _ Hc')) as Hle%entry_le_spec. simpl in Hle.
    destruct Hc as (_ & _ & Hp), Hc' as (_ & _ & Hp').
    split; [apply (prefix_of_same_length _ _ q); [done..|lia]|]. intros ->. lia.
  - apply max_by_key_None in Em. right. split; [|done].
    intros (e & t & Hc%covers_resolved). rewrite Em in Hc. set_solver.
Qed.

(** The access of a path is determined by the entries. *)
Lemma governs_unique self q a b : governs cwd self q a → governs cwd self q b → a = b.
Proof.
  intros [(e & t & Hc & <- & Hmax)|[Hn ->]] [(e' & t' & Hc' & <- & Hmax')|[Hn' ->]];
    [|exfalso; eauto..|done].
  destruct (Hmax _ _ Hc') as [Hp Hr], (Hmax' _ _ Hc) as [Hp' Hr'].
  assert (t' = t) as ->.
  { apply prefix_length_eq; [done|]. by apply prefix_length. }
  apply access_rank_inj. specialize (Hr eq_refl). specialize (Hr' eq_refl). lia.
Qed.

Lemma resolve_access_Ok self path q :
  kind self = KindRestricted → resolve_candidate_path path cwd = Some q →
  resolve_access_with_cwd self path cwd = Ok (access_of cwd self q).
Proof.
  intros Hk Hq. unfold resolve_access_with_cwd. by rewrite Hk, Hq, resolved_entries_Ok.
Qed.

Lemma candidate_normal q : normal_abs q = true → resolve_candidate_path q cwd = Some q.
Proof.
  intros Hq. unfold resolve_candidate_path. rewrite normal_abs_is_absolute by done.
  by apply from_absolute_path_id.
Qed.

Lemma candidate_is_normal path q :
  resolve_candidate_path path cwd = Some q → normal_abs q = true.
Proof.
  unfold resolve_candidate_path. destruct (is_absolute path).
  - apply from_absolute_path_normal.
  - by apply resolve_path_normal.
Qed.

Lemma access_normal self q :
  kind self = KindRestricted → normal_abs q = true →
  resolve_access_with_cwd self q cwd = Ok (access_of cwd self q).
Proof. intros. apply resolve_access_Ok; [done|]. by apply candidate_normal. Qed.

Lemma can_write_normal self q :
  kind self = KindRestricted → normal_abs q = true →
  can_write_path_with_cwd self q cwd = Ok (access_can_write (access_of cwd self q)).
Proof. intros. unfold can_write_path_with_cwd. by rewrite access_normal. Qed.

Lemma can_read_normal self q :
  kind self = KindRestricted → normal_abs q = true →
  can_read_path_with_cwd self q cwd = Ok (access_can_read (access_of cwd self q)).
Proof. intros. unfold can_read_path_with_cwd. by rewrite access_normal. Qed.

Lemma target_normal e t :
  entry_wf e = true → target cwd (entry_path e) = Some t → normal_abs t = true.
Proof.
  unfold entry_wf. destruct (entry_path e) as [p|[| | |[s|]| | |]]; simpl; intros Hwf Ht;
    simplify_eq; try done.
  - by eapply resolve_path_normal.
  - destruct tmpdir_var; [|done]. case_bool_decide; [done|]. by eapply from_absolute_path_normal.
  - destruct (is_dir slash_tmp); by simplify_eq.
Qed.

Lemma can_write_access a : access_can_write a = true ↔ a = AccessWrite.
Proof. apply bool_decide_eq_true. Qed.

(** A writable path is governed by a [write] entry, and conversely. *)
Lemma access_write_iff self q :
  access_of cwd self q = AccessWrite ↔ governs cwd self q AccessWrite.
Proof.
  split.
  - intros Ha. rewrite <- Ha. apply access_of_governs.
  - intros Hg. eapply governs_unique; [apply access_of_governs|done].
Qed.
End Theory.

(** ** Theorems on access *)

(** C28: On a restricted policy, access to a path is decided by the entry with
    the longest path that covers it; among the entries for that same path
    [none] beats [write] and [write] beats [read]; a path no entry covers is
    not accessible.  A path that cannot be made absolute is not accessible,
    and policies that are not restricted allow everything; resolution never
    panics. *)
Theorem resolve_access_spec `{PathLaws} (self : FileSystemSandboxPolicy) (path cwd : Path) :
  normal_abs cwd = true →
  ∃ a, resolve_access_with_cwd self path cwd = Ok a ∧
  (kind self ≠ KindRestricted → a = AccessWrite) ∧
  (kind self = KindRestricted → ∀ b,
     b = a ↔ match resolve_candidate_path path cwd with
             | None => b = AccessNone
             | Some q => normal_abs q = true ∧ governs cwd self q b
             end).
Proof.
  intros Hcwd. destruct (kind self) eqn:Hk;
    [|exists AccessWrite; unfold resolve_access_with_cwd; by rewrite Hk..].
  destruct (resolve_candidate_path path cwd) as [q|] eqn:Hq.
  - exists (access_of cwd self q). split_and!; [by apply resolve_access_Ok|done|].
    intros _ b. pose proof (candidate_is_normal _ Hcwd _ _ Hq). split.
    + intros ->. split; [done|]. by apply access_of_governs.
    + intros [_ Hg]. apply (governs_unique cwd self q); [done|]. by apply access_of_governs.
  - exists AccessNone. unfold resolve_access_with_cwd. by rewrite Hk, Hq.
Qed.

Section FullDisk.
Context `{PathLaws}.
Variable cwd : Path.
Hypothesis Hcwd : normal_abs cwd = true.

Lemma root_entry_covers self p q :
  has_root_access self p = true → normal_abs q = true →
  ∃ e, covers cwd self e [RootDir] q ∧ entry_path e = EntrySpecial SpecialRoot
       ∧ p (entry_access e) = true.
Proof.
  intros [_ (e & He & Hp)%existsb_elem]%andb_true_iff Hq.
  destruct (entry_path e) as [|[]] eqn:Ee; try done.
  exists e. split_and!; [|done|done]. unfold covers. rewrite Ee.
  split_and!; [done|done|]. by apply normal_abs_root.
Qed.

Lemma share_target_same a b t :
  is_dir slash_tmp = true → entry_wf a = true → entry_wf b = true →
  file_system_paths_share_target (entry_path a) (entry_path b) = true →
  target cwd (entry_path b) = Some t → target cwd (entry_path a) = Some t.
Proof.
  intros Htmp Ha Hb Hs Ht. unfold entry_wf in *.
  assert (∀ p, normal_abs p = true → parent p = None → p = [RootDir]) as Hroot.
  { intros p [names ->]%normal_abs_spec. unfold parent.
    destruct names as [|n ns _] using rev_ind; [done|].
    rewrite fmap_app, app_comm_cons. cbn [fmap list_fmap]. by rewrite reverse_snoc. }
  destruct (entry_path a) as [p|v], (entry_path b) as [p'|v']; simpl in Hs.
  - apply bool_decide_eq_true in Hs as ->. done.
  - destruct v'; try done; simpl in *.
    + destruct (parent p) eqn:E; [done|]. rewrite (Hroot p) by done. done.
    + rewrite Htmp in Ht. apply bool_decide_eq_true in Hs as ->. done.
  - destruct v; try done; simpl in *; simplify_eq.
    + destruct (parent t) eqn:E; [done|]. rewrite (Hroot t) by done. done.
    + rewrite Htmp. apply bool_decide_eq_true in Hs as ->. done.
  - destruct v as [| | |[s|]| | |], v' as [| | |[s'|]| | |]; try done; simpl in *.
    apply bool_decide_eq_true in Hs. by simplify_eq.
Qed.

(** An entry that does not narrow cannot take away the write access of the root. *)
Lemma not_narrowed self q e t :
  is_dir slash_tmp = true → forallb entry_wf (entries self) = true →
  has_root_access self access_can_write = true → has_write_narrowing_entries self = false →
  kind self = KindRestricted → normal_abs q = true → covers cwd self e t q →
  entry_access e ≠ AccessWrite →
  ∃ e', covers cwd self e' t q ∧ access_rank (entry_access e) < access_rank (entry_access e').
Proof.
  intros Htmp Hwf Hroot Hn Hk Hq Hc Ha. rewrite forallb_elem in Hwf.
  unfold has_write_narrowing_entries, is_restricted in Hn. rewrite Hk in Hn. simpl in Hn.
  pose proof Hc as (He & Ht & Hp).
  assert (has_same_target_write_override self e = true →
    ∃ e', covers cwd self e' t q ∧ access_rank (entry_access e) < access_rank (entry_access e'))
    as Hover.
  { intros (e' & He' & [[Hw Hr]%andb_true_iff Hs]%andb_true_iff)%existsb_elem.
    exists e'. split; [|by apply Nat.ltb_lt]. split_and!; [done| |done].
    apply (share_target_same e' e); auto. }
  apply not_true_iff_false in Hn. rewrite existsb_elem in Hn.
  destruct (has_same_target_write_override self e) eqn:Eo; [by apply Hover|].
  destruct (entry_path e) as [p|v] eqn:Ep.
  { exfalso. apply Hn. exists e. split; [done|]. unfold access_can_write.
    rewrite bool_decide_eq_false_2, Ep by done. by rewrite Eo. }
  destruct (decide (v = SpecialRoot)) as [->|Hv].
  - destruct (root_entry_covers self _ q Hroot Hq) as (r & Hcr & _ & Hr%can_write_access).
    exists r. simpl in Ht. simplify_eq. split; [done|]. rewrite Hr.
    destruct (entry_access e) eqn:Ea; simpl; [lia|done|].
    exfalso. apply Hn. exists e. split; [done|]. by rewrite Ea, Ep.
  - exfalso. apply Hn. exists e. split; [done|]. unfold access_can_write.
    rewrite bool_decide_eq_false_2, Ep by done. destruct v; try done; by rewrite Eo.
Qed.
End FullDisk.

(** A policy that reports full write access makes every path writable, and
    one that reports full read access makes every path readable, provided
    [/tmp] is a directory: entries that narrow nothing are overridden by an
    entry for the same target. *)
Theorem full_disk_access `{PathLaws} (self : FileSystemSandboxPolicy) (path q cwd : Path) :
  normal_abs cwd = true → forallb entry_wf (entries self) = true →
  resolve_candidate_path path cwd = Some q →
  (has_full_disk_write_access self = true → is_dir slash_tmp = true →
   can_write_path_with_cwd self path cwd = Ok true) ∧
  (has_full_disk_read_access self = true → can_read_path_with_cwd self path cwd = Ok true).
Proof.
  intros Hcwd Hwf Hq. pose proof (candidate_is_normal _ Hcwd _ _ Hq) as Hn.
  unfold has_full_disk_write_access, has_full_disk_read_access, can_write_path_with_cwd,
    can_read_path_with_cwd.
  destruct (kind self) eqn:Hk;
    [|unfold resolve_access_with_cwd; by rewrite Hk..].
  rewrite (resolve_access_Ok _ Hcwd _ _ q) by done. cbn.
  pose proof (access_of_governs cwd Hcwd self q) as Hg. split.
  - intros [Hroot Hnarrow%negb_true_iff]%andb_true_iff Htmp. f_equal. apply can_write_access.
    destruct Hg as [(e & t & Hc & Ha & Hmax)|[Hno _]].
    + destruct (decide (entry_access e = AccessWrite)) as [?|Hw]; [congruence|].
      destruct (not_narrowed cwd self q e t) as (e' & Hc' & Hr); try done.
      destruct (Hmax _ _ Hc') as [_ Hle]. specialize (Hle eq_refl). rewrite <- Ha in Hle. lia.
    + destruct (root_entry_covers cwd self _ q Hroot Hn) as (e & Hc & _).
      destruct Hno. eauto.
  - intros [Hroot Hdeny%negb_true_iff]%andb_true_iff. f_equal.
    apply negb_true_iff, bool_decide_eq_false. intros Hnone.
    destruct Hg as [(e & t & (He & _) & Ha & _)|[Hno _]].
    + unfold has_explicit_deny_entries, is_restricted in Hdeny. rewrite Hk in Hdeny.
      apply not_true_iff_false in Hdeny. apply Hdeny, existsb_elem. exists e.
      split; [done|]. apply bool_decide_eq_true. congruence.
    + destruct (root_entry_covers cwd self _ q Hroot Hn) as (e & Hc & _).
      destruct Hno. eauto.
Qed.

(** Without [/tmp], the [write] entry for it counts as an override of a [read]
    entry for the same path, although it resolves to nothing: the policy
    reports full write access and [/tmp] is read-only. *)
Definition slash_tmp_policy : FileSystemSandboxPolicy :=
  restricted [special_entry SpecialRoot AccessWrite; path_entry AccessRead slash_tmp;
              special_entry SlashTmp AccessWrite].

Theorem full_disk_write_without_tmp `{PathLaws} (cwd : Path) :
  normal_abs cwd = true → is_dir slash_tmp = false →
  has_full_disk_write_access slash_tmp_policy = true ∧
  can_write_path_with_cwd slash_tmp_policy slash_tmp cwd = Ok false.
Proof.
  intros Hcwd Htmp. split; [reflexivity|].
  rewrite can_write_normal by done.
  unfold access_of, resolved. cbn [entries slash_tmp_policy restricted]. cbn -[slash_tmp].
  unfold resolve_entry. cbn -[slash_tmp]. rewrite Htmp. reflexivity.
Qed.

(** ** Writable roots *)
Lemma elem_of_dedup_from seen l x : x ∈ dedup_from seen l ↔ x ∈ l ∧ x ∉ seen.
Proof.
  revert seen; induction l as [|a l IH]; intros seen; simpl; [set_solver|].
  case_bool_decide; [|rewrite elem_of_cons]; rewrite IH; [set_solver|].
  destruct (decide (x = a)) as [->|]; set_solver.
Qed.

Lemma NoDup_dedup_from seen l : NoDup (dedup_from seen l).
Proof.
  revert seen; induction l as [|a l IH]; intros seen; simpl; [constructor|].
  case_bool_decide; [done|]. constructor; [|done]. rewrite elem_of_dedup_from. set_solver.
Qed.

Lemma is_path_writable_spec r q :
  is_path_writable r q = true ↔
  root r `prefix_of` q ∧ ∀ s, s ∈ read_only_subpaths r → ¬ s `prefix_of` q.
Proof.
  unfold is_path_writable. rewrite <- path_starts_with_spec.
  destruct (path_starts_with q (root r)); simpl; [|naive_solver].
  rewrite forallb_elem. setoid_rewrite negb_true_iff. setoid_rewrite <- not_true_iff_false.
  setoid_rewrite path_starts_with_spec. naive_solver.
Qed.

Section Roots.
Context `{PathLaws}.
Variable cwd : Path.
Hypothesis Hcwd : normal_abs cwd = true.
Hypothesis no_symlinks : ∀ p q, canonicalize p = Some q → q = p.

Lemma join_suffix a s : normal_abs (a ++ s) = true → path_join a s = a ++ s.
Proof.
  intros Hn. destruct a as [|c a]; [unfold path_join; by destruct (is_absolute s)|].
  apply normal_abs_spec in Hn as [names Hn]. rewrite <- app_comm_cons in Hn.
  injection Hn as -> Hn. symmetry in Hn. apply fmap_app_inv in Hn as (l1 & l2 & -> & -> & _).
  by destruct l2.
Qed.

Lemma normalize_effective_id p :
  normal_abs p = true → normalize_effective_absolute_path p = p.
Proof.
  intros Hp. unfold normalize_effective_absolute_path.
  enough (∀ l, normalize_over p l = Some p ∨ normalize_over p l = None) as Hl.
  { by destruct (Hl (ancestors p)) as [->| ->]. }
  induction l as [|a l IH]; simpl; [by right|].
  destruct (canonicalize a) as [c|] eqn:Ec; [|done]. apply no_symlinks in Ec as ->.
  destruct (path_strip_prefix p a) as [s|] eqn:Es; [|done].
  apply path_strip_prefix_Some in Es. rewrite join_suffix by congruence.
  rewrite <- Es, from_absolute_path_id by done. by left.
Qed.

Lemma default_subpaths_Ok r :
  normal_abs r = true → ∃ l, default_read_only_subpaths_for_writable_root r = Ok l
    ∧ legacy_default_read_only_subpaths_for_writable_root r = Ok l.
Proof.
  intros Hr. unfold default_read_only_subpaths_for_writable_root,
    legacy_default_read_only_subpaths_for_writable_root, protected_subpaths.
  rewrite join_name by done. cbn -[lit filter_mapM].
  rewrite (filter_mapM_Ok _ (λ d, if is_dir (r ++ [Normal d]) then Some (r ++ [Normal d]) else None)).
  - cbn -[lit]. eexists. split; [done|]. unfold dedup_absolute_paths. by rewrite list_fmap_id.
  - intros d Hd. rewrite join_name; [done|done|].
    rewrite !elem_of_cons, elem_of_nil in Hd. by destruct Hd as [->|[->|?]].
Qed.

Definition defaults (r : Path) : list Path :=
  match default_read_only_subpaths_for_writable_root r with Ok l => l | _ => [] end.

Lemma defaults_Ok r :
  normal_abs r = true → default_read_only_subpaths_for_writable_root r = Ok (defaults r).
Proof. intros (l & Hl & _)%default_subpaths_Ok. unfold defaults. by rewrite Hl. Qed.

Lemma legacy_defaults_Ok r :
  normal_abs r = true → legacy_default_read_only_subpaths_for_writable_root r = Ok (defaults r).
Proof. intros (l & Hl & Hl')%default_subpaths_Ok. unfold defaults. by rewrite Hl. Qed.

Lemma carveout_spec r raws p s :
  normal_abs r = true → normal_abs p = true → (∀ x, x ∈ raws → x = r) →
  carveout r raws p = Some s ↔ s = p ∧ p ≠ r ∧ r `prefix_of` p.
Proof.
  intros Hr Hp Hraws. unfold carveout. rewrite normalize_effective_id by done.
  assert (¬ r `prefix_of` p → head (omap (λ raw_root,
             match path_strip_prefix p raw_root with
             | None => None
             | Some suffix => if bool_decide (suffix = []) then None else join r suffix
             end) raws) = None) as Hhead.
  { intros Hn. induction raws as [|x raws IH]; [done|]. simpl.
    rewrite (Hraws x) by set_solver.
    destruct (path_strip_prefix p r) as [suf|] eqn:E; [|apply IH; set_solver].
    apply path_strip_prefix_Some in E. destruct Hn. by exists suf. }
  pose proof (path_starts_with_spec p r) as Hs.
  destruct (path_starts_with p r) eqn:E.
  - apply proj1 in Hs. specialize (Hs eq_refl).
    destruct (parent r); case_bool_decide; simpl; naive_solver.
  - assert (¬ r `prefix_of` p) as Hn by (intros ?%Hs; done). rewrite Hhead by done.
    destruct (parent r); case_bool_decide; simpl; naive_solver.
Qed.

Lemma resolved_normal self e :
  forallb entry_wf (entries self) = true → e ∈ resolved cwd self →
  normal_abs (resolved_path e) = true.
Proof.
  intros Hwf (x & Hx & Ht & _)%elem_of_resolved. rewrite forallb_elem in Hwf.
  eapply target_normal; eauto.
Qed.

(** The carve-outs of a root: the entries below it that are not writable. *)
Definition carved (self : FileSystemSandboxPolicy) (r s : Path) : Prop :=
  (∃ e, e ∈ resolved cwd self ∧ resolved_path e = s ∧ resolved_access e ≠ AccessWrite) ∧
  access_of cwd self s ≠ AccessWrite ∧ s ≠ r ∧ r `prefix_of` s.

Lemma get_writable_roots_Ok self :
  kind self = KindRestricted → forallb entry_wf (entries self) = true →
  has_full_disk_write_access self = false →
  ∃ roots, get_writable_roots_with_cwd self cwd = Ok roots ∧
  (∀ r, (∃ wr, wr ∈ roots ∧ root wr = r) ↔
        (∃ e, e ∈ resolved cwd self ∧ resolved_path e = r ∧ resolved_access e = AccessWrite)
        ∧ access_of cwd self r = AccessWrite) ∧
  (∀ wr s, wr ∈ roots →
     s ∈ read_only_subpaths wr ↔ s ∈ defaults (root wr) ∨ carved self (root wr) s).
Proof.
  intros Hk Hwf Hfull. unfold get_writable_roots_with_cwd.
  rewrite Hfull, resolved_entries_Ok by done. cbn -[mapM].
  assert (∀ e, e ∈ resolved cwd self → can_write_path_with_cwd self (resolved_path e) cwd
           = Ok (access_can_write (access_of cwd self (resolved_path e)))) as Hcan.
  { intros e He. apply can_write_normal; [done..|]. by eapply resolved_normal. }
  rewrite (filterM_Ok (λ e, can_write_path_with_cwd self (resolved_path e) cwd)
             (λ e, access_can_write (access_of cwd self (resolved_path e))))
    by (intros e [_ He]%elem_of_filterb; by apply Hcan).
  cbn -[mapM].
  set (writable := List.filter _ (List.filter _ _)).
  assert (∀ r, r ∈ dedup_absolute_paths (resolved_path <$> writable) true ↔
    (∃ e, e ∈ resolved cwd self ∧ resolved_path e = r ∧ resolved_access e = AccessWrite)
        ∧ access_of cwd self r = AccessWrite) as Hroots.
  { intros r. unfold dedup_absolute_paths. rewrite elem_of_dedup_from.
    setoid_rewrite list_elem_of_fmap. setoid_rewrite list_elem_of_fmap. split.
    - intros [(p & -> & e & -> & [Hw [Hw' He]%elem_of_filterb]%elem_of_filterb) _].
      rewrite normalize_effective_id by by eapply resolved_normal.
      apply can_write_access in Hw, Hw'. split; [|done]. by exists e.
    - intros [(e & He & <- & Hw) Hr]. split; [|set_solver]. exists (resolved_path e).
      rewrite normalize_effective_id by by eapply resolved_normal.
      split; [done|]. exists e. split; [done|].
      unfold writable. by rewrite !elem_of_filterb, !can_write_access. }
  rewrite (mapM_outcome_Ok _ (λ r, {| root := r; read_only_subpaths :=
    dedup_absolute_paths (defaults r ++
      omap (λ entry, carveout r (List.filter (λ path,
              bool_decide (normalize_effective_absolute_path path = r))
              (resolved_path <$> writable)) (resolved_path entry))
      (List.filter (λ e, negb (access_can_write (access_of cwd self (resolved_path e))))
        (List.filter (λ e, negb (access_can_write (resolved_access e))) (resolved cwd self)))) false |})).
  - eexists. split; [done|]. split.
    + intros r. rewrite <- Hroots. setoid_rewrite list_elem_of_fmap. naive_solver.
    + intros wr s (r & -> & Hr%Hroots)%list_elem_of_fmap. simpl.
      unfold dedup_absolute_paths. rewrite list_fmap_id, elem_of_dedup_from, elem_of_app,
        list_elem_of_omap.
      destruct Hr as [(er & Her & <- & _) _].
      assert (∀ e, e ∈ resolved cwd self → carveout (resolved_path er)
        (List.filter (λ path, bool_decide (normalize_effective_absolute_path path = resolved_path er))
              (resolved_path <$> writable)) (resolved_path e) = Some s ↔
        s = resolved_path e ∧ resolved_path e ≠ resolved_path er
        ∧ resolved_path er `prefix_of` resolved_path e) as Hcarve.
      { intros e He. apply carveout_spec; [by eapply resolved_normal..|].
        intros x [Hx%bool_decide_eq_true (e' & -> & [_ [_ He']%elem_of_filterb]%elem_of_filterb)%list_elem_of_fmap]%elem_of_filterb.
        rewrite normalize_effective_id in Hx; [done|]. by eapply resolved_normal. }
      setoid_rewrite elem_of_filterb. setoid_rewrite elem_of_filterb.
      setoid_rewrite negb_true_iff. setoid_rewrite <- not_true_iff_false.
      setoid_rewrite can_write_access. unfold carved.
      assert (s ∉ ([] : list Path)) by set_solver. naive_solver.
  - intros r Hr%Hroots. destruct Hr as [(er & Her & <- & _) _].
    rewrite defaults_Ok by by eapply resolved_normal. cbn.
    rewrite (filterM_Ok _ (λ e, negb (access_can_write (access_of cwd self (resolved_path e))))); [done|].
    intros e [_ He]%elem_of_filterb. by rewrite Hcan.
Qed.
End Roots.

Lemma governs_root `{PathLaws} cwd self q a e t :
  normal_abs cwd = true → covers cwd self e t q → entry_access e = a →
  (∀ e' t', covers cwd self e' t' q →
     t' `prefix_of` t ∧ (t' = t → access_rank (entry_access e') ≤ access_rank a)) →
  access_of cwd self t = a.
Proof.
  intros Hcwd (He & Ht & Hp) Ha Hmax. apply (governs_unique cwd self t).
  { by apply access_of_governs. }
  left. exists e, t. split_and!; [by repeat split|done|].
  intros e' t' (He' & Ht' & Hp'). apply Hmax. split_and!; [done..|]. by etrans.
Qed.

(** ** What a writable root keeps read-only by default *)
Section Protected.
Context `{PathEnv}.

Definition dot_git (r : Path) : Path := r ++ [Normal (lit ".git")].

(** The file [.git] of the root names an existing directory: what follows its
    first colon, white space aside, read from the root when it is relative. *)
Definition names_gitdir (r dir : Path) : Prop :=
  ∃ contents key target,
    read_to_string (dot_git r) = Some contents ∧
    trim contents = key ++ COLON_CHAR :: target ∧ COLON_CHAR ∉ key ∧ trim target ≠ [] ∧
    resolve_path_against_base (path_of_str (trim target)) r = Some dir ∧ path_exists dir = true.

(** The paths of a root that are read-only by default: its [.git], a
    directory or a file; the git directory a [.git] file names; its directories
    [.agents] and [.codex]. *)
Inductive protected_by_default (r : Path) : Path → Prop :=
  | protects_dot_git :
      is_dir (dot_git r) = true ∨ is_file (dot_git r) = true → protected_by_default r (dot_git r)
  | protects_gitdir dir :
      is_file (dot_git r) = true → names_gitdir r dir → protected_by_default r dir
  | protects_subdir name :
      name = lit ".agents" ∨ name = lit ".codex" → is_dir (r ++ [Normal name]) = true →
      protected_by_default r (r ++ [Normal name]).
End Protected.

Lemma split_colon_iff s a b :
  split_once COLON_CHAR s = Some (a, b) ↔ s = a ++ COLON_CHAR :: b ∧ COLON_CHAR ∉ a.
Proof.
  unfold split_once. split.
  - destruct (find [COLON_CHAR] s) as [i|] eqn:E; [|done]. intros [= <- <-].
    apply find_char_Some in E as (x & y & -> & Hx & <-).
    rewrite take_app_length, drop_app_ge, Nat.sub_succ_l, Nat.sub_diag by lia. by split.
  - intros [-> Ha]. rewrite find_char_app by done. cbn -[take drop].
    by rewrite take_app_length, drop_app_ge, Nat.sub_succ_l, Nat.sub_diag by lia.
Qed.

Section ProtectedLaws.
Context `{PathLaws}.

Lemma dot_git_facts r :
  normal_abs r = true → parent (dot_git r) = Some r ∧ path_file_name (dot_git r) = Some (lit ".git").
Proof.
  intros Hr. unfold dot_git, parent, path_file_name. rewrite reverse_snoc. by rewrite reverse_involutive.
Qed.

Lemma resolve_gitdir_iff r dir :
  normal_abs r = true → resolve_gitdir_from_file (dot_git r) = Some dir ↔ names_gitdir r dir.
Proof.
  intros Hr. unfold resolve_gitdir_from_file, names_gitdir. change 58%N with COLON_CHAR.
  rewrite (proj1 (dot_git_facts r Hr)). split.
  - destruct (read_to_string _) as [contents|] eqn:Er; [|done].
    destruct (split_once _ _) as [[key target]|] eqn:Es; [|done]. apply split_colon_iff in Es as [Hs Hk].
    case_bool_decide as Hne; [done|]. destruct (resolve_path_against_base _ _) as [d|] eqn:Ed; [|done].
    destruct (path_exists d) eqn:Ex; [|done]. intros [= <-]. by exists contents, key, target.
  - intros (contents & key & target & -> & Hs & Hk & Hne & Hd & Hx).
    rewrite (proj2 (split_colon_iff _ key target)) by done.
    by rewrite bool_decide_false, Hd, Hx.
Qed.

Lemma elem_of_defaults r s : normal_abs r = true → s ∈ defaults r ↔ protected_by_default r s.
Proof.
  intros Hr. unfold defaults, default_read_only_subpaths_for_writable_root, protected_subpaths.
  rewrite join_name by done. cbn -[lit filter_mapM]. fold (dot_git r).
  rewrite (filter_mapM_Ok _ (λ d, if is_dir (r ++ [Normal d]) then Some (r ++ [Normal d]) else None)).
  2: { intros d Hd. rewrite join_name; [done|done|].
       rewrite !elem_of_cons, elem_of_nil in Hd. by destruct Hd as [->|[->|?]]. }
  cbn -[lit omap]. unfold dedup_absolute_paths, is_git_pointer_file.
  rewrite list_fmap_id, elem_of_dedup_from, elem_of_app, list_elem_of_omap.
  rewrite (proj2 (dot_git_facts r Hr)), bool_decide_true, andb_true_r by done.
  pose proof (resolve_gitdir_iff r) as Hgit. split.
  - intros [[Hs|(name & Hname & Hs)] _].
    + destruct (_ || _) eqn:Ed; [|by apply elem_of_nil in Hs]. apply orb_true_iff in Ed.
      apply elem_of_app in Hs as [Hs| ->%list_elem_of_singleton]; [|by constructor].
      destruct (is_file (dot_git r)) eqn:Ef; [|by apply elem_of_nil in Hs].
      cbn in Hs. apply elem_option_list in Hs. apply protects_gitdir; [done|]. by apply Hgit.
    + destruct (is_dir _) eqn:Ed; [|done]. injection Hs as <-. apply protects_subdir; [|done].
      rewrite !elem_of_cons, elem_of_nil in Hname. tauto.
  - intros Hp. split; [|apply not_elem_of_nil]. destruct Hp as [Hd|dir Hf Hn|name Hname Hd].
    + left. rewrite (proj2 (orb_true_iff _ _)) by done. apply elem_of_app. right. by left.
    + left. rewrite Hf, orb_true_r. apply elem_of_app. left. cbn. apply elem_option_list. by apply Hgit.
    + right. exists name. rewrite Hd. split; [|done]. destruct Hname as [->| ->]; set_solver.
Qed.
End ProtectedLaws.

(** C36: The writable roots of a restricted policy that does not write the
    whole disk, on a file system without symbolic links, are exact.  Every path
    of a root that is protected by default (its [.git] and the git directory a
    [.git] file names, its [.agents] and [.codex]) is one of its read-only
    subpaths.  A path below a root and outside its read-only subpaths is
    writable under the policy; a writable path is below a root, and of that
    root's read-only subpaths only those protected by default may hold it. *)
Theorem writable_roots_exact `{PathLaws} (self : FileSystemSandboxPolicy) (cwd : Path) :
  normal_abs cwd = true → (∀ p q, canonicalize p = Some q → q = p) →
  kind self = KindRestricted → forallb entry_wf (entries self) = true →
  has_full_disk_write_access self = false →
  ∃ roots, get_writable_roots_with_cwd self cwd = Ok roots ∧
  (∀ r s, r ∈ roots → protected_by_default (root r) s → s ∈ read_only_subpaths r) ∧
  ∀ q, normal_abs q = true →
    (∀ r, r ∈ roots → is_path_writable r q = true →
       can_write_path_with_cwd self q cwd = Ok true) ∧
    (can_write_path_with_cwd self q cwd = Ok true →
       ∃ r, r ∈ roots ∧ root r `prefix_of` q ∧
         ∀ s, s ∈ read_only_subpaths r → s `prefix_of` q → protected_by_default (root r) s).
Proof.
  intros Hcwd Hsym Hk Hwf Hfull.
  destruct (get_writable_roots_Ok cwd Hcwd Hsym self) as (roots & Hroots & Hin & Hsub); [done..|].
  assert (Hnorm : ∀ r, r ∈ roots → normal_abs (root r) = true).
  { intros r Hr. destruct (proj1 (Hin (root r))) as [(er & He & <- & _) _]; [by eauto|].
    by eapply resolved_normal. }
  exists roots. split_and!; [done|intros r s Hr Hs; apply Hsub; [done|left]; apply elem_of_defaults; auto|].
  intros q Hq. rewrite can_write_normal by done.
  pose proof (access_of_governs cwd Hcwd self q) as Hg. split.
  - intros r Hr [Hp Hout]%is_path_writable_spec. f_equal. apply can_write_access.
    destruct (proj1 (Hin (root r))) as [(er & (x & Hx & Hxt & Hxa)%elem_of_resolved & Her & Hw) Hacc];
      [by eauto|]. rewrite Her in Hxt.
    assert (covers cwd self x (root r) q) as Hcx by by repeat split.
    destruct Hg as [(e & t & Hc & Ha & Hmax)|[Hno _]]; [|destruct Hno; eauto].
    pose proof (governs_root _ _ _ _ _ _ Hcwd Hc Ha Hmax) as Ht.
    destruct (decide (access_of cwd self q = AccessWrite)) as [?|Hn]; [done|].
    destruct (decide (t = root r)) as [->|Hne]; [congruence|].
    destruct (Hout t); [|apply Hc]. apply Hsub; [done|]. right.
    split_and!; [|congruence|done|apply (Hmax _ _ Hcx)].
    exists {| resolved_path := t; resolved_access := entry_access e |}. simpl.
    split_and!; [|done|congruence]. apply elem_of_resolved. exists e. by destruct Hc as (? & ? & _).
  - intros [= Hw%can_write_access]. rewrite Hw in Hg.
    destruct Hg as [(e & t & Hc & Ha & Hmax)|[_ ?]]; [|done].
    pose proof (governs_root _ _ _ _ _ _ Hcwd Hc Ha Hmax) as Ht.
    destruct (proj2 (Hin t)) as (wr & Hwr & <-).
    { split; [|done]. exists {| resolved_path := t; resolved_access := entry_access e |}.
      split_and!; [|done|done]. apply elem_of_resolved. exists e. by destruct Hc as (? & ? & _). }
    exists wr. split_and!; [done|apply Hc|]. intros s Hs Hp. apply Hsub in Hs as [Hs|Hs]; [| |done].
    + apply elem_of_defaults; auto.
    + destruct Hs as [(e' & (x & Hx & Hxt & Hxa)%elem_of_resolved & <- & _) (_ & Hne & Hpre)].
      destruct Hne. apply (anti_symm prefix); [|done].
      by destruct (Hmax x (resolved_path e')).
Qed.

(** ** Applications of the theorems *)
Definition sample_policy : FileSystemSandboxPolicy :=
  restricted [special_entry SpecialRoot AccessRead;
              special_entry CurrentWorkingDirectory AccessWrite;
              path_entry AccessNone (sample_cwd ++ [Normal (lit "secret")]);
              path_entry AccessWrite (sample_cwd ++ [Normal (lit "secret")])].

Definition secret_key : Path := path_of_str (lit "secret/key").

Lemma resolve_access_witness :
  resolve_access_with_cwd sample_policy secret_key sample_cwd = Ok AccessNone ∧
  governs sample_cwd sample_policy (sample_cwd ++ secret_key) AccessNone.
Proof.
  destruct (resolve_access_spec sample_policy secret_key sample_cwd eq_refl)
    as (a & Ha & _ & Hg).
  assert (a = AccessNone) as -> by (vm_compute in Ha; congruence).
  split; [exact Ha|]. by destruct (proj1 (Hg eq_refl AccessNone) eq_refl).
Defined.

Definition full_policy : FileSystemSandboxPolicy :=
  restricted [special_entry SpecialRoot AccessWrite; path_entry AccessRead slash_tmp;
              special_entry SlashTmp AccessWrite].

Lemma full_disk_access_witness :
  has_full_disk_write_access full_policy = true ∧
  can_write_path_with_cwd full_policy slash_tmp sample_cwd = Ok true.
Proof.
  split; [reflexivity|].
  apply (full_disk_access full_policy slash_tmp slash_tmp sample_cwd); vm_compute; reflexivity.
Defined.

Lemma full_disk_write_without_tmp_witness :
  can_write_path_with_cwd (H := lexical_PathEnv sample_cwd None None [] [])
    slash_tmp_policy slash_tmp sample_cwd = Ok false.
Proof.
  apply (full_disk_write_without_tmp (H := lexical_PathEnv sample_cwd None None [] []));
    vm_compute; reflexivity.
Defined.

Lemma writable_roots_witness :
  ∃ roots, get_writable_roots_with_cwd sample_policy sample_cwd = Ok roots ∧
    is_path_writable (default {| root := []; read_only_subpaths := [] |} (head roots))
      (sample_cwd ++ [Normal (lit "src")]) = true ∧
    can_write_path_with_cwd sample_policy (sample_cwd ++ [Normal (lit "src")]) sample_cwd = Ok true.
Proof.
  destruct (writable_roots_exact sample_policy sample_cwd) as (roots & Hroots & _ & Hq);
    [reflexivity| |reflexivity..|].
  { intros p q. cbn. case_bool_decide; congruence. }
  exists roots. split; [exact Hroots|].
  assert (Hs : get_writable_roots_with_cwd sample_policy sample_cwd = Ok roots) by exact Hroots.
  vm_compute in Hs. injection Hs as <-.
  split; [vm_compute; reflexivity|].
  apply (proj1 (Hq (sample_cwd ++ [Normal (lit "src")]) eq_refl) _
    (list_elem_of_here _ _)). vm_compute. reflexivity.
Defined.
