(* ===== verification/PermissionsLegacy.v ===== *)
(** * Legacy sandbox policies and their translation

    [SandboxPolicy] of [protocol/src/protocol.rs] against the entries of
    [protocol/src/permissions.rs]: [from_legacy_sandbox_policy] preserves what
    a policy allows, and [to_legacy_sandbox_policy] inverts the translation. *)
From stdpp Require Import base tactics option list sets numbers strings.
From S2P Require Import Prelude RustStr Paths Permissions.

(** ** The legacy policies and their translation *)
Definition read_only_wf (a : ReadOnlyAccess) : bool :=
  match a with ReadFullAccess => true | ReadRestricted _ roots => forallb normal_abs roots end.

Definition sandbox_wf (p : SandboxPolicy) : bool :=
  match p with
  | DangerFullAccess | ExternalSandbox _ => true
  | ReadOnly a _ => read_only_wf a
  | WorkspaceWrite roots a _ _ _ => forallb normal_abs roots && read_only_wf a
  end.

Section Legacy.
Context `{PathLaws}.
Variable cwd : Path.
Hypothesis Hcwd : normal_abs cwd = true.

(** Entry [e] grants access [a] below [t]. *)
Definition grants (a : FileSystemAccessMode) (e : FileSystemSandboxEntry) (t : Path) : Prop :=
  entry_access e = a ∧ target cwd (entry_path e) = Some t.

Definition tmp_roots (exclude_tmpdir_env_var exclude_slash_tmp : bool) : list Path :=
  (if exclude_slash_tmp then [] else option_list (target cwd (EntrySpecial SlashTmp)))
  ++ (if exclude_tmpdir_env_var then [] else option_list (target cwd (EntrySpecial Tmpdir))).

Lemma legacy_roots_Ok roots et es :
  legacy_roots roots et es cwd = Ok (roots ++ [cwd] ++ tmp_roots et es).
Proof.
  unfold legacy_roots, tmp_roots. rewrite cwd_absolute, slash_tmp_absolute by done. simpl.
  destruct es, et; cbn; rewrite ?app_nil_r; try destruct (is_dir slash_tmp); try done;
    destruct tmpdir_var; cbn; try done; by case_bool_decide.
Qed.

Lemma tmp_roots_normal et es t : t ∈ tmp_roots et es → normal_abs t = true.
Proof.
  unfold tmp_roots. rewrite elem_of_app. intros [Ht|Ht]; [destruct es|destruct et];
    try (by apply not_elem_of_nil in Ht); apply elem_option_list in Ht;
    by apply (target_normal cwd Hcwd
      {| entry_path := EntrySpecial _; entry_access := AccessRead |} t eq_refl Ht).
Qed.

Lemma legacy_writable_roots_Ok roots a n et es :
  forallb normal_abs roots = true →
  legacy_get_writable_roots_with_cwd (WorkspaceWrite roots a n et es) cwd =
  Ok ((λ r, {| root := r; read_only_subpaths := defaults r |}) <$> roots ++ [cwd] ++ tmp_roots et es).
Proof.
  intros Hwf. unfold legacy_get_writable_roots_with_cwd. rewrite legacy_roots_Ok.
  cbn -[mapM app]. apply mapM_outcome_Ok. intros r Hr.
  rewrite legacy_defaults_Ok; [done|].
  rewrite !elem_of_app, list_elem_of_singleton in Hr. rewrite forallb_elem in Hwf.
  destruct Hr as [?|[->|?%tmp_roots_normal]]; auto.
Qed.

(** The paths the read-only access of a legacy policy makes readable. *)
Definition read_targets (a : ReadOnlyAccess) : list Path :=
  match a with ReadFullAccess => [[RootDir]] | ReadRestricted _ roots => roots end.

Lemma read_entries_grants a t :
  (∃ e, e ∈ match a with
            | ReadFullAccess => [special_entry SpecialRoot AccessRead]
            | ReadRestricted b roots => readable_entries b roots
            end ∧ grants AccessRead e t) ↔ t ∈ read_targets a.
Proof.
  unfold grants. destruct a as [b roots|]; simpl.
  - unfold readable_entries. setoid_rewrite elem_of_app. setoid_rewrite list_elem_of_fmap. split.
    + intros (e & [He|(x & -> & Hx)] & _ & Ht); [|simpl in Ht; by simplify_eq].
      destruct b; [|by apply not_elem_of_nil in He].
      by apply list_elem_of_singleton in He as ->.
    + intros Ht. exists (path_entry AccessRead t). split; [|done]. eauto.
  - setoid_rewrite list_elem_of_singleton. split; [naive_solver|].
    intros ->. eexists; split; [done|]. done.
Qed.

Lemma read_entries_access a e :
  e ∈ match a with
      | ReadFullAccess => [special_entry SpecialRoot AccessRead]
      | ReadRestricted b roots => readable_entries b roots
      end → entry_access e = AccessRead.
Proof.
  destruct a as [b roots|]; [|by intros ->%list_elem_of_singleton].
  unfold readable_entries. rewrite elem_of_app, list_elem_of_fmap.
  intros [He|(x & -> & _)]; [|done]. destruct b; [|by apply not_elem_of_nil in He].
  by apply list_elem_of_singleton in He as ->.
Qed.
(** The grants of the translated policy. *)
Lemma workspace_write_grants roots a n et es t :
  (∃ e, e ∈ entries (file_system_from_sandbox_policy (WorkspaceWrite roots a n et es))
        ∧ grants AccessWrite e t) ↔ t ∈ roots ++ [cwd] ++ tmp_roots et es.
Proof.
  cbn [file_system_from_sandbox_policy restricted entries]. unfold grants, tmp_roots.
  rewrite !elem_of_app, list_elem_of_singleton. split.
  - intros (e & He & Ha & Ht). rewrite !elem_of_app in He.
    destruct He as [He|[He|[He|[He|He]]]].
    + apply read_entries_access in He. congruence.
    + apply list_elem_of_singleton in He as ->. simpl in Ht. naive_solver.
    + destruct es; [by apply not_elem_of_nil in He|].
      apply list_elem_of_singleton in He as ->. rewrite elem_option_list. auto.
    + destruct et; [by apply not_elem_of_nil in He|].
      apply list_elem_of_singleton in He as ->. rewrite !elem_option_list. auto.
    + apply list_elem_of_fmap in He as (x & -> & Hx). simpl in Ht. naive_solver.
  - intros [Ht|[->|[Ht|Ht]]].
    + exists (path_entry AccessWrite t). split; [|done]. rewrite !elem_of_app, list_elem_of_fmap.
      do 4 right. eauto.
    + exists (special_entry CurrentWorkingDirectory AccessWrite). split; [|done]. set_solver.
    + destruct es; [by apply not_elem_of_nil in Ht|]. apply elem_option_list in Ht.
      exists (special_entry SlashTmp AccessWrite). split; [|done]. set_solver.
    + destruct et; [by apply not_elem_of_nil in Ht|]. apply elem_option_list in Ht.
      exists (special_entry Tmpdir AccessWrite). split; [|done]. set_solver.
Qed.


(** The translated policy of a workspace: its entries grant reading or
    writing, and a [read] entry is not below a root that makes it writable. *)
Lemma from_legacy_workspace roots a n et es :
  forallb normal_abs roots = true →
  let lr := roots ++ [cwd] ++ tmp_roots et es in
  ∃ pol, from_legacy_sandbox_policy (WorkspaceWrite roots a n et es) cwd = Ok pol ∧
  kind pol = KindRestricted ∧
  (∀ e, e ∈ entries pol → entry_access e = AccessRead ∨ entry_access e = AccessWrite) ∧
  (∀ t, (∃ e, e ∈ entries pol ∧ grants AccessWrite e t) ↔ t ∈ lr) ∧
  (∀ e t, e ∈ entries pol → grants AccessRead e t → t ∈ read_targets a ∧
     (t = [RootDir] ∨ ∀ r, r ∈ lr →
        is_path_writable {| root := r; read_only_subpaths := defaults r |} t = false)) ∧
  (∀ t, t ∈ read_targets a → (∃ e, e ∈ entries pol ∧ grants AccessRead e t) ∨
     ∃ r, r ∈ lr ∧ r `prefix_of` t).
Proof.
  intros Hwf lr. unfold from_legacy_sandbox_policy. rewrite legacy_writable_roots_Ok by done.
  cbn -[file_system_from_sandbox_policy]. eexists. split; [done|].
  split; [done|]. cbn [entries]. split_and!.
  - intros e [_ He]%elem_of_filterb. cbn in He. rewrite !elem_of_app in He.
    destruct He as [He%read_entries_access|He]; [by left|right].
    destruct es, et; set_solver.
  - intros t. unfold lr. rewrite <- workspace_write_grants. split.
    + intros (e & [_ He]%elem_of_filterb & Hg). eauto.
    + intros (e & He & Hg). exists e. split; [|done]. apply elem_of_filterb. split; [|done].
      destruct Hg as [-> _]. done.
  - intros e t [Hkeep He]%elem_of_filterb [Ha Ht]. rewrite Ha in Hkeep. simpl in Hkeep.
    cbn in He. rewrite !elem_of_app in He. destruct He as [He|He].
    + split; [apply read_entries_grants; exists e; by repeat split|].
      destruct (entry_path e) as [p|v] eqn:Ep.
      * right. intros r Hr. simpl in Ht. simplify_eq.
        apply negb_true_iff, not_true_iff_false in Hkeep. apply not_true_iff_false.
        intros Hw. apply Hkeep, existsb_elem. eexists. split; [|done].
        apply list_elem_of_fmap. by exists r.
      * left. destruct a as [b l|]; [|apply list_elem_of_singleton in He as ->; simplify_eq/=; done].
        unfold readable_entries in He. rewrite elem_of_app, list_elem_of_fmap in He.
        destruct He as [He|(x & -> & _)]; [|done].
        destruct b; [|by apply not_elem_of_nil in He].
        apply list_elem_of_singleton in He as ->. by simplify_eq/=.
    + exfalso. assert (entry_access e = AccessWrite); [|congruence].
      destruct es, et; set_solver.
  - intros t (e & He & Hg)%read_entries_grants.
    match goal with |- context [List.filter ?f _] => destruct (f e) eqn:Hkeep end.
    + left. exists e. split; [|done]. apply elem_of_filterb. split; [done|].
      cbn. rewrite elem_of_app. by left.
    + right. destruct Hg as [Ha Ht]. rewrite Ha in Hkeep. simpl in Hkeep.
      destruct (entry_path e); [|done]. simpl in Ht. simplify_eq.
      apply negb_false_iff, existsb_elem in Hkeep as (wr & Hwr & Hw).
      apply list_elem_of_fmap in Hwr as (r & -> & Hr).
      apply is_path_writable_spec in Hw as [Hp _]. eauto.
Qed.
End Legacy.

(** Without [none] entries, a path is readable when an entry covers it. *)
Lemma readable_iff_covered `{PathLaws} cwd self q :
  normal_abs cwd = true →
  (∀ e, e ∈ entries self → entry_access e = AccessRead ∨ entry_access e = AccessWrite) →
  access_can_read (access_of cwd self q) = true ↔ ∃ e t, covers cwd self e t q.
Proof.
  intros Hcwd Hacc. unfold access_can_read. rewrite negb_true_iff, bool_decide_eq_false.
  destruct (access_of_governs cwd Hcwd self q) as [(e & t & Hc & Ha & _)|[Hno Ha]].
  - rewrite <- Ha. split; [by eauto|]. intros _. destruct Hc as (He & _).
    destruct (Hacc e He) as [->| ->]; done.
  - rewrite Ha. naive_solver.
Qed.

Section LegacyAccess.
Context `{PathLaws}.
Variables (cwd : Path) (roots : list Path) (a : ReadOnlyAccess) (n et es : bool).
Variables (pol : FileSystemSandboxPolicy) (q : Path).
Hypotheses (Hcwd : normal_abs cwd = true) (Hroots : forallb normal_abs roots = true).
Hypothesis Hpol : from_legacy_sandbox_policy (WorkspaceWrite roots a n et es) cwd = Ok pol.
Abbreviation lr := (roots ++ [cwd] ++ tmp_roots cwd et es).

Lemma workspace_readable :
  access_can_read (access_of cwd pol q) = true ↔
  ∃ r, (r ∈ read_targets a ∨ r ∈ lr) ∧ r `prefix_of` q.
Proof.
  destruct (from_legacy_workspace cwd Hcwd roots a n et es Hroots)
    as (pol' & Hpol' & _ & Hacc & Hw & Hr & Hr'). rewrite Hpol in Hpol'. simplify_eq.
  rewrite readable_iff_covered by done. split.
  - intros (e & t & He & Ht & Hp). exists t. split; [|done].
    destruct (Hacc e He) as [Ha|Ha].
    + left. apply (Hr e t); [done|]. by split.
    + right. apply Hw. exists e. by repeat split.
  - assert (∀ r, r ∈ lr → r `prefix_of` q → ∃ e t, covers cwd pol' e t q) as Hlr.
    { intros r (e & He & _ & Ht)%Hw Hp. exists e, r. by repeat split. }
    intros (r & [Ht|Ht] & Hp); [|by eapply Hlr].
    destruct (Hr' r Ht) as [(e & He & _ & Hte)|(r' & Hr1 & Hp')].
    + exists e, r. by repeat split.
    + apply (Hlr r'); [done|]. by etrans.
Qed.

Lemma workspace_writable_sound r :
  r ∈ lr → is_path_writable {| root := r; read_only_subpaths := defaults r |} q = true →
  access_of cwd pol q = AccessWrite.
Proof.
  intros Hrl [Hp Hout]%is_path_writable_spec. simpl in Hp, Hout.
  destruct (from_legacy_workspace cwd Hcwd roots a n et es Hroots)
    as (pol' & Hpol' & _ & Hacc & Hw & Hr & _). rewrite Hpol in Hpol'. simplify_eq.
  destruct (proj2 (Hw r) Hrl) as (x & Hx & Hxa & Hxt).
  assert (covers cwd pol' x r q) as Hcx by by repeat split.
  destruct (access_of_governs cwd Hcwd pol' q) as [(e & t & Hc & Ha & Hmax)|[Hno _]];
    [|destruct Hno; eauto].
  destruct Hc as (He & Ht & Hpt). destruct (Hacc e He) as [Har|Haw]; [|congruence]. exfalso.
  destruct (Hmax _ _ Hcx) as [Hpre Hrank]. rewrite Hxa, <- Ha, Har in Hrank. simpl in Hrank.
  destruct (Hr e t He) as [_ [->|Hnot]]; [by split| |].
  - assert (r = [RootDir]) as ->; [|specialize (Hrank eq_refl); lia].
    apply prefix_length_eq; [done|]. apply prefix_length, normal_abs_root.
    rewrite !elem_of_app, list_elem_of_singleton in Hrl. rewrite forallb_elem in Hroots.
    destruct Hrl as [?|[->|?]]; auto. by eapply tmp_roots_normal.
  - specialize (Hnot r Hrl). apply not_true_iff_false in Hnot. apply Hnot.
    apply is_path_writable_spec. split; [done|]. simpl. intros s Hs Hps.
    apply (Hout s Hs). by etrans.
Qed.

Lemma workspace_writable_complete :
  access_of cwd pol q = AccessWrite → ∃ r, r ∈ lr ∧ r `prefix_of` q.
Proof.
  intros Hwr%access_write_iff; [|done].
  destruct (from_legacy_workspace cwd Hcwd roots a n et es Hroots)
    as (pol' & Hpol' & _ & _ & Hw & _). rewrite Hpol in Hpol'. simplify_eq.
  destruct Hwr as [(e & t & (He & Ht & Hp) & Ha & _)|[_ ?]]; [|done].
  exists t. split; [|done]. apply Hw. exists e. by repeat split.
Qed.
End LegacyAccess.

(** The readable and writable paths of a legacy read-only policy. *)
Lemma read_only_access `{PathLaws} cwd a n q :
  normal_abs cwd = true → normal_abs q = true →
  let pol := file_system_from_sandbox_policy (ReadOnly a n) in
  (access_can_read (access_of cwd pol q) = true ↔
   a = ReadFullAccess ∨ ∃ r, r ∈ read_only_get_readable_roots_with_cwd a cwd ∧ r `prefix_of` q) ∧
  access_of cwd pol q ≠ AccessWrite.
Proof.
  intros Hcwd Hq pol.
  assert (∀ e, e ∈ entries pol ↔
    match a with
    | ReadFullAccess => e = special_entry SpecialRoot AccessRead
    | ReadRestricted b roots =>
        e = special_entry CurrentWorkingDirectory AccessRead ∨ e ∈ readable_entries b roots
    end) as Hent.
  { intros e. unfold pol. cbn. destruct a; [by rewrite elem_of_cons|by rewrite list_elem_of_singleton]. }
  assert (∀ e, e ∈ entries pol → entry_access e = AccessRead) as Hread.
  { intros e He%Hent. destruct a as [b l|]; [|by subst].
    destruct He as [->|He]; [done|]. by apply (read_entries_access (ReadRestricted b l)). }
  split.
  - rewrite readable_iff_covered; [|done|by left; apply Hread]. unfold covers.
    setoid_rewrite Hent. destruct a as [b l|]; simpl.
    + assert (∀ r, r ∈ dedup_from [] (l ++ option_list (from_absolute_path cwd))
                ↔ r ∈ l ∨ r = cwd) as Hroots.
      { intros r. rewrite elem_of_dedup_from, elem_of_app, cwd_absolute, elem_option_list by done.
        assert (r ∉ ([] : list Path)) by set_solver. naive_solver. }
      setoid_rewrite Hroots. split.
      * intros (e & t & [->|He] & Ht & Hp); right; exists t; (split; [|done]).
        { simpl in Ht. right. congruence. }
        left. apply (read_entries_grants cwd (ReadRestricted b l)).
        exists e. split; [done|]. split; [|done].
        by apply (read_entries_access (ReadRestricted b l)).
      * intros [?|(r & [Hr| ->] & Hp)]; [done| |].
        { apply (read_entries_grants cwd (ReadRestricted b l)) in Hr as (e & He & _ & Ht). eauto 6. }
        eexists _, _. split; [by left|]. by split.
    + split; [intros _; by left|]. intros _. eexists _, _. split; [done|]. split; [done|].
      by apply normal_abs_root.
  - intros [(e & t & (He & _) & Ha & _)|[_ ?]]%access_write_iff; [|done..].
    rewrite Hread in Ha by done. done.
Qed.

Lemma workspace_readable_roots `{PathLaws} cwd rs a n et es :
  normal_abs cwd = true → forallb normal_abs rs = true →
  ∃ readable, legacy_get_readable_roots_with_cwd (WorkspaceWrite rs a n et es) cwd = Ok readable ∧
  ∀ r, r ∈ readable ↔ (a ≠ ReadFullAccess ∧ r ∈ read_targets a) ∨ r ∈ rs ++ [cwd] ++ tmp_roots cwd et es.
Proof.
  intros Hcwd Hrs. unfold legacy_get_readable_roots_with_cwd.
  rewrite legacy_writable_roots_Ok by done. cbn -[app]. eexists. split; [done|]. intros r.
  rewrite <- list_fmap_compose. cbn [compose]. rewrite list_fmap_id.
  rewrite elem_of_dedup_from, elem_of_app. assert (r ∉ ([] : list Path)) by set_solver.
  destruct a as [b l|]; simpl.
  - rewrite elem_of_dedup_from, cwd_absolute by done. set_solver.
  - set_solver.
Qed.

(** The translation of a legacy policy into entries preserves its meaning:
    the same paths are readable; every path the legacy policy makes writable is
    writable; a writable path is below one of the legacy writable roots (whose
    default read-only subpaths the entries do not repeat).  Nothing panics. *)
Theorem legacy_translation `{PathLaws} (sp : SandboxPolicy) (cwd : Path) :
  normal_abs cwd = true → sandbox_wf sp = true →
  ∃ pol roots readable,
    from_legacy_sandbox_policy sp cwd = Ok pol ∧
    legacy_get_writable_roots_with_cwd sp cwd = Ok roots ∧
    legacy_get_readable_roots_with_cwd sp cwd = Ok readable ∧
    ∀ q, normal_abs q = true →
      (can_read_path_with_cwd pol q cwd = Ok true ↔
       legacy_has_full_disk_read_access sp = true ∨ ∃ r, r ∈ readable ∧ r `prefix_of` q) ∧
      (legacy_has_full_disk_write_access sp = true ∨
       (∃ r, r ∈ roots ∧ is_path_writable r q = true) →
       can_write_path_with_cwd pol q cwd = Ok true) ∧
      (can_write_path_with_cwd pol q cwd = Ok true →
       legacy_has_full_disk_write_access sp = true ∨
       ∃ r, r ∈ roots ∧ root r `prefix_of` q).
Proof.
  intros Hcwd Hwf. destruct sp as [|a n|na|rs a n et es].
  - exists unrestricted, [], []. split_and!; [done..|]. intros q Hq.
    cbn. split_and!; [split; [by left|done]|done|by left].
  - exists (file_system_from_sandbox_policy (ReadOnly a n)), [],
      (dedup_from [] (read_only_get_readable_roots_with_cwd a cwd)).
    split_and!; [done..|]. intros q Hq.
    rewrite can_read_normal, can_write_normal by done.
    destruct (read_only_access cwd a n q) as [Hr Hw]; [done..|]. split_and!.
    + rewrite Ok_inj_iff, Hr. setoid_rewrite elem_of_dedup_from.
      assert (∀ r : Path, r ∉ ([] : list Path)) by set_solver.
      simpl. destruct a; naive_solver.
    + intros [?|(r & ?%not_elem_of_nil & _)]; done.
    + intros [= ?%can_write_access]. done.
  - exists external_sandbox, [], []. split_and!; [done..|]. intros q Hq.
    cbn. split_and!; [split; [by left|done]|done|by left].
  - apply andb_true_iff in Hwf as [Hwf _].
    destruct (from_legacy_workspace cwd Hcwd rs a n et es Hwf) as (pol & Hpol & Hk & _).
    destruct (workspace_readable_roots cwd rs a n et es Hcwd Hwf) as (readable & Hread & Hin).
    eexists pol, _, readable. split_and!; [done|by apply legacy_writable_roots_Ok|done|].
    intros q Hq. rewrite can_read_normal, can_write_normal by done. split_and!.
    + rewrite Ok_inj_iff, (workspace_readable cwd rs a n et es pol q Hcwd Hwf Hpol).
      setoid_rewrite Hin. pose proof (normal_abs_root q Hq).
      destruct a as [b l|]; cbn -[app]; [naive_solver|]. split; [by left|].
      intros _. exists [RootDir]. split; [left|done]. by apply list_elem_of_singleton.
    + intros [?|(r & (t & -> & Ht)%list_elem_of_fmap & Hw)]; [done|]. f_equal.
      apply can_write_access.
      by apply (workspace_writable_sound cwd rs a n et es pol q Hcwd Hwf Hpol t).
    + intros [= Hw%can_write_access]. right.
      destruct (workspace_writable_complete cwd rs a n et es pol q Hcwd Hwf Hpol Hw) as (r & Hr & Hp).
      eexists. split; [apply list_elem_of_fmap; exists r; by split|]. done.
Qed.

(** ** The way back *)

(** A legacy policy with the duplicates and the explicit mentions of the
    working directory gone; restricted reading lists the working directory,
    which a read-only policy makes readable. *)
Definition canonical_read (extra : list Path) (a : ReadOnlyAccess) : ReadOnlyAccess :=
  match a with
  | ReadFullAccess => ReadFullAccess
  | ReadRestricted b roots => ReadRestricted b (dedup_from [] (extra ++ roots))
  end.

Definition canonical (cwd : Path) (sp : SandboxPolicy) : SandboxPolicy :=
  match sp with
  | DangerFullAccess => DangerFullAccess
  | ExternalSandbox n => ExternalSandbox n
  | ReadOnly a n => ReadOnly (canonical_read [cwd] a) n
  | WorkspaceWrite rs a n et es =>
      WorkspaceWrite (dedup_from [] (List.filter (λ r, negb (bool_decide (r = cwd))) rs))
        (canonical_read [] a) n et es
  end.

Lemma dedup_from_id seen l :
  NoDup l → (∀ x, x ∈ l → x ∉ seen) → dedup_from seen l = l.
Proof.
  intros Hl; revert seen; induction Hl as [|x l Hx _ IH]; intros seen Hs; [done|]. simpl.
  rewrite bool_decide_eq_false_2 by (apply Hs; set_solver). rewrite IH; [done|]. set_solver.
Qed.

Lemma canonical_idemp cwd sp : canonical cwd (canonical cwd sp) = canonical cwd sp.
Proof.
  assert (∀ l, dedup_from [] (dedup_from [] l) = dedup_from [] l) as Hdd.
  { intros l. apply dedup_from_id; [apply NoDup_dedup_from|set_solver]. }
  assert (∀ a, canonical_read [cwd] (canonical_read [cwd] a) = canonical_read [cwd] a) as Hc.
  { intros [b l|]; [|done]. simpl. rewrite bool_decide_eq_true_2 by set_solver.
    rewrite dedup_from_id; [done|apply NoDup_dedup_from|].
    intros x. rewrite elem_of_dedup_from. tauto. }
  destruct sp as [|a n| |rs a n et es]; try done; cbn [canonical].
  - by rewrite Hc.
  - f_equal; [|destruct a; [simpl; by rewrite Hdd|done]].
    rewrite filterb_id; [apply Hdd|]. intros x [Hx _]%elem_of_dedup_from.
    by apply elem_of_filterb in Hx as [? _].
Qed.

Lemma canonical_roots cwd rs tmps r :
  r ∈ rs ++ [cwd] ++ tmps ↔
  r ∈ dedup_from [] (List.filter (λ r, negb (bool_decide (r = cwd))) rs) ++ [cwd] ++ tmps.
Proof.
  rewrite !elem_of_app, elem_of_dedup_from, elem_of_filterb, list_elem_of_singleton.
  rewrite negb_true_iff, bool_decide_eq_false.
  destruct (decide (r = cwd)); set_solver.
Qed.

Section WayBack.
Context `{PathLaws}.
Variable cwd : Path.
Hypothesis Hcwd : normal_abs cwd = true.

Lemma scan_entries_app c s l1 l2 :
  scan_entries c s (l1 ++ l2) = s' ← scan_entries c s l1; scan_entries c s' l2.
Proof.
  revert s; induction l1 as [|e l1 IH]; intros s; [done|]. cbn.
  destruct (scan_entry c s e); cbn; [apply IH|done..].
Qed.

Lemma scan_read_paths c roots s :
  scan_entries c s (path_entry AccessRead <$> roots) = Ok (foldl (flip push_readable) s roots).
Proof. revert s; induction roots as [|r roots IH]; intros s; [done|]. cbn. apply IH. Qed.

Lemma scan_write_paths roots s :
  scan_workspace_root_writable s = true →
  scan_entries (Some cwd) s (path_entry AccessWrite <$> roots) =
  Ok (foldl (flip push_writable) s (List.filter (λ r, negb (bool_decide (r = cwd))) roots)).
Proof.
  revert s; induction roots as [|r roots IH]; intros s Hs; [done|].
  cbn -[bool_decide]. destruct (decide (r = cwd)) as [->|Hne].
  - rewrite !bool_decide_eq_true_2 by done. cbn. rewrite IH by done. f_equal. f_equal.
    destruct s; simpl in *. by rewrite Hs.
  - rewrite !bool_decide_eq_false_2 by congruence. cbn. by rewrite IH.
Qed.

Lemma foldl_push_readable roots s :
  foldl (flip push_readable) s roots =
  {| scan_include_platform_defaults := scan_include_platform_defaults s;
     scan_full_read := scan_full_read s; scan_full_write := scan_full_write s;
     scan_workspace_root_writable := scan_workspace_root_writable s;
     scan_writable_roots := scan_writable_roots s;
     scan_readable_roots := scan_readable_roots s ++ roots;
     scan_tmpdir_writable := scan_tmpdir_writable s;
     scan_slash_tmp_writable := scan_slash_tmp_writable s |}.
Proof.
  revert s; induction roots as [|r roots IH]; intros s; simpl.
  - rewrite app_nil_r. by destruct s.
  - rewrite IH. simpl. by rewrite <- app_assoc.
Qed.

Lemma foldl_push_writable roots s :
  foldl (flip push_writable) s roots =
  {| scan_include_platform_defaults := scan_include_platform_defaults s;
     scan_full_read := scan_full_read s; scan_full_write := scan_full_write s;
     scan_workspace_root_writable := scan_workspace_root_writable s;
     scan_writable_roots := scan_writable_roots s ++ roots;
     scan_readable_roots := scan_readable_roots s;
     scan_tmpdir_writable := scan_tmpdir_writable s;
     scan_slash_tmp_writable := scan_slash_tmp_writable s |}.
Proof.
  revert s; induction roots as [|r roots IH]; intros s; simpl.
  - rewrite app_nil_r. by destruct s.
  - rewrite IH. simpl. by rewrite <- app_assoc.
Qed.

Lemma network_round_trip sp :
  network_is_enabled (network_from_sandbox_policy sp) = legacy_has_full_network_access sp.
Proof. unfold network_from_sandbox_policy. by destruct (legacy_has_full_network_access sp). Qed.

Lemma scan_cons c s s' e l :
  scan_entry c s e = Ok s' → scan_entries c s (e :: l) = scan_entries c s' l.
Proof. cbn. by intros ->. Qed.

Lemma scan_readable_entries c b l s :
  scan_entries c s (readable_entries b l) =
  Ok (foldl (flip push_readable) (if b then set_platform_defaults s else s) l).
Proof.
  unfold readable_entries. destruct b; [|apply scan_read_paths].
  cbn [app]. erewrite scan_cons by done. apply scan_read_paths.
Qed.

(** The loop over the entries of a workspace, after the read-only part. *)
Lemma scan_workspace_entries rs (et es : bool) s :
  scan_entries (Some cwd) s
    ([special_entry CurrentWorkingDirectory AccessWrite]
     ++ (if es then [] else [special_entry SlashTmp AccessWrite])
     ++ (if et then [] else [special_entry Tmpdir AccessWrite])
     ++ (path_entry AccessWrite <$> rs)) =
  Ok {| scan_include_platform_defaults := scan_include_platform_defaults s;
        scan_full_read := scan_full_read s; scan_full_write := scan_full_write s;
        scan_workspace_root_writable := true;
        scan_writable_roots := scan_writable_roots s
          ++ List.filter (λ r, negb (bool_decide (r = cwd))) rs;
        scan_readable_roots := scan_readable_roots s;
        scan_tmpdir_writable := negb et || scan_tmpdir_writable s;
        scan_slash_tmp_writable := negb es || scan_slash_tmp_writable s |}.
Proof.
  destruct es, et; cbn [app]; repeat (erewrite scan_cons by done);
    rewrite scan_write_paths by done; by rewrite foldl_push_writable.
Qed.

Lemma to_legacy_canonical sp :
  to_legacy_sandbox_policy (file_system_from_sandbox_policy sp)
    (network_from_sandbox_policy sp) cwd = Ok (canonical cwd sp).
Proof.
  unfold to_legacy_sandbox_policy. rewrite network_round_trip, cwd_absolute by done.
  destruct sp as [|a n|[]|rs a n et es]; try done;
    cbn [kind entries file_system_from_sandbox_policy restricted legacy_has_full_network_access].
  - destruct a as [b l|]; [|done]. erewrite scan_cons by done.
    rewrite scan_readable_entries, foldl_push_readable.
    unfold scan_policy, dedup_absolute_paths. destruct b; simpl; by rewrite list_fmap_id.
  - rewrite scan_entries_app. destruct a as [b l|].
    + rewrite scan_readable_entries, foldl_push_readable.
      cbn [mbind outcome_bind]. rewrite scan_workspace_entries.
      unfold scan_policy, dedup_absolute_paths.
      destruct b, et, es; simpl; by rewrite !list_fmap_id.
    + erewrite scan_cons by done. cbn [scan_entries mbind outcome_bind].
      rewrite scan_workspace_entries. unfold scan_policy, dedup_absolute_paths.
      destruct et, es; simpl; by rewrite !list_fmap_id.
Qed.

Lemma canonical_readable a extra r :
  r ∈ read_only_get_readable_roots_with_cwd (canonical_read extra a) cwd ↔
  r ∈ read_only_get_readable_roots_with_cwd a cwd ∨ (a ≠ ReadFullAccess ∧ r ∈ extra).
Proof.
  destruct a as [b l|]; simpl; [|naive_solver].
  rewrite !elem_of_dedup_from, !elem_of_app, elem_of_dedup_from, elem_of_app.
  assert (r ∉ ([] : list Path)) by set_solver. naive_solver.
Qed.

Lemma canonical_wf sp : sandbox_wf sp = true → sandbox_wf (canonical cwd sp) = true.
Proof.
  assert (∀ l extra, forallb normal_abs l = true → forallb normal_abs extra = true →
    forallb normal_abs (dedup_from [] (extra ++ l)) = true) as Hd.
  { intros l extra. rewrite !forallb_elem. setoid_rewrite elem_of_dedup_from.
    setoid_rewrite elem_of_app. naive_solver. }
  assert (∀ a extra, forallb normal_abs extra = true → read_only_wf a = true →
    read_only_wf (canonical_read extra a) = true) as Hr.
  { intros [b l|] extra ? ?; [|done]. by apply Hd. }
  destruct sp as [|a n| |rs a n et es]; try done; cbn -[forallb].
  - intros Ha. apply Hr; [|done]. cbn. by rewrite Hcwd.
  - rewrite !andb_true_iff. intros [Hrs Ha]. split; [|by apply Hr].
    apply (Hd _ []); [|done]. revert Hrs. rewrite !forallb_elem.
    setoid_rewrite elem_of_filterb. naive_solver.
Qed.
End WayBack.

(** A legacy policy translated into entries and back is the same policy up
    to duplicates and mentions of the working directory: both forms have the
    same network access, the same full-disk flags, and the same sets of
    readable and of writable roots with the same read-only subpaths; a second
    round trip changes nothing more. *)
Theorem legacy_round_trip `{PathLaws} (sp : SandboxPolicy) (cwd : Path) :
  normal_abs cwd = true → sandbox_wf sp = true →
  ∃ sp', to_legacy_sandbox_policy (file_system_from_sandbox_policy sp)
           (network_from_sandbox_policy sp) cwd = Ok sp' ∧
    to_legacy_sandbox_policy (file_system_from_sandbox_policy sp')
      (network_from_sandbox_policy sp') cwd = Ok sp' ∧
    legacy_has_full_network_access sp' = legacy_has_full_network_access sp ∧
    legacy_has_full_disk_read_access sp' = legacy_has_full_disk_read_access sp ∧
    legacy_has_full_disk_write_access sp' = legacy_has_full_disk_write_access sp ∧
    legacy_include_platform_defaults sp' = legacy_include_platform_defaults sp ∧
    (∃ w w', legacy_get_writable_roots_with_cwd sp cwd = Ok w ∧
       legacy_get_writable_roots_with_cwd sp' cwd = Ok w' ∧ ∀ r, r ∈ w ↔ r ∈ w') ∧
    (∃ l l', legacy_get_readable_roots_with_cwd sp cwd = Ok l ∧
       legacy_get_readable_roots_with_cwd sp' cwd = Ok l' ∧ ∀ r, r ∈ l ↔ r ∈ l').
Proof.
  intros Hcwd Hwf. exists (canonical cwd sp).
  pose proof (canonical_wf cwd Hcwd sp Hwf) as Hwf'.
  split_and!; [by apply to_legacy_canonical| | | | | | |].
  { rewrite to_legacy_canonical by done. by rewrite canonical_idemp. }
  all: destruct sp as [|a n| |rs a n et es]; try done; try by destruct a.
  all: try (eexists _, _; by repeat split).
  - apply andb_true_iff in Hwf as [Hrs _]. apply andb_true_iff in Hwf' as [Hrs' _].
    rewrite legacy_writable_roots_Ok by done. cbn [canonical].
    rewrite legacy_writable_roots_Ok by done. eexists _, _. split_and!; [done..|].
    intros r. rewrite !list_elem_of_fmap.
    split; intros (x & -> & Hx); exists x; (split; [done|]); by apply (canonical_roots cwd rs).
  - eexists _, _. split_and!; [done..|]. intros r. rewrite !elem_of_dedup_from.
    rewrite canonical_readable by done. destruct a as [b l|]; [|naive_solver].
    cbn -[dedup_from]. rewrite elem_of_dedup_from, cwd_absolute by done. set_solver.
  - apply andb_true_iff in Hwf as [Hrs _]. apply andb_true_iff in Hwf' as [Hrs' _].
    destruct (workspace_readable_roots cwd rs a n et es Hcwd Hrs) as (l & Hl & Hin).
    destruct (workspace_readable_roots cwd _ (canonical_read [] a) n et es Hcwd Hrs')
      as (l' & Hl' & Hin').
    exists l, l'. split_and!; [done..|]. intros r. rewrite Hin, Hin', (canonical_roots cwd rs).
    destruct a as [b l0|]; simpl; [|naive_solver]. rewrite elem_of_dedup_from.
    assert (r ∉ ([] : list Path)) by set_solver. naive_solver.
Qed.

(** ** Applications of the theorems *)
Definition sample_legacy : SandboxPolicy :=
  WorkspaceWrite [sample_cwd; slash_tmp; slash_tmp]
    (ReadRestricted true [sample_cwd ++ [Normal (lit "docs")]]) false true false.

Lemma legacy_translation_witness :
  ∃ pol, from_legacy_sandbox_policy sample_legacy sample_cwd = Ok pol ∧
    can_write_path_with_cwd pol (sample_cwd ++ [Normal (lit "docs")]) sample_cwd = Ok true.
Proof.
  destruct (legacy_translation sample_legacy sample_cwd eq_refl eq_refl)
    as (pol & roots & readable & Hpol & Hroots & _ & Hq).
  exists pol. split; [exact Hpol|].
  assert (Hs : legacy_get_writable_roots_with_cwd sample_legacy sample_cwd = Ok roots)
    by exact Hroots.
  vm_compute in Hs. injection Hs as <-.
  apply (Hq (sample_cwd ++ [Normal (lit "docs")]) eq_refl). right.
  eexists. split; [apply list_elem_of_here|]. vm_compute. reflexivity.
Defined.

Lemma legacy_round_trip_witness :
  ∃ sp', to_legacy_sandbox_policy (file_system_from_sandbox_policy sample_legacy)
           (network_from_sandbox_policy sample_legacy) sample_cwd = Ok sp' ∧
         legacy_has_full_network_access sp' = false.
Proof.
  destruct (legacy_round_trip sample_legacy sample_cwd eq_refl eq_refl) as (sp' & H1 & _ & Hn & _).
  exists sp'. split; [exact H1|]. rewrite Hn. reflexivity.
Defined.
