(* ===== verification/PermissionsTyped.v ===== *)
(** The types of the permission results.  Every path the runtime hands to a
    sandbox is an [AbsolutePathBuf]: absolute and normalised.  This file shows
    that the roots, the read-only subpaths and the carve-outs that
    [codex-rs/protocol/src/permissions.rs] computes have that type, symbolic
    links and Git pointer files included, and that computing them never
    panics. *)
From S2P Require Import Prelude RustStr Paths Permissions.
From stdpp Require Import strings list.
#[local] Open Scope nat_scope.

(** The value of [AbsolutePathBuf]. *)
Definition abs (p : Path) : Prop := normal_abs p = true.

(** A computation that returns a list, all of whose elements satisfy [P]. *)
Definition returns_all {E A} (P : A → Prop) (o : outcome E (list A)) : Prop :=
  ∃ l, o = Ok l ∧ Forall P l.

Definition root_wf (wr : WritableRoot) : Prop :=
  abs (root wr) ∧ Forall abs (read_only_subpaths wr).

Definition signature_wf (sig : FileSystemSemanticSignature) : Prop :=
  Forall abs (sig_readable_roots sig) ∧ Forall root_wf (sig_writable_roots sig)
  ∧ Forall abs (sig_unreadable_roots sig).

Lemma Forall_filterb {A} (P : A → Prop) f l : Forall P l → Forall P (List.filter f l).
Proof. rewrite !Forall_forall. intros Hl x [_ Hx]%elem_of_filterb. auto. Qed.

Lemma returns_all_mapM {E A B} (P : A → Prop) (Q : B → Prop) (f : A → outcome E B) l :
  Forall P l → (∀ a, P a → ∃ b, f a = Ok b ∧ Q b) → returns_all Q (mapM f l).
Proof.
  intros Hl Hf. unfold returns_all. induction Hl as [|a l Ha Hl (bs & Hbs & HQs)]; [by exists []|].
  destruct (Hf a Ha) as (b & Hb & HQ). exists (b :: bs). cbn. rewrite Hb. cbn.
  rewrite Hbs. cbn. split; [done|]. by constructor.
Qed.

Lemma dedup_from_Forall P seen l : Forall P l → Forall P (dedup_from seen l).
Proof. rewrite !Forall_forall. intros Hl x [Hx _]%elem_of_dedup_from. auto. Qed.

Lemma parent_abs p b : abs p → parent p = Some b → abs b.
Proof.
  intros [names ->]%normal_abs_spec. unfold parent.
  destruct names as [|n names _] using rev_ind; [done|].
  rewrite fmap_app, app_comm_cons. cbn [fmap list_fmap]. rewrite reverse_snoc.
  rewrite reverse_involutive. intros [= <-]. apply normal_abs_spec. by exists names.
Qed.

Section Typed.
Context `{PathLaws}.

Lemma normalize_effective_abs p : abs p → abs (normalize_effective_absolute_path p).
Proof.
  intros Hp. unfold normalize_effective_absolute_path.
  destruct (normalize_over _ _) as [q|] eqn:E; [|done]. revert E.
  generalize (ancestors p). induction l as [|a l IH]; simpl; [done|].
  destruct (canonicalize a) as [c|]; [|done]. destruct (path_strip_prefix p a) as [s|]; [|done].
  destruct (from_absolute_path _) as [q'|] eqn:E; [|done].
  intros [= <-]. by eapply from_absolute_path_normal.
Qed.

Lemma dedup_abs b l : Forall abs l → Forall abs (dedup_absolute_paths l b).
Proof.
  intros Hl. apply dedup_from_Forall. apply Forall_fmap. apply (Forall_impl _ _ _ Hl).
  intros p Hp. destruct b; [by apply normalize_effective_abs|done].
Qed.

Lemma gitdir_abs p q : abs p → resolve_gitdir_from_file p = Some q → abs q.
Proof.
  intros Hp. unfold resolve_gitdir_from_file.
  destruct (read_to_string p) as [s|]; [|done].
  destruct (split_once _ _) as [[? raw]|]; [|done].
  case_bool_decide; [done|]. destruct (parent p) as [b|] eqn:Eb; [|done].
  destruct (resolve_path_against_base _ b) as [g|] eqn:Eg; [|done].
  destruct (path_exists g); [|done]. intros [= <-].
  eapply resolve_path_normal; [|exact Eg]. by eapply parent_abs.
Qed.

Lemma protected_abs r : abs r → returns_all abs (protected_subpaths r).
Proof.
  intros Hr. unfold protected_subpaths. rewrite join_name by done. cbn -[lit filter_mapM].
  assert (Hsub : ∀ n, abs (r ++ [Normal n])) by (intros n; by apply (normal_abs_app r [n])).
  rewrite (filter_mapM_Ok _ (λ d, if is_dir (r ++ [Normal d]) then Some (r ++ [Normal d]) else None)).
  - cbn -[lit omap]. eexists. split; [done|]. apply Forall_app. split.
    + destruct (_ || _); [|done]. apply Forall_app. split; [|by repeat constructor].
      destruct (_ && _); [|done].
      destruct (resolve_gitdir_from_file _) eqn:E; [|done].
      constructor; [|by constructor]. eapply gitdir_abs; [|exact E]. apply Hsub.
    + apply Forall_forall. intros x (d & _ & Hx)%list_elem_of_omap.
      destruct (is_dir _); [|done]. by injection Hx as <-.
  - intros d Hd. rewrite join_name; [done|done|].
    rewrite !elem_of_cons, elem_of_nil in Hd. by destruct Hd as [->|[->|?]].
Qed.

Lemma defaults_abs r :
  abs r → returns_all abs (default_read_only_subpaths_for_writable_root r).
Proof.
  intros (l & Hl & Habs)%protected_abs. unfold default_read_only_subpaths_for_writable_root.
  rewrite Hl. eexists. split; [done|]. by apply dedup_abs.
Qed.

Lemma carveout_abs r raws p s : abs r → abs p → carveout r raws p = Some s → abs s.
Proof.
  intros Hr Hp. unfold carveout.
  assert (abs (normalize_effective_absolute_path p)) by by apply normalize_effective_abs.
  set (raw := if match parent r with Some _ => true | None => false end then _ else None).
  assert (∀ x, raw = Some x → abs x) as Hraw.
  { subst raw. intros x. destruct (parent r); [|done]. case_bool_decide; [done|].
    destruct (path_starts_with p r); [by intros [= <-]|].
    intros Hx%head_Some_elem_of. apply list_elem_of_omap in Hx as (a & _ & Hx).
    destruct (path_strip_prefix p a); [|done]. case_bool_decide; [done|].
    eapply resolve_path_normal; [exact Hr|exact Hx]. }
  destruct raw as [x|]; [intros [= <-]; by apply Hraw|].
  destruct (_ || _); [done|]. by intros [= <-].
Qed.

Variable cwd : Path.
Hypothesis Hcwd : abs cwd.
Variable self : FileSystemSandboxPolicy.
Hypothesis Hwf : forallb entry_wf (entries self) = true.
Abbreviation entry_abs := (λ e : ResolvedFileSystemEntry, abs (resolved_path e)).

Lemma resolved_abs : Forall entry_abs (resolved cwd self).
Proof. apply Forall_forall. intros e He. by eapply resolved_normal. Qed.

(** The access of a resolved entry's path, whatever the kind of the policy. *)
Lemma access_returns p :
  abs p → ∃ a, resolve_access_with_cwd self p cwd = Ok a.
Proof.
  intros Hp. destruct (kind self) eqn:Hk; try (by exists AccessWrite; unfold resolve_access_with_cwd; rewrite Hk).
  eexists. by apply access_normal.
Qed.

Lemma filterM_access g (f : FileSystemAccessMode → bool) l :
  (∀ e, g e = f <$> resolve_access_with_cwd self (resolved_path e) cwd) →
  Forall entry_abs l → returns_all entry_abs (filterM g l).
Proof.
  intros Hg Hl. rewrite (filterM_Ok _ (λ e, match g e with Ok b => b | _ => false end)).
  - eexists. split; [done|]. by apply Forall_filterb.
  - intros e He. rewrite Hg. rewrite Forall_forall in Hl.
    by destruct (access_returns (resolved_path e)) as [a ->]; [apply Hl|].
Qed.

Lemma fmap_negb (o : outcome io_Error FileSystemAccessMode) f :
  negb <$> (f <$> o) = (λ a, negb (f a)) <$> o.
Proof. by destruct o. Qed.

(** The entries of one kind of access that the whole policy agrees with. *)
Lemma filtered_abs g (f : FileSystemAccessMode → bool) h :
  (∀ e, g e = f <$> resolve_access_with_cwd self (resolved_path e) cwd) →
  returns_all entry_abs (filterM g (List.filter h (resolved cwd self))).
Proof. intros Hg. eapply filterM_access; [done|]. apply Forall_filterb, resolved_abs. Qed.

Lemma readable_roots_abs : returns_all abs (get_readable_roots_with_cwd self cwd).
Proof.
  unfold get_readable_roots_with_cwd. destruct (has_full_disk_read_access self); [by exists []|].
  rewrite resolved_entries_Ok by done. cbn.
  edestruct (filtered_abs (λ e, can_read_path_with_cwd self (resolved_path e) cwd)) as (l & -> & Habs);
    [done|].
  eexists. split; [done|]. apply dedup_abs. by apply Forall_fmap.
Qed.

Lemma unreadable_roots_abs : returns_all abs (get_unreadable_roots_with_cwd self cwd).
Proof.
  unfold get_unreadable_roots_with_cwd. destruct (negb (is_restricted self)); [by exists []|].
  rewrite cwd_absolute, absolute_root_Ok by done. cbn.
  rewrite resolved_entries_Ok by done. cbn.
  edestruct (filtered_abs (λ e, negb <$> can_read_path_with_cwd self (resolved_path e) cwd))
    as (l & -> & Habs); [intros; apply fmap_negb|].
  eexists. split; [done|]. apply dedup_abs, Forall_fmap. by apply Forall_filterb.
Qed.

Lemma writable_roots_abs : returns_all root_wf (get_writable_roots_with_cwd self cwd).
Proof.
  unfold get_writable_roots_with_cwd. destruct (has_full_disk_write_access self); [by exists []|].
  rewrite resolved_entries_Ok by done. cbn -[mapM].
  edestruct (filtered_abs (λ e, can_write_path_with_cwd self (resolved_path e) cwd)) as (l & -> & Habs);
    [done|]. cbn -[mapM].
  apply (returns_all_mapM abs); [apply dedup_abs; by apply Forall_fmap|].
  intros r Hr. destruct (defaults_abs r Hr) as (ds & -> & Hds). cbn.
  edestruct (filtered_abs (λ e, negb <$> can_write_path_with_cwd self (resolved_path e) cwd))
    as (n & -> & Hn); [intros; apply fmap_negb|].
  eexists. split; [done|]. split; [done|]. apply dedup_abs. apply Forall_app. split; [done|].
  apply Forall_forall. intros x (e & He & Hx)%list_elem_of_omap.
  rewrite Forall_forall in Hn. by eapply carveout_abs; [..|exact Hx]; [|apply Hn].
Qed.
End Typed.

(** C40: the permission results have the type the sandboxes rely on.  For a
    normal absolute working directory and a policy whose explicit paths are
    [AbsolutePathBuf]s, [semantic_signature] does not panic, and every readable
    root, unreadable root and writable root it returns, and every read-only
    subpath of a writable root, is an absolute path without [.] and [..],
    whatever symbolic links and Git pointer files the file system has. *)
Theorem signature_typed `{PathLaws} (self : FileSystemSandboxPolicy) (cwd : Path) :
  normal_abs cwd = true → forallb entry_wf (entries self) = true →
  ∃ sig, semantic_signature self cwd = Ok sig ∧ signature_wf sig.
Proof.
  intros Hcwd Hwf. unfold semantic_signature.
  destruct (readable_roots_abs cwd Hcwd self Hwf) as (rs & -> & Hrs). cbn.
  destruct (writable_roots_abs cwd Hcwd self Hwf) as (ws & -> & Hws). cbn.
  destruct (unreadable_roots_abs cwd Hcwd self Hwf) as (us & -> & Hus). cbn.
  eexists. by split.
Qed.

Lemma signature_typed_witness :
  ∃ sig, semantic_signature sample_policy sample_cwd = Ok sig ∧ signature_wf sig
    ∧ sig_writable_roots sig ≠ [].
Proof.
  destruct (signature_typed sample_policy sample_cwd) as (sig & Hsig & Hwf);
    [vm_compute; reflexivity..|].
  exists sig. split; [exact Hsig|]. split; [exact Hwf|].
  intros E. assert (Hs : semantic_signature sample_policy sample_cwd = Ok sig) by exact Hsig.
  vm_compute in Hs. injection Hs as <-. discriminate E.
Defined.
