(* ===== verification/Safety.v ===== *)
(** * Approval of patches: [core/src/safety.rs]

    [assess_patch_safety] decides whether a patch is applied without asking,
    after asking, or not at all.  The platform is an argument. *)
From stdpp Require Import base tactics option list sets numbers strings.
From S2P Require Import Prelude RustStr Paths Permissions.

(** ** Data *)
Inductive ApplyPatchFileChange : Type :=
  | Add (content : str)
  | Delete (content : str)
  | Update (unified_diff : str) (move_path : option Path) (new_content : str).

(** [changes] is a hash map; the code only walks over its pairs. *)
Record ApplyPatchAction : Type := {
  changes : list (Path * ApplyPatchFileChange);
  patch : str;
  cwd : Path;
}.

Record GranularApprovalConfig : Type := {
  sandbox_approval : bool;
  rules : bool;
  skill_approval : bool;
  request_permissions : bool;
  mcp_elicitations : bool;
}.

Inductive AskForApproval : Type :=
  | UnlessTrusted
  | OnFailure
  | OnRequest
  | Granular (config : GranularApprovalConfig)
  | Never.

Inductive SandboxType : Type :=
  | SandboxNone
  | MacosSeatbelt
  | LinuxSeccomp
  | WindowsRestrictedToken.

Inductive WindowsSandboxLevel : Type := Disabled | RestrictedToken | Elevated.

Inductive target_os : Type := macos | linux | windows | other_os.

Inductive SafetyCheck : Type :=
  | AutoApprove (sandbox_type : SandboxType) (user_explicitly_approved : bool)
  | AskUser
  | Reject (reason : str).

#[export] Instance WindowsSandboxLevel_eq_dec : EqDecision WindowsSandboxLevel.
Proof. solve_decision. Defined.

(** ** Operations *)
Definition is_empty (action : ApplyPatchAction) : bool := bool_decide (changes action = []).

(** [core/src/util.rs]. *)
Definition resolve_path (base path : Path) : Path :=
  if is_absolute path then path else path_join base path.

(** The local function [normalize]: [PathBuf::pop] and [PathBuf::push]. *)
Definition path_pop (out : Path) : Path :=
  match parent out with Some p => p | None => out end.

Definition path_push (out : Path) (comp : Component) : Path :=
  match comp with RootDir => [RootDir] | _ => out ++ [comp] end.

Definition normalize (path : Path) : option Path :=
  Some (foldl (λ out comp,
    match comp with
    | ParentDir => path_pop out
    | CurDir => out
    | other => path_push out other
    end) [] path).

Section Safety.
Context `{PathEnv}.
Abbreviation result A := (outcome io_Error A).

(** The closure [is_path_writable]. *)
Definition is_patch_path_writable (policy : FileSystemSandboxPolicy) (cwd p : Path) : result bool :=
  match normalize (resolve_path cwd p) with
  | Some abs => can_write_path_with_cwd policy abs cwd
  | None => Ok false
  end.

Definition is_change_writable (policy : FileSystemSandboxPolicy) (cwd : Path)
    (change : Path * ApplyPatchFileChange) : result bool :=
  writable ← is_patch_path_writable policy cwd change.1;
  if negb writable then Ok false
  else match change.2 with
       | Add _ | Delete _ => Ok true
       | Update _ move_path _ =>
           match move_path with
           | Some dest => is_patch_path_writable policy cwd dest
           | None => Ok true
           end
       end.

(** The loop over the changes, with its early returns. *)
Fixpoint all_changes_writable (policy : FileSystemSandboxPolicy) (cwd : Path)
    (changes : list (Path * ApplyPatchFileChange)) : result bool :=
  match changes with
  | [] => Ok true
  | change :: changes' =>
      writable ← is_change_writable policy cwd change;
      if negb writable then Ok false else all_changes_writable policy cwd changes'
  end.

Definition is_write_patch_constrained_to_writable_paths (action : ApplyPatchAction)
    (policy : FileSystemSandboxPolicy) (cwd : Path) : result bool :=
  all_changes_writable policy cwd (changes action).

Definition get_platform_sandbox (os : target_os) (windows_sandbox_enabled : bool) :
    option SandboxType :=
  match os with
  | macos => Some MacosSeatbelt
  | linux => Some LinuxSeccomp
  | windows => if windows_sandbox_enabled then Some WindowsRestrictedToken else None
  | other_os => None
  end.

Definition rejects_sandbox_approval (policy : AskForApproval) : bool :=
  match policy with
  | Never => true
  | Granular config => negb (sandbox_approval config)
  | _ => false
  end.

Definition outside_project_reason : str :=
  lit "writing outside of the project; rejected by user approval settings".

Definition assess_patch_safety (os : target_os) (action : ApplyPatchAction)
    (policy : AskForApproval) (sandbox_policy : SandboxPolicy)
    (file_system_sandbox_policy : FileSystemSandboxPolicy) (cwd : Path)
    (windows_sandbox_level : WindowsSandboxLevel) : result SafetyCheck :=
  if is_empty action then Ok (Reject (lit "empty patch"))
  else match policy with
  | UnlessTrusted => Ok AskUser
  | OnFailure | Never | OnRequest | Granular _ =>
      let ask_or_reject :=
        if rejects_sandbox_approval policy then Reject outside_project_reason else AskUser in
      constrained ← is_write_patch_constrained_to_writable_paths action
                      file_system_sandbox_policy cwd;
      if constrained || match policy with OnFailure => true | _ => false end then
        match sandbox_policy with
        | DangerFullAccess | ExternalSandbox _ => Ok (AutoApprove SandboxNone false)
        | _ =>
            match get_platform_sandbox os
                    (negb (bool_decide (windows_sandbox_level = Disabled))) with
            | Some sandbox_type => Ok (AutoApprove sandbox_type false)
            | None => Ok ask_or_reject
            end
        end
      else Ok ask_or_reject
  end.
End Safety.

(** ** What approval guarantees *)

(** The paths a change writes: the file, and where it is moved to. *)
Definition touched (change : Path * ApplyPatchFileChange) : list Path :=
  change.1 :: match change.2 with Update _ (Some dest) _ => [dest] | _ => [] end.

(** A path of the patch as the sandbox sees it, [.] and [..] resolved without
    the file system. *)
Definition patch_target (cwd p : Path) : Path := lexical (resolve_path cwd p).

Lemma normalize_absolute p : is_absolute p = true → normalize p = Some (lexical p).
Proof.
  destruct p as [|[] p]; try done. intros _. unfold normalize, lexical. cbn [foldl].
  cbn [path_push lexical_step]. f_equal.
  assert (is_absolute [RootDir] = true) as Hq by done. revert Hq. generalize [RootDir].
  induction p as [|c p IH]; intros q Hq; [done|]. cbn [foldl]. rewrite IH.
  - by destruct c.
  - destruct c; try done; [|destruct q as [|[]]; done].
    unfold path_pop, parent. destruct q as [|c q _] using rev_ind; [done|].
    rewrite reverse_snoc, reverse_involutive. destruct c; try done; by destruct q.
Qed.

Section Approval.
Context `{PathLaws}.
Variables (pol : FileSystemSandboxPolicy) (dir : Path).
Hypothesis Hdir : normal_abs dir = true.

Lemma resolve_path_absolute p : is_absolute (resolve_path dir p) = true.
Proof.
  unfold resolve_path. destruct (is_absolute p) eqn:E; [done|].
  apply normal_abs_spec in Hdir as [names ->]. unfold path_join. rewrite E. by destruct p as [|[]].
Qed.

Lemma is_patch_path_writable_Ok p :
  is_patch_path_writable pol dir p = can_write_path_with_cwd pol (patch_target dir p) dir.
Proof.
  unfold is_patch_path_writable, patch_target. by rewrite normalize_absolute by apply resolve_path_absolute.
Qed.

Lemma patch_target_decided p : ∃ b, can_write_path_with_cwd pol (patch_target dir p) dir = Ok b.
Proof.
  unfold can_write_path_with_cwd.
  destruct (resolve_access_spec pol (patch_target dir p) dir Hdir) as (a & -> & _). cbn. eauto.
Qed.

Lemma all_changes_writable_Ok cs :
  ∃ b, all_changes_writable pol dir cs = Ok b ∧
  (b = true ↔ ∀ c p, c ∈ cs → p ∈ touched c →
     can_write_path_with_cwd pol (patch_target dir p) dir = Ok true).
Proof.
  induction cs as [|c cs (b & Hb & Hiff)]; [exists true; split; [done|]; set_solver|].
  cbn [all_changes_writable]. unfold is_change_writable. rewrite is_patch_path_writable_Ok.
  destruct (patch_target_decided c.1) as [w Hw]. rewrite Hw.
  cbn [mbind outcome_bind]. destruct w; cbn [negb]; [|exists false; split; [done|]; split; [done|]].
  2: { intros Hall. specialize (Hall c c.1). rewrite Hw in Hall.
       by discriminate Hall; unfold touched; set_solver. }
  assert ((∀ c0 p, c0 ∈ c :: cs → p ∈ touched c0 →
       can_write_path_with_cwd pol (patch_target dir p) dir = Ok true) ↔
    (∀ p, p ∈ touched c → can_write_path_with_cwd pol (patch_target dir p) dir = Ok true) ∧
    (∀ c0 p, c0 ∈ cs → p ∈ touched c0 →
       can_write_path_with_cwd pol (patch_target dir p) dir = Ok true)) as Hcons.
  { set_solver. }
  setoid_rewrite Hcons. unfold touched at 1.
  destruct (c.2) as [?|?|? [dest|] ?]; cbn [mbind outcome_bind negb].
  1,2,4: exists b; split; [done|]; rewrite Hiff; set_solver.
  rewrite is_patch_path_writable_Ok. destruct (patch_target_decided dest) as [w Hw']. rewrite Hw'.
  destruct w; cbn.
  - exists b. split; [done|]. rewrite Hiff. set_solver.
  - exists false. split; [done|]. split; [done|]. intros [Hd _].
    rewrite Hd in Hw' by set_solver. done.
Qed.
End Approval.

Lemma patch_check_meaning `{PathLaws} os action policy sandbox pol dir level :
  normal_abs dir = true →
  ∃ check, assess_patch_safety os action policy sandbox pol dir level = Ok check ∧
  (∀ st explicit, check = AutoApprove st explicit →
     explicit = false ∧ changes action ≠ [] ∧ policy ≠ UnlessTrusted ∧
     (policy ≠ OnFailure → ∀ c p, c ∈ changes action → p ∈ touched c →
        can_write_path_with_cwd pol (patch_target dir p) dir = Ok true) ∧
     (if legacy_has_full_disk_write_access sandbox then st = SandboxNone
      else st ≠ SandboxNone ∧
           get_platform_sandbox os (negb (bool_decide (level = Disabled))) = Some st)) ∧
  (check = AskUser → changes action ≠ [] ∧ rejects_sandbox_approval policy = false) ∧
  (∀ reason, check = Reject reason → changes action = [] ∨ rejects_sandbox_approval policy = true) ∧
  (policy = UnlessTrusted → changes action ≠ [] → check = AskUser).
Proof.
  intros Hdir. unfold assess_patch_safety, is_empty.
  case_bool_decide as Hempty; [eexists; split; [done|]; naive_solver|].
  destruct (all_changes_writable_Ok pol dir Hdir (changes action)) as (b & Hb & Hiff).
  unfold is_write_patch_constrained_to_writable_paths. rewrite Hb. cbn [mbind outcome_bind].
  destruct policy as [| | |config|].
  1: eexists; split; [done|]; naive_solver.
  all: destruct b; cbn [orb].
  all: try (eexists; split; [done|]; cbn; try destruct (sandbox_approval config); naive_solver).
  all: destruct sandbox; cbn [legacy_has_full_disk_write_access].
  all: try (eexists; split; [done|]; naive_solver).
  all: destruct os; cbn [get_platform_sandbox]; try case_bool_decide; cbn.
  all: try destruct (sandbox_approval config) eqn:?.
  all: eexists; split; [done|]; naive_solver.
Qed.

(** A patch is applied without asking only when nothing of it is outside
    what the policies allow: unless the approval policy is [OnFailure], every
    path it writes or moves to, resolved against the working directory, is
    writable; the sandbox is the platform's, or none when the sandbox policy
    asks for none.  An empty patch is rejected, [UnlessTrusted] always asks,
    and a policy that forbids asking never asks. *)
Theorem assess_patch_safety_spec `{PathLaws} os action policy sandbox pol dir level :
  normal_abs dir = true →
  ∃ check, assess_patch_safety os action policy sandbox pol dir level = Ok check ∧
  (∀ st explicit, check = AutoApprove st explicit →
     explicit = false ∧ changes action ≠ [] ∧ policy ≠ UnlessTrusted ∧
     (policy ≠ OnFailure → ∀ c p, c ∈ changes action → p ∈ touched c →
        can_write_path_with_cwd pol (patch_target dir p) dir = Ok true) ∧
     (if legacy_has_full_disk_write_access sandbox then st = SandboxNone
      else st ≠ SandboxNone ∧
           get_platform_sandbox os (negb (bool_decide (level = Disabled))) = Some st)) ∧
  (check = AskUser → changes action ≠ [] ∧ rejects_sandbox_approval policy = false) ∧
  (∀ reason, check = Reject reason → changes action = [] ∨ rejects_sandbox_approval policy = true) ∧
  (policy = UnlessTrusted → changes action ≠ [] → check = AskUser).
Proof. apply patch_check_meaning. Qed.

Definition sample_action : ApplyPatchAction :=
  {| changes := [(path_of_str (lit "src/../a.rs"),
                  Update [] (Some (path_of_str (lit "b.rs"))) [])];
     patch := []; cwd := sample_cwd |}.

Lemma assess_patch_safety_witness :
  assess_patch_safety linux sample_action OnRequest new_workspace_write_policy sample_policy
    sample_cwd Disabled = Ok (AutoApprove LinuxSeccomp false) ∧
  can_write_path_with_cwd sample_policy (sample_cwd ++ [Normal (lit "b.rs")]) sample_cwd = Ok true.
Proof.
  destruct (assess_patch_safety_spec linux sample_action OnRequest new_workspace_write_policy
    sample_policy sample_cwd Disabled eq_refl) as (check & Hc & Happrove & _).
  assert (check = AutoApprove LinuxSeccomp false) as -> by (vm_compute in Hc; congruence).
  split; [exact Hc|].
  destruct (Happrove _ _ eq_refl) as (_ & _ & _ & Hw & _).
  apply (Hw ltac:(discriminate) _ (path_of_str (lit "b.rs")) (list_elem_of_here _ _)).
  apply list_elem_of_further, list_elem_of_here.
Defined.
