(* ===== verification/BashParse.v ===== *)
(** * Plain commands of a shell script: [shell-command/src/bash.rs] and
    [shell-command/src/shell_detect.rs]

    The parser is tree-sitter's: a tree is data here, and the function that
    produces it an argument.  The traversals of the code use an explicit stack
    and are modelled with it; the theorems say what they compute in terms of
    the tree. *)
From stdpp Require Import base tactics option list sets numbers strings sorting.
From S2P Require Import Prelude RustStr Paths.

(** ** Syntax trees *)

(** A [tree_sitter::Node]: its grammar kind, whether the kind is named, its
    range in the source, whether the subtree contains a syntax error, and its
    children. *)
Inductive Node : Type :=
  MkNode (kind : str) (named : bool) (start_byte end_byte : nat) (error : bool)
    (children : list Node).

Definition node_kind (n : Node) : str := let '(MkNode k _ _ _ _ _) := n in k.
Definition is_named (n : Node) : bool := let '(MkNode _ b _ _ _ _) := n in b.
Definition start_byte (n : Node) : nat := let '(MkNode _ _ s _ _ _) := n in s.
Definition end_byte (n : Node) : nat := let '(MkNode _ _ _ e _ _) := n in e.
Definition has_error (n : Node) : bool := let '(MkNode _ _ _ _ b _) := n in b.
Definition children (n : Node) : list Node := let '(MkNode _ _ _ _ _ c) := n in c.
Definition named_children (n : Node) : list Node := List.filter is_named (children n).

(** [Node::utf8_text]: the slice of the source a node spans. *)
Definition utf8_text (n : Node) (src : str) : option str :=
  if (start_byte n <=? end_byte n) && (end_byte n <=? length src)
  then Some (take (end_byte n - start_byte n) (drop (start_byte n) src)) else None.

Definition is_kind (k : string) (n : Node) : bool := bool_decide (node_kind n = lit k).

(** ** Shells *)
Inductive ShellType : Type := Zsh | Bash | PowerShell | Sh | Cmd.

(** [Path::file_name] and [Path::file_stem] of a string. *)
Definition file_name_str (s : str) : option str := path_file_name (path_of_str s).

Definition DOT : char := 46%N.

(** The part before the last dot, unless that is empty or there is no dot. *)
Definition stem_of (name : str) : str :=
  match find [DOT] (reverse name) with
  | Some i => let before := reverse (drop (S i) (reverse name)) in
              if bool_decide (before = []) then name else before
  | None => name
  end.

Definition file_stem (s : str) : option str := stem_of <$> file_name_str s.

(** The recursion goes to a shorter path each time; it gets one more unit of
    fuel than the path has characters. *)
Fixpoint detect_shell_type_fuel (fuel : nat) (shell_path : str) :
    outcome False (option ShellType) :=
  match fuel with
  | O => NoFuel
  | S fuel' =>
      if bool_decide (shell_path = lit "zsh") then Ok (Some Zsh)
      else if bool_decide (shell_path = lit "sh") then Ok (Some Sh)
      else if bool_decide (shell_path = lit "cmd") then Ok (Some Cmd)
      else if bool_decide (shell_path = lit "bash") then Ok (Some Bash)
      else if bool_decide (shell_path = lit "pwsh") then Ok (Some PowerShell)
      else if bool_decide (shell_path = lit "powershell") then Ok (Some PowerShell)
      else match file_stem shell_path with
           | Some shell_name =>
               if bool_decide (path_of_str shell_name = path_of_str shell_path) then Ok None
               else detect_shell_type_fuel fuel' shell_name
           | None => Ok None
           end
  end.

Definition detect_shell_type (shell_path : str) : option ShellType :=
  match detect_shell_type_fuel (S (length shell_path)) shell_path with
  | Ok t => t
  | _ => None
  end.

(** ** Words of a plain command *)
Definition strip_quotes (quote : char) (raw : str) : option str :=
  match strip_prefix [quote] raw with
  | Some text => strip_suffix [quote] text
  | None => None
  end.

Definition parse_double_quoted_string (node : Node) (src : str) : option str :=
  if negb (is_kind "string" node) then None
  else if negb (forallb (is_kind "string_content") (named_children node)) then None
  else match utf8_text node src with
       | Some raw => strip_quotes 34%N raw
       | None => None
       end.

Definition parse_raw_string (node : Node) (src : str) : option str :=
  if negb (is_kind "raw_string" node) then None
  else match utf8_text node src with
       | Some raw_string => strip_quotes 39%N raw_string
       | None => None
       end.

(** A part of a concatenation. *)
Definition parse_concat_part (part : Node) (src : str) : option str :=
  if is_kind "word" part || is_kind "number" part then utf8_text part src
  else if is_kind "string" part then parse_double_quoted_string part src
  else if is_kind "raw_string" part then parse_raw_string part src
  else None.

(** The word a child of a command stands for. *)
Definition parse_plain_word (child : Node) (src : str) : option str :=
  if is_kind "command_name" child then
    match head (named_children child) with
    | Some word_node => if is_kind "word" word_node then utf8_text word_node src else None
    | None => None
    end
  else if is_kind "word" child || is_kind "number" child then utf8_text child src
  else if is_kind "string" child then parse_double_quoted_string child src
  else if is_kind "raw_string" child then parse_raw_string child src
  else if is_kind "concatenation" child then
    match mapM (λ part, parse_concat_part part src) (named_children child) with
    | Some parts =>
        let concatenated := mjoin parts in
        if bool_decide (concatenated = []) then None else Some concatenated
    | None => None
    end
  else None.

Definition parse_plain_command_from_node (cmd : Node) (src : str) : option (list str) :=
  if negb (is_kind "command" cmd) then None
  else mapM (λ child, parse_plain_word child src) (named_children cmd).

(** ** Scripts of plain commands *)
Definition ALLOWED_KINDS : list str :=
  [lit "program"; lit "list"; lit "pipeline"; lit "command"; lit "command_name"; lit "word";
   lit "string"; lit "string_content"; lit "raw_string"; lit "number"; lit "concatenation"].

Definition ALLOWED_PUNCT_TOKENS : list str :=
  [lit "&&"; lit "||"; lit ";"; lit "|"; [34%N]; lit "'"].

(** The tests the loop body makes on a node; [false] is [return None]. *)
Definition node_allowed (node : Node) : bool :=
  let kind := node_kind node in
  if is_named node then bool_decide (kind ∈ ALLOWED_KINDS)
  else if existsb (λ c, bool_decide (c ∈ lit "&;|")) kind
          && negb (bool_decide (kind ∈ ALLOWED_PUNCT_TOKENS)) then false
  else bool_decide (kind ∈ ALLOWED_PUNCT_TOKENS) || bool_decide (trim kind = []).

(** The number of nodes, the bound on the rounds of a traversal. *)
Fixpoint node_size (n : Node) : nat :=
  let '(MkNode _ _ _ _ _ c) := n in S (sum_list (node_size <$> c)).

(** The loop: the head of [stack] is the top of the code's vector. *)
Fixpoint collect_commands (fuel : nat) (stack command_nodes : list Node) :
    outcome False (option (list Node)) :=
  match fuel, stack with
  | _, [] => Ok (Some command_nodes)
  | O, _ :: _ => NoFuel
  | S fuel', node :: stack' =>
      if negb (node_allowed node) then Ok None
      else
        let command_nodes' :=
          if is_named node && is_kind "command" node then command_nodes ++ [node]
          else command_nodes in
        collect_commands fuel' (reverse (children node) ++ stack') command_nodes'
  end.

(** [sort_by_key(Node::start_byte)], a stable sort. *)
Definition sort_by_start (l : list Node) : list Node := sort_by_key start_byte l.

Definition try_parse_word_only_commands_sequence (root : Node) (src : str) :
    option (list (list str)) :=
  if has_error root then None
  else match collect_commands (node_size root) [root] [] with
       | Ok (Some command_nodes) =>
           mapM (λ node, parse_plain_command_from_node node src) (sort_by_start command_nodes)
       | _ => None
       end.

(** ** Scripts with a here-document *)
Definition is_literal_word_or_number (node : Node) : bool :=
  if negb (is_kind "word" node || is_kind "number" node) then false
  else match named_children node with [] => true | _ => false end.

Definition is_allowed_heredoc_attachment_kind (kind : str) : bool :=
  bool_decide (kind ∈ [lit "heredoc_body"; lit "simple_heredoc_body"; lit "heredoc_redirect";
                       lit "herestring_redirect"; lit "file_redirect"; lit "redirected_statement"]).

(** The words of one child: [None] rejects the command. *)
Definition parse_heredoc_child (child : Node) (src : str) : option (list str) :=
  if is_kind "command_name" child then
    match head (named_children child) with
    | Some word_node =>
        if negb (is_kind "word" word_node || is_kind "number" word_node)
           || negb (is_literal_word_or_number word_node) then None
        else (λ w, [w]) <$> utf8_text word_node src
    | None => None
    end
  else if is_kind "word" child || is_kind "number" child then
    if negb (is_literal_word_or_number child) then None
    else (λ w, [w]) <$> utf8_text child src
  else if is_kind "variable_assignment" child || is_kind "comment" child then Some []
  else if is_allowed_heredoc_attachment_kind (node_kind child) then Some []
  else None.

Definition parse_heredoc_command_words (cmd : Node) (src : str) : option (list str) :=
  if negb (is_kind "command" cmd) then None
  else match mapM (λ child, parse_heredoc_child child src) (named_children cmd) with
       | Some words =>
           let words := mjoin words in
           if bool_decide (words = []) then None else Some words
       | None => None
       end.

Fixpoint find_single_loop (fuel : nat) (stack : list Node) (single_command : option Node) :
    outcome False (option Node) :=
  match fuel, stack with
  | _, [] => Ok single_command
  | O, _ :: _ => NoFuel
  | S fuel', node :: stack' =>
      if is_kind "command" node then
        match single_command with
        | Some _ => Ok None
        | None => find_single_loop fuel' (reverse (named_children node) ++ stack') (Some node)
        end
      else find_single_loop fuel' (reverse (named_children node) ++ stack') single_command
  end.

Definition find_single_command_node (root : Node) : option Node :=
  match find_single_loop (node_size root) [root] None with Ok n => n | _ => None end.

Fixpoint has_kind_loop (fuel : nat) (stack : list Node) (kind : str) : outcome False bool :=
  match fuel, stack with
  | _, [] => Ok false
  | O, _ :: _ => NoFuel
  | S fuel', current :: stack' =>
      if bool_decide (node_kind current = kind) then Ok true
      else has_kind_loop fuel' (reverse (named_children current) ++ stack') kind
  end.

Definition has_named_descendant_kind (node : Node) (kind : str) : bool :=
  match has_kind_loop (node_size node) [node] kind with Ok b => b | _ => false end.

(** ** Shell invocations *)
Definition extract_bash_command (command : list str) : option (str * str) :=
  match command with
  | [shell; flag; script] =>
      if negb (bool_decide (flag = lit "-lc") || bool_decide (flag = lit "-c")) then None
      else match detect_shell_type shell with
           | Some (Zsh | Bash | Sh) => Some (shell, script)
           | _ => None
           end
  | _ => None
  end.

Section Invocations.
(** [try_parse_shell]: tree-sitter with its bash grammar. *)
Variable try_parse_shell : str → option Node.

Definition parse_shell_lc_plain_commands (command : list str) : option (list (list str)) :=
  match extract_bash_command command with
  | None => None
  | Some (_, script) =>
      match try_parse_shell script with
      | None => None
      | Some tree => try_parse_word_only_commands_sequence tree script
      end
  end.

Definition parse_shell_lc_single_command_prefix (command : list str) : option (list str) :=
  match extract_bash_command command with
  | None => None
  | Some (_, script) =>
      match try_parse_shell script with
      | None => None
      | Some root =>
          if has_error root then None
          else if negb (has_named_descendant_kind root (lit "heredoc_redirect")) then None
          else match find_single_command_node root with
               | None => None
               | Some command_node => parse_heredoc_command_words command_node script
               end
      end
  end.
End Invocations.

(** ** Traversals *)
Lemma Node_rect' (P : Node → Prop) :
  (∀ k b s e err c, Forall P c → P (MkNode k b s e err c)) → ∀ n, P n.
Proof.
  intros IH. fix go 1. intros [k b s e err c]. apply IH.
  induction c as [|n c IHc]; constructor; [apply go|apply IHc].
Qed.

(** The nodes of a tree in source order, in the order in which a stack visits
    them, and the latter through named children only. *)
Fixpoint preorder (n : Node) : list Node :=
  let '(MkNode _ _ _ _ _ c) := n in n :: mjoin (preorder <$> c).

Fixpoint visit (n : Node) : list Node :=
  let '(MkNode _ _ _ _ _ c) := n in n :: mjoin (reverse (visit <$> c)).

Fixpoint visit_named (n : Node) : list Node :=
  let '(MkNode _ _ _ _ _ c) := n in
  n :: mjoin (reverse ((λ m, if is_named m then visit_named m else []) <$> c)).

Lemma mjoin_Permutation {A} (l k : list (list A)) : l ≡ₚ k → mjoin l ≡ₚ mjoin k.
Proof.
  induction 1 as [|x l k _ IH|x y l|]; cbn.
  - done.
  - by apply Permutation_app_head.
  - rewrite !(assoc_L (++)). apply Permutation_app_tail, Permutation_app_comm.
  - by etrans.
Qed.

Lemma visit_preorder n : visit n ≡ₚ preorder n.
Proof.
  induction n as [k b s e err c IH] using Node_rect'. simpl. constructor.
  rewrite (mjoin_Permutation _ _ (reverse_Permutation _)).
  induction IH as [|m c Hm _ IH]; [done|]. simpl. by apply Permutation_app.
Qed.

Lemma mjoin_filter_named {A} (f : Node → list A) c :
  mjoin (f <$> reverse (List.filter is_named c)) =
  mjoin (reverse ((λ m, if is_named m then f m else []) <$> c)).
Proof.
  induction c as [|m c IH]; [done|]. cbn [fmap list_fmap List.filter].
  rewrite reverse_cons, join_app. destruct (is_named m).
  - rewrite reverse_cons, fmap_app, join_app, IH. done.
  - rewrite IH. cbn. by rewrite app_nil_r.
Qed.

(** The size bounds what is left on the stack. *)
Definition stack_size (l : list Node) : nat := sum_list (node_size <$> l).

Lemma stack_size_app l k : stack_size (l ++ k) = stack_size l + stack_size k.
Proof. induction l as [|n l IH]; [done|]. unfold stack_size in *. cbn in *. lia. Qed.

Lemma stack_size_perm l k : l ≡ₚ k → stack_size l = stack_size k.
Proof. induction 1; unfold stack_size in *; cbn in *; lia. Qed.

Lemma stack_size_reverse l : stack_size (reverse l) = stack_size l.
Proof. apply stack_size_perm, reverse_Permutation. Qed.

Lemma stack_size_filter f l : stack_size (List.filter f l) ≤ stack_size l.
Proof.
  unfold stack_size. induction l as [|n l IH]; [done|].
  cbn [List.filter]. destruct (f n); cbn in *; lia.
Qed.

Lemma node_size_children n : node_size n = S (stack_size (children n)).
Proof. by destruct n. Qed.

Lemma stack_size_cons n l : stack_size (n :: l) = S (stack_size (children n) + stack_size l).
Proof. unfold stack_size at 1. simpl. rewrite node_size_children. done. Qed.

Lemma stack_size_named n : stack_size (named_children n) ≤ stack_size (children n).
Proof. apply stack_size_filter. Qed.

Definition visits (l : list Node) : list Node := mjoin (visit <$> l).
Definition visits_named (l : list Node) : list Node := mjoin (visit_named <$> l).

Lemma visits_cons n l : visits (n :: l) = n :: visits (reverse (children n) ++ l).
Proof.
  unfold visits. rewrite fmap_app, join_app, fmap_reverse. by destruct n.
Qed.

Lemma visits_named_cons n l :
  visits_named (n :: l) = n :: visits_named (reverse (named_children n) ++ l).
Proof.
  unfold visits_named, named_children. rewrite fmap_app, join_app, mjoin_filter_named.
  by destruct n.
Qed.

Definition is_command (n : Node) : bool := is_named n && is_kind "command" n.

Lemma collect_commands_spec fuel stack acc :
  stack_size stack ≤ fuel →
  collect_commands fuel stack acc =
  Ok (if forallb node_allowed (visits stack)
      then Some (acc ++ List.filter is_command (visits stack)) else None).
Proof.
  revert stack acc; induction fuel as [|fuel IH]; intros [|n stack] acc Hsize.
  1,3: simpl; by rewrite app_nil_r.
  { rewrite stack_size_cons in Hsize. lia. }
  assert (stack_size (reverse (children n) ++ stack) ≤ fuel) as Hle.
  { rewrite stack_size_app, stack_size_reverse. rewrite stack_size_cons in Hsize. lia. }
  rewrite visits_cons. cbn [collect_commands forallb List.filter]. fold (is_command n).
  destruct (node_allowed n); [|done]. cbn [negb andb]. rewrite IH by done.
  destruct (is_command n); [|done]. by rewrite <- app_assoc.
Qed.

Lemma has_kind_loop_spec fuel stack kind :
  stack_size stack ≤ fuel →
  has_kind_loop fuel stack kind =
  Ok (existsb (λ n, bool_decide (node_kind n = kind)) (visits_named stack)).
Proof.
  revert stack; induction fuel as [|fuel IH]; intros [|n stack] Hsize; try done.
  { rewrite stack_size_cons in Hsize. lia. }
  rewrite visits_named_cons. cbn [has_kind_loop existsb]. case_bool_decide; [done|].
  apply IH. rewrite stack_size_app, stack_size_reverse. rewrite stack_size_cons in Hsize.
  pose proof (stack_size_named n). lia.
Qed.

Lemma find_single_loop_spec fuel stack single :
  stack_size stack ≤ fuel →
  find_single_loop fuel stack single =
  Ok (match option_list single ++ List.filter (is_kind "command") (visits_named stack) with
      | [n] => Some n
      | _ => None
      end).
Proof.
  revert stack single; induction fuel as [|fuel IH]; intros [|n stack] single Hsize.
  1,3: by destruct single.
  { rewrite stack_size_cons in Hsize. lia. }
  assert (stack_size (reverse (named_children n) ++ stack) ≤ fuel) as Hle.
  { rewrite stack_size_app, stack_size_reverse. rewrite stack_size_cons in Hsize.
    pose proof (stack_size_named n). lia. }
  rewrite visits_named_cons. cbn [find_single_loop List.filter].
  destruct (is_kind "command" n); [|by apply IH].
  destruct single as [m|]; [done|]. by rewrite IH.
Qed.

(** ** Shell detection terminates *)
Lemma join_elem_length c (l : list str) x :
  x ∈ l → length x < length (RustStr.join [c] l) ∨ RustStr.join [c] l = x.
Proof.
  induction l as [|a l IH]; [by intros ?%not_elem_of_nil|].
  destruct l as [|b l]; [intros ->%list_elem_of_singleton; by right|].
  cbn [RustStr.join]. rewrite !length_app. intros [->|Hx]%elem_of_cons.
  - left. simpl. lia.
  - left. cbn [length]. destruct (IH Hx) as [?|<-]; cbn in *; lia.
Qed.

Lemma file_name_str_length s name :
  file_name_str s = Some name → length name < length s ∨ name = s.
Proof.
  unfold file_name_str, path_file_name. intros Hn.
  assert (Normal name ∈ path_of_str s) as Hin.
  { rewrite <- (reverse_involutive (path_of_str s)). apply elem_of_reverse.
    destruct (reverse (path_of_str s)) as [|[] r]; try done. simplify_eq. set_solver. }
  assert (Normal name ∈ omap segment (split SLASH s)) as Hseg.
  { unfold path_of_str in Hin. destruct s as [|c s]; [done|].
    destruct (split SLASH (c :: s)) as [|first rest]; [done|].
    repeat case_bool_decide; set_solver. }
  apply list_elem_of_omap in Hseg as (x & Hx & Hs). unfold segment in Hs.
  repeat case_bool_decide; simplify_eq.
  apply (join_elem_length SLASH) in Hx. rewrite join_split in Hx. naive_solver.
Qed.

Lemma stem_of_length name : length (stem_of name) < length name ∨ stem_of name = name.
Proof.
  unfold stem_of. destruct (find _ _) as [i|] eqn:Hf; [|by right].
  case_bool_decide; [by right|]. left.
  apply find_length in Hf. rewrite length_reverse in Hf. simpl in Hf.
  rewrite length_reverse, length_drop, length_reverse. lia.
Qed.

Lemma detect_shell_type_returns fuel s :
  length s < fuel → ∃ t, detect_shell_type_fuel fuel s = Ok t.
Proof.
  revert s; induction fuel as [|fuel IH]; intros s Hs; [lia|]. cbn [detect_shell_type_fuel].
  repeat (case_bool_decide; [by eauto|]).
  destruct (file_stem s) as [stem|] eqn:Hstem; [|by eauto].
  case_bool_decide as Heq; [by eauto|]. apply IH. unfold file_stem in Hstem.
  destruct (file_name_str s) as [name|] eqn:Hname; [|done]. simplify_eq/=.
  destruct (stem_of_length name) as [?|Hst], (file_name_str_length s name Hname) as [?| ->];
    [lia|lia|rewrite Hst; lia|]. by rewrite Hst in Heq.
Qed.

(** ** Sorting by position *)
Abbreviation start_le := (λ n m, start_byte n ≤ start_byte m).

(** Distinct positions leave only one sorted order. *)
Lemma sorted_unique l k :
  StronglySorted start_le l → StronglySorted (λ n m, start_byte n < start_byte m) k →
  l ≡ₚ k → l = k.
Proof.
  intros Hl Hk; revert l Hl. induction Hk as [|x k Hk IH Hx]; intros l Hl Hp.
  { by apply Permutation_nil_r. }
  destruct Hl as [|y l Hl Hy]; [by apply Permutation_nil_l in Hp|].
  rewrite Forall_forall in Hx, Hy.
  assert (y = x) as ->.
  { assert (y ∈ x :: k) as [->|Hyk]%elem_of_cons by (rewrite <- Hp; set_solver); [done|].
    assert (x ∈ y :: l) as [->|Hxl]%elem_of_cons by (rewrite Hp; set_solver); [done|].
    specialize (Hx y Hyk). specialize (Hy x Hxl). simpl in *. lia. }
  f_equal. apply IH; [done|]. by apply (Permutation_cons_inv (a := x)).
Qed.

Lemma filterb_perm {A} (f : A → bool) l k : l ≡ₚ k → List.filter f l ≡ₚ List.filter f k.
Proof.
  induction 1; simpl; [done| | |by etrans]; repeat destruct (f _); by constructor || done.
Qed.

(** ** What the parser of plain commands accepts *)
Lemma collect_commands_root root :
  collect_commands (node_size root) [root] [] =
  Ok (if forallb node_allowed (preorder root)
      then Some (List.filter is_command (visit root)) else None).
Proof.
  rewrite collect_commands_spec.
  2: { rewrite stack_size_cons, node_size_children. cbn. lia. }
  unfold visits. cbn [fmap list_fmap]. cbn [mjoin list_join]. rewrite app_nil_r.
  assert (forallb node_allowed (visit root) = forallb node_allowed (preorder root)) as ->; [|done].
  apply eq_true_iff_eq. rewrite !forallb_elem. by setoid_rewrite visit_preorder.
Qed.

(** A script is taken for a sequence of plain commands exactly when its tree
    has no error, every node is of an allowed kind (no redirection,
    substitution, subshell, assignment or control flow), and every command is
    made of literal words; the commands are then all the command nodes of the
    tree, in the order of their positions, and in source order when the
    positions of the command nodes increase. *)
Theorem word_only_commands_spec (root : Node) (src : str) :
  let commands := List.filter is_command (preorder root) in
  (is_Some (try_parse_word_only_commands_sequence root src) ↔
   has_error root = false ∧ (∀ n, n ∈ preorder root → node_allowed n = true) ∧
   ∀ n, n ∈ commands → is_Some (parse_plain_command_from_node n src)) ∧
  (∀ cmds, try_parse_word_only_commands_sequence root src = Some cmds →
   ∃ nodes, nodes ≡ₚ commands ∧ StronglySorted start_le nodes ∧
     Forall2 (λ n words, parse_plain_command_from_node n src = Some words) nodes cmds ∧
     (StronglySorted (λ n m, start_byte n < start_byte m) commands → nodes = commands)).
Proof.
  intros commands.
  set (sorted := sort_by_start (List.filter is_command (visit root))).
  assert (sorted ≡ₚ commands) as Hperm.
  { unfold sorted, sort_by_start. rewrite sort_by_key_perm. apply filterb_perm, visit_preorder. }
  assert (try_parse_word_only_commands_sequence root src =
    if negb (has_error root) && forallb node_allowed (preorder root)
    then mapM (λ n, parse_plain_command_from_node n src) sorted else None) as ->.
  { unfold try_parse_word_only_commands_sequence. rewrite collect_commands_root.
    by destruct (has_error root), (forallb node_allowed (preorder root)). }
  rewrite <- forallb_elem. split.
  - destruct (has_error root), (forallb node_allowed (preorder root)); cbn [negb andb];
      try (rewrite <- not_eq_None_Some; naive_solver).
    setoid_rewrite <- Hperm. rewrite <- Forall_forall. split.
    + intros Hs. split_and!; [done..|]. by apply mapM_is_Some_1 in Hs.
    + intros (_ & _ & Hs). by apply mapM_is_Some_2.
  - intros cmds Hc. exists sorted. destruct (negb _ && _); [|done].
    split_and!; [done|apply sort_by_key_sorted|by apply mapM_Some|].
    intros Hs. apply sorted_unique; [apply sort_by_key_sorted|done|done].
Qed.

(** The prefix taken from a script with a here-document is the argv of its
    only command: the tree has no error and a here-document redirection, one
    command among the named nodes, and all words of that command are literal. *)
Theorem single_command_prefix_spec try_parse_shell command words :
  parse_shell_lc_single_command_prefix try_parse_shell command = Some words ↔
  ∃ shell script root node,
    extract_bash_command command = Some (shell, script) ∧
    try_parse_shell script = Some root ∧ has_error root = false ∧
    (∃ n, n ∈ visit_named root ∧ node_kind n = lit "heredoc_redirect") ∧
    List.filter (is_kind "command") (visit_named root) = [node] ∧
    parse_heredoc_command_words node script = Some words.
Proof.
  assert (∀ root, visits_named [root] = visit_named root) as Hv.
  { intros root. unfold visits_named. cbn. by rewrite app_nil_r. }
  assert (∀ root, stack_size [root] ≤ node_size root) as Hsz.
  { intros root. rewrite stack_size_cons, node_size_children. cbn. lia. }
  unfold parse_shell_lc_single_command_prefix, has_named_descendant_kind, find_single_command_node.
  destruct (extract_bash_command command) as [[shell script]|]; [|naive_solver].
  destruct (try_parse_shell script) as [root|] eqn:Ht; [|naive_solver].
  rewrite has_kind_loop_spec, find_single_loop_spec, Hv by done. cbn [option_list app].
  destruct (has_error root) eqn:He.
  { split; [done|]. intros (? & ? & ? & ? & ? & ? & ? & _). simplify_eq. congruence. }
  destruct (existsb _ _) eqn:Hk; cbn [negb].
  - apply existsb_elem in Hk as (n & Hn & Hnk%bool_decide_eq_true).
    assert (∃ x, x ∈ visit_named root ∧ node_kind x = lit "heredoc_redirect") as Hex by eauto.
    clear n Hn Hnk. destruct (List.filter _ (visit_named root)) as [|m [|m' k]] eqn:Hf.
    2: split; [intros Hw; by exists shell, script, root, m|].
    1,3: split; [done|].
    all: intros (? & ? & root' & ? & Hx & Ht' & ? & _ & Hf' & Hw); injection Hx as <- <-;
      rewrite Ht in Ht'; injection Ht' as <-; rewrite Hf in Hf'; by simplify_eq.
  - apply not_true_iff_false in Hk. rewrite existsb_elem in Hk. split; [done|].
    intros (? & ? & ? & ? & ? & ? & ? & (n & Hn & Hnk) & _). destruct Hk. exists n.
    simplify_eq. split; [done|]. by apply bool_decide_eq_true.
Qed.
