(* ===== verification/CommandSafety.v ===== *)
(** * Safe and dangerous commands: [shell-command/src/command_safety]

    [is_safe_command.rs], [is_dangerous_command.rs] and
    [windows_safe_commands.rs] as built on Unix ([linux] tells Linux from the
    other Unix targets).  Arguments stand for tree-sitter and for the
    PowerShell process that parses PowerShell scripts. *)
From stdpp Require Import base tactics option list sets numbers strings.
From S2P Require Import Prelude RustStr Paths BashParse.

(** Membership of a string in a list of literals, [matches!] and [contains]. *)
Definition one_of (s : str) (l : list string) : bool := bool_decide (s ∈ (lit <$> l)).

(** ** [is_dangerous_command.rs] *)
Definition is_git_global_option_with_value (arg : str) : bool :=
  one_of arg ["-C"; "-c"; "--config-env"; "--exec-path"; "--git-dir"; "--namespace";
              "--super-prefix"; "--work-tree"]%string.

Definition is_git_global_option_with_inline_value (arg : str) : bool :=
  starts_with (lit "--config-env=") arg || starts_with (lit "--exec-path=") arg
  || starts_with (lit "--git-dir=") arg || starts_with (lit "--namespace=") arg
  || starts_with (lit "--super-prefix=") arg || starts_with (lit "--work-tree=") arg
  || ((starts_with (lit "-C") arg || starts_with (lit "-c") arg) && (2 <? str_len arg)).

Definition executable_name_lookup_key (raw : str) : option str := file_name_str raw.

(** The loop of [find_git_subcommand] over the arguments from index [idx]. *)
Fixpoint find_git_subcommand_from (subcommands : list string) (idx : nat) (skip_next : bool)
    (args : list str) : option (nat * str) :=
  match args with
  | [] => None
  | arg :: args' =>
      if skip_next then find_git_subcommand_from subcommands (S idx) false args'
      else if is_git_global_option_with_inline_value arg then
        find_git_subcommand_from subcommands (S idx) false args'
      else if is_git_global_option_with_value arg then
        find_git_subcommand_from subcommands (S idx) true args'
      else if bool_decide (arg = lit "--") || starts_with (lit "-") arg then
        find_git_subcommand_from subcommands (S idx) false args'
      else if one_of arg subcommands then Some (idx, arg)
      else None
  end.

Definition find_git_subcommand (command : list str) (subcommands : list string) :
    option (nat * str) :=
  match command with
  | [] => None
  | cmd0 :: args =>
      if negb (bool_decide (executable_name_lookup_key cmd0 = Some (lit "git"))) then None
      else find_git_subcommand_from subcommands 1 false args
  end.

Fixpoint is_dangerous_to_call_with_exec (command : list str) : bool :=
  match command with
  | [] => false
  | cmd0 :: args =>
      if bool_decide (cmd0 = lit "rm") then
        match args with
        | arg :: _ => one_of arg ["-f"; "-rf"]%string
        | [] => false
        end
      else if bool_decide (cmd0 = lit "sudo") then is_dangerous_to_call_with_exec args
      else false
  end.

(** ** [is_safe_command.rs] *)
Definition git_branch_read_only_flag (arg : str) : bool :=
  one_of arg ["--list"; "-l"; "--show-current"; "-a"; "--all"; "-r"; "--remotes"; "-v"; "-vv";
              "--verbose"]%string
  || starts_with (lit "--format=") arg.

(** The loop sets [saw_read_only_flag] for a known flag and returns [false] for
    any other argument. *)
Fixpoint git_branch_loop (saw_read_only_flag : bool) (branch_args : list str) : bool :=
  match branch_args with
  | [] => saw_read_only_flag
  | arg :: args => if git_branch_read_only_flag arg then git_branch_loop true args else false
  end.

Definition git_branch_is_read_only (branch_args : list str) : bool :=
  match branch_args with [] => true | _ => git_branch_loop false branch_args end.

Definition is_config_override (arg : str) : bool :=
  one_of arg ["-c"; "--config-env"]%string
  || (starts_with (lit "-c") arg && (2 <? str_len arg))
  || starts_with (lit "--config-env=") arg.

Definition git_has_config_override_global_option (command : list str) : bool :=
  existsb is_config_override command.

Definition is_unsafe_git_flag (arg : str) : bool :=
  one_of arg ["--output"; "--ext-diff"; "--textconv"; "--exec"; "--paginate"]%string
  || starts_with (lit "--output=") arg || starts_with (lit "--exec=") arg.

Definition git_subcommand_args_are_read_only (args : list str) : bool :=
  negb (existsb is_unsafe_git_flag args).

Definition all_digits (s : str) : bool := negb (bool_decide (s = [])) && forallb is_ascii_digit s.

Definition is_valid_sed_n_arg (arg : option str) : bool :=
  match arg with
  | None => false
  | Some s =>
      match strip_suffix (lit "p") s with
      | None => false
      | Some core =>
          match split 44%N core with
          | [num] => all_digits num
          | [a; b] => all_digits a && all_digits b
          | _ => false
          end
      end
  end.

Definition is_unsafe_base64_option (arg : str) : bool :=
  one_of arg ["-o"; "--output"]%string
  || starts_with (lit "--output=") arg
  || (starts_with (lit "-o") arg && negb (bool_decide (arg = lit "-o"))).

Definition is_unsafe_find_option (arg : str) : bool :=
  one_of arg ["-exec"; "-execdir"; "-ok"; "-okdir"; "-delete"; "-fls"; "-fprint"; "-fprint0";
              "-fprintf"]%string.

Definition is_unsafe_ripgrep_option (arg : str) : bool :=
  one_of arg ["--search-zip"; "-z"]%string
  || existsb (λ opt, bool_decide (arg = lit opt) || starts_with (lit opt ++ lit "=") arg)
       ["--pre"; "--hostname-bin"]%string.

Definition always_safe_commands : list string :=
  ["cat"; "cd"; "cut"; "echo"; "expr"; "false"; "grep"; "head"; "id"; "ls"; "nl"; "paste";
   "pwd"; "rev"; "seq"; "stat"; "tail"; "tr"; "true"; "uname"; "uniq"; "wc"; "which";
   "whoami"]%string.

Definition is_safe_git (command : list str) : bool :=
  if git_has_config_override_global_option command then false
  else match find_git_subcommand command ["status"; "log"; "diff"; "show"; "branch"]%string with
       | None => false
       | Some (subcommand_idx, subcommand) =>
           let subcommand_args := drop (subcommand_idx + 1) command in
           if one_of subcommand ["status"; "log"; "diff"; "show"]%string then
             git_subcommand_args_are_read_only subcommand_args
           else if bool_decide (subcommand = lit "branch") then
             git_subcommand_args_are_read_only subcommand_args
             && git_branch_is_read_only subcommand_args
           else false
       end.

Definition is_safe_to_call_with_exec (linux : bool) (command : list str) : bool :=
  match command with
  | [] => false
  | cmd0 :: _ =>
      match executable_name_lookup_key cmd0 with
      | None => false
      | Some cmd =>
          if linux && one_of cmd ["numfmt"; "tac"]%string then true
          else if one_of cmd always_safe_commands then true
          else if bool_decide (cmd = lit "base64") then
            negb (existsb is_unsafe_base64_option (drop 1 command))
          else if bool_decide (cmd = lit "find") then
            negb (existsb is_unsafe_find_option command)
          else if bool_decide (cmd = lit "rg") then
            negb (existsb is_unsafe_ripgrep_option command)
          else if bool_decide (cmd = lit "git") then is_safe_git command
          else if bool_decide (cmd = lit "sed") then
            (length command <=? 4) && bool_decide (command !! 1 = Some (lit "-n"))
            && is_valid_sed_n_arg (command !! 2)
          else false
      end
  end.

(** ** [windows_safe_commands.rs] *)
Record PowershellParserOutput : Type := {
  status : str;
  commands : option (list (list str));
}.

Inductive PowershellParseOutcome : Type :=
  | Commands (commands : list (list str))
  | Unsupported
  | Failed.

Definition into_outcome (self : PowershellParserOutput) : PowershellParseOutcome :=
  if bool_decide (status self = lit "ok") then
    match commands self with
    | Some cs =>
        if negb (bool_decide (cs = []))
           && forallb (λ cmd, negb (bool_decide (cmd = []))
                              && forallb (λ word, negb (bool_decide (word = []))) cmd) cs
        then Commands cs else Unsupported
    | None => Unsupported
    end
  else if bool_decide (status self = lit "unsupported") then Unsupported
  else Failed.

(** [str::replace] of a character by a string. *)
Definition replace_char (c : char) (by_ : str) (s : str) : str :=
  mjoin ((λ d, if bool_decide (d = c) then by_ else [d]) <$> s).

Definition quote_argument (arg : str) : str :=
  if bool_decide (arg = []) then lit "''"
  else if forallb (λ ch, negb (is_whitespace ch)) arg then arg
  else lit "'" ++ replace_char 39%N (lit "''") arg ++ lit "'".

Definition join_arguments_as_script (args : list str) : str :=
  match args with
  | [] => []
  | first :: rest => RustStr.join (lit " ") (first :: (quote_argument <$> rest))
  end.

Definition is_powershell_executable (exe : str) : bool :=
  let executable_name := to_ascii_lowercase (default exe (file_name_str exe)) in
  one_of executable_name ["powershell"; "powershell.exe"; "pwsh"; "pwsh.exe"]%string.

(** [str::trim_start_matches] and [str::trim_matches] with characters. *)
Fixpoint trim_start_chars (cs : list char) (s : str) : str :=
  match s with
  | c :: s' => if bool_decide (c ∈ cs) then trim_start_chars cs s' else s
  | [] => []
  end.

Definition trim_chars (cs : list char) (s : str) : str :=
  reverse (trim_start_chars cs (reverse (trim_start_chars cs s))).

Definition bare_word (w : str) : str :=
  to_ascii_lowercase (trim_start_chars (lit "-") (trim_chars (lit "()") w)).

Definition mutating_cmdlets : list string :=
  ["set-content"; "add-content"; "out-file"; "new-item"; "remove-item"; "move-item"; "copy-item";
   "rename-item"; "start-process"; "stop-process"]%string.

Definition is_safe_ripgrep (words : list str) : bool :=
  negb (existsb (λ arg,
    let arg_lc := to_ascii_lowercase arg in
    one_of arg_lc ["--search-zip"; "-z"]%string
    || existsb (λ opt, bool_decide (arg_lc = lit opt) || starts_with (lit opt ++ lit "=") arg_lc)
         ["--pre"; "--hostname-bin"]%string) (drop 1 words)).

(** The loop of [is_safe_git_command]; an option with a separate value takes
    two arguments at once. *)
Fixpoint safe_git_loop (args : list str) : bool :=
  match args with
  | [] => false
  | arg :: args' =>
      let arg_lc := to_ascii_lowercase arg in
      if starts_with (lit "-") arg then
        if eq_ignore_ascii_case arg (lit "-c") || eq_ignore_ascii_case arg (lit "--config") then
          match args' with [] => false | _ :: args'' => safe_git_loop args'' end
        else if starts_with (lit "-c=") arg_lc || starts_with (lit "--config=") arg_lc
                || starts_with (lit "--git-dir=") arg_lc || starts_with (lit "--work-tree=") arg_lc
        then safe_git_loop args'
        else if eq_ignore_ascii_case arg (lit "--git-dir")
                || eq_ignore_ascii_case arg (lit "--work-tree") then
          match args' with [] => false | _ :: args'' => safe_git_loop args'' end
        else safe_git_loop args'
      else one_of arg_lc ["status"; "log"; "show"; "diff"; "cat-file"]%string
  end.

Definition is_safe_git_command (words : list str) : bool := safe_git_loop (drop 1 words).

Definition is_safe_powershell_command (words : list str) : bool :=
  match words with
  | [] => false
  | first :: _ =>
      if existsb (λ w, one_of (bare_word w) mutating_cmdlets) words then false
      else
        let command := bare_word first in
        if one_of command
             ["echo"; "write-output"; "write-host"; "dir"; "ls"; "get-childitem"; "gci"; "cat";
              "type"; "gc"; "get-content"; "select-string"; "sls"; "findstr"; "measure-object";
              "measure"; "get-location"; "gl"; "pwd"; "test-path"; "tp"; "resolve-path"; "rvpa";
              "select-object"; "select"; "get-item"]%string then true
        else if bool_decide (command = lit "git") then is_safe_git_command words
        else if bool_decide (command = lit "rg") then is_safe_ripgrep words
        else false
  end.

Section Commands.
Variable linux : bool.
(** [try_parse_shell], and the answer of the PowerShell parser for an
    executable and a script ([None]: it failed, or printed something else). *)
Variable try_parse_shell : str → option Node.
Variable powershell_output : str → str → option PowershellParserOutput.

Definition parse_with_powershell_ast (executable script : str) : PowershellParseOutcome :=
  match powershell_output executable script with
  | Some result => into_outcome result
  | None => Failed
  end.

Definition parse_powershell_script (executable script : str) : option (list (list str)) :=
  match parse_with_powershell_ast executable script with
  | Commands commands => Some commands
  | _ => None
  end.

(** The loop over the arguments of [parse_powershell_invocation]. *)
Fixpoint parse_powershell_invocation (executable : str) (args : list str) :
    option (list (list str)) :=
  match args with
  | [] => None
  | arg :: rest =>
      let lower := to_ascii_lowercase arg in
      if one_of lower ["-command"; "/command"; "-c"]%string then
        match rest with
        | [script] => parse_powershell_script executable script
        | _ => None
        end
      else if starts_with (lit "-command:") lower || starts_with (lit "/command:") lower then
        match rest with
        | [] => match find [58%N] arg with
                | Some i => parse_powershell_script executable (drop (S i) arg)
                | None => None
                end
        | _ => None
        end
      else if one_of lower ["-nologo"; "-noprofile"; "-noninteractive"; "-mta"; "-sta"]%string then
        parse_powershell_invocation executable rest
      else if one_of lower ["-encodedcommand"; "-ec"; "-file"; "/file"; "-windowstyle";
                            "-executionpolicy"; "-workingdirectory"]%string then None
      else if starts_with (lit "-") lower then None
      else parse_powershell_script executable (join_arguments_as_script args)
  end.

Definition try_parse_powershell_command_sequence (command : list str) :
    option (list (list str)) :=
  match command with
  | [] => None
  | exe :: rest =>
      if is_powershell_executable exe then parse_powershell_invocation exe rest else None
  end.

Definition is_safe_command_windows (command : list str) : bool :=
  match try_parse_powershell_command_sequence command with
  | Some commands => forallb is_safe_powershell_command commands
  | None => false
  end.

Definition zsh_as_bash (s : str) : str := if bool_decide (s = lit "zsh") then lit "bash" else s.

Definition is_known_safe_command (command : list str) : bool :=
  let command := zsh_as_bash <$> command in
  if is_safe_command_windows command then true
  else if is_safe_to_call_with_exec linux command then true
  else match parse_shell_lc_plain_commands try_parse_shell command with
       | Some all_commands =>
           negb (bool_decide (all_commands = []))
           && forallb (is_safe_to_call_with_exec linux) all_commands
       | None => false
       end.

Definition command_might_be_dangerous (command : list str) : bool :=
  if is_dangerous_to_call_with_exec command then true
  else match parse_shell_lc_plain_commands try_parse_shell command with
       | Some all_commands => existsb is_dangerous_to_call_with_exec all_commands
       | None => false
       end.
End Commands.

(** ** Git subcommands *)

(** Arguments that precede the subcommand: global options, some of which take
    the next argument as their value. *)
Inductive global_options : list str → Prop :=
  | no_options : global_options []
  | inline_option a l :
      is_git_global_option_with_inline_value a = true →
      global_options l → global_options (a :: l)
  | value_option a v l :
      is_git_global_option_with_inline_value a = false →
      is_git_global_option_with_value a = true →
      global_options l → global_options (a :: v :: l)
  | plain_option a l :
      is_git_global_option_with_inline_value a = false →
      is_git_global_option_with_value a = false →
      starts_with (lit "-") a = true → global_options l → global_options (a :: l).

Lemma starts_with_prefix_of p q s :
  starts_with p q = true → starts_with q s = true → starts_with p s = true.
Proof. rewrite !starts_with_prefix. intros. by etrans. Qed.

Lemma inline_option_dash a :
  is_git_global_option_with_inline_value a = true → starts_with (lit "-") a = true.
Proof.
  unfold is_git_global_option_with_inline_value. rewrite !orb_true_iff, andb_true_iff, orb_true_iff.
  intros Ha. repeat match goal with
  | Ha : _ ∨ _ |- _ => destruct Ha as [Ha|Ha]
  | Ha : _ ∧ _ |- _ => destruct Ha as [Ha _]
  end; (eapply starts_with_prefix_of; [|exact Ha]; reflexivity).
Qed.

Lemma one_of_spec s l : one_of s l = true ↔ ∃ x, x ∈ l ∧ s = lit x.
Proof. unfold one_of. rewrite bool_decide_eq_true, list_elem_of_fmap. naive_solver. Qed.

Lemma value_option_dash a :
  is_git_global_option_with_value a = true → starts_with (lit "-") a = true.
Proof.
  intros (x & Hx & ->)%one_of_spec. revert x Hx. apply Forall_forall.
  repeat constructor.
Qed.

Lemma find_git_subcommand_spec subs idx args i sub :
  find_git_subcommand_from subs idx false args = Some (i, sub) ↔
  ∃ pre post, args = pre ++ sub :: post ∧ global_options pre ∧ i = idx + length pre ∧
    one_of sub subs = true ∧ starts_with (lit "-") sub = false.
Proof.
  split.
  - remember (length args) as n eqn:Hn. revert args idx Hn.
    induction (lt_wf n) as [n _ IH]. intros [|a args] idx ->; [done|].
    cbn [find_git_subcommand_from].
    destruct (is_git_global_option_with_inline_value a) eqn:Ei.
    { intros (pre & post & -> & Hg & -> & Hs)%(IH (length args)); [|simpl; lia|done].
      exists (a :: pre), post. split_and!; [done|by constructor|simpl; lia|naive_solver..]. }
    destruct (is_git_global_option_with_value a) eqn:Ev.
    { destruct args as [|v args]; [done|]. cbn [find_git_subcommand_from].
      intros (pre & post & -> & Hg & -> & Hs)%(IH (length args)); [|simpl; lia|done].
      exists (a :: v :: pre), post.
      split_and!; [done|by constructor|simpl; lia|naive_solver..]. }
    destruct (starts_with (lit "-") a) eqn:Ed.
    { rewrite orb_true_r.
      intros (pre & post & -> & Hg & -> & Hs)%(IH (length args)); [|simpl; lia|done].
      exists (a :: pre), post.
      split_and!; [done|by constructor|simpl; lia|naive_solver..]. }
    case_bool_decide; [by subst|]. cbn [orb].
    destruct (one_of a subs) eqn:Eo; [|done]. intros [= <- <-].
    exists [], args. split_and!; [done|constructor|simpl; lia|done..].
  - intros (pre & post & -> & Hg & -> & Hs & Hd). revert idx.
    induction Hg as [|a l Hi Hg IH|a v l Hi Hv Hg IH|a l Hi Hv Hda Hg IH]; intros idx;
      cbn [app find_git_subcommand_from length].
    + destruct (is_git_global_option_with_inline_value sub) eqn:Ei;
        [apply inline_option_dash in Ei; congruence|].
      destruct (is_git_global_option_with_value sub) eqn:Ev;
        [apply value_option_dash in Ev; congruence|].
      rewrite Hd, Hs. case_bool_decide; [by subst|]. by rewrite Nat.add_0_r.
    + rewrite Hi, IH. do 2 f_equal. lia.
    + rewrite Hi, Hv. cbn [app find_git_subcommand_from]. rewrite IH. do 2 f_equal. lia.
    + rewrite Hi, Hv, Hda, orb_true_r, IH. do 2 f_equal. lia.
Qed.

Lemma git_branch_is_read_only_spec post :
  git_branch_is_read_only post = true ↔ ∀ a, a ∈ post → git_branch_read_only_flag a = true.
Proof.
  assert (∀ b, git_branch_loop b post = true ↔
    (b = true ∨ post ≠ []) ∧ ∀ a, a ∈ post → git_branch_read_only_flag a = true) as Hl.
  { induction post as [|a post IH]; intros b; cbn [git_branch_loop]; [set_solver|].
    destruct (git_branch_read_only_flag a) eqn:E; [rewrite IH|]; set_solver. }
  destruct post as [|a post]; cbn [git_branch_is_read_only]; [set_solver|]. rewrite Hl. naive_solver.
Qed.

Lemma read_only_subcommand_dash sub :
  one_of sub ["status"; "log"; "diff"; "show"; "branch"]%string = true →
  starts_with (lit "-") sub = false.
Proof. intros (x & Hx & ->)%one_of_spec. revert x Hx. apply Forall_forall. repeat constructor. Qed.

Lemma safe_subcommand sub (p q : bool) :
  one_of sub ["status"; "log"; "diff"; "show"; "branch"]%string = true →
  (if one_of sub ["status"; "log"; "diff"; "show"]%string then p
   else if bool_decide (sub = lit "branch") then p && q else false) = true ↔
  p = true ∧ (sub = lit "branch" → q = true).
Proof.
  intros (x & Hx & ->)%one_of_spec. rewrite !elem_of_cons, elem_of_nil in Hx.
  destruct Hx as [->|[->|[->|[->|[->|[]]]]]]; destruct p, q; vm_compute; naive_solver.
Qed.

(** A git command counts as safe only when the arguments are global options
    with their values, then one of the read-only subcommands, then arguments
    none of which writes a file or runs a tool; no argument overrides the
    configuration, and [git branch] gets nothing but listing flags. *)
Theorem safe_git_spec (linux : bool) (cmd0 : str) (args : list str) :
  executable_name_lookup_key cmd0 = Some (lit "git") →
  is_safe_to_call_with_exec linux (cmd0 :: args) = true ↔
  (∀ a, a ∈ cmd0 :: args → is_config_override a = false) ∧
  ∃ pre sub post, args = pre ++ sub :: post ∧ global_options pre ∧
    one_of sub ["status"; "log"; "diff"; "show"; "branch"]%string = true ∧
    (∀ a, a ∈ post → is_unsafe_git_flag a = false) ∧
    (sub = lit "branch" → ∀ a, a ∈ post → git_branch_read_only_flag a = true).
Proof.
  intros Hgit.
  assert (is_safe_to_call_with_exec linux (cmd0 :: args) = is_safe_git (cmd0 :: args)) as ->.
  { unfold is_safe_to_call_with_exec. rewrite Hgit. by destruct linux. }
  unfold is_safe_git, git_has_config_override_global_option.
  destruct (existsb is_config_override (cmd0 :: args)) eqn:Ec.
  { apply existsb_elem in Ec as (a & Ha & Ha'). split; [done|]. intros [Hn _].
    by rewrite Hn in Ha' by done. }
  assert (∀ a, a ∈ cmd0 :: args → is_config_override a = false) as Hc.
  { intros a Ha. apply not_true_iff_false. intros Ha'. apply not_true_iff_false in Ec.
    apply Ec, existsb_elem. eauto. }
  unfold find_git_subcommand. rewrite Hgit.
  rewrite bool_decide_eq_true_2 by done. cbn [negb].
  assert (∀ post, git_subcommand_args_are_read_only post = true ↔
            ∀ a, a ∈ post → is_unsafe_git_flag a = false) as Hro.
  { intros post. unfold git_subcommand_args_are_read_only.
    rewrite negb_true_iff, <- not_true_iff_false, existsb_elem.
    setoid_rewrite <- not_true_iff_false. naive_solver. }
  destruct (find_git_subcommand_from _ 1 false args) as [[i sub]|] eqn:Ef.
  - pose proof Ef as (pre & post & -> & Hg & -> & Hs & Hd)%find_git_subcommand_spec.
    assert (drop (1 + length pre + 1) (cmd0 :: pre ++ sub :: post) = post) as ->.
    { replace (1 + length pre + 1) with (S (length pre + 1)) by lia. cbn [drop].
      by rewrite drop_app_ge, Nat.add_comm, Nat.add_sub by lia. }
    trans ((∀ a, a ∈ post → is_unsafe_git_flag a = false) ∧
           (sub = lit "branch" → ∀ a, a ∈ post → git_branch_read_only_flag a = true)).
    + rewrite <- Hro, <- git_branch_is_read_only_spec.
      by apply safe_subcommand.
    + split; [intros [? ?]; split; [done|]; by exists pre, sub, post|].
      intros (_ & pre' & sub' & post' & Heq & Hg' & Hs' & Hpost).
      enough (pre' = pre ∧ sub' = sub ∧ post' = post) as (_ & -> & ->) by done.
      assert (find_git_subcommand_from ["status"; "log"; "diff"; "show"; "branch"]%string 1 false
              (pre ++ sub :: post) = Some (1 + length pre', sub')) as Ef'.
      { apply find_git_subcommand_spec. exists pre', post'.
        split_and!; [done..|by apply read_only_subcommand_dash]. }
      rewrite Ef in Ef'. simplify_eq. apply app_inj_1 in Heq as [-> [=]]; [done|lia].
  - split; [done|]. intros (_ & pre & sub & post & -> & Hg & Hs & _). exfalso.
    enough (find_git_subcommand_from ["status"; "log"; "diff"; "show"; "branch"]%string 1 false
              (pre ++ sub :: post) = Some (1 + length pre, sub)) by congruence.
    apply find_git_subcommand_spec. exists pre, post. split_and!; [done..|].
    by apply read_only_subcommand_dash.
Qed.

(** ** Words come from the script *)
Lemma utf8_text_chars n src w : utf8_text n src = Some w → ∀ c, c ∈ w → c ∈ src.
Proof.
  unfold utf8_text. destruct (_ && _); [|done]. intros [= <-] c Hc.
  apply (subseteq_drop (start_byte n) src), (subseteq_take _ _ _ Hc).
Qed.

Lemma strip_quotes_chars q raw w : strip_quotes q raw = Some w → ∀ c, c ∈ w → c ∈ raw.
Proof.
  unfold strip_quotes. destruct (strip_prefix [q] raw) as [t|] eqn:E; [|done].
  apply strip_prefix_Some in E as ->. intros ->%strip_suffix_Some c Hc. set_solver.
Qed.

Lemma double_quoted_chars n src w :
  parse_double_quoted_string n src = Some w → ∀ c, c ∈ w → c ∈ src.
Proof.
  unfold parse_double_quoted_string. repeat destruct (negb _); try done.
  destruct (utf8_text n src) as [raw|] eqn:E; [|done]. intros Hw c Hc.
  eapply utf8_text_chars; [done|]. by eapply strip_quotes_chars.
Qed.

Lemma raw_string_chars n src w : parse_raw_string n src = Some w → ∀ c, c ∈ w → c ∈ src.
Proof.
  unfold parse_raw_string. destruct (negb _); [done|].
  destruct (utf8_text n src) as [raw|] eqn:E; [|done]. intros Hw c Hc.
  eapply utf8_text_chars; [done|]. by eapply strip_quotes_chars.
Qed.

Lemma concat_part_chars n src w : parse_concat_part n src = Some w → ∀ c, c ∈ w → c ∈ src.
Proof.
  unfold parse_concat_part. destruct (_ || _); [apply utf8_text_chars|].
  destruct (is_kind _ _); [apply double_quoted_chars|].
  destruct (is_kind _ _); [apply raw_string_chars|done].
Qed.

(** Every character of a word of a plain command is one of the script's. *)
Lemma plain_word_chars n src w : parse_plain_word n src = Some w → ∀ c, c ∈ w → c ∈ src.
Proof.
  unfold parse_plain_word. destruct (is_kind _ _).
  { destruct (head _) as [m|]; [|done]. destruct (is_kind _ m); [|done]. apply utf8_text_chars. }
  destruct (_ || _); [apply utf8_text_chars|].
  destruct (is_kind _ _); [apply double_quoted_chars|].
  destruct (is_kind _ _); [apply raw_string_chars|].
  destruct (is_kind _ _); [|done].
  destruct (mapM _ _) as [parts|] eqn:Em; [|done]. case_bool_decide; [done|]. intros [= <-] c Hc.
  apply mapM_Some in Em. apply list_elem_of_join in Hc as (l & Hc & Hl).
  apply list_elem_of_lookup in Hl as [i Hl].
  destruct (Forall2_lookup_r _ _ _ _ _ Em Hl) as (m & _ & Hm). by eapply concat_part_chars.
Qed.

Lemma plain_command_chars n src ws :
  parse_plain_command_from_node n src = Some ws → ∀ w c, w ∈ ws → c ∈ w → c ∈ src.
Proof.
  unfold parse_plain_command_from_node. destruct (negb _); [done|].
  intros Hm%mapM_Some w c Hw Hc. apply list_elem_of_lookup in Hw as [i Hw].
  destruct (Forall2_lookup_r _ _ _ _ _ Hm Hw) as (m & _ & Hp). by eapply plain_word_chars.
Qed.

Lemma word_only_chars root src cmds :
  try_parse_word_only_commands_sequence root src = Some cmds →
  ∀ ws w c, ws ∈ cmds → w ∈ ws → c ∈ w → c ∈ src.
Proof.
  unfold try_parse_word_only_commands_sequence. destruct (has_error root); [done|].
  destruct (collect_commands _ _ _) as [[nodes|]| | |]; try done.
  intros Hm%mapM_Some ws w c Hws. apply list_elem_of_lookup in Hws as [i Hws].
  destruct (Forall2_lookup_r _ _ _ _ _ Hm Hws) as (n & _ & Hp). by eapply plain_command_chars.
Qed.

(** ** Safe commands are not dangerous *)
Lemma dangerous_head c : is_dangerous_to_call_with_exec c = true →
  ∃ args, c = lit "rm" :: args ∨ c = lit "sudo" :: args.
Proof.
  destruct c as [|c0 args]; [done|]. cbn [is_dangerous_to_call_with_exec].
  case_bool_decide as H1; [subst; eauto|]. case_bool_decide as H2; [subst; eauto|done].
Qed.

Lemma safe_exec_not_dangerous linux c :
  is_safe_to_call_with_exec linux c = true → is_dangerous_to_call_with_exec c = false.
Proof.
  intros Hs. apply not_true_iff_false.
  intros (args & [->| ->])%dangerous_head; destruct linux; discriminate Hs.
Qed.

(** The names of safe executables; none has a dot and none is a shell. *)
Definition safe_names : list string :=
  ["numfmt"; "tac"; "base64"; "find"; "rg"; "git"; "sed"]%string ++ always_safe_commands.

Lemma safe_exec_name linux c0 args :
  is_safe_to_call_with_exec linux (c0 :: args) = true →
  ∃ x, x ∈ safe_names ∧ file_name_str c0 = Some (lit x).
Proof.
  unfold is_safe_to_call_with_exec, executable_name_lookup_key.
  destruct (file_name_str c0) as [name|]; [|done].
  destruct (linux && _) eqn:E1.
  { apply andb_true_iff in E1 as [_ (x & Hx & ->)%one_of_spec]. intros _. exists x.
    split; [|done]. set_solver. }
  destruct (one_of name always_safe_commands) eqn:E2.
  { apply one_of_spec in E2 as (x & Hx & ->). intros _. exists x. split; [|done].
    unfold safe_names. apply elem_of_app. by right. }
  repeat (case_bool_decide; [intros _; subst; eexists; split; [|done]; unfold safe_names; set_solver|]).
  done.
Qed.

Lemma safe_name_not_shell s x :
  x ∈ safe_names → file_name_str s = Some (lit x) → detect_shell_type s = None.
Proof.
  intros Hx Hname. unfold detect_shell_type.
  assert (∀ fuel, detect_shell_type_fuel (S fuel) (lit x) = Ok None ∧ stem_of (lit x) = lit x) as Hd.
  { intros fuel. revert x Hx Hname. apply (Forall_forall (λ x, _ → _)).
    repeat constructor; reflexivity. }
  assert (∀ k, file_name_str (lit k) = Some (lit k) → lit x ≠ lit k → s ≠ lit k) as Hne.
  { intros k Hk Hnk ->. congruence. }
  assert (Forall (λ k, lit x ≠ lit k) ["zsh"; "sh"; "cmd"; "bash"; "pwsh"; "powershell"]%string) as Hk.
  { clear Hd Hne Hname. revert x Hx. apply Forall_forall. repeat constructor; discriminate. }
  rewrite !Forall_cons in Hk. destruct Hk as (K1 & K2 & K3 & K4 & K5 & K6 & _).
  cbn [detect_shell_type_fuel].
  rewrite !bool_decide_eq_false_2 by (by apply Hne).
  unfold file_stem. rewrite Hname. cbn [fmap option_fmap option_map].
  rewrite (proj2 (Hd 0)). case_bool_decide; [done|].
  destruct (length s) as [|n] eqn:El; [|by rewrite (proj1 (Hd n))].
  by destruct s.
Qed.

Section KnownSafe.
Variable linux : bool.
Variable try_parse_shell : str → option Node.
Variable powershell_output : str → str → option PowershellParserOutput.
Abbreviation plain := (parse_shell_lc_plain_commands try_parse_shell).

Lemma extract_bash_inv c shell script :
  extract_bash_command c = Some (shell, script) →
  ∃ flag, c = [shell; flag; script] ∧ (flag = lit "-lc" ∨ flag = lit "-c") ∧
          detect_shell_type shell ≠ None.
Proof.
  destruct c as [|a [|b [|d []]]]; try done. cbn [extract_bash_command].
  destruct (bool_decide (b = lit "-lc") || bool_decide (b = lit "-c")) eqn:Eb; [|done].
  rewrite orb_true_iff, !bool_decide_eq_true in Eb. cbn [negb].
  destruct (detect_shell_type a) as [[]|] eqn:Ed; try done; intros [= <- <-];
    exists b; by rewrite Ed.
Qed.

(** Treating [zsh] as [bash] changes neither what a script is nor what it
    says, except for the script that consists of the name itself. *)
Lemma extract_bash_renamed c shell script :
  extract_bash_command c = Some (shell, script) →
  ∃ shell', extract_bash_command (zsh_as_bash <$> c) = Some (shell', zsh_as_bash script).
Proof.
  intros Hx. pose proof Hx as (flag & -> & Hf & _)%extract_bash_inv.
  cbn [fmap list_fmap]. assert (zsh_as_bash flag = flag) as -> by by destruct Hf as [->| ->].
  assert (zsh_as_bash shell = lit "bash" ∨ zsh_as_bash shell = shell) as [->| ->].
  { unfold zsh_as_bash. case_bool_decide; eauto. }
  - exists (lit "bash"). by destruct Hf as [->| ->].
  - exists shell. cbn [extract_bash_command] in *. destruct (negb _); [done|].
    by destruct (detect_shell_type shell) as [[]|].
Qed.

Lemma dangerous_words c :
  is_dangerous_to_call_with_exec c = true → ∃ w, w ∈ c ∧ (114%N ∈ w ∨ 117%N ∈ w).
Proof.
  intros (args & [->| ->])%dangerous_head; eexists; (split; [apply list_elem_of_here|]);
    vm_compute; [left|right]; set_solver.
Qed.

Lemma safe_exec_no_script c :
  is_safe_to_call_with_exec linux (zsh_as_bash <$> c) = true → extract_bash_command c = None.
Proof.
  destruct (extract_bash_command c) as [[shell script]|] eqn:E; [|done].
  pose proof E as (flag & -> & _ & Hd)%extract_bash_inv. cbn [fmap list_fmap].
  intros (x & Hx & Hn)%safe_exec_name. exfalso. unfold zsh_as_bash in Hn. case_bool_decide as Hz.
  - assert (detect_shell_type (lit "bash") = None) by by eapply safe_name_not_shell. done.
  - apply Hd. by eapply safe_name_not_shell.
Qed.

Lemma dangerous_not_renamed_safe c :
  is_dangerous_to_call_with_exec c = true →
  is_safe_to_call_with_exec linux (zsh_as_bash <$> c) = false ∧
  plain (zsh_as_bash <$> c) = None.
Proof.
  intros (args & Hc)%dangerous_head.
  destruct Hc as [->| ->]; (split; [by destruct linux|]);
    unfold parse_shell_lc_plain_commands;
    destruct args as [|b [|d []]]; try done; cbn [fmap list_fmap extract_bash_command];
    by destruct (negb _).
Qed.
End KnownSafe.

(** C37: A command that counts as known to be safe, and is not a PowerShell
    invocation, never counts as dangerous.  Either its executable and arguments
    are on the list, or it is a shell script that parses without errors into
    plain commands only, at least one, all of them on the list. *)
Theorem known_safe_spec (linux : bool) try_parse_shell powershell_output (command : list str) :
  is_known_safe_command linux try_parse_shell powershell_output command = true →
  (∀ exe, head command = Some exe → is_powershell_executable exe = false) →
  command_might_be_dangerous try_parse_shell command = false ∧
  (is_safe_to_call_with_exec linux (zsh_as_bash <$> command) = true ∨
   ∃ shell flag script root cmds,
     zsh_as_bash <$> command = [shell; flag; script] ∧ try_parse_shell script = Some root ∧
     try_parse_word_only_commands_sequence root script = Some cmds ∧ cmds ≠ [] ∧
     Forall (λ c, is_safe_to_call_with_exec linux c = true) cmds).
Proof.
  intros Hsafe Hps. unfold is_known_safe_command in Hsafe.
  assert (is_safe_command_windows powershell_output (zsh_as_bash <$> command) = false) as Hw.
  { unfold is_safe_command_windows, try_parse_powershell_command_sequence.
    destruct command as [|exe rest]; [done|]. cbn [fmap list_fmap].
    specialize (Hps exe eq_refl).
    assert (is_powershell_executable (zsh_as_bash exe) = false) as ->; [|done].
    unfold zsh_as_bash. by case_bool_decide. }
  rewrite Hw in Hsafe.
  destruct (is_dangerous_to_call_with_exec command) eqn:Hd.
  { destruct (dangerous_not_renamed_safe linux try_parse_shell command Hd) as [H1 H2].
    by rewrite H1, H2 in Hsafe. }
  unfold command_might_be_dangerous. rewrite Hd.
  destruct (is_safe_to_call_with_exec linux (zsh_as_bash <$> command)) eqn:Hs.
  { split; [|by left]. unfold parse_shell_lc_plain_commands.
    by rewrite (safe_exec_no_script linux command Hs). }
  destruct (parse_shell_lc_plain_commands try_parse_shell (zsh_as_bash <$> command))
    as [cmds|] eqn:Hp; [|done].
  apply andb_true_iff in Hsafe as [Hne%negb_true_iff%bool_decide_eq_false Hall].
  rewrite forallb_elem in Hall.
  pose proof Hp as Hp'. unfold parse_shell_lc_plain_commands in Hp.
  destruct (extract_bash_command (zsh_as_bash <$> command)) as [[sh script]|] eqn:Hx; [|done].
  destruct (try_parse_shell script) as [root|] eqn:Ht; [|done]. split.
  - unfold parse_shell_lc_plain_commands.
    destruct (extract_bash_command command) as [[sh0 script0]|] eqn:Hx0; [|done].
    destruct (extract_bash_renamed command _ _ Hx0) as [sh' Hx']. rewrite Hx in Hx'. simplify_eq.
    destruct (try_parse_shell script0) as [root0|] eqn:Ht0; [|done].
    destruct (try_parse_word_only_commands_sequence root0 script0) as [cmds0|] eqn:Hw0; [|done].
    apply not_true_iff_false. intros (c & Hc & Hdc)%existsb_elem.
    unfold zsh_as_bash in Ht, Hp. case_bool_decide as Hz.
    + subst script0. destruct (dangerous_words c Hdc) as (w & Hwc & Hch).
      pose proof (word_only_chars _ _ _ Hw0 c w) as Hchars.
      destruct Hch as [Hch|Hch]; specialize (Hchars _ Hc Hwc Hch);
        apply (bool_decide_eq_true_2 (_ ∈ lit "zsh")) in Hchars; vm_compute in Hchars; done.
    + assert (cmds0 = cmds) as -> by congruence.
      apply Hall, safe_exec_not_dangerous in Hc. congruence.
  - right. destruct (extract_bash_inv _ _ _ Hx) as (flag & Hc & _).
    exists sh, flag, script, root, cmds. split_and!; [done..|]. by apply Forall_forall.
Qed.

(** [--paginate] is refused after the subcommand, where git does not know it,
    and accepted before it, where it runs the configured pager. *)
Theorem paginate_before_subcommand (linux : bool) :
  is_safe_to_call_with_exec linux [lit "git"; lit "log"; lit "--paginate"] = false ∧
  is_safe_to_call_with_exec linux [lit "git"; lit "--paginate"; lit "log"] = true.
Proof. by destruct linux. Qed.

(** The PowerShell list accepts the configuration override the other list
    always refuses. *)
Theorem powershell_config_override :
  is_safe_powershell_command [lit "git"; lit "-c"; lit "core.pager=evil"; lit "log"] = true ∧
  is_safe_to_call_with_exec true [lit "git"; lit "-c"; lit "core.pager=evil"; lit "log"] = false.
Proof. done. Qed.

(** ** Applications of the theorems *)

(** The tree of [ls && git status]. *)
Definition sample_script : str := lit "ls && git status".

Definition word_node (s e : nat) : Node := MkNode (lit "word") true s e false [].

Definition sample_tree : Node :=
  MkNode (lit "program") true 0 16 false
    [MkNode (lit "list") true 0 16 false
       [MkNode (lit "command") true 0 2 false
          [MkNode (lit "command_name") true 0 2 false [word_node 0 2]];
        MkNode (lit "&&") false 3 5 false [];
        MkNode (lit "command") true 6 16 false
          [MkNode (lit "command_name") true 6 9 false [word_node 6 9]; word_node 10 16]]].

Definition sample_parser (s : str) : option Node :=
  if bool_decide (s = sample_script) then Some sample_tree else None.

Lemma known_safe_witness :
  command_might_be_dangerous sample_parser [lit "zsh"; lit "-lc"; sample_script] = false.
Proof.
  apply (known_safe_spec true sample_parser (λ _ _, None) [lit "zsh"; lit "-lc"; sample_script]);
    [vm_compute; reflexivity|]. intros exe [= <-]. vm_compute. reflexivity.
Defined.

Lemma safe_git_witness :
  is_safe_to_call_with_exec true [lit "/usr/bin/git"; lit "-C"; lit "checkout"; lit "status"] = true.
Proof.
  apply (safe_git_spec true (lit "/usr/bin/git") [lit "-C"; lit "checkout"; lit "status"] eq_refl).
  split.
  - apply Forall_forall. repeat constructor.
  - exists [lit "-C"; lit "checkout"], (lit "status"), []. split_and!; [done| |done|..].
    + by apply value_option; [| |constructor].
    + intros a ?%not_elem_of_nil. done.
    + done.
Defined.
