(* ===== verification/Guards.v ===== *)
(** * Limits on sub-agents: [core/src/agent/guards.rs]

    [Guards] is shared by all agents of a session.  The counter is an atomic
    that a compare-and-exchange loop increments, the other data sits behind a
    mutex: every step below is one atomic access, a task is a call in progress,
    and the steps of different tasks interleave freely. *)
From stdpp Require Import base tactics option list sets gmap numbers strings.
From S2P Require Import Prelude RustStr.

Abbreviation ThreadId := N.

(** ** Data *)
Record ActiveAgents : Type := {
  threads_set : gset ThreadId;
  thread_agent_nicknames : gmap ThreadId str;
  used_agent_nicknames : gset str;
  nickname_reset_count : N;
}.

Record Guards : Type := {
  active_agents : ActiveAgents;
  total_count : Z;
}.

Definition default_guards : Guards := {|
  active_agents := {| threads_set := ∅; thread_agent_nicknames := ∅; used_agent_nicknames := ∅;
                      nickname_reset_count := 0 |};
  total_count := 0 |}.

Definition set_total_count (g : Guards) (n : Z) : Guards :=
  {| active_agents := active_agents g; total_count := n |}.

Definition set_active_agents (g : Guards) (a : ActiveAgents) : Guards :=
  {| active_agents := a; total_count := total_count g |}.

(** [fetch_add] and [fetch_sub] on an [AtomicUsize] wrap around. *)
Definition fetch_add (g : Guards) : Guards :=
  set_total_count g ((total_count g + 1) mod 2 ^ 64)%Z.
Definition fetch_sub (g : Guards) : Guards :=
  set_total_count g ((total_count g - 1) mod 2 ^ 64)%Z.

(** ** Nicknames *)
Definition ordinal_suffix (value : N) : str :=
  let t := (value mod 100)%N in
  if ((11 <=? t) && (t <=? 13))%N then lit "th"
  else match (value mod 10)%N with
       | 1%N => lit "st"
       | 2%N => lit "nd"
       | 3%N => lit "rd"
       | _ => lit "th"
       end.

Definition format_agent_nickname (name : str) (nickname_reset_count : N) : str :=
  if (nickname_reset_count =? 0)%N then name
  else
    let value := (nickname_reset_count + 1)%N in
    name ++ lit " the " ++ show_N value ++ ordinal_suffix value.

Section Nicknames.
(** [IndexedRandom::choose]. *)
Variable choose : list str → option str.

Definition insert_nickname (a : ActiveAgents) (n : str) : ActiveAgents := {|
  threads_set := threads_set a;
  thread_agent_nicknames := thread_agent_nicknames a;
  used_agent_nicknames := {[n]} ∪ used_agent_nicknames a;
  nickname_reset_count := nickname_reset_count a |}.

Definition reset_nicknames (a : ActiveAgents) : ActiveAgents := {|
  threads_set := threads_set a;
  thread_agent_nicknames := thread_agent_nicknames a;
  used_agent_nicknames := ∅;
  nickname_reset_count := (nickname_reset_count a + 1)%N |}.

Definition reserve_agent_nickname (a : ActiveAgents) (names : list str) (preferred : option str) :
    ActiveAgents * option str :=
  match preferred with
  | Some preferred => (insert_nickname a preferred, Some preferred)
  | None =>
      match names with
      | [] => (a, None)
      | _ =>
          let available_names :=
            List.filter (λ n, negb (bool_decide (n ∈ used_agent_nicknames a)))
              ((λ name, format_agent_nickname name (nickname_reset_count a)) <$> names) in
          match choose available_names with
          | Some name => (insert_nickname a name, Some name)
          | None =>
              let a' := reset_nicknames a in
              match choose names with
              | None => (a', None)
              | Some name =>
                  let agent_nickname := format_agent_nickname name (nickname_reset_count a') in
                  (insert_nickname a' agent_nickname, Some agent_nickname)
              end
          end
      end
  end.
End Nicknames.

(** ** Threads *)
Definition register_spawned_thread (a : ActiveAgents) (thread_id : ThreadId)
    (agent_nickname : option str) : ActiveAgents :=
  match agent_nickname with
  | None => {| threads_set := {[thread_id]} ∪ threads_set a;
               thread_agent_nicknames := thread_agent_nicknames a;
               used_agent_nicknames := used_agent_nicknames a;
               nickname_reset_count := nickname_reset_count a |}
  | Some n => {| threads_set := {[thread_id]} ∪ threads_set a;
                 thread_agent_nicknames := <[thread_id := n]> (thread_agent_nicknames a);
                 used_agent_nicknames := {[n]} ∪ used_agent_nicknames a;
                 nickname_reset_count := nickname_reset_count a |}
  end.

(** The part of [release_spawned_thread] under the lock. *)
Definition remove_thread (a : ActiveAgents) (thread_id : ThreadId) : ActiveAgents * bool :=
  ({| threads_set := threads_set a ∖ {[thread_id]};
      thread_agent_nicknames := delete thread_id (thread_agent_nicknames a);
      used_agent_nicknames := used_agent_nicknames a;
      nickname_reset_count := nickname_reset_count a |},
   bool_decide (thread_id ∈ threads_set a)).

(** ** Depth *)
Inductive SubAgentSource : Type :=
  | Review
  | CompactSource
  | ThreadSpawn (parent_thread_id : ThreadId) (depth : Z) (agent_nickname agent_role : option str)
  | MemoryConsolidation
  | OtherSubAgent (label : str).

Inductive SessionSource : Type :=
  | Cli
  | VSCode
  | ExecSource
  | Mcp
  | SubAgent (source : SubAgentSource)
  | UnknownSource.

Definition i32_max : Z := 2 ^ 31 - 1.

Definition session_depth (session_source : SessionSource) : Z :=
  match session_source with
  | SubAgent (ThreadSpawn _ depth _ _) => depth
  | SubAgent _ => 0
  | _ => 0
  end.

Definition next_thread_spawn_depth (session_source : SessionSource) : Z :=
  Z.min i32_max (session_depth session_source + 1).

Definition exceeds_thread_spawn_depth_limit (depth max_depth : Z) : bool := (max_depth <? depth)%Z.

(** ** Calls in progress *)

(** [TryIncrement]: in the loop of [try_increment_spawned], with the value
    last read; [Reserved]: a live [SpawnReservation]; [Decrementing]: between
    the removal under the lock and the decrement of
    [release_spawned_thread]. *)
Inductive task : Type :=
  | ReserveStart (max_threads : option Z)
  | TryIncrement (max_threads current : Z)
  | Denied (max_threads : Z)
  | Reserved (reserved_agent_nickname : option str)
  | ReleaseStart (thread_id : ThreadId)
  | Decrementing
  | Done.

Record system : Type := { guards : Guards; tasks : list task }.

Section Steps.
Variable choose : list str → option str.
(** Which thread a reservation is committed for is up to the caller. *)
Variable commit_allowed : gset ThreadId → ThreadId → Prop.

(** One atomic access of one task, with the result of the task. *)
Inductive task_step : Guards → task → Guards → task → Prop :=
  | step_reserve_load g max :
      task_step g (ReserveStart (Some max)) g (TryIncrement max (total_count g))
  | step_reserve_unbounded g :
      task_step g (ReserveStart None) (fetch_add g) (Reserved None)
  | step_try_full g max current :
      (max ≤ current)%Z →
      task_step g (TryIncrement max current) g (Denied max)
  | step_try_success g max current :
      (current < max)%Z → total_count g = current →
      task_step g (TryIncrement max current)
        (set_total_count g ((current + 1) mod 2 ^ 64)%Z) (Reserved None)
  | step_try_failure g max current :
      (current < max)%Z →
      task_step g (TryIncrement max current) g (TryIncrement max (total_count g))
  | step_nickname g n names preferred a' n' :
      reserve_agent_nickname choose (active_agents g) names preferred = (a', Some n') →
      task_step g (Reserved n) (set_active_agents g a') (Reserved (Some n'))
  | step_nickname_none g n names preferred a' :
      reserve_agent_nickname choose (active_agents g) names preferred = (a', None) →
      task_step g (Reserved n) (set_active_agents g a') (Reserved n)
  | step_commit g reserved thread_id agent_nickname :
      commit_allowed (threads_set (active_agents g)) thread_id →
      task_step g (Reserved reserved)
        (set_active_agents g (register_spawned_thread (active_agents g) thread_id
           (match reserved with Some n => Some n | None => agent_nickname end))) Done
  | step_drop g n :
      task_step g (Reserved n) (fetch_sub g) Done
  | step_release_removed g thread_id a' :
      remove_thread (active_agents g) thread_id = (a', true) →
      task_step g (ReleaseStart thread_id) (set_active_agents g a') Decrementing
  | step_release_absent g thread_id a' :
      remove_thread (active_agents g) thread_id = (a', false) →
      task_step g (ReleaseStart thread_id) (set_active_agents g a') Done
  | step_release_decrement g :
      task_step g Decrementing (fetch_sub g) Done.

(** A new call, or an access of a running one. *)
Inductive step : system → system → Prop :=
  | step_call g ts t :
      (∃ max, t = ReserveStart max) ∨ (∃ id, t = ReleaseStart id) →
      step {| guards := g; tasks := ts |} {| guards := g; tasks := ts ++ [t] |}
  | step_task g ts1 t ts2 g' t' :
      task_step g t g' t' →
      step {| guards := g; tasks := ts1 ++ t :: ts2 |}
           {| guards := g'; tasks := ts1 ++ t' :: ts2 |}.
End Steps.

Definition init : system := {| guards := default_guards; tasks := [] |}.

(** [try_increment_spawned] and [reserve_spawn_slot] without interference. *)
Inductive CodexErr : Type := AgentLimitReached (max_threads : Z).

Definition try_increment_spawned (g : Guards) (max_threads : Z) : Guards * bool :=
  if (max_threads <=? total_count g)%Z then (g, false)
  else (set_total_count g ((total_count g + 1) mod 2 ^ 64)%Z, true).

Definition reserve_spawn_slot (g : Guards) (max_threads : option Z) :
    Guards * outcome CodexErr (option str) :=
  match max_threads with
  | Some max_threads =>
      let '(g', ok) := try_increment_spawned g max_threads in
      if ok then (g', Ok None) else (g', Err (AgentLimitReached max_threads))
  | None => (fetch_add g, Ok None)
  end.

Definition release_spawned_thread (g : Guards) (thread_id : ThreadId) : Guards :=
  let '(a, removed) := remove_thread (active_agents g) thread_id in
  let g := set_active_agents g a in
  if removed then fetch_sub g else g.

(** The slots a task holds: a live reservation, or a removed thread whose
    decrement is still to come. *)
Definition slots (t : task) : nat :=
  match t with Reserved _ | Decrementing => 1 | _ => 0 end.

Definition slots_held (ts : list task) : nat := sum_list (slots <$> ts).

(** ** The counter *)

(** The slots accounted for: registered threads and tasks that hold one. *)
Definition accounted (s : system) : nat :=
  size (threads_set (active_agents (guards s))) + slots_held (tasks s).

(** Every reservation asks for the same bound. *)
Definition bounded (M : Z) (t : task) : Prop :=
  match t with
  | ReserveStart max => max = Some M
  | TryIncrement max _ | Denied max => max = M
  | _ => True
  end.

Lemma slots_held_app l k : slots_held (l ++ k) = slots_held l + slots_held k.
Proof. induction l as [|t l IH]; [done|]. unfold slots_held in *. cbn in *. lia. Qed.

Lemma slots_held_mid l t k : slots_held (l ++ t :: k) = slots t + slots_held (l ++ k).
Proof. rewrite !slots_held_app. unfold slots_held. cbn. lia. Qed.

Lemma reserve_nickname_threads choose a names preferred :
  threads_set (reserve_agent_nickname choose a names preferred).1 = threads_set a.
Proof.
  unfold reserve_agent_nickname. destruct preferred; [done|]. destruct names; [done|].
  destruct (choose _); [done|]. by destruct (choose _).
Qed.

Lemma register_threads a id n :
  threads_set (register_spawned_thread a id n) = {[id]} ∪ threads_set a.
Proof. by destruct n. Qed.

Lemma register_size (X : gset ThreadId) id :
  size ({[id]} ∪ X) = if bool_decide (id ∈ X) then size X else S (size X).
Proof.
  case_bool_decide as Hin.
  - f_equal. set_solver.
  - rewrite size_union by set_solver. by rewrite size_singleton.
Qed.

Lemma remove_size (X : gset ThreadId) id :
  size X = size (X ∖ {[id]}) + if bool_decide (id ∈ X) then 1 else 0.
Proof.
  case_bool_decide as Hin.
  - rewrite (union_difference_singleton_L id X Hin) at 1.
    rewrite size_union by set_solver. rewrite size_singleton. lia.
  - rewrite Nat.add_0_r. f_equal. set_solver.
Qed.

(** What one access does to the counter and to the slots. *)
Lemma task_step_count choose allowed g t g' t' :
  task_step choose allowed g t g' t' →
  let n := size (threads_set (active_agents g)) + slots t in
  let n' := size (threads_set (active_agents g')) + slots t' in
  (n' = n ∧ total_count g' = total_count g) ∨
  (n' = S n ∧ total_count g' = ((total_count g + 1) mod 2 ^ 64)%Z ∧
   (t = ReserveStart None ∨ ∃ max, t = TryIncrement max (total_count g) ∧ (total_count g < max)%Z)) ∨
  (S n' = n ∧ total_count g' = ((total_count g - 1) mod 2 ^ 64)%Z) ∨
  (S n' = n ∧ total_count g' = total_count g ∧
   ∃ id, id ∈ threads_set (active_agents g) ∧ allowed (threads_set (active_agents g)) id).
Proof.
  intros Hs. destruct Hs as [g max|g|g max current Hc|g max current Hc <-|g max current Hc
    |g n names preferred a' n' Hr|g n names preferred a' Hr|g reserved id nick Ha|g n
    |g id a' Hr|g id a' Hr|g]; cbn [set_total_count set_active_agents fetch_add fetch_sub
      total_count active_agents slots].
  - left. lia.
  - right; left. split; [lia|]. eauto.
  - left. lia.
  - right; left. split; [lia|]. split; [done|]. eauto.
  - left. lia.
  - left. pose proof (reserve_nickname_threads choose (active_agents g) names preferred) as Ht.
    rewrite Hr in Ht. simpl in Ht. rewrite Ht. lia.
  - left. pose proof (reserve_nickname_threads choose (active_agents g) names preferred) as Ht.
    rewrite Hr in Ht. simpl in Ht. rewrite Ht. lia.
  - rewrite register_threads, register_size. case_bool_decide as Hin.
    + right; right; right. split; [lia|]. eauto.
    + left. lia.
  - right; right; left. split; [lia|done].
  - left. unfold remove_thread in Hr. injection Hr as <- Hin. simpl.
    rewrite (remove_size (threads_set (active_agents g)) id), Hin. lia.
  - left. unfold remove_thread in Hr. injection Hr as <- Hin. simpl.
    rewrite (remove_size (threads_set (active_agents g)) id), Hin. lia.
  - right; right; left. split; [lia|done].
Qed.

Section Invariant.
Variable choose : list str → option str.
Variable allowed : gset ThreadId → ThreadId → Prop.
Variable M : Z.
Hypothesis HM : (0 ≤ M < 2 ^ 64)%Z.

(** Steps in which every reservation asks for the bound [M]. *)
Definition bounded_step (s s' : system) : Prop :=
  step choose allowed s s' ∧ Forall (bounded M) (tasks s').

Definition counter_inv (s : system) : Prop :=
  (Z.of_nat (accounted s) ≤ total_count (guards s) ≤ M)%Z ∧ Forall (bounded M) (tasks s).

Lemma counter_inv_step s s' : counter_inv s → bounded_step s s' → counter_inv s'.
Proof.
  intros [Hle Hb] [Hstep Hb']. split; [|done].
  destruct Hstep as [g ts t Ht|g ts1 t ts2 g' t' Ht]; unfold accounted in *; simpl in *.
  - rewrite slots_held_app. destruct Ht as [[? ->]|[? ->]]; unfold slots_held at 2; simpl; lia.
  - rewrite slots_held_mid in *. apply task_step_count in Ht. cbv zeta in Ht.
    destruct Ht as [[Hn Ht]|[(Hn & Ht & Hmax)|[[Hn Ht]|(Hn & Ht & _)]]]; rewrite Ht.
    + lia.
    + destruct Hmax as [->|(max & -> & Hmax)].
      * apply Forall_app in Hb as [_ Hb%Forall_cons]. destruct Hb as [Hb _]. done.
      * apply Forall_app in Hb as [_ Hb%Forall_cons]. destruct Hb as [Hb _]. simpl in Hb. subst.
        rewrite Z.mod_small by lia. lia.
    + rewrite Z.mod_small by lia. lia.
    + lia.
Qed.

Lemma counter_inv_reachable s : rtc bounded_step init s → counter_inv s.
Proof.
  intros Hs. assert (counter_inv init) as Hi.
  { split; [|constructor]. unfold accounted, init. cbn. rewrite size_empty. unfold slots_held.
    simpl. lia. }
  revert Hi. induction Hs as [|s s' s'' Hstep _ IH]; intros Hi; [done|]. apply IH.
  by eapply counter_inv_step.
Qed.

(** When reservations are committed for new threads only, nothing is lost. *)
Lemma counter_exact s :
  (∀ X id, allowed X id → id ∉ X) → rtc bounded_step init s →
  Z.of_nat (accounted s) = total_count (guards s).
Proof.
  intros Hfresh. revert s.
  apply (rtc_ind_r (λ s, Z.of_nat (accounted s) = total_count (guards s)) init); [done|].
  intros s s' Hs [Hstep Hb] IH. destruct (counter_inv_reachable _ Hs) as [Hle Hbs].
  destruct Hstep as [g ts t Ht|g ts1 t ts2 g' t' Ht]; unfold accounted in *; simpl in *.
  - rewrite slots_held_app. destruct Ht as [[? ->]|[? ->]]; unfold slots_held at 2; simpl; lia.
  - rewrite slots_held_mid in *. apply task_step_count in Ht. cbv zeta in Ht.
    destruct Ht as [[Hn Ht]|[(Hn & Ht & Hmax)|[[Hn Ht]|(Hn & Ht & id & Hin & Ha)]]]; rewrite Ht.
    + lia.
    + destruct Hmax as [->|(max & -> & Hmax)];
        apply Forall_app in Hbs as [_ Hbs%Forall_cons]; destruct Hbs as [Hbt _]; [done|].
      simpl in Hbt. subst. rewrite Z.mod_small by lia. lia.
    + rewrite Z.mod_small by lia. lia.
    + by destruct (Hfresh _ _ Ha).
Qed.
End Invariant.

(** However the calls of concurrent agents interleave, as long as every
    reservation asks for the bound [M], the threads, live reservations and
    pending releases together never exceed the counter, which never exceeds
    [M] and never wraps around; when reservations are committed for new threads
    only, the counter is exact, so that without calls in progress it is the
    number of threads. *)
Theorem spawn_limit choose allowed M s :
  (0 ≤ M < 2 ^ 64)%Z → rtc (bounded_step choose allowed M) init s →
  (Z.of_nat (accounted s) ≤ total_count (guards s) ≤ M)%Z ∧
  ((∀ X id, allowed X id → id ∉ X) →
   Z.of_nat (accounted s) = total_count (guards s) ∧
   (slots_held (tasks s) = 0 →
    total_count (guards s) = Z.of_nat (size (threads_set (active_agents (guards s)))))).
Proof.
  intros HM Hs. destruct (counter_inv_reachable choose allowed M HM s Hs) as [Hle _].
  split; [done|]. intros Hfresh.
  pose proof (counter_exact choose allowed M HM s Hfresh Hs) as He. split; [done|].
  intros H0. unfold accounted in He. lia.
Qed.

(** A run of one task alone: its accesses in a row. *)
Lemma try_increment_runs choose allowed g max g' ok :
  try_increment_spawned g max = (g', ok) →
  rtc (λ x y, task_step choose allowed x.1 x.2 y.1 y.2) (g, ReserveStart (Some max))
    (g', if ok then Reserved None else Denied max).
Proof.
  unfold try_increment_spawned.
  destruct (max <=? total_count g)%Z eqn:E; intros [= <- <-].
  - apply Z.leb_le in E. apply rtc_l with (g, TryIncrement max (total_count g)); [constructor|].
    apply rtc_once. by constructor.
  - apply Z.leb_gt in E. apply rtc_l with (g, TryIncrement max (total_count g)); [constructor|].
    apply rtc_once. by constructor.
Qed.

(** ** Nicknames *)

(** A nickname handed out is recorded as used. Without a preference it is
    one of the names, numbered by the number of resets, and was not in use;
    only when all names are in use the pool is reset, and then the numbering
    changes. There is no nickname only without names to choose from. *)
Theorem reserve_agent_nickname_spec choose a names preferred a' result :
  (∀ l n, choose l = Some n → n ∈ l) → (∀ l, choose l = None → l = []) →
  reserve_agent_nickname choose a names preferred = (a', result) →
  threads_set a' = threads_set a ∧ thread_agent_nicknames a' = thread_agent_nicknames a ∧
  match result with
  | None => preferred = None ∧ names = [] ∧ a' = a
  | Some n =>
      n ∈ used_agent_nicknames a' ∧
      (preferred = Some n ∧ nickname_reset_count a' = nickname_reset_count a ∨
       preferred = None ∧ (∃ name, name ∈ names ∧ n = format_agent_nickname name (nickname_reset_count a')) ∧
       ((n ∉ used_agent_nicknames a) ∧ nickname_reset_count a' = nickname_reset_count a ∧
        used_agent_nicknames a' = {[n]} ∪ used_agent_nicknames a ∨
        (∀ name, name ∈ names →
           format_agent_nickname name (nickname_reset_count a) ∈ used_agent_nicknames a) ∧
        nickname_reset_count a' = (nickname_reset_count a + 1)%N ∧
        used_agent_nicknames a' = {[n]}))
  end.
Proof.
  intros Hin Hnone. unfold reserve_agent_nickname.
  destruct preferred as [p|]; [intros [= <- <-]; cbn; set_solver|].
  destruct names as [|name0 names0]; [by intros [= <- <-]|].
  set (names := name0 :: names0). destruct (choose _) as [n|] eqn:Ec.
  - intros [= <- <-]. apply Hin, elem_of_filterb in Ec as [Hn (name & -> & Hname)%list_elem_of_fmap].
    apply negb_true_iff, bool_decide_eq_false in Hn. cbn. split_and!; [done..|set_solver|].
    right. split; [done|]. split; [by exists name|]. by left.
  - apply Hnone in Ec. destruct (choose names) as [name|] eqn:En; [|by apply Hnone in En].
    intros [= <- <-]. apply Hin in En. cbn. split_and!; [done..|set_solver|].
    right. split; [done|]. split; [by exists name|]. right.
    split_and!; [|done|set_solver]. intros x Hx.
    destruct (decide (format_agent_nickname x (nickname_reset_count a) ∈ used_agent_nicknames a))
      as [?|Hn]; [done|].
    exfalso. eapply not_elem_of_nil. rewrite <- Ec. apply elem_of_filterb.
    rewrite negb_true_iff, bool_decide_eq_false. split; [done|]. apply list_elem_of_fmap. eauto.
Qed.

(** Two reservations committed for the same thread, then its release: a slot
    stays taken although no thread and no call is left. *)
Theorem recommit_keeps_slot choose :
  ∃ s, rtc (bounded_step choose (λ _ _, True) 2) init s ∧
    Forall (λ t, slots t = 0) (tasks s) ∧ threads_set (active_agents (guards s)) = ∅ ∧
    total_count (guards s) = 1%Z.
Proof.
  eexists {| guards := _; tasks := [Done; Done; Done] |}. split.
  - eapply rtc_l. { split; [apply (step_call _ _ _ _ (ReserveStart (Some 2%Z))); eauto|by repeat constructor]. }
    eapply rtc_l. { split; [apply (step_task _ _ _ [] _ []), step_reserve_load|by repeat constructor]. }
    eapply rtc_l.
    { split; [apply (step_task _ _ _ [] _ []), step_try_success; [done|done]|by repeat constructor]. }
    eapply rtc_l.
    { split; [apply (step_task _ _ _ [] _ []), (step_commit _ _ _ None 7%N None); done|by repeat constructor]. }
    eapply rtc_l. { split; [apply (step_call _ _ _ _ (ReserveStart (Some 2%Z))); eauto|by repeat constructor]. }
    eapply rtc_l.
    { split; [apply (step_task _ _ _ [Done] _ []), step_reserve_load|by repeat constructor]. }
    eapply rtc_l.
    { split; [apply (step_task _ _ _ [Done] _ []), step_try_success; [done|done]|by repeat constructor]. }
    eapply rtc_l.
    { split; [apply (step_task _ _ _ [Done] _ []), (step_commit _ _ _ None 7%N None); done|by repeat constructor]. }
    eapply rtc_l. { split; [apply (step_call _ _ _ _ (ReleaseStart 7%N)); eauto|by repeat constructor]. }
    eapply rtc_l.
    { split; [eapply (step_task _ _ _ [Done; Done] _ []), step_release_removed; done|by repeat constructor]. }
    eapply rtc_l.
    { split; [apply (step_task _ _ _ [Done; Done] _ []), step_release_decrement|by repeat constructor]. }
    apply rtc_refl.
  - cbn [tasks guards]. split_and!; [by repeat constructor|done|done].
Qed.

(** ** Applications of the theorems *)
Lemma spawn_limit_witness :
  ∃ s, rtc (bounded_step head (λ X id, id ∉ X) 1) init s ∧ tasks s = [Reserved None] ∧
       (Z.of_nat (accounted s) ≤ total_count (guards s) ≤ 1)%Z.
Proof.
  assert (rtc (bounded_step head (λ X id, id ∉ X) 1) init
    {| guards := set_total_count default_guards 1; tasks := [Reserved None] |}) as Hs.
  { eapply rtc_l.
    { split; [apply (step_call _ _ _ _ (ReserveStart (Some 1%Z))); eauto|by repeat constructor]. }
    eapply rtc_l. { split; [apply (step_task _ _ _ [] _ []), step_reserve_load|by repeat constructor]. }
    eapply rtc_l.
    { split; [apply (step_task _ _ _ [] _ []), step_try_success; [done|done]|by repeat constructor]. }
    apply rtc_refl. }
  exists {| guards := set_total_count default_guards 1; tasks := [Reserved None] |}.
  split; [exact Hs|]. split; [reflexivity|].
  apply (spawn_limit head (λ X id, id ∉ X) 1 _ ltac:(lia) Hs).
Defined.

Lemma reserve_agent_nickname_witness :
  ∃ a n, reserve_agent_nickname head (active_agents default_guards) [lit "Ada"] None = (a, Some n) ∧
         n ∈ used_agent_nicknames a.
Proof.
  destruct (reserve_agent_nickname head (active_agents default_guards) [lit "Ada"] None)
    as [a [n|]] eqn:E; [|discriminate E].
  exists a, n. split; [reflexivity|].
  apply (reserve_agent_nickname_spec head (active_agents default_guards) [lit "Ada"] None a (Some n));
    [|by intros []|exact E].
  intros [|x l] y; [done|]. intros [= <-]. apply list_elem_of_here.
Defined.
