(* ===== verification/Readiness.v ===== *)
(** * The readiness flag: [utils/readiness/src/lib.rs]

    A flag that becomes ready once, marked by the holder of a token, with
    tasks waiting on a watch channel.  Every step is one atomic access to the
    shared state: the atomic [ready], the token set under its asynchronous
    lock, the watch channel.  Steps of different tasks interleave freely.

    The watch channel is tokio's: [send] stores the value and wakes the
    receivers, and does nothing when there is no receiver; a receiver made by
    [subscribe] has seen the current value; [changed] completes at the next
    one. *)
From stdpp Require Import base tactics option sets gmap numbers strings list.
From S2P Require Import Prelude.

Local Open Scope Z_scope.

(** ** Data *)
Abbreviation Token := Z.

Record ReadinessFlag : Type := {
  ready : bool;
  next_id : Z;
  tokens : gset Token;
  locked : bool;
  watch_value : bool;
  watch_version : nat;
  receivers : nat;
}.

Definition new : ReadinessFlag := {|
  ready := false; next_id := 1; tokens := ∅; locked := false;
  watch_value := false; watch_version := 0; receivers := 0 |}.

Inductive ReadinessError : Type := TokenLockFailed | FlagAlreadyReady.

(** [AtomicI32::fetch_add] wraps around. *)
Definition i32_wrap (x : Z) : Z := (x + 2 ^ 31) mod 2 ^ 32 - 2 ^ 31.

(** Updates of the shared state. *)
Definition set_ready (f : ReadinessFlag) : ReadinessFlag := {|
  ready := true; next_id := next_id f; tokens := tokens f; locked := locked f;
  watch_value := watch_value f; watch_version := watch_version f; receivers := receivers f |}.
Definition set_locked (b : bool) (f : ReadinessFlag) : ReadinessFlag := {|
  ready := ready f; next_id := next_id f; tokens := tokens f; locked := b;
  watch_value := watch_value f; watch_version := watch_version f; receivers := receivers f |}.
Definition set_tokens (next : Z) (ts : gset Token) (f : ReadinessFlag) : ReadinessFlag := {|
  ready := ready f; next_id := next; tokens := ts; locked := locked f;
  watch_value := watch_value f; watch_version := watch_version f; receivers := receivers f |}.
Definition set_receivers (n : nat) (f : ReadinessFlag) : ReadinessFlag := {|
  ready := ready f; next_id := next_id f; tokens := tokens f; locked := locked f;
  watch_value := watch_value f; watch_version := watch_version f; receivers := n |}.

(** [tx.send(true)]. *)
Definition send_true (f : ReadinessFlag) : ReadinessFlag :=
  match receivers f with
  | O => f
  | S _ => {| ready := ready f; next_id := next_id f; tokens := tokens f; locked := locked f;
              watch_value := true; watch_version := S (watch_version f);
              receivers := receivers f |}
  end.

(** The loop of [subscribe]: the first id that is not zero and not taken. *)
Fixpoint next_token (fuel : nat) (next : Z) (ts : gset Token) : outcome False (Token * Z) :=
  match fuel with
  | O => NoFuel
  | S fuel' =>
      let token := next in
      if negb (bool_decide (token = 0)) && negb (bool_decide (token ∈ ts))
      then Ok (token, i32_wrap (next + 1))
      else next_token fuel' (i32_wrap (next + 1)) ts
  end.

(** The critical section of [subscribe]: [None] when the flag is ready. *)
Definition subscribe_locked (f : ReadinessFlag) : ReadinessFlag * option Token :=
  if ready f then (f, None)
  else match next_token (S (S (size (tokens f)))) (next_id f) (tokens f) with
       | Ok (token, next) => (set_tokens next ({[token]} ∪ tokens f) f, Some token)
       | _ => (f, None)
       end.

(** The critical section of [mark_ready]. *)
Definition mark_ready_locked (token : Token) (f : ReadinessFlag) : ReadinessFlag * bool :=
  if bool_decide (token ∈ tokens f)
  then (set_tokens (next_id f) ∅ (set_ready f), true)
  else (f, false).

(** ** Calls in progress

    One constructor per point at which a call can be interrupted.  [IsReady]
    calls carry what follows them: [true] in [wait_ready], [false] for a call
    of [is_ready] of its own. *)
Inductive task : Type :=
  | SubscribeStart | SubscribeLock | SubscribeLocked
  | SubscribeDone (result : outcome ReadinessError Token)
  | MarkStart (token : Token) | MarkLock (token : Token) | MarkLocked (token : Token) | MarkSend
  | MarkDone (result : outcome ReadinessError bool)
  | IsReadyStart (waiting : bool) | IsReadyTryLock (waiting : bool) | IsReadyLocked (waiting : bool)
  | IsReadySend (waiting : bool) | IsReadyReload (waiting : bool)
  | IsReadyDone (result : bool)
  | WaitSubscribe | WaitBorrow (seen : nat) | WaitChanged (seen : nat)
  | WaitDone.

(** What follows an [is_ready] that returned [b]. *)
Definition after_is_ready (waiting b : bool) : task :=
  if waiting then (if b then WaitDone else WaitSubscribe) else IsReadyDone b.

Inductive task_step : ReadinessFlag → task → ReadinessFlag → task → Prop :=
  (* subscribe *)
  | sub_check f :
      task_step f SubscribeStart f
        (if ready f then SubscribeDone (Err FlagAlreadyReady) else SubscribeLock)
  | sub_timeout f : task_step f SubscribeLock f (SubscribeDone (Err TokenLockFailed))
  | sub_lock f : locked f = false →
      task_step f SubscribeLock (set_locked true f) SubscribeLocked
  | sub_insert f f' token :
      subscribe_locked f = (f', token) →
      task_step f SubscribeLocked (set_locked false f')
        (SubscribeDone (match token with Some t => Ok t | None => Err FlagAlreadyReady end))
  (* mark_ready *)
  | mark_check f token :
      task_step f (MarkStart token) f
        (if ready f then MarkDone (Ok false)
         else if bool_decide (token = 0) then MarkDone (Ok false) else MarkLock token)
  | mark_timeout f token : task_step f (MarkLock token) f (MarkDone (Err TokenLockFailed))
  | mark_lock f token : locked f = false →
      task_step f (MarkLock token) (set_locked true f) (MarkLocked token)
  | mark_set f f' token b :
      mark_ready_locked token f = (f', b) →
      task_step f (MarkLocked token) (set_locked false f')
        (if b then MarkSend else MarkDone (Ok false))
  | mark_send f : task_step f MarkSend (send_true f) (MarkDone (Ok true))
  (* is_ready *)
  | is_check f w :
      task_step f (IsReadyStart w) f (if ready f then after_is_ready w true else IsReadyTryLock w)
  | is_try_fail f w : locked f = true →
      task_step f (IsReadyTryLock w) f (IsReadyReload w)
  | is_try_lock f w : locked f = false →
      task_step f (IsReadyTryLock w) (set_locked true f) (IsReadyLocked w)
  | is_not_empty f w : tokens f ≠ ∅ →
      task_step f (IsReadyLocked w) (set_locked false f) (IsReadyReload w)
  | is_swap f w : tokens f = ∅ →
      task_step f (IsReadyLocked w) (set_locked false (set_ready f))
        (if ready f then after_is_ready w true else IsReadySend w)
  | is_send f w : task_step f (IsReadySend w) (send_true f) (after_is_ready w true)
  | is_reload f w : task_step f (IsReadyReload w) f (after_is_ready w (ready f))
  (* wait_ready *)
  | wait_subscribe f :
      task_step f WaitSubscribe (set_receivers (S (receivers f)) f) (WaitBorrow (watch_version f))
  | wait_borrow f seen :
      task_step f (WaitBorrow seen) (if watch_value f then set_receivers (pred (receivers f)) f else f)
        (if watch_value f then WaitDone else WaitChanged seen)
  | wait_changed f seen : (seen < watch_version f)%nat →
      task_step f (WaitChanged seen) f (WaitBorrow (watch_version f)).

Record system : Type := { flag : ReadinessFlag; tasks : list task }.

(** The calls a client can make. *)
Definition is_call (t : task) : Prop :=
  match t with
  | SubscribeStart | MarkStart _ | IsReadyStart _ => True
  | _ => False
  end.

Inductive step : system → system → Prop :=
  | step_call f ts t : is_call t →
      step {| flag := f; tasks := ts |} {| flag := f; tasks := ts ++ [t] |}
  | step_task f ts1 t ts2 f' t' :
      task_step f t f' t' →
      step {| flag := f; tasks := ts1 ++ t :: ts2 |} {| flag := f'; tasks := ts1 ++ t' :: ts2 |}.

Definition init : system := {| flag := new; tasks := [] |}.

(** ** Tokens *)
Definition is_i32 (x : Z) : Prop := - 2 ^ 31 ≤ x < 2 ^ 31.

Lemma i32_wrap_range x : is_i32 (i32_wrap x).
Proof. unfold is_i32, i32_wrap. pose proof (Z.mod_pos_bound (x + 2 ^ 31) (2 ^ 32)). lia. Qed.

Lemma i32_wrap_id x : is_i32 x → i32_wrap x = x.
Proof. unfold is_i32, i32_wrap. intros. rewrite Z.mod_small by lia. lia. Qed.

Lemma i32_wrap_wrap x y : i32_wrap (i32_wrap x + y) = i32_wrap (x + y).
Proof.
  unfold i32_wrap. replace ((x + 2 ^ 31) mod 2 ^ 32 - 2 ^ 31 + y + 2 ^ 31)
    with ((x + 2 ^ 31) mod 2 ^ 32 + y) by lia.
  rewrite Zplus_mod_idemp_l. do 2 f_equal. lia.
Qed.

Lemma i32_wrap_inj x y : i32_wrap x = i32_wrap y → Z.abs (x - y) < 2 ^ 32 → x = y.
Proof.
  unfold i32_wrap. intros Heq Hlt.
  assert ((x + 2 ^ 31) mod 2 ^ 32 = (y + 2 ^ 31) mod 2 ^ 32) as Hm by lia.
  pose proof (Z.div_mod (x + 2 ^ 31) (2 ^ 32)). pose proof (Z.div_mod (y + 2 ^ 31) (2 ^ 32)).
  nia.
Qed.

(** Without a result, all the ids tried are zero or taken. *)
Lemma next_token_NoFuel fuel next ts :
  is_i32 next → next_token fuel next ts = NoFuel →
  ∀ k, (k < fuel)%nat → i32_wrap (next + Z.of_nat k) ∈ ({[0]} ∪ ts : gset Z).
Proof.
  revert next; induction fuel as [|fuel IH]; intros next Hn Ht k Hk; [lia|]. simpl in Ht.
  destruct k as [|k].
  - rewrite Z.add_0_r, i32_wrap_id by done.
    destruct (negb _ && _) eqn:E; [done|]. apply andb_false_iff in E as [E|E];
      apply negb_false_iff, bool_decide_eq_true in E; set_solver.
  - destruct (negb _ && _); [done|]. apply (IH _ (i32_wrap_range _)) with (k := k) in Ht; [|lia].
    rewrite i32_wrap_wrap in Ht. by replace (next + Z.of_nat (S k)) with (next + 1 + Z.of_nat k) by lia.
Qed.

Lemma next_token_Ok fuel next ts token next' :
  is_i32 next → next_token fuel next ts = Ok (token, next') →
  token ≠ 0 ∧ (token ∉ ts) ∧ is_i32 token ∧ is_i32 next'.
Proof.
  revert next; induction fuel as [|fuel IH]; intros next Hn; [done|]. simpl.
  destruct (negb _ && _) eqn:E; [|by apply IH, i32_wrap_range].
  apply andb_true_iff in E as [E1%negb_true_iff%bool_decide_eq_false
    E2%negb_true_iff%bool_decide_eq_false].
  intros [= <- <-]. split_and!; [done..|]. apply i32_wrap_range.
Qed.

Lemma next_token_returns next ts :
  is_i32 next → Z.of_nat (size ts) + 2 ≤ 2 ^ 32 →
  ∃ token next', next_token (S (S (size ts))) next ts = Ok (token, next').
Proof.
  intros Hn Hsize. destruct (next_token _ next ts) as [[token next']|[]| |] eqn:E; [by eauto| |].
  - exfalso. revert E. generalize (S (S (size ts))) as fuel. intros fuel. revert next Hn.
    induction fuel as [|fuel IH]; intros next Hn; [done|]. simpl.
    destruct (negb _ && _); [done|]. apply IH, i32_wrap_range.
  - exfalso. set (fuel := S (S (size ts))) in *.
    set (ids := (λ k, i32_wrap (next + Z.of_nat k)) <$> seq 0 fuel).
    assert (NoDup ids) as Hnd.
    { apply NoDup_fmap_2_strong; [|apply NoDup_seq]. intros k l Hk%elem_of_seq Hl%elem_of_seq Heq.
      apply i32_wrap_inj in Heq; lia. }
    assert (list_to_set ids ⊆ ({[0]} ∪ ts : gset Z)) as Hsub.
    { intros x (k & -> & Hk%elem_of_seq)%elem_of_list_to_set%list_elem_of_fmap.
      apply (next_token_NoFuel fuel); [done..|lia]. }
    apply subseteq_size in Hsub. rewrite size_list_to_set in Hsub by done.
    unfold ids in Hsub. rewrite length_fmap, length_seq in Hsub.
    pose proof (size_union_alt ({[0]} : gset Z) ts) as Hu.
    rewrite size_singleton in Hu.
    assert ((size (ts ∖ {[0%Z]}) ≤ size ts)%nat) by (apply subseteq_size; set_solver). lia.
Qed.

(** ** The invariant *)

(** The tokens handed out, and the calls of [mark_ready] that succeeded. *)
Definition token_of (t : task) : option Token :=
  match t with SubscribeDone (Ok token) => Some token | _ => None end.

Definition issued (ts : list task) : list Token := omap token_of ts.

Definition succeeded (t : task) : bool :=
  match t with MarkSend | MarkDone (Ok true) => true | _ => false end.

Definition successes (ts : list task) : nat := length (List.filter succeeded ts).

Record inv (s : system) : Prop := {
  inv_ready : ready (flag s) = true → tokens (flag s) = ∅;
  inv_next : is_i32 (next_id (flag s));
  inv_issued : NoDup (issued (tasks s)) ∧ Forall (λ t, t ≠ 0 ∧ is_i32 t) (issued (tasks s));
  inv_tokens : ready (flag s) = false → ∀ t, t ∈ tokens (flag s) ↔ t ∈ issued (tasks s);
  inv_success : (successes (tasks s) ≤ 1)%nat ∧
                (successes (tasks s) = 1%nat → ready (flag s) = true);
}.

Lemma issued_mid l t k : issued (l ++ t :: k) ≡ₚ option_list (token_of t) ++ issued (l ++ k).
Proof.
  unfold issued. rewrite !omap_app. cbn [omap list_omap]. destruct (token_of t); cbn; [|done].
  by rewrite Permutation_middle.
Qed.

Lemma successes_mid l t k :
  successes (l ++ t :: k) = ((if succeeded t then 1 else 0) + successes (l ++ k))%nat.
Proof.
  unfold successes. rewrite !List.filter_app, !length_app. cbn. destruct (succeeded t); cbn; lia.
Qed.

(** A step that issues no token, reports no success, and leaves the tokens and
    the flag as they are. *)
Lemma inv_quiet f f' l t t' k :
  inv {| flag := f; tasks := l ++ t :: k |} →
  ready f' = ready f → tokens f' = tokens f → next_id f' = next_id f →
  token_of t' = token_of t → succeeded t' = succeeded t →
  inv {| flag := f'; tasks := l ++ t' :: k |}.
Proof.
  intros [H1 H2 H3 H4 H5] Hr Ht Hn Hi Hs. simpl in *.
  rewrite (issued_mid l t k) in H3. setoid_rewrite (issued_mid l t k) in H4.
  rewrite successes_mid in H5.
  split; simpl.
  - by rewrite Hr, Ht.
  - by rewrite Hn.
  - by rewrite (issued_mid l t' k), Hi.
  - rewrite Hr, Ht. setoid_rewrite (issued_mid l t' k). by rewrite Hi.
  - rewrite successes_mid, Hr, Hs. done.
Qed.

Lemma send_true_shared f :
  ready (send_true f) = ready f ∧ tokens (send_true f) = tokens f ∧ next_id (send_true f) = next_id f.
Proof. unfold send_true. by destruct (receivers f). Qed.

(** Splits the tests of a step that changes nothing the invariant is about. *)
Ltac quiet_step :=
  unfold after_is_ready;
  repeat match goal with |- context [if ?b then _ else _] => destruct b end; done.

(** The two steps that change the tokens. *)
Lemma inv_sub_insert f f' token l k :
  inv {| flag := f; tasks := l ++ SubscribeLocked :: k |} → subscribe_locked f = (f', token) →
  inv {| flag := set_locked false f';
         tasks := l ++ SubscribeDone (match token with
                                      | Some t => Ok t
                                      | None => Err FlagAlreadyReady
                                      end) :: k |}.
Proof.
  intros Hinv. unfold subscribe_locked. destruct (ready f) eqn:Hr.
  { intros [= <- <-]. by eapply inv_quiet. }
  destruct (next_token _ _ _) as [[t next]| | |] eqn:En; intros [= <- <-];
    try by eapply inv_quiet.
  destruct Hinv as [H1 H2 H3 H4 H5].
  apply next_token_Ok in En as (Hnz & Hnew & Hi & Hn'); [|done]. simpl in *.
  rewrite (issued_mid l SubscribeLocked k) in H3. setoid_rewrite (issued_mid l SubscribeLocked k) in H4.
  rewrite successes_mid in H5. cbn in H3, H4, H5. destruct H3 as [Hnd Hall].
  split; simpl.
  - congruence.
  - done.
  - rewrite (issued_mid l (SubscribeDone (Ok t)) k). cbn. split; [|by constructor].
    constructor; [|done]. by rewrite <- H4.
  - intros _ x. rewrite (issued_mid l (SubscribeDone (Ok t)) k). cbn.
    rewrite elem_of_cons, <- H4 by done. set_solver.
  - rewrite successes_mid. exact H5.
Qed.

Lemma inv_mark_set f f' token b l k :
  inv {| flag := f; tasks := l ++ MarkLocked token :: k |} → mark_ready_locked token f = (f', b) →
  inv {| flag := set_locked false f';
         tasks := l ++ (if b then MarkSend else MarkDone (Ok false)) :: k |}.
Proof.
  intros Hinv. unfold mark_ready_locked. case_bool_decide as Hin; intros [= <- <-];
    [|by eapply inv_quiet].
  destruct Hinv as [H1 H2 H3 H4 H5]. simpl in *.
  assert (ready f = false) as Hr.
  { apply not_true_iff_false. intros Hr. rewrite H1 in Hin by done. set_solver. }
  rewrite (issued_mid l (MarkLocked token) k) in H3. rewrite successes_mid in H5. cbn in H3, H5.
  split; simpl; [done|done|by rewrite (issued_mid l MarkSend k)|done|].
  rewrite successes_mid. cbn. split; [|done].
  destruct (decide (successes (l ++ k) = 1%nat)) as [E|]; [|lia].
  rewrite (proj2 H5 E) in Hr. done.
Qed.

(** Setting the flag when there is no token. *)
Lemma inv_swap f l t t' k :
  inv {| flag := f; tasks := l ++ t :: k |} → tokens f = ∅ →
  token_of t' = token_of t → succeeded t' = succeeded t →
  inv {| flag := set_locked false (set_ready f); tasks := l ++ t' :: k |}.
Proof.
  intros [H1 H2 H3 H4 H5] He Hi Hs. simpl in *.
  rewrite (issued_mid l t k) in H3. rewrite successes_mid in H5. split; simpl; try done.
  - by rewrite (issued_mid l t' k), Hi.
  - rewrite successes_mid, Hs. split; [lia|done].
Qed.

Lemma inv_step s s' : inv s → step s s' → inv s'.
Proof.
  intros Hinv Hstep. destruct Hstep as [f ts t Hcall|f l t k f' t' Ht].
  - destruct Hinv as [H1 H2 H3 H4 H5]. simpl in *.
    assert (issued (ts ++ [t]) = issued ts) as Hi.
    { unfold issued. rewrite omap_app. destruct t; try done; cbn; by rewrite app_nil_r. }
    assert (successes (ts ++ [t]) = successes ts) as Hs.
    { unfold successes. rewrite List.filter_app, length_app. destruct t; try done; cbn; lia. }
    by split; simpl; rewrite ?Hi, ?Hs.
  - destruct Ht; try (eapply inv_quiet; [exact Hinv|..]; quiet_step).
    + by eapply inv_sub_insert.
    + by eapply inv_mark_set.
    + destruct (send_true_shared f) as (? & ? & ?). by eapply inv_quiet.
    + eapply inv_swap; [exact Hinv|done|..]; quiet_step.
    + destruct (send_true_shared f) as (? & ? & ?). eapply inv_quiet; [exact Hinv|done..| |];
        quiet_step.
Qed.

Lemma inv_reachable s : rtc step init s → inv s.
Proof.
  apply (rtc_ind_r inv init).
  - split; simpl.
    + done.
    + unfold is_i32. lia.
    + split; constructor.
    + intros _ t. by rewrite elem_of_empty, elem_of_nil.
    + unfold successes. simpl. split; [lia|done].
  - intros y z _ Hyz IH. by eapply inv_step.
Qed.

(** Under every interleaving of calls, the flag never goes back to not
    ready; tokens handed out are distinct, not zero and 32-bit numbers; at most
    one call of [mark_ready] succeeds, only when the flag was not ready, and
    only with a token that was handed out; once the flag is ready there is no
    token left, and no further one is handed out. *)
Theorem readiness_safe s s' :
  rtc step init s → step s s' →
  (ready (flag s) = true → ready (flag s') = true ∧ tokens (flag s) = ∅ ∧
     issued (tasks s') ≡ₚ issued (tasks s)) ∧
  NoDup (issued (tasks s')) ∧ Forall (λ t, t ≠ 0 ∧ is_i32 t) (issued (tasks s')) ∧
  (successes (tasks s') ≤ 1)%nat ∧
  (∀ token f' b, mark_ready_locked token (flag s) = (f', b) →
     (b = true ↔ ready (flag s) = false ∧ token ∈ issued (tasks s)) ∧ (b = true → ready f' = true)).
Proof.
  intros Hs Hstep. pose proof (inv_reachable _ Hs) as Hinv.
  pose proof (inv_step _ _ Hinv Hstep) as Hinv'.
  split_and!; [|apply Hinv'..|].
  - intros Hr. split_and!; [|by apply Hinv|].
    + destruct Hstep as [|f l t k f' t' Ht]; [done|]. simpl in *.
      destruct Ht; simpl; try done; try (destruct (send_true_shared f) as [-> _]; done).
      * unfold subscribe_locked in H. rewrite Hr in H. by simplify_eq.
      * unfold mark_ready_locked in H. case_bool_decide; by simplify_eq/=.
      * by destruct (watch_value f).
    + destruct Hstep as [f ts t Hcall|f l t k f' t' Ht]; simpl in *.
      * unfold issued. rewrite omap_app. destruct t; try done; cbn; by rewrite app_nil_r.
      * rewrite (issued_mid l t k), (issued_mid l t' k). apply Permutation_app_tail.
        assert (token_of t' = token_of t) as ->; [|done].
        destruct Ht; try quiet_step. unfold subscribe_locked in H. rewrite Hr in H. by simplify_eq.
  - intros token f' b. unfold mark_ready_locked. case_bool_decide as Hin; intros [= <- <-].
    + assert (ready (flag s) = false) as Hr.
      { apply not_true_iff_false. intros Hr. rewrite (inv_ready _ Hinv Hr) in Hin. set_solver. }
      split; [|done]. split; [|done]. intros _. split; [done|]. by apply (inv_tokens _ Hinv Hr).
    + split; [|done]. split; [done|]. intros [Hr Ht]. destruct Hin. by apply (inv_tokens _ Hinv Hr).
Qed.

(** ** Waiting *)
Definition waiting (t : task) : bool :=
  match t with WaitBorrow _ | WaitChanged _ => true | _ => false end.

Definition sending (t : task) : bool :=
  match t with MarkSend | IsReadySend _ => true | _ => false end.

(** How many steps of its own a waiting task is from completion. *)
Definition wait_rank (t : task) : nat :=
  match t with WaitChanged _ => 2 | WaitBorrow _ => 1 | _ => 0 end.

(** A waiting task has not seen a version that does not exist; once the value
    is [true], the version it is waiting on is an old one. *)
Definition seen_ok (f : ReadinessFlag) (t : task) : Prop :=
  match t with
  | WaitBorrow seen => (seen ≤ watch_version f)%nat
  | WaitChanged seen => (seen ≤ watch_version f)%nat ∧
                        (watch_value f = true → (seen < watch_version f)%nat)
  | _ => True
  end.

Definition wait_inv (s : system) : Prop := Forall (seen_ok (flag s)) (tasks s).

Lemma seen_ok_mono f f' t :
  watch_version f' = watch_version f → watch_value f' = watch_value f → seen_ok f t → seen_ok f' t.
Proof. intros Hv Hw. destruct t; simpl; rewrite ?Hv, ?Hw; done. Qed.

Lemma seen_ok_send f t : seen_ok f t → seen_ok (send_true f) t.
Proof.
  unfold send_true. destruct (receivers f); [done|]. destruct t; simpl; try done; [lia|].
  intros [? _]. lia.
Qed.

Lemma subscribe_locked_watch f f' token :
  subscribe_locked f = (f', token) →
  watch_version f' = watch_version f ∧ watch_value f' = watch_value f.
Proof.
  unfold subscribe_locked. destruct (ready f); [by intros [= <- _]|].
  destruct (next_token _ _ _) as [[]| | |]; by intros [= <- _].
Qed.

Lemma mark_locked_watch f f' token b :
  mark_ready_locked token f = (f', b) →
  watch_version f' = watch_version f ∧ watch_value f' = watch_value f.
Proof. unfold mark_ready_locked. case_bool_decide; by intros [= <- _]. Qed.

(** A step either broadcasts or leaves the channel's value alone. *)
Lemma task_step_watch f t f' t' :
  task_step f t f' t' →
  (sending t = true ∧ f' = send_true f) ∨
  (watch_version f' = watch_version f ∧ watch_value f' = watch_value f).
Proof.
  intros Ht. destruct Ht; try (by right); try (by left).
  - right. apply subscribe_locked_watch in H as [? ?]. done.
  - right. apply mark_locked_watch in H as [? ?]. done.
  - right. by destruct (watch_value f) eqn:?.
Qed.

Lemma seen_ok_result f t f' t' : task_step f t f' t' → seen_ok f t → seen_ok f' t'.
Proof.
  intros Ht. destruct Ht; simpl; try done; try (unfold after_is_ready;
    repeat match goal with |- context [if ?b then _ else _] => destruct b end; done).
  destruct (watch_value f) eqn:E; simpl; [done|]. intros ?. split; [done|congruence].
Qed.

Lemma wait_inv_step s s' : wait_inv s → step s s' → wait_inv s'.
Proof.
  unfold wait_inv. intros Hw Hstep. destruct Hstep as [f ts t Hcall|f l t k f' t' Ht]; simpl in *.
  - apply Forall_app. split; [done|]. constructor; [by destruct t|done].
  - rewrite Forall_app, Forall_cons in Hw. destruct Hw as (Hl & Htk & Hk).
    assert (∀ x, seen_ok f x → seen_ok f' x) as Hmono.
    { intros x. destruct (task_step_watch _ _ _ _ Ht) as [[_ ->]|[? ?]];
        [apply seen_ok_send|by apply seen_ok_mono]. }
    apply Forall_app. split; [by eapply Forall_impl|]. constructor; [by eapply seen_ok_result|].
    by eapply Forall_impl.
Qed.

Lemma wait_inv_reachable s : rtc step init s → wait_inv s.
Proof.
  apply (rtc_ind_r wait_inv init); [constructor|]. intros y z _ Hyz IH. by eapply wait_inv_step.
Qed.

(** Once a broadcast has reached the channel (it does when some task holds
    a receiver at that moment), every waiting task completes: no step of
    another task can undo it, it always has a step, and each of its own steps
    brings it closer to the end, at most two away. *)
Theorem wait_ready_progress s t :
  rtc step init s → t ∈ tasks s → waiting t = true →
  (∀ x f' x', sending x = true → (0 < receivers (flag s))%nat → task_step (flag s) x f' x' →
     watch_value f' = true) ∧
  (watch_value (flag s) = true →
   (∀ s', step s s' → watch_value (flag s') = true) ∧
   (wait_rank t ≤ 2)%nat ∧ (∃ f' t', task_step (flag s) t f' t') ∧
   ∀ f' t', task_step (flag s) t f' t' →
     (wait_rank t' < wait_rank t)%nat ∧ (waiting t' = true ∨ t' = WaitDone)).
Proof.
  intros Hs Ht Hw. split.
  - intros x f' x' Hsend Hr Hx. destruct (task_step_watch _ _ _ _ Hx) as [[_ ->]|_].
    + unfold send_true. destruct (receivers (flag s)); [lia|done].
    + destruct Hx; try done; unfold send_true; destruct (receivers f); try done; simpl in Hr; lia.
  - intros Hv. split_and!.
    + intros s' Hstep. destruct Hstep as [|f l x k f' x' Hx]; [done|]. simpl in *.
      destruct (task_step_watch _ _ _ _ Hx) as [[_ ->]|[_ ->]]; [|done].
      unfold send_true. by destruct (receivers f).
    + destruct t; simpl; lia.
    + pose proof (wait_inv_reachable s Hs) as Hok. unfold wait_inv in Hok.
      rewrite Forall_forall in Hok. specialize (Hok t Ht).
      destruct t as [| | | | | | | | | | | | | | | |seen|seen|]; try done; simpl in Hok.
      * eexists _, _. constructor.
      * eexists _, _. constructor. by apply Hok.
    + intros f' t' Hstep. destruct Hstep; try done; simpl.
      * rewrite Hv. simpl. split; [lia|by right].
      * split; [lia|by left].
Qed.

(** ** A lost wake-up *)

(** Nothing is left to broadcast. *)
Definition silent (s : system) : Prop :=
  ready (flag s) = true ∧ tokens (flag s) = ∅ ∧ watch_version (flag s) = 0%nat ∧
  Forall (λ t, sending t = false) (tasks s).

Lemma silent_task_step f t f' t' :
  ready f = true → tokens f = ∅ → sending t = false → task_step f t f' t' →
  ready f' = true ∧ tokens f' = ∅ ∧ watch_version f' = watch_version f ∧ sending t' = false.
Proof.
  intros Hr He Hs Ht. destruct Ht; simpl; rewrite ?Hr; try done;
    try (unfold after_is_ready;
         repeat match goal with |- context [if ?b then _ else _] => destruct b end; done).
  - unfold subscribe_locked in H. rewrite Hr in H. by simplify_eq/=.
  - unfold mark_ready_locked in H. rewrite He, bool_decide_eq_false_2 in H by set_solver.
    by simplify_eq/=.
Qed.

Lemma silent_step s s' : silent s → step s s' → silent s'.
Proof.
  intros (Hr & He & Hv & Hs) Hstep. destruct Hstep as [f ts t Hcall|f l t k f' t' Ht]; simpl in *.
  - split_and!; [done..|]. apply Forall_app. split; [done|]. constructor; [by destruct t|done].
  - rewrite Forall_app, Forall_cons in Hs. destruct Hs as (Hl & Hst & Hk).
    destruct (silent_task_step _ _ _ _ Hr He Hst Ht) as (? & ? & ? & ?).
    split_and!; simpl; [done..|congruence|]. apply Forall_app. split; [done|]. by constructor.
Qed.

Lemma middle_lookup {A} (l k : list A) x y i :
  i ≠ length l → (l ++ y :: k) !! i = (l ++ x :: k) !! i.
Proof.
  intros Hi. destruct (decide (i < length l)%nat).
  - by rewrite !lookup_app_l by done.
  - rewrite !lookup_app_r by lia. by destruct (i - length l)%nat eqn:E; [lia|].
Qed.

(** A task that waits for the next version in a silent state waits forever. *)
Lemma silent_waits s i :
  silent s → tasks s !! i = Some (WaitChanged 0) →
  ∀ s', rtc step s s' → tasks s' !! i = Some (WaitChanged 0).
Proof.
  intros Hsil Hi s' Hss'.
  enough (silent s' ∧ tasks s' !! i = Some (WaitChanged 0)) by naive_solver.
  revert s' Hss'. apply (rtc_ind_r (λ s', silent s' ∧ tasks s' !! i = Some (WaitChanged 0)) s); [done|].
  intros y z _ Hyz [Hy Hyi]. split; [by eapply silent_step|].
  destruct Hyz as [f ts t _|f l t k f' t' Ht]; simpl in *.
  - by apply lookup_app_l_Some.
  - destruct (decide (i = length l)) as [->|Hne]; [|by rewrite (middle_lookup l k t)].
    exfalso. rewrite list_lookup_middle in Hyi by done. simplify_eq.
    destruct Hy as (_ & _ & Hv & _). simpl in Hv. inversion Ht; subst. lia.
Qed.

(** A waiting task can miss the wake-up: when the flag is marked after
    [wait_ready] has found it not ready and before it has subscribed to the
    channel, the broadcast finds no receiver and is lost, and the task waits
    forever although the flag is ready. *)
Theorem lost_wakeup :
  ∃ s i, rtc step init s ∧ MarkDone (Ok true) ∈ tasks s ∧ ready (flag s) = true ∧
    tasks s !! i = Some (WaitChanged 0) ∧
    ∀ s', rtc step s s' → tasks s' !! i = Some (WaitChanged 0).
Proof.
  set (s := {| flag := {| ready := true; next_id := 2; tokens := ∅; locked := false;
                          watch_value := false; watch_version := 0; receivers := 1 |};
               tasks := [SubscribeDone (Ok 1); WaitChanged 0; MarkDone (Ok true)] |}).
  exists s, 1%nat. split_and!; [|set_solver|done|done|].
  2: { apply silent_waits; [|done]. split_and!; [done..|]. by repeat constructor. }
  eapply rtc_l; [by apply (step_call _ _ SubscribeStart)|].
  eapply rtc_l; [apply (step_task _ [] _ []), sub_check|].
  eapply rtc_l; [by apply (step_task _ [] _ []), sub_lock|].
  eapply rtc_l; [by eapply (step_task _ [] _ []), sub_insert|].
  eapply rtc_l; [by apply (step_call _ _ (IsReadyStart true))|].
  eapply rtc_l; [apply (step_task _ [_] _ []), is_check|].
  eapply rtc_l; [by apply (step_task _ [_] _ []), is_try_lock|].
  eapply rtc_l; [apply (step_task _ [_] _ []), is_not_empty|].
  { vm_compute. discriminate. }
  eapply rtc_l; [apply (step_task _ [_] _ []), is_reload|].
  eapply rtc_l; [by apply (step_call _ _ (MarkStart 1))|].
  eapply rtc_l; [apply (step_task _ [_; _] _ []), mark_check|].
  eapply rtc_l; [by apply (step_task _ [_; _] _ []), mark_lock|].
  eapply rtc_l; [by eapply (step_task _ [_; _] _ []), mark_set|].
  eapply rtc_l; [apply (step_task _ [_; _] _ []), mark_send|].
  eapply rtc_l; [apply (step_task _ [_] _ [_]), wait_subscribe|].
  eapply rtc_l; [apply (step_task _ [_] _ [_]), wait_borrow|].
  apply rtc_refl.
Qed.

(** ** Applications of the theorems *)
Lemma readiness_safe_witness :
  NoDup (issued (tasks {| flag := new; tasks := [SubscribeStart] |})).
Proof.
  apply (readiness_safe init {| flag := new; tasks := [SubscribeStart] |}); [apply rtc_refl|].
  by apply (step_call new []).
Defined.

(** A task that holds a receiver when the flag is marked. *)
Definition waiting_state : system :=
  {| flag := {| ready := true; next_id := 2; tokens := ∅; locked := false;
                watch_value := false; watch_version := 0; receivers := 1 |};
     tasks := [SubscribeDone (Ok 1); WaitBorrow 0; MarkSend] |}.

Lemma waiting_state_reachable : rtc step init waiting_state.
Proof.
  eapply rtc_l; [by apply (step_call _ _ SubscribeStart)|].
  eapply rtc_l; [apply (step_task _ [] _ []), sub_check|].
  eapply rtc_l; [by apply (step_task _ [] _ []), sub_lock|].
  eapply rtc_l; [by eapply (step_task _ [] _ []), sub_insert|].
  eapply rtc_l; [by apply (step_call _ _ (IsReadyStart true))|].
  eapply rtc_l; [apply (step_task _ [_] _ []), is_check|].
  eapply rtc_l; [by apply (step_task _ [_] _ []), is_try_lock|].
  eapply rtc_l; [apply (step_task _ [_] _ []), is_not_empty|].
  { vm_compute. discriminate. }
  eapply rtc_l; [apply (step_task _ [_] _ []), is_reload|].
  eapply rtc_l; [apply (step_task _ [_] _ []), wait_subscribe|].
  eapply rtc_l; [by apply (step_call _ _ (MarkStart 1))|].
  eapply rtc_l; [apply (step_task _ [_; _] _ []), mark_check|].
  eapply rtc_l; [by apply (step_task _ [_; _] _ []), mark_lock|].
  eapply rtc_l; [by eapply (step_task _ [_; _] _ []), mark_set|].
  apply rtc_refl.
Qed.

Lemma wait_ready_progress_witness :
  watch_value (send_true (flag waiting_state)) = true.
Proof.
  apply (wait_ready_progress waiting_state (WaitBorrow 0) waiting_state_reachable
    (list_elem_of_further _ _ _ (list_elem_of_here _ _)) eq_refl)
    with (x := MarkSend) (x' := MarkDone (Ok true)); [reflexivity|simpl; lia|apply mark_send].
Defined.
