(* ===== verification/Compact.v ===== *)
(** * Compaction of a history: [core/src/compact.rs] and the user messages of
    [core/src/event_mapping.rs]

    What survives a compaction: the newest user messages within a token
    budget, the summary, and the initial context at the place the model
    expects it. *)
From stdpp Require Import base tactics option numbers strings list.
From S2P Require Import Prelude.
From S2P Require Import RustStr.
From S2P Require Import Models.
From S2P Require Import Truncate.
From S2P Require Import Normalize.
From S2P Require Import History.

Local Open Scope Z_scope.

(** ** User messages: [event_mapping.rs] *)

(** A span of a text, in bytes, with what is shown for it. *)
Record TextElement : Type := {
  byte_range : Z * Z;
  placeholder : option str;
}.

Inductive UserInput : Type :=
  | UserText (text : str) (text_elements : list TextElement)
  | UserImage (image_url : str)
  | LocalImage (path : str)
  | Skill (name path : str)
  | Mention (name path : str).

Definition IMAGE_OPEN_TAG : str := lit "<image>".
Definition IMAGE_CLOSE_TAG : str := lit "</image>".
Definition LOCAL_IMAGE_OPEN_TAG_PREFIX : str := lit "<image name=".
Definition LOCAL_IMAGE_OPEN_TAG_SUFFIX : str := lit ">".

Definition is_local_image_open_tag_text (text : str) : bool :=
  match strip_prefix LOCAL_IMAGE_OPEN_TAG_PREFIX text with
  | Some rest => ends_with LOCAL_IMAGE_OPEN_TAG_SUFFIX rest
  | None => false
  end.

Definition is_image_open_tag_text (text : str) : bool := bool_decide (text = IMAGE_OPEN_TAG).
Definition is_image_close_tag_text (text : str) : bool := bool_decide (text = IMAGE_CLOSE_TAG).
Definition is_local_image_close_tag_text (text : str) : bool := is_image_close_tag_text text.

Definition is_input_image (c : option ContentItem) : bool :=
  match c with Some (InputImage _) => true | _ => false end.

(** The loop of [parse_user_message]; [before] is the item at the previous
    index. *)
Fixpoint parse_user_content (before : option ContentItem) (message : list ContentItem) :
    list UserInput :=
  match message with
  | [] => []
  | content_item :: rest =>
      let tail := parse_user_content (Some content_item) rest in
      match content_item with
      | InputText text =>
          if ((is_local_image_open_tag_text text || is_image_open_tag_text text)
              && is_input_image (head rest))
             || ((is_local_image_close_tag_text text || is_image_close_tag_text text)
                 && is_input_image before)
          then tail
          else UserText text [] :: tail
      | InputImage image_url => UserImage image_url :: tail
      | OutputText _ => tail
      end
  end.

Definition parse_user_message (message : list ContentItem) : option (list UserInput) :=
  if is_contextual_user_message_content message then None
  else Some (parse_user_content None message).

(** [UserMessageItem::message]. *)
Definition user_message_text (content : list UserInput) : str :=
  mjoin ((λ c, match c with UserText text _ => text | _ => [] end) <$> content).

Section Items.
Context {Value : Type}.
Abbreviation item := (ResponseItem Value).

(** The user message [parse_turn_item] reads an item as, if it does. *)
Definition parse_user_item (i : item) : option (list UserInput) :=
  match i with
  | Message _ role content _ _ =>
      if bool_decide (role = lit "user") then parse_user_message content else None
  | _ => None
  end.

(** ** [compact.rs] *)
Definition SUMMARY_PREFIX : str :=
  lit "Another language model started to solve this problem and produced a summary of its thinking process. You also have access to the state of the tools that were used by that language model. Use this to build on the work that has already been done and avoid duplicating work. Here is the summary produced by the other language model, use the information in this summary to assist with your own analysis:".

Definition COMPACT_USER_MESSAGE_MAX_TOKENS : Z := 20000.

Definition is_summary_message (message : str) : bool :=
  starts_with (SUMMARY_PREFIX ++ [NL]) message.

Definition content_items_to_text (content : list ContentItem) : option str :=
  let pieces := omap (λ c, match c with
                           | InputText text | OutputText text =>
                               if bool_decide (text = []) then None else Some text
                           | InputImage _ => None
                           end) content in
  match pieces with [] => None | _ => Some (RustStr.join [NL] pieces) end.

Definition collect_user_messages (items : list item) : list str :=
  omap (λ i, match parse_user_item i with
             | Some user =>
                 let message := user_message_text user in
                 if is_summary_message message then None else Some message
             | None => None
             end) items.

(** The loop over the messages from the newest on. *)
Fixpoint select_messages (remaining : Z) (newest_first : list str) :
    outcome Empty_set (list str) :=
  match newest_first with
  | [] => Ok []
  | message :: older =>
      if remaining =? 0 then Ok []
      else
        let tokens := approx_token_count message in
        if tokens <=? remaining then
          rest ← select_messages (sat_sub remaining tokens) older;
          Ok (message :: rest)
        else
          truncated ← truncate_text message (Tokens remaining);
          Ok [truncated]
  end.

Definition user_text_message (text : str) : item :=
  Message None (lit "user") [InputText text] None None.

Definition build_compacted_history_with_limit (history : list item) (user_messages : list str)
    (summary_text : str) (max_tokens : Z) : outcome Empty_set (list item) :=
  selected_messages ←
    (if 0 <? max_tokens then select_messages max_tokens (reverse user_messages) else Ok []);
  let summary_text :=
    if bool_decide (summary_text = []) then lit "(no summary available)" else summary_text in
  Ok (history ++ (user_text_message <$> reverse selected_messages)
      ++ [user_text_message summary_text]).

Definition build_compacted_history (initial_context : list item) (user_messages : list str)
    (summary_text : str) : outcome Empty_set (list item) :=
  build_compacted_history_with_limit initial_context user_messages summary_text
    COMPACT_USER_MESSAGE_MAX_TOKENS.

(** [parse_turn_item] of an item is a user message that is not a summary. *)
Definition is_real_user (i : item) : bool :=
  match parse_user_item i with
  | Some user => negb (is_summary_message (user_message_text user))
  | None => false
  end.

(** The backwards loop: the last user message that is no summary, and the last
    user message of either kind. *)
Definition last_real_user_index (l : list item) : option nat := rposition is_real_user l.
Definition last_user_or_summary_index (l : list item) : option nat :=
  rposition (λ i, match parse_user_item i with Some _ => true | None => false end) l.
Definition last_compaction_index (l : list item) : option nat :=
  rposition (λ i, match i with Compaction _ => true | _ => false end) l.

Definition insertion_index (l : list item) : option nat :=
  match last_real_user_index l with
  | Some i => Some i
  | None =>
      match last_user_or_summary_index l with
      | Some i => Some i
      | None => last_compaction_index l
      end
  end.

Definition insert_initial_context_before_last_real_user_or_summary
    (compacted_history initial_context : list item) : list item :=
  match insertion_index compacted_history with
  | Some i => take i compacted_history ++ initial_context ++ drop i compacted_history
  | None => compacted_history ++ initial_context
  end.
End Items.

(** ** What a compaction keeps *)
Definition tokens_of (messages : list str) : Z := foldr Z.add 0 (approx_token_count <$> messages).

Lemma approx_token_count_nonneg s : 0 ≤ approx_token_count s.
Proof.
  unfold approx_token_count, APPROX_BYTES_PER_TOKEN. apply Z.div_pos; [|lia].
  pose proof (byte_len_nonneg s). usize_lia.
Qed.

Lemma tokens_of_nonneg l : 0 ≤ tokens_of l.
Proof.
  induction l as [|m l IH]; [done|]. pose proof (approx_token_count_nonneg m).
  unfold tokens_of in *. cbn [fmap list_fmap foldr]. lia.
Qed.

Lemma tokens_of_cons m l : tokens_of (m :: l) = approx_token_count m + tokens_of l.
Proof. done. Qed.

Lemma tokens_of_reverse l : tokens_of (reverse l) = tokens_of l.
Proof.
  assert (Happ : ∀ l m, tokens_of (l ++ [m]) = tokens_of l + approx_token_count m).
  { intros k m. induction k as [|x k IH]; [unfold tokens_of; cbn; lia|].
    cbn [app]. rewrite !tokens_of_cons, IH. lia. }
  induction l as [|m l IH]; [done|]. rewrite reverse_cons, Happ, IH, tokens_of_cons. lia.
Qed.

(** Of the messages, the newest that fit the budget are kept, and the budget
    left, if any, goes to a cut of the next older one. *)
Definition newest_within (max_tokens : Z) (messages kept : list str) : Prop :=
  (∃ dropped, messages = dropped ++ kept ∧ tokens_of kept ≤ max_tokens ∧
     (dropped = [] ∨ tokens_of kept = max_tokens)) ∨
  (∃ dropped over whole cut, messages = dropped ++ over :: whole ∧ kept = cut :: whole ∧
     tokens_of whole < max_tokens < tokens_of (over :: whole) ∧
     truncated_as (Tokens (max_tokens - tokens_of whole)) over cut).

Lemma select_messages_spec remaining newest_first :
  is_usize remaining → Forall (λ m, byte_len m ≤ usize_max) newest_first →
  ∃ kept, select_messages remaining newest_first = Ok kept ∧
    newest_within remaining (reverse newest_first) (reverse kept).
Proof.
  intros Hr Hm. revert remaining Hr; induction Hm as [|m older Hm _ IH]; intros r Hr; cbn [select_messages].
  { exists []. split; [done|]. left. exists []. cbn. unfold is_usize in Hr. split_and!; [done|lia|by left]. }
  destruct (Z.eqb_spec r 0) as [->|Hnz].
  { exists []. split; [done|]. left. exists (reverse (m :: older)). rewrite app_nil_r. by split_and!; [| |right]. }
  cbv zeta. pose proof (approx_token_count_nonneg m) as Hpos.
  destruct (Z.leb_spec (approx_token_count m) r) as [Hfit|Hover].
  - replace (sat_sub r (approx_token_count m)) with (r - approx_token_count m) by usize_lia.
    destruct (IH (r - approx_token_count m)) as (kept & -> & Hk); [usize_lia|].
    exists (m :: kept). split; [done|]. rewrite !reverse_cons.
    assert (Hsum : ∀ k, tokens_of (k ++ [m]) = tokens_of k + approx_token_count m).
    { intros k. rewrite <-(tokens_of_reverse (k ++ [m])), reverse_snoc, tokens_of_cons, tokens_of_reverse. lia. }
    destruct Hk as [(dropped & He & Hle & Hd)|(dropped & over & whole & cut & He & Hk & Hb & Ht)].
    + left. exists dropped. rewrite He, <-app_assoc, Hsum. split_and!; [done|lia|].
      destruct Hd; [by left|right; lia].
    + right. exists dropped, over, (whole ++ [m]), cut.
      rewrite He, Hk, <-app_assoc. split_and!; [done|done| | |].
      1-2: rewrite ?app_comm_cons, ?Hsum; lia.
      rewrite Hsum. by replace (r - _) with (r - approx_token_count m - tokens_of whole) by lia.
  - destruct (truncate_text_truncates m (Tokens r)) as (cut & -> & [[Hf _]|[_ Hcut]]); [done|done| |].
    { pose proof (cost_over_budget (Tokens r) m r ltac:(unfold is_usize in Hr; lia) Hm Hover) as Hc.
      cbn [with_limit] in Hc. lia. }
    exists [cut]. split; [done|]. right. exists (reverse older), m, [], cut. rewrite reverse_cons.
    unfold is_usize in Hr.
    split_and!; [done|done|unfold tokens_of; cbn; lia|unfold tokens_of; cbn; lia|].
    unfold tokens_of. cbn [fmap list_fmap foldr]. by rewrite Z.sub_0_r.
Qed.

Definition summary_or_default (summary_text : str) : str :=
  if bool_decide (summary_text = []) then lit "(no summary available)" else summary_text.

Lemma newest_within_all max_tokens messages kept :
  tokens_of messages ≤ max_tokens → newest_within max_tokens messages kept → kept = messages ∨
  ∃ dropped, messages = dropped ++ kept ∧ tokens_of dropped = 0.
Proof.
  assert (Happ : ∀ a b, tokens_of (a ++ b) = tokens_of a + tokens_of b).
  { intros a b. induction a as [|x a IH]; [done|]. cbn [app]. rewrite !tokens_of_cons, IH. lia. }
  intros Hle [(dropped & -> & Hk & Hd)|(dropped & over & whole & cut & -> & _ & Hb & _)];
    rewrite Happ in Hle.
  - right. exists dropped. split; [done|]. pose proof (tokens_of_nonneg dropped).
    destruct Hd as [->|Hd]; [done|lia].
  - pose proof (tokens_of_nonneg dropped). lia.
Qed.

(** A text that is read back from a message of its own as it is: neither a
    contextual fragment nor a summary. *)
Definition plain_message (text : str) : Prop :=
  is_contextual_user_fragment (InputText text) = false ∧ is_summary_message text = false.

Lemma parse_user_text_message {Value} text :
  is_contextual_user_fragment (InputText text) = false →
  parse_user_item (Value:=Value) (user_text_message text) = Some [UserText text []].
Proof.
  intros Hc. unfold parse_user_item, user_text_message, parse_user_message.
  rewrite bool_decide_true by done. unfold is_contextual_user_message_content. cbn [existsb].
  rewrite Hc. cbn [orb parse_user_content head is_input_image]. by rewrite !andb_false_r.
Qed.

Lemma user_message_text_singleton text : user_message_text [UserText text []] = text.
Proof. apply app_nil_r. Qed.

Lemma collect_user_text_messages {Value} (texts : list str) :
  Forall plain_message texts →
  collect_user_messages (Value:=Value) (user_text_message <$> texts) = texts.
Proof.
  induction 1 as [|t ts [Hc Hs] _ IH]; [done|]. cbn [fmap list_fmap]. unfold collect_user_messages in *.
  cbn [omap list_omap]. rewrite parse_user_text_message by done. cbv zeta.
  rewrite user_message_text_singleton, Hs. by f_equal.
Qed.

(** A summary is not contextual: no contextual fragment starts the way it does. *)
Lemma summary_not_real {Value} (i : ResponseItem Value) text :
  i = user_text_message text → is_summary_message text = true → collect_user_messages [i] = [].
Proof.
  intros -> Hs. unfold collect_user_messages. cbn [omap list_omap].
  destruct (is_contextual_user_fragment (InputText text)) eqn:Hc.
  - unfold parse_user_item, user_text_message, parse_user_message.
    rewrite bool_decide_true by done. unfold is_contextual_user_message_content. cbn [existsb].
    by rewrite Hc.
  - rewrite parse_user_text_message by done. cbv zeta. by rewrite user_message_text_singleton, Hs.
Qed.

(** ** Theorems *)
Section theorems.
Context {Value : Type}.
Implicit Types (history initial : list (ResponseItem Value)).

(** [build_compacted_history_with_limit] always returns the given context, the newest user
    messages in their order and the summary: the messages that fit the budget
    are kept whole, the budget left goes to the next older message, whose
    middle is cut to it, and older ones are dropped only when the budget is
    used up. *)
Theorem compacted_history_spec history messages summary max_tokens :
  is_usize max_tokens → Forall (λ m, byte_len m ≤ usize_max) messages →
  ∃ kept, build_compacted_history_with_limit history messages summary max_tokens =
      Ok (history ++ (user_text_message <$> kept) ++ [user_text_message (summary_or_default summary)]) ∧
    newest_within max_tokens messages kept.
Proof.
  intros Hmax Hm. unfold build_compacted_history_with_limit. destruct (Z.ltb_spec 0 max_tokens) as [Hpos|Hz].
  - destruct (select_messages_spec max_tokens (reverse messages)) as (kept & -> & Hk);
      [done|by apply Forall_reverse|].
    exists (reverse kept). split; [done|]. by rewrite reverse_involutive in Hk.
  - exists []. split; [done|]. left. exists messages. rewrite app_nil_r. unfold is_usize in Hmax.
    split_and!; [done|unfold tokens_of; cbn; lia|right; unfold tokens_of; cbn; lia].
Qed.

(** Compacting again loses nothing: user messages that fit the budget, none of them empty, are
    read back from the compacted history exactly, the summary is not taken for
    one of them, and the second compaction keeps them all. *)
Theorem recompaction_keeps_messages messages summary summary' :
  Forall (λ m, byte_len m ≤ usize_max) messages →
  tokens_of messages ≤ COMPACT_USER_MESSAGE_MAX_TOKENS →
  Forall (λ m, plain_message m ∧ 0 < approx_token_count m) messages →
  is_summary_message summary = true →
  ∃ compacted, build_compacted_history (Value:=Value) [] messages summary = Ok compacted ∧
    collect_user_messages compacted = messages ∧
    build_compacted_history [] (collect_user_messages compacted) summary' =
      Ok ((user_text_message <$> messages) ++ [user_text_message (Value:=Value) (summary_or_default summary')]).
Proof.
  intros Hm Hle Hp Hs.
  assert (Hall : ∀ s, build_compacted_history (Value:=Value) [] messages s =
    Ok ((user_text_message <$> messages) ++ [user_text_message (summary_or_default s)])).
  { intros s. unfold build_compacted_history, build_compacted_history_with_limit.
    destruct (select_messages_spec COMPACT_USER_MESSAGE_MAX_TOKENS (reverse messages))
      as (kept & Hsel & Hk); [by vm_compute|by apply Forall_reverse|].
    rewrite reverse_involutive in Hk.
    change (0 <? COMPACT_USER_MESSAGE_MAX_TOKENS) with true. cbv iota.
    rewrite Hsel. cbn [mbind outcome_bind app]. do 3 f_equal. f_equal.
    destruct (newest_within_all _ _ _ Hle Hk) as [?|([|m dropped] & Hd & Hz)]; [done|by symmetry|].
    rewrite Hd in Hp. apply Forall_inv in Hp as [_ Hp]. rewrite tokens_of_cons in Hz.
    pose proof (tokens_of_nonneg dropped). lia. }
  eexists. split; [apply Hall|].
  assert (Hc : collect_user_messages ((user_text_message (Value:=Value) <$> messages) ++
    [user_text_message (summary_or_default summary)]) = messages).
  { unfold collect_user_messages. rewrite omap_app.
    change (omap _ [?x]) with (collect_user_messages [x]).
    rewrite (summary_not_real _ (summary_or_default summary) eq_refl), app_nil_r.
    - apply collect_user_text_messages. eapply Forall_impl; [done|]. naive_solver.
    - unfold summary_or_default. case_bool_decide; [by subst|done]. }
  rewrite Hc. split; [done|apply Hall].
Qed.

(** [insert_initial_context_before_last_real_user_or_summary] splices the
    context, unchanged, into the history, unchanged: right before the last
    user message that is no summary; with none, before the last summary; with
    no user message, before the last compaction item; and else at the end. *)
Theorem insert_initial_context_spec history initial :
  ∃ before after, history = before ++ after ∧
    insert_initial_context_before_last_real_user_or_summary history initial = before ++ initial ++ after ∧
    let is_user i := match parse_user_item i with Some _ => true | None => false end in
    let is_compaction i := match i with Compaction _ => true | _ => false end in
    if existsb is_real_user history then before_last is_real_user history before
    else if existsb is_user history then before_last is_user history before
    else if existsb is_compaction history then before_last is_compaction history before
    else after = [].
Proof.
  unfold insert_initial_context_before_last_real_user_or_summary, insertion_index.
  assert (Hcut : ∀ f n, rposition f history = Some n →
    existsb f history = true ∧ before_last f history (take n history)).
  { intros f n Hn. pose proof (rposition_existsb _ _ _ Hn) as He. split; [done|].
    unfold before_last. rewrite He. destruct (rposition_Some _ _ _ Hn) as (pre & i & post & Hi & Hl & Hf & Hp).
    exists i, post. subst history n. by rewrite take_app_length. }
  unfold last_real_user_index, last_user_or_summary_index, last_compaction_index.
  destruct (rposition is_real_user history) as [n|] eqn:Hn1;
    [|destruct (rposition (λ i, match parse_user_item i with Some _ => true | None => false end) history)
        as [n|] eqn:Hn2;
      [|destruct (rposition (λ i, match i with Compaction _ => true | _ => false end) history)
          as [n|] eqn:Hn3]].
  1-3: exists (take n history), (drop n history).
  4: exists history, []; rewrite !app_nil_r.
  all: split_and!; [by rewrite ?take_drop|done|]; cbv zeta;
    repeat match goal with
    | H : rposition _ _ = None |- _ => rewrite (rposition_None _ _ H); clear H
    | H : rposition _ _ = Some _ |- _ => destruct (Hcut _ _ H) as [-> ?]; clear H
    end; done.
Qed.
End theorems.

(** ** Witnesses *)
Lemma compacted_history_witness :
  ∃ kept, build_compacted_history_with_limit (Value:=unit) [] [lit "first"; lit "second"] (lit "sum") 3 =
      Ok ([] ++ (user_text_message <$> kept) ++ [user_text_message (summary_or_default (lit "sum"))]) ∧
    newest_within 3 [lit "first"; lit "second"] kept.
Proof. apply compacted_history_spec; [by vm_compute|repeat constructor; by vm_compute]. Defined.

Lemma recompaction_keeps_messages_witness :
  ∃ compacted, build_compacted_history (Value:=unit) [] [lit "first"; lit "second"] (SUMMARY_PREFIX ++ [NL]) =
      Ok compacted ∧
    collect_user_messages compacted = [lit "first"; lit "second"] ∧
    build_compacted_history [] (collect_user_messages compacted) (lit "sum") =
      Ok ((user_text_message <$> [lit "first"; lit "second"]) ++
          [user_text_message (Value:=unit) (summary_or_default (lit "sum"))]).
Proof.
  apply recompaction_keeps_messages; [repeat constructor; by vm_compute|by vm_compute| |by vm_compute].
  repeat constructor; by vm_compute.
Defined.
