(* ===== verification/Rollout.v ===== *)
(** * Rollouts: [core/src/rollout/policy.rs], [core/src/rollout/truncation.rs]
    and [core/src/codex/rollout_reconstruction.rs]

    A session is persisted as a list of rollout items.  This file models which
    items are written, how a fork cuts the list, and how a resumed session
    rebuilds its history and settings: a scan from the newest item back, which
    finds the newest surviving checkpoint, then a replay of what follows it. *)
From stdpp Require Import base tactics option numbers strings list.
From S2P Require Import Prelude.
From S2P Require Import RustStr.
From S2P Require Import Models.
From S2P Require Import Truncate.
From S2P Require Import Normalize.
From S2P Require Import History.
From S2P Require Import Compact.

Local Open Scope Z_scope.

(** ** Events: [EventMsg] of [protocol.rs]

    An event carries what this code reads of it: the turn it is about, the
    number of turns rolled back ([u32]), whether a completed item is a plan. *)
Inductive EventMsg : Type :=
  | EvError
  | EvWarning
  | EvRealtimeConversationStarted
  | EvRealtimeConversationRealtime
  | EvRealtimeConversationClosed
  | EvModelReroute
  | EvContextCompacted
  | EvThreadRolledBack (num_turns : nat)
  | EvTurnStarted (turn_id : str)
  | EvTurnComplete (turn_id : str)
  | EvTokenCount
  | EvAgentMessage
  | EvUserMessage
  | EvAgentMessageDelta
  | EvAgentReasoning
  | EvAgentReasoningDelta
  | EvAgentReasoningRawContent
  | EvAgentReasoningRawContentDelta
  | EvAgentReasoningSectionBreak
  | EvSessionConfigured
  | EvThreadNameUpdated
  | EvMcpStartupUpdate
  | EvMcpStartupComplete
  | EvMcpToolCallBegin
  | EvMcpToolCallEnd
  | EvWebSearchBegin
  | EvWebSearchEnd
  | EvImageGenerationBegin
  | EvImageGenerationEnd
  | EvExecCommandBegin
  | EvExecCommandOutputDelta
  | EvTerminalInteraction
  | EvExecCommandEnd
  | EvViewImageToolCall
  | EvExecApprovalRequest
  | EvRequestPermissions
  | EvRequestUserInput
  | EvDynamicToolCallRequest
  | EvDynamicToolCallResponse
  | EvElicitationRequest
  | EvApplyPatchApprovalRequest
  | EvGuardianAssessment
  | EvDeprecationNotice
  | EvBackgroundEvent
  | EvUndoStarted
  | EvUndoCompleted
  | EvStreamError
  | EvPatchApplyBegin
  | EvPatchApplyEnd
  | EvTurnDiff
  | EvGetHistoryEntryResponse
  | EvMcpListToolsResponse
  | EvListCustomPromptsResponse
  | EvListSkillsResponse
  | EvListRemoteSkillsResponse
  | EvRemoteSkillDownloaded
  | EvSkillsUpdateAvailable
  | EvPlanUpdate
  | EvTurnAborted (turn_id : option str)
  | EvShutdownComplete
  | EvEnteredReviewMode
  | EvExitedReviewMode
  | EvRawResponseItem
  | EvItemStarted
  | EvItemCompleted (is_plan : bool)
  | EvHookStarted
  | EvHookCompleted
  | EvAgentMessageContentDelta
  | EvPlanDelta
  | EvReasoningContentDelta
  | EvReasoningRawContentDelta
  | EvCollabAgentSpawnBegin
  | EvCollabAgentSpawnEnd
  | EvCollabAgentInteractionBegin
  | EvCollabAgentInteractionEnd
  | EvCollabWaitingBegin
  | EvCollabWaitingEnd
  | EvCollabCloseBegin
  | EvCollabCloseEnd
  | EvCollabResumeBegin
  | EvCollabResumeEnd.

Inductive EventPersistenceMode : Type := Limited | Extended.

Definition event_msg_persistence_mode (ev : EventMsg) : option EventPersistenceMode :=
  match ev with
  | EvUserMessage | EvAgentMessage | EvAgentReasoning | EvAgentReasoningRawContent
  | EvTokenCount | EvContextCompacted | EvEnteredReviewMode | EvExitedReviewMode
  | EvThreadRolledBack _ | EvUndoCompleted | EvTurnAborted _ | EvTurnStarted _
  | EvTurnComplete _ => Some Limited
  | EvItemCompleted is_plan => if is_plan then Some Limited else None
  | EvError | EvGuardianAssessment | EvWebSearchEnd | EvExecCommandEnd | EvPatchApplyEnd
  | EvMcpToolCallEnd | EvViewImageToolCall | EvImageGenerationEnd | EvCollabAgentSpawnEnd
  | EvCollabAgentInteractionEnd | EvCollabWaitingEnd | EvCollabCloseEnd | EvCollabResumeEnd
  | EvDynamicToolCallRequest | EvDynamicToolCallResponse => Some Extended
  | EvWarning | EvRealtimeConversationStarted | EvRealtimeConversationRealtime
  | EvRealtimeConversationClosed | EvModelReroute | EvAgentMessageDelta
  | EvAgentReasoningDelta | EvAgentReasoningRawContentDelta | EvAgentReasoningSectionBreak
  | EvRawResponseItem | EvSessionConfigured | EvThreadNameUpdated | EvMcpToolCallBegin
  | EvWebSearchBegin | EvExecCommandBegin | EvTerminalInteraction | EvExecCommandOutputDelta
  | EvExecApprovalRequest | EvRequestPermissions | EvRequestUserInput | EvElicitationRequest
  | EvApplyPatchApprovalRequest | EvBackgroundEvent | EvStreamError | EvPatchApplyBegin
  | EvTurnDiff | EvGetHistoryEntryResponse | EvUndoStarted | EvMcpListToolsResponse
  | EvMcpStartupUpdate | EvMcpStartupComplete | EvListCustomPromptsResponse
  | EvListSkillsResponse | EvListRemoteSkillsResponse | EvRemoteSkillDownloaded
  | EvPlanUpdate | EvShutdownComplete | EvDeprecationNotice | EvItemStarted | EvHookStarted
  | EvHookCompleted | EvAgentMessageContentDelta | EvPlanDelta | EvReasoningContentDelta
  | EvReasoningRawContentDelta | EvSkillsUpdateAvailable | EvCollabAgentSpawnBegin
  | EvCollabAgentInteractionBegin | EvCollabWaitingBegin | EvCollabCloseBegin
  | EvCollabResumeBegin | EvImageGenerationBegin => None
  end.

Definition should_persist_event_msg_limited (ev : EventMsg) : bool :=
  match event_msg_persistence_mode ev with Some Limited => true | _ => false end.

Definition should_persist_event_msg_extended (ev : EventMsg) : bool :=
  match event_msg_persistence_mode ev with Some Limited | Some Extended => true | _ => false end.

Definition should_persist_event_msg (ev : EventMsg) (mode : EventPersistenceMode) : bool :=
  match mode with
  | Limited => should_persist_event_msg_limited ev
  | Extended => should_persist_event_msg_extended ev
  end.

Section Rollout.
(** JSON values, the fields of a [TurnContextItem] that are only handed on, and
    the first line of a rollout. *)
Context {Value Rest SessionMetaLine : Type}.
Abbreviation item := (ResponseItem Value).

Definition should_persist_response_item (i : item) : bool :=
  match i with
  | Message _ _ _ _ _ | Reasoning _ _ _ _ | LocalShellCall _ _ _ _ | FunctionCall _ _ _ _ _
  | ToolSearchCall _ _ _ _ _ | FunctionCallOutput _ _ | ToolSearchOutput _ _ _ _
  | CustomToolCall _ _ _ _ _ | CustomToolCallOutput _ _ | WebSearchCall _ _ _
  | ImageGenerationCall _ _ _ _ | GhostSnapshot _ | Compaction _ => true
  | Other => false
  end.

Definition should_persist_response_item_for_memories (i : item) : bool :=
  match i with
  | Message _ role _ _ _ => negb (bool_decide (role = lit "developer"))
  | LocalShellCall _ _ _ _ | FunctionCall _ _ _ _ _ | ToolSearchCall _ _ _ _ _
  | FunctionCallOutput _ _ | ToolSearchOutput _ _ _ _ | CustomToolCall _ _ _ _ _
  | CustomToolCallOutput _ _ | WebSearchCall _ _ _ => true
  | Reasoning _ _ _ _ | ImageGenerationCall _ _ _ _ | GhostSnapshot _ | Compaction _ | Other => false
  end.

Record CompactedItem : Type := {
  compacted_message : str;
  replacement_history : option (list item);
}.

Record TurnContextItem : Type := {
  ctx_turn_id : option str;
  ctx_model : str;
  ctx_realtime_active : option bool;
  ctx_rest : Rest;
}.

Inductive RolloutItem : Type :=
  | SessionMeta (meta : SessionMetaLine)
  | RolloutResponse (i : item)
  | Compacted (compacted : CompactedItem)
  | TurnContext (ctx : TurnContextItem)
  | RolloutEvent (ev : EventMsg).

Definition is_persisted_response_item (r : RolloutItem) (mode : EventPersistenceMode) : bool :=
  match r with
  | RolloutResponse i => should_persist_response_item i
  | RolloutEvent ev => should_persist_event_msg ev mode
  | Compacted _ | TurnContext _ | SessionMeta _ => true
  end.

(** ** [truncation.rs] *)
Definition is_user_boundary (r : RolloutItem) : bool :=
  match r with
  | RolloutResponse i => match parse_user_item i with Some _ => true | None => false end
  | _ => false
  end.

(** The loop of [user_message_positions_in_rollout], at index [idx]. *)
Fixpoint user_positions_loop (idx : nat) (user_positions : list nat) (l : list RolloutItem) : list nat :=
  match l with
  | [] => user_positions
  | r :: rest =>
      let user_positions :=
        if is_user_boundary r then user_positions ++ [idx]
        else match r with
             | RolloutEvent (EvThreadRolledBack num_turns) =>
                 take (length user_positions - num_turns) user_positions
             | _ => user_positions
             end in
      user_positions_loop (S idx) user_positions rest
  end.

Definition user_message_positions_in_rollout (l : list RolloutItem) : list nat :=
  user_positions_loop 0 [] l.

Definition truncate_rollout_before_nth_user_message_from_start (l : list RolloutItem)
    (n_from_start : Z) : outcome Empty_set (list RolloutItem) :=
  if n_from_start =? usize_max then Ok l
  else
    let user_positions := user_message_positions_in_rollout l in
    if Z.of_nat (length user_positions) <=? n_from_start then Ok []
    else match user_positions !! Z.to_nat n_from_start with
         | Some cut_idx => if (cut_idx <=? length l)%nat then Ok (take cut_idx l) else Panic
         | None => Panic
         end.

(** ** [rollout_reconstruction.rs] *)
Record PreviousTurnSettings : Type := { model : str; realtime_active : option bool }.

Record RolloutReconstruction : Type := {
  rr_history : list item;
  rr_previous_turn_settings : option PreviousTurnSettings;
  rr_reference_context_item : option TurnContextItem;
}.

Inductive TurnReferenceContextItem : Type :=
  | NeverSet
  | Cleared
  | Latest (ctx : TurnContextItem).

Definition is_never_set (t : TurnReferenceContextItem) : bool :=
  match t with NeverSet => true | _ => false end.
Definition is_cleared (t : TurnReferenceContextItem) : bool :=
  match t with Cleared => true | _ => false end.

Record ActiveReplaySegment : Type := {
  turn_id : option str;
  counts_as_user_turn : bool;
  seg_previous_turn_settings : option PreviousTurnSettings;
  seg_reference_context_item : TurnReferenceContextItem;
  seg_base_replacement_history : option (list item);
}.

Definition default_segment : ActiveReplaySegment :=
  {| turn_id := None; counts_as_user_turn := false; seg_previous_turn_settings := None;
     seg_reference_context_item := NeverSet; seg_base_replacement_history := None |}.

Definition set_turn_id (s : ActiveReplaySegment) (id : option str) : ActiveReplaySegment :=
  {| turn_id := id; counts_as_user_turn := counts_as_user_turn s;
     seg_previous_turn_settings := seg_previous_turn_settings s;
     seg_reference_context_item := seg_reference_context_item s;
     seg_base_replacement_history := seg_base_replacement_history s |}.
Definition set_user_turn (s : ActiveReplaySegment) : ActiveReplaySegment :=
  {| turn_id := turn_id s; counts_as_user_turn := true;
     seg_previous_turn_settings := seg_previous_turn_settings s;
     seg_reference_context_item := seg_reference_context_item s;
     seg_base_replacement_history := seg_base_replacement_history s |}.
Definition set_settings (s : ActiveReplaySegment) (p : PreviousTurnSettings) : ActiveReplaySegment :=
  {| turn_id := turn_id s; counts_as_user_turn := counts_as_user_turn s;
     seg_previous_turn_settings := Some p;
     seg_reference_context_item := seg_reference_context_item s;
     seg_base_replacement_history := seg_base_replacement_history s |}.
Definition set_reference (s : ActiveReplaySegment) (r : TurnReferenceContextItem) : ActiveReplaySegment :=
  {| turn_id := turn_id s; counts_as_user_turn := counts_as_user_turn s;
     seg_previous_turn_settings := seg_previous_turn_settings s;
     seg_reference_context_item := r;
     seg_base_replacement_history := seg_base_replacement_history s |}.
Definition set_base (s : ActiveReplaySegment) (b : list item) : ActiveReplaySegment :=
  {| turn_id := turn_id s; counts_as_user_turn := counts_as_user_turn s;
     seg_previous_turn_settings := seg_previous_turn_settings s;
     seg_reference_context_item := seg_reference_context_item s;
     seg_base_replacement_history := Some b |}.

Definition turn_ids_are_compatible (active_turn_id item_turn_id : option str) : bool :=
  match active_turn_id with
  | None => true
  | Some id => match item_turn_id with None => true | Some id' => bool_decide (id' = id) end
  end.

(** The local variables of the reverse scan. *)
Record Replay : Type := {
  base_replacement_history : option (list item);
  previous_turn_settings : option PreviousTurnSettings;
  reference_item : TurnReferenceContextItem;
  pending_rollback_turns : Z;
  rollout_suffix : list RolloutItem;
  active_segment : option ActiveReplaySegment;
}.

Definition set_active (st : Replay) (a : option ActiveReplaySegment) : Replay :=
  {| base_replacement_history := base_replacement_history st;
     previous_turn_settings := previous_turn_settings st; reference_item := reference_item st;
     pending_rollback_turns := pending_rollback_turns st; rollout_suffix := rollout_suffix st;
     active_segment := a |}.
Definition set_pending (st : Replay) (n : Z) : Replay :=
  {| base_replacement_history := base_replacement_history st;
     previous_turn_settings := previous_turn_settings st; reference_item := reference_item st;
     pending_rollback_turns := n; rollout_suffix := rollout_suffix st;
     active_segment := active_segment st |}.
Definition set_suffix (st : Replay) (l : list RolloutItem) : Replay :=
  {| base_replacement_history := base_replacement_history st;
     previous_turn_settings := previous_turn_settings st; reference_item := reference_item st;
     pending_rollback_turns := pending_rollback_turns st; rollout_suffix := l;
     active_segment := active_segment st |}.

Definition finalize_active_segment (seg : ActiveReplaySegment) (st : Replay) : Replay :=
  if 0 <? pending_rollback_turns st then
    if counts_as_user_turn seg then set_pending st (pending_rollback_turns st - 1) else st
  else
    {| base_replacement_history :=
         match base_replacement_history st with
         | Some b => Some b
         | None => seg_base_replacement_history seg
         end;
       previous_turn_settings :=
         match previous_turn_settings st with
         | Some p => Some p
         | None => if counts_as_user_turn seg then seg_previous_turn_settings seg else None
         end;
       reference_item :=
         if is_never_set (reference_item st)
            && (counts_as_user_turn seg || is_cleared (seg_reference_context_item seg))
         then seg_reference_context_item seg
         else reference_item st;
       pending_rollback_turns := pending_rollback_turns st;
       rollout_suffix := rollout_suffix st;
       active_segment := active_segment st |}.

(** [active_segment.take()] and its finalization. *)
Definition take_and_finalize (st : Replay) : Replay :=
  match active_segment st with
  | Some seg => finalize_active_segment seg (set_active st None)
  | None => st
  end.

Definition get_or_default (st : Replay) : ActiveReplaySegment :=
  default default_segment (active_segment st).

(** One round of the reverse scan; [newer] are the items after [r]. *)
Definition reverse_step (newer : list RolloutItem) (r : RolloutItem) (st : Replay) : Replay :=
  match r with
  | Compacted compacted =>
      let seg := get_or_default st in
      let seg := if is_never_set (seg_reference_context_item seg) then set_reference seg Cleared else seg in
      match seg_base_replacement_history seg, replacement_history compacted with
      | None, Some h => set_suffix (set_active st (Some (set_base seg h))) newer
      | _, _ => set_active st (Some seg)
      end
  | RolloutEvent (EvThreadRolledBack num_turns) =>
      set_pending st (sat_add (pending_rollback_turns st) (Z.of_nat num_turns))
  | RolloutEvent (EvTurnComplete id) =>
      let seg := get_or_default st in
      set_active st (Some (match turn_id seg with None => set_turn_id seg (Some id) | Some _ => seg end))
  | RolloutEvent (EvTurnAborted id) =>
      match active_segment st with
      | Some seg =>
          match turn_id seg, id with
          | None, Some id => set_active st (Some (set_turn_id seg (Some id)))
          | _, _ => st
          end
      | None =>
          match id with
          | Some id => set_active st (Some (set_turn_id default_segment (Some id)))
          | None => st
          end
      end
  | RolloutEvent EvUserMessage => set_active st (Some (set_user_turn (get_or_default st)))
  | TurnContext ctx =>
      let seg := get_or_default st in
      let seg := match turn_id seg with None => set_turn_id seg (ctx_turn_id ctx) | Some _ => seg end in
      set_active st (Some
        (if turn_ids_are_compatible (turn_id seg) (ctx_turn_id ctx) then
           let seg := set_settings seg {| model := ctx_model ctx; realtime_active := ctx_realtime_active ctx |} in
           if is_never_set (seg_reference_context_item seg) then set_reference seg (Latest ctx) else seg
         else seg))
  | RolloutEvent (EvTurnStarted id) =>
      match active_segment st with
      | Some seg => if turn_ids_are_compatible (turn_id seg) (Some id) then take_and_finalize st else st
      | None => st
      end
  | RolloutResponse _ | RolloutEvent _ | SessionMeta _ => st
  end.

Definition replay_done (st : Replay) : bool :=
  match base_replacement_history st, previous_turn_settings st with
  | Some _, Some _ => negb (is_never_set (reference_item st))
  | _, _ => false
  end.

(** The scan, with the items still to visit newest first. *)
Fixpoint reverse_scan (newest_first newer : list RolloutItem) (st : Replay) : Replay :=
  match newest_first with
  | [] => st
  | r :: older =>
      let st := reverse_step newer r st in
      if replay_done st then st else reverse_scan older (r :: newer) st
  end.

Abbreviation manager := (@ContextManager Value TurnContextItem).
Context (debug_assertions : bool) (policy : TruncationPolicy).

(** One round of the replay: the history and
    [saw_legacy_compaction_without_replacement_history]. *)
Definition forward_step (acc : manager * bool) (r : RolloutItem) : outcome Empty_set (manager * bool) :=
  let '(history, saw_legacy) := acc in
  match r with
  | RolloutResponse i =>
      h ← record_items history [i] policy;
      Ok (h, saw_legacy)
  | Compacted compacted =>
      match replacement_history compacted with
      | Some l => Ok (replace history l, saw_legacy)
      | None =>
          let user_messages := collect_user_messages (items history) in
          rebuilt ← build_compacted_history [] user_messages (compacted_message compacted);
          Ok (replace history rebuilt, true)
      end
  | RolloutEvent (EvThreadRolledBack num_turns) =>
      h ← drop_last_n_user_turns history num_turns;
      Ok (h, saw_legacy)
  | RolloutEvent _ | TurnContext _ | SessionMeta _ => Ok (history, saw_legacy)
  end.

Fixpoint forward_replay (acc : manager * bool) (l : list RolloutItem) : outcome Empty_set (manager * bool) :=
  match l with
  | [] => Ok acc
  | r :: rest => acc ← forward_step acc r; forward_replay acc rest
  end.

Definition initial_replay (rollout_items : list RolloutItem) : Replay :=
  {| base_replacement_history := None; previous_turn_settings := None; reference_item := NeverSet;
     pending_rollback_turns := 0; rollout_suffix := rollout_items; active_segment := None |}.

Definition reverse_replay (rollout_items : list RolloutItem) : Replay :=
  take_and_finalize (reverse_scan (reverse rollout_items) [] (initial_replay rollout_items)).

Definition reconstruct_history_from_rollout (rollout_items : list RolloutItem)
    : outcome Empty_set RolloutReconstruction :=
  let st := reverse_replay rollout_items in
  new ← history_new debug_assertions;
  let start := match base_replacement_history st with Some l => replace new l | None => new end in
  '(history, saw_legacy) ← forward_replay (start, false) (rollout_suffix st);
  let reference := match reference_item st with NeverSet | Cleared => None | Latest ctx => Some ctx end in
  Ok {| rr_history := items history;
        rr_previous_turn_settings := previous_turn_settings st;
        rr_reference_context_item := if saw_legacy : bool then None else reference |}.
End Rollout.

(** ** The scan *)
Section scan.
Context {Value Rest Meta : Type}.
Abbreviation ritem := (@RolloutItem Value Rest Meta).
Abbreviation rstate := (@Replay Value Rest Meta).
Implicit Types (r : ritem) (l newer : list ritem) (st : rstate).

Definition is_checkpoint (r : ritem) : bool :=
  match r with Compacted c => bool_decide (is_Some (replacement_history c)) | _ => false end.
Definition is_legacy_compaction (r : ritem) : bool :=
  match r with Compacted c => negb (bool_decide (is_Some (replacement_history c))) | _ => false end.
Definition rolls_back (r : ritem) : bool :=
  match r with RolloutEvent (EvThreadRolledBack n) => negb (n =? 0)%nat | _ => false end.
Definition is_user_event (r : ritem) : bool :=
  match r with RolloutEvent EvUserMessage => true | _ => false end.

(** The rounds of the scan, without the early exit. *)
Fixpoint steps (l newer : list ritem) (st : rstate) : rstate :=
  match l with [] => st | r :: older => steps older (r :: newer) (reverse_step newer r st) end.

Lemma scan_steps_app l1 l2 newer st :
  steps (l1 ++ l2) newer st = steps l2 (reverse l1 ++ newer) (steps l1 newer st).
Proof.
  revert newer st; induction l1 as [|r l1 IH]; intros newer st; [done|].
  cbn [app steps]. by rewrite IH, reverse_cons, <-app_assoc.
Qed.

(** A base, once found, stays. *)
Lemma step_base newer r st b :
  base_replacement_history st = Some b → base_replacement_history (reverse_step newer r st) = Some b.
Proof.
  intros Hb. destruct r as [|i|c|ctx|ev]; cbn [reverse_step]; try done.
  - destruct (seg_base_replacement_history _), (replacement_history c); done.
  - destruct ev; try done.
    + destruct (active_segment st) as [seg|] eqn:Ha; [|done]. destruct (turn_ids_are_compatible _ _); [|done].
      unfold take_and_finalize. rewrite Ha. unfold finalize_active_segment. cbn.
      repeat case_match; cbn in *; congruence.
    + repeat case_match; done.
Qed.

Lemma steps_base l newer st b :
  base_replacement_history st = Some b → base_replacement_history (steps l newer st) = Some b.
Proof.
  revert newer st; induction l as [|r l IH]; intros newer st Hb; [done|]. cbn [steps].
  by apply IH, step_base.
Qed.

Lemma not_done_without_base st : base_replacement_history st = None → replay_done st = false.
Proof. unfold replay_done. by intros ->. Qed.

(** Without a base there is no early exit. *)
Lemma scan_app l1 l2 newer st :
  base_replacement_history (steps l1 newer st) = None →
  reverse_scan (l1 ++ l2) newer st = reverse_scan l2 (reverse l1 ++ newer) (steps l1 newer st).
Proof.
  revert newer st; induction l1 as [|r l1 IH]; intros newer st; [done|].
  cbn [steps app reverse_scan]. intros Hb. rewrite not_done_without_base.
  - by rewrite IH, reverse_cons, <-app_assoc.
  - destruct (base_replacement_history (reverse_step newer r st)) as [b|] eqn:E; [|done].
    by rewrite (steps_base _ _ _ _ E) in Hb.
Qed.

(** Invariant rule for the scan. *)
Lemma reverse_scan_inv (I : list ritem → list ritem → rstate → Prop) (Q : rstate → Prop) l newer st :
  (∀ r older newer st, I (r :: older) newer st →
    if replay_done (reverse_step newer r st) then Q (reverse_step newer r st)
    else I older (r :: newer) (reverse_step newer r st)) →
  (∀ newer st, I [] newer st → Q st) →
  I l newer st → Q (reverse_scan l newer st).
Proof.
  intros Hstep Hend. revert newer st; induction l as [|r l IH]; intros newer st HI; cbn [reverse_scan].
  - by eapply Hend.
  - specialize (Hstep _ _ _ _ HI). cbv zeta. destruct (replay_done _); auto.
Qed.

Definition active_base (st : rstate) : option (list (ResponseItem Value)) :=
  active_segment st ≫= seg_base_replacement_history.

Lemma get_or_default_base st :
  seg_base_replacement_history (get_or_default st) = active_base st.
Proof. unfold get_or_default, active_base. by destruct (active_segment st). Qed.

(** No checkpoint has been met. *)
Definition no_base (st : rstate) : Prop := base_replacement_history st = None ∧ active_base st = None.

Lemma step_no_base newer r st :
  is_checkpoint r = false → no_base st →
  no_base (reverse_step newer r st) ∧ rollout_suffix (reverse_step newer r st) = rollout_suffix st.
Proof.
  intros Hc [Hb Ha]. unfold no_base.
  destruct r as [m|i|c|ctx|ev]; cbn [reverse_step is_checkpoint] in *; try done.
  - assert (replacement_history c = None) as -> by (destruct (replacement_history c); [|done]; by apply bool_decide_eq_false_1 in Hc; destruct Hc).
    rewrite <-get_or_default_base in Ha.
    destruct (is_never_set _); cbn; unfold active_base; cbn; rewrite Ha; done.
  - rewrite <-get_or_default_base in Ha. unfold active_base. cbn. repeat case_match; done.
  - destruct ev; try done.
    + destruct (active_segment st) as [seg|] eqn:E; [|done]. unfold active_base in Ha. rewrite E in Ha. cbn in Ha.
      destruct (turn_ids_are_compatible _ _); [|by unfold active_base; rewrite E].
      unfold take_and_finalize. rewrite E. unfold finalize_active_segment. cbn. rewrite Hb, Ha.
      repeat case_match; done.
    + rewrite <-get_or_default_base in Ha. unfold active_base. cbn. by case_match.
    + by rewrite <-get_or_default_base in Ha.
    + unfold active_base in *. destruct (active_segment st) as [seg|] eqn:E; cbn in Ha;
        repeat case_match; cbn; rewrite ?E; done.
Qed.

Lemma steps_no_base l newer st :
  Forall (λ r, is_checkpoint r = false) l → no_base st →
  no_base (steps l newer st) ∧ rollout_suffix (steps l newer st) = rollout_suffix st.
Proof.
  intros Hl. revert newer st; induction Hl as [|r l Hr _ IH]; intros newer st Hst; [done|].
  cbn [steps]. destruct (step_no_base newer r st Hr Hst) as [Hb <-]. by apply IH.
Qed.

Lemma step_pending newer r st :
  rolls_back r = false → pending_rollback_turns st = 0 →
  pending_rollback_turns (reverse_step newer r st) = 0.
Proof.
  intros Hr Hp. destruct r as [m|i|c|ctx|ev]; cbn [reverse_step rolls_back] in *; try done.
  - by repeat case_match.
  - destruct ev; try done; cbn [rolls_back] in Hr.
    + apply negb_false_iff, Nat.eqb_eq in Hr as ->. cbn. by rewrite Hp.
    + destruct (active_segment st) as [seg|] eqn:E; [|done].
      destruct (turn_ids_are_compatible _ _); [|done].
      unfold take_and_finalize, finalize_active_segment. rewrite E. cbn. by rewrite Hp.
    + by repeat case_match.
Qed.

Lemma steps_pending l newer st :
  Forall (λ r, rolls_back r = false) l → pending_rollback_turns st = 0 →
  pending_rollback_turns (steps l newer st) = 0.
Proof.
  intros Hl. revert newer st; induction Hl as [|r l Hr _ IH]; intros newer st Hst; [done|].
  by apply IH, step_pending.
Qed.

(** ** Turns *)
(** The items of turn [t] after its [TurnStarted]: none names another turn or
    rolls turns back. *)
Definition in_turn (t : str) (r : ritem) : Prop :=
  match r with
  | RolloutEvent (EvTurnStarted _) | RolloutEvent (EvThreadRolledBack _) => False
  | RolloutEvent (EvTurnComplete id) => id = t
  | RolloutEvent (EvTurnAborted (Some id)) => id = t
  | TurnContext ctx => match ctx_turn_id ctx with Some id => id = t | None => True end
  | _ => True
  end.

Definition turn_rollout (turn : str * list ritem) : list ritem :=
  RolloutEvent (EvTurnStarted turn.1) :: turn.2.
Definition turn_ok (turn : str * list ritem) : Prop := Forall (in_turn turn.1) turn.2.
Definition is_user_turn (turn : str * list ritem) : bool := existsb is_user_event turn.2.

(** The active segment, if any, is one turn [t] can belong to. *)
Definition fits_turn (t : str) (st : rstate) : Prop :=
  ∀ seg, active_segment st = Some seg → turn_id seg = None ∨ turn_id seg = Some t.

Definition counts (st : rstate) : bool :=
  match active_segment st with Some seg => counts_as_user_turn seg | None => false end.

(** All that finalized segments determine. *)
Definition settled (st : rstate) :=
  (base_replacement_history st, previous_turn_settings st, reference_item st, pending_rollback_turns st).

Lemma fits_get_or_default t st :
  fits_turn t st → turn_id (get_or_default st) = None ∨ turn_id (get_or_default st) = Some t.
Proof. unfold fits_turn, get_or_default. intros H. destruct (active_segment st); [by apply H|by left]. Qed.

Lemma in_turn_step t newer r st :
  in_turn t r → fits_turn t st →
  fits_turn t (reverse_step newer r st) ∧ settled (reverse_step newer r st) = settled st ∧
  counts (reverse_step newer r st) = counts st || is_user_event r.
Proof.
  intros Hr Hst. pose proof (fits_get_or_default t st Hst) as Hg.
  assert (Hcnt : counts_as_user_turn (get_or_default st) = counts st)
    by (unfold counts, get_or_default; by destruct (active_segment st)).
  unfold fits_turn in *.
  destruct r as [m|i|c|ctx|ev]; cbn [reverse_step in_turn is_user_event] in *; rewrite ?orb_false_r; try done.
  - rewrite <-Hcnt. cbv zeta. destruct (is_never_set _); cbn [seg_base_replacement_history set_reference];
      destruct (seg_base_replacement_history _), (replacement_history c);
      (split_and!; [intros ? [= <-]; exact Hg|done|done]).
  - rewrite <-Hcnt. split_and!; [|done|].
    2: unfold counts; cbn [active_segment set_active]; destruct (turn_id (get_or_default st));
         (destruct (turn_ids_are_compatible _ _); [|done]); by destruct (is_never_set _).
    intros seg [= <-]. assert (Hid : turn_id (match turn_id (get_or_default st) with
      None => set_turn_id (get_or_default st) (ctx_turn_id ctx) | Some _ => get_or_default st end) = None ∨
      turn_id (match turn_id (get_or_default st) with
      None => set_turn_id (get_or_default st) (ctx_turn_id ctx) | Some _ => get_or_default st end) = Some t).
    { destruct (turn_id (get_or_default st)) eqn:E; [by rewrite E|]. cbn.
      destruct (ctx_turn_id ctx); [right; congruence|by left]. }
    destruct (turn_ids_are_compatible _ _); [|done]. by destruct (is_never_set _).
  - destruct ev; cbn in *; rewrite ?orb_false_r; try done.
    + subst. unfold counts. cbn. destruct (turn_id (get_or_default st)) eqn:E; cbn; split_and!; try done;
        intros seg [= <-]; rewrite ?E; auto.
    + unfold counts. cbn. rewrite orb_true_r. split_and!; [|done|done]. intros seg [= <-]. done.
    + destruct turn_id0 as [id|]; [subst id|]; destruct (active_segment st) as [seg|] eqn:E;
        unfold counts in *; rewrite ?E.
      * destruct (turn_id seg) eqn:Et; cbn; rewrite ?E; split_and!; try done.
        intros ? [= <-]. by right.
      * cbn. split_and!; try done. intros ? [= <-]. by right.
      * destruct (turn_id seg); cbn; rewrite ?E; done.
      * done.
Qed.

Lemma in_turn_steps t l newer st :
  Forall (in_turn t) l → fits_turn t st →
  fits_turn t (steps l newer st) ∧ settled (steps l newer st) = settled st ∧
  counts (steps l newer st) = counts st || existsb is_user_event l.
Proof.
  intros Hl. revert newer st; induction Hl as [|r l Hr _ IH]; intros newer st Hst; cbn [steps existsb].
  { by rewrite orb_false_r. }
  destruct (in_turn_step t newer r st Hr Hst) as (Hf & <- & Hc).
  destruct (IH (r :: newer) _ Hf) as (? & ? & ->). by rewrite Hc, orb_assoc.
Qed.
End scan.

Section turns.
Context {Value Rest Meta : Type}.
Abbreviation ritem := (@RolloutItem Value Rest Meta).
Abbreviation rstate := (@Replay Value Rest Meta).
Implicit Types (r : ritem) (l newer : list ritem) (st : rstate) (turn : str * list ritem).

Lemma turn_started_step t newer st :
  fits_turn t st →
  reverse_step newer (RolloutEvent (EvTurnStarted t)) st = take_and_finalize st ∧
  active_segment (take_and_finalize st) = None.
Proof.
  intros Hst. cbn [reverse_step]. unfold take_and_finalize.
  destruct (active_segment st) as [seg|] eqn:E; [|done].
  assert (turn_ids_are_compatible (turn_id seg) (Some t) = true) as ->.
  { unfold turn_ids_are_compatible. destruct (Hst _ E) as [-> | ->]; [done|by apply bool_decide_true]. }
  split; [done|]. unfold finalize_active_segment. by repeat case_match.
Qed.

Lemma finalize_pending st :
  0 < pending_rollback_turns st →
  settled (take_and_finalize st) =
    (base_replacement_history st, previous_turn_settings st, reference_item st,
     if counts st then pending_rollback_turns st - 1 else pending_rollback_turns st).
Proof.
  intros Hp. unfold take_and_finalize, counts. destruct (active_segment st) as [seg|]; [|done].
  unfold finalize_active_segment. cbn [pending_rollback_turns set_active].
  destruct (Z.ltb_spec 0 (pending_rollback_turns st)); [|lia]. by destruct (counts_as_user_turn seg).
Qed.

(** A turn is scanned as one segment, finalized at its start; while turns are
    being rolled back it leaves no trace but the count. *)
Lemma turn_steps turn newer st :
  turn_ok turn → active_segment st = None →
  active_segment (steps (reverse (turn_rollout turn)) newer st) = None ∧
  (0 < pending_rollback_turns st →
   settled (steps (reverse (turn_rollout turn)) newer st) =
     (base_replacement_history st, previous_turn_settings st, reference_item st,
      if is_user_turn turn then pending_rollback_turns st - 1 else pending_rollback_turns st)).
Proof.
  intros Hok Ha. unfold turn_rollout. rewrite reverse_cons, scan_steps_app. cbn [steps].
  destruct (in_turn_steps turn.1 (reverse turn.2) newer st) as (Hf & Hs & Hc);
    [by apply Forall_reverse|by intros seg; rewrite Ha|].
  destruct (turn_started_step turn.1 (reverse (reverse turn.2) ++ newer) _ Hf) as [-> Hn].
  split; [done|]. intros Hp. unfold settled in Hs. simplify_eq.
  assert (Hpend : pending_rollback_turns (steps (reverse turn.2) newer st) = pending_rollback_turns st)
    by congruence.
  rewrite finalize_pending by lia. rewrite Hc, Hpend. unfold counts. rewrite Ha. cbn [orb].
  unfold is_user_turn.
  assert (existsb is_user_event (reverse turn.2) = existsb is_user_event turn.2) as ->.
  { apply eq_true_iff_eq. rewrite !existsb_elem. by setoid_rewrite elem_of_reverse. }
  congruence.
Qed.

Definition user_turn_count (turns : list (str * list ritem)) : nat :=
  length (List.filter is_user_turn turns).

Lemma reverse_concat_cons turn (turns : list (str * list ritem)) :
  reverse (mjoin (turn_rollout <$> turn :: turns)) =
    reverse (mjoin (turn_rollout <$> turns)) ++ reverse (turn_rollout turn).
Proof. cbn [fmap list_fmap mjoin list_join]. by rewrite reverse_app. Qed.

(** Turns without a checkpoint or a rollback. *)
Lemma turns_active turns newer st :
  Forall turn_ok turns → active_segment st = None →
  active_segment (steps (reverse (mjoin (turn_rollout <$> turns))) newer st) = None.
Proof.
  intros Hok Ha. induction Hok as [|turn turns Ht _ IH]; [done|].
  rewrite reverse_concat_cons, scan_steps_app. by apply turn_steps.
Qed.

(** Turns that are all rolled back, beginning with a user turn. *)
Lemma turns_rolled_back turns newer st (left : Z) :
  Forall turn_ok turns → active_segment st = None → 0 < left →
  pending_rollback_turns st = left + Z.of_nat (user_turn_count turns) →
  let st' := steps (reverse (mjoin (turn_rollout <$> turns))) newer st in
  active_segment st' = None ∧
  settled st' = (base_replacement_history st, previous_turn_settings st, reference_item st, left).
Proof.
  intros Hok Ha. revert left. induction Hok as [|turn turns Ht _ IH]; intros left Hl Hp; cbv zeta.
  { split; [done|]. unfold settled. cbn. rewrite Hp. do 2 f_equal. cbn. lia. }
  rewrite reverse_concat_cons, scan_steps_app.
  assert (Hcount : user_turn_count (turn :: turns) =
    ((if is_user_turn turn then 1 else 0) + user_turn_count turns)%nat)
    by (unfold user_turn_count; cbn; by destruct (is_user_turn turn)).
  set (k := if is_user_turn turn then 1 else 0).
  destruct (IH (left + k)) as [Ha' Hs']; [unfold k; destruct (is_user_turn turn); lia| |].
  { rewrite Hp, Hcount. unfold k. destruct (is_user_turn turn); lia. }
  unfold settled in Hs'. simplify_eq.
  destruct (turn_steps turn (reverse (reverse (mjoin (turn_rollout <$> turns))) ++ newer)
    (steps (reverse (mjoin (turn_rollout <$> turns))) newer st) Ht Ha') as [Hn Hs].
  split; [done|]. rewrite Hs; [|unfold k in *; destruct (is_user_turn turn); lia].
  repeat match goal with H : _ (steps _ newer st) = _ |- _ => rewrite H; clear H end.
  do 2 f_equal. unfold k. destruct (is_user_turn turn); lia.
Qed.

(** ** What does not depend on the suffix *)
Definition metadata (st : rstate) :=
  (settled st, active_segment st).

Lemma step_metadata newer newer' r st st' :
  metadata st = metadata st' → metadata (reverse_step newer r st) = metadata (reverse_step newer' r st').
Proof.
  unfold metadata, settled. destruct st as [b p re n s a], st' as [b' p' re' n' s' a'].
  cbn. intros [= -> -> -> -> ->].
  destruct r as [m|i|c|ctx|ev]; cbn; try done.
  - unfold get_or_default. cbn. repeat case_match; done.
  - destruct ev; try done; cbn.
    + destruct a' as [seg|]; [|done]. destruct (turn_ids_are_compatible _ _); [|done].
      unfold take_and_finalize, finalize_active_segment. cbn. by repeat case_match.
    + by repeat case_match.
Qed.

Lemma metadata_done st st' : metadata st = metadata st' → replay_done st = replay_done st'.
Proof. unfold metadata, settled, replay_done. by intros [= -> -> -> _ _]. Qed.

Lemma scan_metadata l newer newer' st st' :
  metadata st = metadata st' → metadata (reverse_scan l newer st) = metadata (reverse_scan l newer' st').
Proof.
  revert newer newer' st st'; induction l as [|r l IH]; intros newer newer' st st' Hst; [done|].
  cbn [reverse_scan]. cbv zeta. pose proof (step_metadata newer newer' r _ _ Hst) as Hr.
  rewrite (metadata_done _ _ Hr). destruct (replay_done _); [done|by apply IH].
Qed.

Lemma finalize_metadata st st' :
  metadata st = metadata st' → metadata (take_and_finalize st) = metadata (take_and_finalize st').
Proof.
  unfold metadata, settled, take_and_finalize. destruct st as [b p re n s a], st' as [b' p' re' n' s' a'].
  cbn. intros [= -> -> -> -> ->]. destruct a'; [|done]. unfold finalize_active_segment. cbn.
  by repeat case_match.
Qed.

(** The suffix is always one of the rollout. *)
Lemma step_suffix full older newer r st :
  full = older ++ r :: newer → rollout_suffix st `suffix_of` full →
  rollout_suffix (reverse_step newer r st) `suffix_of` full.
Proof.
  intros -> Hs. destruct r as [m|i|c|ctx|ev]; cbn [reverse_step]; try done.
  - repeat case_match; cbn; try done. all: exists (older ++ [Compacted c]); by rewrite <-app_assoc.
  - destruct ev; try done; cbn.
    + destruct (active_segment st) as [seg|] eqn:E; [|done]. destruct (turn_ids_are_compatible _ _); [|done].
      unfold take_and_finalize, finalize_active_segment. rewrite E. cbn. by repeat case_match.
    + by repeat case_match.
Qed.

Lemma finalize_suffix st : rollout_suffix (take_and_finalize st) = rollout_suffix st.
Proof. unfold take_and_finalize, finalize_active_segment. by repeat case_match. Qed.

Lemma replay_suffix l : rollout_suffix (reverse_replay l) `suffix_of` l.
Proof.
  unfold reverse_replay. rewrite finalize_suffix.
  apply (reverse_scan_inv (λ older newer st, l = reverse older ++ newer ∧ rollout_suffix st `suffix_of` l)
           (λ st, rollout_suffix st `suffix_of` l)).
  - intros r older newer st [Hl Hs]. rewrite reverse_cons, <-app_assoc in Hl.
    pose proof (step_suffix l (reverse older) newer r st Hl Hs). by destruct (replay_done _).
  - by intros newer st [_ Hs].
  - by rewrite reverse_involutive, app_nil_r.
Qed.
End turns.

(** ** The replay *)
Section replay.
Context {Value Rest Meta : Type} (debug_assertions : bool) (policy : TruncationPolicy).
Abbreviation ritem := (@RolloutItem Value Rest Meta).
Abbreviation rstate := (@Replay Value Rest Meta).
Abbreviation manager := (@ContextManager Value (@TurnContextItem Rest)).
Implicit Types (r : ritem) (st : rstate) (h : manager).

(** An empty history with the given items. *)
Definition history_of (l : list (ResponseItem Value)) : manager :=
  {| items := l; token_info := None; reference_context_item := None |}.

Definition rollout_item_ok (r : ritem) : Prop :=
  match r with RolloutResponse i => item_ok i | Compacted c => is_Some (replacement_history c) | _ => True end.

(** A round changes nothing but the items, and the flag only remembers. *)
Lemma forward_step_ok (l : list (ResponseItem Value)) r :
  rollout_item_ok r → ∃ l', ∀ b, forward_step policy (history_of l, b) r = Ok (history_of l', b).
Proof.
  intros Hr. destruct r as [m|i|c|ctx|ev]; cbn [forward_step rollout_item_ok] in *; try (by exists l).
  - cbn [record_items]. destruct (negb _ && negb _); [by exists l|].
    destruct (process_item_recorded i policy Hr) as (j & -> & _). by exists (l ++ [j]).
  - destruct Hr as [l' ->]. by exists l'.
  - destruct ev; try (by exists l). cbn. unfold drop_last_n_user_turns.
    destruct (Nat.eqb_spec num_turns 0); [by exists l|]. cbn [items history_of]. cbv zeta.
    destruct (user_message_positions l) as [|p ps] eqn:E; [by exists l|]. rewrite <-E.
    destruct (_ <=? _)%nat eqn:El; [by eexists|].
    destruct (user_message_positions l !! _) as [cut|] eqn:Ec; [by eexists|].
    apply lookup_ge_None in Ec. rewrite E in *. cbn [length] in *. apply Nat.leb_gt in El. lia.
Qed.

Lemma forward_replay_ok (rl : list ritem) (l : list (ResponseItem Value)) :
  Forall rollout_item_ok rl → ∃ l', ∀ b, forward_replay policy (history_of l, b) rl = Ok (history_of l', b).
Proof.
  intros Hl. revert l; induction Hl as [|r rl Hr _ IH]; intros l; [by exists l|].
  destruct (forward_step_ok l r Hr) as [l1 H1]. destruct (IH l1) as [l' Hl']. exists l'. intros b.
  cbn [forward_replay]. rewrite H1. apply Hl'.
Qed.

Lemma forward_replay_app acc (l1 l2 : list ritem) :
  forward_replay policy acc (l1 ++ l2) = (acc ← forward_replay policy acc l1; forward_replay policy acc l2).
Proof.
  revert acc; induction l1 as [|r l1 IH]; intros acc; [done|]. cbn [app forward_replay].
  destruct (forward_step policy acc r); cbn [mbind outcome_bind]; [apply IH|done..].
Qed.

(** A checkpoint makes what came before it irrelevant. *)
Lemma forward_checkpoint (l base : list (ResponseItem Value)) c (x post : list ritem) b :
  Forall rollout_item_ok x → replacement_history c = Some base →
  forward_replay policy (history_of l, b) (x ++ Compacted c :: post) =
    forward_replay policy (history_of base, b) post.
Proof.
  intros Hx Hc. rewrite forward_replay_app. destruct (forward_replay_ok x l Hx) as [l' ->].
  cbn [mbind outcome_bind forward_replay forward_step]. by rewrite Hc.
Qed.

(** ** Finding the newest checkpoint *)
Section found.
Variables (full pre post : list ritem) (c : @CompactedItem Value) (base : list (ResponseItem Value)).
Hypothesis Hbase : replacement_history c = Some base.
Hypothesis Hpost : Forall (λ r, is_checkpoint r = false) post.
Hypothesis Hfull : full = pre ++ Compacted c :: post.

Definition suffix_ok (st : rstate) : Prop :=
  rollout_suffix st = post ∨ ∃ x, rollout_suffix st = x ++ Compacted c :: post ∧ x `suffix_of` pre.

(** The checkpoint is the base, or the active segment will make it the base. *)
Definition found_base (st : rstate) : Prop := base_replacement_history st = Some base ∧ suffix_ok st.
Definition found_active (st : rstate) : Prop :=
  base_replacement_history st = None ∧ active_base st = Some base ∧ pending_rollback_turns st = 0 ∧ suffix_ok st.

Lemma found_step_suffix older newer y r st :
  pre = older ++ r :: y → newer = y ++ Compacted c :: post → suffix_ok st →
  suffix_ok (reverse_step newer r st).
Proof.
  intros Hp -> Hs. unfold suffix_ok in *. destruct r as [m|i|c'|ctx|ev]; cbn [reverse_step]; try done.
  - cbv zeta. destruct (seg_base_replacement_history _), (replacement_history c'); try done.
    right. exists y. split; [done|]. exists (older ++ [Compacted c']). by rewrite <-app_assoc.
  - destruct ev; try done; cbn.
    + destruct (active_segment st) as [seg|]; [|done]. destruct (turn_ids_are_compatible _ _); [|done].
      by rewrite finalize_suffix.
    + by repeat case_match.
Qed.

Lemma finalize_found st : found_active st → found_base (take_and_finalize st).
Proof.
  intros (Hb & Ha & Hp & Hs). split; [|unfold suffix_ok; by rewrite finalize_suffix].
  unfold active_base in Ha. unfold take_and_finalize.
  destruct (active_segment st) as [seg|]; [|done]. cbn in Ha.
  unfold finalize_active_segment. cbn. by rewrite Hp, Hb.
Qed.

(** While nothing is rolled back, the checkpoint of the active segment stays. *)
Lemma found_step older newer y r st :
  pre = older ++ r :: y → newer = y ++ Compacted c :: post → rolls_back r = false →
  found_active st → found_active (reverse_step newer r st) ∨ found_base (reverse_step newer r st).
Proof.
  intros Hp Hn Hr Hf. pose proof Hf as (Hb & Ha & Hz & Hs).
  pose proof (found_step_suffix _ _ _ _ st Hp Hn Hs) as Hs'.
  pose proof (step_pending newer r st Hr Hz) as Hz'. clear Hp Hn Hr.
  pose proof Ha as Hg. rewrite <-get_or_default_base in Hg.
  destruct r as [m|i|c'|ctx|ev]; cbn [reverse_step] in *; try (by left).
  - left. cbv zeta in *.
    assert (Hsb : seg_base_replacement_history (if is_never_set (seg_reference_context_item (get_or_default st))
      then set_reference (get_or_default st) Cleared else get_or_default st) = Some base) by by destruct (is_never_set _).
    rewrite Hsb in *. by split_and!.
  - left. split_and!; [done| |done|done]. unfold active_base. cbn [active_segment set_active mbind option_bind].
    destruct (turn_id (get_or_default st));
      (destruct (turn_ids_are_compatible _ _); [|done]); by destruct (is_never_set _).
  - destruct ev; try (by left).
    + destruct (active_segment st) as [seg|]; [|by left]. destruct (turn_ids_are_compatible _ _); [|by left].
      right. by apply finalize_found.
    + left. split_and!; [done| |done|done]. unfold active_base. cbn [active_segment set_active mbind option_bind].
      by destruct (turn_id (get_or_default st)).
    + unfold active_base in Ha. destruct (active_segment st) as [seg|] eqn:E; [|done]. cbn in Ha.
      left. destruct (turn_id seg), turn_id0; split_and!; try done; unfold active_base; cbn; by rewrite ?E.
Qed.

Lemma found_finalized st : found_base st → found_base (take_and_finalize st).
Proof.
  intros [Hb Hs]. split; [|unfold suffix_ok; by rewrite finalize_suffix].
  unfold take_and_finalize, finalize_active_segment. repeat case_match; cbn in *; congruence.
Qed.

(** The scan from the checkpoint on, when nothing rolls it back. *)
Lemma scan_found older newer y st :
  pre = reverse older ++ y → newer = y ++ Compacted c :: post →
  found_active st ∧ Forall (λ r, rolls_back r = false) older ∨ found_base st →
  found_base (take_and_finalize (reverse_scan older newer st)).
Proof.
  intros Hp Hn Hst.
  apply (reverse_scan_inv (λ older newer st, ∃ y, pre = reverse older ++ y ∧ newer = y ++ Compacted c :: post ∧
    (found_active st ∧ Forall (λ r, rolls_back r = false) older ∨ found_base st))
    (λ st, found_base (take_and_finalize st))); [| |eauto].
  - clear older newer y st Hp Hn Hst. intros r older newer st (y & Hp & Hn & Hst).
    rewrite reverse_cons, <-app_assoc in Hp.
    assert (Hst' : found_active (reverse_step newer r st) ∧ Forall (λ r, rolls_back r = false) older ∨
                   found_base (reverse_step newer r st)).
    { destruct Hst as [[Hst [Hr Ho]%Forall_cons]|[Hb Hs]].
      - destruct (found_step _ _ _ _ _ Hp Hn Hr Hst); auto.
      - right. split; [by apply step_base|by eapply found_step_suffix]. }
    destruct (replay_done _) eqn:Hd.
    + destruct Hst' as [[(Hb & _) _]|Hst']; [|by apply found_finalized].
      by rewrite not_done_without_base in Hd.
    + exists (r :: y). split_and!; [done|by rewrite Hn|done].
  - intros newer' st' (y' & _ & _ & [[Hst' _]|Hst']); [by apply finalize_found|by apply found_finalized].
Qed.

(** The rest of the turn of the checkpoint. *)
Lemma in_turn_found t older newer y body st :
  pre = older ++ body ++ y → newer = y ++ Compacted c :: post → Forall (in_turn t) body →
  fits_turn t st → found_active st →
  fits_turn t (steps (reverse body) newer st) ∧ found_active (steps (reverse body) newer st).
Proof.
  revert older y newer st. induction body as [|r body IH] using rev_ind; intros older y newer st Hp Hn Hb Hf Hst;
    [done|].
  apply Forall_app in Hb as [Hb Hr]. apply Forall_cons in Hr as [Hr _].
  rewrite reverse_snoc. cbn [steps].
  destruct (in_turn_step t newer r st Hr Hf) as (Hf' & Hs & _).
  apply (IH older (r :: y)); [by rewrite Hp, <-app_assoc|by rewrite Hn|done|done|].
  destruct (found_step (older ++ body) newer y r st) as [?|[Hb' _]]; try done.
  - rewrite Hp. by rewrite <-!app_assoc.
  - by destruct r as [| | | |[]].
  - unfold settled in Hs. destruct Hst as (? & _). congruence.
Qed.

(** Meeting the checkpoint. *)
Lemma checkpoint_step st :
  no_base st → pending_rollback_turns st = 0 → found_active (reverse_step post (Compacted c) st).
Proof.
  intros [Hb Ha] Hp. cbn [reverse_step]. rewrite <-get_or_default_base in Ha. cbv zeta.
  assert (Hsb : seg_base_replacement_history (if is_never_set (seg_reference_context_item (get_or_default st))
    then set_reference (get_or_default st) Cleared else get_or_default st) = None) by by destruct (is_never_set _).
  rewrite Hsb, Hbase. split_and!; [done|done|done|by left].
Qed.
End found.

(** The rollouts whose replay is exact: there is no checkpoint; or nothing is
    rolled back; or the newest checkpoint was taken in a turn after which, and
    in which, nothing is rolled back. *)
Inductive replayable (full : list ritem) : Prop :=
  | no_checkpoint :
      Forall (λ r, is_checkpoint r = false) full → replayable full
  | no_rollback :
      Forall (λ r, rolls_back r = false) full → replayable full
  | checkpoint_kept (before : list ritem) t body later :
      full = before ++ turn_rollout (t, body) ++ mjoin (turn_rollout <$> later) →
      turn_ok (t, body) → Forall turn_ok later →
      existsb is_checkpoint body = true →
      Forall (λ r, is_checkpoint r = false) (mjoin (turn_rollout <$> later)) → replayable full.

Lemma last_checkpoint (l : list ritem) :
  Forall (λ r, is_checkpoint r = false) l ∨
  ∃ pre c base post, l = pre ++ Compacted c :: post ∧ replacement_history c = Some base ∧
    Forall (λ r, is_checkpoint r = false) post.
Proof.
  induction l as [|r l IH]; [by left|]. destruct IH as [Hl|(pre & c & base & post & -> & Hc & Hp)].
  - destruct (is_checkpoint r) eqn:Hr; [|left; by constructor].
    destruct r as [| |c| |]; try done. cbn in Hr. apply bool_decide_eq_true in Hr as [base Hc].
    right. by exists [], c, base, l.
  - right. by exists (r :: pre), c, base, post.
Qed.

Lemma in_turn_no_rollback t (l : list ritem) :
  Forall (in_turn t) l → Forall (λ r, rolls_back r = false) l.
Proof. intros Hl. eapply Forall_impl; [done|]. by intros [| | | |[]]. Qed.

Lemma turns_no_rollback (turns : list (str * list ritem)) :
  Forall turn_ok turns → Forall (λ r, rolls_back r = false) (mjoin (turn_rollout <$> turns)).
Proof.
  induction 1 as [|turn turns Ht _ IH]; [constructor|]. cbn [fmap list_fmap mjoin list_join].
  apply Forall_app. split; [|done]. constructor; [done|by eapply in_turn_no_rollback].
Qed.

(** The scan finds the newest checkpoint: when nothing is rolled back ... *)
Lemma replay_found_no_rollback (pre post : list ritem) c base :
  let full := pre ++ Compacted c :: post in
  replacement_history c = Some base → Forall (λ r, is_checkpoint r = false) post →
  Forall (λ r, rolls_back r = false) full → found_base pre post c base (reverse_replay full).
Proof.
  intros full Hc Hp [Hpre [_ Hroll]%Forall_cons]%Forall_app. unfold reverse_replay.
  unfold full at 1. rewrite reverse_app, reverse_cons, <-app_assoc.
  destruct (steps_no_base (reverse post) [] (initial_replay full)) as [Hb _];
    [by apply Forall_reverse|done|].
  rewrite scan_app by apply Hb. rewrite reverse_involutive, app_nil_r. cbn [app reverse_scan]. cbv zeta.
  assert (Hfound : found_active pre post c base
    (reverse_step post (Compacted c) (steps (reverse post) [] (initial_replay full)))).
  { apply checkpoint_step; [done|done|]. apply steps_pending; [by apply Forall_reverse|done]. }
  rewrite not_done_without_base by apply Hfound.
  eapply (scan_found _ _ _ _ _ _ []); [by rewrite reverse_involutive, app_nil_r|done|].
  left. split; [done|by apply Forall_reverse].
Qed.

(** ... and when it belongs to a turn after which nothing is. *)
Lemma replay_found_in_turn (before b1 b2 : list ritem) t c base later :
  let pre := before ++ RolloutEvent (EvTurnStarted t) :: b1 in
  let post := b2 ++ mjoin (turn_rollout <$> later) in
  let full := pre ++ Compacted c :: post in
  replacement_history c = Some base → Forall (λ r, is_checkpoint r = false) post →
  Forall (in_turn t) b1 → Forall (in_turn t) b2 → Forall turn_ok later →
  found_base pre post c base (reverse_replay full).
Proof.
  intros pre post full Hc Hnb Hb1 Hb2 Hlater. unfold reverse_replay.
  assert (Hrev : reverse full = reverse post ++ Compacted c :: (reverse b1 ++
    RolloutEvent (EvTurnStarted t) :: reverse before)).
  { unfold full, pre. repeat (rewrite reverse_app || rewrite reverse_cons). by rewrite <-!app_assoc. }
  rewrite Hrev. destruct (steps_no_base (reverse post) [] (initial_replay full)) as [Hb _];
    [by apply Forall_reverse|done|].
  rewrite scan_app by apply Hb. rewrite reverse_involutive, app_nil_r.
  set (s0 := steps (reverse post) [] (initial_replay full)) in *. cbn [reverse_scan]. cbv zeta.
  assert (Hfit : fits_turn t s0).
  { unfold s0, post. rewrite reverse_app, scan_steps_app. apply in_turn_steps; [by apply Forall_reverse|].
    intros seg. by rewrite turns_active. }
  assert (Hz : pending_rollback_turns s0 = 0).
  { apply steps_pending; [|done]. apply Forall_reverse, Forall_app.
    split; [by eapply in_turn_no_rollback|by apply turns_no_rollback]. }
  pose proof (checkpoint_step pre post c base Hc s0 Hb Hz) as Hfound.
  assert (Hfit' : fits_turn t (reverse_step post (Compacted c) s0)) by (by apply in_turn_step).
  rewrite not_done_without_base by apply Hfound.
  destruct (in_turn_found pre post c base t (before ++ [RolloutEvent (EvTurnStarted t)])
    (Compacted c :: post) [] b1 _ ltac:(unfold pre; by rewrite app_nil_r, <-app_assoc) eq_refl Hb1 Hfit' Hfound)
    as [Hfit1 Hfound1].
  rewrite scan_app by apply Hfound1. rewrite reverse_involutive. cbn [reverse_scan]. cbv zeta.
  pose proof (turn_started_step t (b1 ++ Compacted c :: post) _ Hfit1) as [-> _].
  pose proof (finalize_found pre post c base _ Hfound1) as Hfb.
  case_match; [by apply found_finalized|].
  eapply (scan_found _ _ _ _ _ _ (RolloutEvent (EvTurnStarted t) :: b1));
    [by rewrite reverse_involutive|done|by right].
Qed.

(** With a checkpoint, the scan finds the newest. *)
Lemma replay_found (full : list ritem) :
  replayable full → ¬ Forall (λ r, is_checkpoint r = false) full →
  ∃ pre c base post, full = pre ++ Compacted c :: post ∧ replacement_history c = Some base ∧
    found_base pre post c base (reverse_replay full).
Proof.
  intros [Hn|Hroll|before t body later Hfull Hbody Hlater Hex Hnone] Hsome; [done| |].
  - destruct (last_checkpoint full) as [?|(pre & c & base & post & -> & Hc & Hp)]; [done|].
    exists pre, c, base, post. split_and!; [done|done|by apply replay_found_no_rollback].
  - destruct (last_checkpoint body) as [Hno|(b1 & c & base & b2 & -> & Hc & Hp2)].
    { apply existsb_elem in Hex as (r & Hr & Hck). rewrite Forall_forall in Hno.
      by rewrite (Hno r Hr) in Hck. }
    apply Forall_app in Hbody as [Hb1 [_ Hb2]%Forall_cons].
    exists (before ++ RolloutEvent (EvTurnStarted t) :: b1), c, base, (b2 ++ mjoin (turn_rollout <$> later)).
    assert (full = (before ++ RolloutEvent (EvTurnStarted t) :: b1) ++
      Compacted c :: b2 ++ mjoin (turn_rollout <$> later)) as ->.
    { rewrite Hfull. unfold turn_rollout. cbn. by repeat (rewrite <-app_assoc; cbn). }
    split_and!; [done|done|]. apply replay_found_in_turn; try done. by apply Forall_app.
Qed.

(** ** Persistence *)
Section persist.
Variable mode : EventPersistenceMode.
Abbreviation kept := (List.filter (λ r : ritem, is_persisted_response_item r mode)).

Lemma not_persisted r :
  is_persisted_response_item r mode = false →
  (∀ newer st, reverse_step newer r st = st) ∧ (∀ acc, forward_step policy acc r = Ok acc).
Proof.
  destruct r as [m|i|c|ctx|ev]; cbn [is_persisted_response_item]; try done.
  - destruct i; try done. intros _. split; [done|]. by intros [h b].
  - destruct mode; destruct ev; try done; intros _; split; try done; by intros [h b].
Qed.

Lemma forward_persisted acc (l : list ritem) :
  forward_replay policy acc (kept l) = forward_replay policy acc l.
Proof.
  revert acc; induction l as [|r l IH]; intros acc; [done|]. cbn [List.filter forward_replay].
  destruct (is_persisted_response_item r mode) eqn:Hr; cbn [forward_replay].
  - destruct (forward_step policy acc r); cbn [mbind outcome_bind]; [apply IH|done..].
  - destruct (not_persisted r Hr) as [_ ->]. cbn [mbind outcome_bind]. apply IH.
Qed.

Definition kept_state (st : rstate) : rstate := set_suffix st (kept (rollout_suffix st)).

Lemma step_persisted newer r st :
  reverse_step (kept newer) r (kept_state st) = kept_state (reverse_step newer r st).
Proof.
  destruct st as [b p re n s a]. unfold kept_state, get_or_default.
  destruct r as [m|i|c|ctx|ev]; cbn; try done.
  - cbv zeta. destruct (is_never_set _); cbn;
      destruct (seg_base_replacement_history _), (replacement_history c); done.
  - destruct ev; try done; cbn.
    + destruct a as [seg|]; [|done]. destruct (turn_ids_are_compatible _ _); [|done].
      unfold take_and_finalize, finalize_active_segment. cbn. by repeat case_match.
    + by repeat case_match.
Qed.

Lemma scan_persisted (l newer : list ritem) st :
  replay_done st = false →
  reverse_scan (kept l) (kept newer) (kept_state st) = kept_state (reverse_scan l newer st).
Proof.
  revert newer st; induction l as [|r l IH]; intros newer st Hd; [done|].
  cbn [List.filter reverse_scan]. cbv zeta. destruct (is_persisted_response_item r mode) eqn:Hr.
  - cbn [reverse_scan]. cbv zeta. rewrite step_persisted.
    replace (replay_done (kept_state _)) with (replay_done (reverse_step newer r st)) by done.
    destruct (replay_done (reverse_step newer r st)) eqn:Hd'; [done|].
    pose proof (IH (r :: newer) _ Hd') as Hi. cbn [List.filter] in Hi. by rewrite Hr in Hi.
  - destruct (not_persisted r Hr) as [-> _]. rewrite Hd.
    pose proof (IH (r :: newer) _ Hd) as Hi. cbn [List.filter] in Hi. by rewrite Hr in Hi.
Qed.

Lemma kept_reverse (l : list ritem) : kept (reverse l) = reverse (kept l).
Proof.
  induction l as [|r l IH]; [done|]. rewrite reverse_cons, List.filter_app, IH. cbn [List.filter].
  destruct (is_persisted_response_item r mode); [by rewrite reverse_cons|by rewrite app_nil_r].
Qed.

Lemma replay_persisted (l : list ritem) : reverse_replay (kept l) = kept_state (reverse_replay l).
Proof.
  unfold reverse_replay. rewrite <-kept_reverse.
  change (initial_replay (kept l)) with (kept_state (initial_replay l)).
  change [] with (kept []) at 1. rewrite scan_persisted by done.
  generalize (reverse_scan (reverse l) [] (initial_replay l)). intros [b p re n s a].
  unfold take_and_finalize, kept_state. cbn. destruct a; [|done].
  unfold finalize_active_segment. cbn. by repeat case_match.
Qed.
End persist.

(** ** Forks *)
Lemma user_positions_app idx pos (l1 l2 : list ritem) :
  user_positions_loop idx pos (l1 ++ l2) =
    user_positions_loop (idx + length l1) (user_positions_loop idx pos l1) l2.
Proof.
  revert idx pos; induction l1 as [|r l1 IH]; intros idx pos; cbn [app user_positions_loop length].
  - by rewrite Nat.add_0_r.
  - rewrite IH. f_equal. lia.
Qed.

(** The [n]-th position is that of a user message, and it was pushed onto the
    [n] positions before it. *)
Lemma user_positions_lookup (l : list ritem) n p :
  user_message_positions_in_rollout l !! n = Some p →
  ∃ r rest, l = take p l ++ r :: rest ∧ is_user_boundary r = true ∧ (p < length l)%nat ∧
    user_message_positions_in_rollout (take p l) = take n (user_message_positions_in_rollout l).
Proof.
  unfold user_message_positions_in_rollout.
  induction l as [|r l IH] using rev_ind; [done|]. rewrite user_positions_app. cbn [user_positions_loop].
  rewrite Nat.add_0_l. set (pos := user_positions_loop 0 [] l) in *.
  assert (Hold : ∀ k, pos !! n = Some p → (n < length (take k pos))%nat → ∃ r0 rest,
    l ++ [r] = take p (l ++ [r]) ++ r0 :: rest ∧ is_user_boundary r0 = true ∧ (p < length (l ++ [r]))%nat ∧
    user_positions_loop 0 [] (take p (l ++ [r])) = take n (take k pos)).
  { intros k Hp Hlen. destruct (IH Hp) as (r0 & rest & Hl & Hr & Hlt & Hpos).
    rewrite length_take in Hlen. rewrite length_app, (take_app_le l [r] p) by lia. exists r0, (rest ++ [r]).
    split_and!; [by rewrite Hl at 1; rewrite <-app_assoc|done|lia|].
    rewrite Hpos, take_take. f_equal. lia. }
  destruct (is_user_boundary r) eqn:Hr.
  - intros Hp. destruct (decide (n < length pos)%nat) as [Hlt|Hge].
    + rewrite lookup_app_l in Hp by done. destruct (Hold (length pos)) as (r0 & rest & H1 & H2 & H3 & H4).
      { done. } { rewrite firstn_all. lia. }
      exists r0, rest. split_and!; [done..|]. rewrite H4, firstn_all. by rewrite take_app_le by lia.
    + rewrite lookup_app_r in Hp by lia. destruct (n - length pos)%nat as [|k] eqn:En; [|done].
      injection Hp as <-. exists r, []. rewrite take_app_length, length_app. cbn.
      assert (n = length pos) as -> by lia. rewrite take_app_length. split_and!; try done. lia.
  - intros Hp. pose proof (lookup_lt_Some _ _ _ Hp) as Hlt.
    assert (Hk : ∃ k, (match r with
        | RolloutEvent (EvThreadRolledBack num_turns) => take (length pos - num_turns) pos
        | _ => pos end) = take k pos).
    { destruct r as [| | | |[]]; try (exists (length pos); by rewrite firstn_all). by eexists. }
    destruct Hk as [k Hk]. rewrite Hk in *. apply Hold; [|done].
    rewrite lookup_take_Some in Hp. by destruct Hp.
Qed.
End replay.

(** ** Theorems *)
Section theorems.
Context {Value Rest Meta : Type} (debug_assertions : bool) (policy : TruncationPolicy).
Abbreviation ritem := (@RolloutItem Value Rest Meta).

Lemma reconstruct_eq (l : list ritem) :
  let st := reverse_replay l in
  reconstruct_history_from_rollout debug_assertions policy l =
    ('(history, saw_legacy) ← forward_replay policy
       (history_of (default [] (base_replacement_history st)), false) (rollout_suffix st);
     Ok {| rr_history := items history; rr_previous_turn_settings := previous_turn_settings st;
           rr_reference_context_item := if saw_legacy : bool then None else
             match reference_item st with NeverSet | Cleared => None | Latest ctx => Some ctx end |}).
Proof.
  cbv zeta. unfold reconstruct_history_from_rollout. cbn [history_new new_or_append mbind outcome_bind].
  by destruct (base_replacement_history (reverse_replay l)).
Qed.

Lemma replay_no_checkpoint (l : list ritem) :
  Forall (λ r, is_checkpoint r = false) l →
  base_replacement_history (reverse_replay l) = None ∧ rollout_suffix (reverse_replay l) = l.
Proof.
  intros Hl. unfold reverse_replay. rewrite finalize_suffix. rewrite <-(app_nil_r (reverse l)).
  destruct (steps_no_base (reverse l) [] (initial_replay l)) as [[Hb Ha] Hs];
    [by apply Forall_reverse|done|].
  rewrite scan_app by done. cbn [reverse_scan]. split; [|done]. unfold active_base in Ha.
  unfold take_and_finalize. destruct (active_segment _) as [seg|]; [|done]. cbn in Ha.
  unfold finalize_active_segment. cbn. repeat case_match; cbn in *; congruence.
Qed.

(** C32: the history a resumed session gets from the reverse scan and the
    replay of the suffix is the history of replaying the whole rollout in order.
    It is so, panics included, without a checkpoint (a compaction with a
    replacement history).  With checkpoints it is so, and both return, when
    every compaction is one, the recorded items can be processed, and either
    nothing is rolled back, or the newest checkpoint lies in a logged turn from
    whose start on the rollout is a sequence of logged turns without a
    rollback. *)
Theorem reconstruct_replays (l : list ritem) :
  (Forall (λ r, is_checkpoint r = false) l →
   rr_history <$> reconstruct_history_from_rollout debug_assertions policy l =
     (λ acc, items acc.1) <$> forward_replay policy (history_of [], false) l) ∧
  (replayable l → Forall rollout_item_ok l →
   ∃ h r, forward_replay policy (history_of [], false) l = Ok (h, false) ∧
     reconstruct_history_from_rollout debug_assertions policy l = Ok r ∧ rr_history r = items h).
Proof.
  assert (Hnone : Forall (λ r, is_checkpoint r = false) l →
   rr_history <$> reconstruct_history_from_rollout debug_assertions policy l =
     (λ acc, items acc.1) <$> forward_replay policy (history_of [], false) l).
  { intros Hl. rewrite reconstruct_eq. destruct (replay_no_checkpoint l Hl) as [-> ->].
    by destruct (forward_replay _ _ l) as [[h b]| | |]. }
  split; [done|]. intros Hrep Hok. destruct (forward_replay_ok policy l [] Hok) as [out Hout].
  specialize (Hout false). rewrite Hout.
  destruct (decide (Forall (λ r, is_checkpoint r = false) l)) as [Hl|Hl].
  - specialize (Hnone Hl). rewrite Hout in Hnone.
    destruct (reconstruct_history_from_rollout _ _ l) as [r| | |]; try done.
    exists (history_of out), r. split_and!; [done..|]. by injection Hnone.
  - destruct (replay_found l Hrep Hl) as (pre & c & base & post & Hf & Hc & Hb & Hsuf).
    rewrite Hf in Hok. apply Forall_app in Hok as [Hpre [_ Hpost]%Forall_cons].
    rewrite Hf, (forward_checkpoint policy [] base c pre post false Hpre Hc) in Hout.
    rewrite reconstruct_eq, Hb. change (default [] (Some base)) with base.
    assert (forward_replay policy (history_of base, false) (rollout_suffix (reverse_replay l)) =
      Ok (history_of out, false)) as ->.
    { destruct Hsuf as [-> |(x & -> & y & Hx)]; [done|]. rewrite (forward_checkpoint _ _ base); [done| |done].
      rewrite Hx in Hpre. by apply Forall_app in Hpre as [_ ?]. }
    by eexists _, _.
Qed.

(** What is not persisted does not matter: in both persistence modes the
    reconstruction of the persisted items is that of all of them. *)
Theorem reconstruct_persisted (l : list ritem) mode :
  reconstruct_history_from_rollout debug_assertions policy
    (List.filter (λ r, is_persisted_response_item r mode) l) =
  reconstruct_history_from_rollout debug_assertions policy l.
Proof.
  rewrite !reconstruct_eq, (replay_persisted policy). cbn [kept_state set_suffix rollout_suffix].
  by rewrite forward_persisted.
Qed.

Lemma reconstruct_metadata (k : list ritem) :
  Forall rollout_item_ok k →
  ∃ h, reconstruct_history_from_rollout debug_assertions policy k =
    Ok {| rr_history := h; rr_previous_turn_settings := previous_turn_settings (reverse_replay k);
          rr_reference_context_item := match reference_item (reverse_replay k) with
            NeverSet | Cleared => None | Latest ctx => Some ctx end |}.
Proof.
  intros Hk. rewrite reconstruct_eq. destruct (replay_suffix k) as [x Hx]. rewrite Hx in Hk.
  apply Forall_app in Hk as [_ Hk].
  destruct (forward_replay_ok policy _ (default [] (base_replacement_history (reverse_replay k))) Hk)
    as [out ->]. by eexists.
Qed.

(** The scan crosses the rollback and the turns it drops without a trace. *)
Lemma rollback_metadata (before : list ritem) first rest :
  let turns := first :: rest in
  let l := before ++ mjoin (turn_rollout <$> turns) ++
    [RolloutEvent (EvThreadRolledBack (user_turn_count turns))] in
  Forall turn_ok turns → is_user_turn first = true → Z.of_nat (user_turn_count turns) ≤ usize_max →
  metadata (reverse_replay l) = metadata (reverse_replay before).
Proof.
  intros turns l [Hfirst Hrest]%Forall_cons Huser Hmax.
  unfold reverse_replay. apply finalize_metadata.
  assert (reverse l = (RolloutEvent (EvThreadRolledBack (user_turn_count turns)) ::
    reverse (mjoin (turn_rollout <$> rest)) ++ reverse (turn_rollout first)) ++ reverse before) as ->.
  { unfold l, turns. rewrite !reverse_app, reverse_concat_cons. done. }
  set (s0 := reverse_step [] (RolloutEvent (EvThreadRolledBack (user_turn_count turns))) (initial_replay l)).
  assert (Hn : user_turn_count turns = S (user_turn_count rest))
    by (unfold user_turn_count, turns; cbn; by rewrite Huser).
  assert (Hp : pending_rollback_turns s0 = 1 + Z.of_nat (user_turn_count rest)) by (change (sat_add 0 (Z.of_nat (user_turn_count turns)) = 1 + Z.of_nat (user_turn_count rest)); rewrite Hn in *; usize_lia).
  set (newer := [RolloutEvent (Value:=Value) (Rest:=Rest) (SessionMetaLine:=Meta) (EvThreadRolledBack (user_turn_count turns))]).
  destruct (turns_rolled_back rest newer s0 1 Hrest eq_refl ltac:(lia) Hp) as [Ha Hs].
  set (s1 := steps (reverse (mjoin (turn_rollout <$> rest))) newer s0) in *.
  destruct (turn_steps first (reverse (reverse (mjoin (turn_rollout <$> rest))) ++ newer) s1 Hfirst Ha)
    as [Ha' Hs']. unfold settled in Hs. simplify_eq.
  specialize (Hs' ltac:(lia)). rewrite Huser in Hs'.
  set (s2 := steps (reverse (turn_rollout first)) (reverse (reverse (mjoin (turn_rollout <$> rest))) ++ newer) s1) in *.
  assert (Hm : metadata s2 = metadata (initial_replay before)).
  { unfold metadata. rewrite Ha', Hs'.
    repeat match goal with H : _ s1 = _ |- _ => rewrite H; clear H end. done. }
  assert (Hsteps : steps (RolloutEvent (EvThreadRolledBack (user_turn_count turns)) ::
    reverse (mjoin (turn_rollout <$> rest)) ++ reverse (turn_rollout first)) [] (initial_replay l) = s2).
  { cbn [steps]. fold s0. fold newer. by rewrite scan_steps_app. }
  rewrite scan_app; rewrite Hsteps; [by apply scan_metadata|].
  unfold metadata, settled in Hm. by injection Hm.
Qed.

(** Rolling back the last user turns restores the settings and the
    reference context: [num_turns] user turns, with whatever other turns in
    between, followed by their rollback leave both as they were before. *)
Theorem rollback_restores_metadata (before : list ritem) first rest :
  let turns := first :: rest in
  let l := before ++ mjoin (turn_rollout <$> turns) ++
    [RolloutEvent (EvThreadRolledBack (user_turn_count turns))] in
  Forall turn_ok turns → is_user_turn first = true → Z.of_nat (user_turn_count turns) ≤ usize_max →
  Forall rollout_item_ok l →
  ∃ r r', reconstruct_history_from_rollout debug_assertions policy before = Ok r ∧
    reconstruct_history_from_rollout debug_assertions policy l = Ok r' ∧
    rr_previous_turn_settings r' = rr_previous_turn_settings r ∧
    rr_reference_context_item r' = rr_reference_context_item r.
Proof.
  intros turns l Hturns Huser Hmax Hok.
  pose proof (rollback_metadata before first rest Hturns Huser Hmax) as Hmeta. cbv zeta in Hmeta.
  fold turns l in Hmeta.
  assert (Hbefore : Forall rollout_item_ok before) by (unfold l in Hok; by apply Forall_app in Hok as [? _]).
  destruct (reconstruct_metadata before Hbefore) as [h1 H1], (reconstruct_metadata l Hok) as [h2 H2].
  rewrite H1, H2.
  unfold metadata, settled in Hmeta. injection Hmeta as _ Hprev Href _ _.
  eexists _, _. split_and!; [done..|cbn|cbn]; [done|by rewrite Href].
Qed.

(** [truncate_rollout_before_nth_user_message_from_start] never panics: it
    returns all of the rollout for [usize::MAX], nothing when fewer than [n+1]
    user messages survive the rollbacks, and else the items before a user
    message, of which exactly [n] user messages survive the rollbacks among
    them, the first [n] of the whole rollout. *)
Theorem truncate_rollout_spec (l : list ritem) n :
  is_usize n →
  ∃ out, truncate_rollout_before_nth_user_message_from_start l n = Ok out ∧
    if decide (n = usize_max) then out = l
    else if decide (Z.of_nat (length (user_message_positions_in_rollout l)) ≤ n) then out = []
    else (∃ r rest, l = out ++ r :: rest ∧ is_user_boundary r = true) ∧
      user_message_positions_in_rollout out = take (Z.to_nat n) (user_message_positions_in_rollout l) ∧
      Z.of_nat (length (user_message_positions_in_rollout out)) = n.
Proof.
  intros Hn. unfold is_usize in Hn. unfold truncate_rollout_before_nth_user_message_from_start.
  destruct (Z.eqb_spec n usize_max) as [->|Hm]; [exists l; split; [done|by rewrite decide_True]|].
  cbv zeta. destruct (Z.leb_spec (Z.of_nat (length (user_message_positions_in_rollout l))) n) as [Hle|Hgt];
    [exists []; split; [done|by rewrite decide_False, decide_True by done]|].
  destruct (lookup_lt_is_Some_2 (user_message_positions_in_rollout l) (Z.to_nat n) ltac:(lia)) as [p Hp].
  rewrite Hp. destruct (user_positions_lookup l _ _ Hp) as (r & rest & Hl & Hr & Hlt & Hpos).
  destruct (Nat.leb_spec p (length l)); [|lia]. exists (take p l). split; [done|].
  rewrite !decide_False by (done || lia). split_and!; [eauto|done|]. rewrite Hpos, length_take. lia.
Qed.
End theorems.

(** ** A rolled-back checkpoint *)
Abbreviation sample_item := (@RolloutItem unit unit unit).

Definition sample_message (role text : str) : ResponseItem unit :=
  Message None role [InputText text] None None.
Definition sample_context (id model : str) : sample_item :=
  TurnContext {| ctx_turn_id := Some id; ctx_model := model; ctx_realtime_active := None; ctx_rest := tt |}.

(** A first turn, a second one in which the history is compacted. *)
Definition sample_first_turn : str * list sample_item :=
  (lit "t1",
   [RolloutEvent EvUserMessage; sample_context (lit "t1") (lit "model-a");
    RolloutResponse (sample_message (lit "user") (lit "first"));
    RolloutResponse (sample_message (lit "assistant") (lit "answer"));
    RolloutEvent (EvTurnComplete (lit "t1"))]).
Definition sample_second_turn : str * list sample_item :=
  (lit "t2",
   [RolloutEvent EvUserMessage; sample_context (lit "t2") (lit "model-b");
    RolloutResponse (sample_message (lit "user") (lit "second"));
    Compacted {| compacted_message := lit "sum";
                 replacement_history := Some [sample_message (lit "user") (lit "first");
                                              sample_message (lit "user") (lit "second");
                                              sample_message (lit "user") (lit "sum")] |};
    RolloutEvent (EvTurnComplete (lit "t2"))]).

(** A compaction in a turn that is rolled back loses the older history:
    the suffix still starts after the checkpoint, but the checkpoint itself is
    dropped with its turn.  Of a rollout whose first turn survives, its settings
    included, the reconstructed history is empty; without the compaction the
    messages of the first turn are all there. *)
Theorem rolled_back_checkpoint_loses_history :
  let turns second := mjoin (turn_rollout <$> [sample_first_turn; second]) ++
    [RolloutEvent (EvThreadRolledBack 1)] in
  let second' := (sample_second_turn.1,
    List.filter (λ r, negb (is_checkpoint r)) sample_second_turn.2) in
  ∃ r r', reconstruct_history_from_rollout true (Bytes 10000) (turns sample_second_turn) = Ok r ∧
    reconstruct_history_from_rollout true (Bytes 10000) (turns second') = Ok r' ∧
    rr_history r = [] ∧
    rr_history r' = [sample_message (lit "user") (lit "first"); sample_message (lit "assistant") (lit "answer")] ∧
    rr_previous_turn_settings r = Some {| model := lit "model-a"; realtime_active := None |} ∧
    rr_previous_turn_settings r' = rr_previous_turn_settings r.
Proof. cbv zeta. eexists _, _. split_and!; vm_compute; reflexivity. Qed.

(** ** Witnesses *)
Lemma rollback_restores_metadata_witness :
  ∃ r r', reconstruct_history_from_rollout true (Bytes 10000) (turn_rollout sample_first_turn) = Ok r ∧
    reconstruct_history_from_rollout true (Bytes 10000)
      (turn_rollout sample_first_turn ++ mjoin (turn_rollout <$> [sample_second_turn]) ++
       [RolloutEvent (EvThreadRolledBack (user_turn_count [sample_second_turn]))]) = Ok r' ∧
    rr_previous_turn_settings r' = rr_previous_turn_settings r ∧
    rr_reference_context_item r' = rr_reference_context_item r.
Proof.
  apply rollback_restores_metadata; [|by vm_compute|by vm_compute|].
  - repeat constructor.
  - cbn. repeat (apply Forall_cons; split; [first [done|by eexists]|]). by apply Forall_nil.
Defined.

Lemma truncate_rollout_witness :
  ∃ out, truncate_rollout_before_nth_user_message_from_start
      (turn_rollout sample_first_turn ++ turn_rollout sample_second_turn) 1 = Ok out ∧
    let l := turn_rollout sample_first_turn ++ turn_rollout sample_second_turn in
    if decide (1 = usize_max) then out = l
    else if decide (Z.of_nat (length (user_message_positions_in_rollout l)) ≤ 1) then out = []
    else (∃ r rest, l = out ++ r :: rest ∧ is_user_boundary r = true) ∧
      user_message_positions_in_rollout out = take (Z.to_nat 1) (user_message_positions_in_rollout l) ∧
      Z.of_nat (length (user_message_positions_in_rollout out)) = 1.
Proof. apply truncate_rollout_spec. by vm_compute. Defined.
