(* ===== verification/IpAddr.v ===== *)
(** * IP addresses: [std::net] and the classification of
    [network-proxy/src/policy.rs]

    An [Ipv4Addr] is its [u32], an [Ipv6Addr] its [u128].  The parser is that
    of [IpAddr::from_str]. *)
From stdpp Require Import base tactics option numbers strings list.
From S2P Require Import Prelude.
From S2P Require Import RustStr.

Local Open Scope Z_scope.

Inductive IpAddr : Type := V4 (ip : Z) | V6 (ip : Z).

#[export] Instance IpAddr_eq_dec : EqDecision IpAddr.
Proof. solve_decision. Defined.

(** ** [std::net::Ipv4Addr] and [Ipv6Addr] *)
Definition octet (ip : Z) (i : Z) : Z := Z.land (Z.shiftr ip (8 * (3 - i))) 255.
Definition segment (ip : Z) (i : Z) : Z := Z.land (Z.shiftr ip (16 * (7 - i))) 65535.
Definition from_octets (a b c d : Z) : Z := ((a * 256 + b) * 256 + c) * 256 + d.

Definition v4_is_loopback (ip : Z) : bool := octet ip 0 =? 127.
Definition v4_is_private (ip : Z) : bool :=
  (octet ip 0 =? 10) || ((octet ip 0 =? 172) && (16 <=? octet ip 1) && (octet ip 1 <=? 31))
  || ((octet ip 0 =? 192) && (octet ip 1 =? 168)).
Definition v4_is_link_local (ip : Z) : bool := (octet ip 0 =? 169) && (octet ip 1 =? 254).
Definition v4_is_unspecified (ip : Z) : bool := ip =? 0.
Definition v4_is_multicast (ip : Z) : bool := (224 <=? octet ip 0) && (octet ip 0 <=? 239).
Definition v4_is_broadcast (ip : Z) : bool := ip =? 2 ^ 32 - 1.

Definition v6_is_loopback (ip : Z) : bool := ip =? 1.
Definition v6_is_unspecified (ip : Z) : bool := ip =? 0.
Definition v6_is_multicast (ip : Z) : bool := Z.land (segment ip 0) 65280 =? 65280.
Definition v6_is_unique_local (ip : Z) : bool := Z.land (segment ip 0) 65024 =? 64512.
Definition v6_is_unicast_link_local (ip : Z) : bool := Z.land (segment ip 0) 65472 =? 65152.

(** [Ipv6Addr::to_ipv4]: mapped and compatible addresses. *)
Definition to_ipv4 (ip : Z) : option Z :=
  if (segment ip 0 =? 0) && (segment ip 1 =? 0) && (segment ip 2 =? 0) && (segment ip 3 =? 0)
     && (segment ip 4 =? 0) && ((segment ip 5 =? 0) || (segment ip 5 =? 65535))
  then Some (segment ip 6 * 65536 + segment ip 7)
  else None.

Definition is_loopback (ip : IpAddr) : bool :=
  match ip with V4 ip => v4_is_loopback ip | V6 ip => v6_is_loopback ip end.

(** ** [IpAddr::from_str] *)
Definition to_digit (radix : Z) (c : char) : option Z :=
  let c := Z.of_N c in
  let d := if (48 <=? c) && (c <=? 57) then Some (c - 48)
           else if (97 <=? c) && (c <=? 122) then Some (c - 87)
           else if (65 <=? c) && (c <=? 90) then Some (c - 55)
           else None in
  match d with Some d => if d <? radix then Some d else None | None => None end.

(** The digits from here on: their number, their value and the rest; [None]
    when there are more than [max_digits] or the value exceeds [bound]. *)
Fixpoint read_digits (radix bound : Z) (max_digits count : nat) (acc : Z) (s : str)
    : option (Z * nat * str) :=
  match s with
  | [] => Some (acc, count, [])
  | c :: s' =>
      match to_digit radix c with
      | None => Some (acc, count, s)
      | Some d =>
          let acc := acc * radix + d in
          if (bound <? acc) || (max_digits <? S count)%nat then None
          else read_digits radix bound max_digits (S count) acc s'
      end
  end.

Definition read_number (radix bound : Z) (max_digits : nat) (allow_zero_prefix : bool) (s : str)
    : option (Z * str) :=
  let has_leading_zero := match s with c :: _ => (c =? 48)%N | [] => false end in
  match read_digits radix bound max_digits 0 0 s with
  | Some (n, count, rest) =>
      if (count =? 0)%nat then None
      else if negb allow_zero_prefix && has_leading_zero && (1 <? count)%nat then None
      else Some (n, rest)
  | None => None
  end.

Definition read_given_char (c : char) (s : str) : option str :=
  match s with d :: s' => if (d =? c)%N then Some s' else None | [] => None end.

Definition read_separator {A} (sep : char) (index : nat) (inner : str → option (A * str)) (s : str)
    : option (A * str) :=
  if (index =? 0)%nat then inner s
  else match read_given_char sep s with Some s' => inner s' | None => None end.

Definition DOT : char := 46%N.
Definition COLON : char := 58%N.

Definition read_octet (index : nat) (s : str) : option (Z * str) :=
  read_separator DOT index (read_number 10 255 3 false) s.

Definition read_ipv4_addr (s : str) : option (Z * str) :=
  '(a, s) ← read_octet 0 s;
  '(b, s) ← read_octet 1 s;
  '(c, s) ← read_octet 2 s;
  '(d, s) ← read_octet 3 s;
  Some (from_octets a b c d, s).

(** [read_groups]: [left] slots from index [i] on; the groups read, whether the
    last two come from an IPv4 address, and the rest. *)
Fixpoint read_groups (i left : nat) (s : str) : list Z * bool * str :=
  match left with
  | 0%nat => ([], false, s)
  | S left' =>
      let ipv4 := if (1 <=? left')%nat then read_separator COLON i read_ipv4_addr s else None in
      match ipv4 with
      | Some (v4, rest) => ([v4 / 65536; v4 mod 65536], true, rest)
      | None =>
          match read_separator COLON i (read_number 16 65535 4 true) s with
          | Some (g, rest) => let '(gs, f, rest) := read_groups (S i) left' rest in (g :: gs, f, rest)
          | None => ([], false, s)
          end
      end
  end.

Definition from_segments (gs : list Z) : Z := foldl (λ acc g, acc * 65536 + g) 0 gs.

Definition read_ipv6_addr (s : str) : option (Z * str) :=
  let '(head, head_ipv4, s) := read_groups 0 8 s in
  if (length head =? 8)%nat then Some (from_segments head, s)
  else if head_ipv4 then None
  else
    s ← read_given_char COLON s;
    s ← read_given_char COLON s;
    let '(tail, _, s) := read_groups 0 (8 - (length head + 1)) s in
    Some (from_segments (head ++ replicate (8 - length head - length tail) 0 ++ tail), s).

Definition parse_ip (s : str) : option IpAddr :=
  match read_ipv4_addr s with
  | Some (ip, rest) => match rest with [] => Some (V4 ip) | _ => None end
  | None => match read_ipv6_addr s with Some (ip, []) => Some (V6 ip) | _ => None end
  end.

(** ** [policy.rs] *)
Definition ipv4_in_cidr (ip a b c d prefix : Z) : bool :=
  let base := from_octets a b c d in
  let mask := if prefix =? 0 then 0 else Z.land (Z.shiftl (2 ^ 32 - 1) (32 - prefix)) (2 ^ 32 - 1) in
  Z.land ip mask =? Z.land base mask.

Definition is_non_public_ipv4 (ip : Z) : bool :=
  v4_is_loopback ip
  || v4_is_private ip
  || v4_is_link_local ip
  || v4_is_unspecified ip
  || v4_is_multicast ip
  || v4_is_broadcast ip
  || ipv4_in_cidr ip 0 0 0 0 8
  || ipv4_in_cidr ip 100 64 0 0 10
  || ipv4_in_cidr ip 192 0 0 0 24
  || ipv4_in_cidr ip 192 0 2 0 24
  || ipv4_in_cidr ip 198 18 0 0 15
  || ipv4_in_cidr ip 198 51 100 0 24
  || ipv4_in_cidr ip 203 0 113 0 24
  || ipv4_in_cidr ip 240 0 0 0 4.

Definition is_non_public_ipv6 (ip : Z) : bool :=
  match to_ipv4 ip with
  | Some v4 => is_non_public_ipv4 v4 || v6_is_loopback ip
  | None =>
      v6_is_loopback ip
      || v6_is_unspecified ip
      || v6_is_multicast ip
      || v6_is_unique_local ip
      || v6_is_unicast_link_local ip
  end.

Definition is_non_public_ip (ip : IpAddr) : bool :=
  match ip with V4 ip => is_non_public_ipv4 ip | V6 ip => is_non_public_ipv6 ip end.

(** ** Arithmetic of masks *)
Lemma land_mask w k x :
  0 ≤ k ≤ w → 0 ≤ x < 2 ^ w → Z.land x (2 ^ w - 2 ^ k) = 2 ^ k * (x / 2 ^ k).
Proof.
  intros Hk Hx. replace (2 ^ w - 2 ^ k) with (Z.shiftl (Z.ones (w - k)) k).
  2: { rewrite Z.shiftl_mul_pow2, Z.ones_equiv by lia.
       replace (2 ^ w) with (2 ^ (w - k) * 2 ^ k) by (rewrite <-Z.pow_add_r by lia; f_equal; lia). lia. }
  rewrite Z.mul_comm, <-Z.shiftl_mul_pow2, <-Z.shiftr_div_pow2 by lia.
  apply Z.bits_inj'. intros n Hn. rewrite Z.land_spec, !Z.shiftl_spec by lia.
  destruct (decide (n < k)).
  - rewrite !(Z.testbit_neg_r _ (n - k)) by lia. apply andb_false_r.
  - rewrite Z.shiftr_spec by lia. replace (n - k + k) with n by lia.
    destruct (decide (n < w)).
    + rewrite Z.ones_spec_low by lia. apply andb_true_r.
    + destruct (decide (x = 0)) as [->|]; [by rewrite Z.bits_0|].
      rewrite (Z.bits_above_log2 x n); [done|lia|]. apply Z.log2_lt_pow2; [lia|].
      apply Z.lt_le_trans with (2 ^ w); [lia|]. apply Z.pow_le_mono_r; lia.
Qed.

(** [x / d = q] as an interval. *)
Lemma div_interval x d q : 0 < d → x / d = q ↔ q * d ≤ x < (q + 1) * d.
Proof.
  intros Hd. pose proof (Z.div_mod x d ltac:(lia)). pose proof (Z.mod_pos_bound x d Hd).
  split; [intros <-; nia|]. intros Hq. symmetry. apply (Z.div_unique x d q (x - q * d)); lia.
Qed.

Lemma octet_eq ip i : 0 ≤ i ≤ 3 → octet ip i = (ip / 2 ^ (8 * (3 - i))) mod 256.
Proof.
  intros Hi. unfold octet. change 255 with (Z.ones 8). rewrite Z.land_ones by lia.
  by rewrite Z.shiftr_div_pow2 by lia.
Qed.

Lemma octet_0 ip : 0 ≤ ip < 2 ^ 32 → octet ip 0 = ip / 2 ^ 24.
Proof.
  intros Hip. rewrite octet_eq by lia. apply Z.mod_small. split; [apply Z.div_pos; lia|].
  apply Z.div_lt_upper_bound; lia.
Qed.

(** The second octet, when the first is known. *)
Lemma octet_01 ip a b :
  0 ≤ ip < 2 ^ 32 → 0 ≤ a < 256 → 0 ≤ b < 256 →
  octet ip 0 = a ∧ octet ip 1 = b ↔ ip / 2 ^ 16 = a * 256 + b.
Proof.
  intros Hip Ha Hb. rewrite octet_0, octet_eq by lia. change (2 ^ (8 * (3 - 1))) with (2 ^ 16).
  replace (ip / 2 ^ 24) with (ip / 2 ^ 16 / 256) by (rewrite Z.div_div by lia; done).
  pose proof (Z.div_mod (ip / 2 ^ 16) 256 ltac:(lia)).
  pose proof (Z.mod_pos_bound (ip / 2 ^ 16) 256 ltac:(lia)). lia.
Qed.

(** ** Ranges *)
(** The addresses that share the first [p] of [w] bits with [base]. *)
Definition in_block (w ip : Z) (block : Z * Z) : Prop :=
  block.1 ≤ ip < block.1 + 2 ^ (w - block.2).

Lemma cidr_block ip a b c d p :
  0 ≤ ip < 2 ^ 32 → 0 < p ≤ 32 → 0 ≤ from_octets a b c d < 2 ^ 32 →
  from_octets a b c d mod 2 ^ (32 - p) = 0 →
  Z.land (Z.shiftl (2 ^ 32 - 1) (32 - p)) (2 ^ 32 - 1) = 2 ^ 32 - 2 ^ (32 - p) →
  ipv4_in_cidr ip a b c d p = true ↔ in_block 32 ip (from_octets a b c d, p).
Proof.
  intros Hip Hp Hb Hm Hmask. unfold ipv4_in_cidr, in_block. cbn [fst snd].
  destruct (Z.eqb_spec p 0); [lia|]. rewrite Hmask, !land_mask, Z.eqb_eq by lia.
  assert (Hpos : 0 < 2 ^ (32 - p)) by (apply Z.pow_pos_nonneg; lia).
  set (k := 2 ^ (32 - p)) in *. set (base := from_octets a b c d) in *.
  pose proof (Z.div_mod base k ltac:(lia)) as Hd.
  assert (Heq : k * (ip / k) = k * (base / k) ↔ ip / k = base / k) by nia.
  rewrite Heq, div_interval by lia. nia.
Qed.

(** The blocks of IPv4 addresses that are not public. *)
Definition non_public_v4_blocks : list (Z * Z) :=
  [(from_octets 0 0 0 0, 8); (from_octets 10 0 0 0, 8); (from_octets 100 64 0 0, 10);
   (from_octets 127 0 0 0, 8); (from_octets 169 254 0 0, 16); (from_octets 172 16 0 0, 12);
   (from_octets 192 0 0 0, 24); (from_octets 192 0 2 0, 24); (from_octets 192 168 0 0, 16);
   (from_octets 198 18 0 0, 15); (from_octets 198 51 100 0, 24); (from_octets 203 0 113 0, 24);
   (from_octets 224 0 0 0, 4); (from_octets 240 0 0 0, 4)].

Lemma v4_std_blocks ip :
  0 ≤ ip < 2 ^ 32 →
  (v4_is_loopback ip = true ↔ in_block 32 ip (from_octets 127 0 0 0, 8)) ∧
  (v4_is_private ip = true ↔ in_block 32 ip (from_octets 10 0 0 0, 8) ∨
     in_block 32 ip (from_octets 172 16 0 0, 12) ∨ in_block 32 ip (from_octets 192 168 0 0, 16)) ∧
  (v4_is_link_local ip = true ↔ in_block 32 ip (from_octets 169 254 0 0, 16)) ∧
  (v4_is_multicast ip = true ↔ in_block 32 ip (from_octets 224 0 0 0, 4)).
Proof.
  intros Hip. pose proof (octet_01 ip 169 254 Hip ltac:(lia) ltac:(lia)) as H1.
  pose proof (octet_01 ip 192 168 Hip ltac:(lia) ltac:(lia)) as H2.
  rewrite div_interval in H1, H2 by lia.
  assert (H3 : octet ip 0 = 172 ∧ 16 ≤ octet ip 1 ≤ 31 ↔ in_block 32 ip (from_octets 172 16 0 0, 12)).
  { pose proof (octet_01 ip 172 (octet ip 1) Hip ltac:(lia)) as H3.
    assert (Ho : 0 ≤ octet ip 1 < 256) by (rewrite octet_eq by lia; apply Z.mod_pos_bound; lia).
    specialize (H3 Ho). rewrite div_interval in H3 by lia. split.
    - intros [Ha Hb]. unfold in_block, from_octets. cbn [fst snd]. lia.
    - unfold in_block, from_octets. cbn [fst snd]. intros Hr.
      assert (Hq : ip / 2 ^ 16 = 172 * 256 + (ip / 2 ^ 16 - 172 * 256)) by lia.
      assert (Hb : 16 ≤ ip / 2 ^ 16 - 172 * 256 ≤ 31).
      { pose proof (Z.div_le_mono (from_octets 172 16 0 0) ip (2 ^ 16) ltac:(lia) ltac:(unfold from_octets; lia)) as Hlo.
        pose proof (Z.div_lt_upper_bound ip (2 ^ 16) (172 * 256 + 32) ltac:(lia) ltac:(lia)).
        change (from_octets 172 16 0 0 / 2 ^ 16) with (172 * 256 + 16) in Hlo. lia. }
      apply (octet_01 ip 172 (ip / 2 ^ 16 - 172 * 256) Hip) in Hq as [Ha Hc]; [lia|lia|lia]. }
  unfold v4_is_loopback, v4_is_private, v4_is_link_local, v4_is_multicast.
  repeat rewrite ?orb_true_iff, ?andb_true_iff, ?Z.eqb_eq, ?Z.leb_le.
  unfold in_block in *. cbn [fst snd] in *. rewrite octet_0 in * by lia.
  assert (Hd : ∀ q, ip / 2 ^ 24 = q ↔ q * 2 ^ 24 ≤ ip < (q + 1) * 2 ^ 24)
    by (intros q; apply div_interval; lia).
  assert (Hm : 224 ≤ ip / 2 ^ 24 ∧ ip / 2 ^ 24 ≤ 239 ↔ 224 * 2 ^ 24 ≤ ip < 240 * 2 ^ 24).
  { pose proof (Hd (ip / 2 ^ 24)) as [Hq _]. specialize (Hq eq_refl). lia. }
  split_and!; [rewrite Hd; unfold from_octets; lia| |unfold from_octets; lia|rewrite Hm; unfold from_octets; lia].
  specialize (Hd 10).
  assert (((ip / 2 ^ 24 = 172 ∧ 16 ≤ octet ip 1) ∧ octet ip 1 ≤ 31) ↔ (ip / 2 ^ 24 = 172 ∧ 16 ≤ octet ip 1 ≤ 31)) by tauto.
  unfold from_octets in *.
  assert (10 * 2 ^ 24 ≤ ip < (10 + 1) * 2 ^ 24 ↔
    ((10 * 256 + 0) * 256 + 0) * 256 + 0 ≤ ip < ((10 * 256 + 0) * 256 + 0) * 256 + 0 + 2 ^ (32 - 8)) by lia.
  assert ((192 * 256 + 168) * 2 ^ 16 ≤ ip < (192 * 256 + 168 + 1) * 2 ^ 16 ↔
    ((192 * 256 + 168) * 256 + 0) * 256 + 0 ≤ ip < ((192 * 256 + 168) * 256 + 0) * 256 + 0 + 2 ^ (32 - 16)) by lia.
  tauto.
Qed.

Lemma non_public_v4 ip :
  0 ≤ ip < 2 ^ 32 → is_non_public_ipv4 ip = true ↔ Exists (in_block 32 ip) non_public_v4_blocks.
Proof.
  intros Hip. destruct (v4_std_blocks ip Hip) as (Hl & Hp & Hk & Hm).
  unfold is_non_public_ipv4, non_public_v4_blocks. rewrite !orb_true_iff, Hl, Hp, Hk, Hm.
  rewrite !cidr_block by (try lia; by vm_compute).
  unfold v4_is_unspecified, v4_is_broadcast. rewrite !Z.eqb_eq, !Exists_cons, Exists_nil.
  assert (ip = 0 → in_block 32 ip (from_octets 0 0 0 0, 8)) by (intros ->; by vm_compute).
  assert (ip = 2 ^ 32 - 1 → in_block 32 ip (from_octets 240 0 0 0, 4)) by (intros ->; by vm_compute).
  tauto.
Qed.

Lemma segment_eq ip i : 0 ≤ i ≤ 7 → segment ip i = (ip / 2 ^ (16 * (7 - i))) mod 65536.
Proof.
  intros Hi. unfold segment. change 65535 with (Z.ones 16). rewrite Z.land_ones by lia.
  by rewrite Z.shiftr_div_pow2 by lia.
Qed.

Lemma segment_0 ip : 0 ≤ ip < 2 ^ 128 → segment ip 0 = ip / 2 ^ 112.
Proof.
  intros Hip. rewrite segment_eq by lia. apply Z.mod_small. split; [apply Z.div_pos; lia|].
  apply Z.div_lt_upper_bound; lia.
Qed.

(** The IPv6 addresses that carry an IPv4 address. *)
Lemma to_ipv4_spec ip :
  0 ≤ ip < 2 ^ 128 →
  to_ipv4 ip =
    if decide (ip < 2 ^ 32 ∨ 65535 * 2 ^ 32 ≤ ip < 2 ^ 48) then Some (ip mod 2 ^ 32) else None.
Proof.
  intros Hip. unfold to_ipv4. rewrite !segment_eq by lia.
  assert (Hv : (ip / 2 ^ (16 * (7 - 6))) mod 65536 * 65536 + (ip / 2 ^ (16 * (7 - 7))) mod 65536 = ip mod 2 ^ 32).
  { change (2 ^ (16 * (7 - 6))) with 65536. change (2 ^ (16 * (7 - 7))) with 1. rewrite Z.div_1_r.
    change (2 ^ 32) with (65536 * 65536). rewrite Z.rem_mul_r by lia. lia. }
  rewrite Hv. clear Hv.
  assert (Hchain : ∀ k, 0 ≤ k → ip / 2 ^ (16 * (k + 1)) = 0 ∧ (ip / 2 ^ (16 * k)) mod 65536 = 0 ↔ ip / 2 ^ (16 * k) = 0).
  { intros k Hk. replace (2 ^ (16 * (k + 1))) with (2 ^ (16 * k) * 65536)
      by (replace (16 * (k + 1)) with (16 * k + 16) by lia; by rewrite Z.pow_add_r by lia).
    rewrite <-Z.div_div by lia.
    pose proof (Z.div_mod (ip / 2 ^ (16 * k)) 65536 ltac:(lia)). split; [lia|by intros ->]. }
  assert (Hhigh : (ip / 2 ^ (16 * (7 - 0))) mod 65536 = 0 ∧ (ip / 2 ^ (16 * (7 - 1))) mod 65536 = 0 ∧
    (ip / 2 ^ (16 * (7 - 2))) mod 65536 = 0 ∧ (ip / 2 ^ (16 * (7 - 3))) mod 65536 = 0 ∧
    (ip / 2 ^ (16 * (7 - 4))) mod 65536 = 0 ↔ ip / 2 ^ 48 = 0).
  { pose proof (Hchain 7 ltac:(lia)) as H7. pose proof (Hchain 6 ltac:(lia)) as H6.
    pose proof (Hchain 5 ltac:(lia)) as H5. pose proof (Hchain 4 ltac:(lia)) as H4.
    pose proof (Hchain 3 ltac:(lia)) as H3. cbn [Z.add Z.sub Z.mul Z.opp Z.pos_sub Pos.add Pos.mul Pos.succ Pos.pred_double Pos.pred] in *.
    assert (ip / 2 ^ 128 = 0) by (apply Z.div_small; lia). tauto. }
  assert (Hlow : ip / 2 ^ 48 = 0 → (ip / 2 ^ (16 * (7 - 5))) mod 65536 = ip / 2 ^ 32).
  { intros H48. apply div_interval in H48; [|lia]. change (2 ^ (16 * (7 - 5))) with (2 ^ 32).
    apply Z.mod_small. split; [apply Z.div_pos; lia|apply Z.div_lt_upper_bound; lia]. }
  assert (H48 : ip / 2 ^ 48 = 0 ↔ ip < 2 ^ 48) by (rewrite div_interval by lia; lia).
  assert (H0 : ip / 2 ^ 32 = 0 ↔ ip < 2 ^ 32) by (rewrite div_interval by lia; lia).
  assert (Hf : ip / 2 ^ 32 = 65535 ↔ 65535 * 2 ^ 32 ≤ ip < 2 ^ 48) by (rewrite div_interval by lia; lia).
  destruct (_ && _) eqn:E; case_decide as Hd; [done| |exfalso|done].
  - exfalso. rewrite !andb_true_iff, orb_true_iff, !Z.eqb_eq in E. apply Hd.
    destruct E as [E E5]. assert (Hz : ip / 2 ^ 48 = 0) by tauto. rewrite (Hlow Hz) in E5. tauto.
  - apply not_true_iff_false in E. apply E. rewrite !andb_true_iff, orb_true_iff, !Z.eqb_eq.
    assert (Hz : ip / 2 ^ 48 = 0) by (apply H48; lia). rewrite (Hlow Hz). tauto.
Qed.

(** The blocks of IPv6 addresses, besides those with an IPv4 address. *)
Definition non_public_v6_blocks : list (Z * Z) :=
  [(64512 * 2 ^ 112, 7); (65152 * 2 ^ 112, 10); (65280 * 2 ^ 112, 8)].

Lemma segment_block ip k base :
  0 ≤ ip < 2 ^ 128 → 0 ≤ k ≤ 16 → base = 2 ^ k * (base / 2 ^ k) →
  (Z.land (segment ip 0) (2 ^ 16 - 2 ^ k) =? base) = true ↔ in_block 128 ip (base * 2 ^ 112, 16 - k).
Proof.
  intros Hip Hk Hbase. rewrite segment_0 by done. rewrite land_mask, Z.eqb_eq; [|lia|].
  2: { split; [apply Z.div_pos; lia|apply Z.div_lt_upper_bound; lia]. }
  unfold in_block. cbn [fst snd]. rewrite Hbase at 1.
  assert (Hp : 0 < 2 ^ k) by (apply Z.pow_pos_nonneg; lia).
  assert (Heq : 2 ^ k * (ip / 2 ^ 112 / 2 ^ k) = 2 ^ k * (base / 2 ^ k) ↔ ip / 2 ^ 112 / 2 ^ k = base / 2 ^ k) by nia.
  rewrite Heq, Z.div_div, <-Z.pow_add_r by lia. rewrite div_interval by (apply Z.pow_pos_nonneg; lia).
  replace (128 - (16 - k)) with (112 + k) by lia. rewrite Z.pow_add_r by lia. nia.
Qed.


(** ** Parsed addresses have the width of their kind *)
Definition valid_ip (ip : IpAddr) : Prop :=
  match ip with V4 ip => 0 ≤ ip < 2 ^ 32 | V6 ip => 0 ≤ ip < 2 ^ 128 end.

Lemma to_digit_nonneg radix c d : to_digit radix c = Some d → 0 ≤ d.
Proof. unfold to_digit. intros H. repeat (case_match; simplify_eq/=); bool_cases; lia. Qed.

Lemma read_digits_bound radix bound max count acc s n k rest :
  0 ≤ radix → 0 ≤ acc ≤ bound → read_digits radix bound max count acc s = Some (n, k, rest) → 0 ≤ n ≤ bound.
Proof.
  intros Hr. revert count acc; induction s as [|c s IH]; intros count acc Hacc; cbn [read_digits].
  { by intros [= <- _ _]. }
  destruct (to_digit radix c) as [d|] eqn:Hd; [|by intros [= <- _ _]].
  apply to_digit_nonneg in Hd. destruct (_ || _) eqn:E; [done|]. apply orb_false_iff in E as [E _].
  apply Z.ltb_ge in E. apply IH. nia.
Qed.

Lemma read_number_bound radix bound max zeros s n rest :
  0 ≤ radix → 0 ≤ bound → read_number radix bound max zeros s = Some (n, rest) → 0 ≤ n ≤ bound.
Proof.
  intros Hr Hb. unfold read_number. destruct (read_digits _ _ _ _ _ s) as [[[m k] r]|] eqn:E; [|done].
  apply read_digits_bound in E; [|lia|lia]. destruct (k =? 0)%nat; [done|].
  destruct (_ && _); [done|]. by intros [= <- _].
Qed.

Lemma read_octet_bound i s n rest : read_octet i s = Some (n, rest) → 0 ≤ n ≤ 255.
Proof.
  unfold read_octet, read_separator. intros H. repeat case_match; try done; by eapply read_number_bound in H.
Qed.

Lemma read_ipv4_bound s ip rest : read_ipv4_addr s = Some (ip, rest) → 0 ≤ ip < 2 ^ 32.
Proof.
  unfold read_ipv4_addr. intros H. do 4 (apply bind_Some in H as ([? ?] & ?%read_octet_bound & H)).
  injection H as <- _. unfold from_octets. lia.
Qed.

Lemma read_groups_bound left i s gs f rest :
  read_groups i left s = (gs, f, rest) → Forall (λ g, 0 ≤ g < 65536) gs ∧ (length gs ≤ left)%nat.
Proof.
  revert i s gs f rest; induction left as [|left IH]; intros i s gs f rest; cbn [read_groups].
  { intros [= <- _ _]. split; [constructor|done]. }
  destruct (if (1 <=? left)%nat then _ else None) as [[v4 r]|] eqn:E.
  - destruct (Nat.leb_spec 1 left); [|done]. intros [= <- _ _].
    assert (Hv : 0 ≤ v4 < 2 ^ 32) by (unfold read_separator in E; repeat case_match; try done; by eapply read_ipv4_bound).
    split; [|simpl; lia]. repeat constructor; try (apply Z.mod_pos_bound; lia); try lia.
    + apply Z.div_pos; lia.
    + apply Z.div_lt_upper_bound; lia.
  - destruct (read_separator COLON i (read_number 16 65535 4 true) s) as [[g r]|] eqn:Eg; [|intros [= <- _ _]; split; [constructor|simpl; lia]].
    destruct (read_groups (S i) left r) as [[gs' f'] r'] eqn:Er. intros [= <- _ _].
    destruct (IH _ _ _ _ _ Er) as [Hgs Hl]. split; [|simpl; lia]. constructor; [|done].
    assert (0 ≤ g ≤ 65535); [|lia].
    unfold read_separator in Eg. repeat case_match; try done; by eapply read_number_bound in Eg.
Qed.

Lemma from_segments_bound gs :
  Forall (λ g, 0 ≤ g < 65536) gs → 0 ≤ from_segments gs < 65536 ^ Z.of_nat (length gs).
Proof.
  unfold from_segments. induction gs as [|g gs IH] using rev_ind; [intros _; cbn; lia|].
  intros [Hgs Hg]%Forall_app. apply Forall_cons in Hg as [Hg _]. specialize (IH Hgs).
  rewrite foldl_app, length_app. cbn [foldl length].
  rewrite Nat2Z.inj_add, Z.pow_add_r by lia. cbn [Z.of_nat]. change (65536 ^ Z.of_nat 1) with 65536. lia.
Qed.

Lemma parse_ip_width s ip : parse_ip s = Some ip → valid_ip ip.
Proof.
  unfold parse_ip. destruct (read_ipv4_addr s) as [[v4 r]|] eqn:E4.
  { destruct r; [|done]. intros [= <-]. by eapply read_ipv4_bound. }
  destruct (read_ipv6_addr s) as [[v6 [|]]|] eqn:E6; try done. intros [= <-]. cbn [valid_ip].
  unfold read_ipv6_addr in E6. destruct (read_groups 0 8 s) as [[hd h4] s1] eqn:Eh.
  destruct (read_groups_bound _ _ _ _ _ _ Eh) as [Hhd Hl].
  change (2 ^ 128) with (65536 ^ Z.of_nat 8).
  destruct (Nat.eqb_spec (length hd) 8) as [H8|H8].
  { injection E6 as <- _. rewrite <-H8. by apply from_segments_bound. }
  destruct h4; [done|]. apply bind_Some in E6 as (s2 & _ & E6). apply bind_Some in E6 as (s3 & _ & E6).
  destruct (read_groups 0 (8 - (length hd + 1)) s3) as [[tl t4] s4] eqn:Et.
  destruct (read_groups_bound _ _ _ _ _ _ Et) as [Htl Htlen]. injection E6 as <- _.
  assert (Hlen : length (hd ++ replicate (8 - length hd - length tl) 0 ++ tl) = 8%nat)
    by (rewrite !length_app, length_replicate; lia).
  pose proof (from_segments_bound (hd ++ replicate (8 - length hd - length tl) 0 ++ tl)) as Hb.
  rewrite Hlen in Hb. apply Hb, Forall_app. split; [done|]. apply Forall_app.
  split; [|done]. apply Forall_replicate. lia.
Qed.

(** An address that parses has the width of its kind, and an address of
    that width is taken for non-public exactly when it lies in one of the
    listed blocks; an IPv6 address also when it maps, or is compatible with, an
    IPv4 address in one of the IPv4 blocks. *)
Theorem non_public_ip_spec :
  (∀ s ip, parse_ip s = Some ip → valid_ip ip) ∧
  ∀ ip, valid_ip ip → is_non_public_ip ip = true ↔
    match ip with
    | V4 a => Exists (in_block 32 a) non_public_v4_blocks
    | V6 a =>
        (∃ v4, 0 ≤ v4 < 2 ^ 32 ∧ (a = v4 ∨ a = 65535 * 2 ^ 32 + v4) ∧
           Exists (in_block 32 v4) non_public_v4_blocks) ∨
        Exists (in_block 128 a) non_public_v6_blocks
    end.
Proof.
  split; [apply parse_ip_width|]. intros [a|a] Ha; cbn [valid_ip is_non_public_ip] in *;
    [by apply non_public_v4|].
  unfold is_non_public_ipv6. rewrite to_ipv4_spec by done. unfold non_public_v6_blocks.
  rewrite !Exists_cons, Exists_nil. case_decide as Hd.
  - assert (Hm : a mod 2 ^ 32 = if decide (a < 2 ^ 32) then a else a - 65535 * 2 ^ 32).
    { case_decide; [apply Z.mod_small; lia|]. symmetry. apply (Z.mod_unique_pos _ _ 65535); lia. }
    assert (Hno : ∀ base k, 2 ^ 48 ≤ base → ¬ in_block 128 a (base, k))
      by (unfold in_block; cbn [fst snd]; intros; lia).
    rewrite orb_true_iff. rewrite non_public_v4 by (apply Z.mod_pos_bound; lia).
    unfold v6_is_loopback. rewrite Z.eqb_eq.
    assert (Hloop : a = 1 → Exists (in_block 32 (a mod 2 ^ 32)) non_public_v4_blocks)
      by (intros ->; left; by vm_compute).
    split.
    + intros H. left. exists (a mod 2 ^ 32). split; [apply Z.mod_pos_bound; lia|]. split; [|tauto].
      rewrite Hm. case_decide; lia.
    + intros [(v4 & Hv & Hav & Hex)|Hbad]; [|destruct Hbad as [Hb|[Hb|[Hb|[]]]]; exfalso; (eapply Hno; [|exact Hb]); lia].
      left. rewrite Hm. case_decide; destruct Hav as [->| ->]; try lia; [done|].
      by replace (65535 * 2 ^ 32 + v4 - 65535 * 2 ^ 32) with v4 by lia.
  - unfold v6_is_loopback, v6_is_unspecified, v6_is_multicast, v6_is_unique_local, v6_is_unicast_link_local.
    rewrite !orb_true_iff, !Z.eqb_eq, <-!Z.eqb_eq.
    pose proof (segment_block a 8 65280 Ha ltac:(lia) eq_refl) as H1.
    pose proof (segment_block a 9 64512 Ha ltac:(lia) eq_refl) as H2.
    pose proof (segment_block a 6 65152 Ha ltac:(lia) eq_refl) as H3.
    change (2 ^ 16 - 2 ^ 8) with 65280 in H1. change (2 ^ 16 - 2 ^ 9) with 65024 in H2.
    change (2 ^ 16 - 2 ^ 6) with 65472 in H3. cbn [Z.sub Z.opp Z.add Z.pos_sub] in H1, H2, H3.
    change (16 - 8) with 8 in H1. change (16 - 9) with 7 in H2. change (16 - 6) with 10 in H3.
    rewrite H1, H2, H3. rewrite !Z.eqb_eq. split.
    + intros [[[[?|?]|?]|?]|?]; try lia; tauto.
    + intros [(v4 & Hv & Hav & _)|?]; [lia|tauto].
Qed.


(** ** Examples *)
Example parse_examples :
  parse_ip (lit "127.0.0.1") = Some (V4 (from_octets 127 0 0 1)) ∧
  parse_ip (lit "01.2.3.4") = None ∧ parse_ip (lit "256.0.0.1") = None ∧
  parse_ip (lit "1.2.3") = None ∧
  parse_ip (lit "::1") = Some (V6 1) ∧ parse_ip (lit "::") = Some (V6 0) ∧
  parse_ip (lit "fe80::1:2") = Some (V6 (65152 * 2 ^ 112 + 65538)) ∧
  parse_ip (lit "::ffff:10.0.0.1") = Some (V6 (65535 * 2 ^ 32 + from_octets 10 0 0 1)) ∧
  parse_ip (lit "1:2:3:4:5:6:7:8:9") = None ∧ parse_ip (lit "1::2::3") = None ∧
  parse_ip (lit "example.com") = None.
Proof. vm_compute. done. Qed.

Example non_public_examples :
  is_non_public_ip (V4 (from_octets 8 8 8 8)) = false ∧
  is_non_public_ip (V6 (65535 * 2 ^ 32 + from_octets 10 0 0 1)) = true ∧
  is_non_public_ip (V6 1) = true.
Proof. vm_compute. done. Qed.
