(* ===== verification/NetworkPolicy.v ===== *)
(** * Hosts and domain patterns of the network proxy:
    [network-proxy/src/policy.rs]

    The crate [globset] is the class [GlobLib]; [url::Host::parse] is the
    argument [url_host]: the host in its canonical form, if it parses. *)
From stdpp Require Import base tactics option numbers strings sets list.
From S2P Require Import Prelude.
From S2P Require Import RustStr.
From S2P Require Import IpAddr.

(** ** Strings of the standard library *)
(** [str::trim_end_matches] with a character. *)
Fixpoint trim_end_char (x : char) (s : str) : str :=
  match s with
  | [] => []
  | c :: s' =>
      match trim_end_char x s' with
      | [] => if (c =? x)%N then [] else [c]
      | t => c :: t
      end
  end.

(** [str::split_once] with a character, and [str::contains]. *)
Fixpoint split_once (x : char) (s : str) : option (str * str) :=
  match s with
  | [] => None
  | c :: s' =>
      if (c =? x)%N then Some ([], s')
      else match split_once x s' with Some (a, b) => Some (c :: a, b) | None => None end
  end.

Definition contains_char (x : char) (s : str) : bool := bool_decide (x ∈ s).

(** How often a character occurs. *)
Definition count_char (x : char) (s : str) : nat := length (List.filter (λ c, (c =? x)%N) s).

Definition STAR : char := 42%N.
Definition QUESTION : char := 63%N.
Definition PERCENT : char := 37%N.
Definition LBRACKET : char := 91%N.
Definition RBRACKET : char := 93%N.

(** ** Hosts *)
Definition normalize_dns_host (host : str) : str := trim_end_char DOT (to_ascii_lowercase host).

Definition normalize_host (host : str) : str :=
  let host := trim host in
  match (if starts_with [LBRACKET] host then find [RBRACKET] host else None) with
  | Some end_ => normalize_dns_host (take (end_ - 1) (drop 1 host))
  | None =>
      if (count_char COLON host =? 1)%nat then
        normalize_dns_host (match split COLON host with h :: _ => h | [] => [] end)
      else normalize_dns_host host
  end.

(** [Host::parse]: [None] when the host is empty. *)
Definition host_parse (input : str) : option str :=
  match normalize_host input with [] => None | h => Some h end.

Definition without_scope (host : str) : str :=
  match split_once PERCENT host with Some (ip, _) => ip | None => host end.

Definition is_loopback_host (host : str) : bool :=
  let host := without_scope host in
  if bool_decide (host = lit "localhost") then true
  else match parse_ip host with Some ip => is_loopback ip | None => false end.

(** ** Domain patterns *)
Inductive DomainPattern : Type :=
  | ApexAndSubdomains (domain : str)
  | SubdomainsOnly (domain : str)
  | Exact (domain : str).

Definition parse_domain (domain : str) (build : str → DomainPattern) : DomainPattern :=
  match trim domain with [] => Exact [] | d => build d end.

Definition pattern_parse (input : str) : DomainPattern :=
  let input := trim input in
  match input with
  | [] => Exact []
  | _ =>
      match strip_prefix (lit "**.") input with
      | Some domain => parse_domain domain ApexAndSubdomains
      | None =>
          match strip_prefix (lit "*.") input with
          | Some domain => parse_domain domain SubdomainsOnly
          | None => Exact input
          end
      end
  end.

Definition expand_domain_pattern (pattern : str) : list str :=
  match pattern_parse pattern with
  | Exact domain => [domain]
  | SubdomainsOnly domain => [lit "?*." ++ domain]
  | ApexAndSubdomains domain => [domain; lit "?*." ++ domain]
  end.

Definition normalize_pattern (pattern : str) : str :=
  let pattern := trim pattern in
  if bool_decide (pattern = lit "*") then lit "*"
  else
    let '(prefix, remainder) :=
      match strip_prefix (lit "**.") pattern with
      | Some domain => (lit "**.", domain)
      | None =>
          match strip_prefix (lit "*.") pattern with
          | Some domain => (lit "*.", domain)
          | None => ([], pattern)
          end
      end in
    let remainder := normalize_host remainder in
    match prefix with [] => remainder | _ => prefix ++ remainder end.

Definition is_global_wildcard_domain_pattern (pattern : str) : bool :=
  existsb (λ candidate, bool_decide (candidate = lit "*"))
    (expand_domain_pattern (normalize_pattern pattern)).

Definition normalize_domain (domain : str) : str := to_ascii_lowercase (trim_end_char DOT domain).

Definition domain_eq (left right : str) : bool :=
  bool_decide (normalize_domain left = normalize_domain right).

Definition is_subdomain_or_equal (child parent : str) : bool :=
  let child := normalize_domain child in
  let parent := normalize_domain parent in
  if bool_decide (child = parent) then true else ends_with (DOT :: parent) child.

Definition is_strict_subdomain (child parent : str) : bool :=
  let child := normalize_domain child in
  let parent := normalize_domain parent in
  negb (bool_decide (child = parent)) && ends_with (DOT :: parent) child.

Definition allows (self candidate : DomainPattern) : bool :=
  match self with
  | Exact domain =>
      match candidate with Exact candidate => domain_eq candidate domain | _ => false end
  | SubdomainsOnly domain =>
      match candidate with
      | Exact candidate => is_strict_subdomain candidate domain
      | SubdomainsOnly candidate => is_subdomain_or_equal candidate domain
      | ApexAndSubdomains candidate => is_strict_subdomain candidate domain
      end
  | ApexAndSubdomains domain =>
      match candidate with
      | Exact candidate => is_subdomain_or_equal candidate domain
      | SubdomainsOnly candidate => is_subdomain_or_equal candidate domain
      | ApexAndSubdomains candidate => is_subdomain_or_equal candidate domain
      end
  end.

Section UrlHost.
Context (url_host : str → option str).

Definition parse_domain_for_constraints (domain : str) : str :=
  let domain := trim_end_char DOT (trim domain) in
  match domain with
  | [] => []
  | _ =>
      let host := if starts_with [LBRACKET] domain && ends_with [RBRACKET] domain
                  then take (length domain - 1 - 1) (drop 1 domain) else domain in
      if contains_char STAR host || contains_char QUESTION host || contains_char PERCENT host
      then domain
      else match url_host host with Some host => host | None => [] end
  end.

Definition parse_for_constraints (input : str) : DomainPattern :=
  let input := trim input in
  match input with
  | [] => Exact []
  | _ =>
      match strip_prefix (lit "**.") input with
      | Some domain => ApexAndSubdomains (parse_domain_for_constraints domain)
      | None =>
          match strip_prefix (lit "*.") input with
          | Some domain => SubdomainsOnly (parse_domain_for_constraints domain)
          | None => Exact (parse_domain_for_constraints input)
          end
      end
  end.
End UrlHost.

(** ** Sets of globs *)
Class GlobLib : Type := {
  GlobSet : Type;
  (** [GlobBuilder::new(p).case_insensitive(true).build()] succeeds. *)
  glob_builds : str → bool;
  (** [GlobSetBuilder::build] of these globs. *)
  globset_build : list str → option GlobSet;
  is_match : GlobSet → str → bool;
}.

Inductive PatternError : Type :=
  | GlobalWildcard (pattern : str)
  | InvalidGlob (candidate : str)
  | GlobSetError.

Section Compile.
Context `{GlobLib}.

(** The inner loop: the globs added and the patterns seen. *)
Fixpoint add_candidates (seen candidates : list str) : outcome PatternError (list str) :=
  match candidates with
  | [] => Ok []
  | candidate :: rest =>
      if bool_decide (candidate ∈ seen) then add_candidates seen rest
      else if glob_builds candidate then
        globs ← add_candidates (candidate :: seen) rest;
        Ok (candidate :: globs)
      else Err (InvalidGlob candidate)
  end.

(** The outer loop; [seen] are the globs added so far. *)
Fixpoint add_patterns (seen patterns : list str) : outcome PatternError (list str) :=
  match patterns with
  | [] => Ok []
  | pattern :: rest =>
      if is_global_wildcard_domain_pattern pattern then Err (GlobalWildcard pattern)
      else
        globs ← add_candidates seen (expand_domain_pattern (normalize_pattern pattern));
        more ← add_patterns (reverse globs ++ seen) rest;
        Ok (globs ++ more)
  end.

Definition compile_globset (patterns : list str) : outcome PatternError GlobSet :=
  globs ← add_patterns [] patterns;
  match globset_build globs with Some set => Ok set | None => Err GlobSetError end.
End Compile.

Example policy_examples :
  normalize_host (lit " Example.COM.:443 ") = lit "example.com" ∧
  normalize_host (lit "[::1]:80") = lit "::1" ∧
  normalize_host (lit "2001:DB8::1") = lit "2001:db8::1" ∧
  expand_domain_pattern (normalize_pattern (lit "**.Example.com")) = [lit "example.com"; lit "?*.example.com"] ∧
  is_global_wildcard_domain_pattern (lit "*") = true ∧
  is_global_wildcard_domain_pattern (lit "**.*") = true ∧
  is_global_wildcard_domain_pattern (lit "*.*") = false ∧
  is_loopback_host (lit "127.0.0.9") = true ∧ is_loopback_host (lit "::1%lo0") = true.
Proof. vm_compute. done. Qed.

(** ** The hosts of a pattern *)
(** A normalised host a pattern stands for. *)
Definition covers (p : DomainPattern) (host : str) : Prop :=
  match p with
  | Exact d => host = normalize_domain d
  | SubdomainsOnly d => (DOT :: normalize_domain d) `suffix_of` host
  | ApexAndSubdomains d => host = normalize_domain d ∨ (DOT :: normalize_domain d) `suffix_of` host
  end.

Lemma suffix_not_equal (d : str) : ¬ (DOT :: d) `suffix_of` d.
Proof. intros [k Hk]. apply (f_equal length) in Hk. rewrite length_app in Hk. simpl in Hk. lia. Qed.

Lemma strict_subdomain_covers c d :
  is_strict_subdomain c d = true ↔ covers (SubdomainsOnly d) (normalize_domain c).
Proof.
  unfold is_strict_subdomain, covers. rewrite andb_true_iff, ends_with_suffix, negb_true_iff.
  rewrite bool_decide_eq_false. split; [tauto|]. intros Hs. split; [|done].
  intros Heq. rewrite Heq in Hs. by eapply suffix_not_equal.
Qed.

Lemma subdomain_or_equal_covers c d :
  is_subdomain_or_equal c d = true ↔ covers (ApexAndSubdomains d) (normalize_domain c).
Proof.
  unfold is_subdomain_or_equal, covers. case_bool_decide; [tauto|]. rewrite ends_with_suffix. tauto.
Qed.

(** What follows when every subdomain of [c] is [d] or below it. *)
Lemma subdomains_below (c d : str) :
  (∀ x, x ≠ DOT → x :: DOT :: c = d ∨ (DOT :: d) `suffix_of` (x :: DOT :: c)) →
  c = d ∨ (DOT :: d) `suffix_of` c.
Proof.
  intros Hx. assert (Hone : ∃ x, x ≠ DOT ∧ (DOT :: d) `suffix_of` (x :: DOT :: c)).
  { destruct (Hx 97%N) as [Ha|?]; [done| |by exists 97%N].
    destruct (Hx 98%N) as [Hb|?]; [done| |by exists 98%N]. congruence. }
  destruct Hone as (x & Hne & [[|y k] Hk]); simpl in Hk; [congruence|].
  injection Hk as _ Hk. destruct k as [|z k]; simpl in Hk; [left; congruence|].
  right. exists k. by injection Hk.
Qed.

(** ** Compiled patterns *)
(** Wildcards as [globset] documents them, ignoring ASCII case: [?] stands for
    one character, [*] for any number. *)
Fixpoint wild (p : str) : str → bool :=
  match p with
  | [] => λ s, match s with [] => true | _ => false end
  | c :: p' =>
      if (c =? STAR)%N then
        fix star (s : str) : bool :=
          wild p' s || match s with [] => false | _ :: s' => star s' end
      else if (c =? QUESTION)%N then λ s, match s with [] => false | _ :: s' => wild p' s' end
      else λ s, match s with
                | [] => false
                | d :: s' => (ascii_lower c =? ascii_lower d)%N && wild p' s'
                end
  end.

(** Characters with no meaning in a glob but [*] and [?]. *)
Definition simple_char (c : char) : bool :=
  bool_decide ((c ∉ lit "[]{}\!,") ∧ (c < 128)%N).
Definition literal_char (c : char) : bool := simple_char c && bool_decide (c ∉ lit "*?").
Definition simple_glob (p : str) : bool := forallb simple_char p.
Definition literal (p : str) : bool := forallb literal_char p.
Definition ascii (s : str) : bool := forallb (λ c, (c <? 128)%N) s.

(** What the code relies on of [globset]: globs without classes, alternatives
    and escapes build, and a set matches when one of its globs does. *)
Class GlobLaws `{GlobLib} : Prop := {
  glob_builds_simple p : simple_glob p = true → glob_builds p = true;
  globset_builds l : Forall (λ p, simple_glob p = true) l → is_Some (globset_build l);
  globset_matches l set host : Forall (λ p, simple_glob p = true) l → ascii host = true →
    globset_build l = Some set → is_match set host = existsb (λ p, wild p host) l;
}.

Lemma wild_star p s : wild (STAR :: p) s = true ↔ ∃ k t, s = k ++ t ∧ wild p t = true.
Proof.
  change (wild (STAR :: p)) with (fix star (s : str) : bool :=
          wild p s || match s with [] => false | _ :: s' => star s' end).
  induction s as [|c s IH].
  - rewrite orb_true_iff. split; [intros [?|?]; [by exists [], []|done]|].
    intros (k & t & Hk & Ht). symmetry in Hk. apply app_eq_nil in Hk as [-> ->]. by left.
  - rewrite orb_true_iff, IH. split.
    + intros [?|(k & t & -> & ?)]; [by exists [], (c :: s)|by exists (c :: k), t].
    + intros ([|c' k] & t & Hk & Ht); simpl in Hk; [subst t; by left|].
      injection Hk as <- ->. right. by exists k, t.
Qed.

Lemma wild_literal p s : literal p = true → wild p s = true ↔ to_ascii_lowercase s = to_ascii_lowercase p.
Proof.
  revert s; induction p as [|c p IH]; intros s; cbn [literal forallb wild].
  { intros _. by destruct s. }
  intros [Hc Hp]%andb_true_iff. unfold literal_char in Hc.
  apply andb_true_iff in Hc as [_ Hc]. apply bool_decide_eq_true in Hc.
  destruct (N.eqb_spec c STAR) as [->|]; [by destruct Hc; vm_compute; left|].
  destruct (N.eqb_spec c QUESTION) as [->|]; [by destruct Hc; vm_compute; right; left|].
  destruct s as [|d s]; [done|]. cbn [to_ascii_lowercase fmap list_fmap].
  rewrite andb_true_iff, N.eqb_eq, (IH s Hp). unfold to_ascii_lowercase.
  split; [intros [-> ->]; done|intros [= -> ?]; done].
Qed.

Lemma wild_subdomains d s :
  literal d = true →
  wild (lit "?*." ++ d) s = true ↔
    ∃ sub, sub ≠ [] ∧ to_ascii_lowercase s = sub ++ DOT :: to_ascii_lowercase d.
Proof.
  intros Hd. change (lit "?*." ++ d) with (QUESTION :: STAR :: DOT :: d).
  change (wild (QUESTION :: STAR :: DOT :: d) s)
    with (match s with [] => false | _ :: s' => wild (STAR :: DOT :: d) s' end).
  assert (Hl : literal (DOT :: d) = true) by done.
  destruct s as [|c s]; [split; [done|]; intros (sub & _ & Hs); by destruct sub|].
  rewrite wild_star. setoid_rewrite (wild_literal (DOT :: d) _ Hl). unfold to_ascii_lowercase. split.
  - intros (k & t & -> & Ht). exists (ascii_lower <$> (c :: k)). split; [done|].
    rewrite fmap_cons, fmap_app, Ht. done.
  - intros (sub & Hne & Hs). destruct sub as [|c' sub]; [done|]. rewrite fmap_cons in Hs.
    injection Hs as _ Hs. apply fmap_app_inv in Hs as (k & t & Hk & Ht & ->).
    exists k, t. split; [done|]. by rewrite <-Ht.
Qed.

(** ** Compilation *)
(** The domain of a pattern, and the hosts its globs are meant to match. *)
Definition pattern_domain (p : DomainPattern) : str :=
  match p with ApexAndSubdomains d | SubdomainsOnly d | Exact d => d end.
Definition literal_pattern (pattern : str) : Prop :=
  literal (pattern_domain (pattern_parse (normalize_pattern pattern))) = true.

Definition below (host d : str) : Prop :=
  ∃ sub, sub ≠ [] ∧ to_ascii_lowercase host = sub ++ DOT :: to_ascii_lowercase d.
Definition pattern_matches (host pattern : str) : Prop :=
  match pattern_parse (normalize_pattern pattern) with
  | Exact d => to_ascii_lowercase host = to_ascii_lowercase d
  | SubdomainsOnly d => below host d
  | ApexAndSubdomains d => to_ascii_lowercase host = to_ascii_lowercase d ∨ below host d
  end.

Lemma literal_simple d : literal d = true → simple_glob d = true ∧ simple_glob (lit "?*." ++ d) = true.
Proof.
  intros Hd. assert (Hs : simple_glob d = true).
  { apply forallb_forall. intros c Hc. unfold literal in Hd. rewrite forallb_forall in Hd.
    specialize (Hd c Hc). by apply andb_true_iff in Hd as [? _]. }
  split; [done|]. unfold simple_glob. rewrite forallb_app. by apply andb_true_iff.
Qed.

Lemma literal_pattern_globs pattern :
  literal_pattern pattern →
  Forall (λ g, simple_glob g = true) (expand_domain_pattern (normalize_pattern pattern)) ∧
  is_global_wildcard_domain_pattern pattern = false ∧
  (∀ host, Exists (λ g, wild g host = true) (expand_domain_pattern (normalize_pattern pattern)) ↔
           pattern_matches host pattern).
Proof.
  unfold literal_pattern, is_global_wildcard_domain_pattern, pattern_matches, expand_domain_pattern.
  assert (Hstar : ∀ d, literal d = true → bool_decide (d = lit "*") = false)
    by (intros d Hd; apply bool_decide_eq_false; by intros ->).
  assert (Hq : ∀ d, bool_decide (lit "?*." ++ d = lit "*") = false) by (intros d; by apply bool_decide_eq_false).
  destruct (pattern_parse _) as [d|d|d]; cbn [pattern_domain]; intros Hd;
    destruct (literal_simple d Hd) as [Hs Hs']; cbn [existsb]; rewrite ?Hq, ?(Hstar d Hd);
    (split_and!; [by repeat constructor|done|]); intros host;
    rewrite !Exists_cons, Exists_nil, ?wild_literal, ?wild_subdomains by done; unfold below; tauto.
Qed.

Section compile_lemmas.
Context `{GlobLaws}.

Lemma add_candidates_spec seen candidates :
  Forall (λ g, simple_glob g = true) candidates →
  ∃ globs, add_candidates seen candidates = Ok globs ∧ Forall (λ g, simple_glob g = true) globs ∧
    ∀ g, g ∈ globs ∨ g ∈ seen ↔ g ∈ candidates ∨ g ∈ seen.
Proof.
  intros Hc. revert seen; induction Hc as [|c cs Hc _ IH]; intros seen; cbn [add_candidates].
  { exists []. split_and!; [done|constructor|done]. }
  case_bool_decide as Hin.
  - destruct (IH seen) as (globs & -> & Hs & Hg). exists globs. split_and!; [done..|].
    intros g. rewrite Hg, elem_of_cons. naive_solver.
  - rewrite glob_builds_simple by done. destruct (IH (c :: seen)) as (globs & -> & Hs & Hg).
    exists (c :: globs). split_and!; [done|by constructor|]. intros g. specialize (Hg g).
    rewrite !elem_of_cons in *. tauto.
Qed.

Lemma add_patterns_spec seen patterns :
  Forall literal_pattern patterns →
  ∃ globs, add_patterns seen patterns = Ok globs ∧ Forall (λ g, simple_glob g = true) globs ∧
    ∀ g, g ∈ globs ∨ g ∈ seen ↔
      (∃ p, p ∈ patterns ∧ g ∈ expand_domain_pattern (normalize_pattern p)) ∨ g ∈ seen.
Proof.
  intros Hp. revert seen; induction Hp as [|p ps Hp _ IH]; intros seen; cbn [add_patterns].
  { exists []. split_and!; [done|constructor|]. intros g. set_solver. }
  destruct (literal_pattern_globs p Hp) as (Hsimple & -> & _).
  destruct (add_candidates_spec seen _ Hsimple) as (globs & -> & Hs & Hg).
  cbn [mbind outcome_bind]. destruct (IH (reverse globs ++ seen)) as (more & -> & Hs' & Hg').
  exists (globs ++ more). split_and!; [done|by apply Forall_app|]. intros g. specialize (Hg g). specialize (Hg' g).
  rewrite elem_of_app, elem_of_reverse in Hg'. rewrite elem_of_app.
  assert (Hps : (∃ q, q ∈ p :: ps ∧ g ∈ expand_domain_pattern (normalize_pattern q)) ↔
    g ∈ expand_domain_pattern (normalize_pattern p) ∨
    ∃ q, q ∈ ps ∧ g ∈ expand_domain_pattern (normalize_pattern q)).
  { setoid_rewrite elem_of_cons. naive_solver. }
  rewrite Hps. clear -Hg Hg'. revert Hg Hg'.
  generalize (g ∈ globs), (g ∈ more), (g ∈ seen), (g ∈ expand_domain_pattern (normalize_pattern p)),
    (∃ q, q ∈ ps ∧ g ∈ expand_domain_pattern (normalize_pattern q)).
  intros A B S C P HAC HBP. split; intros H.
  - destruct H as [[HA|HB]|HS]; [| |by right].
    + destruct (proj1 HAC (or_introl HA)); auto.
    + destruct (proj1 HBP (or_introl HB)) as [?|?]; [by left; right|]. destruct (proj1 HAC); auto.
  - destruct H as [[HC|HP]|HS]; [| |by right].
    + destruct (proj2 HAC (or_introl HC)); auto.
    + destruct (proj2 HBP (or_introl HP)) as [?|[?|?]]; auto.
Qed.

Lemma compile_globset_matches patterns :
  Forall literal_pattern patterns →
  ∃ set, compile_globset patterns = Ok set ∧
    ∀ host, ascii host = true →
      is_match set host = true ↔ Exists (pattern_matches host) patterns.
Proof.
  intros Hp. unfold compile_globset. destruct (add_patterns_spec [] patterns Hp) as (globs & -> & Hs & Hg).
  cbn [mbind outcome_bind]. destruct (globset_builds globs Hs) as [set Hset]. rewrite Hset.
  exists set. split; [done|]. intros host Hh. rewrite (globset_matches globs set host Hs Hh Hset).
  rewrite existsb_elem, Exists_exists. rewrite Forall_forall in Hp. split.
  - intros (g & Hin & Hw). destruct (proj1 (Hg g) (or_introl Hin)) as [(p & Hpin & Hgp)|Hn];
      [|by apply not_elem_of_nil in Hn].
    exists p. split; [done|]. apply (literal_pattern_globs p); [by apply Hp|]. apply Exists_exists. eauto.
  - intros (p & Hin & Hm). apply (literal_pattern_globs p) in Hm; [|by apply Hp].
    apply Exists_exists in Hm as (g & Hgp & Hw). exists g. split; [|done].
    destruct (proj2 (Hg g)) as [?|Hn]; [left; eauto|done|by apply not_elem_of_nil in Hn].
Qed.

(** A list of patterns without glob syntax in their domains compiles, and
    the set matches exactly the hosts the patterns are documented to stand for:
    [d] the host [d], [*.d] its proper subdomains, [**.d] both, case ignored. *)
Theorem compile_globset_spec patterns :
  Forall literal_pattern patterns →
  ∃ set, compile_globset patterns = Ok set ∧
    ∀ host, ascii host = true →
      is_match set host = true ↔ Exists (pattern_matches host) patterns.
Proof. apply compile_globset_matches. Qed.
End compile_lemmas.

Lemma allows_included managed candidate :
  allows managed candidate = true ↔ ∀ host, covers candidate host → covers managed host.
Proof.
  assert (Htrans : ∀ x y z : str, (DOT :: x) `suffix_of` y → (DOT :: y) `suffix_of` z → (DOT :: x) `suffix_of` z).
  { intros x y z Hxy Hyz. etrans; [done|]. etrans; [|done]. by apply suffix_cons_r. }
  assert (Hsub : ∀ (c d : str), (∀ x, x ≠ DOT → x :: DOT :: c = d ∨ (DOT :: d) `suffix_of` (x :: DOT :: c)) →
    c = d ∨ (DOT :: d) `suffix_of` c) by apply subdomains_below.
  assert (Hx : ∀ (x : char) (c : str), (DOT :: c) `suffix_of` (x :: DOT :: c)) by (intros; by apply suffix_cons_r).
  destruct managed as [d|d|d], candidate as [c|c|c]; cbn [allows];
    rewrite ?strict_subdomain_covers, ?subdomain_or_equal_covers; unfold covers.
  - split; [intros [->|Hc] host [->|Hh]; eauto|]. intros Hi. apply Hi. by left.
  - split; [intros [->|Hc] host Hh; eauto|]. intros Hi. apply Hsub. intros x _. by apply Hi.
  - split; [by intros Hc host ->|]. intros Hi. by apply Hi.
  - split; [intros Hc host [->|Hh]; eauto|]. intros Hi. apply Hi. by left.
  - split; [intros [->|Hc] host Hh; eauto|]. intros Hi. apply Hsub. intros x _. right. by apply Hi.
  - split; [by intros Hc host ->|]. intros Hi. by apply Hi.
  - split; [done|]. intros Hi. pose proof (Hi (97%N :: DOT :: normalize_domain c) (or_intror (Hx _ _))).
    pose proof (Hi (98%N :: DOT :: normalize_domain c) (or_intror (Hx _ _))). congruence.
  - split; [done|]. intros Hi. pose proof (Hi (97%N :: DOT :: normalize_domain c) (Hx _ _)).
    pose proof (Hi (98%N :: DOT :: normalize_domain c) (Hx _ _)). congruence.
  - unfold domain_eq. rewrite bool_decide_eq_true. split; [by intros -> host ->|]. intros Hi. by apply Hi.
Qed.

(** [allows] decides inclusion: a managed pattern allows a candidate
    exactly when every host the candidate stands for is one the managed pattern
    stands for. *)
Theorem allows_iff_included managed candidate :
  allows managed candidate = true ↔ ∀ host, covers candidate host → covers managed host.
Proof. apply allows_included. Qed.

(** ** A library of globs *)
(** Sets of simple globs, matched by [wild]. *)
#[export] Instance simple_globs : GlobLib := {|
  GlobSet := list str;
  glob_builds := simple_glob;
  globset_build l := if forallb simple_glob l then Some l else None;
  is_match set host := existsb (λ p, wild p host) set;
|}.

#[export] Instance simple_globs_laws : GlobLaws.
Proof.
  assert (Hall : ∀ l, Forall (λ p, simple_glob p = true) l → forallb simple_glob l = true).
  { intros l Hl. apply forallb_elem. by rewrite Forall_forall in Hl. }
  split; cbn.
  - done.
  - intros l Hl. rewrite Hall by done. eauto.
  - intros l set host Hl _. rewrite Hall by done. by intros [= ->].
Qed.

Lemma compile_globset_witness :
  ∃ set, compile_globset [lit "**.Example.com"; lit "localhost"] = Ok set ∧
    ∀ host, ascii host = true →
      is_match set host = true ↔ Exists (pattern_matches host) [lit "**.Example.com"; lit "localhost"].
Proof. apply compile_globset_spec. repeat constructor. Defined.

(** The check for a global wildcard misses [*.*]: it compiles, to a glob
    that matches every host with a dot after its first character, where [*] and
    [**.*] are refused. *)
Theorem wildcard_suffix_accepted :
  compile_globset [lit "*"] = Err (GlobalWildcard (lit "*")) ∧
  compile_globset [lit "**.*"] = Err (GlobalWildcard (lit "**.*")) ∧
  ∃ set, compile_globset [lit "*.*"] = Ok set ∧
    ∀ (c : char) (before after : str), is_match set (c :: before ++ DOT :: after) = true.
Proof.
  split_and!; [by vm_compute..|]. exists [lit "?*.*"]. split; [by vm_compute|]. intros c before after.
  cbn [is_match simple_globs existsb]. rewrite orb_false_r.
  change (wild (lit "?*.*") (c :: before ++ DOT :: after))
    with (wild (STAR :: DOT :: [STAR]) (before ++ DOT :: after)).
  apply wild_star. exists before, (DOT :: after). split; [done|].
  change (wild [STAR] after = true). apply wild_star. exists after, []. by rewrite app_nil_r.
Qed.
