(* ===== verification/NetworkProxy.v ===== *)
(** * The network proxy's configuration and policy state:
    [network-proxy/src/config.rs], [state.rs], [runtime.rs] and
    [network_policy.rs]

    The proxy keeps its configuration, the compiled domain lists and a buffer
    of blocked requests behind a lock.  Each critical section is a function on
    [ConfigState]; what happens between two of them is a sequence of states.
    The resolver, the URL parser, the reloader and the decider are arguments. *)
From stdpp Require Import base tactics option numbers strings sets list.
From S2P Require Import Prelude.
From S2P Require Import RustStr.
From S2P Require Import Paths.
From S2P Require Import IpAddr.
From S2P Require Import NetworkPolicy.

Local Open Scope Z_scope.

(** ** [config.rs] *)
Inductive NetworkMode : Type := Limited | Full.

Definition allows_method (mode : NetworkMode) (method : str) : bool :=
  match mode with
  | Full => true
  | Limited => bool_decide (method ∈ [lit "GET"; lit "HEAD"; lit "OPTIONS"])
  end.

Record NetworkProxySettings : Type := {
  enabled : bool;
  proxy_url : str;
  enable_socks5 : bool;
  socks_url : str;
  enable_socks5_udp : bool;
  allow_upstream_proxy : bool;
  dangerously_allow_non_loopback_proxy : bool;
  dangerously_allow_all_unix_sockets : bool;
  mode : NetworkMode;
  allowed_domains : list str;
  denied_domains : list str;
  allow_unix_sockets : list str;
  allow_local_binding : bool;
  mitm : bool;
}.

(** [NetworkProxyConfig] has one field, [network]. *)
Abbreviation NetworkProxyConfig := NetworkProxySettings.

#[export] Instance NetworkMode_eq_dec : EqDecision NetworkMode.
Proof. solve_decision. Defined.
#[export] Instance NetworkProxySettings_eq_dec : EqDecision NetworkProxySettings.
Proof. solve_decision. Defined.

Definition default_proxy_url : str := lit "http://127.0.0.1:3128".
Definition default_socks_url : str := lit "http://127.0.0.1:8081".

Definition default_settings : NetworkProxySettings := {|
  enabled := false; proxy_url := default_proxy_url; enable_socks5 := true;
  socks_url := default_socks_url; enable_socks5_udp := true; allow_upstream_proxy := true;
  dangerously_allow_non_loopback_proxy := false; dangerously_allow_all_unix_sockets := false;
  mode := Full; allowed_domains := []; denied_domains := []; allow_unix_sockets := [];
  allow_local_binding := false; mitm := false |}.

(** A [SocketAddr]: the address and the port. *)
Record SocketAddr : Type := { addr_ip : IpAddr; addr_port : Z }.

Definition loopback_v4 (port : Z) : SocketAddr := {| addr_ip := V4 (from_octets 127 0 0 1); addr_port := port |}.

Definition clamp_non_loopback (addr : SocketAddr) (allow_non_loopback : bool) : SocketAddr :=
  if is_loopback (addr_ip addr) then addr
  else if allow_non_loopback then addr
  else loopback_v4 (addr_port addr).

Definition clamp_bind_addrs (http_addr socks_addr : SocketAddr) (cfg : NetworkProxySettings)
    : SocketAddr * SocketAddr :=
  let http_addr := clamp_non_loopback http_addr (dangerously_allow_non_loopback_proxy cfg) in
  let socks_addr := clamp_non_loopback socks_addr (dangerously_allow_non_loopback_proxy cfg) in
  if bool_decide (allow_unix_sockets cfg = []) && negb (dangerously_allow_all_unix_sockets cfg)
  then (http_addr, socks_addr)
  else (loopback_v4 (addr_port http_addr), loopback_v4 (addr_port socks_addr)).

Inductive ValidatedUnixSocketPath : Type :=
  | Native (path : AbsolutePathBuf)
  | UnixStyleAbsolute (path : str).

(** The errors the modelled code returns; their messages are left out. *)
Inductive NetError : Type :=
  | InvalidHost
  | InvalidUnixSocket (index : nat)
  | InvalidValue (field_name : str)
  | BadPattern (e : PatternError)
  | MitmUnavailable
  | ReloadFailed
  | MissingHost.

(** [str::parse::<u16>]: an optional plus sign, digits, no overflow. *)
Fixpoint parse_digits (acc : Z) (s : str) : option Z :=
  match s with
  | [] => Some acc
  | c :: s' =>
      match to_digit 10 c with
      | Some d => let acc := acc * 10 + d in if 65535 <? acc then None else parse_digits acc s'
      | None => None
      end
  end.
Definition parse_u16 (s : str) : option Z :=
  let digits := match strip_prefix (lit "+") s with Some s' => s' | None => s end in
  match digits with [] => None | _ => parse_digits 0 digits end.

(** [str::split_once] with a string, [str::rsplit_once] with a character. *)
Definition split_once_str (pat s : str) : option (str * str) :=
  match find pat s with Some i => Some (take i s, drop (i + length pat) s) | None => None end.
Definition rsplit_once (c : char) (s : str) : option (str * str) :=
  match split_once c (reverse s) with Some (b, a) => Some (reverse a, reverse b) | None => None end.

Record SocketAddressParts : Type := { parts_host : str; parts_port : Z }.

Definition parse_host_port_fallback (input : str) (default_port : Z) : outcome NetError SocketAddressParts :=
  let without_scheme := match split_once_str (lit "://") input with Some (_, rest) => rest | None => input end in
  let host_port := match split SLASH without_scheme with h :: _ => h | [] => without_scheme end in
  let host_port := match rsplit_once 64%N host_port with Some (_, rest) => rest | None => host_port end in
  match (if starts_with [LBRACKET] host_port then find [RBRACKET] host_port else None) with
  | Some end_ =>
      let host := take (end_ - 1) (drop 1 host_port) in
      let port := match strip_prefix [COLON] (drop (end_ + 1) host_port) with
                  | Some port => parse_u16 port
                  | None => None
                  end in
      match host with
      | [] => Err MissingHost
      | _ => Ok {| parts_host := host; parts_port := default default_port port |}
      end
  | None =>
      match (if (count_char COLON host_port =? 1)%nat then rsplit_once COLON host_port else None) with
      | Some (host, port) =>
          match host with
          | [] => Err MissingHost
          | _ => Ok {| parts_host := host; parts_port := default default_port (parse_u16 port) |}
          end
      | None =>
          match host_port with
          | [] => Err MissingHost
          | _ => Ok {| parts_host := host_port; parts_port := default_port |}
          end
      end
  end.

(** [trim_matches(|c| c == '[' || c == ']')]. *)
Fixpoint trim_start_brackets (s : str) : str :=
  match s with
  | c :: s' => if (c =? LBRACKET)%N || (c =? RBRACKET)%N then trim_start_brackets s' else s
  | [] => []
  end.
Definition trim_brackets (s : str) : str := reverse (trim_start_brackets (reverse (trim_start_brackets s))).

Section Config.
(** [Url::parse]: the host and the port of a URL that parses. *)
Context (url_parse : str → option (option str * option Z)).
Context `{PathEnv}.

Definition parse_host_port (url : str) (default_port : Z) : outcome NetError SocketAddressParts :=
  let trimmed := trim url in
  match trimmed with
  | [] => Err MissingHost
  | _ =>
      if match parse_ip trimmed with Some (V6 _) => negb (starts_with [LBRACKET] trimmed) | _ => false end
      then Ok {| parts_host := trimmed; parts_port := default_port |}
      else
        let candidate := match find (lit "://") trimmed with
                         | Some _ => trimmed
                         | None => lit "http://" ++ trimmed
                         end in
        match url_parse candidate with
        | Some (Some host, port) =>
            match trim_brackets host with
            | [] => Err MissingHost
            | host => Ok {| parts_host := host; parts_port := default default_port port |}
            end
        | _ => parse_host_port_fallback trimmed default_port
        end
  end.

Definition resolve_addr (url : str) (default_port : Z) : outcome NetError SocketAddr :=
  addr_parts ← parse_host_port url default_port;
  let host := if eq_ignore_ascii_case (parts_host addr_parts) (lit "localhost")
              then lit "127.0.0.1" else parts_host addr_parts in
  match parse_ip host with
  | Some ip => Ok {| addr_ip := ip; addr_port := parts_port addr_parts |}
  | None => Ok (loopback_v4 (parts_port addr_parts))
  end.

Definition format_host_and_port (host : str) (port : Z) : str :=
  if contains_char COLON host then [LBRACKET] ++ host ++ [RBRACKET; COLON] ++ show_N (Z.to_N port)
  else host ++ [COLON] ++ show_N (Z.to_N port).

Definition host_and_port_from_network_addr (value : str) (default_port : Z) : str :=
  match trim value with
  | [] => lit "<missing>"
  | trimmed =>
      match parse_host_port trimmed default_port with
      | Ok parts => format_host_and_port (parts_host parts) (parts_port parts)
      | _ => format_host_and_port trimmed default_port
      end
  end.

(** [ValidatedUnixSocketPath::parse]: [None] is an error. *)
Definition socket_path_parse (socket_path : str) : option ValidatedUnixSocketPath :=
  let path := path_of_str socket_path in
  if is_absolute path then Native <$> from_absolute_path path
  else if starts_with [SLASH] socket_path then Some (UnixStyleAbsolute socket_path)
  else None.

Fixpoint validate_socket_paths (index : nat) (paths : list str) : outcome NetError unit :=
  match paths with
  | [] => Ok ()
  | p :: rest =>
      match socket_path_parse p with
      | Some _ => validate_socket_paths (S index) rest
      | None => Err (InvalidUnixSocket index)
      end
  end.

Definition validate_unix_socket_allowlist_paths (cfg : NetworkProxyConfig) : outcome NetError unit :=
  validate_socket_paths 0 (allow_unix_sockets cfg).

Definition resolve_runtime (cfg : NetworkProxyConfig) : outcome NetError (SocketAddr * SocketAddr) :=
  _ ← validate_unix_socket_allowlist_paths cfg;
  http_addr ← resolve_addr (proxy_url cfg) 3128;
  socks_addr ← resolve_addr (socks_url cfg) 8081;
  Ok (clamp_bind_addrs http_addr socks_addr cfg).
End Config.

(** ** [state.rs] *)
Record NetworkProxyConstraints : Type := {
  c_enabled : option bool;
  c_mode : option NetworkMode;
  c_allow_upstream_proxy : option bool;
  c_dangerously_allow_non_loopback_proxy : option bool;
  c_dangerously_allow_all_unix_sockets : option bool;
  c_allowed_domains : option (list str);
  c_allowlist_expansion_enabled : option bool;
  c_denied_domains : option (list str);
  c_denylist_expansion_enabled : option bool;
  c_allow_unix_sockets : option (list str);
  c_allow_local_binding : option bool;
}.

#[export] Instance NetworkProxyConstraints_eq_dec : EqDecision NetworkProxyConstraints.
Proof. solve_decision. Defined.

Definition network_mode_rank (mode : NetworkMode) : Z := match mode with Limited => 0 | Full => 1 end.

Definition validate_domain_patterns (field_name : str) (patterns : list str) : outcome NetError unit :=
  if existsb is_global_wildcard_domain_pattern patterns then Err (InvalidValue field_name) else Ok ().

(** One check: an error about the field when the test fails. *)
Definition check_field (field_name : string) (ok : bool) : outcome NetError unit :=
  if ok then Ok () else Err (InvalidValue (lit field_name)).

(** [HashSet]s of lowercased entries: inclusion and equality. *)
Definition lower_mem (l : list str) (entry : str) : bool :=
  bool_decide (to_ascii_lowercase entry ∈ to_ascii_lowercase <$> l).
Definition includes (candidate required : list str) : bool := forallb (lower_mem candidate) required.
Definition same_set (candidate required : list str) : bool :=
  includes candidate required && includes required candidate.

(** A flag that is on although it is constrained to be off. *)
Definition flag_ok (candidate : bool) (constraint : option bool) : bool :=
  match constraint with Some false => negb candidate | _ => true end.

Section Validate.
Context (url_host : str → option str).

Definition validate_policy_against_constraints (config : NetworkProxyConfig)
    (constraints : NetworkProxyConstraints) : outcome NetError unit :=
  _ ← validate_domain_patterns (lit "network.allowed_domains") (allowed_domains config);
  _ ← validate_domain_patterns (lit "network.denied_domains") (denied_domains config);
  _ ← check_field "network.enabled"
        (match c_enabled constraints with
         | Some max_enabled => negb (enabled config && negb max_enabled)
         | None => true
         end);
  _ ← check_field "network.mode"
        (match c_mode constraints with
         | Some max_mode => negb (network_mode_rank max_mode <? network_mode_rank (mode config))
         | None => true
         end);
  _ ← check_field "network.allow_upstream_proxy"
        (flag_ok (allow_upstream_proxy config) (c_allow_upstream_proxy constraints));
  _ ← check_field "network.dangerously_allow_non_loopback_proxy"
        (flag_ok (dangerously_allow_non_loopback_proxy config)
                 (c_dangerously_allow_non_loopback_proxy constraints));
  let allow_all_unix_sockets :=
    default (bool_decide (c_allow_unix_sockets constraints = None))
      (c_dangerously_allow_all_unix_sockets constraints) in
  _ ← check_field "network.dangerously_allow_all_unix_sockets"
        (negb (dangerously_allow_all_unix_sockets config && negb allow_all_unix_sockets));
  _ ← check_field "network.allow_local_binding"
        (match c_allow_local_binding constraints with
         | Some allow => negb (allow_local_binding config && negb allow)
         | None => true
         end);
  _ ← match c_allowed_domains constraints with
      | None => Ok ()
      | Some managed =>
          _ ← validate_domain_patterns (lit "network.allowed_domains") managed;
          check_field "network.allowed_domains"
            (match c_allowlist_expansion_enabled constraints with
             | Some true => includes (allowed_domains config) managed
             | Some false => same_set (allowed_domains config) managed
             | None =>
                 let managed_patterns := parse_for_constraints url_host <$> managed in
                 forallb (λ entry,
                   existsb (λ m, allows m (parse_for_constraints url_host entry)) managed_patterns)
                   (allowed_domains config)
             end)
      end;
  _ ← match c_denied_domains constraints with
      | None => Ok ()
      | Some managed =>
          _ ← validate_domain_patterns (lit "network.denied_domains") managed;
          check_field "network.denied_domains"
            (match c_denylist_expansion_enabled constraints with
             | Some false => same_set (denied_domains config) managed
             | Some true | None => includes (denied_domains config) managed
             end)
      end;
  match c_allow_unix_sockets constraints with
  | None => Ok ()
  | Some managed =>
      check_field "network.allow_unix_sockets" (includes managed (allow_unix_sockets config))
  end.
End Validate.

(** ** [runtime.rs] *)
Inductive HostBlockReason : Type := Denied | NotAllowed | NotAllowedLocal.
Inductive HostBlockDecision : Type := Allowed | Blocked (reason : HostBlockReason).

Definition REASON_POLICY_DENIED : str := lit "policy_denied".
Definition reason_str (r : HostBlockReason) : str :=
  match r with
  | Denied => lit "denied"
  | NotAllowed => lit "not_allowed"
  | NotAllowedLocal => lit "not_allowed_local"
  end.

Record BlockedRequest : Type := {
  br_host : str;
  br_reason : str;
  br_client : option str;
  br_method : option str;
  br_mode : option NetworkMode;
  br_protocol : str;
  br_decision : option str;
  br_source : option str;
  br_port : option Z;
  br_timestamp : Z;
}.

Definition MAX_BLOCKED_EVENTS : nat := 200.

Section HostChecks.
(** [lookup_host] within its timeout; [None] when it fails. *)
Context (lookup_host : str → Z → option (list IpAddr)).

Definition host_resolves_to_non_public_ip (host : str) (port : Z) : bool :=
  match parse_ip host with
  | Some ip => is_non_public_ip ip
  | None =>
      match lookup_host host port with
      | Some addrs => existsb is_non_public_ip addrs
      | None => false
      end
  end.

Definition is_explicit_local_allowlisted (allowed_domains : list str) (host : str) : bool :=
  existsb (λ pattern,
    let pattern := trim pattern in
    if bool_decide (pattern = lit "*") || starts_with (lit "*.") pattern || starts_with (lit "**.") pattern
    then false
    else if contains_char STAR pattern || contains_char QUESTION pattern then false
    else bool_decide (normalize_host pattern = host)) allowed_domains.

Definition is_local_literal (host : str) : bool :=
  if is_loopback_host host then true
  else match parse_ip (without_scope host) with Some ip => is_non_public_ip ip | None => false end.
End HostChecks.

Inductive DomainListKind : Type := Allow | Deny.

(** [split_domain_lists_mut]: the list to change, the opposite one, and the
    configuration with both put back. *)
Definition target_list (cfg : NetworkProxyConfig) (t : DomainListKind) : list str :=
  match t with Allow => allowed_domains cfg | Deny => denied_domains cfg end.
Definition opposite_list (cfg : NetworkProxyConfig) (t : DomainListKind) : list str :=
  match t with Allow => denied_domains cfg | Deny => allowed_domains cfg end.
Definition set_domains (cfg : NetworkProxyConfig) (allowed denied : list str) : NetworkProxyConfig := {|
  enabled := enabled cfg; proxy_url := proxy_url cfg; enable_socks5 := enable_socks5 cfg;
  socks_url := socks_url cfg; enable_socks5_udp := enable_socks5_udp cfg;
  allow_upstream_proxy := allow_upstream_proxy cfg;
  dangerously_allow_non_loopback_proxy := dangerously_allow_non_loopback_proxy cfg;
  dangerously_allow_all_unix_sockets := dangerously_allow_all_unix_sockets cfg;
  mode := mode cfg; allowed_domains := allowed; denied_domains := denied;
  allow_unix_sockets := allow_unix_sockets cfg; allow_local_binding := allow_local_binding cfg;
  mitm := mitm cfg |}.
Definition set_lists (cfg : NetworkProxyConfig) (t : DomainListKind) (target opposite : list str)
    : NetworkProxyConfig :=
  match t with Allow => set_domains cfg target opposite | Deny => set_domains cfg opposite target end.
Definition set_mode (cfg : NetworkProxyConfig) (m : NetworkMode) : NetworkProxyConfig := {|
  enabled := enabled cfg; proxy_url := proxy_url cfg; enable_socks5 := enable_socks5 cfg;
  socks_url := socks_url cfg; enable_socks5_udp := enable_socks5_udp cfg;
  allow_upstream_proxy := allow_upstream_proxy cfg;
  dangerously_allow_non_loopback_proxy := dangerously_allow_non_loopback_proxy cfg;
  dangerously_allow_all_unix_sockets := dangerously_allow_all_unix_sockets cfg;
  mode := m; allowed_domains := allowed_domains cfg; denied_domains := denied_domains cfg;
  allow_unix_sockets := allow_unix_sockets cfg; allow_local_binding := allow_local_binding cfg;
  mitm := mitm cfg |}.

Section Runtime.
Context `{GlobLib} `{PathEnv} {Mitm : Type}.
Context (url_host : str → option str) (lookup_host : str → Z → option (list IpAddr)).
(** [MitmState::new]. *)
Context (mitm_new : bool → option Mitm).

Record ConfigState : Type := {
  config : NetworkProxyConfig;
  allow_set : GlobSet;
  deny_set : GlobSet;
  mitm_state : option Mitm;
  constraints : NetworkProxyConstraints;
  blocked : list BlockedRequest;
  blocked_total : Z;
}.

Definition lift_pattern_error {A} (m : outcome PatternError A) : outcome NetError A := map_err BadPattern m.

Definition build_config_state (cfg : NetworkProxyConfig) (cons : NetworkProxyConstraints)
    : outcome NetError ConfigState :=
  _ ← validate_unix_socket_allowlist_paths cfg;
  _ ← validate_domain_patterns (lit "network.allowed_domains") (allowed_domains cfg);
  _ ← validate_domain_patterns (lit "network.denied_domains") (denied_domains cfg);
  deny ← lift_pattern_error (compile_globset (denied_domains cfg));
  allow ← lift_pattern_error (compile_globset (allowed_domains cfg));
  m ← (if mitm cfg then
         match mitm_new (allow_upstream_proxy cfg) with
         | Some m => Ok (Some m)
         | None => Err MitmUnavailable
         end
       else Ok None);
  Ok {| config := cfg; allow_set := allow; deny_set := deny; mitm_state := m; constraints := cons;
        blocked := []; blocked_total := 0 |}.

Definition set_config (st : ConfigState) (cfg : NetworkProxyConfig) : ConfigState :=
  {| config := cfg; allow_set := allow_set st; deny_set := deny_set st; mitm_state := mitm_state st;
     constraints := constraints st; blocked := blocked st; blocked_total := blocked_total st |}.
Definition set_blocked (st : ConfigState) (b : list BlockedRequest) (total : Z) : ConfigState :=
  {| config := config st; allow_set := allow_set st; deny_set := deny_set st; mitm_state := mitm_state st;
     constraints := constraints st; blocked := b; blocked_total := total |}.

(** *** Critical sections *)
(** The second half of [reload_if_needed]: the snapshot is the state its read
    lock saw. *)
Definition reload_write (snapshot new_state : ConfigState) : ConfigState :=
  set_blocked new_state (blocked snapshot) (blocked_total snapshot).

(** [force_reload] reads the buffer under the lock it writes with. *)
Definition force_reload_write (st new_state : ConfigState) : ConfigState :=
  set_blocked new_state (blocked st) (blocked_total new_state).

(** [maybe_reload] and [reload_now] are the reloader's; an error leaves the
    state as it is. *)
Definition reload_if_needed (loaded : outcome NetError (option ConfigState)) (snapshot st : ConfigState)
    : outcome NetError ConfigState :=
  new ← loaded;
  match new with None => Ok st | Some new_state => Ok (reload_write snapshot new_state) end.

Definition force_reload (loaded : outcome NetError ConfigState) (st : ConfigState)
    : outcome NetError ConfigState :=
  new_state ← loaded;
  Ok (force_reload_write st new_state).

(** The loop that drops the oldest entries. *)
Fixpoint pop_while_over (fuel : nat) (l : list BlockedRequest) : list BlockedRequest :=
  match fuel with
  | 0%nat => l
  | S fuel => if (MAX_BLOCKED_EVENTS <? length l)%nat then pop_while_over fuel (tail l) else l
  end.

Definition record_blocked_write (entry : BlockedRequest) (st : ConfigState) : ConfigState :=
  let l := blocked st ++ [entry] in
  set_blocked st (pop_while_over (length l) l) (sat_add (blocked_total st) 1).

Definition drain_blocked_write (st : ConfigState) : list BlockedRequest * ConfigState :=
  (blocked st, set_blocked st [] (blocked_total st)).

(** [set_network_mode]: the check on the snapshot, then the write, [None] when
    the loop goes round again. *)
Definition set_network_mode_read (m : NetworkMode) (snapshot : ConfigState) : outcome NetError unit :=
  validate_policy_against_constraints url_host (set_mode (config snapshot) m) (constraints snapshot).
Definition set_network_mode_write (m : NetworkMode) (snapshot st : ConfigState) : option ConfigState :=
  if bool_decide (constraints st = constraints snapshot)
  then Some (set_config st (set_mode (config st) m))
  else None.

(** [update_domain_list]: what an iteration computes from the snapshot, [None]
    when there is nothing to do. *)
Definition has_host (host : str) (entries : list str) : bool :=
  existsb (λ entry, bool_decide (normalize_host entry = host)) entries.
Definition retain_others (host : str) (entries : list str) : list str :=
  List.filter (λ entry, negb (bool_decide (normalize_host entry = host))) entries.

Definition update_candidate (host : str) (t : DomainListKind) (cfg : NetworkProxyConfig)
    : option NetworkProxyConfig :=
  if has_host host (target_list cfg t) && negb (has_host host (opposite_list cfg t)) then None
  else Some (set_lists cfg t (retain_others host (target_list cfg t) ++ [host])
                             (retain_others host (opposite_list cfg t))).

Definition update_domain_read (host : str) (t : DomainListKind) (snapshot : ConfigState)
    : outcome NetError (option ConfigState) :=
  match update_candidate host t (config snapshot) with
  | None => Ok None
  | Some candidate =>
      _ ← validate_policy_against_constraints url_host candidate (constraints snapshot);
      new_state ← build_config_state candidate (constraints snapshot);
      Ok (Some (set_blocked new_state (blocked snapshot) (blocked_total snapshot)))
  end.

Definition update_domain_write (snapshot new_state st : ConfigState) : option ConfigState :=
  if bool_decide (constraints st ≠ constraints snapshot ∨ config st ≠ config snapshot) then None
  else Some new_state.

(** The loop of [update_domain_list]: [rounds] are the states its read lock and
    its write lock see, round after round, after [reload_if_needed]. *)
Fixpoint update_domain_loop (host : str) (t : DomainListKind) (rounds : list (ConfigState * ConfigState))
    : outcome NetError ConfigState :=
  match rounds with
  | [] => NoFuel
  | (snapshot, st) :: rounds =>
      new ← update_domain_read host t snapshot;
      match new with
      | None => Ok st
      | Some new_state =>
          match update_domain_write snapshot new_state st with
          | Some st' => Ok st'
          | None => update_domain_loop host t rounds
          end
      end
  end.

Definition update_domain_list (raw_host : str) (t : DomainListKind) (rounds : list (ConfigState * ConfigState))
    : outcome NetError ConfigState :=
  match host_parse raw_host with
  | None => Err InvalidHost
  | Some host => update_domain_loop host t rounds
  end.

(** *** Questions *)
Definition host_blocked (st : ConfigState) (host : str) (port : Z) : HostBlockDecision :=
  match host_parse host with
  | None => Blocked NotAllowed
  | Some host =>
      if is_match (deny_set st) host then Blocked Denied
      else
        let is_allowlisted := is_match (allow_set st) host in
        let local_blocked :=
          if allow_local_binding (config st) then false
          else if is_local_literal host
               then negb (is_explicit_local_allowlisted (allowed_domains (config st)) host)
               else host_resolves_to_non_public_ip lookup_host host port in
        if local_blocked then Blocked NotAllowedLocal
        else if bool_decide (allowed_domains (config st) = []) || negb is_allowlisted
             then Blocked NotAllowed
             else Allowed
  end.

Definition method_allowed (st : ConfigState) (method : str) : bool := allows_method (mode (config st)) method.

(** [is_unix_socket_allowed] on a platform with or without such sockets. *)
Definition is_unix_socket_allowed (unix_socket_permissions_supported : bool) (st : ConfigState)
    (path : str) : bool :=
  if negb unix_socket_permissions_supported then false
  else
    let requested_path := path_of_str path in
    if negb (is_absolute requested_path) then false
    else if dangerously_allow_all_unix_sockets (config st) then true
    else
      match from_absolute_path requested_path with
      | None => false
      | Some requested_abs =>
          let requested_canonical := canonicalize requested_abs in
          existsb (λ allowed,
            match socket_path_parse allowed with
            | Some (Native allowed_path) =>
                bool_decide (allowed_path = requested_abs)
                || match requested_canonical, canonicalize allowed_path with
                   | Some a, Some b => bool_decide (b = a)
                   | _, _ => false
                   end
            | _ => false
            end) (allow_unix_sockets (config st))
      end.
End Runtime.
Arguments ConfigState {_} _.

(** ** [network_policy.rs] *)
Inductive NetworkProtocol : Type := Http | HttpsConnect | Socks5Tcp | Socks5Udp.
Inductive NetworkPolicyDecision : Type := DecisionDeny | DecisionAsk.
Inductive NetworkDecisionSource : Type := BaselinePolicy | ModeGuard | ProxyState | Decider.

Record NetworkPolicyRequest : Type := {
  rq_protocol : NetworkProtocol;
  rq_host : str;
  rq_port : Z;
  rq_client_addr : option str;
  rq_method : option str;
  rq_command : option str;
  rq_exec_policy_hint : option str;
}.

Inductive NetworkDecision : Type :=
  | DecisionAllow
  | DecisionDenied (reason : str) (source : NetworkDecisionSource) (decision : NetworkPolicyDecision).

Definition deny_with_source (reason : str) (source : NetworkDecisionSource) : NetworkDecision :=
  let reason := match reason with [] => REASON_POLICY_DENIED | _ => reason end in
  DecisionDenied reason source DecisionDeny.
Definition ask_with_source (reason : str) (source : NetworkDecisionSource) : NetworkDecision :=
  let reason := match reason with [] => REASON_POLICY_DENIED | _ => reason end in
  DecisionDenied reason source DecisionAsk.

Definition map_decider_decision (decision : NetworkDecision) : NetworkDecision :=
  match decision with
  | DecisionAllow => DecisionAllow
  | DecisionDenied reason _ decision => DecisionDenied reason Decider decision
  end.

(** The decision, and what the audit event says: the decision, its source and
    its reason, and whether the decider overrode the policy. *)
Record PolicyAudit : Type := {
  audit_decision : str;
  audit_source : NetworkDecisionSource;
  audit_reason : str;
  policy_override : bool;
}.

Definition policy_decision_str (d : NetworkPolicyDecision) : str :=
  match d with DecisionDeny => lit "deny" | DecisionAsk => lit "ask" end.

Section HostPolicy.
Context `{GlobLib} {Mitm : Type} (lookup_host : str → Z → option (list IpAddr)).

Definition evaluate_host_policy (st : ConfigState Mitm)
    (decider : option (NetworkPolicyRequest → NetworkDecision)) (request : NetworkPolicyRequest)
    : NetworkDecision * PolicyAudit :=
  let '(decision, override) :=
    match host_blocked lookup_host st (rq_host request) (rq_port request) with
    | Allowed => (DecisionAllow, false)
    | Blocked NotAllowed =>
        match decider with
        | Some decide =>
            let decision := map_decider_decision (decide request) in
            (decision, match decision with DecisionAllow => true | _ => false end)
        | None => (deny_with_source (reason_str NotAllowed) BaselinePolicy, false)
        end
    | Blocked reason => (deny_with_source (reason_str reason) BaselinePolicy, false)
    end in
  let audit :=
    match decision with
    | DecisionAllow =>
        {| audit_decision := lit "allow";
           audit_source := if override : bool then Decider else BaselinePolicy;
           audit_reason := if override : bool then reason_str NotAllowed else lit "allow";
           policy_override := override |}
    | DecisionDenied reason source d =>
        {| audit_decision := policy_decision_str d; audit_source := source; audit_reason := reason;
           policy_override := override |}
    end in
  (decision, audit).
End HostPolicy.

(** ** What the constraints mean *)
Definition no_global_wildcard (patterns : list str) : Prop :=
  ∀ p, p ∈ patterns → is_global_wildcard_domain_pattern p = false.
(** Every entry of [required] is one of [l], ignoring case. *)
Definition has_entries (l required : list str) : Prop :=
  ∀ r, r ∈ required → ∃ e, e ∈ l ∧ to_ascii_lowercase e = to_ascii_lowercase r.

Record within (url_host : str → option str) (cfg : NetworkProxyConfig) (c : NetworkProxyConstraints) : Prop := {
  w_allowed : no_global_wildcard (allowed_domains cfg);
  w_denied : no_global_wildcard (denied_domains cfg);
  w_enabled : c_enabled c = Some false → enabled cfg = false;
  w_mode : c_mode c = Some Limited → mode cfg = Limited;
  w_upstream : c_allow_upstream_proxy c = Some false → allow_upstream_proxy cfg = false;
  w_non_loopback : c_dangerously_allow_non_loopback_proxy c = Some false →
    dangerously_allow_non_loopback_proxy cfg = false;
  w_all_sockets : dangerously_allow_all_unix_sockets cfg = true →
    c_dangerously_allow_all_unix_sockets c = Some true ∨
    c_dangerously_allow_all_unix_sockets c = None ∧ c_allow_unix_sockets c = None;
  w_local : c_allow_local_binding c = Some false → allow_local_binding cfg = false;
  w_managed_allowed : ∀ managed, c_allowed_domains c = Some managed → no_global_wildcard managed ∧
    match c_allowlist_expansion_enabled c with
    | Some true => has_entries (allowed_domains cfg) managed
    | Some false => has_entries (allowed_domains cfg) managed ∧ has_entries managed (allowed_domains cfg)
    | None => ∀ entry, entry ∈ allowed_domains cfg → ∃ m, m ∈ managed ∧
        ∀ host, covers (parse_for_constraints url_host entry) host →
                covers (parse_for_constraints url_host m) host
    end;
  w_managed_denied : ∀ managed, c_denied_domains c = Some managed → no_global_wildcard managed ∧
    has_entries (denied_domains cfg) managed ∧
    (c_denylist_expansion_enabled c = Some false → has_entries managed (denied_domains cfg));
  w_sockets : ∀ managed, c_allow_unix_sockets c = Some managed → has_entries managed (allow_unix_sockets cfg);
}.

Lemma validate_domain_patterns_iff f l :
  (validate_domain_patterns f l = Ok () ↔ no_global_wildcard l) ∧
  (validate_domain_patterns f l = Ok () ∨ validate_domain_patterns f l = Err (InvalidValue f)).
Proof.
  unfold validate_domain_patterns, no_global_wildcard. destruct (existsb _ l) eqn:E; [|split; [|by left]].
  - split; [|by right]. split; [done|]. apply existsb_elem in E as (p & Hp & Hw). intros Hn.
    by rewrite (Hn p Hp) in Hw.
  - split; [|done]. intros _ p Hp. apply not_true_iff_false in E. apply not_true_iff_false. intros Hw.
    apply E, existsb_elem. eauto.
Qed.

Lemma check_field_iff f b :
  (check_field f b = Ok () ↔ b = true) ∧ (check_field f b = Ok () ∨ check_field f b = Err (InvalidValue (lit f))).
Proof. destruct b; cbn; split; try done; auto. Qed.

Lemma includes_iff l required : includes l required = true ↔ has_entries l required.
Proof.
  unfold includes, has_entries, lower_mem. rewrite forallb_elem. setoid_rewrite bool_decide_eq_true.
  setoid_rewrite list_elem_of_fmap. naive_solver.
Qed.

(** Sequencing checks. *)
Lemma bind_unit_Ok {E} (m k : outcome E unit) : (_ ← m; k) = Ok () ↔ m = Ok () ∧ k = Ok ().
Proof. destruct m as [[]| | |]; cbn; naive_solver. Qed.

Definition refuses (m : outcome NetError unit) : Prop := m = Ok () ∨ ∃ f, m = Err (InvalidValue f).

Lemma refuses_bind (m k : outcome NetError unit) : refuses m → refuses k → refuses (_ ← m; k).
Proof. intros [->|[f ->]] Hk; [done|right; by exists f]. Qed.

Lemma refuses_patterns f l : refuses (validate_domain_patterns f l).
Proof. destruct (proj2 (validate_domain_patterns_iff f l)); [by left|right; eauto]. Qed.

Lemma refuses_check f b : refuses (check_field f b).
Proof. destruct (proj2 (check_field_iff f b)); [by left|right; eauto]. Qed.

Lemma validate_refuses url_host cfg c : refuses (validate_policy_against_constraints url_host cfg c).
Proof.
  unfold validate_policy_against_constraints. cbv zeta.
  repeat (apply refuses_bind; [first [apply refuses_patterns | apply refuses_check |
    destruct (_ : option (list str)); [apply refuses_bind; [apply refuses_patterns|apply refuses_check]|by left]]|]).
  destruct (c_allow_unix_sockets c); [apply refuses_check|by left].
Qed.

(** The managed lists, one at a time. *)
Lemma managed_allowed_iff url_host (l : list str) (expansion : option bool) managed :
  (match expansion with
   | Some true => includes l managed
   | Some false => same_set l managed
   | None => forallb (λ entry, existsb (λ m, allows m (parse_for_constraints url_host entry))
               (parse_for_constraints url_host <$> managed)) l
   end = true) ↔
  match expansion with
  | Some true => has_entries l managed
  | Some false => has_entries l managed ∧ has_entries managed l
  | None => ∀ entry, entry ∈ l → ∃ m, m ∈ managed ∧
      ∀ host, covers (parse_for_constraints url_host entry) host → covers (parse_for_constraints url_host m) host
  end.
Proof.
  destruct expansion as [[]|]; [apply includes_iff|unfold same_set; by rewrite andb_true_iff, !includes_iff|].
  rewrite forallb_elem. setoid_rewrite existsb_elem. setoid_rewrite allows_included.
  setoid_rewrite list_elem_of_fmap. naive_solver.
Qed.

Lemma managed_denied_iff (l : list str) (expansion : option bool) managed :
  (match expansion with Some false => same_set l managed | Some true | None => includes l managed end = true) ↔
  has_entries l managed ∧ (expansion = Some false → has_entries managed l).
Proof.
  destruct expansion as [[]|]; unfold same_set; rewrite ?andb_true_iff, ?includes_iff; naive_solver.
Qed.

(** A check on an optional constraint. *)
Lemma optional_check_iff {A} (o : option A) (f : A → outcome NetError unit) :
  match o with None => Ok () | Some a => f a end = Ok () ↔ ∀ a, o = Some a → f a = Ok ().
Proof. destruct o; naive_solver. Qed.

Lemma flags_iff (candidate : bool) (constraint : option bool) :
  (flag_ok candidate constraint = true ↔ (constraint = Some false → candidate = false)) ∧
  (match constraint with Some max => negb (candidate && negb max) | None => true end = true ↔
   (constraint = Some false → candidate = false)).
Proof. destruct candidate, constraint as [[]|]; cbn; naive_solver. Qed.

Lemma mode_iff m (max : option NetworkMode) :
  match max with Some max => negb (network_mode_rank max <? network_mode_rank m) | None => true end = true ↔
  (max = Some Limited → m = Limited).
Proof. destruct m, max as [[]|]; cbn; naive_solver. Qed.

Lemma all_sockets_iff (candidate : bool) (flag : option bool) (sockets : option (list str)) :
  negb (candidate && negb (default (bool_decide (sockets = None)) flag)) = true ↔
  (candidate = true → flag = Some true ∨ flag = None ∧ sockets = None).
Proof. destruct candidate, flag as [[]|], sockets; cbn; naive_solver. Qed.

Lemma validate_iff url_host cfg c :
  validate_policy_against_constraints url_host cfg c = Ok () ↔ within url_host cfg c.
Proof.
  unfold validate_policy_against_constraints. cbv zeta.
  rewrite !bind_unit_Ok, !optional_check_iff. setoid_rewrite bind_unit_Ok.
  repeat setoid_rewrite (λ f l, proj1 (validate_domain_patterns_iff f l)).
  repeat setoid_rewrite (λ f b, proj1 (check_field_iff f b)).
  rewrite !(proj1 (flags_iff _ _)), !(proj2 (flags_iff _ _)), mode_iff, all_sockets_iff.
  setoid_rewrite managed_allowed_iff. setoid_rewrite managed_denied_iff. setoid_rewrite includes_iff.
  split; [intros (? & ? & ? & ? & ? & ? & ? & ? & ? & ? & ?); by constructor|].
  intros []. by split_and!.
Qed.

(** [validate_policy_against_constraints] accepts a configuration exactly
    when it is within the managed constraints: no flag, mode or list goes beyond
    them, with an allowlist that may not be expanded the same up to case, one
    that must keep the managed entries, or, by default, one each of whose
    entries stands only for hosts a managed entry stands for; otherwise the
    error names a field. *)
Theorem validate_policy_spec url_host cfg c :
  (validate_policy_against_constraints url_host cfg c = Ok () ↔ within url_host cfg c) ∧
  (¬ within url_host cfg c →
   ∃ field, validate_policy_against_constraints url_host cfg c = Err (InvalidValue field)).
Proof.
  split; [apply validate_iff|]. intros Hn. destruct (validate_refuses url_host cfg c) as [Hok|?]; [|done].
  by apply validate_iff in Hok.
Qed.

(** ** Adding to the lists *)
Lemma retain_others_spec host l e :
  e ∈ retain_others host l ↔ e ∈ l ∧ normalize_host e ≠ host.
Proof.
  unfold retain_others. rewrite elem_of_filterb, negb_true_iff, bool_decide_eq_false. tauto.
Qed.

Lemma has_host_iff host l : has_host host l = true ↔ ∃ e, e ∈ l ∧ normalize_host e = host.
Proof. unfold has_host. rewrite existsb_elem. by setoid_rewrite bool_decide_eq_true. Qed.

(** The host is on list [t] of the configuration and not on the other. *)
Definition listed (host : str) (t : DomainListKind) (cfg : NetworkProxyConfig) : Prop :=
  (∃ e, e ∈ target_list cfg t ∧ (e = host ∨ normalize_host e = host)) ∧
  (∀ e, e ∈ opposite_list cfg t → normalize_host e ≠ host).

Lemma update_candidate_spec host t cfg :
  match update_candidate host t cfg with
  | None => listed host t cfg
  | Some cfg' =>
      listed host t cfg' ∧
      ∀ e, normalize_host e ≠ host → e ≠ host →
        (e ∈ target_list cfg' t ↔ e ∈ target_list cfg t) ∧
        (e ∈ opposite_list cfg' t ↔ e ∈ opposite_list cfg t)
  end.
Proof.
  unfold update_candidate. destruct (_ && _) eqn:E.
  - apply andb_true_iff in E as [(e & He & Hn)%has_host_iff Ho%negb_true_iff].
    split; [exists e; auto|]. intros e' He' Hn'. apply not_true_iff_false in Ho. apply Ho, has_host_iff. eauto.
  - assert (Ht : target_list (set_lists cfg t (retain_others host (target_list cfg t) ++ [host])
      (retain_others host (opposite_list cfg t))) t = retain_others host (target_list cfg t) ++ [host]) by by destruct t.
    assert (Ho : opposite_list (set_lists cfg t (retain_others host (target_list cfg t) ++ [host])
      (retain_others host (opposite_list cfg t))) t = retain_others host (opposite_list cfg t)) by by destruct t.
    unfold listed. rewrite Ht, Ho. split_and!.
    + exists host. split; [apply elem_of_app; right; by left|by left].
    + by intros e [_ ?]%retain_others_spec.
    + intros e Hn Hne. rewrite elem_of_app, !retain_others_spec, list_elem_of_singleton. tauto.
Qed.

(** ** The shared state *)
Section shared.
Context `{GlobLib} `{PathEnv} {Mitm : Type}.
Context (url_host : str → option str) (mitm_new : bool → option Mitm).
Abbreviation state := (ConfigState Mitm).
Implicit Types (st snapshot new : state).

(** The configuration is within the constraints, and the compiled lists are
    those of the configuration. *)
Definition good (st : state) : Prop :=
  within url_host (config st) (constraints st) ∧
  compile_globset (allowed_domains (config st)) = Ok (allow_set st) ∧
  compile_globset (denied_domains (config st)) = Ok (deny_set st).

(** Histories of the shared state, newest first.  A write may use a snapshot
    that a read lock took of any earlier state; the states the reloader hands
    over are those [loaded] holds of. *)
Section interleaving.
Variable loaded : state → Prop.
Inductive run : list state → Prop :=
  | run_start st : loaded st → blocked st = [] → run [st]
  | run_reload st hist snapshot new :
      run (st :: hist) → snapshot ∈ st :: hist → loaded new →
      run (reload_write snapshot new :: st :: hist)
  | run_force_reload st hist new :
      run (st :: hist) → loaded new → run (force_reload_write st new :: st :: hist)
  | run_record st hist entry :
      run (st :: hist) → run (record_blocked_write entry st :: st :: hist)
  | run_drain st hist :
      run (st :: hist) → run ((drain_blocked_write st).2 :: st :: hist)
  | run_mode st hist snapshot m st' :
      run (st :: hist) → snapshot ∈ st :: hist →
      set_network_mode_read url_host m snapshot = Ok () →
      set_network_mode_write m snapshot st = Some st' → run (st' :: st :: hist)
  | run_update st hist snapshot host t new st' :
      run (st :: hist) → snapshot ∈ st :: hist →
      update_domain_read url_host mitm_new host t snapshot = Ok (Some new) →
      update_domain_write snapshot new st = Some st' → run (st' :: st :: hist).
End interleaving.

Lemma pop_while_over_eq fuel l :
  (length l ≤ fuel)%nat → pop_while_over fuel l = drop (length l - MAX_BLOCKED_EVENTS) l.
Proof.
  revert l; induction fuel as [|fuel IH]; intros l Hl; cbn [pop_while_over].
  { destruct l; [done|simpl in Hl; lia]. }
  destruct (Nat.ltb_spec MAX_BLOCKED_EVENTS (length l)) as [Hlt|Hge].
  - destruct l as [|x l]; [simpl in Hlt; lia|]. simpl tail. simpl in Hl. rewrite IH by lia.
    replace (length (x :: l) - MAX_BLOCKED_EVENTS)%nat with (S (length l - MAX_BLOCKED_EVENTS))
      by (cbn [length] in *; lia). done.
  - by replace (length l - MAX_BLOCKED_EVENTS)%nat with 0%nat by lia.
Qed.

Lemma set_blocked_good st b n : good (set_blocked st b n) ↔ good st.
Proof. done. Qed.

Lemma set_mode_within cfg cfg' c m :
  within url_host cfg c → within url_host (set_mode cfg' m) c → within url_host (set_mode cfg m) c.
Proof. intros [] []. by constructor. Qed.

Lemma build_good cfg c st :
  within url_host cfg c → build_config_state mitm_new cfg c = Ok st →
  good st ∧ config st = cfg ∧ constraints st = c.
Proof.
  intros Hw Hb. unfold build_config_state in Hb.
  do 3 (apply bind_Ok_inv in Hb as ([] & _ & Hb)).
  apply bind_Ok_inv in Hb as (deny & Hdeny & Hb). apply bind_Ok_inv in Hb as (allow & Hallow & Hb).
  apply bind_Ok_inv in Hb as (m & _ & Hb). injection Hb as <-.
  assert (Hl : ∀ A (x : outcome PatternError A) a, lift_pattern_error x = Ok a → x = Ok a)
    by (intros A [] b; cbn; congruence).
  by split; [split_and!; [done|apply Hl..]|].
Qed.

Lemma update_read_good host t snapshot new :
  update_domain_read url_host mitm_new host t snapshot = Ok (Some new) →
  ∃ cfg, update_candidate host t (config snapshot) = Some cfg ∧ good new ∧ config new = cfg ∧
    constraints new = constraints snapshot ∧ blocked new = blocked snapshot ∧
    blocked_total new = blocked_total snapshot.
Proof.
  unfold update_domain_read. destruct (update_candidate _ _ _) as [cfg|]; [|done]. intros Hr.
  apply bind_Ok_inv in Hr as ([] & Hv & Hr). apply bind_Ok_inv in Hr as (built & Hb & Hr).
  injection Hr as <-. apply validate_iff in Hv. destruct (build_good _ _ _ Hv Hb) as (Hg & Hc & Hcs).
  exists cfg. split_and!; done.
Qed.

(** Whatever the interleaving of reloads, mode changes, additions to the
    domain lists and records, each working on snapshots that may be stale, the
    shared configuration stays within the constraints it is paired with, the
    compiled lists stay those of the configuration, and the buffer of blocked
    requests keeps its bound, as long as the reloader hands over states that
    are so. *)
Theorem shared_state_invariant (loaded : state → Prop) hist :
  (∀ st, loaded st → good st) → run loaded hist →
  Forall (λ st, good st ∧ (length (blocked st) ≤ MAX_BLOCKED_EVENTS)%nat) hist.
Proof.
  intros Hloaded. induction 1 as
    [st Hl Hb|st hist snapshot new _ IH Hin Hl|st hist new _ IH Hl|st hist entry _ IH|st hist _ IH
    |st hist snapshot m st' _ IH Hin Hr Hw|st hist snapshot host t new st' _ IH Hin Hr Hw].
  { constructor; [|constructor]. rewrite Hb. split; [by apply Hloaded|simpl; lia]. }
  all: pose proof IH as Hall; apply Forall_cons in IH as [[Hg Hlen] _]; constructor; [|exact Hall].
  all: try (rewrite Forall_forall in Hall; pose proof (Hall _ Hin) as [Hsg Hsl]).
  - split; [by apply (Hloaded new)|done].
  - split; [by apply (Hloaded new)|done].
  - split; [done|]. cbn [blocked record_blocked_write set_blocked]. rewrite pop_while_over_eq by done.
    rewrite length_drop. lia.
  - split; [done|]. simpl. lia.
  - unfold set_network_mode_write in Hw. case_bool_decide as Hc; [|done]. injection Hw as <-.
    split; [|done]. destruct Hg as (Hwi & Ha & Hd). split_and!; [|done|done]. cbn [config constraints set_config].
    eapply set_mode_within; [done|]. apply validate_iff in Hr. by rewrite Hc.
  - unfold update_domain_write in Hw. case_bool_decide as Hc; [done|]. injection Hw as <-.
    destruct (update_read_good _ _ _ _ Hr) as (cfg & _ & Hgn & _ & _ & -> & _). done.
Qed.

(** Building a state never panics. *)
Lemma returns_bind {E A B} (m : outcome E A) (f : A → outcome E B) :
  returns m → (∀ a, returns (f a)) → returns (m ≫= f).
Proof. destruct m; cbn; auto. Qed.

Lemma compile_returns patterns : returns (compile_globset patterns).
Proof.
  assert (Hc : ∀ l seen, returns (add_candidates seen l)).
  { induction l as [|c l IH]; intros seen; cbn [add_candidates]; [done|].
    case_bool_decide; [done|]. destruct (glob_builds c); [|done]. by apply returns_bind. }
  assert (Hp : ∀ l seen, returns (add_patterns seen l)).
  { induction l as [|p l IH]; intros seen; cbn [add_patterns]; [done|].
    destruct (is_global_wildcard_domain_pattern p); [done|].
    apply returns_bind; [done|]. intros globs. by apply returns_bind. }
  apply returns_bind; [done|]. intros globs. by destruct (globset_build globs).
Qed.

Lemma build_returns cfg c : returns (build_config_state mitm_new cfg c).
Proof.
  assert (Hp : ∀ l, returns (lift_pattern_error (compile_globset l)))
    by (intros l; pose proof (compile_returns l); by destruct (compile_globset l)).
  assert (Hs : ∀ l i, returns (validate_socket_paths i l)).
  { induction l as [|x l IH]; intros i; cbn [validate_socket_paths]; [done|]. by destruct (socket_path_parse x). }
  assert (Hd : ∀ f l, returns (validate_domain_patterns f l))
    by (intros f l; unfold validate_domain_patterns; by destruct (existsb _ l)).
  unfold build_config_state. repeat (apply returns_bind; [first [apply Hs|apply Hd|apply Hp]|intros ?]).
  apply returns_bind; [|done]. destruct (mitm cfg); [|done]. by destruct (mitm_new _).
Qed.

Lemma update_read_returns host t snapshot : returns (update_domain_read url_host mitm_new host t snapshot).
Proof.
  unfold update_domain_read. destruct (update_candidate _ _ _) as [cfg|]; [|done].
  apply returns_bind; [|intros _; apply returns_bind; [apply build_returns|done]].
  by destruct (validate_refuses url_host cfg (constraints snapshot)) as [->|[f ->]].
Qed.

(** [update_domain_list] leaves its loop in a round in which the
    configuration has not changed between its two locks, and then either
    reports an error, or leaves a state within the constraints whose compiled
    lists are current, in which the host is on the list and on the opposite
    list no more; the other entries of both lists, and the buffer of blocked
    requests, are as they were. *)
Theorem update_domain_list_spec raw host t st :
  good st → host_parse raw = Some host →
  (∃ e, update_domain_list url_host mitm_new raw t [(st, st)] = Err e) ∨
  (∃ st', update_domain_list url_host mitm_new raw t [(st, st)] = Ok st' ∧ good st' ∧
     listed host t (config st') ∧
     (∀ e, normalize_host e ≠ host → e ≠ host →
        (e ∈ target_list (config st') t ↔ e ∈ target_list (config st) t) ∧
        (e ∈ opposite_list (config st') t ↔ e ∈ opposite_list (config st) t)) ∧
     constraints st' = constraints st ∧ blocked st' = blocked st ∧ blocked_total st' = blocked_total st).
Proof.
  intros Hg Hh. unfold update_domain_list. rewrite Hh. cbn [update_domain_loop].
  pose proof (update_read_returns host t st) as Hret. pose proof (update_candidate_spec host t (config st)) as Hspec.
  destruct (update_domain_read url_host mitm_new host t st) as [[new|]|e| |] eqn:Er; try done;
    cbn [mbind outcome_bind]; [right|right|left; eauto].
  - destruct (update_read_good _ _ _ _ Er) as (cfg & Hc & Hgn & <- & Hcs & Hb & Ht).
    rewrite Hc in Hspec. destruct Hspec as [Hl Ho]. unfold update_domain_write.
    rewrite bool_decide_false by tauto. exists new. by split_and!.
  - unfold update_domain_read in Er. destruct (update_candidate _ _ _) as [cfg|].
    { apply bind_Ok_inv in Er as ([] & _ & Er). by apply bind_Ok_inv in Er as (? & _ & ?). }
    exists st. by split_and!.
Qed.
End shared.

(** ** Local names and addresses *)
(** An address that is not public: one in the listed IPv4 or IPv6 blocks, or
    an IPv6 address that maps, or is compatible with, one in the IPv4 blocks. *)
Definition non_public (ip : IpAddr) : Prop :=
  match ip with
  | V4 a => Exists (in_block 32 a) non_public_v4_blocks
  | V6 a =>
      (∃ v4, 0 ≤ v4 < 2 ^ 32 ∧ (a = v4 ∨ a = 65535 * 2 ^ 32 + v4) ∧
         Exists (in_block 32 v4) non_public_v4_blocks) ∨
      Exists (in_block 128 a) non_public_v6_blocks
  end.

(** A host without the scope that may follow a percent sign. *)
Definition name_of (host name : str) : Prop :=
  PERCENT ∉ name ∧ (host = name ∨ ∃ scope, host = name ++ PERCENT :: scope).

(** A host that names this machine or a private network by itself. *)
Definition names_local (host : str) : Prop :=
  ∃ name, name_of host name ∧
    (name = lit "localhost" ∨ ∃ ip, parse_ip name = Some ip ∧ non_public ip).

Lemma is_non_public_iff ip : valid_ip ip → is_non_public_ip ip = true ↔ non_public ip.
Proof. intros Hv. exact (proj2 non_public_ip_spec ip Hv). Qed.

Lemma loopback_non_public ip : is_loopback ip = true → is_non_public_ip ip = true.
Proof.
  destruct ip as [a|a]; cbn [is_loopback is_non_public_ip].
  - intros Hl. unfold is_non_public_ipv4. by rewrite Hl.
  - intros Hl. unfold is_non_public_ipv6. rewrite Hl. destruct (to_ipv4 a); [apply orb_true_r|done].
Qed.

Lemma split_once_Some x s a b : NetworkPolicy.split_once x s = Some (a, b) → s = a ++ x :: b ∧ x ∉ a.
Proof.
  revert a b; induction s as [|c s IH]; intros a b; cbn; [done|].
  destruct (N.eqb_spec c x) as [->|Hc]; [intros [= <- <-]; split; [done|apply not_elem_of_nil]|].
  destruct (NetworkPolicy.split_once x s) as [[a' b']|]; [|done]. intros [= <- <-].
  destruct (IH _ _ eq_refl) as [-> Ha]. split; [done|]. apply not_elem_of_cons. by split.
Qed.

Lemma split_once_None x s : NetworkPolicy.split_once x s = None → x ∉ s.
Proof.
  induction s as [|c s IH]; cbn; [intros _; apply not_elem_of_nil|].
  destruct (N.eqb_spec c x) as [->|Hc]; [done|].
  destruct (NetworkPolicy.split_once x s) as [[]|]; [done|]. intros _. apply not_elem_of_cons. auto.
Qed.

Lemma without_scope_name host : name_of host (without_scope host).
Proof.
  unfold without_scope, name_of. destruct (NetworkPolicy.split_once PERCENT host) as [[a b]|] eqn:E.
  - apply split_once_Some in E as [-> Ha]. eauto.
  - apply split_once_None in E. eauto.
Qed.

Lemma name_of_unique host n n' : name_of host n → name_of host n' → n = n'.
Proof.
  intros [Hn Hs] [Hn' Hs'].
  assert (Hcut : ∀ (a a' b b' : str), PERCENT ∉ a → PERCENT ∉ a' →
    a ++ PERCENT :: b = a' ++ PERCENT :: b' → a = a').
  { induction a as [|c a IH]; intros [|c' a'] b b' Ha Ha' Heq; [done|..].
    - injection Heq as <- _. set_solver.
    - injection Heq as -> _. set_solver.
    - injection Heq as -> Heq. f_equal. eapply IH; [..|exact Heq]; set_solver. }
  destruct Hs as [->|[sc ->]], Hs' as [Heq|[sc' Heq]]; [done|subst; set_solver|subst; set_solver|by eapply Hcut].
Qed.

Lemma is_local_literal_iff host : is_local_literal host = true ↔ names_local host.
Proof.
  unfold is_local_literal, is_loopback_host. pose proof (without_scope_name host) as Hw.
  set (name := without_scope host) in *. cbv zeta.
  assert (Hloc : names_local host ↔ name = lit "localhost" ∨ ∃ ip, parse_ip name = Some ip ∧ non_public ip).
  { split; [|by exists name]. intros (n & Hn & Hcase). by rewrite (name_of_unique _ _ _ Hw Hn). }
  rewrite Hloc. case_bool_decide as Hd; [tauto|].
  destruct (parse_ip name) as [ip|] eqn:E; [|naive_solver].
  pose proof (is_non_public_iff ip (parse_ip_width _ _ E)) as Hip.
  assert ((if is_loopback ip then true else is_non_public_ip ip) = is_non_public_ip ip) as ->.
  { destruct (is_loopback ip) eqn:El; [|done]. by rewrite loopback_non_public. }
  rewrite Hip. naive_solver.
Qed.

(** ** Decisions *)
Section decisions.
Context `{GlobLaws} `{PathEnv} {Mitm : Type}.
Context (url_host : str → option str) (mitm_new : bool → option Mitm).
Context (lookup_host : str → Z → option (list IpAddr)).
Abbreviation state := (ConfigState Mitm).
Implicit Types (st : state).

(** An entry of the allowlist that is this very host, and no pattern. *)
Definition explicit_entry (st : state) (host : str) : Prop :=
  ∃ entry, entry ∈ allowed_domains (config st) ∧ STAR ∉ trim entry ∧ QUESTION ∉ trim entry ∧
    normalize_host (trim entry) = host.

(** An address a connection to the host may reach. *)
Definition resolves_to (host : str) (port : Z) (ip : IpAddr) : Prop :=
  parse_ip host = Some ip ∨
  parse_ip host = None ∧ ∃ addrs, lookup_host host port = Some addrs ∧ ip ∈ addrs.

(** The local or private address rule. *)
Definition local_rule (st : state) (host : str) (port : Z) : Prop :=
  allow_local_binding (config st) = false ∧
  (names_local host ∧ ¬ explicit_entry st host ∨
   ¬ names_local host ∧ ∃ ip, resolves_to host port ip ∧ non_public ip).

(** Looked up addresses have the width of their kind. *)
Definition lookup_valid : Prop :=
  ∀ host port addrs, lookup_host host port = Some addrs → Forall valid_ip addrs.

Lemma is_explicit_iff st host :
  is_explicit_local_allowlisted (allowed_domains (config st)) host = true ↔ explicit_entry st host.
Proof.
  unfold is_explicit_local_allowlisted, explicit_entry. rewrite existsb_exists.
  apply exist_proper. intros e. rewrite list_elem_of_In. apply and_iff_compat_l. cbv zeta.
  assert (Hstar : ∀ t : str, (bool_decide (t = lit "*") || starts_with (lit "*.") t || starts_with (lit "**.") t)
    = true → STAR ∈ t).
  { intros t. rewrite !orb_true_iff, bool_decide_eq_true. intros [[->|Hs]|Hs]; [left|..];
      apply starts_with_prefix in Hs as [k ->]; left. }
  destruct (_ || _ || _) eqn:E; [split; [done|]; apply Hstar in E; tauto|].
  unfold contains_char.
  destruct (bool_decide_reflect (STAR ∈ trim e)); cbn; [naive_solver|].
  destruct (bool_decide_reflect (QUESTION ∈ trim e)); cbn; [naive_solver|].
  rewrite bool_decide_eq_true. tauto.
Qed.

Lemma resolves_non_public_iff host port :
  lookup_valid → host_resolves_to_non_public_ip lookup_host host port = true ↔
    ∃ ip, resolves_to host port ip ∧ non_public ip.
Proof.
  intros Hv. unfold host_resolves_to_non_public_ip, resolves_to.
  destruct (parse_ip host) as [ip|] eqn:E.
  - rewrite (is_non_public_iff ip) by (by eapply parse_ip_width). naive_solver.
  - destruct (lookup_host host port) as [addrs|] eqn:El; [|naive_solver].
    rewrite existsb_exists. specialize (Hv _ _ _ El). rewrite Forall_forall in Hv.
    split.
    + intros (ip & Hin%list_elem_of_In & Hn). exists ip. rewrite <-is_non_public_iff by auto.
      split; [right; eauto|done].
    + intros (ip & [?|(_ & addrs' & [= <-] & Hin)] & Hn); [done|]. exists ip.
      rewrite <-list_elem_of_In. split; [done|]. by apply is_non_public_iff; [apply Hv|].
Qed.

Lemma compiled_matches patterns set host :
  Forall literal_pattern patterns → ascii host = true → compile_globset patterns = Ok set →
  is_match set host = true ↔ Exists (pattern_matches host) patterns.
Proof.
  intros Hl Ha Hc. destruct (compile_globset_matches patterns Hl) as (set' & Hc' & Hm).
  rewrite Hc in Hc'. injection Hc' as <-. by apply Hm.
Qed.

(** The branches of [host_blocked]. *)
Lemma host_blocked_cases st raw port :
  lookup_valid → good url_host st → Forall literal_pattern (allowed_domains (config st)) →
  Forall literal_pattern (denied_domains (config st)) → ascii (normalize_host raw) = true →
  let host := normalize_host raw in
  let denied := Exists (pattern_matches host) (denied_domains (config st)) in
  let allowed := Exists (pattern_matches host) (allowed_domains (config st)) in
  match host_blocked lookup_host st raw port with
  | Allowed => host ≠ [] ∧ ¬ denied ∧ ¬ local_rule st host port ∧ allowed
  | Blocked Denied => host ≠ [] ∧ denied
  | Blocked NotAllowedLocal => host ≠ [] ∧ ¬ denied ∧ local_rule st host port
  | Blocked NotAllowed => host = [] ∨ ¬ denied ∧ ¬ local_rule st host port ∧ ¬ allowed
  end.
Proof.
  intros Hval (_ & Hca & Hcd) Hla Hld Hascii host denied allowed. unfold host_blocked, host_parse. fold host.
  pose proof (compiled_matches _ _ host Hld Hascii Hcd) as Hd.
  pose proof (compiled_matches _ _ host Hla Hascii Hca) as Ha. fold denied in Hd. fold allowed in Ha.
  destruct host as [|c h] eqn:Eh; [by left|]. rewrite <-Eh in *.
  destruct (is_match (deny_set st) host); [split; [by rewrite Eh|by apply Hd]|].
  assert (Hnd : ¬ denied) by (intros ?%Hd; done). cbv zeta.
  assert (Hne : host ≠ []) by (by rewrite Eh).
  assert (Hlocal : (if allow_local_binding (config st) then false
    else if is_local_literal host
         then negb (is_explicit_local_allowlisted (allowed_domains (config st)) host)
         else host_resolves_to_non_public_ip lookup_host host port) = true ↔ local_rule st host port).
  { unfold local_rule. destruct (allow_local_binding _); [naive_solver|].
    pose proof (is_local_literal_iff host) as Hlit. pose proof (is_explicit_iff st host) as Hex.
    destruct (is_local_literal host).
    - rewrite negb_true_iff, <-Hex, not_true_iff_false. tauto.
    - rewrite resolves_non_public_iff by done. assert (¬ names_local host) by (intros ?%Hlit; done). tauto. }
  destruct (if allow_local_binding _ then _ else _); [by split_and!; [..|apply Hlocal]|].
  assert (Hnl : ¬ local_rule st host port) by (intros ?%Hlocal; done).
  destruct (bool_decide _ || _) eqn:E.
  - right. split_and!; [done..|]. intros Hal. apply orb_true_iff in E as [E|E].
    + apply bool_decide_eq_true in E. unfold allowed in Hal. rewrite E in Hal. by apply Exists_nil in Hal.
    + apply negb_true_iff in E. apply Ha in Hal. congruence.
  - apply orb_false_iff in E as [_ E]. apply negb_false_iff in E. split_and!; [done..|by apply Ha].
Qed.

(** C29: the decision on a request, for a state whose compiled lists are those
    of its configuration and that keeps its constraints, patterns without glob
    syntax in their domains, a host that normalises to ASCII, and a resolver
    whose addresses have their width.  A denied host is denied.  Else, unless
    local binding is on, a host that is [localhost] or a non-public address is
    denied when no entry of the allowlist is that host, and any other host when
    it, or some address it resolves to, is not public.  Else an allowed host is
    allowed.  The decider is asked in the remaining case alone, so that it
    overrides neither of the first two, and the audit says so. *)
Theorem evaluate_host_policy_spec st decider request :
  lookup_valid → good url_host st → Forall literal_pattern (allowed_domains (config st)) →
  Forall literal_pattern (denied_domains (config st)) →
  ascii (normalize_host (rq_host request)) = true →
  let host := normalize_host (rq_host request) in
  let denied := Exists (pattern_matches host) (denied_domains (config st)) in
  let local := local_rule st host (rq_port request) in
  let allowed := Exists (pattern_matches host) (allowed_domains (config st)) in
  let '(decision, audit) := evaluate_host_policy lookup_host st decider request in
  (host ≠ [] → denied → decision = DecisionDenied (lit "denied") BaselinePolicy DecisionDeny) ∧
  (host ≠ [] → ¬ denied → local →
     decision = DecisionDenied (lit "not_allowed_local") BaselinePolicy DecisionDeny) ∧
  (host ≠ [] → ¬ denied → ¬ local → allowed → decision = DecisionAllow) ∧
  (host = [] ∨ ¬ denied ∧ ¬ local ∧ ¬ allowed →
     decision = match decider with
                | Some decide => map_decider_decision (decide request)
                | None => DecisionDenied (lit "not_allowed") BaselinePolicy DecisionDeny
                end) ∧
  (policy_override audit = true ↔
     decision = DecisionAllow ∧ (host = [] ∨ ¬ denied ∧ ¬ local ∧ ¬ allowed)).
Proof.
  intros Hval Hg Hla Hld Ha host denied local allowed.
  pose proof (host_blocked_cases st (rq_host request) (rq_port request) Hval Hg Hla Hld Ha) as Hcases.
  cbv zeta in Hcases. fold host denied allowed local in Hcases. unfold evaluate_host_policy.
  destruct (host_blocked _ _ _ _) as [|[]].
  - destruct Hcases as (Hne & Hnd & Hnl & Hal). cbn. naive_solver.
  - destruct Hcases as (Hne & Hd). cbn. naive_solver.
  - destruct decider as [decide|]; [|cbn; naive_solver].
    destruct (map_decider_decision (decide request)); cbn; naive_solver.
  - destruct Hcases as (Hne & Hnd & Hl). cbn. naive_solver.
Qed.

(** ** A host that is denied stays out *)
Lemma trim_end_char_head x c s : c ≠ x → ∃ s', trim_end_char x (c :: s) = c :: s'.
Proof.
  intros Hc. cbn [trim_end_char]. destruct (trim_end_char x s); [|eauto].
  destruct (N.eqb_spec c x); [done|eauto].
Qed.

Lemma normalize_host_head raw c s :
  trim raw = c :: s → c ≠ LBRACKET → c ≠ COLON → ascii_lower c ≠ DOT →
  ∃ s', normalize_host raw = ascii_lower c :: s'.
Proof.
  intros Ht Hb Hc Hd. unfold normalize_host. rewrite Ht.
  assert (starts_with [LBRACKET] (c :: s) = false) as ->.
  { apply starts_with_false. intros [k Hk]. simpl in Hk. congruence. }
  unfold normalize_dns_host. destruct (_ =? _)%nat; [|by apply trim_end_char_head].
  cbn [split]. destruct (N.eqb_spec c COLON); [done|].
  destruct (split COLON s); by apply trim_end_char_head.
Qed.

Lemma trim_start_idem s : trim_start (trim_start s) = trim_start s.
Proof. induction s as [|c s IH]; [done|]. cbn. destruct (is_whitespace c) eqn:E; [done|]. cbn. by rewrite E. Qed.

Lemma trim_end_idem s : trim_end (trim_end s) = trim_end s.
Proof.
  induction s as [|c s IH]; [done|]. cbn. destruct (trim_end s) as [|d t] eqn:E.
  - destruct (is_whitespace c) eqn:Ec; [done|]. cbn. by rewrite Ec.
  - cbn [trim_end] in *. rewrite IH. done.
Qed.

Lemma trim_start_end s : trim_start s = s → trim_start (trim_end s) = trim_end s.
Proof.
  destruct s as [|c s]; [done|]. cbn. destruct (is_whitespace c) eqn:Ec.
  - intros Hs. assert (Hl : ∀ l, (length (trim_start l) ≤ length l)%nat).
    { induction l as [|d l IHl]; [done|]. cbn. destruct (is_whitespace d); simpl; lia. }
    pose proof (Hl s) as Hle. apply (f_equal length) in Hs. simpl in Hs. lia.
  - intros _. destruct (trim_end s); cbn; by rewrite Ec.
Qed.

Lemma trim_idem s : trim (trim s) = trim s.
Proof.
  unfold trim. rewrite (trim_start_end (trim_start s)) by apply trim_start_idem. apply trim_end_idem.
Qed.

Lemma literal_not_star c s : literal (c :: s) = true → c ≠ STAR.
Proof.
  cbn. intros [Hc _]%andb_true_iff ->. unfold literal_char in Hc.
  apply andb_true_iff in Hc as [_ Hc]. by vm_compute in Hc.
Qed.

(** An entry that normalises to a plain host is a pattern for that host. *)
Lemma entry_matches raw host :
  normalize_host raw = host → host ≠ [] → literal host = true → trim host = host →
  pattern_matches host raw.
Proof.
  intros Hn Hne Hlit Htrim.
  assert (Hnostar : ∀ s, trim raw = STAR :: s → False).
  { intros s Hs. destruct (normalize_host_head raw STAR s Hs) as [s' Hs']; [done..|].
    rewrite Hn in Hs'. rewrite Hs' in Hlit. by apply literal_not_star in Hlit. }
  assert (Hpre : ∀ t, (∀ s, t = STAR :: s → False) →
    strip_prefix (lit "**.") t = None ∧ strip_prefix (lit "*.") t = None).
  { intros t Ht. split; apply strip_prefix_None; intros [k Hk]; eapply Ht; exact Hk. }
  assert (Hnp : normalize_pattern raw = host).
  { unfold normalize_pattern. cbv zeta. rewrite bool_decide_false by (intros Heq; exact (Hnostar [] Heq)).
    destruct (Hpre _ Hnostar) as [-> ->]. rewrite <-Hn. unfold normalize_host. by rewrite trim_idem. }
  assert (Hhs : ∀ s, host = STAR :: s → False) by (intros s ->; by apply literal_not_star in Hlit).
  unfold pattern_matches. rewrite Hnp. unfold pattern_parse. rewrite Htrim.
  destruct (Hpre _ Hhs) as [-> ->]. by destruct host.
Qed.

(** Once [add_denied_domain] has returned, every spelling of the host is
    blocked as denied, on every port, whatever else is allowed. *)
Theorem denied_host_is_blocked st st' raw host raw' port :
  good url_host st → host_parse raw = Some host → literal host = true → trim host = host →
  ascii host = true → normalize_host host = host →
  update_domain_list url_host mitm_new raw Deny [(st, st)] = Ok st' →
  Forall literal_pattern (denied_domains (config st')) →
  host_parse raw' = Some host → host_blocked lookup_host st' raw' port = Blocked Denied.
Proof.
  intros Hg Hh Hlit Htrim Hascii Hidem Hu Hlits Hh'.
  assert (Hpost : good url_host st' ∧ listed host Deny (config st')).
  { unfold update_domain_list in Hu. rewrite Hh in Hu. cbn [update_domain_loop] in Hu.
    pose proof (update_candidate_spec host Deny (config st)) as Hspec.
    apply bind_Ok_inv in Hu as ([new|] & Hr & Hu).
    - destruct (update_read_good _ _ _ _ _ _ Hr) as (cfg & Hc & Hgn & <- & _).
      rewrite Hc in Hspec. unfold update_domain_write in Hu. rewrite bool_decide_false in Hu by tauto.
      injection Hu as <-. by destruct Hspec.
    - injection Hu as <-. split; [done|]. unfold update_domain_read in Hr.
      destruct (update_candidate _ _ _) as [cfg|]; [|done].
      apply bind_Ok_inv in Hr as ([] & _ & Hr). by apply bind_Ok_inv in Hr as (? & _ & ?). }
  destruct Hpost as [(_ & _ & Hcd) [(e & He & Hen) _]].
  unfold host_blocked. rewrite Hh'.
  assert (Hne : host ≠ []) by (unfold host_parse in Hh; destruct (normalize_host raw); [done|by injection Hh as <-]).
  assert (is_match (deny_set st') host = true) as ->; [|done].
  apply (compiled_matches _ _ host Hlits Hascii Hcd). apply Exists_exists. exists e. split; [done|].
  apply entry_matches; [|done..]. by destruct Hen as [->|?].
Qed.
End decisions.

(** ** The buffer of blocked requests *)
Section buffer.
Context `{GlobLib} {Mitm : Type}.
Abbreviation state := (ConfigState Mitm).

(** What happens to the buffer, one operation after the other. *)
Inductive buffer_op : Type := Record_ (entry : BlockedRequest) | Drain | Reload (new : state).
Definition apply_op (st : state) (op : buffer_op) : state :=
  match op with
  | Record_ entry => record_blocked_write entry st
  | Drain => (drain_blocked_write st).2
  | Reload new => reload_write st new
  end.

(** The abstract buffer: the entries recorded since the last drain, and the
    number recorded ever. *)
Definition abstract_op (acc : list BlockedRequest * nat) (op : buffer_op) : list BlockedRequest * nat :=
  match op with
  | Record_ entry => (acc.1 ++ [entry], S acc.2)
  | Drain => ([], acc.2)
  | Reload _ => acc
  end.

Definition represents (st : state) (acc : list BlockedRequest * nat) : Prop :=
  blocked st = drop (length acc.1 - MAX_BLOCKED_EVENTS) acc.1 ∧
  blocked_total st = Z.min usize_max (Z.of_nat acc.2).

Lemma record_represents st acc entry :
  represents st acc → represents (record_blocked_write entry st) (acc.1 ++ [entry], S acc.2).
Proof.
  intros [Hb Ht]. split; cbn [fst snd blocked blocked_total record_blocked_write set_blocked].
  - rewrite pop_while_over_eq by done. rewrite Hb. set (n := length acc.1).
    rewrite !length_app, length_drop. cbn [length]. fold n.
    destruct (decide (n < MAX_BLOCKED_EVENTS)%nat).
    + replace (n - MAX_BLOCKED_EVENTS)%nat with 0%nat by lia. rewrite drop_0. f_equal. lia.
    + rewrite <-(drop_app_le acc.1 [entry]) by lia. rewrite drop_drop. f_equal. lia.
  - rewrite Ht. unfold sat_add. rewrite Nat2Z.inj_succ. lia.
Qed.

(** The buffer refines a log: after any sequence of records, drains and
    reloads it holds the last [MAX_BLOCKED_EVENTS] of the requests recorded
    since the last drain, in order, and the total counts all that were ever
    recorded, up to the width of the counter. *)
Theorem blocked_buffer_refines_log (st : state) ops :
  blocked st = [] → blocked_total st = 0 →
  represents (foldl apply_op st ops) (foldl abstract_op ([], 0%nat) ops).
Proof.
  intros Hb Ht. assert (Hinit : represents st ([], 0%nat)) by (split; [by rewrite Hb|by rewrite Ht]).
  clear Hb Ht. revert st Hinit. generalize (@nil BlockedRequest, 0%nat).
  induction ops as [|op ops IH]; intros acc st Hst; [done|]. cbn [foldl]. apply IH.
  destruct op as [entry| |new]; cbn [apply_op abstract_op].
  - by apply record_represents.
  - destruct Hst as [_ Ht]. by split.
  - by destruct Hst.
Qed.
End buffer.

(** ** Addresses the proxy listens on *)
(** [resolve_runtime] binds both listeners to loopback addresses unless the
    configuration asks for other addresses and has no Unix socket open to the
    proxy; under a managed constraint that forbids it, and validated, never. *)
Theorem resolve_runtime_loopback `{PathEnv} url_parse url_host cfg c http socks :
  resolve_runtime url_parse cfg = Ok (http, socks) →
  (is_loopback (addr_ip http) = true ∧ is_loopback (addr_ip socks) = true ∨
   dangerously_allow_non_loopback_proxy cfg = true ∧ allow_unix_sockets cfg = [] ∧
   dangerously_allow_all_unix_sockets cfg = false) ∧
  (c_dangerously_allow_non_loopback_proxy c = Some false →
   validate_policy_against_constraints url_host cfg c = Ok () →
   is_loopback (addr_ip http) = true ∧ is_loopback (addr_ip socks) = true).
Proof.
  intros Hr. unfold resolve_runtime in Hr. apply bind_Ok_inv in Hr as (_ & _ & Hr).
  apply bind_Ok_inv in Hr as (a & _ & Hr). apply bind_Ok_inv in Hr as (b & _ & Hr).
  assert (Hclamp : ∀ x, is_loopback (addr_ip (clamp_non_loopback x false)) = true).
  { intros x. unfold clamp_non_loopback. destruct (is_loopback (addr_ip x)) eqn:E; [done|by vm_compute]. }
  assert (Hmain : dangerously_allow_non_loopback_proxy cfg = false →
    is_loopback (addr_ip http) = true ∧ is_loopback (addr_ip socks) = true).
  { intros Hf. unfold clamp_bind_addrs in Hr. rewrite Hf in Hr.
    destruct (_ && _); injection Hr as <- <-; [auto|]. split; by vm_compute. }
  split.
  - destruct (dangerously_allow_non_loopback_proxy cfg) eqn:Hf; [|auto]. unfold clamp_bind_addrs in Hr.
    destruct (bool_decide _ && _) eqn:E.
    + right. apply andb_true_iff in E as [E1%bool_decide_eq_true E2%negb_true_iff]. done.
    + left. injection Hr as <- <-. split; by vm_compute.
  - intros Hc [Hok]%validate_iff. auto.
Qed.

(** ** Samples *)
Definition no_constraints : NetworkProxyConstraints := {|
  c_enabled := None; c_mode := None; c_allow_upstream_proxy := None;
  c_dangerously_allow_non_loopback_proxy := None; c_dangerously_allow_all_unix_sockets := None;
  c_allowed_domains := None; c_allowlist_expansion_enabled := None; c_denied_domains := None;
  c_denylist_expansion_enabled := None; c_allow_unix_sockets := None; c_allow_local_binding := None |}.

Definition sample_config : NetworkProxyConfig := set_domains default_settings [lit "**.example.com"] [].
Definition sample_state : ConfigState unit := {|
  config := sample_config; allow_set := [lit "example.com"; lit "?*.example.com"]; deny_set := [];
  mitm_state := None; constraints := no_constraints; blocked := []; blocked_total := 0 |}.

Lemma sample_state_good : good (λ h, Some h) sample_state.
Proof. split; [by apply validate_iff; vm_compute|done]. Qed.

Definition sample_request : NetworkPolicyRequest := {|
  rq_protocol := Http; rq_host := lit "api.example.com"; rq_port := 443; rq_client_addr := None;
  rq_method := None; rq_command := None; rq_exec_policy_hint := None |}.
Definition sample_blocked : BlockedRequest := {|
  br_host := lit "evil.test"; br_reason := lit "not_allowed"; br_client := None; br_method := None;
  br_mode := None; br_protocol := lit "http"; br_decision := None; br_source := None; br_port := None;
  br_timestamp := 0 |}.

(** A blocked request is lost when it is recorded between the two locks of
    a reload: a history in which one request was recorded, nothing was drained
    and the buffer was never full ends with an empty buffer and a total of
    zero. *)
Theorem reload_loses_blocked_request :
  run (λ h, Some h) (λ _, None) (λ st, st = sample_state)
    [reload_write sample_state sample_state; record_blocked_write sample_blocked sample_state; sample_state] ∧
  blocked (record_blocked_write sample_blocked sample_state) = [sample_blocked] ∧
  blocked (reload_write sample_state sample_state) = [] ∧
  blocked_total (reload_write sample_state sample_state) = 0.
Proof.
  split_and!; [|done..]. eapply run_reload; [|by right; left|done]. apply run_record. by apply run_start.
Qed.

(** A forced reload keeps the buffered requests but starts their total
    again from the fresh state's, where [reload_if_needed] keeps both. *)
Theorem force_reload_resets_total :
  let st := record_blocked_write sample_blocked sample_state in
  let forced := force_reload_write st sample_state in
  let reloaded := reload_write st sample_state in
  blocked forced = [sample_blocked] ∧ blocked_total forced = 0 ∧
  blocked reloaded = [sample_blocked] ∧ blocked_total reloaded = 1.
Proof. by vm_compute. Qed.

(** ** Witnesses *)
Lemma shared_state_witness :
  Forall (λ st, good (λ h, Some h) st ∧ (length (blocked st) ≤ MAX_BLOCKED_EVENTS)%nat)
    [record_blocked_write sample_blocked sample_state; sample_state].
Proof.
  apply (shared_state_invariant (λ h, Some h) (λ _, None) (λ st, st = sample_state)).
  - intros st ->. exact sample_state_good.
  - apply run_record. by apply run_start.
Defined.

Lemma update_domain_list_witness :
  (∃ e, update_domain_list (λ h, Some h) (λ _, None) (lit "Evil.Test") Deny [(sample_state, sample_state)] = Err e) ∨
  (∃ st', update_domain_list (λ h, Some h) (λ _, None) (lit "Evil.Test") Deny [(sample_state, sample_state)] = Ok st' ∧
     good (λ h, Some h) st' ∧ listed (lit "evil.test") Deny (config st') ∧
     (∀ e, normalize_host e ≠ lit "evil.test" → e ≠ lit "evil.test" →
        (e ∈ target_list (config st') Deny ↔ e ∈ target_list (config sample_state) Deny) ∧
        (e ∈ opposite_list (config st') Deny ↔ e ∈ opposite_list (config sample_state) Deny)) ∧
     constraints st' = constraints sample_state ∧ blocked st' = blocked sample_state ∧
     blocked_total st' = blocked_total sample_state).
Proof. apply update_domain_list_spec; [exact sample_state_good|by vm_compute]. Defined.

(** A resolver that knows one host, at a private address. *)
Definition sample_lookup (host : str) (_ : Z) : option (list IpAddr) :=
  if bool_decide (host = lit "intranet.test") then Some [V4 (from_octets 8 8 8 8); V4 (from_octets 10 0 0 7)]
  else None.

Lemma sample_lookup_valid : lookup_valid sample_lookup.
Proof.
  intros host port addrs. unfold sample_lookup. case_bool_decide; [|done]. intros [= <-].
  repeat constructor; by vm_compute.
Qed.

Example resolved_address_is_local : local_rule sample_lookup sample_state (lit "intranet.test") 443.
Proof.
  split; [by vm_compute|right]. split.
  - intros Hn%is_local_literal_iff. by vm_compute in Hn.
  - exists (V4 (from_octets 10 0 0 7)). split.
    + right. split; [by vm_compute|]. exists [V4 (from_octets 8 8 8 8); V4 (from_octets 10 0 0 7)].
      split; [by vm_compute|set_solver].
    + cbn [non_public]. unfold non_public_v4_blocks. right. left. by vm_compute.
Qed.

Lemma evaluate_host_policy_witness :
  let host := normalize_host (rq_host sample_request) in
  let denied := Exists (pattern_matches host) (denied_domains (config sample_state)) in
  let local := local_rule sample_lookup sample_state host (rq_port sample_request) in
  let allowed := Exists (pattern_matches host) (allowed_domains (config sample_state)) in
  let '(decision, audit) := evaluate_host_policy sample_lookup sample_state None sample_request in
  (host ≠ [] → denied → decision = DecisionDenied (lit "denied") BaselinePolicy DecisionDeny) ∧
  (host ≠ [] → ¬ denied → local →
     decision = DecisionDenied (lit "not_allowed_local") BaselinePolicy DecisionDeny) ∧
  (host ≠ [] → ¬ denied → ¬ local → allowed → decision = DecisionAllow) ∧
  (host = [] ∨ ¬ denied ∧ ¬ local ∧ ¬ allowed →
     decision = DecisionDenied (lit "not_allowed") BaselinePolicy DecisionDeny) ∧
  (policy_override audit = true ↔
     decision = DecisionAllow ∧ (host = [] ∨ ¬ denied ∧ ¬ local ∧ ¬ allowed)).
Proof.
  apply (evaluate_host_policy_spec (λ h, Some h) sample_lookup sample_state None sample_request);
    [exact sample_lookup_valid|exact sample_state_good|repeat constructor|repeat constructor|by vm_compute].
Defined.

Definition sample_denied_state : ConfigState unit := {|
  config := set_domains sample_config [lit "**.example.com"] [lit "evil.test"];
  allow_set := [lit "example.com"; lit "?*.example.com"]; deny_set := [lit "evil.test"];
  mitm_state := None; constraints := no_constraints; blocked := []; blocked_total := 0 |}.

Lemma denied_host_is_blocked_witness :
  host_blocked (λ _ _, None) sample_denied_state (lit "EVIL.test:8080") 443 = Blocked Denied.
Proof.
  apply (denied_host_is_blocked (λ h, Some h) (λ _, None) (λ _ _, None) sample_state sample_denied_state
    (lit "Evil.Test") (lit "evil.test"));
    [exact sample_state_good|vm_compute; reflexivity..|repeat constructor|vm_compute; reflexivity].
Defined.

Lemma blocked_buffer_witness :
  represents (foldl apply_op sample_state [Record_ sample_blocked; Drain; Record_ sample_blocked])
    ([sample_blocked], 2%nat).
Proof. apply (blocked_buffer_refines_log sample_state [Record_ sample_blocked; Drain; Record_ sample_blocked]); done. Defined.

Lemma resolve_runtime_witness :
  (is_loopback (addr_ip (loopback_v4 3128)) = true ∧ is_loopback (addr_ip (loopback_v4 8081)) = true ∨
   dangerously_allow_non_loopback_proxy default_settings = true ∧ allow_unix_sockets default_settings = [] ∧
   dangerously_allow_all_unix_sockets default_settings = false) ∧
  (c_dangerously_allow_non_loopback_proxy no_constraints = Some false →
   validate_policy_against_constraints (λ h, Some h) default_settings no_constraints = Ok () →
   is_loopback (addr_ip (loopback_v4 3128)) = true ∧ is_loopback (addr_ip (loopback_v4 8081)) = true).
Proof.
  apply (resolve_runtime_loopback (λ _, None) (λ h, Some h) default_settings no_constraints
    (loopback_v4 3128) (loopback_v4 8081)). by vm_compute.
Defined.
