(* ===== verification/ExecApproval.v ===== *)
(** * Approval of commands: [core/src/exec_policy.rs]

    Whether a command runs, asks first or is refused: the exec policy decides
    for the plain commands of a script, the lists of safe and dangerous
    commands and the approval policy for what no rule matches, and rules are
    proposed to avoid the next question.  The model is of the Unix builds.
    Arguments stand for tree-sitter, the PowerShell parser, the home directory,
    [path_absolutize], [shlex] and [serde_json]. *)
From stdpp Require Import base tactics option list sets numbers strings gmap.
From S2P Require Import Prelude RustStr Paths Permissions Safety BashParse CommandSafety.
From stdpp Require Import list.
From S2P Require Import ExecPolicy.

(** ** Data *)
Inductive SandboxPermissions : Type :=
  | UseDefault
  | RequireEscalated
  | WithAdditionalPermissions.

Definition requires_escalated_permissions (self : SandboxPermissions) : bool :=
  match self with RequireEscalated => true | _ => false end.

Definition requests_sandbox_override (self : SandboxPermissions) : bool :=
  match self with UseDefault => false | _ => true end.

Record ExecPolicyAmendment : Type := { amendment_command : list str }.

Inductive ExecApprovalRequirement : Type :=
  | Skip (bypass_sandbox : bool) (proposed_execpolicy_amendment : option ExecPolicyAmendment)
  | NeedsApproval (reason : option str)
      (proposed_execpolicy_amendment : option ExecPolicyAmendment)
  | RequirementForbidden (reason : str).

Record ExecApprovalRequest : Type := {
  command : list str;
  approval_policy : AskForApproval;
  sandbox_policy : SandboxPolicy;
  file_system_sandbox_policy : FileSystemSandboxPolicy;
  sandbox_permissions : SandboxPermissions;
  prefix_rule : option (list str);
}.

Definition PROMPT_CONFLICT_REASON : str :=
  lit "approval required by policy, but AskForApproval is set to Never".
Definition REJECT_SANDBOX_APPROVAL_REASON : str :=
  lit "approval required by policy, but AskForApproval::Granular.sandbox_approval is false".
Definition REJECT_RULES_APPROVAL_REASON : str :=
  lit "approval required by policy rule, but AskForApproval::Granular.rules is false".

Definition BANNED_PREFIX_SUGGESTIONS : list (list string) :=
  [["python3"]; ["python3"; "-"]; ["python3"; "-c"]; ["python"]; ["python"; "-"];
   ["python"; "-c"]; ["py"]; ["py"; "-3"]; ["pythonw"]; ["pyw"]; ["pypy"]; ["pypy3"]; ["git"];
   ["bash"]; ["bash"; "-lc"]; ["sh"]; ["sh"; "-c"]; ["sh"; "-lc"]; ["zsh"]; ["zsh"; "-lc"];
   ["/bin/zsh"]; ["/bin/zsh"; "-lc"]; ["/bin/bash"]; ["/bin/bash"; "-lc"]; ["pwsh"];
   ["pwsh"; "-Command"]; ["pwsh"; "-c"]; ["powershell"]; ["powershell"; "-Command"];
   ["powershell"; "-c"]; ["powershell.exe"]; ["powershell.exe"; "-Command"];
   ["powershell.exe"; "-c"]; ["env"]; ["sudo"]; ["node"]; ["node"; "-e"]; ["perl"];
   ["perl"; "-e"]; ["ruby"]; ["ruby"; "-e"]; ["php"]; ["php"; "-r"]; ["lua"]; ["lua"; "-e"];
   ["osascript"]]%string.

(** [execpolicy/src/amend.rs]. *)
Inductive AmendError : Type :=
  | EmptyPrefix
  | InvalidNetworkRule (message : str)
  | MissingParent (path : str)
  | CreatePolicyDir (dir source : str)
  | SerializePrefix (source : str)
  | SerializeNetworkRule (source : str)
  | OpenPolicyFile (path source : str)
  | WritePolicyFile (path source : str)
  | LockPolicyFile (path source : str)
  | SeekPolicyFile (path source : str)
  | ReadPolicyFile (path source : str)
  | PolicyMetadata (path source : str).

Inductive ExecPolicyUpdateError : Type :=
  | AppendRule (source : AmendError)
  | JoinBlockingTask
  | AddRule (source : Error).

Record ExecPolicyManager : Type := { policy : Policy }.

(** ** Decisions *)
Definition is_policy_match (rule_match : RuleMatch) : bool :=
  match rule_match with
  | PrefixRuleMatch _ _ _ _ => true
  | HeuristicsRuleMatch _ _ => false
  end.

Definition allows_sandbox_approval (self : GranularApprovalConfig) : bool := sandbox_approval self.
Definition allows_rules_approval (self : GranularApprovalConfig) : bool := rules self.

Definition prompt_is_rejected_by_policy (approval_policy : AskForApproval)
    (prompt_is_rule : bool) : option str :=
  match approval_policy with
  | Never => Some PROMPT_CONFLICT_REASON
  | OnFailure => None
  | OnRequest => None
  | UnlessTrusted => None
  | Granular granular_config =>
      if prompt_is_rule then
        if negb (allows_rules_approval granular_config)
        then Some REJECT_RULES_APPROVAL_REASON else None
      else if negb (allows_sandbox_approval granular_config)
      then Some REJECT_SANDBOX_APPROVAL_REASON else None
  end.

(** [cfg!(windows)] in the builds modelled. *)
Definition cfg_windows : bool := false.

Definition policy_prompts (matched_rules : list RuleMatch) : bool :=
  existsb (λ rule_match,
    is_policy_match rule_match && bool_decide (match_decision rule_match = Prompt)) matched_rules.

Definition try_derive_execpolicy_amendment_for_prompt_rules (matched_rules : list RuleMatch) :
    option ExecPolicyAmendment :=
  if policy_prompts matched_rules then None
  else head (omap (λ rule_match,
         match rule_match with
         | HeuristicsRuleMatch command Prompt => Some {| amendment_command := command |}
         | _ => None
         end) matched_rules).

Definition try_derive_execpolicy_amendment_for_allow_rules (matched_rules : list RuleMatch) :
    option ExecPolicyAmendment :=
  if existsb is_policy_match matched_rules then None
  else head (omap (λ rule_match,
         match rule_match with
         | HeuristicsRuleMatch command Allow => Some {| amendment_command := command |}
         | _ => None
         end) matched_rules).

Section Approval.
Context (linux : bool) (try_parse_shell : str → option Node).
Context (powershell_output : str → str → option PowershellParserOutput).
Context (home_dir : option str) (absolutize : str → option str).
Context (shlex_try_join : list str → option str).

Definition render_decision_for_unmatched_command (approval_policy : AskForApproval)
    (sandbox_policy : SandboxPolicy) (file_system_sandbox_policy : FileSystemSandboxPolicy)
    (command : list str) (sandbox_permissions : SandboxPermissions)
    (used_complex_parsing : bool) : Decision :=
  if is_known_safe_command linux try_parse_shell powershell_output command
     && negb used_complex_parsing then Allow
  else
    let runtime_sandbox_provides_safety :=
      cfg_windows && match sandbox_policy with ReadOnly _ _ => true | _ => false end in
    if command_might_be_dangerous try_parse_shell command || runtime_sandbox_provides_safety then
      match approval_policy with
      | Never => Forbidden
      | OnFailure | OnRequest | UnlessTrusted | Granular _ => Prompt
      end
    else
      match approval_policy with
      | Never | OnFailure => Allow
      | UnlessTrusted => Prompt
      | OnRequest | Granular _ =>
          match kind file_system_sandbox_policy with
          | KindUnrestricted | KindExternalSandbox => Allow
          | KindRestricted =>
              if requests_sandbox_override sandbox_permissions then Prompt else Allow
          end
      end.

Definition commands_for_exec_policy (command : list str) : list (list str) * bool :=
  let single :=
    match parse_shell_lc_single_command_prefix try_parse_shell command with
    | Some single_command => ([single_command], true)
    | None => ([command], false)
    end in
  match parse_shell_lc_plain_commands try_parse_shell command with
  | Some (c :: cs) => (c :: cs, false)
  | _ => single
  end.

(** The [all] over the commands. *)
Fixpoint all_allowed (policy : Policy) (exec_policy_fallback : list str → Decision)
    (resolve_host_executables : bool) (commands : list (list str)) : outcome Empty_set bool :=
  match commands with
  | [] => Ok true
  | command :: commands' =>
      evaluation ← check_with_options home_dir absolutize cfg_windows policy command
                     exec_policy_fallback resolve_host_executables;
      if bool_decide (decision evaluation = Allow)
      then all_allowed policy exec_policy_fallback resolve_host_executables commands'
      else Ok false
  end.

Definition prefix_rule_would_approve_all_commands (exec_policy : Policy) (prefix_rule : list str)
    (commands : list (list str)) (exec_policy_fallback : list str → Decision)
    (resolve_host_executables : bool) : outcome Empty_set bool :=
  match add_prefix_rule exec_policy prefix_rule Allow with
  | Ok policy_with_prefix_rule =>
      all_allowed policy_with_prefix_rule exec_policy_fallback resolve_host_executables commands
  | _ => Ok false
  end.

Definition derive_requested_execpolicy_amendment_from_prefix_rule
    (prefix_rule : option (list str)) (matched_rules : list RuleMatch) (exec_policy : Policy)
    (commands : list (list str)) (exec_policy_fallback : list str → Decision)
    (resolve_host_executables : bool) : outcome Empty_set (option ExecPolicyAmendment) :=
  match prefix_rule with
  | None => Ok None
  | Some prefix_rule =>
      if bool_decide (prefix_rule = []) then Ok None
      else if existsb (λ banned, bool_decide (prefix_rule = lit <$> banned))
                BANNED_PREFIX_SUGGESTIONS then Ok None
      else if existsb is_policy_match matched_rules then Ok None
      else
        approves ← prefix_rule_would_approve_all_commands exec_policy prefix_rule commands
                     exec_policy_fallback resolve_host_executables;
        Ok (if approves : bool then Some {| amendment_command := prefix_rule |} else None)
  end.

(** ** Reasons *)
Definition render_shlex_command (args : list str) : str :=
  default (RustStr.join (lit " ") args) (shlex_try_join args).

Definition derive_prompt_reason (command_args : list str) (evaluation : Evaluation) : option str :=
  let command := render_shlex_command command_args in
  let most_specific_prompt :=
    max_by_key (λ x y, x.1 <=? y.1)
      (omap (λ rule_match,
         match rule_match with
         | PrefixRuleMatch matched_prefix Prompt _ justification =>
             Some (length matched_prefix, justification)
         | _ => None
         end) (matched_rules evaluation)) in
  match most_specific_prompt with
  | Some (_, Some justification) =>
      Some (lit "`" ++ command ++ lit "` requires approval: " ++ justification)
  | Some (_, None) => Some (lit "`" ++ command ++ lit "` requires approval by policy")
  | None => None
  end.

Definition derive_forbidden_reason (command_args : list str) (evaluation : Evaluation) : str :=
  let command := render_shlex_command command_args in
  let most_specific_forbidden :=
    max_by_key (λ x y, length x.1 <=? length y.1)
      (omap (λ rule_match,
         match rule_match with
         | PrefixRuleMatch matched_prefix Forbidden _ justification =>
             Some (matched_prefix, justification)
         | _ => None
         end) (matched_rules evaluation)) in
  match most_specific_forbidden with
  | Some (_, Some justification) => lit "`" ++ command ++ lit "` rejected: " ++ justification
  | Some (matched_prefix, None) =>
      let prefix := render_shlex_command matched_prefix in
      lit "`" ++ command ++ lit "` rejected: policy forbids commands starting with `"
      ++ prefix ++ lit "`"
  | None => lit "`" ++ command ++ lit "` rejected: blocked by policy"
  end.

(** ** The requirement for a command *)
Definition exec_policy_fallback (req : ExecApprovalRequest) (used_complex_parsing : bool)
    (cmd : list str) : Decision :=
  render_decision_for_unmatched_command (approval_policy req) (sandbox_policy req)
    (file_system_sandbox_policy req) cmd (sandbox_permissions req) used_complex_parsing.

(** The last match of [create_exec_approval_requirement_for_command]. *)
Definition requirement_for_evaluation (req : ExecApprovalRequest) (auto_amendment_allowed : bool)
    (evaluation : Evaluation) (requested_amendment : option ExecPolicyAmendment) :
    ExecApprovalRequirement :=
  match decision evaluation with
  | Forbidden => RequirementForbidden (derive_forbidden_reason (command req) evaluation)
  | Prompt =>
      let prompt_is_rule := policy_prompts (matched_rules evaluation) in
      match prompt_is_rejected_by_policy (approval_policy req) prompt_is_rule with
      | Some reason => RequirementForbidden reason
      | None =>
          NeedsApproval (derive_prompt_reason (command req) evaluation)
            (match requested_amendment with
             | Some amendment => Some amendment
             | None =>
                 if auto_amendment_allowed
                 then try_derive_execpolicy_amendment_for_prompt_rules (matched_rules evaluation)
                 else None
             end)
      end
  | Allow =>
      Skip
        (existsb (λ rule_match, is_policy_match rule_match
                    && bool_decide (match_decision rule_match = Allow))
           (matched_rules evaluation))
        (if auto_amendment_allowed
         then try_derive_execpolicy_amendment_for_allow_rules (matched_rules evaluation)
         else None)
  end.

Definition create_exec_approval_requirement_for_command (exec_policy : Policy)
    (req : ExecApprovalRequest) : outcome Empty_set ExecApprovalRequirement :=
  let '(commands, used_complex_parsing) := commands_for_exec_policy (command req) in
  let auto_amendment_allowed := negb used_complex_parsing in
  let fallback := exec_policy_fallback req used_complex_parsing in
  evaluation ← check_multiple_with_options home_dir absolutize cfg_windows exec_policy commands
                 fallback true;
  requested_amendment ← derive_requested_execpolicy_amendment_from_prefix_rule (prefix_rule req)
                          (matched_rules evaluation) exec_policy commands fallback true;
  Ok (requirement_for_evaluation req auto_amendment_allowed evaluation requested_amendment).
End Approval.

(** ** Amendments *)
Section Amend.
(** [serde_json::to_string] of a string, which does not fail; [task] is the
    outcome of waiting for the blocking task, [io] the first I/O call of
    [append_rule_line] that fails, if one does. *)
Context (to_json : str → str) (task_joined : bool) (io : option AmendError).

(** The contents of the policy file after the rule is appended. *)
Definition append_rule_line (contents rule : str) : outcome AmendError str :=
  match io with
  | Some err => Err err
  | None => Ok (append_line contents rule)
  end.

Definition blocking_append_allow_prefix_rule (contents : str) (prefix : list str) :
    outcome AmendError str :=
  match allow_prefix_line to_json prefix with
  | None => Err EmptyPrefix
  | Some rule => append_rule_line contents rule
  end.

(** The [Display] of the errors of [normalize_network_rule_host]. *)
Definition error_to_string (err : Error) : str :=
  match err with
  | InvalidDecision msg => lit "invalid decision: " ++ msg
  | InvalidPattern msg => lit "invalid pattern element: " ++ msg
  | InvalidRule msg => lit "invalid rule: " ++ msg
  end.

Definition network_rule_line (host : str) (protocol : NetworkRuleProtocol) (decision : Decision)
    (justification : option str) : str :=
  let decision := match decision with
                  | Allow => lit "allow"
                  | Prompt => lit "prompt"
                  | Forbidden => lit "deny"
                  end in
  let args := [lit "host=" ++ to_json host;
               lit "protocol=" ++ to_json (as_policy_string protocol);
               lit "decision=" ++ to_json decision]
              ++ match justification with
                 | Some justification => [lit "justification=" ++ to_json justification]
                 | None => []
                 end in
  lit "network_rule(" ++ RustStr.join (lit ", ") args ++ lit ")".

Definition blocking_append_network_rule (contents host : str) (protocol : NetworkRuleProtocol)
    (decision : Decision) (justification : option str) : outcome AmendError str :=
  match normalize_network_rule_host host with
  | Ok host =>
      if match justification with Some raw => bool_decide (trim raw = []) | None => false end
      then Err (InvalidNetworkRule (lit "justification cannot be empty"))
      else append_rule_line contents (network_rule_line host protocol decision justification)
  | Err err => Err (InvalidNetworkRule (error_to_string err))
  | Panic => Panic
  | NoFuel => NoFuel
  end.

(** Waiting for the blocking task, then its own error. *)
Definition await_append (appended : outcome AmendError str) : outcome ExecPolicyUpdateError str :=
  if negb task_joined then Err JoinBlockingTask
  else match appended with
       | Ok contents => Ok contents
       | Err source => Err (AppendRule source)
       | Panic => Panic
       | NoFuel => NoFuel
       end.

Definition store_policy (contents : str) (updated_policy : outcome Error Policy) :
    outcome ExecPolicyUpdateError (str * ExecPolicyManager) :=
  match updated_policy with
  | Ok updated_policy => Ok (contents, {| policy := updated_policy |})
  | Err source => Err (AddRule source)
  | Panic => Panic
  | NoFuel => NoFuel
  end.

Definition append_amendment_and_update (self : ExecPolicyManager) (contents : str)
    (amendment : ExecPolicyAmendment) : outcome ExecPolicyUpdateError (str * ExecPolicyManager) :=
  let prefix := amendment_command amendment in
  contents ← await_append (blocking_append_allow_prefix_rule contents prefix);
  store_policy contents (add_prefix_rule (policy self) prefix Allow).

Definition append_network_rule_and_update (self : ExecPolicyManager) (contents host : str)
    (protocol : NetworkRuleProtocol) (decision : Decision) (justification : option str) :
    outcome ExecPolicyUpdateError (str * ExecPolicyManager) :=
  contents ← await_append (blocking_append_network_rule contents host protocol decision
                             justification);
  store_policy contents (add_network_rule (policy self) host protocol decision justification).
End Amend.

(** ** What the rules say about a command *)
Section Meaning.
Context (home_dir : option str) (absolutize : str → option str).

(** The rules that decide: those of the program the command names, or without
    any, those of the base name of the program. *)
Definition applies (p : Policy) (cmd : list str) (r : RuleMatch) : Prop :=
  exact_match p cmd r ∨
  ((∀ r', ¬ exact_match p cmd r') ∧ host_match home_dir absolutize cfg_windows p cmd r).

Definition unmatched (p : Policy) (cmd : list str) : Prop := ∀ r, ¬ applies p cmd r.

(** What a rule, or without one the fallback, says about a command. *)
Definition verdict (p : Policy) (fallback : list str → Decision) (cmd : list str) (d : Decision) :
    Prop :=
  (∃ r, applies p cmd r ∧ match_decision r = d) ∨ (unmatched p cmd ∧ fallback cmd = d).

(** Whether the approval policy lets the engine ask, for a question that a
    rule raises or not. *)
Definition may_ask (approval_policy : AskForApproval) (rule_prompts : Prop) : Prop :=
  match approval_policy with
  | Never => False
  | Granular g =>
      (rule_prompts → rules g = true) ∧ (¬ rule_prompts → sandbox_approval g = true)
  | _ => True
  end.

Abbreviation matches_of p cmd fallback :=
  (matches_for_command_with_options home_dir absolutize cfg_windows p cmd (Some fallback) true).

Lemma elem_of_matches_applies p cmd fallback r :
  r ∈ matches_of p cmd fallback ↔
  applies p cmd r ∨ (unmatched p cmd ∧ r = HeuristicsRuleMatch cmd (fallback cmd)).
Proof.
  rewrite elem_of_matches. unfold unmatched, applies. split.
  - intros [H|[Hn [[_ H]|[H ->]]]]; [by left; left|by left; right|right].
    split; [|done]. intros r' [?|[_ ?]]; [by apply (Hn r')|by apply (H eq_refl r')].
  - intros [[H|[Hn H]]|[H ->]]; [by left|by right; split; [|left]|right].
    assert (Hn : ∀ r', ¬ exact_match p cmd r') by (intros r' ?; apply (H r'); by left).
    split; [done|right]. split; [|done]. intros _ r' ?. apply (H r'). by right.
Qed.

Lemma applies_policy p cmd r : applies p cmd r → is_policy_match r = true.
Proof.
  intros [(? & _ & ? & ? & ? & _ & _ & _ & ->)|[_ Hh]]; [done|].
  by destruct Hh as (? & ? & ? & ? & _ & _ & _ & _ & ? & ? & ? & _ & _ & _ & ->).
Qed.

Lemma verdict_match p fallback cmd d :
  verdict p fallback cmd d ↔ ∃ r, r ∈ matches_of p cmd fallback ∧ match_decision r = d.
Proof.
  setoid_rewrite elem_of_matches_applies. unfold verdict. split.
  - intros [(r & ? & ?)|[Hu <-]]; [by exists r; split; [left|]|].
    exists (HeuristicsRuleMatch cmd (fallback cmd)). by split; [right|].
  - intros (r & [Ha|[Hu ->]] & <-); [left; eauto|by right].
Qed.
End Meaning.

Section Theory.
Context (linux : bool) (try_parse_shell : str → option Node).
Context (powershell_output : str → str → option PowershellParserOutput).
Context (home_dir : option str) (absolutize : str → option str).
Context (shlex_try_join : list str → option str).
Abbreviation matches_of p cmd fallback :=
  (matches_for_command_with_options home_dir absolutize cfg_windows p cmd (Some fallback) true).
Abbreviation evaluate p cmds fallback :=
  (check_multiple_with_options home_dir absolutize cfg_windows p cmds fallback true).
Abbreviation requirement :=
  (create_exec_approval_requirement_for_command linux try_parse_shell powershell_output home_dir
     absolutize shlex_try_join).
Abbreviation commands_of := (commands_for_exec_policy try_parse_shell).
Abbreviation fallback_of := (exec_policy_fallback linux try_parse_shell powershell_output).
Abbreviation rules_apply := (applies home_dir absolutize).
Abbreviation no_rule := (unmatched home_dir absolutize).
Abbreviation says := (verdict home_dir absolutize).
Abbreviation known_safe := (is_known_safe_command linux try_parse_shell powershell_output).

(** The decision over several commands is the greatest verdict. *)
Lemma evaluate_spec p fallback cmds :
  cmds ≠ [] → ∃ ev, evaluate p cmds fallback = Ok ev ∧
  (∀ r, r ∈ matched_rules ev ↔ ∃ cmd, cmd ∈ cmds ∧ r ∈ matches_of p cmd fallback) ∧
  match decision ev with
  | Allow => ∀ cmd d, cmd ∈ cmds → says p fallback cmd d → d = Allow
  | Prompt => (∃ cmd, cmd ∈ cmds ∧ says p fallback cmd Prompt) ∧
              ∀ cmd, cmd ∈ cmds → ¬ says p fallback cmd Forbidden
  | Forbidden => ∃ cmd, cmd ∈ cmds ∧ says p fallback cmd Forbidden
  end.
Proof.
  intros Hne. unfold check_multiple_with_options.
  set (ms := cmds ≫= _).
  assert (Hin : ∀ r, r ∈ ms ↔ ∃ cmd, cmd ∈ cmds ∧ r ∈ matches_of p cmd fallback).
  { intros r. unfold ms. rewrite list_elem_of_bind. naive_solver. }
  assert (Hms : ms ≠ []).
  { destruct cmds as [|c cmds]; [done|]. unfold ms. cbn. intros [Hc _]%app_nil.
    by apply matches_nonempty in Hc. }
  destruct (from_matches_spec ms Hms) as (ev & Hev & Hmr & Hub & r & Hr & Hd).
  exists ev. split; [done|]. rewrite Hmr. split; [exact Hin|].
  apply Hin in Hr as (c & Hc & Hr).
  assert (Hsays : says p fallback c (decision ev)) by (apply verdict_match; eauto).
  assert (Hle : ∀ cmd d, cmd ∈ cmds → says p fallback cmd d →
                decision_rank d ≤ decision_rank (decision ev)).
  { intros cmd d Hcmd (r' & Hr' & <-)%verdict_match. apply Hub, Hin. eauto. }
  destruct (decision ev).
  - intros cmd d Hcmd Hv%(Hle _ _ Hcmd). destruct d; simpl in Hv; [done|lia..].
  - split; [eauto|]. intros cmd Hcmd Hv%(Hle _ _ Hcmd). simpl in Hv. lia.
  - eauto.
Qed.

Lemma evaluate_policy_match p fallback (cmds : list (list str)) ev :
  (∀ r, r ∈ matched_rules ev ↔ ∃ cmd, cmd ∈ cmds ∧ r ∈ matches_of p cmd fallback) →
  existsb is_policy_match (matched_rules ev) = true ↔
  ∃ cmd r, cmd ∈ cmds ∧ rules_apply p cmd r.
Proof.
  intros Hin. rewrite existsb_elem. setoid_rewrite Hin. split.
  - intros (r & (cmd & Hcmd & Hr) & Hp).
    apply elem_of_matches_applies in Hr as [Ha|[_ ->]]; [eauto|done].
  - intros (cmd & r & Hcmd & Ha). exists r. split; [|by eapply applies_policy].
    exists cmd. split; [done|]. apply elem_of_matches_applies. by left.
Qed.

Lemma evaluate_policy_decision p fallback (cmds : list (list str)) ev d :
  (∀ r, r ∈ matched_rules ev ↔ ∃ cmd, cmd ∈ cmds ∧ r ∈ matches_of p cmd fallback) →
  existsb (λ m, is_policy_match m && bool_decide (match_decision m = d)) (matched_rules ev) = true ↔
  ∃ cmd r, cmd ∈ cmds ∧ rules_apply p cmd r ∧ match_decision r = d.
Proof.
  intros Hin. rewrite existsb_elem. setoid_rewrite Hin.
  setoid_rewrite andb_true_iff. setoid_rewrite bool_decide_eq_true. split.
  - intros (r & (cmd & Hcmd & Hr) & Hp & <-).
    apply elem_of_matches_applies in Hr as [Ha|[_ ->]]; [by exists cmd, r|done].
  - intros (cmd & r & Hcmd & Ha & Hd). exists r. split; [|by split; [eapply applies_policy|]].
    exists cmd. split; [done|]. apply elem_of_matches_applies. by left.
Qed.

Lemma commands_nonempty command : (commands_of command).1 ≠ [].
Proof. unfold commands_for_exec_policy. by repeat case_match. Qed.

Lemma all_allowed_spec p fallback cmds :
  ∃ b, all_allowed home_dir absolutize p fallback true cmds = Ok b ∧
  (b = true ↔ ∀ cmd d, cmd ∈ cmds → says p fallback cmd d → d = Allow).
Proof.
  induction cmds as [|c cmds (b & Hb & IH)]; cbn [all_allowed].
  { exists true. split; [done|]. split; [set_solver|done]. }
  destruct (evaluate_spec p fallback [c]) as (ev & Hev & _ & Hd); [done|].
  unfold check_multiple_with_options in Hev. cbn in Hev. rewrite app_nil_r in Hev.
  unfold check_with_options. rewrite Hev. cbn.
  case_bool_decide as Hdec.
  - exists b. split; [done|]. rewrite IH. rewrite Hdec in Hd. setoid_rewrite elem_of_cons.
    split; [|naive_solver]. intros Hall cmd d [->|Hc]; [|by apply Hall]. apply Hd. set_solver.
  - exists false. split; [done|]. split; [done|]. intros Hall. exfalso. apply Hdec.
    destruct (decision ev); [done|destruct Hd as [(x & Hx & Hv) _]|destruct Hd as (x & Hx & Hv)];
      apply list_elem_of_singleton in Hx as ->; by apply (Hall c) in Hv; [|set_solver].
Qed.

Lemma requested_Ok pr ms p cmds fallback :
  ∃ am, derive_requested_execpolicy_amendment_from_prefix_rule home_dir absolutize pr ms p cmds
          fallback true = Ok am.
Proof.
  unfold derive_requested_execpolicy_amendment_from_prefix_rule,
    prefix_rule_would_approve_all_commands.
  destruct pr as [pr|]; [|eauto]. case_bool_decide; [eauto|].
  destruct (existsb _ BANNED_PREFIX_SUGGESTIONS); [eauto|]. destruct (existsb _ ms); [eauto|].
  destruct (add_prefix_rule p pr Allow) as [p'|?| |]; try (cbn; eauto; fail).
  destruct (all_allowed_spec p' fallback cmds) as (b & -> & _). cbn. eauto.
Qed.

(** Every request is evaluated, and the requirement is that of the evaluation. *)
Lemma requirement_evaluates p req :
  let '(cmds, complex) := commands_of (command req) in
  let fallback := fallback_of req complex in
  ∃ ev am, evaluate p cmds fallback = Ok ev ∧
    derive_requested_execpolicy_amendment_from_prefix_rule home_dir absolutize (prefix_rule req)
      (matched_rules ev) p cmds fallback true = Ok am ∧
    requirement p req =
      Ok (requirement_for_evaluation shlex_try_join req (negb complex) ev am) ∧
    (∀ r, r ∈ matched_rules ev ↔ ∃ cmd, cmd ∈ cmds ∧ r ∈ matches_of p cmd fallback) ∧
    match decision ev with
    | Allow => ∀ cmd d, cmd ∈ cmds → says p fallback cmd d → d = Allow
    | Prompt => (∃ cmd, cmd ∈ cmds ∧ says p fallback cmd Prompt) ∧
                ∀ cmd, cmd ∈ cmds → ¬ says p fallback cmd Forbidden
    | Forbidden => ∃ cmd, cmd ∈ cmds ∧ says p fallback cmd Forbidden
    end.
Proof.
  pose proof (commands_nonempty (command req)) as Hne.
  unfold create_exec_approval_requirement_for_command.
  destruct (commands_of (command req)) as [cmds complex]. cbn [fst] in Hne. cbv zeta.
  set (fallback := fallback_of req complex).
  destruct (evaluate_spec p fallback cmds Hne) as (ev & Hev & Hin & Hd).
  destruct (requested_Ok (prefix_rule req) (matched_rules ev) p cmds fallback) as [am Ham].
  exists ev, am. rewrite Hev. cbn [mbind outcome_bind]. by rewrite Ham.
Qed.

Lemma rejected_may_ask ap b (P : Prop) :
  (b = true ↔ P) → prompt_is_rejected_by_policy ap b = None ↔ may_ask ap P.
Proof.
  intros Hb. unfold prompt_is_rejected_by_policy, may_ask, allows_rules_approval,
    allows_sandbox_approval.
  destruct ap as [| | |g|]; try done.
  destruct b, (rules g), (sandbox_approval g); simpl; intuition congruence.
Qed.

(** *** The reason of a question *)
Lemma max_by_length {A} (key : A → nat) (l : list A) :
  match max_by_key (λ x y, key x <=? key y) l with
  | Some m => m ∈ l ∧ ∀ x, x ∈ l → key x ≤ key m
  | None => l = []
  end.
Proof.
  assert (Hfrom : ∀ l best, let m := max_by_key_from (λ x y, key x <=? key y) best l in
    (m = best ∨ m ∈ l) ∧ key best ≤ key m ∧ ∀ x, x ∈ l → key x ≤ key m).
  { clear. induction l as [|a l IH]; intros best; cbn; [set_solver|].
    destruct (Nat.leb_spec (key best) (key a)) as [Hle|Hlt].
    - destruct (IH a) as (Hin & Ha & Hall). split_and!; [set_solver|lia|].
      intros x [->|Hx]%elem_of_cons; auto.
    - destruct (IH best) as (Hin & Ha & Hall). split_and!; [set_solver|lia|].
      intros x [->|Hx]%elem_of_cons; [lia|auto]. }
  destruct l as [|a l]; [done|]. cbn. destruct (Hfrom l a) as (Hin & Ha & Hall).
  split; [set_solver|]. intros x [->|Hx]%elem_of_cons; auto.
Qed.

(** The reason shown for a question: that of a prefix rule that prompts for one
    of the commands, of a longest one; none if no prefix rule prompts. *)
Definition asks_because (p : Policy) (cmds : list (list str)) (line : str) (reason : option str) :
    Prop :=
  let prompts prefix justification :=
    ∃ cmd resolved, cmd ∈ cmds ∧ rules_apply p cmd (PrefixRuleMatch prefix Prompt resolved justification) in
  match reason with
  | None => ∀ prefix justification, ¬ prompts prefix justification
  | Some text =>
      ∃ prefix justification, prompts prefix justification ∧
        (∀ prefix' justification', prompts prefix' justification' → length prefix' ≤ length prefix) ∧
        text = lit "`" ++ line ++
               match justification with
               | Some why => lit "` requires approval: " ++ why
               | None => lit "` requires approval by policy"
               end
  end.

Lemma prompt_reason_spec p cmds fallback args ev :
  (∀ r, r ∈ matched_rules ev ↔ ∃ cmd, cmd ∈ cmds ∧ r ∈ matches_of p cmd fallback) →
  asks_because p cmds (default (RustStr.join (lit " ") args) (shlex_try_join args))
    (derive_prompt_reason shlex_try_join args ev).
Proof.
  intros Hin. unfold derive_prompt_reason. cbv zeta. fold (render_shlex_command shlex_try_join args).
  set (f := λ rule_match : RuleMatch, match rule_match with
    | PrefixRuleMatch matched_prefix Prompt _ justification =>
        Some (length matched_prefix, justification)
    | _ => None
    end).
  assert (Hf : ∀ n j, (n, j) ∈ omap f (matched_rules ev) ↔
    ∃ prefix cmd resolved, n = length prefix ∧ cmd ∈ cmds ∧
      rules_apply p cmd (PrefixRuleMatch prefix Prompt resolved j)).
  { intros n j. rewrite list_elem_of_omap. setoid_rewrite Hin. split.
    - intros (r & (cmd & Hc & Hr) & Hfr). destruct r as [prefix [] resolved j'|]; try done.
      injection Hfr as <- <-. exists prefix, cmd, resolved. split_and!; [done..|].
      by apply elem_of_matches_applies in Hr as [?|[_ ?]].
    - intros (prefix & cmd & resolved & -> & Hc & Hr).
      exists (PrefixRuleMatch prefix Prompt resolved j). split; [|done]. exists cmd. split; [done|].
      apply elem_of_matches_applies. by left. }
  pose proof (max_by_length fst (omap f (matched_rules ev))) as Hm.
  destruct (max_by_key _ _) as [[n j]|].
  - destruct Hm as [(prefix & cmd & resolved & -> & Hc & Hr)%Hf Hmax].
    assert (Hgoal : asks_because p cmds (render_shlex_command shlex_try_join args)
      (Some (lit "`" ++ render_shlex_command shlex_try_join args ++
             match j with Some why => lit "` requires approval: " ++ why
                        | None => lit "` requires approval by policy" end))).
    { exists prefix, j. split_and!; [by exists cmd, resolved| |done].
      intros prefix' j' (cmd' & resolved' & Hc' & Hr').
      apply (Hmax (length prefix', j')), Hf. by exists prefix', cmd', resolved'. }
    by destruct j.
  - intros prefix j (cmd & resolved & Hc & Hr).
    assert (Hel : (length prefix, j) ∈ omap f (matched_rules ev)) by (apply Hf; by exists prefix, cmd, resolved).
    rewrite Hm in Hel. by apply not_elem_of_nil in Hel.
Qed.

Lemma requirement_meaning (p : Policy) (req : ExecApprovalRequest) :
  let '(cmds, complex) := commands_of (command req) in
  let fallback := fallback_of req complex in
  let asks := may_ask (approval_policy req)
                (∃ cmd m, cmd ∈ cmds ∧ rules_apply p cmd m ∧ match_decision m = Prompt) in
  ∃ r, requirement p req = Ok r ∧
  match r with
  | Skip bypass _ =>
      (∀ cmd d, cmd ∈ cmds → says p fallback cmd d → d = Allow) ∧
      (bypass = true ↔ ∃ cmd m, cmd ∈ cmds ∧ rules_apply p cmd m)
  | NeedsApproval reason _ =>
      (∃ cmd, cmd ∈ cmds ∧ says p fallback cmd Prompt) ∧
      (∀ cmd, cmd ∈ cmds → ¬ says p fallback cmd Forbidden) ∧ asks ∧
      asks_because p cmds
        (default (RustStr.join (lit " ") (command req)) (shlex_try_join (command req))) reason
  | RequirementForbidden _ =>
      (∃ cmd, cmd ∈ cmds ∧ says p fallback cmd Forbidden) ∨
      ((∃ cmd, cmd ∈ cmds ∧ says p fallback cmd Prompt) ∧ ¬ asks)
  end.
Proof.
  pose proof (requirement_evaluates p req) as Hreq.
  destruct (commands_of (command req)) as [cmds complex]. cbv zeta in *.
  set (fallback := fallback_of req complex) in *.
  destruct Hreq as (ev & am & _ & _ & -> & Hin & Hd). eexists. split; [done|].
  pose proof (evaluate_policy_decision p fallback cmds ev Prompt Hin) as Hprompt.
  pose proof (rejected_may_ask (approval_policy req) _ _ Hprompt) as Hask.
  unfold requirement_for_evaluation. destruct (decision ev).
  - split; [done|]. rewrite (evaluate_policy_decision p fallback cmds ev Allow Hin).
    split; [naive_solver|]. intros (cmd & m & Hc & Hm). exists cmd, m. split_and!; [done..|].
    apply (Hd cmd); [done|]. left. eauto.
  - destruct Hd as [Hp Hf]. unfold policy_prompts.
    destruct (prompt_is_rejected_by_policy _ _) as [reason|].
    + right. split; [done|]. by intros ?%Hask.
    + split_and!; [done..|by apply Hask|]. by eapply prompt_reason_spec.
  - by left.
Qed.

(** C20: the requirement for a command. The engine always computes one, and it
    depends on what the rules, or without a matching rule the fallback, say
    about each plain command of the script: the command runs unasked exactly
    when all of them are allowed, and then without the sandbox exactly when
    a rule applies to one of them; it asks when one of them prompts, none
    is forbidden and the approval policy lets it ask (never under [Never], under
    [Granular] by the flag for rules when a rule prompts, otherwise by the flag
    for the sandbox), with the justification of a longest prefix rule that
    prompts as the reason, or without a reason if no prefix rule prompts;
    otherwise, when one is forbidden or the question is ruled out, it refuses. *)
Theorem exec_requirement_spec (p : Policy) (req : ExecApprovalRequest) :
  let '(cmds, complex) := commands_of (command req) in
  let fallback := fallback_of req complex in
  let asks := may_ask (approval_policy req)
                (∃ cmd m, cmd ∈ cmds ∧ rules_apply p cmd m ∧ match_decision m = Prompt) in
  ∃ r, requirement p req = Ok r ∧
  match r with
  | Skip bypass _ =>
      (∀ cmd d, cmd ∈ cmds → says p fallback cmd d → d = Allow) ∧
      (bypass = true ↔ ∃ cmd m, cmd ∈ cmds ∧ rules_apply p cmd m)
  | NeedsApproval reason _ =>
      (∃ cmd, cmd ∈ cmds ∧ says p fallback cmd Prompt) ∧
      (∀ cmd, cmd ∈ cmds → ¬ says p fallback cmd Forbidden) ∧ asks ∧
      asks_because p cmds
        (default (RustStr.join (lit " ") (command req)) (shlex_try_join (command req))) reason
  | RequirementForbidden _ =>
      (∃ cmd, cmd ∈ cmds ∧ says p fallback cmd Forbidden) ∨
      ((∃ cmd, cmd ∈ cmds ∧ says p fallback cmd Prompt) ∧ ¬ asks)
  end.
Proof. apply requirement_meaning. Qed.

Lemma skip_unmatched (p : Policy) (req : ExecApprovalRequest) bypass am cmd :
  requirement p req = Ok (Skip bypass am) → cmd ∈ (commands_of (command req)).1 → no_rule p cmd →
  (command_might_be_dangerous try_parse_shell cmd = true → known_safe cmd = true) ∧
  (approval_policy req = UnlessTrusted →
     known_safe cmd = true ∧ (commands_of (command req)).2 = false) ∧
  (requests_sandbox_override (sandbox_permissions req) = true →
   kind (file_system_sandbox_policy req) = KindRestricted →
   (approval_policy req = OnRequest ∨ ∃ g, approval_policy req = Granular g) →
     known_safe cmd = true).
Proof.
  intros Hr Hc Hu. pose proof (requirement_evaluates p req) as Hreq.
  destruct (commands_of (command req)) as [cmds complex]. cbn [fst snd] in *. cbv zeta in Hreq.
  destruct Hreq as (ev & am' & _ & _ & Heq & _ & Hd). rewrite Heq in Hr. injection Hr as Hr.
  unfold requirement_for_evaluation in Hr. destruct (decision ev); [|by case_match|done].
  specialize (Hd cmd _ Hc (or_intror (conj Hu eq_refl))). revert Hd.
  unfold exec_policy_fallback, render_decision_for_unmatched_command.
  destruct (known_safe cmd), complex; cbn [negb andb orb cfg_windows];
    destruct (command_might_be_dangerous try_parse_shell cmd); cbn [orb];
    destruct (approval_policy req), (kind (file_system_sandbox_policy req)),
      (requests_sandbox_override (sandbox_permissions req)); naive_solver.
Qed.

(** C21: which commands run unasked although no rule speaks of them. When the
    engine lets a script run without a question, a plain command of it that no
    rule matches is on the list of known safe commands if it looks dangerous;
    if only trusted commands run unasked, and then the script is no complex
    one; and if it asks to leave a restricted sandbox under a policy that asks
    on request. Commands that a rule matches are not spoken of: a rule may take
    the whole script out of the sandbox ([rule_takes_script_out_of_sandbox]). *)
Theorem skip_is_safe (p : Policy) (req : ExecApprovalRequest) bypass am cmd :
  requirement p req = Ok (Skip bypass am) → cmd ∈ (commands_of (command req)).1 → no_rule p cmd →
  (command_might_be_dangerous try_parse_shell cmd = true → known_safe cmd = true) ∧
  (approval_policy req = UnlessTrusted →
     known_safe cmd = true ∧ (commands_of (command req)).2 = false) ∧
  (requests_sandbox_override (sandbox_permissions req) = true →
   kind (file_system_sandbox_policy req) = KindRestricted →
   (approval_policy req = OnRequest ∨ ∃ g, approval_policy req = Granular g) →
     known_safe cmd = true).
Proof. apply skip_unmatched. Qed.

Lemma prompt_amendment_inv p req complex cmds ev requested am :
  (∀ r, r ∈ matched_rules ev ↔
     ∃ cmd, cmd ∈ cmds ∧ r ∈ matches_of p cmd (fallback_of req complex)) →
  derive_requested_execpolicy_amendment_from_prefix_rule home_dir absolutize (prefix_rule req)
    (matched_rules ev) p cmds (fallback_of req complex) true = Ok requested →
  match requested with
  | Some amendment => Some amendment
  | None =>
      if negb complex
      then try_derive_execpolicy_amendment_for_prompt_rules (matched_rules ev)
      else None
  end = Some am →
  (¬ ∃ cmd m, cmd ∈ cmds ∧ rules_apply p cmd m ∧ match_decision m = Prompt) ∧
  (prefix_rule_would_approve_all_commands home_dir absolutize p (amendment_command am) cmds
     (fallback_of req complex) true = Ok true ∨ amendment_command am ∈ cmds).
Proof.
  intros Hin Hreq Ham.
  pose proof (evaluate_policy_decision p _ cmds ev Prompt Hin) as Hprompt.
  pose proof (evaluate_policy_match p _ cmds ev Hin) as Hmatch.
  destruct requested as [am'|].
  - injection Ham as ->. unfold derive_requested_execpolicy_amendment_from_prefix_rule in Hreq.
    destruct (prefix_rule req) as [pr|]; [|done]. case_bool_decide; [done|].
    destruct (existsb _ BANNED_PREFIX_SUGGESTIONS); [done|].
    destruct (existsb is_policy_match (matched_rules ev)); [done|].
    apply bind_Ok_inv in Hreq as ([|] & Hw & Hreq); [|done]. injection Hreq as <-.
    split; [|by left]. intros (cmd & m & Hc & Hm & _).
    by assert (false = true) by (apply Hmatch; eauto).
  - destruct complex; [done|]. unfold try_derive_execpolicy_amendment_for_prompt_rules in Ham.
    cbn [negb] in Ham. unfold policy_prompts in Ham.
    destruct (existsb _ (matched_rules ev)) eqn:E; [done|].
    split; [by intros ?%Hprompt|]. right.
    apply head_Some_elem_of, list_elem_of_omap in Ham as (r & (cmd & Hc & Hr)%Hin & Ham).
    apply elem_of_matches_applies in Hr as [Ha%applies_policy|[_ ->]]; [by destruct r|].
    destruct (fallback_of req false cmd); [done| |done]. by injection Ham as <-.
Qed.

(** The rule of an amendment decides about its own command. *)
Lemma added_rule_says p p' fallback cmd d :
  add_prefix_rule p cmd Allow = Ok p' → no_rule p cmd → says p' fallback cmd d → d = Allow.
Proof.
  intros Hadd Hu Hs. pose proof (add_prefix_rule_spec p cmd Allow) as Hspec. rewrite Hadd in Hspec.
  destruct Hspec as (Hne & _ & Hex). specialize (Hex cmd).
  rewrite (bool_decide_true (cmd `prefix_of` cmd)) in Hex by done.
  assert (Hexact : ∀ r, exact_match p' cmd r ↔ r = PrefixRuleMatch cmd Allow None None).
  { intros r. rewrite <- match_exact_rules_iff, Hex.
    assert (∃ ms, match_exact_rules p cmd = Some ms) as [ms Hms] by (destruct cmd; [done|by eexists]).
    rewrite Hms. cbn [fmap option_fmap option_map].
    assert (ms = []) as ->.
    { destruct ms as [|m ms]; [done|]. destruct (Hu m). left. apply match_exact_rules_iff.
      exists (m :: ms). split; [done|left]. }
    split; [intros (? & [= <-] & Hr); by apply list_elem_of_singleton in Hr|].
    intros ->. eexists. split; [done|]. left. }
  assert (Hnew : exact_match p' cmd (PrefixRuleMatch cmd Allow None None)) by by apply Hexact.
  destruct Hs as [(r & [Hr|[Hn _]] & <-)|[Hn _]].
  - by apply Hexact in Hr as ->.
  - by destruct (Hn (PrefixRuleMatch cmd Allow None None)).
  - destruct (Hn (PrefixRuleMatch cmd Allow None None)). by left.
Qed.

(** A command the fallback does not allow is allowed only by a rule. *)
Lemma allowed_by_rule p fallback cmd :
  fallback cmd ≠ Allow → (∀ d, says p fallback cmd d → d = Allow) → ∃ m, rules_apply p cmd m.
Proof.
  intros Hfb Hall. destruct (existsb is_policy_match (matches_of p cmd fallback)) eqn:E.
  - apply existsb_elem in E as (m & [Ha|[_ ->]]%elem_of_matches_applies & Hp); [eauto|done].
  - exfalso. apply Hfb, Hall. right. split; [|done]. intros m Hm.
    apply not_true_iff_false in E. apply E, existsb_elem.
    exists m. split; [|by eapply applies_policy]. apply elem_of_matches_applies. by left.
Qed.

Lemma approved_requirement p req cmds complex :
  commands_of (command req) = (cmds, complex) →
  (∀ cmd d, cmd ∈ cmds → says p (fallback_of req complex) cmd d → d = Allow) →
  (∃ cmd m, cmd ∈ cmds ∧ rules_apply p cmd m) →
  requirement p req = Ok (Skip true None).
Proof.
  intros Hc Hall (cmd & m & Hcmd & Hm). pose proof (requirement_evaluates p req) as Hreq.
  rewrite Hc in Hreq. destruct Hreq as (ev & rq & _ & _ & -> & Hin & Hd). f_equal.
  unfold requirement_for_evaluation, try_derive_execpolicy_amendment_for_allow_rules.
  destruct (decision ev).
  - rewrite (proj2 (evaluate_policy_decision p _ cmds ev Allow Hin)),
      (proj2 (evaluate_policy_match p _ cmds ev Hin)); [by destruct (negb complex)|eauto|].
    exists cmd, m. split_and!; [done..|]. apply (Hall cmd); [done|]. left. eauto.
  - destruct Hd as [(c & Hcc & Hs) _]. by apply (Hall c) in Hs.
  - destruct Hd as (c & Hcc & Hs). by apply (Hall c) in Hs.
Qed.

(** A proposed rule does what it is proposed for.  When the engine asks and
    proposes an amendment for a request of one command, or one that it has
    checked to approve all commands of the script (as it does for a prefix the
    model asks for), then once the amendment is applied the same request runs
    without a question and outside the sandbox. *)
Theorem amendment_takes_effect to_json task_joined io (mgr mgr' : ExecPolicyManager)
    (req : ExecApprovalRequest) reason am contents contents' :
  let '(cmds, complex) := commands_of (command req) in
  requirement (policy mgr) req = Ok (NeedsApproval reason (Some am)) →
  length cmds = 1 ∨ prefix_rule_would_approve_all_commands home_dir absolutize (policy mgr)
    (amendment_command am) cmds (fallback_of req complex) true = Ok true →
  append_amendment_and_update to_json task_joined io mgr contents am = Ok (contents', mgr') →
  requirement (policy mgr') req = Ok (Skip true None).
Proof.
  pose proof (requirement_evaluates (policy mgr) req) as Hreq.
  destruct (commands_of (command req)) as [cmds complex] eqn:Hco. cbv zeta in *.
  set (fb := fallback_of req complex) in *. intros Hr Hcmds Happ.
  destruct Hreq as (ev & rq & _ & Hrq & Heq & Hin & Hd). rewrite Heq in Hr. injection Hr as Hr.
  assert (Hadd : add_prefix_rule (policy mgr) (amendment_command am) Allow = Ok (policy mgr')).
  { unfold append_amendment_and_update, store_policy in Happ.
    apply bind_Ok_inv in Happ as (? & _ & Happ).
    destruct (add_prefix_rule _ _ _); try done. by injection Happ as _ <-. }
  unfold requirement_for_evaluation in Hr. destruct (decision ev); [done| |done].
  destruct (prompt_is_rejected_by_policy _ _); [done|]. injection Hr as _ Ham.
  apply (prompt_amendment_inv (policy mgr) req complex cmds) in Ham as [Hnr Hwould]; [|done..].
  destruct Hd as [(cmd & Hcmd & [(m & Hm & Hmd)|[Hun Hfb]]) _]; [by destruct Hnr; eauto|].
  assert (Hall : ∀ c d, c ∈ cmds → says (policy mgr') fb c d → d = Allow).
  { assert (prefix_rule_would_approve_all_commands home_dir absolutize (policy mgr)
      (amendment_command am) cmds fb true = Ok true ∨ cmds = [amendment_command am]) as [Hw| ->].
    { destruct Hcmds as [Hl|Hw]; [|by left]. destruct Hwould as [Hw|Hc]; [by left|right].
      destruct cmds as [|x []]; try done. by apply list_elem_of_singleton in Hc as ->. }
    - unfold prefix_rule_would_approve_all_commands in Hw. rewrite Hadd in Hw.
      destruct (all_allowed_spec (policy mgr') fb cmds) as (b & Hb & Hiff).
      rewrite Hb in Hw. injection Hw as ->. by apply Hiff.
    - intros c d ->%list_elem_of_singleton Hs. apply list_elem_of_singleton in Hcmd as ->.
      by eapply added_rule_says. }
  apply (approved_requirement _ _ cmds complex Hco); [done|].
  destruct (allowed_by_rule (policy mgr') fb cmd) as [m Hm]; [by rewrite Hfb|by intros d; apply (Hall cmd)|eauto].
Qed.
End Theory.

(** ** Applications of the theorems *)
Definition no_shell (script : str) : option Node := None.
Definition no_powershell (executable script : str) : option PowershellParserOutput := None.
Definition no_shlex (args : list str) : option str := None.

Definition sample_request (command : list str) (approval_policy : AskForApproval) :
    ExecApprovalRequest := {|
  command := command;
  approval_policy := approval_policy;
  sandbox_policy := new_workspace_write_policy;
  file_system_sandbox_policy := default_file_system_policy;
  sandbox_permissions := UseDefault;
  prefix_rule := None;
|}.

Lemma unmatched_empty home_dir absolutize cmd : unmatched home_dir absolutize policy_empty cmd.
Proof.
  intros r [(? & _ & rules & ? & ? & Hl & _)|[_ Hh]]; [by cbn [policy_empty rules_by_program] in Hl; rewrite lookup_empty in Hl|].
  destruct Hh as (? & ? & ? & ? & _ & _ & _ & _ & ? & ? & ? & Hl & _).
  by cbn [policy_empty rules_by_program] in Hl; rewrite lookup_empty in Hl.
Qed.

Lemma skip_is_safe_witness :
  create_exec_approval_requirement_for_command true no_shell no_powershell None Some no_shlex
    policy_empty (sample_request [lit "ls"] UnlessTrusted)
  = Ok (Skip false (Some {| amendment_command := [lit "ls"] |})) ∧
  is_known_safe_command true no_shell no_powershell [lit "ls"] = true.
Proof.
  assert (Hr : create_exec_approval_requirement_for_command true no_shell no_powershell None Some
    no_shlex policy_empty (sample_request [lit "ls"] UnlessTrusted)
    = Ok (Skip false (Some {| amendment_command := [lit "ls"] |}))) by (vm_compute; reflexivity).
  split; [exact Hr|].
  destruct (skip_is_safe true no_shell no_powershell None Some no_shlex policy_empty
    (sample_request [lit "ls"] UnlessTrusted) _ _ [lit "ls"] Hr) as (_ & Hs & _).
  - left.
  - apply unmatched_empty.
  - by apply Hs.
Defined.

Definition identity_json (s : str) : str := s.

Lemma amendment_takes_effect_witness :
  let req := sample_request [lit "make"] UnlessTrusted in
  let am := {| amendment_command := [lit "make"] |} in
  ∃ contents' mgr',
    append_amendment_and_update identity_json true None {| policy := policy_empty |} [] am
      = Ok (contents', mgr') ∧
    create_exec_approval_requirement_for_command true no_shell no_powershell None Some no_shlex
      (policy mgr') req = Ok (Skip true None).
Proof.
  eexists _, _. split; [reflexivity|].
  eapply (amendment_takes_effect true no_shell no_powershell None Some no_shlex identity_json true
    None {| policy := policy_empty |} _ (sample_request [lit "make"] UnlessTrusted) None
    {| amendment_command := [lit "make"] |} []); [vm_compute; reflexivity|by left|reflexivity].
Defined.

(** The tree of [make && curl x]. *)
Definition word_node (kind : string) (s e : nat) (children : list Node) : Node :=
  MkNode (lit kind) true s e false children.

Definition two_commands : str := lit "make && curl x".
Definition two_commands_tree : Node :=
  word_node "program" 0 14
    [word_node "list" 0 14
       [word_node "command" 0 4 [word_node "command_name" 0 4 [word_node "word" 0 4 []]];
        MkNode (lit "&&") false 5 7 false [];
        word_node "command" 8 14
          [word_node "command_name" 8 12 [word_node "word" 8 12 []]; word_node "word" 13 14 []]]].

Definition parse_two_commands (script : str) : option Node :=
  if bool_decide (script = two_commands) then Some two_commands_tree else None.

Definition make_allowed : Policy :=
  match add_prefix_rule policy_empty [lit "make"] Allow with Ok p => p | _ => policy_empty end.

(** A rule that allows one command of a script takes the whole script out of
    the sandbox: [curl x], which no rule matches and which is allowed only
    because the sandbox confines it, runs outside the sandbox too. *)
Example rule_takes_script_out_of_sandbox :
  create_exec_approval_requirement_for_command true parse_two_commands no_powershell None
    (λ _, None) no_shlex make_allowed
    (sample_request [lit "bash"; lit "-lc"; two_commands] Never) = Ok (Skip true None) ∧
  matches_for_command_with_options None (λ _, None) cfg_windows make_allowed
    [lit "curl"; lit "x"] None true = [] ∧
  is_known_safe_command true parse_two_commands no_powershell [lit "curl"; lit "x"] = false.
Proof. vm_compute. repeat split. Qed.
