(* ===== verification/Sandboxing.v ===== *)
(** * Sandboxes and additional permissions: [core/src/sandboxing/mod.rs],
      [core/src/sandboxing/macos_permissions.rs]

    Permission profiles that widen a sandbox for one command, the policies in
    force for the command, the choice of a sandbox and the command line that
    starts it (as built for Linux), and whether a failure looks like a denial.
    Arguments stand for [serde_json] and for the text of a path. *)
From stdpp Require Import base tactics option list sets numbers strings gmap sorting.
From S2P Require Import Prelude RustStr Paths Permissions Safety.
From stdpp Require Import list.

(** ** Profiles: [protocol/src/models.rs] *)
Record FileSystemPermissions : Type := {
  read : option (list AbsolutePathBuf);
  write : option (list AbsolutePathBuf);
}.

Record NetworkPermissions : Type := { enabled : option bool }.

Inductive MacOsPreferencesPermission : Type :=
  | PreferencesNone | PreferencesReadOnly | PreferencesReadWrite.
Inductive MacOsContactsPermission : Type := ContactsNone | ContactsReadOnly | ContactsReadWrite.
Inductive MacOsAutomationPermission : Type :=
  | AutomationNone
  | AutomationAll
  | BundleIds (bundle_ids : list str).

Record MacOsSeatbeltProfileExtensions : Type := {
  macos_preferences : MacOsPreferencesPermission;
  macos_automation : MacOsAutomationPermission;
  macos_launch_services : bool;
  macos_accessibility : bool;
  macos_calendar : bool;
  macos_reminders : bool;
  macos_contacts : MacOsContactsPermission;
}.

Record PermissionProfile : Type := {
  network : option NetworkPermissions;
  file_system : option FileSystemPermissions;
  macos : option MacOsSeatbeltProfileExtensions;
}.

Definition is_none {A} (o : option A) : bool := match o with None => true | Some _ => false end.

Definition file_system_is_empty (self : FileSystemPermissions) : bool :=
  is_none (read self) && is_none (write self).
Definition network_is_empty (self : NetworkPermissions) : bool := is_none (enabled self).
Definition profile_is_empty (self : PermissionProfile) : bool :=
  is_none (network self) && is_none (file_system self) && is_none (macos self).

(** [Option::filter]. *)
Definition option_filter {A} (f : A → bool) (o : option A) : option A :=
  match o with Some a => if f a then Some a else None | None => None end.

(** ** macOS extensions *)
(** The derived orders. *)
Definition preferences_rank (p : MacOsPreferencesPermission) : nat :=
  match p with PreferencesNone => 0 | PreferencesReadOnly => 1 | PreferencesReadWrite => 2 end.
Definition contacts_rank (p : MacOsContactsPermission) : nat :=
  match p with ContactsNone => 0 | ContactsReadOnly => 1 | ContactsReadWrite => 2 end.

Definition union_macos_preferences_permission (base requested : MacOsPreferencesPermission) :
    MacOsPreferencesPermission :=
  if preferences_rank base <? preferences_rank requested then requested else base.

Definition union_macos_contacts_permission (base requested : MacOsContactsPermission) :
    MacOsContactsPermission :=
  if contacts_rank base <? contacts_rank requested then requested else base.

(** The order of strings, by bytes as by scalar values. *)
Fixpoint str_lt (s t : str) : bool :=
  match s, t with
  | [], [] => false
  | [], _ :: _ => true
  | _ :: _, [] => false
  | c :: s', d :: t' => (c <? d)%N || ((c =? d)%N && str_lt s' t')
  end.

(** Insertion into a [BTreeSet], as the sorted list of its elements. *)
Fixpoint btree_insert (x : str) (l : list str) : list str :=
  match l with
  | [] => [x]
  | y :: l' =>
      if bool_decide (x = y) then l
      else if str_lt x y then x :: l else y :: btree_insert x l'
  end.

Definition btree_set (l : list str) : list str := foldl (λ acc x, btree_insert x acc) [] l.

Definition union_macos_automation_permission (base requested : MacOsAutomationPermission) :
    MacOsAutomationPermission :=
  match base, requested with
  | AutomationAll, _ | _, AutomationAll => AutomationAll
  | AutomationNone, _ => requested
  | _, AutomationNone => base
  | BundleIds base_bundle_ids, BundleIds requested_bundle_ids =>
      BundleIds (btree_set (base_bundle_ids ++ requested_bundle_ids))
  end.

Definition intersect_macos_automation_permission (requested granted : MacOsAutomationPermission) :
    MacOsAutomationPermission :=
  match requested, granted with
  | _, AutomationNone | AutomationNone, _ => AutomationNone
  | AutomationAll, granted => granted
  | BundleIds requested, AutomationAll => BundleIds requested
  | BundleIds requested, BundleIds granted =>
      let bundle_ids := List.filter (λ bundle_id, bool_decide (bundle_id ∈ granted)) requested in
      if bool_decide (bundle_ids = []) then AutomationNone else BundleIds bundle_ids
  end.

Definition merge_macos_seatbelt_profile_extensions
    (base permissions : option MacOsSeatbeltProfileExtensions) :
    option MacOsSeatbeltProfileExtensions :=
  match permissions with
  | None => base
  | Some permissions =>
      match base with
      | Some base => Some {|
          macos_preferences := union_macos_preferences_permission (macos_preferences base)
                                 (macos_preferences permissions);
          macos_automation := union_macos_automation_permission (macos_automation base)
                                (macos_automation permissions);
          macos_launch_services := macos_launch_services base || macos_launch_services permissions;
          macos_accessibility := macos_accessibility base || macos_accessibility permissions;
          macos_calendar := macos_calendar base || macos_calendar permissions;
          macos_reminders := macos_reminders base || macos_reminders permissions;
          macos_contacts := union_macos_contacts_permission (macos_contacts base)
                              (macos_contacts permissions) |}
      | None => Some permissions
      end
  end.

(** [Ord::min] with the derived orders. *)
Definition preferences_min (p q : MacOsPreferencesPermission) : MacOsPreferencesPermission :=
  if preferences_rank q <? preferences_rank p then q else p.
Definition contacts_min (p q : MacOsContactsPermission) : MacOsContactsPermission :=
  if contacts_rank q <? contacts_rank p then q else p.

Definition intersect_macos_seatbelt_profile_extensions
    (requested granted : option MacOsSeatbeltProfileExtensions) :
    option MacOsSeatbeltProfileExtensions :=
  match requested, granted with
  | Some requested, Some granted => Some {|
      macos_preferences := preferences_min (macos_preferences requested) (macos_preferences granted);
      macos_automation := intersect_macos_automation_permission (macos_automation requested)
                            (macos_automation granted);
      macos_launch_services := macos_launch_services requested && macos_launch_services granted;
      macos_accessibility := macos_accessibility requested && macos_accessibility granted;
      macos_calendar := macos_calendar requested && macos_calendar granted;
      macos_reminders := macos_reminders requested && macos_reminders granted;
      macos_contacts := contacts_min (macos_contacts requested) (macos_contacts granted) |}
  | _, _ => None
  end.

(** ** Profiles *)
Section Profiles.
Context `{PathEnv}.

(** The canonical paths, in order and without repetitions. *)
Definition canonical_path (path : AbsolutePathBuf) : AbsolutePathBuf :=
  match canonicalize path with
  | Some canonical => default path (from_absolute_path canonical)
  | None => path
  end.

Definition normalize_permission_paths (paths : list AbsolutePathBuf) : list AbsolutePathBuf :=
  dedup_from [] (canonical_path <$> paths).

Definition normalize_additional_permissions (additional_permissions : PermissionProfile) :
    outcome str PermissionProfile :=
  Ok {|
    network := option_filter (λ n, negb (network_is_empty n)) (network additional_permissions);
    file_system :=
      option_filter (λ fs, negb (file_system_is_empty fs))
        (option_map (λ fs, {| read := option_map normalize_permission_paths (read fs);
                              write := option_map normalize_permission_paths (write fs) |})
           (file_system additional_permissions));
    macos := macos additional_permissions |}.
End Profiles.

Definition merge_permission_paths (base permissions : option (list AbsolutePathBuf)) :
    option (list AbsolutePathBuf) :=
  match base, permissions with
  | Some base, Some permissions =>
      option_filter (λ paths, negb (bool_decide (paths = [])))
        (Some (dedup_from [] (base ++ permissions)))
  | Some base, None => Some base
  | None, Some permissions => Some permissions
  | None, None => None
  end.

Definition is_enabled (n : option NetworkPermissions) : bool :=
  match n with Some {| enabled := Some true |} => true | _ => false end.

Definition merge_permission_profiles (base permissions : option PermissionProfile) :
    option PermissionProfile :=
  match permissions with
  | None => base
  | Some permissions =>
      match base with
      | Some base =>
          let network_ :=
            if is_enabled (network base) || is_enabled (network permissions)
            then Some {| enabled := Some true |} else None in
          let file_system_ :=
            match file_system base, file_system permissions with
            | Some base, Some permissions =>
                option_filter (λ fs, negb (file_system_is_empty fs))
                  (Some {| read := merge_permission_paths (read base) (read permissions);
                           write := merge_permission_paths (write base) (write permissions) |})
            | Some base, None => Some base
            | None, Some permissions => Some permissions
            | None, None => None
            end in
          let macos_ := merge_macos_seatbelt_profile_extensions (macos base) (macos permissions) in
          option_filter (λ p, negb (profile_is_empty p))
            (Some {| network := network_; file_system := file_system_; macos := macos_ |})
      | None => option_filter (λ p, negb (profile_is_empty p)) (Some permissions)
      end
  end.

(** The paths of the request that are granted. *)
Definition intersect_permission_paths (requested granted : option (list AbsolutePathBuf)) :
    option (list AbsolutePathBuf) :=
  option_filter (λ paths, negb (bool_decide (paths = [])))
    (option_map (λ requested,
       List.filter (λ path, bool_decide (path ∈ default [] granted)) requested) requested).

Definition intersect_permission_profiles (requested granted : PermissionProfile) :
    PermissionProfile :=
  let granted_file_system :=
    default {| read := None; write := None |} (file_system granted) in
  {| network := if is_enabled (network requested) && is_enabled (network granted)
                then Some {| enabled := Some true |} else None;
     file_system :=
       option_filter (λ fs, negb (file_system_is_empty fs))
         (option_map (λ requested_file_system,
            {| read := intersect_permission_paths (read requested_file_system)
                         (read granted_file_system);
               write := intersect_permission_paths (write requested_file_system)
                          (write granted_file_system) |})
            (file_system requested));
     macos := intersect_macos_seatbelt_profile_extensions (macos requested) (macos granted) |}.

(** ** Policies with additional permissions *)
Definition additional_permission_roots (additional_permissions : PermissionProfile) :
    list AbsolutePathBuf * list AbsolutePathBuf :=
  let roots (get : FileSystemPermissions → option (list AbsolutePathBuf)) :=
    dedup_from [] (default [] (match file_system additional_permissions with
                               | Some fs => get fs
                               | None => None
                               end)) in
  (roots read, roots write).

#[export] Instance FileSystemSpecialPath_eq_dec : EqDecision FileSystemSpecialPath.
Proof. solve_decision. Defined.
#[export] Instance FileSystemPath_eq_dec : EqDecision FileSystemPath.
Proof. solve_decision. Defined.
#[export] Instance FileSystemSandboxEntry_eq_dec : EqDecision FileSystemSandboxEntry.
Proof. solve_decision. Defined.

(** One round of the two loops that add entries. *)
Definition push_entry (access : FileSystemAccessMode) (merged_policy : FileSystemSandboxPolicy)
    (path : AbsolutePathBuf) : FileSystemSandboxPolicy :=
  let entry := path_entry access path in
  if bool_decide (entry ∈ entries merged_policy) then merged_policy
  else {| kind := kind merged_policy; entries := entries merged_policy ++ [entry] |}.

Definition merge_file_system_policy_with_additional_permissions
    (file_system_policy : FileSystemSandboxPolicy) (extra_reads extra_writes : list AbsolutePathBuf) :
    FileSystemSandboxPolicy :=
  match kind file_system_policy with
  | KindRestricted =>
      foldl (push_entry AccessWrite)
        (foldl (push_entry AccessRead) file_system_policy extra_reads) extra_writes
  | KindUnrestricted | KindExternalSandbox => file_system_policy
  end.

Definition effective_file_system_sandbox_policy (file_system_policy : FileSystemSandboxPolicy)
    (additional_permissions : option PermissionProfile) : FileSystemSandboxPolicy :=
  match additional_permissions with
  | None => file_system_policy
  | Some additional_permissions =>
      let '(extra_reads, extra_writes) := additional_permission_roots additional_permissions in
      if bool_decide (extra_reads = []) && bool_decide (extra_writes = []) then file_system_policy
      else merge_file_system_policy_with_additional_permissions file_system_policy extra_reads
             extra_writes
  end.

Definition merge_read_only_access_with_additional_reads (read_only_access : ReadOnlyAccess)
    (extra_reads : list AbsolutePathBuf) : ReadOnlyAccess :=
  match read_only_access with
  | ReadFullAccess => ReadFullAccess
  | ReadRestricted include_platform_defaults readable_roots =>
      ReadRestricted include_platform_defaults (dedup_from [] (readable_roots ++ extra_reads))
  end.

Definition merge_network_access (base_network_access : bool)
    (additional_permissions : PermissionProfile) : bool :=
  base_network_access
  || default false (match network additional_permissions with
                    | Some n => enabled n
                    | None => None
                    end).

Definition sandbox_policy_with_additional_permissions (sandbox_policy : SandboxPolicy)
    (additional_permissions : PermissionProfile) : SandboxPolicy :=
  if profile_is_empty additional_permissions then sandbox_policy
  else
    let '(extra_reads, extra_writes) := additional_permission_roots additional_permissions in
    match sandbox_policy with
    | DangerFullAccess => DangerFullAccess
    | ExternalSandbox network_access =>
        ExternalSandbox
          (if merge_network_access (network_access_is_enabled network_access) additional_permissions
           then NetworkAccessEnabled else NetworkAccessRestricted)
    | WorkspaceWrite writable_roots read_only_access network_access exclude_tmpdir_env_var
        exclude_slash_tmp =>
        WorkspaceWrite (dedup_from [] (writable_roots ++ extra_writes))
          (merge_read_only_access_with_additional_reads read_only_access extra_reads)
          (merge_network_access network_access additional_permissions)
          exclude_tmpdir_env_var exclude_slash_tmp
    | ReadOnly access network_access =>
        if bool_decide (extra_writes = []) then
          ReadOnly (merge_read_only_access_with_additional_reads access extra_reads)
            (merge_network_access network_access additional_permissions)
        else
          WorkspaceWrite (dedup_from [] extra_writes)
            (merge_read_only_access_with_additional_reads access extra_reads)
            (merge_network_access network_access additional_permissions) false false
    end.

Record EffectiveSandboxPermissions : Type := {
  effective_sandbox_policy : SandboxPolicy;
  effective_macos_extensions : option MacOsSeatbeltProfileExtensions;
}.

Definition effective_new (sandbox_policy : SandboxPolicy)
    (macos_seatbelt_profile_extensions : option MacOsSeatbeltProfileExtensions)
    (additional_permissions : option PermissionProfile) : EffectiveSandboxPermissions :=
  match additional_permissions with
  | None => {| effective_sandbox_policy := sandbox_policy;
               effective_macos_extensions := macos_seatbelt_profile_extensions |}
  | Some additional_permissions =>
      {| effective_sandbox_policy :=
           sandbox_policy_with_additional_permissions sandbox_policy additional_permissions;
         effective_macos_extensions :=
           merge_macos_seatbelt_profile_extensions macos_seatbelt_profile_extensions
             (macos additional_permissions) |}
  end.

(** ** The choice of a sandbox *)
Inductive SandboxablePreference : Type := Auto | Require_ | Forbid.

Definition should_require_platform_sandbox (file_system_policy : FileSystemSandboxPolicy)
    (network_policy : NetworkSandboxPolicy) (has_managed_network_requirements : bool) : bool :=
  if has_managed_network_requirements then true
  else if negb (network_is_enabled network_policy) then
    match kind file_system_policy with KindExternalSandbox => false | _ => true end
  else
    match kind file_system_policy with
    | KindRestricted => negb (has_full_disk_write_access file_system_policy)
    | KindUnrestricted | KindExternalSandbox => false
    end.

Definition select_initial (os : target_os) (file_system_policy : FileSystemSandboxPolicy)
    (network_policy : NetworkSandboxPolicy) (pref : SandboxablePreference)
    (windows_sandbox_level : WindowsSandboxLevel) (has_managed_network_requirements : bool) :
    SandboxType :=
  let platform_sandbox :=
    default SandboxNone
      (get_platform_sandbox os (negb (bool_decide (windows_sandbox_level = Disabled)))) in
  match pref with
  | Forbid => SandboxNone
  | Require_ => platform_sandbox
  | Auto =>
      if should_require_platform_sandbox file_system_policy network_policy
           has_managed_network_requirements
      then platform_sandbox else SandboxNone
  end.

(** ** The command line, as built for Linux *)
Inductive SandboxTransformError : Type :=
  | MissingLinuxSandboxExecutable
  | SeatbeltUnavailable.

Section Transform.
(** The deadline of a command, the network proxy, [serde_json::to_string] of
    the policies and the text of a path. *)
Context {Expiration Network Permission : Type}.
Context (sandbox_policy_json : SandboxPolicy → str).
Context (file_system_policy_json : FileSystemSandboxPolicy → str).
Context (network_policy_json : NetworkSandboxPolicy → str) (path_to_str : Path → str).

Record CommandSpec : Type := {
  program : str;
  args : list str;
  spec_cwd : Path;
  spec_env : gmap str str;
  spec_expiration : Expiration;
  spec_sandbox_permissions : Permission;
  additional_permissions : option PermissionProfile;
  spec_justification : option str;
}.

Record ExecRequest : Type := {
  exec_command : list str;
  exec_cwd : Path;
  exec_env : gmap str str;
  exec_network : option Network;
  exec_expiration : Expiration;
  exec_sandbox : SandboxType;
  exec_windows_sandbox_level : WindowsSandboxLevel;
  exec_windows_sandbox_private_desktop : bool;
  exec_sandbox_permissions : Permission;
  exec_sandbox_policy : SandboxPolicy;
  exec_file_system_sandbox_policy : FileSystemSandboxPolicy;
  exec_network_sandbox_policy : NetworkSandboxPolicy;
  exec_justification : option str;
  arg0 : option str;
}.

Record SandboxTransformRequest : Type := {
  spec : CommandSpec;
  request_policy : SandboxPolicy;
  file_system_policy : FileSystemSandboxPolicy;
  network_policy : NetworkSandboxPolicy;
  sandbox : SandboxType;
  enforce_managed_network : bool;
  request_network : option Network;
  sandbox_policy_cwd : Path;
  codex_linux_sandbox_exe : option str;
  use_legacy_landlock : bool;
  request_windows_sandbox_level : WindowsSandboxLevel;
  request_windows_sandbox_private_desktop : bool;
}.

Definition allow_network_for_proxy (enforce_managed_network : bool) : bool :=
  enforce_managed_network.

Definition create_linux_sandbox_command_args_for_policies (command : list str)
    (sandbox_policy : SandboxPolicy) (file_system_sandbox_policy : FileSystemSandboxPolicy)
    (network_sandbox_policy : NetworkSandboxPolicy) (sandbox_policy_cwd : Path)
    (use_legacy_landlock allow_network_for_proxy : bool) : list str :=
  [lit "--sandbox-policy-cwd"; path_to_str sandbox_policy_cwd;
   lit "--sandbox-policy"; sandbox_policy_json sandbox_policy;
   lit "--file-system-sandbox-policy"; file_system_policy_json file_system_sandbox_policy;
   lit "--network-sandbox-policy"; network_policy_json network_sandbox_policy]
  ++ (if use_legacy_landlock then [lit "--use-legacy-landlock"] else [])
  ++ (if allow_network_for_proxy then [lit "--allow-network-for-proxy"] else [])
  ++ [lit "--"] ++ command.

Definition network_disabled_var : str := lit "CODEX_SANDBOX_NETWORK_DISABLED".

(** The effective policies of [transform]. *)
Definition effective_policies (request : SandboxTransformRequest) :
    FileSystemSandboxPolicy * NetworkSandboxPolicy :=
  match additional_permissions (spec request) with
  | Some permissions =>
      let '(extra_reads, extra_writes) := additional_permission_roots permissions in
      (if bool_decide (extra_reads = []) && bool_decide (extra_writes = [])
       then file_system_policy request
       else merge_file_system_policy_with_additional_permissions (file_system_policy request)
              extra_reads extra_writes,
       if merge_network_access (network_is_enabled (network_policy request)) permissions
       then NetworkEnabled else NetworkRestricted)
  | None => (file_system_policy request, network_policy request)
  end.

Definition transform (request : SandboxTransformRequest) :
    outcome SandboxTransformError ExecRequest :=
  let effective_policy :=
    effective_sandbox_policy
      (effective_new (request_policy request) None (additional_permissions (spec request))) in
  let '(effective_file_system_policy, effective_network_policy) := effective_policies request in
  let env :=
    if negb (network_is_enabled effective_network_policy)
    then <[network_disabled_var := lit "1"]> (spec_env (spec request))
    else spec_env (spec request) in
  let command := program (spec request) :: args (spec request) in
  wrapped ←
    match sandbox request with
    | SandboxNone | WindowsRestrictedToken => Ok (command, None)
    | MacosSeatbelt => Err SeatbeltUnavailable
    | LinuxSeccomp =>
        match codex_linux_sandbox_exe request with
        | None => Err MissingLinuxSandboxExecutable
        | Some exe =>
            Ok (exe :: create_linux_sandbox_command_args_for_policies command effective_policy
                         effective_file_system_policy effective_network_policy
                         (sandbox_policy_cwd request) (use_legacy_landlock request)
                         (allow_network_for_proxy (enforce_managed_network request)),
                Some (lit "codex-linux-sandbox"))
        end
    end;
  let '(command, arg0_override) := wrapped in
  Ok {| exec_command := command;
        exec_cwd := spec_cwd (spec request);
        exec_env := env;
        exec_network := request_network request;
        exec_expiration := spec_expiration (spec request);
        exec_sandbox := sandbox request;
        exec_windows_sandbox_level := request_windows_sandbox_level request;
        exec_windows_sandbox_private_desktop := request_windows_sandbox_private_desktop request;
        exec_sandbox_permissions := spec_sandbox_permissions (spec request);
        exec_sandbox_policy := effective_policy;
        exec_file_system_sandbox_policy := effective_file_system_policy;
        exec_network_sandbox_policy := effective_network_policy;
        exec_justification := spec_justification (spec request);
        arg0 := arg0_override |}.
End Transform.

(** ** What a profile grants *)
Inductive grant : Type :=
  | GrantRead (path : Path)
  | GrantWrite (path : Path)
  | GrantNetwork
  | GrantPreferences (level : nat)
  | GrantAutomation (bundle_id : str)
  | GrantAllAutomation
  | GrantLaunchServices
  | GrantAccessibility
  | GrantCalendar
  | GrantReminders
  | GrantContacts (level : nat).

Definition automates (a : MacOsAutomationPermission) (bundle_id : str) : Prop :=
  match a with
  | AutomationNone => False
  | AutomationAll => True
  | BundleIds bundle_ids => bundle_id ∈ bundle_ids
  end.

Definition file_system_grants (fs : FileSystemPermissions) (g : grant) : Prop :=
  match g with
  | GrantRead path => path ∈ default [] (read fs)
  | GrantWrite path => path ∈ default [] (write fs)
  | _ => False
  end.

Definition macos_grants (m : MacOsSeatbeltProfileExtensions) (g : grant) : Prop :=
  match g with
  | GrantPreferences level => 0 < level ≤ preferences_rank (macos_preferences m)
  | GrantAutomation bundle_id => automates (macos_automation m) bundle_id
  | GrantAllAutomation => macos_automation m = AutomationAll
  | GrantLaunchServices => macos_launch_services m = true
  | GrantAccessibility => macos_accessibility m = true
  | GrantCalendar => macos_calendar m = true
  | GrantReminders => macos_reminders m = true
  | GrantContacts level => 0 < level ≤ contacts_rank (macos_contacts m)
  | _ => False
  end.

Definition from_option_grants {A} (grants : A → grant → Prop) (o : option A) (g : grant) : Prop :=
  match o with Some a => grants a g | None => False end.

Definition profile_grants (p : PermissionProfile) (g : grant) : Prop :=
  (g = GrantNetwork ∧ is_enabled (network p) = true) ∨
  from_option_grants file_system_grants (file_system p) g ∨
  from_option_grants macos_grants (macos p) g.

(** Dropping a value that grants nothing changes nothing. *)
Lemma filter_grants {A} (grants : A → grant → Prop) f o g :
  (∀ a, f a = false → ¬ grants a g) →
  from_option_grants grants (option_filter f o) g ↔ from_option_grants grants o g.
Proof.
  intros Hf. destruct o as [a|]; [|done]. simpl. destruct (f a) eqn:E; [done|].
  split; [done|]. by intros ?%Hf.
Qed.

Lemma empty_file_system_grants fs g :
  negb (file_system_is_empty fs) = false → ¬ file_system_grants fs g.
Proof.
  destruct fs as [[r|] [w|]]; try done. intros _. destruct g; simpl; first [apply not_elem_of_nil|tauto].
Qed.

Lemma empty_profile_grants p g : negb (profile_is_empty p) = false → ¬ profile_grants p g.
Proof.
  destruct p as [[n|] [f|] [m|]]; try done. intros _ [[_ ?]|[?|?]]; done.
Qed.

Lemma filter_paths_default o :
  default [] (option_filter (λ paths : list Path, negb (bool_decide (paths = []))) o) = default [] o.
Proof. destruct o as [l|]; [|done]. simpl. by case_bool_decide; subst. Qed.

Lemma elem_of_merge_paths base permissions p :
  p ∈ default [] (merge_permission_paths base permissions) ↔
  p ∈ default [] base ∨ p ∈ default [] permissions.
Proof.
  destruct base as [b|], permissions as [l|]; cbn [merge_permission_paths];
    rewrite ?filter_paths_default; cbn [default from_option id];
    rewrite ?elem_of_dedup_from, ?elem_of_app, ?elem_of_nil; naive_solver.
Qed.

Lemma elem_of_intersect_paths requested granted p :
  p ∈ default [] (intersect_permission_paths requested granted) ↔
  p ∈ default [] requested ∧ p ∈ default [] granted.
Proof.
  unfold intersect_permission_paths. rewrite filter_paths_default.
  destruct requested as [l|]; cbn [option_map default from_option id];
    rewrite ?elem_of_filterb, ?bool_decide_eq_true, ?elem_of_nil; naive_solver.
Qed.

Lemma elem_of_btree_insert x l y : y ∈ btree_insert x l ↔ y = x ∨ y ∈ l.
Proof.
  induction l as [|z l IH]; simpl; [set_solver|].
  case_bool_decide; [set_solver|]. destruct (str_lt x z); set_solver.
Qed.

Lemma elem_of_btree_set l y : y ∈ btree_set l ↔ y ∈ l.
Proof.
  unfold btree_set. enough (∀ acc, y ∈ foldl (λ acc x, btree_insert x acc) acc l ↔ y ∈ l ∨ y ∈ acc)
    as -> by (rewrite elem_of_nil; naive_solver).
  induction l as [|x l IH]; intros acc; simpl; [set_solver|].
  rewrite IH, elem_of_btree_insert. set_solver.
Qed.

Lemma union_macos_grants a b g :
  from_option_grants macos_grants (merge_macos_seatbelt_profile_extensions a b) g ↔
  from_option_grants macos_grants a g ∨ from_option_grants macos_grants b g.
Proof.
  destruct b as [b|]; [|simpl; tauto]. destruct a as [a|]; [|simpl; tauto].
  destruct g as [| | |l|i| | | | | |l]; simpl; rewrite ?orb_true_iff; try tauto.
  - destruct (macos_preferences a), (macos_preferences b); cbn; lia.
  - destruct (macos_automation a), (macos_automation b); cbn [automates union_macos_automation_permission];
      rewrite ?elem_of_btree_set, ?elem_of_app; tauto.
  - destruct (macos_automation a), (macos_automation b); naive_solver.
  - destruct (macos_contacts a), (macos_contacts b); cbn; lia.
Qed.

Lemma intersect_macos_grants a b g :
  from_option_grants macos_grants (intersect_macos_seatbelt_profile_extensions a b) g ↔
  from_option_grants macos_grants a g ∧ from_option_grants macos_grants b g.
Proof.
  destruct a as [a|]; [|simpl; tauto]. destruct b as [b|]; [|simpl; tauto].
  destruct g as [| | |l|i| | | | | |l]; simpl; rewrite ?andb_true_iff; try tauto.
  - destruct (macos_preferences a), (macos_preferences b); cbn; lia.
  - destruct (macos_automation a) as [| |r], (macos_automation b) as [| |k];
      cbn [automates intersect_macos_automation_permission]; try tauto.
    case_bool_decide as E.
    + cbn [automates]. split; [done|]. intros [Hr Hk].
      assert (Hi : i ∈ ([] : list str)) by
        (rewrite <- E; apply elem_of_filterb; by rewrite bool_decide_eq_true).
      by apply not_elem_of_nil in Hi.
    + cbn [automates]. rewrite elem_of_filterb, bool_decide_eq_true. tauto.
  - destruct (macos_automation a) as [| |r], (macos_automation b) as [| |k]; simpl; try naive_solver.
    case_bool_decide; naive_solver.
  - destruct (macos_contacts a), (macos_contacts b); cbn; lia.
Qed.

Lemma intersect_grants (requested granted : PermissionProfile) (g : grant) :
  profile_grants (intersect_permission_profiles requested granted) g ↔
  profile_grants requested g ∧ profile_grants granted g.
Proof.
  unfold profile_grants, intersect_permission_profiles. cbn [network file_system macos].
  rewrite intersect_macos_grants, filter_grants by by intros; apply empty_file_system_grants.
  assert (is_enabled (if is_enabled (network requested) && is_enabled (network granted)
            then Some {| enabled := Some true |} else None) =
          is_enabled (network requested) && is_enabled (network granted)) as -> by by case_match.
  rewrite andb_true_iff.
  destruct (file_system requested) as [r|], (file_system granted) as [k|];
    destruct g; cbn [option_map from_option_grants file_system_grants read write default from_option id];
    rewrite ?elem_of_intersect_paths, ?elem_of_nil;
    destruct (macos requested), (macos granted); cbn [from_option_grants macos_grants];
    rewrite ?elem_of_nil; intuition (discriminate || tauto).
Qed.

Lemma merge_grants (base permissions : option PermissionProfile) (g : grant) :
  from_option_grants profile_grants (merge_permission_profiles base permissions) g ↔
  from_option_grants profile_grants base g ∨ from_option_grants profile_grants permissions g.
Proof.
  destruct permissions as [l|]; [|simpl; tauto].
  destruct base as [b|]; cbn [merge_permission_profiles];
    rewrite filter_grants by (by intros; apply empty_profile_grants); [|simpl; tauto].
  cbn [from_option_grants]. unfold profile_grants. cbn [network file_system macos].
  rewrite union_macos_grants.
  assert (is_enabled (if is_enabled (network b) || is_enabled (network l)
            then Some {| enabled := Some true |} else None) =
          is_enabled (network b) || is_enabled (network l)) as -> by by case_match.
  rewrite orb_true_iff.
  destruct (file_system b) as [fb|], (file_system l) as [fl|];
    rewrite ?filter_grants by (by intros; apply empty_file_system_grants);
    destruct g; cbn [from_option_grants file_system_grants read write];
    rewrite ?elem_of_merge_paths; intuition (discriminate || tauto).
Qed.

(** Permission profiles form an algebra of grants.  The intersection of a
    requested and a granted profile grants exactly what both grant, and the
    merge of two profiles exactly what one of them grants, for every path,
    the network and every macOS permission; an absent profile grants
    nothing. *)
Theorem profile_algebra (base permissions : option PermissionProfile)
    (requested granted : PermissionProfile) (g : grant) :
  (profile_grants (intersect_permission_profiles requested granted) g ↔
     profile_grants requested g ∧ profile_grants granted g) ∧
  (from_option_grants profile_grants (merge_permission_profiles base permissions) g ↔
     from_option_grants profile_grants base g ∨ from_option_grants profile_grants permissions g).
Proof. split; [apply intersect_grants|apply merge_grants]. Qed.

(** ** Widened policies *)
Lemma elem_of_push_entries access policy paths e :
  e ∈ entries (foldl (push_entry access) policy paths) ↔
  e ∈ entries policy ∨ ∃ p, p ∈ paths ∧ e = path_entry access p.
Proof.
  revert policy; induction paths as [|p paths IH]; intros policy; simpl; [set_solver|].
  rewrite IH. unfold push_entry. case_bool_decide; cbn [entries];
    rewrite ?elem_of_app, ?list_elem_of_singleton; setoid_rewrite elem_of_cons; naive_solver.
Qed.

Lemma kind_push_entries access policy paths : kind (foldl (push_entry access) policy paths) = kind policy.
Proof.
  revert policy; induction paths as [|p paths IH]; intros policy; simpl; [done|].
  rewrite IH. unfold push_entry. by case_bool_decide.
Qed.

(** The entries a profile adds. *)
Definition extra_entry (profile : PermissionProfile) (e : FileSystemSandboxEntry) : Prop :=
  ∃ p, (profile_grants profile (GrantRead p) ∧ e = path_entry AccessRead p) ∨
       (profile_grants profile (GrantWrite p) ∧ e = path_entry AccessWrite p).

Lemma roots_grants profile p :
  (p ∈ (additional_permission_roots profile).1 ↔ profile_grants profile (GrantRead p)) ∧
  (p ∈ (additional_permission_roots profile).2 ↔ profile_grants profile (GrantWrite p)).
Proof.
  unfold additional_permission_roots, profile_grants. cbn [fst snd].
  rewrite !elem_of_dedup_from, !elem_of_nil.
  destruct (file_system profile) as [fs|], (macos profile); cbn; rewrite ?elem_of_nil;
    intuition discriminate.
Qed.

Lemma effective_entries policy profile :
  kind policy = KindRestricted →
  kind (effective_file_system_sandbox_policy policy (Some profile)) = KindRestricted ∧
  ∀ e, e ∈ entries (effective_file_system_sandbox_policy policy (Some profile)) ↔
       e ∈ entries policy ∨ extra_entry profile e.
Proof.
  intros Hk. unfold effective_file_system_sandbox_policy, extra_entry.
  setoid_rewrite <- (λ p, proj1 (roots_grants profile p)).
  setoid_rewrite <- (λ p, proj2 (roots_grants profile p)).
  destruct (additional_permission_roots profile) as [reads writes]. cbn [fst snd].
  destruct (_ && _) eqn:E.
  - apply andb_true_iff in E as [->%bool_decide_eq_true ->%bool_decide_eq_true].
    split; [done|]. set_solver.
  - unfold merge_file_system_policy_with_additional_permissions. rewrite Hk.
    rewrite !kind_push_entries. split; [done|]. intros e. rewrite !elem_of_push_entries.
    naive_solver.
Qed.

(** A path a profile is about, and the access it gives. *)
Definition extra_access (profile : PermissionProfile) (p : Path) (a : FileSystemAccessMode) : Prop :=
  (profile_grants profile (GrantRead p) ∧ a = AccessRead) ∨
  (profile_grants profile (GrantWrite p) ∧ a = AccessWrite).

Section Widened.
Context `{PathLaws}.
Variable cwd : Path.
Hypothesis Hcwd : normal_abs cwd = true.

Lemma effective_covers policy profile e t q :
  kind policy = KindRestricted →
  covers cwd (effective_file_system_sandbox_policy policy (Some profile)) e t q ↔
  covers cwd policy e t q ∨
  (extra_access profile t (entry_access e) ∧ e = path_entry (entry_access e) t ∧ t `prefix_of` q).
Proof.
  intros Hk. unfold covers, extra_access. rewrite (proj2 (effective_entries policy profile Hk)).
  unfold extra_entry. split.
  - intros ([He|(p & [[Hg ->]|[Hg ->]])] & Ht & Hp); [by left|right..];
      cbn in Ht; injection Ht as <-; cbn; naive_solver.
  - intros [(He & Ht & Hp)|([[Hg Ha]|[Hg Ha]] & He & Hp)]; [naive_solver|..];
      (split_and!; [right; exists t; rewrite He, Ha; naive_solver|by rewrite He|done]).
Qed.

Lemma effective_access policy profile q :
  kind policy = KindRestricted →
  let eff := effective_file_system_sandbox_policy policy (Some profile) in
  access_of cwd eff q = access_of cwd policy q ∨
  ∃ p, p `prefix_of` q ∧ extra_access profile p (access_of cwd eff q).
Proof.
  intros Hk. cbv zeta. set (eff := effective_file_system_sandbox_policy policy (Some profile)).
  destruct (access_of_governs cwd Hcwd eff q) as [(e & t & Hc & Ha & Hmax)|[Hn Ha]].
  - apply (effective_covers policy profile e t q Hk) in Hc as [Hc|(Hx & _ & Hp)];
      [|right; exists t; by rewrite <- Ha].
    left. symmetry. eapply governs_unique; [by apply access_of_governs|]. left. exists e, t.
    split_and!; [done..|]. intros e' t' Hc'. apply Hmax. apply effective_covers; [done|]. by left.
  - left. rewrite Ha. eapply governs_unique; [|by apply access_of_governs]. right. split; [|done].
    intros (e & t & Hc). apply Hn. exists e, t. apply effective_covers; [done|]. by left.
Qed.

(** A granted path has at least the granted access, unless it is denied. *)
Lemma granted_access policy profile q a :
  kind policy = KindRestricted → extra_access profile q a →
  (∀ e, e ∈ entries policy → target cwd (entry_path e) = Some q → entry_access e ≠ AccessNone) →
  let a' := access_of cwd (effective_file_system_sandbox_policy policy (Some profile)) q in
  a' ≠ AccessNone ∧ access_rank a ≤ access_rank a'.
Proof.
  intros Hk Hx Hdeny. cbv zeta.
  set (eff := effective_file_system_sandbox_policy policy (Some profile)).
  assert (Hextra : covers cwd eff (path_entry a q) q q).
  { apply effective_covers; [done|]. by right. }
  destruct (access_of_governs cwd Hcwd eff q) as [(e & t & Hc & Ha & Hmax)|[Hn _]];
    [|by destruct Hn; eauto].
  destruct (Hmax _ _ Hextra) as [Hqt Hrank].
  assert (t = q) as ->.
  { destruct Hc as (_ & _ & Htq). by apply (anti_symm prefix). }
  specialize (Hrank eq_refl). split; [|done]. rewrite <- Ha.
  apply (effective_covers policy profile e q q Hk) in Hc as [(He & Ht & _)|([[_ ->]|[_ ->]] & _)];
    [by apply Hdeny|done..].
Qed.
End Widened.

(** What the entries of a policy and the paths of a profile say together: an
    access for a path. *)
Definition joint_rule `{PathEnv} (cwd : Path) (policy : FileSystemSandboxPolicy) (profile : PermissionProfile)
    (t : Path) (a : FileSystemAccessMode) : Prop :=
  (∃ e, e ∈ entries policy ∧ target cwd (entry_path e) = Some t ∧ entry_access e = a) ∨
  extra_access profile t a.

(** The access of the rule with the longest path above [q], [none] before
    [write] before [read] among those for one path; [none] without a rule. *)
Definition most_specific (rule : Path → FileSystemAccessMode → Prop) (q : Path)
    (a : FileSystemAccessMode) : Prop :=
  (∃ t, rule t a ∧ t `prefix_of` q ∧
     ∀ t' a', rule t' a' → t' `prefix_of` q →
       t' `prefix_of` t ∧ (t' = t → access_rank a' ≤ access_rank a)) ∨
  ((¬ ∃ t a', rule t a' ∧ t `prefix_of` q) ∧ a = AccessNone).

Lemma effective_most_specific `{PathLaws} cwd policy profile q a :
  kind policy = KindRestricted →
  governs cwd (effective_file_system_sandbox_policy policy (Some profile)) q a ↔
  most_specific (joint_rule cwd policy profile) q a.
Proof.
  intros Hk. set (eff := effective_file_system_sandbox_policy policy (Some profile)).
  assert (Hcov : ∀ t b, (∃ e, covers cwd eff e t q ∧ entry_access e = b) ↔
    joint_rule cwd policy profile t b ∧ t `prefix_of` q).
  { intros t b. unfold joint_rule. split.
    - intros (e & Hc & <-). apply (effective_covers cwd policy profile e t q Hk) in Hc
        as [(He & Ht & Hp)|(Hx & _ & Hp)]; (split; [|done]); [left; by exists e|by right].
    - intros [[(e & He & Ht & <-)|Hx] Hp].
      + exists e. split; [|done]. apply effective_covers; [done|]. by left.
      + exists (path_entry b t). split; [|done]. apply effective_covers; [done|]. by right. }
  unfold governs, most_specific. split.
  - intros [(e & t & Hc & Ha & Hmax)|[Hn ->]]; [left|right].
    + exists t. destruct (proj1 (Hcov t a)) as [Hr Hp]; [by exists e|]. split_and!; [done..|].
      intros t' a' Hr' Hp'. destruct (proj2 (Hcov t' a')) as (e' & Hc' & <-); [done|]. by apply Hmax.
    + split; [|done]. intros (t & b & Hr). apply Hn. destruct (proj2 (Hcov t b)) as (e & Hc & _); eauto.
  - intros [(t & Hr & Hp & Hmax)|[Hn ->]]; [left|right].
    + destruct (proj2 (Hcov t a)) as (e & Hc & Ha); [done|]. exists e, t. split_and!; [done..|].
      intros e' t' Hc'. destruct (proj1 (Hcov t' (entry_access e'))) as [Hr' Hp']; [by exists e'|].
      by apply Hmax.
    + split; [|done]. intros (e & t & Hc). apply Hn. exists t, (entry_access e). apply Hcov. by exists e.
Qed.

(** C35: additional permissions widen the file system policy of a restricted
    command.  The access of a normal absolute path is the most specific one of
    the policy's entries and the profile's paths taken together, so that an
    entry that denies a path below a requested one still does.  Hence what could
    be read can be read; what could be written can be written, unless the
    request has a readable path above it; a requested path gets the requested
    access unless an entry denies that very path; and away from the requested
    paths nothing changes. *)
Theorem additional_permissions_widen `{PathLaws} (policy : FileSystemSandboxPolicy)
    (profile : PermissionProfile) (cwd q : Path) :
  normal_abs cwd = true → normal_abs q = true → kind policy = KindRestricted →
  let eff := effective_file_system_sandbox_policy policy (Some profile) in
  let denied := ∃ e, e ∈ entries policy ∧ target cwd (entry_path e) = Some q
                     ∧ entry_access e = AccessNone in
  (∀ a, resolve_access_with_cwd eff q cwd = Ok a ↔
        most_specific (joint_rule cwd policy profile) q a) ∧
  (can_read_path_with_cwd policy q cwd = Ok true → can_read_path_with_cwd eff q cwd = Ok true) ∧
  (can_write_path_with_cwd policy q cwd = Ok true →
     can_write_path_with_cwd eff q cwd = Ok true ∨
     ∃ p, profile_grants profile (GrantRead p) ∧ p `prefix_of` q) ∧
  (¬ denied → profile_grants profile (GrantRead q) → can_read_path_with_cwd eff q cwd = Ok true) ∧
  (¬ denied → profile_grants profile (GrantWrite q) → can_write_path_with_cwd eff q cwd = Ok true) ∧
  ((∀ p, profile_grants profile (GrantRead p) ∨ profile_grants profile (GrantWrite p) →
      ¬ p `prefix_of` q) →
   resolve_access_with_cwd eff q cwd = resolve_access_with_cwd policy q cwd).
Proof.
  intros Hcwd Hq Hk. cbv zeta.
  pose proof (proj1 (effective_entries policy profile Hk)) as Hk'.
  rewrite !can_read_normal, !can_write_normal, !access_normal by done.
  pose proof (effective_access cwd Hcwd policy profile q Hk) as Heff. cbv zeta in Heff.
  assert (Hgrant : ∀ a, extra_access profile q a →
    ¬ (∃ e, e ∈ entries policy ∧ target cwd (entry_path e) = Some q ∧ entry_access e = AccessNone) →
    let a' := access_of cwd (effective_file_system_sandbox_policy policy (Some profile)) q in
    a' ≠ AccessNone ∧ access_rank a ≤ access_rank a').
  { intros a Ha Hd. apply granted_access; [done..|]. intros e He Ht Hn. apply Hd. eauto. }
  cbv zeta in Hgrant. set (a' := access_of cwd _ q) in Heff, Hgrant |- *.
  set (a := access_of cwd policy q) in *. unfold extra_access in *. split_and!.
  - intros b. rewrite <-effective_most_specific by done.
    pose proof (access_of_governs cwd Hcwd (effective_file_system_sandbox_policy policy (Some profile)) q) as Hg.
    split; [by intros [= <-]|]. intros Hb. f_equal. by eapply governs_unique.
  - destruct Heff as [->|(p & _ & [[_ ->]|[_ ->]])]; done.
  - destruct Heff as [->|(p & Hp & [[Hg _]|[_ ->]])]; [by left|right; eauto|by left].
  - intros Hd Hg. destruct (Hgrant AccessRead) as [Hn _]; [naive_solver|done|]. by destruct a'.
  - intros Hd Hg. destruct (Hgrant AccessWrite) as [Hn Hr]; [naive_solver|done|].
    destruct a'; [simpl in Hr; lia|done|done].
  - intros Haway. destruct Heff as [->|(p & Hp & [[Hg _]|[Hg _]])]; [done|..];
      exfalso; apply (Haway p); auto.
Qed.

(** The sandbox of the first attempt.  On Linux and macOS a tool that leaves
    the choice to the engine runs outside the platform sandbox exactly when no
    managed network requirements are in force and either the file system is
    guarded by an external sandbox, or the network is open and the policy lets
    the whole disk be written. *)
Theorem select_initial_spec (os : target_os) (policy : FileSystemSandboxPolicy)
    (network : NetworkSandboxPolicy) (level : WindowsSandboxLevel) (managed : bool) :
  os = linux ∨ os = Safety.macos →
  select_initial os policy network Auto level managed = SandboxNone ↔
  managed = false ∧
  (kind policy = KindExternalSandbox ∨
   (network = NetworkEnabled ∧ has_full_disk_write_access policy = true)).
Proof.
  unfold select_initial, should_require_platform_sandbox, has_full_disk_write_access.
  intros Hos. destruct managed.
  { split; [|naive_solver]. destruct Hos as [-> | ->]; done. }
  destruct network, (kind policy),
    (has_root_access policy access_can_write && negb (has_write_narrowing_entries policy));
    destruct Hos as [-> | ->]; cbn; naive_solver.
Qed.

(** ** Applications of the theorems *)
Definition sample_profile : PermissionProfile := {|
  network := None;
  file_system := Some {| read := None; write := Some [path_of_str (lit "/data")] |};
  macos := None;
|}.

Lemma additional_permissions_widen_witness :
  can_write_path_with_cwd sample_policy (path_of_str (lit "/data")) sample_cwd = Ok false ∧
  can_write_path_with_cwd (effective_file_system_sandbox_policy sample_policy (Some sample_profile))
    (path_of_str (lit "/data")) sample_cwd = Ok true.
Proof.
  split; [vm_compute; reflexivity|].
  apply (additional_permissions_widen sample_policy sample_profile sample_cwd
    (path_of_str (lit "/data"))); [vm_compute; reflexivity..| |].
  - intros (e & He & Ht & Ha). cbn [sample_policy entries restricted] in He.
    rewrite !elem_of_cons, elem_of_nil in He.
    destruct He as [->|[->|[->|[->|[]]]]]; vm_compute in Ht, Ha; discriminate.
  - right; left. vm_compute. left.
Defined.

Lemma select_initial_witness :
  select_initial linux default_file_system_policy NetworkEnabled Auto Disabled false ≠ SandboxNone.
Proof.
  intros E. apply (select_initial_spec linux default_file_system_policy NetworkEnabled Disabled false
    (or_introl eq_refl)) in E. vm_compute in E. destruct E as [_ [E|[_ E]]]; discriminate.
Defined.

(** A profile that asks to read a directory inside a writable one takes the
    permission to write it away: the read entry is the more specific one. *)
Example extra_read_removes_write :
  let docs := sample_cwd ++ [Normal (lit "docs")] in
  let profile := {| network := None; file_system := Some {| read := Some [docs]; write := None |};
                    macos := None |} in
  can_write_path_with_cwd sample_policy docs sample_cwd = Ok true ∧
  can_write_path_with_cwd (effective_file_system_sandbox_policy sample_policy (Some profile))
    docs sample_cwd = Ok false.
Proof. split; vm_compute; reflexivity. Qed.
