(* ===== verification/Orchestrator.v ===== *)
(** * Approvals and attempts of tool calls: [core/src/tools/orchestrator.rs],
      [core/src/tools/sandboxing.rs]

    Every tool that runs a command goes through [ToolOrchestrator::run]: ask if
    needed, choose a sandbox, run, and after a denial by the sandbox possibly
    ask again and run without one.  The code is a program over the events it
    exchanges with the tool, the user and the network approval service; its
    traces hold the events with the answers to them.  A tool is an instance of
    the class [ToolRuntime]. *)
From stdpp Require Import base tactics option list sets numbers strings gmap.
From S2P Require Import Prelude RustStr NetworkProxy Paths Permissions Safety BashParse.
From S2P Require Import CommandSafety ExecPolicy ExecApproval Sandboxing.
From stdpp Require Import list.

(** ** Data *)
Inductive NetworkApprovalProtocol : Type := ApprovalHttp | ApprovalHttps | ApprovalSocks5Tcp | ApprovalSocks5Udp.

Record NetworkApprovalContext : Type := {
  context_host : str;
  context_protocol : NetworkApprovalProtocol;
}.

Inductive NetworkPolicyRuleAction : Type := ActionAllow | ActionDeny.

Record NetworkPolicyAmendment : Type := {
  amendment_host : str;
  action : NetworkPolicyRuleAction;
}.

Inductive ReviewDecision : Type :=
  | Approved
  | ApprovedExecpolicyAmendment (proposed_execpolicy_amendment : ExecPolicyAmendment)
  | ApprovedForSession
  | NetworkPolicyAmendment_ (network_policy_amendment : NetworkPolicyAmendment)
  | Denied
  | Abort_.

Record NetworkPolicyDecisionPayload : Type := {
  payload_decision : NetworkPolicyDecision;
  payload_source : NetworkDecisionSource;
  payload_protocol : option NetworkApprovalProtocol;
  payload_host : option str;
  payload_reason : option str;
  payload_port : option Z;
}.

Inductive SandboxOverride : Type := NoOverride | BypassSandboxFirstAttempt.

Inductive NetworkApprovalMode : Type := Immediate | Deferred.

(** [network] of the specification: whether the tool has a proxy. *)
Record NetworkApprovalSpec : Type := {
  spec_network : bool;
  spec_mode : NetworkApprovalMode;
}.

Record ActiveNetworkApproval : Type := {
  registration_id : option str;
  mode : NetworkApprovalMode;
}.

Record DeferredNetworkApproval : Type := { deferred_registration_id : str }.

Inductive NetworkApprovalOutcome : Type := DeniedByUser | DeniedByPolicy (message : str).

Record SandboxAttempt : Type := {
  attempt_sandbox : SandboxType;
  attempt_policy : SandboxPolicy;
  attempt_file_system_policy : FileSystemSandboxPolicy;
  attempt_network_policy : NetworkSandboxPolicy;
  attempt_enforce_managed_network : bool;
  sandbox_cwd : Path;
  attempt_codex_linux_sandbox_exe : option str;
  attempt_use_legacy_landlock : bool;
  attempt_windows_sandbox_level : WindowsSandboxLevel;
  attempt_windows_sandbox_private_desktop : bool;
}.

(** What the orchestrator reads of the turn. *)
Record TurnContext : Type := {
  turn_sandbox_policy : SandboxPolicy;
  turn_file_system_sandbox_policy : FileSystemSandboxPolicy;
  turn_network_sandbox_policy : NetworkSandboxPolicy;
  turn_windows_sandbox_level : WindowsSandboxLevel;
  turn_windows_sandbox_private_desktop : bool;
  turn_cwd : Path;
  turn_codex_linux_sandbox_exe : option str;
  turn_use_legacy_landlock : bool;
  has_managed_network_requirements : bool;
  routes_approval_to_guardian : bool;
  target : target_os;
}.

(** ** Approval helpers *)
Definition is_ask_from_decider (self : NetworkPolicyDecisionPayload) : bool :=
  match payload_decision self, payload_source self with
  | DecisionAsk, Decider => true
  | _, _ => false
  end.

Definition network_approval_context_from_payload (payload : NetworkPolicyDecisionPayload) :
    option NetworkApprovalContext :=
  if negb (is_ask_from_decider payload) then None
  else match payload_protocol payload, payload_host payload with
       | Some protocol, Some host =>
           let host := trim host in
           if bool_decide (host = []) then None
           else Some {| context_host := host; context_protocol := protocol |}
       | _, _ => None
       end.

Definition proposed_execpolicy_amendment (self : ExecApprovalRequirement) :
    option ExecPolicyAmendment :=
  match self with
  | NeedsApproval _ (Some prefix) => Some prefix
  | Skip _ (Some prefix) => Some prefix
  | _ => None
  end.

Definition default_exec_approval_requirement (policy : AskForApproval)
    (file_system_sandbox_policy : FileSystemSandboxPolicy) : ExecApprovalRequirement :=
  let needs_approval :=
    match policy with
    | Never | OnFailure => false
    | OnRequest | Granular _ =>
        match kind file_system_sandbox_policy with KindRestricted => true | _ => false end
    | UnlessTrusted => true
    end in
  if needs_approval
     && match policy with
        | Granular granular_config => negb (allows_sandbox_approval granular_config)
        | _ => false
        end
  then RequirementForbidden (lit "approval policy disallowed sandbox approval prompt")
  else if needs_approval then NeedsApproval None None
  else Skip false None.

Definition sandbox_override_for_first_attempt (sandbox_permissions : SandboxPermissions)
    (exec_approval_requirement : ExecApprovalRequirement) : SandboxOverride :=
  if requires_escalated_permissions sandbox_permissions
     || match exec_approval_requirement with Skip true _ => true | _ => false end
  then BypassSandboxFirstAttempt else NoOverride.

(** The default methods of [Approvable]. *)
Definition default_should_bypass_approval (policy : AskForApproval) (already_approved : bool) : bool :=
  if already_approved then true else match policy with Never => true | _ => false end.

Definition default_wants_no_sandbox_approval (policy : AskForApproval) : bool :=
  match policy with
  | OnFailure => true
  | UnlessTrusted => true
  | Never => false
  | OnRequest => false
  | Granular granular_config => sandbox_approval granular_config
  end.

Definition GUARDIAN_REJECTION_MESSAGE : str :=
  lit "This action was rejected due to unacceptable risk. The agent must not attempt to achieve the same outcome via workaround, indirect execution, or policy circumvention. Proceed only with a materially safer alternative, or if the user explicitly approves the action after being informed of the risk. Otherwise, stop and request user input.".

(** ** Tools *)
Section Orchestrator.
(** The output of a command, and the errors of [CodexErr] other than a denial. *)
Context {Output Out Other : Type}.

Inductive ToolError : Type :=
  | Rejected (reason : str)
  | SandboxDenied (output : Output) (network_policy_decision : option NetworkPolicyDecisionPayload)
  | CodexOther (err : Other).

Class ToolRuntime (Req : Type) : Type := {
  exec_approval_requirement : Req → option ExecApprovalRequirement;
  sandbox_mode_for_first_attempt : Req → SandboxOverride;
  should_bypass_approval : AskForApproval → bool → bool;
  wants_no_sandbox_approval : AskForApproval → bool;
  sandbox_preference : SandboxablePreference;
  escalate_on_failure : bool;
  network_approval_spec : Req → option NetworkApprovalSpec;
}.

(** What the implementations of the trait have in common. *)
Class ToolRuntimeLaws (Req : Type) `{ToolRuntime Req} : Prop := {
  never_retries : wants_no_sandbox_approval Never = false;
  bypass_approved policy b :
    should_bypass_approval policy b = true → b = true ∨ policy = Never;
}.

(** ** Programs *)
Inductive event : Type → Type :=
  | StartApproval (retry_reason : option str)
      (network_approval_context : option NetworkApprovalContext) : event ReviewDecision
  | RegisterCall : event str
  | RunTool (attempt : SandboxAttempt) : event (Out + ToolError)
  | TakeCallOutcome (registration_id : str) : event (option NetworkApprovalOutcome)
  | UnregisterCall (registration_id : str) : event unit.

Inductive prog (A : Type) : Type :=
  | Ret (a : A)
  | Vis {X : Type} (e : event X) (k : X → prog A).
Arguments Ret {A} a.
Arguments Vis {A X} e k.

Fixpoint prog_bind {A B} (p : prog A) (f : A → prog B) : prog B :=
  match p with
  | Ret a => f a
  | Vis e k => Vis e (λ x, prog_bind (k x) f)
  end.

#[local] Instance prog_MRet : MRet prog := @Ret.
#[local] Instance prog_MBind : MBind prog := λ A B f p, prog_bind p f.

Definition trigger {X} (e : event X) : prog X := Vis e Ret.

(** An event with the answer to it. *)
Inductive obs : Type :=
  | Asked (retry_reason : option str) (ctx : option NetworkApprovalContext) (d : ReviewDecision)
  | Registered (id : str)
  | Ran (attempt : SandboxAttempt) (r : Out + ToolError)
  | Took (id : str) (o : option NetworkApprovalOutcome)
  | Unregistered (id : str).

Definition obs_of {X} (e : event X) : X → obs :=
  match e with
  | StartApproval r c => λ d, Asked r c d
  | RegisterCall => λ id, Registered id
  | RunTool a => λ r, Ran a r
  | TakeCallOutcome id => λ o, Took id o
  | UnregisterCall id => λ _, Unregistered id
  end.

(** The program can show this trace and return this value. *)
Fixpoint runs {A} (p : prog A) (tr : list obs) (a : A) : Prop :=
  match p with
  | Ret b => tr = [] ∧ b = a
  | Vis e k => ∃ x tr', tr = obs_of e x :: tr' ∧ runs (k x) tr' a
  end.

(** ** The network approval of an attempt *)
Definition begin_network_approval (has_managed_network_requirements : bool)
    (spec : option NetworkApprovalSpec) : prog (option ActiveNetworkApproval) :=
  match spec with
  | None => mret None
  | Some spec =>
      if negb has_managed_network_requirements || negb (spec_network spec) then mret None
      else
        registration_id ← trigger RegisterCall;
        mret (Some {| registration_id := Some registration_id; mode := spec_mode spec |})
  end.

(** [None] is [Ok(())]. *)
Definition finish_immediate_network_approval (active : ActiveNetworkApproval) :
    prog (option ToolError) :=
  match registration_id active with
  | None => mret None
  | Some registration_id =>
      approval_outcome ← trigger (TakeCallOutcome registration_id);
      _ ← trigger (UnregisterCall registration_id);
      mret (match approval_outcome with
            | Some DeniedByUser => Some (Rejected (lit "rejected by user"))
            | Some (DeniedByPolicy message) => Some (Rejected message)
            | None => None
            end)
  end.

Definition into_deferred (self : ActiveNetworkApproval) : option DeferredNetworkApproval :=
  match mode self, registration_id self with
  | Deferred, Some registration_id => Some {| deferred_registration_id := registration_id |}
  | _, _ => None
  end.

Definition finish_deferred_network_approval (deferred : option DeferredNetworkApproval) :
    prog unit :=
  match deferred with
  | None => mret tt
  | Some deferred => trigger (UnregisterCall (deferred_registration_id deferred))
  end.

Section Run.
Context {Req : Type} `{ToolRuntime Req}.

Definition run_attempt (req : Req) (attempt : SandboxAttempt)
    (has_managed_network_requirements : bool) :
    prog ((Out + ToolError) * option DeferredNetworkApproval) :=
  network_approval ← begin_network_approval has_managed_network_requirements
                       (network_approval_spec req);
  run_result ← trigger (RunTool attempt);
  match network_approval with
  | None => mret (run_result, None)
  | Some network_approval =>
      match mode network_approval with
      | Immediate =>
          finalize_result ← finish_immediate_network_approval network_approval;
          match finalize_result with
          | Some err => mret (inr err, None)
          | None => mret (run_result, None)
          end
      | Deferred =>
          let deferred := into_deferred network_approval in
          match run_result with
          | inr _ =>
              _ ← finish_deferred_network_approval deferred;
              mret (run_result, None)
          | inl _ => mret (run_result, deferred)
          end
      end
  end.

(** The match on a decision, which [run] has twice: the reason of a rejection,
    or [None] to go on. *)
Definition rejection_reason (routes_to_guardian : bool) (decision : ReviewDecision) : option str :=
  match decision with
  | Denied | Abort_ =>
      Some (if routes_to_guardian then GUARDIAN_REJECTION_MESSAGE else lit "rejected by user")
  | Approved | ApprovedExecpolicyAmendment _ | ApprovedForSession => None
  | NetworkPolicyAmendment_ network_policy_amendment =>
      match action network_policy_amendment with
      | ActionAllow => None
      | ActionDeny => Some (lit "rejected by user")
      end
  end.

Record OrchestratorRunResult : Type := {
  output : Out;
  deferred_network_approval : option DeferredNetworkApproval;
}.

Definition build_denial_reason_from_output (output : Output) : str :=
  lit "command failed; retry without sandbox?".

Definition attempt_for (turn_ctx : TurnContext) (sandbox : SandboxType) (exe : option str) :
    SandboxAttempt := {|
  attempt_sandbox := sandbox;
  attempt_policy := turn_sandbox_policy turn_ctx;
  attempt_file_system_policy := turn_file_system_sandbox_policy turn_ctx;
  attempt_network_policy := turn_network_sandbox_policy turn_ctx;
  attempt_enforce_managed_network := has_managed_network_requirements turn_ctx;
  sandbox_cwd := turn_cwd turn_ctx;
  attempt_codex_linux_sandbox_exe := exe;
  attempt_use_legacy_landlock := turn_use_legacy_landlock turn_ctx;
  attempt_windows_sandbox_level := turn_windows_sandbox_level turn_ctx;
  attempt_windows_sandbox_private_desktop := turn_windows_sandbox_private_desktop turn_ctx;
|}.

(** Approval: [inl already_approved], or [inr] the error to return. *)
Definition initial_approval (req : Req) (turn_ctx : TurnContext)
    (approval_policy : AskForApproval) : prog (bool + ToolError) :=
  match default (default_exec_approval_requirement approval_policy
                   (turn_file_system_sandbox_policy turn_ctx))
          (exec_approval_requirement req) with
  | Skip _ _ => mret (inl false)
  | RequirementForbidden reason => mret (inr (Rejected reason))
  | NeedsApproval reason _ =>
      decision ← trigger (StartApproval reason None);
      mret (match rejection_reason (routes_approval_to_guardian turn_ctx) decision with
            | Some reason => inr (Rejected reason)
            | None => inl true
            end)
  end.

Definition initial_sandbox (req : Req) (turn_ctx : TurnContext) : SandboxType :=
  match sandbox_mode_for_first_attempt req with
  | BypassSandboxFirstAttempt => SandboxNone
  | NoOverride =>
      select_initial (target turn_ctx) (turn_file_system_sandbox_policy turn_ctx)
        (turn_network_sandbox_policy turn_ctx) sandbox_preference
        (turn_windows_sandbox_level turn_ctx) (has_managed_network_requirements turn_ctx)
  end.

(** The case of a denial: ask again if needed and run without a sandbox. *)
Definition retry_after_denial (req : Req) (turn_ctx : TurnContext)
    (approval_policy : AskForApproval) (already_approved : bool) (denied_output : Output)
    (network_policy_decision : option NetworkPolicyDecisionPayload) :
    prog (OrchestratorRunResult + ToolError) :=
  let managed := has_managed_network_requirements turn_ctx in
  let denied := inr (SandboxDenied denied_output network_policy_decision) in
  let network_approval_context :=
    if managed then network_policy_decision ≫= network_approval_context_from_payload else None in
  if negb (is_none network_policy_decision) && is_none network_approval_context then mret denied
  else if negb escalate_on_failure then mret denied
  else
    let allow_on_request_network_prompt :=
      match approval_policy with OnRequest => true | _ => false end
      && negb (is_none network_approval_context)
      && match default_exec_approval_requirement approval_policy
                 (turn_file_system_sandbox_policy turn_ctx) with
         | NeedsApproval _ _ => true
         | _ => false
         end in
    if negb (wants_no_sandbox_approval approval_policy) && negb allow_on_request_network_prompt
    then mret denied
    else
      let retry_reason :=
        match network_approval_context with
        | Some ctx => lit "Network access to " ++ [34%N] ++ context_host ctx ++ [34%N]
                      ++ lit " is blocked by policy."
        | None => build_denial_reason_from_output denied_output
        end in
      let bypass_retry_approval :=
        should_bypass_approval approval_policy already_approved
        && is_none network_approval_context in
      rejected ←
        (if negb bypass_retry_approval then
           decision ← trigger (StartApproval (Some retry_reason) network_approval_context);
           mret (rejection_reason (routes_approval_to_guardian turn_ctx) decision)
         else mret None);
      match rejected with
      | Some reason => mret (inr (Rejected reason))
      | None =>
          retry ← run_attempt req (attempt_for turn_ctx SandboxNone None) managed;
          mret (match retry with
                | (inl out, deferred) =>
                    inl {| output := out; deferred_network_approval := deferred |}
                | (inr err, _) => inr err
                end)
      end.

Definition run (req : Req) (turn_ctx : TurnContext) (approval_policy : AskForApproval) :
    prog (OrchestratorRunResult + ToolError) :=
  approval ← initial_approval req turn_ctx approval_policy;
  match approval with
  | inr err => mret (inr err)
  | inl already_approved =>
      first ← run_attempt req
                (attempt_for turn_ctx (initial_sandbox req turn_ctx)
                   (turn_codex_linux_sandbox_exe turn_ctx))
                (has_managed_network_requirements turn_ctx);
      match first with
      | (inl out, first_deferred_network_approval) =>
          mret (inl {| output := out;
                       deferred_network_approval := first_deferred_network_approval |})
      | (inr (SandboxDenied denied_output network_policy_decision), _) =>
          retry_after_denial req turn_ctx approval_policy already_approved denied_output
            network_policy_decision
      | (inr err, _) => mret (inr err)
      end
  end.

(** ** Traces *)
Lemma runs_bind {A B} (p : prog A) (f : A → prog B) tr b :
  runs (p ≫= f) tr b ↔ ∃ tr1 tr2 a, tr = tr1 ++ tr2 ∧ runs p tr1 a ∧ runs (f a) tr2 b.
Proof.
  change (p ≫= f) with (prog_bind p f).
  revert tr; induction p as [a|X e k IH]; intros tr; cbn [prog_bind runs].
  - split; [by exists [], tr, a|]. by intros (? & ? & ? & -> & [-> ->] & ?).
  - setoid_rewrite IH. split.
    + intros (x & tr' & -> & tr1 & tr2 & a & -> & ? & ?). exists (obs_of e x :: tr1), tr2, a.
      split_and!; [done| |done]. by exists x, tr1.
    + intros (? & tr2 & a & -> & (x & tr1 & -> & ?) & ?). exists x, (tr1 ++ tr2).
      split; [done|]. by exists tr1, tr2, a.
Qed.

Lemma runs_trigger {X} (e : event X) tr x : runs (trigger e) tr x ↔ tr = [obs_of e x].
Proof. cbn. split; [by intros (? & ? & -> & -> & ->)|]. intros ->. eauto. Qed.

Lemma runs_ret {A} (a b : A) tr : runs (mret a) tr b ↔ tr = [] ∧ a = b.
Proof. done. Qed.

(** Neither a question nor an attempt. *)
Definition quiet (o : obs) : Prop :=
  match o with Asked _ _ _ | Ran _ _ => False | _ => True end.

Definition attempts (tr : list obs) : list (SandboxAttempt * (Out + ToolError)) :=
  omap (λ o, match o with Ran a r => Some (a, r) | _ => None end) tr.

(** The answers that let a call go on. *)
Definition approves (d : ReviewDecision) : bool :=
  match d with
  | Approved | ApprovedExecpolicyAmendment _ | ApprovedForSession => true
  | NetworkPolicyAmendment_ a => match action a with ActionAllow => true | ActionDeny => false end
  | Denied | Abort_ => false
  end.

(** Somebody has agreed. *)
Definition approved_in (tr : list obs) : Prop :=
  ∃ reason ctx d, Asked reason ctx d ∈ tr ∧ approves d = true.

Definition is_denial (r : Out + ToolError) : bool :=
  match r with inr (SandboxDenied _ _) => true | _ => false end.

Lemma rejection_approves b d : rejection_reason b d = None ↔ approves d = true.
Proof. unfold approves. destruct d as [| | |[? []]| |], b; simpl; done. Qed.

Lemma begin_quiet m spec tr x : runs (begin_network_approval m spec) tr x → Forall quiet tr.
Proof.
  unfold begin_network_approval. destruct spec as [spec|]; [|by intros [-> _]].
  destruct (_ || _); [by intros [-> _]|].
  intros (? & ? & ? & -> & ->%runs_trigger & [-> _])%runs_bind. by repeat constructor.
Qed.

Lemma finish_immediate_quiet active tr x :
  runs (finish_immediate_network_approval active) tr x →
  Forall quiet tr ∧ ∀ err, x = Some err → ∃ reason, err = Rejected reason.
Proof.
  unfold finish_immediate_network_approval. destruct (registration_id active) as [id|];
    [|by intros [-> <-]].
  intros (? & ? & o & -> & ->%runs_trigger & Hr)%runs_bind.
  apply runs_bind in Hr as (? & ? & [] & -> & ->%runs_trigger & [-> <-]).
  split; [by repeat constructor|]. destruct o as [[]|]; naive_solver.
Qed.

Lemma finish_deferred_quiet d tr x :
  runs (finish_deferred_network_approval d) tr x → Forall quiet tr.
Proof.
  destruct d as [d|]; [|by intros [-> _]]. intros ->%runs_trigger. by repeat constructor.
Qed.

(** An attempt runs the tool once, and returns its result unless the network
    approval of the attempt was refused. *)
Lemma attempt_trace req at_ m tr r d :
  runs (run_attempt req at_ m) tr (r, d) →
  ∃ pre r0 post, tr = pre ++ Ran at_ r0 :: post ∧ Forall quiet pre ∧ Forall quiet post ∧
    (r = r0 ∨ ∃ reason, r = inr (Rejected reason)).
Proof.
  intros (pre & ? & na & -> & Hpre%begin_quiet & Hr)%runs_bind.
  apply runs_bind in Hr as (? & post & r0 & -> & ->%runs_trigger & Hr).
  exists pre, r0, post. split; [done|]. split; [done|].
  destruct na as [na|]; [|by destruct Hr as [-> [= <- _]]; auto].
  destruct (mode na).
  - apply runs_bind in Hr as (p1 & p2 & [err|] & -> & [Hq He]%finish_immediate_quiet & [-> Hr]);
      injection Hr as <- _; rewrite app_nil_r; split; auto.
    right. destruct (He err eq_refl) as [reason ->]. eauto.
  - destruct r0 as [out|err]; [by destruct Hr as [-> [= <- _]]; auto|].
    apply runs_bind in Hr as (p1 & p2 & [] & -> & Hq%finish_deferred_quiet & [-> Hr]).
    injection Hr as <- _. rewrite app_nil_r. auto.
Qed.

(** The second attempt, with what comes before it. *)
Lemma attempts_second tr f1 f2 l :
  attempts tr = f1 :: f2 :: l →
  ∃ pre a r post, tr = pre ++ Ran a r :: post ∧ attempts pre = [f1].
Proof.
  assert (Hone : ∀ tr f l, attempts tr = f :: l →
    ∃ pre a r post, tr = pre ++ Ran a r :: post ∧ attempts pre = [] ∧ (a, r) = f ∧ attempts post = l).
  { clear. induction tr as [|o tr IH]; intros f l Hl; [done|].
    destruct o as [x y z|id|a r|id o|id]; cbn in Hl; fold (attempts tr) in Hl.
    3: { injection Hl as <- <-. by exists [], a, r, tr. }
    all: destruct (IH _ _ Hl) as (pre & a & r & post & -> & Hp & Hf & Hl').
    - by exists (Asked x y z :: pre), a, r, post.
    - by exists (Registered id :: pre), a, r, post.
    - by exists (Took id o :: pre), a, r, post.
    - by exists (Unregistered id :: pre), a, r, post. }
  intros (pre & a & r & post & -> & Hp & Hf & Hl)%Hone.
  apply Hone in Hl as (pre2 & a2 & r2 & post2 & -> & Hp2 & _ & _).
  exists (pre ++ Ran a r :: pre2), a2, r2, post2. rewrite <- app_assoc. split; [done|].
  unfold attempts in *. rewrite omap_app. cbn. by rewrite Hp, Hp2, Hf.
Qed.

(** ** The monitor *)
Section Monitor.
Context (req : Req) (turn_ctx : TurnContext) (approval_policy : AskForApproval).

Definition requirement_of : ExecApprovalRequirement :=
  default (default_exec_approval_requirement approval_policy
             (turn_file_system_sandbox_policy turn_ctx)) (exec_approval_requirement req).

Definition is_skip (r : ExecApprovalRequirement) : bool :=
  match r with Skip _ _ => true | _ => false end.

(** Walks over a trace with what it has seen: an approval, the results of the
    attempts so far. *)
Fixpoint monitor (approved : bool) (ran : list (Out + ToolError)) (tr : list obs) : Prop :=
  match tr with
  | [] => True
  | Asked _ _ d :: tr => monitor (approved || approves d) ran tr
  | Ran a r :: tr =>
      match ran with
      | [] => attempt_sandbox a = initial_sandbox req turn_ctx
              ∧ (is_skip requirement_of = true ∨ approved = true)
      | [r1] => attempt_sandbox a = SandboxNone ∧ approved = true ∧ is_denial r1 = true
                ∧ escalate_on_failure = true
      | _ => False
      end ∧ monitor approved (ran ++ [r]) tr
  | _ :: tr => monitor approved ran tr
  end.

Lemma monitor_quiet approved ran pre tr :
  Forall quiet pre → monitor approved ran tr → monitor approved ran (pre ++ tr).
Proof. induction 1 as [|o pre Ho _ IH]; [done|]. intros Htr. by destruct o; try done; apply IH. Qed.

Lemma monitor_attempt approved ran m at_ tr r d rest :
  runs (run_attempt req at_ m) tr (r, d) →
  match ran with
  | [] => attempt_sandbox at_ = initial_sandbox req turn_ctx
          ∧ (is_skip requirement_of = true ∨ approved = true)
  | [r1] => attempt_sandbox at_ = SandboxNone ∧ approved = true ∧ is_denial r1 = true
            ∧ escalate_on_failure = true
  | _ => False
  end →
  (∀ r0, (r = r0 ∨ ∃ reason, r = inr (Rejected reason)) → monitor approved (ran ++ [r0]) rest) →
  monitor approved ran (tr ++ rest).
Proof.
  intros (pre & r0 & post & -> & Hpre & Hpost & Hr)%attempt_trace Hok Hrest.
  rewrite <- app_assoc. apply monitor_quiet; [done|]. cbn [app monitor]. split; [done|].
  apply monitor_quiet; [done|]. by apply Hrest.
Qed.

Lemma retry_monitor `{!ToolRuntimeLaws Req} already approved r1 out dec tr res :
  runs (retry_after_denial req turn_ctx approval_policy already out dec) tr res →
  (already = true → approved = true) → is_denial r1 = true → monitor approved [r1] tr.
Proof.
  intros Hr Hal Hd. unfold retry_after_denial in Hr. cbv zeta in Hr.
  set (ctx := if has_managed_network_requirements turn_ctx then _ else None) in Hr.
  destruct (negb (is_none dec) && is_none ctx); [by destruct Hr as [-> _]|].
  destruct escalate_on_failure eqn:Hesc; [|by destruct Hr as [-> _]]. cbn [negb] in Hr.
  destruct (negb (wants_no_sandbox_approval approval_policy) && _) eqn:Hw; [by destruct Hr as [-> _]|].
  apply runs_bind in Hr as (tr1 & tr2 & rejected & -> & Hask & Hr).
  assert (Hasked : (tr1 = [] ∧ rejected = None ∧ approved = true) ∨
    ∃ reason c d, tr1 = [Asked reason c d] ∧
      rejected = rejection_reason (routes_approval_to_guardian turn_ctx) d).
  { destruct (should_bypass_approval approval_policy already && is_none ctx) eqn:Hb;
      cbn [negb] in Hask.
    - left. destruct Hask as [-> <-]. apply andb_true_iff in Hb as [Hb Hnone].
      apply bypass_approved in Hb as [->|Hnever]; [by auto|].
      by rewrite Hnever, never_retries in Hw.
    - right. apply runs_bind in Hask as (? & ? & d & -> & ->%runs_trigger & [-> <-]).
      cbn [app obs_of]. eauto 6. }
  destruct rejected as [reason|].
  { destruct Hr as [-> _]. rewrite app_nil_r.
    destruct Hasked as [(-> & ? & _)|(? & ? & ? & -> & _)]; done. }
  apply runs_bind in Hr as (t1 & ? & [r d] & -> & Hrun & [-> _]).
  assert (Hgo : ∀ approved', approved' = true → monitor approved' [r1] (t1 ++ [])).
  { intros approved' ->. by eapply monitor_attempt. }
  destruct Hasked as [(-> & _ & ->)|(reason & c & d' & -> & Hrej)]; [by apply Hgo|].
  cbn [app monitor]. apply Hgo. symmetry in Hrej. apply rejection_approves in Hrej as ->.
  by rewrite orb_true_r.
Qed.

Lemma run_monitor `{!ToolRuntimeLaws Req} tr res :
  runs (run req turn_ctx approval_policy) tr res → monitor false [] tr.
Proof.
  intros (tr1 & tr2 & approval & -> & Hask & Hr)%runs_bind.
  assert (Hasked : (tr1 = [] ∧ (∀ b, approval = inl b → b = false ∧ is_skip requirement_of = true)) ∨
    ∃ reason d, tr1 = [Asked reason None d] ∧ (∀ b, approval = inl b → approves d = true)).
  { unfold initial_approval in Hask. fold requirement_of in Hask.
    destruct requirement_of as [b am|reason am|reason].
    - left. destruct Hask as [-> <-]. naive_solver.
    - right. apply runs_bind in Hask as (? & ? & d & -> & ->%runs_trigger & [-> <-]).
      exists reason, d. split; [done|]. intros b Hb. destruct (rejection_reason _ d) eqn:E; [done|].
      by apply rejection_approves in E.
    - left. destruct Hask as [-> <-]. naive_solver. }
  destruct approval as [already|err].
  2: { destruct Hr as [-> _]. rewrite app_nil_r.
       destruct Hasked as [[-> _]|(? & ? & -> & _)]; done. }
  assert (Hgo : ∀ approved, (already = true → approved = true) →
    is_skip requirement_of = true ∨ approved = true → monitor approved [] tr2).
  { intros approved Hal Hok. apply runs_bind in Hr as (t1 & t2 & [r d] & -> & Hrun & Hr).
    eapply monitor_attempt; [exact Hrun|by split|]. cbn [app]. intros r0 Hr0.
    destruct r as [out|[reason|out dec|err]]; try (by destruct Hr as [-> _]).
    destruct Hr0 as [<-|[? ?]]; [|done]. by eapply retry_monitor. }
  destruct Hasked as [[-> Hs]|(reason & d & -> & Ha)].
  - destruct (Hs already eq_refl) as [-> ?]. apply Hgo; auto.
  - cbn [app monitor]. rewrite (Ha already eq_refl). apply Hgo; auto.
Qed.

(** What the monitor checks at an attempt, in terms of the trace before it. *)
Lemma monitor_sound approved ran tr pre a r post :
  monitor approved ran tr → tr = pre ++ Ran a r :: post →
  let ap := approved = true ∨ approved_in pre in
  match ran ++ (snd <$> attempts pre) with
  | [] => attempt_sandbox a = initial_sandbox req turn_ctx ∧ (is_skip requirement_of = true ∨ ap)
  | [r1] => attempt_sandbox a = SandboxNone ∧ ap ∧ is_denial r1 = true
            ∧ escalate_on_failure = true
  | _ => False
  end.
Proof.
  intros Hm ->. revert approved ran Hm. induction pre as [|o pre IH]; intros approved ran Hm.
  - cbn [app] in Hm. destruct Hm as [Hm _]. cbn. rewrite app_nil_r.
    destruct ran as [|r1 []]; naive_solver.
  - assert (Hin : ∀ x, x ∈ pre → x ∈ o :: pre) by (intros; by right).
    assert (Hap : approved_in pre → approved_in (o :: pre)).
    { intros (reason & c & d & Hx & Hd). exists reason, c, d. auto. }
    destruct o as [reason c d|id|a' r'|id o|id]; cbn [app monitor] in Hm.
    2,4,5: apply IH in Hm; cbn in Hm |- *; fold (attempts pre) in Hm |- *; destruct (ran ++ _) as [|? []]; intuition auto.
    + apply IH in Hm. cbn -[orb approves attempts] in Hm |- *.
      assert (approves d = true → approved_in (Asked reason c d :: pre)).
      { intros Hd. exists reason, c, d. split; [left|done]. }
      fold (attempts pre). destruct (ran ++ _) as [|? []]; rewrite ?orb_true_iff in Hm; intuition auto.
    + destruct Hm as [_ Hm]. apply IH in Hm. rewrite <- app_assoc in Hm. cbn in Hm |- *.
      fold (attempts pre) in Hm |- *.
      destruct (ran ++ _) as [|? []]; intuition auto.
Qed.

(** Under [Never] nobody is asked, unless the requirement says so. *)
Lemma never_asks `{!ToolRuntimeLaws Req} tr res :
  runs (run req turn_ctx approval_policy) tr res → approval_policy = Never →
  (∀ reason am, requirement_of ≠ NeedsApproval reason am) →
  ∀ reason c d, Asked reason c d ∉ tr.
Proof.
  intros (tr1 & tr2 & approval & -> & Hask & Hr)%runs_bind Hnever Hreq reason c d.
  assert (tr1 = []) as ->.
  { unfold initial_approval in Hask. fold requirement_of in Hask.
    destruct requirement_of as [b am|? ?|?]; [by destruct Hask|by destruct (Hreq reason0 proposed_execpolicy_amendment0)|by destruct Hask]. }
  cbn [app]. destruct approval as [already|err]; [|destruct Hr as [-> _]; by apply not_elem_of_nil].
  apply runs_bind in Hr as (t1 & t2 & [r df] & -> & Hrun & Hr).
  assert (t2 = []) as ->.
  { destruct r as [out|[?|out dec|?]]; try (by destruct Hr).
    unfold retry_after_denial in Hr. cbv zeta in Hr.
    rewrite Hnever, never_retries in Hr.
    destruct (negb _ && _); [by destruct Hr|]. destruct escalate_on_failure; by destruct Hr. }
  rewrite app_nil_r. apply attempt_trace in Hrun as (pre & r0 & post & -> & Hpre & Hpost & _).
  rewrite Forall_forall in Hpre, Hpost.
  rewrite elem_of_app, elem_of_cons. intros [?%Hpre|[?|?%Hpost]]; done.
Qed.
End Monitor.

Lemma run_consent `{!ToolRuntimeLaws Req} (req : Req) (turn_ctx : TurnContext)
    (approval_policy : AskForApproval) tr res :
  runs (run req turn_ctx approval_policy) tr res →
  (∀ pre a r post, tr = pre ++ Ran a r :: post →
     (attempts pre = [] ∧ attempt_sandbox a = initial_sandbox req turn_ctx ∧
        (is_skip (requirement_of req turn_ctx approval_policy) = true ∨ approved_in pre)) ∨
     (∃ first, attempts pre = [first] ∧ is_denial first.2 = true ∧ escalate_on_failure = true ∧
        approved_in pre ∧ attempt_sandbox a = SandboxNone)) ∧
  (∀ reason, requirement_of req turn_ctx approval_policy = RequirementForbidden reason →
     tr = [] ∧ res = inr (Rejected reason)) ∧
  (approval_policy = Never →
   (∀ reason am, requirement_of req turn_ctx approval_policy ≠ NeedsApproval reason am) →
     (∀ reason c d, Asked reason c d ∉ tr) ∧ length (attempts tr) ≤ 1).
Proof.
  intros Hr. assert (Hm := run_monitor _ _ _ _ _ Hr).
  assert (Hfirst : ∀ pre a r post, tr = pre ++ Ran a r :: post →
     (attempts pre = [] ∧ attempt_sandbox a = initial_sandbox req turn_ctx ∧
        (is_skip (requirement_of req turn_ctx approval_policy) = true ∨ approved_in pre)) ∨
     (∃ first, attempts pre = [first] ∧ is_denial first.2 = true ∧ escalate_on_failure = true ∧
        approved_in pre ∧ attempt_sandbox a = SandboxNone)).
  { intros pre a r post Htr. pose proof (monitor_sound _ _ _ _ _ _ _ _ _ _ Hm Htr) as Hs.
    cbn [app] in Hs. destruct (attempts pre) as [|f []]; cbn in Hs; [left|right|done].
    - naive_solver.
    - exists f. naive_solver. }
  split_and!; [exact Hfirst| |].
  - intros reason Hreq. unfold run, initial_approval in Hr.
    unfold requirement_of in Hreq. rewrite Hreq in Hr. by destruct Hr as [-> <-].
  - intros Hn Hreq. assert (Hno := never_asks _ _ _ _ _ Hr Hn Hreq). split; [exact Hno|].
    destruct (attempts tr) as [|f1 [|f2 l]] eqn:E; [simpl; lia..|exfalso].
    apply attempts_second in E as (pre & a & r & post & Htr & Hpre).
    destruct (Hfirst _ _ _ _ Htr) as [[Hpre' _]|(_ & _ & _ & _ & (reason & c & d & Hin & _) & _)];
      [congruence|].
    apply (Hno reason c d). rewrite Htr, elem_of_app. by left.
Qed.

(** ** Refusals *)
(** A refusal ends the run: nothing comes after it, and [rejected] holds. *)
Fixpoint refusal_last (rejected : Prop) (tr : list obs) : Prop :=
  match tr with
  | [] => True
  | Asked _ _ d :: tr =>
      if approves d then refusal_last rejected tr else tr = [] ∧ rejected
  | _ :: tr => refusal_last rejected tr
  end.

Lemma refusal_quiet P tr1 tr2 :
  Forall quiet tr1 → refusal_last P tr2 → refusal_last P (tr1 ++ tr2).
Proof. induction 1 as [|o tr1 Ho _ IH]; [done|]. intros Htr. by destruct o; try done; apply IH. Qed.

Lemma refusal_attempt P req at_ m tr r d rest :
  runs (run_attempt req at_ m) tr (r, d) → refusal_last P rest → refusal_last P (tr ++ rest).
Proof.
  intros (pre & r0 & post & -> & Hpre & Hpost & _)%attempt_trace Hrest. rewrite <-app_assoc.
  apply refusal_quiet; [done|]. cbn [app refusal_last]. by apply refusal_quiet.
Qed.

Lemma retry_refusal req turn_ctx policy already out dec tr res :
  runs (retry_after_denial req turn_ctx policy already out dec) tr res →
  refusal_last (∃ reason, res = inr (Rejected reason)) tr.
Proof.
  intros Hr. unfold retry_after_denial in Hr. cbv zeta in Hr.
  set (ctx := if has_managed_network_requirements turn_ctx then _ else None) in Hr.
  repeat (case_match; [by destruct Hr as [-> _]|]).
  apply runs_bind in Hr as (tr1 & tr2 & rejected & -> & Hask & Hr).
  assert (Hgo : rejected = None → refusal_last (∃ reason, res = inr (Rejected reason)) tr2).
  { intros ->. apply runs_bind in Hr as (t1 & ? & [r d] & -> & Hrun & [-> _]).
    by eapply refusal_attempt. }
  destruct (negb (_ && is_none ctx)).
  - apply runs_bind in Hask as (? & ? & d & -> & ->%runs_trigger & [-> <-]). cbn [app obs_of refusal_last].
    destruct (approves d) eqn:E; [by apply Hgo, rejection_approves|].
    destruct (rejection_reason (routes_approval_to_guardian turn_ctx) d) eqn:Er.
    + destruct Hr as [-> <-]. eauto.
    + apply rejection_approves in Er. congruence.
  - destruct Hask as [-> <-]. by apply Hgo.
Qed.

Lemma run_refusal req turn_ctx policy tr res :
  runs (run req turn_ctx policy) tr res →
  refusal_last (∃ reason, res = inr (Rejected reason)) tr.
Proof.
  intros (tr1 & tr2 & approval & -> & Hask & Hr)%runs_bind.
  assert (Hgo : ∀ b, approval = inl b → refusal_last (∃ reason, res = inr (Rejected reason)) tr2).
  { intros b ->. apply runs_bind in Hr as (t1 & t2 & [r d] & -> & Hrun & Hr).
    eapply refusal_attempt; [exact Hrun|].
    destruct r as [out|[reason|out dec|err]]; try (by destruct Hr as [-> _]). by eapply retry_refusal. }
  unfold initial_approval in Hask. destruct (default _ _) as [b am|reason am|reason].
  - destruct Hask as [-> <-]. by eapply Hgo.
  - apply runs_bind in Hask as (? & ? & d & -> & ->%runs_trigger & [-> E]). cbn [app obs_of refusal_last].
    destruct (approves d) eqn:Ea.
    + destruct (rejection_reason (routes_approval_to_guardian turn_ctx) d) eqn:Er; [|by eapply Hgo].
      destruct approval; [done|]. destruct Hr as [-> _]. done.
    + destruct (rejection_reason (routes_approval_to_guardian turn_ctx) d) eqn:Er.
      * subst approval. destruct Hr as [-> <-]. eauto.
      * apply rejection_approves in Er. congruence.
  - destruct Hask as [-> <-]. by destruct Hr as [-> _].
Qed.

Lemma refusal_sound P tr pre reason c d post :
  refusal_last P tr → tr = pre ++ Asked reason c d :: post → approves d = false → post = [] ∧ P.
Proof.
  intros Hl -> Hd. induction pre as [|o pre IH]; cbn [app refusal_last] in Hl.
  - by rewrite Hd in Hl.
  - destruct o as [? ? d'| | | |]; try (by apply IH). destruct (approves d'); [by apply IH|].
    destruct Hl as [Hnil _]. by destruct pre.
Qed.

(** C13: a tool runs only with consent.  In every run of the orchestrator, an
    attempt is either the first one, and then the requirement was to skip the
    question or an approving answer came before, and it is made without a
    sandbox if the tool's request asks for that and otherwise in the sandbox
    selected for the policies; or it is the second and last one, without a
    sandbox, and then the sandbox has denied the first one, the tool escalates
    on failure, and an approving answer came before.  A refusal is the last event of the run,
    whose result is a rejection: no attempt follows one.  A forbidden call does
    nothing at all; under [Never] no question is asked unless the requirement is
    one, and then there is no second attempt. *)
Theorem attempts_need_consent `{!ToolRuntimeLaws Req} (req : Req) (turn_ctx : TurnContext)
    (approval_policy : AskForApproval) tr res :
  runs (run req turn_ctx approval_policy) tr res →
  (∀ pre a r post, tr = pre ++ Ran a r :: post →
     (attempts pre = [] ∧
        attempt_sandbox a =
          match sandbox_mode_for_first_attempt req with
          | BypassSandboxFirstAttempt => SandboxNone
          | NoOverride =>
              select_initial (target turn_ctx) (turn_file_system_sandbox_policy turn_ctx)
                (turn_network_sandbox_policy turn_ctx) sandbox_preference
                (turn_windows_sandbox_level turn_ctx) (has_managed_network_requirements turn_ctx)
          end ∧
        (is_skip (requirement_of req turn_ctx approval_policy) = true ∨ approved_in pre)) ∨
     (∃ first, attempts pre = [first] ∧ is_denial first.2 = true ∧ escalate_on_failure = true ∧
        approved_in pre ∧ attempt_sandbox a = SandboxNone)) ∧
  (∀ pre reason c d post, tr = pre ++ Asked reason c d :: post → approves d = false →
     post = [] ∧ ∃ message, res = inr (Rejected message)) ∧
  (∀ reason, requirement_of req turn_ctx approval_policy = RequirementForbidden reason →
     tr = [] ∧ res = inr (Rejected reason)) ∧
  (approval_policy = Never →
   (∀ reason am, requirement_of req turn_ctx approval_policy ≠ NeedsApproval reason am) →
     (∀ reason c d, Asked reason c d ∉ tr) ∧ length (attempts tr) ≤ 1).
Proof.
  intros Hr. destruct (run_consent _ _ _ _ _ Hr) as (H1 & H2 & H3). split_and!; [exact H1| |done..].
  intros pre reason c d post. apply refusal_sound, run_refusal with req turn_ctx approval_policy, Hr.
Qed.

(** ** The registrations of network calls *)

(** The calls registered and not yet unregistered, from [l] on. *)
Definition open_step (l : list str) (o : obs) : list str :=
  match o with
  | Registered id => id :: l
  | Unregistered id => filter (.≠ id) l
  | _ => l
  end.

Definition open_calls (tr : list obs) : list str := fold_left open_step tr [].

(** The network service has refused the access of a call. *)
Definition network_refused (tr : list obs) : Prop := ∃ id o, Took id (Some o) ∈ tr.

Lemma open_calls_app tr1 tr2 : open_calls tr1 = [] → open_calls (tr1 ++ tr2) = open_calls tr2.
Proof. unfold open_calls. rewrite fold_left_app. by intros ->. Qed.

Lemma refused_app tr1 tr2 :
  network_refused (tr1 ++ tr2) ↔ network_refused tr1 ∨ network_refused tr2.
Proof. unfold network_refused. set_solver. Qed.

Lemma open_one (id : str) : filter (.≠ id) [id] = [].
Proof. rewrite filter_cons_False; naive_solver. Qed.

(** The approval of an attempt registers at most one call. *)
Lemma begin_trace m spec tr na :
  runs (begin_network_approval m spec) tr na →
  tr = match na ≫= registration_id with Some id => [Registered id] | None => [] end ∧
  ∀ a, na = Some a → is_Some (registration_id a).
Proof.
  unfold begin_network_approval. destruct spec as [spec|]; [|by intros [-> <-]].
  destruct (_ || _); [by intros [-> <-]|].
  intros (? & ? & id & -> & ->%runs_trigger & [-> <-])%runs_bind. split; [done|].
  intros ? [= <-]. by exists id.
Qed.

Lemma finish_immediate_trace id md tr x :
  runs (finish_immediate_network_approval {| registration_id := Some id; mode := md |}) tr x →
  ∃ o, tr = [Took id o; Unregistered id] ∧
       (is_Some o → ∃ reason, x = Some (Rejected reason)) ∧ (o = None → x = None).
Proof.
  intros (? & ? & o & -> & ->%runs_trigger & Hr)%runs_bind.
  apply runs_bind in Hr as (? & ? & [] & -> & ->%runs_trigger & [-> <-]).
  exists o. split; [done|]. destruct o as [[]|]; simpl; split; intros; eauto; try done.
Qed.

Lemma attempt_open req at_ m tr r d :
  runs (run_attempt req at_ m) tr (r, d) →
  open_calls tr = option_list (deferred_registration_id <$> d) ∧
  (∀ err, r = inr err → d = None) ∧
  (network_refused tr → ∃ reason, r = inr (Rejected reason)).
Proof.
  intros (pre & ? & na & -> & [-> Hid]%begin_trace & Hr)%runs_bind.
  apply runs_bind in Hr as (? & post & r0 & -> & ->%runs_trigger & Hr). cbn [obs_of app].
  destruct na as [[oid md]|]; cycle 1.
  { destruct Hr as [-> [= <- <-]]. split_and!; [done..|]. intros (? & ? & Hin). set_solver. }
  destruct (Hid _ eq_refl) as [id Hsome]. cbn in Hsome |- *. subst oid. destruct md; cbn [mode into_deferred registration_id finish_deferred_network_approval deferred_registration_id] in Hr.
  - apply runs_bind in Hr as (p1 & p2 & x & -> & (o & -> & Ho & Hn)%finish_immediate_trace & Hr).
    assert (tr_end : p2 = []) by (destruct x; by destruct Hr). subst p2.
    split_and!.
    + unfold open_calls. cbn -[filter]. rewrite open_one. by destruct x; destruct Hr as [_ [= _ <-]].
    + by destruct x; destruct Hr as [_ [= _ <-]].
    + intros (id' & o' & Hin). assert (o = Some o') as -> by set_solver.
      destruct (Ho ltac:(eauto)) as [reason ->]. destruct Hr as [_ [= <- _]]. eauto.
  - destruct r0 as [out|err].
    + destruct Hr as [-> [= <- <-]]. split_and!; [done..|]. intros (? & ? & Hin). set_solver.
    + apply runs_bind in Hr as (p1 & p2 & [] & -> & ->%runs_trigger & [-> [= <- <-]]).
      split_and!; [|done|intros (? & ? & Hin); set_solver].
      unfold open_calls. cbn -[filter]. by rewrite open_one.
Qed.

(** What a run leaves open and how a refusal ends it, as a predicate on the
    trace and the result. *)
Definition settled (tr : list obs) (res : OrchestratorRunResult + ToolError) : Prop :=
  open_calls tr = match res with
                  | inl r => option_list (deferred_registration_id <$> deferred_network_approval r)
                  | inr _ => []
                  end ∧
  (network_refused tr → ∃ reason, res = inr (Rejected reason)).

(** Events without calls in front change nothing. *)
Lemma settled_prefix tr1 tr2 res :
  open_calls tr1 = [] → ¬ network_refused tr1 → settled tr2 res → settled (tr1 ++ tr2) res.
Proof.
  intros Ho Hn [Ho2 Hr2]. split; [by rewrite open_calls_app|]. rewrite refused_app. naive_solver.
Qed.

Lemma settled_nil err : settled [] (inr err).
Proof. split; [done|]. intros (? & ? & []%not_elem_of_nil). Qed.

Lemma empty_settled : open_calls [] = [] ∧ ¬ network_refused [].
Proof. split; [done|]. intros (? & ? & []%not_elem_of_nil). Qed.

Lemma question_settled {A} reason c (f : ReviewDecision → A) tr x :
  runs (d ← trigger (StartApproval reason c); mret (f d)) tr x →
  open_calls tr = [] ∧ ¬ network_refused tr.
Proof.
  intros (? & ? & d & -> & ->%runs_trigger & [-> <-])%runs_bind. split; [done|].
  intros (? & ? & Hin). set_solver.
Qed.

Lemma initial_approval_trace req turn_ctx policy tr x :
  runs (initial_approval req turn_ctx policy) tr x → open_calls tr = [] ∧ ¬ network_refused tr.
Proof.
  unfold initial_approval. destruct (default _ _) as [b am|reason am|reason].
  1,3: intros [-> _]; apply empty_settled.
  apply question_settled.
Qed.

(** An attempt whose result is returned settles its calls. *)
Lemma attempt_settled req at_ m tr r d :
  runs (run_attempt req at_ m) tr (r, d) →
  settled tr (match r with
              | inl out => inl {| output := out; deferred_network_approval := d |}
              | inr err => inr err
              end).
Proof.
  intros (Ho & Hd & Href)%attempt_open. split.
  - rewrite Ho. destruct r; [done|]. by rewrite (Hd _ eq_refl).
  - intros [reason ->]%Href. eauto.
Qed.

Lemma retry_settled req turn_ctx policy already out dec tr res :
  runs (retry_after_denial req turn_ctx policy already out dec) tr res → settled tr res.
Proof.
  intros Hr. unfold retry_after_denial in Hr. cbv zeta in Hr.
  set (ctx := if has_managed_network_requirements turn_ctx then _ else None) in Hr.
  repeat (case_match; [destruct Hr as [-> <-]; apply settled_nil|]).
  apply runs_bind in Hr as (tr1 & tr2 & rejected & -> & Hask & Hr).
  assert (Hq : open_calls tr1 = [] ∧ ¬ network_refused tr1).
  { destruct (negb (_ && is_none ctx)); [by eapply question_settled|].
    destruct Hask as [-> _]. apply empty_settled. }
  apply settled_prefix; [apply Hq..|].
  destruct rejected; [destruct Hr as [-> <-]; apply settled_nil|].
  apply runs_bind in Hr as (t1 & ? & [r d] & -> & Hrun%attempt_settled & [-> <-]).
  rewrite app_nil_r. by destruct r.
Qed.

(** The network registrations of a call are released.  When the
    orchestrator returns, every call it registered with the network approval
    service is unregistered, except the deferred one that a successful result
    hands to its caller; and if the service refused the access of the call in
    between, the output of the tool is not returned: the result is a rejection. *)
Theorem registrations_released (req : Req) (turn_ctx : TurnContext)
    (approval_policy : AskForApproval) tr res :
  runs (run req turn_ctx approval_policy) tr res →
  open_calls tr = match res with
                  | inl r => option_list (deferred_registration_id <$> deferred_network_approval r)
                  | inr _ => []
                  end ∧
  (network_refused tr → ∃ reason, res = inr (Rejected reason)).
Proof.
  intros (tr1 & tr2 & approval & -> & [Ho1 Hn1]%initial_approval_trace & Hr)%runs_bind.
  apply settled_prefix; [done..|].
  destruct approval as [already|err]; [|destruct Hr as [-> <-]; apply settled_nil].
  apply runs_bind in Hr as (t1 & t2 & [r d] & -> & Hrun & Hr).
  assert (Hs := attempt_settled _ _ _ _ _ _ Hrun).
  destruct r as [out|[reason|out dec|err]]; try (destruct Hr as [-> <-]; by rewrite app_nil_r).
  destruct Hs as [Ho Hn]. apply settled_prefix; [done| |by eapply retry_settled].
  intros [? ?]%Hn. done.
Qed.
End Run.
End Orchestrator.
Arguments Ret {_ _ _ _} a.
Arguments Vis {_ _ _ _ _} e k.

(** ** Applications of the theorems *)

(** A tool that has to ask and that uses the network. *)
Definition sample_tool (md : NetworkApprovalMode) : ToolRuntime unit := {|
  exec_approval_requirement _ := Some (NeedsApproval None None);
  sandbox_mode_for_first_attempt _ := NoOverride;
  should_bypass_approval := default_should_bypass_approval;
  wants_no_sandbox_approval := default_wants_no_sandbox_approval;
  sandbox_preference := Auto;
  escalate_on_failure := true;
  network_approval_spec _ := Some {| spec_network := true; spec_mode := md |};
|}.

Lemma sample_tool_laws md : @ToolRuntimeLaws unit (sample_tool md).
Proof. split; [done|]. intros [] []; cbn; auto. Qed.

Definition sample_turn : TurnContext := {|
  turn_sandbox_policy := new_workspace_write_policy;
  turn_file_system_sandbox_policy := default_file_system_policy;
  turn_network_sandbox_policy := NetworkRestricted;
  turn_windows_sandbox_level := Disabled;
  turn_windows_sandbox_private_desktop := false;
  turn_cwd := sample_cwd;
  turn_codex_linux_sandbox_exe := Some (lit "/usr/bin/codex-linux-sandbox");
  turn_use_legacy_landlock := false;
  has_managed_network_requirements := true;
  routes_approval_to_guardian := false;
  target := linux;
|}.

Definition sample_attempt (s : SandboxType) : SandboxAttempt :=
  attempt_for sample_turn s
    (match s with SandboxNone => None | _ => turn_codex_linux_sandbox_exe sample_turn end).

(** Approved, denied by the sandbox, and run again without it. *)
Definition sample_trace : list (@obs unit str unit) :=
  [Asked None None Approved;
   Registered (lit "a"); Ran (sample_attempt LinuxSeccomp) (inr (SandboxDenied tt None));
   Took (lit "a") None; Unregistered (lit "a");
   Registered (lit "b"); Ran (sample_attempt SandboxNone) (inl (lit "done"));
   Took (lit "b") (Some DeniedByUser); Unregistered (lit "b")].

Lemma sample_runs :
  @runs unit str unit _ (@run _ _ _ _ (sample_tool Immediate) tt sample_turn UnlessTrusted) sample_trace
    (inr (Rejected (lit "rejected by user"))).
Proof.
  do 9 (hnf; eexists _, _; split; [reflexivity|]). by split.
  Unshelve. all: exact tt.
Qed.

Lemma attempts_need_consent_witness :
  approved_in (take 6 sample_trace) ∧
  ∃ first, attempts (take 6 sample_trace) = [first] ∧ is_denial first.2 = true.
Proof.
  destruct (@attempts_need_consent _ _ _ _ (sample_tool Immediate) (sample_tool_laws Immediate) tt
    sample_turn UnlessTrusted _ _ sample_runs) as [Hat _].
  destruct (Hat (take 6 sample_trace) (sample_attempt SandboxNone) (inl (lit "done"))
    (drop 7 sample_trace) eq_refl) as [[Hno _]|(first & Hf & Hd & _ & Ha & _)]; [done|].
  eauto.
Defined.

Lemma registrations_released_witness : open_calls sample_trace = [] ∧ network_refused sample_trace.
Proof.
  destruct (@registrations_released _ _ _ _ (sample_tool Immediate) tt sample_turn UnlessTrusted
    _ _ sample_runs) as [Ho _].
  split; [exact Ho|]. exists (lit "b"), DeniedByUser. unfold sample_trace. set_solver.
Defined.
