(* ===== verification/ApprovalCache.v ===== *)
(** * Approvals remembered for a session: [core/src/tools/sandboxing.rs]

    [ApprovalStore] and [with_cached_approval].  The function holds the lock of
    the store twice, around its look-up and around its update, and asks the user
    in between, so calls of several tools interleave: the step relation [step]
    has the two critical sections as steps.  The theorem says what the store
    means in terms of the answers given so far. *)
From stdpp Require Import base tactics option list gmap strings.
From S2P Require Import Prelude RustStr Permissions ExecApproval Orchestrator.
From stdpp Require Import list.

Record ApprovalStore : Type := { store_map : gmap str ReviewDecision }.

Definition store_default : ApprovalStore := {| store_map := ∅ |}.

Definition is_approved_for_session (d : option ReviewDecision) : bool :=
  match d with Some ApprovedForSession => true | _ => false end.

Section Cache.
(** The keys of the tools, and [serde_json::to_string(key).ok()]. *)
Context {K : Type} (to_string : K → option str).

Definition store_get (self : ApprovalStore) (key : K) : option ReviewDecision :=
  s ← to_string key; store_map self !! s.

Definition store_put (self : ApprovalStore) (key : K) (value : ReviewDecision) : ApprovalStore :=
  match to_string key with
  | Some s => {| store_map := <[s := value]> (store_map self) |}
  | None => self
  end.

(** The first critical section: the answer of the cache, if it has one. *)
Definition cached_answer (store : ApprovalStore) (keys : list K) : option ReviewDecision :=
  if bool_decide (keys = []) then None
  else if forallb (λ key, is_approved_for_session (store_get store key)) keys
  then Some ApprovedForSession else None.

(** The second one, after the answer of the user. *)
Definition remember_answer (store : ApprovalStore) (keys : list K) (decision : ReviewDecision) :
    ApprovalStore :=
  if bool_decide (keys = []) then store
  else match decision with
       | ApprovedForSession => foldl (λ store key, store_put store key ApprovedForSession) store keys
       | _ => store
       end.

(** [fetch] returns the decision and the store as the other calls left it
    meanwhile. *)
Definition with_cached_approval (store : ApprovalStore) (keys : list K)
    (fetch : ApprovalStore → ReviewDecision * ApprovalStore) : ReviewDecision * ApprovalStore :=
  match cached_answer store keys with
  | Some decision => (decision, store)
  | None =>
      let '(decision, store) := fetch store in
      (decision, remember_answer store keys decision)
  end.

(** ** Interleaved calls *)
Inductive cache_event : Type :=
  | FromCache (keys : list K)
  | Question (keys : list K)
  | Answer (keys : list K) (decision : ReviewDecision).

Record session : Type := { store : ApprovalStore; waiting : list (list K) }.

Inductive step : session → cache_event → session → Prop :=
  | step_hit st keys :
      cached_answer (store st) keys = Some ApprovedForSession → step st (FromCache keys) st
  | step_ask st keys :
      cached_answer (store st) keys = None →
      step st (Question keys) {| store := store st; waiting := keys :: waiting st |}
  | step_answer st keys decision w1 w2 :
      waiting st = w1 ++ keys :: w2 →
      step st (Answer keys decision)
        {| store := remember_answer (store st) keys decision; waiting := w1 ++ w2 |}.

Inductive steps : session → list cache_event → session → Prop :=
  | steps_nil st : steps st [] st
  | steps_snoc st1 es st2 e st3 : steps st1 es st2 → step st2 e st3 → steps st1 (es ++ [e]) st3.

Definition initial : session := {| store := store_default; waiting := [] |}.

(** The user has approved the key for the session, in one of these events. *)
Definition approved_before (es : list cache_event) (key : K) : Prop :=
  ∃ keys key', Answer keys ApprovedForSession ∈ es ∧ key' ∈ keys ∧
               to_string key' = to_string key ∧ is_Some (to_string key).

(** ** The meaning of the store *)
Lemma put_all_lookup keys (st : ApprovalStore) s :
  store_map (foldl (λ st key, store_put st key ApprovedForSession) st keys) !! s =
  Some ApprovedForSession ↔
  store_map st !! s = Some ApprovedForSession ∨ ∃ key, key ∈ keys ∧ to_string key = Some s.
Proof.
  revert st. induction keys as [|k keys IH]; intros st; cbn [foldl]; [set_solver|].
  rewrite IH. unfold store_put. destruct (to_string k) as [s'|] eqn:E; cbn [store_map].
  - destruct (decide (s' = s)) as [->|Hne].
    + rewrite lookup_insert_eq. set_solver.
    + rewrite lookup_insert_ne by done. set_solver.
  - set_solver.
Qed.

Lemma remember_lookup (st : ApprovalStore) keys d s :
  store_map (remember_answer st keys d) !! s = Some ApprovedForSession ↔
  store_map st !! s = Some ApprovedForSession ∨
  (d = ApprovedForSession ∧ ∃ key, key ∈ keys ∧ to_string key = Some s).
Proof.
  unfold remember_answer. case_bool_decide as E; [subst; set_solver|].
  destruct d; try naive_solver. rewrite put_all_lookup. naive_solver.
Qed.

Lemma store_invariant es st :
  steps initial es st →
  ∀ s, store_map (store st) !! s = Some ApprovedForSession ↔
       ∃ keys key, Answer keys ApprovedForSession ∈ es ∧ key ∈ keys ∧ to_string key = Some s.
Proof.
  intros Hs. remember initial as st0 eqn:E0. induction Hs as [st|st0 es st e st' Hs IH Hstep];
    intros s; subst.
  - cbn. rewrite lookup_empty. set_solver.
  - specialize (IH eq_refl). destruct Hstep as [st keys _|st keys _|st keys d w1 w2 _];
      cbn [store].
    1,2: rewrite IH; set_solver.
    rewrite remember_lookup, IH. set_solver.
Qed.

Lemma get_approved es st key :
  steps initial es st →
  is_approved_for_session (store_get (store st) key) = true ↔ approved_before es key.
Proof.
  intros Hs. unfold store_get, approved_before. destruct (to_string key) as [s|] eqn:E; cbn.
  - assert (is_approved_for_session (store_map (store st) !! s) = true ↔
      store_map (store st) !! s = Some ApprovedForSession) as ->.
    { by destruct (store_map (store st) !! s) as [[]|]. }
    rewrite (store_invariant _ _ Hs). naive_solver.
  - naive_solver.
Qed.

Lemma answer_approved es st keys :
  steps initial es st →
  cached_answer (store st) keys = Some ApprovedForSession ↔
  keys ≠ [] ∧ ∀ key, key ∈ keys → approved_before es key.
Proof.
  intros Hs. unfold cached_answer. case_bool_decide as E; [naive_solver|].
  assert (forallb (λ key, is_approved_for_session (store_get (store st) key)) keys = true ↔
    ∀ key, key ∈ keys → approved_before es key) as Hall.
  { rewrite forallb_elem. by setoid_rewrite (get_approved es st _ Hs). }
  rewrite <- Hall. destruct (forallb _ keys); naive_solver.
Qed.

Lemma steps_snoc_inv es e st st' :
  steps st (es ++ [e]) st' → ∃ st2, steps st es st2 ∧ step st2 e st'.
Proof.
  remember (es ++ [e]) as l eqn:El. destruct 1 as [|st1 es' st2 e' st3 Hs Hstep];
    [by destruct es|].
  apply app_inj_tail in El as [-> ->]. eauto.
Qed.

Lemma steps_split es1 e es2 st st' :
  steps st (es1 ++ e :: es2) st' → ∃ st1 st2, steps st es1 st1 ∧ step st1 e st2.
Proof.
  revert st'. induction es2 as [|e2 es2 IH] using rev_ind; intros st' Hs.
  - apply steps_snoc_inv in Hs as (st2 & ? & ?). eauto.
  - rewrite app_comm_cons, app_assoc in Hs. apply steps_snoc_inv in Hs as (st2 & ? & ?). eauto.
Qed.

(** What the session's cache skips was approved, and only that.  However the
    calls of the tools interleave, a call is answered from the cache exactly
    when it names a key and the user has approved each of its keys for the
    session, in a question answered earlier; so a key approved for the
    session is never asked about again on its own, an ordinary approval is not
    remembered, and a call without keys always asks. *)
Theorem cached_approvals_justified es1 e es2 st :
  steps initial (es1 ++ e :: es2) st →
  match e with
  | FromCache keys => keys ≠ [] ∧ ∀ key, key ∈ keys → approved_before es1 key
  | Question keys => keys = [] ∨ ∃ key, key ∈ keys ∧ ¬ approved_before es1 key
  | Answer _ _ => True
  end.
Proof.
  intros (st1 & st2 & Hs & Hstep)%steps_split.
  destruct Hstep as [st' keys Hc|st' keys Hc|]; [by apply (answer_approved _ _ _ Hs)| |done].
  unfold cached_answer in Hc. case_bool_decide as E; [by left|right].
  destruct (forallb _ keys) eqn:Hf; [done|]. apply forallb_false_elem in Hf as (key & Hin & Hf).
  exists key. split; [done|]. rewrite <- (get_approved _ _ _ Hs). by rewrite Hf.
Qed.
End Cache.

(** ** Application of the theorem *)

(** Two patches of one file: the first is approved for the session. *)
Definition sample_session : list (@cache_event str) :=
  [Question [lit "a.txt"; lit "b.txt"]; Question [lit "c.txt"];
   Answer [lit "a.txt"; lit "b.txt"] ApprovedForSession;
   FromCache [lit "b.txt"]; Answer [lit "c.txt"] Approved].

Lemma sample_steps : ∃ st, steps Some initial sample_session st.
Proof.
  eexists. change sample_session with (((((([] ++ take 1 sample_session) ++ take 1 (drop 1 sample_session))
    ++ take 1 (drop 2 sample_session)) ++ take 1 (drop 3 sample_session)) ++ drop 4 sample_session)).
  eapply steps_snoc; [eapply steps_snoc; [eapply steps_snoc; [eapply steps_snoc;
    [eapply steps_snoc; [constructor|]|]|]|]|]; cbn [take drop sample_session].
  - by apply step_ask.
  - by apply step_ask.
  - by apply (step_answer _ _ _ _ [[lit "c.txt"]] []).
  - apply step_hit. by vm_compute.
  - by apply (step_answer _ _ _ _ [] []).
Qed.

Lemma cached_approvals_justified_witness :
  approved_before Some (take 3 sample_session) (lit "b.txt").
Proof.
  destruct sample_steps as [st Hs].
  destruct (cached_approvals_justified Some (take 3 sample_session) (FromCache [lit "b.txt"])
    (drop 4 sample_session) st Hs) as [_ Hall].
  apply Hall. left.
Defined.
