(* ===== verification/TurnState.v ===== *)
(** * The active turn of a session: [core/src/state/turn.rs], [core/src/tasks/mod.rs]
      and the requests of [core/src/codex.rs]

    While a turn runs, its tools wait for answers: approvals, granted
    permissions, user input, elicitations, dynamic tools.  Each waits on a
    [oneshot] channel whose sender is in a map of the [TurnState]; the client's
    answers find the sender there.  The state has the channels, who holds their
    senders, the requests that have not returned, and the input steered into the
    turn; the step relation interleaves requests, answers and the life of turns.

    A sender is dropped, and its channel closed, when its holder is: a map that
    is cleared, a turn that is replaced, or the function that made the request,
    which keeps what it displaced from the map, and its own sender when there is
    no turn, until it returns. *)
From stdpp Require Import base tactics option list gmap strings.
From S2P Require Import Prelude RustStr Paths Permissions Safety ExecApproval Sandboxing Orchestrator.
From stdpp Require Import list.

(** Channels are numbered in the order they are made. *)
Abbreviation chan := nat.

Inductive RequestId : Type := IdNumber (n : Z) | IdString (s : str).
#[export] Instance RequestId_eq_dec : EqDecision RequestId.
Proof. solve_decision. Defined.
#[export] Instance RequestId_countable : Countable RequestId.
Proof.
  apply (inj_countable' (λ i, match i with IdNumber n => inl n | IdString s => inr s end)
    (λ x, match x with inl n => IdNumber n | inr s => IdString s end)). by intros [].
Qed.

(** ** Requested permissions: [protocol/src/request_permissions.rs] *)
Inductive PermissionGrantScope : Type := Turn | SessionScope.

Record RequestPermissionProfile : Type := {
  requested_network : option NetworkPermissions;
  requested_file_system : option FileSystemPermissions;
}.

Definition request_profile_default : RequestPermissionProfile :=
  {| requested_network := None; requested_file_system := None |}.

Definition request_profile_is_empty (self : RequestPermissionProfile) : bool :=
  is_none (requested_network self) && is_none (requested_file_system self).

Definition profile_from_request (value : RequestPermissionProfile) : PermissionProfile :=
  {| network := requested_network value; file_system := requested_file_system value;
     Sandboxing.macos := None |}.

Definition request_from_profile (value : PermissionProfile) : RequestPermissionProfile :=
  {| requested_network := network value; requested_file_system := file_system value |}.

Record RequestPermissionsResponse : Type := {
  permissions : RequestPermissionProfile;
  scope : PermissionGrantScope;
}.

Section Turns.
(** The answers whose content the turn does not read, items of input and the
    token usage. *)
Context {UserInputResponse ElicitationResponse DynamicToolResponse Usage : Type}.
Context {UserInput Item : Type} (into_item : list UserInput → Item) (usage_default : Usage).

Inductive Response : Type :=
  | RDecision (decision : ReviewDecision)
  | RPermissions (response : RequestPermissionsResponse)
  | RUserInput (response : UserInputResponse)
  | RElicitation (response : ElicitationResponse)
  | RDynamicTool (response : DynamicToolResponse).

(** ** The state of a turn *)
Record TurnState : Type := {
  pending_approvals : gmap str chan;
  pending_request_permissions : gmap str chan;
  pending_user_input : gmap str chan;
  pending_elicitations : gmap (str * RequestId) chan;
  pending_dynamic_tools : gmap str chan;
  pending_input : list Item;
  granted_permissions : option PermissionProfile;
  tool_calls : Z;
  token_usage_at_turn_start : Usage;
}.

Definition turn_state_default : TurnState := {|
  pending_approvals := ∅; pending_request_permissions := ∅; pending_user_input := ∅;
  pending_elicitations := ∅; pending_dynamic_tools := ∅; pending_input := [];
  granted_permissions := None; tool_calls := 0; token_usage_at_turn_start := usage_default |}.

Definition with_approvals (m : gmap str chan) (ts : TurnState) : TurnState := {|
  pending_approvals := m; pending_request_permissions := pending_request_permissions ts;
  pending_user_input := pending_user_input ts; pending_elicitations := pending_elicitations ts;
  pending_dynamic_tools := pending_dynamic_tools ts; pending_input := pending_input ts;
  granted_permissions := granted_permissions ts; tool_calls := tool_calls ts;
  token_usage_at_turn_start := token_usage_at_turn_start ts |}.
Definition with_request_permissions (m : gmap str chan) (ts : TurnState) : TurnState := {|
  pending_approvals := pending_approvals ts; pending_request_permissions := m;
  pending_user_input := pending_user_input ts; pending_elicitations := pending_elicitations ts;
  pending_dynamic_tools := pending_dynamic_tools ts; pending_input := pending_input ts;
  granted_permissions := granted_permissions ts; tool_calls := tool_calls ts;
  token_usage_at_turn_start := token_usage_at_turn_start ts |}.
Definition with_user_input (m : gmap str chan) (ts : TurnState) : TurnState := {|
  pending_approvals := pending_approvals ts;
  pending_request_permissions := pending_request_permissions ts;
  pending_user_input := m; pending_elicitations := pending_elicitations ts;
  pending_dynamic_tools := pending_dynamic_tools ts; pending_input := pending_input ts;
  granted_permissions := granted_permissions ts; tool_calls := tool_calls ts;
  token_usage_at_turn_start := token_usage_at_turn_start ts |}.
Definition with_elicitations (m : gmap (str * RequestId) chan) (ts : TurnState) : TurnState := {|
  pending_approvals := pending_approvals ts;
  pending_request_permissions := pending_request_permissions ts;
  pending_user_input := pending_user_input ts; pending_elicitations := m;
  pending_dynamic_tools := pending_dynamic_tools ts; pending_input := pending_input ts;
  granted_permissions := granted_permissions ts; tool_calls := tool_calls ts;
  token_usage_at_turn_start := token_usage_at_turn_start ts |}.
Definition with_dynamic_tools (m : gmap str chan) (ts : TurnState) : TurnState := {|
  pending_approvals := pending_approvals ts;
  pending_request_permissions := pending_request_permissions ts;
  pending_user_input := pending_user_input ts; pending_elicitations := pending_elicitations ts;
  pending_dynamic_tools := m; pending_input := pending_input ts;
  granted_permissions := granted_permissions ts; tool_calls := tool_calls ts;
  token_usage_at_turn_start := token_usage_at_turn_start ts |}.
Definition with_input (l : list Item) (ts : TurnState) : TurnState := {|
  pending_approvals := pending_approvals ts;
  pending_request_permissions := pending_request_permissions ts;
  pending_user_input := pending_user_input ts; pending_elicitations := pending_elicitations ts;
  pending_dynamic_tools := pending_dynamic_tools ts; pending_input := l;
  granted_permissions := granted_permissions ts; tool_calls := tool_calls ts;
  token_usage_at_turn_start := token_usage_at_turn_start ts |}.

(** Each of these returns what was there under the key. *)
Definition insert_pending_approval (self : TurnState) (key : str) (tx : chan) :
    option chan * TurnState :=
  (pending_approvals self !! key, with_approvals (<[key := tx]> (pending_approvals self)) self).
Definition remove_pending_approval (self : TurnState) (key : str) : option chan * TurnState :=
  (pending_approvals self !! key, with_approvals (delete key (pending_approvals self)) self).

Definition insert_pending_request_permissions (self : TurnState) (key : str) (tx : chan) :
    option chan * TurnState :=
  (pending_request_permissions self !! key,
   with_request_permissions (<[key := tx]> (pending_request_permissions self)) self).
Definition remove_pending_request_permissions (self : TurnState) (key : str) :
    option chan * TurnState :=
  (pending_request_permissions self !! key,
   with_request_permissions (delete key (pending_request_permissions self)) self).

Definition insert_pending_user_input (self : TurnState) (key : str) (tx : chan) :
    option chan * TurnState :=
  (pending_user_input self !! key, with_user_input (<[key := tx]> (pending_user_input self)) self).
Definition remove_pending_user_input (self : TurnState) (key : str) : option chan * TurnState :=
  (pending_user_input self !! key, with_user_input (delete key (pending_user_input self)) self).

Definition insert_pending_elicitation (self : TurnState) (server_name : str) (id : RequestId)
    (tx : chan) : option chan * TurnState :=
  (pending_elicitations self !! (server_name, id),
   with_elicitations (<[(server_name, id) := tx]> (pending_elicitations self)) self).
Definition remove_pending_elicitation (self : TurnState) (server_name : str) (id : RequestId) :
    option chan * TurnState :=
  (pending_elicitations self !! (server_name, id),
   with_elicitations (delete (server_name, id) (pending_elicitations self)) self).

Definition insert_pending_dynamic_tool (self : TurnState) (key : str) (tx : chan) :
    option chan * TurnState :=
  (pending_dynamic_tools self !! key,
   with_dynamic_tools (<[key := tx]> (pending_dynamic_tools self)) self).
Definition remove_pending_dynamic_tool (self : TurnState) (key : str) : option chan * TurnState :=
  (pending_dynamic_tools self !! key,
   with_dynamic_tools (delete key (pending_dynamic_tools self)) self).

Definition push_pending_input (self : TurnState) (input : Item) : TurnState :=
  with_input (pending_input self ++ [input]) self.
Definition take_pending_input (self : TurnState) : list Item * TurnState :=
  (pending_input self, with_input [] self).
Definition turn_has_pending_input (self : TurnState) : bool :=
  negb (bool_decide (length (pending_input self) = 0)).

Definition record_granted_permissions (self : TurnState) (permissions : PermissionProfile) :
    TurnState := {|
  pending_approvals := pending_approvals self;
  pending_request_permissions := pending_request_permissions self;
  pending_user_input := pending_user_input self;
  pending_elicitations := pending_elicitations self;
  pending_dynamic_tools := pending_dynamic_tools self; pending_input := pending_input self;
  granted_permissions := merge_permission_profiles (granted_permissions self) (Some permissions);
  tool_calls := tool_calls self;
  token_usage_at_turn_start := token_usage_at_turn_start self |}.

(** [ts.tool_calls.saturating_add(1)] of the tool registry. *)
Definition u64_max : Z := 2 ^ 64 - 1.
Definition count_tool_call (self : TurnState) : TurnState := {|
  pending_approvals := pending_approvals self;
  pending_request_permissions := pending_request_permissions self;
  pending_user_input := pending_user_input self;
  pending_elicitations := pending_elicitations self;
  pending_dynamic_tools := pending_dynamic_tools self; pending_input := pending_input self;
  granted_permissions := granted_permissions self;
  tool_calls := Z.min (tool_calls self + 1) u64_max;
  token_usage_at_turn_start := token_usage_at_turn_start self |}.

(** The senders a turn holds. *)
Definition values {K} `{Countable K} (m : gmap K chan) : list chan := (map_to_list m).*2.
Definition turn_channels (ts : TurnState) : list chan :=
  values (pending_approvals ts) ++ values (pending_request_permissions ts)
  ++ values (pending_user_input ts) ++ values (pending_elicitations ts)
  ++ values (pending_dynamic_tools ts).

(** [clear_pending]: the senders it drops, and the state without them. *)
Definition clear_pending (self : TurnState) : list chan * TurnState :=
  (turn_channels self,
   {| pending_approvals := ∅; pending_request_permissions := ∅; pending_user_input := ∅;
      pending_elicitations := ∅; pending_dynamic_tools := ∅; pending_input := [];
      granted_permissions := granted_permissions self; tool_calls := tool_calls self;
      token_usage_at_turn_start := token_usage_at_turn_start self |}).

(** ** Tasks *)

(** [tasks]: the identifiers of the running tasks, in the order of the
    [IndexMap]. *)
Record ActiveTurn : Type := { tasks : list str; turn_state : TurnState }.

Definition add_task (self : ActiveTurn) (sub_id : str) : ActiveTurn :=
  {| tasks := if bool_decide (sub_id ∈ tasks self) then tasks self else tasks self ++ [sub_id];
     turn_state := turn_state self |}.

(** [IndexMap::swap_remove]: the last entry takes the place of the removed one. *)
Fixpoint swap_remove (x : str) (l : list str) : list str :=
  match l with
  | [] => []
  | y :: l =>
      if bool_decide (y = x)
      then match last l with Some z => z :: removelast l | None => [] end
      else y :: swap_remove x l
  end.

Definition remove_task (self : ActiveTurn) (sub_id : str) : bool * ActiveTurn :=
  let tasks_ := swap_remove sub_id (tasks self) in
  (bool_decide (tasks_ = []), {| tasks := tasks_; turn_state := turn_state self |}).

Definition with_turn_state (at_ : ActiveTurn) (ts : TurnState) : ActiveTurn :=
  {| tasks := tasks at_; turn_state := ts |}.

(** ** The session *)
Inductive chan_state : Type := Waiting | Answered (r : Response) | Closed.

(** [aborting]: the turns taken by [abort_all_tasks] and not yet cleared.
    [waiters]: the requests that have not returned, with the sender their
    function holds. *)
Record Session : Type := {
  active_turn : option ActiveTurn;
  aborting : list TurnState;
  channels : gmap chan chan_state;
  next : chan;
  waiters : gmap chan (option chan);
  session_granted : option PermissionProfile;
}.

Definition session_new : Session := {|
  active_turn := None; aborting := []; channels := ∅; next := 0; waiters := ∅;
  session_granted := None |}.

Definition with_active (a : option ActiveTurn) (s : Session) : Session := {|
  active_turn := a; aborting := aborting s; channels := channels s; next := next s;
  waiters := waiters s; session_granted := session_granted s |}.
Definition with_aborting (l : list TurnState) (s : Session) : Session := {|
  active_turn := active_turn s; aborting := l; channels := channels s; next := next s;
  waiters := waiters s; session_granted := session_granted s |}.
Definition with_channels (m : gmap chan chan_state) (s : Session) : Session := {|
  active_turn := active_turn s; aborting := aborting s; channels := m; next := next s;
  waiters := waiters s; session_granted := session_granted s |}.
Definition with_waiters (w : gmap chan (option chan)) (s : Session) : Session := {|
  active_turn := active_turn s; aborting := aborting s; channels := channels s; next := next s;
  waiters := w; session_granted := session_granted s |}.
Definition with_granted (p : option PermissionProfile) (s : Session) : Session := {|
  active_turn := active_turn s; aborting := aborting s; channels := channels s; next := next s;
  waiters := waiters s; session_granted := p |}.

(** [oneshot]: a new channel, sending, and dropping the sender. *)
Definition open_channel (s : Session) : chan * Session :=
  (next s, {| active_turn := active_turn s; aborting := aborting s;
              channels := <[next s := Waiting]> (channels s); next := S (next s);
              waiters := waiters s; session_granted := session_granted s |}).

Definition settle (v : chan_state) (c : chan) (m : gmap chan chan_state) : gmap chan chan_state :=
  match m !! c with Some Waiting => <[c := v]> m | _ => m end.

Definition send (c : chan) (r : Response) (s : Session) : Session :=
  with_channels (settle (Answered r) c (channels s)) s.
Definition close_all (cs : list chan) (s : Session) : Session :=
  with_channels (foldr (settle Closed) (channels s) cs) s.

(** *** Requests *)

(** The keys of the five maps. *)
Inductive slot : Type :=
  | SApproval (id : str)
  | SPermissions (call_id : str)
  | SUserInput (sub_id : str)
  | SElicitation (server_name : str) (id : RequestId)
  | SDynamicTool (call_id : str).

Definition insert_pending (ts : TurnState) (k : slot) (tx : chan) : option chan * TurnState :=
  match k with
  | SApproval id => insert_pending_approval ts id tx
  | SPermissions id => insert_pending_request_permissions ts id tx
  | SUserInput id => insert_pending_user_input ts id tx
  | SElicitation n id => insert_pending_elicitation ts n id tx
  | SDynamicTool id => insert_pending_dynamic_tool ts id tx
  end.

Definition remove_pending (ts : TurnState) (k : slot) : option chan * TurnState :=
  match k with
  | SApproval id => remove_pending_approval ts id
  | SPermissions id => remove_pending_request_permissions ts id
  | SUserInput id => remove_pending_user_input ts id
  | SElicitation n id => remove_pending_elicitation ts n id
  | SDynamicTool id => remove_pending_dynamic_tool ts id
  end.

(** What the five requesting functions have in common, up to the await: the
    channel, its sender in the map of the active turn.  The function holds the
    sender it displaced, or its own if there is no turn. *)
Definition begin_request (k : slot) (s : Session) : chan * Session :=
  let '(tx, s) := open_channel s in
  match active_turn s with
  | Some at_ =>
      let '(prev_entry, ts) := insert_pending (turn_state at_) k tx in
      (tx, with_waiters (<[tx := prev_entry]> (waiters s))
             (with_active (Some (with_turn_state at_ ts)) s))
  | None => (tx, with_waiters (<[tx := Some tx]> (waiters s)) s)
  end.

(** [request_command_approval]: command-level approvals use the call, callbacks
    of subcommands their own identifier. *)
Definition request_command_approval (call_id : str) (approval_id : option str) (s : Session) :
    chan * Session :=
  begin_request (SApproval (default call_id approval_id)) s.

(** [request_patch_approval] returns the receiver, so what it holds is dropped
    before its caller waits. *)
Definition request_patch_approval (call_id : str) (s : Session) : chan * Session :=
  let '(tx, s) := begin_request (SApproval call_id) s in
  (tx, close_all (option_list (mjoin (waiters s !! tx)))
         (with_waiters (<[tx := None]> (waiters s)) s)).

Definition allows_request_permissions (self : GranularApprovalConfig) : bool :=
  Safety.request_permissions self.

(** [inl]: the response when the policy forbids the question. *)
Definition request_permissions (approval_policy : AskForApproval) (call_id : str) (s : Session) :
    RequestPermissionsResponse + chan * Session :=
  let refused := {| permissions := request_profile_default; scope := Turn |} in
  match approval_policy with
  | Never => inl refused
  | Granular granular_config =>
      if negb (allows_request_permissions granular_config) then inl refused
      else inr (begin_request (SPermissions call_id) s)
  | OnFailure | OnRequest | UnlessTrusted => inr (begin_request (SPermissions call_id) s)
  end.

Definition request_user_input (sub_id : str) (s : Session) : chan * Session :=
  begin_request (SUserInput sub_id) s.
Definition request_mcp_server_elicitation (server_name : str) (request_id : RequestId)
    (s : Session) : chan * Session :=
  begin_request (SElicitation server_name request_id) s.
Definition request_dynamic_tool (call_id : str) (s : Session) : chan * Session :=
  begin_request (SDynamicTool call_id) s.

(** The rest of a request, when its channel is settled: what [rx.await] gives,
    and the senders held by the function are dropped.  [None] while it waits. *)
Definition finish_request (c : chan) (s : Session) : option (option Response * Session) :=
  held ← waiters s !! c;
  let s' := close_all (option_list held) (with_waiters (delete c (waiters s)) s) in
  match channels s !! c with
  | Some (Answered r) => Some (Some r, s')
  | Some Closed => Some (None, s')
  | _ => None
  end.

(** [rx_approve.await.unwrap_or(ReviewDecision::Abort)] *)
Definition decision_or_abort (r : option Response) : ReviewDecision :=
  match r with Some (RDecision d) => d | _ => Abort_ end.

(** The task of a request is aborted: its future is dropped. *)
Definition drop_request (c : chan) (s : Session) : Session :=
  match waiters s !! c with
  | Some held =>
      close_all (c :: option_list held) (with_waiters (delete c (waiters s)) s)
  | None => s
  end.

(** *** Answers *)
Definition notify (k : slot) (r : Response) (s : Session) : bool * Session :=
  match active_turn s with
  | Some at_ =>
      let '(entry, ts) := remove_pending (turn_state at_) k in
      let s := with_active (Some (with_turn_state at_ ts)) s in
      match entry with
      | Some tx => (true, send tx r s)
      | None => (false, s)
      end
  | None => (false, s)
  end.

Definition notify_approval (approval_id : str) (decision : ReviewDecision) (s : Session) :
    bool * Session :=
  notify (SApproval approval_id) (RDecision decision) s.
Definition notify_user_input_response (sub_id : str) (response : UserInputResponse) (s : Session) :
    bool * Session :=
  notify (SUserInput sub_id) (RUserInput response) s.
Definition notify_dynamic_tool_response (call_id : str) (response : DynamicToolResponse)
    (s : Session) : bool * Session :=
  notify (SDynamicTool call_id) (RDynamicTool response) s.
(** [false]: the elicitation is passed on to the connection manager. *)
Definition resolve_elicitation (server_name : str) (id : RequestId)
    (response : ElicitationResponse) (s : Session) : bool * Session :=
  notify (SElicitation server_name id) (RElicitation response) s.

Definition notify_request_permissions_response (call_id : str)
    (response : RequestPermissionsResponse) (s : Session) : bool * Session :=
  match active_turn s with
  | Some at_ =>
      let '(entry, ts) := remove_pending_request_permissions (turn_state at_) call_id in
      let grant := negb (is_none entry) && negb (request_profile_is_empty (permissions response)) in
      let profile := profile_from_request (permissions response) in
      let ts :=
        match scope response with
        | Turn => if grant then record_granted_permissions ts profile else ts
        | SessionScope => ts
        end in
      let granted_for_session :=
        match scope response with
        | SessionScope => if grant then Some profile else None
        | Turn => None
        end in
      let s := with_active (Some (with_turn_state at_ ts)) s in
      let s :=
        match granted_for_session with
        | Some p => with_granted (merge_permission_profiles (session_granted s) (Some p)) s
        | None => s
        end in
      match entry with
      | Some tx => (true, send tx (RPermissions response) s)
      | None => (false, s)
      end
  | None => (false, s)
  end.

Definition granted_turn_permissions (s : Session) : option PermissionProfile :=
  active_turn s ≫= λ at_, granted_permissions (turn_state at_).
Definition granted_session_permissions (s : Session) : option PermissionProfile :=
  session_granted s.

(** *** The life of a turn *)

(** Dropping a turn drops its senders. *)
Definition drop_turn (a : option ActiveTurn) (s : Session) : Session :=
  close_all (match a with Some at_ => turn_channels (turn_state at_) | None => [] end) s.

Definition register_new_active_task (sub_id : str) (usage : Usage) (s : Session) : Session :=
  let turn := {| tasks := [];
                 turn_state := {|
                   pending_approvals := ∅; pending_request_permissions := ∅;
                   pending_user_input := ∅; pending_elicitations := ∅;
                   pending_dynamic_tools := ∅; pending_input := []; granted_permissions := None;
                   tool_calls := 0; token_usage_at_turn_start := usage |} |} in
  with_active (Some (add_task turn sub_id)) (drop_turn (active_turn s) s).

(** [abort_all_tasks]: first the turn is taken, later it is cleared. *)
Definition take_active_turn (s : Session) : option (list str) * Session :=
  match active_turn s with
  | Some at_ =>
      (Some (tasks at_), with_active None (with_aborting (turn_state at_ :: aborting s) s))
  | None => (None, s)
  end.

Definition clear_aborted (l1 l2 : list TurnState) (ts : TurnState) (s : Session) : Session :=
  close_all (fst (clear_pending ts)) (with_aborting (l1 ++ l2) s).

(** [on_task_finished], up to the items it has to record. *)
Definition on_task_finished (sub_id : str) (s : Session) : list Item * Session :=
  match active_turn s with
  | Some at_ =>
      let '(empty, at_) := remove_task at_ sub_id in
      if empty then
        let '(pending_input, ts) := take_pending_input (turn_state at_) in
        (pending_input, with_active None (drop_turn (Some (with_turn_state at_ ts)) s))
      else ([], with_active (Some at_) s)
  | None => ([], s)
  end.

(** *** Input for the turn *)
Inductive SteerInputError : Type :=
  | NoActiveTurn (input : list UserInput)
  | ExpectedTurnMismatch (expected actual : str)
  | EmptyInput.

Definition steer_input (input : list UserInput) (expected_turn_id : option str) (s : Session) :
    outcome SteerInputError (str * Session) :=
  match input with
  | [] => Err EmptyInput
  | _ =>
      match active_turn s with
      | None => Err (NoActiveTurn input)
      | Some at_ =>
          match tasks at_ with
          | [] => Err (NoActiveTurn input)
          | active_turn_id :: _ =>
              let pushed :=
                Ok (active_turn_id,
                    with_active (Some (with_turn_state at_
                      (push_pending_input (turn_state at_) (into_item input)))) s) in
              match expected_turn_id with
              | Some expected =>
                  if negb (bool_decide (expected = active_turn_id))
                  then Err (ExpectedTurnMismatch expected active_turn_id) else pushed
              | None => pushed
              end
          end
      end
  end.

Definition inject_response_items (input : list Item) (s : Session) :
    outcome (list Item) Session :=
  match active_turn s with
  | Some at_ =>
      Ok (with_active (Some (with_turn_state at_
           (foldl push_pending_input (turn_state at_) input))) s)
  | None => Err input
  end.

Definition get_pending_input (s : Session) : list Item * Session :=
  match active_turn s with
  | Some at_ =>
      let '(items, ts) := take_pending_input (turn_state at_) in
      (items, with_active (Some (with_turn_state at_ ts)) s)
  | None => ([], s)
  end.

Definition has_pending_input (s : Session) : bool :=
  match active_turn s with
  | Some at_ => turn_has_pending_input (turn_state at_)
  | None => false
  end.

Definition record_tool_call (s : Session) : Session :=
  match active_turn s with
  | Some at_ => with_active (Some (with_turn_state at_ (count_tool_call (turn_state at_)))) s
  | None => s
  end.

(** ** Steps *)
Inductive event : Type :=
  | Requested (k : slot) (c : chan) (in_turn : bool)
  | Responded (k : slot) (r : Response) (delivered : bool)
  | Returned (c : chan) (r : option Response)
  | Dropped (c : chan)
  | Started (sub_id : str)
  | Taken
  | Cleared
  | Finished (sub_id : str) (recorded : list Item) (turn_over : bool)
  | Pushed (items : list Item)
  | Took (items : list Item)
  | CalledTool.

(** The kind of the answers to a request. *)
Definition answers (k : slot) (r : Response) : bool :=
  match k, r with
  | SApproval _, RDecision _ | SUserInput _, RUserInput _ | SElicitation _ _, RElicitation _
  | SDynamicTool _, RDynamicTool _ => true
  | _, _ => false
  end.

Inductive step (s : Session) : event → Session → Prop :=
  | step_request k c s' :
      begin_request k s = (c, s') → step s (Requested k c (negb (is_none (active_turn s)))) s'
  | step_patch id c s' :
      request_patch_approval id s = (c, s') → step s (Requested (SApproval id) c true) s'
  | step_notify k r delivered s' :
      answers k r = true → notify k r s = (delivered, s') → step s (Responded k r delivered) s'
  | step_permissions id r delivered s' :
      notify_request_permissions_response id r s = (delivered, s') →
      step s (Responded (SPermissions id) (RPermissions r) delivered) s'
  | step_return c r s' : finish_request c s = Some (r, s') → step s (Returned c r) s'
  | step_drop c : step s (Dropped c) (drop_request c s)
  | step_start sub_id usage : step s (Started sub_id) (register_new_active_task sub_id usage s)
  | step_take ids s' : take_active_turn s = (Some ids, s') → step s Taken s'
  | step_clear l1 ts l2 : aborting s = l1 ++ ts :: l2 → step s Cleared (clear_aborted l1 l2 ts s)
  | step_finish sub_id items s' :
      on_task_finished sub_id s = (items, s') →
      step s (Finished sub_id items (is_none (active_turn s'))) s'
  | step_steer input expected id s' :
      steer_input input expected s = Ok (id, s') → step s (Pushed [into_item input]) s'
  | step_inject items s' : inject_response_items items s = Ok s' → step s (Pushed items) s'
  | step_take_input items s' : get_pending_input s = (items, s') → step s (Took items) s'
  | step_tool : step s CalledTool (record_tool_call s).

Inductive steps : Session → list event → Session → Prop :=
  | steps_nil s : steps s [] s
  | steps_snoc s1 es s2 e s3 : steps s1 es s2 → step s2 e s3 → steps s1 (es ++ [e]) s3.

(** ** The maps of a turn as one *)
#[local] Instance slot_eq_dec : EqDecision slot.
Proof. solve_decision. Defined.

Definition lookup_slot (ts : TurnState) (k : slot) : option chan :=
  match k with
  | SApproval id => pending_approvals ts !! id
  | SPermissions id => pending_request_permissions ts !! id
  | SUserInput id => pending_user_input ts !! id
  | SElicitation n id => pending_elicitations ts !! (n, id)
  | SDynamicTool id => pending_dynamic_tools ts !! id
  end.

Lemma insert_pending_spec ts k c :
  ∃ ts', insert_pending ts k c = (lookup_slot ts k, ts') ∧
    (∀ k', lookup_slot ts' k' = if decide (k = k') then Some c else lookup_slot ts k') ∧
    granted_permissions ts' = granted_permissions ts ∧ pending_input ts' = pending_input ts.
Proof.
  destruct k; eexists; (split; [reflexivity|]); (split; [|done]); intros k';
    case_decide as E; [subst|destruct k'; try done|..]; subst; cbn;
    rewrite ?lookup_insert_eq, ?lookup_insert_ne by congruence; try done;
    destruct k'; cbn; try done; rewrite lookup_insert_ne by congruence; done.
Qed.

Lemma remove_pending_spec ts k :
  ∃ ts', remove_pending ts k = (lookup_slot ts k, ts') ∧
    (∀ k', lookup_slot ts' k' = if decide (k = k') then None else lookup_slot ts k') ∧
    granted_permissions ts' = granted_permissions ts ∧ pending_input ts' = pending_input ts.
Proof.
  destruct k; eexists; (split; [reflexivity|]); (split; [|done]); intros k';
    case_decide as E; [subst|destruct k'; try done|..]; subst; cbn;
    rewrite ?lookup_delete_eq, ?lookup_delete_ne by congruence; try done;
    destruct k'; cbn; try done; rewrite lookup_delete_ne by congruence; done.
Qed.

Lemma elem_of_values {K} `{Countable K} (m : gmap K chan) c :
  c ∈ values m ↔ ∃ k, m !! k = Some c.
Proof.
  unfold values. rewrite list_elem_of_fmap. setoid_rewrite elem_of_map_to_list'. split.
  - intros ([k c'] & -> & ?). by exists k.
  - intros [k ?]. by exists (k, c).
Qed.

Lemma elem_of_turn_channels ts c : c ∈ turn_channels ts ↔ ∃ k, lookup_slot ts k = Some c.
Proof.
  unfold turn_channels. rewrite !elem_of_app, !elem_of_values. split.
  - intros [[k ?]|[[k ?]|[[k ?]|[[[n k] ?]|[k ?]]]]].
    + by exists (SApproval k).
    + by exists (SPermissions k).
    + by exists (SUserInput k).
    + by exists (SElicitation n k).
    + by exists (SDynamicTool k).
  - intros [[] ?]; cbn in *; eauto 6.
Qed.

(** ** The effect of a step on the channels *)
Definition active_slot (s : Session) (k : slot) : option chan :=
  active_turn s ≫= λ at_, lookup_slot (turn_state at_) k.

(** A turn holds the sender of the channel; somebody does. *)
Definition turn_holds (s : Session) (c : chan) : Prop :=
  (∃ k, active_slot s k = Some c) ∨ (∃ ts k, ts ∈ aborting s ∧ lookup_slot ts k = Some c).
Definition holds (s : Session) (c : chan) : Prop :=
  turn_holds s c ∨ (∃ c', waiters s !! c' = Some (Some c)).

(** Closing some channels: the ones that waited and are not among them go on. *)
Lemma close_lookup cs m c v :
  foldr (settle Closed) m cs !! c = Some v ↔
  (m !! c = Some v ∧ (v = Waiting → c ∉ cs)) ∨ (v = Closed ∧ m !! c = Some Waiting ∧ c ∈ cs).
Proof.
  revert c v. induction cs as [|x cs IH]; intros c v; cbn [foldr]; [set_solver|].
  unfold settle at 1. destruct (decide (c = x)) as [->|Hne].
  - destruct (foldr (settle Closed) m cs !! x) as [w|] eqn:Ex.
    + assert (Hw := proj1 (IH x w) Ex).
      destruct w as [|r|]; rewrite ?lookup_insert_eq, ?Ex; set_solver.
    + rewrite Ex. assert (m !! x = None) as ->; [|naive_solver].
      destruct (m !! x) as [w|] eqn:E; [|done]. exfalso. destruct w as [|r|].
      * destruct (decide (x ∈ cs)) as [Hi|Hi].
        -- by rewrite (proj2 (IH x Closed)) in Ex by auto.
        -- by rewrite (proj2 (IH x Waiting)) in Ex by auto.
      * by rewrite (proj2 (IH x (Answered r))) in Ex by (left; split; [done|discriminate]).
      * by rewrite (proj2 (IH x Closed)) in Ex by (left; split; [done|discriminate]).
  - assert (match foldr (settle Closed) m cs !! x with
            | Some Waiting => <[x:=Closed]> (foldr (settle Closed) m cs)
            | _ => foldr (settle Closed) m cs
            end !! c = foldr (settle Closed) m cs !! c) as ->.
    { destruct (foldr (settle Closed) m cs !! x) as [[]|]; rewrite ?lookup_insert_ne by done; done. }
    rewrite IH. set_solver.
Qed.

Lemma settle_lookup r tx (m : gmap chan chan_state) c v :
  settle (Answered r) tx m !! c = Some v →
  (m !! c = Some v ∧ (v = Waiting → c ≠ tx)) ∨ (v = Answered r ∧ c = tx ∧ m !! c = Some Waiting).
Proof.
  unfold settle. destruct (decide (c = tx)) as [->|Hne].
  - destruct (m !! tx) as [[]|] eqn:E; rewrite ?lookup_insert_eq, ?E; naive_solver.
  - destruct (m !! tx) as [[]|] eqn:E; rewrite ?lookup_insert_ne by done; naive_solver.
Qed.

(** The end of the turn, for the requests of the turn. *)
Definition ends_turn (e : event) : bool :=
  match e with Started _ | Taken | Finished _ _ true => true | _ => false end.

(** Events after which a request under this key does not wait in the turn any
    more. *)
Definition ends_request (k : slot) (e : event) : bool :=
  match e with
  | Requested k' _ _ | Responded k' _ _ => bool_decide (k' = k)
  | _ => ends_turn e
  end.

(** A request: its sender is in the turn; the one it displaced, and its own
    without a turn, is held by it or dropped ([cs]). *)
Record requests (s : Session) (k : slot) (c : chan) (in_turn : bool) (s' : Session) : Prop := {
  req_fresh : c = next s ∧ next s' = S c;
  req_aborting : aborting s' = aborting s;
  req_slots k' c' : active_slot s' k' = Some c' →
    if decide (k = k') then c' = c else active_slot s k' = Some c';
  req_kept k' c' : active_slot s k' = Some c' → k ≠ k' → active_slot s' k' = Some c';
  req_held : ∃ held cs,
    waiters s' = <[c := held]> (waiters s) ∧
    channels s' = foldr (settle Closed) (<[c := Waiting]> (channels s)) cs ∧
    (∀ old, active_slot s k = Some old → held = Some old ∨ old ∈ cs) ∧
    (active_slot s' k = Some c ∨ held = Some c ∨ c ∈ cs) ∧
    (∀ h, held = Some h → (h = c ∧ in_turn = false) ∨ active_slot s k = Some h) ∧
    (∀ x, x ∈ cs → x = c ∨ active_slot s k = Some x);
}.

(** An answer that finds its request. *)
Record delivers (s : Session) (k : slot) (r : Response) (tx : chan) (s' : Session) : Prop := {
  del_found : active_slot s k = Some tx;
  del_same : next s' = next s ∧ aborting s' = aborting s ∧ waiters s' = waiters s;
  del_channels : channels s' = settle (Answered r) tx (channels s);
  del_slots k' c' : active_slot s' k' = Some c' ↔ k ≠ k' ∧ active_slot s k' = Some c';
}.

(** The request is over. *)
Definition leaves (c : chan) (e : event) : Prop := e = Dropped c ∨ ∃ r, e = Returned c r.

(** Everything else: the senders somebody drops are closed ([cs]). *)
Record closes (s : Session) (e : event) (cs : list chan) (s' : Session) : Prop := {
  clo_next : next s' = next s;
  clo_channels : channels s' = foldr (settle Closed) (channels s) cs;
  clo_holds c : holds s c → holds s' c ∨ c ∈ cs;
  clo_turns c : turn_holds s' c → turn_holds s c;
  clo_slots k c : active_slot s' k = Some c → active_slot s k = Some c ∧ ends_request k e = false;
  clo_waiters c h : waiters s' !! c = Some h → waiters s !! c = Some h;
  clo_stays c h : waiters s !! c = Some h → waiters s' !! c = Some h ∨ leaves c e;
  clo_closed c : c ∈ cs →
    turn_holds s c ∨ e = Dropped c ∨ (∃ c', waiters s !! c' = Some (Some c) ∧ leaves c' e);
}.

Lemma begin_request_requests k s c s' :
  begin_request k s = (c, s') → requests s k c (negb (is_none (active_turn s))) s'.
Proof.
  unfold begin_request, open_channel. cbn [active_turn]. intros Hr.
  destruct (active_turn s) as [at_|] eqn:Ha.
  - destruct (insert_pending_spec (turn_state at_) k (next s)) as (ts & Hi & Hts & _).
    rewrite Hi in Hr. injection Hr as <- <-.
    assert (Hs : ∀ k', active_slot s k' = lookup_slot (turn_state at_) k').
    { intros k'. unfold active_slot. by rewrite Ha. }
    split; [done|done|..].
    + intros k' c'. unfold active_slot at 1. cbn. rewrite Hts, Hs. case_decide; congruence.
    + intros k' c' Hk Hne. unfold active_slot. cbn. by rewrite Hts, decide_False, <- Hs.
    + exists (lookup_slot (turn_state at_) k), []. rewrite Hs.
      split_and!; [done|done|auto| |auto|intros ? []%not_elem_of_nil].
      left. unfold active_slot. cbn. by rewrite Hts, decide_True.
  - injection Hr as <- <-.
    assert (Hs : ∀ k', active_slot s k' = None).
    { intros k'. unfold active_slot. by rewrite Ha. }
    split; [done|done|..].
    + intros k' c'. unfold active_slot at 1. done.
    + intros k' c'. by rewrite Hs.
    + exists (Some (next s)), []. rewrite Hs.
      split_and!; [done|done|done|auto| |intros ? []%not_elem_of_nil].
      intros h [= <-]. auto.
Qed.

Lemma patch_requests id s c s' :
  request_patch_approval id s = (c, s') → requests s (SApproval id) c true s'.
Proof.
  unfold request_patch_approval.
  destruct (begin_request (SApproval id) s) as [tx s1] eqn:Hb. intros [= <- <-].
  apply begin_request_requests in Hb as [Hf Hab Hsl Hk (held & cs & Hw & Hc & H1 & H2 & H3 & H4)].
  split; [done|done|exact Hsl|exact Hk|].
  exists None, (option_list held ++ cs).
  split_and!.
  - cbn. by rewrite Hw, insert_insert_eq.
  - cbn. rewrite Hw, lookup_insert_eq, Hc. by rewrite foldr_app.
  - intros old [->|Hin]%H1; right; set_solver.
  - destruct H2 as [?|[->|?]]; [by left|right; right; set_solver..].
  - done.
  - intros x [Hx|Hx]%elem_of_app; [|by apply H4]. destruct held as [h|]; [|set_solver].
    apply list_elem_of_singleton in Hx as ->. destruct (H3 h eq_refl) as [[-> _]|]; auto.
Qed.

Lemma send_delivers s s1 at_ ts k r tx :
  active_turn s = Some at_ → lookup_slot (turn_state at_) k = Some tx →
  (∀ k', lookup_slot ts k' = if decide (k = k') then None else lookup_slot (turn_state at_) k') →
  active_turn s1 = Some (with_turn_state at_ ts) → next s1 = next s → aborting s1 = aborting s →
  waiters s1 = waiters s → channels s1 = channels s → delivers s k r tx (send tx r s1).
Proof.
  intros Ha Hk Hts Ha1 Hn Hab Hw Hc. split; [by unfold active_slot; rewrite Ha|done| |].
  - cbn. by rewrite Hc.
  - intros k' c'. unfold active_slot. cbn. rewrite Ha, Ha1. cbn. rewrite Hts.
    case_decide; naive_solver.
Qed.

(** A step that moves no sender. *)
Lemma quiet_closes s e s' :
  next s' = next s → aborting s' = aborting s → waiters s' = waiters s → channels s' = channels s →
  (∀ k, active_slot s' k = active_slot s k) →
  (∀ k, is_Some (active_slot s k) → ends_request k e = false) → closes s e [] s'.
Proof.
  intros Hn Hab Hw Hc Hs He.
  assert (Ht : ∀ c, turn_holds s' c ↔ turn_holds s c).
  { intros c. unfold turn_holds. rewrite Hab. by setoid_rewrite Hs. }
  split; [done|by rewrite Hc|..].
  - intros c. unfold holds. rewrite Ht, Hw. auto.
  - intros c. by rewrite Ht.
  - intros k c Hk. rewrite Hs in Hk. split; [done|]. apply He. by rewrite Hk.
  - intros c h. by rewrite Hw.
  - intros c h. rewrite Hw. auto.
  - intros c []%not_elem_of_nil.
Qed.

(** A step that changes only what the maps of the turn do not hold. *)
Lemma same_slots_closes s e at_ at' :
  active_turn s = Some at_ →
  (∀ k, lookup_slot (turn_state at') k = lookup_slot (turn_state at_) k) →
  (∀ k, is_Some (active_slot s k) → ends_request k e = false) →
  closes s e [] (with_active (Some at') s).
Proof.
  intros Ha Hts He. apply quiet_closes; try done.
  intros k. unfold active_slot. rewrite Ha. cbn. apply Hts.
Qed.

Lemma notify_cases k r s b s' :
  notify k r s = (b, s') →
  (b = true ∧ ∃ tx, delivers s k r tx s') ∨ (b = false ∧ closes s (Responded k r false) [] s').
Proof.
  unfold notify. destruct (active_turn s) as [at_|] eqn:Ha; cycle 1.
  { intros [= <- <-]. right. split; [done|]. apply quiet_closes; try done.
    intros k'. unfold active_slot. rewrite Ha. by intros [? ?]. }
  destruct (remove_pending_spec (turn_state at_) k) as (ts & -> & Hts & _).
  destruct (lookup_slot (turn_state at_) k) as [tx|] eqn:Hk; intros [= <- <-]; [left|right];
    (split; [done|]).
  - exists tx. by eapply send_delivers.
  - apply (same_slots_closes _ _ at_); [done| |].
    + intros k'. rewrite Hts. case_decide; congruence.
    + intros k'. unfold active_slot. rewrite Ha. cbn. case_bool_decide as E; [|done].
      subst. rewrite Hk. by intros [? ?].
Qed.

Lemma lookup_slot_granted ts p k :
  lookup_slot (record_granted_permissions ts p) k = lookup_slot ts k.
Proof. by destruct k. Qed.

Lemma lookup_slot_input ts l k : lookup_slot (with_input l ts) k = lookup_slot ts k.
Proof. by destruct k. Qed.

Lemma lookup_slot_count ts k : lookup_slot (count_tool_call ts) k = lookup_slot ts k.
Proof. by destruct k. Qed.

Lemma permissions_cases id r s b s' :
  notify_request_permissions_response id r s = (b, s') →
  (b = true ∧ ∃ tx, delivers s (SPermissions id) (RPermissions r) tx s') ∨
  (b = false ∧ closes s (Responded (SPermissions id) (RPermissions r) false) [] s').
Proof.
  unfold notify_request_permissions_response. destruct (active_turn s) as [at_|] eqn:Ha; cycle 1.
  { intros [= <- <-]. right. split; [done|]. apply quiet_closes; try done.
    intros k'. unfold active_slot. rewrite Ha. by intros [? ?]. }
  destruct (remove_pending_spec (turn_state at_) (SPermissions id)) as (ts & Hrm & Hts & _).
  cbn [remove_pending] in Hrm. rewrite Hrm.
  destruct (lookup_slot (turn_state at_) (SPermissions id)) as [tx|] eqn:Hk;
    cbn [is_none negb andb]; intros [= <- <-]; [left|right]; (split; [done|]).
  - exists tx. destruct (scope r), (negb (request_profile_is_empty (permissions r)));
      (eapply send_delivers; [done|done| |reflexivity|done..]); intros k';
      rewrite ?lookup_slot_granted; apply Hts.
  - assert (Hs : ∀ k', is_Some (active_slot s k') →
      ends_request k' (Responded (SPermissions id) (RPermissions r) false) = false).
    { intros k'. unfold active_slot. rewrite Ha. cbn. case_bool_decide as E; [|done].
      subst. rewrite Hk. by intros [? ?]. }
    destruct (scope r); (eapply same_slots_closes; [done| |done]); intros k'; cbn; rewrite Hts;
      case_decide; congruence.
Qed.

Lemma holds_turn s at_ c :
  active_turn s = Some at_ → c ∈ turn_channels (turn_state at_) → turn_holds s c.
Proof.
  intros Ha [k Hk]%elem_of_turn_channels. left. exists k. unfold active_slot. by rewrite Ha.
Qed.

(** The active turn goes away with its senders. *)
Lemma drop_turn_closes s e a' :
  (∀ k at', a' = Some at' → lookup_slot (turn_state at') k = None) →
  closes s e (match active_turn s with Some at_ => turn_channels (turn_state at_) | None => [] end)
    (with_active a' (drop_turn (active_turn s) s)).
Proof.
  intros Ha'.
  assert (Hnone : ∀ k, active_slot (with_active a' (drop_turn (active_turn s) s)) k = None).
  { intros k. unfold active_slot. cbn. destruct a' as [at'|]; [|done]. by apply Ha'. }
  split; [done|done|..].
  - intros c [[[k Hk]|Hab]|Hw]; [right|left; left; right; exact Hab|left; right; exact Hw].
    unfold active_slot in Hk. destruct (active_turn s) as [at_|]; [|done].
    apply elem_of_turn_channels. by exists k.
  - intros c [[k Hk]|Hab]; [by rewrite Hnone in Hk|by right].
  - intros k c Hk. by rewrite Hnone in Hk.
  - done.
  - auto.
  - intros c Hc. left. destruct (active_turn s) as [at_|] eqn:Ha; [|by apply not_elem_of_nil in Hc].
    by eapply holds_turn.
Qed.

(** A request leaves with the sender it holds. *)
Lemma leave_closes s e c held extra :
  waiters s !! c = Some held → leaves c e → (∀ k, ends_request k e = false) →
  (∀ x, x ∈ extra → e = Dropped x) →
  closes s e (extra ++ option_list held)
    (close_all (extra ++ option_list held) (with_waiters (delete c (waiters s)) s)).
Proof.
  intros Hw Hl He Hx. split; [done|done|..].
  - intros x [Ht|[c' Hc']]; [by left; left|].
    destruct (decide (c' = c)) as [->|Hne]; [right|left; right].
    + rewrite Hw in Hc'. injection Hc' as ->. set_solver.
    + exists c'. cbn. by rewrite lookup_delete_ne.
  - by intros x Ht.
  - intros k x Hk. by split.
  - intros c' h. cbn. rewrite lookup_delete_Some. by intros [_ ?].
  - intros c' h Hh. cbn. destruct (decide (c' = c)) as [->|Hne]; [by right|].
    left. by rewrite lookup_delete_ne.
  - intros x [Hin|Hin]%elem_of_app; [by right; left; apply Hx|right; right].
    exists c. split; [|done]. destruct held as [h|]; [|by apply not_elem_of_nil in Hin].
    by apply list_elem_of_singleton in Hin as ->.
Qed.

Lemma finish_closes c r s s' :
  finish_request c s = Some (r, s') →
  (∃ cs, closes s (Returned c r) cs s') ∧ channels s !! c ≠ Some Waiting.
Proof.
  unfold finish_request. intros Hf. destruct (waiters s !! c) as [held|] eqn:Hw; [|done].
  cbn in Hf.
  assert (Hc : closes s (Returned c r) ([] ++ option_list held)
    (close_all ([] ++ option_list held) (with_waiters (delete c (waiters s)) s))).
  { apply (leave_closes s _ c held []); [done|right; eauto|done|intros ? []%not_elem_of_nil]. }
  destruct (channels s !! c) as [[]|] eqn:Ech; try done; injection Hf as <- <-; split; [eauto|congruence|eauto|congruence].
Qed.

Lemma drop_closes c s : ∃ cs, closes s (Dropped c) cs (drop_request c s).
Proof.
  unfold drop_request. destruct (waiters s !! c) as [held|] eqn:Hw.
  - exists ([c] ++ option_list held). apply leave_closes with (c := c); [done|by left|done|set_solver].
  - exists []. by apply quiet_closes.
Qed.

Lemma take_closes s ids s' : take_active_turn s = (Some ids, s') → closes s Taken [] s'.
Proof.
  unfold take_active_turn. destruct (active_turn s) as [at_|] eqn:Ha; [|done]. intros [= <- <-].
  assert (Ht : ∀ c, turn_holds (with_active None (with_aborting (turn_state at_ :: aborting s) s)) c
    ↔ turn_holds s c).
  { intros c. unfold turn_holds, active_slot. cbn. rewrite Ha. cbn.
    setoid_rewrite elem_of_cons. naive_solver. }
  split; [done|done|..].
  - intros c [Hc|Hc]; left; [left; by rewrite Ht|by right].
  - intros c. by rewrite Ht.
  - done.
  - done.
  - auto.
  - intros c []%not_elem_of_nil.
Qed.

Lemma clear_closes l1 ts l2 s :
  aborting s = l1 ++ ts :: l2 → closes s Cleared (turn_channels ts) (clear_aborted l1 l2 ts s).
Proof.
  intros Hab. split; [done|done|..].
  - intros c [[Hc|(ts' & k & Hin & Hk)]|Hc]; [by left; left; left| |by left; right].
    rewrite Hab in Hin. apply elem_of_app in Hin as [Hin|[->|Hin]%elem_of_cons].
    + left; left; right. exists ts', k. cbn. set_solver.
    + right. apply elem_of_turn_channels. by exists k.
    + left; left; right. exists ts', k. cbn. set_solver.
  - intros c [Hc|(ts' & k & Hin & Hk)]; [by left|right]. exists ts', k. rewrite Hab.
    cbn in Hin. set_solver.
  - intros k c Hk. by split.
  - done.
  - auto.
  - intros c [k Hk]%elem_of_turn_channels. left; right. exists ts, k. rewrite Hab. set_solver.
Qed.

Lemma finished_closes sub_id s items s' :
  on_task_finished sub_id s = (items, s') →
  ∃ cs, closes s (Finished sub_id items (is_none (active_turn s'))) cs s'.
Proof.
  unfold on_task_finished. destruct (active_turn s) as [at_|] eqn:Ha; cycle 1.
  { intros [= <- <-]. exists []. apply quiet_closes; try done.
    intros k. unfold active_slot. rewrite Ha. by intros [? ?]. }
  unfold remove_task. case_bool_decide; intros [= <- <-].
  - exists (turn_channels (turn_state at_)).
    assert (drop_turn (Some (with_turn_state
      {| tasks := swap_remove sub_id (tasks at_); turn_state := turn_state at_ |}
      (with_input [] (turn_state at_)))) s = drop_turn (active_turn s) s) as -> by by rewrite Ha.
    pose proof (drop_turn_closes s (Finished sub_id (pending_input (turn_state at_)) true) None) as Hd.
    rewrite Ha in Hd. rewrite Ha. by apply Hd.
  - exists []. by apply (same_slots_closes _ _ at_).
Qed.

Lemma foldl_push_input items ts :
  foldl push_pending_input ts items = with_input (pending_input ts ++ items) ts.
Proof.
  revert ts. induction items as [|x items IH]; intros ts; cbn [foldl].
  - rewrite app_nil_r. by destruct ts.
  - rewrite IH. unfold push_pending_input, with_input. cbn. by rewrite <- app_assoc.
Qed.

(** The steps that only touch the input and the counters. *)
Lemma input_closes s e at_ ts :
  active_turn s = Some at_ → (∃ l, ts = with_input l (turn_state at_)) ∨ ts = count_tool_call (turn_state at_) →
  (∀ k, ends_request k e = false) →
  closes s e [] (with_active (Some (with_turn_state at_ ts)) s).
Proof.
  intros Ha Hts He. apply (same_slots_closes _ _ at_); [done| |done]. intros k. cbn.
  destruct Hts as [[l ->]| ->]; [apply lookup_slot_input|apply lookup_slot_count].
Qed.

Lemma same_closes s e : (∀ k, ends_request k e = false) → closes s e [] s.
Proof. intros He. by apply quiet_closes. Qed.

(** Every step is a request, a delivered answer, or closes what it drops. *)
Lemma step_cases s e s' :
  step s e s' →
  (∃ k c b, e = Requested k c b ∧ requests s k c b s') ∨
  (∃ k r tx, e = Responded k r true ∧ delivers s k r tx s') ∨
  (∃ cs, closes s e cs s' ∧ (∀ k r, e ≠ Responded k r true) ∧
         ∀ c r, e = Returned c r → channels s !! c ≠ Some Waiting).
Proof.
  destruct 1 as [k c s' H|id c s' H|k r b s' _ H|id r b s' H|c r s' H|c|sub usage|ids s' H
    |l1 ts l2 H|sub items s' H|input ex id s' H|items s' H|items s' H|].
  - left. eexists k, c, _. split; [done|]. by apply begin_request_requests.
  - left. exists (SApproval id), c, true. split; [done|]. by apply patch_requests.
  - right. apply notify_cases in H as [[-> [tx Hd]]|[-> Hc]]; [left; eauto 6|right].
    exists []. split_and!; [done|congruence|done].
  - right. apply permissions_cases in H as [[-> [tx Hd]]|[-> Hc]]; [left; eauto 6|right].
    exists []. split_and!; [done|congruence|done].
  - right; right. apply finish_closes in H as [[cs Hc] Hw]. exists cs. split_and!; [done|done|].
    by intros ? ? [= <- _].
  - right; right. destruct (drop_closes c s) as [cs Hc]. eauto.
  - right; right. eexists. split_and!; [|done|done].
    apply (drop_turn_closes s (Started sub)). intros k at' [= <-]. by destruct k; cbn; rewrite lookup_empty.
  - right; right. eexists. split_and!; [by eapply take_closes|done|done].
  - right; right. eexists. split_and!; [by apply clear_closes|done|done].
  - right; right. apply finished_closes in H as [cs Hc]. eauto.
  - right; right. exists []. split_and!; [|done|done].
    unfold steer_input in H. destruct input; [done|]. destruct (active_turn s) as [at_|] eqn:Ha; [|done].
    destruct (tasks at_) as [|t l]; [done|].
    assert (s' = with_active (Some (with_turn_state at_
      (push_pending_input (turn_state at_) (into_item (u :: input))))) s) as ->
      by (destruct ex; [destruct (negb _)|]; congruence).
    apply input_closes; [done|left; by eexists|done].
  - right; right. exists []. split_and!; [|done|done].
    unfold inject_response_items in H. destruct (active_turn s) as [at_|] eqn:Ha; [|done].
    injection H as <-. rewrite foldl_push_input. apply input_closes; [done|left; by eexists|done].
  - right; right. exists []. split_and!; [|done|done].
    unfold get_pending_input in H. destruct (active_turn s) as [at_|] eqn:Ha; injection H as <- <-;
      [apply input_closes; [done|left; by eexists|done]|by apply same_closes].
  - right; right. exists []. split_and!; [|done|done]. unfold record_tool_call.
    destruct (active_turn s) as [at_|] eqn:Ha; [apply input_closes; auto|by apply same_closes].
Qed.

(** ** The invariant of a session *)
Record accounted (es : list event) (s : Session) : Prop := {
  acc_fresh c : is_Some (channels s !! c) → c < next s;
  acc_turns c : turn_holds s c → c < next s;
  acc_waiters c h : waiters s !! c = Some h →
    c < next s ∧ is_Some (channels s !! c) ∧
    ∀ x, h = Some x → x < c ∨ (x = c ∧ ∃ k, Requested k c false ∈ es);
  acc_waiting c : channels s !! c = Some Waiting → holds s c;
}.

Lemma close_is_Some cs (m : gmap chan chan_state) c :
  is_Some (foldr (settle Closed) m cs !! c) ↔ is_Some (m !! c).
Proof.
  split.
  - intros [v [[-> _]|(_ & -> & _)]%close_lookup]; eauto.
  - intros [v Hv]. destruct v as [|r|].
    + destruct (decide (c ∈ cs)); [exists Closed|exists Waiting]; apply close_lookup; auto.
    + exists (Answered r). apply close_lookup. by left.
    + exists Closed. apply close_lookup. by left.
Qed.

Lemma requests_accounted es s k c b s' :
  accounted es s → requests s k c b s' → accounted (es ++ [Requested k c b]) s'.
Proof.
  intros [Hf Ht Hw Hwait] [[-> Hn] Hab Hsl Hkp (held & cs & Hws & Hch & H1 & H2 & H3 & H4)].
  assert (Hth : ∀ x, turn_holds s' x → x = next s ∨ turn_holds s x).
  { intros x [[k' Hk]|Hx]; [|right; right; by rewrite <- Hab].
    apply Hsl in Hk. case_decide; [by left|]. right; left; eauto. }
  assert (Hks : ∀ x, active_slot s k = Some x → x < next s) by (intros x Hx; apply Ht; left; eauto).
  split.
  - intros x Hx. rewrite Hch, close_is_Some in Hx. rewrite Hn. destruct (decide (x = next s)); [lia|].
    rewrite lookup_insert_ne in Hx by done. apply Hf in Hx. lia.
  - intros x [->|Hx%Ht]%Hth; rewrite Hn; lia.
  - intros x h Hx. rewrite Hws in Hx. rewrite Hch, close_is_Some, Hn.
    destruct (decide (x = next s)) as [->|Hne].
    + rewrite lookup_insert_eq in Hx. injection Hx as <-. rewrite lookup_insert_eq.
      split_and!; [lia|by eexists|]. intros y Hy. destruct (H3 y Hy) as [[-> ->]|Hy'%Hks].
      * right. split; [done|]. exists k. set_solver.
      * left. lia.
    + rewrite lookup_insert_ne in Hx by done. rewrite lookup_insert_ne by done.
      destruct (Hw x h Hx) as (? & ? & Hy). split_and!; [lia|done|]. set_solver.
  - intros x Hx. rewrite Hch in Hx. apply close_lookup in Hx as [[Hx Hni]|[? _]]; [|done].
    specialize (Hni eq_refl). destruct (decide (x = next s)) as [->|Hne].
    + destruct H2 as [?|[->|?]]; [left; left; eauto|right|done]. exists (next s).
      by rewrite Hws, lookup_insert_eq.
    + rewrite lookup_insert_ne in Hx by done. destruct (Hwait x Hx) as [[[k' Hk]|Ha]|[c' Hc']].
      * destruct (decide (k = k')) as [<-|Hk']; [|left; left; eauto].
        destruct (H1 x Hk) as [->|?]; [right|done]. exists (next s). by rewrite Hws, lookup_insert_eq.
      * left; right. by rewrite Hab.
      * right. exists c'. rewrite Hws, lookup_insert_ne; [done|].
        intros <-. destruct (Hw _ _ Hc') as [? _]. lia.
Qed.

Lemma delivers_accounted es s k r tx s' :
  accounted es s → delivers s k r tx s' → accounted (es ++ [Responded k r true]) s'.
Proof.
  intros [Hf Ht Hw Hwait] [Hfound (Hn & Hab & Hws) Hch Hsl].
  assert (Hin : ∀ x, is_Some (channels s' !! x) ↔ is_Some (channels s !! x)).
  { intros x. rewrite Hch. unfold settle. destruct (decide (x = tx)) as [->|Hne].
    - destruct (channels s !! tx) as [[]|] eqn:E; rewrite ?lookup_insert_eq, ?E; split; eauto.
    - destruct (channels s !! tx) as [[]|]; rewrite ?lookup_insert_ne by done; done. }
  split.
  - intros x. rewrite Hin, Hn. apply Hf.
  - intros x Hx. rewrite Hn. apply Ht. destruct Hx as [[k' [_ Hk]%Hsl]|Hx]; [left; eauto|right].
    by rewrite <- Hab.
  - intros x h. rewrite Hws, Hn, Hin. intros (? & ? & Hy)%Hw. split_and!; [done..|]. set_solver.
  - intros x Hx. rewrite Hch in Hx. apply settle_lookup in Hx as [[Hx Hne]|[? _]]; [|done].
    destruct (Hwait x Hx) as [[[k' Hk]|Ha]|Hc'].
    + left; left. exists k'. apply Hsl. split; [|done]. intros <-. specialize (Hne eq_refl). congruence.
    + left; right. by rewrite Hab.
    + right. by rewrite Hws.
Qed.

Lemma closes_accounted es s e cs s' :
  accounted es s → closes s e cs s' → accounted (es ++ [e]) s'.
Proof.
  intros [Hf Ht Hw Hwait] [Hn Hch Hh Htu Hsl Hws Hst Hcl]. split.
  - intros x. rewrite Hch, close_is_Some, Hn. apply Hf.
  - intros x Hx%Htu. rewrite Hn. by apply Ht.
  - intros x h Hx%Hws. rewrite Hch, close_is_Some, Hn. destruct (Hw x h Hx) as (? & ? & Hy).
    split_and!; [done..|]. set_solver.
  - intros x Hx. rewrite Hch in Hx. apply close_lookup in Hx as [[Hx Hni]|[? _]]; [|done].
    destruct (Hh x (Hwait x Hx)) as [?|?]; [done|]. by destruct (Hni eq_refl).
Qed.

Lemma step_accounted es s e s' : accounted es s → step s e s' → accounted (es ++ [e]) s'.
Proof.
  intros Ha [(k & c & b & -> & Hr)|[(k & r & tx & -> & Hd)|(cs & Hc & _)]]%step_cases.
  - by eapply requests_accounted.
  - by eapply delivers_accounted.
  - by eapply closes_accounted.
Qed.

Lemma new_accounted : accounted [] session_new.
Proof.
  split; cbn.
  - intros c. rewrite lookup_empty. by intros [? ?].
  - intros c [[k Hk]|(ts & k & Hin & _)]; [done|]. by apply not_elem_of_nil in Hin.
  - intros c h. by rewrite lookup_empty.
  - intros c. by rewrite lookup_empty.
Qed.

Lemma steps_accounted es s : steps session_new es s → accounted es s.
Proof.
  remember session_new as s0 eqn:E. induction 1 as [|s0 es s e s' _ IH Hs]; subst; [apply new_accounted|].
  eapply step_accounted; [|done]. by apply IH.
Qed.

(** ** Requests return *)
Lemma steps_trans s1 es1 s2 es2 s3 : steps s1 es1 s2 → steps s2 es2 s3 → steps s1 (es1 ++ es2) s3.
Proof.
  intros H1 H2. induction H2 as [|s2 es2 s3 e s4 _ IH Hs]; [by rewrite app_nil_r|].
  rewrite app_assoc. econstructor; eauto.
Qed.

Lemma steps_one s e s' : step s e s' → steps s [e] s'.
Proof. intros Hs. apply (steps_snoc s [] s); [constructor|done]. Qed.

Definition is_return (e : event) : Prop := match e with Returned _ _ => True | _ => False end.

(** What a request returns when its channel is settled. *)
Definition returned_value (v : chan_state) : option Response :=
  match v with Answered r => Some r | _ => None end.

Lemma return_spec s c r s' :
  step s (Returned c r) s' →
  ∃ held v, waiters s !! c = Some held ∧ channels s !! c = Some v ∧ v ≠ Waiting ∧ r = returned_value v ∧
    waiters s' = delete c (waiters s) ∧ active_turn s' = active_turn s ∧ aborting s' = aborting s.
Proof.
  inversion 1 as [| | | |c' r' s'' Hf| | | | | | | | |]; subst. unfold finish_request in Hf.
  destruct (waiters s !! c) as [held|] eqn:Hw; [|done]. cbn in Hf.
  destruct (channels s !! c) as [[|x|]|]; try done; injection Hf as <- <-.
  - by exists held, (Answered x).
  - by exists held, Closed.
Qed.

Lemma return_enabled s c v :
  is_Some (waiters s !! c) → channels s !! c = Some v → v ≠ Waiting →
  ∃ s', step s (Returned c (returned_value v)) s'.
Proof.
  intros [held Hw] Hv Hne. eexists. apply step_return. unfold finish_request. rewrite Hw. cbn.
  rewrite Hv. by destruct v.
Qed.

Lemma next_step s e s' : step s e s' → next s ≤ next s'.
Proof.
  intros [(k & c & b & -> & [[-> ->] _ _ _ _])|[(k & r & tx & -> & [_ (-> & _) _ _])|(cs & [-> _ _ _ _ _ _ _] & _)]]%step_cases;
    lia.
Qed.

(** A settled request stays so until it is over. *)
Lemma settled_step s e s' c v held :
  step s e s' → v ≠ Waiting → c < next s → channels s !! c = Some v → waiters s !! c = Some held →
  channels s' !! c = Some v ∧ (waiters s' !! c = Some held ∨ leaves c e).
Proof.
  intros [(k & c1 & b & -> & [[-> _] _ _ _ (h & cs & Hws & Hch & _)])
    |[(k & r & tx & -> & [_ (_ & _ & Hws) Hch _])|(cs & [_ Hch _ _ _ _ Hst _] & _)]]%step_cases Hv Hlt Hc Hw.
  - rewrite Hws, Hch. split; [|left; rewrite lookup_insert_ne; [done|lia]].
    apply close_lookup. left. by rewrite lookup_insert_ne by lia.
  - rewrite Hws, Hch. split; [|by left]. unfold settle. destruct (decide (c = tx)) as [->|Hne].
    + rewrite Hc. by destruct v.
    + by destruct (channels s !! tx) as [[]|]; rewrite ?lookup_insert_ne.
  - rewrite Hch. split; [|by apply Hst]. apply close_lookup. by left.
Qed.

(** A request that is over does not come back. *)
Lemma gone_step s e s' c :
  step s e s' → c < next s → waiters s !! c = None → waiters s' !! c = None.
Proof.
  intros [(k & c1 & b & -> & [[-> _] _ _ _ (h & cs & Hws & _)])
    |[(k & r & tx & -> & [_ (_ & _ & Hws) _ _])|(cs & [_ _ _ _ _ Hws _ _] & _)]]%step_cases Hlt Hc.
  - by rewrite Hws, lookup_insert_ne by lia.
  - by rewrite Hws.
  - destruct (waiters s' !! c) eqn:E; [|done]. apply Hws in E. congruence.
Qed.

Lemma leave_step s e s' c : step s e s' → leaves c e → waiters s' !! c = None.
Proof.
  intros Hs [->|[r ->]].
  - inversion Hs; subst. unfold drop_request. destruct (waiters s !! c) eqn:E; [|done]. cbn. apply lookup_delete_eq.
  - apply return_spec in Hs as (? & ? & _ & _ & _ & _ & -> & _). apply lookup_delete_eq.
Qed.

Lemma settled_steps s es s' c v held :
  steps s es s' → v ≠ Waiting → c < next s → channels s !! c = Some v → waiters s !! c = Some held →
  c < next s' ∧ (∀ r, Returned c r ∈ es → r = returned_value v) ∧
  (channels s' !! c = Some v ∧ waiters s' !! c = Some held ∨
   waiters s' !! c = None ∧ (Dropped c ∈ es ∨ Returned c (returned_value v) ∈ es)).
Proof.
  intros Hs Hv Hlt Hc Hw. induction Hs as [|s es s1 e s2 _ IH Hs].
  { split_and!; [done|by intros r ?%not_elem_of_nil|by left]. }
  destruct (IH Hlt Hc Hw) as (Hlt1 & Hr & Hcase). pose proof (next_step _ _ _ Hs) as Hn. split; [lia|].
  assert (Hret : ∀ r, e = Returned c r → r = returned_value v ∧ waiters s1 !! c ≠ None).
  { intros r ->. destruct (return_spec _ _ _ _ Hs) as (h & v' & Hw' & Hc' & _ & -> & _).
    destruct Hcase as [[Hc1 _]|[Hg _]]; [|congruence]. split; congruence. }
  split.
  - intros r [?|<-%list_elem_of_singleton]%elem_of_app; [by apply Hr|]. by apply Hret.
  - destruct Hcase as [[Hc1 Hw1]|[Hg Hout]].
    + destruct (settled_step _ _ _ _ _ _ Hs Hv Hlt1 Hc1 Hw1) as [Hc2 [?|Hl]]; [by left|right].
      split; [by eapply leave_step|]. destruct Hl as [->|[r ->]]; [set_solver|].
      destruct (Hret r eq_refl) as [-> _]. set_solver.
    + right. split; [by eapply gone_step|]. set_solver.
Qed.

(** Requests that return. *)
Lemma returns_run es s es' s' :
  accounted es s → active_turn s = None → aborting s = [] → steps s es' s' → Forall is_return es' →
  accounted (es ++ es') s' ∧ active_turn s' = None ∧ aborting s' = [] ∧
  length es' + size (waiters s') = size (waiters s).
Proof.
  intros Hacc Ha Hab Hs. induction Hs as [|s es' s1 e s2 _ IH Hs]; intros Hr; [by rewrite app_nil_r|].
  apply Forall_app in Hr as [Hr [He _]%Forall_cons]. destruct (IH Hacc Ha Hab Hr) as (Hacc1 & Ha1 & Hab1 & Hl).
  destruct e; try done. pose proof (step_accounted _ _ _ _ Hacc1 Hs) as Hacc2. rewrite <-app_assoc in Hacc2.
  destruct (return_spec _ _ _ _ Hs) as (h & v & Hw & _ & _ & _ & -> & -> & ->). split_and!; [done..|].
  rewrite length_app. cbn [length]. rewrite <-Hl, map_size_delete, Hw.
  assert (size (waiters s1) ≠ 0); [|lia]. intros Hz%map_size_empty_inv. by rewrite Hz in Hw.
Qed.

Lemma no_turn_holder es s c :
  accounted es s → active_turn s = None → aborting s = [] →
  (∀ k c', Requested k c' false ∈ es → c' < c) →
  is_Some (waiters s !! c) → ∃ c', is_Some (waiters s !! c') ∧ channels s !! c' ≠ Some Waiting.
Proof.
  intros Hacc Ha Hab Hes. remember (next s - c) as n eqn:En. revert c En Hes.
  induction n as [n IH] using lt_wf_ind. intros c -> Hes [h Hw].
  destruct (acc_waiters _ _ Hacc _ _ Hw) as (_ & [v Hc] & _).
  destruct v as [|r|]; [|exists c; rewrite Hc; split; [by eexists|done]..].
  destruct (acc_waiting _ _ Hacc _ Hc) as [[[k Hk]|(ts & k & Hin & _)]|[c' Hc']].
  - unfold active_slot in Hk. by rewrite Ha in Hk.
  - rewrite Hab in Hin. by apply not_elem_of_nil in Hin.
  - destruct (acc_waiters _ _ Hacc _ _ Hc') as (Hlt & _ & Hx).
    destruct (Hx c eq_refl) as [?|[-> [k Hk]]]; [|apply Hes in Hk; lia].
    eapply (IH (next s - c')); [lia|done| |eauto]. intros k c1 Hc1%Hes. lia.
Qed.

(** C33: requests are never lost.  In every session, the sender of a waiting
    request is held by the active turn, by a turn being aborted, by a later
    request that took its place in the map and has not returned, or by the
    request itself when it was made without a turn.  A request whose channel is
    answered or closed can return that answer (or nothing), and whatever
    happens it stays so until it returns, just that, or its task is aborted.
    When no turn is active or being aborted, at most as many returns are
    possible as there are requests, and when no further one is, every request
    such that it and all later ones were made in a turn has returned. *)
Theorem requests_return es s :
  steps session_new es s →
  (∀ c, channels s !! c = Some Waiting →
     turn_holds s c ∨ (∃ c', c < c' ∧ waiters s !! c' = Some (Some c)) ∨
     (∃ k, Requested k c false ∈ es)) ∧
  (∀ c v, is_Some (waiters s !! c) → channels s !! c = Some v → v ≠ Waiting →
     (∃ s', step s (Returned c (returned_value v)) s') ∧
     ∀ es' s', steps s es' s' →
       (∀ r, Returned c r ∈ es' → r = returned_value v) ∧
       (Dropped c ∈ es' ∨ Returned c (returned_value v) ∈ es' ∨
        channels s' !! c = Some v ∧ is_Some (waiters s' !! c))) ∧
  (active_turn s = None → aborting s = [] →
     ∀ es' s', steps s es' s' → Forall is_return es' →
       length es' ≤ size (waiters s) ∧
       ((∀ c r s'', ¬ step s' (Returned c r) s'') →
          ∀ c, (∀ k c', Requested k c' false ∈ es → c' < c) → waiters s' !! c = None)).
Proof.
  intros Hacc%steps_accounted. split_and!.
  - intros c [Ht|[c' Hc']]%(acc_waiting _ _ Hacc); [by left|right].
    destruct (acc_waiters _ _ Hacc _ _ Hc') as (_ & _ & Hx).
    destruct (Hx c eq_refl) as [?|[-> ?]]; eauto.
  - intros c v Hw Hv Hne. split; [by apply return_enabled|]. intros es' s' Hs. destruct Hw as [h Hw].
    assert (Hlt : c < next s) by (eapply acc_fresh; eauto).
    destruct (settled_steps _ _ _ _ _ _ Hs Hne Hlt Hv Hw) as (_ & Hr & [[? ?]|[_ [?|?]]]); eauto 6.
  - intros Ha Hab es' s' Hs Hr. destruct (returns_run _ _ _ _ Hacc Ha Hab Hs Hr) as (Hacc' & Ha' & Hab' & Hl).
    split; [lia|]. intros Hstop c Hes. destruct (waiters s' !! c) as [h|] eqn:Hw; [|done]. exfalso.
    destruct (no_turn_holder _ _ c Hacc' Ha' Hab') as (c' & Hw' & Hc'); [|by eauto|].
    { intros k c1 [?|Hin]%elem_of_app; [by eapply Hes|].
      rewrite Forall_forall in Hr. by apply Hr in Hin. }
    destruct Hw' as [h' Hw']. destruct (acc_waiters _ _ Hacc' _ _ Hw') as (_ & [v Hv] & _).
    destruct (return_enabled s' c' v) as [s'' Hstep]; [by eauto|done|congruence|]. by eapply Hstop.
Qed.

(** A request that holds its own sender. *)
Definition stuck (s : Session) (c : chan) : Prop :=
  channels s !! c = Some Waiting ∧ waiters s !! c = Some (Some c) ∧ ¬ turn_holds s c ∧
  (∀ c', waiters s !! c' = Some (Some c) → c' = c) ∧ c < next s.

Lemma stuck_step s e s' c : stuck s c → e ≠ Dropped c → step s e s' → stuck s' c.
Proof.
  intros (Hc & Hw & Ht & Hu & Hlt) He
    [(k & c1 & b & -> & Hr)|[(k & r & tx & -> & Hd)|(cs & Hcl & Hnr & Hret)]]%step_cases.
  - destruct Hr as [[-> Hn] Hab Hsl Hkp (held & cs & Hws & Hch & H1 & H2 & H3 & H4)].
    assert (Hna : ∀ k', active_slot s k' ≠ Some c) by (intros k' Hk'; apply Ht; left; eauto).
    assert (Hne : c ≠ next s) by lia. split_and!.
    + rewrite Hch. apply close_lookup. left. rewrite lookup_insert_ne by done. split; [done|].
      intros _ [->|Hk]%H4; [done|by eapply Hna].
    + by rewrite Hws, lookup_insert_ne.
    + intros [[k' Hk]|Hx]; [|apply Ht; right; by rewrite <- Hab].
      apply Hsl in Hk. case_decide; [done|by eapply Hna].
    + intros c'. rewrite Hws. destruct (decide (c' = next s)) as [->|Hne'].
      * rewrite lookup_insert_eq. intros [= ->]. destruct (H3 c eq_refl) as [[? _]|Hk]; [done|].
        by apply Hna in Hk.
      * rewrite lookup_insert_ne by done. apply Hu.
    + lia.
  - destruct Hd as [Hf (Hn & Hab & Hws) Hch Hsl].
    assert (c ≠ tx) by (intros ->; apply Ht; left; eauto). unfold stuck. rewrite Hws, Hn. split_and!; [|done| |done|done].
    + rewrite Hch. unfold settle. destruct (channels s !! tx) as [[]|]; rewrite ?lookup_insert_ne by done; done.
    + intros [[k' [_ Hk]%Hsl]|Hx]; apply Ht; [left; eauto|right; by rewrite <- Hab].
  - destruct Hcl as [Hn Hch Hh Htu Hsl Hws Hst Hclo].
    assert (Hnl : ¬ leaves c e) by (intros [->|[r ->]]; [done|by eapply Hret]).
    split_and!.
    + rewrite Hch. apply close_lookup. left. split; [done|].
      intros _ [?|[->|(c' & ->%Hu & ?)]]%Hclo; done.
    + destruct (Hst _ _ Hw); done.
    + by intros ?%Htu.
    + intros c' ?%Hws. by apply Hu.
    + by rewrite Hn.
Qed.

(** A request made without a turn never returns.  Its function keeps its own
    sender while it waits for it, so the channel is never answered nor closed:
    whatever happens afterwards, and as long as the task itself is not
    aborted, the request waits.  The documentation promises an abort. *)
Theorem request_without_turn_hangs es s k c s1 es' s2 :
  steps session_new es s → active_turn s = None → begin_request k s = (c, s1) →
  steps s1 es' s2 → Dropped c ∉ es' →
  channels s2 !! c = Some Waiting ∧ ∀ r, Returned c r ∉ es'.
Proof.
  intros Hacc%steps_accounted Ha Hb Hs Hnd.
  assert (stuck s1 c) as Hst.
  { assert (Hnw : waiters s !! c = None).
    { destruct (waiters s !! c) eqn:E; [|done]. exfalso. unfold begin_request in Hb. cbn in Hb. rewrite Ha in Hb.
      injection Hb as <- _. destruct (acc_waiters _ _ Hacc _ _ E). lia. }
    unfold begin_request in Hb. cbn in Hb. rewrite Ha in Hb. injection Hb as <- <-. unfold stuck. cbn.
    rewrite !lookup_insert_eq. split_and!; [done|done| | |lia].
    - intros [[k' Hk]|Hx]; [unfold active_slot in Hk; cbn in Hk; done|].
      assert (next s < next s); [|lia]. apply (acc_turns _ _ Hacc). by right.
    - intros c'. destruct (decide (c' = next s)) as [->|Hne]; [done|]. rewrite lookup_insert_ne by done.
      intros Hc'. destruct (acc_waiters _ _ Hacc _ _ Hc') as (? & _ & Hx).
      destruct (Hx _ eq_refl) as [?|[-> _]]; lia. }
  clear Hacc Ha Hb. assert (stuck s2 c ∧ ∀ r, Returned c r ∉ es') as [[? _] ?]; [|done].
  induction Hs as [|s1 es1 s2 e s3 _ IH Hstep]; [split; [done|intros r []%not_elem_of_nil]|].
  destruct IH as [IH Hnr]; [set_solver|done|].
  split; [apply (stuck_step s2 e); [done|set_solver|done]|].
  intros r [?|<-%list_elem_of_singleton]%elem_of_app; [by eapply Hnr|].
  apply step_cases in Hstep as [(?&?&?&?&_)|[(?&?&?&?&_)|(cs & _ & _ & Hret)]]; [done|done|].
  by eapply Hret; [|apply IH].
Qed.

(** ** Answers *)

(** The request of the channel, and that nothing has ended it since. *)
Definition asked (es : list event) (k : slot) (c : chan) : Prop :=
  ∃ es1 b es2, es = es1 ++ Requested k c b :: es2 ∧ Forall (λ e, ends_request k e = false) es2.

(** The answer to the request of the channel. *)
Definition answered (es : list event) (c : chan) (r : Response) : Prop :=
  ∃ es1 es2 k, es = es1 ++ Responded k r true :: es2 ∧ asked es1 k c.

Lemma asked_snoc es k c e : asked es k c → ends_request k e = false → asked (es ++ [e]) k c.
Proof.
  intros (es1 & b & es2 & -> & Hf) He. exists es1, b, (es2 ++ [e]). split; [by rewrite <- app_assoc|].
  apply Forall_app. auto.
Qed.

Lemma answered_snoc es c r e : answered es c r → answered (es ++ [e]) c r.
Proof.
  intros (es1 & es2 & k & -> & Ha). exists es1, (es2 ++ [e]), k. split; [by rewrite <- app_assoc|done].
Qed.

Lemma slots_asked es s :
  steps session_new es s →
  (∀ k c, active_slot s k = Some c → asked es k c) ∧
  (∀ c r, channels s !! c = Some (Answered r) → answered es c r).
Proof.
  remember session_new as s0 eqn:E. induction 1 as [|s0 es s e s' Hs IH Hstep]; subst.
  { split; [done|]. intros c r. cbn. by rewrite lookup_empty. }
  destruct (IH eq_refl) as [Hslot Hans]. clear IH.
  apply step_cases in Hstep as [(k & c & b & -> & Hr)|[(k & r & tx & -> & Hd)|(cs & Hc & _)]].
  - destruct Hr as [[-> Hn] _ Hsl _ (held & cs & _ & Hch & _)]. split.
    + intros k' c' Hk. apply Hsl in Hk. case_decide as Ek.
      * subst. exists es, b, []. split; [done|constructor].
      * apply asked_snoc; [by apply Hslot|]. cbn. by case_bool_decide.
    + intros c' r Hc'. rewrite Hch in Hc'. apply close_lookup in Hc' as [[Hc' _]|[? _]]; [|done].
      apply answered_snoc, Hans. destruct (decide (c' = next s)) as [->|Hne];
        [by rewrite lookup_insert_eq in Hc'|by rewrite lookup_insert_ne in Hc'].
  - destruct Hd as [Hf _ Hch Hsl]. split.
    + intros k' c' [Hne Hk]%Hsl. apply asked_snoc; [by apply Hslot|]. cbn. by case_bool_decide.
    + intros c' r' Hc'. rewrite Hch in Hc'.
      apply settle_lookup in Hc' as [[Hc' _]|([= <-] & -> & _)]; [by apply answered_snoc, Hans|].
      exists es, [], k. split; [done|by apply Hslot].
  - split.
    + intros k c [Hk He]%(clo_slots _ _ _ _ Hc). by apply asked_snoc; [apply Hslot|].
    + intros c r Hcr. rewrite (clo_channels _ _ _ _ Hc) in Hcr.
      apply close_lookup in Hcr as [[Hcr _]|[? _]]; [|done]. by apply answered_snoc, Hans.
Qed.

Lemma steps_app_inv es1 es2 s s' :
  steps s (es1 ++ es2) s' → ∃ s1, steps s es1 s1 ∧ steps s1 es2 s'.
Proof.
  revert s'. induction es2 as [|e es2 IH] using rev_ind; intros s'.
  - rewrite app_nil_r. intros Hs. exists s'. split; [done|constructor].
  - rewrite app_assoc. remember ((es1 ++ es2) ++ [e]) as es eqn:E.
    destruct 1 as [|s1 es s2 e' s3 Hs Hstep]; [by destruct (es1 ++ es2)|].
    apply app_inj_tail in E as [-> ->]. apply IH in Hs as (s0 & ? & ?).
    exists s0. split; [done|]. by econstructor.
Qed.

Lemma steps_one_inv s e s' : steps s [e] s' → step s e s'.
Proof.
  assert (Hnil : ∀ s1 s2, steps s1 [] s2 → s1 = s2).
  { intros s1 s2. remember [] as es eqn:E. destruct 1 as [|? es]; [done|by destruct es]. }
  remember [e] as es eqn:E. destruct 1 as [|s1 es s2 e' s3 Hs Hstep]; [done|].
  apply (app_inj_tail es []) in E as [-> ->]. by apply Hnil in Hs as ->.
Qed.

Lemma returned_inv s c r s' : step s (Returned c r) s' → finish_request c s = Some (r, s').
Proof. by inversion 1. Qed.

(** A request that has left does not come back. *)
Lemma gone_steps s es s' c :
  steps s es s' → waiters s !! c = None → c < next s →
  waiters s' !! c = None ∧ c < next s' ∧ ∀ r, Returned c r ∉ es.
Proof.
  induction 1 as [|s es s1 e s' _ IH Hstep]; intros Hw Hlt;
    [by split_and!; [..|intros r []%not_elem_of_nil]|].
  destruct (IH Hw Hlt) as (Hw1 & Hlt1 & Hno). split_and!.
  - apply step_cases in Hstep as [(k & c1 & b & -> & Hr)|[(k & r & tx & -> & Hd)|(cs & Hc & _)]].
    + destruct Hr as [[-> _] _ _ _ (held & cs & -> & _)]. rewrite lookup_insert_ne by lia. done.
    + destruct Hd as [_ (_ & _ & ->) _ _]. done.
    + destruct (waiters s' !! c) eqn:E; [|done]. apply (clo_waiters _ _ _ _ Hc) in E. congruence.
  - apply step_cases in Hstep as [(k & c1 & b & -> & Hr)|[(k & r & tx & -> & Hd)|(cs & Hc & _)]].
    + destruct Hr as [[-> ->] _ _ _ _]. lia.
    + destruct Hd as [_ (-> & _ & _) _ _]. done.
    + by rewrite (clo_next _ _ _ _ Hc).
  - intros r [?|<-%list_elem_of_singleton]%elem_of_app; [by eapply Hno|].
    apply returned_inv in Hstep. unfold finish_request in Hstep. by rewrite Hw1 in Hstep.
Qed.

(** An answer reaches the request it is for.  When a request returns with an
    answer, the client gave that answer under the key of the request, while its
    turn was active, after the request and before any other request or answer
    under the same key; and a request returns once. *)
Theorem answers_reach_their_request es1 c r es2 s :
  steps session_new (es1 ++ Returned c (Some r) :: es2) s →
  answered es1 c r ∧ (∀ r', Returned c r' ∉ es2).
Proof.
  intros (s1 & H1 & H2)%steps_app_inv.
  apply (steps_app_inv [Returned c (Some r)]) in H2 as (s2 & Hone & H2).
  apply steps_one_inv, returned_inv in Hone as Hstep. assert (Hacc := steps_accounted _ _ H1).
  unfold finish_request in Hstep. destruct (waiters s1 !! c) as [held|] eqn:Hw; [|done]. cbn in Hstep.
  assert (Hlt : c < next s1) by by destruct (acc_waiters _ _ Hacc _ _ Hw).
  destruct (channels s1 !! c) as [[|r'|]|] eqn:Hc; try done. injection Hstep as -> <-.
  split; [by apply (slots_asked _ _ H1)|].
  eapply gone_steps; [exact H2|cbn; by rewrite lookup_delete_eq|done].
Qed.

(** ** Granted permissions *)
Definition event_grants (e : event) (sc : PermissionGrantScope) (g : grant) : Prop :=
  match e with
  | Responded (SPermissions _) (RPermissions r) true =>
      scope r = sc ∧ profile_grants (profile_from_request (permissions r)) g
  | _ => False
  end.

(** The events since the last turn began. *)
Definition this_turn (es : list event) : list event :=
  foldl (λ acc e, match e with Started _ => [] | _ => acc ++ [e] end) [] es.

Lemma this_turn_snoc es e :
  this_turn (es ++ [e]) = match e with Started _ => [] | _ => this_turn es ++ [e] end.
Proof. unfold this_turn. by rewrite foldl_app. Qed.

(** Is a turn active after these events? *)
Definition turn_open (es : list event) : bool :=
  foldl (λ b e, match e with Started _ => true | Taken | Finished _ _ true => false | _ => b end)
    false es.

Lemma turn_open_snoc es e :
  turn_open (es ++ [e]) =
  match e with Started _ => true | Taken | Finished _ _ true => false | _ => turn_open es end.
Proof. unfold turn_open. by rewrite foldl_app. Qed.

Abbreviation grants := (from_option_grants profile_grants).

(** The items a step puts into the turn and takes out of it. *)
Definition pushed_by (e : event) : list Item := match e with Pushed items => items | _ => [] end.
Definition taken_by (e : event) : list Item := match e with Took items => items | _ => [] end.

(** What a step does to the grants and the input of the turn. *)
Definition turn_effect (s : Session) (e : event) (s' : Session) : Prop :=
  match active_turn s', active_turn s with
  | Some at', Some at_ =>
      match e with
      | Started _ => granted_permissions (turn_state at') = None ∧ pending_input (turn_state at') = []
      | _ => ends_turn e = false ∧
             (∀ g, grants (granted_permissions (turn_state at')) g ↔
                   grants (granted_permissions (turn_state at_)) g ∨ event_grants e Turn g) ∧
             pending_input (turn_state at_) ++ pushed_by e
             = taken_by e ++ pending_input (turn_state at')
      end
  | Some at', None =>
      (∃ sub_id, e = Started sub_id) ∧ granted_permissions (turn_state at') = None ∧
      pending_input (turn_state at') = []
  | None, Some at_ =>
      e = Taken ∨ ∃ sub_id, e = Finished sub_id (pending_input (turn_state at_)) true
  | None, None => (∀ sub_id, e ≠ Started sub_id) ∧ pushed_by e = []
  end.

(** The turn state changes in neither of the two. *)
Lemma same_turn_effect s e s' at_ at' :
  active_turn s = Some at_ → active_turn s' = Some at' →
  granted_permissions (turn_state at') = granted_permissions (turn_state at_) →
  pending_input (turn_state at_) ++ pushed_by e = taken_by e ++ pending_input (turn_state at') →
  (∀ sub_id, e ≠ Started sub_id) → ends_turn e = false → (∀ g, ¬ event_grants e Turn g) →
  turn_effect s e s'.
Proof.
  intros Ha Ha' Hg Hp Hst Hend He. unfold turn_effect. rewrite Ha, Ha'.
  assert (∀ g, grants (granted_permissions (turn_state at')) g ↔
    grants (granted_permissions (turn_state at_)) g ∨ event_grants e Turn g).
  { intros g. rewrite Hg. specialize (He g). tauto. }
  by destruct e.
Qed.

Lemma no_turn_effect s e s' :
  active_turn s = None → active_turn s' = None → (∀ sub_id, e ≠ Started sub_id) →
  pushed_by e = [] → turn_effect s e s'.
Proof. intros Ha Ha' ? ?. unfold turn_effect. by rewrite Ha, Ha'. Qed.

(** The active turn stays as it is. *)
Lemma kept_turn_effect s e s' :
  active_turn s' = active_turn s → (∀ sub_id, e ≠ Started sub_id) → ends_turn e = false →
  pushed_by e = [] → taken_by e = [] → (∀ g, event_grants e Turn g → False) → turn_effect s e s'.
Proof.
  intros Ha Hst Hend Hp Ht He. destruct (active_turn s) as [at_|] eqn:E; [|by apply no_turn_effect].
  eapply same_turn_effect; try done. by rewrite Hp, Ht, app_nil_r.
Qed.

Lemma begin_effect k s c s' b :
  begin_request k s = (c, s') →
  session_granted s' = session_granted s ∧ turn_effect s (Requested k c b) s'.
Proof.
  unfold begin_request, open_channel. cbn [active_turn]. destruct (active_turn s) as [at_|] eqn:Ha.
  - destruct (insert_pending_spec (turn_state at_) k (next s)) as (ts & -> & _ & Hg & Hp).
    intros [= <- <-]. split; [done|]. eapply same_turn_effect; [done|reflexivity|done|cbn; by rewrite Hp, app_nil_r|done|done|by intros g []].
  - intros [= <- <-]. split; [done|]. by apply no_turn_effect.
Qed.

Lemma notify_effect k r s b s' :
  answers k r = true → notify k r s = (b, s') →
  session_granted s' = session_granted s ∧ turn_effect s (Responded k r b) s'.
Proof.
  intros Hk. unfold notify. destruct (active_turn s) as [at_|] eqn:Ha.
  - destruct (remove_pending_spec (turn_state at_) k) as (ts & -> & _ & Hg & Hp).
    destruct (lookup_slot (turn_state at_) k); intros [= <- <-]; (split; [done|]);
      (eapply same_turn_effect; [done|reflexivity|done|cbn; by rewrite Hp, app_nil_r|done|done|]);
      intros g; destruct k, r; try done; by intros [].
  - intros [= <- <-]. split; [done|]. by apply no_turn_effect.
Qed.

Lemma empty_request_grants p g :
  request_profile_is_empty p = true → ¬ profile_grants (profile_from_request p) g.
Proof.
  intros He. apply empty_profile_grants. unfold profile_is_empty, profile_from_request.
  unfold request_profile_is_empty in He. cbn. by rewrite He.
Qed.

Lemma permissions_effect id r s b s' :
  notify_request_permissions_response id r s = (b, s') →
  (∀ g, grants (session_granted s') g ↔ grants (session_granted s) g ∨
        event_grants (Responded (SPermissions id) (RPermissions r) b) SessionScope g) ∧
  turn_effect s (Responded (SPermissions id) (RPermissions r) b) s'.
Proof.
  unfold notify_request_permissions_response. destruct (active_turn s) as [at_|] eqn:Ha; cycle 1.
  { intros [= <- <-]. split; [cbn; tauto|]. by apply no_turn_effect. }
  destruct (remove_pending_request_permissions (turn_state at_) id) as [entry ts] eqn:Hrm.
  assert (granted_permissions ts = granted_permissions (turn_state at_) ∧
          pending_input ts = pending_input (turn_state at_)) as [Hg Hp].
  { unfold remove_pending_request_permissions in Hrm. by injection Hrm as <- <-. }
  destruct entry as [tx|]; cbn [is_none negb andb]; intros [= <- <-].
  - destruct (request_profile_is_empty (permissions r)) eqn:He; cbn [negb].
    + assert (Hn := λ g, empty_request_grants _ g He). split.
      * intros g. cbn. specialize (Hn g). destruct (scope r); cbn; tauto.
      * unfold turn_effect. rewrite Ha. destruct (scope r) eqn:Hsc; cbn; rewrite Hg, Hp, app_nil_r;
          split_and!; try done; intros g; specialize (Hn g); rewrite ?Hsc; tauto.
    + split.
      * intros g. cbn. destruct (scope r) eqn:Hsc; cbn; [intuition discriminate|].
        etransitivity; [exact (merge_grants (session_granted s)
          (Some (profile_from_request (permissions r))) g)|]. cbn. intuition.
      * unfold turn_effect. rewrite Ha. destruct (scope r) eqn:Hsc; cbn; rewrite Hp, app_nil_r;
          (split; [done|]); split; [|done| |done]; intros g; rewrite Hsc, <- Hg; [|cbn; intuition discriminate].
        etransitivity; [exact (merge_grants (granted_permissions ts)
          (Some (profile_from_request (permissions r))) g)|]. cbn. intuition.
  - split; [intros g; cbn; destruct (scope r); cbn; tauto|].
    destruct (scope r) eqn:Hsc; (eapply same_turn_effect; [done|reflexivity|done|cbn; by rewrite Hp, app_nil_r|done|done|]); by intros g [].
Qed.

Lemma same_session_grants s e s' :
  session_granted s' = session_granted s → (∀ g, ¬ event_grants e SessionScope g) →
  ∀ g, grants (session_granted s') g ↔
       grants (session_granted s) g ∨ event_grants e SessionScope g.
Proof. intros -> He g. specialize (He g). tauto. Qed.

Ltac keeps_grants := split; [by apply same_session_grants; [|intros g []]|].

(** Every step but the answers to permission requests leaves the session's
    grants. *)
Lemma step_effect s e s' :
  step s e s' →
  (∀ g, grants (session_granted s') g ↔ grants (session_granted s) g ∨ event_grants e SessionScope g)
  ∧ turn_effect s e s'.
Proof.
  destruct 1 as [k c s' H|id c s' H|k r b s' Hk H|id r b s' H|c r s' H|c|sub usage|ids s' H
    |l1 ts l2 H|sub items s' H|input ex id s' H|items s' H|items s' H|].
  - apply (begin_effect _ _ _ _ (negb (is_none (active_turn s)))) in H as [? ?].
    split; [by apply same_session_grants; [|intros g []]|done].
  - unfold request_patch_approval in H. destruct (begin_request _ s) as [tx s1] eqn:Hb.
    apply (begin_effect _ _ _ _ true) in Hb as [Hg He]. injection H as <- <-.
    keeps_grants; exact He.
  - apply notify_effect in H as [? ?]; [|done]. split; [|done]. apply same_session_grants; [done|].
    intros g. destruct k, r; try done; by intros [].
  - by apply permissions_effect in H.
  - unfold finish_request in H. destruct (waiters s !! c) as [held|]; [|done]. cbn in H.
    assert (s' = close_all (option_list held) (with_waiters (delete c (waiters s)) s)) as ->
      by (destruct (channels s !! c) as [[]|]; congruence).
    keeps_grants. by apply kept_turn_effect.
  - assert (session_granted (drop_request c s) = session_granted s ∧
      active_turn (drop_request c s) = active_turn s) as [? ?]
      by (unfold drop_request; by destruct (waiters s !! c)).
    keeps_grants. by apply kept_turn_effect.
  - keeps_grants. unfold turn_effect. cbn. destruct (active_turn s); eauto.
  - unfold take_active_turn in H. destruct (active_turn s) as [at_|] eqn:Ha; [|done].
    injection H as <- <-. keeps_grants. unfold turn_effect. cbn. rewrite Ha. auto.
  - keeps_grants. by apply kept_turn_effect.
  - unfold on_task_finished in H. destruct (active_turn s) as [at_|] eqn:Ha; cycle 1.
    { injection H as <- <-. keeps_grants. by apply no_turn_effect. }
    unfold remove_task in H. case_bool_decide; injection H as <- <-;
      keeps_grants.
    + unfold turn_effect. cbn. rewrite Ha. eauto.
    + eapply same_turn_effect; [done|reflexivity|done|cbn; by rewrite app_nil_r|done|done|by intros g []].
  - unfold steer_input in H. destruct input; [done|]. destruct (active_turn s) as [at_|] eqn:Ha; [|done].
    destruct (tasks at_) as [|t l]; [done|].
    assert (s' = with_active (Some (with_turn_state at_
      (push_pending_input (turn_state at_) (into_item (u :: input))))) s) as ->
      by (destruct ex; [destruct (negb _)|]; congruence).
    keeps_grants.
    eapply same_turn_effect; [done|reflexivity|done|done|done|done|by intros g []].
  - unfold inject_response_items in H. destruct (active_turn s) as [at_|] eqn:Ha; [|done].
    injection H as <-. rewrite foldl_push_input. keeps_grants.
    eapply same_turn_effect; [done|reflexivity|done|done|done|done|by intros g []].
  - unfold get_pending_input in H. destruct (active_turn s) as [at_|] eqn:Ha; injection H as <- <-;
      keeps_grants; [|by apply no_turn_effect].
    eapply same_turn_effect; [done|reflexivity|done|done|done|done|by intros g []].
  - unfold record_tool_call. destruct (active_turn s) as [at_|] eqn:Ha;
      keeps_grants; [|by apply no_turn_effect].
    eapply same_turn_effect; [done|reflexivity|done|cbn; by rewrite app_nil_r|done|done|by intros g []].
Qed.

Lemma open_iff_active es s :
  steps session_new es s → turn_open es = negb (is_none (active_turn s)).
Proof.
  remember session_new as s0 eqn:E. induction 1 as [|s0 es s e s' Hs IH Hstep]; subst; [done|].
  specialize (IH eq_refl). rewrite turn_open_snoc. apply step_effect in Hstep as [_ He].
  unfold turn_effect in He. destruct (active_turn s') as [at'|], (active_turn s) as [at_|]; cbn in *.
  - destruct e as [| | | | | | |? ? []| | |]; naive_solver.
  - by destruct He as [[sub ->] _].
  - by destruct He as [->|[sub ->]].
  - destruct e as [| | | | | | |? ? []| | |]; naive_solver.
Qed.

Definition granted_in (es : list event) (sc : PermissionGrantScope) (g : grant) : Prop :=
  ∃ e, e ∈ es ∧ event_grants e sc g.

Lemma granted_in_snoc es e sc g :
  granted_in (es ++ [e]) sc g ↔ granted_in es sc g ∨ event_grants e sc g.
Proof. unfold granted_in. set_solver. Qed.

Lemma grants_traced es s (g : grant) :
  steps session_new es s →
  (grants (granted_session_permissions s) g ↔ granted_in es SessionScope g) ∧
  (grants (granted_turn_permissions s) g ↔
     turn_open es = true ∧ granted_in (this_turn es) Turn g).
Proof.
  intros Hs. rewrite (open_iff_active _ _ Hs). revert Hs.
  remember session_new as s0 eqn:E. induction 1 as [|s0 es s e s' Hs IH Hstep]; subst.
  { split; cbn; [|naive_solver]. split; [done|]. intros (? & []%not_elem_of_nil & _). }
  destruct (IH eq_refl) as [IHs IHt]. apply step_effect in Hstep as [Hg He]. split.
  - by rewrite granted_in_snoc, <- IHs, <- Hg.
  - rewrite this_turn_snoc. unfold granted_turn_permissions in *. unfold turn_effect in He.
    assert (Hno : ¬ granted_in [] Turn g) by (intros (? & []%not_elem_of_nil & _)).
    destruct (active_turn s') as [at'|], (active_turn s) as [at_|]; cbn in *; [| |naive_solver..].
    + destruct e; try (destruct He as (_ & Hgr & _); rewrite granted_in_snoc, Hgr; tauto).
      destruct He as [-> _]. cbn. tauto.
    + destruct He as ([sub ->] & -> & _). cbn. tauto.
Qed.

(** Permissions come from answers.  After any history of a session, what is
    granted for the session is exactly what the client has granted at session
    scope in answers to pending requests, and what is granted for the turn
    exactly what it has granted at turn scope since the turn began; a turn
    starts without grants. *)
Theorem grants_justified es s (g : grant) :
  steps session_new es s →
  (grants (granted_session_permissions s) g ↔ granted_in es SessionScope g) ∧
  (grants (granted_turn_permissions s) g ↔
     turn_open es = true ∧ granted_in (this_turn es) Turn g).
Proof. apply grants_traced. Qed.

(** The input steered into a turn is neither lost nor reordered.  While a
    turn is active, the items put into it are those taken out of it followed by
    those it still holds, in order; and when the turn ends by itself, what it
    still holds is what is recorded in the conversation. *)
Theorem input_conserved es s :
  steps session_new es s →
  (∀ at_, active_turn s = Some at_ →
     mjoin (pushed_by <$> this_turn es)
     = mjoin (taken_by <$> this_turn es) ++ pending_input (turn_state at_)) ∧
  (∀ es1 sub_id recorded es2, es = es1 ++ Finished sub_id recorded true :: es2 →
     turn_open es1 = true →
     mjoin (pushed_by <$> this_turn es1) = mjoin (taken_by <$> this_turn es1) ++ recorded).
Proof.
  assert (Hact : ∀ es s, steps session_new es s → ∀ at_, active_turn s = Some at_ →
     mjoin (pushed_by <$> this_turn es)
     = mjoin (taken_by <$> this_turn es) ++ pending_input (turn_state at_)).
  { clear es s. intros es s. remember session_new as s0 eqn:E.
    induction 1 as [|s0 es s e s' Hs IH Hstep]; subst; [done|].
    specialize (IH eq_refl). intros at' Ha'. apply step_effect in Hstep as [_ He].
    unfold turn_effect in He. rewrite Ha' in He. rewrite this_turn_snoc.
    destruct (active_turn s) as [at_|].
    - assert (Hstep : pending_input (turn_state at_) ++ pushed_by e
        = taken_by e ++ pending_input (turn_state at') →
        mjoin (pushed_by <$> this_turn es ++ [e]) =
        mjoin (taken_by <$> this_turn es ++ [e]) ++ pending_input (turn_state at')).
      { intros Hp. rewrite !fmap_app, !join_app. cbn. rewrite !app_nil_r, <- app_assoc, <- Hp.
        by rewrite (IH at_ eq_refl), app_assoc. }
      destruct e; try (apply Hstep, He). by destruct He as [_ ->].
    - by destruct He as ([sub ->] & _ & ->). }
  intros Hs. split; [by apply Hact|]. intros es1 sub rec es2 -> Hopen.
  apply steps_app_inv in Hs as (s1 & H1 & H2).
  apply (steps_app_inv [Finished sub rec true]) in H2 as (s2 & Hone & _).
  rewrite (open_iff_active _ _ H1) in Hopen. apply steps_one_inv, step_effect in Hone as [_ He].
  unfold turn_effect in He. destruct (active_turn s1) as [at_|] eqn:Ha; [|done].
  rewrite (Hact _ _ H1 _ Ha). destruct (active_turn s2); [naive_solver|].
  destruct He as [?|[? [= _ ->]]]; done.
Qed.
End Turns.

(** ** Applications of the theorems *)

(** Input of a turn as text; the other answers carry nothing. *)
Abbreviation sample_event := (@event unit unit unit str).
Abbreviation sample_state := (@Session unit unit unit unit str).
Definition sample_item (input : list str) : str := mjoin input.

Definition sample_response : RequestPermissionsResponse := {|
  permissions := {| requested_network := Some {| enabled := Some true |};
                    requested_file_system := None |};
  scope := Turn |}.

(** A turn is granted the network, and ends with a steered item. *)
Definition grant_events : list sample_event :=
  [Started (lit "t"); Requested (SPermissions (lit "p")) 0 true;
   Responded (SPermissions (lit "p")) (RPermissions sample_response) true;
   Returned 0 (Some (RPermissions sample_response)); Pushed [lit "hi"]].

(** Two requests under one key, when the turn ends. *)
Definition clash_events : list sample_event :=
  [Started (lit "t"); Requested (SUserInput (lit "t")) 0 true;
   Requested (SUserInput (lit "t")) 1 true; Finished (lit "t") [] true].

Lemma grant_steps : ∃ s : sample_state,
  steps sample_item session_new grant_events s ∧ (∃ at_, active_turn s = Some at_) ∧
  granted_session_permissions s = None ∧
  granted_turn_permissions s = Some (profile_from_request (permissions sample_response)).
Proof.
  eexists. split.
  - change grant_events with (take 1 grant_events ++ take 1 (drop 1 grant_events)
      ++ take 1 (drop 2 grant_events) ++ take 1 (drop 3 grant_events) ++ drop 4 grant_events).
    eapply steps_trans; [apply steps_one; by apply (step_start _ _ (lit "t") tt)|].
    eapply steps_trans; [apply steps_one; by apply step_request|].
    eapply steps_trans; [apply steps_one; by apply step_permissions|].
    eapply steps_trans; [apply steps_one; by apply step_return|].
    apply steps_one. by apply (step_inject _ _ [lit "hi"]).
  - split; [by eexists|done].
Qed.

Lemma clash_steps : ∃ s : sample_state,
  steps sample_item session_new clash_events s ∧ active_turn s = None ∧ aborting s = [] ∧
  channels s !! 0 = Some Waiting ∧ channels s !! 1 = Some Closed ∧ is_Some (waiters s !! 1).
Proof.
  eexists. split.
  - change clash_events with (take 1 clash_events ++ take 1 (drop 1 clash_events)
      ++ take 1 (drop 2 clash_events) ++ drop 3 clash_events).
    eapply steps_trans; [apply steps_one; by apply (step_start _ _ (lit "t") tt)|].
    eapply steps_trans; [apply steps_one; by apply step_request|].
    eapply steps_trans; [apply steps_one; by apply step_request|].
    apply steps_one. match goal with |- step _ ?s _ _ =>
      exact (step_finish _ s (lit "t") [] (snd (on_task_finished (lit "t") s)) eq_refl) end.
  - split_and!; [by vm_compute..|]. vm_compute. by eexists.
Qed.

Lemma requests_return_witness : ∃ s : sample_state,
  channels s !! 0 = Some Waiting ∧ (∃ s', step sample_item s (Returned 1 None) s') ∧
  ∀ es' s', steps sample_item s es' s' → Forall is_return es' →
    (∀ c r s'', ¬ step sample_item s' (Returned c r) s'') → waiters s' !! 0 = None.
Proof.
  destruct clash_steps as (s & Hs & Ha & Hab & Hw & Hc & Hw1). exists s.
  destruct (requests_return sample_item _ s Hs) as (_ & Hset & Hend). split_and!; [done| |].
  - by apply (Hset 1 Closed).
  - intros es' s' Hs' Hr Hstop. destruct (Hend Ha Hab es' s' Hs' Hr) as [_ Hd].
    apply (Hd Hstop). intros k c'. unfold clash_events. rewrite !elem_of_cons, elem_of_nil.
    by intros [?|[?|[?|[?|[]]]]].
Defined.

Lemma request_without_turn_hangs_witness : ∃ s : sample_state,
  steps sample_item (snd (begin_request (SApproval (lit "a")) session_new)) [Started (lit "t")] s ∧
  channels s !! 0 = Some Waiting.
Proof.
  assert (Hs : steps sample_item (snd (begin_request (SApproval (lit "a")) session_new))
    [Started (lit "t")] (register_new_active_task (lit "t") tt
      (snd (begin_request (SApproval (lit "a")) (session_new : sample_state)))))
    by apply steps_one, step_start.
  eexists. split; [exact Hs|].
  apply (request_without_turn_hangs sample_item [] session_new (SApproval (lit "a")) 0 _ _ _
    (steps_nil _ _) eq_refl eq_refl Hs).
  by intros ?%list_elem_of_singleton.
Defined.

Lemma answers_reach_their_request_witness :
  answered (take 3 grant_events) 0 (RPermissions sample_response).
Proof.
  destruct grant_steps as (s & Hs & _).
  by apply (answers_reach_their_request sample_item (take 3 grant_events) 0 _ [Pushed [lit "hi"]] s).
Defined.

Lemma grants_justified_witness : ∃ s : sample_state,
  from_option_grants profile_grants (granted_turn_permissions s) GrantNetwork.
Proof.
  destruct grant_steps as (s & Hs & _). exists s.
  apply (grants_justified sample_item grant_events s GrantNetwork Hs). split; [done|].
  exists (Responded (SPermissions (lit "p")) (RPermissions sample_response) true).
  split; [cbn; right; left|]. by split; [|left].
Defined.

Lemma input_conserved_witness : ∃ (s : sample_state) at_,
  active_turn s = Some at_ ∧ pending_input (turn_state at_) = [lit "hi"].
Proof.
  destruct grant_steps as (s & Hs & [at_ Ha] & _). exists s, at_. split; [done|].
  symmetry. apply (proj1 (input_conserved sample_item grant_events s Hs) at_ Ha).
Defined.
