(* ===== verification/ShellRuntime.v ===== *)
(** * Shell commands: [core/src/shell.rs], [shell-command/src/powershell.rs],
      [core/src/command_canonicalization.rs], [core/src/tools/runtimes/mod.rs]

    How a script becomes an argument vector for the user's shell, the key under
    which its approval is remembered, and the wrapper that sources a snapshot of
    the user's shell before it runs the original command.  The quoting of the
    wrapper is checked against the words a POSIX shell reads ([sh_words]). *)
From stdpp Require Import base tactics option list gmap strings.
From S2P Require Import Prelude RustStr Paths BashParse CommandSafety Safety ExecApproval Sandboxing.
From stdpp Require Import list.

(** ** The user's shell *)
Record ShellSnapshot : Type := { snapshot_path : str; snapshot_cwd : Path }.

(** [shell_path] is its text, [to_string_lossy]. *)
Record Shell : Type := {
  shell_type : ShellType;
  shell_path : str;
  shell_snapshot : option ShellSnapshot;
}.

Definition shell_name (self : Shell) : str :=
  match shell_type self with
  | Zsh => lit "zsh"
  | Bash => lit "bash"
  | PowerShell => lit "powershell"
  | Sh => lit "sh"
  | Cmd => lit "cmd"
  end.

Definition derive_exec_args (self : Shell) (command : str) (use_login_shell : bool) : list str :=
  match shell_type self with
  | Zsh | Bash | Sh =>
      [shell_path self; if use_login_shell then lit "-lc" else lit "-c"; command]
  | PowerShell =>
      [shell_path self] ++ (if negb use_login_shell then [lit "-NoProfile"] else [])
      ++ [lit "-Command"; command]
  | Cmd => [shell_path self; lit "/c"; command]
  end.

(** ** PowerShell *)
Definition POWERSHELL_FLAGS : list string := ["-nologo"; "-noprofile"; "-command"; "-c"].

Definition UTF8_OUTPUT_PREFIX : str :=
  lit "[Console]::OutputEncoding=[System.Text.Encoding]::UTF8;" ++ [NL].

(** The loop over the flags, from the second argument on: the script after the
    first [-Command] or [-c]. *)
Fixpoint powershell_script (args : list str) : option str :=
  match args with
  | [] => None
  | flag :: args' =>
      match args' with
      | [] => None
      | script :: _ =>
          if negb (one_of (to_ascii_lowercase flag) POWERSHELL_FLAGS) then None
          else if eq_ignore_ascii_case flag (lit "-Command") || eq_ignore_ascii_case flag (lit "-c")
          then Some script
          else powershell_script args'
      end
  end.

Definition extract_powershell_command (command : list str) : option (str * str) :=
  if length command <? 3 then None
  else match command with
       | [] => None
       | shell :: args =>
           match detect_shell_type shell with
           | Some PowerShell => (λ script, (shell, script)) <$> powershell_script args
           | _ => None
           end
       end.

Definition prefix_powershell_script_with_utf8 (command : list str) : list str :=
  match extract_powershell_command command with
  | None => command
  | Some (_, script) =>
      let trimmed := trim_start script in
      let script := if starts_with UTF8_OUTPUT_PREFIX trimmed then script
                    else UTF8_OUTPUT_PREFIX ++ script in
      removelast command ++ [script]
  end.

(** ** The key of an approval *)
Definition CANONICAL_BASH_SCRIPT_PREFIX : str := lit "__codex_shell_script__".
Definition CANONICAL_POWERSHELL_SCRIPT_PREFIX : str := lit "__codex_powershell_script__".

Section Canonical.
Variable try_parse_shell : str → option Node.

Definition canonicalize_command_for_approval (command : list str) : list str :=
  let other :=
    match extract_bash_command command with
    | Some (_, script) =>
        [CANONICAL_BASH_SCRIPT_PREFIX; default [] (command !! 1); script]
    | None =>
        match extract_powershell_command command with
        | Some (_, script) => [CANONICAL_POWERSHELL_SCRIPT_PREFIX; script]
        | None => command
        end
    end in
  match parse_shell_lc_plain_commands try_parse_shell command with
  | Some [single_command] => single_command
  | _ => other
  end.
End Canonical.

(** ** Command specifications *)
Definition build_command_spec {Expiration Permission : Type} (command : list str) (cwd : Path)
    (env : gmap str str) (expiration : Expiration) (sandbox_permissions : Permission)
    (additional_permissions : option PermissionProfile) (justification : option str) :
    outcome str (@CommandSpec Expiration Permission) :=
  match command with
  | [] => Err (lit "command args are empty")
  | program :: args =>
      Ok {| program := program; args := args; spec_cwd := cwd; spec_env := env;
            spec_expiration := expiration; spec_sandbox_permissions := sandbox_permissions;
            Sandboxing.additional_permissions := additional_permissions;
            spec_justification := justification |}
  end.

(** ** The snapshot wrapper *)
Definition QUOTE : char := 39%N.
Definition DQUOTE : char := 34%N.
Definition dq : str := [DQUOTE].

Definition shell_single_quote (input : str) : str :=
  replace_char QUOTE [QUOTE; DQUOTE; QUOTE; DQUOTE; QUOTE] input.

Definition is_ascii_alphabetic (c : char) : bool :=
  ((65 <=? c) && (c <=? 90) || (97 <=? c) && (c <=? 122))%N.

Definition is_valid_shell_variable_name (name : str) : bool :=
  match name with
  | [] => false
  | first :: chars =>
      if negb ((first =? 95)%N || is_ascii_alphabetic first) then false
      else forallb (λ c, (c =? 95)%N || is_ascii_alphabetic c || is_ascii_digit c) chars
  end.

(** The lines that save the value of a variable, and those that restore it. *)
Definition capture_line (idx : nat) (key : str) : str :=
  lit "__CODEX_SNAPSHOT_OVERRIDE_SET_" ++ show_nat idx ++ lit "=" ++ dq ++ lit "${" ++ key
  ++ lit "+x}" ++ dq ++ [NL]
  ++ lit "__CODEX_SNAPSHOT_OVERRIDE_" ++ show_nat idx ++ lit "=" ++ dq ++ lit "${" ++ key
  ++ lit "-}" ++ dq.

Definition restore_line (idx : nat) (key : str) : str :=
  lit "if [ -n " ++ dq ++ lit "${__CODEX_SNAPSHOT_OVERRIDE_SET_" ++ show_nat idx ++ lit "}" ++ dq
  ++ lit " ]; then export " ++ key ++ lit "=" ++ dq ++ lit "${__CODEX_SNAPSHOT_OVERRIDE_"
  ++ show_nat idx ++ lit "}" ++ dq ++ lit "; else unset " ++ key ++ lit "; fi".

Definition build_override_exports (explicit_env_overrides : gmap str str) : str * str :=
  let keys := btree_set (List.filter is_valid_shell_variable_name
                           (map_to_list explicit_env_overrides).*1) in
  if bool_decide (keys = []) then ([], [])
  else (RustStr.join [NL] (imap capture_line keys), RustStr.join [NL] (imap restore_line keys)).

Section Snapshot.
(** [cfg!(windows)], whether a path exists, and [normalize_for_path_comparison]. *)
Context (windows : bool) (exists_ : str → bool) (normalize_for_path_comparison : Path → option Path).

(** The last command of the wrapper, [exec '<shell>' -c '<script>' ...]. *)
Definition exec_line (shell script : str) (trailing : list str) : str :=
  lit "exec '" ++ shell_single_quote shell ++ lit "' -c '" ++ shell_single_quote script ++ lit "'"
  ++ mjoin ((λ arg, lit " '" ++ shell_single_quote arg ++ lit "'") <$> trailing).

Definition source_words (snapshot_path : str) : str :=
  lit ". '" ++ shell_single_quote snapshot_path ++ lit "'".

Definition source_line (snapshot_path : str) : str :=
  lit "if " ++ source_words snapshot_path ++ lit " >/dev/null 2>&1; then :; fi".

Definition maybe_wrap_shell_lc_with_snapshot (command : list str) (session_shell : Shell)
    (cwd : Path) (explicit_env_overrides : gmap str str) : list str :=
  if windows then command
  else match shell_snapshot session_shell with
  | None => command
  | Some snapshot =>
      if negb (exists_ (snapshot_path snapshot)) then command
      else if match normalize_for_path_comparison (snapshot_cwd snapshot),
                    normalize_for_path_comparison cwd with
              | Some snapshot_cwd, Some command_cwd => negb (bool_decide (snapshot_cwd = command_cwd))
              | _, _ => negb (bool_decide (snapshot_cwd snapshot = cwd))
              end then command
      else match command with
      | shell :: flag :: script :: trailing =>
          if negb (bool_decide (flag = lit "-lc")) then command
          else
            let '(override_captures, override_exports) :=
              build_override_exports explicit_env_overrides in
            let rewritten_script :=
              if bool_decide (override_exports = []) then
                source_line (snapshot_path snapshot) ++ [NL; NL] ++ exec_line shell script trailing
              else
                override_captures ++ [NL; NL] ++ source_line (snapshot_path snapshot) ++ [NL; NL]
                ++ override_exports ++ [NL; NL] ++ exec_line shell script trailing in
            [shell_path session_shell; lit "-c"; rewritten_script]
      | _ => command
      end
  end.
End Snapshot.

(** ** The words a POSIX shell reads *)
Inductive quoting : Type := Bare | Single | Double.

(** Characters that mean themselves outside of quotes. *)
Definition plain_char (c : char) : bool :=
  is_ascii_alphabetic c || is_ascii_digit c || bool_decide (c ∈ lit "-_./:+,@%").

(** The words of a simple command without expansions, [None] for anything
    else: outside of quotes only plain characters and blanks; between single
    quotes every character but the quote, literally; between double quotes
    every character that does not start an expansion. *)
Fixpoint sh_words (q : quoting) (word : option str) (s : str) : option (list str) :=
  match s with
  | [] => match q with Bare => Some (option_list word) | _ => None end
  | c :: s =>
      let add := Some (default [] word ++ [c]) in
      let stay := Some (default [] word) in
      match q with
      | Bare =>
          if (c =? QUOTE)%N then sh_words Single stay s
          else if (c =? DQUOTE)%N then sh_words Double stay s
          else if (c =? 32)%N then app (option_list word) <$> sh_words Bare None s
          else if plain_char c then sh_words Bare add s
          else None
      | Single => if (c =? QUOTE)%N then sh_words Bare stay s else sh_words Single add s
      | Double =>
          if (c =? DQUOTE)%N then sh_words Bare stay s
          else if bool_decide (c ∈ lit "$`\!") then None
          else sh_words Double add s
      end
  end.

Lemma shell_single_quote_cons c t :
  shell_single_quote (c :: t) =
  (if bool_decide (c = QUOTE) then [QUOTE; DQUOTE; QUOTE; DQUOTE; QUOTE] else [c])
  ++ shell_single_quote t.
Proof. done. Qed.

(** Between single quotes, a quoted text reads as itself. *)
Lemma quoted_word (t rest w : str) :
  sh_words Single (Some w) (shell_single_quote t ++ rest) = sh_words Single (Some (w ++ t)) rest.
Proof.
  revert w. induction t as [|c t IH]; intros w; [by rewrite app_nil_r|].
  rewrite shell_single_quote_cons, <- app_assoc. case_bool_decide as E.
  - subst c. etransitivity; [|etransitivity; [apply (IH (w ++ [QUOTE]))|by rewrite <- app_assoc]]. done.
  - cbn [app sh_words default from_option id].
    replace (c =? QUOTE)%N with false by (symmetry; by apply N.eqb_neq).
    rewrite IH. by rewrite <- app_assoc.
Qed.

(** A quoted word on its own, before the rest of the line. *)
Lemma quoted_single (t rest : str) :
  sh_words Bare None (QUOTE :: shell_single_quote t ++ QUOTE :: rest) = sh_words Bare (Some t) rest.
Proof.
  change (sh_words Single (Some []) (shell_single_quote t ++ QUOTE :: rest) = sh_words Bare (Some t) rest).
  by rewrite quoted_word.
Qed.

Lemma blank_ends_word w rest :
  sh_words Bare (Some w) (32%N :: rest) = cons w <$> sh_words Bare None rest.
Proof. done. Qed.

Lemma quoted_words (args : list str) w :
  sh_words Bare (Some w) (mjoin ((λ arg, lit " '" ++ shell_single_quote arg ++ lit "'") <$> args))
  = Some (w :: args).
Proof.
  revert w. induction args as [|a args IH]; intros w; [done|].
  change (sh_words Bare (Some w) (32%N :: (QUOTE :: shell_single_quote a ++ [QUOTE])
    ++ mjoin ((λ arg, lit " '" ++ shell_single_quote arg ++ lit "'") <$> args)) = Some (w :: a :: args)).
  rewrite blank_ends_word. cbn [app]. rewrite <- app_assoc. cbn [app]. by rewrite quoted_single, IH.
Qed.

Lemma exec_line_words shell script trailing :
  sh_words Bare None (exec_line shell script trailing)
  = Some (lit "exec" :: shell :: lit "-c" :: script :: trailing).
Proof.
  unfold exec_line.
  change (fmap (M:=option) (cons (lit "exec")) (sh_words Bare None (QUOTE :: shell_single_quote shell
    ++ QUOTE :: 32%N :: lit "-c" ++ 32%N :: QUOTE :: shell_single_quote script ++ QUOTE ::
    mjoin ((λ arg, lit " '" ++ shell_single_quote arg ++ lit "'") <$> trailing))) =
    Some (lit "exec" :: shell :: lit "-c" :: script :: trailing)).
  rewrite quoted_single, blank_ends_word.
  change (fmap (M:=option) (cons (lit "exec")) (fmap (M:=option) (cons shell)
    (fmap (M:=option) (cons (lit "-c")) (sh_words Bare None (QUOTE :: shell_single_quote script
    ++ QUOTE :: mjoin ((λ arg, lit " '" ++ shell_single_quote arg ++ lit "'") <$> trailing))))) =
    Some (lit "exec" :: shell :: lit "-c" :: script :: trailing)).
  by rewrite quoted_single, quoted_words.
Qed.

Lemma source_words_spec path : sh_words Bare None (source_words path) = Some [lit "."; path].
Proof.
  change (fmap (M:=option) (cons (lit ".")) (sh_words Bare None (QUOTE :: shell_single_quote path
    ++ [QUOTE])) = Some [lit "."; path]).
  by rewrite quoted_single.
Qed.

(** The command runs in the directory of the snapshot. *)
Definition same_directory (normalize : Path → option Path) (snapshot : ShellSnapshot) (cwd : Path) :
    Prop :=
  match normalize (snapshot_cwd snapshot), normalize cwd with
  | Some snapshot_cwd, Some command_cwd => snapshot_cwd = command_cwd
  | _, _ => snapshot_cwd snapshot = cwd
  end.

Lemma same_directory_spec normalize snapshot cwd :
  match normalize (snapshot_cwd snapshot), normalize cwd with
  | Some snapshot_cwd, Some command_cwd => negb (bool_decide (snapshot_cwd = command_cwd))
  | _, _ => negb (bool_decide (snapshot_cwd snapshot = cwd))
  end = false ↔ same_directory normalize snapshot cwd.
Proof.
  unfold same_directory.
  destruct (normalize (snapshot_cwd snapshot)), (normalize cwd); by rewrite negb_false_iff, bool_decide_eq_true.
Qed.

(** The command is left as it is: one of the conditions fails. *)
Ltac unwrapped :=
  right; split; [done|]; intros (? & ? & ? & ? & ? & ? & ? & ? & ?); simplify_eq; congruence.

(** The snapshot wrapper runs the original command.  The wrapper is used
    exactly for [shell -lc script args] in the directory of an existing
    snapshot; it then has the user's shell run a script that sources the
    snapshot's file and ends in a command whose words, as a POSIX shell reads
    them, are [exec], the original shell, [-c], the original script and its
    arguments, whatever characters they contain.  Every other command is left
    as it is. *)
Theorem snapshot_wrapper_runs_original (windows : bool) (exists_ : str → bool)
    (normalize : Path → option Path) (command : list str) (session_shell : Shell) (cwd : Path)
    (overrides : gmap str str) :
  let result := maybe_wrap_shell_lc_with_snapshot windows exists_ normalize command session_shell
                  cwd overrides in
  (∃ snapshot shell script trailing,
     windows = false ∧ shell_snapshot session_shell = Some snapshot ∧
     exists_ (snapshot_path snapshot) = true ∧ same_directory normalize snapshot cwd ∧
     command = shell :: lit "-lc" :: script :: trailing ∧
     (∃ before after,
        result = [shell_path session_shell; lit "-c";
                  before ++ lit "if " ++ source_words (snapshot_path snapshot)
                  ++ lit " >/dev/null 2>&1; then :; fi" ++ after ++ [NL; NL]
                  ++ exec_line shell script trailing]) ∧
     sh_words Bare None (source_words (snapshot_path snapshot))
     = Some [lit "."; snapshot_path snapshot] ∧
     sh_words Bare None (exec_line shell script trailing)
     = Some (lit "exec" :: shell :: lit "-c" :: script :: trailing)) ∨
  (result = command ∧
   ¬ (∃ snapshot shell script trailing,
        windows = false ∧ shell_snapshot session_shell = Some snapshot ∧
        exists_ (snapshot_path snapshot) = true ∧ same_directory normalize snapshot cwd ∧
        command = shell :: lit "-lc" :: script :: trailing)).
Proof.
  cbv zeta. unfold maybe_wrap_shell_lc_with_snapshot. destruct windows; [unwrapped|].
  destruct (shell_snapshot session_shell) as [snapshot|] eqn:Hs; [|unwrapped].
  destruct (exists_ (snapshot_path snapshot)) eqn:He; cbn [negb]; [|unwrapped].
  pose proof (same_directory_spec normalize snapshot cwd) as Hd.
  destruct (match normalize (snapshot_cwd snapshot), normalize cwd with Some _, Some _ => _ | _, _ => _ end);
    [right; split; [done|]; intros (sn & ? & ? & ? & _ & [= <-] & _ & Hsd & _); by apply Hd in Hsd|].
  destruct command as [|shell [|flag [|script trailing]]]; [unwrapped..|].
  case_bool_decide as Hf; cbn [negb]; [subst flag|unwrapped].
  destruct (build_override_exports overrides) as [captures exports]. left.
  exists snapshot, shell, script, trailing.
  split_and!; [done..|by apply Hd|done| |apply source_words_spec|apply exec_line_words].
  case_bool_decide as Ho; [exists [], []|exists (captures ++ [NL; NL]), ([NL; NL] ++ exports)];
    unfold source_line; rewrite <- ?app_assoc; done.
Qed.

(** PowerShell reads every argument after [-c] as one command, but only the first
    of them is in the key of an approval, so an approval for the session of one
    command covers others; and the script with the prefix takes the place of the
    last argument, not of the script. *)
Example powershell_arguments_ignored (parse : str → option Node) :
  let command target := [lit "pwsh"; lit "-c"; lit "Remove-Item"; target] in
  canonicalize_command_for_approval parse (command (lit "a.txt"))
  = canonicalize_command_for_approval parse (command (lit "C:\")) ∧
  prefix_powershell_script_with_utf8 (command (lit "a.txt"))
  = [lit "pwsh"; lit "-c"; lit "Remove-Item"; UTF8_OUTPUT_PREFIX ++ lit "Remove-Item"].
Proof. by vm_compute. Qed.
