(* ===== verification/ShellTool.v ===== *)
(** * The shell tools: [core/src/tools/handlers/mod.rs],
      [core/src/tools/handlers/shell.rs], [core/src/tools/runtimes/shell.rs],
      [core/src/tools/runtimes/unified_exec.rs]

    A call of a shell tool goes through the additional permissions (those it
    asks for and those granted to the session and the turn), the guard on
    escalation, the exec policy and the orchestrator.  The runtimes are
    instances of [ToolRuntime]; the theorems are about the whole call. *)
From stdpp Require Import base tactics option list gmap strings.
From S2P Require Import Prelude RustStr Paths Permissions Safety BashParse CommandSafety.
From S2P Require Import ExecPolicy ExecApproval Sandboxing Orchestrator ApprovalCache TurnState.
From S2P Require Import ShellRuntime.
From stdpp Require Import list.

#[export] Instance FileSystemPermissions_eq_dec : EqDecision FileSystemPermissions.
Proof. solve_decision. Defined.
#[export] Instance NetworkPermissions_eq_dec : EqDecision NetworkPermissions.
Proof. solve_decision. Defined.
#[export] Instance MacOsPreferencesPermission_eq_dec : EqDecision MacOsPreferencesPermission.
Proof. solve_decision. Defined.
#[export] Instance MacOsContactsPermission_eq_dec : EqDecision MacOsContactsPermission.
Proof. solve_decision. Defined.
#[export] Instance MacOsAutomationPermission_eq_dec : EqDecision MacOsAutomationPermission.
Proof. solve_decision. Defined.
#[export] Instance MacOsSeatbeltProfileExtensions_eq_dec : EqDecision MacOsSeatbeltProfileExtensions.
Proof. solve_decision. Defined.
#[export] Instance PermissionProfile_eq_dec : EqDecision PermissionProfile.
Proof. solve_decision. Defined.

Inductive FunctionCallError : Type := RespondToModel (message : str).

(** [{:?}] of the approval policy. *)
Definition show_bool (b : bool) : str := if b then lit "true" else lit "false".
Definition debug_approval_policy (p : AskForApproval) : str :=
  match p with
  | UnlessTrusted => lit "UnlessTrusted"
  | OnFailure => lit "OnFailure"
  | OnRequest => lit "OnRequest"
  | Granular c =>
      lit "Granular(GranularApprovalConfig { sandbox_approval: " ++ show_bool (sandbox_approval c)
      ++ lit ", rules: " ++ show_bool (rules c)
      ++ lit ", skill_approval: " ++ show_bool (skill_approval c)
      ++ lit ", request_permissions: " ++ show_bool (Safety.request_permissions c)
      ++ lit ", mcp_elicitations: " ++ show_bool (mcp_elicitations c) ++ lit " })"
  | Never => lit "Never"
  end.

Definition EM_DASH : str := [8212%N].

Definition uses_additional_permissions (self : SandboxPermissions) : bool :=
  match self with WithAdditionalPermissions => true | _ => false end.

Definition is_on_request (p : AskForApproval) : bool :=
  match p with OnRequest => true | _ => false end.

(** ** Additional permissions *)
Record EffectiveAdditionalPermissions : Type := {
  effective_permissions_mode : SandboxPermissions;
  effective_permissions : option PermissionProfile;
  permissions_preapproved : bool;
}.

Section Handlers.
Context `{PathEnv} (target_is_macos : bool).

Definition normalize_and_validate_additional_permissions (additional_permissions_allowed : bool)
    (approval_policy : AskForApproval) (sandbox_permissions : SandboxPermissions)
    (additional_permissions : option PermissionProfile) (permissions_preapproved : bool) :
    outcome str (option PermissionProfile) :=
  let uses_additional_permissions := uses_additional_permissions sandbox_permissions in
  if negb permissions_preapproved && negb additional_permissions_allowed
     && (uses_additional_permissions || negb (is_none additional_permissions))
  then Err (lit "additional permissions are disabled; enable `features.exec_permission_approvals` before using `with_additional_permissions`")
  else if uses_additional_permissions then
    if negb permissions_preapproved && negb (is_on_request approval_policy)
    then Err (lit "approval policy is " ++ debug_approval_policy approval_policy
              ++ lit "; reject command " ++ EM_DASH
              ++ lit " you cannot request additional permissions unless the approval policy is OnRequest")
    else match additional_permissions with
         | None => Err (lit "missing `additional_permissions`; provide at least one of `network`, `file_system`, or `macos` when using `with_additional_permissions`")
         | Some additional_permissions =>
             if negb target_is_macos && negb (is_none (Sandboxing.macos additional_permissions))
             then Err (lit "`additional_permissions.macos` is only supported on macOS")
             else
               normalized ← normalize_additional_permissions additional_permissions;
               if profile_is_empty normalized
               then Err (lit "`additional_permissions` must include at least one requested permission in `network`, `file_system`, or `macos`")
               else Ok (Some normalized)
         end
  else if negb (is_none additional_permissions)
  then Err (lit "`additional_permissions` requires `sandbox_permissions` set to `with_additional_permissions`")
  else Ok None.

Definition implicit_granted_permissions (sandbox_permissions : SandboxPermissions)
    (additional_permissions : option PermissionProfile)
    (effective_additional_permissions : EffectiveAdditionalPermissions) :
    option PermissionProfile :=
  if negb (uses_additional_permissions sandbox_permissions)
     && negb (requires_escalated_permissions sandbox_permissions)
     && is_none additional_permissions
  then effective_permissions effective_additional_permissions
  else None.

(** The grants of the session and of the turn. *)
Definition apply_granted_turn_permissions
    (granted_session_permissions granted_turn_permissions : option PermissionProfile)
    (sandbox_permissions : SandboxPermissions) (additional_permissions : option PermissionProfile) :
    EffectiveAdditionalPermissions :=
  if requires_escalated_permissions sandbox_permissions then
    {| effective_permissions_mode := sandbox_permissions;
       effective_permissions := additional_permissions;
       permissions_preapproved := false |}
  else
    let granted_permissions :=
      merge_permission_profiles granted_session_permissions granted_turn_permissions in
    let effective_permissions_ :=
      merge_permission_profiles additional_permissions granted_permissions in
    let preapproved :=
      match effective_permissions_, granted_permissions with
      | Some effective_permissions, Some granted_permissions =>
          bool_decide (intersect_permission_profiles effective_permissions granted_permissions
                       = effective_permissions)
      | _, _ => false
      end in
    {| effective_permissions_mode :=
         if negb (is_none effective_permissions_)
            && negb (uses_additional_permissions sandbox_permissions)
         then WithAdditionalPermissions else sandbox_permissions;
       effective_permissions := effective_permissions_;
       permissions_preapproved := preapproved |}.
End Handlers.

(** ** Requests and runtimes *)
Section Runtimes.
(** The network proxy of the turn. *)
Context {Network : Type}.

Record ShellRequest : Type := {
  shell_command : list str;
  shell_cwd : Path;
  shell_timeout_ms : option Z;
  shell_env : gmap str str;
  shell_explicit_env_overrides : gmap str str;
  shell_network : option Network;
  shell_sandbox_permissions : SandboxPermissions;
  shell_additional_permissions : option PermissionProfile;
  additional_permissions_preapproved : bool;
  shell_justification : option str;
  shell_exec_approval_requirement : ExecApprovalRequirement;
}.

Record ApprovalKey : Type := {
  key_command : list str;
  key_cwd : Path;
  key_sandbox_permissions : SandboxPermissions;
  key_additional_permissions : option PermissionProfile;
}.

Definition shell_approval_keys (try_parse_shell : str → option Node) (req : ShellRequest) :
    list ApprovalKey :=
  [{| key_command := canonicalize_command_for_approval try_parse_shell (shell_command req);
      key_cwd := shell_cwd req;
      key_sandbox_permissions := shell_sandbox_permissions req;
      key_additional_permissions := shell_additional_permissions req |}].

#[export] Instance ShellRuntime : ToolRuntime ShellRequest := {|
  exec_approval_requirement req := Some (shell_exec_approval_requirement req);
  sandbox_mode_for_first_attempt req :=
    sandbox_override_for_first_attempt (shell_sandbox_permissions req)
      (shell_exec_approval_requirement req);
  should_bypass_approval := default_should_bypass_approval;
  wants_no_sandbox_approval := default_wants_no_sandbox_approval;
  sandbox_preference := Auto;
  escalate_on_failure := true;
  network_approval_spec req :=
    match shell_network req with
    | None => None
    | Some _ => Some {| spec_network := true; spec_mode := Immediate |}
    end;
|}.

#[export] Instance ShellRuntime_laws : ToolRuntimeLaws ShellRequest.
Proof. split; [done|]. intros [] []; cbn; auto. Qed.

Record UnifiedExecRequest : Type := {
  unified_command : list str;
  unified_cwd : Path;
  unified_env : gmap str str;
  unified_explicit_env_overrides : gmap str str;
  unified_network : option Network;
  tty : bool;
  unified_sandbox_permissions : SandboxPermissions;
  unified_additional_permissions : option PermissionProfile;
  unified_permissions_preapproved : bool;
  unified_justification : option str;
  unified_exec_approval_requirement : ExecApprovalRequirement;
}.

Record UnifiedExecApprovalKey : Type := {
  unified_key_command : list str;
  unified_key_cwd : Path;
  unified_key_tty : bool;
  unified_key_sandbox_permissions : SandboxPermissions;
  unified_key_additional_permissions : option PermissionProfile;
}.

Definition unified_approval_keys (try_parse_shell : str → option Node) (req : UnifiedExecRequest) :
    list UnifiedExecApprovalKey :=
  [{| unified_key_command := canonicalize_command_for_approval try_parse_shell (unified_command req);
      unified_key_cwd := unified_cwd req;
      unified_key_tty := tty req;
      unified_key_sandbox_permissions := unified_sandbox_permissions req;
      unified_key_additional_permissions := unified_additional_permissions req |}].

#[export] Instance UnifiedExecRuntime : ToolRuntime UnifiedExecRequest := {|
  exec_approval_requirement req := Some (unified_exec_approval_requirement req);
  sandbox_mode_for_first_attempt req :=
    sandbox_override_for_first_attempt (unified_sandbox_permissions req)
      (unified_exec_approval_requirement req);
  should_bypass_approval := default_should_bypass_approval;
  wants_no_sandbox_approval := default_wants_no_sandbox_approval;
  sandbox_preference := Auto;
  escalate_on_failure := true;
  network_approval_spec req :=
    match unified_network req with
    | None => None
    | Some _ => Some {| spec_network := true; spec_mode := Deferred |}
    end;
|}.

#[export] Instance UnifiedExecRuntime_laws : ToolRuntimeLaws UnifiedExecRequest.
Proof. split; [done|]. intros [] []; cbn; auto. Qed.

(** ** The attempt of the runtime *)
Definition env_for {Expiration Permission : Type} (sandbox_policy_json : SandboxPolicy → str)
    (file_system_policy_json : FileSystemSandboxPolicy → str)
    (network_policy_json : NetworkSandboxPolicy → str) (path_to_str : Path → str)
    (self : SandboxAttempt) (spec : @CommandSpec Expiration Permission) (network : option Network) :
    outcome SandboxTransformError (@ExecRequest Expiration Network Permission) :=
  transform sandbox_policy_json file_system_policy_json network_policy_json path_to_str
    {| Sandboxing.spec := spec;
       request_policy := attempt_policy self;
       file_system_policy := attempt_file_system_policy self;
       network_policy := attempt_network_policy self;
       sandbox := attempt_sandbox self;
       enforce_managed_network := attempt_enforce_managed_network self;
       request_network := network;
       sandbox_policy_cwd := sandbox_cwd self;
       codex_linux_sandbox_exe := attempt_codex_linux_sandbox_exe self;
       use_legacy_landlock := attempt_use_legacy_landlock self;
       request_windows_sandbox_level := attempt_windows_sandbox_level self;
       request_windows_sandbox_private_desktop := attempt_windows_sandbox_private_desktop self |}.
End Runtimes.

(** ** What a shell call executes *)

(** The policies of [transform] are the effective ones. *)
Lemma effective_policies_spec {Expiration Network Permission : Type}
    (r : @SandboxTransformRequest Expiration Network Permission) fs net :
  effective_policies r = (fs, net) →
  fs = effective_file_system_sandbox_policy (file_system_policy r)
         (Sandboxing.additional_permissions (spec r)) ∧
  (network_is_enabled net = true ↔
     network_is_enabled (network_policy r) = true ∨
     from_option_grants profile_grants (Sandboxing.additional_permissions (spec r)) GrantNetwork).
Proof.
  unfold effective_policies, effective_file_system_sandbox_policy.
  destruct (Sandboxing.additional_permissions (spec r)) as [p|]; [|intros [= <- <-]; cbn; tauto].
  destruct (additional_permission_roots p) as [rs ws]. intros [= <- <-]. split; [done|].
  unfold merge_network_access. cbn [from_option_grants].
  assert (profile_grants p GrantNetwork ↔ default false (network p ≫= enabled) = true) as ->.
  { unfold profile_grants.
    destruct p as [[[[[]|]]|] [fs|] [m|]]; cbn; split; intuition congruence. }
  change (match network p with Some n => enabled n | None => None end) with (network p ≫= enabled).
  by destruct (network_is_enabled (network_policy r)), (network p ≫= enabled) as [[]|]; cbn; intuition.
Qed.

Section ShellRun.
Context {Network : Type} (windows : bool) (exists_ : str → bool).
Context (normalize_for_path_comparison : Path → option Path).
Context (sandbox_policy_json : SandboxPolicy → str).
Context (file_system_policy_json : FileSystemSandboxPolicy → str).
Context (network_policy_json : NetworkSandboxPolicy → str) (path_to_str : Path → str).
Context (session_shell : Shell) (powershell_utf8 : bool).

Inductive ShellRunError : Type :=
  | ShellRejected (reason : str)
  | ShellTransform (err : SandboxTransformError).

(** The command line the runtime hands to the sandbox. *)
Definition shell_command_line (req : @ShellRequest Network) : list str :=
  let command :=
    maybe_wrap_shell_lc_with_snapshot windows exists_ normalize_for_path_comparison
      (shell_command req) session_shell (shell_cwd req) (shell_explicit_env_overrides req) in
  if match shell_type session_shell with PowerShell => true | _ => false end && powershell_utf8
  then prefix_powershell_script_with_utf8 command else command.

(** [ShellRuntime::run] up to [execute_env], for the backends other than the
    zsh fork. *)
Definition shell_exec_request (req : @ShellRequest Network) (attempt : SandboxAttempt) :
    outcome ShellRunError (@ExecRequest (option Z) Network SandboxPermissions) :=
  spec ← map_err ShellRejected
           (build_command_spec (shell_command_line req) (shell_cwd req) (shell_env req)
              (shell_timeout_ms req) (shell_sandbox_permissions req)
              (shell_additional_permissions req) (shell_justification req));
  map_err ShellTransform
    (env_for sandbox_policy_json file_system_policy_json network_policy_json path_to_str attempt
       spec (shell_network req)).

(** A shell call executes the command it was approved for, under the policy
    of the attempt with the permissions of the request.  The file system and
    the network policy of the request are the attempt's, widened by exactly
    the additional permissions; without network access the environment says
    so; without a sandbox the command runs as it is, and under the Linux
    sandbox it comes after the arguments with these policies and a [--].  The
    only failures are an empty command line, a missing sandbox executable and
    a macOS sandbox. *)
Theorem exec_request_spec (req : @ShellRequest Network) (attempt : SandboxAttempt) :
  match shell_exec_request req attempt with
  | Ok x =>
      exec_file_system_sandbox_policy x
      = effective_file_system_sandbox_policy (attempt_file_system_policy attempt)
          (shell_additional_permissions req) ∧
      (network_is_enabled (exec_network_sandbox_policy x) = true ↔
         network_is_enabled (attempt_network_policy attempt) = true ∨
         from_option_grants profile_grants (shell_additional_permissions req) GrantNetwork) ∧
      (network_is_enabled (exec_network_sandbox_policy x) = false →
         exec_env x !! network_disabled_var = Some (lit "1")) ∧
      shell_command_line req ≠ [] ∧
      match attempt_sandbox attempt with
      | SandboxNone | WindowsRestrictedToken => exec_command x = shell_command_line req
      | LinuxSeccomp =>
          ∃ exe before after,
            attempt_codex_linux_sandbox_exe attempt = Some exe ∧
            exec_command x = exe :: before
              ++ [lit "--file-system-sandbox-policy";
                  file_system_policy_json (exec_file_system_sandbox_policy x);
                  lit "--network-sandbox-policy";
                  network_policy_json (exec_network_sandbox_policy x)]
              ++ after ++ [lit "--"] ++ shell_command_line req
      | MacosSeatbelt => False
      end
  | Err (ShellRejected _) => shell_command_line req = []
  | Err (ShellTransform MissingLinuxSandboxExecutable) =>
      attempt_sandbox attempt = LinuxSeccomp ∧ attempt_codex_linux_sandbox_exe attempt = None
  | Err (ShellTransform SeatbeltUnavailable) => attempt_sandbox attempt = MacosSeatbelt
  | _ => False
  end.
Proof.
  unfold shell_exec_request, build_command_spec.
  destruct (shell_command_line req) as [|prog0 args0] eqn:Hc; [done|]. cbn [map_err mbind outcome_bind].
  unfold env_for, transform. cbv zeta.
  destruct (effective_policies _) as [fs net] eqn:Hp. apply effective_policies_spec in Hp as [Hfs Hnet].
  cbn [spec file_system_policy network_policy Sandboxing.additional_permissions] in Hfs, Hnet.
  cbn [sandbox spec program args codex_linux_sandbox_exe].
  assert (Henv : network_is_enabled net = false →
    (if negb (network_is_enabled net)
     then <[network_disabled_var:=lit "1"]> (shell_env req) else shell_env req) !! network_disabled_var
    = Some (lit "1")) by (intros ->; cbn [negb]; by rewrite lookup_insert_eq).
  destruct (attempt_sandbox attempt) eqn:Hsb; cbn [map_err mbind outcome_bind]; try done.
  destruct (attempt_codex_linux_sandbox_exe attempt) as [exe|] eqn:Hexe; cbn [map_err mbind outcome_bind];
    [|done].
  split_and!; try done. unfold create_linux_sandbox_command_args_for_policies.
  cbn [exec_command exec_file_system_sandbox_policy exec_network_sandbox_policy].
  eexists exe, [_; _; _; _], (_ ++ _). split; [done|]. cbn [app]. by rewrite <- app_assoc.
Qed.
End ShellRun.

(** ** The handler *)
Section ShellHandler.
Context `{PathEnv} (target_is_macos linux : bool) (try_parse_shell : str → option Node).
Context (powershell_output : str → str → option PowershellParserOutput).
Context (home : option str) (absolutize_host : str → option str).
Context (shlex_try_join : list str → option str).
Context {Network : Type}.

Record ExecParams : Type := {
  params_command : list str;
  params_cwd : Path;
  params_timeout_ms : option Z;
  params_env : gmap str str;
  params_network : option Network;
  params_sandbox_permissions : SandboxPermissions;
  params_justification : option str;
}.

(** What the handler reads of the session and of the turn. *)
Record ShellContext : Type := {
  session_exec_policy : Policy;
  session_permissions : option PermissionProfile;
  turn_permissions : option PermissionProfile;
  dependency_env : gmap str str;
  shell_environment_set : gmap str str;
  exec_permission_approvals_enabled : bool;
  request_permissions_tool_enabled : bool;
  turn_approval_policy : AskForApproval;
  turn_context : TurnContext;
}.

(** The environment with the values of the dependencies, and the variables that
    are set explicitly. *)
Definition merged_env (ctx : ShellContext) (params : ExecParams) : gmap str str :=
  dependency_env ctx ∪ params_env params.
Definition explicit_env_overrides (ctx : ShellContext) (params : ExecParams) : gmap str str :=
  (merged_env ctx params ∩ dependency_env ctx) ∪ shell_environment_set ctx.

Definition exec_approval_request (ctx : ShellContext) (params : ExecParams)
    (effective : EffectiveAdditionalPermissions) (prefix_rule : option (list str)) :
    ExecApprovalRequest := {|
  command := params_command params;
  approval_policy := turn_approval_policy ctx;
  sandbox_policy := turn_sandbox_policy (turn_context ctx);
  file_system_sandbox_policy := turn_file_system_sandbox_policy (turn_context ctx);
  sandbox_permissions :=
    if permissions_preapproved effective then UseDefault else effective_permissions_mode effective;
  ExecApproval.prefix_rule := prefix_rule;
|}.

Definition exec_requirement (ctx : ShellContext) (req : ExecApprovalRequest) :
    outcome Empty_set ExecApprovalRequirement :=
  create_exec_approval_requirement_for_command linux try_parse_shell powershell_output home
    absolutize_host shlex_try_join (session_exec_policy ctx) req.

(** The permissions of the command: those granted implicitly, or the ones it
    asks for, validated. *)
Definition normalized_permissions (ctx : ShellContext) (params : ExecParams)
    (requested_additional_permissions : option PermissionProfile)
    (effective : EffectiveAdditionalPermissions) : outcome FunctionCallError (option PermissionProfile) :=
  let additional_permissions_allowed :=
    exec_permission_approvals_enabled ctx
    || (request_permissions_tool_enabled ctx && permissions_preapproved effective) in
  match implicit_granted_permissions (params_sandbox_permissions params)
          requested_additional_permissions effective with
  | Some permissions => Ok (Some permissions)
  | None =>
      map_err RespondToModel
        (normalize_and_validate_additional_permissions target_is_macos
           additional_permissions_allowed (turn_approval_policy ctx)
           (effective_permissions_mode effective) (effective_permissions effective)
           (permissions_preapproved effective))
  end.

(** [run_exec_like] up to the request it gives to the orchestrator; a command
    that is an [apply_patch] invocation takes another way after the guard. *)
Definition shell_request (ctx : ShellContext) (params : ExecParams)
    (additional_permissions : option PermissionProfile) (prefix_rule : option (list str)) :
    outcome FunctionCallError ShellRequest :=
  let effective :=
    apply_granted_turn_permissions (session_permissions ctx) (turn_permissions ctx)
      (params_sandbox_permissions params) additional_permissions in
  normalized_additional_permissions ←
    normalized_permissions ctx params additional_permissions effective;
  if requests_sandbox_override (effective_permissions_mode effective)
     && negb (permissions_preapproved effective) && negb (is_on_request (turn_approval_policy ctx))
  then
    let policy := debug_approval_policy (turn_approval_policy ctx) in
    Err (RespondToModel (lit "approval policy is " ++ policy ++ lit "; reject command " ++ EM_DASH
         ++ lit " you should not ask for escalated permissions if the approval policy is " ++ policy))
  else
    requirement ←
      map_err (Empty_set_rect (λ _, FunctionCallError))
        (exec_requirement ctx (exec_approval_request ctx params effective prefix_rule));
    Ok {| shell_command := params_command params;
          shell_cwd := params_cwd params;
          shell_timeout_ms := params_timeout_ms params;
          shell_env := merged_env ctx params;
          shell_explicit_env_overrides := explicit_env_overrides ctx params;
          shell_network := params_network params;
          shell_sandbox_permissions := effective_permissions_mode effective;
          shell_additional_permissions := normalized_additional_permissions;
          additional_permissions_preapproved := permissions_preapproved effective;
          shell_justification := params_justification params;
          shell_exec_approval_requirement := requirement |}.

(** The call: the request, then the orchestrator. *)
Definition run_exec_like {Output Out Other : Type} (ctx : ShellContext) (params : ExecParams)
    (additional_permissions : option PermissionProfile) (prefix_rule : option (list str)) :
    outcome FunctionCallError
      (@prog Output Out Other (@OrchestratorRunResult Out + @ToolError Output Other)) :=
  req ← shell_request ctx params additional_permissions prefix_rule;
  Ok (run req (turn_context ctx) (turn_approval_policy ctx)).
End ShellHandler.

(** ** Permissions of a command *)

(** A grant and the same one with its path made canonical. *)
Definition normalized_from `{PathEnv} (g' g : grant) : Prop :=
  match g', g with
  | GrantRead p', GrantRead p | GrantWrite p', GrantWrite p => p = canonical_path p'
  | _, _ => g = g'
  end ∨ g = g'.

Abbreviation grants := (from_option_grants profile_grants).

Lemma normalize_grants `{PathEnv} (p n : PermissionProfile) g :
  normalize_additional_permissions p = Ok n → profile_grants n g →
  ∃ g', normalized_from g' g ∧ profile_grants p g'.
Proof.
  intros [= <-]. unfold profile_grants. cbn [network file_system Sandboxing.macos].
  rewrite filter_grants by (by intros; apply empty_file_system_grants).
  assert (Hpaths : ∀ (o : option (list AbsolutePathBuf)) x,
    x ∈ default [] (option_map normalize_permission_paths o) →
    ∃ y, y ∈ default [] o ∧ x = canonical_path y).
  { intros [l|] x; cbn; [|by intros ?%not_elem_of_nil]. unfold normalize_permission_paths.
    rewrite elem_of_dedup_from, list_elem_of_fmap. naive_solver. }
  intros [[-> Hn]|[Hfs|Hm]].
  - exists GrantNetwork. split; [by right|left]. split; [done|]. revert Hn.
    by destruct (network p) as [[[[]|]]|].
  - destruct (file_system p) as [fs|]; [|done]. cbn in Hfs. destruct g; try done; cbn in Hfs;
      apply Hpaths in Hfs as (y & Hy & ->); [exists (GrantRead y)|exists (GrantWrite y)];
      (split; [by left|by right; left]).
  - exists g. split; [by right|]. by right; right.
Qed.

(** What is granted to the session and to the turn. *)
Definition granted (session_permissions turn_permissions : option PermissionProfile) (g : grant) :
    Prop :=
  grants session_permissions g ∨ grants turn_permissions g.

(** The effective permissions hold nothing but the request and the grants, and
    only the grants when they are approved in advance. *)
Lemma effective_grants sess turn sp ap g :
  let e := apply_granted_turn_permissions sess turn sp ap in
  (grants (effective_permissions e) g → grants ap g ∨ granted sess turn g) ∧
  (permissions_preapproved e = true → grants (effective_permissions e) g → granted sess turn g).
Proof.
  unfold apply_granted_turn_permissions, granted. destruct (requires_escalated_permissions sp);
    [split; [by left|done]|]. cbv zeta. cbn [effective_permissions permissions_preapproved].
  assert (Hm := merge_grants ap (merge_permission_profiles sess turn) g).
  assert (Hst := merge_grants sess turn g). split; [tauto|].
  destruct (merge_permission_profiles ap _) as [eff|]; [|done].
  destruct (merge_permission_profiles sess turn) as [gr|] eqn:Eg; [|done].
  intros <-%bool_decide_eq_true. cbn [from_option_grants]. rewrite intersect_grants.
  intros [_ Hg]. by apply merge_grants; rewrite Eg.
Qed.

Lemma escalated_not_preapproved sess turn sp ap :
  effective_permissions_mode (apply_granted_turn_permissions sess turn sp ap) = RequireEscalated →
  permissions_preapproved (apply_granted_turn_permissions sess turn sp ap) = false.
Proof.
  unfold apply_granted_turn_permissions. destruct (requires_escalated_permissions sp) eqn:He; [done|].
  cbv zeta. cbn [effective_permissions_mode]. case_match; [done|]. intros ->. done.
Qed.

Lemma escalated_asked sess turn sp ap :
  effective_permissions_mode (apply_granted_turn_permissions sess turn sp ap) = RequireEscalated →
  sp = RequireEscalated.
Proof.
  unfold apply_granted_turn_permissions. destruct sp; cbn; [|done|]; case_match; try done.
Qed.

#[export] Instance FileSystemSandboxKind_eq_dec : EqDecision FileSystemSandboxKind.
Proof. solve_decision. Defined.

Section Permitted.
Context `{PathEnv} (target_is_macos linux : bool) (try_parse_shell : str → option Node).
Context (powershell_output : str → str → option PowershellParserOutput).
Context (home : option str) (absolutize_host : str → option str).
Context (shlex_try_join : list str → option str).
Context {Network : Type}.
Implicit Types (params : @ExecParams Network) (req : @ShellRequest Network).

Abbreviation request :=
  (shell_request target_is_macos linux try_parse_shell powershell_output home absolutize_host
     shlex_try_join).

(** A request that passes the guard. *)
Lemma shell_request_inv ctx params ap pr req :
  request ctx params ap pr = Ok req →
  let e := apply_granted_turn_permissions (session_permissions ctx) (turn_permissions ctx)
             (params_sandbox_permissions params) ap in
  normalized_permissions target_is_macos ctx params ap e = Ok (shell_additional_permissions req) ∧
  shell_sandbox_permissions req = effective_permissions_mode e ∧
  (requests_sandbox_override (effective_permissions_mode e) = true →
     permissions_preapproved e = true ∨ turn_approval_policy ctx = OnRequest) ∧
  exec_requirement linux try_parse_shell powershell_output home absolutize_host shlex_try_join ctx
    (exec_approval_request ctx params e pr) = Ok (shell_exec_approval_requirement req).
Proof.
  unfold shell_request. cbv zeta.
  destruct (normalized_permissions _ _ _ _ _) as [np| | |] eqn:Hn; try done. cbn [mbind outcome_bind].
  destruct (requests_sandbox_override _ && negb _ && negb _) eqn:Hg; [done|].
  destruct (exec_requirement _ _ _ _ _ _ _ _) as [r|[]| |] eqn:Hr; try done.
  cbn. intros [= <-]. split_and!; [done|done| |done]. intros Hov. rewrite Hov in Hg.
  destruct (permissions_preapproved _); [by left|right]. by destruct (turn_approval_policy ctx).
Qed.

Lemma validated_grants allowed policy sp ap preapproved n g :
  normalize_and_validate_additional_permissions target_is_macos allowed policy sp ap preapproved
  = Ok n → grants n g →
  (preapproved = true ∨ policy = OnRequest) ∧ ∃ g', normalized_from g' g ∧ grants ap g'.
Proof.
  unfold normalize_and_validate_additional_permissions. cbv zeta.
  destruct (negb preapproved && negb allowed && _); [done|].
  destruct (uses_additional_permissions sp); [|by destruct (negb (is_none ap)); [|intros [= <-]]].
  destruct (negb preapproved && negb (is_on_request policy)) eqn:Hp; [done|].
  destruct ap as [ap|]; [|done]. destruct (negb target_is_macos && _); [done|].
  destruct (normalize_additional_permissions ap) as [nz| | |] eqn:Hnz; try done. cbn.
  destruct (profile_is_empty nz); [done|]. intros [= <-] Hg. split.
  - destruct preapproved; [by left|right]. by destruct policy.
  - by eapply normalize_grants.
Qed.

Lemma request_permissions_justified ctx params ap pr req g :
  request ctx params ap pr = Ok req → grants (shell_additional_permissions req) g →
  ∃ g', normalized_from g' g ∧
    (granted (session_permissions ctx) (turn_permissions ctx) g' ∨
     (turn_approval_policy ctx = OnRequest ∧ grants ap g')).
Proof.
  intros (Hn & _ & _ & _)%shell_request_inv Hg. revert Hn. cbv zeta.
  set (e := apply_granted_turn_permissions _ _ _ _).
  assert (He := effective_grants (session_permissions ctx) (turn_permissions ctx)
    (params_sandbox_permissions params) ap). fold e in He.
  unfold normalized_permissions. destruct (implicit_granted_permissions _ _ _) as [imp|] eqn:Himp.
  - intros [= Heq]. rewrite <- Heq in Hg. exists g. split; [by right|left].
    unfold implicit_granted_permissions in Himp. destruct ap as [|]; [by rewrite andb_false_r in Himp|].
    destruct (_ && _); [|done]. destruct (proj1 (He g)) as [?|?]; [by rewrite Himp|done|done].
  - destruct (normalize_and_validate_additional_permissions _ _ _ _ _ _) as [n| | |] eqn:Hv; try done.
    cbn [map_err]. intros [= ->].
    destruct (validated_grants _ _ _ _ _ _ _ Hv Hg) as [Hwhy (g' & Hfrom & Hg')].
    exists g'. split; [done|]. destruct Hwhy as [Hpre|Hon].
    + left. by apply He.
    + destruct (proj1 (He g') Hg'); [by right|by left].
Qed.

(** The permissions of a command are granted ones.  Every permission a shell
    call runs with, up to the canonical form of its path, was granted by the
    client, for the session or in this turn, or the call asks for it under the
    policy that asks on request; and only under that policy does a call run
    with escalated permissions. *)
Theorem shell_permissions_justified
    {UserInputResponse ElicitationResponse DynamicToolResponse Usage UserInput Item : Type}
    (into_item : list UserInput → Item)
    (es : list (@event UserInputResponse ElicitationResponse DynamicToolResponse Item))
    (s : @Session UserInputResponse ElicitationResponse DynamicToolResponse Usage Item)
    ctx params ap pr req :
  steps into_item session_new es s →
  session_permissions ctx = granted_session_permissions s →
  turn_permissions ctx = granted_turn_permissions s →
  request ctx params ap pr = Ok req →
  (∀ g, grants (shell_additional_permissions req) g →
     ∃ g', normalized_from g' g ∧
       (granted_in es SessionScope g' ∨
        (turn_open es = true ∧ granted_in (this_turn es) Turn g') ∨
        (turn_approval_policy ctx = OnRequest ∧ grants ap g'))) ∧
  (shell_sandbox_permissions req = RequireEscalated → turn_approval_policy ctx = OnRequest).
Proof.
  intros Hs Hses Htur Hreq. split.
  - intros g Hg. destruct (request_permissions_justified _ _ _ _ _ _ Hreq Hg) as (g' & Hf & Hwhy).
    exists g'. split; [done|]. destruct (grants_traced into_item es s g' Hs) as [H1 H2].
    rewrite Hses, Htur in Hwhy. unfold granted in Hwhy. tauto.
  - apply shell_request_inv in Hreq as (_ & -> & Hov & _). revert Hov. cbv zeta.
    unfold apply_granted_turn_permissions.
    destruct (requires_escalated_permissions (params_sandbox_permissions params)) eqn:He;
      cbn [effective_permissions_mode permissions_preapproved].
    + intros Hov Heq. rewrite Heq in Hov. by destruct Hov.
    + intros _ Hesc. case_match; [done|]. by rewrite Hesc in He.
Qed.

Section Consent.
Context {Output Out Other : Type}.

(** A rule takes the script out of the sandbox: an allow rule applies to one of
    its commands, no rule that applies to any of them says something else, and
    a command without a rule is known to be safe if it might be dangerous. *)
Definition allowed_by_rules (ctx : ShellContext) (cmds : list (list str)) : Prop :=
  let applies := applies home absolutize_host (session_exec_policy ctx) in
  (∃ cmd m, cmd ∈ cmds ∧ applies cmd m ∧ match_decision m = Allow) ∧
  (∀ cmd m, cmd ∈ cmds → applies cmd m → match_decision m = Allow) ∧
  (∀ cmd, cmd ∈ cmds → (∀ m, ¬ applies cmd m) →
     command_might_be_dangerous try_parse_shell cmd = true →
     is_known_safe_command linux try_parse_shell powershell_output cmd = true).

(** Why a call may run without the sandbox although nobody was asked. *)
Definition unasked_exit (ctx : ShellContext) params : Prop :=
  let cmds := fst (commands_for_exec_policy try_parse_shell (params_command params)) in
  allowed_by_rules ctx cmds ∨
  (turn_approval_policy ctx = OnRequest ∧ params_sandbox_permissions params = RequireEscalated ∧
   ∀ cmd, cmd ∈ cmds → is_known_safe_command linux try_parse_shell powershell_output cmd = true) ∨
  kind (turn_file_system_sandbox_policy (turn_context ctx)) ≠ KindRestricted ∨
  select_initial (target (turn_context ctx)) (turn_file_system_sandbox_policy (turn_context ctx))
    (turn_network_sandbox_policy (turn_context ctx)) Auto
    (turn_windows_sandbox_level (turn_context ctx))
    (has_managed_network_requirements (turn_context ctx)) = SandboxNone.

Lemma skip_exit ctx params ap pr req :
  request ctx params ap pr = Ok req →
  is_skip (shell_exec_approval_requirement req) = true →
  initial_sandbox req (turn_context ctx) = SandboxNone → unasked_exit ctx params.
Proof.
  intros (_ & Hsp & Hov & Hreq)%shell_request_inv Hskip Hinit. cbv zeta in *.
  set (e := apply_granted_turn_permissions _ _ _ _) in *.
  set (xreq := exec_approval_request ctx params e pr) in *.
  destruct (shell_exec_approval_requirement req) as [bypass am| |] eqn:Hr; try done.
  unfold exec_requirement in Hreq.
  pose proof (requirement_meaning linux try_parse_shell powershell_output home absolutize_host
    shlex_try_join (session_exec_policy ctx) xreq) as Hm.
  destruct (commands_for_exec_policy try_parse_shell (ExecApproval.command xreq)) as [cmds complex] eqn:Hcmds.
  destruct Hm as (r & Hr' & Hm). rewrite Hreq in Hr'. injection Hr' as <-. destruct Hm as [Hallow Hby].
  unfold unasked_exit. change (params_command params) with (ExecApproval.command xreq). rewrite Hcmds.
  cbv zeta. cbn [fst]. destruct bypass.
  { left. destruct (proj1 Hby eq_refl) as (cmd & m & Hin & Hm).
    assert (Hall : ∀ cmd m, cmd ∈ cmds → applies home absolutize_host (session_exec_policy ctx) cmd m →
      match_decision m = Allow).
    { intros cmd' m' Hin' Hm'. apply (Hallow cmd' _ Hin'). left. eauto. }
    split_and!; [by eauto 6|done|]. intros cmd' Hin' Hno.
    apply (skip_unmatched linux try_parse_shell powershell_output home absolutize_host
      shlex_try_join (session_exec_policy ctx) xreq true am cmd' Hreq); [by rewrite Hcmds|done]. }
  unfold initial_sandbox in Hinit. cbn [sandbox_mode_for_first_attempt ShellRuntime] in Hinit.
  rewrite Hr in Hinit. unfold sandbox_override_for_first_attempt in Hinit. rewrite orb_false_r in Hinit.
  destruct (requires_escalated_permissions (shell_sandbox_permissions req)) eqn:Hesc;
    [|by right; right; right].
  destruct (shell_sandbox_permissions req) eqn:Hspr; try done.
  right. destruct (decide (kind (turn_file_system_sandbox_policy (turn_context ctx)) = KindRestricted))
    as [Hk|Hk]; [left|by right; left].
  assert (Hnp : permissions_preapproved e = false) by by apply escalated_not_preapproved.
  destruct (Hov ltac:(by rewrite <- Hsp)) as [Hpre|Hon]; [congruence|].
  split; [done|]. split; [exact (escalated_asked _ _ _ _ (eq_sym Hsp))|]. intros cmd Hin.
  destruct (skip_unmatched linux try_parse_shell powershell_output home absolutize_host
    shlex_try_join (session_exec_policy ctx) xreq false am cmd Hreq) as (_ & _ & Hsafe).
  - by rewrite Hcmds.
  - intros m Hm. assert (false = true); [|done]. apply Hby. eauto.
  - apply Hsafe; [|done|by left].
    unfold xreq, exec_approval_request. cbn [ExecApproval.sandbox_permissions].
    by rewrite Hnp, <- Hsp.
Qed.

Lemma never_asked ctx params ap pr req :
  request ctx params ap pr = Ok req → turn_approval_policy ctx = Never →
  ∀ reason am, shell_exec_approval_requirement req ≠ NeedsApproval reason am.
Proof.
  intros (_ & _ & _ & Hreq)%shell_request_inv Hn reason am Hneeds. cbv zeta in Hreq.
  unfold exec_requirement in Hreq. rewrite Hneeds in Hreq.
  pose proof (requirement_meaning linux try_parse_shell powershell_output home absolutize_host
    shlex_try_join (session_exec_policy ctx) (exec_approval_request ctx params
      (apply_granted_turn_permissions (session_permissions ctx) (turn_permissions ctx)
         (params_sandbox_permissions params) ap) pr)) as Hm.
  destruct (commands_for_exec_policy _ _) as [cmds complex]. destruct Hm as (r & Hr & Hm).
  rewrite Hreq in Hr. injection Hr as <-. destruct Hm as (_ & _ & Hask & _).
  cbn [ExecApproval.approval_policy exec_approval_request] in Hask. by rewrite Hn in Hask.
Qed.

(** C12: a shell call leaves the sandbox with consent.  In every run of a call
    that got a request, an attempt without a sandbox comes after an approving
    answer, or the call is exempt: an allow rule applies to a command of its
    script, all the rules that apply to any of them allow, and those without a rule
    are known to be safe where they might be dangerous; or the call asked to
    run without the sandbox under [OnRequest] and every command of its script is
    known to be safe; or the turn's policy restricts no files; or no sandbox is
    selected for the turn's policies, as on a platform that has none.  Under
    [Never] nobody is asked, there is at most one attempt and no call is
    escalated. *)
Theorem shell_leaves_sandbox_with_consent ctx params ap pr req
    (tr : list (@obs Output Out Other)) res :
  request ctx params ap pr = Ok req →
  runs (run req (turn_context ctx) (turn_approval_policy ctx)) tr res →
  (∀ pre a r post, tr = pre ++ Ran a r :: post → attempt_sandbox a = SandboxNone →
     approved_in pre ∨ unasked_exit ctx params) ∧
  (turn_approval_policy ctx = Never →
     (∀ reason c d, Asked reason c d ∉ tr) ∧ length (attempts tr) ≤ 1 ∧
     shell_sandbox_permissions req ≠ RequireEscalated).
Proof.
  intros Hreq Hr. destruct (run_consent _ _ _ _ _ Hr) as (Hat & _ & Hnever). split.
  - intros pre a r post Htr Hnone.
    destruct (Hat pre a r post Htr) as [(_ & Hinit & [Hskip|Hap])|(_ & _ & _ & _ & Hap & _)];
      [right|by left..].
    eapply skip_exit; [exact Hreq|exact Hskip|congruence].
  - intros Hn. assert (Hna := never_asked _ _ _ _ _ Hreq Hn).
    destruct (Hnever Hn Hna) as [Hno Hone]. split_and!; [done..|]. intros Hesc.
    apply shell_request_inv in Hreq as (_ & Hsp & Hov & _). cbv zeta in *. rewrite Hsp in Hesc.
    destruct Hov as [Hpre|Hon]; [by rewrite Hesc| |congruence].
    by rewrite (escalated_not_preapproved _ _ _ _ Hesc) in Hpre.
Qed.
End Consent.
End Permitted.

(** ** Applications of the theorems *)
Definition sample_params (sp : SandboxPermissions) : @ExecParams unit := {|
  params_command := [lit "ls"];
  params_cwd := sample_cwd;
  params_timeout_ms := None;
  params_env := ∅;
  params_network := None;
  params_sandbox_permissions := sp;
  params_justification := None;
|}.

Definition sample_ctx (granted : option PermissionProfile) (policy : AskForApproval) :
    ShellContext := {|
  session_exec_policy := policy_empty;
  session_permissions := None;
  turn_permissions := granted;
  dependency_env := ∅;
  shell_environment_set := ∅;
  exec_permission_approvals_enabled := false;
  request_permissions_tool_enabled := true;
  turn_approval_policy := policy;
  turn_context := sample_turn;
|}.

Definition sample_shell_request granted policy sp : outcome FunctionCallError ShellRequest :=
  shell_request false true no_shell no_powershell None Some no_shlex (sample_ctx granted policy)
    (sample_params sp) None None.

(** A command of a turn that was granted the network. *)
Lemma shell_permissions_justified_witness :
  ∃ req, sample_shell_request (Some (profile_from_request (permissions sample_response)))
           UnlessTrusted UseDefault = Ok req ∧
         grants (shell_additional_permissions req) GrantNetwork ∧
         (granted_in grant_events SessionScope GrantNetwork ∨
          granted_in (this_turn grant_events) Turn GrantNetwork).
Proof.
  destruct grant_steps as (s & Hs & _ & Hses & Htur).
  eexists. split; [vm_compute; reflexivity|]. cbn [shell_additional_permissions].
  assert (Hg : grants (Some (profile_from_request (permissions sample_response))) GrantNetwork)
    by by left.
  split; [exact Hg|].
  destruct (shell_permissions_justified false true no_shell no_powershell None Some no_shlex
    sample_item grant_events s
    (sample_ctx (Some (profile_from_request (permissions sample_response))) UnlessTrusted)
    (sample_params UseDefault) None None _ Hs (eq_sym Hses) (eq_sym Htur) ltac:(vm_compute; reflexivity))
    as [Hall _].
  destruct (Hall GrantNetwork Hg) as (g' & Hf & Hwhy).
  assert (g' = GrantNetwork) as -> by (by destruct g', Hf).
  destruct Hwhy as [Hw|[[_ Hw]|[Hw _]]]; [by left|by right|discriminate].
Defined.

(** A command that is known to be safe leaves the sandbox on request. *)
Lemma shell_leaves_sandbox_witness :
  ∃ req, sample_shell_request None OnRequest RequireEscalated = Ok req ∧
    @runs unit unit unit _ (run req sample_turn OnRequest)
      [Ran (attempt_for sample_turn SandboxNone (turn_codex_linux_sandbox_exe sample_turn)) (inl tt)]
      (inl {| output := tt; deferred_network_approval := None |}) ∧
    unasked_exit true no_shell no_powershell None Some (sample_ctx None OnRequest)
      (sample_params RequireEscalated).
Proof.
  eexists. split; [vm_compute; reflexivity|].
  match goal with |- runs (run ?r _ _) _ _ ∧ _ => set (req := r) end.
  assert (Hr : @runs unit unit unit _ (run req sample_turn OnRequest)
      [Ran (attempt_for sample_turn SandboxNone (turn_codex_linux_sandbox_exe sample_turn)) (inl tt)]
      (inl {| output := tt; deferred_network_approval := None |})).
  { hnf. eexists _, _. split; [reflexivity|]. by split. }
  split; [exact Hr|].
  destruct (shell_leaves_sandbox_with_consent false true no_shell no_powershell None Some no_shlex
    (sample_ctx None OnRequest) (sample_params RequireEscalated) None None req _ _
    ltac:(vm_compute; reflexivity) Hr) as [Hall _].
  destruct (Hall [] _ _ [] eq_refl eq_refl) as [(? & ? & ? & Hin & _)|He];
    [by apply not_elem_of_nil in Hin|exact He].
Defined.
