(* ===== verification/PatchTool.v ===== *)
(** * The patch tool: [core/src/apply_patch.rs],
      [core/src/tools/handlers/apply_patch.rs],
      [core/src/tools/runtimes/apply_patch.rs]

    From a verified patch to the orchestrator: the files it touches, the
    permissions the sandboxed run gets, the decision of [assess_patch_safety]
    as an approval requirement, and the runtime as an instance of
    [ToolRuntime].  The answers of the runtime (a session approval, a
    preapproval, the user) are the answers to the questions of the
    orchestrator. *)
From stdpp Require Import base tactics option list gmap strings.
From S2P Require Import Prelude RustStr Paths Permissions Safety ExecApproval Sandboxing.
From S2P Require Import Orchestrator ApprovalCache TurnState ShellRuntime ShellTool.
From stdpp Require Import list.

(** ** The order of paths in a [BTreeSet] *)
Definition component_rank (c : Component) : nat :=
  match c with RootDir => 0 | CurDir => 1 | ParentDir => 2 | Normal _ => 3 end.

Definition component_lt (c d : Component) : bool :=
  match c, d with
  | Normal s, Normal t => str_lt s t
  | _, _ => component_rank c <? component_rank d
  end.

Fixpoint path_lt (p q : Path) : bool :=
  match p, q with
  | [], [] => false
  | [], _ :: _ => true
  | _ :: _, [] => false
  | c :: p, d :: q => if bool_decide (c = d) then path_lt p q else component_lt c d
  end.

Fixpoint path_insert (p : Path) (l : list Path) : list Path :=
  match l with
  | [] => [p]
  | q :: l' =>
      if bool_decide (p = q) then l else if path_lt p q then p :: l else q :: path_insert p l'
  end.

Definition path_set (l : list Path) : list Path := foldl (λ acc p, path_insert p acc) [] l.

(** ** The files of a patch *)
Section Patch.
Context `{PathEnv}.

Definition to_abs_path (cwd path : Path) : option AbsolutePathBuf :=
  resolve_path_against_base path cwd.

Definition change_paths (cwd : Path) (change : Path * ApplyPatchFileChange) : list AbsolutePathBuf :=
  option_list (to_abs_path cwd change.1)
  ++ match change.2 with
     | Update _ (Some dest) _ => option_list (to_abs_path cwd dest)
     | _ => []
     end.

Definition file_paths_for_action (action : ApplyPatchAction) : list AbsolutePathBuf :=
  mjoin (change_paths (Safety.cwd action) <$> changes action).

(** [AbsolutePathBuf::parent]. *)
Definition abs_parent (path : AbsolutePathBuf) : option AbsolutePathBuf :=
  parent path ≫= from_absolute_path.

Definition write_permissions_for_paths (file_paths : list AbsolutePathBuf) :
    option PermissionProfile :=
  write_paths ← mapM from_absolute_path
                  (path_set ((λ path, default path (abs_parent path)) <$> file_paths));
  permissions ←
    (if bool_decide (write_paths = []) then None
     else Some {| network := None;
                  file_system := Some {| read := Some []; write := Some write_paths |};
                  Sandboxing.macos := None |});
  match normalize_additional_permissions permissions with Ok p => Some p | _ => None end.

Definition effective_patch_permissions (session_permissions turn_permissions : option PermissionProfile)
    (turn : TurnContext) (action : ApplyPatchAction) :
    list AbsolutePathBuf * EffectiveAdditionalPermissions * FileSystemSandboxPolicy :=
  let file_paths := file_paths_for_action action in
  let granted_permissions := merge_permission_profiles session_permissions turn_permissions in
  (file_paths,
   apply_granted_turn_permissions session_permissions turn_permissions UseDefault
     (write_permissions_for_paths file_paths),
   effective_file_system_sandbox_policy (turn_file_system_sandbox_policy turn) granted_permissions).

(** ** The decision *)
Record ApplyPatchExec : Type := {
  exec_action : ApplyPatchAction;
  auto_approved : bool;
  patch_requirement : ExecApprovalRequirement;
}.

Inductive InternalApplyPatchInvocation : Type :=
  | Rejection (err : FunctionCallError)
  | DelegateToExec (exec : ApplyPatchExec).

Definition apply_patch_invocation (turn : TurnContext) (approval_policy : AskForApproval)
    (file_system_sandbox_policy : FileSystemSandboxPolicy) (action : ApplyPatchAction) :
    outcome io_Error InternalApplyPatchInvocation :=
  check ← assess_patch_safety (target turn) action approval_policy (turn_sandbox_policy turn)
            file_system_sandbox_policy (turn_cwd turn) (turn_windows_sandbox_level turn);
  Ok (match check with
      | AutoApprove _ user_explicitly_approved =>
          DelegateToExec {| exec_action := action;
                            auto_approved := negb user_explicitly_approved;
                            patch_requirement := Skip false None |}
      | AskUser =>
          DelegateToExec {| exec_action := action; auto_approved := false;
                            patch_requirement := NeedsApproval None None |}
      | Reject reason => Rejection (RespondToModel (lit "patch rejected: " ++ reason))
      end).

(** ** The request and the runtime *)
Record ApplyPatchRequest : Type := {
  request_action : ApplyPatchAction;
  request_file_paths : list AbsolutePathBuf;
  request_exec_approval_requirement : ExecApprovalRequirement;
  request_sandbox_permissions : SandboxPermissions;
  request_additional_permissions : option PermissionProfile;
  request_permissions_preapproved : bool;
  request_timeout_ms : option Z;
  codex_exe : option str;
}.

(** The part of the two handlers between the verified patch and the
    orchestrator. *)
Definition patch_request (session_permissions turn_permissions : option PermissionProfile)
    (turn : TurnContext) (approval_policy : AskForApproval) (timeout_ms : option Z)
    (action : ApplyPatchAction) : outcome io_Error (ApplyPatchRequest + FunctionCallError) :=
  let '(file_paths, effective_additional_permissions, file_system_sandbox_policy) :=
    effective_patch_permissions session_permissions turn_permissions turn action in
  invocation ← apply_patch_invocation turn approval_policy file_system_sandbox_policy action;
  Ok (match invocation with
      | Rejection err => inr err
      | DelegateToExec apply =>
          inl {| request_action := exec_action apply;
                 request_file_paths := file_paths;
                 request_exec_approval_requirement := patch_requirement apply;
                 request_sandbox_permissions :=
                   effective_permissions_mode effective_additional_permissions;
                 request_additional_permissions :=
                   effective_permissions effective_additional_permissions;
                 request_permissions_preapproved :=
                   permissions_preapproved effective_additional_permissions;
                 request_timeout_ms := timeout_ms;
                 codex_exe := turn_codex_linux_sandbox_exe turn |}
      end).

Definition patch_wants_no_sandbox_approval (policy : AskForApproval) : bool :=
  match policy with
  | Never => false
  | Granular granular_config => allows_sandbox_approval granular_config
  | OnFailure => true
  | OnRequest => true
  | UnlessTrusted => true
  end.

#[export] Instance ApplyPatchRuntime : ToolRuntime ApplyPatchRequest := {|
  exec_approval_requirement req := Some (request_exec_approval_requirement req);
  sandbox_mode_for_first_attempt _ := NoOverride;
  should_bypass_approval := default_should_bypass_approval;
  wants_no_sandbox_approval := patch_wants_no_sandbox_approval;
  sandbox_preference := Auto;
  escalate_on_failure := true;
  network_approval_spec _ := None;
|}.

#[export] Instance ApplyPatchRuntime_laws : ToolRuntimeLaws ApplyPatchRequest.
Proof. split; [done|]. intros [] []; cbn; auto. Qed.

Definition patch_approval_keys (req : ApplyPatchRequest) : list AbsolutePathBuf :=
  request_file_paths req.

(** [start_approval_async]: [guardian] and [user] answer when they are asked. *)
Definition patch_start_approval (to_string : AbsolutePathBuf → option str)
    (routes_to_guardian : bool) (guardian user : ReviewDecision) (store : ApprovalStore)
    (req : ApplyPatchRequest) (retry_reason : option str) : ReviewDecision * ApprovalStore :=
  if routes_to_guardian then (guardian, store)
  else if request_permissions_preapproved req && is_none retry_reason then (Approved, store)
  else match retry_reason with
       | Some _ => (user, store)
       | None => with_cached_approval to_string store (patch_approval_keys req) (λ store, (user, store))
       end.

Definition CODEX_CORE_APPLY_PATCH_ARG1 : str := lit "--codex-run-as-apply-patch".

(** [current_exe]: the path of the running program, or the text of the error. *)
Definition patch_command_spec (current_exe : outcome str str) (req : ApplyPatchRequest) :
    outcome str (@CommandSpec (option Z) SandboxPermissions) :=
  program ←
    match codex_exe req with
    | Some path => Ok path
    | None => map_err (λ e, lit "failed to determine codex exe: " ++ e) current_exe
    end;
  Ok {| Sandboxing.program := program;
        args := [CODEX_CORE_APPLY_PATCH_ARG1; Safety.patch (request_action req)];
        spec_cwd := Safety.cwd (request_action req);
        spec_env := ∅;
        spec_expiration := request_timeout_ms req;
        spec_sandbox_permissions := request_sandbox_permissions req;
        Sandboxing.additional_permissions := request_additional_permissions req;
        spec_justification := None |}.
End Patch.

(** ** Consent *)

(** The policy a patch is checked against: the turn's, with what was granted. *)
Definition patch_policy (session_permissions turn_permissions : option PermissionProfile)
    (turn : TurnContext) : FileSystemSandboxPolicy :=
  effective_file_system_sandbox_policy (turn_file_system_sandbox_policy turn)
    (merge_permission_profiles session_permissions turn_permissions).

Section Consent.
Context `{PathLaws} {Output Out Other : Type}.

Lemma patch_request_inv ses tur turn policy timeout action req :
  normal_abs (turn_cwd turn) = true →
  patch_request ses tur turn policy timeout action = Ok (inl req) →
  changes action ≠ [] ∧
  (is_skip (request_exec_approval_requirement req) = true → policy ≠ OnFailure →
   ∀ c p, c ∈ changes action → p ∈ touched c →
     can_write_path_with_cwd (patch_policy ses tur turn) (patch_target (turn_cwd turn) p)
       (turn_cwd turn) = Ok true).
Proof.
  intros Hcwd. unfold patch_request, effective_patch_permissions, apply_patch_invocation.
  destruct (patch_check_meaning (target turn) action policy (turn_sandbox_policy turn)
    (patch_policy ses tur turn) (turn_cwd turn) (turn_windows_sandbox_level turn) Hcwd)
    as (check & Hc & Hauto & Hask & _).
  unfold patch_policy in *. rewrite Hc. cbn [mbind outcome_bind].
  destruct check as [st explicit| |reason]; intros [= <-]; cbn.
  - destruct (Hauto _ _ eq_refl) as (_ & Hne & _ & Hw & _). auto.
  - by destruct (Hask eq_refl).
Qed.

End Consent.

(** ** Applications of the theorems *)
Definition patch_turn : TurnContext := {|
  turn_sandbox_policy := new_workspace_write_policy;
  turn_file_system_sandbox_policy := sample_policy;
  turn_network_sandbox_policy := NetworkRestricted;
  turn_windows_sandbox_level := Disabled;
  turn_windows_sandbox_private_desktop := false;
  turn_cwd := sample_cwd;
  turn_codex_linux_sandbox_exe := Some (lit "/usr/bin/codex-linux-sandbox");
  turn_use_legacy_landlock := false;
  has_managed_network_requirements := false;
  routes_approval_to_guardian := false;
  target := linux;
|}.


Definition outside_path : Path := path_of_str (lit "/srv/site/index.html").
Definition outside_action : ApplyPatchAction :=
  {| changes := [(outside_path, Safety.Add (lit "hello"))]; patch := []; Safety.cwd := sample_cwd |}.

(** Under [OnFailure] the patch of a file outside of the workspace is not asked
    about, and the policy of its sandboxed run lets it write there: the request
    carries write permissions for the directories of its own files. *)
Example on_failure_patch_unconfined :
  ∃ req, patch_request None None patch_turn OnFailure None outside_action = Ok (inl req) ∧
    request_exec_approval_requirement req = Skip false None ∧
    initial_sandbox req patch_turn = LinuxSeccomp ∧
    can_write_path_with_cwd (turn_file_system_sandbox_policy patch_turn) outside_path sample_cwd
    = Ok false ∧
    can_write_path_with_cwd
      (effective_file_system_sandbox_policy (turn_file_system_sandbox_policy patch_turn)
         (request_additional_permissions req)) outside_path sample_cwd = Ok true.
Proof. eexists. split; [vm_compute; reflexivity|]. split_and!; vm_compute; reflexivity. Qed.

(** The client has granted to write the directory of the file, and nothing else
    is asked for, but the patch does not count as approved in advance: the
    request also lists an empty set of paths to read, which is never equal to
    its intersection with the grant. *)
Example granted_write_not_preapproved :
  let granted := Some {| network := None;
                         file_system := Some {| read := None;
                           write := Some [path_of_str (lit "/srv/site")] |};
                         Sandboxing.macos := None |} in
  ∃ req, patch_request None granted patch_turn UnlessTrusted None outside_action = Ok (inl req) ∧
    request_permissions_preapproved req = false ∧
    (∀ g, from_option_grants profile_grants (request_additional_permissions req) g ↔
          from_option_grants profile_grants granted g).
Proof.
  eexists. split; [vm_compute; reflexivity|]. split; [vm_compute; reflexivity|].
  intros g. unfold from_option_grants, profile_grants. cbn.
  destruct g; cbn; set_solver.
Qed.
