(* ===== verification/NetworkApproval.v ===== *)
(** * Network access during a call: [core/src/tools/network_approval.rs],
      [core/src/network_policy_decision.rs]

    When the proxy blocks a host that is not on the allow list, it asks this
    service.  Requests for one host (with its protocol and port) share one
    question: the first becomes its owner and asks, the others wait for what it
    decides.  The service keeps the hosts allowed and denied for the session,
    the running calls, and what became of their network access, which the
    orchestrator takes when a call ends.  Each method takes and releases its own
    locks, so the step relation [step] interleaves the requests at every lock. *)
From stdpp Require Import base tactics option list gmap sets strings.
From S2P Require Import Prelude RustStr NetworkProxy Paths Permissions Safety ExecApproval.
From S2P Require Import Sandboxing Orchestrator.
From stdpp Require Import list.

(** ** Data *)
Record HostApprovalKey : Type := { key_host : str; key_protocol : str; key_port : Z }.

#[export] Instance HostApprovalKey_eq_dec : EqDecision HostApprovalKey.
Proof. solve_decision. Defined.
#[export] Instance HostApprovalKey_countable : Countable HostApprovalKey.
Proof.
  apply (inj_countable' (λ k, (key_host k, key_protocol k, key_port k))
    (λ t, {| key_host := t.1.1; key_protocol := t.1.2; key_port := t.2 |})). by intros [].
Defined.

Definition protocol_key_label (protocol : NetworkApprovalProtocol) : str :=
  match protocol with
  | ApprovalHttp => lit "http"
  | ApprovalHttps => lit "https"
  | ApprovalSocks5Tcp => lit "socks5-tcp"
  | ApprovalSocks5Udp => lit "socks5-udp"
  end.

Definition approval_protocol (p : NetworkProtocol) : NetworkApprovalProtocol :=
  match p with
  | Http => ApprovalHttp
  | HttpsConnect => ApprovalHttps
  | Socks5Tcp => ApprovalSocks5Tcp
  | Socks5Udp => ApprovalSocks5Udp
  end.

Definition key_from_request (request : NetworkPolicyRequest) (protocol : NetworkApprovalProtocol) :
    HostApprovalKey :=
  {| key_host := to_ascii_lowercase (rq_host request);
     key_protocol := protocol_key_label protocol;
     key_port := rq_port request |}.

Inductive PendingApprovalDecision : Type := AllowOnce | AllowForSession | DenyHost.
#[export] Instance PendingApprovalDecision_eq_dec : EqDecision PendingApprovalDecision.
Proof. solve_decision. Defined.

Definition allows_network_approval_flow (policy : AskForApproval) : bool :=
  match policy with Never => false | _ => true end.

Definition REASON_NOT_ALLOWED : str := lit "not_allowed".

(** [NetworkDecision::deny]. *)
Definition network_deny (reason : str) : NetworkDecision := deny_with_source reason Decider.

Definition to_network_decision (self : PendingApprovalDecision) : NetworkDecision :=
  match self with
  | AllowOnce | AllowForSession => DecisionAllow
  | DenyHost => network_deny REASON_NOT_ALLOWED
  end.

(** ** Messages *)
Definition parse_network_policy_decision (value : str) : option NetworkPolicyDecision :=
  if bool_decide (value = lit "deny") then Some DecisionDeny
  else if bool_decide (value = lit "ask") then Some DecisionAsk
  else None.

Definition denied_network_policy_message (blocked : BlockedRequest) : option str :=
  match br_decision blocked ≫= parse_network_policy_decision with
  | Some DecisionDeny =>
      let host := trim (br_host blocked) in
      if bool_decide (host = []) then Some (lit "Network access was blocked by policy.")
      else
        let reason := br_reason blocked in
        let detail :=
          if bool_decide (reason = lit "denied") then lit "domain is explicitly denied by policy and cannot be approved from this prompt"
          else if bool_decide (reason = lit "not_allowed") then lit "domain is not on the allowlist for the current sandbox mode"
          else if bool_decide (reason = lit "not_allowed_local") then lit "local/private network addresses are blocked by policy"
          else if bool_decide (reason = lit "method_not_allowed") then lit "request method is blocked by the current network mode"
          else if bool_decide (reason = lit "proxy_disabled") then lit "managed network proxy is disabled"
          else lit "request is blocked by network policy" in
        Some (lit "Network access to " ++ [34%N] ++ host ++ [34%N] ++ lit " was blocked: " ++ detail
              ++ lit ".")
  | _ => None
  end.

(** [format!("{protocol}://{host}:{port}")] and [approval_id_for_key]; the port
    is a [u16]. *)
Definition show_port (port : Z) : str := show_N (Z.to_N port).
Definition format_network_target (protocol host : str) (port : Z) : str :=
  protocol ++ lit "://" ++ host ++ lit ":" ++ show_port port.
Definition approval_id_for_key (key : HostApprovalKey) : str :=
  lit "network#" ++ key_protocol key ++ lit "#" ++ key_host key ++ lit "#" ++ show_port (key_port key).
Definition policy_denial_message (key : HostApprovalKey) (host : str) : str :=
  lit "Network access to " ++ [34%N] ++ format_network_target (key_protocol key) host (key_port key)
  ++ [34%N] ++ lit " was blocked by policy.".

(** ** The service *)

(** [PendingHostApproval]s are shared cells, [pendings] holds their decisions. *)
Record NetworkApprovalService : Type := {
  active_calls : list (str * str);
  call_outcomes : gmap str NetworkApprovalOutcome;
  pending_host_approvals : gmap HostApprovalKey nat;
  pendings : list (option PendingApprovalDecision);
  session_approved_hosts : gset HostApprovalKey;
  session_denied_hosts : gset HostApprovalKey;
}.

Definition service_default : NetworkApprovalService := {|
  active_calls := []; call_outcomes := ∅; pending_host_approvals := ∅; pendings := [];
  session_approved_hosts := ∅; session_denied_hosts := ∅ |}.

Definition with_calls (calls : list (str * str)) (outcomes : gmap str NetworkApprovalOutcome)
    (self : NetworkApprovalService) : NetworkApprovalService := {|
  active_calls := calls; call_outcomes := outcomes;
  pending_host_approvals := pending_host_approvals self; pendings := pendings self;
  session_approved_hosts := session_approved_hosts self;
  session_denied_hosts := session_denied_hosts self |}.
Definition with_pending (m : gmap HostApprovalKey nat) (l : list (option PendingApprovalDecision))
    (self : NetworkApprovalService) : NetworkApprovalService := {|
  active_calls := active_calls self; call_outcomes := call_outcomes self;
  pending_host_approvals := m; pendings := l;
  session_approved_hosts := session_approved_hosts self;
  session_denied_hosts := session_denied_hosts self |}.
Definition with_hosts (approved denied : gset HostApprovalKey) (self : NetworkApprovalService) :
    NetworkApprovalService := {|
  active_calls := active_calls self; call_outcomes := call_outcomes self;
  pending_host_approvals := pending_host_approvals self; pendings := pendings self;
  session_approved_hosts := approved; session_denied_hosts := denied |}.

Definition copy_session_approved_hosts_to (self other : NetworkApprovalService) :
    NetworkApprovalService :=
  with_hosts (session_approved_hosts other ∪ session_approved_hosts self)
    (session_denied_hosts other) other.

(** [IndexMap::insert] and [shift_remove]. *)
Fixpoint index_insert (id turn_id : str) (l : list (str * str)) : list (str * str) :=
  match l with
  | [] => [(id, turn_id)]
  | e :: l => if bool_decide (e.1 = id) then (id, turn_id) :: l else e :: index_insert id turn_id l
  end.

Definition shift_remove (id : str) (l : list (str * str)) : list (str * str) :=
  List.filter (λ e, negb (bool_decide (e.1 = id))) l.

Definition register_call (registration_id turn_id : str) (self : NetworkApprovalService) :
    NetworkApprovalService :=
  with_calls (index_insert registration_id turn_id (active_calls self)) (call_outcomes self) self.

Definition unregister_call (registration_id : str) (self : NetworkApprovalService) :
    NetworkApprovalService :=
  with_calls (shift_remove registration_id (active_calls self))
    (delete registration_id (call_outcomes self)) self.

Definition resolve_single_active_call (self : NetworkApprovalService) : option (str * str) :=
  match active_calls self with [call] => Some call | _ => None end.

Definition get_or_create_pending_approval (key : HostApprovalKey) (self : NetworkApprovalService) :
    nat * bool * NetworkApprovalService :=
  match pending_host_approvals self !! key with
  | Some existing => (existing, false, self)
  | None =>
      let created := length (pendings self) in
      (created, true,
       with_pending (<[key := created]> (pending_host_approvals self)) (pendings self ++ [None]) self)
  end.

Definition take_call_outcome (registration_id : str) (self : NetworkApprovalService) :
    option NetworkApprovalOutcome * NetworkApprovalService :=
  (call_outcomes self !! registration_id,
   with_calls (active_calls self) (delete registration_id (call_outcomes self)) self).

Definition record_call_outcome (registration_id : str) (outcome : NetworkApprovalOutcome)
    (self : NetworkApprovalService) : NetworkApprovalService :=
  match call_outcomes self !! registration_id with
  | Some DeniedByUser => self
  | _ => with_calls (active_calls self) (<[registration_id := outcome]> (call_outcomes self)) self
  end.

Definition record_outcome_for_single_active_call (outcome : NetworkApprovalOutcome)
    (self : NetworkApprovalService) : NetworkApprovalService :=
  match resolve_single_active_call self with
  | None => self
  | Some owner_call => record_call_outcome owner_call.1 outcome self
  end.

Definition record_blocked_request (blocked : BlockedRequest) (self : NetworkApprovalService) :
    NetworkApprovalService :=
  match denied_network_policy_message blocked with
  | None => self
  | Some message => record_outcome_for_single_active_call (DeniedByPolicy message) self
  end.

Definition set_decision (pending : nat) (decision : PendingApprovalDecision)
    (self : NetworkApprovalService) : NetworkApprovalService :=
  with_pending (pending_host_approvals self) (<[pending := Some decision]> (pendings self)) self.

Definition remove_pending_host (key : HostApprovalKey) (self : NetworkApprovalService) :
    NetworkApprovalService :=
  with_pending (delete key (pending_host_approvals self)) (pendings self) self.

(** *** The answer to a question *)

(** The match on the decision: what is decided for the host, whether a denial is
    kept for the session, and the outcome for the call that owns the question.
    Persisting an amendment changes none of these, whether it succeeds or not. *)
Definition resolve_approval (routes_to_guardian : bool) (approval_decision : ReviewDecision) :
    PendingApprovalDecision * bool * option NetworkApprovalOutcome :=
  match approval_decision with
  | Approved | ApprovedExecpolicyAmendment _ => (AllowOnce, false, None)
  | ApprovedForSession => (AllowForSession, false, None)
  | NetworkPolicyAmendment_ network_policy_amendment =>
      match action network_policy_amendment with
      | ActionAllow => (AllowForSession, false, None)
      | ActionDeny => (DenyHost, true, Some DeniedByUser)
      end
  | Denied | Abort_ =>
      (DenyHost, false,
       Some (if routes_to_guardian then DeniedByPolicy GUARDIAN_REJECTION_MESSAGE else DeniedByUser))
  end.

Definition record_owner_outcome (owner_call : option (str * str))
    (outcome : option NetworkApprovalOutcome) (self : NetworkApprovalService) :
    NetworkApprovalService :=
  match outcome, owner_call with
  | Some outcome, Some owner_call => record_call_outcome owner_call.1 outcome self
  | _, _ => self
  end.

(** ** Requests in flight *)

(** Where [handle_inline_policy_request] is, between two locks.  [after]: the
    outcome to record once the entry is removed. *)
Inductive phase : Type :=
  | CheckApproved
  | GetPending
  | WaitFor (pending : nat)
  | OwnerStart (pending : nat)
  | Asking (pending : nat) (owner_call : option (str * str))
  | StoreFirst (pending : nat) (resolved : PendingApprovalDecision) (cache_session_deny : bool)
  | StoreSecond (pending : nat) (resolved : PendingApprovalDecision) (cache_session_deny : bool)
  | Publish (pending : nat) (resolved : PendingApprovalDecision)
      (after : option NetworkApprovalOutcome)
  | Remove (pending : nat) (resolved : PendingApprovalDecision)
      (after : option NetworkApprovalOutcome)
  | Done (decision : NetworkDecision).

(** The first lock. *)
Definition begin_request (key : HostApprovalKey) (self : NetworkApprovalService) : phase :=
  if bool_decide (key ∈ session_denied_hosts self) then Done (network_deny REASON_NOT_ALLOWED)
  else CheckApproved.

(** The next lock of a request; [None] while it waits for another request, for
    the turn or for the answer. *)
Definition continue (key : HostApprovalKey) (ph : phase) (self : NetworkApprovalService) :
    option (phase * NetworkApprovalService) :=
  match ph with
  | CheckApproved =>
      Some (if bool_decide (key ∈ session_approved_hosts self) then Done DecisionAllow
            else GetPending, self)
  | GetPending =>
      let '(pending, is_owner, self) := get_or_create_pending_approval key self in
      Some (if is_owner then OwnerStart pending else WaitFor pending, self)
  | WaitFor pending =>
      match pendings self !! pending with
      | Some (Some decision) => Some (Done (to_network_decision decision), self)
      | _ => None
      end
  | OwnerStart _ | Asking _ _ => None
  | StoreFirst pending resolved cache_session_deny =>
      match resolved with
      | AllowForSession =>
          Some (StoreSecond pending resolved cache_session_deny,
                with_hosts (session_approved_hosts self) (session_denied_hosts self ∖ {[key]}) self)
      | _ =>
          if cache_session_deny
          then Some (StoreSecond pending resolved cache_session_deny,
                     with_hosts (session_approved_hosts self ∖ {[key]}) (session_denied_hosts self) self)
          else Some (Publish pending resolved None, self)
      end
  | StoreSecond pending resolved cache_session_deny =>
      match resolved with
      | AllowForSession =>
          Some (Publish pending resolved None,
                with_hosts (session_approved_hosts self ∪ {[key]}) (session_denied_hosts self) self)
      | _ =>
          Some (Publish pending resolved None,
                with_hosts (session_approved_hosts self) (session_denied_hosts self ∪ {[key]}) self)
      end
  | Publish pending resolved after =>
      Some (Remove pending resolved after, set_decision pending resolved self)
  | Remove pending resolved after =>
      let self := remove_pending_host key self in
      Some (Done (to_network_decision resolved),
            match after with
            | Some outcome => record_outcome_for_single_active_call outcome self
            | None => self
            end)
  | Done _ => None
  end.

(** The owner looks for the active turn, [turn]: its approval policy. *)
Definition owner_turn (turn : option AskForApproval) (message : str) (pending : nat)
    (self : NetworkApprovalService) : phase :=
  match turn with
  | None => Publish pending DenyHost (Some (DeniedByPolicy message))
  | Some policy =>
      if negb (allows_network_approval_flow policy)
      then Publish pending DenyHost (Some (DeniedByPolicy message))
      else Asking pending (resolve_single_active_call self)
  end.

Definition answer_request (routes_to_guardian : bool) (approval_decision : ReviewDecision)
    (pending : nat) (owner_call : option (str * str)) (self : NetworkApprovalService) :
    phase * NetworkApprovalService :=
  let '(resolved, cache_session_deny, outcome) := resolve_approval routes_to_guardian approval_decision in
  (StoreFirst pending resolved cache_session_deny, record_owner_outcome owner_call outcome self).

Record network : Type := {
  service : NetworkApprovalService;
  flights : gmap nat (HostApprovalKey * phase);
}.

Inductive event : Type :=
  | Began (r : nat) (key : HostApprovalKey)
  | Continued (r : nat)
  | FoundTurn (r : nat)
  | AnsweredHost (key : HostApprovalKey) (decision : ReviewDecision)
  | DroppedRequest (r : nat)
  | CopiedHosts (hosts : gset HostApprovalKey)
  | CallEvent.

Inductive step (st : network) : event → network → Prop :=
  | step_begin r key :
      flights st !! r = None →
      step st (Began r key)
        {| service := service st;
           flights := <[r := (key, begin_request key (service st))]> (flights st) |}
  | step_continue r key ph ph' svc :
      flights st !! r = Some (key, ph) → continue key ph (service st) = Some (ph', svc) →
      step st (Continued r) {| service := svc; flights := <[r := (key, ph')]> (flights st) |}
  | step_turn r key p turn message :
      flights st !! r = Some (key, OwnerStart p) →
      step st (FoundTurn r)
        {| service := service st;
           flights := <[r := (key, owner_turn turn message p (service st))]> (flights st) |}
  | step_answer r key p oc guardian d ph' svc :
      flights st !! r = Some (key, Asking p oc) →
      answer_request guardian d p oc (service st) = (ph', svc) →
      step st (AnsweredHost key d) {| service := svc; flights := <[r := (key, ph')]> (flights st) |}
  | step_dropped r :
      step st (DroppedRequest r) {| service := service st; flights := delete r (flights st) |}
  | step_copy source :
      step st (CopiedHosts (session_approved_hosts source))
        {| service := copy_session_approved_hosts_to source (service st); flights := flights st |}
  | step_register id turn_id :
      step st CallEvent {| service := register_call id turn_id (service st); flights := flights st |}
  | step_unregister id :
      step st CallEvent {| service := unregister_call id (service st); flights := flights st |}
  | step_take id :
      step st CallEvent {| service := (take_call_outcome id (service st)).2; flights := flights st |}
  | step_blocked blocked :
      step st CallEvent
        {| service := record_blocked_request blocked (service st); flights := flights st |}.

Inductive steps : network → list event → network → Prop :=
  | steps_nil st : steps st [] st
  | steps_snoc st1 es st2 e st3 : steps st1 es st2 → step st2 e st3 → steps st1 (es ++ [e]) st3.

Definition network_new : network := {| service := service_default; flights := ∅ |}.

(** ** The invariant *)

(** The answers that let requests to a host through, for once and for the rest
    of the session. *)
Definition for_session (d : ReviewDecision) : bool :=
  match d with
  | ApprovedForSession => true
  | NetworkPolicyAmendment_ a => match action a with ActionAllow => true | ActionDeny => false end
  | Approved | ApprovedExecpolicyAmendment _ | Denied | Abort_ => false
  end.

Lemma resolve_approves guardian d resolved cache outcome :
  resolve_approval guardian d = (resolved, cache, outcome) →
  (resolved ≠ DenyHost → approves d = true) ∧ (resolved = AllowForSession → for_session d = true).
Proof. destruct d as [| | |[? []]| |], guardian; cbn; intros [= <- <- <-]; done. Qed.

(** The host was approved for the session of a service whose approvals were
    copied into this one. *)
Definition copied_in (es : list event) (key : HostApprovalKey) : Prop :=
  ∃ hosts, CopiedHosts hosts ∈ es ∧ key ∈ hosts.

(** Requests to the host have been let through. *)
Definition allowed_in (es : list event) (key : HostApprovalKey) : Prop :=
  (∃ d, AnsweredHost key d ∈ es ∧ approves d = true) ∨ copied_in es key.
Definition session_in (es : list event) (key : HostApprovalKey) : Prop :=
  (∃ d, AnsweredHost key d ∈ es ∧ for_session d = true) ∨ copied_in es key.

Lemma session_allowed es key : session_in es key → allowed_in es key.
Proof.
  intros [(d & Hd & Hs)|?]; [left|by right]. exists d. split; [done|]. by destruct d.
Qed.

(** The question a request owns, and the one it owns or waits for. *)
Definition owned (ph : phase) : option nat :=
  match ph with
  | OwnerStart p | Asking p _ | StoreFirst p _ _ | StoreSecond p _ _ | Publish p _ _
  | Remove p _ _ => Some p
  | _ => None
  end.
Definition joined (ph : phase) : option nat :=
  match ph with WaitFor p => Some p | _ => owned ph end.

Definition phase_ok (es : list event) (svc : NetworkApprovalService) (key : HostApprovalKey)
    (ph : phase) : Prop :=
  let cell p := pendings svc !! p in
  match ph with
  | CheckApproved | GetPending => True
  | WaitFor p => pending_host_approvals svc !! key = Some p ∨ ∃ d, cell p = Some (Some d)
  | OwnerStart p | Asking p _ => cell p = Some None
  | StoreFirst p d cache =>
      cell p = Some None ∧ (d ≠ DenyHost → allowed_in es key) ∧
      (d = AllowForSession → session_in es key)
  | StoreSecond p d cache =>
      cell p = Some None ∧ (d ≠ DenyHost → allowed_in es key) ∧
      (if bool_decide (d = AllowForSession) then session_in es key ∧ key ∉ session_denied_hosts svc
       else key ∈ session_approved_hosts svc → copied_in es key)
  | Publish p d _ => cell p = Some None ∧ (d ≠ DenyHost → allowed_in es key)
  | Remove p d _ => cell p = Some (Some d) ∧ (d ≠ DenyHost → allowed_in es key)
  | Done d => d = DecisionAllow → allowed_in es key
  end.

(** [ks]: the host of each question. *)
Record inv (ks : list HostApprovalKey) (es : list event) (st : network) : Prop := {
  inv_cells : length ks = length (pendings (service st));
  inv_pending key p : pending_host_approvals (service st) !! key = Some p → ks !! p = Some key;
  inv_joined r key ph p : flights st !! r = Some (key, ph) → joined ph = Some p → ks !! p = Some key;
  inv_owned r key ph p : flights st !! r = Some (key, ph) → owned ph = Some p →
    pending_host_approvals (service st) !! key = Some p;
  inv_unique r1 k1 ph1 r2 k2 ph2 p : flights st !! r1 = Some (k1, ph1) →
    flights st !! r2 = Some (k2, ph2) → owned ph1 = Some p → owned ph2 = Some p → r1 = r2;
  inv_phase r key ph : flights st !! r = Some (key, ph) → phase_ok es (service st) key ph;
  inv_approved key : key ∈ session_approved_hosts (service st) → session_in es key;
  inv_disjoint key : key ∈ session_approved_hosts (service st) →
    key ∈ session_denied_hosts (service st) → copied_in es key;
  inv_owner key p : pending_host_approvals (service st) !! key = Some p →
    (∃ r ph, flights st !! r = Some (key, ph) ∧ owned ph = Some p) ∨ (∃ r, DroppedRequest r ∈ es);
  inv_cell p key d : ks !! p = Some key → pendings (service st) !! p = Some (Some d) →
    d ≠ DenyHost → allowed_in es key;
}.

Lemma copied_mono es e key : copied_in es key → copied_in (es ++ [e]) key.
Proof. unfold copied_in. set_solver. Qed.

Lemma allowed_mono es e key : allowed_in es key → allowed_in (es ++ [e]) key.
Proof. unfold allowed_in, copied_in. set_solver. Qed.

Lemma session_mono es e key : session_in es key → session_in (es ++ [e]) key.
Proof. unfold session_in, copied_in. set_solver. Qed.

Lemma phase_mono es e svc key ph : phase_ok es svc key ph → phase_ok (es ++ [e]) svc key ph.
Proof.
  assert (Ha := allowed_mono es e key). assert (Hs := session_mono es e key).
  assert (Hc := copied_mono es e key).
  destruct ph; cbn; try case_bool_decide; naive_solver.
Qed.

(** Changes of the service that do not concern a phase. *)
Lemma phase_frame es svc svc' key ph :
  phase_ok es svc key ph →
  (∀ p, owned ph = Some p → pendings svc' !! p = pendings svc !! p) →
  (owned ph ≠ None → key ∈ session_approved_hosts svc' → key ∈ session_approved_hosts svc) →
  (owned ph ≠ None → key ∈ session_denied_hosts svc' → key ∈ session_denied_hosts svc) →
  (∀ p, ph = WaitFor p → phase_ok es svc' key ph) → phase_ok es svc' key ph.
Proof.
  intros Hok Hc Ha Hd Hw. destruct ph; cbn in *; try done; try (by rewrite Hc); try (by eapply Hw).
  rewrite Hc by done. destruct Hok as (? & ? & Hs). split_and!; try done.
  case_bool_decide; naive_solver.
Qed.

(** A step of the calls changes nothing the requests read. *)
Definition same_requests (svc svc' : NetworkApprovalService) : Prop :=
  pending_host_approvals svc' = pending_host_approvals svc ∧ pendings svc' = pendings svc ∧
  session_approved_hosts svc' = session_approved_hosts svc ∧
  session_denied_hosts svc' = session_denied_hosts svc.

Lemma same_phase es svc svc' key ph :
  same_requests svc svc' → phase_ok es svc key ph → phase_ok es svc' key ph.
Proof. intros (Hp & Hc & Ha & Hd) Hok. unfold phase_ok in *. by rewrite Hp, Hc, Ha, Hd. Qed.

Lemma record_same id o svc : same_requests svc (record_call_outcome id o svc).
Proof. unfold record_call_outcome. by destruct (call_outcomes svc !! id) as [[]|]. Qed.

Lemma record_single_same o svc : same_requests svc (record_outcome_for_single_active_call o svc).
Proof.
  unfold record_outcome_for_single_active_call.
  destruct (resolve_single_active_call svc); [apply record_same|done].
Qed.

(** Another phase for one request, in the same service. *)
Lemma inv_call ks es st e svc' :
  inv ks es st → same_requests (service st) svc' →
  inv ks (es ++ [e]) {| service := svc'; flights := flights st |}.
Proof.
  intros [] Hs. destruct Hs as (Hp & Hc & Ha & Hd) eqn:Hs'. clear Hs'.
  split; cbn; rewrite ?Hp, ?Hc, ?Ha, ?Hd; try done.
  - intros r key ph Hr. eapply same_phase; [done|]. by eapply phase_mono, inv_phase0.
  - intros key Hk. by apply session_mono, inv_approved0.
  - intros key Hk Hk'. by apply copied_mono, inv_disjoint0.
  - intros key p Hk. destruct (inv_owner0 key p Hk) as [?|[r ?]]; [by left|right]. exists r. set_solver.
  - intros p key d Hk Hp' Hne. eapply allowed_mono, inv_cell0; eauto.
Qed.

Lemma inv_local ks es st e r key ph ph' svc' :
  inv ks es st → flights st !! r = Some (key, ph) →
  pending_host_approvals svc' = pending_host_approvals (service st) →
  pendings svc' = pendings (service st) →
  owned ph' = owned ph → (∀ p, joined ph' = Some p → ks !! p = Some key) →
  phase_ok (es ++ [e]) svc' key ph' →
  (∀ k, (k ∈ session_approved_hosts svc' → k ∈ session_approved_hosts (service st) ∨
           (k = key ∧ is_Some (owned ph) ∧ session_in (es ++ [e]) key)) ∧
        (k ∈ session_denied_hosts svc' → k ∈ session_denied_hosts (service st) ∨
           (k = key ∧ is_Some (owned ph)))) →
  (∀ k, k ∈ session_approved_hosts svc' → k ∈ session_denied_hosts svc' → copied_in (es ++ [e]) k) →
  inv ks (es ++ [e]) {| service := svc'; flights := <[r := (key, ph')]> (flights st) |}.
Proof.
  intros [Hcells Hpend Hjoin Hown Huniq Hphase Happ Hdisj Howner Hcellv] Hr Hp Hc Ho Hj Hok Hhosts Hd.
  assert (Hold : ∀ r' k' ph1, <[r := (key, ph')]> (flights st) !! r' = Some (k', ph1) →
    ∃ ph0, flights st !! r' = Some (k', ph0) ∧ owned ph1 = owned ph0).
  { intros r' k' ph1. destruct (decide (r' = r)) as [->|Hne].
    - rewrite lookup_insert_eq. intros [= <- <-]. eauto.
    - rewrite lookup_insert_ne by done. eauto. }
  split; cbn; rewrite ?Hp, ?Hc; try done.
  - intros r' k' ph1 p. destruct (decide (r' = r)) as [->|Hne].
    + rewrite lookup_insert_eq. intros [= <- <-]. apply Hj.
    + rewrite lookup_insert_ne by done. apply Hjoin.
  - intros r' k' ph1 p (ph0 & Hr' & Heq)%Hold. rewrite Heq. by apply (Hown r').
  - intros r1 k1 ph1 r2 k2 ph2 p (ph3 & H3 & ->)%Hold (ph4 & H4 & ->)%Hold. by eapply Huniq.
  - intros r' k' ph1. destruct (decide (r' = r)) as [->|Hne].
    + rewrite lookup_insert_eq. by intros [= <- <-].
    + rewrite lookup_insert_ne by done. intros Hr'. assert (Hok1 := phase_mono _ e _ _ _ (Hphase _ _ _ Hr')).
      eapply phase_frame; [exact Hok1|by rewrite Hc| | |].
      * intros Hno [?|(-> & [p Hp'] & _)]%(proj1 (Hhosts k')); [done|exfalso].
        destruct (owned ph1) as [p1|] eqn:E1; [|done].
        assert (Some p1 = Some p) as [= ->] by (by rewrite <- (Hown _ _ _ _ Hr' E1), (Hown _ _ _ _ Hr Hp')).
        by apply Hne, (Huniq r' _ _ r _ _ p Hr' Hr).
      * intros Hno [?|(-> & [p Hp'])]%(proj2 (Hhosts k')); [done|exfalso].
        destruct (owned ph1) as [p1|] eqn:E1; [|done].
        assert (Some p1 = Some p) as [= ->] by (by rewrite <- (Hown _ _ _ _ Hr' E1), (Hown _ _ _ _ Hr Hp')).
        by apply Hne, (Huniq r' _ _ r _ _ p Hr' Hr).
      * intros p ->. cbn in *. by rewrite Hp, Hc.
  - intros k [?|(-> & _ & ?)]%(proj1 (Hhosts k)); [by apply session_mono, Happ|done].
  - intros k p Hk. destruct (Howner k p Hk) as [(r' & ph0 & Hr' & Ho')|[r' ?]]; [left|right; exists r'; set_solver].
    destruct (decide (r' = r)) as [->|Hne].
    + exists r, ph'. rewrite lookup_insert_eq. rewrite Hr in Hr'. injection Hr' as <- <-. by rewrite Ho.
    + exists r', ph0. by rewrite lookup_insert_ne.
  - intros p' k d' Hk Hp' Hd'. eapply allowed_mono, Hcellv; eauto.
Qed.

(** The flights after a change of one of them. *)
Lemma flight_insert_inv (m : gmap nat (HostApprovalKey * phase)) r x r' y :
  <[r := x]> m !! r' = Some y → (r' = r ∧ y = x) ∨ (r' ≠ r ∧ m !! r' = Some y).
Proof.
  destruct (decide (r' = r)) as [->|Hne]; [rewrite lookup_insert_eq|rewrite lookup_insert_ne by done];
    naive_solver.
Qed.

(** A request that has joined no question. *)
Lemma inv_unjoined ks es st e r key ph :
  inv ks es st → joined ph = None → phase_ok (es ++ [e]) (service st) key ph →
  (∀ x ph0, flights st !! r = Some (x, ph0) → owned ph0 = None) →
  inv ks (es ++ [e]) {| service := service st; flights := <[r := (key, ph)]> (flights st) |}.
Proof.
  intros [Hcells Hpend Hjoin Hown Huniq Hphase Happ Hdisj Howner Hcellv] Hj Hok Hfree.
  assert (owned ph = None) as Hno by by destruct ph.
  split; cbn; try done.
  - intros r' k' ph1 p [[-> [= -> ->]]|[_ Hr']]%flight_insert_inv; [congruence|by apply (Hjoin r')].
  - intros r' k' ph1 p [[-> [= -> ->]]|[_ Hr']]%flight_insert_inv; [congruence|by apply (Hown r')].
  - intros r1 k1 ph1 r2 k2 ph2 p [[-> [= -> ->]]|[_ H1]]%flight_insert_inv
      [[-> [= -> ->]]|[_ H2]]%flight_insert_inv; try congruence. by eapply Huniq.
  - intros r' k' ph1 [[-> [= -> ->]]|[_ Hr']]%flight_insert_inv; [done|]. by eapply phase_mono, Hphase.
  - intros k Hk. by apply session_mono, Happ.
  - intros k Hk Hk'. by apply copied_mono, Hdisj.
  - intros k p Hk. destruct (Howner k p Hk) as [(r' & ph0 & Hr' & Ho')|[r' ?]]; [left|right; exists r'; set_solver].
    exists r', ph0. rewrite lookup_insert_ne; [done|]. intros <-. by rewrite (Hfree _ _ Hr') in Ho'.
  - intros p' k d' Hk Hp' Hd'. eapply allowed_mono, Hcellv; eauto.
Qed.

(** A new question. *)
Lemma inv_create ks es st e r key :
  inv ks es st → flights st !! r = Some (key, GetPending) →
  pending_host_approvals (service st) !! key = None →
  inv (ks ++ [key]) (es ++ [e])
    {| service := with_pending
         (<[key := length (pendings (service st))]> (pending_host_approvals (service st)))
         (pendings (service st) ++ [None]) (service st);
       flights := <[r := (key, OwnerStart (length (pendings (service st))))]> (flights st) |}.
Proof.
  intros [Hcells Hpend Hjoin Hown Huniq Hphase Happ Hdisj Howner Hcellv] Hr Hnone.
  set (n := length (pendings (service st))) in *.
  assert (Hn : (ks ++ [key]) !! n = Some key) by (rewrite <- Hcells; by apply list_lookup_middle).
  assert (Hlift : ∀ p k, ks !! p = Some k → (ks ++ [key]) !! p = Some k) by (intros; by apply lookup_app_l_Some).
  assert (Hsmall : ∀ p k, ks !! p = Some k → p < n) by (intros p k Hk; apply lookup_lt_Some in Hk; lia).
  assert (Hjo : ∀ ph p, owned ph = Some p → joined ph = Some p) by (intros [] ?; done).
  split; cbn.
  - rewrite !length_app. cbn. lia.
  - intros k p. destruct (decide (k = key)) as [->|Hne].
    + rewrite lookup_insert_eq. by intros [= <-].
    + rewrite lookup_insert_ne by done. intros Hk. by apply Hlift, Hpend.
  - intros r' k' ph1 p [[-> [= -> ->]]|[_ Hr']]%flight_insert_inv Hj.
    + cbn in Hj. by injection Hj as <-.
    + by eapply Hlift, Hjoin.
  - intros r' k' ph1 p [[-> [= -> ->]]|[_ Hr']]%flight_insert_inv Ho.
    + cbn in Ho. injection Ho as <-. by rewrite lookup_insert_eq.
    + rewrite lookup_insert_ne; [by eapply Hown|]. intros <-. by rewrite (Hown _ _ _ _ Hr' Ho) in Hnone.
  - intros r1 k1 ph1 r2 k2 ph2 p [[-> [= -> ->]]|[_ H1]]%flight_insert_inv
      [[-> [= -> ->]]|[_ H2]]%flight_insert_inv Ho1 Ho2; try done; [| |by eapply Huniq].
    + cbn in Ho1. injection Ho1 as <-. assert (n < n); [|lia]. eapply Hsmall, (Hjoin r2); eauto.
    + cbn in Ho2. injection Ho2 as <-. assert (n < n); [|lia]. eapply Hsmall, (Hjoin r1); eauto.
  - intros r' k' ph1 [[-> [= -> ->]]|[_ Hr']]%flight_insert_inv.
    + cbn. by apply list_lookup_middle.
    + assert (Hok := phase_mono _ e _ _ _ (Hphase _ _ _ Hr')).
      assert (Hcell : ∀ p, joined ph1 = Some p →
        (pendings (service st) ++ [None]) !! p = pendings (service st) !! p).
      { intros p Hp. apply lookup_app_l. eapply Hsmall, Hjoin; eauto. }
      eapply phase_frame; [exact Hok|cbn; eauto|done|done|].
      intros p ->. cbn in *. rewrite Hcell by done.
      destruct Hok as [Hw|?]; [left|by right]. rewrite lookup_insert_ne; [done|]. congruence.
  - intros k Hk. by apply session_mono, Happ.
  - intros k Hk Hk'. by apply copied_mono, Hdisj.
  - intros k p. destruct (decide (k = key)) as [->|Hne].
    + rewrite lookup_insert_eq. intros [= <-]. left. exists r, (OwnerStart n). by rewrite lookup_insert_eq.
    + rewrite lookup_insert_ne by done. intros Hk.
      destruct (Howner k p Hk) as [(r' & ph0 & Hr' & Ho')|[r' ?]]; [left|right; exists r'; set_solver].
      exists r', ph0. rewrite lookup_insert_ne; [done|]. intros <-. rewrite Hr in Hr'. by injection Hr' as <- <-.
  - intros p k d Hk Hp Hd. apply allowed_mono.
    apply lookup_snoc_Some in Hp as [[Hlt Hp]|[_ ?]]; [|done].
    apply lookup_snoc_Some in Hk as [[_ Hk]|[? _]]; [by eapply Hcellv|lia].
Qed.

(** An owner's question is no other request's. *)
Lemma owned_apart ks es st r key ph p r' k' ph' p' :
  inv ks es st → flights st !! r = Some (key, ph) → owned ph = Some p →
  flights st !! r' = Some (k', ph') → r' ≠ r → owned ph' = Some p' → p' ≠ p ∧ k' ≠ key.
Proof.
  intros Hinv Hr Ho Hr' Hne Ho'.
  assert (p' ≠ p) as Hp by (intros ->; by apply Hne, (inv_unique _ _ _ Hinv r' _ _ r _ _ p Hr' Hr)).
  split; [done|]. intros ->. apply Hp.
  by assert (Some p' = Some p) as [= ->]
    by (by rewrite <- (inv_owned _ _ _ Hinv _ _ _ _ Hr' Ho'), (inv_owned _ _ _ Hinv _ _ _ _ Hr Ho)).
Qed.

(** The owner publishes its decision. *)
Lemma inv_publish ks es st e r key p d after :
  inv ks es st → flights st !! r = Some (key, Publish p d after) →
  inv ks (es ++ [e])
    {| service := set_decision p d (service st);
       flights := <[r := (key, Remove p d after)]> (flights st) |}.
Proof.
  intros Hinv Hr. assert (Hinv' := Hinv).
  destruct Hinv' as [Hcells Hpend Hjoin Hown Huniq Hphase Happ Hdisj Howner Hcellv].
  assert (Hpk := Hown _ _ _ p Hr eq_refl). assert (Hkp := Hpend _ _ Hpk).
  destruct (Hphase _ _ _ Hr) as [Hcell Hall]. apply lookup_lt_Some in Hcell as Hlt.
  split; cbn; try done.
  - by rewrite length_insert.
  - intros r' k' ph1 p' [[-> [= -> ->]]|[_ Hr']]%flight_insert_inv Hj; [|by eapply Hjoin].
    cbn in Hj. by injection Hj as <-.
  - intros r' k' ph1 p' [[-> [= -> ->]]|[_ Hr']]%flight_insert_inv Ho; [|by eapply Hown].
    cbn in Ho. by injection Ho as <-.
  - intros r1 k1 ph1 r2 k2 ph2 p' [[-> [= -> ->]]|[Hn1 H1]]%flight_insert_inv
      [[-> [= -> ->]]|[Hn2 H2]]%flight_insert_inv Ho1 Ho2; try done; [| |by eapply Huniq].
    + by eapply Huniq.
    + by eapply Huniq.
  - intros r' k' ph1 [[-> [= -> ->]]|[Hne Hr']]%flight_insert_inv.
    + cbn. rewrite list_lookup_insert_eq by done. split; [done|]. intros. by apply allowed_mono, Hall.
    + assert (Hok := phase_mono _ e _ _ _ (Hphase _ _ _ Hr')).
      eapply phase_frame; [exact Hok| |done|done|].
      * intros p' Ho'. cbn. apply list_lookup_insert_ne.
        by destruct (owned_apart _ _ _ _ _ _ _ _ _ _ _ Hinv Hr eq_refl Hr' Hne Ho').
      * intros p' ->. cbn in *. assert (Hk' := Hjoin _ _ _ p' Hr' eq_refl).
        destruct (decide (p' = p)) as [->|Hpp]; [|by rewrite list_lookup_insert_ne by done].
        rewrite list_lookup_insert_eq by done. right. by exists d.
  - intros k Hk. by apply session_mono, Happ.
  - intros k Hk Hk'. by apply copied_mono, Hdisj.
  - intros k p' Hk. destruct (Howner k p' Hk) as [(r' & ph0 & Hr' & Ho')|[r' ?]]; [left|right; exists r'; set_solver].
    destruct (decide (r' = r)) as [->|Hne].
    + exists r, (Remove p d after). rewrite lookup_insert_eq. rewrite Hr in Hr'. by injection Hr' as <- <-.
    + exists r', ph0. by rewrite lookup_insert_ne.
  - intros p' k d' Hk Hp' Hd'. apply allowed_mono. destruct (decide (p' = p)) as [->|Hpp].
    + rewrite list_lookup_insert_eq in Hp' by done. injection Hp' as <-.
      assert (k = key) as -> by congruence. by apply Hall.
    + rewrite list_lookup_insert_ne in Hp' by done. by eapply Hcellv.
Qed.

(** The owner removes its question. *)
Lemma inv_remove ks es st e r key p d after svc' :
  inv ks es st → flights st !! r = Some (key, Remove p d after) →
  same_requests (remove_pending_host key (service st)) svc' →
  inv ks (es ++ [e])
    {| service := svc'; flights := <[r := (key, Done (to_network_decision d))]> (flights st) |}.
Proof.
  intros Hinv Hr Hs. assert (Hinv' := Hinv).
  destruct Hinv' as [Hcells Hpend Hjoin Hown Huniq Hphase Happ Hdisj Howner Hcellv].
  assert (Hpk := Hown _ _ _ p Hr eq_refl). assert (Hkp := Hpend _ _ Hpk).
  destruct (Hphase _ _ _ Hr) as [Hcell Hall].
  assert (Hs' := Hs). destruct Hs' as (Hp & Hc & Ha & Hd). cbn in Hp, Hc, Ha, Hd.
  split; cbn; rewrite ?Hp, ?Hc, ?Ha, ?Hd; try done.
  - intros k p' [_ Hk]%lookup_delete_Some. by apply Hpend.
  - intros r' k' ph1 p' [[-> [= -> ->]]|[_ Hr']]%flight_insert_inv Hj; [done|by eapply Hjoin].
  - intros r' k' ph1 p' [[-> [= -> ->]]|[Hne Hr']]%flight_insert_inv Ho; [done|].
    rewrite lookup_delete_ne; [by eapply Hown|].
    destruct (owned_apart _ _ _ _ _ _ _ _ _ _ _ Hinv Hr eq_refl Hr' Hne Ho) as [_ ?]. congruence.
  - intros r1 k1 ph1 r2 k2 ph2 p' [[-> [= -> ->]]|[Hn1 H1]]%flight_insert_inv
      [[-> [= -> ->]]|[Hn2 H2]]%flight_insert_inv Ho1 Ho2; try done; by eapply Huniq.
  - intros r' k' ph1 [[-> [= -> ->]]|[Hne Hr']]%flight_insert_inv.
    + cbn. intros Hd'. apply allowed_mono, Hall. by intros ->.
    + assert (Hok := phase_mono _ e _ _ _ (Hphase _ _ _ Hr')).
      eapply same_phase; [exact Hs|]. eapply phase_frame; [exact Hok|done|done|done|].
      intros p' ->. cbn in *. assert (Hk' := Hjoin _ _ _ p' Hr' eq_refl). destruct Hok as [Hw|?]; [|by right].
      destruct (decide (k' = key)) as [->|Hkk]; [|left; by rewrite lookup_delete_ne].
      right. assert (p' = p) as -> by congruence. by exists d.
  - intros k Hk. by apply session_mono, Happ.
  - intros k Hk Hk'. by apply copied_mono, Hdisj.
  - intros k p' [Hkk Hk]%lookup_delete_Some.
    destruct (Howner k p' Hk) as [(r' & ph0 & Hr' & Ho')|[r' ?]]; [left|right; exists r'; set_solver].
    exists r', ph0. rewrite lookup_insert_ne; [done|]. intros <-. rewrite Hr in Hr'. by injection Hr' as <- <-.
  - intros p' k d' Hk Hp' Hd'. eapply allowed_mono, Hcellv; eauto.
Qed.

(** A request that is dropped. *)
Lemma inv_dropped ks es st r :
  inv ks es st →
  inv ks (es ++ [DroppedRequest r]) {| service := service st; flights := delete r (flights st) |}.
Proof.
  intros [Hcells Hpend Hjoin Hown Huniq Hphase Happ Hdisj Howner Hcellv].
  split; cbn; try done.
  - intros r' k' ph1 p [_ Hr']%lookup_delete_Some. by apply (Hjoin r').
  - intros r' k' ph1 p [_ Hr']%lookup_delete_Some. by apply (Hown r').
  - intros r1 k1 ph1 r2 k2 ph2 p [_ H1]%lookup_delete_Some [_ H2]%lookup_delete_Some. by eapply Huniq.
  - intros r' k' ph1 [_ Hr']%lookup_delete_Some. by eapply phase_mono, Hphase.
  - intros k Hk. by apply session_mono, Happ.
  - intros k Hk Hk'. by apply copied_mono, Hdisj.
  - intros k p Hk. right. exists r. set_solver.
  - intros p' k d' Hk Hp' Hd'. eapply allowed_mono, Hcellv; eauto.
Qed.

(** A phase that changes nothing the requests read. *)
Lemma inv_advance ks es st e r key ph ph' svc' :
  inv ks es st → flights st !! r = Some (key, ph) → same_requests (service st) svc' →
  owned ph' = owned ph → (∀ p, joined ph' = Some p → ks !! p = Some key) →
  phase_ok (es ++ [e]) (service st) key ph' →
  inv ks (es ++ [e]) {| service := svc'; flights := <[r := (key, ph')]> (flights st) |}.
Proof.
  intros Hinv Hr Hs Ho Hj Hok. assert (Hs' := Hs). destruct Hs' as (Hp & Hc & Ha & Hd).
  eapply (inv_local _ _ _ _ _ _ ph); rewrite ?Ha, ?Hd; try done.
  - by eapply same_phase.
  - intros k. by split; left.
  - intros k Hk Hk'. by eapply copied_mono, (inv_disjoint _ _ _ Hinv).
Qed.

Lemma owned_joined ph p : owned ph = Some p → joined ph = Some p.
Proof. by destruct ph. Qed.

Lemma owner_host ks es st r key ph ph' :
  inv ks es st → flights st !! r = Some (key, ph) → joined ph' = joined ph →
  ∀ p, joined ph' = Some p → ks !! p = Some key.
Proof. intros Hinv Hr -> p. by apply (inv_joined _ _ _ Hinv r). Qed.

Lemma same_refl svc : same_requests svc svc.
Proof. done. Qed.

Lemma record_owner_same oc o svc : same_requests svc (record_owner_outcome oc o svc).
Proof. destruct oc, o; try done. apply record_same. Qed.

#[local] Hint Resolve same_refl record_same record_single_same record_owner_same : core.

(** The next lock of a request keeps the invariant. *)
Lemma store_first_inv ks es st r key p d cache ph' svc :
  inv ks es st → flights st !! r = Some (key, StoreFirst p d cache) →
  continue key (StoreFirst p d cache) (service st) = Some (ph', svc) →
  inv ks (es ++ [Continued r]) {| service := svc; flights := <[r := (key, ph')]> (flights st) |}.
Proof.
  intros Hinv Hr Hcont.
  destruct (phase_mono _ (Continued r) _ _ _ (inv_phase _ _ _ Hinv _ _ _ Hr)) as (Hcell & Hall & Hses).
  assert (Hdisj := λ k Hk Hk', copied_mono _ (Continued r) _ (inv_disjoint _ _ _ Hinv k Hk Hk')).
  assert (Hkeep : ∀ after, inv ks (es ++ [Continued r])
    {| service := service st; flights := <[r := (key, Publish p d after)]> (flights st) |}).
  { intros after. eapply inv_advance; eauto; [by eapply owner_host|done]. }
  assert (Hden : d ≠ AllowForSession → inv ks (es ++ [Continued r])
    {| service := with_hosts (session_approved_hosts (service st) ∖ {[key]})
         (session_denied_hosts (service st)) (service st);
       flights := <[r := (key, StoreSecond p d cache)]> (flights st) |}).
  { intros Hd. eapply (inv_local _ _ _ _ _ _ _ _ _ Hinv Hr); cbn; try done; [|..|set_solver].
    - intros ? [= <-]. by apply (inv_joined _ _ _ Hinv _ _ _ _ Hr).
    - rewrite bool_decide_eq_false_2 by done. set_solver.
    - intros k. split; intros Hk; left; set_solver. }
  cbn in Hcont. destruct d as [| |]; [destruct cache| |destruct cache]; injection Hcont as <- <-; auto.
  eapply (inv_local _ _ _ _ _ _ _ _ _ Hinv Hr); cbn; try done; [|..|set_solver].
  - intros ? [= <-]. by apply (inv_joined _ _ _ Hinv _ _ _ _ Hr).
  - split_and!; [done..|set_solver].
  - intros k. split; intros Hk; left; set_solver.
Qed.

Lemma store_second_inv ks es st r key p d cache ph' svc :
  inv ks es st → flights st !! r = Some (key, StoreSecond p d cache) →
  continue key (StoreSecond p d cache) (service st) = Some (ph', svc) →
  inv ks (es ++ [Continued r]) {| service := svc; flights := <[r := (key, ph')]> (flights st) |}.
Proof.
  intros Hinv Hr Hcont.
  destruct (phase_mono _ (Continued r) _ _ _ (inv_phase _ _ _ Hinv _ _ _ Hr)) as (Hcell & Hall & Hses).
  assert (Hdisj := λ k Hk Hk', copied_mono _ (Continued r) _ (inv_disjoint _ _ _ Hinv k Hk Hk')).
  assert (Hj : ∀ p', joined (Publish p d None) = Some p' → ks !! p' = Some key).
  { intros p' [= <-]. by apply (inv_joined _ _ _ Hinv _ _ _ _ Hr). }
  case_bool_decide as Hd; [subst d|].
  - cbn in Hcont. injection Hcont as <- <-.
    eapply (inv_local _ _ _ _ _ _ _ _ _ Hinv Hr); cbn; try done; [|set_solver].
    intros k. split; [|by left]. rewrite elem_of_union, elem_of_singleton. intros [?| ->]; [by left|]. right. naive_solver.
  - assert (Some (ph', svc) = Some (Publish p d None, with_hosts (session_approved_hosts (service st))
      (session_denied_hosts (service st) ∪ {[key]}) (service st))) as [= -> ->] by (rewrite <- Hcont; by destruct d).
    eapply (inv_local _ _ _ _ _ _ _ _ _ Hinv Hr); cbn; try done; [|set_solver].
    intros k. split; [by left|]. rewrite elem_of_union, elem_of_singleton. intros [?| ->]; [by left|]. right. naive_solver.
Qed.

Lemma continue_inv ks es st r key ph ph' svc :
  inv ks es st → flights st !! r = Some (key, ph) → continue key ph (service st) = Some (ph', svc) →
  ∃ ks', inv ks' (es ++ [Continued r]) {| service := svc; flights := <[r := (key, ph')]> (flights st) |}.
Proof.
  intros Hinv Hr Hcont. assert (Hok := inv_phase _ _ _ Hinv _ _ _ Hr).
  destruct ph as [| |p|p|p oc|p d c|p d c|p d o|p d o|d]; try discriminate Hcont;
    try (exists ks; by eapply store_first_inv); try (exists ks; by eapply store_second_inv).
  - exists ks. cbn in Hcont. injection Hcont as <- <-. eapply inv_advance; eauto; case_bool_decide; try done.
    intros _. by eapply allowed_mono, session_allowed, (inv_approved _ _ _ Hinv).
  - cbn in Hcont. unfold get_or_create_pending_approval in Hcont.
    destruct (pending_host_approvals (service st) !! key) as [p|] eqn:E; injection Hcont as <- <-.
    + exists ks. eapply inv_advance; eauto; [intros p' [= <-]; by apply (inv_pending _ _ _ Hinv)|by left].
    + exists (ks ++ [key]). by eapply inv_create.
  - exists ks. cbn in Hcont. destruct (pendings (service st) !! p) as [[d|]|] eqn:E; try discriminate Hcont.
    injection Hcont as <- <-. eapply inv_advance; eauto; [done|]. cbn. intros Hd.
    eapply allowed_mono, (inv_cell _ _ _ Hinv); [by eapply (inv_joined _ _ _ Hinv)|done|]. by intros ->.
  - exists ks. cbn in Hcont. injection Hcont as <- <-. by apply inv_publish.
  - exists ks. cbn in Hcont. injection Hcont as <- <-. eapply inv_remove; [done..|].
    destruct o; auto.
Qed.

Lemma begin_inv ks es st r key :
  inv ks es st → flights st !! r = None →
  inv ks (es ++ [Began r key])
    {| service := service st; flights := <[r := (key, begin_request key (service st))]> (flights st) |}.
Proof.
  intros Hinv Hr. apply inv_unjoined; [done|unfold begin_request; by case_bool_decide..|].
  intros x ph0 Hx. congruence.
Qed.

Lemma turn_inv ks es st r key p turn message :
  inv ks es st → flights st !! r = Some (key, OwnerStart p) →
  inv ks (es ++ [FoundTurn r])
    {| service := service st;
       flights := <[r := (key, owner_turn turn message p (service st))]> (flights st) |}.
Proof.
  intros Hinv Hr. assert (Hok := inv_phase _ _ _ Hinv _ _ _ Hr). cbn in Hok.
  eapply inv_advance; eauto.
  - unfold owner_turn. destruct turn as [policy|]; [destruct (allows_network_approval_flow policy)|]; done.
  - eapply owner_host; [done..|]. unfold owner_turn.
    destruct turn as [policy|]; [destruct (allows_network_approval_flow policy)|]; done.
  - unfold owner_turn. destruct turn as [policy|]; [destruct (allows_network_approval_flow policy)|]; done.
Qed.

Lemma answer_inv ks es st r key p oc guardian d ph' svc :
  inv ks es st → flights st !! r = Some (key, Asking p oc) →
  answer_request guardian d p oc (service st) = (ph', svc) →
  inv ks (es ++ [AnsweredHost key d]) {| service := svc; flights := <[r := (key, ph')]> (flights st) |}.
Proof.
  intros Hinv Hr Hans. assert (Hok := inv_phase _ _ _ Hinv _ _ _ Hr). cbn in Hok.
  unfold answer_request in Hans. destruct (resolve_approval guardian d) as [[resolved cache] outcome] eqn:E.
  injection Hans as <- <-. destruct (resolve_approves _ _ _ _ _ E) as [Hone Hses].
  eapply inv_advance; eauto; [by eapply owner_host|].
  cbn. split_and!; [done|..]; intros Hd; left; exists d; (split; [set_solver|auto]).
Qed.

(** Copied approvals. *)
Lemma copy_inv ks es st source :
  inv ks es st →
  inv ks (es ++ [CopiedHosts (session_approved_hosts source)])
    {| service := copy_session_approved_hosts_to source (service st); flights := flights st |}.
Proof.
  intros [Hcells Hpend Hjoin Hown Huniq Hphase Happ Hdisj Howner Hcellv].
  set (e := CopiedHosts _). set (svc' := copy_session_approved_hosts_to _ _).
  assert (Hcopied : ∀ k, k ∈ session_approved_hosts svc' →
    k ∈ session_approved_hosts (service st) ∨ copied_in (es ++ [e]) k).
  { intros k [?|Hk]%elem_of_union; [by left|right]. exists (session_approved_hosts source).
    split; [set_solver|done]. }
  split; try done.
  - intros r key ph Hr. assert (Hok := phase_mono _ e _ _ _ (Hphase _ _ _ Hr)).
    destruct ph; try exact Hok. cbn in Hok |- *. destruct Hok as (? & ? & Hs). split_and!; [done..|].
    case_bool_decide; [done|]. intros [?|?]%Hcopied; auto.
  - intros k [Hk|Hk]%Hcopied; [by apply session_mono, Happ|by right].
  - intros k [Hk|Hk]%Hcopied Hk'; [by apply copied_mono, Hdisj|done].
  - intros k p Hk. destruct (Howner k p Hk) as [?|[r ?]]; [by left|right]. exists r. set_solver.
  - intros p k d Hk Hp Hd. by eapply allowed_mono, Hcellv.
Qed.

Lemma step_inv ks es st e st' : inv ks es st → step st e st' → ∃ ks', inv ks' (es ++ [e]) st'.
Proof.
  intros Hinv Hstep. destruct Hstep.
  - exists ks. by apply begin_inv.
  - by eapply continue_inv.
  - exists ks. by apply turn_inv.
  - exists ks. by eapply answer_inv.
  - exists ks. by apply inv_dropped.
  - exists ks. by apply copy_inv.
  - exists ks. by apply inv_call.
  - exists ks. by apply inv_call.
  - exists ks. by apply inv_call.
  - exists ks. apply inv_call; [done|]. unfold record_blocked_request.
    destruct (denied_network_policy_message blocked); auto.
Qed.

Lemma inv_new : inv [] [] network_new.
Proof. split; cbn; try done; intros; set_solver. Qed.

Lemma steps_inv es st : steps network_new es st → ∃ ks, inv ks es st.
Proof.
  intros Hs. remember network_new as st0 eqn:E. induction Hs as [|st1 es st2 e st3 Hs IH Hstep]; subst.
  - exists []. apply inv_new.
  - destruct IH as [ks Hks]; [done|]. by eapply step_inv.
Qed.

(** ** Properties *)

(** C19: a request to a host that is not on the allow list is let through only
    when the user (or the guardian) answered a question for that very host,
    protocol and port with an approval, for once, with a command rule, for the
    session or with a network rule that allows, or when the host was among those
    that another session had approved and that were copied into this one,
    however the requests, the answers, the copies and the calls interleave. *)
Theorem network_access_justified es st r key :
  steps network_new es st → flights st !! r = Some (key, Done DecisionAllow) →
  (∃ d, AnsweredHost key d ∈ es ∧
     (d = Approved ∨ (∃ rule, d = ApprovedExecpolicyAmendment rule) ∨ d = ApprovedForSession ∨
      (∃ host, d = NetworkPolicyAmendment_ {| amendment_host := host; action := ActionAllow |}))) ∨
  (∃ hosts, CopiedHosts hosts ∈ es ∧ key ∈ hosts).
Proof.
  intros [ks Hinv]%steps_inv Hr.
  destruct (inv_phase _ _ _ Hinv _ _ _ Hr eq_refl) as [(d & Hd & Ha)|Hc]; [left|by right].
  exists d. split; [done|]. destruct d as [| | |[host []]| |]; naive_solver.
Qed.

(** At every point of every interleaving, at most one request owns a
    question for a host, its question is the registered one, no host is both
    approved and denied for the session unless its approval was copied, and a
    host is approved for the session only after an answer for the session, or
    when its approval was copied. *)
Theorem network_questions_invariant es st :
  steps network_new es st →
  (∀ r1 r2 key ph1 ph2 p1 p2, flights st !! r1 = Some (key, ph1) → flights st !! r2 = Some (key, ph2) →
     owned ph1 = Some p1 → owned ph2 = Some p2 →
     r1 = r2 ∧ pending_host_approvals (service st) !! key = Some p1) ∧
  (∀ key, key ∈ session_approved_hosts (service st) → key ∈ session_denied_hosts (service st) →
     copied_in es key) ∧
  (∀ key, key ∈ session_approved_hosts (service st) →
     (∃ d, AnsweredHost key d ∈ es ∧ for_session d = true) ∨ copied_in es key).
Proof.
  intros [ks Hinv]%steps_inv. split_and!; [|apply Hinv|by apply (inv_approved _ _ _ Hinv)].
  intros r1 r2 key ph1 ph2 p1 p2 H1 H2 Ho1 Ho2.
  assert (Hp1 := inv_owned _ _ _ Hinv _ _ _ _ H1 Ho1). assert (Hp2 := inv_owned _ _ _ Hinv _ _ _ _ H2 Ho2).
  assert (p1 = p2) as -> by congruence. split; [|done]. by eapply (inv_unique _ _ _ Hinv).
Qed.

(** As long as no request is dropped, every request is answered, or can take
    its next lock, or is waiting for the turn or for the user, or waits for a
    question that another request owns: no request waits for nobody. *)
Theorem network_requests_progress es st r key ph :
  steps network_new es st → (∀ r', DroppedRequest r' ∉ es) →
  flights st !! r = Some (key, ph) →
  (∃ d, ph = Done d) ∨ is_Some (continue key ph (service st)) ∨
  (∃ p, ph = OwnerStart p) ∨ (∃ p oc, ph = Asking p oc) ∨
  (∃ p r' ph', ph = WaitFor p ∧ r' ≠ r ∧ flights st !! r' = Some (key, ph') ∧ owned ph' = Some p).
Proof.
  intros [ks Hinv]%steps_inv Hnone Hr. assert (Hok := inv_phase _ _ _ Hinv _ _ _ Hr).
  destruct ph as [| |p|p|p oc|p [] []|p [] c|p d o|p d o|d]; eauto 10; cbn.
  - right; left. destruct (get_or_create_pending_approval key (service st)) as [[? ?] ?]. eauto.
  - destruct Hok as [Hp|[d ->]]; [|eauto].
    destruct (inv_owner _ _ _ Hinv _ _ Hp) as [(r' & ph' & Hr' & Ho)|[r' Hd]]; [|by destruct (Hnone r')].
    do 4 right. exists p, r', ph'. split_and!; try done. intros ->. rewrite Hr in Hr'.
    by injection Hr' as <-.
Qed.

(** A question whose owner is gone. *)
Definition stranded (key : HostApprovalKey) (p : nat) (st : network) : Prop :=
  pending_host_approvals (service st) !! key = Some p ∧ pendings (service st) !! p = Some None ∧
  ∀ r k ph, flights st !! r = Some (k, ph) → owned ph ≠ Some p.

Lemma stranded_frame key p st svc' r k ph' :
  stranded key p st → pending_host_approvals svc' !! key = Some p → pendings svc' !! p = Some None →
  owned ph' ≠ Some p →
  stranded key p {| service := svc'; flights := <[r := (k, ph')]> (flights st) |}.
Proof.
  intros (_ & _ & Hno) Hp Hc Ho. split_and!; [done..|]. cbn.
  intros r' k' ph1 [[-> [= -> ->]]|[_ Hr']]%flight_insert_inv; [done|by eapply Hno].
Qed.

Lemma stranded_call key p st svc' :
  stranded key p st → same_requests (service st) svc' →
  stranded key p {| service := svc'; flights := flights st |}.
Proof. intros (Hp & Hc & Hno) (Hp' & Hc' & _). unfold stranded. cbn. by rewrite Hp', Hc'. Qed.

Lemma continue_stranded ks es st r k ph ph' svc key p :
  inv ks es st → stranded key p st → flights st !! r = Some (k, ph) →
  continue k ph (service st) = Some (ph', svc) →
  stranded key p {| service := svc; flights := <[r := (k, ph')]> (flights st) |}.
Proof.
  intros Hinv Hst Hr Hcont. assert (Hst' := Hst). destruct Hst' as (Hp & Hc & Hno).
  assert (Hself := Hno _ _ _ Hr). apply lookup_lt_Some in Hc as Hlt.
  destruct ph as [| |q|q|q oc|q d c|q d c|q d o|q d o|d]; try discriminate Hcont; cbn in Hcont.
  - injection Hcont as <- <-. apply stranded_frame; try done. by case_bool_decide.
  - unfold get_or_create_pending_approval in Hcont.
    destruct (pending_host_approvals (service st) !! k) as [q|] eqn:E; injection Hcont as <- <-.
    + by apply stranded_frame.
    + apply stranded_frame; cbn; [done|..].
      * rewrite lookup_insert_ne; [done|]. congruence.
      * by apply lookup_app_l_Some.
      * intros Heq. injection Heq as Heq. lia.
  - destruct (pendings (service st) !! q) as [[d|]|]; try discriminate Hcont. injection Hcont as <- <-.
    by apply stranded_frame.
  - destruct d, c; injection Hcont as <- <-; by apply stranded_frame.
  - destruct d, c; injection Hcont as <- <-; by apply stranded_frame.
  - injection Hcont as <- <-. apply stranded_frame; try done. cbn in *.
    rewrite list_lookup_insert_ne; [done|]. congruence.
  - assert (k ≠ key) as Hk.
    { intros ->. apply Hself. cbn. by rewrite <- Hp, (inv_owned _ _ _ Hinv _ _ _ q Hr eq_refl). }
    injection Hcont as <- <-.
    assert (Hs : same_requests (remove_pending_host k (service st))
      match o with Some o => record_outcome_for_single_active_call o (remove_pending_host k (service st))
      | None => remove_pending_host k (service st) end) by (destruct o; auto).
    destruct Hs as (Hs1 & Hs2 & _). apply stranded_frame; rewrite ?Hs1, ?Hs2; cbn; try done.
    by rewrite lookup_delete_ne.
Qed.

Lemma step_stranded ks es st e st' key p :
  inv ks es st → stranded key p st → step st e st' → stranded key p st'.
Proof.
  intros Hinv Hst Hstep. assert (Hst' := Hst). destruct Hst' as (Hp & Hc & Hno). destruct Hstep.
  - apply stranded_frame; try done. unfold begin_request. by case_bool_decide.
  - by eapply continue_stranded.
  - apply stranded_frame; try done. assert (Hself := Hno _ _ _ H). unfold owner_turn.
    destruct turn as [policy|]; [destruct (allows_network_approval_flow policy)|]; done.
  - assert (Hself := Hno _ _ _ H). unfold answer_request in *.
    destruct (resolve_approval guardian d) as [[resolved cache] outcome]. injection H0 as <- <-.
    destruct (record_owner_same oc outcome (service st)) as (Hs1 & Hs2 & _).
    apply stranded_frame; rewrite ?Hs1, ?Hs2; done.
  - split_and!; [done..|]. cbn. intros r' k ph [_ Hr']%lookup_delete_Some. by eapply Hno.
  - done.
  - by apply stranded_call.
  - by apply stranded_call.
  - by apply stranded_call.
  - apply stranded_call; [done|]. unfold record_blocked_request.
    destruct (denied_network_policy_message blocked); auto.
Qed.

(** Once the owner of a question is dropped before it publishes a decision,
    the question stays open: a request that waits for it takes no lock any more,
    whatever happens in the session. *)
Theorem dropped_owner_strands_host es st es' st' key p r :
  steps network_new es st → stranded key p st → steps st es' st' →
  flights st' !! r = Some (key, WaitFor p) →
  stranded key p st' ∧ continue key (WaitFor p) (service st') = None.
Proof.
  intros [ks Hinv]%steps_inv Hst Hs Hr.
  assert (Hfin : ∃ ks es, inv ks es st' ∧ stranded key p st').
  { clear Hr. revert ks es Hinv Hst. induction Hs as [|st1 es1 st2 e st3 Hs IH Hstep]; intros ks es Hinv Hst; [eauto|].
    destruct (IH _ _ Hinv Hst) as (ks2 & es2 & Hinv2 & Hst2).
    destruct (step_inv _ _ _ _ _ Hinv2 Hstep) as [ks3 Hinv3]. eauto using step_stranded. }
  destruct Hfin as (_ & _ & _ & Hst'). split; [done|]. cbn. by destruct Hst' as (_ & -> & _).
Qed.

(** ** Sample runs *)
Definition sample_key : HostApprovalKey :=
  key_from_request {| rq_protocol := HttpsConnect; rq_host := lit "API.example.com"; rq_port := 443;
                      rq_client_addr := None; rq_method := None; rq_command := None;
                      rq_exec_policy_hint := None |} ApprovalHttps.

Lemma steps_cons st1 e st2 es st3 : step st1 e st2 → steps st2 es st3 → steps st1 (e :: es) st3.
Proof.
  intros Hstep Hs. induction Hs as [|st2 es st3 e' st4 Hs IH Hstep'].
  - eapply (steps_snoc _ []); [constructor|done].
  - change (e :: es ++ [e']) with ((e :: es) ++ [e']). by eapply steps_snoc; [apply IH|].
Qed.

(** Runs that compute. *)
Inductive action : Type :=
  | Begin (r : nat) (key : HostApprovalKey)
  | Lock (r : nat)
  | Turn (r : nat) (policy : option AskForApproval)
  | Answer (r : nat) (decision : ReviewDecision)
  | DropRequest (r : nat).

Definition act (a : action) (st : network) : option (event * network) :=
  let goto svc r x := {| service := svc; flights := <[r := x]> (flights st) |} in
  match a with
  | Begin r key =>
      match flights st !! r with
      | None => Some (Began r key, goto (service st) r (key, begin_request key (service st)))
      | Some _ => None
      end
  | Lock r =>
      '(key, ph) ← flights st !! r;
      '(ph', svc) ← continue key ph (service st);
      Some (Continued r, goto svc r (key, ph'))
  | Turn r policy =>
      match flights st !! r with
      | Some (key, OwnerStart p) =>
          Some (FoundTurn r, goto (service st) r (key, owner_turn policy [] p (service st)))
      | _ => None
      end
  | Answer r d =>
      match flights st !! r with
      | Some (key, Asking p oc) =>
          let '(ph', svc) := answer_request false d p oc (service st) in
          Some (AnsweredHost key d, goto svc r (key, ph'))
      | _ => None
      end
  | DropRequest r => Some (DroppedRequest r, {| service := service st; flights := delete r (flights st) |})
  end.

Lemma act_step a st e st' : act a st = Some (e, st') → step st e st'.
Proof.
  destruct a as [r key|r|r policy|r d|r]; cbn; intros Ha.
  - destruct (flights st !! r) eqn:E; [done|]. injection Ha as <- <-. by constructor.
  - destruct (flights st !! r) as [[key ph]|] eqn:E; [|done]. cbn in Ha.
    destruct (continue key ph (service st)) as [[ph' svc]|] eqn:Ec; [|done]. injection Ha as <- <-.
    by eapply step_continue.
  - destruct (flights st !! r) as [[key []]|] eqn:E; try done. injection Ha as <- <-. by constructor.
  - destruct (flights st !! r) as [[key []]|] eqn:E; try done.
    destruct (answer_request false d pending owner_call (service st)) as [ph' svc] eqn:Ea.
    injection Ha as <- <-. by eapply step_answer.
  - injection Ha as <- <-. constructor.
Qed.

Fixpoint run_actions (l : list action) (st : network) : option (list event * network) :=
  match l with
  | [] => Some ([], st)
  | a :: l => '(e, st) ← act a st; '(es, st) ← run_actions l st; Some (e :: es, st)
  end.

Lemma run_actions_steps l st es st' : run_actions l st = Some (es, st') → steps st es st'.
Proof.
  revert st es. induction l as [|a l IH]; intros st es; cbn; [intros [= <- <-]; constructor|].
  destruct (act a st) as [[e st1]|] eqn:Ea; [|done]. cbn.
  destruct (run_actions l st1) as [[es1 st2]|] eqn:Er; [|done]. cbn. intros [= <- <-].
  eapply steps_cons; [by apply act_step with a|by apply IH].
Qed.

(** Two requests for the host; the first asks and the user approves it for the
    session, the second waits. *)
Definition sample_actions : list action :=
  [Begin 0 sample_key; Lock 0; Lock 0; Begin 1 sample_key; Lock 1; Lock 1; Turn 0 (Some OnRequest);
   Answer 0 ApprovedForSession; Lock 0; Lock 0; Lock 0; Lock 1].
Definition sample_events : list event :=
  [Began 0 sample_key; Continued 0; Continued 0; Began 1 sample_key; Continued 1; Continued 1;
   FoundTurn 0; AnsweredHost sample_key ApprovedForSession; Continued 0; Continued 0; Continued 0;
   Continued 1].

Lemma sample_run : ∃ st, steps network_new sample_events st ∧
  flights st !! 0 = Some (sample_key, Remove 0 AllowForSession None) ∧
  flights st !! 1 = Some (sample_key, Done DecisionAllow).
Proof.
  assert (H : (λ x, (x.1, flights x.2 !! 0, flights x.2 !! 1)) <$> run_actions sample_actions network_new =
    Some (sample_events, Some (sample_key, Remove 0 AllowForSession None),
          Some (sample_key, Done DecisionAllow))) by (vm_compute; reflexivity).
  destruct (run_actions sample_actions network_new) as [[es st]|] eqn:E; [|done].
  cbn in H. injection H as -> H0 H1. exists st. split; [by eapply run_actions_steps|done].
Qed.

Lemma network_access_justified_witness :
  (∃ d, AnsweredHost sample_key d ∈ sample_events ∧
     (d = Approved ∨ (∃ rule, d = ApprovedExecpolicyAmendment rule) ∨ d = ApprovedForSession ∨
      (∃ host, d = NetworkPolicyAmendment_ {| amendment_host := host; Orchestrator.action := ActionAllow |}))) ∨
  (∃ hosts, CopiedHosts hosts ∈ sample_events ∧ sample_key ∈ hosts).
Proof. destruct sample_run as (st & Hs & _ & Hr). by apply (network_access_justified _ st 1). Defined.

Lemma network_questions_invariant_witness : ∃ st, steps network_new sample_events st ∧
  ∀ key, key ∈ session_approved_hosts (service st) → key ∈ session_denied_hosts (service st) →
    copied_in sample_events key.
Proof.
  destruct sample_run as (st & Hs & _). exists st. split; [done|].
  by destruct (network_questions_invariant _ st Hs) as (_ & ? & _).
Defined.

(** While the first asks, the second waits for it. *)
Definition waiting_actions : list action := take 7 sample_actions.
Definition waiting_events : list event := take 7 sample_events.

Lemma waiting_run : ∃ st, steps network_new waiting_events st ∧
  flights st !! 1 = Some (sample_key, WaitFor 0) ∧ pendings (service st) = [None].
Proof.
  assert (H : (λ x, (x.1, flights x.2 !! 1, pendings (service x.2))) <$>
      run_actions waiting_actions network_new =
    Some (waiting_events, Some (sample_key, WaitFor 0), [None])) by (vm_compute; reflexivity).
  destruct (run_actions waiting_actions network_new) as [[es st]|] eqn:E; [|done].
  cbn in H. injection H as -> H1 H2. exists st. split; [by eapply run_actions_steps|done].
Qed.

Lemma network_requests_progress_witness : ∃ st, steps network_new waiting_events st ∧
  ∃ r' ph', r' ≠ 1 ∧ flights st !! r' = Some (sample_key, ph') ∧ owned ph' = Some 0.
Proof.
  destruct waiting_run as (st & Hs & Hr & Hc). exists st. split; [done|].
  assert (Hn : ∀ r', DroppedRequest r' ∉ waiting_events) by (intros r'; unfold waiting_events; set_solver).
  assert (HP := network_requests_progress _ st 1 sample_key (WaitFor 0) Hs Hn Hr). cbn in HP.
  rewrite Hc in HP. cbn in HP.
  destruct HP as [[? [=]]|[[? [=]]|[[? [=]]|[(? & ? & [=])|(p & r' & ph' & [= <-] & Hrest)]]]]. eauto.
Defined.

(** The owner is dropped while its question is open, say because the client of
    the proxy disconnects; a later request for the host waits for it. *)
Definition dropped_actions : list action :=
  [Begin 0 sample_key; Lock 0; Lock 0; Turn 0 (Some OnRequest); DropRequest 0; Begin 1 sample_key;
   Lock 1; Lock 1].

Lemma dropped_owner_strands_host_witness : ∃ es st, steps network_new es st ∧
  flights st !! 1 = Some (sample_key, WaitFor 0) ∧ continue sample_key (WaitFor 0) (service st) = None.
Proof.
  assert (H : (λ x, (flights x.2 !! 1, flights x.2 !! 0, pendings (service x.2),
      pending_host_approvals (service x.2) !! sample_key)) <$> run_actions dropped_actions network_new =
    Some (Some (sample_key, WaitFor 0), None, [None], Some 0)) by (vm_compute; reflexivity).
  assert (Hd : (λ x, elements (dom (flights x.2))) <$> run_actions dropped_actions network_new = Some [1])
    by (vm_compute; reflexivity).
  destruct (run_actions dropped_actions network_new) as [[es st]|] eqn:E; [|done].
  cbn in H, Hd. injection H as H1 H0 Hc Hp. injection Hd as Hd.
  apply run_actions_steps in E. exists es, st. split_and!; [done..|].
  apply (dropped_owner_strands_host es st [] st sample_key 0 1); [done| |constructor|done].
  split_and!; [done|by rewrite Hc|]. intros r k ph Hr.
  assert (r ∈ elements (dom (flights st))) as Hin by (apply elem_of_elements, elem_of_dom; eauto).
  rewrite Hd in Hin. apply list_elem_of_singleton in Hin as ->. rewrite Hr in H1. by injection H1 as -> ->.
Defined.
