(* ===== verification/ConfigLayers.v ===== *)
(** * Configuration layers: [config/src/merge.rs], [config/src/overrides.rs],
      [config/src/fingerprint.rs], [config/src/state.rs], [ConfigLayerSource]

    A TOML value is a tree whose tables are association lists without repeated
    keys; nothing here depends on the order of their entries.  The layers of a
    stack are merged from the lowest precedence to the highest, and each setting
    is traced to the layer it comes from. *)
From Stdlib Require Import SpecFloat.
From stdpp Require Import base tactics option list gmap sets strings sorting.
From S2P Require Import Prelude RustStr Paths.
From stdpp Require Import list.

(** ** TOML values *)

(** [toml::Value]; a date is its text. *)
Inductive TomlValue : Type :=
  | TString (s : str)
  | TInteger (z : Z)
  | TBoolean (b : bool)
  | TFloat (f : spec_float)
  | TDatetime (text : str)
  | TArray (items : list TomlValue)
  | TTable (entries : list (str * TomlValue)).

Definition table_get (key : str) (t : list (str * TomlValue)) : option TomlValue :=
  (λ e, e.2.2) <$> list_find (λ e, e.1 = key) t.
Arguments table_get : simpl never.

(** [Map::insert]. *)
Fixpoint table_insert (key : str) (value : TomlValue) (t : list (str * TomlValue)) :
    list (str * TomlValue) :=
  match t with
  | [] => [(key, value)]
  | e :: t => if decide (e.1 = key) then (key, value) :: t else e :: table_insert key value t
  end.

Definition is_table (v : TomlValue) : bool := match v with TTable _ => true | _ => false end.

(** ** [merge_toml_values] *)

(** The loop over the entries of the overlay, [merge] the recursive call. *)
Definition merge_entries (merge : TomlValue → TomlValue → TomlValue) :
    list (str * TomlValue) → list (str * TomlValue) → list (str * TomlValue) :=
  fix go overlay_table base_table :=
    match overlay_table with
    | [] => base_table
    | (key, value) :: overlay_table =>
        go overlay_table
          (match table_get key base_table with
           | Some existing => table_insert key (merge existing value) base_table
           | None => table_insert key value base_table
           end)
    end.

Fixpoint merge_toml_values (base overlay : TomlValue) {struct overlay} : TomlValue :=
  match overlay with
  | TTable overlay_table =>
      match base with
      | TTable base_table => TTable (merge_entries merge_toml_values overlay_table base_table)
      | _ => overlay
      end
  | _ => overlay
  end.

(** ** [apply_toml_override], [build_cli_overrides_layer] *)
Definition default_empty_table : TomlValue := TTable [].

(** The entries of [current] when it is a table, else of the empty table that
    takes its place. *)
Definition entries_of (current : TomlValue) : list (str * TomlValue) :=
  match current with TTable t => t | _ => [] end.

Fixpoint override_at (segments : list str) (value current : TomlValue) : TomlValue :=
  match segments with
  | [] => current
  | [segment] => TTable (table_insert segment value (entries_of current))
  | segment :: rest =>
      let t := entries_of current in
      TTable (table_insert segment
                (override_at rest value (default default_empty_table (table_get segment t))) t)
  end.

Definition DOT : char := 46%N.
Definition apply_toml_override (root : TomlValue) (path : str) (value : TomlValue) : TomlValue :=
  override_at (RustStr.split DOT path) value root.

Definition build_cli_overrides_layer (cli_overrides : list (str * TomlValue)) : TomlValue :=
  foldl (λ root o, apply_toml_override root o.1 o.2) default_empty_table cli_overrides.

(** ** Layers *)
Inductive ConfigLayerSource : Type :=
  | Mdm (domain key : str)
  | System (file : AbsolutePathBuf)
  | User (file : AbsolutePathBuf)
  | Project (dot_codex_folder : AbsolutePathBuf)
  | SessionFlags
  | LegacyManagedConfigTomlFromFile (file : AbsolutePathBuf)
  | LegacyManagedConfigTomlFromMdm.

Definition precedence (self : ConfigLayerSource) : Z :=
  match self with
  | Mdm _ _ => 0
  | System _ => 10
  | User _ => 20
  | Project _ => 25
  | SessionFlags => 30
  | LegacyManagedConfigTomlFromFile _ => 40
  | LegacyManagedConfigTomlFromMdm => 50
  end.

Record ConfigLayerMetadata : Type := { meta_name : ConfigLayerSource; meta_version : str }.

Record ConfigLayerEntry : Type := {
  name : ConfigLayerSource;
  config : TomlValue;
  raw_toml : option str;
  version : str;
  disabled_reason : option str;
}.

Definition is_disabled (self : ConfigLayerEntry) : bool :=
  match disabled_reason self with Some _ => true | None => false end.

Definition metadata (self : ConfigLayerEntry) : ConfigLayerMetadata :=
  {| meta_name := name self; meta_version := version self |}.

Definition config_folder (self : ConfigLayerEntry) : option AbsolutePathBuf :=
  match name self with
  | Mdm _ _ => None
  | System file => parent file
  | User file => parent file
  | Project dot_codex_folder => Some dot_codex_folder
  | SessionFlags => None
  | LegacyManagedConfigTomlFromFile _ => None
  | LegacyManagedConfigTomlFromMdm => None
  end.

(** [version_for_toml] hashes the JSON text of the value (crates [serde_json]
    and [sha2]). *)
Section Layers.
Variable version_for_toml : TomlValue → str.

Definition layer_new (name : ConfigLayerSource) (config : TomlValue) : ConfigLayerEntry :=
  {| name := name; config := config; raw_toml := None; version := version_for_toml config;
     disabled_reason := None |}.
Definition new_with_raw_toml (name : ConfigLayerSource) (config : TomlValue) (raw_toml : str) :
    ConfigLayerEntry :=
  {| name := name; config := config; raw_toml := Some raw_toml;
     version := version_for_toml config; disabled_reason := None |}.
Definition new_disabled (name : ConfigLayerSource) (config : TomlValue) (disabled_reason : str) :
    ConfigLayerEntry :=
  {| name := name; config := config; raw_toml := None; version := version_for_toml config;
     disabled_reason := Some disabled_reason |}.

(** *** Origins *)

(** The scalars below a value, with their paths; array indices are segments. *)
Fixpoint record_origins (value : TomlValue) (meta : ConfigLayerMetadata) (path : list str)
    (origins : gmap str ConfigLayerMetadata) : gmap str ConfigLayerMetadata :=
  match value with
  | TTable table =>
      (fix go (t : list (str * TomlValue)) origins :=
         match t with
         | [] => origins
         | (key, val) :: t => go t (record_origins val meta (path ++ [key]) origins)
         end) table origins
  | TArray items =>
      (fix go (idx : nat) (l : list TomlValue) origins :=
         match l with
         | [] => origins
         | item :: l => go (S idx) l (record_origins item meta (path ++ [show_nat idx]) origins)
         end) 0 items origins
  | _ => if bool_decide (path = []) then origins else <[RustStr.join [DOT] path := meta]> origins
  end.

End Layers.

(** ** The stack *)
Inductive ConfigLayerStackOrdering : Type := LowestPrecedenceFirst | HighestPrecedenceFirst.
#[export] Instance ordering_eq_dec : EqDecision ConfigLayerStackOrdering.
Proof. solve_decision. Defined.

(** The checks of [verify_layer_ordering]; an error is its message. *)
Fixpoint is_sorted (l : list ConfigLayerSource) : bool :=
  match l with
  | a :: rest =>
      match rest with b :: _ => (precedence a <=? precedence b)%Z | [] => true end && is_sorted rest
  | [] => true
  end.

(** One round of the loop over the layers. *)
Definition verify_layer (index : nat) (layer : ConfigLayerEntry)
    (user_layer_index : option nat) (previous : option AbsolutePathBuf) :
    outcome str (option nat * option AbsolutePathBuf) :=
  user_layer_index ←
    match name layer with
    | User _ =>
        match user_layer_index with
        | Some _ => Err (lit "multiple user config layers found")
        | None => Ok (Some index)
        end
    | _ => Ok user_layer_index
    end;
  match name layer with
  | Project current =>
      match previous with
      | Some previous =>
          match parent previous with
          | None => Err (lit "project layer has no parent directory")
          | Some parent =>
              if bool_decide (previous = current)
                 || negb (existsb (λ ancestor, bool_decide (ancestor = parent)) (ancestors current))
              then Err (lit "project layers are not ordered from root to cwd")
              else Ok (user_layer_index, Some current)
          end
      | None => Ok (user_layer_index, Some current)
      end
  | _ => Ok (user_layer_index, previous)
  end.

Fixpoint verify_layers (index : nat) (layers : list ConfigLayerEntry)
    (user_layer_index : option nat) (previous : option AbsolutePathBuf) : outcome str (option nat) :=
  match layers with
  | [] => Ok user_layer_index
  | layer :: layers =>
      '(user_layer_index, previous) ← verify_layer index layer user_layer_index previous;
      verify_layers (S index) layers user_layer_index previous
  end.

Definition verify_layer_ordering (layers : list ConfigLayerEntry) : outcome str (option nat) :=
  if negb (is_sorted (name <$> layers))
  then Err (lit "config layers are not in correct precedence order")
  else verify_layers 0 layers None None.

Section Stack.
Context {Requirements RequirementsToml : Type}.

Record ConfigLayerStack : Type := {
  layers : list ConfigLayerEntry;
  user_layer_index : option nat;
  requirements : Requirements;
  requirements_toml : RequirementsToml;
}.

Definition stack_new (layers : list ConfigLayerEntry) (requirements : Requirements)
    (requirements_toml : RequirementsToml) : outcome str ConfigLayerStack :=
  user_layer_index ← verify_layer_ordering layers;
  Ok {| layers := layers; user_layer_index := user_layer_index; requirements := requirements;
        requirements_toml := requirements_toml |}.

Definition get_user_layer (self : ConfigLayerStack) : option ConfigLayerEntry :=
  user_layer_index self ≫= λ index, layers self !! index.

(** [layers[index] = user_layer] panics out of range. *)
Definition with_user_config (version_for_toml : TomlValue → str) (self : ConfigLayerStack)
    (config_toml : AbsolutePathBuf) (user_config : TomlValue) : outcome Empty_set ConfigLayerStack :=
  let user_layer := layer_new version_for_toml (User config_toml) user_config in
  let stack ls index := {| layers := ls; user_layer_index := index;
    requirements := requirements self; requirements_toml := requirements_toml self |} in
  match user_layer_index self with
  | Some index =>
      if index <? length (layers self)
      then Ok (stack (<[index := user_layer]> (layers self)) (Some index))
      else Panic
  | None =>
      match list_find (λ layer, (precedence (name user_layer) < precedence (name layer))%Z)
              (layers self) with
      | Some (index, _) =>
          Ok (stack (take index (layers self) ++ user_layer :: drop index (layers self)) (Some index))
      | None => Ok (stack (layers self ++ [user_layer]) (Some (length (layers self))))
      end
  end.

Definition get_layers (self : ConfigLayerStack) (ordering : ConfigLayerStackOrdering)
    (include_disabled : bool) : list ConfigLayerEntry :=
  let layers := List.filter (λ layer, include_disabled || negb (is_disabled layer)) (layers self) in
  if bool_decide (ordering = HighestPrecedenceFirst) then reverse layers else layers.

Definition effective_config (self : ConfigLayerStack) : TomlValue :=
  foldl (λ merged layer, merge_toml_values merged (config layer)) default_empty_table
    (get_layers self LowestPrecedenceFirst false).

Definition origins (self : ConfigLayerStack) : gmap str ConfigLayerMetadata :=
  foldl (λ origins layer, record_origins (config layer) (metadata layer) [] origins) ∅
    (get_layers self LowestPrecedenceFirst false).

Definition layers_high_to_low (self : ConfigLayerStack) : list ConfigLayerEntry :=
  get_layers self HighestPrecedenceFirst false.
End Stack.

(** ** Values *)
Section TomlInd.
Variable P : TomlValue → Prop.
Hypothesis Hscalar : ∀ v, is_table v = false → (∀ l, v ≠ TArray l) → P v.
Hypothesis Harray : ∀ l, Forall P l → P (TArray l).
Hypothesis Htable : ∀ t, Forall (λ e, P e.2) t → P (TTable t).

Fixpoint toml_ind (v : TomlValue) : P v.
Proof.
  destruct v as [| | | | |l|t].
  1-5: by apply Hscalar.
  - apply Harray. induction l; constructor; auto.
  - apply Htable. induction t as [|[k x] t IH]; constructor; auto.
Defined.
End TomlInd.

(** No table repeats a key, the invariant of [toml::map::Map]. *)
Fixpoint toml_wf (v : TomlValue) : Prop :=
  match v with
  | TTable t => NoDup t.*1 ∧ (fix go (t : list (str * TomlValue)) :=
      match t with [] => True | (_, x) :: t => toml_wf x ∧ go t end) t
  | TArray l => (fix go (l : list TomlValue) := match l with [] => True | x :: l => toml_wf x ∧ go l end) l
  | _ => True
  end.

Lemma table_wf t : toml_wf (TTable t) ↔ NoDup t.*1 ∧ Forall (λ e, toml_wf e.2) t.
Proof.
  cbn. assert (Hg : (fix go (t : list (str * TomlValue)) :=
    match t with [] => True | (_, x) :: t => toml_wf x ∧ go t end) t ↔ Forall (λ e, toml_wf e.2) t).
  { induction t as [|[k x] t IH]; [by split|]. rewrite Forall_cons, <- IH. done. }
  by rewrite Hg.
Qed.

Lemma array_wf l : toml_wf (TArray l) ↔ Forall toml_wf l.
Proof. cbn. induction l as [|x l IH]; [by split|]. rewrite Forall_cons, <- IH. done. Qed.

(** *** Tables *)
Lemma table_get_cons k e t : table_get k (e :: t) = if decide (e.1 = k) then Some e.2 else table_get k t.
Proof.
  unfold table_get. cbn. case_decide; [done|]. destruct (list_find _ t) as [[? ?]|]; done.
Qed.

Lemma table_get_elem k t v : table_get k t = Some v → (k, v) ∈ t.
Proof.
  induction t as [|[k' x] t IH]; [done|]. rewrite table_get_cons. cbn.
  case_decide; [intros [= ->]; subst; by left|]. intros Hv%IH. by right.
Qed.

Lemma table_get_None k t : table_get k t = None ↔ k ∉ t.*1.
Proof.
  induction t as [|[k' x] t IH]; [split; [intros _; apply not_elem_of_nil|done]|].
  rewrite table_get_cons. cbn. case_decide; set_solver.
Qed.

Lemma elem_table_get k v t : NoDup t.*1 → (k, v) ∈ t → table_get k t = Some v.
Proof.
  induction t as [|[k' x] t IH]; [by intros _ ?%not_elem_of_nil|]. rewrite fmap_cons, NoDup_cons.
  intros [Hn Ht] [[= -> ->]|Hin]%elem_of_cons; rewrite table_get_cons; cbn; [by rewrite decide_True|].
  rewrite decide_False; [auto|]. intros ->. apply Hn, list_elem_of_fmap. by exists (k, v).
Qed.

Lemma table_get_insert k k' v t :
  table_get k' (table_insert k v t) = if decide (k = k') then Some v else table_get k' t.
Proof.
  induction t as [|[k1 x] t IH]; cbn; [by rewrite table_get_cons|].
  destruct (decide (k1 = k)) as [->|Hne]; rewrite !table_get_cons; cbn; [by repeat case_decide|].
  rewrite IH. repeat case_decide; subst; done.
Qed.

Lemma table_insert_keys k v t k' : k' ∈ (table_insert k v t).*1 ↔ k' = k ∨ k' ∈ t.*1.
Proof. induction t as [|[k1 x] t IH]; cbn; [set_solver|]. case_decide; subst; cbn; set_solver. Qed.

Lemma table_insert_wf k v t : toml_wf (TTable t) → toml_wf v → toml_wf (TTable (table_insert k v t)).
Proof.
  rewrite !table_wf. intros [Hn Hf] Hv. induction t as [|[k1 x] t IH]; cbn.
  - split; [apply NoDup_singleton|by constructor].
  - cbn in Hn. rewrite NoDup_cons in Hn. rewrite Forall_cons in Hf. destruct Hn as [Hk Hn], Hf as [Hx Hf].
    case_decide; subst; cbn; [by split; constructor|]. destruct (IH Hn Hf) as [Hn' Hf'].
    rewrite NoDup_cons, table_insert_keys, Forall_cons. naive_solver.
Qed.

Lemma table_get_wf k t v : toml_wf (TTable t) → table_get k t = Some v → toml_wf v.
Proof. rewrite table_wf. intros [_ Hf] Hg%table_get_elem. rewrite Forall_forall in Hf. by apply (Hf (k, v)). Qed.

(** *** Merging *)
Lemma merge_entries_get f o b k :
  NoDup o.*1 →
  table_get k (merge_entries f o b) =
  match table_get k o with
  | Some v => Some (match table_get k b with Some e => f e v | None => v end)
  | None => table_get k b
  end.
Proof.
  revert b. induction o as [|[k1 v1] o IH]; intros b Hn; [done|]. cbn in Hn. rewrite NoDup_cons in Hn.
  destruct Hn as [Hk Hn]. cbn [merge_entries]. fold (merge_entries f). rewrite IH by done.
  rewrite table_get_cons. cbn.
  destruct (decide (k1 = k)) as [->|Hne].
  - apply table_get_None in Hk as ->. destruct (table_get k b); by rewrite table_get_insert, decide_True.
  - destruct (table_get k1 b); by rewrite table_get_insert, decide_False.
Qed.

Lemma merge_wf b o : toml_wf b → toml_wf o → toml_wf (merge_toml_values b o).
Proof.
  intros Hb Ho. revert b Hb. induction o as [o Hs Ha|l _|t IH] using toml_ind; intros b Hb.
  - by destruct o.
  - done.
  - cbn. destruct b as [| | | | | |bt]; try done. assert (Ho' := Ho). apply table_wf in Ho' as [_ Hf].
    clear Ho. revert bt Hb. induction t as [|[k v] t IHt]; intros bt Hb; [done|].
    rewrite Forall_cons in IH. rewrite Forall_cons in Hf. destruct IH as [IHv IH], Hf as [Hv Hf].
    cbn [merge_entries]. fold (merge_entries merge_toml_values). apply IHt; [done..|].
    destruct (table_get k bt) as [e|] eqn:E; apply table_insert_wf; try done.
    apply IHv; [done|]. by eapply table_get_wf.
Qed.

(** The setting at a path through tables. *)
Fixpoint get (p : list str) (v : TomlValue) : option TomlValue :=
  match p, v with
  | [], _ => Some v
  | k :: p, TTable t => table_get k t ≫= get p
  | _ :: _, _ => None
  end.
Definition leaf_at (p : list str) (v : TomlValue) : option TomlValue :=
  get p v ≫= λ x, if is_table x then None else Some x.

(** The value decides what is at the path: it has something there, or something
    on the way that is not a table. *)
Fixpoint covers (p : list str) (v : TomlValue) : bool :=
  match p, v with
  | [], _ => true
  | k :: p, TTable t => match table_get k t with Some x => covers p x | None => false end
  | _ :: _, _ => true
  end.

Lemma leaf_at_table k p t : leaf_at (k :: p) (TTable t) = table_get k t ≫= leaf_at p.
Proof. unfold leaf_at. cbn. by destruct (table_get k t). Qed.

Lemma leaf_at_other k p v : is_table v = false → leaf_at (k :: p) v = None.
Proof. by destruct v. Qed.

Lemma covers_false_leaf p v : covers p v = false → leaf_at p v = None.
Proof.
  revert v. induction p as [|k p IH]; intros v; [done|]. destruct v as [| | | | | |t]; try done.
  rewrite leaf_at_table. cbn. destruct (table_get k t); [apply IH|done].
Qed.

Lemma leaf_at_merge p b o :
  toml_wf o → leaf_at p (merge_toml_values b o) = if covers p o then leaf_at p o else leaf_at p b.
Proof.
  revert b o. induction p as [|k p IH]; intros b o Ho.
  - cbn. destruct o; try done. by destruct b.
  - destruct o as [| | | | | |ot]; try done. destruct b as [| | | | | |bt].
    1-6: change (merge_toml_values _ (TTable ot)) with (TTable ot);
      destruct (covers (k :: p) (TTable ot)) eqn:E; [done|];
      by rewrite (covers_false_leaf _ _ E).
    change (merge_toml_values (TTable bt) (TTable ot))
      with (TTable (merge_entries merge_toml_values ot bt)).
    assert (Ho' := Ho). apply table_wf in Ho' as [Hn _].
    rewrite !leaf_at_table, merge_entries_get by done. cbn [covers].
    destruct (table_get k ot) as [v|] eqn:Ev; [|done]. cbn.
    assert (Hv := table_get_wf _ _ _ Ho Ev).
    destruct (table_get k bt) as [e|]; cbn; [by apply IH|].
    destruct (covers p v) eqn:Ec; [done|]. by apply covers_false_leaf.
Qed.

(** *** Layers *)
Definition merge_layers (base : TomlValue) (ls : list ConfigLayerEntry) : TomlValue :=
  foldl (λ merged layer, merge_toml_values merged (config layer)) base ls.

(** The first of the layers that decides what is at the path. *)
Definition deciding (p : list str) (ls : list ConfigLayerEntry) : option ConfigLayerEntry :=
  snd <$> list_find (λ l, covers p (config l) = true) ls.

Lemma deciding_cons p l ls : deciding p (l :: ls) = if covers p (config l) then Some l else deciding p ls.
Proof.
  unfold deciding. cbn. case_decide as H; [by rewrite H|].
  destruct (covers p (config l)); [done|]. by destruct (list_find _ ls) as [[]|].
Qed.

Lemma merge_layers_leaf p ls base :
  Forall (λ l, toml_wf (config l)) ls →
  leaf_at p (merge_layers base ls) =
  match deciding p (reverse ls) with Some l => leaf_at p (config l) | None => leaf_at p base end.
Proof.
  induction ls as [|l ls IH] using rev_ind; intros Hf; [done|].
  apply Forall_app in Hf as [Hf [Hl _]%Forall_cons]. unfold merge_layers. rewrite foldl_app. cbn [foldl].
  rewrite leaf_at_merge by done. rewrite reverse_snoc, deciding_cons.
  destruct (covers p (config l)); [done|]. by apply IH.
Qed.

Lemma merge_layers_wf ls base :
  toml_wf base → Forall (λ l, toml_wf (config l)) ls → toml_wf (merge_layers base ls).
Proof.
  intros Hb Hf. unfold merge_layers. revert base Hb. induction Hf as [|l ls Hl Hf IH]; intros base Hb; [done|].
  cbn. apply IH. by apply merge_wf.
Qed.

Section Effective.
Context {Requirements RequirementsToml : Type}.
Implicit Types (self : @ConfigLayerStack Requirements RequirementsToml).

Definition stack_wf self : Prop := Forall (λ l, toml_wf (config l)) (layers self).

Lemma get_layers_elem self ordering b l : l ∈ get_layers self ordering b → l ∈ layers self.
Proof.
  unfold get_layers. case_bool_decide; rewrite ?elem_of_reverse, !list_elem_of_In, filter_In; tauto.
Qed.

Lemma get_layers_Forall (P : ConfigLayerEntry → Prop) self ordering b :
  Forall P (layers self) → Forall P (get_layers self ordering b).
Proof. rewrite !Forall_forall. eauto using get_layers_elem. Qed.

Lemma enabled_wf self ordering b :
  stack_wf self → Forall (λ l, toml_wf (config l)) (get_layers self ordering b).
Proof. apply get_layers_Forall. Qed.

Lemma high_to_low self : layers_high_to_low self = reverse (get_layers self LowestPrecedenceFirst false).
Proof. done. Qed.

Lemma effective_leaf self p :
  stack_wf self →
  leaf_at p (effective_config self) =
  deciding p (reverse (List.filter (λ layer, negb (is_disabled layer)) (layers self)))
    ≫= λ layer, leaf_at p (config layer).
Proof.
  intros Hwf. unfold effective_config. change (foldl _ _ ?ls) with (merge_layers default_empty_table ls).
  rewrite (merge_layers_leaf p _ default_empty_table) by by apply enabled_wf.
  unfold get_layers. rewrite bool_decide_eq_false_2 by done. cbn [orb].
  destruct (deciding p _); [done|]. by destruct p.
Qed.
End Effective.

(** *** Overrides *)
Lemma override_at_cons s s' rest value current :
  override_at (s :: s' :: rest) value current =
  TTable (table_insert s (override_at (s' :: rest) value
    (default default_empty_table (table_get s (entries_of current)))) (entries_of current)).
Proof. done. Qed.

Lemma override_at_wf segments value current :
  toml_wf value → toml_wf current → toml_wf (override_at segments value current).
Proof.
  intros Hv. revert current. induction segments as [|s segments IH]; intros current Hc; [done|].
  assert (He : toml_wf (TTable (entries_of current))) by (destruct current; try done;
    apply table_wf; split; constructor).
  destruct segments as [|s' segments]; [by apply table_insert_wf|].
  rewrite override_at_cons. apply table_insert_wf; [done|]. apply IH.
  destruct (table_get s (entries_of current)) eqn:E; [by eapply table_get_wf|].
  apply table_wf; split; constructor.
Qed.

Lemma get_entries k p v : get (k :: p) v = table_get k (entries_of v) ≫= get p.
Proof. by destruct v. Qed.

Lemma override_at_same segments value current :
  segments ≠ [] → get segments (override_at segments value current) = Some value.
Proof.
  revert current. induction segments as [|s segments IH]; intros current Hne; [done|].
  destruct segments as [|s' segments]; [cbn [override_at]|rewrite override_at_cons];
    rewrite get_entries; cbn [entries_of];
    rewrite table_get_insert, decide_True by done; [done|]. by apply IH.
Qed.

Lemma override_at_other segments value current p :
  ¬ segments `prefix_of` p → ¬ p `prefix_of` segments →
  get p (override_at segments value current) = get p current.
Proof.
  revert current p. induction segments as [|s segments IH]; intros current p Hs Hp; [by destruct Hs; apply prefix_nil|].
  destruct p as [|k p]; [by destruct Hp; apply prefix_nil|].
  destruct segments as [|s' segments]; [cbn [override_at]|rewrite override_at_cons];
    rewrite !get_entries; cbn [entries_of];
    rewrite table_get_insert; destruct (decide (s = k)) as [<-|Hne]; try done.
  - destruct Hs. apply prefix_cons, prefix_nil.
  - cbn [mbind option_bind].
    rewrite IH; [|intros H; by apply Hs, prefix_cons|intros H; by apply Hp, prefix_cons].
    destruct (table_get s (entries_of current)); [done|].
    destruct p; [by destruct Hp; apply prefix_cons, prefix_nil|done].
Qed.

Lemma get_covers p v x : get p v = Some x → covers p v = true.
Proof.
  revert v. induction p as [|k p IH]; intros v; [done|]. destruct v as [| | | | | |t]; try done. cbn.
  destruct (table_get k t); [apply IH|done].
Qed.

Definition apart (p q : list str) : Prop := ¬ p `prefix_of` q ∧ ¬ q `prefix_of` p.

Lemma overrides_last l1 path value l2 :
  Forall (λ o, apart (RustStr.split DOT o.1) (RustStr.split DOT path)) l2 →
  get (RustStr.split DOT path) (build_cli_overrides_layer (l1 ++ (path, value) :: l2)) = Some value.
Proof.
  intros Hf. unfold build_cli_overrides_layer. rewrite foldl_app. cbn [foldl fst snd].
  set (root := foldl _ _ l1). clearbody root.
  induction l2 as [|o l2 IH] using rev_ind; cbn [foldl].
  - apply override_at_same, split_ne_nil.
  - apply Forall_app in Hf as [Hf [[Ho1 Ho2] _]%Forall_cons].
    rewrite foldl_app. cbn [foldl]. unfold apply_toml_override at 1.
    rewrite override_at_other by done. by apply IH.
Qed.

Section Overrides.
Context {Requirements RequirementsToml : Type}.

(** An override given on the command line is in the effective configuration
    when its layer is the one of highest precedence and no later override is at
    the same place, above it or below it. *)
Theorem cli_override_takes_effect (self : @ConfigLayerStack Requirements RequirementsToml)
    ls layer l1 path value l2 :
  stack_wf self →
  get_layers self LowestPrecedenceFirst false = ls ++ [layer] →
  config layer = build_cli_overrides_layer (l1 ++ (path, value) :: l2) →
  is_table value = false →
  Forall (λ o, apart (RustStr.split DOT o.1) (RustStr.split DOT path)) l2 →
  leaf_at (RustStr.split DOT path) (effective_config self) = Some value.
Proof.
  intros Hwf Hls Hc Hv Hf. assert (Hg := overrides_last l1 path value l2 Hf). rewrite <- Hc in Hg.
  unfold effective_config. rewrite (merge_layers_leaf _ _ default_empty_table) by by apply enabled_wf.
  rewrite Hls, reverse_snoc, deciding_cons, (get_covers _ _ _ Hg). unfold leaf_at. rewrite Hg. cbn.
  by rewrite Hv.
Qed.
End Overrides.

(** *** Origins *)

(** The paths of the scalars of a value. *)
Fixpoint scalar_paths (v : TomlValue) : list (list str) :=
  match v with
  | TTable t =>
      (fix go (t : list (str * TomlValue)) : list (list str) :=
         match t with [] => [] | (k, x) :: t => (cons k <$> scalar_paths x) ++ go t end) t
  | TArray l =>
      (fix go (idx : nat) (l : list TomlValue) : list (list str) :=
         match l with [] => [] | x :: l => (cons (show_nat idx) <$> scalar_paths x) ++ go (S idx) l end) 0 l
  | _ => [[]]
  end.

Definition note_origin (meta : ConfigLayerMetadata) (path : list str)
    (origins : gmap str ConfigLayerMetadata) (p : list str) : gmap str ConfigLayerMetadata :=
  if bool_decide (path ++ p = []) then origins else <[RustStr.join [DOT] (path ++ p) := meta]> origins.

Lemma note_cons meta path k l os :
  foldl (note_origin meta path) os (cons k <$> l) = foldl (note_origin meta (path ++ [k])) os l.
Proof.
  revert os. induction l as [|p l IH]; intros os; [done|]. cbn. rewrite IH. f_equal.
  unfold note_origin. by rewrite <- app_assoc.
Qed.

Lemma record_origins_paths v meta path os :
  record_origins v meta path os = foldl (note_origin meta path) os (scalar_paths v).
Proof.
  revert path os. induction v as [v Hs Ha|l IH|t IH] using toml_ind; intros path os.
  - destruct v; try (cbn; unfold note_origin; by rewrite app_nil_r); [by destruct (Ha items)|done].
  - cbn. generalize 0. revert os. induction IH as [|x l Hx _ IHl]; intros os n; [done|].
    by rewrite Hx, IHl, foldl_app, note_cons.
  - cbn. revert os. induction IH as [|[k x] t Hx _ IHt]; intros os; [done|].
    cbn in Hx. by rewrite Hx, IHt, foldl_app, note_cons.
Qed.

Lemma note_lookup meta ps os j :
  foldl (note_origin meta []) os ps !! j =
  if bool_decide (j ∈ RustStr.join [DOT] <$> filter (λ p, p ≠ []) ps) then Some meta else os !! j.
Proof.
  induction ps as [|p ps IH] using rev_ind; [by rewrite bool_decide_eq_false_2 by apply not_elem_of_nil|].
  rewrite foldl_app, filter_app, fmap_app. cbn [foldl]. unfold note_origin at 1. cbn [app].
  destruct (decide (p = [])) as [->|Hp].
  - rewrite bool_decide_eq_true_2 by done. rewrite IH. rewrite (filter_cons_False (λ p, p ≠ [])) by tauto.
    cbn. by rewrite app_nil_r.
  - rewrite bool_decide_eq_false_2 by done. rewrite (filter_cons_True (λ p, p ≠ [])) by done. cbn.
    destruct (decide (j = RustStr.join [DOT] p)) as [->|Hj].
    + rewrite lookup_insert_eq, bool_decide_eq_true_2; [done|set_solver].
    + rewrite lookup_insert_ne by done. rewrite IH.
      replace (bool_decide (j ∈ (RustStr.join [DOT] <$> filter (λ p, p ≠ []) ps) ++ [RustStr.join [DOT] p]))
        with (bool_decide (j ∈ RustStr.join [DOT] <$> filter (λ p, p ≠ []) ps)); [done|].
      apply bool_decide_ext. set_solver.
Qed.

(** The scalar at a path. *)
Definition item_at (k : str) (l : list TomlValue) : option TomlValue :=
  snd <$> (snd <$> list_find (λ e, show_nat e.1 = k) (imap pair l)).
Arguments item_at : simpl never.
Fixpoint scalar_at (p : list str) (v : TomlValue) : option TomlValue :=
  match p, v with
  | k :: p, TTable t => table_get k t ≫= scalar_at p
  | k :: p, TArray l => item_at k l ≫= scalar_at p
  | _ :: _, _ => None
  | [], TTable _ | [], TArray _ => None
  | [], _ => Some v
  end.

Lemma scalar_at_leaf p v x :
  scalar_at p v = Some x → ∃ q r y, p = q ++ r ∧ leaf_at q v = Some y ∧ scalar_at r y = Some x.
Proof.
  revert v. induction p as [|k p IH]; intros v Hs.
  - exists [], [], v. by destruct v.
  - destruct v as [| | | | |l|t]; try done.
    + by exists [], (k :: p), (TArray l).
    + cbn in Hs. destruct (table_get k t) as [v|] eqn:E; [|done]. cbn in Hs.
      destruct (IH v Hs) as (q & r & y & -> & Hl & Hr). exists (k :: q), r, y.
      by rewrite leaf_at_table, E.
Qed.

Lemma leaf_scalar_at q r v y : leaf_at q v = Some y → scalar_at (q ++ r) v = scalar_at r y.
Proof.
  revert v. induction q as [|k q IH]; intros v Hl.
  - unfold leaf_at in Hl. cbn in Hl. destruct (is_table v); [done|]. by injection Hl as ->.
  - destruct v as [| | | | | |t]; try done. rewrite leaf_at_table in Hl. cbn.
    destruct (table_get k t) as [v|]; [|done]. cbn in *. by apply IH.
Qed.

Lemma item_at_lookup k l x : item_at k l = Some x → ∃ i, l !! i = Some x ∧ show_nat i = k.
Proof.
  unfold item_at. destruct (list_find _ _) as [[j [i y]]|] eqn:E; [|done]. cbn. intros [= <-].
  apply list_find_Some in E as (Hl & Hk & _). rewrite list_lookup_imap in Hl. cbn in Hk.
  destruct (l !! j) eqn:El; [|done]. cbn in Hl. injection Hl as <- <-. eauto.
Qed.

Lemma array_paths l i x p n :
  l !! i = Some x → p ∈ scalar_paths x →
  show_nat (n + i) :: p ∈ (fix go (idx : nat) (l : list TomlValue) : list (list str) :=
    match l with [] => [] | x :: l => (cons (show_nat idx) <$> scalar_paths x) ++ go (S idx) l end) n l.
Proof.
  revert i n. induction l as [|y l IH]; intros i n Hl Hp; [done|]. destruct i as [|i]; cbn in Hl.
  - injection Hl as ->. rewrite Nat.add_0_r. apply elem_of_app. left. set_solver.
  - apply elem_of_app. right. replace (n + S i) with (S n + i) by lia. by apply IH.
Qed.

Lemma table_paths t k x p : (k, x) ∈ t → p ∈ scalar_paths x → k :: p ∈ scalar_paths (TTable t).
Proof.
  intros Ht Hp. cbn. induction t as [|[k' y] t IH]; [by apply not_elem_of_nil in Ht|].
  apply elem_of_cons in Ht as [[= <- <-]|Ht]; apply elem_of_app; [left; set_solver|right; auto].
Qed.

Lemma scalar_at_paths p v x : scalar_at p v = Some x → p ∈ scalar_paths v.
Proof.
  revert v. induction p as [|k p IH]; intros v Hs.
  - destruct v; try done; cbn; set_solver.
  - destruct v as [| | | | |l|t]; try done; cbn in Hs.
    + destruct (item_at k l) as [y|] eqn:E; [|done]. apply item_at_lookup in E as (i & Hi & <-).
      apply (array_paths l i y p 0); [done|by apply IH].
    + destruct (table_get k t) as [y|] eqn:E; [|done]. apply table_get_elem in E.
      eapply table_paths; [done|by apply IH].
Qed.

Lemma table_paths_inv t p :
  p ∈ scalar_paths (TTable t) → ∃ k x p', p = k :: p' ∧ (k, x) ∈ t ∧ p' ∈ scalar_paths x.
Proof.
  cbn. induction t as [|[k y] t IH]; [by intros ?%not_elem_of_nil|].
  intros [(p' & -> & Hp)%list_elem_of_fmap|Hp]%elem_of_app.
  - exists k, y, p'. split_and!; [done|by left|done].
  - destruct (IH Hp) as (k' & x & p' & -> & Hin & Hp'). exists k', x, p'. split_and!; [done|by right|done].
Qed.

Lemma paths_covers q r v : toml_wf v → q ++ r ∈ scalar_paths v → covers q v = true.
Proof.
  revert v. induction q as [|k q IH]; intros v Hwf Hp; [done|].
  destruct v as [| | | | |l|t]; try done.
  apply table_paths_inv in Hp as (k' & x & p' & [= <- <-] & Hin & Hp).
  assert (Hwf' := Hwf). apply table_wf in Hwf' as [Hn Hf]. cbn.
  rewrite (elem_table_get k x t) by done. apply IH; [|done].
  rewrite Forall_forall in Hf. by apply (Hf (k, x)).
Qed.

(** No key on the way to a scalar has a dot. *)
Definition no_dots (v : TomlValue) : Prop := Forall (Forall (λ k, DOT ∉ k)) (scalar_paths v).

Definition record_layers (os : gmap str ConfigLayerMetadata) (ls : list ConfigLayerEntry) :
    gmap str ConfigLayerMetadata :=
  foldl (λ os l, record_origins (config l) (metadata l) [] os) os ls.

Lemma origin_of_last l ls os p :
  p ≠ [] → p ∈ scalar_paths (config l) →
  (∀ m p', m ∈ ls → p' ∈ scalar_paths (config m) → p' ≠ [] →
     RustStr.join [DOT] p' ≠ RustStr.join [DOT] p) →
  record_layers os (l :: ls) !! RustStr.join [DOT] p = Some (metadata l).
Proof.
  intros Hp Hl Hls. unfold record_layers. induction ls as [|m ls IH] using rev_ind.
  - cbn. rewrite record_origins_paths, note_lookup, bool_decide_eq_true_2; [done|].
    apply list_elem_of_fmap. exists p. split; [done|]. by apply list_elem_of_filter.
  - rewrite app_comm_cons, foldl_app. cbn [foldl]. rewrite record_origins_paths, note_lookup.
    rewrite bool_decide_eq_false_2; [apply IH; set_solver|].
    intros (p' & Hj & [Hne Hp']%list_elem_of_filter)%list_elem_of_fmap. by apply (Hls m p'); [set_solver|..].
Qed.

Lemma deciding_Some p ls l :
  deciding p ls = Some l →
  ∃ l1 l2, ls = l1 ++ l :: l2 ∧ covers p (config l) = true ∧ ∀ m, m ∈ l1 → covers p (config m) = false.
Proof.
  induction ls as [|m ls IH]; [done|]. rewrite deciding_cons. destruct (covers p (config m)) eqn:E.
  - intros [= ->]. exists [], ls. split_and!; [done..|]. by intros ? ?%not_elem_of_nil.
  - intros (l1 & l2 & -> & Hl & Hm)%IH. exists (m :: l1), l2. split_and!; [done..|]. set_solver.
Qed.

Section Origins.
Context {Requirements RequirementsToml : Type}.

(** Every scalar of the effective configuration has an origin, the enabled
    layer of highest precedence that has a scalar at its path, and that layer
    has the effective value there; keys must have no dots, since a path is
    recorded as its segments joined by dots. *)
Theorem origins_spec (self : @ConfigLayerStack Requirements RequirementsToml) p x :
  stack_wf self → Forall (λ l, no_dots (config l)) (layers self) → p ≠ [] →
  scalar_at p (effective_config self) = Some x →
  ∃ l1 layer l2, get_layers self LowestPrecedenceFirst false = l1 ++ layer :: l2 ∧
    origins self !! RustStr.join [DOT] p = Some (metadata layer) ∧
    scalar_at p (config layer) = Some x ∧ (∀ m, m ∈ l2 → scalar_at p (config m) = None).
Proof.
  intros Hwf Hdots Hp (q & r & y & -> & Hq & Hr)%scalar_at_leaf.
  assert (Hen := enabled_wf self LowestPrecedenceFirst false Hwf).
  assert (Hdots' := get_layers_Forall _ self LowestPrecedenceFirst false Hdots). cbn beta in Hdots'.
  unfold effective_config in Hq. rewrite (merge_layers_leaf _ _ default_empty_table) in Hq by done.
  unfold origins. fold (record_layers ∅ (get_layers self LowestPrecedenceFirst false)).
  set (ls := get_layers self LowestPrecedenceFirst false) in *. clearbody ls.
  destruct (deciding q (reverse ls)) as [l|] eqn:Hd; [|by destruct q].
  apply deciding_Some in Hd as (l1 & l2 & Hls & Hc & Hm).
  apply (f_equal reverse) in Hls. rewrite reverse_involutive, reverse_app, reverse_cons, <- app_assoc in Hls.
  cbn [app] in Hls. subst ls. apply Forall_app in Hen as [_ [Hlw Hen]%Forall_cons].
  apply Forall_app in Hdots' as [_ [Hld Hdots']%Forall_cons].
  assert (Hx : scalar_at (q ++ r) (config l) = Some x) by by rewrite (leaf_scalar_at _ _ _ _ Hq).
  assert (Hnone : ∀ m, m ∈ reverse l1 → q ++ r ∉ scalar_paths (config m)).
  { intros m Hin Hps. rewrite Forall_forall in Hen. apply paths_covers in Hps; [|by apply Hen].
    rewrite Hm in Hps; [done|by apply elem_of_reverse]. }
  exists (reverse l2), l, (reverse l1). split_and!; [done| |done|].
  - unfold record_layers. rewrite foldl_app. apply origin_of_last; [done|by eapply scalar_at_paths|].
    intros m p' Hin Hp' Hne Hj. apply (Hnone m Hin). rewrite Forall_forall in Hdots'.
    assert (Hdm := Hdots' m Hin). unfold no_dots in Hdm, Hld. rewrite Forall_forall in Hdm, Hld.
    assert (Hdp := Hld _ (scalar_at_paths _ _ _ Hx)). assert (Hdp' := Hdm p' Hp').
    rewrite <- (split_join DOT (q ++ r) Hp Hdp), <- Hj. by rewrite (split_join DOT p' Hne Hdp').
  - intros m Hin. destruct (scalar_at (q ++ r) (config m)) eqn:E; [|done].
    by apply scalar_at_paths, (Hnone m Hin) in E.
Qed.
End Origins.

(** *** The order of the layers *)
Definition project_folder (l : ConfigLayerEntry) : option AbsolutePathBuf :=
  match name l with Project d => Some d | _ => None end.
Definition is_user (l : ConfigLayerEntry) : bool := match name l with User _ => true | _ => false end.

(** A project folder follows another one: it is in its parent directory or
    below, and is not the same. *)
Definition follows (previous current : AbsolutePathBuf) : Prop :=
  previous ≠ current ∧ ∃ dir, parent previous = Some dir ∧ dir ∈ ancestors current.

Fixpoint chain (previous : option AbsolutePathBuf) (folders : list AbsolutePathBuf) : Prop :=
  match folders with
  | [] => True
  | d :: folders =>
      match previous with Some previous => follows previous d | None => True end ∧ chain (Some d) folders
  end.

Fixpoint user_positions (n : nat) (ls : list ConfigLayerEntry) : list nat :=
  match ls with
  | [] => []
  | l :: ls => (if is_user l then [n] else []) ++ user_positions (S n) ls
  end.

Lemma verify_layers_ok n ls u previous u' :
  verify_layers n ls u previous = Ok u' ↔
  chain previous (omap project_folder ls) ∧
  ((user_positions n ls = [] ∧ u' = u) ∨ (∃ i, user_positions n ls = [i] ∧ u = None ∧ u' = Some i)).
Proof.
  revert n u previous. induction ls as [|l ls IH]; intros n u previous; cbn.
  { naive_solver. }
  unfold verify_layer, project_folder, is_user. destruct (name l) eqn:En; cbn;
    try (rewrite IH; unfold project_folder; done).
  - destruct u; cbn; [naive_solver|]. rewrite IH. unfold project_folder. split.
    + intros [Hc [[Hr ->]|(i & _ & [=] & _)]]. split; [done|]. right. exists n. by rewrite Hr.
    + intros [Hc [[[=] _]|(i & Hi & _ & ->)]]. injection Hi as <- Hr. split; [done|]. by left.
  - destruct previous as [prev|]; cbn; [|rewrite IH; unfold project_folder; naive_solver].
    unfold follows. destruct (parent prev) as [dir|]; cbn; [|naive_solver].
    destruct (decide (prev = dot_codex_folder)) as [Heq|Heq].
    { rewrite bool_decide_eq_true_2 by done. cbn. naive_solver. }
    rewrite bool_decide_eq_false_2 by done. cbn.
    destruct (existsb (λ a, bool_decide (a = dir)) (ancestors dot_codex_folder)) eqn:Ex; cbn.
    + rewrite IH. unfold project_folder. apply existsb_exists in Ex as (a & Ha & ->%bool_decide_eq_true).
      apply list_elem_of_In in Ha. naive_solver.
    + split; [done|]. intros [((_ & dir' & [= <-] & Hin) & _) _].
      assert (existsb (λ a, bool_decide (a = dir)) (ancestors dot_codex_folder) = true); [|congruence].
      apply existsb_exists. exists dir. split; [by apply list_elem_of_In|by apply bool_decide_eq_true].
Qed.

Lemma is_sorted_spec l :
  is_sorted l = true ↔ StronglySorted (λ a b, precedence a ≤ precedence b)%Z l.
Proof.
  assert (Transitive (λ a b, precedence a ≤ precedence b)%Z) by (intros ???; lia).
  induction l as [|a l IH]; [split; [constructor|done]|]. cbn [is_sorted].
  rewrite andb_true_iff, IH, StronglySorted_cons. split.
  - intros [Hh Hl]. split; [|done]. destruct l as [|b l]; [constructor|]. apply Z.leb_le in Hh.
    apply StronglySorted_cons in Hl as [Hb _]. constructor; [done|].
    eapply Forall_impl; [done|]. cbn. lia.
  - intros [Hh Hl]. split; [|done]. destruct l as [|b l]; [done|]. apply Z.leb_le. by inversion Hh.
Qed.

Lemma user_layer_positions_app n l1 l2 :
  user_positions n (l1 ++ l2) = user_positions n l1 ++ user_positions (n + length l1) l2.
Proof.
  revert n. induction l1 as [|l l1 IH]; intros n; cbn; [by rewrite Nat.add_0_r|].
  rewrite IH, <- app_assoc. by replace (S n + length l1) with (n + S (length l1)) by lia.
Qed.

Lemma user_positions_nil n l : user_positions n l = [] ↔ ∀ x, x ∈ l → is_user x = false.
Proof.
  revert n. induction l as [|x l IH]; intros n; cbn; [split; [by intros _ ? ?%not_elem_of_nil|done]|].
  destruct (is_user x) eqn:E; cbn.
  - split; [done|]. intros H. rewrite (H x) in E; [done|by left].
  - rewrite IH. set_solver.
Qed.

Lemma user_position_lookup n l i rest :
  user_positions n l = i :: rest → ∃ j x, i = n + j ∧ l !! j = Some x ∧ is_user x = true.
Proof.
  revert n. induction l as [|x l IH]; intros n; cbn; [done|]. destruct (is_user x) eqn:E; cbn.
  - intros [= <- _]. by exists 0, x.
  - intros (j & y & -> & Hy & Hu)%IH. exists (S j), y. split; [lia|done].
Qed.

(** The conditions a stack satisfies. *)
Definition layers_ordered (ls : list ConfigLayerEntry) (u : option nat) : Prop :=
  StronglySorted (λ a b, precedence a ≤ precedence b)%Z (name <$> ls) ∧
  chain None (omap project_folder ls) ∧
  ((user_positions 0 ls = [] ∧ u = None) ∨ (∃ i, user_positions 0 ls = [i] ∧ u = Some i)).

Lemma verify_layer_ordering_ok ls u : verify_layer_ordering ls = Ok u ↔ layers_ordered ls u.
Proof.
  unfold verify_layer_ordering, layers_ordered. rewrite <- is_sorted_spec.
  destruct (is_sorted (name <$> ls)); cbn; [|naive_solver]. rewrite verify_layers_ok. naive_solver.
Qed.

(** The user layer in place of another one, or at its place. *)
Lemma replace_user_ordered l1 x y l2 u :
  is_user x = true → is_user y = true →
  layers_ordered (l1 ++ x :: l2) u → layers_ordered (l1 ++ y :: l2) u.
Proof.
  intros Hx Hy. unfold layers_ordered.
  assert (Hp : precedence (name x) = precedence (name y)).
  { unfold is_user in *. by destruct (name x), (name y). }
  assert (Hf : project_folder x = None ∧ project_folder y = None).
  { unfold is_user, project_folder in *. by destruct (name x), (name y). }
  destruct Hf as [Hfx Hfy].
  rewrite !omap_app, !user_layer_positions_app, !fmap_app. cbn [omap list_omap user_positions fmap list_fmap].
  cbn. rewrite Hfx, Hfy, Hx, Hy. intros (Hs & Hc & Hu). split_and!; [|done..].
  rewrite StronglySorted_app in Hs |- *. rewrite StronglySorted_cons in Hs |- *.
  destruct Hs as (H12 & H1 & Hx2 & H2). split_and!; try done.
  - intros a b Ha Hb. rewrite elem_of_cons in Hb. destruct Hb as [->|Hb]; [|apply H12; set_solver].
    rewrite <- Hp. apply H12; set_solver.
  - by rewrite <- Hp.
Qed.

Lemma insert_user_ordered l1 y l2 :
  is_user y = true → layers_ordered (l1 ++ l2) None →
  (∀ x, x ∈ l1 → precedence (name x) ≤ precedence (name y))%Z →
  (∀ x, x ∈ l2 → precedence (name y) ≤ precedence (name x))%Z →
  layers_ordered (l1 ++ y :: l2) (Some (length l1)).
Proof.
  intros Hy (Hs & Hc & Hu) H1 H2. destruct Hu as [[Hu _]|(i & _ & [=])]. unfold layers_ordered.
  rewrite user_layer_positions_app in Hu. apply app_eq_nil in Hu as [Hu1 Hu2].
  assert (Hfy : project_folder y = None) by (unfold is_user, project_folder in *; by destruct (name y)).
  rewrite !omap_app, !user_layer_positions_app, !fmap_app in *. cbn in *. rewrite Hfy, Hy, Hu1.
  assert (Hu2' : user_positions (S (length l1)) l2 = []).
  { rewrite user_positions_nil in Hu2 |- *. done. }
  rewrite Hu2'. rewrite StronglySorted_app in Hs |- *. rewrite StronglySorted_cons.
  destruct Hs as (H12 & Hs1 & Hs2). split_and!; try done.
  - intros a b (x & -> & Hx)%list_elem_of_fmap Hb. rewrite elem_of_cons in Hb.
    destruct Hb as [->|(z & -> & Hz)%list_elem_of_fmap]; [by apply H1|].
    transitivity (precedence (name y)); auto.
  - apply Forall_forall. intros b (z & -> & Hz)%list_elem_of_fmap. by apply H2.
  - right. by exists (length l1).
Qed.

Section UserLayer.
Context {Requirements RequirementsToml : Type} (version_for_toml : TomlValue → str).

Lemma placed_user (requirements : Requirements) (requirements_toml : RequirementsToml) l1 x l2 y :
  Forall (λ z, is_user z = true) x → is_user y = true →
  layers_ordered (l1 ++ y :: l2) (Some (length l1)) →
  let self' := {| layers := l1 ++ y :: l2; user_layer_index := Some (length l1);
    requirements := requirements; requirements_toml := requirements_toml |} in
  stack_new (layers self') requirements requirements_toml = Ok self' ∧
  get_user_layer self' = Some y ∧
  filter (λ l, is_user l = false) (layers self') = filter (λ l, is_user l = false) (l1 ++ x ++ l2).
Proof.
  intros Hx Hy Ho. cbn. unfold stack_new. apply verify_layer_ordering_ok in Ho as ->. split_and!; [done| |].
  - unfold get_user_layer. cbn. by apply list_lookup_middle.
  - rewrite !filter_app, filter_cons_False by by rewrite Hy. f_equal.
    induction Hx as [|z x Hz Hx IH]; [done|].
    by rewrite filter_cons_False by by rewrite Hz.
Qed.

(** Replacing or inserting the user's configuration in a stack never panics
    and gives a stack that passes the same checks: layers by precedence, one
    user layer, which is the new one, project layers from the root down; the
    other layers stay as they are, in their order. *)
Theorem with_user_config_ordered ls (requirements : Requirements) (requirements_toml : RequirementsToml)
    self config_toml user_config :
  stack_new ls requirements requirements_toml = Ok self →
  ∃ self', with_user_config version_for_toml self config_toml user_config = Ok self' ∧
    stack_new (layers self') requirements requirements_toml = Ok self' ∧
    get_user_layer self' = Some (layer_new version_for_toml (User config_toml) user_config) ∧
    filter (λ l, is_user l = false) (layers self') = filter (λ l, is_user l = false) (layers self).
Proof.
  unfold stack_new at 1. destruct (verify_layer_ordering ls) as [u| | |] eqn:E; try done. cbn. intros [= <-].
  apply verify_layer_ordering_ok in E. unfold with_user_config. cbn [user_layer_index layers].
  set (y := layer_new version_for_toml (User config_toml) user_config).
  assert (Hy : is_user y = true) by done. assert (Hp : precedence (name y) = 20%Z) by done. clearbody y.
  destruct u as [i|].
  - assert (Hi : ∃ l1 x l2, ls = l1 ++ x :: l2 ∧ i = length l1 ∧ is_user x = true).
    { destruct E as (_ & _ & [[_ [=]]|(j & Hj & [= <-])]).
      apply user_position_lookup in Hj as (j' & x & -> & Hx & Hu). cbn in *.
      apply list_elem_of_split_length in Hx as (l1 & l2 & -> & ->). by exists l1, x, l2. }
    destruct Hi as (l1 & x & l2 & -> & -> & Hx).
    rewrite (proj2 (Nat.ltb_lt _ _)) by (rewrite length_app; cbn; lia).
    rewrite insert_app_r_alt, Nat.sub_diag by lia. cbn [insert list_insert].
    eexists. split; [done|]. apply (placed_user _ _ _ [x]); [by constructor|done|].
    by eapply replace_user_ordered.
  - destruct (list_find _ ls) as [[i x]|] eqn:Ef.
    + apply list_find_Some in Ef as (Hi & Hx & Hbefore).
      apply list_elem_of_split_length in Hi as (l1 & l2 & -> & ->).
      rewrite take_app_length, drop_app_length.
      eexists. split; [done|]. apply (placed_user _ _ _ []); [done..|].
      apply insert_user_ordered; [done..| |].
      * intros z (j & Hj)%list_elem_of_lookup. apply lookup_lt_Some in Hj as Hlt.
        assert (¬ (precedence (name y) < precedence (name z))%Z); [|lia].
        eapply Hbefore; [by apply lookup_app_l_Some|done].
      * destruct E as (Hs & _). rewrite fmap_app, fmap_cons in Hs.
        apply StronglySorted_app_1_r in Hs. apply StronglySorted_cons in Hs as [Hf _].
        intros z [->|Hz]%elem_of_cons; [lia|]. rewrite Forall_fmap, Forall_forall in Hf.
        specialize (Hf z Hz). cbn in Hf. lia.
    + eexists. split; [done|]. assert (Hn := placed_user requirements requirements_toml ls [] [] y). rewrite app_nil_r in Hn.
      apply Hn; [done..|]. apply insert_user_ordered; [done|by rewrite app_nil_r| |].
      * intros z Hz. apply list_find_None in Ef. rewrite Forall_forall in Ef. specialize (Ef z Hz). cbn in Ef. lia.
      * by intros z ?%not_elem_of_nil.
Qed.
End UserLayer.

(** *** The effective configuration of a stack that was accepted *)

(** The sources of settings, a later one overriding an earlier one. *)
Definition rank (source : ConfigLayerSource) : nat :=
  match source with
  | Mdm _ _ => 0
  | System _ => 1
  | User _ => 2
  | Project _ => 3
  | SessionFlags => 4
  | LegacyManagedConfigTomlFromFile _ => 5
  | LegacyManagedConfigTomlFromMdm => 6
  end.

Lemma rank_precedence a b : (precedence a ≤ precedence b)%Z → rank a ≤ rank b.
Proof. destruct a, b; cbn; lia. Qed.

(** An enabled layer says something about the path: it has something there, or
    a value that is not a table on the way. *)
Definition says (p : list str) (layer : ConfigLayerEntry) : Prop :=
  disabled_reason layer = None ∧
  ∃ q r v, p = q ++ r ∧ get q (config layer) = Some v ∧ (r = [] ∨ is_table v = false).

Lemma covers_iff p v :
  covers p v = true ↔ ∃ q r x, p = q ++ r ∧ get q v = Some x ∧ (r = [] ∨ is_table x = false).
Proof.
  revert v. induction p as [|k p IH]; intros v.
  { split; [by exists [], [], v; auto|done]. }
  cbn [covers]. destruct (is_table v) eqn:E.
  - destruct v as [| | | | | |t]; try done. split.
    + intros Hc. destruct (table_get k t) as [x|] eqn:Ek; [|done].
      apply IH in Hc as (q & r & y & -> & Hq & Hr). exists (k :: q), r, y. cbn. by rewrite Ek.
    + intros (q & r & y & Hp & Hq & Hr). destruct q as [|k' q]; cbn in Hp, Hq.
      { injection Hq as <-. subst r. by destruct Hr. }
      injection Hp as <- ->. destruct (table_get k t) as [x|]; [|done]. cbn in Hq.
      apply IH. eauto 6.
  - split; [|by destruct v]. intros _. exists [], (k :: p), v. auto.
Qed.

Lemma says_covers p layer : says p layer ↔ is_disabled layer = false ∧ covers p (config layer) = true.
Proof. unfold says, is_disabled. rewrite covers_iff. destruct (disabled_reason layer); naive_solver. Qed.

Lemma deciding_enabled p ls layer :
  deciding p (reverse (List.filter (λ layer, negb (is_disabled layer)) ls)) = Some layer ↔
  ∃ before after, ls = before ++ layer :: after ∧ says p layer ∧ ∀ other, other ∈ after → ¬ says p other.
Proof.
  induction ls as [|x ls IH] using rev_ind.
  { split; [done|]. by intros ([] & ? & ? & _). }
  rewrite List.filter_app, reverse_app. cbn [List.filter].
  assert (Hx : (∃ before after, ls ++ [x] = before ++ layer :: after ∧ says p layer ∧
      ∀ other, other ∈ after → ¬ says p other) ↔
    (says p x ∧ layer = x) ∨ (¬ says p x ∧ ∃ before after, ls = before ++ layer :: after ∧
      says p layer ∧ ∀ other, other ∈ after → ¬ says p other)).
  { split.
    - intros (before & after & E & Hs & Hno). destruct after as [|y after _] using rev_ind.
      + apply app_inj_tail in E as [-> ->]. by left.
      + rewrite app_comm_cons, app_assoc in E. apply app_inj_tail in E as [-> ->]. right.
        split; [apply Hno; set_solver|]. exists before, after. split_and!; [done..|]. set_solver.
    - intros [[Hs ->]|(Hn & before & after & -> & Hs & Hno)].
      + exists ls, []. split_and!; [done..|]. by intros ? ?%not_elem_of_nil.
      + exists before, (after ++ [x]). rewrite <-app_assoc. split_and!; [done..|]. set_solver. }
  rewrite Hx, <-IH. rewrite says_covers.
  destruct (is_disabled x); cbn [negb reverse app]; [naive_solver|].
  rewrite reverse_singleton. cbn [app]. rewrite deciding_cons.
  destruct (covers p (config x)); naive_solver.
Qed.

(** C30: in a stack of layers that passes the checks, a setting of the effective
    configuration is that of the enabled layer of highest precedence that says
    anything about its path, having something there or a value that is not a
    table on the way: no enabled layer after it says anything, and the enabled
    layers before it have no higher source, in the order of mobile management,
    system, user, project, session flags and the two legacy managed files.
    Layers are tables without repeated keys. *)
Theorem effective_config_spec {Requirements RequirementsToml : Type} (ls : list ConfigLayerEntry)
    (requirements : Requirements) (requirements_toml : RequirementsToml) self p v :
  Forall (λ l, toml_wf (config l)) ls → stack_new ls requirements requirements_toml = Ok self →
  leaf_at p (effective_config self) = Some v ↔
  ∃ before layer after, ls = before ++ layer :: after ∧ says p layer ∧
    leaf_at p (config layer) = Some v ∧
    (∀ other, other ∈ after → ¬ says p other) ∧
    (∀ other, other ∈ before → rank (name other) ≤ rank (name layer)).
Proof.
  intros Hwf Hnew. unfold stack_new in Hnew. destruct (verify_layer_ordering ls) as [u| | |] eqn:E; try done.
  injection Hnew as <-. apply verify_layer_ordering_ok in E as (Hsorted & _).
  rewrite effective_leaf by done. cbn [layers]. rewrite bind_Some. setoid_rewrite deciding_enabled.
  split.
  - intros (layer & (before & after & -> & Hs & Hno) & Hv). exists before, layer, after.
    split_and!; [done..|]. intros other Hin. apply rank_precedence.
    rewrite fmap_app, StronglySorted_app in Hsorted. destruct Hsorted as (Hall & _ & _).
    apply Hall; [by apply list_elem_of_fmap_2|by left].
  - intros (before & layer & after & -> & Hs & Hv & Hno & _). exists layer. split; [|done]. eauto.
Qed.

(** ** Sample stacks *)
Definition sample_version (v : TomlValue) : str := lit "sha256:0".
Definition home_file : AbsolutePathBuf := path_of_str (lit "/home/u/.codex/config.toml").
Definition etc_file : AbsolutePathBuf := path_of_str (lit "/etc/codex/config.toml").
Definition key (k : string) (v : TomlValue) : str * TomlValue := (lit k, v).

Definition sample_stack (ls : list ConfigLayerEntry) : ConfigLayerStack := {|
  layers := ls; user_layer_index := None; requirements := tt; requirements_toml := tt |}.
Definition user_layer (v : TomlValue) : ConfigLayerEntry := layer_new sample_version (User home_file) v.
Definition flags_layer (v : TomlValue) : ConfigLayerEntry := layer_new sample_version SessionFlags v.

Definition sample_user : TomlValue :=
  TTable [key "model" (TString (lit "m1"));
          key "tools" (TTable [key "web_search" (TBoolean true); key "view_image" (TBoolean false)])].
Definition sample_flags : TomlValue := build_cli_overrides_layer [(lit "tools.web_search", TBoolean false)].
Definition sample : ConfigLayerStack := sample_stack [user_layer sample_user; flags_layer sample_flags].

Ltac wf_value := repeat (first [progress cbn | split | constructor | set_solver]).

Lemma sample_wf : stack_wf sample.
Proof. repeat constructor; wf_value. Qed.

Lemma effective_config_witness :
  ∃ before layer after, layers sample = before ++ layer :: after ∧
    says [lit "tools"; lit "web_search"] layer ∧
    leaf_at [lit "tools"; lit "web_search"] (config layer) = Some (TBoolean false) ∧
    (∀ other, other ∈ after → ¬ says [lit "tools"; lit "web_search"] other) ∧
    (∀ other, other ∈ before → rank (name other) ≤ rank (name layer)).
Proof.
  apply (effective_config_spec (layers sample) tt tt
    {| layers := layers sample; user_layer_index := Some 0; requirements := tt; requirements_toml := tt |}
    [lit "tools"; lit "web_search"]);
    [exact sample_wf|by vm_compute|by vm_compute].
Defined.

Lemma cli_override_witness :
  leaf_at (RustStr.split DOT (lit "tools.web_search")) (effective_config sample) = Some (TBoolean false).
Proof.
  apply (cli_override_takes_effect sample [user_layer sample_user] (flags_layer sample_flags) []
    (lit "tools.web_search") (TBoolean false) []); [apply sample_wf|done|done|done|constructor].
Defined.

Lemma origins_witness : ∃ layer,
  origins sample !! lit "tools.view_image" = Some (metadata layer) ∧
  scalar_at [lit "tools"; lit "view_image"] (config layer) = Some (TBoolean false).
Proof.
  destruct (origins_spec sample [lit "tools"; lit "view_image"] (TBoolean false))
    as (l1 & layer & l2 & _ & Ho & Hs & _); [apply sample_wf| |done|by vm_compute|by exists layer].
  repeat constructor; vm_compute; set_solver.
Defined.

Lemma with_user_config_witness :
  ∃ self', stack_new (layers self') tt tt = Ok self' ∧
    get_user_layer self' = Some (layer_new sample_version (User home_file) sample_user).
Proof.
  destruct (with_user_config_ordered sample_version [layer_new sample_version (System etc_file) default_empty_table;
      flags_layer sample_flags] tt tt
    (sample_stack [layer_new sample_version (System etc_file) default_empty_table; flags_layer sample_flags])
    home_file sample_user) as (self' & _ & Hn & Hu & _); [by vm_compute|]. by exists self'.
Defined.

(** An origin outlives its setting: a layer that replaces a table by a scalar
    leaves the origins of what was below the table. *)
Example stale_origins :
  let stack := sample_stack [user_layer (TTable [key "a" (TTable [key "b" (TInteger 1)])]);
                             flags_layer (TTable [key "a" (TInteger 5)])] in
  leaf_at [lit "a"; lit "b"] (effective_config stack) = None ∧
  meta_name <$> origins stack !! lit "a.b" = Some (User home_file).
Proof. by vm_compute. Qed.

(** A key with a dot and a nested key share an origin. *)
Example origins_confuse_dotted_keys :
  let stack := sample_stack [user_layer (TTable [key "a.b" (TInteger 1)]);
                             flags_layer (TTable [key "a" (TTable [key "b" (TInteger 2)])])] in
  leaf_at [lit "a.b"] (effective_config stack) = Some (TInteger 1) ∧
  meta_name <$> origins stack !! lit "a.b" = Some SessionFlags.
Proof. by vm_compute. Qed.
