(* ===== verification/ConfigRequirements.v ===== *)
(** * Requirements: [config/src/constraint.rs], [config/src/config_requirements.rs],
      [config/src/requirements_exec_policy.rs], and how [core/src/config/mod.rs]
      applies them

    An administrator's requirements come from several sources, of which the
    first to set a field wins.  They become constrained values: settings with a
    validator that every later change passes.  The rules among them become an
    overlay of the exec policy. *)
From stdpp Require Import base tactics option list gmap sets strings.
From S2P Require Import Prelude RustStr Paths Permissions Safety ExecApproval ShellTool ExecPolicy.
From stdpp Require Import list.

#[export] Instance GranularApprovalConfig_eq_dec : EqDecision GranularApprovalConfig.
Proof. solve_decision. Defined.
#[export] Instance AskForApproval_eq_dec : EqDecision AskForApproval.
Proof. solve_decision. Defined.

(** ** Sources and errors *)
Inductive RequirementSource : Type :=
  | SourceUnknown
  | MdmManagedPreferences (domain key : str)
  | CloudRequirements
  | SystemRequirementsToml (file : AbsolutePathBuf)
  | LegacyManagedFromFile (file : AbsolutePathBuf)
  | LegacyManagedFromMdm.

Inductive ConstraintError : Type :=
  | InvalidValue (field_name candidate allowed : str) (requirement_source : RequirementSource)
  | EmptyField (field_name : str)
  | ExecPolicyParse (requirement_source : RequirementSource) (reason : str).

Abbreviation ConstraintResult := (outcome ConstraintError).

(** ** Constrained values *)
Section Constrained.
Context {T : Type}.

Record Constrained : Type := {
  value : T;
  validator : T → ConstraintResult unit;
  normalizer : option (T → T);
}.

Definition constrained_new (initial_value : T) (validator : T → ConstraintResult unit) :
    ConstraintResult Constrained :=
  _ ← validator initial_value;
  Ok {| value := initial_value; validator := validator; normalizer := None |}.

Definition normalized (initial_value : T) (normalizer : T → T) : ConstraintResult Constrained :=
  let validator := λ _ : T, Ok () in
  let normalized := normalizer initial_value in
  _ ← (validator normalized : ConstraintResult unit);
  Ok {| value := normalized; validator := validator; normalizer := Some normalizer |}.

Definition allow_any (initial_value : T) : Constrained :=
  {| value := initial_value; validator := λ _, Ok (); normalizer := None |}.

Definition allow_only `{EqDecision T} (debug : T → str) (only_value : T) : Constrained :=
  {| value := only_value;
     validator := λ candidate,
       if bool_decide (candidate = only_value) then Ok ()
       else Err (InvalidValue (lit "<unknown>") (debug candidate)
                   (lit "[" ++ debug only_value ++ lit "]") SourceUnknown);
     normalizer := None |}.

Definition can_set (self : Constrained) (candidate : T) : ConstraintResult unit :=
  validator self candidate.

(** The result of [set] and the value after it. *)
Definition set (self : Constrained) (v : T) : ConstraintResult unit * Constrained :=
  let v := match normalizer self with Some f => f v | None => v end in
  match validator self v with
  | Ok _ => (Ok (), {| value := v; validator := validator self; normalizer := normalizer self |})
  | Err e => (Err e, self)
  | Panic => (Panic, self)
  | NoFuel => (NoFuel, self)
  end.
End Constrained.
Arguments Constrained : clear implicits.

Record ConstrainedWithSource {T : Type} : Type := {
  constrained : Constrained T;
  source : option RequirementSource;
}.
Arguments ConstrainedWithSource : clear implicits.

(** ** Requirements as written *)
Inductive WebSearchMode : Type := WebDisabled | WebCached | WebLive.
#[export] Instance WebSearchMode_eq_dec : EqDecision WebSearchMode.
Proof. solve_decision. Defined.
(** [WebSearchModeRequirement] has the same three values, in this order. *)
Abbreviation WebSearchModeRequirement := WebSearchMode.

Inductive SandboxModeRequirement : Type :=
  | ModeReadOnly | ModeWorkspaceWrite | ModeDangerFullAccess | ModeExternalSandbox.
#[export] Instance SandboxModeRequirement_eq_dec : EqDecision SandboxModeRequirement.
Proof. solve_decision. Defined.

Inductive SandboxMode : Type := ConfigReadOnly | ConfigWorkspaceWrite | ConfigDangerFullAccess.

Definition requirement_of_mode (mode : SandboxMode) : SandboxModeRequirement :=
  match mode with
  | ConfigReadOnly => ModeReadOnly
  | ConfigWorkspaceWrite => ModeWorkspaceWrite
  | ConfigDangerFullAccess => ModeDangerFullAccess
  end.

Inductive ResidencyRequirement : Type := Us.
#[export] Instance ResidencyRequirement_eq_dec : EqDecision ResidencyRequirement.
Proof. solve_decision. Defined.

Inductive McpServerIdentity : Type := IdentityCommand (command : str) | IdentityUrl (url : str).
Record McpServerRequirement : Type := { identity : McpServerIdentity }.

Record NetworkRequirementsToml : Type := {
  net_enabled : option bool;
  net_http_port : option Z;
  net_socks_port : option Z;
  net_allow_upstream_proxy : option bool;
  net_dangerously_allow_non_loopback_proxy : option bool;
  net_dangerously_allow_all_unix_sockets : option bool;
  net_allowed_domains : option (list str);
  net_managed_allowed_domains_only : option bool;
  net_denied_domains : option (list str);
  net_allow_unix_sockets : option (list str);
  net_allow_local_binding : option bool;
}.

(** [NetworkConstraints] has the same fields, which [From] copies. *)
Abbreviation NetworkConstraints := NetworkRequirementsToml.

Record FeatureRequirementsToml : Type := { entries : gmap str bool }.
Definition features_is_empty (self : FeatureRequirementsToml) : bool := bool_decide (entries self = ∅).

(** An app maps to its [enabled]. *)
Record AppsRequirementsToml : Type := { apps : gmap str (option bool) }.
Definition apps_is_empty (self : AppsRequirementsToml) : bool :=
  forallb (λ e, match e.2 with None => true | Some _ => false end) (map_to_list (apps self)).

Definition merge_enabled (higher_precedence lower_precedence : option bool) : option bool :=
  if bool_decide (higher_precedence = Some false) || bool_decide (lower_precedence = Some false)
  then Some false
  else match higher_precedence with Some b => Some b | None => lower_precedence end.

Definition merge_enablement_settings_descending (base incoming : AppsRequirementsToml) :
    AppsRequirementsToml :=
  {| apps := merge (λ b i, match i with
                           | Some lower => Some (merge_enabled (default None b) lower)
                           | None => b
                           end) (apps base) (apps incoming) |}.

(** *** Rules *)
Record RequirementsExecPolicyPatternTokenToml : Type := {
  token : option str;
  any_of : option (list str);
}.
Inductive RequirementsExecPolicyDecisionToml : Type := TomlAllow | TomlPrompt | TomlForbidden.
Record RequirementsExecPolicyPrefixRuleToml : Type := {
  rule_pattern : list RequirementsExecPolicyPatternTokenToml;
  toml_decision : option RequirementsExecPolicyDecisionToml;
  toml_justification : option str;
}.
Record RequirementsExecPolicyToml : Type := {
  prefix_rules : list RequirementsExecPolicyPrefixRuleToml;
}.

Definition as_decision (self : RequirementsExecPolicyDecisionToml) : ExecPolicy.Decision :=
  match self with TomlAllow => Allow | TomlPrompt => Prompt | TomlForbidden => Forbidden end.

Inductive RequirementsExecPolicyParseError : Type :=
  | EmptyPrefixRules
  | EmptyPattern (rule_index : nat)
  | InvalidPatternToken (rule_index token_index : nat) (reason : str)
  | EmptyJustification (rule_index : nat)
  | MissingDecision (rule_index : nat)
  | AllowDecisionNotAllowed (rule_index : nat).

Definition parse_pattern_token (tok : RequirementsExecPolicyPatternTokenToml)
    (rule_index token_index : nat) : outcome RequirementsExecPolicyParseError PatternToken :=
  let invalid reason := Err (InvalidPatternToken rule_index token_index (lit reason)) in
  match token tok, any_of tok with
  | Some single, None =>
      if bool_decide (trim single = []) then invalid "token cannot be empty" else Ok (Single single)
  | None, Some alternatives =>
      if bool_decide (alternatives = []) then invalid "any_of cannot be empty"
      else if existsb (λ alt, bool_decide (trim alt = [])) alternatives
      then invalid "any_of cannot include empty tokens"
      else Ok (Alts alternatives)
  | Some _, Some _ => invalid "set either token or any_of, not both"
  | None, None => invalid "set either token or any_of"
  end.

Fixpoint parse_pattern_tokens (toks : list RequirementsExecPolicyPatternTokenToml)
    (rule_index token_index : nat) : outcome RequirementsExecPolicyParseError (list PatternToken) :=
  match toks with
  | [] => Ok []
  | tok :: toks =>
      t ← parse_pattern_token tok rule_index token_index;
      ts ← parse_pattern_tokens toks rule_index (S token_index);
      Ok (t :: ts)
  end.

(** One rule of the list: the rules it adds, one for each first token. *)
Definition rule_of_toml (rule_index : nat) (rule : RequirementsExecPolicyPrefixRuleToml)
    (rules_by_program : gmap str (list PrefixRule)) :
    outcome RequirementsExecPolicyParseError (gmap str (list PrefixRule)) :=
  if match toml_justification rule with Some j => bool_decide (trim j = []) | None => false end
  then Err (EmptyJustification rule_index)
  else if bool_decide (length (rule_pattern rule) = 0) then Err (EmptyPattern rule_index)
  else
    pattern_tokens ← parse_pattern_tokens (rule_pattern rule) rule_index 0;
    decision ←
      match toml_decision rule with
      | Some TomlAllow => Err (AllowDecisionNotAllowed rule_index)
      | Some decision => Ok (as_decision decision)
      | None => Err (MissingDecision rule_index)
      end;
    match pattern_tokens with
    | [] => Err (EmptyPattern rule_index)
    | first_token :: remaining_tokens =>
        Ok (foldl (λ m head, insert_rule m head
              {| pattern := {| first := head; rest := remaining_tokens |};
                 rule_decision := decision;
                 rule_justification := toml_justification rule |})
            rules_by_program (alternatives first_token))
    end.

Fixpoint rules_of_toml (rule_index : nat) (rules : list RequirementsExecPolicyPrefixRuleToml)
    (rules_by_program : gmap str (list PrefixRule)) :
    outcome RequirementsExecPolicyParseError (gmap str (list PrefixRule)) :=
  match rules with
  | [] => Ok rules_by_program
  | rule :: rules =>
      rules_by_program ← rule_of_toml rule_index rule rules_by_program;
      rules_of_toml (S rule_index) rules rules_by_program
  end.

(** [Policy::new]. *)
Definition policy_new (rules : gmap str (list PrefixRule)) : Policy :=
  {| rules_by_program := rules; network_rules := []; host_executables_by_name := ∅ |}.

Definition to_policy (self : RequirementsExecPolicyToml) :
    outcome RequirementsExecPolicyParseError Policy :=
  if bool_decide (length (prefix_rules self) = 0) then Err EmptyPrefixRules
  else policy_new <$> rules_of_toml 0 (prefix_rules self) ∅.

(** [Display] of the errors. *)
Definition parse_error_to_string (e : RequirementsExecPolicyParseError) : str :=
  let at_ i := lit "rules prefix_rule at index " ++ show_nat i in
  match e with
  | EmptyPrefixRules => lit "rules prefix_rules cannot be empty"
  | EmptyPattern i => at_ i ++ lit " has an empty pattern"
  | InvalidPatternToken i j reason =>
      at_ i ++ lit " has an invalid pattern token at index " ++ show_nat j ++ lit ": " ++ reason
  | EmptyJustification i => at_ i ++ lit " has an empty justification"
  | MissingDecision i => at_ i ++ lit " is missing a decision"
  | AllowDecisionNotAllowed i =>
      at_ i ++ lit " has decision 'allow', which is not permitted in requirements.toml: Codex merges these rules with other config and uses the most restrictive result (use 'prompt' or 'forbidden')"
  end.

(** ** Merging sources *)
Record ConfigRequirementsToml : Type := {
  allowed_approval_policies : option (list AskForApproval);
  allowed_sandbox_modes : option (list SandboxModeRequirement);
  allowed_web_search_modes : option (list WebSearchModeRequirement);
  feature_requirements : option FeatureRequirementsToml;
  mcp_servers : option (gmap str McpServerRequirement);
  toml_apps : option AppsRequirementsToml;
  toml_rules : option RequirementsExecPolicyToml;
  enforce_residency : option ResidencyRequirement;
  network : option NetworkRequirementsToml;
}.

Definition requirements_toml_default : ConfigRequirementsToml := {|
  allowed_approval_policies := None; allowed_sandbox_modes := None; allowed_web_search_modes := None;
  feature_requirements := None; mcp_servers := None; toml_apps := None; toml_rules := None;
  enforce_residency := None; network := None |}.

Definition requirements_is_empty (self : ConfigRequirementsToml) : bool :=
  let none {A} (o : option A) := match o with None => true | Some _ => false end in
  none (allowed_approval_policies self) && none (allowed_sandbox_modes self)
  && none (allowed_web_search_modes self)
  && match feature_requirements self with Some f => features_is_empty f | None => true end
  && none (mcp_servers self)
  && match toml_apps self with Some a => apps_is_empty a | None => true end
  && none (toml_rules self) && none (enforce_residency self) && none (network self).

Record Sourced {T : Type} : Type := { sourced_value : T; sourced_from : RequirementSource }.
Arguments Sourced : clear implicits.
Definition sourced {T} (v : T) (s : RequirementSource) : Sourced T :=
  {| sourced_value := v; sourced_from := s |}.

Record ConfigRequirementsWithSources : Type := {
  ws_approval_policies : option (Sourced (list AskForApproval));
  ws_sandbox_modes : option (Sourced (list SandboxModeRequirement));
  ws_web_search_modes : option (Sourced (list WebSearchModeRequirement));
  ws_features : option (Sourced FeatureRequirementsToml);
  ws_mcp_servers : option (Sourced (gmap str McpServerRequirement));
  ws_apps : option (Sourced AppsRequirementsToml);
  ws_rules : option (Sourced RequirementsExecPolicyToml);
  ws_residency : option (Sourced ResidencyRequirement);
  ws_network : option (Sourced NetworkRequirementsToml);
}.

Definition with_sources_default : ConfigRequirementsWithSources := {|
  ws_approval_policies := None; ws_sandbox_modes := None; ws_web_search_modes := None;
  ws_features := None; ws_mcp_servers := None; ws_apps := None; ws_rules := None;
  ws_residency := None; ws_network := None |}.

(** The macro [fill_missing_take] on one field. *)
Definition fill_missing {T} (base : option (Sourced T)) (other : option T) (s : RequirementSource) :
    option (Sourced T) :=
  match base with
  | Some v => Some v
  | None => (λ v, sourced v s) <$> other
  end.

Definition merge_apps (base : option (Sourced AppsRequirementsToml)) (other : option AppsRequirementsToml)
    (s : RequirementSource) : option (Sourced AppsRequirementsToml) :=
  match other with
  | None => base
  | Some incoming_apps =>
      match base with
      | Some existing_apps =>
          Some (sourced (merge_enablement_settings_descending (sourced_value existing_apps) incoming_apps)
                  (sourced_from existing_apps))
      | None => Some (sourced incoming_apps s)
      end
  end.

Definition merge_unset_fields (self : ConfigRequirementsWithSources) (source : RequirementSource)
    (other : ConfigRequirementsToml) : ConfigRequirementsWithSources := {|
  ws_approval_policies := fill_missing (ws_approval_policies self) (allowed_approval_policies other) source;
  ws_sandbox_modes := fill_missing (ws_sandbox_modes self) (allowed_sandbox_modes other) source;
  ws_web_search_modes := fill_missing (ws_web_search_modes self) (allowed_web_search_modes other) source;
  ws_features := fill_missing (ws_features self) (feature_requirements other) source;
  ws_mcp_servers := fill_missing (ws_mcp_servers self) (mcp_servers other) source;
  ws_apps := merge_apps (ws_apps self) (toml_apps other) source;
  ws_rules := fill_missing (ws_rules self) (toml_rules other) source;
  ws_residency := fill_missing (ws_residency self) (enforce_residency other) source;
  ws_network := fill_missing (ws_network self) (network other) source |}.

Definition into_toml (self : ConfigRequirementsWithSources) : ConfigRequirementsToml := {|
  allowed_approval_policies := sourced_value <$> ws_approval_policies self;
  allowed_sandbox_modes := sourced_value <$> ws_sandbox_modes self;
  allowed_web_search_modes := sourced_value <$> ws_web_search_modes self;
  feature_requirements := sourced_value <$> ws_features self;
  mcp_servers := sourced_value <$> ws_mcp_servers self;
  toml_apps := sourced_value <$> ws_apps self;
  toml_rules := sourced_value <$> ws_rules self;
  enforce_residency := sourced_value <$> ws_residency self;
  network := sourced_value <$> ws_network self |}.

(** The legacy [managed_config.toml] as requirements. *)
Record LegacyManagedConfigToml : Type := {
  legacy_approval_policy : option AskForApproval;
  legacy_sandbox_mode : option SandboxMode;
}.
Definition requirements_from_legacy (legacy : LegacyManagedConfigToml) : ConfigRequirementsToml := {|
  allowed_approval_policies := (λ p, [p]) <$> legacy_approval_policy legacy;
  allowed_sandbox_modes :=
    (λ mode, let required_mode := requirement_of_mode mode in
       ModeReadOnly :: (if bool_decide (required_mode = ModeReadOnly) then [] else [required_mode]))
    <$> legacy_sandbox_mode legacy;
  allowed_web_search_modes := None; feature_requirements := None; mcp_servers := None;
  toml_apps := None; toml_rules := None; enforce_residency := None; network := None |}.

(** ** From requirements to constraints *)

(** [{:?}]. *)
Definition debug_list {A} (debug : A → str) (l : list A) : str :=
  lit "[" ++ RustStr.join (lit ", ") (debug <$> l) ++ lit "]".
Definition debug_sandbox_mode (m : SandboxModeRequirement) : str :=
  match m with
  | ModeReadOnly => lit "ReadOnly"
  | ModeWorkspaceWrite => lit "WorkspaceWrite"
  | ModeDangerFullAccess => lit "DangerFullAccess"
  | ModeExternalSandbox => lit "ExternalSandbox"
  end.
Definition debug_web_search (m : WebSearchMode) : str :=
  match m with WebDisabled => lit "Disabled" | WebCached => lit "Cached" | WebLive => lit "Live" end.
Definition debug_residency (r : option ResidencyRequirement) : str :=
  match r with Some Us => lit "Some(Us)" | None => lit "None" end.

Record ConfigRequirements : Type := {
  req_approval_policy : ConstrainedWithSource AskForApproval;
  req_sandbox_policy : ConstrainedWithSource SandboxPolicy;
  req_web_search_mode : ConstrainedWithSource WebSearchMode;
  req_features : option (Sourced FeatureRequirementsToml);
  req_mcp_servers : option (Sourced (gmap str McpServerRequirement));
  req_exec_policy : option (Sourced Policy);
  req_enforce_residency : ConstrainedWithSource (option ResidencyRequirement);
  req_network : option (Sourced NetworkConstraints);
}.

Definition unconstrained {T} (v : T) : ConstrainedWithSource T :=
  {| constrained := allow_any v; source := None |}.

(** [AskForApproval::default]. *)
Definition default_approval_policy : AskForApproval := OnRequest.

Definition requirements_default : ConfigRequirements := {|
  req_approval_policy := unconstrained default_approval_policy;
  req_sandbox_policy := unconstrained new_read_only_policy;
  req_web_search_mode := unconstrained WebCached;
  req_features := None; req_mcp_servers := None; req_exec_policy := None;
  req_enforce_residency := unconstrained None; req_network := None |}.

(** [Constrained::new] with its source. *)
Definition constrain {T} (initial_value : T) (validator : T → ConstraintResult unit)
    (source : RequirementSource) : ConstraintResult (ConstrainedWithSource T) :=
  c ← constrained_new initial_value validator;
  Ok {| constrained := c; source := Some source |}.

Definition constrain_approval_policy (allowed : option (Sourced (list AskForApproval))) :
    ConstraintResult (ConstrainedWithSource AskForApproval) :=
  match allowed with
  | Some s =>
      let policies := sourced_value s in
      match policies with
      | [] => Err (EmptyField (lit "allowed_approval_policies"))
      | initial_value :: _ =>
          constrain initial_value
            (λ candidate,
               if bool_decide (candidate ∈ policies) then Ok ()
               else Err (InvalidValue (lit "approval_policy") (debug_approval_policy candidate)
                           (debug_list debug_approval_policy policies) (sourced_from s)))
            (sourced_from s)
      end
  | None => Ok (unconstrained default_approval_policy)
  end.

Definition mode_of_policy (candidate : SandboxPolicy) : SandboxModeRequirement :=
  match candidate with
  | ReadOnly _ _ => ModeReadOnly
  | WorkspaceWrite _ _ _ _ _ => ModeWorkspaceWrite
  | DangerFullAccess => ModeDangerFullAccess
  | ExternalSandbox _ => ModeExternalSandbox
  end.

Definition constrain_sandbox_policy (allowed : option (Sourced (list SandboxModeRequirement))) :
    ConstraintResult (ConstrainedWithSource SandboxPolicy) :=
  match allowed with
  | Some s =>
      let modes := sourced_value s in
      if negb (bool_decide (ModeReadOnly ∈ modes))
      then Err (InvalidValue (lit "allowed_sandbox_modes") (debug_list debug_sandbox_mode modes)
                  (lit "must include 'read-only' to allow any SandboxPolicy") (sourced_from s))
      else
        constrain new_read_only_policy
          (λ candidate,
             let mode := mode_of_policy candidate in
             if bool_decide (mode ∈ modes) then Ok ()
             else Err (InvalidValue (lit "sandbox_mode") (debug_sandbox_mode mode)
                         (debug_list debug_sandbox_mode modes) (sourced_from s)))
          (sourced_from s)
  | None => Ok (unconstrained new_read_only_policy)
  end.

(** The set of accepted modes, in the order of [BTreeSet]. *)
Definition accepted_modes (modes : list WebSearchModeRequirement) : list WebSearchModeRequirement :=
  List.filter (λ m, bool_decide (m = WebDisabled ∨ m ∈ modes)) [WebDisabled; WebCached; WebLive].

Definition constrain_web_search (allowed : option (Sourced (list WebSearchModeRequirement))) :
    ConstraintResult (ConstrainedWithSource WebSearchMode) :=
  match allowed with
  | Some s =>
      let accepted := accepted_modes (sourced_value s) in
      let initial_value :=
        if bool_decide (WebCached ∈ accepted) then WebCached
        else if bool_decide (WebLive ∈ accepted) then WebLive
        else WebDisabled in
      constrain initial_value
        (λ candidate,
           if bool_decide (candidate ∈ accepted) then Ok ()
           else Err (InvalidValue (lit "web_search_mode") (debug_web_search candidate)
                       (debug_list debug_web_search accepted) (sourced_from s)))
        (sourced_from s)
  | None => Ok (unconstrained WebCached)
  end.

Definition constrain_residency (required : option (Sourced ResidencyRequirement)) :
    ConstraintResult (ConstrainedWithSource (option ResidencyRequirement)) :=
  match required with
  | Some s =>
      let required := Some (sourced_value s) in
      constrain required
        (λ candidate,
           if bool_decide (candidate = required) then Ok ()
           else Err (InvalidValue (lit "enforce_residency") (debug_residency candidate)
                       (debug_residency required) (sourced_from s)))
        (sourced_from s)
  | None => Ok (unconstrained None)
  end.

Definition rules_policy (rules : option (Sourced RequirementsExecPolicyToml)) :
    ConstraintResult (option (Sourced Policy)) :=
  match rules with
  | Some s =>
      policy ← map_err (λ e, ExecPolicyParse (sourced_from s) (parse_error_to_string e))
                 (to_policy (sourced_value s));
      Ok (Some (sourced policy (sourced_from s)))
  | None => Ok None
  end.

(** [TryFrom<ConfigRequirementsWithSources>]; the order of the errors is that of
    the source. *)
Definition try_from_sources (toml : ConfigRequirementsWithSources) : ConstraintResult ConfigRequirements :=
  approval_policy ← constrain_approval_policy (ws_approval_policies toml);
  sandbox_policy ← constrain_sandbox_policy (ws_sandbox_modes toml);
  exec_policy ← rules_policy (ws_rules toml);
  web_search_mode ← constrain_web_search (ws_web_search_modes toml);
  enforce_residency ← constrain_residency (ws_residency toml);
  Ok {| req_approval_policy := approval_policy;
        req_sandbox_policy := sandbox_policy;
        req_web_search_mode := web_search_mode;
        req_features := ws_features toml ≫= λ f, if features_is_empty (sourced_value f) then None else Some f;
        req_mcp_servers := ws_mcp_servers toml;
        req_exec_policy := exec_policy;
        req_enforce_residency := enforce_residency;
        req_network := ws_network toml |}.

(** ** Applying them: [core/src/config/mod.rs] *)
Inductive constrained_result {T : Type} : Type :=
  | Applied (warning : option str) (v : ConstrainedWithSource T)
  | InvalidInput (message : str).
Arguments constrained_result : clear implicits.

Section Apply.
Context {T : Type} (debug : T → str) (error_to_str : ConstraintError → str).

Definition set_constrained (c : ConstrainedWithSource T) (v : T) :
    ConstraintResult unit * ConstrainedWithSource T :=
  let '(r, k) := set (constrained c) v in (r, {| constrained := k; source := source c |}).

Definition apply_requirement_constrained_value (field_name : str) (configured_value : T)
    (constrained_value : ConstrainedWithSource T) : constrained_result T :=
  match set_constrained constrained_value configured_value with
  | (Err err, constrained_value) =>
      let fallback_value := value (constrained constrained_value) in
      let message := lit "Configured value for `" ++ field_name
        ++ lit "` is disallowed by requirements; falling back to required value "
        ++ debug fallback_value ++ lit ". Details: " ++ error_to_str err in
      match set_constrained constrained_value fallback_value with
      | (Err fallback_err, _) =>
          InvalidInput (lit "configured value for `" ++ field_name
            ++ lit "` is disallowed by requirements (" ++ error_to_str err
            ++ lit "); fallback to a requirement-compliant value also failed ("
            ++ error_to_str fallback_err ++ lit ")")
      | (_, constrained_value) => Applied (Some message) constrained_value
      end
  | (_, constrained_value) => Applied None constrained_value
  end.
End Apply.

(** MCP servers; [rest] stands for the settings that requirements do not
    look at. *)
Section Mcp.
Context {Rest : Type}.

Inductive McpServerTransportConfig : Type := Stdio (command : str) | StreamableHttp (url : str).

Record McpServerConfig : Type := {
  transport : McpServerTransportConfig;
  enabled : bool;
  disabled_by : option RequirementSource;
  rest_settings : Rest;
}.

Definition mcp_server_matches_requirement (requirement : McpServerRequirement)
    (server : McpServerConfig) : bool :=
  match identity requirement, transport server with
  | IdentityCommand want_command, Stdio got_command => bool_decide (got_command = want_command)
  | IdentityUrl want_url, StreamableHttp got_url => bool_decide (got_url = want_url)
  | _, _ => false
  end.

Definition filter_server (allowlist : Sourced (gmap str McpServerRequirement)) (name : str)
    (server : McpServerConfig) : McpServerConfig :=
  if match sourced_value allowlist !! name with
     | Some requirement => mcp_server_matches_requirement requirement server
     | None => false
     end
  then {| transport := transport server; enabled := enabled server; disabled_by := None;
          rest_settings := rest_settings server |}
  else {| transport := transport server; enabled := false;
          disabled_by := Some (sourced_from allowlist); rest_settings := rest_settings server |}.

Definition filter_mcp_servers_by_requirements
    (mcp_requirements : option (Sourced (gmap str McpServerRequirement)))
    (servers : gmap str McpServerConfig) : gmap str McpServerConfig :=
  match mcp_requirements with
  | None => servers
  | Some allowlist => map_imap (λ name server, Some (filter_server allowlist name server)) servers
  end.

Definition constrain_mcp_servers (servers : gmap str McpServerConfig)
    (mcp_requirements : option (Sourced (gmap str McpServerRequirement))) :
    ConstraintResult (Constrained (gmap str McpServerConfig)) :=
  match mcp_requirements with
  | None => Ok (allow_any servers)
  | Some _ => normalized servers (filter_mcp_servers_by_requirements mcp_requirements)
  end.
End Mcp.

(** ** Constrained values keep their constraint *)

(** A sequence of calls of [set], whatever they return. *)
Definition set_all {T} (c : Constrained T) (vs : list T) : Constrained T :=
  foldl (λ c v, (set c v).2) c vs.

Lemma set_validator {T} (c : Constrained T) v :
  validator (set c v).2 = validator c ∧ normalizer (set c v).2 = normalizer c.
Proof. unfold set. by destruct (validator c _). Qed.

Lemma set_valid {T} (c : Constrained T) v :
  validator c (value c) = Ok () → validator c (value (set c v).2) = Ok ().
Proof.
  intros Hv. unfold set. set (w := match normalizer c with Some f => f v | None => v end).
  destruct (validator c w) as [[]| | |] eqn:E; done.
Qed.

Lemma set_all_valid {T} (c : Constrained T) vs :
  validator c (value c) = Ok () →
  validator (set_all c vs) = validator c ∧ normalizer (set_all c vs) = normalizer c ∧
  validator c (value (set_all c vs)) = Ok ().
Proof.
  revert c. induction vs as [|v vs IH]; intros c Hv; [done|]. cbn.
  destruct (set_validator c v) as [E1 E2].
  destruct (IH (set c v).2) as (H1 & H2 & H3); [by rewrite E1; apply set_valid|].
  by rewrite E1 in H1, H3; rewrite E2 in H2.
Qed.

(** A validator that accepts exactly the values of [P]. *)
Definition admits {T} (c : Constrained T) (P : T → Prop) : Prop :=
  normalizer c = None ∧ ∀ v, (P v → validator c v = Ok ()) ∧ (¬ P v → ∃ e, validator c v = Err e).

Lemma admits_ok {T} (c : Constrained T) P v `{Decision (P v)} :
  admits c P → validator c v = Ok () ↔ P v.
Proof.
  intros [_ Ha]. destruct (Ha v) as [H1 H2]. split; [|auto]. intros Hv.
  destruct (decide (P v)) as [|Hn]; [done|]. destruct (H2 Hn) as [e He]. congruence.
Qed.

Lemma apply_spec {T} (P : T → Prop) `{∀ v, Decision (P v)} debug show field configured
    (c : ConstrainedWithSource T) :
  admits (constrained c) P → P (value (constrained c)) →
  ∃ warning c', apply_requirement_constrained_value debug show field configured c = Applied warning c' ∧
    source c' = source c ∧ admits (constrained c') P ∧
    ((P configured ∧ warning = None ∧ value (constrained c') = configured) ∨
     (¬ P configured ∧ is_Some warning ∧ value (constrained c') = value (constrained c))).
Proof.
  intros [Hn Ha] Hv. unfold apply_requirement_constrained_value, set_constrained, set. rewrite Hn.
  destruct (decide (P configured)) as [Hc|Hc].
  - rewrite (proj1 (Ha configured) Hc). cbn. eexists _, _. split_and!; [done..|]. left. done.
  - destruct (proj2 (Ha configured) Hc) as [e ->]. cbn. rewrite Hn, (proj1 (Ha _) Hv). cbn.
    eexists _, _. split_and!; [done..|]. right. done.
Qed.

Lemma admits_set_all {T} (c : Constrained T) (P : T → Prop) `{∀ v, Decision (P v)} vs :
  admits c P → P (value c) → P (value (set_all c vs)).
Proof.
  intros Ha Hv. apply (admits_ok c P _ Ha), set_all_valid. by apply (admits_ok c P).
Qed.

Lemma constrain_ok {T} initial (f : T → ConstraintResult unit) s c :
  constrain initial f s = Ok c →
  constrained c = {| value := initial; validator := f; normalizer := None |} ∧ source c = Some s ∧
  f initial = Ok ().
Proof.
  unfold constrain, constrained_new. destruct (f initial) as [[]| | |] eqn:E; try done. cbn.
  by intros [= <-].
Qed.

(** What the sources allow. *)
Definition allows_approval (ws : ConfigRequirementsWithSources) (p : AskForApproval) : Prop :=
  match ws_approval_policies ws with Some s => p ∈ sourced_value s | None => True end.
Definition allows_sandbox (ws : ConfigRequirementsWithSources) (p : SandboxPolicy) : Prop :=
  match ws_sandbox_modes ws with Some s => mode_of_policy p ∈ sourced_value s | None => True end.
Definition allows_web_search (ws : ConfigRequirementsWithSources) (m : WebSearchMode) : Prop :=
  match ws_web_search_modes ws with Some s => m = WebDisabled ∨ m ∈ sourced_value s | None => True end.

#[local] Instance allows_approval_dec ws p : Decision (allows_approval ws p).
Proof. unfold allows_approval. destruct (ws_approval_policies ws); apply _. Defined.
#[local] Instance allows_sandbox_dec ws p : Decision (allows_sandbox ws p).
Proof. unfold allows_sandbox. destruct (ws_sandbox_modes ws); apply _. Defined.
#[local] Instance allows_web_search_dec ws m : Decision (allows_web_search ws m).
Proof. unfold allows_web_search. destruct (ws_web_search_modes ws); apply _. Defined.

Lemma admits_any {T} (v : T) : admits (allow_any v) (λ _, True).
Proof. split; [done|]. intros w. split; [done|]. by intros []. Qed.

Lemma admits_bool {T} initial (P : T → Prop) `{∀ v, Decision (P v)} (e : T → ConstraintError) f :
  (∀ v, f v = if bool_decide (P v) then Ok () else Err (e v)) →
  admits {| value := initial; validator := f; normalizer := None |} P.
Proof.
  intros Hf. split; [done|]. intros v. cbn. rewrite Hf. case_bool_decide; split; eauto; by intros.
Qed.

Lemma approval_constraint ws c :
  constrain_approval_policy (ws_approval_policies ws) = Ok c →
  admits (constrained c) (allows_approval ws) ∧ allows_approval ws (value (constrained c)).
Proof.
  unfold constrain_approval_policy, allows_approval. destruct (ws_approval_policies ws) as [s|].
  - destruct (sourced_value s) as [|p ps] eqn:E; [done|]. intros (Hc & _ & Hi)%constrain_ok. rewrite Hc.
    split; [by eapply admits_bool|]. cbn. left.
  - intros [= <-]. split; [apply admits_any|done].
Qed.

Lemma sandbox_constraint ws c :
  constrain_sandbox_policy (ws_sandbox_modes ws) = Ok c →
  admits (constrained c) (allows_sandbox ws) ∧ allows_sandbox ws (value (constrained c)).
Proof.
  unfold constrain_sandbox_policy, allows_sandbox. destruct (ws_sandbox_modes ws) as [s|].
  - case_bool_decide as Hm; [|done]. cbn [negb]. intros (Hc & _ & Hi)%constrain_ok. rewrite Hc.
    split; [by eapply admits_bool|]. by cbn.
  - intros [= <-]. split; [apply admits_any|done].
Qed.

Lemma accepted_modes_spec modes m : m ∈ accepted_modes modes ↔ m = WebDisabled ∨ m ∈ modes.
Proof.
  unfold accepted_modes. rewrite list_elem_of_In, filter_In, bool_decide_eq_true.
  split; [tauto|]. intros H. split; [|done]. destruct m; cbn; tauto.
Qed.

Lemma guard_ok (P : Prop) `{Decision P} (e : ConstraintError) :
  (if bool_decide P then Ok () else Err e : ConstraintResult unit) = Ok () → P.
Proof. by case_bool_decide. Qed.

Lemma web_search_constraint ws c :
  constrain_web_search (ws_web_search_modes ws) = Ok c →
  admits (constrained c) (allows_web_search ws) ∧ allows_web_search ws (value (constrained c)).
Proof.
  unfold constrain_web_search, allows_web_search. destruct (ws_web_search_modes ws) as [s|].
  - intros (Hc & _ & Hi)%constrain_ok. rewrite Hc. split.
    + eapply admits_bool. intros v. cbn beta.
      by rewrite (bool_decide_ext _ _ (accepted_modes_spec (sourced_value s) v)).
    + cbn [value]. by rewrite <- accepted_modes_spec; apply guard_ok in Hi.
  - intros [= <-]. split; [apply admits_any|done].
Qed.

Lemma try_from_ok ws reqs :
  try_from_sources ws = Ok reqs →
  constrain_approval_policy (ws_approval_policies ws) = Ok (req_approval_policy reqs) ∧
  constrain_sandbox_policy (ws_sandbox_modes ws) = Ok (req_sandbox_policy reqs) ∧
  constrain_web_search (ws_web_search_modes ws) = Ok (req_web_search_mode reqs) ∧
  rules_policy (ws_rules ws) = Ok (req_exec_policy reqs) ∧
  constrain_residency (ws_residency ws) = Ok (req_enforce_residency reqs).
Proof.
  unfold try_from_sources. intros Ht.
  destruct (constrain_approval_policy _) as [a| | |]; try done. cbn in Ht.
  destruct (constrain_sandbox_policy _) as [b| | |]; try done. cbn in Ht.
  destruct (rules_policy _) as [r| | |]; try done. cbn in Ht.
  destruct (constrain_web_search _) as [w| | |]; try done. cbn in Ht.
  destruct (constrain_residency _) as [e| | |]; try done. cbn in Ht. by injection Ht as <-.
Qed.

(** What becomes of a configured value under a requirement: it is kept when it
    is allowed, else replaced by an allowed one with a warning; no later change
    leaves the allowed values. *)
Definition enforced {T} (P : T → Prop) (configured : T) (r : constrained_result T) : Prop :=
  ∃ warning c, r = Applied warning c ∧
    ((P configured ∧ warning = None ∧ value (constrained c) = configured) ∨
     (¬ P configured ∧ is_Some warning ∧ P (value (constrained c)))) ∧
    ∀ vs, P (value (set_all (constrained c) vs)).

Lemma apply_enforced {T} (P : T → Prop) `{∀ v, Decision (P v)} debug show field configured
    (c : ConstrainedWithSource T) :
  admits (constrained c) P ∧ P (value (constrained c)) →
  enforced P configured (apply_requirement_constrained_value debug show field configured c).
Proof.
  intros [Ha Hv]. destruct (apply_spec P debug show field configured c Ha Hv)
    as (w & c' & -> & _ & Ha' & Hc). exists w, c'. split; [done|].
  assert (P (value (constrained c'))) by (destruct Hc as [(? & _ & ->)|(_ & _ & ->)]; done).
  split; [naive_solver|]. intros vs. by apply admits_set_all.
Qed.

(** C24: once requirements are accepted, the approval policy, the sandbox policy
    and the web search mode in force are always allowed by them: a configured
    value that is allowed is used as it is, another one is replaced by an
    allowed one with a warning, the start never fails on them, and no later
    change of the setting leaves the allowed values. *)
Theorem requirements_enforced ws reqs show debug_approval debug_sandbox debug_web approval sandbox web :
  try_from_sources ws = Ok reqs →
  enforced (allows_approval ws) approval
    (apply_requirement_constrained_value debug_approval show (lit "approval_policy") approval
       (req_approval_policy reqs)) ∧
  enforced (allows_sandbox ws) sandbox
    (apply_requirement_constrained_value debug_sandbox show (lit "sandbox_mode") sandbox
       (req_sandbox_policy reqs)) ∧
  enforced (allows_web_search ws) web
    (apply_requirement_constrained_value debug_web show (lit "web_search_mode") web
       (req_web_search_mode reqs)).
Proof.
  intros (Ha & Hs & Hw & _)%try_from_ok.
  split_and!;
    [apply (apply_enforced (allows_approval ws)), (approval_constraint ws _ Ha)
    |apply (apply_enforced (allows_sandbox ws)), (sandbox_constraint ws _ Hs)
    |apply (apply_enforced (allows_web_search ws)), (web_search_constraint ws _ Hw)].
Qed.

(** *** Which requirements are accepted *)
Lemma constraint_returns_bind {E A B} (o : outcome E A) (f : A → outcome E B) :
  returns o → (∀ a, returns (f a)) → returns (o ≫= f).
Proof. destruct o; cbn; auto. Qed.

Lemma parse_tokens_returns toks i j : returns (parse_pattern_tokens toks i j).
Proof.
  revert j. induction toks as [|t toks IH]; intros j; [done|]. cbn. apply constraint_returns_bind.
  - unfold parse_pattern_token. destruct (token t), (any_of t); cbn; repeat case_bool_decide; try done.
    by destruct (existsb _ _).
  - intros a. by apply constraint_returns_bind.
Qed.

Lemma rules_returns i rules m : returns (rules_of_toml i rules m).
Proof.
  revert i m. induction rules as [|r rules IH]; intros i m; [done|]. cbn. apply constraint_returns_bind; [|auto].
  unfold rule_of_toml. destruct (match toml_justification r with Some _ => _ | None => _ end); [done|].
  case_bool_decide; [done|]. apply constraint_returns_bind; [apply parse_tokens_returns|]. intros ts.
  apply constraint_returns_bind; [by destruct (toml_decision r) as [[]|]|]. intros d. by destruct ts.
Qed.

Lemma to_policy_returns toml : returns (to_policy toml).
Proof.
  unfold to_policy. case_bool_decide; [done|]. assert (Hr := rules_returns 0 (prefix_rules toml) ∅).
  by destruct (rules_of_toml 0 (prefix_rules toml) ∅).
Qed.

Lemma approval_cases o :
  match constrain_approval_policy o with
  | Ok _ => ∀ s, o = Some s → sourced_value s ≠ []
  | Err e => e = EmptyField (lit "allowed_approval_policies") ∧
      ¬ (∀ s, o = Some s → sourced_value s ≠ [])
  | _ => False
  end.
Proof.
  unfold constrain_approval_policy. destruct o as [s|]; [|naive_solver].
  destruct (sourced_value s) as [|p ps] eqn:E; [naive_solver|]. unfold constrain, constrained_new.
  rewrite bool_decide_eq_true_2 by left. cbn. intros ? [= <-]. by rewrite E.
Qed.

Lemma sandbox_cases o :
  match constrain_sandbox_policy o with
  | Ok _ => ∀ s, o = Some s → ModeReadOnly ∈ sourced_value s
  | Err e => (∃ a b c, e = InvalidValue (lit "allowed_sandbox_modes") a b c) ∧
      ¬ (∀ s, o = Some s → ModeReadOnly ∈ sourced_value s)
  | _ => False
  end.
Proof.
  unfold constrain_sandbox_policy. destruct o as [s|]; [|naive_solver].
  case_bool_decide as Hm; cbn [negb]; [|naive_solver]. unfold constrain, constrained_new.
  rewrite bool_decide_eq_true_2 by done. cbn. naive_solver.
Qed.

Lemma constrain_defined {T} initial (f : T → ConstraintResult unit) s :
  f initial = Ok () → ∃ c, constrain initial f s = Ok c.
Proof. intros Hf. unfold constrain, constrained_new. rewrite Hf. cbn. eauto. Qed.

Lemma guard_true (P : Prop) `{Decision P} (e : ConstraintError) :
  P → (if bool_decide P then Ok () else Err e : ConstraintResult unit) = Ok ().
Proof. by case_bool_decide. Qed.

Lemma web_search_defined o : ∃ c, constrain_web_search o = Ok c.
Proof.
  unfold constrain_web_search. destruct o as [s|]; [|eauto].
  apply constrain_defined, guard_true.
  case_bool_decide; [done|]. case_bool_decide; [done|]. apply accepted_modes_spec. by left.
Qed.

Lemma residency_defined o : ∃ c, constrain_residency o = Ok c.
Proof.
  unfold constrain_residency. destruct o as [s|]; [|eauto]. unfold constrain, constrained_new.
  rewrite bool_decide_eq_true_2 by done. cbn. eauto.
Qed.

(** C38: requirements are accepted exactly when they allow some approval policy,
    allow the read-only sandbox, and their rules are well formed; the errors
    name the field that is at fault. *)
Theorem requirements_accepted ws :
  let approvals_ok := ∀ s, ws_approval_policies ws = Some s → sourced_value s ≠ [] in
  let modes_ok := ∀ s, ws_sandbox_modes ws = Some s → ModeReadOnly ∈ sourced_value s in
  let rules_ok := ∀ s, ws_rules ws = Some s → ∃ p, to_policy (sourced_value s) = Ok p in
  match try_from_sources ws with
  | Ok _ => approvals_ok ∧ modes_ok ∧ rules_ok
  | Err (EmptyField f) => f = lit "allowed_approval_policies" ∧ ¬ approvals_ok
  | Err (InvalidValue f _ _ _) => f = lit "allowed_sandbox_modes" ∧ approvals_ok ∧ ¬ modes_ok
  | Err (ExecPolicyParse src reason) => approvals_ok ∧ modes_ok ∧
      ∃ s e, ws_rules ws = Some s ∧ to_policy (sourced_value s) = Err e ∧ src = sourced_from s ∧
        reason = parse_error_to_string e
  | Panic | NoFuel => False
  end.
Proof.
  cbv zeta. unfold try_from_sources.
  assert (Ha := approval_cases (ws_approval_policies ws)).
  destruct (constrain_approval_policy _) as [a|e| |]; cbn; [|destruct Ha as [-> ?]; done|done..].
  assert (Hs := sandbox_cases (ws_sandbox_modes ws)).
  destruct (constrain_sandbox_policy _) as [b|e| |]; cbn; [|destruct Hs as [(? & ? & ? & ->) ?]; done|done..].
  destruct (web_search_defined (ws_web_search_modes ws)) as [w Hw].
  destruct (residency_defined (ws_residency ws)) as [r Hr].
  unfold rules_policy. destruct (ws_rules ws) as [s|] eqn:Es; cbn; [|rewrite Hw, Hr; cbn; naive_solver].
  assert (Hp := to_policy_returns (sourced_value s)).
  destruct (to_policy (sourced_value s)) as [p|e| |] eqn:Ep; cbn; try done.
  - rewrite Hw, Hr. cbn. split_and!; [done..|]. intros ? [= <-]. eauto.
  - split_and!; [done..|]. by exists s, e.
Qed.

(** ** Several sources *)
Definition merge_sources (l : list (RequirementSource * ConfigRequirementsToml)) :
    ConfigRequirementsWithSources :=
  foldl (λ ws e, merge_unset_fields ws e.1 e.2) with_sources_default l.

(** The first source that sets a field. *)
Definition first_set {T} (field : ConfigRequirementsToml → option T)
    (l : list (RequirementSource * ConfigRequirementsToml)) : option (Sourced T) :=
  head (omap (λ e, (λ v, sourced v e.1) <$> field e.2) l).

(** What the sources say of an app, in their order, and what holds in the end. *)
Definition app_settings (id : str) (l : list (RequirementSource * ConfigRequirementsToml)) : list bool :=
  omap (λ e, a ← toml_apps e.2; o ← apps a !! id; o) l.
Definition app_enabled (id : str) (ws : ConfigRequirementsWithSources) : option bool :=
  s ← ws_apps ws; o ← apps (sourced_value s) !! id; o.

Lemma fill_first {T} (field : ConfigRequirementsToml → option T)
    (proj : ConfigRequirementsWithSources → option (Sourced T)) l ws :
  (∀ ws s o, proj (merge_unset_fields ws s o) = fill_missing (proj ws) (field o) s) →
  proj (foldl (λ ws e, merge_unset_fields ws e.1 e.2) ws l) =
  match proj ws with Some v => Some v | None => first_set field l end.
Proof.
  intros Hm. revert ws. induction l as [|[s o] l IH]; intros ws; cbn; [by destruct (proj ws)|].
  rewrite IH, Hm. unfold fill_missing, first_set. destruct (proj ws); [done|]. cbn.
  by destruct (field o).
Qed.

Lemma merge_enabled_spec (h l : option bool) rest :
  (if bool_decide (merge_enabled h l = Some false) || bool_decide (false ∈ rest) then Some false
   else match merge_enabled h l with Some b => Some b | None => head rest end) =
  if bool_decide (h = Some false) || bool_decide (false ∈ option_list l ++ rest) then Some false
  else match h with Some b => Some b | None => head (option_list l ++ rest) end.
Proof.
  destruct h as [[]|], l as [[]|]; cbn; try done; repeat case_bool_decide; try done; set_solver.
Qed.

Lemma app_settings_cons id s o l :
  app_settings id ((s, o) :: l) =
  option_list (a ← toml_apps o; e ← apps a !! id; e) ++ app_settings id l.
Proof.
  unfold app_settings. cbn [omap list_omap fst snd].
  by destruct (a ← toml_apps o; e ← apps a !! id; e).
Qed.

Lemma app_merge_step id ws s o :
  app_enabled id (merge_unset_fields ws s o) =
  merge_enabled (app_enabled id ws) (a ← toml_apps o; e ← apps a !! id; e).
Proof.
  assert (Hn : ∀ h, merge_enabled h None = h) by (intros [[]|]; done).
  unfold app_enabled. cbn. destruct (toml_apps o) as [a|]; cbn; [|by rewrite Hn].
  destruct (ws_apps ws) as [b|]; cbn.
  - rewrite lookup_merge. unfold diag_None.
    destruct (apps a !! id) as [lower|], (apps (sourced_value b) !! id) as [higher|]; cbn; rewrite ?Hn; done.
  - destruct (apps a !! id) as [lower|]; cbn; [|done]. by destruct lower as [[]|].
Qed.

Lemma apps_merged id l ws :
  app_enabled id (foldl (λ ws e, merge_unset_fields ws e.1 e.2) ws l) =
  if bool_decide (app_enabled id ws = Some false) || bool_decide (false ∈ app_settings id l) then Some false
  else match app_enabled id ws with Some b => Some b | None => head (app_settings id l) end.
Proof.
  revert ws. induction l as [|[s o] l IH]; intros ws.
  - cbn. destruct (app_enabled id ws) as [[]|]; done.
  - cbn [foldl]. rewrite IH. cbn [fst snd].
    by rewrite app_merge_step, app_settings_cons, merge_enabled_spec.
Qed.

(** When requirements from several sources are merged, each field has the
    value of the first source that sets it, with that source; an app is
    disabled when any source disables it, and otherwise has what the first
    source says. *)
Theorem requirements_first_source_wins l id :
  let ws := merge_sources l in
  ws_approval_policies ws = first_set allowed_approval_policies l ∧
  ws_sandbox_modes ws = first_set allowed_sandbox_modes l ∧
  ws_web_search_modes ws = first_set allowed_web_search_modes l ∧
  ws_features ws = first_set feature_requirements l ∧
  ws_mcp_servers ws = first_set mcp_servers l ∧
  ws_rules ws = first_set toml_rules l ∧
  ws_residency ws = first_set enforce_residency l ∧
  ws_network ws = first_set network l ∧
  app_enabled id ws =
    (if bool_decide (false ∈ app_settings id l) then Some false else head (app_settings id l)).
Proof.
  cbv zeta. unfold merge_sources.
  split_and!; [..|apply apps_merged].
  - by apply (fill_first allowed_approval_policies ws_approval_policies l).
  - by apply (fill_first allowed_sandbox_modes ws_sandbox_modes l).
  - by apply (fill_first allowed_web_search_modes ws_web_search_modes l).
  - by apply (fill_first feature_requirements ws_features l).
  - by apply (fill_first mcp_servers ws_mcp_servers l).
  - by apply (fill_first toml_rules ws_rules l).
  - by apply (fill_first enforce_residency ws_residency l).
  - by apply (fill_first network ws_network l).
Qed.

(** ** Rules of requirements *)

(** The words a token accepts, and the commands a rule accepts. *)
Definition token_words (tok : RequirementsExecPolicyPatternTokenToml) : list str :=
  match token tok, any_of tok with
  | Some single, None => [single]
  | None, Some alternatives => alternatives
  | _, _ => []
  end.
Definition toml_accepts (rule : RequirementsExecPolicyPrefixRuleToml) (cmd matched : list str) : Prop :=
  ∃ tail, cmd = matched ++ tail ∧ Forall2 (λ tok arg, arg ∈ token_words tok) (rule_pattern rule) matched.

Lemma parse_tokens_words toks i j pts :
  parse_pattern_tokens toks i j = Ok pts → Forall2 (λ tok pt, alternatives pt = token_words tok) toks pts.
Proof.
  revert j pts. induction toks as [|t toks IH]; intros j pts; cbn; [intros [= <-]; constructor|].
  destruct (parse_pattern_token t i j) as [pt| | |] eqn:Et; try done. cbn.
  destruct (parse_pattern_tokens toks i (S j)) as [pts'| | |] eqn:Ets; try done. cbn. intros [= <-].
  constructor; [|by eapply IH]. unfold parse_pattern_token in Et. unfold token_words.
  destruct (token t), (any_of t); try done; repeat case_bool_decide; try done.
  - by injection Et as <-.
  - destruct (existsb _ _); [done|]. by injection Et as <-.
Qed.

(** The rules of the map. *)
Definition has_rule (m : gmap str (list PrefixRule)) (program : str) (rule : PrefixRule) : Prop :=
  ∃ rules, m !! program = Some rules ∧ rule ∈ rules.

Lemma has_rule_insert m program r program' rule :
  has_rule (insert_rule m program r) program' rule ↔
  has_rule m program' rule ∨ (program' = program ∧ rule = r).
Proof.
  unfold has_rule, insert_rule. destruct (decide (program' = program)) as [->|Hne].
  - rewrite lookup_insert_eq. split.
    + intros (rules & [= <-] & [H|H%list_elem_of_singleton]%elem_of_app); [left|by right].
      destruct (m !! program) as [rs|]; [by exists rs|by apply not_elem_of_nil in H].
    + intros [(rules & -> & H)|[_ ->]]; eexists; (split; [done|]); apply elem_of_app;
        [by left|right; by apply list_elem_of_singleton].
  - rewrite lookup_insert_ne by done. naive_solver.
Qed.

Lemma has_rule_heads heads mk m program rule :
  has_rule (foldl (λ m head, insert_rule m head (mk head)) m heads) program rule ↔
  has_rule m program rule ∨ (program ∈ heads ∧ rule = mk program).
Proof.
  revert m. induction heads as [|h heads IH]; intros m; cbn; [set_solver|].
  rewrite IH, has_rule_insert. set_solver.
Qed.

(** The rule an entry stands for, for a first word of it. *)
Definition entry_rule (t : RequirementsExecPolicyPrefixRuleToml) (tok : PatternToken)
    (pts : list PatternToken) (d : RequirementsExecPolicyDecisionToml) (program : str) : PrefixRule :=
  {| pattern := {| first := program; rest := pts |}; rule_decision := as_decision d;
     rule_justification := toml_justification t |}.

Definition entry_tokens (t : RequirementsExecPolicyPrefixRuleToml) (tok : PatternToken)
    (pts : list PatternToken) (d : RequirementsExecPolicyDecisionToml) : Prop :=
  Forall2 (λ tok pt, alternatives pt = token_words tok) (rule_pattern t) (tok :: pts) ∧
  toml_decision t = Some d ∧ d ≠ TomlAllow.

Lemma rule_of_toml_rules i t m m' :
  rule_of_toml i t m = Ok m' →
  ∃ tok pts d, entry_tokens t tok pts d ∧ ∀ program rule,
    has_rule m' program rule ↔
    has_rule m program rule ∨ (program ∈ alternatives tok ∧ rule = entry_rule t tok pts d program).
Proof.
  unfold rule_of_toml. destruct (match toml_justification t with Some _ => _ | None => _ end); [done|].
  case_bool_decide; [done|]. destruct (parse_pattern_tokens _ _ _) as [pts| | |] eqn:Ep; try done. cbn.
  apply parse_tokens_words in Ep. destruct (toml_decision t) as [d|] eqn:Ed; [|done].
  intros Hm. assert (∃ tok pts', pts = tok :: pts' ∧ d ≠ TomlAllow ∧ m' =
    foldl (λ m head, insert_rule m head (entry_rule t tok pts' d head)) m (alternatives tok))
    as (tok & pts' & -> & Hd & ->).
  { destruct d; try done; destruct pts as [|tok pts']; try done; injection Hm as <-; by exists tok, pts'. }
  exists tok, pts', d. split; [done|]. intros program rule. apply has_rule_heads.
Qed.

Lemma rules_of_toml_rules i rules m m' :
  rules_of_toml i rules m = Ok m' →
  (∀ program rule, has_rule m' program rule → has_rule m program rule ∨
     ∃ t tok pts d, t ∈ rules ∧ entry_tokens t tok pts d ∧ program ∈ alternatives tok ∧
       rule = entry_rule t tok pts d program) ∧
  (∀ program rule, has_rule m program rule → has_rule m' program rule) ∧
  (∀ t, t ∈ rules → ∃ tok pts d, entry_tokens t tok pts d ∧
     ∀ program, program ∈ alternatives tok → has_rule m' program (entry_rule t tok pts d program)).
Proof.
  revert i m. induction rules as [|t rules IH]; intros i m; cbn.
  { intros [= <-]. split_and!; [auto..|]. by intros t ?%not_elem_of_nil. }
  destruct (rule_of_toml i t m) as [m1| | |] eqn:Et; try done. cbn.
  intros (Hfrom & Hkeep & Hall)%IH. apply rule_of_toml_rules in Et as (tok & pts & d & Hent & Hiff).
  split_and!.
  - intros program rule [H1|(t' & tok' & pts' & d' & Hin & H1)]%Hfrom; [|right; exists t', tok', pts', d'; set_solver].
    apply Hiff in H1 as [H1|[H1 ->]]; [by left|right]. exists t, tok, pts, d. set_solver.
  - intros program rule H1. apply Hkeep, Hiff. by left.
  - intros t' [->|Hin]%elem_of_cons; [|by apply Hall]. exists tok, pts, d. split; [done|].
    intros program Hp. apply Hkeep, Hiff. by right.
Qed.

Lemma entry_accepts t tok pts d program cmd matched :
  entry_tokens t tok pts d → program ∈ alternatives tok →
  accepts (pattern (entry_rule t tok pts d program)) cmd matched → toml_accepts t cmd matched.
Proof.
  intros (Hf & _ & _) Hp (args & tail & -> & -> & Hargs). exists tail. split; [done|]. cbn in Hargs.
  inversion Hf as [|tk ? tks ? Hw Hf' Hpat]; subst. constructor; [by rewrite <- Hw|].
  clear - Hf' Hargs. revert args Hargs. induction Hf' as [|a b l1 l2 Hab Hf' IH]; intros args Hargs.
  - inversion Hargs. constructor.
  - inversion Hargs; subst. constructor; [by rewrite <- Hab|auto].
Qed.

Lemma accepts_entry t tok pts d cmd matched :
  entry_tokens t tok pts d → toml_accepts t cmd matched →
  ∃ program, program ∈ alternatives tok ∧ head cmd = Some program ∧
    accepts (pattern (entry_rule t tok pts d program)) cmd matched.
Proof.
  intros (Hf & _ & _) (tail & -> & Hargs). inversion Hf as [|tk ? tks ? Hw Hf' Hpat]; subst.
  rewrite <- Hpat in Hargs. inversion Hargs as [|? program ? args Hprog Hargs']; subst.
  exists program. split_and!; [by rewrite Hw|done|]. exists args, tail. split_and!; [done..|]. cbn.
  clear - Hf' Hargs'. revert args Hargs'. induction Hf' as [|a b l1 l2 Hab Hf' IH]; intros args Hargs.
  - inversion Hargs. constructor.
  - inversion Hargs; subst. constructor; [by rewrite Hab|auto].
Qed.

Lemma requirement_matches toml p cmd r :
  to_policy toml = Ok p →
  exact_match p cmd r ↔
  ∃ t matched d, t ∈ prefix_rules toml ∧ toml_accepts t cmd matched ∧ toml_decision t = Some d ∧
    d ≠ TomlAllow ∧ r = PrefixRuleMatch matched (as_decision d) None (toml_justification t).
Proof.
  unfold to_policy. case_bool_decide; [done|].
  destruct (rules_of_toml 0 (prefix_rules toml) ∅) as [m| | |] eqn:Em; try done. intros [= <-].
  apply rules_of_toml_rules in Em as (Hfrom & _ & Hall). unfold exact_match, rule_match. cbn. split.
  - intros (program & Hh & rules & rule & matched & Hl & Hin & Hacc & ->).
    destruct (Hfrom program rule) as [(? & [=] & _)|(t & tok & pts & d & Ht & Hent & Hp & ->)]; [by exists rules|].
    exists t, matched, d. destruct (Hent) as (_ & Hd & Hna). split_and!; try done. by eapply entry_accepts.
  - intros (t & matched & d & Ht & Hacc & Hd & Hna & ->).
    destruct (Hall t Ht) as (tok & pts & d' & Hent & Hhas).
    destruct (accepts_entry _ _ _ _ _ _ Hent Hacc) as (program & Hp & Hh & Ha).
    destruct (Hhas program Hp) as (rules & Hl & Hin). exists program. split; [done|].
    exists rules, (entry_rule t tok pts d' program), matched. split_and!; [done..|]. cbn.
    destruct Hent as (_ & Hd' & _). by replace d' with d by congruence.
Qed.

Lemma exact_match_merge p overlay cmd r :
  exact_match (merge_overlay p overlay) cmd r ↔ exact_match p cmd r ∨ exact_match overlay cmd r.
Proof.
  rewrite <- !match_exact_rules_iff. destruct cmd as [|c cmd]; [cbn; naive_solver|].
  rewrite match_exact_merge. cbn [match_exact_rules mbind option_bind]. split.
  - intros (ms & [= <-] & [Hin|Hin]%elem_of_app); [left|right]; eexists; done.
  - intros [(ms & [= <-] & Hin)|(ms & [= <-] & Hin)]; eexists; (split; [done|]); apply elem_of_app; auto.
Qed.

Section Overlay.
Context (home_dir : option str) (absolutize : str → option str) (windows : bool).

(** The rules of requirements, laid over any policy, apply to exactly the
    commands their patterns accept, and only restrict: on such a command the
    decision is prompt or forbidden and at least that of each rule that
    accepts it. *)
Theorem requirement_rules_restrict toml overlay base cmd fallback resolve :
  to_policy toml = Ok overlay →
  ∃ e, check_with_options home_dir absolutize windows (merge_overlay base overlay) cmd fallback resolve = Ok e ∧
    ∀ t matched, t ∈ prefix_rules toml → toml_accepts t cmd matched →
      ∃ d, toml_decision t = Some d ∧ d ≠ TomlAllow ∧
        PrefixRuleMatch matched (as_decision d) None (toml_justification t) ∈ matched_rules e ∧
        decision_rank (as_decision d) ≤ decision_rank (decision e) ∧ decision e ≠ Allow.
Proof.
  intros Hp. unfold check_with_options.
  destruct (from_matches_spec _ (matches_nonempty home_dir absolutize windows
    (merge_overlay base overlay) cmd fallback resolve)) as (e & He & Hms & Hub & _).
  exists e. split; [exact He|]. intros t matched Ht Hacc. rewrite Hms.
  assert (Hd : ∃ d, toml_decision t = Some d ∧ d ≠ TomlAllow).
  { unfold to_policy in Hp. case_bool_decide; [done|].
    destruct (rules_of_toml 0 (prefix_rules toml) ∅) as [m| | |] eqn:Em; try done.
    apply rules_of_toml_rules in Em as (_ & _ & Hall).
    destruct (Hall t Ht) as (? & ? & d & (_ & ? & ?) & _). eauto. }
  destruct Hd as (d & Hd & Hna). exists d.
  set (r := PrefixRuleMatch matched (as_decision d) None (toml_justification t)).
  assert (Hr : r ∈ matches_for_command_with_options home_dir absolutize windows
    (merge_overlay base overlay) cmd (Some fallback) resolve).
  { apply elem_of_matches. left. apply exact_match_merge. right.
    apply (requirement_matches toml overlay cmd r Hp). by exists t, matched, d. }
  assert (Hrank := Hub r Hr). split_and!; try done. intros Hall. rewrite Hall in Hrank.
  destruct d; cbn in Hrank; [done|lia..].
Qed.
End Overlay.

(** ** MCP servers *)
Section Servers.
Context {Rest : Type}.
Implicit Types servers : gmap str (@McpServerConfig Rest).

(** Under an allow list, every MCP server that is enabled, now and after any
    later change of the servers, has the name and the identity of an entry of
    the list; a server that matches its entry keeps its settings. *)
Theorem mcp_allowlist_enforced servers allowlist :
  ∃ c, constrain_mcp_servers servers (Some allowlist) = Ok c ∧
    ∀ vs name server, value (set_all c vs) !! name = Some server → enabled server = true →
      ∃ requirement configured, sourced_value allowlist !! name = Some requirement ∧
        mcp_server_matches_requirement requirement server = true ∧
        List.last vs servers !! name = Some configured ∧ enabled configured = true ∧
        transport configured = transport server ∧ rest_settings configured = rest_settings server.
Proof.
  eexists. split; [reflexivity|]. intros vs name server.
  assert (Hv : value (set_all {| value := filter_mcp_servers_by_requirements (Some allowlist) servers;
      validator := λ _, Ok (); normalizer := Some (filter_mcp_servers_by_requirements (Some allowlist)) |} vs)
    = filter_mcp_servers_by_requirements (Some allowlist) (List.last vs servers)).
  { revert servers. induction vs as [|v vs IH]; intros servers; [done|]. cbn [set_all foldl].
    fold (set_all (set {| value := filter_mcp_servers_by_requirements (Some allowlist) servers;
      validator := λ _, Ok (); normalizer := Some (filter_mcp_servers_by_requirements (Some allowlist)) |} v).2 vs).
    cbn [set normalizer validator snd]. rewrite IH. f_equal. clear IH. revert v servers.
    induction vs as [|w vs IH]; intros v servers; [done|]. cbn. destruct vs; [done|]. apply IH. }
  rewrite Hv. unfold filter_mcp_servers_by_requirements. rewrite map_lookup_imap.
  destruct (List.last vs servers !! name) as [configured|]; [|done]. cbn. intros [= <-]. unfold filter_server.
  destruct (sourced_value allowlist !! name) as [requirement|] eqn:E; [|done].
  destruct (mcp_server_matches_requirement requirement configured) eqn:Em; [|done]. cbn. intros He.
  exists requirement, configured. done.
Qed.
End Servers.

(** ** Sample requirements *)
Definition no_delete : RequirementsExecPolicyToml := {|
  prefix_rules := [{| rule_pattern := [{| token := Some (lit "git"); any_of := None |};
                                       {| token := None; any_of := Some [lit "push"; lit "reset"] |}];
                      toml_decision := Some TomlForbidden; toml_justification := None |}] |}.

Definition sample_requirements : ConfigRequirementsToml := {|
  allowed_approval_policies := Some [OnRequest; UnlessTrusted];
  allowed_sandbox_modes := Some [ModeReadOnly; ModeWorkspaceWrite];
  allowed_web_search_modes := Some [WebLive];
  feature_requirements := None; mcp_servers := None; toml_apps := None; toml_rules := Some no_delete;
  enforce_residency := None; network := None |}.

Definition sample_ws : ConfigRequirementsWithSources := merge_sources [(CloudRequirements, sample_requirements)].

(** A configured policy that is not allowed gives way to the first allowed one. *)
Lemma requirements_enforced_witness : ∃ reqs warning c, try_from_sources sample_ws = Ok reqs ∧
  apply_requirement_constrained_value debug_approval_policy (λ _, []) (lit "approval_policy") Never
    (req_approval_policy reqs) = Applied warning c ∧
  value (constrained c) ∈ [OnRequest; UnlessTrusted] ∧ is_Some warning.
Proof.
  assert (Hok : returns (try_from_sources sample_ws)) by (vm_compute; done).
  destruct (try_from_sources sample_ws) as [reqs|e| |] eqn:E; [|by vm_compute in E|done..].
  destruct (requirements_enforced sample_ws reqs (λ _, []) debug_approval_policy (λ _, []) debug_web_search
    Never DangerFullAccess WebCached E) as ((warning & c & Ha & Hc & _) & _).
  exists reqs, warning, c. split_and!; [done..| |]; destruct Hc as [(Hin & _)|(_ & Hw & Hin)]; try done;
    unfold allows_approval in Hin; cbn in Hin; set_solver.
Defined.

Lemma requirement_rules_witness : ∃ p e, to_policy no_delete = Ok p ∧
  check_with_options None Some false (merge_overlay policy_empty p)
    [lit "git"; lit "push"; lit "origin"] (λ _, Allow) false = Ok e ∧ decision e ≠ Allow.
Proof.
  destruct (to_policy no_delete) as [p|e| |] eqn:E; [|by vm_compute in E..].
  destruct (requirement_rules_restrict None Some false no_delete p policy_empty
    [lit "git"; lit "push"; lit "origin"] (λ _, Allow) false E) as (e & He & Hall).
  exists p, e. split_and!; [done..|].
  destruct (Hall {| rule_pattern := [{| token := Some (lit "git"); any_of := None |};
      {| token := None; any_of := Some [lit "push"; lit "reset"] |}];
      toml_decision := Some TomlForbidden; toml_justification := None |} [lit "git"; lit "push"])
    as (d & _ & _ & _ & _ & Hd); [by left| |done].
  exists [lit "origin"]. split; [done|]. repeat constructor; cbn; set_solver.
Defined.
