(* ===== verification/ConfigLoader.v ===== *)
(** * Loading the configuration: [core/src/config_loader/mod.rs],
      [config_loader/layer_io.rs], and [resolve_root_git_project_for_trust] of
      [core/src/git_info.rs]

    The layers are the system's, the user's, one for each [.codex] folder
    between the project root and the working directory, the command line's and
    the legacy managed ones.  A project's folder counts only when the user
    trusts the project.  Requirements come from the cloud, the system's file and
    the legacy managed files.  Unix; on macOS there is one more source. *)
From stdpp Require Import base tactics option list gmap sets strings sorting.
From S2P Require Import Prelude RustStr Paths Permissions Safety ExecApproval ShellTool ExecPolicy.
From S2P Require Import ConfigLayers ConfigRequirements.
From stdpp Require Import list.

Inductive TrustLevel : Type := Trusted | UntrustedProject.

(** What reading a file gives. *)
Inductive file_read : Type := Contents (text : str) | NotFound | ReadFailed (message : str).

(** The errors of the loader, by the place they come from. *)
Inductive LoadError : Type :=
  | CloudFailed (message : str)
  | FileUnreadable (file : Path) (message : str)
  | FileInvalid (file : Path) (message : str)
  | NoParentDirectory (file : Path)
  | ResolvedNotSerialized (message : str)
  | PathInvalid (path : Path)
  | MarkersInvalid
  | TrustInvalid (message : str)
  | LegacyInvalid (message : str)
  | RequirementsInvalid (error : ConstraintError)
  | LayersInvalid (message : str).

(** ** [copy_shape_from_original] *)
Definition copy_entries (copy : TomlValue → TomlValue → TomlValue) (resolved : list (str * TomlValue)) :
    list (str * TomlValue) → list (str * TomlValue) → list (str * TomlValue) :=
  fix go original table :=
    match original with
    | [] => table
    | (key, original_value) :: original =>
        go original (table_insert key
          (copy original_value (default original_value (table_get key resolved))) table)
    end.

Definition copy_items (copy : TomlValue → TomlValue → TomlValue) :
    list TomlValue → list TomlValue → list TomlValue :=
  fix go original resolved :=
    match original with
    | [] => []
    | original_value :: original =>
        copy original_value (default original_value (head resolved)) :: go original (tail resolved)
    end.

Fixpoint copy_shape_from_original (original resolved : TomlValue) {struct original} : TomlValue :=
  match original, resolved with
  | TTable original_table, TTable resolved_table =>
      TTable (copy_entries copy_shape_from_original resolved_table original_table [])
  | TArray original_array, TArray resolved_array =>
      TArray (copy_items copy_shape_from_original original_array resolved_array)
  | _, resolved_value => resolved_value
  end.

(** ** Root markers *)
Definition PROJECT_ROOT_MARKERS : str := lit "project_root_markers".
Definition default_project_root_markers : list str := [lit ".git"].

Fixpoint marker_strings (items : list TomlValue) : outcome LoadError (list str) :=
  match items with
  | [] => Ok []
  | TString marker :: items => markers ← marker_strings items; Ok (marker :: markers)
  | _ :: _ => Err MarkersInvalid
  end.

Definition project_root_markers_from_config (config : TomlValue) :
    outcome LoadError (option (list str)) :=
  match config with
  | TTable table =>
      match table_get PROJECT_ROOT_MARKERS table with
      | None => Ok None
      | Some (TArray items) => Some <$> marker_strings items
      | Some _ => Err MarkersInvalid
      end
  | _ => Ok None
  end.

(** ** Trust *)
Record ProjectTrustContext : Type := {
  project_root : AbsolutePathBuf;
  project_root_key : str;
  repo_root_key : option str;
  projects_trust : gmap str TrustLevel;
  user_config_file : AbsolutePathBuf;
}.

Record ProjectTrustDecision : Type := { trust_level : option TrustLevel; trust_key : str }.

Definition is_trusted (self : ProjectTrustDecision) : bool :=
  match trust_level self with Some Trusted => true | _ => false end.

Section Loader.
Context `{PathEnv}.
(** [Path::to_string_lossy], also for display. *)
Context (to_string_lossy : Path → str).
Context (version_for_toml : TomlValue → str).
(** The text of a file; [toml::from_str]; the round trip through [ConfigToml]
    with the base directory for relative paths: [None] when the value is not a
    [ConfigToml], an error when the result does not serialise. *)
Context (read_file : Path → file_read) (toml_from_str : str → outcome str TomlValue).
Context (config_toml_round_trip : Path → TomlValue → option (outcome str TomlValue)).
(** The [projects] of a configuration. *)
Context (projects_of : TomlValue → outcome str (gmap str (option TrustLevel))).

Definition decision_for_dir (self : ProjectTrustContext) (dir : AbsolutePathBuf) : ProjectTrustDecision :=
  let dir_key := to_string_lossy dir in
  match projects_trust self !! dir_key with
  | Some trust_level => {| trust_level := Some trust_level; trust_key := dir_key |}
  | None =>
      match projects_trust self !! project_root_key self with
      | Some trust_level => {| trust_level := Some trust_level; trust_key := project_root_key self |}
      | None =>
          match repo_root_key self ≫= λ key, (λ level, (key, level)) <$> projects_trust self !! key with
          | Some (key, level) => {| trust_level := Some level; trust_key := key |}
          | None =>
              {| trust_level := None;
                 trust_key := default (project_root_key self) (repo_root_key self) |}
          end
      end
  end.

Definition disabled_reason_for_dir (self : ProjectTrustContext) (dir : AbsolutePathBuf) : option str :=
  let decision := decision_for_dir self dir in
  if is_trusted decision then None
  else
    let file := to_string_lossy (user_config_file self) in
    match trust_level decision with
    | Some UntrustedProject =>
        Some (trust_key decision ++ lit " is marked as untrusted in " ++ file
              ++ lit ". To load config.toml, mark it trusted.")
    | _ =>
        Some (lit "To load config.toml, add " ++ trust_key decision ++ lit " as a trusted project in "
              ++ file ++ lit ".")
    end.

Definition project_layer_entry (trust_context : ProjectTrustContext)
    (dot_codex_folder layer_dir : AbsolutePathBuf) (config : TomlValue) (config_toml_exists : bool) :
    ConfigLayerEntry :=
  let source := Project dot_codex_folder in
  match (if config_toml_exists then disabled_reason_for_dir trust_context layer_dir else None) with
  | Some reason => new_disabled version_for_toml source config reason
  | None => layer_new version_for_toml source config
  end.

(** *** The repository that is trusted *)
Definition canonicalize_or_raw (p : Path) : Path := default p (canonicalize p).

Definition find_ancestor_git_entry (base_dir : Path) : option (Path * Path) :=
  head (omap (λ dir, let dot_git := Paths.path_join dir (path_of_str (lit ".git")) in
                     if path_exists dot_git then Some (dir, dot_git) else None) (ancestors base_dir)).

Definition resolve_root_git_project_for_trust (cwd : Path) : option Path :=
  base ← (if is_dir cwd then Some cwd else parent cwd);
  '(repo_root, dot_git) ← find_ancestor_git_entry base;
  if is_dir dot_git then Some (canonicalize_or_raw repo_root)
  else
    git_dir_s ← Paths.read_to_string dot_git;
    rest ← RustStr.strip_prefix (lit "gitdir:") (trim git_dir_s);
    let git_dir_rel := trim rest in
    if bool_decide (git_dir_rel = []) then None
    else
      let git_dir_path := canonicalize_or_raw (resolve_path repo_root (path_of_str git_dir_rel)) in
      worktrees_dir ← parent git_dir_path;
      if negb (bool_decide (path_file_name worktrees_dir = Some (lit "worktrees"))) then None
      else
        common_dir ← parent worktrees_dir;
        main_repo_root ← parent common_dir;
        Some (canonicalize_or_raw main_repo_root).

(** *** Project layers *)
Definition marked (project_root_markers : list str) (ancestor : Path) : bool :=
  existsb (λ marker, path_exists (Paths.path_join ancestor (path_of_str marker))) project_root_markers.

Definition find_project_root (cwd : AbsolutePathBuf) (project_root_markers : list str) :
    outcome LoadError AbsolutePathBuf :=
  match project_root_markers with
  | [] => Ok cwd
  | _ =>
      match head (List.filter (marked project_root_markers) (ancestors cwd)) with
      | Some ancestor =>
          match Paths.from_absolute_path ancestor with
          | Some root => Ok root
          | None => Err (PathInvalid ancestor)
          end
      | None => Ok cwd
      end
  end.

Definition project_trust_context (merged_config : TomlValue) (cwd : AbsolutePathBuf)
    (project_root_markers : list str) (user_config_file : AbsolutePathBuf) :
    outcome LoadError ProjectTrustContext :=
  projects ← map_err TrustInvalid (projects_of merged_config);
  project_root ← find_project_root cwd project_root_markers;
  Ok {| project_root := project_root;
        project_root_key := to_string_lossy project_root;
        repo_root_key := to_string_lossy <$> resolve_root_git_project_for_trust cwd;
        projects_trust := omap id projects;
        user_config_file := user_config_file |}.

(** The ancestors up to the root, and no further when it is among them. *)
Fixpoint scan_to (project_root : Path) (dirs : list Path) : list Path :=
  match dirs with
  | [] => []
  | a :: dirs => a :: (if bool_decide (a = project_root) then [] else scan_to project_root dirs)
  end.

Definition resolve_relative_paths_in_config_toml (value : TomlValue) (base_dir : Path) :
    outcome LoadError TomlValue :=
  match config_toml_round_trip base_dir value with
  | None => Ok value
  | Some resolved =>
      resolved_value ← map_err ResolvedNotSerialized resolved;
      Ok (copy_shape_from_original value resolved_value)
  end.

Definition DOT_CODEX : str := lit ".codex".
Definition CONFIG_TOML_FILE : str := lit "config.toml".

Definition try_path (o : option AbsolutePathBuf) (path : Path) : outcome LoadError AbsolutePathBuf :=
  match o with Some p => Ok p | None => Err (PathInvalid path) end.

(** The layer of one directory, if it has one. *)
Definition load_project_layer (trust_context : ProjectTrustContext)
    (codex_home_abs codex_home_normalized : Path) (dir : Path) :
    outcome LoadError (option ConfigLayerEntry) :=
  let dot_codex := Paths.path_join dir (path_of_str DOT_CODEX) in
  if negb (is_dir dot_codex) then Ok None
  else
    layer_dir ← try_path (Paths.from_absolute_path dir) dir;
    let decision := decision_for_dir trust_context layer_dir in
    dot_codex_abs ← try_path (Paths.from_absolute_path dot_codex) dot_codex;
    let dot_codex_normalized := canonicalize_or_raw dot_codex_abs in
    if bool_decide (dot_codex_abs = codex_home_abs)
       || bool_decide (dot_codex_normalized = codex_home_normalized)
    then Ok None
    else
      config_file ← try_path (Paths.join dot_codex_abs (path_of_str CONFIG_TOML_FILE)) dot_codex_abs;
      match read_file config_file with
      | Contents contents =>
          match toml_from_str contents with
          | Ok config =>
              config ← resolve_relative_paths_in_config_toml config dot_codex_abs;
              Ok (Some (project_layer_entry trust_context dot_codex_abs layer_dir config true))
          | Err e =>
              if is_trusted decision then Err (FileInvalid config_file e)
              else Ok (Some (project_layer_entry trust_context dot_codex_abs layer_dir
                               (TTable []) true))
          | Panic => Panic
          | NoFuel => NoFuel
          end
      | NotFound =>
          Ok (Some (project_layer_entry trust_context dot_codex_abs layer_dir (TTable []) false))
      | ReadFailed e => Err (FileUnreadable config_file e)
      end.

Fixpoint load_layers_of (trust_context : ProjectTrustContext)
    (codex_home_abs codex_home_normalized : Path) (dirs : list Path) :
    outcome LoadError (list ConfigLayerEntry) :=
  match dirs with
  | [] => Ok []
  | dir :: dirs =>
      layer ← load_project_layer trust_context codex_home_abs codex_home_normalized dir;
      layers ← load_layers_of trust_context codex_home_abs codex_home_normalized dirs;
      Ok (option_list layer ++ layers)
  end.

Definition load_project_layers (cwd project_root : AbsolutePathBuf)
    (trust_context : ProjectTrustContext) (codex_home : Path) :
    outcome LoadError (list ConfigLayerEntry) :=
  codex_home_abs ← try_path (Paths.from_absolute_path codex_home) codex_home;
  load_layers_of trust_context codex_home_abs (canonicalize_or_raw codex_home_abs)
    (reverse (scan_to project_root (ancestors cwd))).

(** *** Requirements *)
Context (requirements_from_str : str → outcome str ConfigRequirementsToml).
Context (legacy_of_toml : TomlValue → outcome str LegacyManagedConfigToml).

Definition SYSTEM_REQUIREMENTS_FILE : Path := path_of_str (lit "/etc/codex/requirements.toml").
Definition SYSTEM_CONFIG_TOML_FILE_UNIX : Path := path_of_str (lit "/etc/codex/config.toml").

Definition load_requirements_toml (ws : ConfigRequirementsWithSources) (file : Path) :
    outcome LoadError ConfigRequirementsWithSources :=
  file ← try_path (Paths.from_absolute_path file) file;
  match read_file file with
  | Contents contents =>
      requirements ← map_err (FileInvalid file) (requirements_from_str contents);
      Ok (merge_unset_fields ws (SystemRequirementsToml file) requirements)
  | NotFound => Ok ws
  | ReadFailed e => Err (FileUnreadable file e)
  end.

(** What [layer_io] has read of the managed configuration. *)
Record LoadedConfigLayers : Type := {
  managed_config : option (AbsolutePathBuf * TomlValue);
  managed_config_from_mdm : option (TomlValue * str);
}.

Definition CODEX_MANAGED_CONFIG_SYSTEM_PATH : Path := path_of_str (lit "/etc/codex/managed_config.toml").
Definition managed_config_default_path (codex_home : Path) : Path := CODEX_MANAGED_CONFIG_SYSTEM_PATH.

Definition read_config_from_path (path : Path) : outcome LoadError (option TomlValue) :=
  match read_file path with
  | Contents contents => Some <$> map_err (FileInvalid path) (toml_from_str contents)
  | NotFound => Ok None
  | ReadFailed e => Err (FileUnreadable path e)
  end.

(** [managed_preferences]: what the platform's managed preferences hold, [Ok None]
    outside macOS. *)
Definition load_config_layers_internal (codex_home : Path) (managed_config_path : option Path)
    (managed_preferences : outcome str (option (TomlValue * str))) : outcome LoadError LoadedConfigLayers :=
  let path := default (managed_config_default_path codex_home) managed_config_path in
  managed_config_path ← try_path (Paths.from_absolute_path path) path;
  config ← read_config_from_path managed_config_path;
  preferences ← map_err LegacyInvalid managed_preferences;
  Ok {| managed_config := (λ config, (managed_config_path, config)) <$> config;
        managed_config_from_mdm := preferences |}.

Definition load_legacy (ws : ConfigRequirementsWithSources) (source : RequirementSource)
    (config : TomlValue) : outcome LoadError ConfigRequirementsWithSources :=
  legacy ← map_err LegacyInvalid (legacy_of_toml config);
  Ok (merge_unset_fields ws source (requirements_from_legacy legacy)).

Definition load_requirements_from_legacy_scheme (ws : ConfigRequirementsWithSources)
    (loaded : LoadedConfigLayers) : outcome LoadError ConfigRequirementsWithSources :=
  ws ← match managed_config_from_mdm loaded with
       | Some (config, _) => load_legacy ws LegacyManagedFromMdm config
       | None => Ok ws
       end;
  match managed_config loaded with
  | Some (file, config) => load_legacy ws (LegacyManagedFromFile file) config
  | None => Ok ws
  end.

(** *** The loader *)
Definition load_config_toml_for_required_layer (toml_file : AbsolutePathBuf)
    (create_entry : TomlValue → ConfigLayerEntry) : outcome LoadError ConfigLayerEntry :=
  toml_value ←
    match read_file toml_file with
    | Contents contents =>
        config ← map_err (FileInvalid toml_file) (toml_from_str contents);
        match parent toml_file with
        | Some config_parent => resolve_relative_paths_in_config_toml config config_parent
        | None => Err (NoParentDirectory toml_file)
        end
    | NotFound => Ok (TTable [])
    | ReadFailed e => Err (FileUnreadable toml_file e)
    end;
  Ok (create_entry toml_value).

Definition stack_of (layers : list ConfigLayerEntry) (ws : ConfigRequirementsWithSources) :
    outcome LoadError (@ConfigLayerStack ConfigRequirements ConfigRequirementsToml) :=
  requirements ← map_err RequirementsInvalid (try_from_sources ws);
  map_err LayersInvalid (stack_new layers requirements (into_toml ws)).

(** The layers below the command line's. *)
Definition merged_so_far (base_layers : list ConfigLayerEntry) (cli_overrides_layer : option TomlValue) :
    TomlValue :=
  let merged := merge_layers (TTable []) base_layers in
  match cli_overrides_layer with
  | Some cli => merge_toml_values merged cli
  | None => merged
  end.

Definition project_layers_for (codex_home : Path) (cwd : option AbsolutePathBuf)
    (user_file : AbsolutePathBuf) (base_layers : list ConfigLayerEntry)
    (cli_overrides_layer : option TomlValue) : outcome LoadError (list ConfigLayerEntry) :=
  match cwd with
  | None => Ok []
  | Some cwd =>
      let merged := merged_so_far base_layers cli_overrides_layer in
      markers ← project_root_markers_from_config merged;
      let project_root_markers := default default_project_root_markers markers in
      trust_context ← project_trust_context merged cwd project_root_markers user_file;
      load_project_layers cwd (project_root trust_context) trust_context codex_home
  end.

Definition managed_layers (loaded : LoadedConfigLayers) : outcome LoadError (list ConfigLayerEntry) :=
  from_file ←
    match managed_config loaded with
    | Some (file, config) =>
        match parent file with
        | None => Err (NoParentDirectory file)
        | Some managed_parent =>
            config ← resolve_relative_paths_in_config_toml config managed_parent;
            Ok [layer_new version_for_toml (ConfigLayers.LegacyManagedConfigTomlFromFile file) config]
        end
    | None => Ok []
    end;
  Ok (from_file ++
      match managed_config_from_mdm loaded with
      | Some (config, raw) => [new_with_raw_toml version_for_toml LegacyManagedConfigTomlFromMdm config raw]
      | None => []
      end).

Definition load_config_layers_state (codex_home : Path) (cwd : option AbsolutePathBuf)
    (cli_overrides : list (str * TomlValue)) (managed_config_path : option Path)
    (managed_preferences : outcome str (option (TomlValue * str)))
    (cloud_requirements : outcome str (option ConfigRequirementsToml)) :
    outcome LoadError (@ConfigLayerStack ConfigRequirements ConfigRequirementsToml) :=
  cloud ← map_err CloudFailed cloud_requirements;
  let ws := match cloud with
            | Some requirements => merge_unset_fields with_sources_default CloudRequirements requirements
            | None => with_sources_default
            end in
  ws ← load_requirements_toml ws SYSTEM_REQUIREMENTS_FILE;
  loaded ← load_config_layers_internal codex_home managed_config_path managed_preferences;
  ws ← load_requirements_from_legacy_scheme ws loaded;
  cli_overrides_layer ←
    (if bool_decide (length cli_overrides = 0) then Ok None
     else
       Some <$> resolve_relative_paths_in_config_toml (build_cli_overrides_layer cli_overrides)
                  (default codex_home cwd));
  system_file ← try_path (Paths.from_absolute_path SYSTEM_CONFIG_TOML_FILE_UNIX) SYSTEM_CONFIG_TOML_FILE_UNIX;
  system_layer ← load_config_toml_for_required_layer system_file (layer_new version_for_toml (System system_file));
  user_file ← try_path (resolve_path_against_base (path_of_str CONFIG_TOML_FILE) codex_home) codex_home;
  user_layer ← load_config_toml_for_required_layer user_file (layer_new version_for_toml (User user_file));
  project_layers ← project_layers_for codex_home cwd user_file [system_layer; user_layer] cli_overrides_layer;
  managed ← managed_layers loaded;
  stack_of ([system_layer; user_layer] ++ project_layers
            ++ option_list (layer_new version_for_toml SessionFlags <$> cli_overrides_layer)
            ++ managed) ws.

(** ** The order of the layers *)
Definition no_layers_error {A} (m : outcome LoadError A) : Prop :=
  match m with Err (LayersInvalid _) => False | _ => True end.

Lemma no_layers_bind {A B} (m : outcome LoadError A) (f : A → outcome LoadError B) :
  no_layers_error m → (∀ a, m = Ok a → no_layers_error (f a)) → no_layers_error (m ≫= f).
Proof. destruct m; cbn; auto. Qed.

Lemma no_layers_fmap {A B} (m : outcome LoadError A) (f : A → B) :
  no_layers_error m → no_layers_error (f <$> m).
Proof. by destruct m. Qed.

Lemma no_layers_map_err {E A} (g : E → LoadError) (m : outcome E A) :
  (∀ e, no_layers_error (Err (A := A) (g e))) → no_layers_error (map_err g m).
Proof. intros Hg. destruct m; [done|apply Hg|done|done]. Qed.

Lemma no_layers_try o p : no_layers_error (try_path o p).
Proof. by destruct o. Qed.

Lemma map_err_ok {E A} (g : E → LoadError) (m : outcome E A) a : map_err g m = Ok a → m = Ok a.
Proof. destruct m; cbn; try done. by intros [= ->]. Qed.

Lemma try_path_ok o p q : try_path o p = Ok q → o = Some q.
Proof. destruct o; cbn; [by intros [= ->]|done]. Qed.

Ltac no_layers :=
  repeat first
    [ done
    | apply no_layers_try
    | apply no_layers_fmap
    | apply no_layers_map_err; by intros
    | apply no_layers_bind; [|intros ? ?]
    | match goal with |- no_layers_error (match ?x with _ => _ end) => destruct x eqn:? end
    | progress cbn [no_layers_error] ].

Lemma resolve_no_layers v base : no_layers_error (resolve_relative_paths_in_config_toml v base).
Proof. unfold resolve_relative_paths_in_config_toml. no_layers. Qed.

Lemma markers_no_layers v : no_layers_error (project_root_markers_from_config v).
Proof.
  assert (Hm : ∀ items, no_layers_error (marker_strings items)).
  { induction items as [|[] items IH]; cbn; no_layers. }
  unfold project_root_markers_from_config. no_layers.
Qed.

Lemma project_layer_no_layers ctx home norm dir : no_layers_error (load_project_layer ctx home norm dir).
Proof. unfold load_project_layer. no_layers. apply resolve_no_layers. Qed.

Lemma layers_of_no_layers ctx home norm dirs : no_layers_error (load_layers_of ctx home norm dirs).
Proof. induction dirs; cbn; no_layers. apply project_layer_no_layers. Qed.

Lemma required_layer_no_layers file create : no_layers_error (load_config_toml_for_required_layer file create).
Proof. unfold load_config_toml_for_required_layer. no_layers. apply resolve_no_layers. Qed.

(** *** Directories from the root down *)
Definition strictly_below (d e : Path) : Prop := d `prefix_of` e ∧ d ≠ e.

Lemma ancestors_normal p a : normal_abs p = true → a ∈ ancestors p → normal_abs a = true.
Proof.
  intros [names ->]%normal_abs_spec. unfold ancestors. rewrite reverse_cons, <- fmap_reverse.
  generalize (reverse names). clear names. induction l as [|n l IH]; intros Ha.
  - by apply list_elem_of_singleton in Ha as ->.
  - cbn [fmap list_fmap app ancestors_rev] in Ha. apply elem_of_cons in Ha as [->|Ha]; [|by apply IH].
    rewrite app_comm_cons. change (Normal n :: (Normal <$> l)) with (Normal <$> n :: l).
    rewrite reverse_app, <- fmap_reverse. apply normal_abs_spec. eauto.
Qed.

Lemma prefix_ancestor p a : normal_abs p = true → normal_abs a = true → a `prefix_of` p → a ∈ ancestors p.
Proof.
  intros Hp Ha [r ->]. revert Hp. induction r as [|c r IH] using rev_ind; intros Hp.
  - rewrite app_nil_r in *. apply normal_abs_spec in Hp as [names ->]. unfold ancestors.
    destruct (reverse (RootDir :: (Normal <$> names))) as [|c l] eqn:E.
    { by rewrite reverse_cons in E; destruct (reverse (Normal <$> names)). }
    rewrite <- (reverse_involutive (RootDir :: (Normal <$> names))), E. cbn. destruct c; set_solver.
  - assert (Hp' : normal_abs (a ++ r) = true).
    { apply normal_abs_spec in Hp as [names Hn]. apply normal_abs_spec.
      destruct a as [|a0 a]; [by apply normal_abs_spec in Ha as [? ?]|].
      cbn in Hn. injection Hn as -> Hn. rewrite app_assoc in Hn.
      symmetry in Hn. apply fmap_app_inv in Hn as (n1 & n2 & Hn1 & Hn2 & ->). exists n1. cbn. by rewrite Hn1. }
    unfold ancestors. rewrite app_assoc, reverse_snoc. cbn. specialize (IH Hp'). unfold ancestors in IH.
    assert (c ≠ RootDir).
    { intros ->. apply normal_abs_spec in Hp as [names Hn]. destruct a as [|a0 a]; [by apply normal_abs_spec in Ha as [? ?]|].
      cbn in Hn. injection Hn as _ Hn. assert (Hr : RootDir ∈ Normal <$> names) by (rewrite <- Hn; set_solver).
      by apply list_elem_of_fmap in Hr as (? & [=] & _). }
    destruct c; set_solver.
Qed.

Lemma ancestors_sorted p : normal_abs p = true → StronglySorted (λ a b, strictly_below b a) (ancestors p).
Proof.
  intros _. unfold ancestors. generalize (reverse p). clear p. induction l as [|c l IH]; [by repeat constructor|].
  assert (Hs : ∀ a, a ∈ ancestors_rev l → strictly_below a (reverse (c :: l))).
  { intros a Ha. replace (ancestors_rev l) with (ancestors (reverse l)) in Ha
      by (unfold ancestors; by rewrite reverse_involutive).
    apply ancestors_prefix in Ha. rewrite reverse_cons. split; [by apply prefix_app_r|].
    intros ->. apply prefix_length in Ha. rewrite length_app in Ha. cbn in Ha. lia. }
  cbn [ancestors_rev]. destruct c; try (apply StronglySorted_cons; split; [by apply Forall_forall|done]).
  by repeat constructor.
Qed.

Lemma StronglySorted_reverse {A} (R : A → A → Prop) l :
  StronglySorted R l → StronglySorted (λ a b, R b a) (reverse l).
Proof.
  induction 1 as [|a l Hs IH Hf]; [constructor|]. rewrite reverse_cons. apply StronglySorted_app.
  split_and!; [|done|by repeat constructor].
  intros x y Hx ->%list_elem_of_singleton. rewrite elem_of_reverse in Hx. by eapply Forall_forall in Hf.
Qed.

Lemma sublist_Forall {A} (P : A → Prop) l k : l `sublist_of` k → Forall P k → Forall P l.
Proof. induction 1; [done|..]; inversion_clear 1; [constructor; auto|auto]. Qed.

Lemma StronglySorted_sublist {A} (R : A → A → Prop) l k :
  l `sublist_of` k → StronglySorted R k → StronglySorted R l.
Proof.
  induction 1 as [|a l k Hl IH|a l k Hl IH]; intros Hs; [constructor| |].
  - apply StronglySorted_cons in Hs as [Hf Hs]. apply StronglySorted_cons. split; [|auto].
    by eapply sublist_Forall.
  - apply StronglySorted_cons in Hs as [_ Hs]. auto.
Qed.

Lemma scan_to_prefix root dirs : scan_to root dirs `prefix_of` dirs.
Proof.
  induction dirs as [|a dirs IH]; cbn; [done|]. apply prefix_cons. case_bool_decide; [apply prefix_nil|done].
Qed.

(** The directories that are searched, from the project root down. *)
Lemma searched_dirs root cwd :
  normal_abs cwd = true →
  StronglySorted strictly_below (reverse (scan_to root (ancestors cwd))) ∧
  Forall (λ d, normal_abs d = true) (reverse (scan_to root (ancestors cwd))).
Proof.
  intros Hc. assert (Hsub : scan_to root (ancestors cwd) `sublist_of` ancestors cwd)
    by (destruct (scan_to_prefix root (ancestors cwd)) as [r Hr]; rewrite Hr at 2; by apply sublist_inserts_r). split.
  - apply (StronglySorted_reverse (λ a b, strictly_below b a)). eapply StronglySorted_sublist; [done|].
    by apply ancestors_sorted.
  - rewrite Forall_reverse. eapply sublist_Forall; [done|]. apply Forall_forall. intros d.
    by apply ancestors_normal.
Qed.

Definition dot_codex_of (d : Path) : Path := d ++ [Normal DOT_CODEX].

Lemma chain_of_dirs ds :
  StronglySorted strictly_below ds → Forall (λ d, normal_abs d = true) ds →
  chain None (dot_codex_of <$> ds).
Proof.
  intros Hs Hn. assert (Hg : ∀ previous, match previous with
    | Some d0 => normal_abs d0 = true ∧ Forall (strictly_below d0) ds | None => True end →
    chain (dot_codex_of <$> previous) (dot_codex_of <$> ds)); [|by apply (Hg None)].
  induction Hs as [|d ds Hs IH Hd]; [done|]. apply Forall_cons in Hn as [Hnd Hn].
  intros previous Hp. cbn. split; [|by apply (IH Hn (Some d))].
  destruct previous as [d0|]; [|done]. destruct Hp as [H0 [[Hpre Hne] _]%Forall_cons]. cbn. split.
  - by intros ?%app_inj_tail%proj1.
  - exists d0. split.
    + unfold parent, dot_codex_of. rewrite reverse_snoc, reverse_involutive. by destruct (Normal DOT_CODEX).
    + apply prefix_ancestor; [by apply (normal_abs_app d [DOT_CODEX])|done|by apply prefix_app_r].
Qed.

(** *** The layers of a project *)
Context `{!PathLaws}.

(** What loading the layer of [d] gives. *)
Definition layer_of (ctx : ProjectTrustContext) (d : Path) (l : ConfigLayerEntry) : Prop :=
  name l = Project (dot_codex_of d) ∧
  (is_disabled l = false →
   is_trusted (decision_for_dir ctx d) = true ∨
   config l = TTable [] ∧ read_file (dot_codex_of d ++ [Normal CONFIG_TOML_FILE]) = NotFound).

Lemma project_layer_entry_of ctx d v b :
  (b = false → v = TTable [] ∧ read_file (dot_codex_of d ++ [Normal CONFIG_TOML_FILE]) = NotFound) →
  layer_of ctx d (project_layer_entry ctx (dot_codex_of d) d v b).
Proof.
  intros Hb. unfold project_layer_entry, layer_of, disabled_reason_for_dir. destruct b; [|by split; auto].
  destruct (is_trusted (decision_for_dir ctx d)) eqn:Et; [by split; auto|].
  by destruct (trust_level (decision_for_dir ctx d)) as [[]|].
Qed.

Lemma dot_codex_join d : normal_abs d = true → Paths.path_join d (path_of_str DOT_CODEX) = dot_codex_of d.
Proof. intros [names ->]%normal_abs_spec. done. Qed.

Lemma load_project_layer_spec ctx home norm d l :
  normal_abs d = true → load_project_layer ctx home norm d = Ok (Some l) → layer_of ctx d l.
Proof.
  intros Hd. assert (Hn : normal_abs (dot_codex_of d) = true) by by apply (normal_abs_app d [DOT_CODEX]).
  unfold load_project_layer. rewrite dot_codex_join by done. destruct (is_dir _); [|done].
  cbn [negb]. rewrite !from_absolute_path_id by done. cbn [try_path mbind outcome_bind].
  destruct (bool_decide _ || bool_decide _); [done|].
  change (path_of_str CONFIG_TOML_FILE) with [Normal CONFIG_TOML_FILE].
  rewrite join_name by done. cbn [try_path mbind outcome_bind].
  destruct (read_file _) eqn:Er; [|intros [= <-]; by apply project_layer_entry_of|done].
  destruct (toml_from_str text); try done.
  - intros (v & _ & [= <-])%bind_Ok_inv. by apply project_layer_entry_of.
  - destruct (is_trusted _); [done|]. intros [= <-]. by apply project_layer_entry_of.
Qed.

Lemma load_layers_of_spec ctx home norm dirs ls :
  Forall (λ d, normal_abs d = true) dirs → load_layers_of ctx home norm dirs = Ok ls →
  ∃ ds, ds `sublist_of` dirs ∧ Forall2 (layer_of ctx) ds ls.
Proof.
  intros Hn. revert ls. induction Hn as [|d dirs Hd Hn IH]; intros ls; cbn.
  { intros [= <-]. by exists []. }
  intros (o & Ho & (ls' & (ds & Hds & Hl)%IH & [= <-])%bind_Ok_inv)%bind_Ok_inv. destruct o as [l|]; cbn.
  - exists (d :: ds). split; [by constructor|]. constructor; [|done]. by eapply load_project_layer_spec.
  - exists ds. split; [by constructor|done].
Qed.

Lemma project_folders ctx ds ls :
  Forall2 (layer_of ctx) ds ls → omap project_folder ls = dot_codex_of <$> ds.
Proof.
  induction 1 as [|d l ds ls [Hl _] _ IH]; [done|]. cbn. unfold project_folder at 1. by rewrite Hl, IH.
Qed.

(** The project layers between the directories of the project. *)
Definition project_layers (ctx : ProjectTrustContext) (ls : list ConfigLayerEntry) : Prop :=
  ∃ ds, StronglySorted strictly_below ds ∧ Forall (λ d, normal_abs d = true) ds ∧ Forall2 (layer_of ctx) ds ls.

Lemma load_project_layers_spec cwd root ctx home ls :
  normal_abs cwd = true → load_project_layers cwd root ctx home = Ok ls → project_layers ctx ls.
Proof.
  intros Hc. destruct (searched_dirs root cwd Hc) as [Hs Hn].
  unfold load_project_layers. intros (h & _ & (ds & Hds & Hl)%load_layers_of_spec)%bind_Ok_inv; [|done].
  exists ds. split_and!; [by eapply StronglySorted_sublist|by eapply sublist_Forall|done].
Qed.

Lemma project_layers_for_spec home cwd user_file base cli ls :
  normal_abs cwd = true → project_layers_for home (Some cwd) user_file base cli = Ok ls →
  ∃ markers ctx, project_trust_context (merged_so_far base cli) cwd markers user_file = Ok ctx ∧
    project_layers ctx ls.
Proof.
  intros Hc. unfold project_layers_for.
  intros (markers & _ & (ctx & Hctx & Hl%load_project_layers_spec)%bind_Ok_inv)%bind_Ok_inv; [eauto|done].
Qed.

Lemma managed_layers_names loaded ls :
  managed_layers loaded = Ok ls →
  name <$> ls =
    option_list ((λ m, LegacyManagedConfigTomlFromFile m.1) <$> managed_config loaded)
    ++ option_list ((λ _, LegacyManagedConfigTomlFromMdm) <$> managed_config_from_mdm loaded).
Proof.
  unfold managed_layers. intros (from_file & Hf & [= <-])%bind_Ok_inv. rewrite fmap_app. f_equal.
  - destruct (managed_config loaded) as [[file v]|]; [|by injection Hf as <-]. cbn in *.
    destruct (parent file); [|done]. by apply bind_Ok_inv in Hf as (v' & _ & [= <-]).
  - by destruct (managed_config_from_mdm loaded) as [[v raw]|].
Qed.

(** *** The order *)
Definition upper_names (cli : option TomlValue) (loaded : LoadedConfigLayers) : list ConfigLayerSource :=
  option_list ((λ _, SessionFlags) <$> cli)
  ++ option_list ((λ m, LegacyManagedConfigTomlFromFile m.1) <$> managed_config loaded)
  ++ option_list ((λ _, LegacyManagedConfigTomlFromMdm) <$> managed_config_from_mdm loaded).

Lemma upper_names_spec cli loaded :
  StronglySorted (λ a b, precedence a ≤ precedence b)%Z (upper_names cli loaded) ∧
  Forall (λ n, (25 < precedence n)%Z) (upper_names cli loaded).
Proof.
  unfold upper_names. destruct cli, (managed_config loaded), (managed_config_from_mdm loaded);
    split; cbn; repeat constructor; cbn; lia.
Qed.

(** The names of the layers of a stack that is loaded. *)
Definition loaded_names (sys_file usr_file : AbsolutePathBuf) (ds : list Path) (cli : option TomlValue)
    (loaded : LoadedConfigLayers) : list ConfigLayerSource :=
  [System sys_file; User usr_file] ++ ((λ d, Project (dot_codex_of d)) <$> ds) ++ upper_names cli loaded.

Lemma loaded_names_sorted sys_file usr_file ds cli loaded :
  StronglySorted (λ a b, precedence a ≤ precedence b)%Z (loaded_names sys_file usr_file ds cli loaded).
Proof.
  destruct (upper_names_spec cli loaded) as [Hs Hf]. unfold loaded_names.
  assert (Hp : StronglySorted (λ a b, precedence a ≤ precedence b)%Z
      (((λ d, Project (dot_codex_of d)) <$> ds) ++ upper_names cli loaded) ∧
    Forall (λ n, (25 ≤ precedence n)%Z) (((λ d, Project (dot_codex_of d)) <$> ds) ++ upper_names cli loaded)).
  { induction ds as [|d ds [IH1 IH2]]; cbn.
    - split; [done|]. eapply Forall_impl; [done|]. cbn. lia.
    - split; [by apply StronglySorted_cons|]. constructor; [cbn; lia|done]. }
  destruct Hp as [Hp1 Hp2]. cbn. repeat (apply StronglySorted_cons; split); [| |done].
  - constructor; [cbn; lia|]. eapply Forall_impl; [done|]. cbn. lia.
  - eapply Forall_impl; [done|]. cbn. lia.
Qed.

Lemma named_ordered ls sys_file usr_file ds cli loaded :
  name <$> ls = loaded_names sys_file usr_file ds cli loaded →
  StronglySorted strictly_below ds → Forall (λ d, normal_abs d = true) ds →
  layers_ordered ls (Some 1).
Proof.
  intros Hn Hs Hd. split_and!.
  - rewrite Hn. apply loaded_names_sorted.
  - assert (Hf : omap project_folder ls = dot_codex_of <$> ds); [|rewrite Hf; by apply chain_of_dirs].
    transitivity (omap (λ n, match n with Project d => Some d | _ => None end) (name <$> ls)).
    { clear. induction ls as [|l ls IH]; [done|]. cbn. unfold project_folder at 1. by rewrite IH. }
    rewrite Hn. unfold loaded_names. cbn. clear. induction ds as [|d ds IH]; cbn; [|by rewrite IH].
    unfold upper_names. by destruct cli, (managed_config loaded), (managed_config_from_mdm loaded).
  - right. exists 1. split; [|done]. destruct ls as [|sys [|usr ls]]; [done..|].
    injection Hn as Hsys Husr Hn. cbn. unfold is_user at 1 2. rewrite Hsys, Husr. cbn. f_equal.
    apply user_positions_nil. intros l Hl%(list_elem_of_fmap_2 name). rewrite (Hn : name <$> ls = _) in Hl.
    unfold is_user. destruct (upper_names_spec cli loaded) as [_ Hf]. rewrite elem_of_app in Hl.
    destruct Hl as [(d & -> & _)%list_elem_of_fmap|Hl]; [done|]. eapply Forall_forall in Hf; [|done].
    by destruct (name l).
Qed.

(** *** A run of the loader *)
Definition CONFIG_TOML : Path := path_of_str CONFIG_TOML_FILE.

(** What a run that reaches [ConfigLayerStack::new] has loaded. *)
Record loaded_run (codex_home : Path) (cwd : option AbsolutePathBuf) (cli_overrides : list (str * TomlValue))
    (managed_config_path : option Path) (managed_preferences : outcome str (option (TomlValue * str)))
    (ls : list ConfigLayerEntry) : Type := {
  run_loaded : LoadedConfigLayers;
  run_cli : option TomlValue;
  run_system_file : AbsolutePathBuf;
  run_system : ConfigLayerEntry;
  run_user_file : AbsolutePathBuf;
  run_user : ConfigLayerEntry;
  run_projects : list ConfigLayerEntry;
  run_managed : list ConfigLayerEntry;
  run_loaded_ok : load_config_layers_internal codex_home managed_config_path managed_preferences = Ok run_loaded;
  run_cli_ok : match run_cli with
    | None => True
    | Some cli => resolve_relative_paths_in_config_toml (build_cli_overrides_layer cli_overrides)
                    (default codex_home cwd) = Ok cli
    end;
  run_system_ok : load_config_toml_for_required_layer run_system_file
    (layer_new version_for_toml (System run_system_file)) = Ok run_system;
  run_user_file_ok : resolve_path_against_base CONFIG_TOML codex_home = Some run_user_file;
  run_user_ok : load_config_toml_for_required_layer run_user_file
    (layer_new version_for_toml (User run_user_file)) = Ok run_user;
  run_projects_ok : project_layers_for codex_home cwd run_user_file [run_system; run_user] run_cli
    = Ok run_projects;
  run_managed_ok : managed_layers run_loaded = Ok run_managed;
  run_layers : ls = [run_system; run_user] ++ run_projects
    ++ option_list (layer_new version_for_toml SessionFlags <$> run_cli) ++ run_managed;
}.

(** [m] does not fail on the order of the layers, and a value satisfies [P]. *)
Definition wp {A} (m : outcome LoadError A) (P : A → Prop) : Prop :=
  match m with Ok a => P a | Err (LayersInvalid _) => False | _ => True end.

Lemma wp_bind {A B} (m : outcome LoadError A) (f : A → outcome LoadError B) P :
  no_layers_error m → (∀ a, m = Ok a → wp (f a) P) → wp (m ≫= f) P.
Proof. destruct m; cbn; auto. Qed.

Lemma loaded_internal_no_layers home path prefs : no_layers_error (load_config_layers_internal home path prefs).
Proof. unfold load_config_layers_internal, read_config_from_path. no_layers. Qed.

Lemma requirements_no_layers ws file : no_layers_error (load_requirements_toml ws file).
Proof. unfold load_requirements_toml. no_layers. Qed.

Lemma legacy_no_layers ws loaded : no_layers_error (load_requirements_from_legacy_scheme ws loaded).
Proof. unfold load_requirements_from_legacy_scheme, load_legacy. no_layers. Qed.

Lemma projects_no_layers home cwd file base cli : no_layers_error (project_layers_for home cwd file base cli).
Proof.
  unfold project_layers_for, project_trust_context, find_project_root, load_project_layers.
  destruct cwd; [|done]. apply no_layers_bind; [apply markers_no_layers|intros ? _].
  no_layers. apply layers_of_no_layers.
Qed.

Lemma managed_no_layers loaded : no_layers_error (managed_layers loaded).
Proof. unfold managed_layers. no_layers. apply resolve_no_layers. Qed.

Lemma load_state_wp codex_home cwd cli_overrides path prefs cloud P :
  (∀ ls ws, loaded_run codex_home cwd cli_overrides path prefs ls → wp (stack_of ls ws) P) →
  wp (load_config_layers_state codex_home cwd cli_overrides path prefs cloud) P.
Proof.
  intros Hrun. unfold load_config_layers_state.
  apply wp_bind; [no_layers|intros c _].
  apply wp_bind; [apply requirements_no_layers|intros ws _].
  apply wp_bind; [apply loaded_internal_no_layers|intros loaded Hloaded].
  apply wp_bind; [apply legacy_no_layers|intros ws' _].
  apply wp_bind; [case_bool_decide; [done|apply no_layers_fmap, resolve_no_layers]|intros cli Hcli].
  apply wp_bind; [no_layers|intros sys_file _].
  apply wp_bind; [apply required_layer_no_layers|intros sys Hsys].
  apply wp_bind; [no_layers|intros usr_file Husrf%try_path_ok].
  apply wp_bind; [apply required_layer_no_layers|intros usr Husr].
  apply wp_bind; [apply projects_no_layers|intros pl Hpl].
  apply wp_bind; [apply managed_no_layers|intros managed Hmanaged].
  apply Hrun. eapply Build_loaded_run; try done.
  case_bool_decide; [by injection Hcli as <-|].
  destruct (resolve_relative_paths_in_config_toml _ _); try done. by injection Hcli as <-.
Qed.

Lemma required_layer_name file src l :
  load_config_toml_for_required_layer file (layer_new version_for_toml src) = Ok l → name l = src.
Proof. unfold load_config_toml_for_required_layer. by intros (v & _ & [= <-])%bind_Ok_inv. Qed.

Section run.
Context {codex_home : Path} {cwd : option AbsolutePathBuf} {cli_overrides : list (str * TomlValue)}.
Context {path : option Path} {prefs : outcome str (option (TomlValue * str))}.
Context (cwd_normal : ∀ d, cwd = Some d → normal_abs d = true).

Lemma run_project_dirs ls (run : loaded_run codex_home cwd cli_overrides path prefs ls) :
  ∃ ds, StronglySorted strictly_below ds ∧ Forall (λ d, normal_abs d = true) ds ∧
    name <$> run_projects _ _ _ _ _ _ run = (λ d, Project (dot_codex_of d)) <$> ds.
Proof.
  destruct run. cbn in *. destruct cwd as [dir|].
  - apply project_layers_for_spec in run_projects_ok0 as (markers & ctx & _ & ds & Hs & Hn & Hl); [|auto].
    exists ds. split_and!; [done..|]. clear -Hl. induction Hl as [|d l ds ls [Hl _] _ IH]; [done|].
    cbn. by rewrite Hl, IH.
  - injection run_projects_ok0 as <-. exists []. split_and!; [constructor..|done].
Qed.

Lemma run_names ls (run : loaded_run codex_home cwd cli_overrides path prefs ls) :
  ∃ ds, StronglySorted strictly_below ds ∧ Forall (λ d, normal_abs d = true) ds ∧
    name <$> ls = loaded_names (run_system_file _ _ _ _ _ _ run) (run_user_file _ _ _ _ _ _ run) ds
                    (run_cli _ _ _ _ _ _ run) (run_loaded _ _ _ _ _ _ run).
Proof.
  destruct (run_project_dirs ls run) as (ds & Hs & Hn & Hp). exists ds. split_and!; [done..|].
  destruct run. cbn in *. subst ls. apply required_layer_name in run_system_ok0, run_user_ok0.
  apply managed_layers_names in run_managed_ok0. unfold loaded_names, upper_names. cbn.
  rewrite run_system_ok0, run_user_ok0. do 2 f_equal. rewrite !fmap_app, Hp, run_managed_ok0. f_equal.
  f_equal. by destruct run_cli0.
Qed.
End run.

(** The loader never fails on the order of its layers.  The layers it returns
    are the system's, the user's, one for each folder [.codex] between the
    project root and the working directory from the root down, the command
    line's and the managed ones, and the user's is the second. *)
Theorem loader_layers_ordered codex_home cwd cli_overrides path prefs cloud :
  (∀ d, cwd = Some d → normal_abs d = true) →
  match load_config_layers_state codex_home cwd cli_overrides path prefs cloud with
  | Err (LayersInvalid _) => False
  | Ok stack =>
      user_layer_index stack = Some 1 ∧
      ∃ sys_file usr_file ds cli loaded,
        name <$> layers stack = loaded_names sys_file usr_file ds cli loaded ∧
        StronglySorted strictly_below ds
  | _ => True
  end.
Proof.
  intros Hc. apply (load_state_wp _ _ _ _ _ _ (λ stack, user_layer_index stack = Some 1 ∧
    ∃ sys_file usr_file ds cli loaded, name <$> layers stack = loaded_names sys_file usr_file ds cli loaded ∧
      StronglySorted strictly_below ds)).
  intros ls ws run. destruct (run_names Hc ls run) as (ds & Hs & Hn & Hl).
  assert (Ho := named_ordered _ _ _ _ _ _ Hl Hs Hn). apply verify_layer_ordering_ok in Ho.
  unfold stack_of. destruct (try_from_sources ws); cbn; try done.
  unfold stack_new. rewrite Ho. cbn. split; [done|]. eexists _, _, ds, _, _. by split; [exact Hl|].
Qed.

(** ** Trust *)
(** The layers that say which projects are trusted. *)
Definition is_trust_source (n : ConfigLayerSource) : bool :=
  match n with System _ | User _ | SessionFlags => true | _ => false end.
Definition trust_source (l : ConfigLayerEntry) : bool := is_trust_source (name l).
Definition trust_config {R T} (stack : @ConfigLayerStack R T) : TomlValue :=
  merge_layers (TTable []) (List.filter trust_source (layers stack)).

(** The level of the nearest of a directory, the project root and the
    repository that has one. *)
Definition trusted_in (projects : gmap str (option TrustLevel)) (root : Path) (repo : option Path) (d : Path) :
    Prop :=
  head (omap (λ k, projects !! k ≫= id) (to_string_lossy <$> (d :: root :: option_list repo))) = Some Trusted.

Definition trusted_dir {R T} (stack : @ConfigLayerStack R T) (cwd d : Path) : Prop :=
  ∃ projects markers root,
    projects_of (trust_config stack) = Ok projects ∧ find_project_root cwd markers = Ok root ∧
    trusted_in projects root (resolve_root_git_project_for_trust cwd) d.

Lemma decision_trusted merged cwd markers file ctx d :
  project_trust_context merged cwd markers file = Ok ctx → is_trusted (decision_for_dir ctx d) = true →
  ∃ projects root, projects_of merged = Ok projects ∧ find_project_root cwd markers = Ok root ∧
    trusted_in projects root (resolve_root_git_project_for_trust cwd) d.
Proof.
  unfold project_trust_context.
  intros (projects & Hp%map_err_ok & (root & Hr & [= <-])%bind_Ok_inv)%bind_Ok_inv Ht.
  exists projects, root. split_and!; [done..|]. unfold trusted_in. revert Ht.
  unfold decision_for_dir. cbn [projects_trust project_root_key repo_root_key].
  assert (Ho : ∀ k, (omap id projects : gmap str TrustLevel) !! k = projects !! k ≫= id) by (intros; apply lookup_omap).
  rewrite !Ho. cbn. destruct (projects !! to_string_lossy d ≫= id) as [[]|]; [done|done|].
  destruct (projects !! to_string_lossy root ≫= id) as [[]|]; [done|done|].
  destruct (resolve_root_git_project_for_trust cwd) as [repo|]; cbn; [|done]. rewrite Ho.
  by destruct (projects !! to_string_lossy repo ≫= id) as [[]|].
Qed.

(** *** The values of the layers *)
Lemma copy_shape_wf original resolved :
  toml_wf original → toml_wf resolved → toml_wf (copy_shape_from_original original resolved).
Proof.
  revert resolved. induction original as [v Hv Ha|l IH|t IH] using toml_ind; intros resolved Ho Hr.
  - destruct v; try done. by edestruct Ha.
  - destruct resolved as [| | | | |r|]; try done. cbn [copy_shape_from_original].
    rewrite array_wf in *. revert r Hr. induction IH as [|x l Hx _ IH']; intros r Hr; [constructor|].
    apply Forall_cons in Ho as [Hox Ho]. cbn [copy_items]. constructor.
    + apply Hx; [done|]. destruct r as [|y r]; [done|]. by apply Forall_cons in Hr as [? _].
    + apply IH'; [done|]. destruct r as [|y r]; [done|]. by apply Forall_cons in Hr as [_ ?].
  - destruct resolved as [| | | | | |r]; try done. cbn [copy_shape_from_original].
    apply table_wf in Ho as [_ Ho]. assert (Hacc : toml_wf (TTable [])) by (apply table_wf; split; constructor).
    revert Hacc. generalize (@nil (str * TomlValue)). induction IH as [|[k x] t Hx _ IH']; intros acc Hacc; [done|].
    apply Forall_cons in Ho as [Hox Ho]. cbn in Hx, Hox. apply IH'; [done|].
    apply table_insert_wf; [done|]. apply Hx; [done|].
    destruct (table_get k r) eqn:E; [by apply (table_get_wf k r)|done].
Qed.

Lemma overrides_wf cli_overrides :
  Forall (λ o, toml_wf o.2) cli_overrides → toml_wf (build_cli_overrides_layer cli_overrides).
Proof.
  unfold build_cli_overrides_layer.
  assert (Hroot : toml_wf default_empty_table) by (apply table_wf; split; constructor).
  revert Hroot. generalize default_empty_table. intros root Hroot Hf. revert root Hroot.
  induction Hf as [|o l Ho _ IH]; intros root Hroot; [done|]. cbn. apply IH. by apply override_at_wf.
Qed.

(** *** The layers of a stack that is loaded *)
Lemma load_ok_run codex_home cwd cli_overrides path prefs cloud stack :
  (∀ d, cwd = Some d → normal_abs d = true) →
  load_config_layers_state codex_home cwd cli_overrides path prefs cloud = Ok stack →
  inhabited (loaded_run codex_home cwd cli_overrides path prefs (layers stack)).
Proof.
  intros Hc Hload.
  assert (Hwp := load_state_wp codex_home cwd cli_overrides path prefs cloud
    (λ stack, inhabited (loaded_run codex_home cwd cli_overrides path prefs (layers stack)))).
  rewrite Hload in Hwp. apply Hwp. intros ls ws run.
  destruct (run_names Hc ls run) as (ds & Hs & Hn & Hl).
  assert (Ho := named_ordered _ _ _ _ _ _ Hl Hs Hn). apply verify_layer_ordering_ok in Ho.
  unfold stack_of. destruct (try_from_sources ws); cbn; try done. unfold stack_new. rewrite Ho. by constructor.
Qed.

Lemma no_trust_source ls :
  Forall (λ n, is_trust_source n = false) (name <$> ls) → List.filter trust_source ls = [].
Proof.
  induction ls as [|l ls IH]; [done|]. intros [Hl Hf]%Forall_cons. cbn. unfold trust_source at 1.
  rewrite Hl. by apply IH.
Qed.

Lemma run_merged codex_home cwd cli_overrides path prefs ls
    (cwd_normal : ∀ d, cwd = Some d → normal_abs d = true)
    (run : loaded_run codex_home cwd cli_overrides path prefs ls) :
  merge_layers (TTable []) (List.filter trust_source ls) =
  merged_so_far [run_system _ _ _ _ _ _ run; run_user _ _ _ _ _ _ run] (run_cli _ _ _ _ _ _ run).
Proof.
  destruct (run_project_dirs cwd_normal ls run) as (ds & _ & _ & Hp).
  destruct run. cbn in *. subst ls. apply required_layer_name in run_system_ok0, run_user_ok0.
  apply managed_layers_names in run_managed_ok0. cbn. unfold trust_source at 1 2.
  rewrite run_system_ok0, run_user_ok0, !List.filter_app. cbn.
  rewrite (no_trust_source run_projects0), (no_trust_source run_managed0).
  - rewrite app_nil_r. unfold merged_so_far, merge_layers. by destruct run_cli0.
  - rewrite run_managed_ok0. destruct (managed_config run_loaded0), (managed_config_from_mdm run_loaded0);
      cbn; by repeat constructor.
  - rewrite Hp. by apply Forall_fmap, Forall_true.
Qed.

(** A project layer that is enabled is of a trusted directory, or of one
    without [config.toml]. *)
Lemma enabled_project_layer codex_home cwd cli_overrides path prefs cloud stack layer folder :
  normal_abs cwd = true →
  load_config_layers_state codex_home (Some cwd) cli_overrides path prefs cloud = Ok stack →
  layer ∈ get_layers stack LowestPrecedenceFirst false → name layer = Project folder →
  ∃ dir, folder = dot_codex_of dir ∧
    (trusted_dir stack cwd dir ∨
     config layer = TTable [] ∧ read_file (folder ++ [Normal CONFIG_TOML_FILE]) = NotFound).
Proof.
  intros Hc Hload Hin Hname. assert (Hc' : ∀ d, Some cwd = Some d → normal_abs d = true) by by intros d [= <-].
  destruct (load_ok_run _ _ _ _ _ _ _ Hc' Hload) as [run]. assert (Hm := run_merged _ _ _ _ _ _ Hc' run).
  assert (Hen : is_disabled layer = false ∧ layer ∈ layers stack).
  { split; [|by eapply get_layers_elem]. unfold get_layers in Hin. cbn in Hin.
    apply list_elem_of_In, filter_In in Hin as [_ Hd]. by destruct (is_disabled layer). }
  destruct Hen as [Hen Hl]. 
  assert (Hpl : layer ∈ run_projects _ _ _ _ _ _ run).
  { clear Hm. destruct run. cbn in *. rewrite run_layers0 in Hl.
    apply required_layer_name in run_system_ok0, run_user_ok0. apply managed_layers_names in run_managed_ok0.
    rewrite !elem_of_cons, !elem_of_app in Hl. destruct Hl as [->|[->|[?|[Hl|Hl]]]]; try congruence.
    - destruct run_cli0; cbn in Hl; [|by apply not_elem_of_nil in Hl].
      apply list_elem_of_singleton in Hl as ->. done.
    - apply (list_elem_of_fmap_2 name) in Hl. rewrite run_managed_ok0, Hname in Hl.
      destruct (managed_config run_loaded0), (managed_config_from_mdm run_loaded0); cbn in Hl; set_solver. }
  destruct run. cbn in *. apply project_layers_for_spec in run_projects_ok0 as (markers & ctx & Hctx & ds & _ & _ & Hf); [|done].
  apply list_elem_of_lookup in Hpl as [i Hi].
  eapply Forall2_lookup_r in Hf as (dir & Hd & Hn & Ht); [|done]. rewrite Hname in Hn. injection Hn as ->.
  exists dir. split; [done|]. destruct (Ht Hen) as [Htr|?]; [left|by right].
  eapply decision_trusted in Htr as (projects & root & ? & ? & ?); [|done].
  exists projects, markers, root. unfold trust_config. by rewrite Hm.
Qed.

(** The values of the [toml] and [serde] crates repeat no key. *)
Section wf.
Context (parsed_wf : ∀ text v, toml_from_str text = Ok v → toml_wf v).
Context (resolved_wf : ∀ base v r, config_toml_round_trip base v = Some (Ok r) → toml_wf r).

Lemma empty_wf : toml_wf (TTable []).
Proof. apply table_wf. split; constructor. Qed.

Lemma resolve_wf v base v' : toml_wf v → resolve_relative_paths_in_config_toml v base = Ok v' → toml_wf v'.
Proof.
  intros Hv. unfold resolve_relative_paths_in_config_toml.
  destruct (config_toml_round_trip base v) eqn:E; [|by intros [= <-]].
  intros (r & ->%map_err_ok & [= <-])%bind_Ok_inv. apply copy_shape_wf; [done|]. by eapply resolved_wf.
Qed.

Lemma required_layer_wf file src l :
  load_config_toml_for_required_layer file (layer_new version_for_toml src) = Ok l → toml_wf (config l).
Proof.
  unfold load_config_toml_for_required_layer. intros (v & Hv & [= <-])%bind_Ok_inv. cbn.
  destruct (read_file file); [|injection Hv as <-; apply empty_wf|done].
  apply bind_Ok_inv in Hv as (w & Hw%map_err_ok%parsed_wf & Hv). destruct (parent file); [|done].
  by eapply resolve_wf.
Qed.

Lemma project_layer_config ctx folder d v b : config (project_layer_entry ctx folder d v b) = v.
Proof. unfold project_layer_entry. by destruct (if b then _ else _). Qed.

Lemma project_layer_wf ctx home norm d l :
  load_project_layer ctx home norm d = Ok (Some l) → toml_wf (config l).
Proof.
  unfold load_project_layer. destruct (negb _); [done|].
  intros (ld & _ & (dc & _ & Hl)%bind_Ok_inv)%bind_Ok_inv. revert Hl. destruct (bool_decide _ || _); [done|].
  intros (f & _ & Hl)%bind_Ok_inv. destruct (read_file f); [| |done].
  - destruct (toml_from_str text) eqn:E; try done.
    + apply bind_Ok_inv in Hl as (v & Hv & [= <-]). rewrite project_layer_config.
      eapply resolve_wf; [|done]. by eapply parsed_wf.
    + destruct (is_trusted _); [done|]. injection Hl as <-. rewrite project_layer_config. apply empty_wf.
  - injection Hl as <-. rewrite project_layer_config. apply empty_wf.
Qed.

Lemma layers_of_wf ctx home norm dirs ls :
  load_layers_of ctx home norm dirs = Ok ls → Forall (λ l, toml_wf (config l)) ls.
Proof.
  revert ls. induction dirs as [|d dirs IH]; intros ls; cbn; [intros [= <-]; constructor|].
  intros (o & Ho & (ls' & Hls%IH & [= <-])%bind_Ok_inv)%bind_Ok_inv. apply Forall_app. split; [|done].
  destruct o; cbn; repeat constructor. by eapply project_layer_wf.
Qed.

Lemma projects_wf home cwd file base cli ls :
  project_layers_for home cwd file base cli = Ok ls → Forall (λ l, toml_wf (config l)) ls.
Proof.
  unfold project_layers_for, load_project_layers. destruct cwd; [|intros [= <-]; constructor].
  by intros (? & _ & (? & _ & (? & _ & ?%layers_of_wf)%bind_Ok_inv)%bind_Ok_inv)%bind_Ok_inv.
Qed.

Lemma managed_wf home path prefs loaded ls :
  (∀ v raw, prefs = Ok (Some (v, raw)) → toml_wf v) →
  load_config_layers_internal home path prefs = Ok loaded → managed_layers loaded = Ok ls →
  Forall (λ l, toml_wf (config l)) ls.
Proof.
  intros Hprefs. unfold load_config_layers_internal, read_config_from_path.
  intros (f & _ & (c & Hc & (pr & Hpr%map_err_ok & [= <-])%bind_Ok_inv)%bind_Ok_inv)%bind_Ok_inv.
  unfold managed_layers. cbn. intros (k & Hk & [= <-])%bind_Ok_inv. apply Forall_app. split.
  - destruct c as [c|]; [|injection Hk as <-; constructor]. cbn in Hk. destruct (parent f); [|done].
    apply bind_Ok_inv in Hk as (v & Hv & [= <-]). repeat constructor. cbn. eapply resolve_wf; [|done].
    destruct (read_file f); [|done|done]. destruct (toml_from_str text) eqn:E; try done.
    cbn in Hc. injection Hc as <-. by eapply parsed_wf.
  - destruct pr as [[v raw]|]; repeat constructor. cbn. by eapply Hprefs.
Qed.

Lemma run_wf codex_home cwd cli_overrides path prefs ls :
  Forall (λ o, toml_wf o.2) cli_overrides → (∀ v raw, prefs = Ok (Some (v, raw)) → toml_wf v) →
  loaded_run codex_home cwd cli_overrides path prefs ls → Forall (λ l, toml_wf (config l)) ls.
Proof.
  intros Hcli Hprefs []. subst ls. rewrite !Forall_app. split_and!.
  - repeat constructor; by eapply required_layer_wf.
  - by eapply projects_wf.
  - destruct run_cli0; cbn; repeat constructor. cbn. eapply resolve_wf; [|done]. by apply overrides_wf.
  - by eapply managed_wf.
Qed.

Lemma leaf_at_empty p : leaf_at p (TTable []) = None.
Proof. by destruct p. Qed.

(** C25: a project decides nothing unless it is trusted.  Every setting of the
    effective configuration is the one of an enabled layer; when that layer is a
    project's, the system's, user's and command line's configuration alone
    marks as trusted the nearest of its directory, the project root and the
    repository that it mentions. *)
Theorem untrusted_project_ignored codex_home cwd cli_overrides path prefs cloud stack p v :
  Forall (λ o, toml_wf o.2) cli_overrides → (∀ v raw, prefs = Ok (Some (v, raw)) → toml_wf v) →
  normal_abs cwd = true →
  load_config_layers_state codex_home (Some cwd) cli_overrides path prefs cloud = Ok stack →
  leaf_at p (effective_config stack) = Some v →
  ∃ layer, layer ∈ layers_high_to_low stack ∧ leaf_at p (config layer) = Some v ∧
    ∀ folder, name layer = Project folder → ∃ dir, folder = dot_codex_of dir ∧ trusted_dir stack cwd dir.
Proof.
  intros Hcli Hprefs Hc Hload Hv. assert (Hc' : ∀ d, Some cwd = Some d → normal_abs d = true) by by intros d [= <-].
  destruct (load_ok_run _ _ _ _ _ _ _ Hc' Hload) as [run].
  assert (Hwf : stack_wf stack) by by eapply run_wf.
  unfold effective_config in Hv. rewrite (merge_layers_leaf p _ default_empty_table) in Hv by by apply enabled_wf.
  destruct (deciding p _) as [layer|] eqn:Ed; [|by destruct p].
  apply deciding_Some in Ed as (l1 & l2 & El & _ & _). exists layer.
  assert (Hin : layer ∈ layers_high_to_low stack) by (rewrite high_to_low, El; set_solver).
  split_and!; [done..|]. intros folder Hname. rewrite high_to_low, elem_of_reverse in Hin.
  destruct (enabled_project_layer _ _ _ _ _ _ _ _ _ Hc Hload Hin Hname) as (dir & Hd & [Ht|[He _]]); [eauto|].
  by rewrite He, leaf_at_empty in Hv.
Qed.
End wf.
End Loader.

(** ** Samples *)
Definition show_path (p : Path) : str :=
  concat ((λ c, match c with Normal s => lit "/" ++ s | _ => [] end) <$> p).

Definition sample_text_of (files : list (string * string)) (p : Path) : file_read :=
  match list_find (λ f, path_of_str (lit f.1) = p) files with
  | Some (_, f) => Contents (lit f.2)
  | None => NotFound
  end.

Definition TRUSTS_REPO : string := "[projects.'/w/repo'] trust_level = 'trusted'".
Definition SETS_MODEL : string := "model = 'm'".

(** The two documents of the samples. *)
Definition sample_parse (text : str) : outcome str TomlValue :=
  if bool_decide (text = lit TRUSTS_REPO) then
    Ok (TTable [key "projects" (TTable [key "/w/repo" (TTable [key "trust_level" (TString (lit "trusted"))])])])
  else if bool_decide (text = lit SETS_MODEL) then Ok (TTable [key "model" (TString (lit "m"))])
  else Err (lit "syntax error").

Definition level_of (v : TomlValue) : option TrustLevel :=
  match leaf_at [lit "trust_level"] v with
  | Some (TString s) => if bool_decide (s = lit "trusted") then Some Trusted else Some UntrustedProject
  | _ => None
  end.

Definition sample_projects (v : TomlValue) : outcome str (gmap str (option TrustLevel)) :=
  match get [lit "projects"] v with
  | Some (TTable projects) => Ok (list_to_map ((λ e, (e.1, level_of e.2)) <$> projects))
  | _ => Ok ∅
  end.

Definition at_path (s : string) : Path := path_of_str (lit s).

(** A machine: its directories, its files. *)
Definition machine (dirs : list string) (files : list (string * string)) : PathEnv :=
  lexical_PathEnv (at_path "/") None None (at_path <$> dirs) ((λ f, (at_path f.1, lit f.2)) <$> files).

Abbreviation sample_load dirs files cwd :=
  (load_config_layers_state (H := machine dirs files) show_path sample_version (sample_text_of files) sample_parse
    (λ _ _, None) sample_projects (λ _, Ok requirements_toml_default) (λ _, Err (lit "not a table"))
    (at_path "/home/u/.codex") (Some (at_path cwd)) [] None (Ok None) (Ok None)).

Lemma sample_parse_wf text v : sample_parse text = Ok v → toml_wf v.
Proof.
  unfold sample_parse. case_bool_decide; [|case_bool_decide; [|done]]; intros [= <-];
    cbn -[lit]; split_and!; try apply NoDup_singleton; done.
Qed.

Lemma machine_laws dirs files : @PathLaws (machine dirs files).
Proof. apply lexical_PathLaws. Qed.

(** A project with a repository and a configuration, trusted by the user. *)
Definition REPO_DIRS : list string := ["/w/repo"; "/w/repo/.git"; "/w/repo/.codex"]%string.
Definition REPO_FILES : list (string * string) :=
  [("/home/u/.codex/config.toml", TRUSTS_REPO); ("/w/repo/.codex/config.toml", SETS_MODEL)]%string.
Abbreviation sample_loaded := (sample_load REPO_DIRS REPO_FILES "/w/repo").

Definition is_ok {E A} (m : outcome E A) : bool := match m with Ok _ => true | _ => false end.

Lemma loader_layers_witness :
  is_ok sample_loaded = true ∧
  match sample_loaded with
  | Err (LayersInvalid _) => False
  | Ok stack =>
      user_layer_index stack = Some 1 ∧
      ∃ sys_file usr_file ds cli loaded,
        name <$> layers stack = loaded_names sys_file usr_file ds cli loaded ∧
        StronglySorted strictly_below ds
  | _ => True
  end.
Proof.
  split; [vm_compute; reflexivity|].
  apply (@loader_layers_ordered (machine REPO_DIRS REPO_FILES)); [apply machine_laws|].
  intros d [= <-]. vm_compute. reflexivity.
Defined.

Definition model_of (m : outcome LoadError (@ConfigLayerStack ConfigRequirements ConfigRequirementsToml)) :
    option TomlValue :=
  match m with Ok stack => leaf_at [lit "model"] (effective_config stack) | _ => None end.

Lemma sample_model : model_of sample_loaded = Some (TString (lit "m")).
Proof. vm_compute. reflexivity. Qed.

Lemma untrusted_project_witness : ∃ stack layer,
  sample_loaded = Ok stack ∧
  leaf_at [lit "model"] (effective_config stack) = Some (TString (lit "m")) ∧
  leaf_at [lit "model"] (config layer) = Some (TString (lit "m")).
Proof.
  assert (Hv := sample_model). destruct sample_loaded as [stack| | |] eqn:E; try done.
  unfold model_of in Hv.
  destruct (@untrusted_project_ignored (machine REPO_DIRS REPO_FILES) show_path sample_version
    (sample_text_of REPO_FILES) sample_parse (λ _ _, None) sample_projects (λ _, Ok requirements_toml_default)
    (λ _, Err (lit "not a table")) (machine_laws _ _) sample_parse_wf ltac:(done)
    (at_path "/home/u/.codex") (at_path "/w/repo") [] None (Ok None) (Ok None) stack [lit "model"]
    (TString (lit "m"))) as (layer & _ & Hl & _); [constructor|done|reflexivity|exact E|exact Hv|].
  by exists stack, layer.
Defined.

(** A directory names the repository it is trusted as: its own file [.git] says
    that it is a worktree of a trusted repository, which need not know it. *)
Example forged_worktree_is_trusted :
  let load (git_file : list (string * string)) :=
    model_of (sample_load ["/tmp/evil"; "/tmp/evil/.codex"]%string
      (("/home/u/.codex/config.toml", TRUSTS_REPO)%string
       :: ("/tmp/evil/.codex/config.toml", SETS_MODEL)%string :: git_file) "/tmp/evil") in
  load [] = None ∧
  load [("/tmp/evil/.git", "gitdir: /w/repo/.git/worktrees/x")%string] = Some (TString (lit "m")).
Proof. vm_compute. split; reflexivity. Qed.
