(* ===== verification/PolicyFiles.v ===== *)
(** * Policy files: [execpolicy/src/parser.rs], [load_exec_policy] of
      [core/src/exec_policy.rs]

    A policy file is a Starlark module that calls [prefix_rule], [network_rule]
    and [host_executable].  The Starlark interpreter is a parameter: the builtin
    calls a module makes, in order, and the error that ends it, if any.  The
    builtins return [None] and Starlark has no exception handling, so the calls
    depend on the text alone and the first one that fails ends the module. *)
From stdpp Require Import base tactics option list gmap sets strings sorting.
From S2P Require Import Prelude RustStr Paths ConfigLayers ConfigRequirements ConfigLoader ExecApproval.
From stdpp Require Import list.
From S2P Require Import ExecPolicy.

(** ** Values and errors *)
(** A Starlark value, as far as the builtins look at it. *)
Inductive Value : Type :=
  | VString (s : str)
  | VList (content : list Value)
  | VOther (type_name : str).

Definition unpack_str (v : Value) : option str := match v with VString s => Some s | _ => None end.
Definition get_type (v : Value) : str :=
  match v with VString _ => lit "string" | VList _ => lit "list" | VOther t => t end.

Record ErrorLocation : Type := {
  location_path : str;
  start_line : Z; start_column : Z; end_line : Z; end_column : Z;
}.

(** The errors the builtins raise. *)
Inductive BuiltinError : Type :=
  | RuleError (e : Error)
  | InvalidExample (message : str).

(** The errors of [PolicyParser::parse]; an error of a builtin is wrapped by the
    interpreter. *)
Inductive ParseError : Type :=
  | ExampleDidNotMatch (rules examples : list str) (location : option ErrorLocation)
  | ExampleDidMatch (rule example : str) (location : option ErrorLocation)
  | StarlarkSyntax (message : str)
  | StarlarkFailed (message : str)
  | StarlarkNative (e : BuiltinError).

Definition with_location (self : ParseError) (location : ErrorLocation) : ParseError :=
  match self with
  | ExampleDidNotMatch rules examples None => ExampleDidNotMatch rules examples (Some location)
  | ExampleDidMatch rule example None => ExampleDidMatch rule example (Some location)
  | other => other
  end.

Definition attach_validation_location (error : ParseError) (location : option ErrorLocation) : ParseError :=
  match location with
  | Some location => with_location error location
  | None => error
  end.

(** ** The builder *)
Record PendingExampleValidation : Type := {
  validation_rules : list PrefixRule;
  validation_matches : list (list str);
  validation_not_matches : list (list str);
  validation_location : option ErrorLocation;
}.

Record PolicyBuilder : Type := {
  builder_rules : gmap str (list PrefixRule);
  builder_network_rules : list NetworkRule;
  builder_hosts : gmap str (list str);
  pending_example_validations : list PendingExampleValidation;
}.

Definition builder_new : PolicyBuilder :=
  {| builder_rules := ∅; builder_network_rules := []; builder_hosts := ∅; pending_example_validations := [] |}.

Definition add_rule (b : PolicyBuilder) (rule : PrefixRule) : PolicyBuilder :=
  {| builder_rules := insert_rule (builder_rules b) (first (pattern rule)) rule;
     builder_network_rules := builder_network_rules b; builder_hosts := builder_hosts b;
     pending_example_validations := pending_example_validations b |}.

Definition builder_add_network_rule (b : PolicyBuilder) (rule : NetworkRule) : PolicyBuilder :=
  {| builder_rules := builder_rules b; builder_network_rules := builder_network_rules b ++ [rule];
     builder_hosts := builder_hosts b; pending_example_validations := pending_example_validations b |}.

Definition add_host_executable (b : PolicyBuilder) (name : str) (paths : list str) : PolicyBuilder :=
  {| builder_rules := builder_rules b; builder_network_rules := builder_network_rules b;
     builder_hosts := <[name := paths]> (builder_hosts b);
     pending_example_validations := pending_example_validations b |}.

Definition add_pending_example_validation (b : PolicyBuilder) (rules : list PrefixRule)
    (matches not_matches : list (list str)) (location : option ErrorLocation) : PolicyBuilder :=
  {| builder_rules := builder_rules b; builder_network_rules := builder_network_rules b;
     builder_hosts := builder_hosts b;
     pending_example_validations := pending_example_validations b ++
       [{| validation_rules := rules; validation_matches := matches;
           validation_not_matches := not_matches; validation_location := location |}] |}.

Definition build (b : PolicyBuilder) : Policy :=
  {| rules_by_program := builder_rules b; network_rules := builder_network_rules b;
     host_executables_by_name := builder_hosts b |}.

(** ** Arguments of the builtins *)
(** [iter().map(f).collect::<Result<_>>()]. *)
Fixpoint collect_results {E A B} (f : A → outcome E B) (l : list A) : outcome E (list B) :=
  match l with
  | [] => Ok []
  | a :: l => b ← f a; bs ← collect_results f l; Ok (b :: bs)
  end.

Definition string_or {E} (error : str → E) (v : Value) : outcome E str :=
  match unpack_str v with Some s => Ok s | None => Err (error (get_type v)) end.

Definition invalid_pattern (message : str) : BuiltinError := RuleError (InvalidPattern message).
Definition invalid_rule (message : str) : BuiltinError := RuleError (InvalidRule message).

Definition parse_pattern_token (value : Value) : outcome BuiltinError PatternToken :=
  match value with
  | VString s => Ok (Single s)
  | VList content =>
      tokens ← collect_results (string_or (λ t,
        invalid_pattern (lit "pattern alternative must be a string (got " ++ t ++ lit ")"))) content;
      match tokens with
      | [] => Err (invalid_pattern (lit "pattern alternatives cannot be empty"))
      | [single] => Ok (Single single)
      | _ => Ok (Alts tokens)
      end
  | VOther t =>
      Err (invalid_pattern (lit "pattern element must be a string or list of strings (got " ++ t ++ lit ")"))
  end.

Definition parse_pattern (items : list Value) : outcome BuiltinError (list PatternToken) :=
  tokens ← collect_results parse_pattern_token items;
  match tokens with
  | [] => Err (invalid_pattern (lit "pattern cannot be empty"))
  | _ => Ok tokens
  end.

Definition parse_network_rule_decision (raw : str) : outcome Error Decision :=
  if bool_decide (raw = lit "deny") then Ok Forbidden else decision_parse raw.

Definition parse_justification (justification : option str) : outcome BuiltinError (option str) :=
  match justification with
  | Some raw =>
      if bool_decide (trim raw = []) then Err (invalid_rule (lit "justification cannot be empty"))
      else Ok (Some raw)
  | None => Ok None
  end.

Definition validate_host_executable_name (name : str) : outcome BuiltinError () :=
  if bool_decide (name = []) then Err (invalid_rule (lit "host_executable name cannot be empty"))
  else
    let path := path_of_str name in
    if negb (length path =? 1) || negb (bool_decide (path_file_name path = Some name))
    then Err (invalid_rule (lit "host_executable name must be a bare executable name (got "
                            ++ name ++ lit ")"))
    else Ok ().

Inductive BuiltinCall : Type :=
  | PrefixRuleCall (pattern : list Value) (decision : option str) (matches not_match : option (list Value))
      (justification : option str) (location : option ErrorLocation)
  | NetworkRuleCall (host protocol decision : str) (justification : option str)
  | HostExecutableCall (name : str) (paths : list Value).

(** What the interpreter does with a module that parses. *)
Record ModuleRun : Type := { run_calls : list BuiltinCall; run_error : option str }.

Section Parser.
(** [dirs::home_dir], [path_absolutize] and the text of its error. *)
Context (home_dir : option str) (absolutize : str → option str) (absolutize_error : str → str).
(** [cfg(windows)]. *)
Context (windows : bool).
(** The crate [shlex]; the [Debug] text of rules and of matches. *)
Context (shlex_split : str → option (list str)) (shlex_try_join : list str → option str).
Context (debug_rule : PrefixRule → str) (debug_match : RuleMatch → str).
(** The interpreter on an identifier and a text; an error is a syntax error. *)
Context (starlark : str → str → outcome str ModuleRun).

Definition parse_literal_absolute_path (raw : str) : outcome BuiltinError str :=
  if negb (is_absolute (path_of_str raw))
  then Err (invalid_rule (lit "host_executable paths must be absolute (got " ++ raw ++ lit ")"))
  else
    match ExecPolicy.from_absolute_path home_dir absolutize windows raw with
    | Some path => Ok path
    | None => Err (invalid_rule (lit "invalid absolute path `" ++ raw ++ lit "`: " ++ absolutize_error raw))
    end.

Definition parse_string_example (raw : str) : outcome BuiltinError (list str) :=
  match shlex_split raw with
  | None => Err (InvalidExample (lit "example string has invalid shell syntax"))
  | Some [] => Err (InvalidExample (lit "example cannot be an empty string"))
  | Some tokens => Ok tokens
  end.

Definition parse_list_example (content : list Value) : outcome BuiltinError (list str) :=
  tokens ← collect_results (string_or (λ t,
    InvalidExample (lit "example tokens must be strings (got " ++ t ++ lit ")"))) content;
  match tokens with
  | [] => Err (InvalidExample (lit "example cannot be an empty list"))
  | _ => Ok tokens
  end.

Definition parse_example (value : Value) : outcome BuiltinError (list str) :=
  match value with
  | VString raw => parse_string_example raw
  | VList content => parse_list_example content
  | VOther t =>
      Err (InvalidExample (lit "example must be a string or list of strings (got " ++ t ++ lit ")"))
  end.

Definition parse_examples (examples : option (list Value)) : outcome BuiltinError (list (list str)) :=
  match examples with
  | Some items => collect_results parse_example items
  | None => Ok []
  end.

(** ** The builtins *)
Definition rules_of_pattern (first_token : PatternToken) (remaining_tokens : list PatternToken)
    (decision : Decision) (justification : option str) : list PrefixRule :=
  (λ head, {| pattern := {| first := head; rest := remaining_tokens |};
              rule_decision := decision; rule_justification := justification |})
  <$> alternatives first_token.

Definition prefix_rule (b : PolicyBuilder) (items : list Value) (decision : option str)
    (matches not_match : option (list Value)) (justification : option str)
    (location : option ErrorLocation) : outcome BuiltinError PolicyBuilder :=
  decision ← match decision with
             | Some raw => map_err RuleError (decision_parse raw)
             | None => Ok Allow
             end;
  justification ← parse_justification justification;
  pattern_tokens ← parse_pattern items;
  matches ← parse_examples matches;
  not_matches ← parse_examples not_match;
  match pattern_tokens with
  | [] => Err (invalid_pattern (lit "pattern cannot be empty"))
  | first_token :: remaining_tokens =>
      let rules := rules_of_pattern first_token remaining_tokens decision justification in
      Ok (foldl add_rule (add_pending_example_validation b rules matches not_matches location) rules)
  end.

Definition network_rule (b : PolicyBuilder) (host protocol decision : str) (justification : option str) :
    outcome BuiltinError PolicyBuilder :=
  protocol ← map_err RuleError (protocol_parse protocol);
  decision ← map_err RuleError (parse_network_rule_decision decision);
  justification ← parse_justification justification;
  host ← map_err RuleError (normalize_network_rule_host host);
  Ok (builder_add_network_rule b {| host := host; protocol := protocol; net_decision := decision;
                                    net_justification := justification |}).

(** One path of [host_executable]. *)
Definition host_executable_path (name : str) (value : Value) : outcome BuiltinError str :=
  raw ← string_or (λ t, invalid_rule (lit "host_executable paths must be strings (got " ++ t ++ lit ")")) value;
  path ← parse_literal_absolute_path raw;
  let wrong := Err (invalid_rule (lit "host_executable path `" ++ raw ++ lit "` must have basename `"
                                  ++ name ++ lit "`")) in
  match executable_path_lookup_key windows path with
  | None => wrong
  | Some path_name =>
      if bool_decide (path_name = executable_lookup_key windows name) then Ok path else wrong
  end.

Fixpoint host_executable_paths (name : str) (values : list Value) (parsed_paths : list str) :
    outcome BuiltinError (list str) :=
  match values with
  | [] => Ok parsed_paths
  | value :: values =>
      path ← host_executable_path name value;
      host_executable_paths name values
        (if bool_decide (path ∈ parsed_paths) then parsed_paths else parsed_paths ++ [path])
  end.

Definition host_executable (b : PolicyBuilder) (name : str) (paths : list Value) :
    outcome BuiltinError PolicyBuilder :=
  _ ← validate_host_executable_name name;
  parsed_paths ← host_executable_paths name paths [];
  Ok (add_host_executable b (executable_lookup_key windows name) parsed_paths).

Definition call_builtin (b : PolicyBuilder) (call : BuiltinCall) : outcome BuiltinError PolicyBuilder :=
  match call with
  | PrefixRuleCall pattern decision matches not_match justification location =>
      prefix_rule b pattern decision matches not_match justification location
  | NetworkRuleCall host protocol decision justification => network_rule b host protocol decision justification
  | HostExecutableCall name paths => host_executable b name paths
  end.

(** [eval_module]: the builder is shared, so what the calls before an error did
    stays. *)
Fixpoint eval_calls (b : PolicyBuilder) (calls : list BuiltinCall) (ending : outcome ParseError ()) :
    PolicyBuilder * outcome ParseError () :=
  match calls with
  | [] => (b, ending)
  | call :: calls =>
      match call_builtin b call with
      | Ok b => eval_calls b calls ending
      | Err e => (b, Err (StarlarkNative e))
      | Panic => (b, Panic)
      | NoFuel => (b, NoFuel)
      end
  end.

Definition eval_module (b : PolicyBuilder) (run : ModuleRun) : PolicyBuilder * outcome ParseError () :=
  eval_calls b (run_calls run) (match run_error run with Some e => Err (StarlarkFailed e) | None => Ok () end).

(** ** Examples *)
Definition try_join_or (example : list str) : str :=
  default (lit "unable to render example") (shlex_try_join example).

Definition example_matches (policy : Policy) (example : list str) : list RuleMatch :=
  matches_for_command_with_options home_dir absolutize windows policy example None true.

Definition validate_match_examples (policy : Policy) (rules : list PrefixRule) (matches : list (list str)) :
    outcome ParseError () :=
  let unmatched_examples :=
    try_join_or <$> List.filter (λ example, bool_decide (example_matches policy example = [])) matches in
  match unmatched_examples with
  | [] => Ok ()
  | _ => Err (ExampleDidNotMatch (debug_rule <$> rules) unmatched_examples None)
  end.

Fixpoint validate_not_match_examples (policy : Policy) (not_matches : list (list str)) : outcome ParseError () :=
  match not_matches with
  | [] => Ok ()
  | example :: not_matches =>
      match example_matches policy example with
      | rule :: _ => Err (ExampleDidMatch (debug_match rule) (try_join_or example) None)
      | [] => validate_not_match_examples policy not_matches
      end
  end.

Definition rules_map (rules : list PrefixRule) : gmap str (list PrefixRule) :=
  foldl (λ m rule, insert_rule m (first (pattern rule)) rule) ∅ rules.

Definition validate_pending (hosts : gmap str (list str)) (v : PendingExampleValidation) :
    outcome ParseError () :=
  let policy := {| rules_by_program := rules_map (validation_rules v); network_rules := [];
                   host_executables_by_name := hosts |} in
  _ ← map_err (λ e, attach_validation_location e (validation_location v))
        (validate_not_match_examples policy (validation_not_matches v));
  map_err (λ e, attach_validation_location e (validation_location v))
    (validate_match_examples policy (validation_rules v) (validation_matches v)).

Fixpoint validate_all (hosts : gmap str (list str)) (vs : list PendingExampleValidation) :
    outcome ParseError () :=
  match vs with
  | [] => Ok ()
  | v :: vs => _ ← validate_pending hosts v; validate_all hosts vs
  end.

Definition validate_pending_examples_from (b : PolicyBuilder) (start : nat) : outcome ParseError () :=
  validate_all (builder_hosts b) (drop start (pending_example_validations b)).

(** ** [PolicyParser::parse] *)
Definition parse (b : PolicyBuilder) (policy_identifier policy_file_contents : str) :
    PolicyBuilder * outcome ParseError () :=
  let pending_validation_count := length (pending_example_validations b) in
  match starlark policy_identifier policy_file_contents with
  | Ok run =>
      match eval_module b run with
      | (b, Ok _) => (b, validate_pending_examples_from b pending_validation_count)
      | result => result
      end
  | Err e => (b, Err (StarlarkSyntax e))
  | Panic => (b, Panic)
  | NoFuel => (b, NoFuel)
  end.
End Parser.

(** ** Loading *)
Inductive ExecPolicyError : Type :=
  | ReadDir (dir : Path) (message : str)
  | ReadFile (path : Path) (message : str)
  | ParsePolicy (path : str) (source : ParseError).

(** An entry of a directory: its name and whether it is a regular file. *)
Inductive dir_entry : Type :=
  | EntryFailed (message : str)
  | DirEntry (name : str) (is_file : outcome str bool).

Inductive dir_read : Type := DirEntries (entries : list dir_entry) | DirNotFound | DirFailed (message : str).

Definition RULES_DIR_NAME : str := lit "rules".
Definition RULE_EXTENSION : str := lit "rules".

(** [Path::extension] of a file name. *)
Definition extension (name : str) : option str :=
  if bool_decide (name = lit "..") then None
  else
    match reverse (RustStr.split DOT name) with
    | after :: ((_ :: _) as before) =>
        if bool_decide (RustStr.join [DOT] (reverse before) = []) then None else Some after
    | _ => None
    end.

(** The order of paths in one directory. *)
Fixpoint str_leb (a b : str) : bool :=
  match a, b with
  | [], _ => true
  | _ :: _, [] => false
  | c :: a, d :: b => (c <? d)%N || ((c =? d)%N && str_leb a b)
  end.

Definition str_le (a b : str) : Prop := str_leb a b = true.
#[export] Instance str_le_dec a b : base.Decision (str_le a b) := decide (str_leb a b = true).

Section Loading.
Context `{PathEnv}.
Context (read_dir : Path → dir_read) (read_file : Path → file_read).
Context (to_string_lossy : Path → str) (not_found : str).
Context (parse_policy : PolicyBuilder → str → str → PolicyBuilder * outcome ParseError ()).

Fixpoint rule_names (dir : Path) (entries : list dir_entry) : outcome ExecPolicyError (list str) :=
  match entries with
  | [] => Ok []
  | EntryFailed e :: _ => Err (ReadDir dir e)
  | DirEntry name is_file :: entries =>
      is_file ← map_err (ReadDir dir) is_file;
      names ← rule_names dir entries;
      Ok (if bool_decide (extension name = Some RULE_EXTENSION) && is_file then name :: names else names)
  end.

Definition collect_policy_files (dir : Path) : outcome ExecPolicyError (list Path) :=
  match read_dir dir with
  | DirNotFound => Ok []
  | DirFailed e => Err (ReadDir dir e)
  | DirEntries entries =>
      names ← rule_names dir entries;
      Ok ((λ name, dir ++ [Normal name]) <$> merge_sort str_le names)
  end.

Fixpoint collect_layer_policies (layers : list ConfigLayerEntry) : outcome ExecPolicyError (list Path) :=
  match layers with
  | [] => Ok []
  | layer :: layers =>
      layer_policy_paths ←
        match config_folder layer with
        | Some config_folder =>
            match Paths.join config_folder (path_of_str RULES_DIR_NAME) with
            | Some policy_dir => collect_policy_files policy_dir
            | None => Panic
            end
        | None => Ok []
        end;
      policy_paths ← collect_layer_policies layers;
      Ok (layer_policy_paths ++ policy_paths)
  end.

Fixpoint parse_files (parser : PolicyBuilder) (policy_paths : list Path) :
    outcome ExecPolicyError PolicyBuilder :=
  match policy_paths with
  | [] => Ok parser
  | policy_path :: policy_paths =>
      contents ← match read_file policy_path with
                 | Contents contents => Ok contents
                 | NotFound => Err (ReadFile policy_path not_found)
                 | ReadFailed e => Err (ReadFile policy_path e)
                 end;
      let identifier := to_string_lossy policy_path in
      match parse_policy parser identifier contents with
      | (parser, Ok _) => parse_files parser policy_paths
      | (_, Err source) => Err (ParsePolicy identifier source)
      | (_, Panic) => Panic
      | (_, NoFuel) => NoFuel
      end
  end.

Definition load_exec_policy {T} (config_stack : @ConfigLayerStack ConfigRequirements T) :
    outcome ExecPolicyError Policy :=
  policy_paths ← collect_layer_policies (get_layers config_stack LowestPrecedenceFirst false);
  parser ← parse_files builder_new policy_paths;
  let policy := build parser in
  match req_exec_policy (requirements config_stack) with
  | None => Ok policy
  | Some requirements_policy => Ok (merge_overlay policy (sourced_value requirements_policy))
  end.
End Loading.

(** ** The rules a file states *)
(** The rules, the network rule and the host executable of a call. *)
Definition rules_of_call (call : BuiltinCall) : list PrefixRule :=
  match call with
  | PrefixRuleCall items decision _ _ justification _ =>
      match match decision with Some raw => map_err RuleError (decision_parse raw) | None => Ok Allow end,
            parse_justification justification, parse_pattern items with
      | Ok decision, Ok justification, Ok (first_token :: remaining_tokens) =>
          rules_of_pattern first_token remaining_tokens decision justification
      | _, _, _ => []
      end
  | _ => []
  end.

Definition rules_at (m : gmap str (list PrefixRule)) (program : str) : list PrefixRule :=
  default [] (m !! program).

Definition of_program (program : str) (rules : list PrefixRule) : list PrefixRule :=
  List.filter (λ r, bool_decide (first (pattern r) = program)) rules.

Lemma of_program_app p l k : of_program p (l ++ k) = of_program p l ++ of_program p k.
Proof. apply List.filter_app. Qed.

Lemma elem_of_program p rules r : r ∈ of_program p rules ↔ r ∈ rules ∧ first (pattern r) = p.
Proof. unfold of_program. rewrite !list_elem_of_In, filter_In, bool_decide_eq_true. done. Qed.

Lemma insert_rule_at m r q :
  rules_at (insert_rule m (first (pattern r)) r) q = rules_at m q ++ of_program q [r].
Proof.
  unfold rules_at, insert_rule, of_program. cbn. case_bool_decide as Hq.
  - subst q. by rewrite lookup_insert_eq.
  - by rewrite lookup_insert_ne, app_nil_r by done.
Qed.

Lemma insert_rules_at m rules q :
  rules_at (foldl (λ m rule, insert_rule m (first (pattern rule)) rule) m rules) q
  = rules_at m q ++ of_program q rules.
Proof.
  revert m. induction rules as [|r rules IH]; intros m; cbn [foldl]; [by rewrite app_nil_r|].
  rewrite IH, insert_rule_at, <- app_assoc. by rewrite <- (of_program_app q [r] rules).
Qed.

Lemma add_rules b rules :
  builder_rules (foldl add_rule b rules)
    = foldl (λ m rule, insert_rule m (first (pattern rule)) rule) (builder_rules b) rules ∧
  builder_network_rules (foldl add_rule b rules) = builder_network_rules b ∧
  builder_hosts (foldl add_rule b rules) = builder_hosts b ∧
  pending_example_validations (foldl add_rule b rules) = pending_example_validations b.
Proof. revert b. induction rules as [|r rules IH]; intros b; [done|]. cbn [foldl]. by destruct (IH (add_rule b r)) as (-> & -> & -> & ->). Qed.

(** *** Examples *)
Lemma accepts_first p c args matched : accepts p (c :: args) matched → first p = c.
Proof. intros (a & t & Hc & -> & _). by injection Hc. Qed.

Definition policy_of_rules (rules : list PrefixRule) (hosts : gmap str (list str)) : Policy :=
  {| rules_by_program := rules_map rules; network_rules := []; host_executables_by_name := hosts |}.

Lemma rules_map_elem rules program rule :
  (∃ rs, rules_map rules !! program = Some rs ∧ rule ∈ rs) ↔ rule ∈ rules ∧ first (pattern rule) = program.
Proof.
  rewrite <- elem_of_program. assert (Hr := insert_rules_at ∅ rules program).
  unfold rules_at in Hr. rewrite lookup_empty in Hr. cbn in Hr. rewrite <- Hr. unfold rules_map.
  destruct (_ !! program); cbn; [naive_solver|]. split; [naive_solver|]. by intros ?%not_elem_of_nil.
Qed.

Section Examples.
Context (home_dir : option str) (absolutize : str → option str) (windows : bool).

(** A command is accepted by one of some rules, as it is written or by the base
    name of its program. *)
Definition accepted_by (hosts : gmap str (list str)) (rules : list PrefixRule) (cmd : list str) : Prop :=
  (∃ rule matched, rule ∈ rules ∧ accepts (pattern rule) cmd matched) ∨
  ∃ c args program basename rule matched,
    cmd = c :: args ∧
    ExecPolicy.from_absolute_path home_dir absolutize windows c = Some program ∧
    executable_path_lookup_key windows program = Some basename ∧
    (∀ paths, hosts !! basename = Some paths → program ∈ paths) ∧
    rule ∈ rules ∧ accepts (pattern rule) (basename :: args) matched.

Lemma example_matches_iff rules hosts cmd :
  example_matches home_dir absolutize windows (policy_of_rules rules hosts) cmd ≠ [] ↔
  accepted_by hosts rules cmd.
Proof.
  assert (Hm : example_matches home_dir absolutize windows (policy_of_rules rules hosts) cmd ≠ [] ↔
    (∃ r, exact_match (policy_of_rules rules hosts) cmd r) ∨
    (∃ r, host_match home_dir absolutize windows (policy_of_rules rules hosts) cmd r)).
  { setoid_rewrite <- elem_of_host_matches. setoid_rewrite <- match_exact_rules_iff.
    unfold example_matches, matches_for_command_with_options.
    assert (Hl : ∀ l : list RuleMatch, match l with [] => l | _ => l end ≠ [] ↔ ∃ r, r ∈ l).
    { intros [|m l]; split; [done|by intros [? ?%not_elem_of_nil]|exists m; left|done]. }
    rewrite (Hl (match _ with Some _ => _ | None => _ end)).
    destruct (match_exact_rules _ cmd) as [[|m ms]|].
    - split; [eauto|]. by intros [(r & ms & [= <-] & []%not_elem_of_nil)|?].
    - split; [intros [r Hr]; left; eauto|intros _; exists m; left].
    - split; [eauto|]. by intros [(r & ms & [=] & _)|?]. }
  rewrite Hm. unfold accepted_by, exact_match, host_match, rule_match. cbn [rules_by_program policy_of_rules host_executables_by_name].
  split.
  - intros [(r & program & Hh & rs & rule & matched & Hrs & Hin & Ha & _)|
            (r & c & args & program & basename & -> & Hp & Hb & Hh & rs & rule & matched & Hrs & Hin & Ha & _)].
    + left. exists rule, matched. split; [|done]. by apply (rules_map_elem rules program rule); eauto.
    + right. exists c, args, program, basename, rule, matched. split_and!; try done.
      by apply (rules_map_elem rules basename rule); eauto.
  - intros [(rule & matched & Hin & Ha)|(c & args & program & basename & rule & matched & -> & Hp & Hb & Hh & Hin & Ha)].
    + left. destruct cmd as [|c args]; [by destruct Ha as (? & ? & ? & -> & _)|].
      assert (Hf := accepts_first _ _ _ _ Ha).
      destruct (proj2 (rules_map_elem rules c rule)) as (rs & Hrs & Hr); [done|].
      eexists _, c. split; [done|]. by exists rs, rule, matched.
    + right. assert (Hf := accepts_first _ _ _ _ Ha).
      destruct (proj2 (rules_map_elem rules basename rule)) as (rs & Hrs & Hr); [done|].
      eexists _, c, args, program, basename. split_and!; try done. by exists rs, rule, matched.
Qed.
End Examples.

Section ParserFacts.
Context (home_dir : option str) (absolutize : str → option str) (absolutize_error : str → str).
Context (windows : bool).
Context (shlex_split : str → option (list str)) (shlex_try_join : list str → option str).
Context (debug_rule : PrefixRule → str) (debug_match : RuleMatch → str).
Context (starlark : str → str → outcome str ModuleRun).
#[local] Abbreviation call_builtin := (call_builtin home_dir absolutize absolutize_error windows shlex_split).
#[local] Abbreviation eval_calls := (eval_calls home_dir absolutize absolutize_error windows shlex_split).
#[local] Abbreviation parse_examples := (parse_examples shlex_split).
#[local] Abbreviation accepted_by := (accepted_by home_dir absolutize windows).
#[local] Abbreviation parse :=
  (parse home_dir absolutize absolutize_error windows shlex_split shlex_try_join debug_rule debug_match starlark).

Definition ok_of {E A} (m : outcome E A) : option A := match m with Ok a => Some a | _ => None end.

Definition network_of_call (call : BuiltinCall) : option NetworkRule :=
  match call with
  | NetworkRuleCall host protocol decision justification =>
      protocol ← ok_of (protocol_parse protocol);
      decision ← ok_of (parse_network_rule_decision decision);
      host ← ok_of (normalize_network_rule_host host);
      Some {| host := host; protocol := protocol; net_decision := decision;
              net_justification := justification |}
  | _ => None
  end.

Definition host_of_call (call : BuiltinCall) : option (str * list str) :=
  match call with
  | HostExecutableCall name paths =>
      paths ← ok_of (host_executable_paths home_dir absolutize absolutize_error windows name paths []);
      Some (executable_lookup_key windows name, paths)
  | _ => None
  end.

Definition pending_of_call (call : BuiltinCall) : option PendingExampleValidation :=
  match call with
  | PrefixRuleCall _ _ matches not_match _ location =>
      matches ← ok_of (parse_examples matches);
      not_matches ← ok_of (parse_examples not_match);
      Some {| validation_rules := rules_of_call call; validation_matches := matches;
              validation_not_matches := not_matches; validation_location := location |}
  | _ => None
  end.

(** What a builder has after some calls. *)
Definition after_calls (b : PolicyBuilder) (calls : list BuiltinCall) : PolicyBuilder := {|
  builder_rules := foldl (λ m rule, insert_rule m (first (pattern rule)) rule) (builder_rules b)
                     (calls ≫= rules_of_call);
  builder_network_rules := builder_network_rules b ++ omap network_of_call calls;
  builder_hosts := foldl (λ m h, <[h.1 := h.2]> m) (builder_hosts b) (omap host_of_call calls);
  pending_example_validations := pending_example_validations b ++ omap pending_of_call calls;
|}.

Lemma justification_ok j j' : parse_justification j = Ok j' → j' = j.
Proof. destruct j; cbn; [case_bool_decide; [done|]|]; by intros [= <-]. Qed.

Lemma builder_eq b b' :
  builder_rules b = builder_rules b' → builder_network_rules b = builder_network_rules b' →
  builder_hosts b = builder_hosts b' → pending_example_validations b = pending_example_validations b' → b = b'.
Proof. destruct b, b'. cbn. by intros -> -> -> ->. Qed.

Lemma call_effect b call b' : call_builtin b call = Ok b' → b' = after_calls b [call].
Proof.
  destruct call as [items d ms nms j loc|h pr d j|name paths]; cbn [PolicyFiles.call_builtin].
  - unfold prefix_rule. intros (d' & Hd & Hb)%bind_Ok_inv.
    apply bind_Ok_inv in Hb as (j' & Hj & Hb). apply bind_Ok_inv in Hb as (ts & Hts & Hb).
    apply bind_Ok_inv in Hb as (ms' & Hms & Hb). apply bind_Ok_inv in Hb as (nms' & Hnms & Hb).
    destruct ts as [|t ts]; [done|]. injection Hb as <-.
    assert (Hr : rules_of_call (PrefixRuleCall items d ms nms j loc) = rules_of_pattern t ts d' j').
    { cbn [rules_of_call]. by rewrite Hd, Hj, Hts. }
    match goal with |- foldl add_rule ?b0 ?rs = _ => destruct (add_rules b0 rs) as (H1 & H2 & H3 & H4) end.
    unfold after_calls. cbn [omap list_omap mbind list_bind network_of_call host_of_call].
    rewrite Hr, app_nil_r. cbn [pending_of_call]. rewrite Hms, Hnms. cbn [ok_of mbind option_bind]. rewrite Hr.
    apply builder_eq; cbn; rewrite ?H1, ?H2, ?H3, ?H4; cbn; by rewrite ?app_nil_r.
  - unfold network_rule. intros (pr' & Hp & Hb)%bind_Ok_inv.
    apply bind_Ok_inv in Hb as (d' & Hd & Hb). apply bind_Ok_inv in Hb as (j' & Hj & Hb).
    apply bind_Ok_inv in Hb as (h' & Hh & Hb). injection Hb as <-.
    apply justification_ok in Hj as ->.
    destruct (protocol_parse pr) eqn:E1; try done. injection Hp as ->.
    destruct (parse_network_rule_decision d) eqn:E2; try done. injection Hd as ->.
    destruct (normalize_network_rule_host h) eqn:E3; try done. injection Hh as ->.
    apply builder_eq; cbn; rewrite ?app_nil_r; try done.
    unfold network_of_call. cbn. by rewrite E1, E2, E3.
  - unfold host_executable. intros ([] & _ & Hb)%bind_Ok_inv.
    apply bind_Ok_inv in Hb as (ps & Hps & Hb). injection Hb as <-.
    apply builder_eq; cbn; rewrite ?app_nil_r; try done. unfold host_of_call. by rewrite Hps.
Qed.

Lemma after_calls_app b c1 c2 : after_calls (after_calls b c1) c2 = after_calls b (c1 ++ c2).
Proof.
  apply builder_eq; cbn; rewrite ?bind_app, ?omap_app, ?foldl_app, ?app_assoc; done.
Qed.

Lemma after_no_calls b : after_calls b [] = b.
Proof. apply builder_eq; cbn; by rewrite ?app_nil_r. Qed.

Lemma eval_calls_ok b calls ending b' :
  eval_calls b calls ending = (b', Ok ()) → b' = after_calls b calls ∧ ending = Ok ().
Proof.
  revert b. induction calls as [|call calls IH]; intros b; cbn [PolicyFiles.eval_calls].
  - intros [= <- <-]. by rewrite after_no_calls.
  - destruct (call_builtin b call) as [b1| | |] eqn:E; try done. intros [-> ->]%IH. split; [|done].
    apply call_effect in E as ->. by rewrite after_calls_app.
Qed.

(** *** Validation *)
Definition examples_hold (hosts : gmap str (list str)) (v : PendingExampleValidation) : Prop :=
  (∀ example, example ∈ validation_matches v → accepted_by hosts (validation_rules v) example) ∧
  (∀ example, example ∈ validation_not_matches v → ¬ accepted_by hosts (validation_rules v) example).

Lemma not_match_ok rules hosts examples :
  validate_not_match_examples home_dir absolutize windows shlex_try_join debug_match
    (policy_of_rules rules hosts) examples = Ok () ↔
  ∀ example, example ∈ examples → ¬ accepted_by hosts rules example.
Proof.
  induction examples as [|ex examples IH]; cbn [validate_not_match_examples]; [set_solver|].
  assert (He := example_matches_iff home_dir absolutize windows rules hosts ex).
  destruct (example_matches _ _ _ _ ex) as [|m ms].
  - rewrite IH. setoid_rewrite elem_of_cons. naive_solver.
  - split; [done|]. intros Hn. destruct (Hn ex); [left|by apply He].
Qed.

Lemma match_ok rules hosts examples :
  validate_match_examples home_dir absolutize windows shlex_try_join debug_rule
    (policy_of_rules rules hosts) rules examples = Ok () ↔
  ∀ example, example ∈ examples → accepted_by hosts rules example.
Proof.
  unfold validate_match_examples. setoid_rewrite <- example_matches_iff.
  induction examples as [|ex examples IH]; cbn [List.filter]; [set_solver|].
  case_bool_decide as He.
  - split; [done|]. intros Hall. by destruct (Hall ex); [left|].
  - rewrite IH. setoid_rewrite elem_of_cons. naive_solver.
Qed.

Lemma map_err_unit {E F} (f : E → F) (m : outcome E ()) : map_err f m = Ok () ↔ m = Ok ().
Proof. destruct m as [[]| | |]; cbn; naive_solver. Qed.

Lemma validate_all_ok hosts vs :
  validate_all home_dir absolutize windows shlex_try_join debug_rule debug_match hosts vs = Ok () ↔
  Forall (examples_hold hosts) vs.
Proof.
  induction vs as [|v vs IH]; cbn [validate_all]; [by split|].
  rewrite bind_Ok_inv, Forall_cons, <- IH. unfold examples_hold.
  rewrite <- (match_ok (validation_rules v) hosts), <- (not_match_ok (validation_rules v) hosts).
  assert (Hv : validate_pending home_dir absolutize windows shlex_try_join debug_rule debug_match hosts v = Ok () ↔
    validate_not_match_examples home_dir absolutize windows shlex_try_join debug_match
      (policy_of_rules (validation_rules v) hosts) (validation_not_matches v) = Ok () ∧
    validate_match_examples home_dir absolutize windows shlex_try_join debug_rule
      (policy_of_rules (validation_rules v) hosts) (validation_rules v) (validation_matches v) = Ok ()).
  { unfold validate_pending. rewrite bind_Ok_inv. split.
    - by intros ([] & ?%map_err_unit & ?%map_err_unit).
    - intros [? ?]. exists (). by rewrite !map_err_unit. }
  split; [intros ([] & ?%Hv & ?)|intros [? ?]; exists ()]; rewrite ?Hv; tauto.
Qed.

Lemma parse_iff b id text b' :
  parse b id text = (b', Ok ()) ↔
  ∃ run, starlark id text = Ok run ∧
    eval_module home_dir absolutize absolutize_error windows shlex_split b run = (b', Ok ()) ∧
    b' = after_calls b (run_calls run) ∧ run_error run = None ∧
    Forall (examples_hold (builder_hosts b')) (omap pending_of_call (run_calls run)).
Proof.
  unfold PolicyFiles.parse, eval_module. destruct (starlark id text) as [run| | |]; try naive_solver. split.
  - destruct (eval_calls b (run_calls run) _) as [b1 [[]| | |]] eqn:E; try done.
    intros [= <- Hv]. exists run. destruct (eval_calls_ok _ _ _ _ E) as [Hb1 He].
    split_and!; [done|done|done|by destruct (run_error run)|].
    unfold validate_pending_examples_from in Hv. apply validate_all_ok in Hv.
    rewrite Hb1 in Hv at 2. cbn [pending_example_validations after_calls] in Hv. by rewrite drop_app_length in Hv.
  - intros (run' & [= <-] & He & Hb & _ & Hf). rewrite He. f_equal.
    unfold validate_pending_examples_from. apply validate_all_ok. rewrite Hb at 2.
    cbn [pending_example_validations after_calls]. by rewrite drop_app_length.
Qed.

(** A policy file is accepted exactly when its module runs without error and
    the examples of its rules hold: every [match] example of a [prefix_rule] is
    accepted by a rule of the same call and no [not_match] example is, with the
    host executables known at the end of the file.  The policy then has, after
    what it had, the rules and network rules the calls state, in their order. *)
Theorem parse_spec b id text :
  let '(b', result) := parse b id text in
  (result = Ok () ↔
   ∃ run, starlark id text = Ok run ∧
     (eval_module home_dir absolutize absolutize_error windows shlex_split b run).2 = Ok () ∧
     Forall (examples_hold (builder_hosts (after_calls b (run_calls run))))
       (omap pending_of_call (run_calls run))) ∧
  (result = Ok () →
   ∃ run, starlark id text = Ok run ∧ run_error run = None ∧
     (∀ program, rules_at (rules_by_program (build b')) program
       = rules_at (builder_rules b) program ++ of_program program (run_calls run ≫= rules_of_call)) ∧
     network_rules (build b') = builder_network_rules b ++ omap network_of_call (run_calls run)).
Proof.
  destruct (parse b id text) as [b' result] eqn:Ep. split; [split|].
  - intros ->. apply parse_iff in Ep as (run & Hrun & He & Hb & _ & Hf). exists run. subst b'.
    split_and!; [done| |done]. by rewrite He.
  - intros (run & Hrun & He & Hf).
    destruct (eval_module home_dir absolutize absolutize_error windows shlex_split b run) as [b1 r1] eqn:E1.
    cbn in He. subst r1. destruct (eval_calls_ok _ _ _ _ E1) as [-> Herr].
    assert (Hp : parse b id text = (after_calls b (run_calls run), Ok ())).
    { apply parse_iff. exists run. split_and!; try done. by destruct (run_error run). }
    congruence.
  - intros ->. apply parse_iff in Ep as (run & Hrun & _ & -> & Herr & _). exists run. split_and!; [done..| |done].
    intros program. cbn. apply insert_rules_at.
Qed.

(** *** Amendments *)
(** The call of the line an amendment appends. *)
Definition amendment_call (prefix : list str) (location : option ErrorLocation) : BuiltinCall :=
  PrefixRuleCall (VString <$> prefix) (Some (lit "allow")) None None None location.

Lemma parse_pattern_strings prefix :
  prefix ≠ [] → parse_pattern (VString <$> prefix) = Ok (Single <$> prefix).
Proof.
  intros Hne. unfold parse_pattern.
  assert (Hc : collect_results parse_pattern_token (VString <$> prefix) = Ok (Single <$> prefix)).
  { clear Hne. induction prefix as [|x prefix IH]; [done|]. cbn in *. by rewrite IH. }
  rewrite Hc. by destruct prefix.
Qed.

Lemma amendment_builtin b prefix location policy' :
  add_prefix_rule (build b) prefix Allow = Ok policy' →
  ∃ b', call_builtin b (amendment_call prefix location) = Ok b' ∧ build b' = policy' ∧
    builder_hosts b' = builder_hosts b ∧
    ∀ v, pending_of_call (amendment_call prefix location) = Some v → examples_hold (builder_hosts b) v.
Proof.
  destruct prefix as [|p0 prefix]; [done|]. cbn [add_prefix_rule]. intros [= <-].
  unfold amendment_call, PolicyFiles.call_builtin, prefix_rule. cbn [decision_parse map_err mbind outcome_bind].
  change (map_err RuleError (decision_parse (lit "allow"))) with (Ok (E := BuiltinError) Allow).
  rewrite parse_pattern_strings by done. cbn -[lit]. eexists. split; [done|]. split_and!; [done..|].
  unfold pending_of_call, examples_hold. cbn -[lit]. intros v [= <-]. cbn. set_solver.
Qed.

Lemma eval_calls_app b c1 c2 ending b1 :
  eval_calls b c1 (Ok ()) = (b1, Ok ()) → eval_calls b (c1 ++ c2) ending = eval_calls b1 c2 ending.
Proof.
  revert b. induction c1 as [|c c1 IH]; intros b; cbn [PolicyFiles.eval_calls app]; [by intros [= <-]|].
  destruct (call_builtin b c); try done. apply IH.
Qed.

(** Approving a command for good leaves the file and the policy in memory in
    agreement: when the line appended to the file adds its call to the module,
    the file is accepted again and states the policy that
    [add_prefix_rule] gives. *)
Theorem amended_file_agrees b0 id contents line b run prefix location policy' :
  parse b0 id contents = (b, Ok ()) → starlark id contents = Ok run →
  starlark id (append_line contents line) =
    Ok {| run_calls := run_calls run ++ [amendment_call prefix location]; run_error := run_error run |} →
  add_prefix_rule (build b) prefix Allow = Ok policy' →
  ∃ b', parse b0 id (append_line contents line) = (b', Ok ()) ∧ build b' = policy'.
Proof.
  intros (run' & Hrun' & He & Hb & Herr & Hf)%parse_iff Hrun Hrun2 Hadd.
  rewrite Hrun in Hrun'. injection Hrun' as <-.
  destruct (amendment_builtin b prefix location policy' Hadd) as (b' & Hc & Hpol & Hh & Hv).
  exists b'. split; [|done]. apply parse_iff. eexists. split; [done|]. cbn [run_calls run_error].
  unfold eval_module in *. cbn [run_calls run_error]. rewrite Herr in *.
  assert (Hb' := call_effect _ _ _ Hc). split_and!; [| |done|].
  - rewrite (eval_calls_app _ _ _ _ b) by done. cbn [PolicyFiles.eval_calls]. by rewrite Hc.
  - by rewrite Hb', Hb, after_calls_app.
  - rewrite omap_app, Forall_app, Hh. split; [done|]. cbn [omap list_omap].
    destruct (pending_of_call (amendment_call prefix location)) as [v|]; [|constructor].
    constructor; [by apply Hv|constructor].
Qed.
End ParserFacts.

(** ** The loaded policy *)
Section LoadingFacts.
Context `{PathEnv}.
Context (read_dir : Path → dir_read) (read_file : Path → file_read).
Context (to_string_lossy : Path → str) (not_found : str).
Context (home : option str) (absolute : str → option str) (absolute_error : str → str).
Context (windows : bool).
Context (shlex_split : str → option (list str)) (shlex_try_join : list str → option str).
Context (debug_rule : PrefixRule → str) (debug_match : RuleMatch → str).
Context (starlark : str → str → outcome str ModuleRun).
#[local] Abbreviation parse_policy :=
  (parse home absolute absolute_error windows shlex_split shlex_try_join debug_rule debug_match starlark).
#[local] Abbreviation parse_files := (parse_files read_file to_string_lossy not_found parse_policy).
#[local] Abbreviation after_calls := (after_calls home absolute absolute_error windows shlex_split).

(** A regular file with the extension in the folder [rules] of a layer. *)
Definition policy_file (layers : list ConfigLayerEntry) (path : Path) : Prop :=
  ∃ layer folder dir entries name,
    layer ∈ layers ∧ config_folder layer = Some folder ∧
    Paths.join folder (path_of_str RULES_DIR_NAME) = Some dir ∧
    read_dir dir = DirEntries entries ∧ DirEntry name (Ok true) ∈ entries ∧
    extension name = Some RULE_EXTENSION ∧ path = dir ++ [Normal name].

Lemma rule_names_ok dir entries names :
  rule_names dir entries = Ok names →
  ∀ name, name ∈ names ↔ DirEntry name (Ok true) ∈ entries ∧ extension name = Some RULE_EXTENSION.
Proof.
  revert names. induction entries as [|[e|n f] entries IH]; intros names; cbn [rule_names]; [|done|].
  { intros [= <-] name. set_solver. }
  intros (is_file & Hf & Hn)%bind_Ok_inv name. apply bind_Ok_inv in Hn as (ns & Hns & [= <-]).
  apply IH with (name := name) in Hns. destruct f as [f| | |]; try done. injection Hf as ->.
  assert (Hd : ∀ n' b, DirEntry name (Ok true) = DirEntry n' (Ok b) ↔ n' = name ∧ b = true) by naive_solver.
  rewrite elem_of_cons, Hd. destruct (bool_decide (extension n = Some RULE_EXTENSION) && is_file) eqn:E.
  - apply andb_true_iff in E as [?%bool_decide_eq_true ->]. rewrite elem_of_cons. naive_solver.
  - rewrite Hns. split; [naive_solver|]. intros [[[-> ->]|?] He]; [|done].
    by rewrite bool_decide_eq_true_2 in E.
Qed.

Lemma collect_policy_files_ok dir paths :
  collect_policy_files read_dir dir = Ok paths →
  ∀ path, path ∈ paths ↔ ∃ entries name, read_dir dir = DirEntries entries ∧ DirEntry name (Ok true) ∈ entries ∧
    extension name = Some RULE_EXTENSION ∧ path = dir ++ [Normal name].
Proof.
  unfold collect_policy_files. destruct (read_dir dir) as [entries| |] eqn:E; [| |done].
  - intros (names & Hn & [= <-])%bind_Ok_inv path.
    rewrite list_elem_of_fmap. split.
    + intros (name & -> & Hin). rewrite merge_sort_Permutation in Hin.
      apply (rule_names_ok _ _ _ Hn) in Hin as [? ?]. by exists entries, name.
    + intros (entries' & name & [= <-] & Hin & He & ->). exists name. split; [done|].
      rewrite merge_sort_Permutation. by apply (rule_names_ok _ _ _ Hn).
  - intros [= <-] path. split; [by intros ?%not_elem_of_nil|naive_solver].
Qed.

Lemma collect_layers_ok layers paths :
  collect_layer_policies read_dir layers = Ok paths → ∀ path, path ∈ paths ↔ policy_file layers path.
Proof.
  revert paths. induction layers as [|layer layers IH]; intros paths; cbn [collect_layer_policies].
  { intros [= <-] path. split; [by intros ?%not_elem_of_nil|]. by intros (? & ? & ? & ? & ? & ?%not_elem_of_nil & _). }
  intros (here & Hh & (rest & Hr & [= <-])%bind_Ok_inv)%bind_Ok_inv path. rewrite elem_of_app, (IH _ Hr). clear IH Hr.
  unfold policy_file. setoid_rewrite elem_of_cons.
  destruct (config_folder layer) as [folder|] eqn:Ef.
  - destruct (Paths.join folder _) as [dir|] eqn:Ej; [|done].
    rewrite (collect_policy_files_ok _ _ Hh). split.
    + intros [(entries & name & ?)|(l & f & d & es & n & ? & ?)].
      * exists layer, folder, dir, entries, name. naive_solver.
      * exists l, f, d, es, n. naive_solver.
    + intros (l & f & d & es & n & [->|Hl] & Hf & Hj & Hd & Hrest).
      * left. simplify_eq. by exists es, n.
      * right. by exists l, f, d, es, n.
  - injection Hh as <-. split.
    + intros [?%not_elem_of_nil|(l & f & d & es & n & ? & ?)]; [done|]. exists l, f, d, es, n. naive_solver.
    + intros (l & f & d & es & n & [->|Hl] & Hf & ?); [by simplify_eq|]. right. by exists l, f, d, es, n.
Qed.

(** The runs of the files that are read. *)
Definition file_run (path : Path) (run : ModuleRun) : Prop :=
  ∃ text, read_file path = Contents text ∧ starlark (to_string_lossy path) text = Ok run.

Lemma parse_files_ok b paths b' :
  parse_files b paths = Ok b' →
  ∃ runs, Forall2 file_run paths runs ∧ b' = after_calls b (runs ≫= run_calls).
Proof.
  revert b. induction paths as [|path paths IH]; intros b; cbn [PolicyFiles.parse_files].
  { intros [= <-]. exists []. split; [constructor|]. symmetry. apply after_no_calls. }
  intros (text & Ht & Hb)%bind_Ok_inv. destruct (read_file path) eqn:Er; try done. injection Ht as ->.
  destruct (parse_policy b _ text) as [b1 [[]| | |]] eqn:Ep; try done.
  apply parse_iff in Ep as (run & Hrun & _ & -> & _).
  apply IH in Hb as (runs & Hruns & ->). exists (run :: runs). split.
  - constructor; [|done]. by exists text.
  - cbn [mbind list_bind]. by rewrite after_calls_app.
Qed.

(** A file of an enabled layer states a match of a command. *)
Definition stated {T} (stack : @ConfigLayerStack ConfigRequirements T) (cmd : list str) (r : RuleMatch) : Prop :=
  ∃ layer path run call rule matched,
    layer ∈ layers stack ∧ disabled_reason layer = None ∧
    policy_file [layer] path ∧ file_run path run ∧
    call ∈ run_calls run ∧ rule ∈ rules_of_call call ∧ accepts (pattern rule) cmd matched ∧
    r = PrefixRuleMatch matched (rule_decision rule) None (rule_justification rule).

Lemma enabled_policy_file {T} (stack : @ConfigLayerStack ConfigRequirements T) path :
  policy_file (get_layers stack LowestPrecedenceFirst false) path ↔
  ∃ layer, layer ∈ layers stack ∧ disabled_reason layer = None ∧ policy_file [layer] path.
Proof.
  assert (He : ∀ layer, layer ∈ get_layers stack LowestPrecedenceFirst false ↔
    layer ∈ layers stack ∧ disabled_reason layer = None).
  { intros layer. unfold get_layers. rewrite bool_decide_eq_false_2 by done.
    rewrite list_elem_of_In, filter_In, <-list_elem_of_In. unfold is_disabled.
    destruct (disabled_reason layer); naive_solver. }
  unfold policy_file. setoid_rewrite He. setoid_rewrite list_elem_of_singleton. naive_solver.
Qed.

Lemma built_exact calls cmd r :
  exact_match (build (after_calls builder_new calls)) cmd r ↔
  ∃ rule matched, rule ∈ calls ≫= rules_of_call ∧ accepts (pattern rule) cmd matched ∧
    r = PrefixRuleMatch matched (rule_decision rule) None (rule_justification rule).
Proof.
  unfold exact_match, rule_match. cbn [build rules_by_program PolicyFiles.after_calls builder_rules builder_new].
  fold (rules_map (calls ≫= rules_of_call)). split.
  - intros (program & _ & rs & rule & matched & Hrs & Hin & Ha & ->). exists rule, matched.
    split_and!; [|done..]. by apply (rules_map_elem _ program rule); eauto.
  - intros (rule & matched & Hin & Ha & ->). destruct cmd as [|c args]; [by destruct Ha as (? & ? & ? & -> & _)|].
    assert (Hf := accepts_first _ _ _ _ Ha).
    destruct (proj2 (rules_map_elem (calls ≫= rules_of_call) c rule)) as (rs & Hrs & Hr); [done|].
    exists c. split; [done|]. by exists rs, rule, matched.
Qed.

Lemma file_run_fun path run run' : file_run path run → file_run path run' → run = run'.
Proof. intros (t & Ht & Hr) (t' & Ht' & Hr'). congruence. Qed.

#[local] Abbreviation load_exec_policy :=
  (load_exec_policy read_dir read_file to_string_lossy not_found parse_policy).

(** C26: the policy that is loaded has exactly the rules that the regular files
    with extension [rules] state in the folders [rules] of the enabled layers, and
    those of the requirements: what any of them says about a command as it is
    written is a match of the policy, and there is no other match.  And the
    requirements bind: a command that one of their rules accepts is decided at
    least as strictly as that rule says, whatever the files say. *)
Theorem load_exec_policy_spec {T} (stack : @ConfigLayerStack ConfigRequirements T) policy :
  load_exec_policy stack = Ok policy →
  (∀ cmd r, exact_match policy cmd r ↔
    stated stack cmd r ∨
    ∃ req, req_exec_policy (requirements stack) = Some req ∧ exact_match (sourced_value req) cmd r) ∧
  ∀ req cmd r fallback resolve, req_exec_policy (requirements stack) = Some req →
    exact_match (sourced_value req) cmd r →
    ∃ e, check_with_options home absolute windows policy cmd fallback resolve = Ok e ∧
      decision_rank (match_decision r) ≤ decision_rank (decision e).
Proof.
  unfold PolicyFiles.load_exec_policy. intros (paths & Hp & Hl)%bind_Ok_inv.
  apply bind_Ok_inv in Hl as (b & Hb & Hl). assert (Hpf := collect_layers_ok _ _ Hp).
  apply parse_files_ok in Hb as (runs & Hruns & ->).
  assert (Hst : ∀ cmd r, exact_match (build (after_calls builder_new (runs ≫= run_calls))) cmd r ↔ stated stack cmd r).
  { intros cmd r. rewrite built_exact. unfold stated. split.
    - intros (rule & matched & Hin & Ha & ->). apply list_elem_of_bind in Hin as (call & Hrule & Hcall).
      apply list_elem_of_bind in Hcall as (run & Hcall & Hrun).
      apply list_elem_of_lookup in Hrun as [i Hi].
      eapply Forall2_lookup_r in Hruns as (path & Hpath & Hfr); [|done].
      apply list_elem_of_lookup_2, Hpf, enabled_policy_file in Hpath as (layer & Hin & Hen & Hpath).
      by exists layer, path, run, call, rule, matched.
    - intros (layer & path & run & call & rule & matched & Hin & Hen & Hpath & Hfr & Hcall & Hrule & Ha & ->).
      assert (Hpath' : policy_file (get_layers stack LowestPrecedenceFirst false) path)
        by (apply enabled_policy_file; by exists layer).
      clear Hin Hen Hpath. apply Hpf in Hpath' as Hpath.
      exists rule, matched. split_and!; [|done..]. apply list_elem_of_lookup in Hpath as [i Hi].
      eapply Forall2_lookup_l in Hruns as (run' & Hrun' & Hfr'); [|done].
      rewrite (file_run_fun _ _ _ Hfr Hfr') in *. apply list_elem_of_bind. exists call. split; [done|].
      apply list_elem_of_bind. exists run'. split; [done|]. by eapply list_elem_of_lookup_2. }
  assert (Hex : ∀ cmd r, exact_match policy cmd r ↔ stated stack cmd r ∨
    ∃ req, req_exec_policy (requirements stack) = Some req ∧ exact_match (sourced_value req) cmd r).
  { intros cmd r. destruct (req_exec_policy (requirements stack)) as [req|]; injection Hl as <-.
    - rewrite exact_match_merge, Hst. naive_solver.
    - rewrite Hst. naive_solver. }
  split; [done|]. intros req cmd r fallback resolve Hreq Hr. unfold check_with_options.
  destruct (from_matches_spec _ (matches_nonempty home absolute windows policy cmd fallback resolve))
    as (e & He & _ & Hub & _). exists e. split; [done|]. apply Hub, elem_of_matches. left. apply Hex. right. by exists req.
Qed.
End LoadingFacts.

(** ** The policy files of a project *)
Section Provenance.
Context `{PathLaws}.
Context (to_string_lossy : Path → str) (version_for_toml : TomlValue → str).
Context (read_file : Path → file_read) (toml_from_str : str → outcome str TomlValue).
Context (config_toml_round_trip : Path → TomlValue → option (outcome str TomlValue)).
Context (projects_of : TomlValue → outcome str (gmap str (option TrustLevel))).
Context (requirements_from_str : str → outcome str ConfigRequirementsToml).
Context (legacy_of_toml : TomlValue → outcome str LegacyManagedConfigToml).
Context (read_dir : Path → dir_read).

(** The policy files that are read are in the folder [rules] beside the
    system's or the user's configuration, or in the one of a project's [.codex]
    folder that is trusted or that has no [config.toml]. *)
Theorem policy_files_provenance codex_home cwd cli_overrides managed prefs cloud stack path :
  normal_abs cwd = true →
  load_config_layers_state to_string_lossy version_for_toml read_file toml_from_str config_toml_round_trip
    projects_of requirements_from_str legacy_of_toml codex_home (Some cwd) cli_overrides managed prefs cloud
    = Ok stack →
  policy_file read_dir (get_layers stack LowestPrecedenceFirst false) path →
  ∃ folder dir name,
    Paths.join folder (path_of_str RULES_DIR_NAME) = Some dir ∧ path = dir ++ [Normal name] ∧
    ((∃ file, parent file = Some folder ∧ (System file ∈ ConfigLayers.name <$> layers stack ∨
                                           User file ∈ ConfigLayers.name <$> layers stack)) ∨
     ∃ d, folder = dot_codex_of d ∧
       (trusted_dir to_string_lossy projects_of stack cwd d ∨
        read_file (folder ++ [Normal CONFIG_TOML_FILE]) = NotFound)).
Proof.
  intros Hc Hload (layer & folder & dir & entries & name & Hin & Hf & Hj & _ & _ & _ & ->).
  exists folder, dir, name. split_and!; [done..|].
  assert (Hl := get_layers_elem _ _ _ _ Hin). apply (list_elem_of_fmap_2 ConfigLayers.name) in Hl.
  unfold config_folder in Hf. destruct (ConfigLayers.name layer) as [|file|file|d| | |] eqn:En; try done.
  - left. exists file. auto.
  - left. exists file. auto.
  - right. injection Hf as ->.
    destruct (enabled_project_layer _ _ _ _ _ _ _ _ _ _ _ _ _ _ _ _ _ Hc Hload Hin En) as (d' & -> & Ht).
    exists d'. split; [done|]. destruct Ht as [?|[_ ?]]; auto.
Qed.
End Provenance.

(** ** Samples *)
(** One line for each file: what the sample modules call. *)
Definition FORBID_RM : string := "prefix_rule(pattern=['rm'], decision='forbidden')".
Definition ALLOW_RM : string := "prefix_rule(pattern=['rm'], decision='allow', match=['rm x'], not_match=['ls'])".

Definition rm_call (decision : string) (matches not_match : list (list string)) : BuiltinCall :=
  PrefixRuleCall [VString (lit "rm")] (Some (lit decision))
    (Some ((λ ex, VList (VString ∘ lit <$> ex)) <$> matches))
    (Some ((λ ex, VList (VString ∘ lit <$> ex)) <$> not_match)) None None.

Definition allow_ls : str := default [] (allow_prefix_line (λ s, [34%N] ++ s ++ [34%N]) [lit "ls"]).

Definition sample_starlark (id text : str) : outcome str ModuleRun :=
  if bool_decide (text = []) then Ok {| run_calls := []; run_error := None |}
  else if bool_decide (text = lit FORBID_RM) then
    Ok {| run_calls := [rm_call "forbidden" [] []]; run_error := None |}
  else if bool_decide (text = lit ALLOW_RM) then
    Ok {| run_calls := [rm_call "allow" [["rm"; "x"]] [["ls"]]]%string; run_error := None |}
  else if bool_decide (text = allow_ls ++ [NL]) then
    Ok {| run_calls := [amendment_call [lit "ls"] None]; run_error := None |}
  else Err (lit "syntax error").

Abbreviation sample_policy_parse :=
  (parse None Some (λ _, []) false (λ s, Some [s]) (λ _, None) (λ _, []) (λ _, []) sample_starlark).

Lemma amended_file_witness : ∃ b',
  sample_policy_parse builder_new [] (append_line [] allow_ls) = (b', Ok ()) ∧
  Ok (build b') = add_prefix_rule (build builder_new) [lit "ls"] Allow.
Proof.
  destruct (amended_file_agrees None Some (λ _, []) false (λ s, Some [s]) (λ _, None) (λ _, []) (λ _, [])
    sample_starlark builder_new [] [] allow_ls builder_new {| run_calls := []; run_error := None |}
    [lit "ls"] None {| rules_by_program := insert_rule ∅ (lit "ls")
      {| pattern := {| first := lit "ls"; rest := [] |}; rule_decision := Allow; rule_justification := None |};
      network_rules := []; host_executables_by_name := ∅ |}) as (b' & Hp & Hb);
    [reflexivity|reflexivity|vm_compute; reflexivity|reflexivity|].
  exists b'. split; [exact Hp|]. rewrite Hb. reflexivity.
Defined.

(** The user forbids [rm], a project allows it. *)
Definition rules_dir (layer_dir : string) : Path := at_path (String.append layer_dir "/rules").
Definition sample_read_dir (dir : Path) : dir_read :=
  if bool_decide (dir = rules_dir "/home/u/.codex" ∨ dir = rules_dir "/w/repo/.codex")
  then DirEntries [DirEntry (lit "default.rules") (Ok true); DirEntry (lit "notes.txt") (Ok true)]
  else DirNotFound.

Definition sample_rules : list (string * string) :=
  [("/home/u/.codex/rules/default.rules", FORBID_RM); ("/w/repo/.codex/rules/default.rules", ALLOW_RM)]%string.

Definition sample_config_stack : @ConfigLayerStack ConfigRequirements () := {|
  layers := [layer_new sample_version (User home_file) (TTable []);
             layer_new sample_version (Project (at_path "/w/repo/.codex")) (TTable [])];
  user_layer_index := Some 0; requirements := requirements_default; requirements_toml := () |}.

Abbreviation sample_load_policy stack :=
  (load_exec_policy (H := machine [] []) sample_read_dir (sample_text_of sample_rules) show_path []
    sample_policy_parse stack).

(** A managed policy that forbids [rm]. *)
Definition forbid_rm_rule : PrefixRule := {| pattern := {| first := lit "rm"; rest := [] |};
  rule_decision := Forbidden; rule_justification := None |}.
Definition forbid_rm_policy : Policy := {|
  rules_by_program := {[ lit "rm" := [forbid_rm_rule] ]}; network_rules := [];
  host_executables_by_name := ∅ |}.

Lemma forbid_rm_match :
  exact_match forbid_rm_policy [lit "rm"; lit "x"] (PrefixRuleMatch [lit "rm"] Forbidden None None).
Proof.
  exists (lit "rm"). split; [done|]. exists [forbid_rm_rule], forbid_rm_rule, [lit "rm"].
  split_and!; [done|left| |done]. exists [], [lit "x"]. by split_and!; [|done|constructor].
Qed.

Definition required_stack : @ConfigLayerStack ConfigRequirements () := {|
  layers := [layer_new sample_version (User home_file) (TTable []);
             layer_new sample_version (Project (at_path "/w/repo/.codex")) (TTable [])];
  user_layer_index := Some 0;
  requirements := {|
    req_approval_policy := req_approval_policy requirements_default;
    req_sandbox_policy := req_sandbox_policy requirements_default;
    req_web_search_mode := req_web_search_mode requirements_default;
    req_features := None; req_mcp_servers := None;
    req_exec_policy := Some (sourced forbid_rm_policy SourceUnknown);
    req_enforce_residency := req_enforce_residency requirements_default;
    req_network := None |};
  requirements_toml := () |}.

Lemma load_exec_policy_witness : ∃ policy e,
  sample_load_policy required_stack = Ok policy ∧
  exact_match policy [lit "rm"; lit "x"] (PrefixRuleMatch [lit "rm"] Allow None None) ∧
  check_with_options None Some false policy [lit "rm"; lit "x"] (λ _, Allow) false = Ok e ∧
  decision_rank Forbidden ≤ decision_rank (decision e).
Proof.
  assert (Hok : is_ok (sample_load_policy required_stack) = true) by (vm_compute; reflexivity).
  destruct (sample_load_policy required_stack) as [policy| | |] eqn:E; try done.
  exists policy.
  destruct (load_exec_policy_spec (H := machine [] []) sample_read_dir (sample_text_of sample_rules) show_path []
    None Some (λ _, []) false (λ s, Some [s]) (λ _, None) (λ _, []) (λ _, []) sample_starlark
    required_stack policy E) as [Hex Hs].
  destruct (Hs (sourced forbid_rm_policy SourceUnknown) [lit "rm"; lit "x"] (PrefixRuleMatch [lit "rm"] Forbidden None None)
    (λ _, Allow) false) as (e & He & Hd); [reflexivity|apply forbid_rm_match|].
  exists e. split_and!; [done| |done..]. apply Hex. left.
  exists (layer_new sample_version (Project (at_path "/w/repo/.codex")) (TTable [])),
    (at_path "/w/repo/.codex/rules/default.rules"),
    {| run_calls := [rm_call "allow" [["rm"; "x"]] [["ls"]]]; run_error := None |},
    (rm_call "allow" [["rm"; "x"]] [["ls"]])%string, {| pattern := {| first := lit "rm"; rest := [] |}; rule_decision := Allow;
      rule_justification := None |}, [lit "rm"].
  split_and!; [right; left|done| |by exists (lit ALLOW_RM)|left|left| |done].
  - exists (layer_new sample_version (Project (at_path "/w/repo/.codex")) (TTable [])), (at_path "/w/repo/.codex"),
      (rules_dir "/w/repo/.codex"), [DirEntry (lit "default.rules") (Ok true); DirEntry (lit "notes.txt") (Ok true)],
      (lit "default.rules").
    split_and!; [left|vm_compute; reflexivity|vm_compute; reflexivity|vm_compute; reflexivity|left
                |vm_compute; reflexivity|vm_compute; reflexivity].
  - exists [], [lit "x"]. by split_and!; [|done|constructor].
Defined.

Lemma policy_files_witness : ∃ stack folder dir name,
  sample_loaded = Ok stack ∧
  Paths.join (H := machine REPO_DIRS REPO_FILES) folder (path_of_str RULES_DIR_NAME) = Some dir ∧
  at_path "/home/u/.codex/rules/default.rules" = dir ++ [Normal name].
Proof.
  assert (Hok : is_ok sample_loaded = true) by (vm_compute; reflexivity).
  assert (Hu : match sample_loaded with
    | Ok stack => config_folder <$> get_layers stack LowestPrecedenceFirst false | _ => [] end
    = Some <$> [at_path "/etc/codex"; at_path "/home/u/.codex"; at_path "/w/repo/.codex"])
    by (vm_compute; reflexivity).
  destruct sample_loaded as [stack| | |] eqn:E; try done.
  assert (Hl : Some (at_path "/home/u/.codex") ∈ config_folder <$> get_layers stack LowestPrecedenceFirst false)
    by (rewrite Hu; right; left).
  apply list_elem_of_fmap in Hl as (layer & Hf & Hl).
  destruct (policy_files_provenance (H := machine REPO_DIRS REPO_FILES) (H0 := machine_laws _ _)
    show_path sample_version (sample_text_of REPO_FILES) sample_parse (λ _ _, None) sample_projects
    (λ _, Ok requirements_toml_default) (λ _, Err (lit "not a table")) sample_read_dir
    (at_path "/home/u/.codex") (at_path "/w/repo") [] None (Ok None) (Ok None) stack
    (at_path "/home/u/.codex/rules/default.rules")) as (folder & dir & name & Hj & Hp & _);
    [reflexivity|exact E| |by exists stack, folder, dir, name].
  exists layer, (at_path "/home/u/.codex"), (rules_dir "/home/u/.codex"),
    [DirEntry (lit "default.rules") (Ok true); DirEntry (lit "notes.txt") (Ok true)], (lit "default.rules").
  split_and!; [exact Hl|by rewrite <- Hf|vm_compute; reflexivity|vm_compute; reflexivity|left
              |vm_compute; reflexivity|vm_compute; reflexivity].
Defined.

(** What the folders of a project nobody trusts add to the policy. *)
Definition decision_on_rm (files : list (string * string)) : option Decision :=
  match sample_load ["/w/repo"; "/w/repo/.git"; "/w/repo/.codex"]%string files "/w/repo" with
  | Ok stack =>
      match load_exec_policy (H := machine [] []) (λ dir, if bool_decide (dir = rules_dir "/w/repo/.codex")
              then sample_read_dir dir else DirNotFound) (sample_text_of sample_rules) show_path []
              sample_policy_parse stack with
      | Ok policy =>
          match check_with_options None Some false policy [lit "rm"; lit "x"] (λ _, Prompt) false with
          | Ok e => Some (decision e)
          | _ => None
          end
      | _ => None
      end
  | _ => None
  end.

(** A project that is not trusted has its rules loaded when its folder has no
    [config.toml]; with one, they are not. *)
Example untrusted_rules_are_loaded :
  decision_on_rm [] = Some Allow ∧
  decision_on_rm [("/w/repo/.codex/config.toml", SETS_MODEL)%string] = Some Prompt.
Proof. vm_compute. split; reflexivity. Qed.

(** A layer of higher precedence does not override a rule: the user forbids
    [rm], the project allows it, and it is forbidden. *)
Example project_does_not_override :
  match sample_load_policy sample_config_stack with
  | Ok policy =>
      match check_with_options None Some false policy [lit "rm"; lit "x"] (λ _, Allow) false with
      | Ok e => Some (decision e)
      | _ => None
      end
  | _ => None
  end = Some Forbidden.
Proof. vm_compute. reflexivity. Qed.
