(* ===== verification/Invocation.v ===== *)
(** * Finding a patch in a command: [apply-patch/src/invocation.rs]

    A command is a patch when it is [apply_patch] with the patch as its
    argument, or a shell with a script that is nothing but [apply_patch] with
    the patch as a heredoc, after [cd] to a directory at most.  The hunks are
    then resolved against that directory and turned into the changes that are
    checked and shown to the user.  Syntax trees are those of [BashParse]; the
    query the code gives to tree-sitter is translated, its engine is not.  The
    crate [similar] is a parameter. *)
From stdpp Require Import base tactics option list numbers strings sets.
From S2P Require Import Prelude RustStr PatchParser Replacements ApplyPatch Paths Permissions Safety BashParse.
From stdpp Require Import list.

Definition APPLY_PATCH_COMMANDS : list str := [lit "apply_patch"; lit "applypatch"].
Definition is_apply_command (cmd : str) : bool := bool_decide (cmd ∈ APPLY_PATCH_COMMANDS).

Inductive ApplyPatchShell : Type := ShellUnix | ShellPowerShell | ShellCmd.

(** [FailedToLoadBashGrammar] needs a grammar that does not load. *)
Inductive ExtractHeredocError : Type :=
  | CommandDidNotStartWithApplyPatch
  | HeredocNotUtf8
  | FailedToParsePatchIntoAst
  | FailedToFindHeredocBody.

Inductive MaybeApplyPatch : Type :=
  | PatchBody (args : ApplyPatchArgs)
  | PatchShellParseError (e : ExtractHeredocError)
  | PatchPatchParseError (e : ParseError)
  | PatchNotApplyPatch.

Inductive MaybeApplyPatchVerified : Type :=
  | VerifiedBody (action : ApplyPatchAction)
  | VerifiedShellParseError (e : ExtractHeredocError)
  | VerifiedCorrectnessError (e : ApplyPatchError)
  | VerifiedNotApplyPatch.

(** ** Shells *)
Definition classify_shell_name (shell : str) : option str := to_ascii_lowercase <$> file_stem shell.

Definition classify_shell (shell flag : str) : option ApplyPatchShell :=
  name ← classify_shell_name shell;
  if bool_decide (name ∈ [lit "bash"; lit "zsh"; lit "sh"]) && bool_decide (flag ∈ [lit "-lc"; lit "-c"])
  then Some ShellUnix
  else if bool_decide (name ∈ [lit "pwsh"; lit "powershell"]) && eq_ignore_ascii_case flag (lit "-command")
  then Some ShellPowerShell
  else if bool_decide (name = lit "cmd") && eq_ignore_ascii_case flag (lit "/c")
  then Some ShellCmd
  else None.

Definition can_skip_flag (shell flag : str) : bool :=
  match classify_shell_name shell with
  | Some name =>
      bool_decide (name ∈ [lit "pwsh"; lit "powershell"]) && eq_ignore_ascii_case flag (lit "-noprofile")
  | None => false
  end.

Definition parse_shell_script (argv : list str) : option (ApplyPatchShell * str) :=
  match argv with
  | [shell; flag; script] => (λ shell_type, (shell_type, script)) <$> classify_shell shell flag
  | [shell; skip_flag; flag; script] =>
      if can_skip_flag shell skip_flag
      then (λ shell_type, (shell_type, script)) <$> classify_shell shell flag else None
  | _ => None
  end.

(** ** The query

    One match is the heredoc body it captures and, in the second form, the
    directory.  A dot of the query is adjacency among named siblings, or the
    first or last of them; without one, siblings may come between. *)
Inductive cd_capture : Type := CdPath (n : Node) | CdRawString (n : Node).

Definition text_is (src : str) (p : str → bool) (n : Node) : bool :=
  match utf8_text n src with Some t => p t | None => false end.

(** [name: (command_name (word) @name)] with a predicate on the text. *)
Definition names_command (src : str) (p : str → bool) (n : Node) : bool :=
  is_kind "command_name" n
  && existsb (λ w, is_kind "word" w && text_is src p w) (named_children n).

(** [(command name: (command_name (word) @apply_name) .)]. *)
Definition bare_apply (src : str) (n : Node) : bool :=
  is_kind "command" n
  && match last (named_children n) with
     | Some name => names_command src is_apply_command name
     | None => false
     end.

(** [(command name: (command_name (word) @apply_name))]. *)
Definition applies_patch (src : str) (n : Node) : bool :=
  is_kind "command" n && existsb (names_command src is_apply_command) (named_children n).

(** [argument: [...]], last after the name. *)
Definition cd_captures (arg : Node) : list cd_capture :=
  if is_kind "word" arg then [CdPath arg]
  else if is_kind "string" arg then CdPath <$> List.filter (is_kind "string_content") (named_children arg)
  else if is_kind "raw_string" arg then [CdRawString arg]
  else [].

Definition cd_command (src : str) (n : Node) : list cd_capture :=
  if is_kind "command" n then
    match reverse (named_children n) with
    | arg :: name :: _ =>
        if names_command src (λ t, bool_decide (t = lit "cd")) name then cd_captures arg else []
    | _ => []
    end
  else [].

(** The anonymous ["&&"] right before the last command. *)
Fixpoint and_last (l : list Node) : bool :=
  match l with
  | [op; _] => is_kind "&&" op && negb (is_named op)
  | _ :: l => and_last l
  | [] => false
  end.

(** [(list . (command ...) "&&" . (command ...) .)]. *)
Definition cd_and_apply (src : str) (n : Node) : list cd_capture :=
  if is_kind "list" n && and_last (children n) then
    match named_children n, last (named_children n) with
    | cd :: _ :: _, Some apply => if applies_patch src apply then cd_command src cd else []
    | _, _ => []
    end
  else [].

(** [(heredoc_redirect . (heredoc_start) . (heredoc_body) @heredoc . (heredoc_end) .)]. *)
Definition heredoc_of (n : Node) : list Node :=
  if is_kind "heredoc_redirect" n then
    match named_children n with
    | [start; body; finish] =>
        if is_kind "heredoc_start" start && is_kind "heredoc_body" body && is_kind "heredoc_end" finish
        then [body] else []
    | _ => []
    end
  else [].

(** A body of the statement and a redirect after it. *)
Fixpoint statement_matches {A} (body : Node → list A) (siblings : list Node) : list (Node * A) :=
  match siblings with
  | [] => []
  | n :: rest =>
      (a ← body n; heredoc ← (rest ≫= heredoc_of); [(heredoc, a)]) ++ statement_matches body rest
  end.

Definition query_matches (src : str) (root : Node) : list (Node * option cd_capture) :=
  if is_kind "program" root then
    match named_children root with
    | [statement] =>
        if is_kind "redirected_statement" statement then
          statement_matches (λ n, if bare_apply src n then [None] else []) (named_children statement)
          ++ statement_matches (λ n, Some <$> cd_and_apply src n) (named_children statement)
        else []
    | _ => []
    end
  else [].

(** ** Extraction *)
Fixpoint trim_end_newlines (s : str) : str :=
  match s with
  | [] => []
  | c :: s =>
      match trim_end_newlines s with
      | [] => if (c =? NL)%N then [] else [c]
      | t => c :: t
      end
  end.

Definition capture_text (src : str) (n : Node) : outcome ExtractHeredocError str :=
  match utf8_text n src with Some t => Ok t | None => Err HeredocNotUtf8 end.

Definition cd_path_of (src : str) (c : cd_capture) : outcome ExtractHeredocError str :=
  match c with
  | CdPath n => capture_text src n
  | CdRawString n =>
      raw ← capture_text src n;
      Ok (default raw (RustStr.strip_prefix [39%N] raw ≫= RustStr.strip_suffix [39%N]))
  end.

Section Invocation.
(** The bash grammar of tree-sitter. *)
Context (parse_bash : str → option Node).

Definition extract_apply_patch_from_bash (src : str) :
    outcome ExtractHeredocError (str * option str) :=
  match parse_bash src with
  | None => Err FailedToParsePatchIntoAst
  | Some root =>
      match query_matches src root with
      | (heredoc, cd) :: _ =>
          cd_path ← match cd with Some c => Some <$> cd_path_of src c | None => Ok None end;
          text ← capture_text src heredoc;
          Ok (trim_end_newlines text, cd_path)
      | [] => Err CommandDidNotStartWithApplyPatch
      end
  end.

Definition extract_apply_patch_from_shell (shell : ApplyPatchShell) (script : str) :
    outcome ExtractHeredocError (str * option str) :=
  match shell with
  | ShellUnix | ShellPowerShell | ShellCmd => extract_apply_patch_from_bash script
  end.

Definition maybe_parse_body (body : str) (workdir : option str) : outcome Empty_set MaybeApplyPatch :=
  match parse_patch body with
  | Ok source => Ok (PatchBody {| PatchParser.patch := PatchParser.patch source; hunks := hunks source; workdir := workdir |})
  | Err e => Ok (PatchPatchParseError e)
  | Panic => Panic
  | NoFuel => NoFuel
  end.

Definition maybe_parse_shell (argv : list str) : outcome Empty_set MaybeApplyPatch :=
  match parse_shell_script argv with
  | Some (shell, script) =>
      match extract_apply_patch_from_shell shell script with
      | Ok (body, workdir) => maybe_parse_body body workdir
      | Err CommandDidNotStartWithApplyPatch => Ok PatchNotApplyPatch
      | Err e => Ok (PatchShellParseError e)
      | Panic => Panic
      | NoFuel => NoFuel
      end
  | None => Ok PatchNotApplyPatch
  end.

(** [parse_patch] leaves no directory. *)
Definition maybe_parse_apply_patch (argv : list str) : outcome Empty_set MaybeApplyPatch :=
  match argv with
  | [cmd; body] => if is_apply_command cmd then maybe_parse_body body None else maybe_parse_shell argv
  | _ => maybe_parse_shell argv
  end.

(** ** Verification *)
(** Reading a file, the text of a path, and the unified diff of two texts. *)
Context (read_to_string : Path → str + str) (display : Path → str) (unified_diff : str → str → str).

Definition unified_diff_from_chunks (path : Path) (chunks : list UpdateFileChunk) :
    outcome ApplyPatchError (str * str) :=
  match read_to_string path with
  | inl e =>
      Err (ApplyIoError {| context := lit "Failed to read file to update " ++ display path; source := e |})
  | inr original_contents =>
      applied ← derive_new_contents original_contents (display path) chunks;
      Ok (unified_diff (Replacements.original_contents applied) (new_contents applied), new_contents applied)
  end.

(** [HashMap::insert]; the order of the pairs means nothing. *)
Fixpoint change_insert (path : Path) (change : ApplyPatchFileChange)
    (changes : list (Path * ApplyPatchFileChange)) : list (Path * ApplyPatchFileChange) :=
  match changes with
  | [] => [(path, change)]
  | (p, c) :: changes =>
      if decide (p = path) then (path, change) :: changes
      else (p, c) :: change_insert path change changes
  end.

Definition hunk_path (h : Hunk) : str :=
  match h with AddFile path _ | DeleteFile path | UpdateFile path _ _ => path end.

Definition hunk_resolve_path (h : Hunk) (cwd : Path) : Path := path_join cwd (path_of_str (hunk_path h)).

Definition change_of_hunk (effective_cwd : Path) (h : Hunk) : outcome ApplyPatchError ApplyPatchFileChange :=
  let path := hunk_resolve_path h effective_cwd in
  match h with
  | AddFile _ contents => Ok (Safety.Add contents)
  | DeleteFile _ =>
      match read_to_string path with
      | inr content => Ok (Safety.Delete content)
      | inl e => Err (ApplyIoError {| context := lit "Failed to read " ++ display path; source := e |})
      end
  | UpdateFile _ move_path chunks =>
      '(diff, contents) ← unified_diff_from_chunks path chunks;
      Ok (Safety.Update diff ((λ p, path_join effective_cwd (path_of_str p)) <$> move_path) contents)
  end.

Fixpoint changes_of_hunks (effective_cwd : Path) (hunks : list Hunk)
    (changes : list (Path * ApplyPatchFileChange)) :
    outcome ApplyPatchError (list (Path * ApplyPatchFileChange)) :=
  match hunks with
  | [] => Ok changes
  | h :: hunks =>
      change ← change_of_hunk effective_cwd h;
      changes_of_hunks effective_cwd hunks
        (change_insert (hunk_resolve_path h effective_cwd) change changes)
  end.

Definition effective_cwd (workdir : option str) (cwd : Path) : Path :=
  match workdir with
  | Some dir => let path := path_of_str dir in if is_absolute path then path else path_join cwd path
  | None => cwd
  end.

Definition is_patch (text : str) : bool := match parse_patch text with Ok _ => true | _ => false end.

Definition maybe_parse_apply_patch_verified (argv : list str) (cwd : Path) :
    outcome Empty_set MaybeApplyPatchVerified :=
  if match argv with [body] => is_patch body | _ => false end
     || match parse_shell_script argv with Some (_, script) => is_patch script | None => false end
  then Ok (VerifiedCorrectnessError ImplicitInvocation)
  else
    result ← maybe_parse_apply_patch argv;
    match result with
    | PatchBody args =>
        let effective_cwd := effective_cwd (workdir args) cwd in
        match changes_of_hunks effective_cwd (hunks args) [] with
        | Ok changes =>
            Ok (VerifiedBody {| changes := changes; Safety.patch := PatchParser.patch args;
                                Safety.cwd := effective_cwd |})
        | Err e => Ok (VerifiedCorrectnessError e)
        | Panic => Panic
        | NoFuel => NoFuel
        end
    | PatchShellParseError e => Ok (VerifiedShellParseError e)
    | PatchPatchParseError e => Ok (VerifiedCorrectnessError (ApplyParseError e))
    | PatchNotApplyPatch => Ok VerifiedNotApplyPatch
    end.
End Invocation.

(** ** The changes of the hunks *)
Section Changes.
Context (read_to_string : Path → str + str) (display : Path → str) (unified_diff : str → str → str).
#[local] Abbreviation change_of_hunk := (change_of_hunk read_to_string display unified_diff).
#[local] Abbreviation changes_of_hunks := (changes_of_hunks read_to_string display unified_diff).

Lemma change_insert_new p c l : (p, c) ∈ change_insert p c l.
Proof.
  induction l as [|[q d] l IH]; cbn [change_insert]; [left|]. case_decide; [left|by right].
Qed.

Lemma change_insert_old p c l q d : q ≠ p → (q, d) ∈ l → (q, d) ∈ change_insert p c l.
Proof.
  intros Hq. induction l as [|[q' d'] l IH]; cbn [change_insert]; [by intros ?%not_elem_of_nil|].
  case_decide as Hp; rewrite !elem_of_cons; [|naive_solver].
  intros [[= <- <-]|?]; [by destruct Hq|by right].
Qed.

Lemma elem_of_change_insert p c l q d : (q, d) ∈ change_insert p c l → (q = p ∧ d = c) ∨ (q, d) ∈ l.
Proof.
  induction l as [|[q' d'] l IH]; cbn [change_insert]; [set_solver|].
  case_decide; rewrite !elem_of_cons; naive_solver.
Qed.

Lemma change_insert_key p c l q d : (q, d) ∈ l → ∃ d', (q, d') ∈ change_insert p c l.
Proof.
  intros Hin. destruct (decide (q = p)) as [->|Hq].
  - exists c. apply change_insert_new.
  - exists d. by apply change_insert_old.
Qed.

(** A change stays until a later hunk has its path; a path stays for good. *)
Lemma changes_keep e hs acc cs :
  changes_of_hunks e hs acc = Ok cs →
  (∀ p c, (p, c) ∈ acc → ∃ c', (p, c') ∈ cs) ∧
  (∀ p c, (p, c) ∈ acc → (∀ h, h ∈ hs → hunk_resolve_path h e ≠ p) → (p, c) ∈ cs).
Proof.
  revert acc. induction hs as [|h hs IH]; intros acc; cbn [Invocation.changes_of_hunks].
  { intros [= <-]. split; [eauto|done]. }
  intros (change & Hch & [Hk Hc]%IH)%bind_Ok_inv. split.
  - intros p c Hin. destruct (change_insert_key (hunk_resolve_path h e) change acc p c Hin) as [c' Hc']. eauto.
  - intros p c Hin Hne. apply Hc; [|set_solver]. apply change_insert_old; [|done].
    intros ->. by apply (Hne h); [left|].
Qed.

(** Every hunk has a change at its path, its own unless a later hunk has the
    same path. *)
Lemma changes_spec e hs acc cs :
  changes_of_hunks e hs acc = Ok cs →
  (∀ h, h ∈ hs → ∃ c, (hunk_resolve_path h e, c) ∈ cs) ∧
  ∀ before h after, hs = before ++ h :: after →
    (∀ h', h' ∈ after → hunk_resolve_path h' e ≠ hunk_resolve_path h e) →
    ∃ c, change_of_hunk e h = Ok c ∧ (hunk_resolve_path h e, c) ∈ cs.
Proof.
  revert acc. induction hs as [|h hs IH]; intros acc; cbn [Invocation.changes_of_hunks].
  { intros [= <-]. split; [by intros ? ?%not_elem_of_nil|by intros []]. }
  intros (change & Hch & Hcs)%bind_Ok_inv. destruct (changes_keep _ _ _ _ Hcs) as [Hk Hc].
  apply IH in Hcs as [Hp Hl]. split.
  - intros h' [->|Hin]%elem_of_cons; [|by apply Hp]. eapply Hk, change_insert_new.
  - intros [|b before] h' after; cbn; intros [= -> ->] Hne.
    + exists change. split; [done|]. apply Hc; [apply change_insert_new|]. naive_solver.
    + by eapply Hl.
Qed.

(** Every change is that of a hunk. *)
Lemma changes_from e hs acc cs p c :
  changes_of_hunks e hs acc = Ok cs → (p, c) ∈ cs →
  (p, c) ∈ acc ∨ ∃ h, h ∈ hs ∧ p = hunk_resolve_path h e ∧ change_of_hunk e h = Ok c.
Proof.
  revert acc. induction hs as [|h hs IH]; intros acc; cbn [Invocation.changes_of_hunks].
  { intros [= <-]. by left. }
  intros (change & Hch & Hcs)%bind_Ok_inv Hc.
  destruct (IH _ Hcs Hc) as [Hin|(h' & Hh' & Hp)]; [|right; exists h'; by split; [right|]].
  apply elem_of_change_insert in Hin as [[-> ->]|Hin]; [right|by left].
  exists h. split; [left|done].
Qed.
End Changes.

(** ** Approval of a patch found in a command *)
(** Where a hunk moves its file. *)
Definition hunk_move (h : Hunk) : option str :=
  match h with UpdateFile _ move_path _ => move_path | _ => None end.

Section Approval.
Context `{PathLaws}.
Context (parse_bash : str → option Node).
Context (read_to_string : Path → str + str) (display : Path → str) (unified_diff : str → str → str).
#[local] Abbreviation verified := (maybe_parse_apply_patch_verified parse_bash read_to_string display unified_diff).

Lemma verified_body argv cwd action :
  verified argv cwd = Ok (VerifiedBody action) →
  ∃ args, maybe_parse_apply_patch parse_bash argv = Ok (PatchBody args) ∧
    Safety.patch action = PatchParser.patch args ∧ Safety.cwd action = effective_cwd (workdir args) cwd ∧
    changes_of_hunks read_to_string display unified_diff (Safety.cwd action) (hunks args) [] = Ok (changes action).
Proof.
  unfold maybe_parse_apply_patch_verified. destruct (_ || _); [done|].
  intros (r & Hr & Hv)%bind_Ok_inv. destruct r as [args|e|e|]; try done. exists args.
  destruct (changes_of_hunks _ _ _ _ (hunks args) []) as [cs| | |] eqn:E; try done.
  injection Hv as <-. by split_and!.
Qed.

(** C18: what the check of a patch approves is what its hunks do.  When a patch
    found in a command is approved unasked under an approval policy other than
    [OnFailure], every file its hunks name is writable under the file system
    policy for a normal absolute directory, and so is the destination of every
    move, unless a later hunk names the same file again.  Under [OnFailure] it
    is not so: [PatchTool.on_failure_patch_unconfined]. *)
Theorem approved_patch_is_writable argv cwd action os policy sandbox pol dir level st explicit :
  normal_abs dir = true → policy ≠ OnFailure →
  verified argv cwd = Ok (VerifiedBody action) →
  assess_patch_safety os action policy sandbox pol dir level = Ok (AutoApprove st explicit) →
  ∃ args, maybe_parse_apply_patch parse_bash argv = Ok (PatchBody args) ∧
    Safety.patch action = PatchParser.patch args ∧
    (∀ h, h ∈ hunks args →
      can_write_path_with_cwd pol (patch_target dir (hunk_resolve_path h (Safety.cwd action))) dir = Ok true) ∧
    (∀ before h after dest, hunks args = before ++ h :: after → hunk_move h = Some dest →
      (∀ h', h' ∈ after →
        hunk_resolve_path h' (Safety.cwd action) ≠ hunk_resolve_path h (Safety.cwd action)) →
      can_write_path_with_cwd pol
        (patch_target dir (path_join (Safety.cwd action) (path_of_str dest))) dir = Ok true).
Proof.
  intros Hdir Hpol (args & Hargs & Hp & _ & Hcs)%verified_body Hassess. exists args. split_and!; [done..| |].
  all: destruct (patch_check_meaning os action policy sandbox pol dir level Hdir) as (check & Hc & Ha & _).
  all: rewrite Hassess in Hc; injection Hc as <-; destruct (Ha _ _ eq_refl) as (_ & _ & _ & Hw & _).
  all: specialize (Hw Hpol); destruct (changes_spec _ _ _ _ _ _ _ Hcs) as [Hkeys Hown].
  - intros h [c Hin]%Hkeys. apply (Hw _ _ Hin). unfold touched. left.
  - intros before h after dest Hh Hd Hne. destruct (Hown before h after Hh Hne) as (c & Hch & Hin).
    apply (Hw _ _ Hin). destruct h as [p t|p|p m chunks]; try done. cbn in Hd. subst m.
    apply bind_Ok_inv in Hch as ([diff new] & _ & [= <-]). unfold touched. right. left.
Qed.
End Approval.

(** ** What is announced is what happens *)
Section Announced.
Context {FS : Type} `{FileSystemLaws FS}.
Context (read_to_string : Path → str + str) (display : Path → str) (unified_diff : str → str → str).
#[local] Abbreviation change_of_hunk := (change_of_hunk read_to_string display unified_diff).
#[local] Abbreviation changes_of_hunks := (changes_of_hunks read_to_string display unified_diff).

(** A change of the hunk [h], as the files before and after have it. *)
Definition announced (e : Path) (before after : view) (h : Hunk) (c : ApplyPatchFileChange) : Prop :=
  match c with
  | Safety.Add content => after (hunk_path h) = Some content
  | Safety.Delete content => before (hunk_path h) = Some content ∧ after (hunk_path h) = None
  | Safety.Update _ None new_content => after (hunk_path h) = Some new_content
  | Safety.Update _ (Some to) new_content =>
      after (hunk_path h) = None ∧
      ∃ dest, hunk_move h = Some dest ∧ to = path_join e (path_of_str dest) ∧ after dest = Some new_content
  end.

(** The hunks name different files, and none moves its file onto itself. *)
Definition separate (hs : list Hunk) : Prop :=
  (∀ before h after, hs = before ++ h :: after →
     ∀ h' q, h' ∈ before ++ after → touches h q → ¬ touches h' q) ∧
  ∀ h dest, h ∈ hs → hunk_move h = Some dest → ¬ same_file (hunk_path h) dest.

(** The reading and the paths of the check are those of the run. *)
Definition same_place (e : Path) (fs : FS) (hs : list Hunk) : Prop :=
  (∀ h, h ∈ hs → read_to_string (hunk_resolve_path h e) = fs_read_to_string fs (hunk_path h)) ∧
  ∀ h h', h ∈ hs → h' ∈ hs →
    hunk_resolve_path h e = hunk_resolve_path h' e → same_file (hunk_path h) (hunk_path h').

Lemma touches_path h : touches h (hunk_path h).
Proof. destruct h as [p ?|p|p [d|] ?]; cbn; [reflexivity..|by left|reflexivity]. Qed.

Lemma touches_move h dest : hunk_move h = Some dest → touches h dest.
Proof. destruct h as [p ?|p|p m ?]; cbn; [done..|]. intros ->. by right. Qed.

Lemma touches_same h p q : same_file p q → touches h p → touches h q.
Proof.
  intros Hs. assert (∀ p', same_file p' p → same_file p' q) as Ht by (intros; by etrans).
  destruct h as [p' ?|p'|p' [d|] ?]; cbn; naive_solver.
Qed.

Lemma step_frame v h v' q : hunk_step v h v' → ¬ touches h q → v' q = v q.
Proof.
  destruct 1 as [v' p c Hv|v' p Hv|v' p ch c r ? ? Hv|v' p d ch c r ? ? Hv]; cbn; intros Hq; rewrite Hv;
    unfold unset_file, set_file; repeat case_decide; naive_solver.
Qed.

Lemma run_frame v hs v' q : hunks_run v hs v' → (∀ h, h ∈ hs → ¬ touches h q) → v' q = v q.
Proof.
  induction 1 as [v|v v1 v2 h hs Hh Hr IH]; intros Hq; [done|].
  rewrite IH by set_solver. eapply step_frame; [done|]. set_solver.
Qed.

Lemma run_split before v h after v' :
  hunks_run v (before ++ h :: after) v' →
  ∃ v1 v2, hunks_run v before v1 ∧ hunk_step v1 h v2 ∧ hunks_run v2 after v'.
Proof.
  revert v; induction before as [|b before IH]; intros v; cbn; inversion 1; subst.
  - exists v, v'0. split_and!; [constructor|done..].
  - edestruct IH as (v1 & v2 & ? & ? & ?); [done|]. exists v1, v2. split_and!; [by econstructor|done..].
Qed.

(** A step does what the change of its hunk says, when the file has not been
    touched since the change was computed. *)
Lemma step_announced e fs v h v' c :
  hunk_step v h v' → v (hunk_path h) = file_at fs (hunk_path h) →
  read_to_string (hunk_resolve_path h e) = fs_read_to_string fs (hunk_path h) →
  (∀ dest, hunk_move h = Some dest → ¬ same_file (hunk_path h) dest) →
  change_of_hunk e h = Ok c → announced e (file_at fs) v' h c.
Proof.
  intros Hstep Hv Hread Hmove. unfold Invocation.change_of_hunk, unified_diff_from_chunks. rewrite Hread.
  assert (∀ t, fs_read_to_string fs (hunk_path h) = inr t → file_at fs (hunk_path h) = Some t) as Hat.
  { unfold file_at. by intros t ->. }
  assert (∀ p, same_file p p) as Hrefl by reflexivity.
  destruct Hstep as [v' p t Hv'|v' p Hv'|v' p ch t r Hp Hr Hv'|v' p d ch t r Hp Hr Hv'];
    cbn [hunk_path hunk_move] in *.
  - intros [= <-]. cbn. rewrite Hv'. unfold set_file. by case_decide.
  - destruct (fs_read_to_string fs p) as [?|t] eqn:E; [done|]. intros [= <-]. cbn.
    split; [by apply Hat|]. rewrite Hv'. unfold unset_file. by case_decide.
  - destruct (fs_read_to_string fs p) as [?|t'] eqn:E; [done|].
    intros ([diff new] & (r' & Hr' & [= <- <-])%bind_Ok_inv & [= <-])%bind_Ok_inv. cbn.
    rewrite Hp, (Hat _ eq_refl) in Hv. injection Hv as ->.
    apply (derive_new_contents_path _ _ p) in Hr'. rewrite Hr in Hr'. injection Hr' as ->.
    rewrite Hv'. unfold set_file. by case_decide.
  - destruct (fs_read_to_string fs p) as [?|t'] eqn:E; [done|].
    intros ([diff new] & (r' & Hr' & [= <- <-])%bind_Ok_inv & [= <-])%bind_Ok_inv. cbn.
    rewrite Hp, (Hat _ eq_refl) in Hv. injection Hv as ->.
    apply (derive_new_contents_path _ _ p) in Hr'. rewrite Hr in Hr'. injection Hr' as ->.
    specialize (Hmove d eq_refl). split; [|exists d; split_and!; [done..|]];
      rewrite Hv'; unfold unset_file, set_file; repeat case_decide; naive_solver.
Qed.

(** The change of every hunk is carried out, other hunks of the run or not. *)
Lemma run_announced e fs fs' hs h c :
  separate hs → same_place e fs hs → hunks_run (file_at fs) hs (file_at fs') →
  h ∈ hs → change_of_hunk e h = Ok c → announced e (file_at fs) (file_at fs') h c.
Proof.
  intros [Hsep Hmove] [Hread _] Hrun Hin Hc.
  destruct (list_elem_of_split _ _ Hin) as (before & after & ->).
  destruct (run_split _ _ _ _ _ Hrun) as (v1 & v2 & Hr1 & Hs & Hr2).
  specialize (Hsep before h after eq_refl).
  assert (announced e (file_at fs) v2 h c) as Hann.
  { eapply step_announced; [done| |by apply Hread|naive_solver|done].
    apply (run_frame _ _ _ _ Hr1). intros h' Hh' Ht.
    apply (Hsep h' (hunk_path h)); [set_solver|apply touches_path|done]. }
  assert (∀ q, touches h q → file_at fs' q = v2 q) as Hkeep.
  { intros q Ht. apply (run_frame _ _ _ _ Hr2). intros h' Hh'. apply Hsep; [set_solver|done]. }
  destruct c as [?|?|? [to|] ?]; cbn in *; rewrite (Hkeep _ (touches_path h)); try done.
  destruct Hann as (? & dest & Hd & -> & Ha). split; [done|]. exists dest.
  rewrite Hkeep by by apply touches_move. done.
Qed.

End Announced.

(** ** Applications of the theorems *)
Definition unlines_str (l : list string) : str := RustStr.join [NL] (lit <$> l).

Definition sample_patch : str := unlines_str
  ["*** Begin Patch"; "*** Add File: new.txt"; "+hello"; "*** Update File: old.txt";
   "*** Move to: moved.txt"; "@@"; " a"; "-b"; "+B"; "*** End Patch"].

Definition workspace : mem_fs := {[ [lit "old.txt"] := File (unlines [lit "a"; lit "b"]) ]}.

(** Files of the workspace, read by their paths. *)
Definition read_workspace (p : Path) : str + str :=
  if decide (p = sample_cwd ++ [Normal (lit "old.txt")]) then mem_read workspace (lit "old.txt")
  else inl (lit "No such file or directory (os error 2)").

Definition no_display (p : Path) : str := [].
Definition no_diff (before after : str) : str := [].

#[local] Abbreviation verified :=
  (maybe_parse_apply_patch_verified (λ _, None) read_workspace no_display no_diff).

Definition sample_hunks : list Hunk :=
  [AddFile (lit "new.txt") (lit "hello" ++ [NL]);
   UpdateFile (lit "old.txt") (Some (lit "moved.txt"))
     [{| change_context := None; old_lines := [lit "a"; lit "b"]; new_lines := [lit "a"; lit "B"];
         is_end_of_file := false |}]].

Definition sample_changes : list (Path * ApplyPatchFileChange) :=
  [(sample_cwd ++ [Normal (lit "new.txt")], Safety.Add (lit "hello" ++ [NL]));
   (sample_cwd ++ [Normal (lit "old.txt")],
    Safety.Update [] (Some (sample_cwd ++ [Normal (lit "moved.txt")])) (unlines [lit "a"; lit "B"]))].

Lemma approved_patch_witness :
  can_write_path_with_cwd Permissions.sample_policy (sample_cwd ++ [Normal (lit "new.txt")]) sample_cwd = Ok true ∧
  can_write_path_with_cwd Permissions.sample_policy (sample_cwd ++ [Normal (lit "moved.txt")]) sample_cwd = Ok true.
Proof.
  destruct (approved_patch_is_writable (λ _, None) read_workspace no_display no_diff
    [lit "apply_patch"; sample_patch] sample_cwd
    {| changes := sample_changes; Safety.patch := sample_patch; Safety.cwd := sample_cwd |}
    linux OnRequest new_workspace_write_policy Permissions.sample_policy sample_cwd Disabled
    LinuxSeccomp false eq_refl) as (args & Hargs & _ & Hpaths & Hmoves).
  - discriminate.
  - vm_compute. reflexivity.
  - vm_compute. reflexivity.
  - assert (hunks args = sample_hunks) as Hh by (vm_compute in Hargs; by injection Hargs as <-).
    rewrite Hh in Hpaths, Hmoves. split.
    + apply (Hpaths _ (list_elem_of_here _ _)).
    + apply (Hmoves [AddFile (lit "new.txt") (lit "hello" ++ [NL])] _ [] _ eq_refl eq_refl).
      by intros ? ?%not_elem_of_nil.
Defined.

Lemma sample_separate : separate (FS:=mem_fs) sample_hunks.
Proof.
  assert (resolve (lit "new.txt") ≠ resolve (lit "old.txt")) by (vm_compute; discriminate).
  assert (resolve (lit "new.txt") ≠ resolve (lit "moved.txt")) by (vm_compute; discriminate).
  assert (resolve (lit "old.txt") ≠ resolve (lit "moved.txt")) by (vm_compute; discriminate).
  split.
  - assert (∀ q, resolve (lit "new.txt") = resolve q →
      ¬ (resolve (lit "old.txt") = resolve q ∨ resolve (lit "moved.txt") = resolve q)) as Hq
      by intuition congruence.
    intros before h after Heq h' q Hin.
    destruct before as [|b [|b' [|]]]; injection Heq as; subst; [| |done..].
    + apply list_elem_of_singleton in Hin as ->. apply Hq.
    + apply list_elem_of_singleton in Hin as ->. intros Ho Hn. by apply (Hq q).
  - intros h dest. unfold sample_hunks. rewrite !elem_of_cons, elem_of_nil. intros [->|[->|[]]]; cbn; [done|]. by intros [= <-].
Qed.


(** ** Where the check misses something *)
(** A later hunk with the same path replaces the change of an earlier one, so
    a move out of the workspace is neither seen by the check nor shown: the
    patch is approved unasked, and its run writes the file outside. *)
Definition hiding_patch : str := unlines_str
  ["*** Begin Patch"; "*** Update File: old.txt"; "*** Move to: /etc/moved.txt"; "@@"; " a"; "-b"; "+B";
   "*** Add File: old.txt"; "+hello"; "*** End Patch"].

Definition hiding_hunks : list Hunk :=
  [UpdateFile (lit "old.txt") (Some (lit "/etc/moved.txt"))
     [{| change_context := None; old_lines := [lit "a"; lit "b"]; new_lines := [lit "a"; lit "B"];
         is_end_of_file := false |}];
   AddFile (lit "old.txt") (lit "hello" ++ [NL])].

Example later_hunk_hides_move :
  let action := {| changes := [(sample_cwd ++ [Normal (lit "old.txt")], Safety.Add (lit "hello" ++ [NL]))];
                   Safety.patch := hiding_patch; Safety.cwd := sample_cwd |} in
  verified [lit "apply_patch"; hiding_patch] sample_cwd = Ok (VerifiedBody action) ∧
  assess_patch_safety linux action OnRequest new_workspace_write_policy Permissions.sample_policy
    sample_cwd Disabled = Ok (AutoApprove LinuxSeccomp false) ∧
  can_write_path_with_cwd Permissions.sample_policy (path_of_str (lit "/etc/moved.txt")) sample_cwd = Ok false ∧
  parse_patch hiding_patch = Ok {| PatchParser.patch := hiding_patch; hunks := hiding_hunks; workdir := None |} ∧
  let '(result, fs') := apply_hunks_to_files hiding_hunks workspace in
  result = Ok {| added := [lit "old.txt"]; modified := [lit "/etc/moved.txt"]; deleted := [] |} ∧
  file_at fs' (lit "/etc/moved.txt") = Some (unlines [lit "a"; lit "B"]).
Proof. vm_compute. by split_and!. Qed.

(** A double-quoted directory with an expansion is a string of several
    fragments: every match of the query has one of them alone, so the patch
    is resolved against a directory the script does not name. *)
Definition QUOTE : str := [34%N].

Definition cd_script : str :=
  lit "cd " ++ QUOTE ++ lit "a$X/b" ++ QUOTE ++ unlines_str
    [" && apply_patch <<'P'"; "*** Begin Patch"; "*** Delete File: f"; "*** End Patch"; "P"; ""].

Definition cd_tree : Node :=
  let leaf kind s e := MkNode (lit kind) true s e false [] in
  let token text s e := MkNode text false s e false [] in
  let name s e := MkNode (lit "command_name") true s e false [leaf "word"%string s e] in
  MkNode (lit "program") true 0 83 false
    [MkNode (lit "redirected_statement") true 0 82 false
       [MkNode (lit "list") true 0 25 false
          [MkNode (lit "command") true 0 10 false
             [name 0 2;
              MkNode (lit "string") true 3 10 false
                [token QUOTE 3 4; leaf "string_content"%string 4 5;
                 MkNode (lit "simple_expansion") true 5 7 false
                   [token (lit "$") 5 6; leaf "variable_name"%string 6 7];
                 leaf "string_content"%string 7 9; token QUOTE 9 10]];
           token (lit "&&") 11 13;
           MkNode (lit "command") true 14 25 false [name 14 25]];
        MkNode (lit "heredoc_redirect") true 26 82 false
          [token (lit "<<") 26 28; leaf "heredoc_start"%string 28 31; leaf "heredoc_body"%string 32 81;
           leaf "heredoc_end"%string 81 82]]].

Example cd_takes_a_fragment :
  (cd_path_of cd_script <$> omap snd (query_matches cd_script cd_tree)) = [Ok (lit "a"); Ok (lit "/b")] ∧
  extract_apply_patch_from_bash (λ _, Some cd_tree) cd_script =
    Ok (unlines_str ["*** Begin Patch"; "*** Delete File: f"; "*** End Patch"], Some (lit "a")).
Proof. by vm_compute. Qed.
