(* ===== verification/ExecEnv.v ===== *)
(** * The environment of a command: [core/src/exec_env.rs], the policy of
      [core/src/config/types.rs] and [apply_unified_exec_env] of
      [core/src/unified_exec/process_manager.rs]

    Which variables of the parent process a command sees.  The crate
    [wildmatch] is the class [WildMatch], with what it documents as
    [WildMatchLaws] and a matcher as their instance. *)
From stdpp Require Import base tactics option list numbers strings gmap.
From S2P Require Import Prelude RustStr.
From stdpp Require Import list.

(** ** Patterns of names *)
Definition STAR : char := 42%N.
Definition QUESTION : char := 63%N.

(** [*] is any text, [?] any character, and the case of letters is ignored. *)
Inductive wild : str → str → Prop :=
  | wild_nil : wild [] []
  | wild_star p s rest : wild p rest → wild (STAR :: p) (s ++ rest)
  | wild_any p c s : wild p s → wild (QUESTION :: p) (c :: s)
  | wild_char p a c s : a ≠ STAR → a ≠ QUESTION → ascii_lower a = ascii_lower c →
      wild p s → wild (a :: p) (c :: s).

Definition ascii (s : str) : bool := forallb (λ c, c <? 128)%N s.

Class WildMatch : Type := {
  EnvironmentVariablePattern : Type;
  new_case_insensitive : str → EnvironmentVariablePattern;
  matches : EnvironmentVariablePattern → str → bool;
}.

(** Letters that are not ASCII may have a case of their own. *)
Class WildMatchLaws `{WildMatch} : Prop := {
  wild_matches p s : wild p s → matches (new_case_insensitive p) s = true;
  matches_wild p s : ascii p = true → ascii s = true →
    matches (new_case_insensitive p) s = true → wild p s;
}.

(** ** Policies *)
Inductive ShellEnvironmentPolicyInherit : Type := InheritCore | InheritAll | InheritNone.

Record ShellEnvironmentPolicyToml : Type := {
  toml_inherit : option ShellEnvironmentPolicyInherit;
  toml_ignore_default_excludes : option bool;
  toml_exclude : option (list str);
  toml_set : option (gmap str str);
  toml_include_only : option (list str);
  toml_experimental_use_profile : option bool;
}.

Section Policy.
Context `{WildMatch}.

Record ShellEnvironmentPolicy : Type := {
  inherit : ShellEnvironmentPolicyInherit;
  ignore_default_excludes : bool;
  exclude : list EnvironmentVariablePattern;
  set : gmap str str;
  include_only : list EnvironmentVariablePattern;
  use_profile : bool;
}.

Definition policy_of_toml (toml : ShellEnvironmentPolicyToml) : ShellEnvironmentPolicy := {|
  inherit := default InheritAll (toml_inherit toml);
  ignore_default_excludes := default true (toml_ignore_default_excludes toml);
  exclude := new_case_insensitive <$> default [] (toml_exclude toml);
  set := default ∅ (toml_set toml);
  include_only := new_case_insensitive <$> default [] (toml_include_only toml);
  use_profile := default false (toml_experimental_use_profile toml);
|}.

Definition policy_default : ShellEnvironmentPolicy := {|
  inherit := InheritAll;
  ignore_default_excludes := true;
  exclude := [];
  set := ∅;
  include_only := [];
  use_profile := false;
|}.

(** ** The environment *)
Definition CODEX_THREAD_ID_ENV_VAR : str := lit "CODEX_THREAD_ID".

Definition CORE_VARS : list str :=
  lit <$> ["HOME"; "LOGNAME"; "PATH"; "SHELL"; "USER"; "USERNAME"; "TMPDIR"; "TEMP"; "TMP"]%string.

Definition is_core_var (windows : bool) (name : str) : bool :=
  if windows then existsb (λ allowed, eq_ignore_ascii_case allowed name) CORE_VARS
  else bool_decide (name ∈ CORE_VARS).

(** [Iterator::collect] into a map, and [HashMap::retain] by the key. *)
Definition collect_vars (vars : list (str * str)) : gmap str str :=
  foldl (λ env kv, <[kv.1 := kv.2]> env) ∅ vars.

Definition retain (f : str → bool) (env : gmap str str) : gmap str str :=
  filter (λ kv, f kv.1 = true) env.

Definition matches_any (name : str) (patterns : list EnvironmentVariablePattern) : bool :=
  existsb (λ pattern, matches pattern name) patterns.

(** Steps 3 and 5, skipped for an empty list. *)
Definition exclude_matching (patterns : list EnvironmentVariablePattern) (env : gmap str str) : gmap str str :=
  match patterns with [] => env | _ => retain (λ k, negb (matches_any k patterns)) env end.

Definition keep_matching (patterns : list EnvironmentVariablePattern) (env : gmap str str) : gmap str str :=
  match patterns with [] => env | _ => retain (λ k, matches_any k patterns) env end.

Definition default_excludes : list EnvironmentVariablePattern :=
  new_case_insensitive <$> [lit "*KEY*"; lit "*SECRET*"; lit "*TOKEN*"].

Definition inherited (windows : bool) (vars : list (str * str))
    (policy : ShellEnvironmentPolicy) : gmap str str :=
  match inherit policy with
  | InheritAll => collect_vars vars
  | InheritNone => ∅
  | InheritCore => collect_vars (List.filter (λ kv, is_core_var windows kv.1) vars)
  end.

Definition populate_env (windows : bool) (vars : list (str * str)) (policy : ShellEnvironmentPolicy)
    (thread_id : option str) : gmap str str :=
  let env := inherited windows vars policy in
  let env := if ignore_default_excludes policy then env
             else retain (λ k, negb (matches_any k default_excludes)) env in
  let env := exclude_matching (exclude policy) env in
  let env := map_fold (λ key val env, <[key := val]> env) env (set policy) in
  let env := keep_matching (include_only policy) env in
  match thread_id with
  | Some thread_id => <[CODEX_THREAD_ID_ENV_VAR := thread_id]> env
  | None => env
  end.

Definition UNIFIED_EXEC_ENV : list (str * str) :=
  prod_map lit lit <$>
  [("NO_COLOR", "1"); ("TERM", "dumb"); ("LANG", "C.UTF-8"); ("LC_CTYPE", "C.UTF-8"); ("LC_ALL", "C.UTF-8");
   ("COLORTERM", String.EmptyString); ("PAGER", "cat"); ("GIT_PAGER", "cat"); ("GH_PAGER", "cat");
   ("CODEX_CI", "1")]%string.

Definition apply_unified_exec_env (env : gmap str str) : gmap str str :=
  foldl (λ env kv, <[kv.1 := kv.2]> env) env UNIFIED_EXEC_ENV.

(** ** Lookups *)
Lemma lookup_foldl_insert (kvs : list (str * str)) (env : gmap str str) k :
  foldl (λ env kv, <[kv.1 := kv.2]> env) env kvs !! k =
  match last (List.filter (λ kv, bool_decide (kv.1 = k)) kvs) with
  | Some kv => Some kv.2
  | None => env !! k
  end.
Proof.
  revert env; induction kvs as [|[k' v] kvs IH]; intros env; [done|]. cbn [foldl List.filter]. rewrite IH.
  cbn [fst snd]. case_bool_decide as Hk; [subst k'|by rewrite lookup_insert_ne].
  rewrite lookup_insert_eq.
  destruct (List.filter _ kvs) as [|kv l]; [done|]. rewrite last_cons_cons.
  by destruct (last (kv :: l)) eqn:E; [|apply last_None in E].
Qed.

Lemma lookup_retain f env k : retain f env !! k = if f k then env !! k else None.
Proof.
  unfold retain. destruct (f k) eqn:E.
  - destruct (env !! k) as [v|] eqn:Hv; [|by apply map_lookup_filter_None; left].
    by apply map_lookup_filter_Some.
  - apply map_lookup_filter_None. right. intros v _ Hf. cbn in Hf. congruence.
Qed.

Definition keeps (patterns : list EnvironmentVariablePattern) (k : str) : bool :=
  match patterns with [] => true | _ => matches_any k patterns end.

Lemma lookup_exclude ps env k :
  exclude_matching ps env !! k = if matches_any k ps then None else env !! k.
Proof.
  destruct ps as [|p ps]; [done|]. unfold exclude_matching. rewrite lookup_retain.
  by destruct (matches_any k (p :: ps)).
Qed.

Lemma lookup_keep ps env k :
  keep_matching ps env !! k = if keeps ps k then env !! k else None.
Proof. destruct ps as [|p ps]; [done|]. apply lookup_retain. Qed.

Lemma lookup_overrides (new env : gmap str str) k :
  map_fold (λ key val env, <[key := val]> env) env new !! k =
  match new !! k with Some v => Some v | None => env !! k end.
Proof.
  apply (map_fold_weak_ind (λ r new, r !! k = match new !! k with Some v => Some v | None => env !! k end)).
  - by rewrite lookup_empty.
  - intros i v m r _ IH. destruct (decide (i = k)) as [->|]; [by rewrite !lookup_insert_eq|].
    by rewrite !lookup_insert_ne.
Qed.

(** ** One variable *)

(** The value a variable has in the parent process, the last if it is there
    twice. *)
Definition value_in (vars : list (str * str)) (k : str) : option str :=
  snd <$> last (List.filter (λ kv, bool_decide (kv.1 = k)) vars).

Definition inherits (windows : bool) (policy : ShellEnvironmentPolicy) (k : str) : bool :=
  match inherit policy with
  | InheritAll => true
  | InheritNone => false
  | InheritCore => is_core_var windows k
  end.

Definition excluded (policy : ShellEnvironmentPolicy) (k : str) : bool :=
  (negb (ignore_default_excludes policy) && matches_any k default_excludes) || matches_any k (exclude policy).

Definition included (policy : ShellEnvironmentPolicy) (k : str) : bool := keeps (include_only policy) k.

Definition variable (windows : bool) (vars : list (str * str)) (policy : ShellEnvironmentPolicy)
    (thread_id : option str) (k : str) : option str :=
  match thread_id with
  | Some thread_id => if decide (k = CODEX_THREAD_ID_ENV_VAR) then Some thread_id else None
  | None => None
  end ∪
  if included policy k then
    set policy !! k ∪
    (if inherits windows policy k && negb (excluded policy k) then value_in vars k else None)
  else None.

Lemma lookup_collect vars k : collect_vars vars !! k = value_in vars k.
Proof.
  unfold collect_vars, value_in. rewrite lookup_foldl_insert. by destruct (last _).
Qed.

Lemma value_in_filter f vars k :
  value_in (List.filter (λ kv, f kv.1) vars) k = if f k then value_in vars k else None.
Proof.
  unfold value_in. assert (List.filter (λ kv, bool_decide (kv.1 = k)) (List.filter (λ kv, f kv.1) vars) =
    if f k then List.filter (λ kv : str * str, bool_decide (kv.1 = k)) vars else []) as ->; [|by destruct (f k)].
  induction vars as [|[k' v] vars IH]; [by destruct (f k)|]. cbn [List.filter fst].
  destruct (f k') eqn:Hf; cbn [List.filter fst]; rewrite IH; case_bool_decide as Hk; subst; try done.
  - by rewrite Hf.
  - by rewrite Hf.
Qed.

Lemma lookup_inherited windows vars policy k :
  inherited windows vars policy !! k = if inherits windows policy k then value_in vars k else None.
Proof.
  unfold inherited, inherits. destruct (inherit policy); rewrite ?lookup_collect; [|done|done].
  apply (value_in_filter (is_core_var windows)).
Qed.

Lemma Some_union {A} (x : A) (o : option A) : Some x ∪ o = Some x.
Proof. by destruct o. Qed.

Lemma environment_lookup windows vars policy thread_id k :
  populate_env windows vars policy thread_id !! k = variable windows vars policy thread_id k.
Proof.
  unfold populate_env, variable. cbv zeta. set (env := keep_matching _ _).
  assert (env !! k = if included policy k then
    set policy !! k ∪ (if inherits windows policy k && negb (excluded policy k) then value_in vars k else None)
    else None) as Henv.
  { unfold env. rewrite lookup_keep, lookup_overrides, lookup_exclude.
    unfold included, excluded. destruct (keeps (include_only policy) k); [|done].
    destruct (set policy !! k) as [v|]; [by rewrite Some_union|].
    rewrite (left_id_L None (∪)).
    destruct (matches_any k (exclude policy)); [by rewrite orb_true_r, andb_false_r|]. rewrite orb_false_r.
    destruct (ignore_default_excludes policy); cbn [negb andb];
      rewrite ?lookup_retain, lookup_inherited, ?andb_true_r; [done|].
    by destruct (matches_any k default_excludes), (inherits windows policy k). }
  destruct thread_id as [t|]; [|by rewrite (left_id_L None (∪))].
  case_decide as Hk; [subst k; by rewrite lookup_insert_eq, Some_union|].
  by rewrite lookup_insert_ne, (left_id_L None (∪)).
Qed.

End Policy.

(** ** Secrets *)
Section Secrets.
Context `{WildMatchLaws}.

(** A word somewhere in a name, in any case. *)
Definition has_word (word name : str) : Prop :=
  ∃ a w b, name = a ++ w ++ b ∧ to_ascii_lowercase w = to_ascii_lowercase word.

Definition plain (word : str) : bool := forallb (λ c, negb (c =? STAR)%N && negb (c =? QUESTION)%N) word.

Lemma wild_word word w p s :
  plain word = true → to_ascii_lowercase w = to_ascii_lowercase word → wild p s → wild (word ++ p) (w ++ s).
Proof.
  revert w; induction word as [|a word IH]; intros [|c w]; try done. cbn. intros Hp [= Hc Hw] Hs.
  apply andb_true_iff in Hp as [[Ha Hq]%andb_true_iff Hp]. rewrite negb_true_iff, N.eqb_neq in Ha, Hq.
  constructor; [done..|]. by apply IH.
Qed.

Lemma wild_has_word word name :
  plain word = true → has_word word name → wild (STAR :: word ++ [STAR]) name.
Proof.
  intros Hp (a & w & b & -> & Hw). apply wild_star, wild_word; [done..|].
  rewrite <- (app_nil_r b). apply wild_star. constructor.
Qed.

Lemma default_excluded word name :
  word ∈ [lit "KEY"; lit "SECRET"; lit "TOKEN"] → has_word word name →
  matches_any name default_excludes = true.
Proof.
  rewrite !elem_of_cons, elem_of_nil. intros Hword Hn.
  assert (matches (new_case_insensitive (STAR :: word ++ [STAR])) name = true) as Hm.
  { apply wild_matches, wild_has_word; [|done]. by destruct Hword as [->|[->|[->|[]]]]. }
  unfold matches_any, default_excludes. apply existsb_elem. eexists. split; [|exact Hm].
  destruct Hword as [->|[->|[->|[]]]]; cbn; set_solver.
Qed.

(** With the default excludes in force, a variable of the parent process with
    [KEY], [SECRET] or [TOKEN] in its name, in any case, never reaches a
    command: what the command sees under that name is what the policy sets. *)
Theorem secrets_are_kept windows vars policy thread_id word name :
  ignore_default_excludes policy = false →
  word ∈ [lit "KEY"; lit "SECRET"; lit "TOKEN"] → has_word word name →
  name ≠ CODEX_THREAD_ID_ENV_VAR →
  populate_env windows vars policy thread_id !! name =
  if included policy name then set policy !! name else None.
Proof.
  intros Hd Hword Hn Hne. rewrite environment_lookup. unfold variable, excluded.
  rewrite Hd, (default_excluded word name Hword Hn), andb_false_r. cbn.
  destruct thread_id; [rewrite decide_False by done|]; rewrite (left_id_L None (∪));
    destruct (included policy name); by rewrite ?(right_id_L None (∪)).
Qed.

(** ** Who sees what *)

(** The value a variable has in the parent process, the last if it is there
    twice. *)
Definition has_value (vars : list (str * str)) (k v : str) : Prop :=
  ∃ before after, vars = before ++ (k, v) :: after ∧ k ∉ after.*1.

Definition core_name (windows : bool) (k : str) : Prop :=
  let core := [lit "HOME"; lit "LOGNAME"; lit "PATH"; lit "SHELL"; lit "USER"; lit "USERNAME";
               lit "TMPDIR"; lit "TEMP"; lit "TMP"] in
  if windows then ∃ name, name ∈ core ∧ to_ascii_lowercase k = to_ascii_lowercase name
  else k ∈ core.

(** What a configured policy lets a command inherit from its parent. *)
Definition inherits_value (windows : bool) (vars : list (str * str))
    (toml : ShellEnvironmentPolicyToml) (k v : str) : Prop :=
  has_value vars k v ∧
  match toml_inherit toml with
  | None | Some InheritAll => True
  | Some InheritCore => core_name windows k
  | Some InheritNone => False
  end ∧
  (toml_ignore_default_excludes toml = Some false →
     ¬ has_word (lit "key") k ∧ ¬ has_word (lit "secret") k ∧ ¬ has_word (lit "token") k) ∧
  (∀ p, p ∈ default [] (toml_exclude toml) → ¬ wild p k).

Definition sees (windows : bool) (vars : list (str * str)) (toml : ShellEnvironmentPolicyToml)
    (thread_id : option str) (k v : str) : Prop :=
  if decide (k = lit "CODEX_THREAD_ID" ∧ is_Some thread_id) then thread_id = Some v
  else
    (default [] (toml_include_only toml) = [] ∨
     ∃ p, p ∈ default [] (toml_include_only toml) ∧ wild p k) ∧
    match default ∅ (toml_set toml) !! k with
    | Some w => v = w
    | None => inherits_value windows vars toml k v
    end.

Lemma word_of_wild word p s :
  plain word = true → wild (word ++ p) s →
  ∃ w r, s = w ++ r ∧ to_ascii_lowercase w = to_ascii_lowercase word ∧ wild p r.
Proof.
  revert s; induction word as [|a word IH]; intros s; [by exists [], s|]. cbn.
  intros [[Ha Hq]%andb_true_iff Hp]%andb_true_iff Hw. rewrite negb_true_iff, N.eqb_neq in Ha, Hq.
  inversion Hw as [| | |? ? ? s' ? ? Hac Hrest]; subst; try done.
  destruct (IH _ Hp Hrest) as (w & r & -> & Hlow & Hr).
  exists (c :: w), r. cbn. split_and!; [done|by f_equal|done].
Qed.

Lemma wild_word_iff word name :
  plain word = true → wild (STAR :: word ++ [STAR]) name ↔ has_word word name.
Proof.
  intros Hp. split; [|by apply wild_has_word]. intros Hw. inversion Hw as [|? s' rest Hrest| |]; subst; try done.
  destruct (word_of_wild _ _ _ Hp Hrest) as (w & r & -> & Hlow & _). by exists s', w, r.
Qed.

Lemma matches_wild_iff p k :
  ascii p = true → ascii k = true → matches (new_case_insensitive p) k = true ↔ wild p k.
Proof. intros Hp Hk. split; [by apply matches_wild|apply wild_matches]. Qed.

Lemma matches_any_wild ps k :
  ascii k = true → Forall (λ p, ascii p = true) ps →
  matches_any k (new_case_insensitive <$> ps) = true ↔ ∃ p, p ∈ ps ∧ wild p k.
Proof.
  intros Hk Hps. rewrite Forall_forall in Hps. unfold matches_any. rewrite existsb_elem. split.
  - intros (x & (p & -> & Hp)%list_elem_of_fmap & Hm). exists p. split; [done|].
    apply matches_wild; auto.
  - intros (p & Hp & Hw). exists (new_case_insensitive p). split; [by apply list_elem_of_fmap_2|].
    by apply wild_matches.
Qed.

Lemma value_in_Some vars k v : value_in vars k = Some v ↔ has_value vars k v.
Proof.
  unfold value_in, has_value. induction vars as [|[k' v'] vars IH] using rev_ind.
  { split; [done|]. intros ([] & ? & ? & _); done. }
  rewrite List.filter_app. cbn [List.filter fst]. case_bool_decide as Hk.
  - subst k'. rewrite last_snoc. cbn. split.
    + intros [= ->]. exists vars, []. split; [done|apply not_elem_of_nil].
    + intros (before & after & E & Hno). destruct after as [|x after _] using rev_ind.
      * apply app_inj_tail in E as [_ [= ->]]. done.
      * rewrite app_comm_cons, app_assoc in E. apply app_inj_tail in E as [_ <-].
        exfalso. apply Hno. rewrite fmap_app. set_solver.
  - rewrite app_nil_r, IH. split.
    + intros (before & after & -> & Hno). exists before, (after ++ [(k', v')]).
      rewrite <-app_assoc. split; [done|]. rewrite fmap_app. set_solver.
    + intros (before & after & E & Hno). destruct after as [|x after _] using rev_ind.
      * by apply app_inj_tail in E as [_ [= -> _]].
      * rewrite app_comm_cons, app_assoc in E. apply app_inj_tail in E as [-> <-].
        exists before, after. split; [done|]. rewrite fmap_app in Hno. set_solver.
Qed.

Lemma core_var_iff windows k : is_core_var windows k = true ↔ core_name windows k.
Proof.
  unfold is_core_var, core_name. change CORE_VARS with [lit "HOME"; lit "LOGNAME"; lit "PATH";
    lit "SHELL"; lit "USER"; lit "USERNAME"; lit "TMPDIR"; lit "TEMP"; lit "TMP"].
  destruct windows; [|by rewrite bool_decide_eq_true]. rewrite existsb_elem.
  unfold eq_ignore_ascii_case. setoid_rewrite bool_decide_eq_true. naive_solver.
Qed.

Lemma default_excludes_wild k :
  ascii k = true →
  matches_any k default_excludes = true ↔
  has_word (lit "key") k ∨ has_word (lit "secret") k ∨ has_word (lit "token") k.
Proof.
  intros Hk. unfold default_excludes. rewrite matches_any_wild; [|done|by repeat constructor].
  assert (E : ∀ upper lower, plain upper = true → to_ascii_lowercase upper = to_ascii_lowercase lower →
    wild (STAR :: upper ++ [STAR]) k ↔ has_word lower k).
  { intros upper lower Hp Hlow. rewrite wild_word_iff by done. unfold has_word. by rewrite Hlow. }
  rewrite <-(E (lit "KEY")), <-(E (lit "SECRET")), <-(E (lit "TOKEN")) by done.
  setoid_rewrite elem_of_cons. setoid_rewrite elem_of_cons. setoid_rewrite list_elem_of_singleton.
  naive_solver.
Qed.

Lemma inherits_value_iff windows vars toml k v :
  ascii k = true → Forall (λ p, ascii p = true) (default [] (toml_exclude toml)) →
  (if inherits windows (policy_of_toml toml) k && negb (excluded (policy_of_toml toml) k)
   then value_in vars k else None) = Some v ↔ inherits_value windows vars toml k v.
Proof.
  intros Hk Hex. unfold inherits_value. rewrite <-value_in_Some.
  assert (Hi : inherits windows (policy_of_toml toml) k = true ↔
    match toml_inherit toml with
    | None | Some InheritAll => True | Some InheritCore => core_name windows k | Some InheritNone => False
    end).
  { unfold inherits. cbn [inherit policy_of_toml]. destruct (toml_inherit toml) as [[]|]; cbn;
      try done. apply core_var_iff. }
  assert (He : excluded (policy_of_toml toml) k = false ↔
    (toml_ignore_default_excludes toml = Some false →
       ¬ has_word (lit "key") k ∧ ¬ has_word (lit "secret") k ∧ ¬ has_word (lit "token") k) ∧
    (∀ p, p ∈ default [] (toml_exclude toml) → ¬ wild p k)).
  { unfold excluded. cbn [ignore_default_excludes exclude policy_of_toml].
    rewrite orb_false_iff, andb_false_iff, negb_false_iff.
    rewrite <-!not_true_iff_false, default_excludes_wild, matches_any_wild by done.
    destruct (toml_ignore_default_excludes toml) as [[]|]; cbn; naive_solver. }
  rewrite <-Hi, <-He.
  destruct (inherits windows _ k), (excluded _ k); cbn [negb andb]; naive_solver.
Qed.


(** By default everything is inherited. *)
Theorem default_policy_inherits_all windows vars k :
  populate_env windows vars (policy_of_toml {| toml_inherit := None; toml_ignore_default_excludes := None;
      toml_exclude := None; toml_set := None; toml_include_only := None;
      toml_experimental_use_profile := None |}) None !! k = value_in vars k.
Proof.
  rewrite environment_lookup. unfold variable. cbn. rewrite lookup_empty.
  by rewrite !(left_id_L None (∪)).
Qed.
End Secrets.

(** ** A matcher *)
Fixpoint wildb (p s : str) : bool :=
  match p with
  | [] => match s with [] => true | _ => false end
  | a :: p =>
      if (a =? STAR)%N then
        (fix any (s : str) : bool := wildb p s || match s with [] => false | _ :: s => any s end) s
      else match s with
           | [] => false
           | c :: s => ((a =? QUESTION) || (ascii_lower a =? ascii_lower c))%N && wildb p s
           end
  end.

Lemma wildb_wild p s : wildb p s = true ↔ wild p s.
Proof.
  revert s; induction p as [|a p IH]; intros s.
  { destruct s; cbn; split; try done; [constructor|by inversion 1]. }
  cbn [wildb]. destruct (N.eqb_spec a STAR) as [->|Hs].
  - trans (∃ b r, s = b ++ r ∧ wild p r).
    + induction s as [|c s IHs]; rewrite orb_true_iff, IH.
      * split; [intros [?|?]; [by exists [], []|done]|]. intros (b & r & Hr & ?). left. by destruct b, r.
      * rewrite IHs. split.
        -- intros [?|(b & r & -> & ?)]; [by exists [], (c :: s)|by exists (c :: b), r].
        -- intros ([|c' b] & r & Hr & Hw); cbn in Hr; [by left; subst|]. injection Hr as <- ->. right. eauto.
    + split; [intros (b & r & -> & ?); by constructor|].
      inversion 1; subst; [eauto|done..].
  - destruct s as [|c s]; [split; [done|inversion 1; done]|].
    rewrite andb_true_iff, orb_true_iff, !N.eqb_eq, IH. split.
    + intros [[->|?] ?]; [by constructor|].
      destruct (N.eq_dec a QUESTION) as [->|]; by constructor.
    + inversion 1; subst; auto; done.
Qed.

#[export] Instance wild_matcher : WildMatch := {|
  EnvironmentVariablePattern := str; new_case_insensitive p := p; matches := wildb |}.

#[export] Instance wild_matcher_laws : WildMatchLaws.
Proof. split; intros p s; [by rewrite <- wildb_wild|]. cbn. intros _ _. by rewrite wildb_wild. Qed.


Lemma secrets_witness :
  populate_env false [(lit "PATH", lit "/bin"); (lit "my_api_key", lit "hunter2")]
    {| inherit := InheritAll; ignore_default_excludes := false; exclude := []; set := ∅;
       include_only := []; use_profile := false |} None !! lit "my_api_key" = None.
Proof.
  rewrite (secrets_are_kept (H:=wild_matcher) false _ _ None (lit "KEY") (lit "my_api_key")); try done; [set_solver|].
  by exists (lit "my_api_"), (lit "key"), [].
Defined.
