(* ===== verification/TurnDiff.v ===== *)
(** * The diff of a turn: [core/src/turn_diff_tracker.rs], and how a patch is
      reported: [ToolEmitter] of [core/src/tools/events.rs] for patches

    Before a patch runs the tracker takes a snapshot of every file the patch
    names for the first time, and follows the moves; the diff of the turn
    compares the snapshots with what is on disk.  The disk is the class [Disk];
    the hash, the line diff and the fresh names are parameters. *)
From stdpp Require Import base tactics option list numbers strings gmap sorting.
From S2P Require Import Prelude RustStr Paths Safety Utf8Stream Sandboxing.
From S2P Require Import Orchestrator ShellTool CommandSafety.
From stdpp Require Import list.

#[export] Instance Component_countable : Countable Component.
Proof.
  refine (inj_countable'
    (λ c, match c with
          | RootDir => inl 0 | CurDir => inl 1 | ParentDir => inl 2 | Normal s => inr s end)
    (λ x, match x with
          | inl 0 => RootDir | inl 1 => CurDir | inl _ => ParentDir | inr s => Normal s end) _).
  by intros [].
Defined.

(** ** The disk *)
Record Metadata : Type := { is_symlink : bool; permission_bits : Z }.

(** The queries of [std::fs] and the run of [git hash-object], with its
    success and its output. *)
Class Disk (W : Type) : Type := {
  path_exists : W → Path → bool;
  symlink_metadata : W → Path → option Metadata;
  read_link : W → Path → option (list byte);
  read_bytes : W → Path → option (list byte);
  is_dir : W → Path → bool;
  is_file : W → Path → bool;
  git_hash_object : W → Path → Path → option (bool * str);
}.

Inductive FileMode : Type := Regular | Executable | Symlink.
#[export] Instance FileMode_eq_dec : EqDecision FileMode.
Proof. solve_decision. Defined.

Definition as_str (mode : FileMode) : str :=
  match mode with
  | Regular => lit "100644"
  | Executable => lit "100755"
  | Symlink => lit "120000"
  end.

Definition ZERO_OID : str := replicate 40 48%N.
Definition DEV_NULL : str := lit "/dev/null".

Record BaselineFileInfo : Type := {
  baseline_path : Path;
  content : list byte;
  mode : FileMode;
  oid : str;
}.

Record TurnDiffTracker : Type := {
  external_to_temp_name : gmap Path str;
  baseline_file_info : gmap str BaselineFileInfo;
  temp_name_to_current_path : gmap str Path;
  git_root_cache : list Path;
}.

Definition tracker_new : TurnDiffTracker :=
  {| external_to_temp_name := ∅; baseline_file_info := ∅; temp_name_to_current_path := ∅;
     git_root_cache := [] |}.

(** The protocol's form of a change. *)
Inductive FileChange : Type :=
  | ChangeAdd (content : str)
  | ChangeDelete (content : str)
  | ChangeUpdate (unified_diff : str) (move_path : option Path).

Definition convert_apply_patch_to_protocol (action : ApplyPatchAction) : list (Path * FileChange) :=
  (λ change : Path * ApplyPatchFileChange,
     (change.1, match change.2 with
                | Safety.Add content => ChangeAdd content
                | Safety.Delete content => ChangeDelete content
                | Safety.Update unified_diff move_path _ => ChangeUpdate unified_diff move_path
                end)) <$> changes action.

(** The stable sort by a string. *)
Fixpoint insert_by_key {A} (x : str * A) (l : list (str * A)) : list (str * A) :=
  match l with
  | [] => [x]
  | y :: l' => if str_lt y.1 x.1 then y :: insert_by_key x l' else x :: l
  end.

Definition sort_by_key {A} (l : list (str * A)) : list (str * A) := foldr insert_by_key [] l.

Lemma sort_by_str_perm {A} (l : list (str * A)) : sort_by_key l ≡ₚ l.
Proof.
  induction l as [|x l IH]; [done|]. cbn. fold (sort_by_key l). rewrite <- IH at 2. generalize (sort_by_key l).
  intros k. induction k as [|y k IHk]; [done|]. cbn [insert_by_key]. destruct (str_lt y.1 x.1); [|done].
  rewrite IHk. apply Permutation_swap.
Qed.

(** ** Methods that use the cache of git roots *)
Definition cached (A : Type) : Type := list Path → A * list Path.
#[export] Instance cached_ret : MRet cached := λ A a cache, (a, cache).
#[export] Instance cached_bind : MBind cached := λ A B f m cache, let '(a, cache) := m cache in f a cache.

Section Tracker.
Context {W : Type} `{Disk W}.
Context (sha1 : list byte → str) (line_diff : str → str → str → str → str) (display : Path → str).

(** [find_git_root_cached]. *)
Definition git_marker (w : W) (dir : Path) : bool :=
  let marker := path_join dir [Normal (lit ".git")] in is_dir w marker || is_file w marker.

Definition find_git_root_cached (w : W) (start : Path) : cached (option Path) := λ cache,
  match (if is_dir w start then Some start else parent start) with
  | None => (None, cache)
  | Some dir =>
      match head (List.filter (path_starts_with dir) cache) with
      | Some root => (Some root, cache)
      | None =>
          match head (List.filter (git_marker w) (ancestors dir)) with
          | Some cur => (Some cur, if bool_decide (cur ∈ cache) then cache else cache ++ [cur])
          | None => (None, cache)
          end
      end
  end.

Definition relative_to_git_root_str (w : W) (path : Path) : cached str :=
  root ← find_git_root_cached w path;
  let s := match root with
           | Some root =>
               match path_strip_prefix path root with
               | Some rel => display rel
               | None => display path
               end
           | None => display path
           end in
  mret (replace_char 92%N (lit "/") s).

Definition git_blob_oid_for_path (w : W) (path : Path) : cached (option str) :=
  root ← find_git_root_cached w path;
  mret (root ← root;
        '(success, stdout) ← git_hash_object w root (default path (path_strip_prefix path root));
        if negb success then None
        else let s := trim stdout in if decide (length (encode s) = 40) then Some s else None).

(** ** Files: the bits of [0o111] are those of [0x49] *)
Definition file_mode_for_path (w : W) (path : Path) : option FileMode :=
  meta ← symlink_metadata w path;
  if is_symlink meta then Some Symlink
  else Some (if (Z.land (permission_bits meta) 0x49 =? 0)%Z then Regular else Executable).

Definition blob_bytes (w : W) (path : Path) (mode : FileMode) : option (list byte) :=
  if path_exists w path then
    if decide (mode = Symlink) then read_link w path else read_bytes w path
  else None.

Definition git_blob_sha1_hex_bytes (data : list byte) : str :=
  sha1 (encode (lit "blob " ++ show_nat (length data) ++ [0%N]) ++ data).

(** The oid of contents on disk, by git or by hand. *)
Definition blob_oid (w : W) (path : Path) (symlink : bool) (data : list byte) : cached str :=
  if symlink then mret (git_blob_sha1_hex_bytes data)
  else git ← git_blob_oid_for_path w path; mret (default (git_blob_sha1_hex_bytes data) git).

(** ** [on_patch_begin] *)
Definition snapshot (w : W) (path : Path) : cached BaselineFileInfo :=
  if path_exists w path then
    let mode := file_mode_for_path w path in
    let mode_val := default Regular mode in
    let content := default [] (blob_bytes w path mode_val) in
    oid ← blob_oid w path (bool_decide (mode = Some Symlink)) content;
    mret {| baseline_path := path; content := content; mode := mode_val; oid := oid |}
  else mret {| baseline_path := path; content := []; mode := Regular; oid := ZERO_OID |}.

(** [Uuid::new_v4]: a name other than those in use. *)
Context (new_v4 : gset str → str).

Definition names (t : TurnDiffTracker) : gset str := dom (baseline_file_info t).

Definition see_path (w : W) (path : Path) (t : TurnDiffTracker) : TurnDiffTracker :=
  match external_to_temp_name t !! path with
  | Some _ => t
  | None =>
      let internal := new_v4 (names t) in
      let '(info, cache) := snapshot w path (git_root_cache t) in
      {| external_to_temp_name := <[path := internal]> (external_to_temp_name t);
         baseline_file_info := <[internal := info]> (baseline_file_info t);
         temp_name_to_current_path := <[internal := path]> (temp_name_to_current_path t);
         git_root_cache := cache |}
  end.

Definition move_to (path dest : Path) (t : TurnDiffTracker) : TurnDiffTracker :=
  let '(uuid_filename, baselines) :=
    match external_to_temp_name t !! path with
    | Some i => (i, baseline_file_info t)
    | None =>
        let i := new_v4 (names t) in
        (i, <[i := {| baseline_path := path; content := []; mode := Regular; oid := ZERO_OID |}]>
              (baseline_file_info t))
    end in
  {| external_to_temp_name := <[dest := uuid_filename]> (delete path (external_to_temp_name t));
     baseline_file_info := baselines;
     temp_name_to_current_path := <[uuid_filename := dest]> (temp_name_to_current_path t);
     git_root_cache := git_root_cache t |}.

Definition change_move (change : FileChange) : option Path :=
  match change with ChangeUpdate _ move_path => move_path | _ => None end.

Definition track_change (w : W) (t : TurnDiffTracker) (change : Path * FileChange) : TurnDiffTracker :=
  let t := see_path w change.1 t in
  match change_move change.2 with
  | Some dest => move_to change.1 dest t
  | None => t
  end.

(** The changes in the order the map of the code yields them. *)
Definition on_patch_begin (w : W) (changes : list (Path * FileChange)) (t : TurnDiffTracker) : TurnDiffTracker :=
  foldl (track_change w) t changes.

(** ** [get_unified_diff] *)
Definition get_path_for_internal (t : TurnDiffTracker) (internal : str) : option Path :=
  match temp_name_to_current_path t !! internal with
  | Some path => Some path
  | None => baseline_path <$> baseline_file_info t !! internal
  end.

(** A diff of two files, from the baseline to the current contents. *)
Definition diff_text (left_display right_display left_oid right_oid : str)
    (baseline_mode current_mode : FileMode) (left_bytes right_bytes : option (list byte)) : str :=
  let left_present := bool_decide (left_oid ≠ ZERO_OID) in
  if decide (left_bytes = right_bytes) then []
  else
    let is_add := negb left_present && bool_decide (right_bytes ≠ None) in
    let is_delete := left_present && bool_decide (right_bytes = None) in
    let modes :=
      if is_add then lit "new file mode " ++ as_str current_mode ++ [NL]
      else if is_delete then lit "deleted file mode " ++ as_str baseline_mode ++ [NL]
      else if decide (baseline_mode = current_mode) then []
      else lit "old mode " ++ as_str baseline_mode ++ [NL]
           ++ lit "new mode " ++ as_str current_mode ++ [NL] in
    let text (bytes : option (list byte)) : option str :=
      bytes ← bytes; match from_utf8 bytes with Ok s => Some s | _ => None end in
    let left_text := text left_bytes in
    let right_text := text right_bytes in
    let can_text_diff :=
      match left_text, right_text, is_add, is_delete with
      | Some _, Some _, _, _ | _, Some _, true, _ | Some _, _, _, true => true
      | _, _, _, _ => false
      end in
    let old_header := if left_present then lit "a/" ++ left_display else DEV_NULL in
    let new_header := if decide (right_bytes = None) then DEV_NULL else lit "b/" ++ right_display in
    lit "diff --git a/" ++ left_display ++ lit " b/" ++ right_display ++ [NL] ++ modes
    ++ lit "index " ++ left_oid ++ lit ".." ++ right_oid ++ [NL]
    ++ (if can_text_diff
        then line_diff (default [] left_text) (default [] right_text) old_header new_header
        else lit "--- " ++ old_header ++ [NL] ++ lit "+++ " ++ new_header ++ [NL]
             ++ lit "Binary files differ" ++ [NL]).

Definition get_file_diff (w : W) (t : TurnDiffTracker) (internal_file_name : str) : cached str :=
  let info := baseline_file_info t !! internal_file_name in
  let '(baseline_external_path, baseline_mode, left_oid) :=
    match info with
    | Some info => (baseline_path info, mode info, oid info)
    | None => ([], Regular, ZERO_OID)
    end in
  match get_path_for_internal t internal_file_name with
  | None => mret []
  | Some current_external_path =>
      let current_mode := default Regular (file_mode_for_path w current_external_path) in
      let right_bytes := blob_bytes w current_external_path current_mode in
      left_display ← relative_to_git_root_str w baseline_external_path;
      right_display ← relative_to_git_root_str w current_external_path;
      right_oid ← match right_bytes with
                  | Some b => blob_oid w current_external_path (bool_decide (current_mode = Symlink)) b
                  | None => mret ZERO_OID
                  end;
      let left_bytes := if decide (left_oid = ZERO_OID) then None else content <$> info in
      mret (diff_text left_display right_display left_oid right_oid baseline_mode current_mode
              left_bytes right_bytes)
  end.

(** The keys are computed once for every file, in the order of the map; the
    stable sort asks for them at every comparison.  [map_order] is the order in
    which the map of the code yields its keys. *)
Context (map_order : list str → list str).

Definition sort_key (w : W) (t : TurnDiffTracker) (internal : str) : cached str :=
  match get_path_for_internal t internal with
  | Some p => relative_to_git_root_str w p
  | None => mret []
  end.

Fixpoint sort_keys (w : W) (t : TurnDiffTracker) (l : list str) : cached (list (str * str)) :=
  match l with
  | [] => mret []
  | internal :: l =>
      key ← sort_key w t internal;
      keys ← sort_keys w t l;
      mret ((key, internal) :: keys)
  end.

Definition ends_with_newline (s : str) : bool :=
  match last s with Some c => (c =? NL)%N | None => false end.

Fixpoint aggregate (w : W) (t : TurnDiffTracker) (l : list str) (aggregated : str) : cached str :=
  match l with
  | [] => mret aggregated
  | internal :: l =>
      diff ← get_file_diff w t internal;
      let aggregated := aggregated ++ diff in
      aggregate w t l (if ends_with_newline aggregated then aggregated else aggregated ++ [NL])
  end.

(** The code wraps the result in [Ok] always. *)
Definition get_unified_diff (w : W) (t : TurnDiffTracker) : cached (option str) :=
  keys ← sort_keys w t (map_order (map_to_list (baseline_file_info t)).*1);
  aggregated ← aggregate w t (sort_by_key keys).*2 [];
  mret (if decide (trim aggregated = []) then None else Some aggregated).
End Tracker.

(** ** Specification: the files of a turn *)
Section Spec.
Context {W : Type} `{Disk W}.

(** A file that some patch of the turn has named: its path then, the disk it
    was first seen on, its path after the moves, and whether it is still the
    one that is known under that path. *)
Record TrackedFile : Type := { origin : Path; seen : W; now : Path; owner : bool }.

Definition owns (p : Path) (f : TrackedFile) : bool := owner f && bool_decide (now f = p).

Definition see (w : W) (p : Path) (fs : list TrackedFile) : list TrackedFile :=
  if existsb (owns p) fs then fs
  else fs ++ [{| origin := p; seen := w; now := p; owner := true |}].

Definition relocate_file (p dest : Path) (f : TrackedFile) : TrackedFile :=
  if owns p f then {| origin := origin f; seen := seen f; now := dest; owner := true |}
  else if owns dest f then {| origin := origin f; seen := seen f; now := now f; owner := false |}
  else f.

Definition file_step (w : W) (fs : list TrackedFile) (change : Path * FileChange) : list TrackedFile :=
  let fs := see w change.1 fs in
  match change_move change.2 with
  | Some dest => relocate_file change.1 dest <$> fs
  | None => fs
  end.

(** The patches of a turn, each with the disk when it begins. *)
Definition files_of (patches : list (W * list (Path * FileChange))) : list TrackedFile :=
  foldl (λ fs patch, foldl (file_step patch.1) fs patch.2) [] patches.

(** Contents before the turn and now; nothing where there is no file. *)
Definition contents (w : W) (p : Path) : option (list byte) :=
  blob_bytes w p (default Regular (file_mode_for_path w p)).

Definition before (f : TrackedFile) : option (list byte) :=
  if path_exists (seen f) (origin f) then Some (default [] (contents (seen f) (origin f))) else None.

Definition after (w : W) (f : TrackedFile) : option (list byte) := contents w (now f).
End Spec.
#[global] Arguments TrackedFile : clear implicits.

Section Refinement.
Context {W : Type} `{Disk W}.
Context (sha1 : list byte → str) (line_diff : str → str → str → str → str) (display : Path → str).
Context (new_v4 : gset str → str) (map_order : list str → list str).
(** No hash is the one that stands for no file, and names are new. *)
Context (sha1_not_zero : ∀ data, sha1 data ≠ ZERO_OID).
Context (git_not_zero : ∀ w root p out, git_hash_object w root p = Some (true, out) → trim out ≠ ZERO_OID).
Context (new_v4_fresh : ∀ X, new_v4 X ∉ X).
Context (map_order_perm : ∀ l, map_order l ≡ₚ l).

#[local] Abbreviation track_change := (track_change sha1 new_v4).
#[local] Abbreviation on_patch_begin := (on_patch_begin sha1 new_v4).
#[local] Abbreviation see_path := (see_path sha1 new_v4).
#[local] Abbreviation move_to := (move_to new_v4).

(** *** Results that do not depend on the cache *)
Definition always {A} (P : A → Prop) (m : cached A) : Prop := ∀ cache, P (m cache).1.

Lemma always_ret {A} (P : A → Prop) a : P a → always P (mret a).
Proof. by intros ? ?. Qed.

Lemma always_bind {A B} (P : A → Prop) (Q : B → Prop) (m : cached A) f :
  always P m → (∀ a, P a → always Q (f a)) → always Q (m ≫= f).
Proof.
  intros Hm Hf cache. unfold mbind, cached_bind. specialize (Hm cache).
  destruct (m cache) as [a cache']. by apply Hf.
Qed.

Lemma always_true {A} (m : cached A) : always (λ _, True) m.
Proof. by intros ?. Qed.

(** How a path is shown: whole or below some directory. *)
Definition shows (p : Path) (s : str) : Prop :=
  ∃ root rel, (p = root ++ rel ∨ rel = p) ∧ s = replace_char 92%N (lit "/") (display rel).

Lemma relative_shows w p : always (shows p) (relative_to_git_root_str display w p).
Proof.
  unfold relative_to_git_root_str. eapply always_bind; [apply always_true|]. intros root _.
  apply always_ret. unfold shows. destruct root as [root|]; [|by exists [], p; auto].
  destruct (path_strip_prefix p root) as [rel|] eqn:E; [|by exists [], p; auto].
  apply path_strip_prefix_Some in E. eauto.
Qed.

(** The name of a blob: the hash of its header and contents, or what git says
    about the file, which it is not asked about a link. *)
Definition names_blob (w : W) (p : Path) (data : list byte) (oid : str) : Prop :=
  oid = sha1 (encode (lit "blob " ++ show_nat (length data) ++ [0%N]) ++ data) ∨
  (file_mode_for_path w p ≠ Some Symlink ∧
   ∃ root rel out, (p = root ++ rel ∨ rel = p) ∧ git_hash_object w root rel = Some (true, out) ∧
     oid = trim out).

Lemma blob_oid_spec w p symlink data :
  (symlink = false → file_mode_for_path w p ≠ Some Symlink) →
  always (λ oid, oid ≠ ZERO_OID ∧ names_blob w p data oid) (blob_oid sha1 w p symlink data).
Proof.
  intros Hsym. unfold blob_oid. destruct symlink; [apply always_ret; split; [apply sha1_not_zero|by left]|].
  eapply (always_bind (λ git, ∀ oid, git = Some oid → oid ≠ ZERO_OID ∧ names_blob w p data oid)).
  - unfold git_blob_oid_for_path. eapply always_bind; [apply always_true|]. intros [root|] _; apply always_ret; [|done].
    cbn. destruct (git_hash_object w root _) as [[[] out]|] eqn:E; cbn; [|done..].
    case_decide; [|done]. intros oid [= <-]. split; [by eapply git_not_zero|]. right.
    split; [by apply Hsym|]. exists root, (default p (path_strip_prefix p root)), out.
    split_and!; [|done..]. destruct (path_strip_prefix p root) eqn:Es; [left|by right].
    by apply path_strip_prefix_Some in Es.
  - intros [git|] Hg; apply always_ret; [by apply Hg|]. split; [apply sha1_not_zero|by left].
Qed.

(** *** The snapshots *)
Definition baseline_bytes (b : BaselineFileInfo) : option (list byte) :=
  if decide (oid b = ZERO_OID) then None else Some (content b).

Definition snapshot_of (w : W) (p : Path) (b : BaselineFileInfo) : Prop :=
  baseline_path b = p ∧
  baseline_bytes b = (if path_exists w p then Some (default [] (contents w p)) else None) ∧
  (path_exists w p = true →
     mode b = default Regular (file_mode_for_path w p) ∧ names_blob w p (content b) (oid b)).

Lemma snapshot_spec w p : always (snapshot_of w p) (snapshot sha1 w p).
Proof.
  unfold snapshot, snapshot_of. destruct (path_exists w p) eqn:E; [|by apply always_ret].
  eapply always_bind; [apply blob_oid_spec|].
  { intros Hb%bool_decide_eq_false. done. }
  intros oid [Hoid Hname]. apply always_ret.
  unfold baseline_bytes. cbn. by rewrite decide_False.
Qed.

(** *** The simulation *)
Definition tracks_file (t : TurnDiffTracker) (i : str) (f : TrackedFile W) : Prop :=
  (∃ b, baseline_file_info t !! i = Some b ∧ snapshot_of (seen f) (origin f) b) ∧
  temp_name_to_current_path t !! i = Some (now f) ∧
  (owner f = true → external_to_temp_name t !! now f = Some i).

Record tracks (t : TurnDiffTracker) (l : list (str * TrackedFile W)) : Prop := {
  tracks_names : NoDup l.*1;
  tracks_dom : ∀ i, i ∈ names t ↔ i ∈ l.*1;
  tracks_files : ∀ i f, (i, f) ∈ l → tracks_file t i f;
  tracks_external : ∀ p i, external_to_temp_name t !! p = Some i → ∃ f, (i, f) ∈ l ∧ owns p f = true;
}.

Lemma owns_spec p (f : TrackedFile W) : owns p f = true ↔ owner f = true ∧ now f = p.
Proof. unfold owns. by rewrite andb_true_iff, bool_decide_eq_true. Qed.

Lemma owns_external t l i f p : tracks t l → (i, f) ∈ l → owns p f = true → external_to_temp_name t !! p = Some i.
Proof. intros Ht Hin [Ho <-]%owns_spec. by apply (tracks_files _ _ Ht _ _ Hin). Qed.

Lemma NoDup_fst_eq {A B} (l : list (A * B)) a b c : NoDup l.*1 → (a, b) ∈ l → (a, c) ∈ l → b = c.
Proof.
  induction l as [|[a' b'] l IH]; cbn; [set_solver|]. intros [Hn Hd]%NoDup_cons.
  rewrite !elem_of_cons. intros [[= -> ->]|Hb] [[= ->]|Hc]; try done; [..|by apply IH];
    destruct Hn; apply list_elem_of_fmap; by eexists (_, _).
Qed.

Lemma tracks_new : tracks tracker_new [].
Proof. split; [constructor|intros i; unfold names; set_solver|set_solver|done]. Qed.

Lemma existsb_owns p (l : list (str * TrackedFile W)) :
  existsb (owns p) l.*2 = true ↔ ∃ i f, (i, f) ∈ l ∧ owns p f = true.
Proof.
  rewrite existsb_elem. setoid_rewrite list_elem_of_fmap. split.
  - intros (f & ([i g] & -> & Hin) & Ho). eauto.
  - intros (i & f & Hin & Ho). exists f. split; [by exists (i, f)|done].
Qed.

Lemma see_tracks t l w p :
  tracks t l → ∃ l', tracks (see_path w p t) l' ∧ l'.*2 = see w p l.*2 ∧
    is_Some (external_to_temp_name (see_path w p t) !! p).
Proof.
  intros Ht. unfold TurnDiff.see_path, see. destruct (external_to_temp_name t !! p) as [i|] eqn:Hp.
  - exists l. assert (existsb (owns p) l.*2 = true) as ->; [|by rewrite Hp].
    apply existsb_owns. destruct (tracks_external _ _ Ht _ _ Hp) as (f & ? & ?). eauto.
  - assert (existsb (owns p) l.*2 = false) as ->.
    { apply not_true_iff_false. rewrite existsb_owns. intros (i & f & Hin & Ho).
      by rewrite (owns_external _ _ _ _ _ Ht Hin Ho) in Hp. }
    pose proof (snapshot_spec w p (git_root_cache t)) as Hsnap.
    destruct (snapshot sha1 w p (git_root_cache t)) as [info cache]. cbn in Hsnap.
    set (j := new_v4 (names t)). assert (j ∉ names t) as Hj by apply new_v4_fresh.
    set (f0 := {| origin := p; seen := w; now := p; owner := true |}).
    exists (l ++ [(j, f0)]). split_and!; [|by rewrite fmap_app|cbn; by rewrite lookup_insert_eq].
    split; cbn.
    + rewrite fmap_app. apply NoDup_app. split_and!; [apply Ht| |apply NoDup_singleton].
      cbn. intros x Hx ->%list_elem_of_singleton. by apply Hj, Ht.
    + intros x. unfold names. cbn. rewrite dom_insert, elem_of_union, elem_of_singleton, fmap_app, elem_of_app.
      cbn. rewrite list_elem_of_singleton. rewrite <- (tracks_dom _ _ Ht x). unfold names. tauto.
    + intros i f [Hin|[= -> ->]%list_elem_of_singleton]%elem_of_app.
      * destruct (tracks_files _ _ Ht _ _ Hin) as ((b & Hb & ?) & Hnow & Hext).
        assert (i ≠ j) by (intros ->; apply Hj, Ht, list_elem_of_fmap; by eexists (_, _)).
        split_and!; cbn; [exists b|..]; rewrite ?lookup_insert_ne by done; [done..|].
        intros Ho. specialize (Hext Ho). rewrite lookup_insert_ne; [done|]. congruence.
      * split_and!; cbn; [exists info|..]; by rewrite ?lookup_insert_eq.
    + intros q i. destruct (decide (p = q)) as [<-|Hq].
      * rewrite lookup_insert_eq. intros [= <-]. exists f0.
        split; [apply elem_of_app; right; by apply list_elem_of_singleton|by apply owns_spec].
      * rewrite lookup_insert_ne by done. intros (f & ? & ?)%(tracks_external _ _ Ht).
        exists f. split; [apply elem_of_app; by left|done].
Qed.

Lemma relocate_fields p d (f : TrackedFile W) :
  origin (relocate_file p d f) = origin f ∧ seen (relocate_file p d f) = seen f.
Proof. unfold relocate_file. by destruct (owns p f), (owns d f). Qed.

Lemma move_tracks t l p d :
  tracks t l → is_Some (external_to_temp_name t !! p) →
  tracks (move_to p d t) (prod_map id (relocate_file p d) <$> l).
Proof.
  intros Ht [i Hi]. unfold TurnDiff.move_to. rewrite Hi.
  destruct (tracks_external _ _ Ht _ _ Hi) as (g & Hg & Hog).
  assert ((prod_map id (relocate_file p d) <$> l).*1 = l.*1) as Hnames.
  { rewrite <- list_fmap_compose. apply list_fmap_ext. by intros ? [] ?. }
  split; cbn; rewrite ?Hnames.
  - apply Ht.
  - intros x. rewrite <- (tracks_dom _ _ Ht x). done.
  - intros j f' ([j' f] & [= -> ->] & Hin)%list_elem_of_fmap. cbn.
    destruct (tracks_files _ _ Ht _ _ Hin) as (Hb & Hnow & Hext).
    destruct (relocate_fields p d f) as [Ho Hs]. unfold tracks_file. rewrite Ho, Hs. split; [done|]. cbn.
    destruct (owns p f) eqn:Hpf.
    + unfold relocate_file. rewrite Hpf. cbn.
      assert (j' = i) as ->. { pose proof (owns_external _ _ _ _ _ Ht Hin Hpf). congruence. }
      by rewrite !lookup_insert_eq.
    + assert (j' ≠ i) as Hne.
      { intros ->. rewrite (NoDup_fst_eq _ _ _ _ (tracks_names _ _ Ht) Hin Hg) in Hpf. congruence. }
      rewrite lookup_insert_ne by done. unfold relocate_file. rewrite Hpf.
      destruct (owns d f) eqn:Hdf; cbn; [done|]. split; [done|]. intros Hof.
      assert (now f ≠ d) by (intros Hd; assert (owns d f = true) by (by apply owns_spec); congruence).
      assert (now f ≠ p) by (intros Hd; assert (owns p f = true) by (by apply owns_spec); congruence).
      rewrite lookup_insert_ne, lookup_delete_ne by done. by apply Hext.
  - intros q j. destruct (decide (d = q)) as [<-|Hq].
    + rewrite lookup_insert_eq. intros [= <-]. exists (relocate_file p d g).
      split; [apply list_elem_of_fmap; by exists (i, g)|]. unfold relocate_file. rewrite Hog. by apply owns_spec.
    + rewrite lookup_insert_ne, lookup_delete_Some by done. intros [Hpq (f & Hf & Hof)%(tracks_external _ _ Ht)].
      exists (relocate_file p d f). split; [apply list_elem_of_fmap; by exists (j, f)|].
      pose proof (proj1 (owns_spec _ _) Hof) as [_ Hnow]. unfold relocate_file.
      destruct (owns p f) eqn:E1; [apply owns_spec in E1 as [_ ?]; congruence|].
      destruct (owns d f) eqn:E2; [apply owns_spec in E2 as [_ ?]; congruence|done].
Qed.

Lemma step_tracks t l w change :
  tracks t l → ∃ l', tracks (track_change w t change) l' ∧ l'.*2 = file_step w l.*2 change.
Proof.
  intros Ht. destruct (see_tracks t l w change.1 Ht) as (l' & Ht' & Hl' & Hp).
  unfold TurnDiff.track_change, file_step. destruct (change_move change.2) as [d|]; [|eauto].
  exists (prod_map id (relocate_file change.1 d) <$> l'). split; [by apply move_tracks|].
  rewrite <- Hl', <- !list_fmap_compose. apply list_fmap_ext. by intros ? [] ?.
Qed.

Lemma patch_tracks w changes t l :
  tracks t l → ∃ l', tracks (on_patch_begin w changes t) l' ∧ l'.*2 = foldl (file_step w) l.*2 changes.
Proof.
  revert t l; induction changes as [|c changes IH]; intros t l Ht; [by exists l|].
  destruct (step_tracks t l w c Ht) as (l1 & Ht1 & Hl1). destruct (IH _ _ Ht1) as (l2 & Ht2 & Hl2).
  exists l2. cbn. by rewrite <- Hl1.
Qed.

(** The tracker after the patches of a turn. *)
Definition tracker_of (patches : list (W * list (Path * FileChange))) : TurnDiffTracker :=
  foldl (λ t patch, on_patch_begin patch.1 patch.2 t) tracker_new patches.

Lemma turn_tracks patches : ∃ l, tracks (tracker_of patches) l ∧ l.*2 = files_of patches.
Proof.
  unfold tracker_of, files_of. change ([] : list (TrackedFile W)) with (([] : list (str * TrackedFile W)).*2).
  generalize tracks_new. generalize tracker_new ([] : list (str * TrackedFile W)).
  induction patches as [|[w changes] patches IH]; intros t l Ht; [by exists l|].
  destruct (patch_tracks w changes t l Ht) as (l1 & Ht1 & Hl1). cbn. rewrite <- Hl1. by apply IH.
Qed.

(** *** The diff *)
#[local] Abbreviation get_file_diff := (get_file_diff sha1 line_diff display).
#[local] Abbreviation aggregate := (aggregate sha1 line_diff display).
#[local] Abbreviation sort_keys := (sort_keys display).
#[local] Abbreviation get_unified_diff := (get_unified_diff sha1 line_diff display map_order).

(** The mode of a file before the turn and now. *)
Definition mode_before (f : TrackedFile W) : FileMode :=
  default Regular (file_mode_for_path (seen f) (origin f)).
Definition mode_after (w : W) (f : TrackedFile W) : FileMode :=
  default Regular (file_mode_for_path w (now f)).

(** Whether the file is new or gone, or which modes it has had. *)
Definition heading (w : W) (f : TrackedFile W) : str :=
  match before f, after w f with
  | None, Some _ => lit "new file mode " ++ as_str (mode_after w f) ++ [NL]
  | Some _, None => lit "deleted file mode " ++ as_str (mode_before f) ++ [NL]
  | _, _ =>
      if decide (mode_before f = mode_after w f) then []
      else lit "old mode " ++ as_str (mode_before f) ++ [NL]
           ++ lit "new mode " ++ as_str (mode_after w f) ++ [NL]
  end.

(** Contents as text, no file being the empty text. *)
Definition text_of (bytes : option (list byte)) : option str :=
  match bytes with
  | None => Some []
  | Some bytes => match from_utf8 bytes with Ok s => Some s | _ => None end
  end.

(** The line diff from the old text to the new one, or that the files differ. *)
Definition body (w : W) (f : TrackedFile W) (left right : str) : str :=
  let old_name := match before f with None => lit "/dev/null" | Some _ => lit "a/" ++ left end in
  let new_name := match after w f with None => lit "/dev/null" | Some _ => lit "b/" ++ right end in
  match text_of (before f), text_of (after w f) with
  | Some old, Some new => line_diff old new old_name new_name
  | _, _ => lit "--- " ++ old_name ++ [NL] ++ lit "+++ " ++ new_name ++ [NL]
            ++ lit "Binary files differ" ++ [NL]
  end.

(** The blob named for contents; forty zeros where there is no file. *)
Definition named (w : W) (p : Path) (bytes : option (list byte)) (name : str) : Prop :=
  match bytes with
  | None => name = lit "0000000000000000000000000000000000000000"
  | Some data => names_blob w p data name
  end.

(** What the diff says about a file: nothing when its contents are the same;
    otherwise its path before and its path now, whether it is new or gone or
    has another mode, the blobs of the old and the new contents, and the line
    diff from the old text to the new one. *)
Definition section_of (w : W) (f : TrackedFile W) (s : str) : Prop :=
  if decide (before f = after w f) then s = []
  else ∃ left right old new, shows (origin f) left ∧ shows (now f) right ∧
    named (seen f) (origin f) (before f) old ∧ named w (now f) (after w f) new ∧
    s = lit "diff --git a/" ++ left ++ lit " b/" ++ right ++ [NL] ++ heading w f
        ++ lit "index " ++ old ++ lit ".." ++ new ++ [NL] ++ body w f left right.

Definition append_section (text s : str) : str :=
  if ends_with_newline (text ++ s) then text ++ s else (text ++ s) ++ [NL].

Lemma right_oid_spec w p :
  let now_mode := default Regular (file_mode_for_path w p) in
  always (named w p (blob_bytes w p now_mode))
    (match blob_bytes w p now_mode with
     | Some b => blob_oid sha1 w p (bool_decide (now_mode = Symlink)) b
     | None => mret ZERO_OID
     end).
Proof.
  cbv zeta. destruct (blob_bytes w p _) as [data|]; [|by apply always_ret].
  intros cache. apply (blob_oid_spec w p). intros Hb%bool_decide_eq_false.
  intros E. by rewrite E in Hb.
Qed.

(** The text of a section, from what it is computed from. *)
Lemma diff_text_section w f b left right right_oid :
  snapshot_of (seen f) (origin f) b → before f ≠ after w f →
  diff_text line_diff left right (oid b) right_oid (mode b) (mode_after w f) (baseline_bytes b) (after w f) =
  lit "diff --git a/" ++ left ++ lit " b/" ++ right ++ [NL] ++ heading w f
  ++ lit "index " ++ oid b ++ lit ".." ++ right_oid ++ [NL] ++ body w f left right.
Proof.
  intros (_ & Hbytes & Hmode) Hne. fold (before f) in Hbytes.
  unfold diff_text. rewrite Hbytes, decide_False by done.
  assert (Hpres : bool_decide (oid b ≠ ZERO_OID) = bool_decide (before f ≠ None)).
  { rewrite <-Hbytes. unfold baseline_bytes. apply bool_decide_ext. case_decide; naive_solver. }
  rewrite Hpres. unfold heading, body.
  assert (Hm : before f ≠ None → mode b = mode_before f).
  { unfold before. destruct (path_exists (seen f) (origin f)); [|done]. intros _. by apply Hmode. }
  destruct (before f) as [old|] eqn:Eb, (after w f) as [new|] eqn:Ea; try done;
    rewrite ?Hm by done;
    rewrite ?(bool_decide_true (Some _ ≠ None)), ?(bool_decide_false (None ≠ None)),
      ?(bool_decide_true (None = None)), ?(bool_decide_false (Some _ = None)) by naive_solver;
    cbn [negb andb text_of mbind option_bind];
    rewrite ?(decide_True (P := None = None)), ?(decide_False (P := Some _ = None)) by done;
    repeat match goal with |- context [from_utf8 ?x] => destruct (from_utf8 x) end; done.
Qed.

Lemma file_diff_section w t i f : tracks_file t i f → always (section_of w f) (get_file_diff w t i).
Proof.
  intros ((b & Hb & Hsnap) & Hnow & _). assert (Hpath := proj1 Hsnap).
  unfold TurnDiff.get_file_diff, get_path_for_internal. rewrite Hb, Hnow, Hpath.
  eapply always_bind; [apply relative_shows|]. intros left Hleft.
  eapply always_bind; [apply relative_shows|]. intros right Hright.
  eapply always_bind; [apply right_oid_spec|]. intros right_oid Hright_oid. apply always_ret.
  fold (mode_after w f). fold (contents w (now f)) in Hright_oid.
  change (blob_bytes w (now f) (mode_after w f)) with (after w f). cbn [fmap option_fmap option_map].
  change (if decide (oid b = ZERO_OID) then None else Some (content b)) with (baseline_bytes b).
  unfold section_of. destruct (decide (before f = after w f)) as [Heq|Hne].
  { unfold diff_text. destruct Hsnap as (_ & Hbytes & _). fold (before f) in Hbytes.
    by rewrite Hbytes, decide_True. }
  exists left, right, (oid b), right_oid. split_and!; [done|done| |done|by apply diff_text_section].
  destruct Hsnap as (_ & Hbytes & Hmode). fold (before f) in Hbytes. rewrite <-Hbytes.
  unfold baseline_bytes. case_decide as Hz; [done|]. cbn. apply Hmode.
  unfold before in Hbytes. destruct (path_exists _ _); [done|]. unfold baseline_bytes in Hbytes.
  by rewrite decide_False in Hbytes.
Qed.

Lemma sort_keys_names w t l : always (λ keys, keys.*2 = l) (sort_keys w t l).
Proof.
  induction l as [|i l IH]; [by apply always_ret|]. cbn [TurnDiff.sort_keys].
  eapply always_bind; [apply always_true|]. intros key _. eapply always_bind; [apply IH|].
  intros keys <-. by apply always_ret.
Qed.

Lemma aggregate_sections w t l : (∀ i f, (i, f) ∈ l → tracks_file t i f) → ∀ text,
  always (λ s, ∃ sections, Forall2 (section_of w) l.*2 sections ∧ s = foldl append_section text sections)
    (aggregate w t l.*1 text).
Proof.
  induction l as [|[i f] l IH]; intros Hl text; cbn [fmap list_fmap TurnDiff.aggregate].
  { apply always_ret. by exists []. }
  eapply always_bind; [apply file_diff_section, Hl; left|]. intros diff Hdiff cache.
  destruct (IH (λ j g Hin, Hl j g (list_elem_of_further _ _ _ Hin)) (append_section text diff) cache)
    as (sections & Hs & Heq).
  exists (diff :: sections). split; [by constructor|]. exact Heq.
Qed.

Lemma mem_trim c s : c ∈ s → is_whitespace c = false → c ∈ trim s.
Proof.
  intros Hin Hc. unfold trim.
  assert (∀ s, c ∈ s → c ∈ trim_start s) as Hstart.
  { intros u. induction u as [|d u IH]; [done|]. cbn. destruct (is_whitespace d) eqn:E; [|done].
    intros [->|]%elem_of_cons; [congruence|auto]. }
  assert (∀ s, c ∈ s → c ∈ trim_end s) as Hend.
  { intros u. induction u as [|d u IH]; [done|]. cbn. intros [->|Hu%IH]%elem_of_cons.
    - destruct (trim_end u); [rewrite Hc|]; left.
    - destruct (trim_end u); [by apply not_elem_of_nil in Hu|by right]. }
  auto.
Qed.

Lemma mem_sections c text sections s :
  s ∈ text :: sections → c ∈ s → c ∈ foldl append_section text sections.
Proof.
  revert s text; induction sections as [|s' sections IH]; intros s text; cbn [foldl].
  { by intros ->%list_elem_of_singleton. }
  assert (∀ u, c ∈ u → u = text ∨ u = s' → c ∈ append_section text s') as Happ.
  { unfold append_section. intros u Hu Hor. destruct (ends_with_newline _); set_solver. }
  rewrite !elem_of_cons. intros [->|[->|Hin]] Hc; [..|by apply (IH s); [right|]];
    (apply (IH (append_section text s')); [left|eauto]).
Qed.

Lemma empty_sections sections : Forall (λ s, s = []) sections → trim (foldl append_section [] sections) = [].
Proof.
  intros Hs. assert (∀ text, text = [] ∨ text = [NL] → trim (foldl append_section text sections) = []) as Hgen; [|auto].
  induction Hs as [|s sections -> _ IH]; intros text Ht; cbn [foldl]; [by destruct Ht as [->| ->]|].
  apply IH. by destruct Ht as [->| ->]; right.
Qed.

End Refinement.

(** ** How a patch is reported *)
Record ExecToolCallOutput : Type := { exit_code : Z; stdout_text : str; stderr_text : str }.

Inductive ToolEventFailure : Type :=
  | FailureOutput (output : ExecToolCallOutput)
  | FailureMessage (message : str)
  | FailureRejected (message : str).

Inductive ToolEventStage : Type :=
  | Begin
  | Success (output : ExecToolCallOutput)
  | Failure (failure : ToolEventFailure).

Inductive PatchApplyStatus : Type := PatchCompleted | PatchFailed | PatchDeclined.

Inductive PatchEvent : Type :=
  | PatchApplyBegin (auto_approved : bool) (changes : list (Path * FileChange))
  | PatchApplyEnd (stdout stderr : str) (success : bool) (changes : list (Path * FileChange))
      (status : PatchApplyStatus)
  | TurnDiffEvent (unified_diff : str).

Section Emitter.
Context {W : Type} `{Disk W} {Other : Type}.
Context (sha1 : list byte → str) (line_diff : str → str → str → str → str) (display : Path → str).
Context (new_v4 : gset str → str) (map_order : list str → list str).
(** The output as the model gets it, the output of a time out, and [{:?}]. *)
Context (format_exec_output_for_model : ExecToolCallOutput → str).
Context (timeout_output : Other → option ExecToolCallOutput) (debug : Other → str).

#[local] Abbreviation ToolError := (@ToolError ExecToolCallOutput Other).

(** The emitter of a patch: its changes and whether it was approved unasked. *)
Record PatchEmitter : Type := { emitted_changes : list (Path * FileChange); emitted_auto_approved : bool }.

Definition emit_patch_end (w : W) (tracker : option TurnDiffTracker) (changes : list (Path * FileChange))
    (stdout stderr : str) (success : bool) (status : PatchApplyStatus) :
    list PatchEvent * option TurnDiffTracker :=
  let finished := PatchApplyEnd stdout stderr success changes status in
  match tracker with
  | Some t =>
      let '(unified_diff, cache) :=
        get_unified_diff sha1 line_diff display map_order w t (git_root_cache t) in
      (finished :: option_list (TurnDiffEvent <$> unified_diff),
       Some {| external_to_temp_name := external_to_temp_name t; baseline_file_info := baseline_file_info t;
               temp_name_to_current_path := temp_name_to_current_path t; git_root_cache := cache |})
  | None => ([finished], None)
  end.

Definition emit (w : W) (self : PatchEmitter) (stage : ToolEventStage) (tracker : option TurnDiffTracker) :
    list PatchEvent * option TurnDiffTracker :=
  let changes := emitted_changes self in
  match stage with
  | Begin =>
      ([PatchApplyBegin (emitted_auto_approved self) changes],
       on_patch_begin sha1 new_v4 w changes <$> tracker)
  | Success output | Failure (FailureOutput output) =>
      emit_patch_end w tracker changes (stdout_text output) (stderr_text output)
        (exit_code output =? 0)%Z (if (exit_code output =? 0)%Z then PatchCompleted else PatchFailed)
  | Failure (FailureMessage message) => emit_patch_end w tracker changes [] message false PatchFailed
  | Failure (FailureRejected message) => emit_patch_end w tracker changes [] message false PatchDeclined
  end.

(** The stage and the answer to the model. *)
Definition finish_stage (out : ExecToolCallOutput + ToolError) :
    ToolEventStage * outcome FunctionCallError str :=
  match out with
  | inl output =>
      let content := format_exec_output_for_model output in
      (Success output, if (exit_code output =? 0)%Z then Ok content else Err (RespondToModel content))
  | inr (SandboxDenied output _) =>
      (Failure (FailureOutput output), Err (RespondToModel (format_exec_output_for_model output)))
  | inr (CodexOther err) =>
      match timeout_output err with
      | Some output =>
          (Failure (FailureOutput output), Err (RespondToModel (format_exec_output_for_model output)))
      | None =>
          let message := lit "execution error: " ++ debug err in
          (Failure (FailureMessage message), Err (RespondToModel message))
      end
  | inr (Rejected msg) =>
      let normalized := if decide (msg = lit "rejected by user") then lit "patch rejected by user" else msg in
      (Failure (FailureRejected normalized), Err (RespondToModel normalized))
  end.

Definition finish (w : W) (self : PatchEmitter) (out : ExecToolCallOutput + ToolError)
    (tracker : option TurnDiffTracker) :
    outcome FunctionCallError str * list PatchEvent * option TurnDiffTracker :=
  let '(stage, result) := finish_stage out in
  let '(events, tracker) := emit w self stage tracker in
  (result, events, tracker).

(** What is reported of a finished patch: one end with its changes, and after
    it the diff of the turn, if there is one.  It is declined when the run was
    rejected, completed when an output has exit code zero, failed otherwise;
    the model is given the content only for a completed one. *)
Theorem patch_reports w self out tracker :
  let '(result, events, tracker') := finish w self out tracker in
  ∃ stdout stderr success status diff,
    events = PatchApplyEnd stdout stderr success (emitted_changes self) status :: option_list (TurnDiffEvent <$> diff) ∧
    (diff ≠ None → is_Some tracker) ∧
    (success = true ↔ status = PatchCompleted) ∧
    (status = PatchDeclined ↔ ∃ msg, out = inr (Rejected msg)) ∧
    ((∃ content, result = Ok content) ↔ ∃ output, out = inl output ∧ exit_code output = 0%Z) ∧
    ((∃ content, result = Ok content) → status = PatchCompleted) ∧
    (∀ t t', tracker = Some t → tracker' = Some t' →
       baseline_file_info t' = baseline_file_info t ∧ temp_name_to_current_path t' = temp_name_to_current_path t).
Proof.
  assert (∀ stdout stderr success status, ∃ diff tracker',
    emit_patch_end w tracker (emitted_changes self) stdout stderr success status =
      (PatchApplyEnd stdout stderr success (emitted_changes self) status :: option_list (TurnDiffEvent <$> diff), tracker') ∧
    (diff ≠ None → is_Some tracker) ∧
    (∀ t t', tracker = Some t → tracker' = Some t' →
       baseline_file_info t' = baseline_file_info t ∧ temp_name_to_current_path t' = temp_name_to_current_path t)) as Hend.
  { intros. unfold emit_patch_end. destruct tracker as [t|]; [|by exists None, None].
    destruct (get_unified_diff _ _ _ _ w t _) as [diff cache]. exists diff. eexists.
    split; [reflexivity|]. split; [eauto|]. by intros ? ? [= <-] [= <-]. }
  unfold finish, finish_stage, emit.
  destruct out as [output|[msg|output d|err]]; [| | |destruct (timeout_output err) as [output|]]; cbn -[decide];
    match goal with |- context [emit_patch_end w tracker _ ?a ?b ?c ?d] =>
      destruct (Hend a b c d) as (diff & tracker' & -> & Hdiff & Ht) end;
    eexists _, _, _, _, diff; (split; [reflexivity|]); (split; [done|]).
  1: destruct (Z.eqb_spec (exit_code output) 0).
  4: destruct (Z.eqb_spec (exit_code output) 0).
  6: destruct (Z.eqb_spec (exit_code output) 0).
  all: split_and!; naive_solver.
Qed.
End Emitter.

(** ** Applications, on a disk without repositories *)
#[export] Instance plain_disk : Disk (gmap Path (list byte)) := {
  path_exists w p := bool_decide (is_Some (w !! p));
  symlink_metadata w p := (λ _, {| is_symlink := false; permission_bits := 420 |}) <$> w !! p;
  read_link _ _ := None;
  read_bytes w p := w !! p;
  is_dir _ _ := false;
  is_file w p := bool_decide (is_Some (w !! p));
  git_hash_object _ _ _ := None;
}.

Definition show_component (c : Component) : str :=
  match c with RootDir => [] | CurDir => lit "." | ParentDir => lit ".." | Normal s => s end.
Definition show_path (p : Path) : str := RustStr.join [SLASH] (show_component <$> p).

Definition some_hash (data : list byte) : str := lit "abc".
Definition headers_only (l r old_header new_header : str) : str :=
  lit "--- " ++ old_header ++ [NL] ++ lit "+++ " ++ new_header ++ [NL].
Definition new_name (X : gset str) : str := fresh X.

#[local] Abbreviation disk := (gmap Path (list byte)).
#[local] Abbreviation begin w changes t := (on_patch_begin some_hash new_name w changes t).
#[local] Abbreviation diff_of w t :=
  ((get_unified_diff some_hash headers_only show_path id w t (git_root_cache t)).1).

Definition file_a : Path := path_of_str (lit "/ws/a").
Definition file_b : Path := path_of_str (lit "/ws/b").
Definition text (s : string) : list byte := encode (lit s).


(** *** Where the diff misleads *)

(** The tracker follows a move before the patch has been approved: when the
    user declines it, the diff of the turn reports that the file, which nobody
    has touched, is deleted. *)
Definition moved_a : PatchEmitter :=
  {| emitted_changes := [(file_a, ChangeUpdate [] (Some file_b))]; emitted_auto_approved := false |}.

Definition no_output (o : ExecToolCallOutput) : str := stdout_text o.

Example declined_move_shown_as_deletion :
  let w : disk := {[ file_a := text "old"%string ]} in
  let '(_, tracker) := emit some_hash headers_only show_path new_name id w moved_a Begin (Some tracker_new) in
  let '(_, events, _) :=
    finish (Other:=unit) some_hash headers_only show_path new_name id no_output (λ _, None) (λ _, []) w moved_a
      (inr (Rejected (lit "rejected by user"))) tracker in
  events =
    [PatchApplyEnd [] (lit "patch rejected by user") false (emitted_changes moved_a) PatchDeclined;
     TurnDiffEvent (lit "diff --git a//ws/a b//ws/b" ++ [NL] ++ lit "deleted file mode 100644" ++ [NL]
       ++ lit "index abc..0000000000000000000000000000000000000000" ++ [NL]
       ++ lit "--- a//ws/a" ++ [NL] ++ lit "+++ /dev/null" ++ [NL])].
Proof. by vm_compute. Qed.

(** No snapshot is taken of the destination of a move: a file that a move
    overwrites is lost without a trace in the diff. *)
Example overwritten_file_not_in_diff :
  let before : disk := <[file_b := text "precious"%string]> {[ file_a := text "old"%string ]} in
  let after : disk := {[ file_b := text "old"%string ]} in
  diff_of after (begin before [(file_a, ChangeUpdate [] (Some file_b))] tracker_new) = None.
Proof. by vm_compute. Qed.

(** A diff that becomes empty is not announced: after a patch that adds a file
    and one that deletes it again, the last diff sent still has the file. *)
Definition added_a : PatchEmitter :=
  {| emitted_changes := [(file_a, ChangeAdd (lit "x"))]; emitted_auto_approved := true |}.
Definition deleted_a : PatchEmitter :=
  {| emitted_changes := [(file_a, ChangeDelete (lit "x"))]; emitted_auto_approved := true |}.

Example empty_diff_not_announced :
  let emit := emit some_hash headers_only show_path new_name id in
  let done := Success {| exit_code := 0; stdout_text := []; stderr_text := [] |} in
  let empty : disk := ∅ in
  let with_a : disk := {[ file_a := text "x"%string ]} in
  let '(_, t) := emit empty added_a Begin (Some tracker_new) in
  let '(first, t) := emit with_a added_a done t in
  let '(_, t) := emit with_a deleted_a Begin t in
  let '(second, _) := emit empty deleted_a done t in
  length first = 2 ∧ second = [PatchApplyEnd [] [] true (emitted_changes deleted_a) PatchCompleted].
Proof. by vm_compute. Qed.

(** The cache of roots answers with a root that contains the path, not with the
    nearest one: a repository inside another is not found once the outer one
    has been. *)
#[local] Instance nested_disk : Disk unit := {
  path_exists _ _ := true;
  symlink_metadata _ _ := None;
  read_link _ _ := None;
  read_bytes _ _ := None;
  is_dir _ p := bool_decide (p = path_of_str (lit "/ws/.git")) || bool_decide (p = path_of_str (lit "/ws/inner/.git"));
  is_file _ _ := false;
  git_hash_object _ _ _ := None;
}.

Example cached_root_hides_inner_repository :
  let inner := path_of_str (lit "/ws/inner/f") in
  let '(_, cache) := find_git_root_cached tt file_a [] in
  (find_git_root_cached tt inner []).1 = Some (path_of_str (lit "/ws/inner")) ∧
  (find_git_root_cached tt inner cache).1 = Some (path_of_str (lit "/ws")).
Proof. by vm_compute. Qed.
