(* ===== verification/ThreadHistory.v ===== *)
(** * The turns of a thread: [app-server-protocol/src/protocol/thread_history.rs]

    The turns a client is shown, built from the events of a session as they
    arrive or from its rollout: which turn an item belongs to, how items are
    replaced, how turns end and are rolled back.  Payloads that are only handed
    on are types of their own; [shlex] and fresh turn ids are parameters. *)
From Stdlib Require Import DecimalString DecimalPos DecimalN.
From stdpp Require Import base tactics option list numbers strings gmap.
From S2P Require Import Prelude RustStr Models History Paths Sandboxing TurnDiff.
From stdpp Require Import list.

(** ** Data of the protocol *)
Inductive TurnStatus : Type := TurnCompleted | TurnInterrupted | TurnFailed | TurnInProgress.
#[export] Instance TurnStatus_eq_dec : EqDecision TurnStatus.
Proof. solve_decision. Defined.

(** The statuses of commands and of patches, and those of the other calls. *)
Inductive ItemStatus : Type := ItemInProgress | ItemCompleted | ItemFailed | ItemDeclined.
Inductive ToolStatus : Type := ToolInProgress | ToolCompleted | ToolFailed.

Inductive ExecCommandStatus : Type := ExecCompleted | ExecFailed | ExecDeclined.

Definition exec_status_of (status : ExecCommandStatus) : ItemStatus :=
  match status with ExecCompleted => ItemCompleted | ExecFailed => ItemFailed | ExecDeclined => ItemDeclined end.
Definition patch_status_of (status : PatchApplyStatus) : ItemStatus :=
  match status with PatchCompleted => ItemCompleted | PatchFailed => ItemFailed | PatchDeclined => ItemDeclined end.

Inductive AgentStatus : Type :=
  | AgentPendingInit
  | AgentRunning
  | AgentCompleted (message : option str)
  | AgentErrored (message : str)
  | AgentShutdown
  | AgentNotFound.

Inductive CollabAgentStatus : Type :=
  CollabPendingInit | CollabRunning | CollabCompleted | CollabErrored | CollabShutdown | CollabNotFound.

Record CollabAgentState : Type := { collab_status : CollabAgentStatus; collab_message : option str }.

Definition collab_agent_state (value : AgentStatus) : CollabAgentState :=
  match value with
  | AgentPendingInit => {| collab_status := CollabPendingInit; collab_message := None |}
  | AgentRunning => {| collab_status := CollabRunning; collab_message := None |}
  | AgentCompleted message => {| collab_status := CollabCompleted; collab_message := message |}
  | AgentErrored message => {| collab_status := CollabErrored; collab_message := Some message |}
  | AgentShutdown => {| collab_status := CollabShutdown; collab_message := None |}
  | AgentNotFound => {| collab_status := CollabNotFound; collab_message := None |}
  end.

Inductive CollabAgentTool : Type := SpawnAgent | SendInput | ResumeAgent | WaitAgent | CloseAgent.

Inductive PatchChangeKind : Type := KindAdd | KindDelete | KindUpdate (move_path : option Path).

Record FileUpdateChange : Type := { change_path : str; change_kind : PatchChangeKind; change_diff : str }.

Inductive ContentItem : Type := ContentText (text : str) | ContentImage (image_url : str).

Inductive CodexErrorInfo : Type :=
  | ContextWindowExceeded
  | UsageLimitExceeded
  | ServerOverloaded
  | HttpConnectionFailed (http_status_code : option Z)
  | ResponseStreamConnectionFailed (http_status_code : option Z)
  | InternalServerError
  | Unauthorized
  | BadRequest
  | SandboxError
  | ResponseStreamDisconnected (http_status_code : option Z)
  | ResponseTooManyFailedAttempts (http_status_code : option Z)
  | ThreadRollbackFailed
  | OtherError.

Definition info_affects_turn_status (info : CodexErrorInfo) : bool :=
  match info with ThreadRollbackFailed => false | _ => true end.

Definition affects_turn_status (info : option CodexErrorInfo) : bool :=
  match info with Some info => info_affects_turn_status info | None => true end.

Record TurnError : Type := {
  error_message : str;
  codex_error_info : option CodexErrorInfo;
  additional_details : option str;
}.

Inductive TurnAbortReason : Type := AbortInterrupted | AbortReplaced | AbortReviewEnded.

Section ThreadHistory.
(** Payloads that are handed on, their conversions included. *)
Context {TextElement MessagePhase CommandAction WebSearchAction Json ReasoningEffort : Type}.

Inductive UserInput : Type :=
  | UserText (text : str) (text_elements : list TextElement)
  | UserImage (url : str)
  | UserLocalImage (path : Path).

Inductive ThreadItem : Type :=
  | UserMessage (id : str) (content : list UserInput)
  | AgentMessage (id text : str) (phase : option MessagePhase)
  | Plan (id text : str)
  | Reasoning (id : str) (summary content : list str)
  | CommandExecution (id command : str) (cwd : Path) (process_id : option str) (status : ItemStatus)
      (command_actions : list CommandAction) (aggregated_output : option str) (exit_code : option Z)
      (duration_ms : option Z)
  | FileChangeItem (id : str) (changes : list FileUpdateChange) (status : ItemStatus)
  | McpToolCall (id server tool : str) (status : ToolStatus) (arguments : Json)
      (result : option (list Json * option Json)) (error : option str) (duration_ms : option Z)
  | DynamicToolCall (id tool : str) (arguments : Json) (status : ToolStatus)
      (content_items : option (list ContentItem)) (success : option bool) (duration_ms : option Z)
  | CollabAgentToolCall (id : str) (tool : CollabAgentTool) (status : ToolStatus) (sender_thread_id : str)
      (receiver_thread_ids : list str) (prompt model : option str) (reasoning_effort : option ReasoningEffort)
      (agents_states : gmap str CollabAgentState)
  | WebSearch (id query : str) (action : option WebSearchAction)
  | ImageView (id path : str)
  | ImageGeneration (id status : str) (revised_prompt : option str) (result : str)
  | EnteredReviewMode (id review : str)
  | ExitedReviewMode (id review : str)
  | ContextCompaction (id : str).

Definition item_id (i : ThreadItem) : str :=
  match i with
  | UserMessage id _ | AgentMessage id _ _ | Plan id _ | Reasoning id _ _
  | CommandExecution id _ _ _ _ _ _ _ _ | FileChangeItem id _ _ | McpToolCall id _ _ _ _ _ _ _
  | DynamicToolCall id _ _ _ _ _ _ | CollabAgentToolCall id _ _ _ _ _ _ _ _ | WebSearch id _ _
  | ImageView id _ | ImageGeneration id _ _ _ | EnteredReviewMode id _ | ExitedReviewMode id _
  | ContextCompaction id => id
  end.

Record Turn : Type := {
  turn_id : str;
  turn_items : list ThreadItem;
  turn_status : TurnStatus;
  turn_error : option TurnError;
}.

(** Items of the core other than plans are not looked at. *)
Inductive TurnItem : Type := PlanItem (id text : str) | OtherTurnItem.

(** The events the builder looks at, with the fields it reads; a duration is
    its milliseconds. *)
Inductive EventMsg : Type :=
  | EvUserMessage (message : str) (images : option (list str)) (local_images : list Path)
      (text_elements : list TextElement)
  | EvAgentMessage (message : str) (phase : option MessagePhase)
  | EvAgentReasoning (text : str)
  | EvAgentReasoningRawContent (text : str)
  | EvWebSearchBegin (call_id : str)
  | EvWebSearchEnd (call_id query : str) (action : WebSearchAction)
  | EvExecCommandBegin (call_id turn : str) (command : list str) (cwd : Path) (process_id : option str)
      (parsed_cmd : list CommandAction)
  | EvExecCommandEnd (call_id turn : str) (command : list str) (cwd : Path) (process_id : option str)
      (parsed_cmd : list CommandAction) (status : ExecCommandStatus) (aggregated_output : str)
      (exit_code duration : Z)
  | EvApplyPatchApprovalRequest (call_id turn : str) (changes : list (Path * FileChange))
  | EvPatchApplyBegin (call_id turn : str) (changes : list (Path * FileChange))
  | EvPatchApplyEnd (call_id turn : str) (changes : list (Path * FileChange)) (status : PatchApplyStatus)
  | EvDynamicToolCallRequest (call_id turn tool : str) (arguments : Json)
  | EvDynamicToolCallResponse (call_id turn tool : str) (arguments : Json) (success : bool)
      (content_items : list ContentItem) (duration : Z)
  | EvMcpToolCallBegin (call_id server tool : str) (arguments : option Json)
  | EvMcpToolCallEnd (call_id server tool : str) (arguments : option Json)
      (result : str + (list Json * option Json * option bool)) (duration : Z)
  | EvViewImageToolCall (call_id : str) (path : Path)
  | EvImageGenerationBegin (call_id : str)
  | EvImageGenerationEnd (call_id status : str) (revised_prompt : option str) (result : str)
  | EvCollabAgentSpawnBegin (call_id sender prompt model : str) (effort : ReasoningEffort)
  | EvCollabAgentSpawnEnd (call_id sender : str) (new_thread_id : option str) (prompt model : str)
      (effort : ReasoningEffort) (status : AgentStatus)
  | EvCollabAgentInteractionBegin (call_id sender receiver prompt : str)
  | EvCollabAgentInteractionEnd (call_id sender receiver prompt : str) (status : AgentStatus)
  | EvCollabWaitingBegin (call_id sender : str) (receivers : list str)
  | EvCollabWaitingEnd (call_id sender : str) (statuses : list (str * AgentStatus))
  | EvCollabCloseBegin (call_id sender receiver : str)
  | EvCollabCloseEnd (call_id sender receiver : str) (status : AgentStatus)
  | EvCollabResumeBegin (call_id sender receiver : str)
  | EvCollabResumeEnd (call_id sender receiver : str) (status : AgentStatus)
  | EvContextCompacted
  | EvEnteredReviewMode (user_facing_hint : option str)
  | EvExitedReviewMode (overall_explanation : option str)
  | EvItemStarted (turn : str) (item : TurnItem)
  | EvItemCompleted (turn : str) (item : TurnItem)
  | EvError (message : str) (codex_error_info : option CodexErrorInfo)
  | EvThreadRolledBack (num_turns : nat)
  | EvTurnAborted (turn : option str) (reason : TurnAbortReason)
  | EvTurnStarted (turn : str)
  | EvTurnComplete (turn : str) (last_agent_message : option str)
  | EvShutdownComplete
  | EvIgnored.

Inductive RolloutItem : Type := EventItem (event : EventMsg) | CompactedItem | IgnoredItem.

(** ** Conversions *)
Context (shlex_try_join : list str → option str) (display : Path → str).

(** [i64::try_from] of a number of milliseconds. *)
Definition to_i64 (z : Z) : option Z := if (z <=? i64_max)%Z then Some z else None.

Definition join_command (command : list str) : str :=
  match shlex_try_join command with Some s => s | None => RustStr.join [32%N] command end.

Definition map_patch_change_kind (change : FileChange) : PatchChangeKind :=
  match change with
  | ChangeAdd _ => KindAdd
  | ChangeDelete _ => KindDelete
  | ChangeUpdate _ move_path => KindUpdate move_path
  end.

Definition format_file_change_diff (change : FileChange) : str :=
  match change with
  | ChangeAdd content => content
  | ChangeDelete content => content
  | ChangeUpdate unified_diff move_path =>
      match move_path with
      | Some path => unified_diff ++ [NL; NL] ++ lit "Moved to: " ++ display path
      | None => unified_diff
      end
  end.

Definition convert_patch_changes (changes : list (Path * FileChange)) : list FileUpdateChange :=
  (sort_by_key ((λ change : Path * FileChange,
     (display change.1,
      {| change_path := display change.1; change_kind := map_patch_change_kind change.2;
         change_diff := format_file_change_diff change.2 |})) <$> changes)).*2.

Definition REVIEW_FALLBACK_MESSAGE : str := lit "Reviewer failed to output a response.".

Definition render_review_output_text (overall_explanation : str) : str :=
  let explanation := trim overall_explanation in
  if decide (explanation = []) then REVIEW_FALLBACK_MESSAGE else explanation.

Definition build_user_inputs (message : str) (images : option (list str)) (local_images : list Path)
    (text_elements : list TextElement) : list UserInput :=
  (if decide (trim message = []) then [] else [UserText message text_elements])
  ++ (UserImage <$> default [] images) ++ (UserLocalImage <$> local_images).

(** ** The builder *)
Record PendingTurn : Type := {
  pending_id : str;
  pending_items : list ThreadItem;
  pending_error : option TurnError;
  pending_status : TurnStatus;
  opened_explicitly : bool;
  saw_compaction : bool;
}.

(** [next_item_index] counts items: it does not reach [i64::MAX]. *)
Record ThreadHistoryBuilder : Type := {
  turns : list Turn;
  current_turn : option PendingTurn;
  next_item_index : nat;
}.

Definition builder_new : ThreadHistoryBuilder := {| turns := []; current_turn := None; next_item_index := 1 |}.

Definition turn_of_pending (value : PendingTurn) : Turn :=
  {| turn_id := pending_id value; turn_items := pending_items value; turn_status := pending_status value;
     turn_error := pending_error value |}.

Definition with_items (f : list ThreadItem → list ThreadItem) (t : PendingTurn) : PendingTurn :=
  {| pending_id := pending_id t; pending_items := f (pending_items t); pending_error := pending_error t;
     pending_status := pending_status t; opened_explicitly := opened_explicitly t;
     saw_compaction := saw_compaction t |}.

Definition with_status (f : TurnStatus → TurnStatus) (t : PendingTurn) : PendingTurn :=
  {| pending_id := pending_id t; pending_items := pending_items t; pending_error := pending_error t;
     pending_status := f (pending_status t); opened_explicitly := opened_explicitly t;
     saw_compaction := saw_compaction t |}.

Definition turn_with_items (f : list ThreadItem → list ThreadItem) (t : Turn) : Turn :=
  {| turn_id := turn_id t; turn_items := f (turn_items t); turn_status := turn_status t;
     turn_error := turn_error t |}.

Definition turn_with_status (f : TurnStatus → TurnStatus) (t : Turn) : Turn :=
  {| turn_id := turn_id t; turn_items := turn_items t; turn_status := f (turn_status t);
     turn_error := turn_error t |}.

Definition set_current (t : option PendingTurn) (b : ThreadHistoryBuilder) : ThreadHistoryBuilder :=
  {| turns := turns b; current_turn := t; next_item_index := next_item_index b |}.

Definition set_turns (ts : list Turn) (b : ThreadHistoryBuilder) : ThreadHistoryBuilder :=
  {| turns := ts; current_turn := current_turn b; next_item_index := next_item_index b |}.

(** [Uuid::now_v7]: an id other than those of the turns there are. *)
Context (now_v7 : list str → str).

Definition turn_ids (b : ThreadHistoryBuilder) : list str :=
  (turn_id <$> turns b) ++ option_list (pending_id <$> current_turn b).

Definition new_turn (id : option str) (b : ThreadHistoryBuilder) : PendingTurn :=
  {| pending_id := match id with Some id => id | None => now_v7 (turn_ids b) end;
     pending_items := []; pending_error := None; pending_status := TurnCompleted;
     opened_explicitly := false; saw_compaction := false |}.

Definition is_nil {A} (l : list A) : bool := match l with [] => true | _ => false end.

Definition finish_current_turn (b : ThreadHistoryBuilder) : ThreadHistoryBuilder :=
  match current_turn b with
  | Some turn =>
      if is_nil (pending_items turn) && negb (opened_explicitly turn) && negb (saw_compaction turn)
      then set_current None b
      else set_current None (set_turns (turns b ++ [turn_of_pending turn]) b)
  | None => b
  end.

Definition finish (b : ThreadHistoryBuilder) : list Turn := turns (finish_current_turn b).

Definition active_turn_snapshot (b : ThreadHistoryBuilder) : option Turn :=
  match current_turn b with
  | Some turn => Some (turn_of_pending turn)
  | None => last (turns b)
  end.

Definition has_active_turn (b : ThreadHistoryBuilder) : bool :=
  match current_turn b with Some _ => true | None => false end.

Definition ensure_turn (b : ThreadHistoryBuilder) : PendingTurn :=
  match current_turn b with Some turn => turn | None => new_turn None b end.

(** Replaces the first item with the id, or adds the item. *)
Fixpoint upsert_turn_item (item : ThreadItem) (items : list ThreadItem) : list ThreadItem :=
  match items with
  | [] => [item]
  | existing :: items =>
      if decide (item_id existing = item_id item) then item :: items
      else existing :: upsert_turn_item item items
  end.

(** [Iterator::find] with a mutation. *)
Fixpoint update_first {A} (p : A → bool) (f : A → A) (l : list A) : option (list A) :=
  match l with
  | [] => None
  | x :: l => if p x then Some (f x :: l) else cons x <$> update_first p f l
  end.

Definition has_turn_id (id : str) (t : Turn) : bool := bool_decide (turn_id t = id).
Definition has_pending_id (id : str) (t : PendingTurn) : bool := bool_decide (pending_id t = id).

Definition upsert_item_in_turn_id (id : str) (item : ThreadItem) (b : ThreadHistoryBuilder) : ThreadHistoryBuilder :=
  let in_turns :=
    match update_first (has_turn_id id) (turn_with_items (upsert_turn_item item)) (turns b) with
    | Some ts => set_turns ts b
    | None => b
    end in
  match current_turn b with
  | Some turn =>
      if has_pending_id id turn then set_current (Some (with_items (upsert_turn_item item) turn)) b
      else in_turns
  | None => in_turns
  end.

Definition upsert_item_in_current_turn (item : ThreadItem) (b : ThreadHistoryBuilder) : ThreadHistoryBuilder :=
  set_current (Some (with_items (upsert_turn_item item) (ensure_turn b))) b.

(** Turn-scoped items of events without a turn go to the current one. *)
Definition upsert_item (id : str) (item : ThreadItem) (b : ThreadHistoryBuilder) : ThreadHistoryBuilder :=
  if decide (id = []) then upsert_item_in_current_turn item b else upsert_item_in_turn_id id item b.

Definition item_name (n : nat) : str := lit "item-" ++ show_nat n.

(** [next_item_id], then the item pushed to the turn. *)
Definition push_item (item : str → ThreadItem) (turn : PendingTurn) (b : ThreadHistoryBuilder) : ThreadHistoryBuilder :=
  {| turns := turns b;
     current_turn := Some (with_items (λ items, items ++ [item (item_name (next_item_index b))]) turn);
     next_item_index := S (next_item_index b) |}.

(** ** Handlers *)
Definition handle_user_message (message : str) (images : option (list str)) (local_images : list Path)
    (text_elements : list TextElement) (b : ThreadHistoryBuilder) : ThreadHistoryBuilder :=
  let b := match current_turn b with
           | Some turn =>
               if negb (opened_explicitly turn) && negb (saw_compaction turn && is_nil (pending_items turn))
               then finish_current_turn b else b
           | None => b
           end in
  push_item (λ id, UserMessage id (build_user_inputs message images local_images text_elements)) (ensure_turn b) b.

Definition handle_agent_message (text : str) (phase : option MessagePhase) (b : ThreadHistoryBuilder) :=
  if is_nil text then b else push_item (λ id, AgentMessage id text phase) (ensure_turn b) b.

(** The last item, when it is a reasoning item, is added to. *)
Definition extend_reasoning (f : list str → list str → list str * list str) (items : list ThreadItem) :
    option (list ThreadItem) :=
  match reverse items with
  | Reasoning id summary content :: before =>
      let '(summary, content) := f summary content in Some (reverse before ++ [Reasoning id summary content])
  | _ => None
  end.

Definition add_reasoning (f : list str → list str → list str * list str) (b : ThreadHistoryBuilder) :=
  let turn := ensure_turn b in
  match extend_reasoning f (pending_items turn) with
  | Some items => set_current (Some (with_items (λ _, items) turn)) b
  | None => push_item (λ id, let '(summary, content) := f [] [] in Reasoning id summary content) turn b
  end.

Definition handle_agent_reasoning (text : str) (b : ThreadHistoryBuilder) :=
  if is_nil text then b else add_reasoning (λ summary content, (summary ++ [text], content)) b.

Definition handle_agent_reasoning_raw_content (text : str) (b : ThreadHistoryBuilder) :=
  if is_nil text then b else add_reasoning (λ summary content, (summary, content ++ [text])) b.

Definition handle_turn_item (id : str) (item : TurnItem) (b : ThreadHistoryBuilder) :=
  match item with
  | PlanItem plan_id text => if is_nil text then b else upsert_item_in_turn_id id (Plan plan_id text) b
  | OtherTurnItem => b
  end.

Definition handle_exec_command_end (call_id turn : str) (command : list str) (cwd : Path)
    (process_id : option str) (parsed_cmd : list CommandAction) (status : ExecCommandStatus)
    (aggregated_output : str) (exit_code duration : Z) (b : ThreadHistoryBuilder) :=
  upsert_item_in_turn_id turn
    (CommandExecution call_id (join_command command) cwd process_id (exec_status_of status) parsed_cmd
       (if is_nil aggregated_output then None else Some aggregated_output) (Some exit_code)
       (Some (default i64_max (to_i64 duration)))) b.

Definition handle_mcp_tool_call_end (null : Json) (call_id server tool : str) (arguments : option Json)
    (result : str + (list Json * option Json * option bool)) (duration : Z) (b : ThreadHistoryBuilder) :=
  let is_success := match result with inr (_, is_error) => negb (default false is_error) | inl _ => false end in
  upsert_item_in_current_turn
    (McpToolCall call_id server tool (if is_success then ToolCompleted else ToolFailed)
       (default null arguments)
       (match result with inr (content, structured, _) => Some (content, structured) | inl _ => None end)
       (match result with inl message => Some message | inr _ => None end) (to_i64 duration)) b.

Definition agent_failed (status : AgentStatus) : bool :=
  match status with AgentErrored _ | AgentNotFound => true | _ => false end.

Definition handle_collab_agent_spawn_end (call_id sender : str) (new_thread_id : option str)
    (prompt model : str) (effort : ReasoningEffort) (status : AgentStatus) (b : ThreadHistoryBuilder) :=
  let call_status :=
    if agent_failed status then ToolFailed
    else match new_thread_id with Some _ => ToolCompleted | None => ToolFailed end in
  let '(receivers, states) :=
    match new_thread_id with
    | Some id => ([id], {[ id := collab_agent_state status ]})
    | None => ([], ∅)
    end in
  upsert_item_in_current_turn
    (CollabAgentToolCall call_id SpawnAgent call_status sender receivers (Some prompt) (Some model)
       (Some effort) states) b.

(** The ends of the calls that name one receiver. *)
Definition handle_collab_end (tool : CollabAgentTool) (prompt : option str) (call_id sender receiver : str)
    (status : AgentStatus) (b : ThreadHistoryBuilder) :=
  upsert_item_in_current_turn
    (CollabAgentToolCall call_id tool (if agent_failed status then ToolFailed else ToolCompleted) sender
       [receiver] prompt None None {[ receiver := collab_agent_state status ]}) b.

Definition handle_collab_waiting_end (call_id sender : str) (statuses : list (str * AgentStatus))
    (b : ThreadHistoryBuilder) :=
  upsert_item_in_current_turn
    (CollabAgentToolCall call_id WaitAgent
       (if existsb (λ s, agent_failed s.2) statuses then ToolFailed else ToolCompleted) sender
       (sort_by_key ((λ s : str * AgentStatus, (s.1, s.1)) <$> statuses)).*2 None None None
       (list_to_map (prod_map id collab_agent_state <$> statuses))) b.

Definition handle_collab_begin (tool : CollabAgentTool) (receivers : list str) (prompt model : option str)
    (effort : option ReasoningEffort) (call_id sender : str) (b : ThreadHistoryBuilder) :=
  upsert_item_in_current_turn
    (CollabAgentToolCall call_id tool ToolInProgress sender receivers prompt model effort ∅) b.

Definition handle_error (message : str) (info : option CodexErrorInfo) (b : ThreadHistoryBuilder) :=
  if negb (affects_turn_status info) then b
  else match current_turn b with
       | None => b
       | Some turn =>
           set_current (Some {| pending_id := pending_id turn; pending_items := pending_items turn;
             pending_error := Some {| error_message := message; codex_error_info := info; additional_details := None |};
             pending_status := TurnFailed; opened_explicitly := opened_explicitly turn;
             saw_compaction := saw_compaction turn |}) b
       end.

Definition interrupt (status : TurnStatus) : TurnStatus := TurnInterrupted.

Definition interrupt_current (b : ThreadHistoryBuilder) : ThreadHistoryBuilder :=
  set_current (with_status interrupt <$> current_turn b) b.

Definition handle_turn_aborted (id : option str) (b : ThreadHistoryBuilder) :=
  match id with
  | None => interrupt_current b
  | Some id =>
      if match current_turn b with Some turn => has_pending_id id turn | None => false end
      then interrupt_current b
      else match update_first (has_turn_id id) (turn_with_status interrupt) (turns b) with
           | Some ts => set_turns ts b
           | None => interrupt_current b
           end
  end.

Definition handle_turn_started (id : str) (b : ThreadHistoryBuilder) :=
  let b := finish_current_turn b in
  set_current (Some {| pending_id := id; pending_items := []; pending_error := None;
                       pending_status := TurnInProgress; opened_explicitly := true; saw_compaction := false |}) b.

Definition mark_completed (status : TurnStatus) : TurnStatus :=
  match status with TurnCompleted | TurnInProgress => TurnCompleted | _ => status end.

Definition complete_current (b : ThreadHistoryBuilder) : ThreadHistoryBuilder :=
  finish_current_turn (set_current (with_status mark_completed <$> current_turn b) b).

Definition handle_turn_complete (id : str) (b : ThreadHistoryBuilder) :=
  if match current_turn b with Some turn => has_pending_id id turn | None => false end
  then complete_current b
  else match update_first (has_turn_id id) (turn_with_status mark_completed) (turns b) with
       | Some ts => set_turns ts b
       | None => match current_turn b with Some _ => complete_current b | None => b end
       end.

Definition handle_compacted (b : ThreadHistoryBuilder) :=
  let turn := ensure_turn b in
  set_current (Some {| pending_id := pending_id turn; pending_items := pending_items turn;
    pending_error := pending_error turn; pending_status := pending_status turn;
    opened_explicitly := opened_explicitly turn; saw_compaction := true |}) b.

Definition handle_thread_rollback (num_turns : nat) (b : ThreadHistoryBuilder) :=
  let b := finish_current_turn b in
  let ts := if length (turns b) <=? num_turns then [] else take (length (turns b) - num_turns) (turns b) in
  {| turns := ts; current_turn := current_turn b;
     next_item_index := sum_list (length ∘ turn_items <$> ts) + 1 |}.

(** ** The other handlers; [null] is JSON's. *)
Context (null : Json).

Definition handle_web_search_begin (call_id : str) := upsert_item_in_current_turn (WebSearch call_id [] None).
Definition handle_web_search_end (call_id query : str) (action : WebSearchAction) :=
  upsert_item_in_current_turn (WebSearch call_id query (Some action)).
Definition handle_exec_command_begin (call_id turn : str) (command : list str) (cwd : Path)
    (process_id : option str) (parsed_cmd : list CommandAction) :=
  upsert_item_in_turn_id turn
    (CommandExecution call_id (join_command command) cwd process_id ItemInProgress parsed_cmd None None None).
Definition handle_apply_patch_approval_request (call_id turn : str) (changes : list (Path * FileChange)) :=
  upsert_item turn (FileChangeItem call_id (convert_patch_changes changes) ItemInProgress).
Definition handle_patch_apply_begin (call_id turn : str) (changes : list (Path * FileChange)) :=
  upsert_item turn (FileChangeItem call_id (convert_patch_changes changes) ItemInProgress).
Definition handle_patch_apply_end (call_id turn : str) (changes : list (Path * FileChange))
    (status : PatchApplyStatus) :=
  upsert_item turn (FileChangeItem call_id (convert_patch_changes changes) (patch_status_of status)).
Definition handle_dynamic_tool_call_request (call_id turn tool : str) (arguments : Json) :=
  upsert_item turn (DynamicToolCall call_id tool arguments ToolInProgress None None None).
Definition handle_dynamic_tool_call_response (call_id turn tool : str) (arguments : Json) (success : bool)
    (content_items : list ContentItem) (duration : Z) :=
  upsert_item turn
    (DynamicToolCall call_id tool arguments (if success then ToolCompleted else ToolFailed)
       (Some content_items) (Some success) (to_i64 duration)).
Definition handle_mcp_tool_call_begin (call_id server tool : str) (arguments : option Json) :=
  upsert_item_in_current_turn
    (McpToolCall call_id server tool ToolInProgress (default null arguments) None None None).
Definition handle_view_image_tool_call (call_id : str) (path : Path) :=
  upsert_item_in_current_turn (ImageView call_id (display path)).
Definition handle_image_generation_begin (call_id : str) :=
  upsert_item_in_current_turn (ImageGeneration call_id [] None []).
Definition handle_image_generation_end (call_id status : str) (revised_prompt : option str) (result : str) :=
  upsert_item_in_current_turn (ImageGeneration call_id status revised_prompt result).
Definition handle_collab_agent_spawn_begin (call_id sender prompt model : str) (effort : ReasoningEffort) :=
  handle_collab_begin SpawnAgent [] (Some prompt) (Some model) (Some effort) call_id sender.
Definition handle_collab_agent_interaction_begin (call_id sender receiver prompt : str) :=
  handle_collab_begin SendInput [receiver] (Some prompt) None None call_id sender.
Definition handle_collab_agent_interaction_end (call_id sender receiver prompt : str) (status : AgentStatus) :=
  handle_collab_end SendInput (Some prompt) call_id sender receiver status.
Definition handle_collab_waiting_begin (call_id sender : str) (receivers : list str) :=
  handle_collab_begin WaitAgent receivers None None None call_id sender.
Definition handle_collab_close_begin (call_id sender receiver : str) :=
  handle_collab_begin CloseAgent [receiver] None None None call_id sender.
Definition handle_collab_close_end (call_id sender receiver : str) (status : AgentStatus) :=
  handle_collab_end CloseAgent None call_id sender receiver status.
Definition handle_collab_resume_begin (call_id sender receiver : str) :=
  handle_collab_begin ResumeAgent [receiver] None None None call_id sender.
Definition handle_collab_resume_end (call_id sender receiver : str) (status : AgentStatus) :=
  handle_collab_end ResumeAgent None call_id sender receiver status.
Definition handle_context_compacted (b : ThreadHistoryBuilder) :=
  push_item (λ id, ContextCompaction id) (ensure_turn b) b.
Definition handle_entered_review_mode (user_facing_hint : option str) (b : ThreadHistoryBuilder) :=
  push_item (λ id, EnteredReviewMode id (default (lit "Review requested.") user_facing_hint)) (ensure_turn b) b.
Definition handle_exited_review_mode (overall_explanation : option str) (b : ThreadHistoryBuilder) :=
  let review := match overall_explanation with
                | Some text => render_review_output_text text
                | None => REVIEW_FALLBACK_MESSAGE
                end in
  push_item (λ id, ExitedReviewMode id review) (ensure_turn b) b.
Definition handle_item_started (turn : str) (item : TurnItem) := handle_turn_item turn item.
Definition handle_item_completed (turn : str) (item : TurnItem) := handle_turn_item turn item.

Definition handle_event (event : EventMsg) : ThreadHistoryBuilder → ThreadHistoryBuilder :=
  match event with
  | EvUserMessage message images local_images text_elements =>
      handle_user_message message images local_images text_elements
  | EvAgentMessage message phase => handle_agent_message message phase
  | EvAgentReasoning text => handle_agent_reasoning text
  | EvAgentReasoningRawContent text => handle_agent_reasoning_raw_content text
  | EvWebSearchBegin call_id => handle_web_search_begin call_id
  | EvWebSearchEnd call_id query action => handle_web_search_end call_id query action
  | EvExecCommandBegin call_id turn command cwd process_id parsed_cmd =>
      handle_exec_command_begin call_id turn command cwd process_id parsed_cmd
  | EvExecCommandEnd call_id turn command cwd process_id parsed_cmd status output exit_code duration =>
      handle_exec_command_end call_id turn command cwd process_id parsed_cmd status output exit_code duration
  | EvApplyPatchApprovalRequest call_id turn changes => handle_apply_patch_approval_request call_id turn changes
  | EvPatchApplyBegin call_id turn changes => handle_patch_apply_begin call_id turn changes
  | EvPatchApplyEnd call_id turn changes status => handle_patch_apply_end call_id turn changes status
  | EvDynamicToolCallRequest call_id turn tool arguments =>
      handle_dynamic_tool_call_request call_id turn tool arguments
  | EvDynamicToolCallResponse call_id turn tool arguments success content_items duration =>
      handle_dynamic_tool_call_response call_id turn tool arguments success content_items duration
  | EvMcpToolCallBegin call_id server tool arguments => handle_mcp_tool_call_begin call_id server tool arguments
  | EvMcpToolCallEnd call_id server tool arguments result duration =>
      handle_mcp_tool_call_end null call_id server tool arguments result duration
  | EvViewImageToolCall call_id path => handle_view_image_tool_call call_id path
  | EvImageGenerationBegin call_id => handle_image_generation_begin call_id
  | EvImageGenerationEnd call_id status revised_prompt result =>
      handle_image_generation_end call_id status revised_prompt result
  | EvCollabAgentSpawnBegin call_id sender prompt model effort =>
      handle_collab_agent_spawn_begin call_id sender prompt model effort
  | EvCollabAgentSpawnEnd call_id sender new_thread_id prompt model effort status =>
      handle_collab_agent_spawn_end call_id sender new_thread_id prompt model effort status
  | EvCollabAgentInteractionBegin call_id sender receiver prompt =>
      handle_collab_agent_interaction_begin call_id sender receiver prompt
  | EvCollabAgentInteractionEnd call_id sender receiver prompt status =>
      handle_collab_agent_interaction_end call_id sender receiver prompt status
  | EvCollabWaitingBegin call_id sender receivers => handle_collab_waiting_begin call_id sender receivers
  | EvCollabWaitingEnd call_id sender statuses => handle_collab_waiting_end call_id sender statuses
  | EvCollabCloseBegin call_id sender receiver => handle_collab_close_begin call_id sender receiver
  | EvCollabCloseEnd call_id sender receiver status => handle_collab_close_end call_id sender receiver status
  | EvCollabResumeBegin call_id sender receiver => handle_collab_resume_begin call_id sender receiver
  | EvCollabResumeEnd call_id sender receiver status => handle_collab_resume_end call_id sender receiver status
  | EvContextCompacted => handle_context_compacted
  | EvEnteredReviewMode user_facing_hint => handle_entered_review_mode user_facing_hint
  | EvExitedReviewMode overall_explanation => handle_exited_review_mode overall_explanation
  | EvItemStarted turn item => handle_item_started turn item
  | EvItemCompleted turn item => handle_item_completed turn item
  | EvError message info => handle_error message info
  | EvThreadRolledBack num_turns => handle_thread_rollback num_turns
  | EvTurnAborted turn _ => handle_turn_aborted turn
  | EvTurnStarted turn => handle_turn_started turn
  | EvTurnComplete turn _ => handle_turn_complete turn
  | EvShutdownComplete | EvIgnored => id
  end.

Definition handle_rollout_item (item : RolloutItem) (b : ThreadHistoryBuilder) : ThreadHistoryBuilder :=
  match item with
  | EventItem event => handle_event event b
  | CompactedItem => handle_compacted b
  | IgnoredItem => b
  end.

Definition replay (items : list RolloutItem) (b : ThreadHistoryBuilder) : ThreadHistoryBuilder :=
  foldl (λ b item, handle_rollout_item item b) b items.

Definition build_turns_from_rollout_items (items : list RolloutItem) : list Turn := finish (replay items builder_new).

(** ** [core/src/agent/status.rs] *)
Definition debug_abort_reason (reason : TurnAbortReason) : str :=
  match reason with
  | AbortInterrupted => lit "Interrupted"
  | AbortReplaced => lit "Replaced"
  | AbortReviewEnded => lit "ReviewEnded"
  end.

Definition agent_status_from_event (event : EventMsg) : option AgentStatus :=
  match event with
  | EvTurnStarted _ => Some AgentRunning
  | EvTurnComplete _ last_agent_message => Some (AgentCompleted last_agent_message)
  | EvTurnAborted _ reason => Some (AgentErrored (debug_abort_reason reason))
  | EvError message _ => Some (AgentErrored message)
  | EvShutdownComplete => Some AgentShutdown
  | _ => None
  end.

Definition is_final (status : AgentStatus) : bool :=
  match status with AgentPendingInit | AgentRunning => false | _ => true end.

(** ** The ids of items *)
Lemma lit_inj s t : lit s = lit t → s = t.
Proof.
  unfold lit. intros Heq%list_fmap_eq_inj.
  - by rewrite <- (String.string_of_list_ascii_of_string s), Heq, String.string_of_list_ascii_of_string.
  - intros a b Hab. by rewrite <- (Ascii.ascii_N_embedding a), Hab, Ascii.ascii_N_embedding.
Qed.

Lemma item_name_inj m n : item_name m = item_name n → m = n.
Proof.
  unfold item_name, show_nat, show_N. intros Heq%app_inv_head%lit_inj.
  apply (f_equal NilZero.uint_of_string) in Heq. assert (∀ k, N.to_uint k ≠ Decimal.Nil) as Hnil.
  { intros [|p]; [done|]. apply DecimalPos.Unsigned.to_uint_nonnil. }
  rewrite !NilZero.usu in Heq by done. injection Heq as Heq%DecimalN.Unsigned.to_uint_inj. lia.
Qed.

(** Every change of the items of a turn keeps the ids or adds one. *)
Definition item_ids (items : list ThreadItem) : list str := item_id <$> items.

Lemma upsert_ids item items :
  (item_ids (upsert_turn_item item items) = item_ids items ∧ item_id item ∈ item_ids items) ∨
  (item_ids (upsert_turn_item item items) = item_ids items ++ [item_id item] ∧ item_id item ∉ item_ids items).
Proof.
  unfold item_ids. induction items as [|i items IH]; [right; cbn; set_solver|]. cbn [upsert_turn_item].
  case_decide as Hi; cbn [fmap list_fmap]; [left; rewrite Hi; set_solver|].
  destruct IH as [[-> ?]|[-> ?]]; [left|right]; set_solver.
Qed.

Lemma extend_reasoning_ids f items items' :
  extend_reasoning f items = Some items' → item_ids items' = item_ids items.
Proof.
  unfold extend_reasoning. destruct (reverse items) as [|[] before] eqn:E; try done.
  destruct (f summary content). intros [= <-].
  assert (items = reverse before ++ [Reasoning id summary content]) as ->.
  { by rewrite <- (reverse_involutive items), E, reverse_cons. }
  unfold item_ids. by rewrite !fmap_app.
Qed.

(** The ids of the items turn by turn, those of the open turn last. *)
Definition pending_ids (t : option PendingTurn) : list str :=
  match t with Some t => item_ids (pending_items t) | None => [] end.

Definition groups (b : ThreadHistoryBuilder) : list (list str) :=
  ((item_ids ∘ turn_items) <$> turns b) ++ [pending_ids (current_turn b)].

(** Made-up ids are below the next index and different, and none is higher than
    the number of items up to it, which is what a rollback counts on. *)
Record numbered (ids : list str) (next : nat) : Prop := {
  numbered_position : ∀ k n, ids !! k = Some (item_name n) → n ≤ S k;
  numbered_next : next ≤ S (length ids);
  numbered_fresh : ∀ n, item_name n ∈ ids → n < next;
  numbered_distinct : ∀ k k' n, ids !! k = Some (item_name n) → ids !! k' = Some (item_name n) → k = k';
}.

Lemma numbered_push ids next : numbered ids next → numbered (ids ++ [item_name next]) (S next).
Proof.
  intros [Hp Hn Hf Hd].
  assert (∀ k n, (ids ++ [item_name next]) !! k = Some (item_name n) →
    ids !! k = Some (item_name n) ∧ n < next ∨ k = length ids ∧ n = next) as Hcase.
  { intros k n [Hk|[Hk Hx]]%lookup_app_Some; [left; split; [done|]; by eapply Hf, list_elem_of_lookup_2|].
    apply list_lookup_singleton_Some in Hx as [? Hx]. apply item_name_inj in Hx. right. split; [lia|done]. }
  split.
  - intros k n [[Hk _]|[-> ->]]%Hcase; [by apply Hp|lia].
  - rewrite length_app. cbn. lia.
  - intros n [k Hk]%list_elem_of_lookup. apply Hcase in Hk as [[_ ?]|[_ ->]]; lia.
  - intros k k' n [[Hk ?]|[-> ->]]%Hcase [[Hk' ?]|[-> ?]]%Hcase; [by eapply Hd|lia..].
Qed.

Lemma numbered_insert l1 x l2 next :
  numbered (l1 ++ l2) next → (∀ n, x ≠ item_name n) → numbered (l1 ++ x :: l2) next.
Proof.
  intros [Hp Hn Hf Hd] Hx.
  assert (∀ k n, (l1 ++ x :: l2) !! k = Some (item_name n) →
    (l1 ++ l2) !! (if decide (k < length l1) then k else pred k) = Some (item_name n) ∧ k ≠ length l1) as Hcase.
  { intros k n. destruct (decide (k < length l1)) as [Hk|Hk].
    - rewrite !lookup_app_l by done. intros ->. split; [done|lia].
    - rewrite lookup_app_r by lia. destruct (k - length l1) as [|j] eqn:E; cbn.
      + intros [= Heq]. by destruct (Hx n).
      + intros Hl. rewrite lookup_app_r by lia. replace (pred k - length l1) with j by lia. split; [done|lia]. }
  split.
  - intros k n [Hk ?]%Hcase. apply Hp in Hk. destruct (decide _); lia.
  - rewrite !length_app in *. cbn in *. lia.
  - intros n [k Hk]%list_elem_of_lookup. apply Hcase in Hk as [Hk _]. by eapply Hf, list_elem_of_lookup_2.
  - intros k k' n [Hk ?]%Hcase [Hk' ?]%Hcase. specialize (Hd _ _ _ Hk Hk').
    repeat destruct (decide _); lia.
Qed.

Lemma numbered_take l1 l2 next : numbered (l1 ++ l2) next → numbered l1 (S (length l1)).
Proof.
  intros [Hp Hn Hf Hd].
  assert (∀ k n, l1 !! k = Some (item_name n) → (l1 ++ l2) !! k = Some (item_name n)) as Hl
    by (intros; by apply lookup_app_l_Some).
  split; [by eauto|done| |by eauto].
  intros n [k Hk]%list_elem_of_lookup. pose proof (lookup_lt_Some _ _ _ Hk). specialize (Hp k n (Hl _ _ Hk)). lia.
Qed.

Record good (b : ThreadHistoryBuilder) : Prop := {
  good_numbered : numbered (mjoin (groups b)) (next_item_index b);
  good_nodup : Forall (@NoDup str) (groups b);
}.

Lemma good_new : good builder_new.
Proof.
  split; [|by apply Forall_singleton, NoDup_nil_2]. split; cbn; [done|lia| |done]. by intros n ?%not_elem_of_nil.
Qed.

Lemma good_same b b' :
  groups b' = groups b → next_item_index b' = next_item_index b → good b → good b'.
Proof. intros Hg Hn [??]. by split; rewrite Hg, ?Hn. Qed.

Lemma good_set_current t b : pending_ids t = pending_ids (current_turn b) → good b → good (set_current t b).
Proof. intros Ht. apply good_same; [|done]. unfold groups. cbn. by rewrite Ht. Qed.

Lemma good_finish b : good b → good (finish_current_turn b).
Proof.
  intros [Hn Hd]. unfold finish_current_turn. destruct (current_turn b) as [t|] eqn:E; [|done].
  assert (groups b = ((item_ids ∘ turn_items) <$> turns b) ++ [item_ids (pending_items t)]) as Hg.
  { unfold groups. by rewrite E. }
  destruct (is_nil (pending_items t)) eqn:Hnil; cbn [andb]; [destruct (_ && _)|].
  1: { apply (good_same b); [|done|by split]. rewrite Hg. by destruct (pending_items t). }
  all: split; unfold groups; cbn [turns current_turn set_current set_turns next_item_index pending_ids];
    rewrite fmap_app; cbn [fmap list_fmap];
    [|apply Forall_app; split; [by rewrite Hg in Hd|by apply Forall_singleton, NoDup_nil_2]];
    rewrite join_app; change (mjoin [[]]) with ([] : list str); rewrite app_nil_r; by rewrite Hg in Hn.
Qed.

Lemma good_push item t b :
  item_ids (pending_items t) = pending_ids (current_turn b) → (∀ id, item_id (item id) = id) →
  good b → good (push_item item t b).
Proof.
  intros Ht Hid [Hn Hd]. unfold groups in *. rewrite join_app in Hn. cbn [mjoin] in Hn.
  unfold push_item. split; unfold groups; cbn [turns current_turn pending_ids with_items pending_items next_item_index];
    unfold item_ids at 2; rewrite fmap_app; fold (item_ids (pending_items t)); rewrite Ht; cbn [fmap list_fmap];
    rewrite Hid.
  - rewrite join_app. cbn [mjoin list_join]. rewrite app_nil_r, (assoc_L (++)). apply numbered_push.
    cbn [list_join] in Hn. by rewrite app_nil_r in Hn.
  - apply Forall_app in Hd as [Hd1 Hd2]. apply Forall_app. split; [done|]. apply Forall_singleton.
    rewrite Forall_singleton in Hd2. apply NoDup_app. split; [exact Hd2|split; [|apply NoDup_singleton]].
    intros x Hx ->%list_elem_of_singleton. enough (next_item_index b < next_item_index b) by lia.
    apply (numbered_fresh _ _ Hn), elem_of_app. right. cbn. by rewrite app_nil_r.
Qed.

Definition foreign (id : str) : Prop := ∀ n, id ≠ item_name n.

Lemma good_grow b b' before g x after :
  groups b = before ++ g :: after → groups b' = before ++ (g ++ [x]) :: after →
  next_item_index b' = next_item_index b → foreign x → x ∉ g → good b → good b'.
Proof.
  intros Hg Hg' Hnext Hx Hin [Hn Hd]. split; rewrite Hg', ?Hnext.
  - rewrite Hg in Hn. rewrite join_app in *. cbn [mjoin list_join] in *.
    rewrite <- (assoc_L (++) g), (assoc_L (++)). cbn [app]. apply numbered_insert; [|done].
    by rewrite <- (assoc_L (++)).
  - rewrite Hg in Hd. apply Forall_app in Hd as [? [Hgd ?]%Forall_cons]. apply Forall_app. split; [done|].
    apply Forall_cons. split; [|done]. apply NoDup_app. split; [done|]. split; [|apply NoDup_singleton].
    by intros y Hy ->%list_elem_of_singleton.
Qed.

Lemma ensure_turn_ids b : item_ids (pending_items (ensure_turn b)) = pending_ids (current_turn b).
Proof. unfold ensure_turn. by destruct (current_turn b). Qed.

Lemma good_upsert_pending item t b :
  item_ids (pending_items t) = pending_ids (current_turn b) → foreign (item_id item) → good b →
  good (set_current (Some (with_items (upsert_turn_item item) t)) b).
Proof.
  intros Ht Hf Hgood. destruct (upsert_ids item (pending_items t)) as [[Hids _]|[Hids Hin]].
  - apply good_set_current; [|done]. cbn [pending_ids with_items pending_items]. by rewrite Hids.
  - rewrite Ht in Hin. eapply (good_grow b _ _ (pending_ids (current_turn b)) _ []); [done| |done|exact Hf|done|done].
    unfold groups. cbn [turns current_turn set_current pending_ids with_items pending_items].
    by rewrite Hids, Ht.
Qed.

Lemma update_first_Some {A} (p : A → bool) f l l' :
  update_first p f l = Some l' → ∃ l1 x l2, l = l1 ++ x :: l2 ∧ p x = true ∧ l' = l1 ++ f x :: l2.
Proof.
  revert l'; induction l as [|x l IH]; intros l'; cbn; [done|]. destruct (p x) eqn:E.
  - intros [= <-]. by exists [], x, l.
  - destruct (update_first p f l) as [k|]; [|done]. intros [= <-].
    destruct (IH k eq_refl) as (l1 & y & l2 & -> & ? & ->). by exists (x :: l1), y, l2.
Qed.

Lemma good_upsert_turn id item b : foreign (item_id item) → good b → good (upsert_item_in_turn_id id item b).
Proof.
  intros Hf Hgood. unfold upsert_item_in_turn_id.
  assert (good match update_first (has_turn_id id) (turn_with_items (upsert_turn_item item)) (turns b) with
               | Some ts => set_turns ts b | None => b end) as Hturns.
  { destruct (update_first _ _ _) as [ts|] eqn:E; [|done].
    apply update_first_Some in E as (l1 & t & l2 & Hl & _ & ->).
    assert (groups b = ((item_ids ∘ turn_items) <$> l1) ++ item_ids (turn_items t) ::
      ((item_ids ∘ turn_items) <$> l2) ++ [pending_ids (current_turn b)]) as Hg.
    { unfold groups. rewrite Hl, fmap_app. cbn. by rewrite <- (assoc_L (++)). }
    destruct (upsert_ids item (turn_items t)) as [[Hids _]|[Hids Hin]].
    - apply (good_same b); [|done..]. rewrite Hg. unfold groups. cbn [turns current_turn set_turns].
      rewrite fmap_app, fmap_cons, <- Hids. by rewrite <- (assoc_L (++)).
    - eapply good_grow; [exact Hg| |done|exact Hf|exact Hin|done]. unfold groups. cbn [turns current_turn set_turns].
      rewrite fmap_app, fmap_cons, <- Hids. by rewrite <- (assoc_L (++)). }
  destruct (current_turn b) as [t|] eqn:E; [|done]. destruct (has_pending_id id t); [|done].
  apply good_upsert_pending; [by rewrite E|done..].
Qed.

Lemma good_upsert_current item b : foreign (item_id item) → good b → good (upsert_item_in_current_turn item b).
Proof. intros. by apply good_upsert_pending; [apply ensure_turn_ids|..]. Qed.

Lemma good_upsert id item b : foreign (item_id item) → good b → good (upsert_item id item b).
Proof. intros. unfold upsert_item. case_decide; [by apply good_upsert_current|by apply good_upsert_turn]. Qed.

Lemma good_update_turns id f b :
  (∀ t, turn_items (f t) = turn_items t) → good b →
  good match update_first (has_turn_id id) f (turns b) with Some ts => set_turns ts b | None => b end.
Proof.
  intros Hf Hgood. destruct (update_first _ _ _) as [ts|] eqn:E; [|done].
  apply update_first_Some in E as (l1 & t & l2 & Hl & _ & ->). apply (good_same b); [|done..].
  unfold groups. cbn. rewrite Hl, !fmap_app. cbn. by rewrite Hf.
Qed.

Lemma sum_items (ts : list Turn) :
  sum_list (length ∘ turn_items <$> ts) = length (mjoin ((item_ids ∘ turn_items) <$> ts)).
Proof.
  induction ts as [|t ts IH]; [done|]. cbn [fmap list_fmap sum_list]. rewrite IH.
  cbn [mjoin list_join]. rewrite length_app. f_equal. symmetry. apply length_fmap.
Qed.

Lemma finish_no_current b : current_turn (finish_current_turn b) = None.
Proof. unfold finish_current_turn. destruct (current_turn b) eqn:E; [|done]. by destruct (_ && _). Qed.

Lemma good_rollback n b : good b → good (handle_thread_rollback n b).
Proof.
  intros [Hn Hd]%good_finish. unfold handle_thread_rollback.
  set (b1 := finish_current_turn b) in *. pose proof (finish_no_current b) as Hc. fold b1 in Hc.
  set (ts := if _ <=? _ then _ else _).
  assert (∃ rest, turns b1 = ts ++ rest) as [rest Hrest].
  { subst ts. destruct (_ <=? _); [by eexists|]. eexists. symmetry. apply take_drop. }
  unfold groups in *. rewrite Hc, Hrest, fmap_app in *. cbn [pending_ids] in *.
  split; unfold groups; cbn [turns current_turn next_item_index]; rewrite ?Hc; cbn [pending_ids].
  - rewrite sum_items, Nat.add_1_r. rewrite !join_app in *. cbn [mjoin list_join] in *. rewrite !app_nil_r in *.
    by eapply numbered_take.
  - apply Forall_app in Hd as [[? _]%Forall_app ?]. by apply Forall_app.
Qed.

Lemma add_reasoning_good f b : good b → good (add_reasoning f b).
Proof.
  intros Hgood. unfold add_reasoning. destruct (extend_reasoning f _) as [items|] eqn:E.
  - apply good_set_current; [|done]. cbn [pending_ids with_items pending_items].
    by rewrite (extend_reasoning_ids _ _ _ E), ensure_turn_ids.
  - apply good_push; [apply ensure_turn_ids| |done]. intros id. by destruct (f [] []).
Qed.

Lemma good_complete_current b : good b → good (complete_current b).
Proof. intros. apply good_finish, good_set_current; [|done]. by destruct (current_turn b). Qed.

Lemma good_interrupt_current b : good b → good (interrupt_current b).
Proof. intros. apply good_set_current; [|done]. by destruct (current_turn b). Qed.

(** The id an event brings along, of a call or of a plan. *)
Definition event_item_id (event : EventMsg) : option str :=
  match event with
  | EvWebSearchBegin id | EvWebSearchEnd id _ _ | EvExecCommandBegin id _ _ _ _ _
  | EvExecCommandEnd id _ _ _ _ _ _ _ _ _ | EvApplyPatchApprovalRequest id _ _ | EvPatchApplyBegin id _ _
  | EvPatchApplyEnd id _ _ _ | EvDynamicToolCallRequest id _ _ _ | EvDynamicToolCallResponse id _ _ _ _ _ _
  | EvMcpToolCallBegin id _ _ _ | EvMcpToolCallEnd id _ _ _ _ _ | EvViewImageToolCall id _
  | EvImageGenerationBegin id | EvImageGenerationEnd id _ _ _ | EvCollabAgentSpawnBegin id _ _ _ _
  | EvCollabAgentSpawnEnd id _ _ _ _ _ _ | EvCollabAgentInteractionBegin id _ _ _
  | EvCollabAgentInteractionEnd id _ _ _ _ | EvCollabWaitingBegin id _ _ | EvCollabWaitingEnd id _ _
  | EvCollabCloseBegin id _ _ | EvCollabCloseEnd id _ _ _ | EvCollabResumeBegin id _ _
  | EvCollabResumeEnd id _ _ _ | EvItemStarted _ (PlanItem id _) | EvItemCompleted _ (PlanItem id _) => Some id
  | _ => None
  end.

Definition brings_foreign_id (item : RolloutItem) : Prop :=
  match item with
  | EventItem event => match event_item_id event with Some id => foreign id | None => True end
  | _ => True
  end.

Lemma good_event event b : brings_foreign_id (EventItem event) → good b → good (handle_event event b).
Proof.
  intros Hf Hgood. unfold brings_foreign_id in Hf.
  destruct event; cbn [handle_event event_item_id] in *;
    try (by apply good_upsert_current); try (by apply good_upsert); try (by apply good_upsert_turn);
    try (by apply good_rollback); try done;
    try (unfold handle_agent_reasoning, handle_agent_reasoning_raw_content;
         destruct (is_nil text); [done|by apply add_reasoning_good]);
    try (by apply good_push; [apply ensure_turn_ids|..]).
  - apply good_push; [apply ensure_turn_ids|done|]. destruct (current_turn b) as [t|]; [|done].
    destruct (_ && _); [by apply good_finish|done].
  - unfold handle_agent_message. destruct (is_nil message); [done|].
    by apply good_push; [apply ensure_turn_ids|..].
  - unfold handle_collab_agent_spawn_end. destruct new_thread_id; by apply good_upsert_current.
  - destruct item; [|done]. cbn. destruct (is_nil text); [done|by apply good_upsert_turn].
  - destruct item; [|done]. cbn. destruct (is_nil text); [done|by apply good_upsert_turn].
  - unfold handle_error. destruct (negb _); [done|]. destruct (current_turn b) as [t|] eqn:E; [|done].
    apply good_set_current; [by rewrite E|done].
  - unfold handle_turn_aborted. destruct turn as [id|]; [|by apply good_interrupt_current].
    destruct (match current_turn b with Some _ => _ | None => _ end); [by apply good_interrupt_current|].
    pose proof (good_update_turns id (turn_with_status interrupt) b (λ _, eq_refl) Hgood) as Hu.
    destruct (update_first _ _ _); [done|by apply good_interrupt_current].
  - unfold handle_turn_started. apply good_set_current; [by rewrite finish_no_current|by apply good_finish].
  - unfold handle_turn_complete.
    destruct (match current_turn b with Some _ => _ | None => _ end); [by apply good_complete_current|].
    pose proof (good_update_turns turn (turn_with_status mark_completed) b (λ _, eq_refl) Hgood) as Hu.
    destruct (update_first _ _ _); [done|]. destruct (current_turn b); [by apply good_complete_current|done].
Qed.

Lemma good_replay items b : Forall brings_foreign_id items → good b → good (replay items b).
Proof.
  intros Hf. revert b. induction Hf as [|item items Hi _ IH]; intros b Hgood; [done|]. apply IH.
  destruct item as [event| |]; cbn [handle_rollout_item]; [by apply good_event| |done].
  apply good_set_current; [apply ensure_turn_ids|done].
Qed.

(** C31: whatever the rollout, with turns that are rolled back and items that come
    late, the items of a turn have different ids, and no id made up by the
    builder is used twice in the thread, as long as the ids of calls and plans
    do not look like made-up ones. *)
Theorem item_ids_distinct items :
  Forall brings_foreign_id items →
  let ts := build_turns_from_rollout_items items in
  (∀ t, t ∈ ts → NoDup (item_ids (turn_items t))) ∧
  (∀ k k' n, mjoin ((item_ids ∘ turn_items) <$> ts) !! k = Some (item_name n) →
     mjoin ((item_ids ∘ turn_items) <$> ts) !! k' = Some (item_name n) → k = k').
Proof.
  intros Hf. destruct (good_finish _ (good_replay items _ Hf good_new)) as [Hn Hd].
  unfold build_turns_from_rollout_items, finish. unfold groups in *. rewrite finish_no_current in *.
  rewrite join_app in Hn. cbn [mjoin list_join pending_ids] in Hn. rewrite app_nil_r in Hn. split.
  - intros t Ht. apply Forall_app in Hd as [Hd _]. rewrite Forall_forall in Hd. apply Hd, list_elem_of_fmap. by exists t.
  - intros k k' n. apply (numbered_distinct _ _ Hn).
Qed.

(** ** Turns and messages *)

(** A rollback takes the last turns off those that would be shown. *)
Theorem rollback_drops_turns b n :
  finish (handle_event (EvThreadRolledBack n) b) = take (length (finish b) - n) (finish b).
Proof.
  cbn [handle_event]. unfold handle_thread_rollback, finish.
  set (b1 := finish_current_turn b). pose proof (finish_no_current b) as Hc. fold b1 in Hc.
  unfold finish_current_turn at 1. cbn [current_turn]. rewrite Hc. cbn [turns].
  destruct (Nat.leb_spec (length (turns b1)) n); [|done].
  by replace (length (turns b1) - n) with 0 by lia.
Qed.

(** What was said, by the user or by the agent. *)
Definition message_of (item : ThreadItem) : option (list UserInput + str) :=
  match item with
  | UserMessage _ content => Some (inl content)
  | AgentMessage _ text _ => Some (inr text)
  | _ => None
  end.

Definition messages (items : list ThreadItem) : list (list UserInput + str) := omap message_of items.

Definition event_messages (item : RolloutItem) : list (list UserInput + str) :=
  match item with
  | EventItem (EvUserMessage message images local_images text_elements) =>
      [inl (build_user_inputs message images local_images text_elements)]
  | EventItem (EvAgentMessage message _) => if is_nil message then [] else [inr message]
  | _ => []
  end.

Definition event_fails (item : RolloutItem) : bool :=
  match item with EventItem (EvError _ info) => affects_turn_status info | _ => false end.

(** Everything but the start and the end of turns and rollbacks. *)
Definition within_turn (item : RolloutItem) : bool :=
  match item with
  | EventItem (EvTurnStarted _ | EvTurnComplete _ _ | EvTurnAborted _ _ | EvThreadRolledBack _) => false
  | _ => true
  end.

Definition summary (t : Turn) : str * TurnStatus * list (list UserInput + str) :=
  (turn_id t, turn_status t, messages (turn_items t)).

Definition message_ids (items : list ThreadItem) : Prop :=
  ∀ i, i ∈ items → message_of i ≠ None → ∃ n, item_id i = item_name n.

Definition message_ids_in (b : ThreadHistoryBuilder) : Prop :=
  (∀ t, t ∈ turns b → message_ids (turn_items t)) ∧
  (∀ t, current_turn b = Some t → message_ids (pending_items t)).

(** The open turn goes on: what is said is added to it, an error fails it, and
    the turns before stay as they are. *)
Definition goes_on (said : list (list UserInput + str)) (failed : bool) (b b' : ThreadHistoryBuilder) : Prop :=
  message_ids_in b → ∀ t, current_turn b = Some t → opened_explicitly t = true →
  ∃ t', current_turn b' = Some t' ∧ opened_explicitly t' = true ∧ pending_id t' = pending_id t ∧
    pending_status t' = (if failed then TurnFailed else pending_status t) ∧
    messages (pending_items t') = messages (pending_items t) ++ said ∧
    summary <$> turns b' = summary <$> turns b ∧ message_ids_in b'.

Lemma goes_on_same b : goes_on [] false b b.
Proof. intros Hm t Ht Ho. exists t. by rewrite app_nil_r. Qed.

(** A change of the items of the open turn only. *)
Lemma goes_on_items said (f : list ThreadItem → list ThreadItem) b b' :
  turns b' = turns b → current_turn b' = with_items f <$> current_turn b →
  (∀ items, message_ids items → messages (f items) = messages items ++ said ∧ message_ids (f items)) →
  goes_on said false b b'.
Proof.
  intros Hturns Hcur Hf [Hm1 Hm2] t Ht Ho. rewrite Ht in Hcur. exists (with_items f t).
  destruct (Hf _ (Hm2 _ Ht)) as [Hsaid Hids]. rewrite Hturns. split_and!; [done..|].
  split; [by rewrite Hturns|]. rewrite Hcur. by intros ? [= <-].
Qed.

Lemma upsert_messages item items :
  message_ids items → foreign (item_id item) → message_of item = None →
  messages (upsert_turn_item item items) = messages items ∧ message_ids (upsert_turn_item item items).
Proof.
  intros Hm Hf Hi. induction items as [|i items IH]; cbn [upsert_turn_item].
  { unfold messages. cbn. rewrite Hi. split; [done|]. intros j ->%list_elem_of_singleton. by rewrite Hi. }
  destruct IH as [IH1 IH2]; [by intros j Hj; apply Hm; right|]. case_decide as Heq.
  - assert (message_of i = None) as Hnone.
    { destruct (message_of i) eqn:E; [|done]. destruct (Hm i (list_elem_of_here _ _)) as [n Hn]; [by rewrite E|].
      rewrite Heq in Hn. by destruct (Hf n). }
    unfold messages. cbn. rewrite Hi, Hnone. split; [done|]. intros j [->|Hj]%elem_of_cons; [by rewrite Hi|].
    by apply Hm; right.
  - split; [unfold messages in *; cbn; by rewrite IH1|]. intros j [->|Hj]%elem_of_cons; [apply Hm; left|by apply IH2].
Qed.

Lemma goes_on_upsert_current item b :
  foreign (item_id item) → message_of item = None → goes_on [] false b (upsert_item_in_current_turn item b).
Proof.
  intros Hf Hi Hm t Ht Ho.
  eapply (goes_on_items [] (upsert_turn_item item)); [done| | |done..].
  - unfold upsert_item_in_current_turn, ensure_turn. by rewrite Ht.
  - intros items Hids. rewrite app_nil_r. by apply upsert_messages.
Qed.

Lemma goes_on_upsert_turn id item b :
  foreign (item_id item) → message_of item = None → goes_on [] false b (upsert_item_in_turn_id id item b).
Proof.
  intros Hf Hi Hm t Ht Ho. unfold upsert_item_in_turn_id. rewrite Ht. destruct (has_pending_id id t).
  - eapply (goes_on_items [] (upsert_turn_item item)); [done| | |done..]; [by rewrite Ht|].
    intros items Hids. rewrite app_nil_r. by apply upsert_messages.
  - destruct (update_first _ _ _) as [ts|] eqn:E; [|by apply (goes_on_same b)].
    apply update_first_Some in E as (l1 & u & l2 & Hl & _ & ->). exists t. rewrite app_nil_r.
    destruct Hm as [Hm1 Hm2]. destruct (upsert_messages item (turn_items u)) as [Hu1 Hu2]; [|done..|].
    { apply Hm1. rewrite Hl. set_solver. }
    split_and!; try done.
    + cbn [turns set_turns]. rewrite Hl, !fmap_app, !fmap_cons. unfold summary at 2 5. cbn [turn_id turn_status turn_items turn_with_items]. by rewrite Hu1.
    + split; [|exact Hm2]. cbn [turns set_turns]. intros v Hv.
      apply elem_of_app in Hv as [Hv|[->|Hv]%elem_of_cons]; [..|]; [apply Hm1|done|apply Hm1]; rewrite Hl; set_solver.
Qed.

Lemma goes_on_upsert id item b :
  foreign (item_id item) → message_of item = None → goes_on [] false b (upsert_item id item b).
Proof.
  intros. unfold upsert_item. case_decide; [by apply goes_on_upsert_current|by apply goes_on_upsert_turn].
Qed.

Lemma goes_on_push item b :
  (∀ id, item_id (item id) = id) →
  goes_on (option_list (message_of (item (item_name (next_item_index b))))) false b (push_item item (ensure_turn b) b).
Proof.
  intros Hid Hm t Ht Ho.
  eapply (goes_on_items _ (λ items, items ++ [item (item_name (next_item_index b))])); [done| | |done..].
  - cbn [current_turn push_item]. unfold ensure_turn. by rewrite Ht.
  - intros items Hids. unfold messages. rewrite omap_app. split; [by destruct (message_of _) eqn:E; cbn; rewrite E|].
    intros i [Hi| ->%list_elem_of_singleton]%elem_of_app; [by apply Hids|]. rewrite Hid. eauto.
Qed.

Lemma goes_on_reasoning f b : goes_on [] false b (add_reasoning f b).
Proof.
  unfold add_reasoning. destruct (extend_reasoning f (pending_items (ensure_turn b))) as [items|] eqn:E.
  - intros Hm t Ht Ho. assert (ensure_turn b = t) as Hens by (unfold ensure_turn; by rewrite Ht). rewrite Hens in *.
    unfold extend_reasoning in E. destruct (reverse (pending_items t)) as [|[] before] eqn:Hr; try done.
    destruct (f summary0 content) as [summary' content']. injection E as <-.
    assert (pending_items t = reverse before ++ [Reasoning id summary0 content]) as Hp.
    { by rewrite <- (reverse_involutive (pending_items t)), Hr, reverse_cons. }
    destruct Hm as [Hm1 Hm2]. eexists. split; [reflexivity|]. cbn. rewrite Hp. unfold messages. rewrite !omap_app.
    cbn. rewrite !app_nil_r. split_and!; try done. split; [done|]. cbn. intros ? [= <-]. cbn.
    intros i Hi. pose proof (Hm2 _ Ht i) as Hok. rewrite Hp in Hok.
    apply elem_of_app in Hi as [Hi| ->%list_elem_of_singleton]; [apply Hok; set_solver|done].
  - intros Hm t Ht Ho. pose proof (goes_on_push (λ id, let '(summary, content) := f [] [] in Reasoning id summary content) b) as Hp.
    destruct (f [] []). by apply Hp.
Qed.

Lemma goes_on_event item b :
  within_turn item = true → brings_foreign_id item →
  goes_on (event_messages item) (event_fails item) b (handle_rollout_item item b).
Proof.
  intros Hw Hf. destruct item as [event| |]; [| |apply goes_on_same].
  2: { intros Hm t Ht Ho. unfold handle_rollout_item, handle_compacted, ensure_turn. rewrite Ht. eexists.
       split; [reflexivity|]. cbn. rewrite app_nil_r. destruct Hm as [Hm1 Hm2]. split_and!; try done.
       split; [done|]. intros ? [= <-]. exact (Hm2 _ Ht). }
  unfold brings_foreign_id in Hf.
  destruct event; try discriminate Hw; cbn [handle_rollout_item handle_event event_item_id event_messages event_fails] in *;
    try (by apply goes_on_upsert_current); try (by apply goes_on_upsert); try (by apply goes_on_upsert_turn);
    try (apply goes_on_same); try (by apply goes_on_push);
    try (unfold handle_agent_reasoning, handle_agent_reasoning_raw_content;
         destruct (is_nil text); [apply goes_on_same|apply goes_on_reasoning]).
  - intros Hm t Ht Ho. unfold handle_user_message. rewrite Ht, Ho. cbn [negb andb].
    by apply (goes_on_push (λ id, UserMessage id (build_user_inputs message images local_images text_elements)) b).
  - unfold handle_agent_message. destruct (is_nil message); [apply goes_on_same|].
    by apply (goes_on_push (λ id, AgentMessage id message phase) b).
  - unfold handle_collab_agent_spawn_end. destruct new_thread_id; by apply goes_on_upsert_current.
  - destruct item; [|apply goes_on_same]. cbn. destruct (is_nil text); [apply goes_on_same|by apply goes_on_upsert_turn].
  - destruct item; [|apply goes_on_same]. cbn. destruct (is_nil text); [apply goes_on_same|by apply goes_on_upsert_turn].
  - unfold handle_error. destruct (affects_turn_status codex_error_info0); [|apply goes_on_same].
    intros [Hm1 Hm2] t Ht Ho. cbn [negb]. rewrite Ht. eexists. split; [reflexivity|]. cbn. rewrite app_nil_r.
    split_and!; try done. split; [done|]. intros ? [= <-]. exact (Hm2 _ Ht).
Qed.

Lemma goes_on_replay body b :
  Forall (λ item, within_turn item = true ∧ brings_foreign_id item) body →
  goes_on (body ≫= event_messages) (existsb event_fails body) b (replay body b).
Proof.
  intros Hf. revert b. induction Hf as [|item body [Hw Hi] _ IH]; intros b; [apply goes_on_same|].
  intros Hm t Ht Ho. change (replay (item :: body) b) with (replay body (handle_rollout_item item b)).
  destruct (goes_on_event item b Hw Hi Hm t Ht Ho) as (t1 & Ht1 & Ho1 & Hid1 & Hs1 & Hg1 & Hsum1 & Hm1).
  destruct (IH _ Hm1 t1 Ht1 Ho1) as (t2 & Ht2 & Ho2 & Hid2 & Hs2 & Hg2 & Hsum2 & Hm2).
  exists t2. rewrite Hid2, Hg2, Hg1, Hsum2, Hs2, Hs1. split_and!; try done.
  - cbn [existsb]. by destruct (event_fails item), (existsb event_fails body).
  - by rewrite bind_cons, (assoc_L (++)).
Qed.

(** What may come while no turn runs: lines that are no events, and the events
    of calls and of plans that name their turn. *)
Definition between_turns (item : RolloutItem) : bool :=
  match item with
  | IgnoredItem => true
  | EventItem (EvExecCommandBegin _ _ _ _ _ _ | EvExecCommandEnd _ _ _ _ _ _ _ _ _ _ | EvItemStarted _ _
               | EvItemCompleted _ _ | EvIgnored | EvShutdownComplete) => true
  | EventItem (EvApplyPatchApprovalRequest _ turn _ | EvPatchApplyBegin _ turn _ | EvPatchApplyEnd _ turn _ _
               | EvDynamicToolCallRequest _ turn _ _ | EvDynamicToolCallResponse _ turn _ _ _ _ _) =>
      negb (is_nil turn)
  | _ => false
  end.

(** A turn as the core logs it: its start, what happens in it, which may
    include the ends of calls of earlier turns, its end, and what comes before
    the next one starts. *)
Record LoggedTurn : Type := {
  log_id : str;
  log_body : list RolloutItem;
  log_end : TurnAbortReason + option str;
  log_after : list RolloutItem;
}.

Definition log_items (t : LoggedTurn) : list RolloutItem :=
  EventItem (EvTurnStarted (log_id t)) :: log_body t ++
  [EventItem (match log_end t with
              | inl reason => EvTurnAborted (Some (log_id t)) reason
              | inr message => EvTurnComplete (log_id t) message
              end)] ++ log_after t.

Definition log_summary (t : LoggedTurn) : str * TurnStatus * list (list UserInput + str) :=
  (log_id t,
   match log_end t with
   | inl _ => TurnInterrupted
   | inr _ => if existsb event_fails (log_body t) then TurnFailed else TurnCompleted
   end,
   log_body t ≫= event_messages).

(** Between turns: what would be shown, and nothing that would be dropped. *)
Definition shows_turns (b : ThreadHistoryBuilder) (done : list (str * TurnStatus * list (list UserInput + str))) : Prop :=
  summary <$> finish b = done ∧ (∀ t, current_turn b = Some t → opened_explicitly t = true) ∧ message_ids_in b.

Lemma message_ids_finish b : message_ids_in b → message_ids_in (finish_current_turn b).
Proof.
  intros [H1 H2]. unfold finish_current_turn. destruct (current_turn b) as [t|] eqn:E; [|by split; rewrite ?E].
  destruct (_ && _); (split; [|done]); [done|]. cbn. intros u [Hu| ->%list_elem_of_singleton]%elem_of_app; [by apply H1|].
  by apply H2.
Qed.

Lemma finish_explicit b t :
  current_turn b = Some t → opened_explicitly t = true → finish b = turns b ++ [turn_of_pending t].
Proof. intros Ht Ho. unfold finish, finish_current_turn. by rewrite Ht, Ho, andb_false_r. Qed.

Lemma finish_none b : current_turn b = None → finish b = turns b.
Proof. intros Ht. unfold finish, finish_current_turn. by rewrite Ht. Qed.

(** An item that names its turn changes no summary. *)
Lemma shows_upsert_turn id item b done :
  foreign (item_id item) → message_of item = None → shows_turns b done →
  shows_turns (upsert_item_in_turn_id id item b) done.
Proof.
  intros Hf Hi (Hdone & Hopen & Hm). unfold shows_turns. destruct (current_turn b) as [t|] eqn:Ht.
  - pose proof (Hopen t eq_refl) as Ho.
    destruct (goes_on_upsert_turn id item b Hf Hi Hm t Ht Ho) as (t' & Ht' & Ho' & Hid & Hs & Hg & Hsum & Hm').
    rewrite app_nil_r in Hg. split_and!; [|intros u Hu; congruence|done].
    rewrite (finish_explicit _ _ Ht Ho) in Hdone. rewrite (finish_explicit _ _ Ht' Ho'), <-Hdone, !fmap_app, Hsum.
    cbn [fmap list_fmap]. unfold summary at 2 4. cbn [turn_of_pending turn_id turn_status turn_items].
    by rewrite Hid, Hs, Hg.
  - unfold upsert_item_in_turn_id. rewrite Ht. rewrite finish_none in Hdone by done.
    destruct (update_first _ _ _) as [ts|] eqn:E; [|rewrite finish_none by done; split_and!; [done|by rewrite Ht|done]].
    apply update_first_Some in E as (l1 & u & l2 & Hl & _ & ->). destruct Hm as [Hm1 Hm2].
    destruct (upsert_messages item (turn_items u)) as [Hu1 Hu2]; [|done..|].
    { apply Hm1. rewrite Hl. set_solver. }
    split_and!; [|by cbn; rewrite Ht|split; [|done]].
    + rewrite finish_none by done. cbn [turns set_turns]. rewrite <-Hdone, Hl, !fmap_app, !fmap_cons.
      unfold summary at 2 5. cbn [turn_id turn_status turn_items turn_with_items]. by rewrite Hu1.
    + cbn [turns set_turns]. intros v Hv.
      apply elem_of_app in Hv as [Hv|[->|Hv]%elem_of_cons]; [apply Hm1|done|apply Hm1]; rewrite Hl; set_solver.
Qed.

Lemma shows_upsert id item b done :
  foreign (item_id item) → message_of item = None → negb (is_nil id) = true → shows_turns b done →
  shows_turns (upsert_item id item b) done.
Proof.
  intros ? ? Hid ?. unfold upsert_item. rewrite decide_False by (intros ->; done). by apply shows_upsert_turn.
Qed.

Lemma shows_between items b done :
  Forall (λ item, between_turns item = true ∧ brings_foreign_id item) items → shows_turns b done →
  shows_turns (replay items b) done.
Proof.
  intros Hf. revert b. induction Hf as [|item items [Hb Hi] _ IH]; intros b Hs; [done|]. apply IH. clear IH.
  destruct item as [event| |]; [|done|done]. unfold brings_foreign_id in Hi.
  destruct event; try discriminate Hb; cbn [handle_rollout_item handle_event event_item_id between_turns] in *;
    try (by apply shows_upsert_turn); try (by apply shows_upsert); try done;
    destruct item; try done; cbn; (destruct (is_nil text); [done|by apply shows_upsert_turn]).
Qed.

Lemma logged_turn b done t :
  shows_turns b done → Forall (λ item, within_turn item = true ∧ brings_foreign_id item) (log_body t) →
  Forall (λ item, between_turns item = true ∧ brings_foreign_id item) (log_after t) →
  shows_turns (replay (log_items t) b) (done ++ [log_summary t]).
Proof.
  intros (Hdone & Hopen & Hm) Hbody Hafter. unfold log_items, replay. cbn [foldl]. rewrite !foldl_app. cbn [foldl].
  apply (shows_between (log_after t)); [done|].
  fold (replay (log_body t) (handle_rollout_item (EventItem (EvTurnStarted (log_id t))) b)).
  set (b0 := handle_rollout_item (EventItem (EvTurnStarted (log_id t))) b).
  assert (message_ids_in b0) as Hm0.
  { destruct (message_ids_finish b Hm) as [H1 _]. split; [done|]. intros u [= <-]. by intros i ?%not_elem_of_nil. }
  destruct (goes_on_replay (log_body t) b0 Hbody Hm0 _ eq_refl eq_refl)
    as (u & Hu & Ho & Hid & Hs & Hg & Hsum & Hm1). cbn [pending_id pending_status pending_items] in Hid, Hs, Hg.
  set (b1 := replay (log_body t) b0) in *.
  change (turns b0) with (finish b) in Hsum. rewrite Hdone in Hsum.
  assert (∀ f, message_ids_in (set_current (with_status f <$> current_turn b1) b1)) as Hmf.
  { intros f. destruct Hm1 as [H1 H2]. split; [done|]. cbn. rewrite Hu. intros ? [= <-]. exact (H2 _ Hu). }
  assert (∀ f, finish_current_turn (set_current (with_status f <$> current_turn b1) b1) =
    set_current None (set_turns (turns b1 ++ [turn_of_pending (with_status f u)]) b1)) as Hfin.
  { intros f. rewrite Hu. unfold finish_current_turn. cbn. rewrite Ho. cbn. by rewrite andb_false_r. }
  assert (∀ f, summary <$> (turns b1 ++ [turn_of_pending (with_status f u)]) =
    done ++ [(log_id t, f (pending_status u), log_body t ≫= event_messages)]) as Hsummary.
  { intros f. rewrite fmap_app, Hsum. cbn [fmap list_fmap]. unfold summary.
    cbn [turn_of_pending with_status turn_id turn_status turn_items pending_id pending_status pending_items].
    by rewrite Hid, Hg. }
  unfold log_summary. destruct (log_end t) as [reason|message]; cbn [handle_rollout_item handle_event].
  - unfold handle_turn_aborted. rewrite Hu. unfold has_pending_id. rewrite Hid, bool_decide_true by done.
    unfold interrupt_current. split_and!; [|cbn; rewrite Hu; by intros ? [= <-]|apply Hmf].
    unfold finish. rewrite Hfin. apply Hsummary.
  - unfold handle_turn_complete. rewrite Hu. unfold has_pending_id. rewrite Hid, bool_decide_true by done.
    unfold complete_current. split_and!.
    + unfold finish. rewrite Hfin.
      trans (summary <$> (turns b1 ++ [turn_of_pending (with_status mark_completed u)])); [done|].
      rewrite Hsummary, Hs. by destruct (existsb _ _).
    + rewrite Hfin. done.
    + apply message_ids_finish, Hmf.
Qed.

(** ** Late items *)

(** The end of a call that names its turn: the turn, and the item it leaves
    there. *)
Definition late_item (item : RolloutItem) : option (str * ThreadItem) :=
  match item with
  | EventItem (EvExecCommandEnd call_id turn command cwd process_id parsed_cmd status output code duration) =>
      Some (turn, CommandExecution call_id (join_command command) cwd process_id
        (match status with ExecCompleted => ItemCompleted | ExecFailed => ItemFailed | ExecDeclined => ItemDeclined end)
        parsed_cmd (match output with [] => None | _ => Some output end) (Some code)
        (Some (Z.min duration i64_max)))
  | EventItem (EvPatchApplyEnd call_id ((_ :: _) as turn) changes status) =>
      Some (turn, FileChangeItem call_id (convert_patch_changes changes)
        (match status with PatchCompleted => ItemCompleted | PatchFailed => ItemFailed | PatchDeclined => ItemDeclined end))
  | EventItem (EvDynamicToolCallResponse call_id ((_ :: _) as turn) tool arguments success content duration) =>
      Some (turn, DynamicToolCall call_id tool arguments (if success then ToolCompleted else ToolFailed)
        (Some content) (Some success) (if decide (duration ≤ i64_max)%Z then Some duration else None))
  | _ => None
  end.

Definition item_event_id (item : RolloutItem) : option str :=
  match item with EventItem event => event_item_id event | _ => None end.

(** A turn that is shown, with these items in it. *)
Definition holds_items (b : ThreadHistoryBuilder) (T : str) (X : list ThreadItem) : Prop :=
  (∃ t, t ∈ turns b ∧ turn_id t = T ∧ X ⊆ turn_items t) ∨
  (∃ p, current_turn b = Some p ∧ pending_id p = T ∧ X ⊆ pending_items p ∧
     (opened_explicitly p = true ∨ pending_items p ≠ [])).

Definition is_reasoning (i : ThreadItem) : Prop := match i with Reasoning _ _ _ => True | _ => False end.

Section Kept.
Variables (T : str) (X : list ThreadItem).
Hypothesis no_reasoning : ∀ x, x ∈ X → ¬ is_reasoning x.

(** A change that loses none of the items. *)
Definition keeps (f : list ThreadItem → list ThreadItem) : Prop :=
  ∀ l, (X ⊆ l → X ⊆ f l) ∧ (l ≠ [] → f l ≠ []).

Lemma keeps_append i : keeps (λ l, l ++ [i]).
Proof. intros l. split; [set_solver|]. by destruct l. Qed.

Lemma keeps_upsert item : (∀ x, x ∈ X → item_id item ≠ item_id x) → keeps (upsert_turn_item item).
Proof.
  intros Hid l. split; [|by destruct l; cbn; [|case_decide]]. intros HX x Hx. specialize (HX x Hx).
  specialize (Hid x Hx). clear Hx. induction l as [|i l IH]; [by apply not_elem_of_nil in HX|].
  cbn. case_decide as Hi; apply elem_of_cons in HX as [->|HX]; [congruence|by right|by left|right; by apply IH].
Qed.

Lemma holds_finish b : holds_items b T X → ∃ t, t ∈ finish b ∧ turn_id t = T ∧ X ⊆ turn_items t.
Proof.
  unfold finish, finish_current_turn. intros [(t & Ht & Hid & HX)|(p & Hp & Hid & HX & Hs)].
  - exists t. split; [|done]. destruct (current_turn b); [|done]. destruct (_ && _); [done|]. cbn. set_solver.
  - rewrite Hp. assert (is_nil (pending_items p) && negb (opened_explicitly p) = false) as ->.
    { destruct Hs as [->|Hs]; [apply andb_false_r|]. by destruct (pending_items p). }
    exists (turn_of_pending p). cbn. split; [set_solver|done].
Qed.

Lemma holds_finish_current b : holds_items b T X → holds_items (finish_current_turn b) T X.
Proof. intros Hh%holds_finish. by left. Qed.

(** A change of the open turn. *)
Lemma holds_current f (b b' : ThreadHistoryBuilder) :
  turns b' = turns b → keeps f →
  (∀ p, current_turn b = Some p → ∃ p', current_turn b' = Some p' ∧ pending_id p' = pending_id p ∧
     pending_items p' = f (pending_items p) ∧ opened_explicitly p' = opened_explicitly p) →
  holds_items b T X → holds_items b' T X.
Proof.
  intros Ht Hf Hc [(t & Hin & Hid & HX)|(p & Hp & Hid & HX & Hs)]; [left; exists t; by rewrite Ht|right].
  destruct (Hc p Hp) as (p' & Hp' & Hid' & Hi' & Ho'). exists p'. rewrite Hid', Hi', Ho'.
  destruct (Hf (pending_items p)) as [Hk Hn]. split_and!; [done..|by apply Hk|]. destruct Hs; auto.
Qed.

Lemma keeps_id : keeps (λ l, l).
Proof. by intros l. Qed.

(** A change of one of the turns before. *)
Lemma holds_update p f b :
  (∀ t, turn_id (f t) = turn_id t ∧ (X ⊆ turn_items t → X ⊆ turn_items (f t))) → holds_items b T X →
  holds_items (match update_first p f (turns b) with Some ts => set_turns ts b | None => b end) T X.
Proof.
  intros Hf Hh. destruct (update_first p f (turns b)) as [ts|] eqn:E; [|done].
  apply update_first_Some in E as (l1 & u & l2 & Hl & _ & ->).
  destruct Hh as [(t & Hin & Hid & HX)|Hh]; [left|by right]. cbn [turns set_turns]. rewrite Hl in Hin.
  apply elem_of_app in Hin as [Hin|[->|Hin]%elem_of_cons].
  - exists t. split; [set_solver|done].
  - exists (f u). destruct (Hf u) as [-> Hk]. split; [set_solver|]. auto.
  - exists t. split; [set_solver|done].
Qed.

Lemma holds_push item b b' :
  (∀ p, current_turn b = Some p → current_turn b' = Some p) → turns b' = turns b →
  holds_items b T X → holds_items (push_item item (ensure_turn b') b') T X.
Proof.
  intros Hc Ht. apply (holds_current (λ l, l ++ [item (item_name (next_item_index b'))])); [done|apply keeps_append|].
  intros p Hp. cbn. unfold ensure_turn. rewrite (Hc p Hp). by eexists.
Qed.

Lemma holds_upsert_current item b :
  (∀ x, x ∈ X → item_id item ≠ item_id x) → holds_items b T X →
  holds_items (upsert_item_in_current_turn item b) T X.
Proof.
  intros Hid. apply (holds_current (upsert_turn_item item)); [done|by apply keeps_upsert|].
  intros p Hp. unfold upsert_item_in_current_turn, ensure_turn. rewrite Hp. by eexists.
Qed.

Lemma holds_upsert_turn id item b :
  (∀ x, x ∈ X → item_id item ≠ item_id x) → holds_items b T X →
  holds_items (upsert_item_in_turn_id id item b) T X.
Proof.
  intros Hid Hh. unfold upsert_item_in_turn_id.
  assert (Hk : keeps (upsert_turn_item item)) by by apply keeps_upsert.
  assert (Hu := holds_update (has_turn_id id) (turn_with_items (upsert_turn_item item)) b
    (λ t, conj eq_refl (proj1 (Hk (turn_items t)))) Hh).
  destruct (current_turn b) as [p|] eqn:Hp; [|done]. destruct (has_pending_id id p); [|done].
  apply (holds_current (upsert_turn_item item) b); [done|done| |done]. intros q Hq. rewrite Hp in Hq.
  injection Hq as <-. by eexists.
Qed.

Lemma holds_upsert id item b :
  (∀ x, x ∈ X → item_id item ≠ item_id x) → holds_items b T X → holds_items (upsert_item id item b) T X.
Proof. intros. unfold upsert_item. case_decide; [by apply holds_upsert_current|by apply holds_upsert_turn]. Qed.

Lemma holds_reasoning f b : holds_items b T X → holds_items (add_reasoning f b) T X.
Proof.
  unfold add_reasoning. destruct (extend_reasoning f (pending_items (ensure_turn b))) as [items|] eqn:E;
    [|by apply holds_push].
  intros [Hh|(p & Hp & Hid & HX & Hs)]; [by left|right]. unfold ensure_turn in *. rewrite Hp in *.
  unfold extend_reasoning in E. destruct (reverse (pending_items p)) as [|[] before] eqn:Hr; try done.
  destruct (f summary0 content) as [su co]. injection E as <-. eexists. split; [done|]. cbn.
  assert (Hpi : pending_items p = reverse before ++ [Reasoning id summary0 content])
    by (by rewrite <-(reverse_involutive (pending_items p)), Hr, reverse_cons).
  split_and!; [done| |right; by destruct (reverse before)]. intros x Hx. pose proof (HX x Hx) as Hin.
  rewrite Hpi in Hin. apply elem_of_app in Hin as [?| ->%list_elem_of_singleton]; [set_solver|].
  by destruct (no_reasoning _ Hx).
Qed.

Lemma holds_status g b :
  holds_items b T X → holds_items (set_current (with_status g <$> current_turn b) b) T X.
Proof.
  apply (holds_current (λ l, l)); [done|apply keeps_id|]. intros p Hp. cbn. rewrite Hp. by eexists.
Qed.

Lemma holds_item item b :
  (∀ n, item ≠ EventItem (EvThreadRolledBack n)) → (∀ x, x ∈ X → item_event_id item ≠ Some (item_id x)) →
  holds_items b T X → holds_items (handle_rollout_item item b) T X.
Proof.
  intros Hnr Hid Hh. destruct item as [event| |]; [| |done].
  2: { revert Hh. apply (holds_current (λ l, l)); [done|apply keeps_id|]. intros p Hp. cbn.
       unfold ensure_turn. rewrite Hp. by eexists. }
  cbn [handle_rollout_item item_event_id] in *.
  destruct event; cbn [handle_event event_item_id] in *;
    try (apply holds_upsert_current; [cbn; naive_solver|done]); try (apply holds_upsert; [cbn; naive_solver|done]);
    try (apply holds_upsert_turn; [cbn; naive_solver|done]); try done; try (by apply (holds_push _ b));
    try (unfold handle_agent_reasoning, handle_agent_reasoning_raw_content;
         destruct (is_nil text); [done|by apply holds_reasoning]).
  - unfold handle_user_message. destruct (current_turn b) as [p|] eqn:Hp; [|by apply (holds_push _ b)].
    destruct (_ && _); [|by apply (holds_push _ b)].
    by apply (holds_push _ (finish_current_turn b)), holds_finish_current.
  - unfold handle_agent_message. destruct (is_nil message); [done|]. by apply (holds_push _ b).
  - unfold handle_collab_agent_spawn_end. destruct new_thread_id; apply holds_upsert_current; cbn; naive_solver.
  - destruct item; [|done]. cbn. destruct (is_nil text); [done|]. apply holds_upsert_turn; [cbn; naive_solver|done].
  - destruct item; [|done]. cbn. destruct (is_nil text); [done|]. apply holds_upsert_turn; [cbn; naive_solver|done].
  - unfold handle_error. destruct (negb _); [done|]. destruct (current_turn b) as [p|] eqn:Hp; [|done].
    revert Hh. apply (holds_current (λ l, l)); [done|apply keeps_id|]. rewrite Hp. intros ? [= <-]. by eexists.
  - by destruct (Hnr num_turns).
  - unfold handle_turn_aborted. destruct turn as [id|]; [|by apply holds_status].
    destruct (match current_turn b with Some _ => _ | None => _ end); [by apply holds_status|].
    pose proof (holds_update (has_turn_id id) (turn_with_status interrupt) b (λ _, conj eq_refl (λ h, h)) Hh) as Hu.
    destruct (update_first _ _ _); [done|by apply holds_status].
  - destruct (holds_finish_current b Hh) as [?|(p & Hp & _)]; [by left|]. by rewrite finish_no_current in Hp.
  - unfold handle_turn_complete.
    destruct (match current_turn b with Some _ => _ | None => _ end); [by apply holds_finish_current, holds_status|].
    pose proof (holds_update (has_turn_id turn) (turn_with_status mark_completed) b (λ _, conj eq_refl (λ h, h)) Hh) as Hu.
    destruct (update_first _ _ _); [done|]. destruct (current_turn b) eqn:Hp; [|done].
    by apply holds_finish_current, holds_status.
Qed.

Lemma holds_replay items b :
  Forall (λ item, ∀ n, item ≠ EventItem (EvThreadRolledBack n)) items →
  Forall (λ item, ∀ x, x ∈ X → item_event_id item ≠ Some (item_id x)) items →
  holds_items b T X → holds_items (replay items b) T X.
Proof.
  intros Hr. revert b. induction Hr as [|item items Hi _ IH]; intros b Hids Hh; [done|].
  apply Forall_cons in Hids as [Hid Hids]. apply IH; [done|]. by apply holds_item.
Qed.
End Kept.

(** The late end of a call is put into its turn. *)
Lemma holds_late item b T x :
  late_item item = Some (T, x) → holds_items b T [] → holds_items (handle_rollout_item item b) T [x].
Proof.
  assert (Hup : ∀ l, x ∈ upsert_turn_item x l).
  { induction l as [|i l IH]; cbn; [left|]. case_decide; [left|by right]. }
  assert (Hput : holds_items b T [] → holds_items (upsert_item_in_turn_id T x b) T [x]).
  { intros Hh. unfold upsert_item_in_turn_id.
    assert (Hin : (∃ t, t ∈ turns b ∧ turn_id t = T) → holds_items
      match update_first (has_turn_id T) (turn_with_items (upsert_turn_item x)) (turns b) with
      | Some ts => set_turns ts b | None => b end T [x]).
    { intros (t & Ht & Hid). destruct (update_first _ _ _) as [ts|] eqn:E.
      - apply update_first_Some in E as (l1 & u & l2 & _ & Hu%bool_decide_eq_true & ->). left.
        exists (turn_with_items (upsert_turn_item x) u). cbn. split; [set_solver|]. split; [done|].
        intros y ->%list_elem_of_singleton. apply Hup.
      - exfalso. clear -Ht Hid E. induction (turns b) as [|u l IH]; [by apply not_elem_of_nil in Ht|].
        cbn in E. unfold has_turn_id at 1 in E. case_bool_decide; [done|].
        destruct (update_first _ _ l); [done|]. apply elem_of_cons in Ht as [->|Ht]; [done|by apply IH]. }
    destruct (current_turn b) as [p|] eqn:Hp.
    - unfold has_pending_id. case_bool_decide as Hid.
      + right. eexists. split; [done|]. cbn. split; [done|]. split.
        * intros y ->%list_elem_of_singleton. apply Hup.
        * right. intros Hn. specialize (Hup (pending_items p)). rewrite Hn in Hup. by apply not_elem_of_nil in Hup.
      + apply Hin. destruct Hh as [(t & ? & ? & _)|(q & Hq & ? & _)]; [eauto|congruence].
    - apply Hin. destruct Hh as [(t & ? & ? & _)|(q & Hq & _)]; [eauto|congruence]. }
  destruct item as [[]| |]; try done; cbn [late_item]; try (destruct turn as [|c turn]; [done|]).
  - intros [= <- <-] Hh. cbn [handle_rollout_item handle_event]. unfold handle_exec_command_end.
    assert (default i64_max (to_i64 duration) = Z.min duration i64_max) as ->.
    { unfold to_i64. destruct (Z.leb_spec duration i64_max); cbn; lia. }
    replace (if is_nil aggregated_output then None else Some aggregated_output)
      with (match aggregated_output with [] => None | _ => Some aggregated_output end)
      by (by destruct aggregated_output). exact (Hput Hh).
  - intros [= <- <-] Hh. exact (Hput Hh).
  - intros [= <- <-] Hh. cbn [handle_rollout_item handle_event]. unfold handle_dynamic_tool_call_response.
    assert (to_i64 duration = if decide (duration ≤ i64_max)%Z then Some duration else None) as ->.
    { unfold to_i64. destruct (Z.leb_spec duration i64_max); case_decide; done || lia. }
    exact (Hput Hh).
Qed.

(** C34: the turns shown for a log are the turns of the log, in order: each with
    what was said in it, interrupted when it was aborted, failed when an error
    in it says so, completed otherwise.  The log may begin with lines that are
    no events, turns may be followed by such lines and by the events of calls
    that name their turn, and the ids of calls and plans are not of the form
    the builder makes up.  However late the end of a command, a patch or a
    dynamic tool call comes that names a turn that has started, its item is in
    a turn of that id, as the end has it, unless a later event brings an item
    with the same id. *)
Theorem turns_of_log head log :
  Forall (λ item, between_turns item = true ∧ brings_foreign_id item) head →
  Forall (λ t, Forall (λ item, within_turn item = true ∧ brings_foreign_id item) (log_body t) ∧
               Forall (λ item, between_turns item = true ∧ brings_foreign_id item) (log_after t)) log →
  let items := head ++ (log ≫= log_items) in
  summary <$> build_turns_from_rollout_items items = log_summary <$> log ∧
  ∀ before e after T x, items = before ++ e :: after → late_item e = Some (T, x) →
    EventItem (EvTurnStarted T) ∈ before → Forall (λ i, item_event_id i ≠ Some (item_id x)) after →
    ∃ t, t ∈ build_turns_from_rollout_items items ∧ turn_id t = T ∧ x ∈ turn_items t.
Proof.
  intros Hhead Hlog. cbv zeta. split.
  - unfold build_turns_from_rollout_items, replay. rewrite foldl_app.
    assert (Hinit : shows_turns builder_new []).
    { split_and!; [done..|]. split; [|done]. by intros t ?%not_elem_of_nil. }
    pose proof (shows_between head builder_new [] Hhead Hinit) as Hb.
    assert (∀ b done, shows_turns b done →
      shows_turns (replay (log ≫= log_items) b) (done ++ (log_summary <$> log))) as Hall.
    { clear Hb. induction Hlog as [|t log [Ht Ha] _ IH]; intros b done Hb; [by rewrite app_nil_r|].
      rewrite bind_cons. unfold replay. rewrite foldl_app. cbn [fmap list_fmap].
      change (log_summary t :: (log_summary <$> log)) with ([log_summary t] ++ (log_summary <$> log)).
      rewrite (assoc_L (++)). apply IH. by apply logged_turn. }
    apply (Hall _ [] Hb).
  - intros before e after T x Heq Hlate Hstart Hafter.
    assert (Hnr : Forall (λ item, ∀ n, item ≠ EventItem (EvThreadRolledBack n)) (head ++ (log ≫= log_items))).
    { apply Forall_app. split; [eapply Forall_impl; [exact Hhead|]; by intros i [Hi _] n ->|].
      apply Forall_bind. eapply Forall_impl; [exact Hlog|]. intros t [Hb Ha]. unfold log_items.
      apply Forall_cons. split; [done|]. rewrite !Forall_app. split_and!.
      - eapply Forall_impl; [exact Hb|]. by intros i [Hi _] n ->.
      - apply Forall_singleton. by destruct (log_end t).
      - eapply Forall_impl; [exact Ha|]. by intros i [Hi _] n ->. }
    rewrite Heq in *. apply Forall_app in Hnr as [Hnb [_ Hna]%Forall_cons].
    apply list_elem_of_split in Hstart as (b1 & b2 & ->). apply Forall_app in Hnb as [_ [_ Hnb]%Forall_cons].
    unfold build_turns_from_rollout_items, replay. rewrite !foldl_app. cbn [foldl].
    set (b := foldl _ builder_new b1).
    assert (Hs : holds_items (handle_rollout_item (EventItem (EvTurnStarted T)) b) T []).
    { right. eexists. split; [done|]. split_and!; [done|done|by left]. }
    apply (holds_replay T [] ltac:(by intros ? ?%not_elem_of_nil) b2) in Hs; [|done|].
    2: { apply Forall_true. by intros ? ? ?%not_elem_of_nil. }
    apply (holds_late _ _ _ _ Hlate) in Hs.
    assert (Hnx : ∀ y, y ∈ [x] → ¬ is_reasoning y).
    { intros y ->%list_elem_of_singleton. destruct e as [[]| |]; try done; cbn in Hlate;
        try (destruct turn; [done|]); injection Hlate as _ <-; by intros []. }
    apply (holds_replay T [x] Hnx after) in Hs; [|done|].
    2: { eapply Forall_impl; [exact Hafter|]. by intros i Hi y ->%list_elem_of_singleton. }
    apply (holds_finish T [x] Hnx) in Hs as (t & Ht & Hid & Hx). exists t. split_and!; [exact Ht|done|]. apply Hx. left.
Qed.
End ThreadHistory.

(** ** Applications *)
#[local] Abbreviation event := (@EventMsg unit unit unit unit unit unit).
#[local] Abbreviation rollout := (@RolloutItem unit unit unit unit unit unit).
#[local] Abbreviation say text := (EventItem (EvUserMessage (lit text) None [] []) : rollout).
#[local] Abbreviation build items :=
  (build_turns_from_rollout_items (λ _, None) (λ _, []) (λ _, lit "implicit") tt (items : list rollout)).

(** A command of the first turn that ends in the second, which fails. *)
Definition late_end : rollout :=
  EventItem (EvExecCommandEnd (lit "call") (lit "t1") [lit "sleep"] [] None [] ExecCompleted [] 0%Z 5%Z).

(** A patch of the first turn that ends after the second. *)
Definition patch_end : rollout := EventItem (EvPatchApplyEnd (lit "patch") (lit "t1") [] PatchFailed).

Definition sample_log : list (@LoggedTurn unit unit unit unit unit unit) :=
  [{| log_id := lit "t1"; log_body := [say "hello"%string]; log_end := inr None; log_after := [IgnoredItem] |};
   {| log_id := lit "t2";
      log_body := [say "again"%string; late_end; EventItem (EvError (lit "overloaded") (Some ServerOverloaded))];
      log_end := inr None; log_after := [patch_end] |}].

Lemma turns_of_log_witness :
  summary <$> build (IgnoredItem :: (sample_log ≫= log_items)) =
    [(lit "t1", TurnCompleted, [inl [UserText (lit "hello") []]]);
     (lit "t2", TurnFailed, [inl [UserText (lit "again") []]])] ∧
  ∃ t, t ∈ build (IgnoredItem :: (sample_log ≫= log_items)) ∧ turn_id t = lit "t1" ∧
    FileChangeItem (lit "patch") [] ItemFailed ∈ turn_items t.
Proof.
  assert (foreign (lit "call")) as Hcall by by intros n.
  assert (foreign (lit "patch")) as Hpatch by by intros n.
  destruct (turns_of_log (λ _, None) (λ _, []) (λ _, lit "implicit") tt [IgnoredItem] sample_log) as [Hs Hl].
  - repeat constructor.
  - repeat (constructor; try done).
  - split; [exact Hs|].
    apply (Hl (take 10 ([IgnoredItem] ++ (sample_log ≫= log_items))) patch_end []); [reflexivity|reflexivity| |constructor].
    by vm_compute; right; left.
Defined.

Lemma item_ids_witness :
  NoDup ((item_ids ∘ turn_items) <$> build (sample_log ≫= log_items)) ∧
  ∀ t, t ∈ build (sample_log ≫= log_items) → NoDup (item_ids (turn_items t)).
Proof.
  split; [by apply (bool_decide_unpack _); vm_compute|].
  apply (item_ids_distinct (λ _, None) (λ _, []) (λ _, lit "implicit") tt (sample_log ≫= log_items)).
  assert (foreign (lit "call")) as Hcall by by intros n.
  repeat (constructor; try done).
Defined.

(** *** Two counts of turns

    A rollback names a number of user turns.  The core counts the messages of
    the user, the builder counts turns: when the user has spoken twice in one
    turn, the core goes back to the second message and the client is shown
    that the whole turn is gone. *)
Definition spoken_twice : list rollout :=
  [EventItem (EvTurnStarted (lit "t1")); say "first"%string;
   EventItem (EvAgentMessage (lit "working") None); say "second"%string;
   EventItem (EvTurnComplete (lit "t1") None)].

Definition core_message (role text : string) : Models.ResponseItem unit :=
  Models.Message None (lit role) [Models.InputText (lit text)] None None.

Definition core_history : @History.ContextManager unit unit :=
  {| History.items := [core_message "user" "first"; core_message "assistant" "working"; core_message "user" "second"];
     History.token_info := None; History.reference_context_item := None |}.

Example rollback_counts_differ :
  build (spoken_twice ++ [EventItem (EvThreadRolledBack 1)]) = [] ∧
  match History.drop_last_n_user_turns core_history 1 with
  | Ok h => History.items h = [core_message "user" "first"; core_message "assistant" "working"]
  | _ => False
  end.
Proof. by vm_compute. Qed.
