(* ===== verification/Bwrap.v ===== *)
(** * The command line of the Linux sandbox: [linux-sandbox/src/bwrap.rs]

    On Linux a command runs under bubblewrap.  [create_filesystem_args] turns
    the file system policy into the mounts bubblewrap is to make, in order:
    the order decides what the command may read and write, which is what
    [BwrapView.v] is about.  Beyond [PathEnv] the code asks the host for the
    metadata of symbolic links and opens [/dev/null]: the class [BwrapEnv]. *)
From stdpp Require Import base tactics option list sets numbers strings.
From S2P Require Import Prelude RustStr Paths Permissions.
From stdpp Require Import list.

(** ** Options and results *)
Inductive BwrapNetworkMode : Type := FullAccess | Isolated | ProxyOnly.

Record BwrapOptions : Type := {
  mount_proc : bool;
  network_mode : BwrapNetworkMode;
}.

(** A [File] is its descriptor. *)
Record BwrapArgs : Type := {
  args : list str;
  preserved_files : list N;
}.

(** The errors of [codex_core::error::CodexErr] this file builds. *)
Inductive BwrapErr : Type :=
  | UnsupportedOperation (message : str)
  | Io.

#[export] Instance BwrapNetworkMode_eq_dec : EqDecision BwrapNetworkMode.
Proof. solve_decision. Defined.
#[export] Instance BwrapErr_eq_dec : EqDecision BwrapErr.
Proof. solve_decision. Defined.
#[export] Instance BwrapArgs_eq_dec : EqDecision BwrapArgs.
Proof. solve_decision. Defined.

Definition default_bwrap_options : BwrapOptions :=
  {| mount_proc := true; network_mode := FullAccess |}.

Definition should_unshare_network (self : BwrapNetworkMode) : bool :=
  match self with FullAccess => false | Isolated | ProxyOnly => true end.

Definition LINUX_PLATFORM_DEFAULT_READ_ROOTS : list Path :=
  path_of_str <$> [lit "/bin"; lit "/sbin"; lit "/usr"; lit "/etc"; lit "/lib"; lit "/lib64";
                   lit "/nix/store"; lit "/run/current-system/sw"].

(** [symlink_metadata] is [None] when the call fails and says otherwise
    whether the path is a symbolic link; [open_dev_null] is the descriptor
    [File::open("/dev/null")] returns; [host_tty_dev] is the terminal of
    bubblewrap's standard output, if it is one. *)
Class BwrapEnv `{PathEnv} : Type := {
  symlink_metadata : Path → option bool;
  open_dev_null : option N;
  host_tty_dev : option Path;
}.

(** ** Paths as text and in order *)
Definition component_str (c : Component) : str :=
  match c with
  | RootDir => []
  | CurDir => lit "."
  | ParentDir => lit ".."
  | Normal name => name
  end.

(** [to_string_lossy] of a path. *)
Definition path_to_string (path : Path) : str :=
  match path with
  | RootDir :: rest => SLASH :: RustStr.join [SLASH] (component_str <$> rest)
  | _ => RustStr.join [SLASH] (component_str <$> path)
  end.

Definition path_depth (path : Path) : nat := length path.

(** The order of [PathBuf]: component by component, names as byte strings
    (the order of the scalar values is the one of their UTF-8 encodings). *)
Fixpoint lex_compare {A} (compare : A → A → comparison) (l k : list A) : comparison :=
  match l, k with
  | [], [] => Eq
  | [], _ => Lt
  | _, [] => Gt
  | x :: l', y :: k' =>
      match compare x y with Eq => lex_compare compare l' k' | c => c end
  end.

Definition component_rank (c : Component) : N :=
  match c with RootDir => 0 | CurDir => 1 | ParentDir => 2 | Normal _ => 3 end%N.

Definition component_compare (c d : Component) : comparison :=
  match c, d with
  | Normal s, Normal t => lex_compare N.compare s t
  | _, _ => N.compare (component_rank c) (component_rank d)
  end.

(** [BTreeSet<PathBuf>]: its elements in ascending order. *)
Fixpoint btree_insert (x : Path) (l : list Path) : list Path :=
  match l with
  | [] => [x]
  | y :: l' =>
      match lex_compare component_compare x y with
      | Lt => x :: l
      | Eq => l
      | Gt => y :: btree_insert x l'
      end
  end.

Definition btree_extend (set l : list Path) : list Path := foldl (λ s x, btree_insert x s) set l.

(** [Iterator::take_while]. *)
Fixpoint take_while {A} (f : A → bool) (l : list A) : list A :=
  match l with
  | [] => []
  | x :: l' => if f x then x :: take_while f l' else []
  end.

(** A [for] loop whose body can fail. *)
Fixpoint foldM {E S A} (f : S → A → outcome E S) (s : S) (l : list A) : outcome E S :=
  match l with
  | [] => Ok s
  | x :: l' => s' ← f s x; foldM f s' l'
  end.

Section Bwrap.
Context `{BwrapEnv}.
Abbreviation Result A := (outcome BwrapErr A).

(** The methods of the policy panic or return; they have no error value. *)
Definition or_panic {A} (m : outcome io_Error A) : Result A := map_err (λ _, Io) m.

Definition push_all (self : BwrapArgs) (l : list str) : BwrapArgs :=
  {| args := args self ++ l; preserved_files := preserved_files self |}.

(** ** Questions to the file system *)
Definition is_within_allowed_write_paths (path : Path) (allowed_write_paths : list Path) : bool :=
  existsb (λ root, path_starts_with path root) allowed_write_paths.

(** The loops of the two functions below, over the components left. *)
Fixpoint find_symlink_from (allowed_write_paths : list Path) (current : Path)
    (components : list Component) : option Path :=
  match components with
  | [] => None
  | component :: rest =>
      match component with
      | RootDir => find_symlink_from allowed_write_paths [RootDir] rest
      | CurDir => find_symlink_from allowed_write_paths current rest
      | ParentDir => find_symlink_from allowed_write_paths (default current (parent current)) rest
      | Normal part =>
          let current := current ++ [Normal part] in
          match symlink_metadata current with
          | None => None
          | Some is_symlink =>
              if is_symlink && is_within_allowed_write_paths current allowed_write_paths
              then Some current
              else find_symlink_from allowed_write_paths current rest
          end
      end
  end.

Definition find_symlink_in_path (target_path : Path) (allowed_write_paths : list Path) :
    option Path := find_symlink_from allowed_write_paths [] target_path.

Fixpoint find_missing_from (current : Path) (components : list Component) : option Path :=
  match components with
  | [] => None
  | component :: rest =>
      match component with
      | RootDir => find_missing_from [RootDir] rest
      | CurDir => find_missing_from current rest
      | ParentDir => find_missing_from (default current (parent current)) rest
      | Normal part =>
          let current := current ++ [Normal part] in
          if path_exists current then find_missing_from current rest else Some current
      end
  end.

Definition find_first_non_existent_component (target_path : Path) : option Path :=
  find_missing_from [] target_path.

Definition dev_null : Path := path_of_str (lit "/dev/null").

Definition missing_root_message (root : Path) : str :=
  lit "Sandbox expected writable root " ++ path_to_string root ++ lit ", but it does not exist.".

Fixpoint ensure_mount_targets_exist (writable_roots : list WritableRoot) : Result unit :=
  match writable_roots with
  | [] => Ok tt
  | writable_root :: rest =>
      if path_exists (root writable_root) then ensure_mount_targets_exist rest
      else Err (UnsupportedOperation (missing_root_message (root writable_root)))
  end.

(** ** The pieces of the command line *)

(** The directories [append_mount_target_parent_dir_args] creates. *)
Definition mount_target_dirs (mount_target anchor : Path) : list Path :=
  match (if is_dir mount_target then Some mount_target else parent mount_target) with
  | None => []
  | Some mount_target_dir =>
      reverse (take_while (λ path, negb (bool_decide (path = anchor)))
                 (ancestors mount_target_dir))
  end.

Definition append_mount_target_parent_dir_args (self : BwrapArgs) (mount_target anchor : Path) :
    BwrapArgs :=
  foldl (λ self dir, push_all self [lit "--dir"; path_to_string dir]) self
    (mount_target_dirs mount_target anchor).

(** The early returns the two functions below share: a protected path that
    goes through a symbolic link or does not exist. *)
Definition append_dev_null_args (self : BwrapArgs) (path : Path) : BwrapArgs :=
  push_all self [lit "--ro-bind"; lit "/dev/null"; path_to_string path].

Definition append_missing_args (self : BwrapArgs) (path : Path) (allowed_write_paths : list Path) :
    BwrapArgs :=
  match find_first_non_existent_component path with
  | Some first_missing_component =>
      if is_within_allowed_write_paths first_missing_component allowed_write_paths
      then append_dev_null_args self first_missing_component
      else self
  | None => self
  end.

Definition append_read_only_subpath_args (self : BwrapArgs) (subpath : Path)
    (allowed_write_paths : list Path) : BwrapArgs :=
  match find_symlink_in_path subpath allowed_write_paths with
  | Some symlink_path => append_dev_null_args self symlink_path
  | None =>
      if negb (path_exists subpath) then append_missing_args self subpath allowed_write_paths
      else if is_within_allowed_write_paths subpath allowed_write_paths
      then push_all self [lit "--ro-bind"; path_to_string subpath; path_to_string subpath]
      else self
  end.

Definition writable_descendants (unreadable_root : Path) (allowed_write_paths : list Path) :
    list Path :=
  List.filter (λ path, negb (bool_decide (path = unreadable_root))
                       && path_starts_with path unreadable_root) allowed_write_paths.

Definition append_unreadable_root_args (self : BwrapArgs) (unreadable_root : Path)
    (allowed_write_paths : list Path) : Result BwrapArgs :=
  match find_symlink_in_path unreadable_root allowed_write_paths with
  | Some symlink_path => Ok (append_dev_null_args self symlink_path)
  | None =>
      if negb (path_exists unreadable_root)
      then Ok (append_missing_args self unreadable_root allowed_write_paths)
      else if is_dir unreadable_root then
        let descendants := writable_descendants unreadable_root allowed_write_paths in
        let perms := match descendants with [] => lit "000" | _ :: _ => lit "111" end in
        let self := push_all self [lit "--perms"; perms; lit "--tmpfs";
                                   path_to_string unreadable_root] in
        let self :=
          foldl (λ self writable_descendant,
              append_mount_target_parent_dir_args self writable_descendant unreadable_root)
            self (sort_by_key path_depth descendants) in
        Ok (push_all self [lit "--remount-ro"; path_to_string unreadable_root])
      else
        preserved_files ←
          match preserved_files self with
          | [] => match open_dev_null with Some fd => Ok [fd] | None => Err Io end
          | files => Ok files
          end;
        let null_fd := match preserved_files with fd :: _ => show_N fd | [] => [] end in
        Ok (push_all {| args := args self; preserved_files := preserved_files |}
              [lit "--perms"; lit "000"; lit "--ro-bind-data"; null_fd;
               path_to_string unreadable_root])
  end.

(** ** The mounts of a policy *)
Definition ro_root_args : list str :=
  [lit "--ro-bind"; lit "/"; lit "/"; lit "--dev"; lit "/dev"].
Definition empty_root_args : list str := [lit "--tmpfs"; lit "/"; lit "--dev"; lit "/dev"].

(** The roots a restricted policy makes readable. *)
Definition bwrap_readable_roots (self : FileSystemSandboxPolicy) (cwd : Path) :
    Result (list Path) :=
  readable_roots ← or_panic (get_readable_roots_with_cwd self cwd);
  let readable_roots := btree_extend [] readable_roots in
  Ok (if include_platform_defaults self
      then btree_extend readable_roots (List.filter path_exists LINUX_PLATFORM_DEFAULT_READ_ROOTS)
      else readable_roots).

Definition base_args (self : FileSystemSandboxPolicy) (cwd : Path) : Result (list str) :=
  if has_full_disk_read_access self then Ok ro_root_args
  else
    readable_roots ← bwrap_readable_roots self cwd;
    Ok (if existsb (λ root, bool_decide (root = [RootDir])) readable_roots
        then ro_root_args
        else foldl (λ args root,
               if negb (path_exists root) then args
               else args ++ [lit "--ro-bind"; path_to_string root; path_to_string root])
             empty_root_args readable_roots).

(** The body of the loop over the writable roots. *)
Definition append_writable_root (unreadable_roots allowed_write_paths : list Path)
    (self : BwrapArgs) (writable_root : WritableRoot) : Result BwrapArgs :=
  let root := root writable_root in
  let self :=
    match max_by_key (λ x y, path_depth x <=? path_depth y)
            (List.filter (λ unreadable_root, path_starts_with root unreadable_root)
               unreadable_roots) with
    | Some masking_root => append_mount_target_parent_dir_args self root masking_root
    | None => self
    end in
  let self := push_all self [lit "--bind"; path_to_string root; path_to_string root] in
  let read_only_subpaths :=
    sort_by_key path_depth
      (List.filter (λ path, negb (bool_decide (path ∈ unreadable_roots)))
         (read_only_subpaths writable_root)) in
  let self :=
    foldl (λ self subpath, append_read_only_subpath_args self subpath allowed_write_paths)
      self read_only_subpaths in
  let nested_unreadable_roots :=
    sort_by_key path_depth (List.filter (λ path, path_starts_with path root) unreadable_roots) in
  foldM (λ self unreadable_root,
      append_unreadable_root_args self unreadable_root allowed_write_paths)
    self nested_unreadable_roots.

(** Unreadable roots outside every writable root, above one and apart from
    all of them. *)
Definition ancestors_of_writable_roots (unreadable_roots allowed_write_paths : list Path) :
    list Path :=
  sort_by_key path_depth
    (List.filter (λ unreadable_root,
         negb (existsb (λ root, path_starts_with unreadable_root root) allowed_write_paths)
         && existsb (λ root, path_starts_with root unreadable_root) allowed_write_paths)
       unreadable_roots).

Definition rootless_unreadable_roots (unreadable_roots allowed_write_paths : list Path) :
    list Path :=
  sort_by_key path_depth
    (List.filter (λ unreadable_root,
         negb (existsb (λ root, path_starts_with unreadable_root root
                                || path_starts_with root unreadable_root) allowed_write_paths))
       unreadable_roots).

Definition create_filesystem_args (self : FileSystemSandboxPolicy) (cwd : Path) :
    Result BwrapArgs :=
  writable_roots ← or_panic (get_writable_roots_with_cwd self cwd);
  unreadable_roots ← or_panic (get_unreadable_roots_with_cwd self cwd);
  _ ← ensure_mount_targets_exist writable_roots;
  base ← base_args self cwd;
  let allowed_write_paths := root <$> writable_roots in
  let sorted_writable_roots :=
    sort_by_key (λ writable_root, path_depth (root writable_root)) writable_roots in
  let mask := λ self unreadable_root,
    append_unreadable_root_args self unreadable_root allowed_write_paths in
  args ← foldM mask {| args := base; preserved_files := [] |}
           (ancestors_of_writable_roots unreadable_roots allowed_write_paths);
  args ← foldM (append_writable_root unreadable_roots allowed_write_paths) args
           sorted_writable_roots;
  foldM mask args (rootless_unreadable_roots unreadable_roots allowed_write_paths).

(** ** The whole command line *)

(** What both forms of the command line end with. *)
Definition namespace_args (options : BwrapOptions) (command : list str) : list str :=
  [lit "--unshare-user"; lit "--unshare-pid"]
  ++ (if should_unshare_network (network_mode options) then [lit "--unshare-net"] else [])
  ++ (if mount_proc options then [lit "--proc"; lit "/proc"] else [])
  ++ [lit "--"] ++ command.

Definition create_bwrap_flags_full_filesystem (command : list str) (options : BwrapOptions) :
    BwrapArgs :=
  {| args := [lit "--new-session"; lit "--die-with-parent"; lit "--bind"; lit "/"; lit "/"]
             ++ namespace_args options command;
     preserved_files := [] |}.

Definition create_bwrap_flags (command : list str) (policy : FileSystemSandboxPolicy) (cwd : Path)
    (options : BwrapOptions) : Result BwrapArgs :=
  filesystem ← create_filesystem_args policy cwd;
  Ok {| args := [lit "--new-session"; lit "--die-with-parent"] ++ args filesystem
                ++ namespace_args options command;
        preserved_files := preserved_files filesystem |}.

Definition create_bwrap_command_args (command : list str) (policy : FileSystemSandboxPolicy)
    (cwd : Path) (options : BwrapOptions) : Result BwrapArgs :=
  if has_full_disk_write_access policy then
    if bool_decide (network_mode options = FullAccess)
    then Ok {| args := command; preserved_files := [] |}
    else Ok (create_bwrap_flags_full_filesystem command options)
  else create_bwrap_flags command policy cwd options.
End Bwrap.
