(* ===== verification/BwrapView.v ===== *)
(** * What a sandboxed command sees: the file system bubblewrap sets up

    [vendor/bubblewrap/bubblewrap.c] reads the command line of [Bwrap.v] into
    a list of operations and carries them out in order over an empty root; the
    newest mount above a path serves it.  The main theorem says that what a
    command can then read and write of the host is what the policy allows.

    Paths go through no symbolic link, and the operating system grants what
    bubblewrap asks for, except that nothing is created on a read-only mount. *)
From stdpp Require Import base tactics option list sets numbers strings.
From S2P Require Import Prelude RustStr Paths Permissions Bwrap.
From stdpp Require Import list.

(** ** Operations: [SetupOp] and [parse_args_recurse] *)
Inductive SetupOp : Type :=
  | BindMount (read_only : bool) (source dest : Path)
  | MountProc (dest : Path)
  | MountDev (dest : Path)
  | MountTmpfs (perms : N) (dest : Path)
  | MakeDir (perms : N) (dest : Path)
  | RemountRo (dest : Path)
  | MakeRoBindFile (fd perms : N) (dest : Path).

(** What bubblewrap has read of its arguments. *)
Record Parsed : Type := {
  ops : list SetupOp;
  unshare_user : bool;
  unshare_pid : bool;
  unshare_net : bool;
  new_session : bool;
  die_with_parent : bool;
  argv0 : option str;
  command : list str;
}.

Definition parsed_nothing : Parsed := {|
  ops := []; unshare_user := false; unshare_pid := false; unshare_net := false;
  new_session := false; die_with_parent := false; argv0 := None; command := []
|}.

Definition add_ops (s : Parsed) (new : list SetupOp) : Parsed := {|
  ops := ops s ++ new; unshare_user := unshare_user s; unshare_pid := unshare_pid s;
  unshare_net := unshare_net s; new_session := new_session s;
  die_with_parent := die_with_parent s; argv0 := argv0 s; command := command s
|}.

Definition set_flags (s : Parsed) (user pid net session die : bool) : Parsed := {|
  ops := ops s; unshare_user := unshare_user s || user; unshare_pid := unshare_pid s || pid;
  unshare_net := unshare_net s || net; new_session := new_session s || session;
  die_with_parent := die_with_parent s || die; argv0 := argv0 s; command := command s
|}.

Definition set_argv0 (s : Parsed) (name : str) : Parsed := {|
  ops := ops s; unshare_user := unshare_user s; unshare_pid := unshare_pid s;
  unshare_net := unshare_net s; new_session := new_session s;
  die_with_parent := die_with_parent s; argv0 := Some name; command := command s
|}.

Definition set_command (s : Parsed) (rest : list str) : Parsed := {|
  ops := ops s; unshare_user := unshare_user s; unshare_pid := unshare_pid s;
  unshare_net := unshare_net s; new_session := new_session s;
  die_with_parent := die_with_parent s; argv0 := argv0 s; command := rest
|}.

(** The options the code uses. *)
Inductive Flag : Type :=
  | FNewSession | FDieWithParent | FUnshareUser | FUnsharePid | FUnshareNet | FSeparator
  | FArgv0 | FBind | FRoBind | FProc | FDev | FTmpfs | FDir | FRemountRo | FPerms | FRoBindData.

Definition flag_table : list (str * Flag) :=
  [(lit "--new-session", FNewSession); (lit "--die-with-parent", FDieWithParent);
   (lit "--unshare-user", FUnshareUser); (lit "--unshare-pid", FUnsharePid);
   (lit "--unshare-net", FUnshareNet); (lit "--", FSeparator); (lit "--argv0", FArgv0);
   (lit "--bind", FBind); (lit "--ro-bind", FRoBind); (lit "--proc", FProc);
   (lit "--dev", FDev); (lit "--tmpfs", FTmpfs); (lit "--dir", FDir);
   (lit "--remount-ro", FRemountRo); (lit "--perms", FPerms);
   (lit "--ro-bind-data", FRoBindData)].

Definition flag_of (arg : str) : option Flag :=
  (λ p, p.2.2) <$> list_find (λ p, p.1 = arg) flag_table.

(** [strtoul] and [strtol] of a numeral without sign or blanks. *)
Fixpoint numeral (base acc : N) (s : str) : option N :=
  match s with
  | [] => Some acc
  | c :: s' =>
      if ((48 <=? c) && (c <? 48 + base))%N then numeral base (acc * base + (c - 48)) s'
      else None
  end.

Definition strtol (base : N) (s : str) : option N :=
  match s with [] => None | _ => numeral base 0 s end.

(** The loop of [parse_args_recurse]: [None] is an exit with an error message.
    An option that does not use the permissions given before it is an error. *)
Fixpoint parse_options (s : Parsed) (next_perms : option N) (argv : list str) : option Parsed :=
  match argv with
  | [] => Some s
  | arg :: argv =>
      match flag_of arg, next_perms, argv with
      | Some FSeparator, _, rest => Some (set_command s rest)
      | Some FTmpfs, _, dest :: argv =>
          parse_options (add_ops s [MountTmpfs (default 0x1ED%N next_perms) (path_of_str dest)])
            None argv
      | Some FDir, _, dest :: argv =>
          parse_options (add_ops s [MakeDir (default 0x1ED%N next_perms) (path_of_str dest)])
            None argv
      | Some FRoBindData, _, fd :: dest :: argv =>
          match strtol 10 fd with
          | Some fd =>
              parse_options
                (add_ops s [MakeRoBindFile fd (default 0x180%N next_perms) (path_of_str dest)])
                None argv
          | None => None
          end
      | Some FPerms, None, perms :: argv =>
          match strtol 8 perms with
          | Some perms => if (perms <=? 0xFFF)%N then parse_options s (Some perms) argv else None
          | None => None
          end
      | Some FNewSession, None, _ =>
          parse_options (set_flags s false false false true false) None argv
      | Some FDieWithParent, None, _ =>
          parse_options (set_flags s false false false false true) None argv
      | Some FUnshareUser, None, _ =>
          parse_options (set_flags s true false false false false) None argv
      | Some FUnsharePid, None, _ =>
          parse_options (set_flags s false true false false false) None argv
      | Some FUnshareNet, None, _ =>
          parse_options (set_flags s false false true false false) None argv
      | Some FArgv0, None, name :: argv =>
          match argv0 s with
          | None => parse_options (set_argv0 s name) None argv
          | Some _ => None
          end
      | Some FBind, None, source :: dest :: argv =>
          parse_options (add_ops s [BindMount false (path_of_str source) (path_of_str dest)])
            None argv
      | Some FRoBind, None, source :: dest :: argv =>
          parse_options (add_ops s [BindMount true (path_of_str source) (path_of_str dest)])
            None argv
      | Some FProc, None, dest :: argv =>
          parse_options (add_ops s [MountProc (path_of_str dest)]) None argv
      | Some FDev, None, dest :: argv =>
          parse_options (add_ops s [MountDev (path_of_str dest)]) None argv
      | Some FRemountRo, None, dest :: argv =>
          parse_options (add_ops s [RemountRo (path_of_str dest)]) None argv
      | None, _, rest =>
          if starts_with (lit "-") arg then None else Some (set_command s (arg :: rest))
      | _, _, _ => None
      end
  end.

(** The most arguments bubblewrap takes, the command's included. *)
Definition MAX_ARGS : Z := 9000.

Definition parse_args (argv : list str) : option Parsed :=
  if (MAX_ARGS <? Z.of_nat (length argv))%Z then None
  else parse_options parsed_nothing None argv.

(** ** The new root: [setup_newroot] *)
Inductive Kind : Type := KDir | KFile | KLink.

(** A mount shows a part of the host, an empty file system with what was made
    in it since, the terminals of a new [devpts], the process table, or the
    contents of a descriptor. *)
Inductive Content : Type :=
  | OnHost (source : Path) (read_only : bool)
  | Tmpfs (read_only : bool) (made : list (Path * Kind))
  | Terminals
  | Processes
  | DataFile.

Record Mount : Type := { mounted_at : Path; content : Content }.

(** The mounts, the newest first, and what setting them up created on the host. *)
Record Newroot : Type := {
  mounts : list Mount;
  host_made : list (Path * Kind);
}.

#[export] Instance Kind_eq_dec : EqDecision Kind.
Proof. solve_decision. Defined.
#[export] Instance Content_eq_dec : EqDecision Content.
Proof. solve_decision. Defined.
#[export] Instance Mount_eq_dec : EqDecision Mount.
Proof. solve_decision. Defined.
#[export] Instance Newroot_eq_dec : EqDecision Newroot.
Proof. solve_decision. Defined.

(** bubblewrap starts from an empty [tmpfs]. *)
Definition empty_root : Newroot :=
  {| mounts := [{| mounted_at := [RootDir]; content := Tmpfs false [] |}]; host_made := [] |}.

Definition lookup_path {A} (p : Path) (l : list (Path * A)) : option A :=
  (λ x, x.2.2) <$> list_find (λ x, x.1 = p) l.

Definition slash_dev : Path := path_of_str (lit "/dev").

(** A name in a directory. *)
Definition in_dir (d : Path) (name : str) : Path := d ++ [Normal name].

(** [devnodes], and the symbolic links of [SETUP_MOUNT_DEV]. *)
Definition devnodes : list str :=
  [lit "null"; lit "zero"; lit "full"; lit "random"; lit "urandom"; lit "tty"].
Definition devlinks : list str :=
  [lit "stdin"; lit "stdout"; lit "stderr"; lit "fd"; lit "core"].

Section Newroot.
Context `{BwrapEnv}.

Definition host_kind (p : Path) : option Kind :=
  if is_dir p then Some KDir else if path_exists p then Some KFile else None.

(** The mount that serves a path, and the rest of the path below it. *)
Definition serves (m : Mount) (q : Path) : bool := path_starts_with q (mounted_at m).

Definition serving (ns : Newroot) (q : Path) : option Mount :=
  head (List.filter (λ m, serves m q) (mounts ns)).

Definition below (m : Mount) (q : Path) : Path := drop (length (mounted_at m)) q.

(** [stat]. *)
Definition stat (ns : Newroot) (q : Path) : option Kind :=
  match serving ns q with
  | None => None
  | Some m =>
      match content m, below m q with
      | OnHost source _, rest =>
          match host_kind (source ++ rest) with
          | Some k => Some k
          | None => lookup_path (source ++ rest) (host_made ns)
          end
      | Tmpfs _ _, [] | Terminals, [] | Processes, [] => Some KDir
      | Tmpfs _ made, _ => lookup_path q made
      | Terminals, rest => if bool_decide (rest = [Normal (lit "ptmx")]) then Some KFile else None
      | Processes, _ => None
      | DataFile, [] => Some KFile
      | DataFile, _ => None
      end
  end.

Fixpoint update_serving (q : Path) (f : Content → Content) (l : list Mount) : list Mount :=
  match l with
  | [] => []
  | m :: l' =>
      if serves m q then {| mounted_at := mounted_at m; content := f (content m) |} :: l'
      else m :: update_serving q f l'
  end.

Definition add_entry (q : Path) (k : Kind) (c : Content) : Content :=
  match c with
  | Tmpfs read_only made => Tmpfs read_only ((q, k) :: made)
  | c => c
  end.

(** [mkdir], [creat] and [symlink] of a path that does not exist. *)
Definition make (ns : Newroot) (q : Path) (k : Kind) : option Newroot :=
  match serving ns q with
  | None => None
  | Some m =>
      match content m with
      | OnHost source false =>
          Some {| mounts := mounts ns; host_made := (source ++ below m q, k) :: host_made ns |}
      | Tmpfs false _ =>
          Some {| mounts := update_serving q (add_entry q k) (mounts ns);
                  host_made := host_made ns |}
      | OnHost _ true | Tmpfs true _ | Terminals | Processes | DataFile => None
      end
  end.

(** [ensure_dir] and [ensure_file] of [utils.c], which follow no symbolic link
    here: what would go through one is taken to fail. *)
Definition ensure (ns : Newroot) (k : Kind) (q : Path) : option Newroot :=
  match stat ns q with
  | Some k' => if bool_decide (k' = k) then Some ns else None
  | None => make ns q k
  end.

Fixpoint foldO {S A} (f : S → A → option S) (s : S) (l : list A) : option S :=
  match l with [] => Some s | x :: l' => s ← f s x; foldO f s l' end.

(** [mkdir_with_parents] without the last component. *)
Definition proper_prefixes (q : Path) : list Path :=
  (λ n, take (S n) q) <$> seq 0 (length q - 1).

Definition ensure_parents (ns : Newroot) (q : Path) : option Newroot :=
  foldO (λ ns p, ensure ns KDir p) ns (proper_prefixes q).

Definition mount (ns : Newroot) (q : Path) (c : Content) : Newroot :=
  {| mounts := {| mounted_at := q; content := c |} :: mounts ns; host_made := host_made ns |}.

Definition make_read_only (c : Content) : Content :=
  match c with
  | OnHost source _ => OnHost source true
  | Tmpfs _ made => Tmpfs true made
  | c => c
  end.

(** A device node of the host, mounted for reading and writing on a new file. *)
Definition bind_device (ns : Newroot) (source dest : Path) : option Newroot :=
  ns ← make ns dest KFile;
  match host_kind source with
  | Some KFile => Some (mount ns dest (OnHost source false))
  | _ => None
  end.

(** The nodes, links and directories of [SETUP_MOUNT_DEV], on the [tmpfs] just
    mounted. *)
Definition populate_dev (ns : Newroot) (dest : Path) : option Newroot :=
  ns ← foldO (λ ns name, bind_device ns (in_dir slash_dev name) (in_dir dest name)) ns devnodes;
  ns ← foldO (λ ns name, make ns (in_dir dest name) KLink) ns devlinks;
  ns ← make ns (in_dir dest (lit "shm")) KDir;
  ns ← make ns (in_dir dest (lit "pts")) KDir;
  let ns := mount ns (in_dir dest (lit "pts")) Terminals in
  ns ← make ns (in_dir dest (lit "ptmx")) KLink;
  match host_tty_dev with
  | Some tty => bind_device ns tty (in_dir dest (lit "console"))
  | None => Some ns
  end.

(** One operation; [None] is [die_with_error]. *)
Definition setup_op (ns : Newroot) (op : SetupOp) : option Newroot :=
  match op with
  | BindMount read_only source dest =>
      k ← host_kind source;
      ns ← ensure_parents ns dest;
      ns ← ensure ns k dest;
      Some (mount ns dest (OnHost source read_only))
  | MountProc dest =>
      ns ← ensure_parents ns dest;
      ns ← ensure ns KDir dest;
      Some (mount ns dest Processes)
  | MountDev dest =>
      ns ← ensure_parents ns dest;
      ns ← ensure ns KDir dest;
      populate_dev (mount ns dest (Tmpfs false [])) dest
  | MountTmpfs _ dest =>
      ns ← ensure_parents ns dest;
      ns ← ensure ns KDir dest;
      Some (mount ns dest (Tmpfs false []))
  | MakeDir _ dest =>
      ns ← ensure_parents ns dest;
      ensure ns KDir dest
  | RemountRo dest =>
      ns ← ensure_parents ns dest;
      m ← serving ns dest;
      if bool_decide (mounted_at m = dest)
      then Some {| mounts := update_serving dest make_read_only (mounts ns);
                   host_made := host_made ns |}
      else None
  | MakeRoBindFile _ _ dest =>
      ns ← ensure_parents ns dest;
      ns ← ensure ns KFile dest;
      Some (mount ns dest DataFile)
  end.

Definition setup_newroot (ns : Newroot) (ops : list SetupOp) : option Newroot :=
  foldO setup_op ns ops.

(** What a path of the sandbox is on the host: the file, and whether it is
    read-only. *)
Definition host_at (ns : Newroot) (q : Path) : option (Path * bool) :=
  match serving ns q with
  | Some m =>
      match content m with
      | OnHost source read_only => Some (source ++ below m q, read_only)
      | _ => None
      end
  | None => None
  end.

(** Where the device nodes are mounted, and their sources on the host. *)
Definition device_binds (dest : Path) : list (Path * Path) :=
  ((λ name, (in_dir dest name, in_dir slash_dev name)) <$> devnodes)
  ++ match host_tty_dev with Some tty => [(in_dir dest (lit "console"), tty)] | None => [] end.

(** [p] is what the device mounts of [dest] show at [q]. *)
Definition device_at (dest q p : Path) : Prop :=
  ∃ m s, (m, s) ∈ device_binds dest ∧ m `prefix_of` q ∧ p = s ++ drop (length m) q.

(** The sandbox for a command line: bubblewrap reads it, and sets up the root. *)
Definition sandbox (argv : list str) : option (Parsed * Newroot) :=
  parsed ← parse_args argv;
  ns ← setup_newroot empty_root (ops parsed);
  Some (parsed, ns).
End Newroot.
