(* ===== verification/BwrapOps.v ===== *)
(** * The operations behind the command line of the Linux sandbox

    Paths and descriptors survive the way through the arguments, each piece of
    the command line stands for a list of operations, and the last operation
    whose mount covers a path is the one that serves it.  The file ends with
    what the roots of a policy are and that every path of the command line is
    one a real file system can have. *)
From Stdlib Require Import DecimalString DecimalPos DecimalN.
From stdpp Require Import base tactics option list sets numbers strings.
From S2P Require Import Prelude RustStr Paths Permissions Bwrap BwrapView.
From stdpp Require Import list.

(** ** Paths as arguments *)

(** The names [Path::components] produces. *)
Definition plain_name (s : str) : bool :=
  negb (bool_decide (s = [])) && negb (bool_decide (s = lit "."))
  && negb (bool_decide (s = lit "..")) && negb (bool_decide (SLASH ∈ s)).

Definition plain (p : Path) : bool :=
  forallb (λ c, match c with Normal s => plain_name s | _ => true end) p.

(** An absolute, normalised path with the names of a real one. *)
Definition real (p : Path) : bool := normal_abs p && plain p.

Lemma plain_name_spec s :
  plain_name s = true ↔ s ≠ [] ∧ s ≠ lit "." ∧ s ≠ lit ".." ∧ SLASH ∉ s.
Proof.
  unfold plain_name. rewrite !andb_true_iff, !negb_true_iff, !bool_decide_eq_false. tauto.
Qed.

Lemma real_spec p :
  real p = true ↔ ∃ names, p = RootDir :: (Normal <$> names) ∧ Forall (λ s, plain_name s = true) names.
Proof.
  unfold real, plain. rewrite andb_true_iff, normal_abs_spec, forallb_elem. split.
  - intros [[names ->] Hp]. exists names. split; [done|]. apply Forall_forall. intros s Hs.
    apply (Hp (Normal s)). apply elem_of_cons. right. by apply list_elem_of_fmap_2.
  - intros (names & -> & Hn). split; [by exists names|]. rewrite Forall_forall in Hn.
    intros c [->|(s & -> & Hs)%list_elem_of_fmap]%elem_of_cons; [done|]. by apply Hn.
Qed.

Lemma real_normal p : real p = true → normal_abs p = true.
Proof. by intros [? _]%andb_true_iff. Qed.

Lemma real_plain p : real p = true → plain p = true.
Proof. by intros [_ ?]%andb_true_iff. Qed.

(** Reading a real path back. *)
Lemma path_of_to_string p : real p = true → path_of_str (path_to_string p) = p.
Proof.
  intros (names & -> & Hn)%real_spec. unfold path_to_string.
  assert (RustStr.split SLASH (SLASH :: RustStr.join [SLASH] (component_str <$> (Normal <$> names)))
          = [] :: (if decide (names = []) then [[]] else names)) as Hs.
  { etrans; [apply (split_app_sep SLASH []); set_solver|]. f_equal.
    rewrite <- list_fmap_compose. rewrite (list_fmap_ext _ id names) by done. rewrite list_fmap_id.
    case_decide as Hd; [by rewrite Hd|]. apply split_join; [done|].
    eapply Forall_impl; [exact Hn|]. by intros s (_ & _ & _ & ?)%plain_name_spec. }
  unfold path_of_str. rewrite Hs. rewrite bool_decide_eq_true_2 by done. f_equal.
  cbn [omap list_omap]. replace (segment []) with (@None Component) by done.
  case_decide as Hd; [by rewrite Hd|]. clear Hs Hd. induction Hn as [|s names Hs Hn IH]; [done|].
  cbn. apply plain_name_spec in Hs as (H1 & H2 & H3 & _). unfold segment at 1.
  rewrite !bool_decide_eq_false_2 by done. by rewrite IH.
Qed.

(** Reading a descriptor back. *)
Lemma lit_String a s : lit (String a s) = Ascii.N_of_ascii a :: lit s.
Proof. done. Qed.

Lemma numeral_uint d acc :
  numeral 10 (Npos acc) (lit (NilEmpty.string_of_uint d)) = Some (Npos (Pos.of_uint_acc d acc)).
Proof.
  revert acc; induction d; intros acc; [done|..]; cbn [NilEmpty.string_of_uint Pos.of_uint_acc];
    rewrite <- IHd, lit_String; cbn -[N.mul N.add Pos.mul Pos.add lit]; f_equal; lia.
Qed.

Lemma numeral_uint_0 d : numeral 10 0 (lit (NilEmpty.string_of_uint d)) = Some (N.of_uint d).
Proof. induction d; [done|exact IHd|..]; exact (numeral_uint d _). Qed.

Lemma strtol_show_N n : strtol 10 (show_N n) = Some n.
Proof.
  unfold show_N. rewrite <- (DecimalN.Unsigned.of_to n) at 2.
  assert (N.to_uint n ≠ Decimal.Nil) as Hnil by (destruct n; [done|apply DecimalPos.Unsigned.to_uint_nonnil]).
  revert Hnil. generalize (N.to_uint n). intros d Hd.
  assert (NilZero.string_of_uint d = NilEmpty.string_of_uint d) as -> by by destruct d.
  rewrite <- numeral_uint_0. by destruct d.
Qed.

(** ** The operations the arguments stand for *)

(** bubblewrap accepts that many arguments. *)
Definition fits (argv : list str) : Prop := (Z.of_nat (length argv) ≤ MAX_ARGS)%Z.

Lemma parse_fits argv : fits argv → parse_args argv = parse_options parsed_nothing None argv.
Proof. unfold fits, parse_args. intros Hf. by rewrite (proj2 (Z.ltb_ge _ _)). Qed.

(** Parsing [l], which contains no separator, adds the operations [o]. *)
Definition emits (l : list str) (o : list SetupOp) : Prop :=
  Forall (λ arg, arg ≠ lit "--") l ∧
  ∀ s rest, parse_options s None (l ++ rest) = parse_options (add_ops s o) None rest.

Lemma add_ops_nil s : add_ops s [] = s.
Proof. destruct s. unfold add_ops. simpl. by rewrite app_nil_r. Qed.

Lemma add_ops_app s o o' : add_ops (add_ops s o) o' = add_ops s (o ++ o').
Proof. unfold add_ops. simpl. by rewrite app_assoc. Qed.

Lemma emits_nil : emits [] [].
Proof. split; [done|]. intros s rest. by rewrite add_ops_nil. Qed.

Lemma emits_app l l' o o' : emits l o → emits l' o' → emits (l ++ l') (o ++ o').
Proof.
  intros [Hl H] [Hl' H']. split; [by apply Forall_app|].
  intros s rest. by rewrite <- app_assoc, H, H', add_ops_app.
Qed.

Lemma path_not_separator p : real p = true → path_to_string p ≠ lit "--".
Proof. by intros (names & -> & _)%real_spec. Qed.

Lemma number_not_separator n : show_N n ≠ lit "--".
Proof. intros Hn. pose proof (strtol_show_N n) as Hs. by rewrite Hn in Hs. Qed.

(** The commands that take a path, for real paths. *)
Ltac emit :=
  split;
  [repeat constructor; first [by apply path_not_separator|by apply number_not_separator|done]|];
  intros s rest; cbn [app parse_options];
  repeat match goal with
    | |- context [flag_of ?arg] =>
        let f := eval vm_compute in (flag_of arg) in change (flag_of arg) with f; cbn [parse_options]
    | |- context [strtol 8 ?arg] =>
        let n := eval vm_compute in (strtol 8 arg) in change (strtol 8 arg) with n
    end.

Lemma emits_bind p : real p = true →
  emits [lit "--bind"; path_to_string p; path_to_string p] [BindMount false p p].
Proof. intros Hp. emit. by rewrite path_of_to_string. Qed.

Lemma emits_ro_bind p : real p = true →
  emits [lit "--ro-bind"; path_to_string p; path_to_string p] [BindMount true p p].
Proof. intros Hp. emit. by rewrite path_of_to_string. Qed.

Lemma emits_dev_null p : real p = true →
  emits [lit "--ro-bind"; lit "/dev/null"; path_to_string p] [BindMount true dev_null p].
Proof. intros Hp. emit. by rewrite path_of_to_string. Qed.

Lemma emits_dir p : real p = true →
  emits [lit "--dir"; path_to_string p] [MakeDir 0x1ED%N p].
Proof. intros Hp. emit. by rewrite path_of_to_string. Qed.

Lemma emits_remount p : real p = true →
  emits [lit "--remount-ro"; path_to_string p] [RemountRo p].
Proof. intros Hp. emit. by rewrite path_of_to_string. Qed.

Lemma emits_tmpfs (hidden : bool) p : real p = true →
  emits [lit "--perms"; if hidden then lit "000" else lit "111"; lit "--tmpfs"; path_to_string p]
    [MountTmpfs (if hidden then 0x0%N else 0x49%N) p].
Proof. intros Hp. destruct hidden; emit; by rewrite path_of_to_string. Qed.

Lemma emits_data fd p : real p = true →
  emits [lit "--perms"; lit "000"; lit "--ro-bind-data"; show_N fd; path_to_string p]
    [MakeRoBindFile fd 0x0%N p].
Proof. intros Hp. emit. by rewrite strtol_show_N, path_of_to_string. Qed.

Section Extends.
Context `{BwrapEnv}.

(** At most one descriptor is kept, the one of [/dev/null]. *)
Definition files_ok (self : BwrapArgs) : Prop :=
  preserved_files self = [] ∨ ∃ fd, open_dev_null = Some fd ∧ preserved_files self = [fd].

(** [self'] has the arguments of [self] and more, which add the operations [o]. *)
Definition extends (self self' : BwrapArgs) (o : list SetupOp) : Prop :=
  files_ok self' ∧ ∃ l, args self' = args self ++ l ∧ emits l o.

Lemma extends_refl self : files_ok self → extends self self [].
Proof. intros. split; [done|]. exists []. split; [by rewrite app_nil_r|apply emits_nil]. Qed.

Lemma extends_push self l o : files_ok self → emits l o → extends self (push_all self l) o.
Proof. intros. split; [done|]. by exists l. Qed.

Lemma extends_trans a b c o o' : extends a b o → extends b c o' → extends a c (o ++ o').
Proof.
  intros (Hp & l & Hl & Ho) (Hp' & l' & Hl' & Ho'). split; [done|]. exists (l ++ l').
  split; [by rewrite Hl', Hl, app_assoc|]. by apply emits_app.
Qed.

Lemma extends_foldl {A} (f : BwrapArgs → A → BwrapArgs) (ops_of : A → list SetupOp) l self :
  files_ok self →
  (∀ self x, files_ok self → x ∈ l → extends self (f self x) (ops_of x)) →
  extends self (foldl f self l) (concat (ops_of <$> l)).
Proof.
  revert self; induction l as [|x l IH]; intros self Hs Hf; [by apply extends_refl|]. cbn.
  assert (extends self (f self x) (ops_of x)) as Hx by (apply Hf; [done|apply list_elem_of_here]).
  eapply extends_trans; [exact Hx|]. apply IH; [apply Hx|]. intros. apply Hf; set_solver.
Qed.

Lemma extends_foldM {E A} (f : BwrapArgs → A → outcome E BwrapArgs) (ops_of : A → list SetupOp)
    l self self' :
  files_ok self →
  (∀ self x self', files_ok self → x ∈ l → f self x = Ok self' → extends self self' (ops_of x)) →
  foldM f self l = Ok self' → extends self self' (concat (ops_of <$> l)).
Proof.
  revert self; induction l as [|x l IH]; intros self Hs Hf; cbn.
  - intros [= <-]. by apply extends_refl.
  - intros (b & Hb & Hr)%bind_Ok_inv.
    assert (extends self b (ops_of x)) as Hx by (eapply Hf; [done|apply list_elem_of_here|done]).
    eapply extends_trans; [exact Hx|]. apply IH; [apply Hx| |done].
    intros ??? ??. apply Hf; set_solver.
Qed.
End Extends.

(** Real paths have real prefixes. *)
Lemma real_prefix p q : real q = true → p `prefix_of` q → p ≠ [] → real p = true.
Proof.
  intros (names & -> & Hn)%real_spec [k Hk] Hne. destruct p as [|c p]; [done|].
  injection Hk as <- Hk. apply real_spec.
  apply fmap_app_inv in Hk as (n1 & n2 & -> & -> & ->). exists n1. split; [done|].
  by apply Forall_app in Hn as [? _].
Qed.

Lemma real_root : real [RootDir] = true.
Proof. done. Qed.

Lemma root_prefix q : real q = true → [RootDir] `prefix_of` q.
Proof. intros. by apply normal_abs_root, real_normal. Qed.

Lemma real_ancestor p a : real p = true → a ∈ ancestors p → real a = true.
Proof.
  intros Hp Ha. eapply real_prefix; [done|by apply ancestors_prefix|]. intros ->.
  apply real_spec in Hp as (names & -> & _). revert Ha. unfold ancestors.
  rewrite reverse_cons, <- fmap_reverse. generalize (reverse names). clear names.
  induction l as [|n l IH]; [simpl; set_solver|].
  intros [Hn|?]%elem_of_cons; [|by apply IH].
  apply (f_equal length) in Hn. rewrite length_reverse in Hn. done.
Qed.

Lemma elem_of_take_while {A} (f : A → bool) l x : x ∈ take_while f l → x ∈ l ∧ f x = true.
Proof.
  induction l as [|y l IH]; simpl; [set_solver|].
  destruct (f y) eqn:E; [|set_solver]. intros [->|?]%elem_of_cons; set_solver.
Qed.

(** A host without symbolic links, whose names are the ones paths can have. *)
Class RealHost `{BwrapEnv} : Prop := {
  #[global] real_path_laws :: PathLaws;
  no_symlinks p b : symlink_metadata p = Some b → b = false;
  canonical_id p q : canonicalize p = Some q → q = p;
  exists_prefix p q : path_exists q = true → p `prefix_of` q → p ≠ [] → path_exists p = true;
  home_plain p : home_dir = Some p → plain p = true;
  absolutize_plain p q : plain p = true → absolutize p = Some q → plain q = true;
  absolutize_from_plain p b q :
    plain p = true → plain b = true → absolutize_from p b = Some q → plain q = true;
}.

Section Ops.
Context `{RealHost}.

Definition missing_ops (path : Path) (allowed : list Path) : list SetupOp :=
  match find_first_non_existent_component path with
  | Some c => if is_within_allowed_write_paths c allowed then [BindMount true dev_null c] else []
  | None => []
  end.

Definition sub_ops (path : Path) (allowed : list Path) : list SetupOp :=
  if negb (path_exists path) then missing_ops path allowed
  else if is_within_allowed_write_paths path allowed then [BindMount true path path] else [].

Definition dir_ops (mount_target anchor : Path) : list SetupOp :=
  MakeDir 0x1ED%N <$> mount_target_dirs mount_target anchor.

Definition is_nil {A} (l : list A) : bool := match l with [] => true | _ :: _ => false end.

Definition mask_ops (allowed : list Path) (path : Path) : list SetupOp :=
  if negb (path_exists path) then missing_ops path allowed
  else if is_dir path then
    let descendants := writable_descendants path allowed in
    MountTmpfs (if is_nil descendants then 0x0%N else 0x49%N) path
    :: concat ((λ d, dir_ops d path) <$> sort_by_key path_depth descendants) ++ [RemountRo path]
  else [MakeRoBindFile (default 0%N open_dev_null) 0x0%N path].

Lemma find_symlink_None p allowed : find_symlink_in_path p allowed = None.
Proof.
  unfold find_symlink_in_path. generalize ([] : Path).
  induction p as [|[] p IH]; intros cur; simpl; [done|apply IH..|].
  destruct (symlink_metadata _) eqn:E; [|done]. apply no_symlinks in E as ->. apply IH.
Qed.

(** The first missing component is the shortest missing prefix. *)
Lemma find_missing_from_spec names cur :
  match find_missing_from cur (Normal <$> names) with
  | Some c => c `prefix_of` cur ++ (Normal <$> names) ∧ length cur < length c ∧
              path_exists c = false ∧
              ∀ d, d `prefix_of` c → length cur < length d < length c → path_exists d = true
  | None => names = [] ∨ path_exists (cur ++ (Normal <$> names)) = true
  end.
Proof.
  revert cur; induction names as [|n names IH]; intros cur; cbn; [by left|].
  destruct (path_exists (cur ++ [Normal n])) eqn:E.
  - specialize (IH (cur ++ [Normal n])). rewrite <- app_assoc in IH. cbn in IH.
    change (fmap (M := list) Normal names) with (Normal <$> names).
    destruct (find_missing_from _ _) as [c|]; cbn in IH |- *.
    + destruct IH as (Hc & Hl & Hm & Hd). rewrite length_app in Hl, Hd. simpl in Hl, Hd.
      split_and!; [done|lia|done|]. intros d Hdc Hdl.
      destruct (decide (length d = length cur + 1)) as [Hn|]; [|apply Hd; [done|lia]].
      assert (d = cur ++ [Normal n]) as ->; [|done].
      apply prefix_length_eq; [|by rewrite length_app; simpl; lia].
      eapply prefix_of_same_length; [by etrans| |rewrite length_app; simpl; lia].
      exists (Normal <$> names). by rewrite <- app_assoc.
    + right. destruct IH as [->|?]; done.
  - rewrite length_app. simpl. split_and!; [|lia|done|lia].
    exists (Normal <$> names). by rewrite <- app_assoc.
Qed.

Lemma find_missing_Some p c :
  real p = true → find_first_non_existent_component p = Some c →
  real c = true ∧ c `prefix_of` p ∧ path_exists c = false
  ∧ ∀ d, d `prefix_of` c → d ≠ c → d ≠ [] → d ≠ [RootDir] → path_exists d = true.
Proof.
  intros Hp. pose proof Hp as (names & -> & _)%real_spec.
  unfold find_first_non_existent_component. cbn. intros Hc.
  pose proof (find_missing_from_spec names [RootDir]) as Hs. rewrite Hc in Hs.
  destruct Hs as (Hpre & Hl & He & Hd). split_and!; [|done|done|].
  - eapply real_prefix; [exact Hp|exact Hpre|]. intros ->. simpl in Hl. lia.
  - intros d Hdc Hne Hnn Hnr. apply Hd; [done|].
    assert (length d ≠ length c) by (intros ?; apply Hne, prefix_length_eq; [done|lia]).
    pose proof (prefix_length _ _ Hdc). simpl in *.
    destruct d as [|x [|y d]]; simpl in *; [done| |lia].
    destruct Hnr. destruct Hpre as [k Hk]. destruct Hdc as [k' ->]. by injection Hk as <-.
Qed.

Lemma find_missing_None p :
  real p = true → path_exists p = false → p ≠ [RootDir] →
  ∃ c, find_first_non_existent_component p = Some c.
Proof.
  intros (names & -> & _)%real_spec He Hne. unfold find_first_non_existent_component. cbn.
  pose proof (find_missing_from_spec names [RootDir]) as Hs.
  change (fmap (M := list) Normal names) with (Normal <$> names).
  destruct (find_missing_from _ _) as [c|]; [by exists c|].
  destruct Hs as [->|Hs]; [done|]. cbn in Hs. congruence.
Qed.

Lemma extends_missing self p allowed :
  files_ok self → real p = true →
  extends self (append_missing_args self p allowed) (missing_ops p allowed).
Proof.
  intros Hf Hp. unfold append_missing_args, missing_ops.
  destruct (find_first_non_existent_component p) as [c|] eqn:E; [|by apply extends_refl].
  apply find_missing_Some in E as (Hc & _); [|done].
  destruct (is_within_allowed_write_paths c allowed); [|by apply extends_refl].
  by apply extends_push, emits_dev_null.
Qed.

Lemma extends_sub self p allowed :
  files_ok self → real p = true →
  extends self (append_read_only_subpath_args self p allowed) (sub_ops p allowed).
Proof.
  intros Hf Hp. unfold append_read_only_subpath_args, sub_ops. rewrite find_symlink_None.
  destruct (path_exists p); simpl; [|by apply extends_missing].
  destruct (is_within_allowed_write_paths p allowed); [|by apply extends_refl].
  by apply extends_push, emits_ro_bind.
Qed.

Lemma parent_ancestor p d : parent p = Some d → d `prefix_of` p ∧ (normal_abs p = true → d ≠ []).
Proof.
  unfold parent. destruct p as [|c p _] using rev_ind; [done|]. rewrite reverse_snoc.
  intros Hd. assert (c ≠ RootDir ∧ d = p) as [Hc ->].
  { destruct c; try done; rewrite reverse_involutive in Hd; by simplify_eq. }
  split; [by apply prefix_app_r|]. intros [names Hn]%normal_abs_spec ->. by injection Hn as ->.
Qed.

Lemma real_target_dir mt anchor d : real mt = true → d ∈ mount_target_dirs mt anchor → real d = true.
Proof.
  intros Hm. unfold mount_target_dirs.
  assert (∀ x, (if is_dir mt then Some mt else parent mt) = Some x → real x = true) as Hx.
  { intros x. destruct (is_dir mt); [by intros [= <-]|]. intros [Hp Hn]%parent_ancestor.
    eapply real_prefix; [done..|]. by apply Hn, real_normal. }
  destruct (if is_dir mt then Some mt else parent mt) as [x|]; [|set_solver].
  rewrite elem_of_reverse. intros [Hd _]%elem_of_take_while. by eapply real_ancestor; [apply Hx|].
Qed.

Lemma extends_dirs self mt anchor :
  files_ok self → real mt = true →
  extends self (append_mount_target_parent_dir_args self mt anchor) (dir_ops mt anchor).
Proof.
  intros Hf Hm. unfold append_mount_target_parent_dir_args, dir_ops.
  assert (MakeDir 0x1ED%N <$> mount_target_dirs mt anchor
          = concat ((λ d, [MakeDir 0x1ED%N d]) <$> mount_target_dirs mt anchor)) as ->.
  { induction (mount_target_dirs mt anchor) as [|d l IH]; [done|]. cbn. by f_equal. }
  apply extends_foldl; [done|]. intros a d Ha Hd.
  by apply extends_push, emits_dir; [|eapply real_target_dir].
Qed.

Lemma elem_of_descendants d u allowed :
  d ∈ writable_descendants u allowed ↔ d ∈ allowed ∧ d ≠ u ∧ u `prefix_of` d.
Proof.
  unfold writable_descendants. rewrite elem_of_filterb, andb_true_iff, negb_true_iff,
    bool_decide_eq_false, path_starts_with_spec. tauto.
Qed.

Lemma extends_mask self self' u allowed :
  files_ok self → real u = true → (∀ r, r ∈ allowed → real r = true) →
  append_unreadable_root_args self u allowed = Ok self' →
  extends self self' (mask_ops allowed u).
Proof.
  intros Hf Hu Hall. unfold append_unreadable_root_args, mask_ops. rewrite find_symlink_None.
  destruct (path_exists u); simpl; [|intros [= <-]; by apply extends_missing].
  destruct (is_dir u).
  - intros [= <-]. set (ds := writable_descendants u allowed).
    assert ((match ds with [] => lit "000" | _ :: _ => lit "111" end)
            = if is_nil ds then lit "000" else lit "111") as -> by by destruct ds.
    eapply (extends_trans _ _ _ [_] _).
    { apply extends_push; [done|]. by apply emits_tmpfs. }
    assert (extends (push_all self [lit "--perms"; if is_nil ds then lit "000" else lit "111";
                                    lit "--tmpfs"; path_to_string u])
              (foldl (λ self d, append_mount_target_parent_dir_args self d u)
                 (push_all self [lit "--perms"; if is_nil ds then lit "000" else lit "111";
                                 lit "--tmpfs"; path_to_string u]) (sort_by_key path_depth ds))
              (concat ((λ d, dir_ops d u) <$> sort_by_key path_depth ds))) as Hdirs.
    { apply extends_foldl; [done|]. intros a d Ha Hd. apply extends_dirs; [done|].
      rewrite sort_by_key_perm in Hd. by apply Hall, (elem_of_descendants d u allowed). }
    eapply extends_trans; [exact Hdirs|]. apply extends_push; [apply Hdirs|]. by apply emits_remount.
  - intros (files & Hfiles & Hs)%bind_Ok_inv. simplify_eq.
    assert (∃ fd, open_dev_null = Some fd ∧ files = [fd]) as (fd & Hfd & ->).
    { destruct Hf as [Hn|(fd & Hfd & Hn)]; rewrite Hn in Hfiles.
      - destruct open_dev_null as [fd|]; [|done]. simplify_eq. by exists fd.
      - simplify_eq. by exists fd. }
    rewrite Hfd. split; [right; by exists fd|]. eexists. split; [done|]. by apply emits_data.
Qed.
End Ops.

(** ** What the operations mount where *)
Definition mount_point (op : SetupOp) : option Path :=
  match op with
  | BindMount _ _ dest | MountProc dest | MountDev dest | MountTmpfs _ dest
  | MakeRoBindFile _ _ dest => Some dest
  | MakeDir _ _ | RemountRo _ => None
  end.

Definition op_covers (q : Path) (op : SetupOp) : bool :=
  match mount_point op with Some dest => path_starts_with q dest | None => false end.

(** The operation whose mount serves a path in the end. *)
Definition topmost (ops : list SetupOp) (q : Path) : option SetupOp :=
  last (List.filter (op_covers q) ops).

Lemma top_app l k q : topmost (l ++ k) q = match topmost k q with Some o => Some o | None => topmost l q end.
Proof. unfold topmost. rewrite List.filter_app, last_app. done. Qed.

Lemma top_single o q : topmost [o] q = if op_covers q o then Some o else None.
Proof. unfold topmost. simpl. by destruct (op_covers q o). Qed.

Lemma top_cons o l q :
  topmost (o :: l) q = match topmost l q with Some o => Some o | None => if op_covers q o then Some o else None end.
Proof. by rewrite (top_app [o] l), top_single. Qed.

Lemma top_None l q : topmost l q = None ↔ ∀ o, o ∈ l → op_covers q o = false.
Proof.
  unfold topmost. rewrite last_None. split.
  - intros Hl o Ho. apply not_true_iff_false. intros Hc.
    assert (o ∈ List.filter (op_covers q) l) as Hf by by apply elem_of_filterb.
    rewrite Hl in Hf. by apply elem_of_nil in Hf.
  - intros Hl. destruct (List.filter (op_covers q) l) as [|o k] eqn:E; [done|].
    assert (o ∈ List.filter (op_covers q) l) as [Hc Ho]%elem_of_filterb by (rewrite E; set_solver).
    rewrite Hl in Hc; done.
Qed.

Lemma top_Some l q o : topmost l q = Some o → o ∈ l ∧ op_covers q o = true.
Proof. unfold topmost. intros [Hc Ho]%last_Some_elem_of%elem_of_filterb. done. Qed.

Lemma top_concat_cons {A} (f : A → list SetupOp) x l q :
  topmost (concat (f <$> x :: l)) q
  = match topmost (concat (f <$> l)) q with Some o => Some o | None => topmost (f x) q end.
Proof. exact (top_app _ _ _). Qed.

(** In a concatenation, the last part that covers the path decides. *)
Lemma top_concat {A} (f : A → list SetupOp) l q o :
  topmost (concat (f <$> l)) q = Some o →
  ∃ l1 x l2, l = l1 ++ x :: l2 ∧ topmost (f x) q = Some o ∧ ∀ y, y ∈ l2 → topmost (f y) q = None.
Proof.
  induction l as [|x l IH]; [done|]. rewrite top_concat_cons.
  destruct (topmost (concat (f <$> l)) q) as [o'|] eqn:E.
  - intros Ho. destruct IH as (l1 & y & l2 & -> & Hy & Hl2); [done|]. by exists (x :: l1), y, l2.
  - intros Hx. exists [], x, l. split_and!; [done..|]. intros y Hy. rewrite top_None in E |- *.
    intros o' Ho'. apply E, list_elem_of_In, in_concat. exists (f y).
    split; [apply list_elem_of_In, list_elem_of_fmap; by exists y|by apply list_elem_of_In].
Qed.

Lemma top_concat_None {A} (f : A → list SetupOp) l q :
  topmost (concat (f <$> l)) q = None → ∀ x, x ∈ l → topmost (f x) q = None.
Proof.
  induction l as [|y l IH]; [set_solver|]. rewrite top_concat_cons.
  destruct (topmost (concat (f <$> l)) q); [done|]. intros Hy x [->|?]%elem_of_cons; auto.
Qed.

(** ** The mount table a setup leaves *)
Section Setup.
Context `{BwrapEnv}.

Definition shape (m : Mount) : Path * option (Path * bool) :=
  (mounted_at m, match content m with OnHost s ro => Some (s, ro) | _ => None end).

Lemma host_at_shape ns ns' q :
  shape <$> mounts ns' = shape <$> mounts ns → host_at ns' q = host_at ns q.
Proof.
  unfold host_at, serving. generalize (mounts ns) as l. generalize (mounts ns') as k.
  induction k as [|m k IH]; intros [|m' l]; [done..|]. rewrite !fmap_cons.
  intros [= Hat Hc Hl]. simpl. unfold serves. rewrite <- Hat.
  destruct (path_starts_with q (mounted_at m)); [|by apply IH]. simpl. unfold below.
  rewrite <- Hat. destruct (content m), (content m'); by simplify_eq.
Qed.

Lemma update_serving_shape q f l :
  (∀ m, shape {| mounted_at := mounted_at m; content := f (content m) |} = shape m) →
  shape <$> update_serving q f l = shape <$> l.
Proof.
  intros Hf. induction l as [|m l IH]; [done|]. simpl. destruct (serves m q); cbn -[shape]; by rewrite ?Hf, ?IH.
Qed.

Lemma make_shape ns k q ns' : make ns q k = Some ns' → shape <$> mounts ns' = shape <$> mounts ns.
Proof.
  unfold make. destruct (serving ns q) as [m|]; [|done].
  destruct (content m) as [? []|[] ?| | |]; intros [= <-]; simpl; try done;
    apply update_serving_shape; intros [? []]; done.
Qed.

Lemma ensure_shape ns k q ns' : ensure ns k q = Some ns' → shape <$> mounts ns' = shape <$> mounts ns.
Proof. unfold ensure. destruct (stat ns q); [by case_bool_decide; intros [= <-]|]. apply make_shape. Qed.

Lemma foldO_shape {A} (f : Newroot → A → option Newroot) l ns ns' :
  (∀ ns x ns', f ns x = Some ns' → shape <$> mounts ns' = shape <$> mounts ns) →
  foldO f ns l = Some ns' → shape <$> mounts ns' = shape <$> mounts ns.
Proof.
  intros Hf. revert ns; induction l as [|x l IH]; intros ns; simpl; [by intros [= <-]|].
  intros (ns1 & H1 & H2)%bind_Some. rewrite (IH _ H2). by eapply Hf.
Qed.

Lemma ensure_parents_shape ns q ns' :
  ensure_parents ns q = Some ns' → shape <$> mounts ns' = shape <$> mounts ns.
Proof. apply foldO_shape. intros ???. apply ensure_shape. Qed.

Lemma remount_host q d l h p ro :
  host_at {| mounts := update_serving d make_read_only l; host_made := h |} q = Some (p, ro) →
  ∃ ro', host_at {| mounts := l; host_made := h |} q = Some (p, ro') ∧ (ro = false → ro' = false).
Proof.
  unfold host_at, serving. simpl. induction l as [|m l IH]; [done|]. simpl.
  destruct (serves m d) eqn:Ed; simpl; unfold serves in *; simpl;
    destruct (path_starts_with q (mounted_at m)) eqn:Eq; simpl; eauto.
  destruct (content m); simpl; try done. unfold below. simpl. intros [= <- <-]. by eexists.
Qed.

Lemma host_at_mount ns d c q :
  host_at (mount ns d c) q =
    if path_starts_with q d
    then match c with OnHost s ro => Some (s ++ drop (length d) q, ro) | _ => None end
    else host_at ns q.
Proof.
  unfold host_at, serving, serves. simpl. by destruct (path_starts_with q d).
Qed.

(** What the device mounts over a directory show of the host. *)
Definition devices_over (dest : Path) (ns ns' : Newroot) : Prop :=
  ∀ q, if path_starts_with q dest
    then ∀ p ro, host_at ns' q = Some (p, ro) → ro = false ∧ device_at dest q p
    else host_at ns' q = host_at ns q.

Lemma devices_over_make dest ns ns1 ns2 q k :
  devices_over dest ns ns1 → make ns1 q k = Some ns2 → devices_over dest ns ns2.
Proof. intros Ho Hm%make_shape q'. rewrite (host_at_shape ns1 ns2) by done. apply Ho. Qed.

Lemma in_dir_prefix d name q : in_dir d name `prefix_of` q → d `prefix_of` q.
Proof. apply transitivity. by apply prefix_app_r. Qed.

Lemma devices_over_bind dest ns ns1 ns2 s name :
  (in_dir dest name, s) ∈ device_binds dest → devices_over dest ns ns1 →
  bind_device ns1 s (in_dir dest name) = Some ns2 → devices_over dest ns ns2.
Proof.
  intros Hin Ho (ns3 & Hm & Hb)%bind_Some. pose proof (devices_over_make _ _ _ _ _ _ Ho Hm) as Ho3.
  destruct (host_kind s) as [[]|]; try done. injection Hb as <-. intros q.
  rewrite host_at_mount. destruct (path_starts_with q (in_dir dest name)) eqn:E; [|by apply Ho3].
  apply path_starts_with_spec in E.
  rewrite (proj2 (path_starts_with_spec q dest)) by by eapply in_dir_prefix.
  intros p ro [= <- <-]. split; [done|]. by exists (in_dir dest name), s.
Qed.

Lemma devices_over_fold {A} (f : Newroot → A → option Newroot) dest ns l :
  (∀ x ns1 ns2, x ∈ l → devices_over dest ns ns1 → f ns1 x = Some ns2 → devices_over dest ns ns2) →
  ∀ ns1 ns2, devices_over dest ns ns1 → foldO f ns1 l = Some ns2 → devices_over dest ns ns2.
Proof.
  induction l as [|x l IH]; intros Hf ns1 ns2 Ho; cbn; [by intros [= <-]|].
  intros (ns3 & Hx & Hl)%bind_Some. eapply IH; [|by eapply Hf; [left|..]|exact Hl].
  intros y ns4 ns5 Hy. apply Hf. by right.
Qed.

Lemma populate_dev_over dest ns ns' :
  populate_dev (mount ns dest (Tmpfs false [])) dest = Some ns' → devices_over dest ns ns'.
Proof.
  intros Hp. unfold populate_dev in Hp.
  assert (Ho : devices_over dest ns (mount ns dest (Tmpfs false []))).
  { intros q. rewrite host_at_mount. by destruct (path_starts_with q dest). }
  apply bind_Some in Hp as (ns1 & H1 & Hp). apply (devices_over_fold _ dest ns devnodes) in H1; [|clear H1|done].
  2: { intros name n1 n2 Hin. apply devices_over_bind. unfold device_binds. apply elem_of_app. left.
       apply list_elem_of_fmap. by exists name. }
  apply bind_Some in Hp as (ns2 & H2 & Hp). apply (devices_over_fold _ dest ns devlinks) in H2; [|clear H2|done].
  2: { intros name n1 n2 _ Hn Hm. by eapply devices_over_make. }
  apply bind_Some in Hp as (ns3 & H3 & Hp). apply (devices_over_make dest ns) in H3; [|done].
  apply bind_Some in Hp as (ns4 & H4 & Hp). apply (devices_over_make dest ns) in H4; [|done].
  assert (H5 : devices_over dest ns (mount ns4 (in_dir dest (lit "pts")) Terminals)).
  { intros q. rewrite host_at_mount.
    destruct (path_starts_with q (in_dir dest (lit "pts"))) eqn:E; [|apply H4].
    apply path_starts_with_spec, in_dir_prefix, path_starts_with_spec in E. by rewrite E. }
  apply bind_Some in Hp as (ns6 & H6 & Hp). apply (devices_over_make dest ns) in H6; [|done].
  destruct host_tty_dev as [tty|] eqn:Et; [|by injection Hp as <-].
  eapply devices_over_bind; [|exact H6|exact Hp]. unfold device_binds. rewrite Et. set_solver.
Qed.

(** One operation: its mount takes over what it covers. *)
Lemma setup_op_host ns op ns' q p ro :
  setup_op ns op = Some ns' → host_at ns' q = Some (p, ro) →
  if op_covers q op
  then (∃ ro' s d, op = BindMount ro' s d ∧ p = s ++ drop (length d) q ∧ ro = ro') ∨
       (∃ d, op = MountDev d ∧ device_at d q p)
  else ∃ ro', host_at ns q = Some (p, ro') ∧ (ro = false → ro' = false).
Proof.
  unfold op_covers. destruct op as [b s dest|dest|dest|m dest|m dest|dest|fd m dest]; simpl.
  1: intros (k & _ & Hs)%bind_Some; revert Hs.
  all: intros (ns1 & H1%ensure_parents_shape & Hs)%bind_Some; revert Hs.
  3: { intros (ns2 & H2%ensure_shape & Hp%populate_dev_over)%bind_Some Hh. specialize (Hp q).
       destruct (path_starts_with q dest); [right; exists dest; split; [done|by eapply Hp]|].
       exists ro. split; [|done]. rewrite <-Hh, Hp. symmetry. apply host_at_shape. congruence. }
  1-3,6: intros (ns2 & H2%ensure_shape & [= <-])%bind_Some; rewrite host_at_mount;
    destruct (path_starts_with q dest);
    [|rewrite (host_at_shape ns) by congruence; by eauto].
  1: intros [= <- <-]; left; by eauto 6.
  1-3: done.
  - intros H2%ensure_shape. rewrite (host_at_shape ns) by congruence. eauto.
  - intros (m & _ & Hs)%bind_Some. case_bool_decide; [|done]. simplify_eq.
    intros (ro' & Hh & Hro)%(remount_host q). exists ro'. split; [|done].
    rewrite <- Hh. by apply host_at_shape.
Qed.

Lemma setup_host ops ns ns' q p ro :
  setup_newroot ns ops = Some ns' → host_at ns' q = Some (p, ro) →
  match topmost ops q with
  | Some op =>
      (∃ ro' s d, op = BindMount ro' s d ∧ p = s ++ drop (length d) q ∧ (ro = false → ro' = false)) ∨
      (∃ d, op = MountDev d ∧ device_at d q p)
  | None => ∃ ro', host_at ns q = Some (p, ro') ∧ (ro = false → ro' = false)
  end.
Proof.
  revert ns; induction ops as [|op ops IH]; intros ns; unfold setup_newroot; simpl.
  { intros [= <-]. eauto. }
  intros (ns1 & H1 & H2)%bind_Some Hh. specialize (IH ns1 H2 Hh). rewrite top_cons.
  destruct (topmost ops q); [done|]. destruct IH as (ro' & Hh1 & Hro).
  pose proof (setup_op_host _ _ _ _ _ _ H1 Hh1) as Ho. destruct (op_covers q op).
  - destruct Ho as [(ro'' & s & d & -> & -> & ->)|?]; [left; by exists ro'', s, d|by right].
  - destruct Ho as (ro'' & Hh0 & Hro'). exists ro''. split; [done|]. auto.
Qed.
End Setup.

(** ** Which roots a policy has *)
Section PolicyRoots.
Context `{PathLaws}.
Variable cwd : Path.
Hypothesis Hcwd : normal_abs cwd = true.
Hypothesis no_links : ∀ p q, canonicalize p = Some q → q = p.

Lemma access_can_read_spec a : access_can_read a = true ↔ a ≠ AccessNone.
Proof. unfold access_can_read. by rewrite negb_true_iff, bool_decide_eq_false. Qed.

Lemma get_unreadable_roots_Ok self :
  kind self = KindRestricted → forallb entry_wf (entries self) = true →
  ∃ us, get_unreadable_roots_with_cwd self cwd = Ok us ∧
  ∀ t, t ∈ us ↔ (∃ e, e ∈ resolved cwd self ∧ resolved_path e = t ∧ resolved_access e = AccessNone)
                ∧ access_of cwd self t = AccessNone ∧ t ≠ [RootDir].
Proof.
  intros Hk Hwf. unfold get_unreadable_roots_with_cwd, is_restricted. rewrite Hk. simpl.
  rewrite cwd_absolute, absolute_root_Ok, resolved_entries_Ok by done. cbn -[filterM].
  rewrite (filterM_Ok _ (λ e, negb (access_can_read (access_of cwd self (resolved_path e))))).
  2: { intros e [_ He]%elem_of_filterb. rewrite can_read_normal; [done..|]. by eapply resolved_normal. }
  eexists. split; [done|]. intros t. unfold dedup_absolute_paths.
  rewrite elem_of_dedup_from, list_elem_of_fmap. setoid_rewrite list_elem_of_fmap.
  setoid_rewrite elem_of_filterb. setoid_rewrite elem_of_filterb. setoid_rewrite elem_of_filterb.
  setoid_rewrite negb_true_iff. setoid_rewrite bool_decide_eq_false. setoid_rewrite bool_decide_eq_true.
  setoid_rewrite <- not_true_iff_false. setoid_rewrite access_can_read_spec.
  assert (∀ e, e ∈ resolved cwd self → normalize_effective_absolute_path (resolved_path e) = resolved_path e)
    as Hn by (intros e He; eapply normalize_effective_id; [done..|by eapply resolved_normal]).
  split.
  - intros [(p & -> & e & -> & Hr & Hread & Ha & He) _]. rewrite Hn by done.
    split_and!; [by exists e|by apply dec_stable|congruence].
  - intros [(e & He & <- & Ha) [Hacc Hr]]. split; [|set_solver]. exists (resolved_path e).
    rewrite Hn by done. split; [done|]. exists e. split_and!; try done; congruence.
Qed.

Lemma get_readable_roots_Ok self :
  kind self = KindRestricted → forallb entry_wf (entries self) = true →
  has_full_disk_read_access self = false →
  ∃ rs, get_readable_roots_with_cwd self cwd = Ok rs ∧
  ∀ t, t ∈ rs ↔ (∃ e, e ∈ resolved cwd self ∧ resolved_path e = t ∧ resolved_access e ≠ AccessNone)
                ∧ access_of cwd self t ≠ AccessNone.
Proof.
  intros Hk Hwf Hfull. unfold get_readable_roots_with_cwd. rewrite Hfull, resolved_entries_Ok by done.
  cbn -[filterM]. rewrite (filterM_Ok _ (λ e, access_can_read (access_of cwd self (resolved_path e)))).
  2: { intros e [_ He]%elem_of_filterb. rewrite can_read_normal; [done..|]. by eapply resolved_normal. }
  eexists. split; [done|]. intros t. unfold dedup_absolute_paths.
  rewrite elem_of_dedup_from, list_elem_of_fmap. setoid_rewrite list_elem_of_fmap.
  setoid_rewrite elem_of_filterb. setoid_rewrite elem_of_filterb.
  setoid_rewrite access_can_read_spec.
  assert (∀ e, e ∈ resolved cwd self → normalize_effective_absolute_path (resolved_path e) = resolved_path e)
    as Hn by (intros e He; eapply normalize_effective_id; [done..|by eapply resolved_normal]).
  split.
  - intros [(p & -> & e & -> & Hread & Ha & He) _]. rewrite Hn by done. split; [by exists e|done].
  - intros [(e & He & <- & Ha) Hacc]. split; [|set_solver]. exists (resolved_path e).
    rewrite Hn by done. split; [done|]. by exists e.
Qed.

(** The entry that decides about a path. *)
Lemma governing self q :
  (access_of cwd self q = AccessNone ∧ ∀ e, e ∈ resolved cwd self → ¬ resolved_path e `prefix_of` q) ∨
  ∃ t, t `prefix_of` q ∧ access_of cwd self t = access_of cwd self q ∧
    (∃ e, e ∈ resolved cwd self ∧ resolved_path e = t ∧ resolved_access e = access_of cwd self q) ∧
    ∀ e, e ∈ resolved cwd self → resolved_path e `prefix_of` q → resolved_path e `prefix_of` t.
Proof.
  destruct (access_of_governs cwd Hcwd self q) as [(e & t & Hc & Ha & Hmax)|[Hno Ha]].
  - right. exists t. pose proof Hc as (He & Ht & Hp). split_and!; [done| | |].
    + eapply governs_root; [done|exact Hc|done|done].
    + exists {| resolved_path := t; resolved_access := entry_access e |}. split_and!; [|done|done].
      apply elem_of_resolved. by exists e.
    + intros r (x & Hx & Hxt & _)%elem_of_resolved Hr. by destruct (Hmax x (resolved_path r)).
  - left. split; [done|]. intros r (x & Hx & Hxt & _)%elem_of_resolved Hr. apply Hno.
    by exists x, (resolved_path r).
Qed.
End PolicyRoots.

(** ** Every path of the command line is a real one *)
Definition entry_real (e : FileSystemSandboxEntry) : bool :=
  match entry_path e with
  | EntryPath p => real p
  | EntrySpecial (ProjectRoots (Some s)) => plain s
  | EntrySpecial _ => true
  end.

Lemma entry_real_wf e : entry_real e = true → entry_wf e = true.
Proof. unfold entry_real, entry_wf. destruct (entry_path e); [apply real_normal|done]. Qed.

Lemma entries_real_wf l : forallb entry_real l = true → forallb entry_wf l = true.
Proof. rewrite !forallb_elem. intros Hl e He. by apply entry_real_wf, Hl. Qed.

Lemma plain_app p q : plain (p ++ q) = true ↔ plain p = true ∧ plain q = true.
Proof. unfold plain. by rewrite forallb_app, andb_true_iff. Qed.

Lemma plain_segment s c : SLASH ∉ s → segment s = Some c → plain [c] = true.
Proof.
  unfold segment. intros Hs. repeat (case_bool_decide; [by intros; simplify_eq|]).
  intros [= <-]. unfold plain. simpl. rewrite andb_true_r. by apply plain_name_spec.
Qed.

Lemma plain_path_of_str s : plain (path_of_str s) = true.
Proof.
  assert (plain (omap segment (RustStr.split SLASH s)) = true) as Hp.
  { unfold plain. rewrite forallb_elem. intros c (x & Hx & Hc)%list_elem_of_omap.
    pose proof (split_elems SLASH s) as Hs. rewrite Forall_forall in Hs.
    pose proof (plain_segment x c (Hs x Hx) Hc) as Hpl. unfold plain in Hpl. simpl in Hpl.
    by rewrite andb_true_r in Hpl. }
  unfold path_of_str. destruct s as [|c s]; [done|]. destruct (RustStr.split SLASH (c :: s)); [done|].
  by repeat case_bool_decide.
Qed.

Lemma filter_mapM_elem {E A B} (f : A → outcome E (option B)) l k b :
  filter_mapM f l = Ok k → b ∈ k → ∃ a, a ∈ l ∧ f a = Ok (Some b).
Proof.
  revert k; induction l as [|a l IH]; simpl; [intros ? [= <-]; set_solver|].
  intros k (o & Ho & (k' & Hk & [= <-])%bind_Ok_inv)%bind_Ok_inv Hb.
  destruct o as [b'|]; [apply elem_of_cons in Hb as [->|Hb]; [by exists a; split; [set_solver|]|]|];
    destruct (IH _ Hk Hb) as (x & Hx & Hf); exists x; (split; [set_solver|done]).
Qed.

Section RealPaths.
Context `{RealHost}.
Variable cwd : Path.
Hypothesis Hcwd : real cwd = true.

Lemma plain_expand p : plain p = true → plain (maybe_expand_home_directory p) = true.
Proof.
  unfold maybe_expand_home_directory. intros Hp. destruct home_dir as [h|] eqn:Eh; [|done].
  destruct p as [|[] p]; try done. case_bool_decide; [|done].
  apply home_plain in Eh. apply (plain_app [_]) in Hp as [_ Hp].
  unfold path_join. destruct (is_absolute p); [done|]. destruct h as [|c h]; [done|].
  destruct p as [|[] p]; by apply plain_app.
Qed.

Lemma real_from_absolute p q : plain p = true → from_absolute_path p = Some q → real q = true.
Proof.
  intros Hp Hq. apply andb_true_iff. split; [by eapply from_absolute_path_normal|].
  eapply absolutize_plain; [by apply plain_expand|exact Hq].
Qed.

Lemma real_resolve p b q :
  plain p = true → real b = true → resolve_path_against_base p b = Some q → real q = true.
Proof.
  intros Hp Hb Hq. apply andb_true_iff. split.
  - eapply resolve_path_normal; [by apply real_normal|done].
  - eapply absolutize_from_plain; [by apply plain_expand|by apply real_plain|exact Hq].
Qed.

Lemma target_real e t : entry_real e = true → target cwd (entry_path e) = Some t → real t = true.
Proof.
  unfold entry_real, target. destruct (entry_path e) as [p|[| | |[s|]| | |]]; simpl; intros Hr Ht;
    simplify_eq; try done.
  - by eapply real_resolve.
  - destruct tmpdir_var as [s|]; [|done]. case_bool_decide; [done|].
    eapply real_from_absolute; [apply plain_path_of_str|done].
  - destruct (is_dir slash_tmp); by simplify_eq.
Qed.

Lemma resolved_real self r :
  forallb entry_real (entries self) = true → r ∈ resolved cwd self → real (resolved_path r) = true.
Proof.
  rewrite forallb_elem. intros Hwf (x & Hx & Ht & _)%elem_of_resolved. eapply target_real; eauto.
Qed.

Lemma join_real root name q :
  real root = true → plain_name name = true → Paths.join root [Normal name] = Some q → real q = true.
Proof.
  intros Hr Hn Hq. eapply real_resolve; [|exact Hr|exact Hq]. unfold plain. simpl. by rewrite Hn.
Qed.

Lemma gitdir_real p q : real p = true → resolve_gitdir_from_file p = Some q → real q = true.
Proof.
  intros Hp. unfold resolve_gitdir_from_file. destruct (read_to_string p); [|done].
  destruct (split_once _ _) as [[? raw]|]; [|done]. case_bool_decide; [done|].
  destruct (Paths.parent p) as [base|] eqn:Eb; [|done].
  destruct (resolve_path_against_base _ _) as [g|] eqn:Eg; [|done].
  destruct (path_exists g); [|done]. intros [= <-].
  apply parent_ancestor in Eb as [Hb Hne].
  eapply real_resolve; [apply plain_path_of_str| |exact Eg].
  eapply real_prefix; [exact Hp|exact Hb|]. by apply Hne, real_normal.
Qed.

Lemma defaults_real r s : real r = true → s ∈ defaults r → real s = true.
Proof.
  intros Hr. unfold defaults. destruct (default_read_only_subpaths_for_writable_root r) as [l| | |] eqn:E;
    [|by intros ?%elem_of_nil..].
  unfold default_read_only_subpaths_for_writable_root, protected_subpaths in E.
  apply bind_Ok_inv in E as (subs & (git & Hgit & (dirs & Hdirs & [= <-])%bind_Ok_inv)%bind_Ok_inv & [= <-]).
  unfold dedup_absolute_paths. rewrite list_fmap_id, elem_of_dedup_from, elem_of_app.
  unfold expect in Hgit. destruct (Paths.join r _) as [g|] eqn:Eg; [|done]. injection Hgit as <-.
  apply join_real in Eg; [|done|done]. intros [[Hs|Hs] _].
  - destruct (is_dir g || is_file g); [|set_solver]. rewrite elem_of_app, list_elem_of_singleton in Hs.
    destruct Hs as [Hs| ->]; [|done]. destruct (is_file g && is_git_pointer_file g); [|set_solver].
    apply elem_option_list in Hs. by eapply gitdir_real.
  - destruct (filter_mapM_elem _ _ _ _ Hdirs Hs) as (name & Hname & Hf).
    apply bind_Ok_inv in Hf as (d & Hd & Hf). destruct (is_dir d); [|done]. injection Hf as <-.
    unfold expect in Hd. destruct (Paths.join r [Normal name]) as [d'|] eqn:Ed; [|done].
    injection Hd as <-. eapply join_real; [exact Hr| |exact Ed].
    rewrite !elem_of_cons, elem_of_nil in Hname. by destruct Hname as [->|[->|?]].
Qed.
End RealPaths.

(** ** A concrete host

    Its directories and files are given; there are no symbolic links. *)
Definition lexical_BwrapEnv (cwd : Path) (dirs : list Path) (files : list (Path * str)) :
    @BwrapEnv (lexical_PathEnv cwd None None dirs files) :=
  @Build_BwrapEnv (lexical_PathEnv cwd None None dirs files)
    (λ p, if bool_decide (p ∈ dirs ∨ p ∈ files.*1) then Some false else None) (Some 5%N) None.

Definition all_prefixes (q : Path) : list Path := (λ n, take (S n) q) <$> seq 0 (length q).

(** What exists has parents, which are directories. *)
Definition tree_ok (dirs files : list Path) : bool :=
  forallb (λ q, forallb (λ p, bool_decide (p = q) || bool_decide (p ∈ dirs)) (all_prefixes q))
    (dirs ++ files).

Lemma elem_all_prefixes p q : p ∈ all_prefixes q ↔ p `prefix_of` q ∧ p ≠ [].
Proof.
  unfold all_prefixes. rewrite list_elem_of_fmap. setoid_rewrite elem_of_seq. split.
  - intros (n & -> & Hn). split; [apply prefix_take|]. destruct q; [simpl in *; lia|done].
  - intros [[k ->] Hne]. exists (length p - 1). rewrite length_app.
    assert (length p ≠ 0) by (by destruct p). split; [|lia].
    replace (S (length p - 1)) with (length p) by lia. by rewrite take_app_length.
Qed.

Lemma tree_ok_spec dirs files p q :
  tree_ok dirs files = true → q ∈ dirs ∨ q ∈ files → p `prefix_of` q → p ≠ [] → p = q ∨ p ∈ dirs.
Proof.
  unfold tree_ok. rewrite forallb_elem. intros Hall Hq Hp Hne.
  specialize (Hall q). rewrite elem_of_app, forallb_elem in Hall. specialize (Hall Hq p).
  rewrite elem_all_prefixes, orb_true_iff, !bool_decide_eq_true in Hall. auto.
Qed.

Lemma plain_lexical_step p c : plain p = true → plain [c] = true → plain (lexical_step p c) = true.
Proof.
  intros Hp Hc. destruct c; simpl; [done|done| |by apply plain_app].
  destruct (Paths.parent p) as [d|] eqn:E; [|done]. apply parent_ancestor in E as [[k ->] _].
  by apply plain_app in Hp as [? _].
Qed.

Lemma plain_lexical p : plain p = true → plain (lexical p) = true.
Proof.
  unfold lexical. assert (plain [RootDir] = true) as Hr by done. revert Hr. generalize [RootDir].
  induction p as [|c p IH]; intros q Hq Hp; [done|]. apply (plain_app [c]) in Hp as [Hc Hp].
  simpl. apply IH; [by apply plain_lexical_step|done].
Qed.

Lemma plain_join p q : plain p = true → plain q = true → plain (path_join p q) = true.
Proof.
  intros Hp Hq. unfold path_join. destruct (is_absolute q); [done|]. destruct p as [|c p]; [done|].
  destruct q as [|[] q]; by apply plain_app.
Qed.

Lemma lexical_RealHost cwd dirs files :
  plain cwd = true → tree_ok dirs files.*1 = true →
  @RealHost _ (lexical_BwrapEnv cwd dirs files).
Proof.
  intros Hcwd Htree. split; cbn.
  - apply lexical_PathLaws.
  - intros p b. by case_bool_decide; intros; simplify_eq.
  - intros p q. case_bool_decide; congruence.
  - intros p q Hq%bool_decide_eq_true Hp Hne. apply bool_decide_eq_true.
    by destruct (tree_ok_spec _ _ p q Htree Hq Hp Hne) as [->|?]; [|left].
  - done.
  - intros p q Hp [= <-]. by apply plain_lexical, plain_join.
  - intros p b q Hp Hb [= <-]. by apply plain_lexical, plain_join.
Qed.

(** A workspace with a repository and a directory to hide. *)
Definition host_dirs : list Path :=
  path_of_str <$> [lit "/"; lit "/dev"; lit "/proc"; lit "/etc"; lit "/ws"; lit "/ws/.git";
                   lit "/ws/src"; lit "/ws/secret"; lit "/ws/secret/in"; lit "/ws/secret/out"].
Definition host_files : list (Path * str) :=
  ((λ name, (in_dir slash_dev name, [])) <$> devnodes) ++
  ((λ s, (path_of_str s, [])) <$>
    [lit "/etc/passwd"; lit "/ws/.git/config"; lit "/ws/src/a"; lit "/ws/secret/key"]).
Definition host_ws : Path := path_of_str (lit "/ws").

Definition host_env : PathEnv := lexical_PathEnv host_ws None None host_dirs host_files.
Definition host_bwrap : @BwrapEnv host_env := lexical_BwrapEnv host_ws host_dirs host_files.

Lemma host_real : @RealHost host_env host_bwrap.
Proof. apply lexical_RealHost; vm_compute; reflexivity. Qed.
