(* ===== verification/BwrapSound.v ===== *)
(** * The Linux sandbox keeps to the policy

    [filesystem_ops] is what the mounts of [create_filesystem_args] stand for;
    [sandbox_respects_policy] says what a command can reach through them. *)
From stdpp Require Import base tactics option list sets numbers strings.
From S2P Require Import Prelude RustStr Paths Permissions Bwrap BwrapView BwrapOps.
From stdpp Require Import list.

(** ** The mounts of a policy, as operations *)
Section FilesystemOps.
Context `{BwrapEnv}.

Definition base_ops (broad : bool) (readable_roots : list Path) : list SetupOp :=
  if broad then [BindMount true [RootDir] [RootDir]; MountDev (path_of_str (lit "/dev"))]
  else [MountTmpfs 0x1ED%N [RootDir]; MountDev (path_of_str (lit "/dev"))]
       ++ concat ((λ r, if path_exists r then [BindMount true r r] else []) <$> readable_roots).

Definition root_ops (unreadable_roots allowed : list Path) (wr : WritableRoot) : list SetupOp :=
  (match max_by_key (λ x y, path_depth x <=? path_depth y)
           (List.filter (λ u, path_starts_with (root wr) u) unreadable_roots) with
   | Some masking_root => dir_ops (root wr) masking_root
   | None => []
   end)
  ++ [BindMount false (root wr) (root wr)]
  ++ concat ((λ s, sub_ops s allowed) <$>
       sort_by_key path_depth
         (List.filter (λ p, negb (bool_decide (p ∈ unreadable_roots))) (read_only_subpaths wr)))
  ++ concat (mask_ops allowed <$>
       sort_by_key path_depth (List.filter (λ p, path_starts_with p (root wr)) unreadable_roots)).

Definition filesystem_ops (base : list SetupOp) (writable_roots : list WritableRoot)
    (unreadable_roots : list Path) : list SetupOp :=
  let allowed := root <$> writable_roots in
  base
  ++ concat (mask_ops allowed <$> ancestors_of_writable_roots unreadable_roots allowed)
  ++ concat (root_ops unreadable_roots allowed <$>
       sort_by_key (λ wr, path_depth (root wr)) writable_roots)
  ++ concat (mask_ops allowed <$> rootless_unreadable_roots unreadable_roots allowed).
End FilesystemOps.

Section Emits.
Context `{RealHost}.

Lemma emits_base broad roots :
  (∀ r, r ∈ roots → real r = true) →
  emits (if broad : bool then ro_root_args
         else foldl (λ args root,
                if negb (path_exists root) then args
                else args ++ [lit "--ro-bind"; path_to_string root; path_to_string root])
              empty_root_args roots) (base_ops broad roots).
Proof.
  intros Hr. unfold base_ops, ro_root_args, empty_root_args. destruct broad.
  { emit. by rewrite add_ops_app. }
  set (f := λ (args : list str) root, if negb (path_exists root) then args
              else args ++ [lit "--ro-bind"; path_to_string root; path_to_string root]).
  set (g := λ r, if path_exists r then [BindMount true r r] else []).
  assert (∀ l args o, (∀ r, r ∈ l → real r = true) → emits args o →
            emits (foldl f args l) (o ++ concat (g <$> l))) as Hfold.
  { induction l as [|r l IH]; intros args o Hl Ho; simpl; [by rewrite app_nil_r|].
    change (concat (g <$> r :: l)) with (g r ++ concat (g <$> l)). rewrite app_assoc.
    apply IH; [set_solver|]. unfold f, g. destruct (path_exists r); simpl; [|by rewrite app_nil_r].
    apply emits_app; [done|]. apply emits_ro_bind, Hl, list_elem_of_here. }
  apply Hfold; [done|]. emit. by rewrite add_ops_app.
Qed.

Lemma sorted_elem {A} (key : A → nat) l x : x ∈ sort_by_key key l ↔ x ∈ l.
Proof. by rewrite sort_by_key_perm. Qed.

Lemma elem_ancestors u us allowed :
  u ∈ ancestors_of_writable_roots us allowed ↔
  u ∈ us ∧ (∀ r, r ∈ allowed → ¬ r `prefix_of` u) ∧ ∃ r, r ∈ allowed ∧ u `prefix_of` r.
Proof.
  unfold ancestors_of_writable_roots. rewrite sorted_elem, elem_of_filterb, andb_true_iff,
    negb_true_iff, <- not_true_iff_false, !existsb_elem.
  setoid_rewrite path_starts_with_spec. naive_solver.
Qed.

Lemma elem_rootless u us allowed :
  u ∈ rootless_unreadable_roots us allowed ↔
  u ∈ us ∧ ∀ r, r ∈ allowed → ¬ r `prefix_of` u ∧ ¬ u `prefix_of` r.
Proof.
  unfold rootless_unreadable_roots. rewrite sorted_elem, elem_of_filterb, negb_true_iff,
    <- not_true_iff_false, existsb_elem. setoid_rewrite orb_true_iff.
  setoid_rewrite path_starts_with_spec. split.
  - intros [Hn Hu]. split; [done|]. intros r Hr. split; intros ?; apply Hn; eauto.
  - intros [Hu Hn]. split; [|done]. intros (r & Hr & [?|?]); by destruct (Hn r Hr).
Qed.

Lemma extends_root self self' us allowed wr :
  files_ok self → real (root wr) = true → (∀ s, s ∈ read_only_subpaths wr → real s = true) →
  (∀ u, u ∈ us → real u = true) → (∀ r, r ∈ allowed → real r = true) →
  append_writable_root us allowed self wr = Ok self' →
  extends self self' (root_ops us allowed wr).
Proof.
  intros Hf Hr Hs Hu Ha. unfold append_writable_root, root_ops.
  set (mask := max_by_key _ _).
  set (self1 := match mask with Some _ => _ | None => self end).
  assert (extends self self1 (match mask with Some m => dir_ops (root wr) m | None => [] end)) as Hx1.
  { unfold self1. destruct mask; [by apply extends_dirs|by apply extends_refl]. }
  assert (extends self1 (push_all self1 [lit "--bind"; path_to_string (root wr); path_to_string (root wr)])
            [BindMount false (root wr) (root wr)]) as Hx2.
  { apply extends_push; [apply Hx1|by apply emits_bind]. }
  set (self2 := push_all self1 _) in *. set (subs := sort_by_key _ (List.filter _ (read_only_subpaths wr))).
  set (self3 := foldl _ self2 subs).
  assert (extends self2 self3 (concat ((λ s, sub_ops s allowed) <$> subs))) as Hx3.
  { apply extends_foldl; [apply Hx2|]. intros a s Hfa Hsub. apply extends_sub; [done|].
    unfold subs in Hsub. rewrite sorted_elem, elem_of_filterb in Hsub. by apply Hs, Hsub. }
  intros Hm. do 2 (eapply extends_trans; [eassumption|]). eapply extends_trans; [exact Hx3|].
  eapply extends_foldM; [apply Hx3| |exact Hm]. intros a u a' Hfa Hn Ho.
  eapply extends_mask; [done| |done|exact Ho].
  rewrite sorted_elem, elem_of_filterb in Hn. by apply Hu, Hn.
Qed.

Lemma lex_compare_eq {A} (compare : A → A → comparison) l k :
  (∀ x y, compare x y = Eq → x = y) → lex_compare compare l k = Eq → l = k.
Proof.
  intros Hc. revert k; induction l as [|x l IH]; intros [|y k]; simpl; try done.
  destruct (compare x y) eqn:E; try done. intros ?%IH. f_equal; auto.
Qed.

Lemma path_compare_eq p q : lex_compare component_compare p q = Eq → p = q.
Proof.
  apply lex_compare_eq. intros [] []; try done; simpl. intros ?%lex_compare_eq; [by subst|].
  apply N.compare_eq.
Qed.

Lemma elem_btree_insert x l y : y ∈ btree_insert x l ↔ y = x ∨ y ∈ l.
Proof.
  induction l as [|z l IH]; simpl; [set_solver|].
  destruct (lex_compare _ _ _) eqn:E; [apply path_compare_eq in E as ->| |]; set_solver.
Qed.

Lemma elem_btree_extend set l y : y ∈ btree_extend set l ↔ y ∈ set ∨ y ∈ l.
Proof.
  unfold btree_extend. revert set; induction l as [|x l IH]; intros set; simpl; [set_solver|].
  rewrite IH, elem_btree_insert. set_solver.
Qed.
End Emits.

(** ** Which operation serves a path *)
Section Serving.
Context `{RealHost}.

Definition no_bind (o : SetupOp) : Prop :=
  match o with BindMount ro s _ => ro = true ∧ s = dev_null | _ => True end.

Lemma op_covers_bind q ro s d : op_covers q (BindMount ro s d) = true ↔ d `prefix_of` q.
Proof. apply path_starts_with_spec. Qed.

Lemma dir_ops_top mt anchor q : topmost (dir_ops mt anchor) q = None.
Proof. apply top_None. by intros o (d & -> & _)%list_elem_of_fmap. Qed.

Lemma missing_no_bind p allowed o : o ∈ missing_ops p allowed → no_bind o.
Proof.
  unfold missing_ops. destruct (find_first_non_existent_component p); [|set_solver].
  destruct (is_within_allowed_write_paths _ _); [|set_solver]. by intros ->%list_elem_of_singleton.
Qed.

Lemma mask_no_bind allowed u o : o ∈ mask_ops allowed u → no_bind o.
Proof.
  unfold mask_ops. destruct (negb (path_exists u)); [apply missing_no_bind|].
  destruct (is_dir u); [|by intros ->%list_elem_of_singleton].
  rewrite elem_of_cons, elem_of_app. intros [->|[Ho| ->%list_elem_of_singleton]]; [done| |done].
  apply list_elem_of_In, in_concat in Ho as (l & Hl & Ho).
  apply list_elem_of_In, list_elem_of_fmap in Hl as (d & -> & _).
  apply list_elem_of_In, list_elem_of_fmap in Ho as (x & -> & _). done.
Qed.

Lemma sub_bind allowed s o : o ∈ sub_ops s allowed → no_bind o ∨ o = BindMount true s s.
Proof.
  unfold sub_ops. destruct (negb (path_exists s)); [left; by eapply missing_no_bind|].
  destruct (is_within_allowed_write_paths s allowed); [|set_solver].
  intros ->%list_elem_of_singleton. by right.
Qed.

Lemma top_concat_elem {A} (f : A → list SetupOp) l q o :
  topmost (concat (f <$> l)) q = Some o → ∃ x, x ∈ l ∧ o ∈ f x.
Proof.
  intros (l1 & x & l2 & -> & Hx & _)%top_concat. exists x. split; [set_solver|]. by apply top_Some in Hx as [? _].
Qed.

Lemma top_Some_iff l q : topmost l q ≠ None ↔ ∃ o, o ∈ l ∧ op_covers q o = true.
Proof.
  split.
  - intros Hl. destruct (topmost l q) as [o|] eqn:E; [|done]. exists o. by apply top_Some.
  - intros (o & Ho & Hc) Hn. rewrite top_None in Hn. rewrite Hn in Hc; done.
Qed.

(** An existing path is covered by its own mask. *)
Lemma mask_covers allowed u q : path_exists u = true → u `prefix_of` q → topmost (mask_ops allowed u) q ≠ None.
Proof.
  intros He Hp. apply top_Some_iff. unfold mask_ops. rewrite He. simpl. apply path_starts_with_spec in Hp.
  destruct (is_dir u); eexists; (split; [apply list_elem_of_here|exact Hp]).
Qed.

Lemma elem_within p allowed :
  is_within_allowed_write_paths p allowed = true ↔ ∃ r, r ∈ allowed ∧ r `prefix_of` p.
Proof. unfold is_within_allowed_write_paths. rewrite existsb_elem. by setoid_rewrite path_starts_with_spec. Qed.

Lemma sub_covers allowed s q :
  path_exists s = true → is_within_allowed_write_paths s allowed = true → s `prefix_of` q →
  topmost (sub_ops s allowed) q ≠ None.
Proof.
  intros He Hw Hp. apply top_Some_iff. unfold sub_ops. rewrite He, Hw. simpl.
  eexists. split; [apply list_elem_of_here|]. by apply op_covers_bind.
Qed.

Lemma concat_covers {A} (f : A → list SetupOp) l q x :
  x ∈ l → topmost (f x) q ≠ None → topmost (concat (f <$> l)) q ≠ None.
Proof. intros Hx Hf Hn. by eapply Hf, top_concat_None. Qed.

Lemma root_covers us allowed wr q : root wr `prefix_of` q → topmost (root_ops us allowed wr) q ≠ None.
Proof.
  intros Hp. apply top_Some_iff. eexists. split; [|by apply (op_covers_bind q false (root wr))].
  unfold root_ops. rewrite !elem_of_app. right. left. by apply list_elem_of_singleton.
Qed.
End Serving.

Section Sound.
Context `{RealHost}.
Variables (self : FileSystemSandboxPolicy) (cwd : Path).
Hypothesis Hcwd : real cwd = true.
Hypothesis Hentries : forallb entry_real (entries self) = true.
Hypothesis Hkind : kind self = KindRestricted.
Hypothesis Hwrite : has_full_disk_write_access self = false.

Let Hcwd' : normal_abs cwd = true := real_normal _ Hcwd.
Let Hwf : forallb entry_wf (entries self) = true := entries_real_wf _ Hentries.

(** The target of an entry with the access [a], which is in force there. *)
Definition rooted (a : FileSystemAccessMode) (t : Path) : Prop :=
  (∃ e, e ∈ resolved cwd self ∧ resolved_path e = t ∧ resolved_access e = a)
  ∧ access_of cwd self t = a.

Definition readable_root (t : Path) : Prop :=
  (∃ e, e ∈ resolved cwd self ∧ resolved_path e = t) ∧ access_of cwd self t ≠ AccessNone.

Definition platform_root (r : Path) : Prop :=
  include_platform_defaults self = true ∧ r ∈ LINUX_PLATFORM_DEFAULT_READ_ROOTS.

(** The roots of the policy, as the code computes them. *)
Record Roots (wrs : list WritableRoot) (us : list Path) (broad : bool) (readable : list Path) :
    Prop := {
  roots_writable r : (∃ wr, wr ∈ wrs ∧ root wr = r) ↔ rooted AccessWrite r;
  roots_subpaths wr s : wr ∈ wrs →
    s ∈ read_only_subpaths wr ↔ s ∈ defaults (root wr) ∨ carved cwd self (root wr) s;
  roots_unreadable t : t ∈ us ↔ rooted AccessNone t ∧ t ≠ [RootDir];
  roots_exist wr : wr ∈ wrs → path_exists (root wr) = true;
  roots_broad : broad = true → has_full_disk_read_access self = true ∨ readable_root [RootDir];
  roots_readable r : r ∈ readable → readable_root r ∨ platform_root r;
  roots_complete r : readable_root r → broad = true ∨ r ∈ readable;
}.

Lemma real_of_resolved e : e ∈ resolved cwd self → real (resolved_path e) = true.
Proof. by apply resolved_real. Qed.

Lemma rooted_real a t : rooted a t → real t = true.
Proof. intros [(e & He & <- & _) _]. by apply real_of_resolved. Qed.

Lemma ensure_targets wrs u :
  ensure_mount_targets_exist wrs = Ok u → ∀ wr, wr ∈ wrs → path_exists (root wr) = true.
Proof.
  induction wrs as [|wr wrs IH]; simpl; [set_solver|].
  destruct (path_exists (root wr)) eqn:E; [|done]. intros Hu wr' [->|?]%elem_of_cons; auto.
Qed.

Lemma platform_real r : r ∈ LINUX_PLATFORM_DEFAULT_READ_ROOTS → real r = true ∧ r ≠ [RootDir].
Proof.
  assert (forallb (λ r, real r && negb (bool_decide (r = [RootDir])))
            LINUX_PLATFORM_DEFAULT_READ_ROOTS = true) as Hall by (vm_compute; reflexivity).
  rewrite forallb_elem in Hall. intros [? Hr%negb_true_iff%bool_decide_eq_false]%Hall%andb_true_iff.
  done.
Qed.

(** The base of the mounts. *)
Lemma base_args_Ok base :
  base_args self cwd = Ok base →
  ∃ broad readable, emits base (base_ops broad readable)
    ∧ (broad = true → has_full_disk_read_access self = true ∨ readable_root [RootDir])
    ∧ (∀ r, r ∈ readable → readable_root r ∨ platform_root r)
    ∧ (∀ r, readable_root r → broad = true ∨ r ∈ readable).
Proof.
  unfold base_args. destruct (has_full_disk_read_access self) eqn:Hread.
  { intros [= <-]. exists true, []. split_and!; [|by left|set_solver|by left].
    apply (emits_base true []). set_solver. }
  unfold bwrap_readable_roots.
  destruct (get_readable_roots_Ok cwd Hcwd' canonical_id self) as (rs & -> & Hrs); [done..|].
  cbn -[ro_root_args empty_root_args btree_extend LINUX_PLATFORM_DEFAULT_READ_ROOTS].
  set (readable := if include_platform_defaults self then _ else _).
  assert (∀ r, r ∈ readable → readable_root r ∨ platform_root r) as Hr.
  { intros r Hr. assert (r ∈ rs ∨ platform_root r) as [Hr'|]; [| |by right].
    - unfold readable, platform_root in *. destruct (include_platform_defaults self).
      + apply elem_btree_extend in Hr as [[?%elem_of_nil|?]%elem_btree_extend|[_ ?]%elem_of_filterb];
          [done|by left|by right].
      + apply elem_btree_extend in Hr as [?%elem_of_nil|?]; [done|by left].
    - left. apply Hrs in Hr' as [(e & He & <- & _) ?]. split; [by exists e|done]. }
  assert (∀ r, r ∈ readable → real r = true) as Hreal.
  { intros r [[(e & He & <-) _]|[_ Hp]]%Hr; [by apply real_of_resolved|by apply platform_real]. }
  intros [= <-]. exists (existsb (λ root, bool_decide (root = [RootDir])) readable), readable.
  split_and!; [by apply emits_base| |done|].
  2: { intros r [(e & He & <-) Ha]. right.
       assert (resolved_path e ∈ rs) as Hin.
       { apply Hrs. split; [|done]. destruct (governing cwd Hcwd' self (resolved_path e))
           as [[? _]|(t & Ht & Hat & (e' & He' & Het & Hea) & Hmax)]; [done|].
         exists e'. split_and!; [done| |congruence]. rewrite Het.
         apply (anti_symm prefix); [done|by apply Hmax]. }
       unfold readable. destruct (include_platform_defaults self);
         rewrite !elem_btree_extend; auto. }
  intros (r & Hin & ->%bool_decide_eq_true)%existsb_elem. right.
  by destruct (Hr _ Hin) as [?|[_ [_ ?]%platform_real]].
Qed.

Lemma create_filesystem_args_Ok a :
  create_filesystem_args self cwd = Ok a →
  ∃ wrs us broad readable, Roots wrs us broad readable
    ∧ emits (args a) (filesystem_ops (base_ops broad readable) wrs us).
Proof.
  unfold create_filesystem_args.
  destruct (get_writable_roots_Ok cwd Hcwd' canonical_id self) as (wrs & -> & Hwrs & Hsubs); [done..|].
  destruct (get_unreadable_roots_Ok cwd Hcwd' canonical_id self) as (us & -> & Hus); [done..|].
  cbn [or_panic map_err mbind outcome_bind].
  intros (u & Hexist & (base & (broad & readable & Hbase & Hbroad & Hreadable & Hcomplete)%base_args_Ok
    & (a1 & Hx1 & (a2 & Hx2 & Hx3)%bind_Ok_inv)%bind_Ok_inv)%bind_Ok_inv)%bind_Ok_inv.
  exists wrs, us, broad, readable.
  assert (Roots wrs us broad readable) as HR.
  { split; [|done| |by eapply ensure_targets|done..].
    - intros r. rewrite Hwrs. unfold rooted. naive_solver.
    - intros t. rewrite Hus. unfold rooted. naive_solver. }
  split; [done|].
  assert (∀ u, u ∈ us → real u = true) as Hureal.
  { intros t [Ht _]%(roots_unreadable _ _ _ _ HR). by eapply rooted_real. }
  assert (∀ r, r ∈ root <$> wrs → real r = true) as Hrreal.
  { intros r (wr & -> & Hr)%list_elem_of_fmap. eapply rooted_real, (roots_writable _ _ _ _ HR).
    by exists wr. }
  set (a0 := {| args := base; preserved_files := [] |}) in *.
  assert (extends a0 a1 (concat (mask_ops (root <$> wrs) <$> ancestors_of_writable_roots us (root <$> wrs))))
    as E1.
  { eapply extends_foldM; [by left| |exact Hx1]. intros b x b' Hb Hx Hm.
    apply elem_ancestors in Hx as [Hx _]. eapply extends_mask; eauto. }
  assert (extends a1 a2 (concat (root_ops us (root <$> wrs) <$>
            sort_by_key (λ wr, path_depth (root wr)) wrs))) as E2.
  { eapply extends_foldM; [apply E1| |exact Hx2]. intros b x b' Hb Hx Hm.
    rewrite sorted_elem in Hx. eapply extends_root; [done| | |done..].
    - apply Hrreal, list_elem_of_fmap. by exists x.
    - intros s [Hd|((e & He & <- & _) & _)]%Hsubs; [| |done].
      + eapply (defaults_real cwd Hcwd); [|exact Hd]. apply Hrreal, list_elem_of_fmap. by exists x.
      + by apply real_of_resolved. }
  assert (extends a2 a (concat (mask_ops (root <$> wrs) <$> rootless_unreadable_roots us (root <$> wrs))))
    as E3.
  { eapply extends_foldM; [apply E2| |exact Hx3]. intros b x b' Hb Hx Hm.
    apply elem_rootless in Hx as [Hx _]. eapply extends_mask; eauto. }
  destruct (extends_trans _ _ _ _ _ (extends_trans _ _ _ _ _ E1 E2) E3) as (_ & l & Hl & Ho).
  rewrite Hl. unfold filesystem_ops. rewrite <- (app_assoc (concat _)) in Ho. by apply emits_app.
Qed.

(** *** Soundness of the mounts *)
Definition gitdirs_inside : Prop :=
  ∀ r s, rooted AccessWrite r → s ∈ defaults r → r `prefix_of` s.

Section Served.
Variables (wrs : list WritableRoot) (us : list Path) (broad : bool) (readable : list Path).
Hypothesis HR : Roots wrs us broad readable.
Variable q : Path.
Hypothesis Hq : normal_abs q = true.
Hypothesis Hexists : path_exists q = true.

Lemma root_rooted wr : wr ∈ wrs → rooted AccessWrite (root wr).
Proof. intros. apply (roots_writable _ _ _ _ HR). by exists wr. Qed.

Lemma root_readable wr : wr ∈ wrs → readable_root (root wr).
Proof. intros [(e & He & Hp & _) Ha]%root_rooted. split; [by exists e|by rewrite Ha]. Qed.

Lemma prefix_exists p : real p = true → p `prefix_of` q → path_exists p = true.
Proof. intros Hp Hpre. eapply exists_prefix; [exact Hexists|exact Hpre|]. by intros ->. Qed.

Lemma unreadable_real u : u ∈ us → real u = true.
Proof. intros [Hu _]%(roots_unreadable _ _ _ _ HR). by eapply rooted_real. Qed.

(** A denied path below a readable root is below an unreadable one. *)
Lemma denied_root r :
  access_of cwd self q = AccessNone → readable_root r → r `prefix_of` q →
  ∃ t, t ∈ us ∧ t `prefix_of` q ∧ r `prefix_of` t.
Proof.
  intros Ha [(e & He & <-) Hr] Hp.
  destruct (governing cwd Hcwd' self q) as [[_ Hno]|(t & Ht & Hat & (e' & He' & Het & Hea) & Hmax)];
    [by destruct (Hno e He)|].
  exists t. split_and!; [|done|by apply Hmax]. apply (roots_unreadable _ _ _ _ HR).
  split; [split; [exists e'; split_and!; congruence|congruence]|]. intros ->.
  apply Hr. rewrite <- Ha, <- Hat. f_equal. apply (anti_symm prefix); [by apply Hmax|].
  by apply root_prefix, real_of_resolved.
Qed.

(** Unless it has a mask of its own an unreadable root covers what exists below. *)
Lemma unreadable_covered t :
  t ∈ us → t `prefix_of` q →
  topmost (concat (mask_ops (root <$> wrs) <$> ancestors_of_writable_roots us (root <$> wrs))) q = None →
  topmost (concat (root_ops us (root <$> wrs) <$> sort_by_key (λ wr, path_depth (root wr)) wrs)) q = None →
  topmost (concat (mask_ops (root <$> wrs) <$> rootless_unreadable_roots us (root <$> wrs))) q = None →
  False.
Proof.
  intros Ht Hp Ha Hr Hn. pose proof (prefix_exists t (unreadable_real t Ht) Hp) as He.
  destruct (existsb (λ r, path_starts_with t r) (root <$> wrs)) eqn:E1.
  { apply existsb_elem in E1 as (r & (wr & -> & Hwr)%list_elem_of_fmap & Hpre%path_starts_with_spec).
    apply (root_covers us (root <$> wrs) wr q); [by etrans|].
    eapply top_concat_None; [exact Hr|]. by apply sorted_elem. }
  assert (∀ r, r ∈ root <$> wrs → ¬ r `prefix_of` t) as Hout.
  { intros r Hin Hpre. apply not_true_iff_false in E1. apply E1, existsb_elem. exists r.
    split; [done|by apply path_starts_with_spec]. }
  destruct (existsb (λ r, path_starts_with r t) (root <$> wrs)) eqn:E2.
  - apply existsb_elem in E2 as (r & Hin & Hpre%path_starts_with_spec).
    apply (mask_covers (root <$> wrs) t q); [done..|]. eapply top_concat_None; [exact Ha|].
    apply elem_ancestors. split_and!; [done..|]. by exists r.
  - apply (mask_covers (root <$> wrs) t q); [done..|]. eapply top_concat_None; [exact Hn|].
    apply elem_rootless. split; [done|]. intros r Hin. split; [by apply Hout|]. intros Hpre.
    apply not_true_iff_false in E2. apply E2, existsb_elem. exists r.
    split; [done|by apply path_starts_with_spec].
Qed.

(** What one writable root leaves visible. *)
Lemma served_by_root wr ro s d :
  gitdirs_inside → wr ∈ wrs →
  topmost (root_ops us (root <$> wrs) wr) q = Some (BindMount ro s d) →
  (ro = true ∧ s = dev_null) ∨
  (s = d ∧ d `prefix_of` q ∧ access_of cwd self q ≠ AccessNone ∧
   (ro = false → access_of cwd self q = AccessWrite)).
Proof.
  intros Hgit Hwr Ho. pose proof (top_Some _ _ _ Ho) as [_ Hd%op_covers_bind].
  unfold root_ops in Ho. rewrite !top_app, top_single in Ho.
  destruct (topmost (concat (mask_ops _ <$> _)) q) as [o|] eqn:EN.
  { simplify_eq. apply top_concat_elem in EN as (u & _ & Hu). left. by apply mask_no_bind in Hu. }
  assert (root wr `prefix_of` q → access_of cwd self q ≠ AccessNone) as Hread.
  { intros Hp Ha. destruct (denied_root (root wr) Ha (root_readable wr Hwr) Hp) as (t & Ht & Htq & Hrt).
    apply (mask_covers (root <$> wrs) t q); [by apply prefix_exists, Htq; apply unreadable_real|done|].
    eapply top_concat_None; [exact EN|]. rewrite sorted_elem, elem_of_filterb.
    split; [by apply path_starts_with_spec|done]. }
  destruct (topmost (concat ((λ s, sub_ops s _) <$> _)) q) as [o|] eqn:ES.
  { simplify_eq. apply top_concat_elem in ES as (p & Hp & Hsub). apply sub_bind in Hsub as [Hsub|Hsub];
      [by left|right]. simplify_eq. split_and!; [done..| |done]. apply Hread. etrans; [|exact Hd].
    rewrite sorted_elem, elem_of_filterb in Hp. destruct Hp as [_ Hp].
    apply (roots_subpaths _ _ _ _ HR) in Hp as [Hp|(_ & _ & _ & Hp)]; [|done..].
    by apply Hgit; [apply root_rooted|]. }
  destruct (op_covers q (BindMount false (root wr) (root wr))).
  2: { destruct (max_by_key _ _); [by rewrite dir_ops_top in Ho|done]. }
  simplify_eq. right. specialize (Hread Hd). split_and!; [done..|]. intros _.
  destruct (access_of cwd self q) eqn:Ea; [exfalso|done|done].
  destruct (governing cwd Hcwd' self q) as [[? _]|(t & Ht & Hat & (e & He & Het & Hea) & Hmax)]; [congruence|].
  rewrite Ea in Hat, Hea. destruct (root_rooted wr Hwr) as [(e' & He' & Hep & _) Hw].
  assert (root wr `prefix_of` t) as Hrt by (rewrite <- Hep; apply Hmax; [done|by rewrite Hep]).
  assert (real t = true) as Hreal by (rewrite <- Het; by apply real_of_resolved).
  apply (sub_covers (root <$> wrs) t q); [by apply prefix_exists| |done|].
  { apply elem_within. exists (root wr). split; [|done]. apply list_elem_of_fmap. by exists wr. }
  eapply (top_concat_None (λ s, sub_ops s (root <$> wrs))); [exact ES|].
  rewrite sorted_elem, elem_of_filterb, negb_true_iff, bool_decide_eq_false. split.
  - intros [[_ Hn] _]%(roots_unreadable _ _ _ _ HR). congruence.
  - apply (roots_subpaths _ _ _ _ HR); [done|]. right.
    split_and!; [exists e; split_and!; congruence|congruence|congruence|done].
Qed.

Lemma full_read_access : has_full_disk_read_access self = true → access_of cwd self q ≠ AccessNone.
Proof.
  unfold has_full_disk_read_access. rewrite Hkind. intros [Hroot Hdeny%negb_true_iff]%andb_true_iff Hn.
  pose proof (access_of_governs cwd Hcwd' self q) as Hg.
  destruct Hg as [(e & t & (He & _) & Ha & _)|[Hno _]].
  - unfold has_explicit_deny_entries, is_restricted in Hdeny. rewrite Hkind in Hdeny.
    apply not_true_iff_false in Hdeny. apply Hdeny, existsb_elem. exists e.
    split; [done|]. apply bool_decide_eq_true. congruence.
  - destruct (root_entry_covers cwd self _ q Hroot Hq) as (e & Hc & _). destruct Hno. eauto.
Qed.

(** What the base of the mounts leaves visible. *)
Lemma served_by_base ro s d :
  topmost (base_ops broad readable) q = Some (BindMount ro s d) →
  (access_of cwd self q = AccessNone → ∀ t, t ∈ us → ¬ t `prefix_of` q) →
  ro = true ∧ s = d ∧ (access_of cwd self q ≠ AccessNone ∨ ∃ r, platform_root r ∧ r `prefix_of` q).
Proof.
  intros Ho Hmask. pose proof (top_Some _ _ _ Ho) as [Hin Hd%op_covers_bind].
  assert (∀ r, readable_root r → r `prefix_of` q → access_of cwd self q ≠ AccessNone) as Hr.
  { intros r Hr Hp Ha. destruct (denied_root r Ha Hr Hp) as (t & Ht & Htq & _). by destruct (Hmask Ha t). }
  unfold base_ops in Hin. destruct broad.
  - rewrite elem_of_cons, list_elem_of_singleton in Hin. destruct Hin as [Hin|Hin]; [|done]. simplify_eq.
    split_and!; [done..|]. left. destruct (roots_broad _ _ _ _ HR) as [?|?]; [done| |by eapply Hr].
    by apply full_read_access.
  - rewrite elem_of_app, elem_of_cons, list_elem_of_singleton in Hin.
    destruct Hin as [[Hin|Hin]|Hin]; [done..|].
    apply list_elem_of_In, in_concat in Hin as (l & Hl & Hin).
    apply list_elem_of_In, list_elem_of_fmap in Hl as (r & -> & Hr').
    apply list_elem_of_In in Hin. destruct (path_exists r); [|set_solver].
    apply list_elem_of_singleton in Hin. simplify_eq. split_and!; [done..|].
    destruct (roots_readable _ _ _ _ HR r Hr') as [?|?]; [left; by eapply Hr|right; by exists r].
Qed.

(** What the mounts leave visible of the host. *)
Lemma served_by_mounts ro s d :
  gitdirs_inside →
  topmost (filesystem_ops (base_ops broad readable) wrs us) q = Some (BindMount ro s d) →
  (ro = true ∧ s = dev_null) ∨
  (s = d ∧ d `prefix_of` q ∧ (ro = false → access_of cwd self q = AccessWrite) ∧
   (access_of cwd self q ≠ AccessNone ∨ ∃ r, platform_root r ∧ r `prefix_of` q)).
Proof.
  intros Hgit Ho. pose proof (top_Some _ _ _ Ho) as [_ Hd%op_covers_bind].
  unfold filesystem_ops in Ho. rewrite !top_app in Ho.
  destruct (topmost (concat (_ <$> rootless_unreadable_roots _ _)) q) as [o|] eqn:E3.
  { simplify_eq. apply top_concat_elem in E3 as (u & _ & Hu). left. by apply mask_no_bind in Hu. }
  destruct (topmost (concat (_ <$> sort_by_key _ wrs)) q) as [o|] eqn:E2.
  { simplify_eq. apply top_concat in E2 as (l1 & wr & l2 & Hl & Hwr & _).
    assert (wr ∈ wrs) as Hin.
    { apply (sorted_elem (λ wr, path_depth (root wr))). rewrite Hl. set_solver. }
    destruct (served_by_root wr ro s d) as [?|(-> & Hp & Hread & Hw)]; [done..|by left|right].
    split_and!; [done..|by left]. }
  destruct (topmost (concat (_ <$> ancestors_of_writable_roots _ _)) q) as [o|] eqn:E1.
  { simplify_eq. apply top_concat_elem in E1 as (u & _ & Hu). left. by apply mask_no_bind in Hu. }
  destruct (served_by_base ro s d) as (-> & -> & Hread); [done| |right; by split_and!].
  intros _ t Ht Htq. by eapply unreadable_covered.
Qed.
End Served.
End Sound.

(** ** The command line as a whole *)
Lemma emits_flags s rest :
  parse_options s None ([lit "--new-session"; lit "--die-with-parent"] ++ rest)
  = parse_options (set_flags (set_flags s false false false true false) false false false false true)
      None rest.
Proof. reflexivity. Qed.

Ltac parse_flag :=
  cbn [app parse_options];
  match goal with
  | |- context [flag_of ?arg] =>
      let f := eval vm_compute in (flag_of arg) in change (flag_of arg) with f; cbn [parse_options]
  end.

Lemma emits_unshare s rest :
  parse_options s None ([lit "--unshare-user"; lit "--unshare-pid"] ++ rest)
  = parse_options (set_flags (set_flags s true false false false false) false true false false false)
      None rest.
Proof. reflexivity. Qed.

Lemma host_at_empty `{BwrapEnv} q : host_at empty_root q = None.
Proof. unfold host_at, serving, serves. simpl. by destruct (path_starts_with q [RootDir]). Qed.

(** The sandbox the arguments after the mounts ask for. *)
Definition namespaces (s : Parsed) (options : BwrapOptions) (cmd : list str) : Parsed := {|
  ops := ops s ++ (if mount_proc options then [MountProc (path_of_str (lit "/proc"))] else []);
  unshare_user := true; unshare_pid := true;
  unshare_net := unshare_net s || should_unshare_network (network_mode options);
  new_session := new_session s; die_with_parent := die_with_parent s; argv0 := argv0 s;
  command := cmd
|}.

Lemma parse_namespace_args s options cmd :
  parse_options s None (namespace_args options cmd) = Some (namespaces s options cmd).
Proof.
  unfold namespace_args. rewrite emits_unshare.
  destruct options as [[] []]; cbn [network_mode mount_proc should_unshare_network app];
    repeat parse_flag; unfold namespaces, set_command, set_flags, add_ops; cbn -[path_of_str lit];
    by rewrite ?orb_true_r, ?orb_false_r, ?app_nil_r.
Qed.

Lemma skip_to_prefix (d q : Path) : d `prefix_of` q → d ++ drop (length d) q = q.
Proof. intros [k ->]. by rewrite drop_app_length. Qed.

(** The only device mounts of a sandbox are those over [/dev]. *)
Definition no_devices (o : SetupOp) : Prop := match o with MountDev _ => False | _ => True end.

Lemma no_devices_concat {A} (f : A → list SetupOp) l :
  (∀ x, Forall no_devices (f x)) → Forall no_devices (concat (f <$> l)).
Proof. intros Hf. induction l as [|x l IH]; [constructor|]. cbn. by apply Forall_app. Qed.

Lemma no_devices_dirs `{BwrapEnv} mt a : Forall no_devices (dir_ops mt a).
Proof. apply Forall_fmap, Forall_true. done. Qed.

Lemma no_devices_missing `{BwrapEnv} p allowed : Forall no_devices (missing_ops p allowed).
Proof. unfold missing_ops. repeat case_match; by repeat constructor. Qed.

Lemma no_devices_mask `{BwrapEnv} allowed u : Forall no_devices (mask_ops allowed u).
Proof.
  unfold mask_ops. destruct (negb _); [apply no_devices_missing|]. destruct (is_dir u); [|by repeat constructor].
  rewrite ?Forall_cons, ?Forall_app. split_and?; try (by repeat constructor).
  apply no_devices_concat. intros x. apply no_devices_dirs.
Qed.

Lemma no_devices_root `{BwrapEnv} us allowed wr : Forall no_devices (root_ops us allowed wr).
Proof.
  unfold root_ops. rewrite !Forall_app. split_and!; [|by repeat constructor| |].
  - destruct (max_by_key _ _); [apply no_devices_dirs|constructor].
  - apply no_devices_concat. intros x. unfold sub_ops.
    repeat case_match; try (by repeat constructor); apply no_devices_missing.
  - apply no_devices_concat. apply no_devices_mask.
Qed.

Lemma mounts_dev `{BwrapEnv} broad readable wrs us d :
  MountDev d ∈ filesystem_ops (base_ops broad readable) wrs us → d = slash_dev.
Proof.
  assert (Hnone : ∀ l, Forall no_devices l → MountDev d ∉ l).
  { intros l Hl Hin. rewrite Forall_forall in Hl. exact (Hl _ Hin). }
  unfold filesystem_ops, base_ops. rewrite !elem_of_app. intros [Hin|[Hin|[Hin|Hin]]].
  - destruct broad; [|apply elem_of_app in Hin as [Hin|Hin]]; cycle 2.
    { exfalso. eapply Hnone, Hin. apply no_devices_concat. intros x. destruct (path_exists x); by repeat constructor. }
    all: rewrite elem_of_cons, list_elem_of_singleton in Hin; destruct Hin as [Hin|Hin]; [done|by injection Hin].
  - exfalso. eapply Hnone, Hin. apply no_devices_concat, no_devices_mask.
  - exfalso. eapply Hnone, Hin. apply no_devices_concat, no_devices_root.
  - exfalso. eapply Hnone, Hin. apply no_devices_concat, no_devices_mask.
Qed.

(** C11: For a restricted policy without full write access, with real paths,
    on a host without symbolic links whose [.git] files point below their own
    roots: bubblewrap reads a command line of a length it takes (9000 words),
    runs the command it was given in fresh user and process namespaces, with
    the network of the host only when the options say so.  Once it has set up
    the root, every existing path the command finds at [q] on the host is the
    path [q] itself, or part of [/dev/null], read-only, or one of the device
    nodes of a sandbox's [/dev] (the terminal as [/dev/console] among them).
    Nodes aside, it is writable only if the policy makes [q] writable, and
    there at all only if the policy makes [q] readable or [q] is below a system
    directory the policy asked for. *)
Theorem sandbox_respects_policy `{RealHost} (self : FileSystemSandboxPolicy) (cwd : Path)
    (cmd : list str) (options : BwrapOptions) (a : BwrapArgs) :
  real cwd = true → forallb entry_real (entries self) = true → kind self = KindRestricted →
  has_full_disk_write_access self = false → gitdirs_inside self cwd →
  create_bwrap_command_args cmd self cwd options = Ok a → fits (args a) →
  ∃ parsed, parse_args (args a) = Some parsed ∧
  command parsed = cmd ∧ unshare_user parsed = true ∧ unshare_pid parsed = true ∧
  unshare_net parsed = should_unshare_network (network_mode options) ∧
  ∀ ns q p ro, setup_newroot empty_root (ops parsed) = Some ns →
    normal_abs q = true → path_exists q = true → host_at ns q = Some (p, ro) →
    (ro = true ∧ dev_null `prefix_of` p) ∨
    device_at slash_dev q p ∨
    (p = q ∧ (ro = false → can_write_path_with_cwd self q cwd = Ok true) ∧
     (can_read_path_with_cwd self q cwd = Ok true ∨
      include_platform_defaults self = true ∧
        ∃ r, r ∈ LINUX_PLATFORM_DEFAULT_READ_ROOTS ∧ r `prefix_of` q)).
Proof.
  intros Hcwd Hent Hk Hw Hgit. unfold create_bwrap_command_args, create_bwrap_flags. rewrite Hw.
  intros (fs & Hfs & [= <-])%bind_Ok_inv Hfits. rewrite parse_fits by done. clear Hfits. cbn [args].
  apply create_filesystem_args_Ok in Hfs as (wrs & us & broad & readable & HR & He); [|done..].
  pose proof (emits_flags parsed_nothing (args fs ++ namespace_args options cmd)) as Hflags.
  cbn [app] in Hflags. rewrite Hflags, (proj2 He), parse_namespace_args. eexists. split; [done|]. split_and!; [done..|].
  intros ns q p ro Hns Hq Hex Hat. pose proof (setup_host _ _ _ _ _ _ Hns Hat) as Htop.
  cbn [ops namespaces add_ops set_flags parsed_nothing app] in Htop. rewrite top_app in Htop.
  destruct (topmost (if mount_proc options then _ else _) q) as [o|] eqn:Ep.
  { apply top_Some in Ep as [Ho _]. destruct Htop as [(? & ? & ? & -> & _)|(? & -> & _)];
      destruct (mount_proc options); set_solver. }
  destruct (topmost (filesystem_ops _ _ _) q) as [o|] eqn:Et; [|by destruct Htop as (? & Hn & _); rewrite host_at_empty in Hn].
  destruct Htop as [(ro' & s & d & -> & -> & Hro)|(d & -> & Hdev)]; cycle 1.
  { right. left. apply top_Some in Et as [Hd%mounts_dev _]. by rewrite <-Hd. }
  rewrite can_write_normal, can_read_normal by (done || by apply real_normal).
  destruct (served_by_mounts self cwd Hcwd Hent Hk Hw wrs us broad readable HR q Hq Hex ro' s d Hgit Et)
    as [[-> ->]|(-> & Hp & Hwr & Hrd)].
  - left. split; [by destruct ro; [|discriminate (Hro eq_refl)]|]. by eexists.
  - right. right. split_and!.
    + by apply skip_to_prefix.
    + intros Hf. f_equal. by apply can_write_access, Hwr, Hro.
    + destruct Hrd as [Hrd|(r & [Hi Hr] & Hpr)]; [left; f_equal; by apply access_can_read_spec|].
      right. split; [done|]. by exists r.
Qed.

(** ** Applications of the theorem *)
#[local] Existing Instances host_env host_bwrap host_real.

(** The workspace is writable, and [secret] in it is hidden. *)
Definition hiding_policy : FileSystemSandboxPolicy :=
  restricted [special_entry SpecialRoot AccessRead;
              special_entry CurrentWorkingDirectory AccessWrite;
              path_entry AccessNone (path_of_str (lit "/ws/secret"))].

Definition isolated : BwrapOptions := {| mount_proc := true; network_mode := Isolated |}.

Definition hiding_args : BwrapArgs :=
  match create_bwrap_command_args [lit "ls"] hiding_policy host_ws isolated with
  | Ok a => a
  | _ => {| args := []; preserved_files := [] |}
  end.

Lemma resolved_by_list policy (P : ResolvedFileSystemEntry → bool) :
  forallb P (resolved host_ws policy) = true → ∀ e, e ∈ resolved host_ws policy → P e = true.
Proof. by rewrite forallb_elem. Qed.

(** A decidable form of [gitdirs_inside]. *)
Definition gitdirs_inside_b (policy : FileSystemSandboxPolicy) : bool :=
  forallb (λ e, negb (bool_decide (resolved_access e = AccessWrite))
                || forallb (λ s, path_starts_with s (resolved_path e)) (defaults (resolved_path e)))
    (resolved host_ws policy).

Lemma gitdirs_inside_by_list policy :
  gitdirs_inside_b policy = true → gitdirs_inside policy host_ws.
Proof.
  unfold gitdirs_inside_b. intros Hb r s [(e & He & <- & Ha) _] Hs.
  apply (resolved_by_list _ _ Hb) in He.
  rewrite bool_decide_eq_true_2 in He by done. simpl in He. rewrite forallb_elem in He.
  by apply path_starts_with_spec, He.
Qed.

Lemma sandbox_respects_witness :
  ∃ parsed ns, sandbox (args hiding_args) = Some (parsed, ns) ∧
    host_at ns (path_of_str (lit "/ws/src/a")) = Some (path_of_str (lit "/ws/src/a"), false) ∧
    host_at ns (path_of_str (lit "/ws/.git/config"))
      = Some (path_of_str (lit "/ws/.git/config"), true) ∧
    host_at ns (path_of_str (lit "/ws/secret/key")) = None ∧
    can_write_path_with_cwd hiding_policy (path_of_str (lit "/ws/src/a")) host_ws = Ok true.
Proof.
  destruct (sandbox_respects_policy hiding_policy host_ws [lit "ls"] isolated hiding_args)
    as (parsed & Hp & _ & _ & _ & _ & Hall);
    [vm_compute; reflexivity..|apply gitdirs_inside_by_list; vm_compute; reflexivity
    |vm_compute; reflexivity|vm_compute; discriminate|].
  assert (sandbox (args hiding_args)
          = ns ← setup_newroot empty_root (ops parsed); Some (parsed, ns)) as Hs.
  { unfold sandbox. by rewrite Hp. }
  destruct (setup_newroot empty_root (ops parsed)) as [ns|] eqn:Hns; [|vm_compute in Hs; discriminate Hs].
  specialize (Hall ns (path_of_str (lit "/ws/src/a")) (path_of_str (lit "/ws/src/a")) false eq_refl
                eq_refl eq_refl).
  cbn [mbind option_bind] in Hs. exists parsed, ns. split; [exact Hs|]. clear Hp Hns.
  vm_compute in Hs. injection Hs as <- <-.
  split_and!; [vm_compute; reflexivity..|].
  destruct Hall as [[? _]|[(m & s & Hin & Hp & _)|(_ & Hw & _)]]; [vm_compute; reflexivity|discriminate| |by apply Hw].
  exfalso. assert (forallb (λ b, negb (path_starts_with (path_of_str (lit "/ws/src/a")) b.1))
    (device_binds slash_dev) = true) as Hb by (vm_compute; reflexivity).
  rewrite forallb_elem in Hb. apply Hb, negb_true_iff, not_true_iff_false in Hin.
  apply Hin. by apply path_starts_with_spec.
Defined.
