(* ===== verification/BwrapStarts.v ===== *)
(** * The Linux sandbox starts and gives what the policy allows

    [BwrapSound.v] bounds what a command can reach.  Here: for a policy that
    denies nothing explicitly and whose paths exist, bubblewrap sets the root
    up, and everything the policy allows is there.  The file ends with sandboxes
    that do not start, or show what they should not. *)
From stdpp Require Import base tactics option list sets numbers strings sorting.
From S2P Require Import Prelude RustStr Paths Permissions Bwrap BwrapView BwrapOps BwrapSound.
From stdpp Require Import list.

Definition slash_proc : Path := path_of_str (lit "/proc").

(** Paths the mounts of [/dev] and [/proc] leave alone. *)
Definition ordinary (p : Path) : Prop := ¬ slash_dev `prefix_of` p ∧ ¬ slash_proc `prefix_of` p.

(** The host's files form a tree. *)
Class HostTree `{BwrapEnv} : Prop := {
  dir_exists p : is_dir p = true → path_exists p = true;
  file_exists p : is_file p = true → path_exists p = true;
  parents_are_dirs p q :
    path_exists q = true → p `prefix_of` q → p ≠ q → p ≠ [] → is_dir p = true;
  top_dirs : is_dir [RootDir] = true ∧ is_dir slash_dev = true ∧ is_dir slash_proc = true;
  device_files s : s ∈ (device_binds slash_dev).*2 → host_kind s = Some KFile;
}.

Lemma ordinary_prefix p q : ordinary q → p `prefix_of` q → ordinary p.
Proof. intros [Hd Hp] Hpre. split; intros ?; [apply Hd|apply Hp]; by etrans. Qed.

Section Starts.
Context `{RealHost} `{!HostTree}.

(** ** New roots that agree with the host

    Every ordinary path of the host is there with its kind, or can be made. *)
Definition makeable (ns : Newroot) (p : Path) : Prop :=
  ∃ m made, serving ns p = Some m ∧ content m = Tmpfs false made.

Definition settled (p : Path) : Prop :=
  [RootDir] `prefix_of` p ∧ (ordinary p ∨ p = slash_dev ∨ p = slash_proc).

Definition agrees (ns : Newroot) : Prop :=
  ∀ p k, settled p → host_kind p = Some k →
    stat ns p = Some k ∨ (stat ns p = None ∧ makeable ns p).

Lemma host_kind_exists p : path_exists p = true → ∃ k, host_kind p = Some k.
Proof. intros He. unfold host_kind. destruct (is_dir p); [by eexists|]. rewrite He. by eexists. Qed.

Lemma host_kind_dir p : is_dir p = true → host_kind p = Some KDir.
Proof. unfold host_kind. by intros ->. Qed.

(** What is made appears, and nothing else changes. *)
Lemma stat_made l h q k m made :
  serving {| mounts := l; host_made := h |} q = Some m → content m = Tmpfs false made →
  let ns' := {| mounts := update_serving q (add_entry q k) l; host_made := h |} in
  ∀ p, (stat ns' p = stat {| mounts := l; host_made := h |} p ∨ (p = q ∧ stat ns' p = Some k)) ∧
       (makeable {| mounts := l; host_made := h |} p → makeable ns' p).
Proof.
  intros Hm Hc ns' p. unfold ns', makeable, stat, serving in *. simpl in *. clear ns'.
  induction l as [|m0 l IH]; [done|]. simpl in *. unfold serves in *. simpl in *.
  destruct (path_starts_with q (mounted_at m0)) eqn:Eq; simpl in *.
  - simplify_eq. unfold serves. simpl. destruct (path_starts_with p (mounted_at m)) eqn:Ep; simpl.
    + unfold below. simpl. rewrite Hc. simpl. destruct (drop (length (mounted_at m)) p) eqn:Eb.
      * split; [by left|]. intros _. by eexists _, _.
      * split; [|intros _; by eexists _, _].
        unfold lookup_path. simpl. case_decide; simpl; [right; by subst|left].
        by destruct (list_find _ made) as [[]|].
    + by split; [left|].
  - destruct (path_starts_with p (mounted_at m0)) eqn:Ep; simpl; [by split; [left|]|]. by apply IH.
Qed.

Lemma ensure_agrees ns p k :
  agrees ns → settled p → host_kind p = Some k → ∃ ns', ensure ns k p = Some ns' ∧ agrees ns'.
Proof.
  intros Ha Hs Hk. unfold ensure. destruct (Ha p k Hs Hk) as [->|[-> (m & made & Hm & Hc)]].
  { rewrite bool_decide_eq_true_2 by done. by exists ns. }
  unfold make. rewrite Hm, Hc. eexists. split; [done|]. destruct ns as [l h].
  intros p' k' Hs' Hk'. destruct (stat_made l h p k m made Hm Hc p') as [Hst Hmk].
  cbn [mounts host_made]. destruct Hst as [Hst|[-> Hst]].
  - destruct (Ha p' k' Hs' Hk') as [Hp|[Hp Hmk']]; [left; congruence|right].
    split; [congruence|]. by apply Hmk.
  - left. congruence.
Qed.

Lemma parents_agree ns d :
  agrees ns → settled d → (∀ p, p `prefix_of` d → p ≠ d → p ≠ [] → is_dir p = true ∧ settled p) →
  ∃ ns', ensure_parents ns d = Some ns' ∧ agrees ns'.
Proof.
  intros Ha _ Hp. unfold ensure_parents.
  assert (∀ p, p ∈ proper_prefixes d → is_dir p = true ∧ settled p) as Hl.
  { intros p (n & -> & Hn)%list_elem_of_fmap. apply elem_of_seq in Hn.
    assert (length (take (S n) d) = S n) as Hlen by (rewrite length_take; lia).
    apply Hp; [apply prefix_take|intros E; rewrite E in Hlen; lia|intros E; by rewrite E in Hlen]. }
  clear Hp. revert ns Ha Hl. generalize (proper_prefixes d) as l.
  induction l as [|p l IH]; intros ns Ha Hl; simpl; [by exists ns|].
  destruct (Hl p (list_elem_of_here _ _)) as [Hd Hs].
  destruct (ensure_agrees ns p KDir) as (ns1 & -> & Ha1); [done|done|by apply host_kind_dir|].
  apply IH; [done|]. intros p' Hp'. apply Hl. by apply list_elem_of_further.
Qed.

(** ** Operations that succeed *)
Definition op_fine (op : SetupOp) : Prop :=
  match op with
  | BindMount _ s d => s = d ∧ [RootDir] `prefix_of` d ∧ path_exists d = true ∧ ordinary d
  | MountDev d => d = slash_dev
  | MountProc d => d = slash_proc
  | MountTmpfs _ d => d = [RootDir]
  | _ => False
  end.

Lemma ordinary_root : ordinary [RootDir].
Proof. split; intros Hp%prefix_length; simpl in Hp; lia. Qed.

Lemma settled_root : settled [RootDir].
Proof. split; [done|]. left. apply ordinary_root. Qed.

Lemma root_prefix_of p d : [RootDir] `prefix_of` d → p `prefix_of` d → p ≠ [] → [RootDir] `prefix_of` p.
Proof.
  intros [k ->] [k' Hk] Hne. destruct p as [|c p]; [done|]. injection Hk as -> _. by exists p.
Qed.

Lemma parents_of_existing d p :
  [RootDir] `prefix_of` d → path_exists d = true → ordinary d →
  p `prefix_of` d → p ≠ d → p ≠ [] → is_dir p = true ∧ settled p.
Proof.
  intros Hd He Ho Hp Hne Hnn. split; [by eapply parents_are_dirs|].
  split; [by eapply root_prefix_of|left; by eapply ordinary_prefix].
Qed.

Lemma parents_of_top d p :
  d = slash_dev ∨ d = slash_proc → p `prefix_of` d → p ≠ d → p ≠ [] → is_dir p = true ∧ settled p.
Proof.
  intros Hd Hp Hne Hnn. assert (p = [RootDir]) as ->; [|split; [apply top_dirs|apply settled_root]].
  assert (∃ n, d = [RootDir; Normal n]) as [n ->] by (destruct Hd as [->| ->]; eexists; reflexivity).
  destruct Hp as [k Hk]. destruct p as [|c [|c' p]]; simplify_eq/=; [done|].
  destruct p; simplify_eq/=.
Qed.

Lemma agrees_mount ns d c :
  agrees ns →
  (∀ p k, settled p → d `prefix_of` p → host_kind p = Some k →
     stat (mount ns d c) p = Some k ∨ (stat (mount ns d c) p = None ∧ c = Tmpfs false [])) →
  agrees (mount ns d c).
Proof.
  intros Ha Hd p k Hs Hk. destruct (path_starts_with p d) eqn:E.
  - destruct (Hd p k Hs) as [?|[? ->]]; [by apply path_starts_with_spec|done|by left|right].
    split; [done|]. eexists _, []. unfold serving, serves. simpl. by rewrite E.
  - destruct (Ha p k Hs Hk) as [Hp|[Hp (m & made & Hm & Hc)]]; [left|right]; unfold stat, makeable, serving, serves in *;
      simpl; rewrite E; [done|]. split; [done|]. eauto.
Qed.

Lemma settled_dev_proc p d :
  settled p → d = slash_dev ∨ d = slash_proc → d `prefix_of` p → p = d.
Proof.
  intros [_ [[Hd Hp]|[->| ->]]] [->| ->] Hpre; try done; exfalso.
  - destruct Hpre as [k Hk]. by destruct k.
  - destruct Hpre as [k Hk]. by destruct k.
Qed.

(** A place below [/dev] where something can be made. *)
Lemma made_below ns name k :
  agrees ns → makeable ns (in_dir slash_dev name) →
  ∃ ns', make ns (in_dir slash_dev name) k = Some ns' ∧ agrees ns' ∧ ∀ p, makeable ns p → makeable ns' p.
Proof.
  intros Ha (m & made & Hm & Hc). unfold make. rewrite Hm, Hc. eexists. split; [done|].
  destruct ns as [l h]. pose proof (stat_made l h (in_dir slash_dev name) k m made Hm Hc) as Hst.
  cbn [mounts host_made]. split; [|intros p; apply Hst]. intros p' k' Hs' Hk'.
  destruct (Hst p') as [[Heq|[-> _]] Hmk].
  - destruct (Ha p' k' Hs' Hk') as [Hp|[Hp Hmk']]; [left; congruence|right; split; [congruence|by apply Hmk]].
  - pose proof (settled_dev_proc _ slash_dev Hs' (or_introl eq_refl) (prefix_app_r _ _ _ (reflexivity _))) as Heq.
    by apply (f_equal length) in Heq.
Qed.

Lemma mounted_below ns name c :
  agrees ns → agrees (mount ns (in_dir slash_dev name) c) ∧
  ∀ name', name' ≠ name → makeable ns (in_dir slash_dev name') →
    makeable (mount ns (in_dir slash_dev name) c) (in_dir slash_dev name').
Proof.
  intros Ha. split.
  - apply agrees_mount; [done|]. intros p k Hs Hp. exfalso. apply in_dir_prefix in Hp as Hp'.
    apply (settled_dev_proc p slash_dev) in Hp'; [|done|by left]. subst p.
    apply prefix_length in Hp. unfold in_dir in Hp. rewrite length_app in Hp. cbn in Hp. lia.
  - intros name' Hne (m & made & Hm & Hc). exists m, made. split; [|done]. unfold serving, serves. cbn.
    destruct (path_starts_with _ _) eqn:E; [|done]. exfalso. apply path_starts_with_spec in E as [k Hk].
    unfold in_dir in Hk. rewrite <-app_assoc in Hk. apply app_inv_head in Hk. injection Hk as -> _. done.
Qed.

(** The device nodes can be mounted, the links and directories made. *)
Lemma bound_below ns s name :
  agrees ns → makeable ns (in_dir slash_dev name) → host_kind s = Some KFile →
  ∃ ns', bind_device ns s (in_dir slash_dev name) = Some ns' ∧ agrees ns' ∧
    ∀ name', name' ≠ name → makeable ns (in_dir slash_dev name') → makeable ns' (in_dir slash_dev name').
Proof.
  intros Ha Hm Hs. destruct (made_below ns name KFile Ha Hm) as (ns1 & Hmk & Ha1 & Hm1).
  unfold bind_device. rewrite Hmk. cbn. rewrite Hs. eexists. split; [done|].
  destruct (mounted_below ns1 name (OnHost s false) Ha1) as [Ha2 Hm2]. split; [done|]. auto.
Qed.

Lemma fold_below {B} (f : Newroot → B → option Newroot) (at_ : B → str) l ns names :
  (∀ ns x, x ∈ l → agrees ns → makeable ns (in_dir slash_dev (at_ x)) →
     ∃ ns', f ns x = Some ns' ∧ agrees ns' ∧
       ∀ name, name ≠ at_ x → makeable ns (in_dir slash_dev name) → makeable ns' (in_dir slash_dev name)) →
  NoDup (at_ <$> l) → agrees ns → (∀ name, name ∈ (at_ <$> l) ++ names → makeable ns (in_dir slash_dev name)) →
  (∀ name, name ∈ names → name ∉ at_ <$> l) →
  ∃ ns', foldO f ns l = Some ns' ∧ agrees ns' ∧ ∀ name, name ∈ names → makeable ns' (in_dir slash_dev name).
Proof.
  revert ns. induction l as [|x l IH]; intros ns Hf Hnd Ha Hm Hn; cbn [foldO].
  { exists ns. split_and!; [done..|]. intros name Hname. apply Hm. set_solver. }
  rewrite fmap_cons in *. apply NoDup_cons in Hnd as [Hx Hnd].
  destruct (Hf ns x) as (ns1 & -> & Ha1 & Hm1); [left|done|apply Hm; left|]. cbn.
  apply IH; [|done|done| |].
  - intros ns2 y Hy. apply Hf. by right.
  - intros name Hin. apply Hm1; [|apply Hm; by right].
    intros ->. apply elem_of_app in Hin as [?|Hin]; [done|]. apply (Hn _ Hin). left.
  - intros name Hname Hin. apply (Hn name Hname). by right.
Qed.

Lemma populate_dev_fine ns :
  agrees ns → (∀ name, makeable ns (in_dir slash_dev name)) →
  ∃ ns', populate_dev ns slash_dev = Some ns' ∧ agrees ns'.
Proof.
  intros Ha Hm. unfold populate_dev.
  set (rest := [lit "shm"; lit "pts"; lit "ptmx"; lit "console"]).
  destruct (fold_below (λ ns name, bind_device ns (in_dir slash_dev name) (in_dir slash_dev name)) (λ n, n)
    devnodes ns (devlinks ++ rest)) as (ns1 & -> & Ha1 & Hm1); [| |done|auto| |].
  { intros ns' name Hin Ha' Hm'. apply bound_below; [done..|]. apply device_files.
    unfold device_binds. rewrite fmap_app, elem_of_app. left. rewrite <-list_fmap_compose.
    apply list_elem_of_fmap. by exists name. }
  { apply (bool_decide_unpack _). by vm_compute. }
  { intros name Hin. rewrite list_fmap_id. revert name Hin. apply Forall_forall.
    apply (bool_decide_unpack _). by vm_compute. }
  cbn [mbind option_bind].
  destruct (fold_below (λ ns name, make ns (in_dir slash_dev name) KLink) (λ n, n) devlinks ns1 rest)
    as (ns2 & -> & Ha2 & Hm2); [| |done|by rewrite list_fmap_id| |].
  { intros ns' name _ Ha' Hm'. destruct (made_below ns' name KLink Ha' Hm') as (? & ? & ? & ?). eauto 6. }
  { apply (bool_decide_unpack _). by vm_compute. }
  { intros name Hin. rewrite list_fmap_id. revert name Hin. apply Forall_forall.
    apply (bool_decide_unpack _). by vm_compute. }
  cbn [mbind option_bind].
  assert (Hrest : ∀ i n, rest !! i = Some n → makeable ns2 (in_dir slash_dev n)).
  { intros i n Hi. by apply Hm2, list_elem_of_lookup_2 in Hi || eapply Hm2, list_elem_of_lookup_2. }
  pose proof (Hrest 0 _ eq_refl) as Hshm. pose proof (Hrest 1 _ eq_refl) as Hpts.
  pose proof (Hrest 2 _ eq_refl) as Hptmx. pose proof (Hrest 3 _ eq_refl) as Hcon.
  destruct (made_below ns2 (lit "shm") KDir Ha2 Hshm) as (ns3 & -> & Ha3 & Hm3). cbn [mbind option_bind].
  destruct (made_below ns3 (lit "pts") KDir Ha3 (Hm3 _ Hpts)) as (ns4 & -> & Ha4 & Hm4). cbn [mbind option_bind].
  cbv zeta. destruct (mounted_below ns4 (lit "pts") Terminals Ha4) as [Ha5 Hm5].
  destruct (made_below _ (lit "ptmx") KLink Ha5) as (ns6 & -> & Ha6 & Hm6); [by apply Hm5; auto|].
  cbn [mbind option_bind]. destruct host_tty_dev as [tty|] eqn:Et; [|by exists ns6].
  destruct (bound_below ns6 tty (lit "console") Ha6) as (ns7 & Hb & Ha7 & _); [by apply Hm6, Hm5; auto| |by exists ns7].
  apply device_files. unfold device_binds. rewrite Et, fmap_app, elem_of_app. right. left.
Qed.

Lemma setup_op_fine ns op : agrees ns → op_fine op → ∃ ns', setup_op ns op = Some ns' ∧ agrees ns'.
Proof.
  intros Ha. destruct op as [ro s d|d|d|perms d| | |]; simpl; try done.
  - intros (-> & Hr & He & Ho). destruct (host_kind_exists d He) as [k Hk]. rewrite Hk. simpl.
    assert (settled d) as Hs by (split; [done|by left]).
    destruct (parents_agree ns d Ha Hs) as (ns1 & -> & Ha1); [intros; by eapply (parents_of_existing d)|]. simpl.
    destruct (ensure_agrees ns1 d k Ha1 Hs Hk) as (ns2 & -> & Ha2). simpl. eexists. split; [done|].
    apply agrees_mount; [done|]. intros p k' _ Hp Hk'. left.
    unfold stat, serving, serves. simpl. apply path_starts_with_spec in Hp as Hp'. rewrite Hp'. simpl.
    unfold below. simpl. rewrite skip_to_prefix by done. by rewrite Hk'.
  - intros ->. assert (settled slash_proc) as Hs by (split; [by eexists|auto]).
    destruct (parents_agree ns slash_proc Ha Hs) as (ns1 & -> & Ha1); [intros; apply (parents_of_top slash_proc); auto|].
    simpl. destruct (ensure_agrees ns1 slash_proc KDir Ha1 Hs) as (ns2 & -> & Ha2);
      [apply host_kind_dir, top_dirs|]. simpl. eexists. split; [done|]. apply agrees_mount; [done|].
    intros p k Hsp Hp Hk. left. rewrite (settled_dev_proc p slash_proc) in * by auto.
    rewrite host_kind_dir in Hk by apply top_dirs. simplify_eq. done.
  - intros ->. assert (settled slash_dev) as Hs by (split; [by eexists|auto]).
    destruct (parents_agree ns slash_dev Ha Hs) as (ns1 & -> & Ha1); [intros; apply (parents_of_top slash_dev); auto|].
    simpl. destruct (ensure_agrees ns1 slash_dev KDir Ha1 Hs) as (ns2 & -> & Ha2);
      [apply host_kind_dir, top_dirs|]. simpl. apply populate_dev_fine.
    + apply agrees_mount; [done|]. intros p k Hsp Hp Hk. left.
      rewrite (settled_dev_proc p slash_dev) in * by auto.
      rewrite host_kind_dir in Hk by apply top_dirs. simplify_eq. done.
    + intros name. eexists _, []. unfold serving, serves. simpl. done.
  - intros ->. destruct (ensure_agrees ns [RootDir] KDir Ha settled_root) as (ns2 & Hns & Ha2);
      [apply host_kind_dir, top_dirs|].
    unfold ensure_parents, proper_prefixes. simpl. rewrite Hns. simpl. eexists. split; [done|].
    apply agrees_mount; [done|]. intros p k _ [rest ->] Hk. destruct rest as [|c rest].
    + left. rewrite host_kind_dir in Hk by apply top_dirs. by simplify_eq.
    + right. done.
Qed.

Lemma setup_fine ops ns :
  agrees ns → Forall op_fine ops → ∃ ns', setup_newroot ns ops = Some ns'.
Proof.
  intros Ha Hops. revert ns Ha. unfold setup_newroot.
  induction Hops as [|op ops Hop Hops IH]; intros ns Ha; simpl; [by exists ns|].
  destruct (setup_op_fine ns op Ha Hop) as (ns1 & -> & Ha1). by apply IH.
Qed.

Lemma agrees_empty : agrees empty_root.
Proof.
  intros p k [[rest ->] _] Hk. destruct rest as [|c rest].
  - left. rewrite host_kind_dir in Hk by apply top_dirs. by simplify_eq.
  - right. split; [done|]. eexists _, []. done.
Qed.

(** With such operations the serving mount is as it was mounted. *)
Lemma setup_host_exact ops ns ns' q :
  ¬ slash_dev `prefix_of` q → Forall op_fine ops → setup_newroot ns ops = Some ns' →
  host_at ns' q = match topmost ops q with
                  | Some (BindMount ro s d) => Some (s ++ drop (length d) q, ro)
                  | Some _ => None
                  | None => host_at ns q
                  end.
Proof.
  intros Hq Hops. revert ns. unfold setup_newroot.
  induction Hops as [|op ops Hop Hops IH]; intros ns; simpl; [by intros [= <-]|].
  intros (ns1 & Hx1 & Hx2)%bind_Some. rewrite (IH ns1 Hx2), top_cons.
  destruct (topmost ops q) as [o|]; [done|]. clear IH Hx2. unfold op_covers.
  destruct op as [ro s d|d|d|perms d| | |]; try done; simpl in *.
  3: { subst d. apply bind_Some in Hx1 as (ns2 & Hp%ensure_parents_shape & Hx1).
       apply bind_Some in Hx1 as (ns3 & He%ensure_shape & Hx1%populate_dev_over). specialize (Hx1 q).
       assert (path_starts_with q slash_dev = false) as E
         by (apply not_true_iff_false; by rewrite path_starts_with_spec).
       rewrite E in *. rewrite Hx1. apply host_at_shape. congruence. }
  1: apply bind_Some in Hx1 as (k & _ & Hx1).
  all: apply bind_Some in Hx1 as (ns2 & Hp%ensure_parents_shape & Hx1);
    apply bind_Some in Hx1 as (ns3 & He%ensure_shape & [= <-]); rewrite host_at_mount;
    destruct (path_starts_with q d); try done; apply host_at_shape; congruence.
Qed.

(** ** Policies without denials *)
Section Policy.
Variables (self : FileSystemSandboxPolicy) (cwd : Path).
Hypothesis Hcwd : real cwd = true.
Hypothesis Hentries : forallb entry_real (entries self) = true.
Hypothesis Hkind : kind self = KindRestricted.
Hypothesis Hwrite : has_full_disk_write_access self = false.
Hypothesis no_denials : ∀ e, e ∈ entries self → entry_access e ≠ AccessNone.
Hypothesis targets_exist : ∀ e, e ∈ resolved cwd self →
  path_exists (resolved_path e) = true ∧ ordinary (resolved_path e).
Hypothesis protected_inside : ∀ r s, rooted self cwd AccessWrite r → s ∈ defaults r →
  r `prefix_of` s ∧ ordinary s.

Let Hcwd' : normal_abs cwd = true := real_normal _ Hcwd.
Let Hwf : forallb entry_wf (entries self) = true := entries_real_wf _ Hentries.

Lemma defaults_exist r s : s ∈ defaults r → path_exists s = true.
Proof.
  unfold defaults. destruct (default_read_only_subpaths_for_writable_root r) as [l| | |] eqn:E;
    [|by intros ?%elem_of_nil..].
  unfold default_read_only_subpaths_for_writable_root, protected_subpaths in E.
  apply bind_Ok_inv in E as (subs & (git & Hgit & (dirs & Hdirs & [= <-])%bind_Ok_inv)%bind_Ok_inv & [= <-]).
  unfold dedup_absolute_paths. rewrite list_fmap_id, elem_of_dedup_from, elem_of_app.
  intros [[Hs|Hs] _].
  - destruct (is_dir git || is_file git) eqn:Eg; [|set_solver].
    rewrite elem_of_app, list_elem_of_singleton in Hs. destruct Hs as [Hs| ->].
    + destruct (is_file git && is_git_pointer_file git); [|set_solver].
      apply elem_option_list in Hs. unfold resolve_gitdir_from_file in Hs.
      repeat (case_match || case_bool_decide); simplify_eq; done.
    + apply orb_true_iff in Eg as [?|?]; [by apply dir_exists|by apply file_exists].
  - destruct (filter_mapM_elem _ _ _ _ Hdirs Hs) as (name & _ & Hf).
    apply bind_Ok_inv in Hf as (d & _ & Hf). destruct (is_dir d) eqn:Ed; [|done].
    injection Hf as <-. by apply dir_exists.
Qed.

Section Roots.
Variables (wrs : list WritableRoot) (us : list Path) (broad : bool) (readable : list Path).
Hypothesis HR : Roots self cwd wrs us broad readable.
Abbreviation allowed := (root <$> wrs).

Lemma no_unreadable : us = [].
Proof.
  destruct us as [|u l] eqn:E; [done|exfalso].
  assert (u ∈ us) as Hu by (rewrite E; apply list_elem_of_here). rewrite <- E in HR.
  apply (roots_unreadable _ _ _ _ _ _ HR) in Hu as [[(e & (x & Hx & _ & Ha)%elem_of_resolved & _ & Hn) _] _].
  apply (no_denials x Hx). congruence.
Qed.

Definition subpath_ops (wr : WritableRoot) : list SetupOp :=
  concat ((λ s, sub_ops s allowed) <$>
    sort_by_key path_depth
      (List.filter (λ p, negb (bool_decide (p ∈ us))) (read_only_subpaths wr))).

Lemma root_ops_nil wr :
  root_ops us allowed wr = BindMount false (root wr) (root wr) :: subpath_ops wr.
Proof. unfold root_ops, subpath_ops. rewrite no_unreadable. simpl. by rewrite app_nil_r. Qed.

Lemma filesystem_ops_nil base :
  filesystem_ops base wrs us
  = base ++ concat (root_ops us allowed <$> sort_by_key (λ wr, path_depth (root wr)) wrs).
Proof. unfold filesystem_ops. rewrite no_unreadable. simpl. by rewrite app_nil_r. Qed.

Lemma subpath_fine wr s :
  wr ∈ wrs → s ∈ read_only_subpaths wr →
  path_exists s = true ∧ ordinary s ∧ [RootDir] `prefix_of` s ∧ root wr `prefix_of` s.
Proof.
  intros Hwr Hs. pose proof (root_rooted self cwd wrs us broad readable HR wr Hwr) as Hr.
  pose proof (rooted_real self cwd Hcwd Hentries _ _ Hr) as Hreal.
  apply (roots_subpaths _ _ _ _ _ _ HR) in Hs as [Hs|((e & He & <- & _) & _ & _ & Hp)]; [| |done].
  - destruct (protected_inside _ _ Hr Hs) as [Hp Ho]. split_and!; [by eapply defaults_exist|done| |done].
    etrans; [by apply root_prefix|exact Hp].
  - destruct (targets_exist e He) as [? ?]. split_and!; [done..| |done].
    etrans; [by apply root_prefix|exact Hp].
Qed.

Lemma subpath_ops_elem wr o :
  wr ∈ wrs → o ∈ subpath_ops wr →
  ∃ s, s ∈ read_only_subpaths wr ∧ o = BindMount true s s.
Proof.
  intros Hwr Ho. unfold subpath_ops in Ho. apply list_elem_of_In, in_concat in Ho as (l & Hl & Ho).
  apply list_elem_of_In, list_elem_of_fmap in Hl as (s & -> & Hs). apply list_elem_of_In in Ho.
  rewrite sorted_elem, elem_of_filterb in Hs. destruct Hs as [_ Hs]. exists s. split; [done|].
  destruct (subpath_fine wr s Hwr Hs) as (He & _ & _ & Hp). unfold sub_ops in Ho. rewrite He in Ho.
  simpl in Ho. destruct (is_within_allowed_write_paths s allowed); [|set_solver].
  by apply list_elem_of_singleton in Ho.
Qed.

Lemma root_ops_fine wr : wr ∈ wrs → Forall op_fine (root_ops us allowed wr).
Proof.
  intros Hwr. pose proof (root_rooted self cwd wrs us broad readable HR wr Hwr) as Hr.
  rewrite root_ops_nil. constructor.
  - simpl. destruct Hr as [(e & He & <- & _) _]. destruct (targets_exist e He).
    split_and!; [done| |done..]. by apply root_prefix, (real_of_resolved self cwd Hcwd Hentries).
  - apply Forall_forall. intros o (s & Hs & ->)%subpath_ops_elem; [|done].
    destruct (subpath_fine wr s Hwr Hs) as (? & ? & ? & _). done.
Qed.

Lemma base_ops_fine : Forall op_fine (base_ops broad readable).
Proof.
  assert (Forall (λ r, ordinary r ∧ [RootDir] `prefix_of` r) LINUX_PLATFORM_DEFAULT_READ_ROOTS) as Hplat.
  { apply Forall_forall. intros r Hr. destruct (platform_real r Hr) as [Hreal _].
    split; [|by apply root_prefix].
    assert (forallb (λ r, negb (path_starts_with r slash_dev) && negb (path_starts_with r slash_proc))
              LINUX_PLATFORM_DEFAULT_READ_ROOTS = true) as Hall by (vm_compute; reflexivity).
    rewrite forallb_elem in Hall. specialize (Hall r Hr).
    rewrite andb_true_iff, !negb_true_iff, <- !not_true_iff_false, !path_starts_with_spec in Hall. done. }
  rewrite Forall_forall in Hplat. unfold base_ops. destruct broad.
  - constructor; [|by constructor]. split_and!; [done..|by apply dir_exists, top_dirs|apply ordinary_root].
  - apply Forall_app. split; [by repeat constructor|]. apply Forall_concat, Forall_fmap, Forall_forall.
    intros r Hr. simpl. destruct (path_exists r) eqn:E; [|constructor]. constructor; [|constructor].
    destruct (roots_readable _ _ _ _ _ _ HR r Hr) as [[(e & He & <-) _]|[_ Hp]].
    + split_and!; [done| |done|by apply targets_exist].
      by apply root_prefix, (real_of_resolved self cwd Hcwd Hentries).
    + destruct (Hplat r Hp). by split_and!.
Qed.

Lemma filesystem_ops_fine : Forall op_fine (filesystem_ops (base_ops broad readable) wrs us).
Proof.
  rewrite filesystem_ops_nil. apply Forall_app. split; [apply base_ops_fine|].
  apply Forall_concat, Forall_fmap, Forall_forall. intros wr Hwr. apply root_ops_fine.
  by rewrite sorted_elem in Hwr.
Qed.

(** What the policy allows is there. *)
Lemma root_ops_bind wr o : wr ∈ wrs → o ∈ root_ops us allowed wr → ∃ ro d, o = BindMount ro d d.
Proof.
  intros Hwr. rewrite root_ops_nil, elem_of_cons.
  intros [->|(s & _ & ->)%subpath_ops_elem]; [by eexists _, _..|done].
Qed.

Lemma readable_served q :
  normal_abs q = true → ordinary q → access_of cwd self q ≠ AccessNone →
  ∃ ro d, topmost (filesystem_ops (base_ops broad readable) wrs us) q = Some (BindMount ro d d).
Proof.
  intros Hq Ho Ha. rewrite filesystem_ops_nil, top_app.
  destruct (topmost (concat _) q) as [o|] eqn:E.
  { apply top_concat_elem in E as (wr & Hwr & Hin). rewrite sorted_elem in Hwr.
    destruct (root_ops_bind wr o Hwr Hin) as (ro & d & ->). by eexists _, _. }
  destruct (governing cwd Hcwd' self q) as [[? _]|(t & Ht & Hat & (e & He & <- & _) & _)]; [done|].
  assert (readable_root self cwd (resolved_path e)) as Hr by (split; [by exists e|congruence]).
  unfold base_ops. destruct broad.
  { eexists true, [RootDir]. rewrite top_cons, top_single.
    assert (op_covers q (MountDev (path_of_str (lit "/dev"))) = false) as ->.
    { apply not_true_iff_false. unfold op_covers. simpl. rewrite path_starts_with_spec. apply Ho. }
    by rewrite (proj2 (op_covers_bind _ _ _ _)) by by apply normal_abs_root. }
  destruct (roots_complete _ _ _ _ _ _ HR _ Hr) as [?|Hin]; [done|].
  rewrite top_app. set (f := λ r : Path, if path_exists r then [BindMount true r r] else []).
  assert (topmost (concat (f <$> readable)) q ≠ None) as Hn.
  { apply (concat_covers f _ _ (resolved_path e)); [done|]. apply top_Some_iff. unfold f.
    destruct (targets_exist e He) as [-> _]. eexists. split; [apply list_elem_of_here|].
    by apply op_covers_bind. }
  destruct (topmost (concat (f <$> readable)) q) as [o|] eqn:Et; [|done].
  apply top_concat_elem in Et as (r & _ & Hr'). unfold f in Hr'. destruct (path_exists r); [|set_solver].
  apply list_elem_of_singleton in Hr' as ->. by eexists _, _.
Qed.

Lemma writable_served q :
  access_of cwd self q = AccessWrite →
  (∀ r s, rooted self cwd AccessWrite r → s ∈ defaults r → ¬ s `prefix_of` q) →
  ∃ d, topmost (filesystem_ops (base_ops broad readable) wrs us) q = Some (BindMount false d d).
Proof.
  intros Ha Hprot. rewrite filesystem_ops_nil, top_app.
  destruct (governing cwd Hcwd' self q) as [[? _]|(t & Ht & Hat & (e & He & Het & Hea) & Hmax)]; [congruence|].
  destruct (proj2 (roots_writable _ _ _ _ _ _ HR t)) as (wt & Hwt & Hroot).
  { split; [exists e; split_and!; congruence|congruence]. }
  set (key := λ wr, path_depth (root wr)).
  assert (topmost (concat (root_ops us allowed <$> sort_by_key key wrs)) q ≠ None) as Hn.
  { apply (concat_covers _ _ _ wt); [by apply sorted_elem|]. apply root_covers. by rewrite Hroot. }
  destruct (topmost (concat _) q) as [o|] eqn:E; [|done]. clear Hn.
  apply top_concat in E as (l1 & wr & l2 & Hl & Ho & Hlater).
  assert (wr ∈ wrs) as Hwr by (apply (sorted_elem key); rewrite Hl; set_solver).
  rewrite root_ops_nil, top_cons in Ho.
  destruct (topmost (subpath_ops wr) q) as [o'|] eqn:Es.
  2: { exists (root wr). by destruct (op_covers q _); simplify_eq. }
  exfalso. apply top_Some in Es as [(s & Hs & ->)%subpath_ops_elem Hsq%op_covers_bind]; [|done].
  pose proof (root_rooted self cwd wrs us broad readable HR wr Hwr) as Hr.
  apply (roots_subpaths _ _ _ _ _ _ HR) in Hs as [Hs|((e' & He' & <- & _) & Hns & Hne & Hp)]; [| |done].
  { by eapply Hprot. }
  assert (resolved_path e' `prefix_of` t) as Het' by by apply Hmax.
  assert (length (root wr) < length t) as Hlt.
  { pose proof (prefix_length _ _ Hp). pose proof (prefix_length _ _ Het').
    assert (length (root wr) ≠ length (resolved_path e')); [|lia].
    intros Hlen. apply Hne. symmetry. apply prefix_length_eq; [done|lia]. }
  assert (wt ∈ l1 ++ wr :: l2) as Hin by (rewrite <- Hl; by apply sorted_elem).
  rewrite elem_of_app, elem_of_cons in Hin. destruct Hin as [Hin|[->|Hin]].
  - pose proof (sort_by_key_sorted key wrs) as Hsort. rewrite Hl in Hsort.
    pose proof (StronglySorted_app_1_elem_of _ l1 (wr :: l2) wt wr Hsort Hin (list_elem_of_here _ _)) as Hle.
    unfold key, path_depth in Hle. simpl in Hle. rewrite Hroot in Hle. lia.
  - rewrite Hroot in Hlt. lia.
  - apply (root_covers us allowed wt q); [by rewrite Hroot|]. by apply Hlater.
Qed.
End Roots.

(** The command line exists. *)
Lemma base_args_returns : ∃ base, base_args self cwd = Ok base.
Proof.
  unfold base_args. destruct (has_full_disk_read_access self) eqn:Hread; [by eexists|].
  unfold bwrap_readable_roots.
  destruct (get_readable_roots_Ok cwd Hcwd' canonical_id self) as (rs & -> & _); [done..|].
  by eexists.
Qed.

Lemma append_roots_return allowed wrs a : ∃ a', foldM (append_writable_root [] allowed) a wrs = Ok a'.
Proof.
  revert a; induction wrs as [|wr wrs IH]; intros a; cbn [foldM]; [by eexists|].
  unfold append_writable_root at 1. simpl. apply IH.
Qed.

Lemma ensure_targets_Ok wrs :
  (∀ wr, wr ∈ wrs → path_exists (root wr) = true) → ensure_mount_targets_exist wrs = Ok tt.
Proof.
  induction wrs as [|wr wrs IH]; simpl; [done|]. intros Hw. rewrite Hw by apply list_elem_of_here.
  apply IH. intros wr' ?. apply Hw. by apply list_elem_of_further.
Qed.

Lemma create_filesystem_args_returns : ∃ a, create_filesystem_args self cwd = Ok a.
Proof.
  unfold create_filesystem_args.
  destruct (get_writable_roots_Ok cwd Hcwd' canonical_id self) as (wrs & -> & Hwrs & _); [done..|].
  destruct (get_unreadable_roots_Ok cwd Hcwd' canonical_id self) as (us & -> & Hus); [done..|].
  assert (us = []) as ->.
  { destruct us as [|u l]; [done|exfalso].
    destruct (proj1 (Hus u) (list_elem_of_here _ _)) as ((e & (x & Hx & _ & Ha)%elem_of_resolved & _ & Hn) & _).
    apply (no_denials x Hx). congruence. }
  cbn [or_panic map_err mbind outcome_bind]. rewrite ensure_targets_Ok.
  2: { intros wr Hwr. destruct (proj1 (Hwrs (root wr))) as ((e & He & <- & _) & _); [by exists wr|].
       by apply targets_exist. }
  destruct base_args_returns as [base ->]. cbn -[append_writable_root].
  destruct (append_roots_return (root <$> wrs)
              (sort_by_key (λ wr, path_depth (root wr)) wrs)
              {| args := base; preserved_files := [] |}) as [a ->].
  by eexists.
Qed.
End Policy.
End Starts.

(** C16: For a restricted policy without full write access and without
    entries that deny access, on a host without symbolic links that has the
    device nodes, when the entries are real paths that name existing paths
    outside [/dev] and [/proc], and the paths protected by default in a writable
    root lie below it and outside [/dev] and [/proc]: the command line is built,
    and if it has a length bubblewrap takes (9000 words), bubblewrap reads it
    and sets up the root, and every existing path outside [/dev] and [/proc] is
    there if the policy makes it readable, and is there for writing if the
    policy makes it writable and it is not below a path protected by default
    in a writable root. *)
Theorem sandbox_gives_policy `{RealHost} `{!HostTree} (self : FileSystemSandboxPolicy) (cwd : Path)
    (cmd : list str) (options : BwrapOptions) :
  real cwd = true → forallb entry_real (entries self) = true → kind self = KindRestricted →
  has_full_disk_write_access self = false →
  (∀ e, e ∈ entries self → entry_access e ≠ AccessNone) →
  (∀ e, e ∈ resolved cwd self → path_exists (resolved_path e) = true ∧ ordinary (resolved_path e)) →
  (∀ r s, rooted self cwd AccessWrite r → s ∈ defaults r → r `prefix_of` s ∧ ordinary s) →
  ∃ a, create_bwrap_command_args cmd self cwd options = Ok a ∧
  (fits (args a) → ∃ parsed ns, parse_args (args a) = Some parsed ∧
  setup_newroot empty_root (ops parsed) = Some ns ∧
  ∀ q, normal_abs q = true → path_exists q = true → ordinary q →
    (can_read_path_with_cwd self q cwd = Ok true → ∃ ro, host_at ns q = Some (q, ro)) ∧
    (can_write_path_with_cwd self q cwd = Ok true →
     (∀ r s, rooted self cwd AccessWrite r → s ∈ defaults r → ¬ s `prefix_of` q) →
     host_at ns q = Some (q, false))).
Proof.
  intros Hcwd Hent Hk Hw Hno Hex Hin.
  destruct (create_filesystem_args_returns self cwd Hcwd Hent Hk Hw Hno Hex) as [fs Hfs].
  destruct (create_filesystem_args_Ok self cwd Hcwd Hent Hk Hw fs Hfs)
    as (wrs & us & broad & readable & HR & He).
  unfold create_bwrap_command_args, create_bwrap_flags. rewrite Hw, Hfs.
  eexists. split; [done|]. intros Hfits. rewrite parse_fits by done. clear Hfits. cbn [args].
  eexists. pose proof (emits_flags parsed_nothing (args fs ++ namespace_args options cmd)) as Hfl.
  cbn [app] in Hfl.
  set (mounts := filesystem_ops (base_ops broad readable) wrs us) in *.
  set (proc := if mount_proc options then [MountProc (path_of_str (lit "/proc"))] else []).
  assert (Forall op_fine (mounts ++ proc)) as Hfine.
  { apply Forall_app. split; [by apply (filesystem_ops_fine self cwd)|].
    unfold proc. destruct (mount_proc options); by repeat constructor. }
  destruct (setup_fine (mounts ++ proc) empty_root agrees_empty Hfine) as [ns Hns].
  exists ns. split; [cbn [app]; rewrite Hfl, (proj2 He); apply parse_namespace_args|]. split; [exact Hns|].
  intros q Hq Hqe Ho. rewrite can_read_normal, can_write_normal by (done || by apply real_normal).
  rewrite !(setup_host_exact _ _ _ q (proj1 Ho) Hfine Hns), !top_app.
  assert (topmost proc q = None) as ->.
  { apply top_None. intros o Hop. apply not_true_iff_false. unfold proc in Hop.
    destruct (mount_proc options); [|by apply elem_of_nil in Hop].
    apply list_elem_of_singleton in Hop as ->. unfold op_covers. simpl. rewrite path_starts_with_spec.
    apply Ho. }
  split.
  - intros [= Hr%access_can_read_spec].
    destruct (readable_served self cwd Hcwd Hent Hk Hw Hno Hex Hin _ _ _ _ HR q Hq Ho Hr) as (ro & d & Ht).
    fold mounts in Ht. rewrite Ht. apply top_Some in Ht as [_ Hp%op_covers_bind].
    rewrite skip_to_prefix by done. by exists ro.
  - intros [= Hwr%can_write_access] Hprot.
    destruct (writable_served self cwd Hcwd Hent Hk Hw Hno Hex Hin _ _ _ _ HR q Hwr Hprot) as (d & Ht).
    fold mounts in Ht. rewrite Ht. apply top_Some in Ht as [_ Hp%op_covers_bind].
    by rewrite skip_to_prefix.
Qed.

(** ** Applications of the theorem *)
Lemma lexical_HostTree cwd dirs files :
  tree_ok dirs files.*1 = true →
  bool_decide ([RootDir] ∈ dirs) && bool_decide (slash_dev ∈ dirs) && bool_decide (slash_proc ∈ dirs)
    && forallb (λ n, bool_decide (in_dir slash_dev n ∈ files.*1) && negb (bool_decide (in_dir slash_dev n ∈ dirs)))
         devnodes = true →
  @HostTree _ (lexical_BwrapEnv cwd dirs files).
Proof.
  intros Htree Htop. rewrite !andb_true_iff, !bool_decide_eq_true in Htop.
  destruct Htop as [[[? ?] ?] Hdev]. split; cbn -[device_binds].
  - intros p Hp%bool_decide_eq_true. apply bool_decide_eq_true. by left.
  - intros p Hp%bool_decide_eq_true. apply bool_decide_eq_true. by right.
  - intros p q Hq%bool_decide_eq_true Hp Hne Hnn. apply bool_decide_eq_true.
    by destruct (tree_ok_spec _ _ p q Htree Hq Hp Hnn) as [?|?].
  - by rewrite !bool_decide_eq_true.
  - intros s. unfold device_binds. cbn [host_tty_dev lexical_BwrapEnv]. rewrite app_nil_r, <-list_fmap_compose.
    intros (n & -> & Hn)%list_elem_of_fmap. rewrite forallb_elem in Hdev.
    apply Hdev, andb_true_iff in Hn as [Hf%bool_decide_eq_true Hd%negb_true_iff]. unfold host_kind. cbn in *.
    rewrite Hd, bool_decide_true; [done|by right].
Qed.

Lemma host_tree : @HostTree host_env host_bwrap.
Proof. apply lexical_HostTree; vm_compute; reflexivity. Qed.

Section Runs.
#[local] Existing Instances host_env host_bwrap host_real host_tree.

Definition workspace_policy : FileSystemSandboxPolicy :=
  restricted [special_entry SpecialRoot AccessRead;
              special_entry CurrentWorkingDirectory AccessWrite;
              path_entry AccessRead (path_of_str (lit "/ws/secret"));
              path_entry AccessWrite (path_of_str (lit "/ws/secret/out"))].

Definition ordinary_b (p : Path) : bool :=
  negb (path_starts_with p slash_dev) && negb (path_starts_with p slash_proc).

Lemma ordinary_b_spec p : ordinary_b p = true → ordinary p.
Proof.
  unfold ordinary_b, ordinary.
  rewrite andb_true_iff, !negb_true_iff, <- !not_true_iff_false, !path_starts_with_spec. done.
Qed.

(** A decidable form of the hypothesis on protected subpaths. *)
Lemma protected_by_list policy :
  forallb (λ e, forallb (λ s, path_starts_with s (resolved_path e) && ordinary_b s)
                  (defaults (resolved_path e))) (resolved host_ws policy) = true →
  ∀ r s, rooted policy host_ws AccessWrite r → s ∈ defaults r → r `prefix_of` s ∧ ordinary s.
Proof.
  intros Hb r s [(e & He & <- & _) _] Hs. rewrite forallb_elem in Hb. specialize (Hb e He).
  rewrite forallb_elem in Hb. apply Hb in Hs as [Hp Ho]%andb_true_iff.
  split; [by apply path_starts_with_spec|by apply ordinary_b_spec].
Qed.

Lemma sandbox_gives_witness :
  ∃ a parsed ns, create_bwrap_command_args [lit "ls"] workspace_policy host_ws isolated = Ok a ∧
    parse_args (args a) = Some parsed ∧
    setup_newroot empty_root (ops parsed) = Some ns ∧
    host_at ns (path_of_str (lit "/ws/src/a")) = Some (path_of_str (lit "/ws/src/a"), false) ∧
    ∃ ro, host_at ns (path_of_str (lit "/etc/passwd")) = Some (path_of_str (lit "/etc/passwd"), ro).
Proof.
  destruct (sandbox_gives_policy workspace_policy host_ws [lit "ls"] isolated)
    as (a & Ha & Hfit); [vm_compute; reflexivity..| | | |].
  - intros e He. assert (forallb (λ e, negb (bool_decide (entry_access e = AccessNone)))
                           (entries workspace_policy) = true) as Hb by (vm_compute; reflexivity).
    rewrite forallb_elem in Hb. by apply Hb, negb_true_iff, bool_decide_eq_false in He.
  - intros e He. assert (forallb (λ e, path_exists (resolved_path e) && ordinary_b (resolved_path e))
                           (resolved host_ws workspace_policy) = true) as Hb by (vm_compute; reflexivity).
    rewrite forallb_elem in Hb. apply Hb in He as [Hex Ho]%andb_true_iff.
    split; [exact Hex|by apply ordinary_b_spec].
  - apply protected_by_list. vm_compute. reflexivity.
  - destruct Hfit as (parsed & ns & Hp & Hns & Hall).
    { vm_compute in Ha. injection Ha as <-. vm_compute. discriminate. }
    exists a, parsed, ns. split_and!; [exact Ha|exact Hp|exact Hns| |].
    + apply Hall; [vm_compute; reflexivity..|apply ordinary_b_spec; vm_compute; reflexivity
                  |vm_compute; reflexivity|].
      intros r s [(e & He & <- & _) _] Hs Hpre.
      assert (forallb (λ e, forallb (λ s, negb (path_starts_with (path_of_str (lit "/ws/src/a")) s))
                (defaults (resolved_path e))) (resolved host_ws workspace_policy) = true) as Hb
        by (vm_compute; reflexivity).
      rewrite forallb_elem in Hb. specialize (Hb e He). rewrite forallb_elem in Hb.
      specialize (Hb s Hs). apply negb_true_iff, not_true_iff_false in Hb.
      apply Hb. by apply path_starts_with_spec.
    + apply Hall; [vm_compute; reflexivity..|apply ordinary_b_spec; vm_compute; reflexivity
                  |vm_compute; reflexivity].
Defined.

(** ** Sandboxes that do not start, or hide what they should show *)
Definition run (policy : FileSystemSandboxPolicy) : option Newroot :=
  match create_bwrap_command_args [lit "ls"] policy host_ws isolated with
  | Ok a => snd <$> sandbox (args a)
  | _ => None
  end.

Definition with_entries (l : list FileSystemSandboxEntry) : FileSystemSandboxPolicy :=
  restricted (special_entry SpecialRoot AccessRead
              :: special_entry CurrentWorkingDirectory AccessWrite :: l).

Definition secret : Path := path_of_str (lit "/ws/secret").
Definition secret_in : Path := path_of_str (lit "/ws/secret/in").
Definition secret_out : Path := path_of_str (lit "/ws/secret/out").

(** Two denied directories, one in the other: the outer one is mounted empty
    and read-only, and the inner one has no place to be mounted on. *)
Example nested_denials_do_not_start :
  is_Some (run (with_entries [path_entry AccessNone secret])) ∧
  is_Some (run (with_entries [path_entry AccessNone secret_in])) ∧
  run (with_entries [path_entry AccessNone secret; path_entry AccessNone secret_in]) = None.
Proof. split_and!; [eexists; vm_compute; reflexivity..|vm_compute; reflexivity]. Qed.

(** A directory readable below a denied one: the policy gives access and the
    sandbox does not; writable directories are mounted again, readable ones not. *)
Example readable_below_denied_is_hidden :
  let read := with_entries [path_entry AccessNone secret; path_entry AccessRead secret_out] in
  let write := with_entries [path_entry AccessNone secret; path_entry AccessWrite secret_out] in
  can_read_path_with_cwd read secret_out host_ws = Ok true ∧
  (λ ns, host_at ns secret_out) <$> run read = Some None ∧
  (λ ns, host_at ns secret_out) <$> run write = Some (Some (secret_out, false)).
Proof. split_and!; vm_compute; reflexivity. Qed.

(** A writable file below a denied directory: only the directories on the way
    are made in the empty directory before it becomes read-only. *)
Example writable_file_below_denied_does_not_start :
  run (with_entries [path_entry AccessNone secret;
                     path_entry AccessWrite (path_of_str (lit "/ws/secret/key"))]) = None.
Proof. vm_compute. reflexivity. Qed.

(** A missing path below a protected directory: its place cannot be made on
    the read-only mount. *)
Example missing_below_protected_does_not_start :
  run (with_entries [path_entry AccessRead (path_of_str (lit "/ws/.git/hooks"))]) = None.
Proof. vm_compute. reflexivity. Qed.

(** Protecting a missing path of the workspace leaves an empty file there, on
    the host. *)
Example protecting_a_missing_path_creates_it :
  host_made <$> run (with_entries [path_entry AccessRead (path_of_str (lit "/ws/.codex/config"))])
  = Some [(path_of_str (lit "/ws/.codex"), KFile)].
Proof. vm_compute. reflexivity. Qed.
End Runs.

(** ** A linked worktree

    [/wt/.git] points into the repository [/repo], where a file is denied. *)
Section Worktree.
Definition wt_dirs : list Path :=
  path_of_str <$> [lit "/"; lit "/dev"; lit "/proc"; lit "/wt"; lit "/repo"; lit "/repo/.git";
                   lit "/repo/.git/worktrees"; lit "/repo/.git/worktrees/wt"].
Definition wt_files : list (Path * str) :=
  ((λ name, (in_dir slash_dev name, [])) <$> devnodes) ++
  [(path_of_str (lit "/wt/.git"), lit "gitdir: /repo/.git/worktrees/wt");
   (path_of_str (lit "/repo/.git/worktrees/wt/token"), lit "t")].
Definition wt : Path := path_of_str (lit "/wt").
Definition wt_token : Path := path_of_str (lit "/repo/.git/worktrees/wt/token").

#[local] Instance wt_env : PathEnv := lexical_PathEnv wt None None wt_dirs wt_files.
#[local] Instance wt_bwrap : @BwrapEnv wt_env := lexical_BwrapEnv wt wt_dirs wt_files.

Definition wt_policy : FileSystemSandboxPolicy :=
  restricted [special_entry SpecialRoot AccessRead;
              path_entry AccessWrite (path_of_str (lit "/repo"));
              path_entry AccessWrite wt; path_entry AccessNone wt_token].

(** The file is masked while [/repo] is mounted, and mounted again with the
    directory [/wt/.git] points to: the command can read what the policy denies. *)
Example denied_file_in_gitdir_is_readable :
  can_read_path_with_cwd wt_policy wt_token wt = Ok false ∧
  match create_bwrap_command_args [lit "ls"] wt_policy wt isolated with
  | Ok a => (λ s, host_at s.2 wt_token) <$> sandbox (args a)
  | _ => None
  end = Some (Some (wt_token, true)).
Proof. split; vm_compute; reflexivity. Qed.
End Worktree.
