(* ===== verification/LinuxSandbox.v ===== *)
(** * The Linux sandbox helper: [linux-sandbox/src/linux_run_main.rs] and
      [linux-sandbox/src/landlock.rs]

    The helper runs twice: first it starts bubblewrap with itself as the
    command, then, inside, it restricts system calls and runs the user's
    command.  [run_main] is one such run up to the program it executes.  The
    command line is read by [clap] from the attributes of [LandlockCommand];
    [clap], [serde_json] and the answers of the operating system, the proxy
    bridges included, are the class [HelperEnv], and [HelperLaws] is what the
    helper relies on when it reads the command line it wrote itself. *)
From stdpp Require Import base tactics option list sets numbers strings.
From S2P Require Import Prelude RustStr Paths Permissions Bwrap BwrapView BwrapOps BwrapSound.
From stdpp Require Import list.

(** ** Restrictions on the current thread: [landlock.rs] *)
Inductive NetworkSeccompMode : Type := SeccompRestricted | SeccompProxyRouted.

Inductive Restriction : Type :=
  | NoNewPrivs
  | Seccomp (mode : NetworkSeccompMode)
  | Landlock (writable_roots : list AbsolutePathBuf).

Inductive ThreadErr : Type :=
  | NoNewPrivsFailed
  | SeccompInstallFailed
  | LandlockRestrictFailed
  | ReadOnlyUnsupported.

Definition should_install_network_seccomp (network_sandbox_policy : NetworkSandboxPolicy)
    (allow_network_for_proxy : bool) : bool :=
  negb (network_is_enabled network_sandbox_policy) || allow_network_for_proxy.

Definition network_seccomp_mode (network_sandbox_policy : NetworkSandboxPolicy)
    (allow_network_for_proxy proxy_routed_network : bool) : option NetworkSeccompMode :=
  if negb (should_install_network_seccomp network_sandbox_policy allow_network_for_proxy) then None
  else if proxy_routed_network then Some SeccompProxyRouted
  else Some SeccompRestricted.

(** *** The filter *)
Inductive Syscall : Type :=
  | SYS_ptrace | SYS_io_uring_setup | SYS_io_uring_enter | SYS_io_uring_register
  | SYS_connect | SYS_accept | SYS_accept4 | SYS_bind | SYS_listen | SYS_getpeername
  | SYS_getsockname | SYS_shutdown | SYS_sendto | SYS_sendmmsg | SYS_recvmmsg
  | SYS_getsockopt | SYS_setsockopt | SYS_socket | SYS_socketpair
  | SYS_other (nr : Z).

#[export] Instance Syscall_eq_dec : EqDecision Syscall.
Proof. solve_decision. Defined.

Definition AF_UNIX : Z := 1.
Definition AF_INET : Z := 2.
Definition AF_INET6 : Z := 10.

(** A condition on the first argument, as a 32-bit word: it differs from a
    value, or equals it.  A rule is the conjunction of its conditions. *)
Inductive SeccompCondition : Type := ArgNe (value : Z) | ArgEq (value : Z).

Definition condition_holds (arg0 : Z) (c : SeccompCondition) : bool :=
  match c with
  | ArgNe value => negb (Z.land arg0 (Z.ones 32) =? value)%Z
  | ArgEq value => (Z.land arg0 (Z.ones 32) =? value)%Z
  end.

Definition deny_syscalls (l : list Syscall) : list (Syscall * list (list SeccompCondition)) :=
  (λ nr, (nr, [])) <$> l.

Definition seccomp_rules (mode : NetworkSeccompMode) :
    list (Syscall * list (list SeccompCondition)) :=
  deny_syscalls [SYS_ptrace; SYS_io_uring_setup; SYS_io_uring_enter; SYS_io_uring_register]
  ++ match mode with
     | SeccompRestricted =>
         deny_syscalls [SYS_connect; SYS_accept; SYS_accept4; SYS_bind; SYS_listen;
                        SYS_getpeername; SYS_getsockname; SYS_shutdown; SYS_sendto; SYS_sendmmsg;
                        SYS_recvmmsg; SYS_getsockopt; SYS_setsockopt]
         ++ [(SYS_socket, [[ArgNe AF_UNIX]]); (SYS_socketpair, [[ArgNe AF_UNIX]])]
     | SeccompProxyRouted =>
         [(SYS_socket, [[ArgNe AF_INET; ArgNe AF_INET6]]); (SYS_socketpair, [[ArgEq AF_UNIX]])]
     end.

(** [seccompiler]: a system call with an empty list of rules always matches;
    a match returns [EPERM], anything else is allowed. *)
Definition seccomp_allows (mode : NetworkSeccompMode) (nr : Syscall) (arg0 : Z) : bool :=
  match list_find (λ r, r.1 = nr) (seccomp_rules mode) with
  | None => true
  | Some (_, (_, [])) => false
  | Some (_, (_, rules)) => negb (existsb (forallb (condition_holds arg0)) rules)
  end.

(** ** The command line of the helper *)
Record LandlockCommand : Type := {
  sandbox_policy_cwd : Path;
  sandbox_policy : option SandboxPolicy;
  file_system_sandbox_policy : option FileSystemSandboxPolicy;
  network_sandbox_policy : option NetworkSandboxPolicy;
  use_legacy_landlock : bool;
  apply_seccomp_then_exec : bool;
  allow_network_for_proxy : bool;
  proxy_route_spec : option str;
  no_proc : bool;
  helper_command : list str;
}.

Record EffectiveSandboxPolicies : Type := {
  effective_policy : SandboxPolicy;
  effective_file_system : FileSystemSandboxPolicy;
  effective_network : NetworkSandboxPolicy;
}.

Inductive ResolveSandboxPoliciesError : Type :=
  | PartialSplitPolicies
  | SplitPoliciesRequireDirectRuntimeEnforcement (err : str)
  | FailedToDeriveLegacyPolicy (err : str)
  | MismatchedLegacyPolicy (provided derived : SandboxPolicy)
  | MissingConfiguration.

(** What a run ends in: the command, with what restricts the thread that
    executes it, or bubblewrap with its arguments.  Everything else is a panic. *)
Inductive Final : Type :=
  | Exec (restrictions : list Restriction) (command : list str)
  | Bubblewrap (argv : list str).

#[export] Instance NetworkSandboxPolicy_eq_dec : EqDecision NetworkSandboxPolicy.
Proof. solve_decision. Defined.

(** *** The attributes of [LandlockCommand] *)

(** A flag, or an option with a value, which may be required.  Positional
    arguments go to [command], all of them after the first. *)
Inductive ArgKind : Type := SetTrue | SetValue (required : bool).

#[export] Instance ArgKind_eq_dec : EqDecision ArgKind.
Proof. solve_decision. Defined.

Definition landlock_args : list (str * ArgKind) :=
  [(lit "sandbox-policy-cwd", SetValue true);
   (lit "sandbox-policy", SetValue false);
   (lit "file-system-sandbox-policy", SetValue false);
   (lit "network-sandbox-policy", SetValue false);
   (lit "use-legacy-landlock", SetTrue);
   (lit "apply-seccomp-then-exec", SetTrue);
   (lit "allow-network-for-proxy", SetTrue);
   (lit "proxy-route-spec", SetValue false);
   (lit "no-proc", SetTrue)].

Record ArgMatches : Type := {
  get_one : str → option str;
  get_flag : str → bool;
  trailing : list str;
}.

Class HelperEnv : Type := {
  get_matches : list (str * ArgKind) → list str → option ArgMatches;
  sandbox_policy_from_json : str → option SandboxPolicy;
  file_system_policy_from_json : str → option FileSystemSandboxPolicy;
  network_policy_from_json : str → option NetworkSandboxPolicy;
  current_exe : option str;
  sandbox_policy_json : SandboxPolicy → option str;
  file_system_policy_json : FileSystemSandboxPolicy → option str;
  network_policy_json : NetworkSandboxPolicy → option str;
  prepare_host_proxy_route_spec : option str;
  activate_proxy_routes_in_netns : str → bool;
  set_no_new_privs : bool;
  install_network_seccomp_filter : NetworkSeccompMode → bool;
  install_filesystem_landlock_rules : list AbsolutePathBuf → bool;
  bwrap_stderr : list str → str;
}.

Section Helper.
Context `{BwrapEnv} `{HelperEnv}.

Definition guard_err {E} (ok : bool) (e : E) : outcome E unit := if ok then Ok tt else Err e.

Definition apply_sandbox_policy_to_current_thread (sandbox_policy : SandboxPolicy)
    (network_sandbox_policy : NetworkSandboxPolicy) (cwd : Path)
    (apply_landlock_fs allow_network_for_proxy proxy_routed_network : bool) :
    outcome ThreadErr (list Restriction) :=
  let mode := network_seccomp_mode network_sandbox_policy allow_network_for_proxy
                proxy_routed_network in
  let landlock := apply_landlock_fs && negb (legacy_has_full_disk_write_access sandbox_policy) in
  privs ← (if match mode with Some _ => true | None => false end || landlock
           then _ ← guard_err set_no_new_privs NoNewPrivsFailed; Ok [NoNewPrivs]
           else Ok []);
  seccomp ← match mode with
            | Some mode =>
                _ ← guard_err (install_network_seccomp_filter mode) SeccompInstallFailed;
                Ok [Seccomp mode]
            | None => Ok []
            end;
  rules ← (if landlock then
             _ ← guard_err (legacy_has_full_disk_read_access sandbox_policy) ReadOnlyUnsupported;
             writable_roots ← map_err (λ _, LandlockRestrictFailed)
                                (legacy_get_writable_roots_with_cwd sandbox_policy cwd);
             let roots := root <$> writable_roots in
             _ ← guard_err (install_filesystem_landlock_rules roots) LandlockRestrictFailed;
             Ok [Landlock roots]
           else Ok []);
  Ok (privs ++ seccomp ++ rules).

(** ** Which policies are in force *)
Definition io_message (e : io_Error) : str := match e with InvalidInput message => message end.

Definition policies_match_semantics (provided derived : FileSystemSandboxPolicy) (cwd : Path) :
    outcome io_Error bool :=
  if negb (Bool.eqb (has_full_disk_read_access provided) (has_full_disk_read_access derived)
           && Bool.eqb (has_full_disk_write_access provided) (has_full_disk_write_access derived)
           && Bool.eqb (include_platform_defaults provided) (include_platform_defaults derived))
  then Ok false
  else
    readable ← get_readable_roots_with_cwd provided cwd;
    readable' ← get_readable_roots_with_cwd derived cwd;
    if negb (bool_decide (readable = readable')) then Ok false
    else
      writable ← get_writable_roots_with_cwd provided cwd;
      writable' ← get_writable_roots_with_cwd derived cwd;
      if negb (bool_decide (writable = writable')) then Ok false
      else
        unreadable ← get_unreadable_roots_with_cwd provided cwd;
        unreadable' ← get_unreadable_roots_with_cwd derived cwd;
        Ok (bool_decide (unreadable = unreadable')).

Definition legacy_sandbox_policies_match_semantics (provided derived : SandboxPolicy) (cwd : Path) :
    outcome io_Error bool :=
  if negb (bool_decide (network_from_sandbox_policy provided = network_from_sandbox_policy derived))
  then Ok false
  else
    provided ← from_legacy_sandbox_policy provided cwd;
    derived ← from_legacy_sandbox_policy derived cwd;
    policies_match_semantics provided derived cwd.

(** The policy methods used below have no error value unless the code says so. *)
Definition or_panics {E A} (m : outcome io_Error A) : outcome E A :=
  match m with Ok a => Ok a | Err _ | Panic => Panic | NoFuel => NoFuel end.

Definition resolve_sandbox_policies (cwd : Path) (sandbox_policy : option SandboxPolicy)
    (file_system_sandbox_policy : option FileSystemSandboxPolicy)
    (network_sandbox_policy : option NetworkSandboxPolicy) :
    outcome ResolveSandboxPoliciesError EffectiveSandboxPolicies :=
  split_policies ←
    match file_system_sandbox_policy, network_sandbox_policy with
    | Some fs, Some network => Ok (Some (fs, network))
    | None, None => Ok None
    | _, _ => Err PartialSplitPolicies
    end;
  match sandbox_policy, split_policies with
  | Some policy, Some (fs, network) =>
      let effective := {| effective_policy := policy; effective_file_system := fs;
                          effective_network := network |} in
      direct ← or_panics (needs_direct_runtime_enforcement fs network cwd);
      if direct : bool then Ok effective
      else
        derived ← map_err (λ e, SplitPoliciesRequireDirectRuntimeEnforcement (io_message e))
                    (to_legacy_sandbox_policy fs network cwd);
        matches ← or_panics (legacy_sandbox_policies_match_semantics policy derived cwd);
        if matches : bool then Ok effective else Err (MismatchedLegacyPolicy policy derived)
  | Some policy, None =>
      fs ← or_panics (from_legacy_sandbox_policy policy cwd);
      Ok {| effective_policy := policy; effective_file_system := fs;
            effective_network := network_from_sandbox_policy policy |}
  | None, Some (fs, network) =>
      policy ← map_err (λ e, FailedToDeriveLegacyPolicy (io_message e))
                 (to_legacy_sandbox_policy fs network cwd);
      Ok {| effective_policy := policy; effective_file_system := fs;
            effective_network := network |}
  | None, None => Err MissingConfiguration
  end.

(** ** bubblewrap *)
Definition bwrap_network_mode (network_sandbox_policy : NetworkSandboxPolicy)
    (allow_network_for_proxy : bool) : BwrapNetworkMode :=
  if allow_network_for_proxy then ProxyOnly
  else if network_is_enabled network_sandbox_policy then FullAccess
  else Isolated.

(** A computation whose errors are panics. *)
Definition unwrap {E A} (m : outcome E A) : outcome unit A :=
  match m with Ok a => Ok a | Err _ | Panic => Panic | NoFuel => NoFuel end.

Definition build_bwrap_argv (inner : list str) (fs : FileSystemSandboxPolicy) (cwd : Path)
    (options : BwrapOptions) : outcome unit (list str) :=
  bwrap_args ← unwrap (create_bwrap_command_args inner fs cwd options);
  match list_find (λ arg, arg = lit "--") (args bwrap_args) with
  | None => Panic
  | Some (index, _) =>
      Ok (lit "bwrap"
          :: take index (args bwrap_args) ++ [lit "--argv0"; lit "codex-linux-sandbox"]
          ++ drop index (args bwrap_args))
  end.

Definition contains (needle s : str) : bool :=
  match RustStr.find needle s with Some _ => true | None => false end.

Definition is_proc_mount_failure (stderr : str) : bool :=
  contains (lit "Can't mount proc") stderr && contains (lit "/newroot/proc") stderr
  && (contains (lit "Invalid argument") stderr
      || contains (lit "Operation not permitted") stderr
      || contains (lit "Permission denied") stderr).

Definition resolve_true_command : str :=
  match List.find (λ candidate, path_exists (path_of_str candidate))
          [lit "/usr/bin/true"; lit "/bin/true"] with
  | Some candidate => candidate
  | None => lit "true"
  end.

Definition preflight_proc_mount_support (cwd : Path) (fs : FileSystemSandboxPolicy)
    (network_mode : BwrapNetworkMode) : outcome unit bool :=
  argv ← build_bwrap_argv [resolve_true_command] fs cwd
           {| mount_proc := true; network_mode := network_mode |};
  Ok (negb (is_proc_mount_failure (bwrap_stderr argv))).

Definition run_bwrap_with_proc_fallback (cwd : Path) (fs : FileSystemSandboxPolicy)
    (network : NetworkSandboxPolicy) (inner : list str)
    (mount_proc allow_network_for_proxy : bool) : outcome unit Final :=
  let network_mode := bwrap_network_mode network allow_network_for_proxy in
  mount_proc ← (if mount_proc then preflight_proc_mount_support cwd fs network_mode else Ok false);
  argv ← build_bwrap_argv inner fs cwd {| mount_proc := mount_proc; network_mode := network_mode |};
  Ok (Bubblewrap argv).

Definition build_inner_seccomp_command (cwd : Path) (policies : EffectiveSandboxPolicies)
    (allow_network_for_proxy : bool) (proxy_route_spec : option str) (command : list str) :
    outcome unit (list str) :=
  exe ← expect current_exe;
  policy ← expect (sandbox_policy_json (effective_policy policies));
  fs ← expect (file_system_policy_json (effective_file_system policies));
  network ← expect (network_policy_json (effective_network policies));
  proxy ← (if allow_network_for_proxy then
             spec ← expect proxy_route_spec;
             Ok [lit "--allow-network-for-proxy"; lit "--proxy-route-spec"; spec]
           else Ok []);
  Ok ([exe; lit "--sandbox-policy-cwd"; path_to_string cwd; lit "--sandbox-policy"; policy;
       lit "--file-system-sandbox-policy"; fs; lit "--network-sandbox-policy"; network;
       lit "--apply-seccomp-then-exec"] ++ proxy ++ [lit "--"] ++ command).

(** [LandlockCommand::parse]: [None] when the process exits with a message. *)
Definition parsed_value {A} (from_str : str → option A) (value : option str) : option (option A) :=
  match value with None => Some None | Some s => Some <$> from_str s end.

Definition LandlockCommand_parse (argv : list str) : option LandlockCommand :=
  m ← get_matches landlock_args (tail argv);
  cwd ← get_one m (lit "sandbox-policy-cwd");
  policy ← parsed_value sandbox_policy_from_json (get_one m (lit "sandbox-policy"));
  fs ← parsed_value file_system_policy_from_json (get_one m (lit "file-system-sandbox-policy"));
  network ← parsed_value network_policy_from_json (get_one m (lit "network-sandbox-policy"));
  Some {| sandbox_policy_cwd := path_of_str cwd; sandbox_policy := policy;
          file_system_sandbox_policy := fs; network_sandbox_policy := network;
          use_legacy_landlock := get_flag m (lit "use-legacy-landlock");
          apply_seccomp_then_exec := get_flag m (lit "apply-seccomp-then-exec");
          allow_network_for_proxy := get_flag m (lit "allow-network-for-proxy");
          proxy_route_spec := get_one m (lit "proxy-route-spec");
          no_proc := get_flag m (lit "no-proc"); helper_command := trailing m |}.

(** ** One run of the helper *)
Definition run_main (c : LandlockCommand) : outcome unit Final :=
  match helper_command c with
  | [] => Panic
  | _ :: _ =>
      if apply_seccomp_then_exec c && use_legacy_landlock c then Panic
      else
        let cwd := sandbox_policy_cwd c in
        policies ← unwrap (resolve_sandbox_policies cwd (sandbox_policy c)
                             (file_system_sandbox_policy c) (network_sandbox_policy c));
        let fs := effective_file_system policies in
        let network := effective_network policies in
        let allow := allow_network_for_proxy c in
        direct ← (if use_legacy_landlock c
                  then unwrap (needs_direct_runtime_enforcement fs network cwd) else Ok false);
        if direct : bool then Panic
        else if apply_seccomp_then_exec c then
          _ ← (if allow then
                 spec ← expect (proxy_route_spec c);
                 if activate_proxy_routes_in_netns spec then Ok tt else Panic
               else Ok tt);
          restrictions ← unwrap (apply_sandbox_policy_to_current_thread
                                   (effective_policy policies) network cwd false allow allow);
          Ok (Exec restrictions (helper_command c))
        else if has_full_disk_write_access fs && negb allow then
          restrictions ← unwrap (apply_sandbox_policy_to_current_thread
                                   (effective_policy policies) network cwd false allow false);
          Ok (Exec restrictions (helper_command c))
        else if negb (use_legacy_landlock c) then
          spec ← (if allow then Some <$> expect prepare_host_proxy_route_spec else Ok None);
          inner ← build_inner_seccomp_command cwd policies allow spec (helper_command c);
          run_bwrap_with_proc_fallback cwd fs network inner (negb (no_proc c)) allow
        else
          restrictions ← unwrap (apply_sandbox_policy_to_current_thread
                                   (effective_policy policies) network cwd true allow false);
          Ok (Exec restrictions (helper_command c))
  end.
End Helper.

(** ** What the helper relies on *)

(** A value [clap] does not take for an option. *)
Definition plain_value (value : str) : Prop := ¬ lit "-" `prefix_of` value.

(** Flags and options as they are given on a command line. *)
Inductive Given : Type := GivenFlag (name : str) | GivenOption (name value : str).

Definition given_name (g : Given) : str := match g with GivenFlag n | GivenOption n _ => n end.

Definition spelled (g : Given) : list str :=
  match g with GivenFlag n => [lit "--" ++ n] | GivenOption n v => [lit "--" ++ n; v] end.

(** The declared names are usable; what is given is declared, given once, and
    nothing required is missing. *)
Definition declarations_ok (spec : list (str * ArgKind)) : Prop :=
  NoDup spec.*1 ∧ Forall (λ a, a.1 ≠ [] ∧ 61%N ∉ a.1) spec.

Definition given_ok (spec : list (str * ArgKind)) (l : list Given) : Prop :=
  NoDup (given_name <$> l) ∧
  Forall (λ g, match g with
               | GivenFlag n => (n, SetTrue) ∈ spec
               | GivenOption n v => (∃ required, (n, SetValue required) ∈ spec) ∧ plain_value v
               end) l ∧
  ∀ n, (n, SetValue true) ∈ spec → ∃ v, GivenOption n v ∈ l.

(** [clap] reads such a command line, and hands everything after the separator
    on; [serde_json] reads what it wrote, and writes no text that looks like an
    option, and neither do the proxy bridges. *)
Class HelperLaws `{HelperEnv} : Prop := {
  clap_reads spec l rest :
    declarations_ok spec → given_ok spec l →
    ∃ m, get_matches spec (mjoin (spelled <$> l) ++ lit "--" :: rest) = Some m ∧
      (∀ n v, get_one m n = Some v ↔ GivenOption n v ∈ l) ∧
      (∀ n, get_flag m n = true ↔ GivenFlag n ∈ l) ∧ trailing m = rest;
  sandbox_policy_round policy s :
    sandbox_policy_json policy = Some s → sandbox_policy_from_json s = Some policy ∧ plain_value s;
  file_system_policy_round fs s :
    file_system_policy_json fs = Some s → file_system_policy_from_json s = Some fs ∧ plain_value s;
  network_policy_round network s :
    network_policy_json network = Some s → network_policy_from_json s = Some network ∧ plain_value s;
  route_spec_plain spec : prepare_host_proxy_route_spec = Some spec → plain_value spec;
}.

(** ** Theorems *)

(** What the filter lets through. *)
Lemma seccomp_socket mode arg0 :
  seccomp_allows mode SYS_socket arg0 = true ↔
  match mode with
  | SeccompRestricted => Z.land arg0 (Z.ones 32) = AF_UNIX
  | SeccompProxyRouted => Z.land arg0 (Z.ones 32) = AF_INET ∨ Z.land arg0 (Z.ones 32) = AF_INET6
  end.
Proof.
  unfold seccomp_allows. destruct mode.
  - assert (list_find (λ r, r.1 = SYS_socket) (seccomp_rules SeccompRestricted)
            = Some (17, (SYS_socket, [[ArgNe AF_UNIX]]))) as -> by (vm_compute; reflexivity).
    rewrite <- Z.eqb_eq. simpl. by destruct (_ =? _)%Z.
  - assert (list_find (λ r, r.1 = SYS_socket) (seccomp_rules SeccompProxyRouted)
            = Some (4, (SYS_socket, [[ArgNe AF_INET; ArgNe AF_INET6]]))) as -> by (vm_compute; reflexivity).
    rewrite <- !Z.eqb_eq. simpl. repeat destruct (_ =? _)%Z; simpl; intuition done.
Qed.

Lemma seccomp_fixed mode nr arg0 :
  nr ∈ [SYS_ptrace; SYS_io_uring_setup; SYS_io_uring_enter; SYS_io_uring_register] →
  seccomp_allows mode nr arg0 = false.
Proof.
  intros Hn. repeat (apply elem_of_cons in Hn as [->|Hn]; [by destruct mode|]).
  by apply elem_of_nil in Hn.
Qed.

Section Theorems.
Context `{RealHost} `{HelperEnv}.

(** The restrictions network access requires, in the order they are applied. *)
Definition confined (network : NetworkSandboxPolicy) (allow : bool) (routed : bool)
    (restrictions : list Restriction) : Prop :=
  should_install_network_seccomp network allow = true →
  ∃ rest, restrictions
    = NoNewPrivs :: Seccomp (if routed then SeccompProxyRouted else SeccompRestricted) :: rest.

Lemma guard_err_Ok {E} (b : bool) (e : E) u : guard_err b e = Ok u → b = true.
Proof. by destruct b. Qed.

Lemma apply_confines policy network cwd landlock allow routed rs :
  apply_sandbox_policy_to_current_thread policy network cwd landlock allow routed = Ok rs →
  confined network allow routed rs ∧
  (landlock = true → legacy_has_full_disk_write_access policy = false →
   legacy_has_full_disk_read_access policy = true ∧
   ∃ roots, legacy_get_writable_roots_with_cwd policy cwd = Ok roots ∧
     Landlock (root <$> roots) ∈ rs ∧ NoNewPrivs ∈ rs).
Proof.
  unfold apply_sandbox_policy_to_current_thread, confined, network_seccomp_mode.
  intros (privs & Hprivs & (seccomp & Hseccomp & (rules & Hrules & [= <-])%bind_Ok_inv)%bind_Ok_inv)%bind_Ok_inv.
  split.
  - intros Hs. rewrite Hs in *. simpl in *. destruct routed; simpl in *;
      apply bind_Ok_inv in Hprivs as (? & _ & [= <-]);
      apply bind_Ok_inv in Hseccomp as (? & _ & [= <-]); by exists rules.
  - intros -> Hw. rewrite Hw in *. simpl in *. rewrite orb_true_r in Hprivs.
    apply bind_Ok_inv in Hprivs as (? & _ & [= <-]).
    apply bind_Ok_inv in Hrules as (? & Hr%guard_err_Ok & (roots & Hroots & (? & _ & [= <-])%bind_Ok_inv)%bind_Ok_inv).
    split; [done|]. exists roots.
    destruct (legacy_get_writable_roots_with_cwd policy cwd) as [l| | |]; simplify_eq/=.
    split_and!; [done|set_solver..].
Qed.

(** Reading the arguments of bubblewrap back. *)
Definition reads_as (pre : list str) (s : Parsed) : Prop :=
  Forall (λ arg, arg ≠ lit "--") pre ∧ argv0 s = None ∧
  ∀ rest, parse_options parsed_nothing None (pre ++ rest) = parse_options s None rest.

Lemma split_at_separator pre (rest : list str) :
  Forall (λ arg, arg ≠ lit "--") pre →
  list_find (λ arg, arg = lit "--") (pre ++ lit "--" :: rest) = Some (length pre, lit "--").
Proof.
  intros Hp. apply list_find_Some. split_and!.
  - rewrite lookup_app_r, Nat.sub_diag by lia. done.
  - done.
  - intros j y Hj Hlt. rewrite lookup_app_l in Hj by lia. rewrite Forall_lookup in Hp. eauto.
Qed.

Definition flags_of (options : BwrapOptions) : list str :=
  [lit "--unshare-user"; lit "--unshare-pid"]
  ++ (if should_unshare_network (network_mode options) then [lit "--unshare-net"] else [])
  ++ (if mount_proc options then [lit "--proc"; lit "/proc"] else []).

Lemma namespace_args_split options cmd :
  namespace_args options cmd = flags_of options ++ lit "--" :: cmd.
Proof. unfold namespace_args, flags_of. by rewrite <- !app_assoc. Qed.

Lemma flags_no_separator options : Forall (λ arg, arg ≠ lit "--") (flags_of options).
Proof. destruct options as [[] []]; repeat constructor; done. Qed.

Lemma parse_unshare_net s rest :
  parse_options s None (lit "--unshare-net" :: rest)
  = parse_options (set_flags s false false true false false) None rest.
Proof. reflexivity. Qed.

Lemma parse_proc s rest :
  parse_options s None (lit "--proc" :: lit "/proc" :: rest)
  = parse_options (add_ops s [MountProc (path_of_str (lit "/proc"))]) None rest.
Proof. reflexivity. Qed.

Lemma parse_argv0 s name rest :
  argv0 s = None →
  parse_options s None (lit "--argv0" :: name :: rest) = parse_options (set_argv0 s name) None rest.
Proof. destruct s; simpl. by intros ->. Qed.

Lemma parse_separator s cmd : parse_options s None (lit "--" :: cmd) = Some (set_command s cmd).
Proof. reflexivity. Qed.

Lemma parse_flags_argv0 s options name cmd :
  argv0 s = None →
  parse_options s None (flags_of options ++ [lit "--argv0"; name] ++ lit "--" :: cmd)
  = Some (namespaces (set_argv0 s name) options cmd).
Proof.
  intros Hs. unfold flags_of. rewrite <- !app_assoc, emits_unshare.
  destruct options as [proc mode]; cbn [network_mode mount_proc].
  unfold namespaces, set_argv0, set_flags, add_ops.
  destruct (should_unshare_network mode) eqn:Em, proc; cbn [app network_mode mount_proc];
    rewrite ?parse_unshare_net, ?parse_proc, parse_argv0, parse_separator by exact Hs;
    unfold set_command, set_argv0, set_flags, add_ops;
    cbn [ops unshare_user unshare_pid unshare_net new_session die_with_parent argv0 command];
    by rewrite ?Em, ?orb_true_r, ?orb_false_r, ?app_nil_r.
Qed.

Lemma build_argv_parsed pre s inner fs cwd options argv a :
  reads_as pre s →
  create_bwrap_command_args inner fs cwd options = Ok a →
  args a = pre ++ namespace_args options inner →
  build_bwrap_argv inner fs cwd options = Ok argv →
  ∃ rest, argv = lit "bwrap" :: rest ∧
    parse_options parsed_nothing None rest
    = Some (namespaces (set_argv0 s (lit "codex-linux-sandbox")) options inner).
Proof.
  intros (Hpre & Hs & Hparse) Ha Hargs. unfold build_bwrap_argv. rewrite Ha. cbn [unwrap mbind outcome_bind].
  rewrite Hargs, namespace_args_split, app_assoc, split_at_separator.
  2: { apply Forall_app. split; [done|apply flags_no_separator]. }
  intros [= <-]. eexists. split; [done|].
  rewrite take_app_length, drop_app_length, <- app_assoc, Hparse.
  by apply parse_flags_argv0.
Qed.

Lemma full_filesystem_reads :
  reads_as [lit "--new-session"; lit "--die-with-parent"; lit "--bind"; lit "/"; lit "/"]
    (add_ops (set_flags (set_flags parsed_nothing false false false true false)
                false false false false true) [BindMount false [RootDir] [RootDir]]).
Proof. split_and!; [repeat constructor; done|done|]. reflexivity. Qed.

Lemma filesystem_reads l o :
  emits l o →
  reads_as ([lit "--new-session"; lit "--die-with-parent"] ++ l)
    (add_ops (set_flags (set_flags parsed_nothing false false false true false)
                false false false false true) o).
Proof.
  intros [Hl Ho]. split_and!; [repeat constructor; done|done|]. intros rest. rewrite <- app_assoc.
  pose proof (emits_flags parsed_nothing (l ++ rest)) as Hf. by rewrite Hf, Ho.
Qed.

(** The command line of the first run, whatever the policy. *)
Lemma command_args_read inner fs cwd options a :
  real cwd = true → forallb entry_real (entries fs) = true →
  (has_full_disk_write_access fs = true → network_mode options ≠ FullAccess) →
  create_bwrap_command_args inner fs cwd options = Ok a →
  ∃ pre s, args a = pre ++ namespace_args options inner ∧ reads_as pre s ∧ unshare_net s = false.
Proof.
  intros Hcwd Hent Hfull. unfold create_bwrap_command_args.
  destruct (has_full_disk_write_access fs) eqn:Hw.
  - rewrite bool_decide_eq_false_2 by by apply Hfull. intros [= <-].
    eexists _, _. split; [done|]. split; [apply full_filesystem_reads|done].
  - unfold create_bwrap_flags. intros (fa & Hfa & [= <-])%bind_Ok_inv.
    assert (kind fs = KindRestricted) as Hk.
    { unfold has_full_disk_write_access in Hw. by destruct (kind fs). }
    destruct (create_filesystem_args_Ok fs cwd Hcwd Hent Hk Hw fa Hfa)
      as (wrs & us & broad & readable & _ & He).
    eexists ([lit "--new-session"; lit "--die-with-parent"] ++ args fa), _.
    split; [done|]. split; [by apply filesystem_reads|done].
Qed.

Lemma unwrap_Ok {E A} (m : outcome E A) a : unwrap m = Ok a → m = Ok a.
Proof. destruct m; naive_solver. Qed.

Lemma resolve_given cwd policy fs network effective :
  resolve_sandbox_policies cwd (Some policy) (Some fs) (Some network) = Ok effective →
  effective = {| effective_policy := policy; effective_file_system := fs; effective_network := network |}.
Proof.
  unfold resolve_sandbox_policies. cbn [mbind outcome_bind]. intros (direct & _ & Hd)%bind_Ok_inv.
  destruct direct; [congruence|]. apply bind_Ok_inv in Hd as (derived & _ & Hd).
  apply bind_Ok_inv in Hd as (m & _ & Hd). destruct m; congruence.
Qed.

(** *** The command line of the second run *)

(** What [build_inner_seccomp_command] gives. *)
Definition inner_given (cwd policy fs network : str) (spec : option str) : list Given :=
  [GivenOption (lit "sandbox-policy-cwd") cwd; GivenOption (lit "sandbox-policy") policy;
   GivenOption (lit "file-system-sandbox-policy") fs; GivenOption (lit "network-sandbox-policy") network;
   GivenFlag (lit "apply-seccomp-then-exec")]
  ++ match spec with
     | Some spec => [GivenFlag (lit "allow-network-for-proxy"); GivenOption (lit "proxy-route-spec") spec]
     | None => []
     end.

Lemma landlock_args_ok : declarations_ok landlock_args.
Proof.
  split; [apply (bool_decide_unpack _); by vm_compute|].
  apply (bool_decide_unpack _). by vm_compute.
Qed.

Lemma inner_given_ok cwd policy fs network spec :
  plain_value cwd → plain_value policy → plain_value fs → plain_value network →
  (∀ s, spec = Some s → plain_value s) → given_ok landlock_args (inner_given cwd policy fs network spec).
Proof.
  intros Hc Hp Hf Hn Hs. split_and!.
  - destruct spec; apply (bool_decide_unpack _); by vm_compute.
  - assert (Hin : ∀ x, bool_decide (x ∈ landlock_args) = true → x ∈ landlock_args)
      by (intros x; by rewrite bool_decide_eq_true).
    unfold inner_given. apply Forall_app. split; [|destruct spec as [s|]; [specialize (Hs s eq_refl)|constructor]].
    all: repeat (apply Forall_cons; split); try (by constructor).
    all: first [by apply Hin; vm_compute|split; [exists true; by apply Hin; vm_compute|done]
               |split; [exists false; by apply Hin; vm_compute|done]].
  - intros n Hn'. exists cwd. assert (n = lit "sandbox-policy-cwd") as ->; [|left].
    unfold landlock_args in Hn'. rewrite !elem_of_cons, elem_of_nil in Hn'. naive_solver.
Qed.

Lemma path_plain_value p : real p = true → plain_value (path_to_string p).
Proof.
  intros (names & -> & _)%real_spec [k Hk]. cbn in Hk. injection Hk as Hk _. discriminate Hk.
Qed.

Lemma inner_given_spelled exe cwd policy fs network spec command :
  [exe; lit "--sandbox-policy-cwd"; cwd; lit "--sandbox-policy"; policy;
   lit "--file-system-sandbox-policy"; fs; lit "--network-sandbox-policy"; network;
   lit "--apply-seccomp-then-exec"]
  ++ match spec with
     | Some spec => [lit "--allow-network-for-proxy"; lit "--proxy-route-spec"; spec]
     | None => []
     end ++ [lit "--"] ++ command
  = exe :: mjoin (spelled <$> inner_given cwd policy fs network spec) ++ lit "--" :: command.
Proof. by destruct spec. Qed.

(** The second run reads what the first one wrote. *)
Lemma inner_command_parsed `{!HelperLaws} cwd policies allow spec command inner :
  real cwd = true → (allow = true → ∀ s, spec = Some s → plain_value s) →
  build_inner_seccomp_command cwd policies allow spec command = Ok inner →
  LandlockCommand_parse inner = Some {|
    sandbox_policy_cwd := cwd;
    sandbox_policy := Some (effective_policy policies);
    file_system_sandbox_policy := Some (effective_file_system policies);
    network_sandbox_policy := Some (effective_network policies);
    use_legacy_landlock := false; apply_seccomp_then_exec := true;
    allow_network_for_proxy := allow; proxy_route_spec := if allow then spec else None;
    no_proc := false; helper_command := command |}.
Proof.
  intros Hcwd Hspec. unfold build_inner_seccomp_command.
  intros (exe & _ & (policy & Hp & (fs & Hf & (network & Hn & (proxy & Hproxy & Hinner)%bind_Ok_inv)%bind_Ok_inv)%bind_Ok_inv)%bind_Ok_inv)%bind_Ok_inv.
  assert (Hexp : ∀ {A} (o : option A) x, expect (E := unit) o = Ok x → o = Some x) by (intros A [] x; cbn; congruence).
  apply Hexp, sandbox_policy_round in Hp as [Hp Hpv]. apply Hexp, file_system_policy_round in Hf as [Hf Hfv].
  apply Hexp, network_policy_round in Hn as [Hn Hnv].
  assert (proxy = match (if allow then spec else None) with
    | Some spec => [lit "--allow-network-for-proxy"; lit "--proxy-route-spec"; spec] | None => [] end ∧
    (allow = true ↔ is_Some (if allow then spec else None))) as [-> Hallow].
  { destruct allow; [|injection Hproxy as <-; split; [done|by split; [|intros [? ?]]]].
    apply bind_Ok_inv in Hproxy as (s & Hs%Hexp & [= <-]). rewrite Hs. split; [done|]. by split; eauto. }
  set (sp := if allow then spec else None) in *.
  assert (Hsv : ∀ s, sp = Some s → plain_value s).
  { intros s. unfold sp. destruct allow; [|done]. by apply Hspec. }
  assert (inner = exe :: mjoin (spelled <$> inner_given (path_to_string cwd) policy fs network sp)
    ++ lit "--" :: command) as -> by (rewrite <-inner_given_spelled; by injection Hinner).
  unfold LandlockCommand_parse. cbn [tail].
  destruct (clap_reads landlock_args (inner_given (path_to_string cwd) policy fs network sp) command)
    as (m & -> & Hone & Hflag & Htr);
    [apply landlock_args_ok|by apply inner_given_ok; [apply path_plain_value|..]|].
  assert (Hget : ∀ n v, GivenOption n v ∈ inner_given (path_to_string cwd) policy fs network sp → get_one m n = Some v)
    by (intros n v; apply Hone).
  cbn [mbind option_bind].
  rewrite (Hget (lit "sandbox-policy-cwd") (path_to_string cwd)) by left.
  rewrite (Hget (lit "sandbox-policy") policy) by (right; left).
  rewrite (Hget (lit "file-system-sandbox-policy") fs) by (right; right; left).
  rewrite (Hget (lit "network-sandbox-policy") network) by (right; right; right; left).
  cbn [mbind option_bind parsed_value]. rewrite Hp, Hf, Hn, Htr, path_of_to_string by done.
  cbn [fmap option_fmap option_map mbind option_bind].
  assert (Hset : ∀ n b, (GivenFlag n ∈ inner_given (path_to_string cwd) policy fs network sp ↔ b = true) → get_flag m n = b).
  { intros n b Hb. rewrite <-Hflag in Hb. destruct (get_flag m n), b; naive_solver. }
  assert (Hspec' : get_one m (lit "proxy-route-spec") = sp).
  { destruct sp as [s|] eqn:Es; [apply Hget; unfold inner_given; set_solver|].
    destruct (get_one m (lit "proxy-route-spec")) as [s|] eqn:E; [|done]. apply Hone in E.
    unfold inner_given in E. cbn [app] in E. rewrite !elem_of_cons, elem_of_nil in E. naive_solver. }
  rewrite Hspec', (Hset (lit "use-legacy-landlock") false), (Hset (lit "apply-seccomp-then-exec") true),
    (Hset (lit "allow-network-for-proxy") allow), (Hset (lit "no-proc") false); [done|..];
    unfold inner_given; destruct sp as [s|], allow; rewrite ?elem_of_app, !elem_of_cons, elem_of_nil; naive_solver.
Qed.

(** The second run executes the user's command, confined. *)
Lemma inner_run_confines cwd policy fs network allow spec command final :
  run_main {|
    sandbox_policy_cwd := cwd; sandbox_policy := Some policy; file_system_sandbox_policy := Some fs;
    network_sandbox_policy := Some network; use_legacy_landlock := false; apply_seccomp_then_exec := true;
    allow_network_for_proxy := allow; proxy_route_spec := spec; no_proc := false;
    helper_command := command |} = Ok final →
  ∃ rs, final = Exec rs command ∧ confined network allow allow rs.
Proof.
  unfold run_main. cbn [helper_command]. destruct command as [|x l] eqn:Ec; [done|].
  cbn [andb apply_seccomp_then_exec use_legacy_landlock sandbox_policy_cwd sandbox_policy
       file_system_sandbox_policy network_sandbox_policy allow_network_for_proxy proxy_route_spec].
  intros (eff & Heff%unwrap_Ok%resolve_given & (direct & [= <-] & Hrun)%bind_Ok_inv)%bind_Ok_inv.
  subst eff. apply bind_Ok_inv in Hrun as (u & _ & Hrun).
  apply bind_Ok_inv in Hrun as (rs & Hrs%unwrap_Ok & [= <-]).
  exists rs. split; [done|]. apply apply_confines in Hrs as [Hc _]. exact Hc.
Qed.

Lemma should_unshare network allow :
  should_unshare_network (bwrap_network_mode network allow) = should_install_network_seccomp network allow.
Proof. by destruct network, allow. Qed.

(** What a first run through bubblewrap starts. *)
Lemma bubblewrap_run cwd fs network inner proc allow final :
  real cwd = true → forallb entry_real (entries fs) = true →
  has_full_disk_write_access fs && negb allow = false →
  run_bwrap_with_proc_fallback cwd fs network inner proc allow = Ok final →
  ∃ rest, final = Bubblewrap (lit "bwrap" :: rest) ∧ (fits rest →
  ∃ parsed, parse_args rest = Some parsed ∧ command parsed = inner ∧
    argv0 parsed = Some (lit "codex-linux-sandbox") ∧
    unshare_user parsed = true ∧ unshare_pid parsed = true ∧
    unshare_net parsed = should_install_network_seccomp network allow).
Proof.
  intros Hcwd Hent Hfull. unfold run_bwrap_with_proc_fallback.
  intros (proc' & _ & (argv & Hargv & [= <-])%bind_Ok_inv)%bind_Ok_inv.
  set (options := {| mount_proc := proc'; network_mode := bwrap_network_mode network allow |}) in *.
  pose proof Hargv as Hargv'. unfold build_bwrap_argv in Hargv'.
  apply bind_Ok_inv in Hargv' as (a & Ha%unwrap_Ok & _).
  destruct (command_args_read inner fs cwd options a Hcwd Hent) as (pre & s & Hargs & Hreads & Hnet); [|done|].
  { intros Hw. rewrite Hw in Hfull. destruct allow; done. }
  destruct (build_argv_parsed pre s inner fs cwd options argv a Hreads Ha Hargs Hargv) as (rest & -> & Hp).
  exists rest. split; [done|]. intros Hfits. rewrite parse_fits by done. eexists.
  split; [exact Hp|]. split_and!; [done..|].
  cbn [unshare_net namespaces set_argv0]. rewrite Hnet. apply should_unshare.
Qed.
End Theorems.

(** C15: What a run of the helper executes.  Either it executes the user's
    command with the system call filter in place, no new privileges before it,
    whenever the network is restricted or goes through the proxy; without
    bubblewrap that happens only inside it, for a policy with full write
    access, or under the legacy rules, which then confine writing to the
    writable roots.  Or it executes bubblewrap in fresh namespaces, the network
    one included exactly when the filter is required; the command there,
    if bubblewrap takes as many arguments, is the helper again.  It reads the
    command line written for it, and whatever that run executes is the user's
    command with the filter in place.  The directory and the entries of the
    policy in force are real absolute paths on a host without symbolic links. *)
Theorem helper_confines `{RealHost} `{HelperLaws} (c : LandlockCommand) (final : Final) :
  real (sandbox_policy_cwd c) = true →
  (∀ policies, resolve_sandbox_policies (sandbox_policy_cwd c) (sandbox_policy c)
       (file_system_sandbox_policy c) (network_sandbox_policy c) = Ok policies →
     forallb entry_real (entries (effective_file_system policies)) = true) →
  run_main c = Ok final →
  ∃ policies, resolve_sandbox_policies (sandbox_policy_cwd c) (sandbox_policy c)
       (file_system_sandbox_policy c) (network_sandbox_policy c) = Ok policies ∧
  let network := effective_network policies in
  let allow := allow_network_for_proxy c in
  match final with
  | Exec rs cmd =>
      cmd = helper_command c ∧ confined network allow (apply_seccomp_then_exec c && allow) rs ∧
      (apply_seccomp_then_exec c = true ∨
       has_full_disk_write_access (effective_file_system policies) = true ∨
       (use_legacy_landlock c = true ∧
        (legacy_has_full_disk_write_access (effective_policy policies) = true ∨
         ∃ roots, legacy_get_writable_roots_with_cwd (effective_policy policies)
                    (sandbox_policy_cwd c) = Ok roots ∧
           Landlock (root <$> roots) ∈ rs ∧ NoNewPrivs ∈ rs)))
  | Bubblewrap argv =>
      ∃ rest inner c', argv = lit "bwrap" :: rest ∧
      (fits rest → ∃ parsed, parse_args rest = Some parsed ∧ command parsed = inner ∧
         unshare_user parsed = true ∧ unshare_pid parsed = true ∧
         unshare_net parsed = should_install_network_seccomp network allow) ∧
      LandlockCommand_parse inner = Some c' ∧
      ∀ final', run_main c' = Ok final' →
        ∃ rs, final' = Exec rs (helper_command c) ∧ confined network allow allow rs
  end.
Proof.
  intros Hcwd Hreal. unfold run_main at 1. destruct (helper_command c) as [|x l] eqn:Ec; [done|].
  rewrite <- Ec. destruct (apply_seccomp_then_exec c && use_legacy_landlock c); [done|].
  intros (policies & Hres%unwrap_Ok & (direct & _ & Hrun)%bind_Ok_inv)%bind_Ok_inv.
  exists policies. split; [done|]. specialize (Hreal _ Hres). simpl.
  destruct direct; [done|]. destruct (apply_seccomp_then_exec c).
  { apply bind_Ok_inv in Hrun as (u & _ & Hrun). apply bind_Ok_inv in Hrun as (rs & Hrs%unwrap_Ok & [= <-]).
    apply apply_confines in Hrs as [Hc _]. split_and!; [done|exact Hc|by left]. }
  destruct (has_full_disk_write_access _ && negb _) eqn:Hfull.
  { apply bind_Ok_inv in Hrun as (rs & Hrs%unwrap_Ok & [= <-]).
    apply apply_confines in Hrs as [Hc _]. apply andb_true_iff in Hfull as [Hw _].
    split_and!; [done|exact Hc|by right; left]. }
  destruct (use_legacy_landlock c); simpl in Hrun.
  - apply bind_Ok_inv in Hrun as (rs & Hrs%unwrap_Ok & [= <-]). apply apply_confines in Hrs as [Hc Hl].
    split_and!; [done|exact Hc|]. right; right. split; [done|].
    destruct (legacy_has_full_disk_write_access (effective_policy policies)); [by left|right].
    by apply Hl.
  - apply bind_Ok_inv in Hrun as (spec & Hspec & Hrun). apply bind_Ok_inv in Hrun as (inner & Hinner & Hrun).
    apply bubblewrap_run in Hrun as (rest & -> & Hrun); [|done..].
    apply inner_command_parsed in Hinner; [|done|].
    2: { intros Hallow s ->. rewrite Hallow in Hspec. apply route_spec_plain.
         destruct prepare_host_proxy_route_spec; [|done]. by injection Hspec as <-. }
    eexists rest, inner, _. split_and!; [done| |exact Hinner|].
    + intros Hfits. destruct (Hrun Hfits) as (parsed & Hp & Hcmd & _ & Hu & Hpid & Hnet). by exists parsed.
    + intros final' Hf. by eapply inner_run_confines.
Qed.

(** ** An application of the theorem *)

(** A reader of command lines. *)
Definition no_matches : ArgMatches := {| get_one _ := None; get_flag _ := false; trailing := [] |}.
Definition match_one (n v : str) (m : ArgMatches) : ArgMatches :=
  {| get_one n' := if decide (n' = n) then Some v else get_one m n'; get_flag := get_flag m; trailing := trailing m |}.
Definition match_flag (n : str) (m : ArgMatches) : ArgMatches :=
  {| get_one := get_one m; get_flag n' := bool_decide (n' = n) || get_flag m n'; trailing := trailing m |}.
Definition match_rest (rest : list str) (m : ArgMatches) : ArgMatches :=
  {| get_one := get_one m; get_flag := get_flag m; trailing := rest |}.

Fixpoint read_args (spec : list (str * ArgKind)) (m : ArgMatches) (args : list str) : option ArgMatches :=
  match args with
  | [] => Some m
  | arg :: rest =>
      if decide (arg = lit "--") then Some (match_rest rest m)
      else
        match RustStr.strip_prefix (lit "--") arg ≫= (λ n,
                (λ x : nat * (str * ArgKind), (n, x.2.2)) <$> list_find (λ a, a.1 = n) spec), rest with
        | Some (n, SetTrue), _ => read_args spec (match_flag n m) rest
        | Some (n, SetValue _), v :: rest => read_args spec (match_one n v m) rest
        | _, _ => None
        end
  end.

Definition read_command_line (spec : list (str * ArgKind)) (args : list str) : option ArgMatches :=
  m ← read_args spec no_matches args;
  if forallb (λ a, match a.2 with
                   | SetValue true => match get_one m a.1 with Some _ => true | None => false end
                   | _ => true
                   end) spec
  then Some m else None.

Lemma declared_find spec n k :
  NoDup spec.*1 → (n, k) ∈ spec → ∃ i, list_find (λ a : str * ArgKind, a.1 = n) spec = Some (i, (n, k)).
Proof.
  intros Hnd Hin. destruct (list_find_elem_of (λ a : str * ArgKind, a.1 = n) spec (n, k)) as [[i [n' k']] Hf];
    [done|done|]. exists i. rewrite Hf. apply list_find_Some in Hf as (Hl & Hn & _). cbn in Hn. subst n'.
  apply list_elem_of_lookup_2 in Hl. do 2 f_equal.
  apply list_elem_of_lookup in Hin as [j Hj], Hl as [j' Hj'].
  assert (j = j') as ->; [|congruence]. eapply (NoDup_lookup spec.*1); [done|..]; rewrite list_lookup_fmap, ?Hj, ?Hj'; done.
Qed.

Lemma read_args_spelled spec l rest m :
  declarations_ok spec → NoDup (given_name <$> l) →
  Forall (λ g, match g with
               | GivenFlag n => (n, SetTrue) ∈ spec
               | GivenOption n v => (∃ required, (n, SetValue required) ∈ spec) ∧ plain_value v
               end) l →
  (∀ g, g ∈ l → get_one m (given_name g) = None) →
  ∃ m', read_args spec m (mjoin (spelled <$> l) ++ lit "--" :: rest) = Some m' ∧
    (∀ n v, get_one m' n = Some v ↔ get_one m n = Some v ∨ GivenOption n v ∈ l) ∧
    (∀ n, get_flag m' n = true ↔ get_flag m n = true ∨ GivenFlag n ∈ l) ∧ trailing m' = rest.
Proof.
  intros [Hnd Hnames] Hl Hdecl. revert m. induction Hdecl as [|g l Hg _ IH]; intros m Hm.
  { exists (match_rest rest m). cbn [fmap list_fmap mjoin list_join app read_args]. rewrite decide_True by done.
    split_and!; [done|..|done]; intros; rewrite elem_of_nil; tauto. }
  rewrite fmap_cons in Hl. apply NoDup_cons in Hl as [Hnew Hl].
  assert (Hne : ∀ n k, (n, k) ∈ spec → lit "--" ++ n ≠ lit "--").
  { intros n k Hin Heq. rewrite Forall_forall in Hnames. destruct (Hnames _ Hin) as [Hn _]. apply Hn.
    apply (app_inv_head (lit "--")). by rewrite app_nil_r. }
  assert (Hother : ∀ g' n, given_name g = n → g' ∈ l → given_name g' ≠ n).
  { intros g' n <- Hin Heq. apply Hnew. rewrite <-Heq. apply list_elem_of_fmap. by exists g'. }
  destruct g as [n|n v]; cbn [fmap list_fmap spelled mjoin list_join app].
  - destruct (declared_find spec n SetTrue Hnd Hg) as [i Hf]. cbn [read_args].
    change (lit "--" ++ n) with (lit "--" ++ n). rewrite decide_False by by eapply Hne.
    rewrite RustStr.strip_prefix_app. cbn [mbind option_bind]. rewrite Hf. cbn.
    destruct (IH Hl (match_flag n m)) as (m' & Hr & Ho & Hfl & Ht).
    { intros g' Hin. apply Hm. by right. }
    exists m'. split_and!; [exact Hr| |intros n'; rewrite Hfl; cbn|done].
    + intros n' v. rewrite Ho. cbn. rewrite elem_of_cons. naive_solver.
    + rewrite orb_true_iff, bool_decide_eq_true, elem_of_cons. naive_solver.
  - destruct Hg as [[required Hin] _]. destruct (declared_find spec n _ Hnd Hin) as [i Hf]. cbn [read_args].
    rewrite decide_False by by eapply Hne.
    rewrite RustStr.strip_prefix_app. cbn [mbind option_bind]. rewrite Hf. cbn.
    destruct (IH Hl (match_one n v m)) as (m' & Hr & Ho & Hfl & Ht).
    { intros g' Hin'. cbn. rewrite decide_False by by eapply Hother. apply Hm. by right. }
    specialize (Hm (GivenOption n v) (list_elem_of_here _ _)). cbn in Hm.
    exists m'. split_and!; [exact Hr|intros n' v'; rewrite Ho; cbn|intros n'; rewrite Hfl, elem_of_cons; naive_solver|done].
    rewrite elem_of_cons. case_decide as Hd; [subst n'|naive_solver].
    assert (¬ GivenOption n v' ∈ l) by (intros Hl'; by eapply Hother). naive_solver.
Qed.

Section Run.
#[local] Existing Instances host_env host_bwrap host_real.

Definition helper_sample : LandlockCommand := {|
  sandbox_policy_cwd := host_ws;
  sandbox_policy := Some new_read_only_policy;
  file_system_sandbox_policy := Some hiding_policy;
  network_sandbox_policy := Some NetworkRestricted;
  use_legacy_landlock := false; apply_seccomp_then_exec := false;
  allow_network_for_proxy := false; proxy_route_spec := None; no_proc := false;
  helper_command := [lit "ls"]
|}.

#[local] Instance SandboxPolicy_eq_dec : EqDecision SandboxPolicy.
Proof. assert (EqDecision ReadOnlyAccess) by solve_decision. assert (EqDecision NetworkAccess) by solve_decision.
  solve_decision. Defined.
#[local] Instance FileSystemSandboxPolicy_eq_dec : EqDecision FileSystemSandboxPolicy.
Proof.
  assert (EqDecision FileSystemPath) by solve_decision. assert (EqDecision FileSystemSandboxEntry) by solve_decision.
  assert (EqDecision FileSystemSandboxKind) by solve_decision. solve_decision.
Defined.

(** A host whose [serde_json] knows the policies of the sample. *)
Definition helper_host : HelperEnv := {|
  get_matches := read_command_line;
  sandbox_policy_from_json s := if decide (s = lit "{legacy}") then Some new_read_only_policy else None;
  file_system_policy_from_json s := if decide (s = lit "{files}") then Some hiding_policy else None;
  network_policy_from_json s := if decide (s = lit "'restricted'") then Some NetworkRestricted else None;
  current_exe := Some (lit "/proc/self/exe");
  sandbox_policy_json p := if decide (p = new_read_only_policy) then Some (lit "{legacy}") else None;
  file_system_policy_json p := if decide (p = hiding_policy) then Some (lit "{files}") else None;
  network_policy_json p := if decide (p = NetworkRestricted) then Some (lit "'restricted'") else None;
  prepare_host_proxy_route_spec := Some (lit "{}");
  activate_proxy_routes_in_netns _ := true;
  set_no_new_privs := true;
  install_network_seccomp_filter _ := true;
  install_filesystem_landlock_rules _ := true;
  bwrap_stderr _ := [];
|}.
#[local] Existing Instance helper_host.

#[local] Instance helper_host_laws : HelperLaws.
Proof.
  assert (Hplain : ∀ s, starts_with (lit "-") s = false → plain_value s) by (intros s; apply starts_with_false).
  split; cbn.
  - intros spec l rest Hok (Hnd & Hdecl & Hreq). unfold read_command_line.
    destruct (read_args_spelled spec l rest no_matches Hok Hnd Hdecl) as (m & -> & Ho & Hf & Ht); [done|].
    cbn [mbind option_bind]. exists m. split; [|split_and!; [|..|done]].
    + assert (forallb (λ a, match a.2 with
        | SetValue true => match get_one m a.1 with Some _ => true | None => false end | _ => true end) spec = true)
        as ->; [|done]. apply forallb_elem. intros [n [|[]]] Hin; cbn; [done| |done].
      destruct (Hreq n Hin) as [v Hv]. by rewrite (proj2 (Ho n v) (or_intror Hv)).
    + intros n v. rewrite Ho. cbn. naive_solver.
    + intros n. rewrite Hf. cbn. naive_solver.
  - intros p s. case_decide; [|done]. intros [= <-]. subst. split; [by rewrite decide_True|by apply Hplain].
  - intros p s. case_decide; [|done]. intros [= <-]. subst. split; [by rewrite decide_True|by apply Hplain].
  - intros p s. case_decide; [|done]. intros [= <-]. subst. split; [by rewrite decide_True|by apply Hplain].
  - intros s [= <-]. by apply Hplain.
Qed.

Definition final_of (c : LandlockCommand) : Final :=
  match run_main c with Ok final => final | _ => Exec [] [] end.

Lemma helper_confines_witness :
  ∃ rest inner c', final_of helper_sample = Bubblewrap (lit "bwrap" :: rest) ∧
    (∃ parsed, parse_args rest = Some parsed ∧ unshare_net parsed = true ∧ command parsed = inner) ∧
    LandlockCommand_parse inner = Some c' ∧
    run_main c' = Ok (Exec [NoNewPrivs; Seccomp SeccompRestricted] [lit "ls"]).
Proof.
  destruct (helper_confines helper_sample (final_of helper_sample)) as (policies & Hres & Hfinal).
  - vm_compute. reflexivity.
  - intros policies Hres. vm_compute in Hres. injection Hres as <-. vm_compute. reflexivity.
  - vm_compute. reflexivity.
  - destruct (final_of helper_sample) as [rs cmd|argv] eqn:Ef; [vm_compute in Ef; discriminate Ef|].
    destruct Hfinal as (rest & inner & c' & -> & Hfit & Hparse & _).
    destruct Hfit as (parsed & Hp & Hcmd & _ & _ & Hnet).
    { vm_compute in Ef. injection Ef as <-. vm_compute. discriminate. }
    exists rest, inner, c'. split_and!; [reflexivity| |exact Hparse|].
    + exists parsed. split_and!; [exact Hp| |exact Hcmd].
      rewrite Hnet. vm_compute in Hres. injection Hres as <-. reflexivity.
    + vm_compute in Ef. injection Ef as <-. vm_compute in Hp. injection Hp as <-. cbn in Hcmd. subst inner.
      vm_compute in Hparse. injection Hparse as <-. vm_compute. reflexivity.
Defined.
End Run.
