(* ===== verification/ExecOutput.v ===== *)
(** * What a command printed: [core/src/exec.rs], [core/src/text_encoding.rs]
      and [core/src/unified_exec/async_watcher.rs]

    The output of a command is read from its pipes, capped, put together and
    turned into text; the end of the command becomes a result or an error of
    the sandbox.  Unified exec streams the output of a process in pieces.  The
    crates [chardetng] and [encoding_rs] and the tables of
    [str::to_lowercase] are arguments; sizes are numbers of bytes in memory. *)
From stdpp Require Import base tactics option list numbers strings.
From S2P Require Import Prelude RustStr Paths Permissions Safety Utf8Stream HeadTailBuffer.
From stdpp Require Import list.

(** ** Constants *)
Definition SIGKILL_CODE : Z := 9.
Definition TIMEOUT_CODE : Z := 64.
Definition EXIT_CODE_SIGNAL_BASE : Z := 128.
Definition EXEC_TIMEOUT_EXIT_CODE : Z := 124.
Definition SIGSYS_CODE : Z := 31.
Definition EXEC_OUTPUT_MAX_BYTES : nat := Z.to_nat (1024 * 1024).
Definition MAX_EXEC_OUTPUT_DELTAS_PER_CALL : nat := Z.to_nat 10000.
Definition UNIFIED_EXEC_OUTPUT_DELTA_MAX_BYTES : nat := Z.to_nat 8192.

#[export] Instance SandboxType_eq_dec : EqDecision SandboxType.
Proof. solve_decision. Defined.

(** ** Bytes to text *)

(** [String::from_utf8_lossy]; each round takes a byte at least, so the length
    is enough fuel. *)
Definition REPLACEMENT : char := 0xFFFD%N.

Fixpoint lossy_loop (fuel : nat) (bs : list byte) : str :=
  match fuel, bs with
  | _, [] | O, _ => []
  | S fuel, _ =>
      match decode_char bs with
      | Done c rest => c :: lossy_loop fuel rest
      | Invalid n => REPLACEMENT :: lossy_loop fuel (drop n bs)
      | Incomplete => [REPLACEMENT]
      end
  end.

Definition from_utf8_lossy (bs : list byte) : str := lossy_loop (length bs) bs.

(** An [Encoding] by its name. *)
Definition IBM866 : str := lit "IBM866".
Definition WINDOWS_1252 : str := lit "windows-1252".

Definition WINDOWS_1252_PUNCT_BYTES : list byte :=
  [0x91; 0x92; 0x93; 0x94; 0x95; 0x96; 0x97; 0x99]%N.

Definition is_windows_1252_punct (b : byte) : bool :=
  existsb (N.eqb b) WINDOWS_1252_PUNCT_BYTES.

Definition is_ascii_alphabetic (b : byte) : bool :=
  (((65 <=? b) && (b <=? 90)) || ((97 <=? b) && (b <=? 122)))%N.

(** The loop, with its two flags. *)
Fixpoint punctuation_loop (saw_extended_punctuation saw_ascii_word : bool) (bytes : list byte) : bool :=
  match bytes with
  | [] => saw_extended_punctuation && saw_ascii_word
  | b :: bytes =>
      if (0xA0 <=? b)%N then false
      else
        let extended := ((0x80 <=? b) && (b <=? 0x9F))%N in
        if extended && negb (is_windows_1252_punct b) then false
        else punctuation_loop (saw_extended_punctuation || extended)
               (saw_ascii_word || is_ascii_alphabetic b) bytes
  end.

Definition looks_like_windows_1252_punctuation (bytes : list byte) : bool :=
  punctuation_loop false false bytes.

(** [StreamOutput], bytes or text. *)
Record StreamOutput (T : Type) : Type := { text : T; truncated_after_lines : option N }.
Arguments text {T} _.
Arguments truncated_after_lines {T} _.

Definition stream_new {T} (text : T) : StreamOutput T := {| text := text; truncated_after_lines := None |}.

Section Text.
(** [EncodingDetector::guess_assess], and [Encoding::decode] with whether it
    had errors. *)
Context (guess : list byte → str) (decode : str → list byte → str * bool).

Definition detect_encoding (bytes : list byte) : str :=
  let encoding := guess bytes in
  if bool_decide (encoding = IBM866) && looks_like_windows_1252_punctuation bytes
  then WINDOWS_1252 else encoding.

Definition decode_bytes (bytes : list byte) (encoding : str) : str :=
  let '(decoded, had_errors) := decode encoding bytes in
  if had_errors : bool then from_utf8_lossy bytes else decoded.

Definition bytes_to_string_smart (bytes : list byte) : str :=
  match bytes with
  | [] => []
  | _ =>
      match from_utf8 bytes with
      | Ok s => s
      | _ => decode_bytes bytes (detect_encoding bytes)
      end
  end.

(** ** Capped output *)
Definition stream_from_utf8_lossy (s : StreamOutput (list byte)) : StreamOutput str :=
  {| text := bytes_to_string_smart (text s); truncated_after_lines := truncated_after_lines s |}.

Definition append_capped (dst src : list byte) (max_bytes : nat) : list byte :=
  if max_bytes <=? length dst then dst
  else dst ++ take ((max_bytes - length dst) `min` length src) src.

Definition aggregate_output (stdout stderr : StreamOutput (list byte)) : StreamOutput (list byte) :=
  let total_len := length (text stdout) + length (text stderr) in
  let max_bytes := EXEC_OUTPUT_MAX_BYTES in
  if total_len <=? max_bytes then stream_new (text stdout ++ text stderr)
  else
    let want_stdout := length (text stdout) `min` (max_bytes / 3) in
    let want_stderr := length (text stderr) in
    let stderr_take := want_stderr `min` (max_bytes - want_stdout) in
    let remaining := max_bytes - (want_stdout + stderr_take) in
    let stdout_take := want_stdout + remaining `min` (length (text stdout) - want_stdout) in
    stream_new (take stdout_take (text stdout) ++ take stderr_take (text stderr)).

(** [read_capped]: the results of [read] in order, up to the end of the file,
    which is the end of the list; [None] is an error of the system.  The second
    component is the deltas sent, when there is a stream for them. *)
Fixpoint read_loop (streamed : bool) (buf : list byte) (emitted_deltas : nat) (deltas : list (list byte))
    (reads : list (option (list byte))) : option (list byte * list (list byte)) :=
  match reads with
  | [] | Some [] :: _ => Some (buf, deltas)
  | None :: _ => None
  | Some chunk :: reads =>
      let emit := streamed && (emitted_deltas <? MAX_EXEC_OUTPUT_DELTAS_PER_CALL) in
      read_loop streamed (append_capped buf chunk EXEC_OUTPUT_MAX_BYTES)
        (if emit then S emitted_deltas else emitted_deltas)
        (if emit then deltas ++ [chunk] else deltas) reads
  end.

Definition read_capped (streamed : bool) (reads : list (option (list byte))) :
    option (StreamOutput (list byte) * list (list byte)) :=
  '(buf, deltas) ← read_loop streamed [] 0 [] reads; Some (stream_new buf, deltas).

(** ** The end of a command *)

(** [ExitStatus] of Unix: the status [wait] returns, and what it says. *)
Definition ExitStatus : Type := Z.

Definition signal (status : ExitStatus) : option Z :=
  let n := Z.land status 0x7F in
  if ((n =? 0) || (n =? 0x7F))%Z then None else Some n.

Definition code (status : ExitStatus) : option Z :=
  if (Z.land status 0x7F =? 0)%Z then Some (Z.land (Z.shiftr status 8) 0xFF) else None.

Definition synthetic_exit_status (code : Z) : ExitStatus := code.

Record RawExecToolCallOutput : Type := {
  exit_status : ExitStatus;
  raw_stdout : StreamOutput (list byte);
  raw_stderr : StreamOutput (list byte);
  raw_aggregated_output : StreamOutput (list byte);
  raw_timed_out : bool;
}.

Record ExecToolCallOutput : Type := {
  exit_code : Z;
  stdout : StreamOutput str;
  stderr : StreamOutput str;
  aggregated_output : StreamOutput str;
  duration : Z;
  timed_out : bool;
}.

Inductive ExecErr : Type :=
  | ExecIo
  | SandboxSignal (signal : Z)
  | SandboxTimeout (output : ExecToolCallOutput)
  | ExecDenied (output : ExecToolCallOutput).

(** Which arm of the [select!] of [consume_truncated_output] is taken: the
    process ends ([None] when waiting fails), its time is up or it is
    cancelled, or the user interrupts; for the last two, whether the process
    could be killed. *)
Inductive ChildEnd : Type :=
  | ChildExited (status : option ExitStatus)
  | ChildExpired (killed : bool)
  | ChildInterrupted (killed : bool).

(** A pipe: what is read from it, and whether that ends within the time
    [await_with_timeout] allows after the end of the command. *)
Record Pipe : Type := { pipe_reads : list (option (list byte)); drains_in_time : bool }.

Definition await_with_timeout (streamed : bool) (pipe : Pipe) : outcome ExecErr (StreamOutput (list byte)) :=
  if drains_in_time pipe then
    match read_capped streamed (pipe_reads pipe) with
    | Some (output, _) => Ok output
    | None => Err ExecIo
    end
  else Ok (stream_new []).

Definition child_status (e : ChildEnd) : outcome ExecErr (ExitStatus * bool) :=
  match e with
  | ChildExited (Some status) => Ok (status, false)
  | ChildExpired true => Ok (synthetic_exit_status (EXIT_CODE_SIGNAL_BASE + TIMEOUT_CODE), true)
  | ChildInterrupted true => Ok (synthetic_exit_status (EXIT_CODE_SIGNAL_BASE + SIGKILL_CODE), false)
  | _ => Err ExecIo
  end.

Definition consume_truncated_output (e : ChildEnd) (streamed : bool) (stdout_pipe stderr_pipe : Pipe) :
    outcome ExecErr RawExecToolCallOutput :=
  '(exit_status, timed_out) ← child_status e;
  stdout ← await_with_timeout streamed stdout_pipe;
  stderr ← await_with_timeout streamed stderr_pipe;
  Ok {| exit_status := exit_status; raw_stdout := stdout; raw_stderr := stderr;
        raw_aggregated_output := aggregate_output stdout stderr; raw_timed_out := timed_out |}.

(** ** Was it the sandbox? *)
Context (to_lowercase : str → str).

Definition SANDBOX_DENIED_KEYWORDS : list str :=
  [lit "operation not permitted"; lit "permission denied"; lit "read-only file system";
   lit "seccomp"; lit "sandbox"; lit "landlock"; lit "failed to write file"].

Definition QUICK_REJECT_EXIT_CODES : list Z := [2; 126; 127]%Z.

Definition has_sandbox_keyword (output : ExecToolCallOutput) : bool :=
  existsb (λ section,
      let lower := to_lowercase section in
      existsb (λ needle, match RustStr.find needle lower with Some _ => true | None => false end)
        SANDBOX_DENIED_KEYWORDS)
    [text (stderr output); text (stdout output); text (aggregated_output output)].

Definition is_likely_sandbox_denied (sandbox_type : SandboxType) (output : ExecToolCallOutput) : bool :=
  if bool_decide (sandbox_type = SandboxNone) || (exit_code output =? 0)%Z then false
  else if has_sandbox_keyword output then true
  else if existsb (Z.eqb (exit_code output)) QUICK_REJECT_EXIT_CODES then false
  else bool_decide (sandbox_type = LinuxSeccomp)
       && (exit_code output =? EXIT_CODE_SIGNAL_BASE + SIGSYS_CODE)%Z.

Definition finalize_exec_result (raw_output_result : outcome ExecErr RawExecToolCallOutput)
    (sandbox_type : SandboxType) (duration : Z) : outcome ExecErr ExecToolCallOutput :=
  raw_output ← raw_output_result;
  timed_out ← match signal (exit_status raw_output) with
              | Some signal => if (signal =? TIMEOUT_CODE)%Z then Ok true else Err (SandboxSignal signal)
              | None => Ok (raw_timed_out raw_output)
              end;
  let exec_output := {|
    exit_code := if timed_out : bool then EXEC_TIMEOUT_EXIT_CODE
                 else default (-1)%Z (code (exit_status raw_output));
    stdout := stream_from_utf8_lossy (raw_stdout raw_output);
    stderr := stream_from_utf8_lossy (raw_stderr raw_output);
    aggregated_output := stream_from_utf8_lossy (raw_aggregated_output raw_output);
    duration := duration; timed_out := timed_out |} in
  if timed_out then Err (SandboxTimeout exec_output)
  else if is_likely_sandbox_denied sandbox_type exec_output then Err (ExecDenied exec_output)
  else Ok exec_output.

(** ** The stream of unified exec *)

(** The [while] loop over [split], from [max_len] down. *)
Fixpoint split_loop (buffer : list byte) (max_len split : nat) : option nat :=
  match split with
  | O => None
  | S split' =>
      match from_utf8 (take split buffer) with
      | Ok _ => Some split
      | _ => if 4 <? max_len - split then None else split_loop buffer max_len split'
      end
  end.

(** The piece taken off the buffer, and the rest. *)
Definition split_valid_utf8_prefix_with_max (buffer : list byte) (max_bytes : nat) :
    option (list byte * list byte) :=
  match buffer with
  | [] => None
  | _ =>
      let max_len := length buffer `min` max_bytes in
      let n := default 1 (split_loop buffer max_len max_len) in
      Some (take n buffer, drop n buffer)
  end.

Definition split_valid_utf8_prefix (buffer : list byte) : option (list byte * list byte) :=
  split_valid_utf8_prefix_with_max buffer UNIFIED_EXEC_OUTPUT_DELTA_MAX_BYTES.

(** The state of the task: the bytes not yet taken, the transcript, and the
    deltas sent so far. *)
Record Streaming : Type := {
  pending : list byte;
  transcript : HeadTailBuffer;
  emitted_deltas : list (list byte);
}.

(** The loop of [process_chunk]; a round takes a byte at least, so the length
    of the buffer is enough fuel. *)
Fixpoint take_pieces (fuel : nat) (s : Streaming) : outcome unit Streaming :=
  match split_valid_utf8_prefix (pending s) with
  | None => Ok s
  | Some (prefix, rest) =>
      match fuel with
      | O => NoFuel
      | S fuel =>
          take_pieces fuel {|
            pending := rest;
            transcript := push_chunk (transcript s) prefix;
            emitted_deltas :=
              if MAX_EXEC_OUTPUT_DELTAS_PER_CALL <=? length (emitted_deltas s)
              then emitted_deltas s else emitted_deltas s ++ [prefix] |}
      end
  end.

Definition process_chunk (s : Streaming) (chunk : list byte) : outcome unit Streaming :=
  let pending := pending s ++ chunk in
  take_pieces (length pending)
    {| pending := pending; transcript := transcript s; emitted_deltas := emitted_deltas s |}.

Definition UNIFIED_EXEC_OUTPUT_MAX_BYTES : Z := 1024 * 1024.

Definition streaming_new : Streaming :=
  {| pending := []; transcript := new UNIFIED_EXEC_OUTPUT_MAX_BYTES; emitted_deltas := [] |}.

(** The task of [start_streaming_output].  Which branch of the [select!] is
    taken in a round: the process is seen to have exited, the time allowed for
    its last output is over, or the receiver returns a chunk, that it has lost
    some, or that the channel is closed. *)
Inductive TaskEvent : Type :=
  | ExitSeen
  | GraceElapsed
  | Received (chunk : list byte)
  | Lagged (skipped : N)
  | Closed.

(** [in_grace]: the sleep is set; [drained]: the loop is over and
    [output_drained] was notified. *)
Record StreamTask : Type := { streaming : Streaming; in_grace : bool; drained : bool }.

(** A round of the loop; [Err] when the branch cannot be taken. *)
Definition task_round (t : StreamTask) (e : TaskEvent) : outcome unit StreamTask :=
  if drained t then Err tt
  else match e with
       | ExitSeen =>
           if in_grace t then Err tt
           else Ok {| streaming := streaming t; in_grace := true; drained := false |}
       | GraceElapsed =>
           if in_grace t then Ok {| streaming := streaming t; in_grace := true; drained := true |}
           else Err tt
       | Received chunk =>
           s ← process_chunk (streaming t) chunk;
           Ok {| streaming := s; in_grace := in_grace t; drained := false |}
       | Lagged _ => Ok t
       | Closed => Ok {| streaming := streaming t; in_grace := in_grace t; drained := true |}
       end.

Fixpoint run_task (t : StreamTask) (events : list TaskEvent) : outcome unit StreamTask :=
  match events with
  | [] => Ok t
  | e :: events => t ← task_round t e; run_task t events
  end.

Definition task_new : StreamTask :=
  {| streaming := streaming_new; in_grace := false; drained := false |}.

Definition resolve_aggregated_output (transcript : HeadTailBuffer) (fallback : str) : str :=
  if (retained_bytes transcript =? 0)%Z then fallback else from_utf8_lossy (to_bytes transcript).
End Text.

(** ** Lemmas *)

(** *** Capped output *)
Lemma append_capped_take dst src max : append_capped (take max dst) src max = take max (dst ++ src).
Proof.
  unfold append_capped. rewrite length_take, take_app.
  destruct (Nat.leb_spec max (max `min` length dst)).
  - by rewrite (proj2 (Nat.sub_0_le max (length dst))), take_0, app_nil_r by lia.
  - rewrite (take_ge dst), (Nat.min_r max) by lia. f_equal.
    destruct (decide (max - length dst ≤ length src)); [by rewrite Nat.min_l by lia|].
    by rewrite Nat.min_r, !take_ge by lia.
Qed.

(** The bytes of a pipe, unless reading fails. *)
Fixpoint read_all (reads : list (option (list byte))) : option (list byte) :=
  match reads with
  | [] | Some [] :: _ => Some []
  | None :: _ => None
  | Some chunk :: reads => (λ bs, chunk ++ bs) <$> read_all reads
  end.

Lemma read_loop_spec streamed reads bs : ∀ seen n deltas,
  read_all reads = Some bs →
  ∃ deltas', read_loop streamed (take EXEC_OUTPUT_MAX_BYTES seen) n deltas reads
             = Some (take EXEC_OUTPUT_MAX_BYTES (seen ++ bs), deltas').
Proof.
  revert bs; induction reads as [|[[|b chunk]|] reads IH]; intros bs seen n deltas;
    cbn [read_all read_loop].
  - intros [= <-]. rewrite app_nil_r. by eexists.
  - intros [= <-]. rewrite app_nil_r. by eexists.
  - intros (bs' & Hr & ->)%fmap_Some. rewrite append_capped_take.
    destruct (IH bs' (seen ++ b :: chunk)
                (if streamed && (n <? MAX_EXEC_OUTPUT_DELTAS_PER_CALL) then S n else n)
                (if streamed && (n <? MAX_EXEC_OUTPUT_DELTAS_PER_CALL)
                 then deltas ++ [b :: chunk] else deltas) Hr) as [d ->].
    rewrite <- app_assoc. by eexists.
  - done.
Qed.

Lemma read_capped_spec streamed reads bs :
  read_all reads = Some bs →
  ∃ deltas, read_capped streamed reads = Some (stream_new (take EXEC_OUTPUT_MAX_BYTES bs), deltas).
Proof.
  intros Hr. unfold read_capped. destruct (read_loop_spec streamed reads bs [] 0 [] Hr) as [d Hd].
  rewrite take_nil in Hd. rewrite Hd. by eexists.
Qed.

(** What is put together of two streams: everything if it fits, and otherwise
    as much as fits, a third of it kept for the first stream and the rest for
    the second as far as they need it. *)
Definition put_together (out err both : list byte) : Prop :=
  ∃ n m, both = take n out ++ take m err ∧ n ≤ length out ∧ m ≤ length err ∧
    n + m = EXEC_OUTPUT_MAX_BYTES `min` (length out + length err) ∧
    length out `min` (EXEC_OUTPUT_MAX_BYTES / 3) ≤ n ∧
    length err `min` (EXEC_OUTPUT_MAX_BYTES - EXEC_OUTPUT_MAX_BYTES / 3) ≤ m.

Lemma aggregate_output_spec out err :
  put_together (text out) (text err) (text (aggregate_output out err)).
Proof.
  unfold put_together, aggregate_output. generalize EXEC_OUTPUT_MAX_BYTES as max. intros max.
  pose proof (Nat.Div0.div_le_upper_bound max 3 max ltac:(lia)) as Hd.
  generalize dependent (max / 3). intros third Hd.
  destruct (Nat.leb_spec (length (text out) + length (text err)) max); cbn [text stream_new].
  - exists (length (text out)), (length (text err)). rewrite !firstn_all. split; [done|]. lia.
  - eexists _, _. split; [done|]. lia.
Qed.

(** *** Pieces of a stream *)
Definition is_text (bs : list byte) : Prop := ∃ s, scalars s ∧ bs = encode s.

(** A piece is text, or a single byte. *)
Definition piece_ok (piece : list byte) : Prop :=
  1 ≤ length piece ≤ UNIFIED_EXEC_OUTPUT_DELTA_MAX_BYTES ∧
  ((∃ s, from_utf8 piece = Ok s) ∨ length piece = 1).

Lemma split_loop_Some buffer max_len split n :
  split_loop buffer max_len split = Some n →
  1 ≤ n ≤ split ∧ ∃ s, from_utf8 (take n buffer) = Ok s.
Proof.
  revert n; induction split as [|split IH]; intros n; cbn [split_loop]; [done|].
  destruct (from_utf8 (take (S split) buffer)) as [s|e| |] eqn:E;
    [intros [= <-]; split; [lia|by exists s]|..];
    (destruct (4 <? _); [done|]; intros [Hn Hs]%IH; split; [lia|done]).
Qed.

(** A boundary at most five bytes below the first try is found. *)
Lemma split_loop_found buffer max_len split k s :
  1 ≤ k ≤ split → max_len ≤ k + 5 → from_utf8 (take k buffer) = Ok s →
  ∃ n, split_loop buffer max_len split = Some n.
Proof.
  intros Hk Hm Hs. induction split as [|split IH]; [lia|]. cbn [split_loop].
  destruct (decide (k = S split)) as [->|]; [rewrite Hs; by eexists|].
  destruct (from_utf8 (take (S split) buffer)) as [s'|e| |] eqn:E; [by eexists|..];
    (destruct (Nat.ltb_spec 4 (max_len - S split)); [lia|apply IH; lia]).
Qed.

Lemma split_prefix_spec buffer piece rest :
  split_valid_utf8_prefix buffer = Some (piece, rest) →
  buffer = piece ++ rest ∧ piece_ok piece ∧ length rest < length buffer.
Proof.
  unfold split_valid_utf8_prefix, split_valid_utf8_prefix_with_max, piece_ok.
  assert (1 ≤ UNIFIED_EXEC_OUTPUT_DELTA_MAX_BYTES) as H1 by (vm_compute; lia).
  generalize dependent UNIFIED_EXEC_OUTPUT_DELTA_MAX_BYTES; intros max H1.
  destruct buffer as [|b buffer]; [done|]. set (bs := b :: buffer) in *.
  assert (1 ≤ length bs) as Hl by (simpl; lia). clearbody bs.
  intros [= <- <-]. rewrite take_drop, length_drop.
  destruct (split_loop bs _ _) as [n|] eqn:E; cbn [from_option id].
  - apply split_loop_Some in E as [Hn Hs]. rewrite length_take.
    split_and!; [done|lia|lia|by left|lia].
  - rewrite length_take. split_and!; [done|lia|lia|right; lia|lia].
Qed.

Lemma cut_char_length bs : cut_char bs → 1 ≤ length bs ≤ 3.
Proof.
  intros (Hne & c & tl & _ & Htl & He). apply (f_equal length) in He.
  pose proof (encode_char_length c). rewrite length_app in He.
  destruct bs, tl; simpl in *; try done; lia.
Qed.

Lemma text_byte s : scalars s → Forall (λ b, b < 256)%N (encode s).
Proof.
  induction 1 as [|c s Hc Hs IH]; [constructor|]. rewrite encode_cons. apply Forall_app. split; [|done].
  apply is_scalar_spec in Hc. unfold encode_char.
  repeat case_match; rewrite ?N.ltb_lt, ?N.ltb_ge in *; rewrite ?Forall_cons;
    split_and?; try apply Forall_nil_2; lia.
Qed.

(** Text is cut at characters, and what is left is text. *)
Lemma split_prefix_text s piece rest :
  scalars s → split_valid_utf8_prefix (encode s) = Some (piece, rest) →
  is_text piece ∧ is_text rest.
Proof.
  intros Hs. unfold split_valid_utf8_prefix, split_valid_utf8_prefix_with_max.
  assert (4 ≤ UNIFIED_EXEC_OUTPUT_DELTA_MAX_BYTES) as H4 by (vm_compute; lia).
  generalize dependent UNIFIED_EXEC_OUTPUT_DELTA_MAX_BYTES; intros max H4.
  pose proof (text_byte s Hs) as Hb. pose proof (from_utf8_encode s Hs) as Hok.
  destruct (encode s) as [|b0 bs0] eqn:Es; [done|]. rewrite <- Es in *.
  assert (1 ≤ length (encode s)) as Hl by (rewrite Es; simpl; lia). clear Es.
  destruct (encode_prefix s (take (length (encode s) `min` max) (encode s))
              (drop (length (encode s) `min` max) (encode s)) Hs) as (s1 & s2 & rem & -> & H1 & _ & Hrem);
    [apply take_drop|].
  assert (∃ n, split_loop (encode (s1 ++ s2)) (length (encode (s1 ++ s2)) `min` max)
                 (length (encode (s1 ++ s2)) `min` max) = Some n) as [n Hn].
  { pose proof (f_equal length H1) as Hlen. rewrite length_take, length_app in Hlen.
    pose proof (proj1 (proj1 (Forall_app _ _ _) Hs)) as Hs1.
    assert (length rem ≤ 3) as Hr by (destruct Hrem as [->|Hc%cut_char_length]; simpl; lia).
    assert (1 ≤ length (encode s1)) as Hl1.
    { destruct s1 as [|c s1]; [|rewrite encode_cons, length_app; pose proof (encode_char_length c); lia].
      exfalso. change (encode []) with (@nil byte) in *. cbn [app length] in *.
      rewrite take_ge in H1 by lia. destruct Hrem as [->|Hc]; [rewrite H1 in Hl; simpl in Hl; lia|].
      pose proof (from_utf8_cut [] rem (Forall_nil_2 _) Hc) as He.
      change (encode []) with (@nil byte) in He. cbn [app] in He. by rewrite H1, He in Hok. }
    apply (split_loop_found _ _ _ (length (encode s1)) s1); [lia|lia|].
    rewrite encode_app, take_app_length. by apply from_utf8_encode. }
  rewrite Hn. cbn [from_option id]. intros [= <- <-].
  apply split_loop_Some in Hn as [_ [s' Hs']].
  pose proof Hs' as (s'' & -> & Ht & Hsc)%decode_loop_sound; [|by apply Forall_take]. cbn [app] in *.
  destruct (encode_prefix _ _ _ Hs (take_drop n _)) as (t1 & t2 & rem' & Ht12 & Hp & Hd & Hrem').
  split; [by exists s''|].
  destruct Hrem' as [->|Hc].
  - exists t2. rewrite Ht12 in Hs. apply Forall_app in Hs as [_ Hs]. by split.
  - rewrite Hp, from_utf8_cut in Hs'; [done| |done].
    rewrite Ht12 in Hs. by apply Forall_app in Hs as [Hs _].
Qed.

Lemma split_prefix_None buffer : split_valid_utf8_prefix buffer = None → buffer = [].
Proof. by destruct buffer. Qed.

Lemma from_utf8_text bs : is_text bs → ∃ s, from_utf8 bs = Ok s.
Proof. intros (s & Hs & ->). exists s. by apply from_utf8_encode. Qed.

(** The pieces a buffer is taken apart into. *)
Definition pieces_of (buffer : list byte) (pieces : list (list byte)) : Prop :=
  concat pieces = buffer ∧ Forall piece_ok pieces ∧ (is_text buffer → Forall is_text pieces).

Lemma take_pieces_spec fuel : ∀ s,
  length (pending s) ≤ fuel →
  ∃ pieces, pieces_of (pending s) pieces ∧
    take_pieces fuel s = Ok {|
      pending := [];
      transcript := foldl push_chunk (transcript s) pieces;
      emitted_deltas := emitted_deltas s
        ++ take (MAX_EXEC_OUTPUT_DELTAS_PER_CALL - length (emitted_deltas s)) pieces |}.
Proof.
  induction fuel as [|fuel IH]; intros [buffer t d] Hf; cbn [pending transcript emitted_deltas take_pieces] in *;
    (destruct (split_valid_utf8_prefix buffer) as [[piece rest]|] eqn:E;
      [|apply split_prefix_None in E as ->; exists []; rewrite take_nil, app_nil_r;
        by split_and!; [..|constructor]]).
  { pose proof (split_prefix_spec _ _ _ E) as (_ & _ & Hlt). lia. }
  pose proof (split_prefix_spec _ _ _ E) as (Hbuf & Hok & Hlt).
  edestruct IH as (pieces & (Hc & Hp & Ht) & ->); cbn [pending transcript emitted_deltas]; [lia|].
  exists (piece :: pieces). unfold pieces_of. cbn [pending] in *. split_and!.
  - cbn [concat]. by rewrite Hc.
  - by constructor.
  - intros (s & Hs & ->). destruct (split_prefix_text s piece rest Hs E). constructor; [done|]. by apply Ht.
  - cbn [pending transcript emitted_deltas foldl] in *. do 2 f_equal.
    destruct (Nat.leb_spec MAX_EXEC_OUTPUT_DELTAS_PER_CALL (length d)).
    + by rewrite (proj2 (Nat.sub_0_le _ _) H), !take_0.
    + rewrite <- app_assoc. f_equal. rewrite length_app. cbn [length].
      replace (MAX_EXEC_OUTPUT_DELTAS_PER_CALL - length d)
        with (S (MAX_EXEC_OUTPUT_DELTAS_PER_CALL - (length d + 1))) by lia. done.
Qed.

Lemma push_pieces_represents pieces : ∀ max b s,
  represents max b s → represents max (foldl push_chunk b pieces) (s ++ concat pieces).
Proof.
  induction pieces as [|p pieces IH]; intros max b s Hr; cbn [foldl concat]; [by rewrite app_nil_r|].
  rewrite app_assoc. by apply IH, push_chunk_represents.
Qed.

(** The chunks that were received. *)
Definition received (events : list TaskEvent) : list (list byte) :=
  omap (λ e, match e with Received chunk => Some chunk | _ => None end) events.

Definition ends_task (e : TaskEvent) : bool :=
  match e with GraceElapsed | Closed => true | _ => false end.

(** A schedule of the branches that the loop can take: it ends with the first
    event that ends it, the exit is seen at most once, and the time is over
    only after that. *)
Fixpoint schedule (in_grace : bool) (events : list TaskEvent) : Prop :=
  match events with
  | [] => True
  | e :: events =>
      match e with
      | ExitSeen => in_grace = false ∧ schedule true events
      | GraceElapsed => in_grace = true ∧ events = []
      | Closed => events = []
      | Received _ | Lagged _ => schedule in_grace events
      end
  end.

(** What a run over some events leaves. *)
Definition streamed (s : Streaming) (chunks pieces : list (list byte)) (s' : Streaming) : Prop :=
  concat pieces = concat chunks ∧ Forall piece_ok pieces ∧
  (Forall is_text chunks → Forall is_text pieces) ∧
  s' = {| pending := [];
          transcript := foldl push_chunk (transcript s) pieces;
          emitted_deltas := emitted_deltas s
            ++ take (MAX_EXEC_OUTPUT_DELTAS_PER_CALL - length (emitted_deltas s)) pieces |}.

Lemma streamed_nil s : pending s = [] → streamed s [] [] s.
Proof.
  destruct s as [p t d]. cbn. intros ->. unfold streamed. cbn.
  rewrite take_nil, app_nil_r. by split_and!; [..|constructor|].
Qed.

Lemma streamed_cons s chunk chunks :
  pending s = [] → ∃ pieces s1, process_chunk s chunk = Ok s1 ∧ pending s1 = [] ∧
    ∀ pieces' s', streamed s1 chunks pieces' s' → streamed s (chunk :: chunks) (pieces ++ pieces') s'.
Proof.
  destruct s as [p t d]. cbn. intros ->. unfold process_chunk. cbn [pending transcript emitted_deltas app].
  destruct (take_pieces_spec (length chunk) {| pending := chunk; transcript := t; emitted_deltas := d |})
    as (ps & (Hc & Hp & Ht) & ->); [done|]. cbn [pending transcript emitted_deltas] in *.
  eexists ps, _. split_and!; [done..|]. unfold streamed. cbn [pending transcript emitted_deltas].
  intros ps' s' (Hc' & Hp' & Ht' & ->). split_and!.
  - rewrite concat_app. cbn [concat]. by rewrite Hc, Hc'.
  - by apply Forall_app.
  - intros [H1 H2]%Forall_cons. apply Forall_app. auto.
  - rewrite foldl_app, <- app_assoc, take_app, length_app, length_take.
    do 4 f_equal. lia.
Qed.

Lemma run_task_spec events : ∀ t,
  drained t = false → pending (streaming t) = [] → schedule (in_grace t) events →
  ∃ t' pieces, run_task t events = Ok t' ∧
    streamed (streaming t) (received events) pieces (streaming t') ∧
    drained t' = existsb ends_task events.
Proof.
  induction events as [|e events IH]; intros t Hd Hp Hs; cbn [run_task].
  { exists t, []. split_and!; [done|by apply streamed_nil|done]. }
  unfold task_round. rewrite Hd. destruct e as [| |chunk|n|]; cbn [schedule] in Hs.
  - destruct Hs as [-> Hs]. cbn [mbind outcome_bind].
    exact (IH {| streaming := streaming t; in_grace := true; drained := false |} eq_refl Hp Hs).
  - destruct Hs as [-> ->]. eexists _, []. split_and!; [done|by apply streamed_nil|done].
  - destruct (streamed_cons (streaming t) chunk (received events) Hp) as (pieces & s1 & -> & Hp1 & Hcons).
    cbn [mbind outcome_bind].
    destruct (IH {| streaming := s1; in_grace := in_grace t; drained := false |} eq_refl Hp1 Hs)
      as (t' & pieces' & Hrun & Hst & Hdr).
    exists t', (pieces ++ pieces'). split_and!; [done| |done]. by apply Hcons.
  - cbn [mbind outcome_bind]. by apply IH.
  - subst events. eexists _, []. split_and!; [done|by apply streamed_nil|done].
Qed.

Lemma represents_retained max b s : represents max b s → (retained_bytes b =? 0)%Z = bool_decide (kept max s = []).
Proof.
  intros [Hu _ _ _ Hh Ht Hhn Htn _]. unfold retained_bytes. rewrite Hhn, Htn, Hh, Ht.
  unfold sat_add, usize_max. unfold kept. case_bool_decide as Hk.
  - apply app_nil in Hk as [-> ->]. done.
  - apply Z.eqb_neq. assert (length (kept_head max s ++ kept_tail max s) ≠ 0) as Hl
      by by destruct (kept_head max s ++ kept_tail max s).
    rewrite length_app in Hl. lia.
Qed.

Lemma represents_bytes max b s : represents max b s → to_bytes b = kept max s.
Proof. intros [_ _ _ _ Hh Ht _ _ _]. unfold to_bytes. by rewrite Hh, Ht. Qed.

Lemma kept_nil max s : (0 < max)%Z → kept max s = [] ↔ s = [].
Proof.
  intros Hm. pose proof (kept_length max s ltac:(lia)) as Hl.
  rewrite <- !length_zero_iff_nil. destruct s; cbn [length] in *; lia.
Qed.

Lemma represents_text max b s fallback :
  (0 < max)%Z → represents max b s →
  resolve_aggregated_output b fallback
  = if bool_decide (s = []) then fallback else from_utf8_lossy (kept max s).
Proof.
  intros Hm Hr. unfold resolve_aggregated_output.
  rewrite (represents_retained _ _ _ Hr), (represents_bytes _ _ _ Hr).
  by rewrite (bool_decide_ext _ _ (kept_nil max s Hm)).
Qed.

(** ** Theorems *)

(** C27: what the task that watches a process does with its output, for every
    schedule its loop can take: the exit is seen once, the time allowed for the
    last output is over only after that, and this or the closing of the channel
    is the last event.  The task runs to the end of the schedule and has
    notified that the output is drained exactly when the schedule ends the loop.
    The chunks it received, all that the receiver did not lose or leave behind,
    are cut into pieces of at most the limit of bytes; the pieces are sent in
    order until the limit of events, and all are in the transcript, whose text
    is that of the first and last bytes received, or the fallback when nothing
    was.  If every chunk received is text, so is every piece: it is cut between
    characters. *)
Theorem stream_of_process (events : list TaskEvent) (fallback : str) :
  schedule false events →
  ∃ t pieces, run_task task_new events = Ok t ∧
    drained t = existsb ends_task events ∧
    concat pieces = concat (received events) ∧
    Forall (λ piece, length piece ≤ UNIFIED_EXEC_OUTPUT_DELTA_MAX_BYTES) pieces ∧
    (Forall is_text (received events) → Forall is_text pieces) ∧
    emitted_deltas (streaming t) = take MAX_EXEC_OUTPUT_DELTAS_PER_CALL pieces ∧
    resolve_aggregated_output (transcript (streaming t)) fallback
    = if bool_decide (concat (received events) = []) then fallback
      else from_utf8_lossy (kept UNIFIED_EXEC_OUTPUT_MAX_BYTES (concat (received events))).
Proof.
  intros Hs. destruct (run_task_spec events task_new eq_refl eq_refl Hs)
    as (t & pieces & Hrun & (Hc & Hp & Ht & Hst) & Hd).
  exists t, pieces. rewrite Hst. split_and!; [done..| |done| |].
  - eapply Forall_impl; [exact Hp|]. by intros piece [[_ ?] _].
  - cbn [emitted_deltas streaming_new task_new streaming app length]. by rewrite Nat.sub_0_r.
  - assert (is_usize UNIFIED_EXEC_OUTPUT_MAX_BYTES) as Hu by (vm_compute; done).
    pose proof (push_pieces_represents pieces _ _ _ (new_represents _ Hu)) as Hr.
    rewrite Hc in Hr. by apply represents_text.
Qed.

Section Results.
Context (guess : list byte → str) (decode : str → list byte → str * bool) (to_lowercase : str → str).

Abbreviation smart := (bytes_to_string_smart guess decode).
Abbreviation denied := (is_likely_sandbox_denied to_lowercase).

(** What is kept of a pipe: its first bytes, or nothing at all when it is
    still open some time after the command has ended. *)
Definition captured (pipe : Pipe) (bs : list byte) : list byte :=
  if drains_in_time pipe then take EXEC_OUTPUT_MAX_BYTES bs else [].

Lemma await_captured streamed pipe bs :
  read_all (pipe_reads pipe) = Some bs →
  await_with_timeout streamed pipe = Ok (stream_new (captured pipe bs)).
Proof.
  intros Hr. unfold await_with_timeout, captured. destruct (drains_in_time pipe); [|done].
  by destruct (read_capped_spec streamed _ _ Hr) as [d ->].
Qed.

(** The texts of a result are those of the captured bytes. *)
Definition shows (output : ExecToolCallOutput) (out err : list byte) : Prop :=
  text (stdout output) = smart out ∧ text (stderr output) = smart err ∧
  ∃ both, put_together out err both ∧ text (aggregated_output output) = smart both.

(** The output of a command that exited. *)
Definition exited_with (e : ChildEnd) (out err : list byte) (output : ExecToolCallOutput) : Prop :=
  ∃ status, e = ChildExited (Some status) ∧ signal status = None ∧
    exit_code output = default (-1)%Z (code status) ∧ timed_out output = false ∧
    shows output out err.

(** How a command ends.  A command that exits gives its exit code, as a
    result or as a denial of the sandbox, which is judged by the code and the
    texts; one that is out of time is a time-out with exit code 124; one that a
    signal ends gives an error without its output.  The texts are those of the
    first bytes of each pipe and of both together within the same limit. *)
Theorem exec_result_spec (e : ChildEnd) (streamed : bool) (out_pipe err_pipe : Pipe)
    (out err : list byte) (sandbox_type : SandboxType) (duration : Z) :
  read_all (pipe_reads out_pipe) = Some out → read_all (pipe_reads err_pipe) = Some err →
  match finalize_exec_result guess decode to_lowercase
          (consume_truncated_output e streamed out_pipe err_pipe) sandbox_type duration with
  | Ok output =>
      exited_with e (captured out_pipe out) (captured err_pipe err) output ∧
      denied sandbox_type output = false
  | Err (ExecDenied output) =>
      exited_with e (captured out_pipe out) (captured err_pipe err) output ∧
      denied sandbox_type output = true
  | Err (SandboxTimeout output) =>
      (e = ChildExpired true ∨
       ∃ status, e = ChildExited (Some status) ∧ signal status = Some TIMEOUT_CODE) ∧
      exit_code output = EXEC_TIMEOUT_EXIT_CODE ∧ timed_out output = true ∧
      shows output (captured out_pipe out) (captured err_pipe err)
  | Err (SandboxSignal n) =>
      (e = ChildInterrupted true ∧ n = SIGKILL_CODE) ∨
      ∃ status, e = ChildExited (Some status) ∧ signal status = Some n ∧ n ≠ TIMEOUT_CODE
  | Err ExecIo => child_status e = Err ExecIo
  | Panic | NoFuel => False
  end.
Proof.
  intros Ho He. unfold consume_truncated_output.
  rewrite (await_captured streamed out_pipe out Ho), (await_captured streamed err_pipe err He).
  assert (∀ code d t, shows {| exit_code := code;
      stdout := stream_from_utf8_lossy guess decode (stream_new (captured out_pipe out));
      stderr := stream_from_utf8_lossy guess decode (stream_new (captured err_pipe err));
      aggregated_output := stream_from_utf8_lossy guess decode
        (aggregate_output (stream_new (captured out_pipe out)) (stream_new (captured err_pipe err)));
      duration := d; timed_out := t |} (captured out_pipe out) (captured err_pipe err)) as Hshows.
  { intros c d t. split_and!; [done..|]. eexists.
    split; [apply (aggregate_output_spec (stream_new _) (stream_new _))|done]. }
  destruct e as [[status|]|[]|[]]; try done; cbn [child_status mbind outcome_bind finalize_exec_result
    exit_status raw_timed_out raw_stdout raw_stderr raw_aggregated_output].
  - destruct (signal status) as [n|] eqn:Hn.
    + destruct (Z.eqb_spec n TIMEOUT_CODE) as [->|]; cbn [mbind outcome_bind]; [|right; by exists status].
      split_and!; [right; by exists status|done|done|apply Hshows].
    + cbn [mbind outcome_bind]. destruct (denied _ _) eqn:Hd; (split; [|done]);
        exists status; split_and!; try done; apply Hshows.
  - assert (signal (synthetic_exit_status (EXIT_CODE_SIGNAL_BASE + TIMEOUT_CODE)) = Some TIMEOUT_CODE) as -> by done.
    rewrite Z.eqb_refl. cbn [mbind outcome_bind].
    split_and!; [by left|done|done|apply Hshows].
  - assert (signal (synthetic_exit_status (EXIT_CODE_SIGNAL_BASE + SIGKILL_CODE)) = Some SIGKILL_CODE) as -> by done.
    by left.
Qed.

(** ** Text in the output *)

(** Output that is text is shown as it is, whatever the detector would say. *)
Lemma text_output_shown pipe s :
  scalars s → drains_in_time pipe = true → length (encode s) ≤ EXEC_OUTPUT_MAX_BYTES →
  smart (captured pipe (encode s)) = s.
Proof.
  intros Hs Hd Hl. unfold captured. rewrite Hd, take_ge by done.
  unfold bytes_to_string_smart. rewrite (from_utf8_encode s Hs).
  destruct (encode s) as [|b bs] eqn:E; [|done].
  destruct s as [|c s]; [done|]. rewrite encode_cons in E.
  apply (f_equal length) in E. rewrite length_app in E. pose proof (encode_char_length c).
  simpl in E. lia.
Qed.

(** Text that is cut at the limit inside a character is no longer text, and
    all of it is decoded in the encoding the detector guesses. *)
Lemma cut_output_is_guessed pipe a c b :
  scalars (a ++ c :: b) → drains_in_time pipe = true →
  length (encode a) < EXEC_OUTPUT_MAX_BYTES < length (encode (a ++ [c])) →
  let bytes := captured pipe (encode (a ++ c :: b)) in
  smart bytes = decode_bytes decode bytes (detect_encoding guess bytes).
Proof.
  intros Hs Hd Hl. unfold captured. rewrite Hd. generalize dependent EXEC_OUTPUT_MAX_BYTES. intros max Hl.
  apply Forall_app in Hs as [Ha [Hc Hb]%Forall_cons].
  rewrite encode_app, length_app in Hl. change (encode [c]) with (encode_char c ++ []) in Hl.
  rewrite app_nil_r in Hl. cbn zeta. rewrite encode_app, encode_cons, take_app, take_ge by lia.
  rewrite take_app_le by lia.
  set (rem := take (max - length (encode a)) (encode_char c)).
  assert (cut_char rem) as Hcut.
  { split; [|exists c, (drop (max - length (encode a)) (encode_char c))].
    - intros Hn%(f_equal length). unfold rem in Hn. rewrite length_take in Hn. simpl in Hn. lia.
    - split_and!; [done| |by unfold rem; rewrite take_drop].
      intros Hn%(f_equal length). rewrite length_drop in Hn. simpl in Hn. lia. }
  unfold bytes_to_string_smart. rewrite (from_utf8_cut a rem Ha Hcut).
  destruct (encode a ++ rem) as [|x l] eqn:E; [|done].
  apply app_nil in E as [_ E]. by destruct Hcut.
Qed.
End Results.

(** ** Instances and examples *)
Lemma exec_result_witness :
  let pipe bs := {| pipe_reads := [Some bs]; drains_in_time := true |} in
  let status := 0x300%Z in
  ∃ output,
    finalize_exec_result (λ _, WINDOWS_1252) (λ _ bs, (bs, false)) to_ascii_lowercase
      (consume_truncated_output (ChildExited (Some status)) false (pipe (lit "hi")) (pipe (lit "no")))
      LinuxSeccomp 7 = Ok output ∧
    exited_with (λ _, WINDOWS_1252) (λ _ bs, (bs, false)) (ChildExited (Some status)) (lit "hi") (lit "no") output ∧
    exit_code output = 3%Z ∧ text (aggregated_output output) = lit "hino".
Proof.
  set (pipe bs := {| pipe_reads := [Some bs]; drains_in_time := true |}). intros pipe' status.
  eexists. split; [vm_compute; reflexivity|]. split; [|by split].
  pose proof (exec_result_spec (λ _, WINDOWS_1252) (λ _ bs, (bs, false)) to_ascii_lowercase
    (ChildExited (Some status)) false (pipe (lit "hi")) (pipe (lit "no")) (lit "hi") (lit "no")
    LinuxSeccomp 7 eq_refl eq_refl) as H.
  match type of H with match ?m with _ => _ end =>
    let v := eval vm_compute in m in assert (m = v) as E by (vm_compute; reflexivity) end.
  rewrite E in H. exact (proj1 H).
Defined.

(** A process that prints, exits, and whose last output is waited for. *)
Definition sample_schedule : list TaskEvent :=
  [Received (lit "hello "); Lagged 2%N; ExitSeen; Received (lit "world"); GraceElapsed].

Lemma stream_of_process_witness :
  ∃ t pieces, run_task task_new sample_schedule = Ok t ∧
    drained t = existsb ends_task sample_schedule ∧
    concat pieces = concat (received sample_schedule) ∧
    Forall (λ piece, length piece ≤ UNIFIED_EXEC_OUTPUT_DELTA_MAX_BYTES) pieces ∧
    (Forall is_text (received sample_schedule) → Forall is_text pieces) ∧
    emitted_deltas (streaming t) = take MAX_EXEC_OUTPUT_DELTAS_PER_CALL pieces ∧
    resolve_aggregated_output (transcript (streaming t)) []
    = if bool_decide (concat (received sample_schedule) = []) then []
      else from_utf8_lossy (kept UNIFIED_EXEC_OUTPUT_MAX_BYTES (concat (received sample_schedule))).
Proof. apply (stream_of_process sample_schedule []). by repeat split. Defined.

(** A character that comes in two chunks is sent as two pieces that are not
    text; nothing is kept back for the next chunk. *)
Example character_across_chunks_is_broken :
  encode [0xE9%N] = [0xC3; 0xA9]%N ∧
  (emitted_deltas ∘ streaming <$> run_task task_new [Received [0xC3]; Received [0xA9]]%N) = Ok [[0xC3]; [0xA9]]%N.
Proof. split; vm_compute; reflexivity. Qed.

(** Text in front of an invalid byte comes byte by byte, its characters broken. *)
Example text_before_invalid_byte_is_broken :
  (emitted_deltas ∘ streaming <$> run_task task_new
     [Received (encode [0xE9%N] ++ lit "abcde" ++ [0xFF%N] ++ lit "fghij")])
  = Ok [[0xC3]; [0xA9]; [97]; [98]; [99]; [100]; [101]; [0xFF]; lit "fghij"]%N.
Proof. vm_compute. reflexivity. Qed.

(** A command that exits with status 0 and leaves a child behind that keeps
    the pipes open: all it printed is lost. *)
Example output_of_background_child_is_lost :
  let pipe bs := {| pipe_reads := [Some bs]; drains_in_time := false |} in
  (λ o, (exit_code o, text (stdout o), text (aggregated_output o))) <$>
    finalize_exec_result (λ _, WINDOWS_1252) (λ _ bs, (bs, false)) to_ascii_lowercase
      (consume_truncated_output (ChildExited (Some 0%Z)) false (pipe (lit "done")) (pipe []))
      SandboxNone 0
  = Ok (0%Z, [], []).
Proof. vm_compute. reflexivity. Qed.
